(* ===== verification/_CoqProject ===== *)
-Q . S2P
Prelude.v
Errors.v
Text.v
Retry.v
Buffer.v
Checksum.v
Frame.v
Messages.v
Fragment.v
FragmentCorrect.v
Mex.v
ReqRes.v
Conc.v
Health.v
Connection.v
SystemErrors.v
ConnectionSafe.v
ConnectionRun.v
Headers.v
Calls.v
Transport.v
Http.v
Context.v
Tracing.v
Raw.v
Json.v
JsonHandler.v
Handlers.v
Hyperbahn.v
Listener.v
Registry.v
LocalIP.v
Metrics.v
CallStats.v
Tally.v
Thrift.v
ThriftStructs.v
ThriftMeta.v
ThriftGen.v
Clients.v
LazyMessages.v
RelaySend.v
Relay.v
RelaySafe.v
RelayRun.v
RelayForward.v
PeerHeap.v
Peer.v
PeerCorrect.v
PeerShared.v
PeerSafe.v
Channel.v
FrameLoops.v
HyperbahnClient.v
HyperbahnStructs.v
Serve.v
ChannelSafe.v
ChannelRun.v
Preinit.v
Spans.v
Introspection.v
