(* ===== verification/Prelude.v ===== *)
(** * A verification of tchannel-go

    TChannel is a protocol that multiplexes many calls over one connection, in frames
    that can be forwarded by relays.  This development models the Go library, from the
    bytes of a frame to the handlers of its users, as functions and step relations,
    and proves what makes its parts correct.  Definitions have the names of the source
    where Rocq allows it; a prefix tells methods of the same name apart (rr_ and rw_
    for reqResReader and reqResWriter, pl_ for PeerList, ch_ for Channel, ...).

    ** How Go is modelled

    - Bytes and strings are lists of [byte]; machine integers are [Z] with the
      conversions of the source written out ([uint16], [uint64], ...); maps are [gmap],
      and where Go iterates over a map the order is an argument ([MapRange]).
    - Sequential code is a function in the monad [GO S], state [S] with the outcomes
      [Ret], [Panic] and [OutOfFuel]; errors are values of the type [error] of Errors.v.
      Objects that are shared live in heaps of their component and are addressed by
      references (exchanges, frames, peers, header maps of contexts, handlerMaps).
    - Code that runs in several goroutines is a [prog] (Conc.v): a tree of atomic
      actions, one per critical section or atomic operation of the source, and other
      goroutines can act between two of them.  The theorems about the life of
      connections and channels ([connection_drains], [connection_lifecycle],
      [channel_lifecycle]), the reader of a connection ([readFrames_decodes]) and the
      tally reporter hold for every interleaving; so do those about the listener of tnet,
      which is a step relation.  The theorems about the relay ([relay_accounting],
      [relay_no_panic], [relay_forwards]), the writer of a connection ([frames_cross])
      and the peer lists ([peers_shared], [Get_best]) run each handler or method alone,
      one after another: some interleavings of these do break the properties, and the
      defects below say how.
    - A channel operation that would block for ever in the model's state is
      [OutOfFuel]; a loop that the structure of its data does not bound has a fuel
      argument, and the theorems say how much is enough: a reader needs more than the
      number of frames of the call, ReadAll more room than the length of what it
      reads, the JSON decoder more reads than the bytes of its buffer, the reader of a
      connection a round for every 16 bytes.
    - What is random or comes from outside (the choice of a frame from a pool, the
      result of a dial, the time, the answer of a relay host, the order of a map, the
      reads of the network) is an argument, and the theorems hold for all of them.

    ** The parts and their files

    - Prelude: the monads, byte encodings, tactics and hints that the others share.
    - Text: what is used of strconv, strings and net (decimal numbers, host:port).
    - Errors (errors.go), Retry (retry.go): error values, codes, and the retry loop of
      RunWithRetry.
    - Buffer (typed/buffer.go), Checksum (checksum.go), Frame (frame.go, frame_pool.go),
      Messages (messages.go, Span of tracing.go): what is on the wire.  [WireMessage]
      is the interface between frames and messages: a message that has its laws makes
      the round trip through a frame, and every message type is an instance.
    - Fragment, FragmentCorrect (fragmenting_writer.go, fragmenting_reader.go):
      arguments cut into fragments with checksums.  The writer and the reader are
      proved against the interfaces [fragmentSender] and [fragmentReceiver]; calls and
      the relay are their implementations.
    - Mex (mex.go): message exchanges and the sets of a connection.
    - ReqRes (reqres.go, inbound.go, outbound.go): the three arguments of a call, from
      the caller through frames to the peer.
    - Conc: interleaved code and the rules to reason about it.
    - Health, Connection, ConnectionSafe, ConnectionRun (connection.go, health.go): the
      life of a connection under every interleaving of its goroutines.
    - SystemErrors: a system error from the connection of the handler to the caller.
    - Headers (typed/reader.go, typed/writer.go, thrift/headers.go,
      thrift/arg2/kv_iterator.go): encodings over streams.
    - Calls (arguments.go, internal/argreader, the methods of calls and responses):
      the arguments as their users see them, and system and application errors.
    - Raw (raw), Json, JsonHandler (json), Thrift, Transport (thrift), Http (http): the
      four encodings of arg2 and arg3, each from the client to the handler and back.
    - ThriftStructs, ThriftMeta (thrift/meta.go, thrift/tchan-meta.go, thrift/server.go,
      thrift/gen-go/meta): the code the Thrift compiler writes for structs, over the
      interface [TProtocol] with the laws [TProtocolLaws], and the Meta service.
    - ThriftGen (thrift/thrift-gen): the names, types and services of generated code.
    - Context (context.go, context_builder.go, context_header.go, calloptions.go),
      Tracing (tracing.go, tracing_keys.go): what travels with a call.
    - Handlers (handlers.go, subchannel.go, introspection.go): which handler gets a
      call.
    - Hyperbahn (hyperbahn/advertise.go), HyperbahnClient (hyperbahn/client.go,
      utils.go, discover.go, call.go), HyperbahnStructs (hyperbahn/gen-go): the loop that
      advertises a service, the client, and a discovery on the wire.
    - Listener (tnet/listener.go): the listener whose Close waits for Accept.
    - Clients (Call of thrift/client.go and json/call.go): clients over the retry loop.
    - Registry (all_channels.go), LocalIP (localip.go), Metrics (stats/metrickey.go,
      tags of stats/tally.go, peers/prefer.go): small parts of their own.
    - CallStats (the statistics of inbound.go and outbound.go), Tally (stats/tally.go):
      what is reported of a call and its attempts, and the shared maps of the reporter.
    - LazyMessages (relay_messages.go), RelaySend, Relay, RelaySafe, RelayRun,
      RelayForward (relay.go, relay_timer_pool.go): relays.
    - PeerHeap (peer_heap.go), Peer, PeerCorrect, PeerShared, PeerSafe (peer.go,
      root_peer_list.go, peer_strategies.go): peers and the choice among them.
    - Channel, ChannelSafe, ChannelRun (channel.go, subchannel.go, idle_sweep.go): the
      life of a channel with its connections and peers.
    - FrameLoops (readFrames and writeFrames of connection.go): the loops that read and
      write the frames of a connection, from bytes to its handlers.
    - Serve (serve of channel.go, the options of connections): accepting connections.
    - Preinit (preinit_connection.go): the handshake.
    - Spans (tracing.go, the address of the peer): the spans at both ends of a call.
    - Introspection (introspection.go): the reports, as functions of the states above.

    ** What is proved

    - Round trips: messages through frames ([frame_message_roundtrip]), arguments
      through calls ([call_roundtrip]), and on top of them whole calls in each
      encoding, from the client through the frames to the handler and back
      ([raw_call_roundtrip], [json_call_roundtrip], [thrift_call_roundtrip],
      [http_request_roundtrip], [http_response_roundtrip]); its span
      ([trace_propagates]); the handshake
      ([handshake_agrees]); a call whose arg2 a relay has extended
      ([relay_appends_delivered]); a discovery from the query to the host:port strings
      ([discovery_end_to_end]); a health status between versions of the service that
      have different fields ([HealthStatus_compatible]).
    - Robustness: arbitrary bytes do not make the readers of frames, fragments and
      relayed messages panic, and are refused when they are wrong ([ReadIn_any],
      [reader_never_panics], [nextFragment_verified], [lazyCallReq_bounds],
      [handshake_total], [kv_iterator_total]); the reader of a connection hands over
      exactly the frames that its input encodes ([readFrames_decodes]), and those that are
      queued when a connection closes still cross if no write fails ([frames_cross]);
      errors reach the caller ([system_error_delivered]).
    - Concurrency: connections drain and close once ([connection_drains],
      [connection_lifecycle]), channels close when their connections have
      ([channel_lifecycle]), Close of a listener ends the accepting
      ([close_ends_accepting], [close_is_woken]).
    - Bookkeeping: exchanges are not leaked unless a peer reuses the id of an expired one
      ([mexset_tracks_live]); when its handlers run one after another and new calls have
      free ids, the relay keeps its books, ends every call once, forwards the frames of
      live calls and does not panic ([relay_accounting], [relay_forwards],
      [relay_no_panic]); when their methods run one after another, peer lists agree
      with the root list ([peers_shared]) and the best peer is chosen ([Get_best]); calls
      go to the handler that the history of registrations determines
      ([dispatch_routes]), the nodes of a valid configuration become the peers of the
      Hyperbahn client ([NewClient_adds_nodes]), the reports of a request follow from the
      outcomes of its attempts ([request_counted]), concurrent users of the tally reporter
      lose nothing ([tally_reports]), and a report lists the live calls, peers and
      connections ([exchanges_listed], [relay_listed], [channel_reported]).
    - Types and generated code: a function that json.Register accepts can be called on
      what the handler builds for it, unless it is nil ([json_handler_typed]); typedefs are
      resolved unless they run into a cycle or an include that is not there
      ([rootType_ends]), a service finds the one it extends when
      it is there, and can take another one when it is not ([extends_found]).
    - Defects: where the code does not do what it means to, the theorem states what it
      does ([json_buffer_boundary], [http_length_panics], [duplicate_peer],
      [channel_stays_open], [id_reuse], [early_answer_panics], ...).

    ** What is not modelled

    - Code outside the repository, a parameter where it is used: the Thrift library (its
      protocols and its parser), the grammar of JSON, URL parsing, the OpenTracing library
      and the spans it keeps, the tally library.  Farmhash is not computed by the source
      either.
    - The system: sockets, dialing, type-of-service marks and deadlines on them, random
      numbers, the clock.  Their results are inputs of the modelled code.
    - Output only: logging, the statsd and log reporters, pprof, stringer names.
    - Of generated Thrift code the clients and processors for plain Thrift, which this
      library does not use; of the code generator the text of its template and the
      program around it (flags, files, running the compiler).
    - Examples, benchmarks, interoperability tests and helpers for tests. *)

From Stdlib Require Export ZArith Lia.
From Stdlib Require Import Strings.Byte.
From stdpp Require Export base tactics numbers list gmap fin_maps strings.

#[global] Set Default Goal Selector "!".
Open Scope Z_scope.

(** ** Notation scope of the development *)

Declare Scope go_scope.
Delimit Scope go_scope with go.

(** ** Bytes

    A Go [byte] is [Byte.byte]; a [[]byte] or a Go [string] is a list of them.
    Conversions go through [Z]. *)

Export Corelib.Init.Byte (byte(..)).
Abbreviation bytes := (list byte).

Definition Z_of_byte (b : byte) : Z := Z.of_N (Byte.to_N b).

Definition byte_of_Z (z : Z) : byte :=
  default Byte.x00 (Byte.of_N (Z.to_N (z mod 256))).

(** A string literal of the source, as the bytes Go stores for it. *)
Definition str (s : string) : bytes := String.list_byte_of_string s.

#[export] Instance byte_eq_dec : EqDecision byte := Byte.byte_eq_dec.

#[export] Instance byte_countable : Countable byte.
Proof. refine (inj_countable Byte.to_N Byte.of_N Byte.of_to_N). Defined.

Lemma Z_of_byte_range b : 0 <= Z_of_byte b < 256.
Proof. destruct b; vm_compute; split; congruence. Qed.

Lemma byte_of_Z_of_byte b : byte_of_Z (Z_of_byte b) = b.
Proof. destruct b; reflexivity. Qed.

Lemma Z_of_byte_of_Z z : Z_of_byte (byte_of_Z z) = z mod 256.
Proof.
  unfold Z_of_byte, byte_of_Z.
  pose proof (Z.mod_pos_bound z 256 ltac:(lia)) as Hb.
  destruct (Byte.of_N (Z.to_N (z mod 256))) as [b|] eqn:E; simpl.
  - apply Byte.to_of_N in E. rewrite E. lia.
  - apply Byte.of_N_None_iff in E. lia.
Qed.

Lemma Z_of_byte_inj b1 b2 : Z_of_byte b1 = Z_of_byte b2 → b1 = b2.
Proof.
  intros H. rewrite <- (byte_of_Z_of_byte b1), <- (byte_of_Z_of_byte b2).
  by rewrite H.
Qed.

Lemma byte_of_Z_mod z : byte_of_Z (z mod 256) = byte_of_Z z.
Proof. unfold byte_of_Z. by rewrite Z.mod_mod by lia. Qed.

(** ** Machine-width integers: [uintN x] is Go's conversion to that width. *)

Definition uint8 (z : Z) : Z := z mod 2^8.
Definition uint16 (z : Z) : Z := z mod 2^16.
Definition uint32 (z : Z) : Z := z mod 2^32.
Definition uint64 (z : Z) : Z := z mod 2^64.

(** Go's conversion to a signed 64-bit integer ([int], [int64],
    [time.Duration] on the platforms the code targets). *)
Definition int64 (z : Z) : Z := (z + 2^63) mod 2^64 - 2^63.
Definition int32 (z : Z) : Z := (z + 2^31) mod 2^32 - 2^31.

Lemma uint16_small z : 0 <= z < 2^16 → uint16 z = z.
Proof. apply Z.mod_small. Qed.
Lemma uint32_small z : 0 <= z < 2^32 → uint32 z = z.
Proof. apply Z.mod_small. Qed.
Lemma uint64_small z : 0 <= z < 2^64 → uint64 z = z.
Proof. apply Z.mod_small. Qed.
Lemma uint8_small z : 0 <= z < 2^8 → uint8 z = z.
Proof. apply Z.mod_small. Qed.
Lemma int32_small z : - 2^31 <= z < 2^31 → int32 z = z.
Proof. unfold int32. intros. rewrite Z.mod_small; lia. Qed.
Lemma int64_small z : - 2^63 <= z < 2^63 → int64 z = z.
Proof. intros H. unfold int64. rewrite Z.mod_small by lia. lia. Qed.

(** ** Big-endian encodings ([encoding/binary]'s BigEndian)

    [be_enc n v] is what PutUintN stores for [v] in [n] bytes,
    [be_dec] is what UintN loads. *)

Fixpoint be_enc (n : nat) (v : Z) : bytes :=
  match n with
  | O => []
  | S n' => byte_of_Z (Z.shiftr v (8 * Z.of_nat n')) :: be_enc n' v
  end.

Fixpoint be_dec_from (acc : Z) (bs : bytes) : Z :=
  match bs with
  | [] => acc
  | b :: bs' => be_dec_from (Z.lor (Z.shiftl acc 8) (Z_of_byte b)) bs'
  end.

Definition be_dec (bs : bytes) : Z := be_dec_from 0 bs.

Lemma length_be_enc n v : length (be_enc n v) = n.
Proof. induction n as [|n IH]; simpl; [done|]. by rewrite IH. Qed.

(** Combining disjoint bit fields is addition. *)
Lemma lor_shiftl_low a b k : 0 <= k → 0 <= b < 2^k →
  Z.lor (Z.shiftl a k) b = a * 2^k + b.
Proof.
  intros Hk Hb.
  pose proof (Z.add_lor_land (Z.shiftl a k) b) as Hsum.
  assert (Hland : Z.land (Z.shiftl a k) b = 0).
  2:{ rewrite Z.shiftl_mul_pow2 in * by lia. lia. }
  apply Z.bits_inj'. intros n Hn.
  rewrite Z.land_spec, Z.bits_0, Z.shiftl_spec by lia.
  destruct (Z.ltb_spec n k).
  - by rewrite Z.testbit_neg_r by lia.
  - rewrite <- (Z.mod_small b (2^k)) by lia.
    rewrite Z.mod_pow2_bits_high by lia. by rewrite andb_false_r.
Qed.

Lemma lor_shiftl_byte acc b :
  Z.lor (Z.shiftl acc 8) (Z_of_byte b) = acc * 256 + Z_of_byte b.
Proof. pose proof (Z_of_byte_range b). apply (lor_shiftl_low acc _ 8); lia. Qed.

Lemma be_dec_from_spec acc bs :
  be_dec_from acc bs = acc * 2^(8 * Z.of_nat (length bs)) + be_dec bs.
Proof.
  unfold be_dec. revert acc. induction bs as [|b bs IH]; intros acc; simpl.
  - lia.
  - rewrite IH, (IH (Z.lor _ _)), !lor_shiftl_byte.
    replace (8 * Z.of_nat (S (length bs))) with (8 + 8 * Z.of_nat (length bs)) by lia.
    rewrite Z.pow_add_r by lia. change (2^8) with 256. ring.
Qed.

Lemma be_dec_cons b bs :
  be_dec (b :: bs) = Z_of_byte b * 2^(8 * Z.of_nat (length bs)) + be_dec bs.
Proof. unfold be_dec at 1. simpl. by rewrite be_dec_from_spec. Qed.

Lemma be_dec_range bs : 0 <= be_dec bs < 2^(8 * Z.of_nat (length bs)).
Proof.
  induction bs as [|b bs IH]; [vm_compute; split; congruence|].
  rewrite be_dec_cons. pose proof (Z_of_byte_range b).
  cbn [length].
  replace (8 * Z.of_nat (S (length bs))) with (8 + 8 * Z.of_nat (length bs)) by lia.
  rewrite Z.pow_add_r by lia. change (2^8) with 256. nia.
Qed.

Lemma be_dec_enc n v : be_dec (be_enc n v) = v mod 2^(8 * Z.of_nat n).
Proof.
  induction n as [|n IH]; [simpl; by rewrite Z.mod_1_r|].
  cbn [be_enc]. rewrite be_dec_cons, IH, length_be_enc, Z_of_byte_of_Z.
  rewrite Z.shiftr_div_pow2 by lia.
  replace (8 * Z.of_nat (S n)) with (8 * Z.of_nat n + 8) by lia.
  pose proof (Z.pow_pos_nonneg 2 (8 * Z.of_nat n) ltac:(lia) ltac:(lia)).
  rewrite Z.pow_add_r, Z.rem_mul_r by lia. change (2^8) with 256. ring.
Qed.

Lemma be_enc_dec bs : be_enc (length bs) (be_dec bs) = bs.
Proof.
  assert (Hmod : ∀ n k v, be_enc n (v + k * 2^(8 * Z.of_nat n)) = be_enc n v).
  { intros n k v. enough (∀ m, (m <= n)%nat →
      be_enc m (v + k * 2^(8 * Z.of_nat n)) = be_enc m v) by auto.
    intros m. induction m as [|m IH]; intros Hm; [done|]. cbn [be_enc].
    rewrite IH by lia. f_equal. rewrite !Z.shiftr_div_pow2 by lia.
    replace (8 * Z.of_nat n)
      with ((8 * Z.of_nat n - 8 * Z.of_nat m - 8) + 8 + 8 * Z.of_nat m) by lia.
    pose proof (Z.pow_pos_nonneg 2 (8 * Z.of_nat m) ltac:(lia) ltac:(lia)).
    rewrite !Z.pow_add_r, !Z.mul_assoc, Z.div_add by lia.
    rewrite <- byte_of_Z_mod. change (2^8) with 256.
    rewrite Z.mod_add by lia. apply byte_of_Z_mod. }
  induction bs as [|b bs IH]; [done|]. cbn [length be_enc].
  rewrite be_dec_cons. f_equal.
  - pose proof (Z.pow_pos_nonneg 2 (8 * Z.of_nat (length bs)) ltac:(lia) ltac:(lia)).
    rewrite Z.shiftr_div_pow2, Z.div_add_l by lia.
    rewrite Z.div_small by apply be_dec_range.
    rewrite Z.add_0_r. apply byte_of_Z_of_byte.
  - rewrite Z.add_comm, Hmod. apply IH.
Qed.

Lemma be_enc_dec' n bs : length bs = n → be_enc n (be_dec bs) = bs.
Proof. intros <-. apply be_enc_dec. Qed.

Arguments be_enc : simpl never.
Arguments be_dec : simpl never.

(** ** Panics

    [go A] is the outcome of Go code that may panic.  [OutOfFuel] is the outcome
    of code that has not finished: a loop that was given too few iterations, or a
    goroutine that still waits on a channel.  A theorem that a computation is [Ret]
    rules out both. *)

Inductive go (A : Type) : Type :=
| Ret (a : A)
| Panic
| OutOfFuel.
Arguments Ret {A} a.
Arguments Panic {A}.
Arguments OutOfFuel {A}.

#[export] Instance go_ret : MRet go := λ A a, Ret a.
#[export] Instance go_bind : MBind go := λ A B f m,
  match m with Ret a => f a | Panic => Panic | OutOfFuel => OutOfFuel end.

Definition is_Ret {A} (m : go A) : Prop := ∃ a, m = Ret a.

(** ** State passing

    A method with a pointer receiver of type [S] and result [A]. *)

Definition ST (S A : Type) : Type := S → A * S.

#[export] Instance st_ret S : MRet (ST S) := λ A a s, (a, s).
#[export] Instance st_bind S : MBind (ST S) := λ A B f m s,
  let '(a, s') := m s in f a s'.

Lemma st_bind_run {S A B} (f : A → ST S B) (m : ST S A) (s : S) a s' :
  m s = (a, s') → (m ≫= f) s = f a s'.
Proof. intros H. unfold mbind, st_bind. by rewrite H. Qed.

(** A method that may also panic. *)
Definition GO (S A : Type) : Type := S → go (A * S).

#[export] Instance gost_ret S : MRet (GO S) := λ A a s, Ret (a, s).
#[export] Instance gost_bind S : MBind (GO S) := λ A B f m s,
  match m s with
  | Ret (a, s') => f a s'
  | Panic => Panic
  | OutOfFuel => OutOfFuel
  end.

Lemma gost_bind_run {S A B} (f : A → GO S B) (m : GO S A) (s : S) a s' :
  m s = Ret (a, s') → (m ≫= f) s = f a s'.
Proof. intros H. unfold mbind, gost_bind. by rewrite H. Qed.

Definition gget {S} : GO S S := λ s, Ret (s, s).
Definition gmodify {S} (f : S → S) : GO S unit := λ s, Ret (tt, f s).
Definition gpanic {S A} : GO S A := λ _, Panic.

(** A method that cannot panic, and code that does not touch the state. *)
Definition glift {S A} (m : ST S A) : GO S A := λ s, Ret (m s).
Definition gcall {S A} (m : go A) : GO S A := λ s,
  match m with Ret a => Ret (a, s) | Panic => Panic | OutOfFuel => OutOfFuel end.

Lemma glift_run {S A B} (f : A → GO S B) (m : ST S A) (s : S) a s' :
  m s = (a, s') → (glift m ≫= f) s = f a s'.
Proof. intros H. unfold mbind, gost_bind, glift. by rewrite H. Qed.

(** Indexing [b[i]] and slicing [b[lo:hi]] of a slice that ends at its length. *)
Definition index (b : bytes) (i : nat) : go byte :=
  match b !! i with Some x => Ret x | None => Panic end.

Definition slice (lo hi : Z) (b : bytes) : go bytes :=
  if decide (0 <= lo ∧ lo <= hi ∧ hi <= Z.of_nat (length b))
  then Ret (take (Z.to_nat (hi - lo)) (drop (Z.to_nat lo) b)) else Panic.

Lemma index_app a x c : index (a ++ x :: c) (length a) = Ret x.
Proof. unfold index. by rewrite list_lookup_middle. Qed.

Lemma slice_app a b c lo hi :
  lo = Z.of_nat (length a) → hi = lo + Z.of_nat (length b) → slice lo hi (a ++ b ++ c) = Ret b.
Proof.
  intros -> ->. unfold slice. rewrite decide_True by (rewrite !length_app; lia).
  rewrite Nat2Z.id, drop_app_length. f_equal. apply take_app_length'. lia.
Qed.

Lemma slice_fits lo hi b :
  0 <= lo → lo <= hi → hi <= Z.of_nat (length b) →
  slice lo hi b = Ret (take (Z.to_nat (hi - lo)) (drop (Z.to_nat lo) b)).
Proof. intros H1 H2 H3. unfold slice. by rewrite decide_True by lia. Qed.

(** ** Lists *)

(** Go's len, as an integer. *)
Abbreviation len l := (Z.of_nat (length l)).

(** Writing [xs] over the elements of [l] that start at offset [i]; the part of
    [xs] that does not fit is dropped (Go's [copy(l[i:], xs)]). *)
Definition splice {A} (i : nat) (xs l : list A) : list A :=
  take i l ++ take (length l - i) xs ++ drop (i + length xs) l.

Section splice.
Context {A : Type}.
Implicit Types xs l : list A.

Lemma length_splice i xs l : (i <= length l)%nat → length (splice i xs l) = length l.
Proof.
  intros H. unfold splice.
  rewrite !length_app, !length_take, length_drop. lia.
Qed.

Lemma splice_fits i xs l : (i + length xs <= length l)%nat →
  splice i xs l = take i l ++ xs ++ drop (i + length xs) l.
Proof. intros H. unfold splice. by rewrite (take_ge xs) by lia. Qed.

Lemma take_splice_upto i xs l : (i + length xs <= length l)%nat →
  take (i + length xs) (splice i xs l) = take i l ++ xs.
Proof.
  intros H. rewrite splice_fits by done. rewrite app_assoc.
  apply take_app_length'. rewrite length_app, length_take. lia.
Qed.

Lemma drop_splice_from i xs l : (i + length xs <= length l)%nat →
  drop (i + length xs) (splice i xs l) = drop (i + length xs) l.
Proof.
  intros H. rewrite splice_fits by done. rewrite app_assoc.
  apply drop_app_length'. rewrite length_app, length_take. lia.
Qed.

Lemma take_splice_before i j xs l : (j <= i)%nat → (i <= length l)%nat →
  take j (splice i xs l) = take j l.
Proof.
  intros H H'. unfold splice.
  rewrite take_app_le by (rewrite length_take; lia).
  rewrite take_take. f_equal. lia.
Qed.
End splice.

Arguments splice : simpl never.

(** ** Automation shared by the components *)

Create HintDb tchan discriminated.
#[export] Hint Constants Opaque : tchan.

(** Run the next call of a method body: one whose outcome is known from [H], or one
    that computes. *)
Ltac run_with H := erewrite gost_bind_run by exact H; cbv beta iota.
Ltac run_step := erewrite gost_bind_run by reflexivity; cbv beta iota.

(** The same for two calls, the second of which uses the result of the first. *)
Lemma gost_bind_then {S A B C} (m : GO S A) (f : A → GO S B) (k : B → GO S C) s b s' :
  (m ≫= f) s = Ret (b, s') → (m ≫= λ a, f a ≫= k) s = k b s'.
Proof.
  unfold mbind, gost_bind. destruct (m s) as [[a s1]| |]; try done. by intros ->.
Qed.

Ltac run_then H := erewrite gost_bind_then by exact H; cbv beta iota.

(** Split the case distinction the code makes next. *)
Ltac code_case :=
  match goal with
  | |- context [bool_decide ?P] => destruct (bool_decide_reflect P)
  | |- context [decide ?P] => destruct (decide P)
  | |- context [match ?x with _ => _ end] => destruct x eqn:?
  end.
