(* ===== verification/Errors.v ===== *)
(** * Error values and the retry policy

    The errors the library returns are Go interface values.  This file has the
    type of all of them, the system errors of errors.go with their codes and
    conversions, and the retry policy of retry.go that is driven by the codes. *)

From stdpp Require Import pretty.
From S2P Require Import Prelude.

(** ** Data the errors carry *)

(** Span (tracing.go): the Zipkin-style identifiers sent with every call. *)
Record Span := mkSpan {
  traceID : Z;
  parentID : Z;
  spanID : Z;
  flags : byte
}.

Definition emptySpan : Span := mkSpan 0 0 0 x00.

(** errorMessage (messages.go): an error frame; it is also an error value. *)
Record errorMessage := mkErrorMessage {
  em_id : Z;
  errCode : byte;
  em_tracing : Span;
  em_message : bytes
}.

Inductive connectionState :=
| connectionActive
| connectionStartClose
| connectionInboundClosed
| connectionClosed.

Inductive reqResWriterState :=
| reqResWriterPreArg1
| reqResWriterPreArg2
| reqResWriterPreArg3
| reqResWriterComplete.

Inductive reqResReaderState :=
| reqResReaderPreArg1
| reqResReaderPreArg2
| reqResReaderPreArg3
| reqResReaderComplete.

#[export] Instance Span_eq_dec : EqDecision Span.
Proof. solve_decision. Defined.
#[export] Instance errorMessage_eq_dec : EqDecision errorMessage.
Proof. solve_decision. Defined.
#[export] Instance connectionState_eq_dec : EqDecision connectionState.
Proof. solve_decision. Defined.
#[export] Instance reqResWriterState_eq_dec : EqDecision reqResWriterState.
Proof. solve_decision. Defined.
#[export] Instance reqResReaderState_eq_dec : EqDecision reqResReaderState.
Proof. solve_decision. Defined.

(** Go constants are ordered; the code compares connection states. *)
Definition connectionState_int (s : connectionState) : Z :=
  match s with
  | connectionActive => 1
  | connectionStartClose => 2
  | connectionInboundClosed => 3
  | connectionClosed => 4
  end.

Definition connectionState_String (s : connectionState) : bytes :=
  match s with
  | connectionActive => str "connectionActive"
  | connectionStartClose => str "connectionStartClose"
  | connectionInboundClosed => str "connectionInboundClosed"
  | connectionClosed => str "connectionClosed"
  end.

Definition reqResWriterState_String (s : reqResWriterState) : bytes :=
  match s with
  | reqResWriterPreArg1 => str "reqResWriterPreArg1"
  | reqResWriterPreArg2 => str "reqResWriterPreArg2"
  | reqResWriterPreArg3 => str "reqResWriterPreArg3"
  | reqResWriterComplete => str "reqResWriterComplete"
  end.

Definition reqResReaderState_String (s : reqResReaderState) : bytes :=
  match s with
  | reqResReaderPreArg1 => str "reqResReaderPreArg1"
  | reqResReaderPreArg2 => str "reqResReaderPreArg2"
  | reqResReaderPreArg3 => str "reqResReaderPreArg3"
  | reqResReaderComplete => str "reqResReaderComplete"
  end.

(** ** Sentinel errors: package-level values compared by identity *)

Inductive sentinel :=
(* typed/buffer.go *)
| ErrEOF | ErrBufferFull | errStringTooLong
(* io, context, encoding/binary *)
| io_EOF | io_ErrUnexpectedEOF | binary_errOverflow
| context_DeadlineExceeded | context_Canceled
(* checksum.go, fragmenting_reader.go, fragmenting_writer.go *)
| errInvalidChecksumType
| errMismatchedChecksumTypes | errMismatchedChecksums
| errChunkExceedsFragmentSize | errEmptyFragment
| errAlreadyReadingArgument | errNotReadingArgument
| errMoreDataInArgument | errExpectedMoreArguments | errNoMoreFragments
| errAlreadyWritingArgument | errNotWritingArgument | errComplete
(* mex.go *)
| errDuplicateMex | errMexShutdown | errMexSetShutdown | errUnexpectedFrameType
(* inbound.go, connection.go *)
| errInboundRequestAlreadyActive | ErrConnectionClosed | ErrSendBufferFull
(* relay.go *)
| errUnknownID | errNoNHInArg2 | errFragmentedArg2WithAppend | errArg2ThriftOnly
(* peer.go, channel.go *)
| ErrNoPeers | ErrPeerNotFound | ErrNoNewPeers
| errAlreadyListening | errInvalidStateForOp | errMaxIdleTimeNotSet | ErrNoServiceName.

#[export] Instance sentinel_eq_dec : EqDecision sentinel.
Proof. solve_decision. Defined.

Definition sentinel_text (s : sentinel) : bytes :=
  match s with
  | ErrEOF => str "buffer is too small"
  | ErrBufferFull => str "no more room in buffer"
  | errStringTooLong => str "string is too long"
  | io_EOF => str "EOF"
  | io_ErrUnexpectedEOF => str "unexpected EOF"
  | binary_errOverflow => str "binary: varint overflows a 64-bit integer"
  | context_DeadlineExceeded => str "context deadline exceeded"
  | context_Canceled => str "context canceled"
  | errInvalidChecksumType => str "peer sent an unknown checksum type"
  | errMismatchedChecksumTypes => str "peer returned different checksum types between fragments"
  | errMismatchedChecksums => str "different checksums between peer and local"
  | errChunkExceedsFragmentSize => str "peer chunk size exceeds remaining data in fragment"
  | errEmptyFragment => str "peer fragment contained no chunks"
  | errAlreadyReadingArgument => str "already reading argument"
  | errNotReadingArgument => str "not reading argument"
  | errMoreDataInArgument => str "closed argument reader when there is more data available to read"
  | errExpectedMoreArguments => str "closed argument reader when there may be more data available to read"
  | errNoMoreFragments => str "no more fragments"
  | errAlreadyWritingArgument => str "already writing argument"
  | errNotWritingArgument => str "not writing argument"
  | errComplete => str "last argument already sent"
  | errDuplicateMex => str "multiple attempts to use the message id"
  | errMexShutdown => str "mex has been shutdown"
  | errMexSetShutdown => str "mexset has been shutdown"
  | errUnexpectedFrameType => str "unexpected frame received"
  | errInboundRequestAlreadyActive => str "inbound request is already active; possible duplicate client id"
  | ErrConnectionClosed => str "connection is closed"
  | ErrSendBufferFull => str "connection send buffer is full, cannot send frame"
  | errUnknownID => str "non-callReq for inactive ID"
  | errNoNHInArg2 => str "no nh in arg2"
  | errFragmentedArg2WithAppend => str "fragmented arg2 not supported for appends"
  | errArg2ThriftOnly => str "cannot inspect or modify arg2 for non-Thrift calls"
  | ErrNoPeers => str "no peers available"
  | ErrPeerNotFound => str "peer not found"
  | ErrNoNewPeers => str "no new peer available"
  | errAlreadyListening => str "channel already listening"
  | errInvalidStateForOp => str "channel is in an invalid state for that method"
  | errMaxIdleTimeNotSet => str "IdleCheckInterval is set but MaxIdleTime is zero"
  | ErrNoServiceName => str "no service name provided"
  end.

(** ** Error values *)

Inductive error :=
| Sentinel (s : sentinel)
| SystemError (code : byte) (msg : bytes) (wrapped : option error)
| ErrorMessage (m : errorMessage)
| errReqResWriterStateMismatch (state expectedState : reqResWriterState)
| errReqResReaderStateMismatch (state expectedState : reqResReaderState)
| errConnNotActive (info : bytes) (state : connectionState)
| netError (timeout temporary : bool) (msg : bytes)
| otherError (msg : bytes).

Coercion Sentinel : sentinel >-> error.

#[export] Instance error_eq_dec : EqDecision error.
Proof.
  refine (fix go (e1 e2 : error) {struct e1} : Decision (e1 = e2) :=
    match e1, e2 with
    | Sentinel a, Sentinel b => cast_if (decide (a = b))
    | SystemError c1 m1 w1, SystemError c2 m2 w2 =>
        cast_if_and3 (decide (c1 = c2)) (decide (m1 = m2))
          (match w1, w2 return Decision (w1 = w2) with
           | None, None => left eq_refl
           | Some x, Some y =>
               match go x y with left H => left (f_equal Some H) | right H => right _ end
           | _, _ => right _
           end)
    | ErrorMessage a, ErrorMessage b => cast_if (decide (a = b))
    | errReqResWriterStateMismatch a b, errReqResWriterStateMismatch c d =>
        cast_if_and (decide (a = c)) (decide (b = d))
    | errReqResReaderStateMismatch a b, errReqResReaderStateMismatch c d =>
        cast_if_and (decide (a = c)) (decide (b = d))
    | errConnNotActive a b, errConnNotActive c d =>
        cast_if_and (decide (a = c)) (decide (b = d))
    | netError a b c, netError d e f =>
        cast_if_and3 (decide (a = d)) (decide (b = e)) (decide (c = f))
    | otherError a, otherError b => cast_if (decide (a = b))
    | _, _ => right _
    end); clear go; abstract congruence.
Defined.

(** ** System error codes (errors.go) *)

Definition ErrCodeInvalid : byte := x00.
Definition ErrCodeTimeout : byte := x01.
Definition ErrCodeCancelled : byte := x02.
Definition ErrCodeBusy : byte := x03.
Definition ErrCodeDeclined : byte := x04.
Definition ErrCodeUnexpected : byte := x05.
Definition ErrCodeBadRequest : byte := x06.
Definition ErrCodeNetwork : byte := x07.
Definition ErrCodeProtocol : byte := xff.

Definition SystemErrCode_String (c : byte) : bytes :=
  match c with
  | x00 => str "ErrCodeInvalid"
  | x01 => str "ErrCodeTimeout"
  | x02 => str "ErrCodeCancelled"
  | x03 => str "ErrCodeBusy"
  | x04 => str "ErrCodeDeclined"
  | x05 => str "ErrCodeUnexpected"
  | x06 => str "ErrCodeBadRequest"
  | x07 => str "ErrCodeNetwork"
  | xff => str "ErrCodeProtocol"
  | c => str "SystemErrCode(" ++ str (pretty (Z_of_byte c)) ++ str ")"
  end.

Definition MetricsKey (c : byte) : bytes :=
  match c with
  | x00 => str "invalid"
  | x01 => str "timeout"
  | x02 => str "cancelled"
  | x03 => str "busy"
  | x04 => str "declined"
  | x05 => str "unexpected-error"
  | x06 => str "bad-request"
  | x07 => str "network-error"
  | xff => str "protocol-error"
  | c => SystemErrCode_String c
  end.

Definition relayMetricsKey (c : byte) : bytes :=
  match c with
  | x00 => str "relay-invalid"
  | x01 => str "relay-timeout"
  | x02 => str "relay-cancelled"
  | x03 => str "relay-busy"
  | x04 => str "relay-declined"
  | x05 => str "relay-unexpected-error"
  | x06 => str "relay-bad-request"
  | x07 => str "relay-network-error"
  | xff => str "relay-protocol-error"
  | c => str "relay-" ++ SystemErrCode_String c
  end.

(** The text of an error: Go's Error() method of each of the types. *)
Definition Error (e : error) : bytes :=
  match e with
  | Sentinel s => sentinel_text s
  | SystemError code msg _ =>
      str "tchannel error " ++ SystemErrCode_String code ++ str ": " ++ msg
  | ErrorMessage m =>
      str "tchannel error " ++ SystemErrCode_String (errCode m) ++ str ": " ++ em_message m
  | errReqResWriterStateMismatch s x =>
      str "attempting write outside of expected state, in " ++ reqResWriterState_String s
        ++ str " expected " ++ reqResWriterState_String x
  | errReqResReaderStateMismatch s x =>
      str "attempting read outside of expected state, in " ++ reqResReaderState_String s
        ++ str " expected " ++ reqResReaderState_String x
  | errConnNotActive info s =>
      info ++ str " connection is not active: " ++ connectionState_String s
  | netError _ _ msg => msg
  | otherError msg => msg
  end.

(** NewSystemError; the message is formatted by the caller. *)
Definition NewSystemError (code : byte) (msg : bytes) : error := SystemError code msg None.

Definition NewWrappedSystemError (code : byte) (wrapped : error) : error :=
  match wrapped with
  | SystemError _ _ _ => wrapped
  | _ => SystemError code (Error wrapped) (Some wrapped)
  end.

Definition ErrServerBusy := NewSystemError ErrCodeBusy (str "server busy").
Definition ErrRequestCancelled := NewSystemError ErrCodeCancelled (str "request cancelled").
Definition ErrTimeout := NewSystemError ErrCodeTimeout (str "timeout").
Definition ErrTimeoutRequired := NewSystemError ErrCodeBadRequest (str "timeout required").
Definition ErrChannelClosed := NewSystemError ErrCodeDeclined (str "closed channel").
Definition ErrMethodTooLarge := NewSystemError ErrCodeProtocol (str "method too large").

Definition GetContextError (err : error) : error :=
  match err with
  | Sentinel context_DeadlineExceeded => ErrTimeout
  | Sentinel context_Canceled => ErrRequestCancelled
  | _ => err
  end.

Definition GetSystemErrorCode (err : option error) : byte :=
  match err with
  | None => ErrCodeInvalid
  | Some (SystemError code _ _) => code
  | Some _ => ErrCodeUnexpected
  end.

Definition GetSystemErrorMessage (err : error) : bytes :=
  match err with
  | SystemError _ msg _ => msg
  | _ => Error err
  end.

(** errorMessage.AsSystemError (messages.go) *)
Definition AsSystemError (m : errorMessage) : error :=
  NewSystemError (errCode m) (em_message m).
