(* ===== verification/Text.v ===== *)
(** * Text of the Go standard library (strconv, strings, net)

    Decimal numbers, splitting and joining, upper case and host:port strings, as the
    client of Hyperbahn, introspection and the code generator use them.  Strings are
    lists of bytes. *)

From stdpp Require Import pretty sorting.
From S2P Require Import Prelude.

(** ** strings *)

(** strings.IndexByte and strings.LastIndexByte; [None] is -1. *)
Fixpoint IndexByte (s : bytes) (c : byte) : option nat :=
  match s with
  | [] => None
  | b :: s => if decide (b = c) then Some 0%nat else S <$> IndexByte s c
  end.

Fixpoint LastIndexByte (s : bytes) (c : byte) : option nat :=
  match s with
  | [] => None
  | b :: s =>
      match LastIndexByte s c with
      | Some i => Some (S i)
      | None => if decide (b = c) then Some 0%nat else None
      end
  end.

(** strings.Split(s, sep) for a separator of one byte. *)
Fixpoint SplitByte (sep : byte) (s : bytes) : list bytes :=
  match s with
  | [] => [[]]
  | b :: s =>
      if decide (b = sep) then [] :: SplitByte sep s
      else match SplitByte sep s with [] => [[b]] | p :: ps => (b :: p) :: ps end
  end.

(** strings.SplitN(s, sep, 2) for a separator of one byte: the parts around the first
    one, if there is one. *)
Definition SplitN2 (sep : byte) (s : bytes) : option (bytes * bytes) :=
  match IndexByte s sep with
  | None => None
  | Some i => Some (take i s, drop (S i) s)
  end.

(** strings.Join(parts, sep). *)
Fixpoint Join (parts : list bytes) (sep : bytes) : bytes :=
  match parts with
  | [] => []
  | [p] => p
  | p :: ps => p ++ sep ++ Join ps sep
  end.

Definition HasPrefix (s prefix : bytes) : bool := bool_decide (prefix `prefix_of` s).
Definition HasSuffix (s suffix : bytes) : bool := bool_decide (suffix `suffix_of` s).

Definition TrimPrefix (s prefix : bytes) : bytes :=
  if HasPrefix s prefix then drop (length prefix) s else s.
Definition TrimSuffix (s suffix : bytes) : bytes :=
  if HasSuffix s suffix then take (length s - length suffix) s else s.

(** strings.ToUpper on ASCII. *)
Definition isLower (b : byte) : bool := bool_decide (97 <= Z_of_byte b <= 122).
Definition upperByte (b : byte) : byte := if isLower b then byte_of_Z (Z_of_byte b - 32) else b.
Definition ToUpper (s : bytes) : bytes := upperByte <$> s.

(** strings.ToLower on ASCII. *)
Definition isUpper (b : byte) : bool := bool_decide (65 <= Z_of_byte b <= 90).
Definition lowerByte (b : byte) : byte := if isUpper b then byte_of_Z (Z_of_byte b + 32) else b.
Definition ToLower (s : bytes) : bytes := lowerByte <$> s.

(** The order of strings: by the first byte that differs, a prefix comes first. *)
Fixpoint bytes_leb (a b : bytes) : bool :=
  match a, b with
  | [], _ => true
  | _ :: _, [] => false
  | x :: a, y :: b => if decide (x = y) then bytes_leb a b else bool_decide (Z_of_byte x < Z_of_byte y)
  end.
Definition bytes_le (a b : bytes) : Prop := bytes_leb a b = true.

#[export] Instance bytes_le_dec : RelDecision bytes_le := λ a b, bool_eq_dec _ _.

(** sort.Strings, and sort.Sort by a name. *)
Definition sortStrings : list bytes → list bytes := merge_sort bytes_le.
Definition by_name {A} (name : A → bytes) (x y : A) : Prop := bytes_le (name x) (name y).
#[export] Instance by_name_dec {A} (name : A → bytes) : RelDecision (by_name name) := λ x y, bytes_le_dec _ _.
Definition sortByName {A} (name : A → bytes) : list A → list A := merge_sort (by_name name).

(** sort.Search(n, f) with its loop: [i] and [j] are the bounds. *)
Fixpoint Search_loop (fuel : nat) (f : nat → bool) (i j : nat) : go nat :=
  if decide (i < j)%nat then
    match fuel with
    | O => OutOfFuel
    | S fuel =>
        let h := Nat.div2 (i + j) in
        if f h then Search_loop fuel f i h else Search_loop fuel f (S h) j
    end
  else Ret i.
Definition Search (n : nat) (f : nat → bool) : go nat := Search_loop n f 0 n.

(** ** strconv *)

Definition Itoa (n : Z) : bytes := str (pretty n).

(** ** net *)

Definition colon : byte := x3a.
Definition dot : byte := x2e.

(** net.JoinHostPort: a host with a colon is put in brackets. *)
Definition JoinHostPort (host port : bytes) : bytes :=
  if decide (colon ∈ host) then [x5b] ++ host ++ [x5d] ++ [colon] ++ port else host ++ [colon] ++ port.

Inductive addrError :=
| missingPort
| tooManyColons
| missingBracket
| unexpectedOpen
| unexpectedClose.

(** net.SplitHostPort: the host and the brackets checked for in front of [j] and [k]. *)
Definition SplitHostPort (hostport : bytes) : bytes * bytes + addrError :=
  match LastIndexByte hostport colon with
  | None => inr missingPort
  | Some i =>
      let finish (host : bytes) (j k : nat) : bytes * bytes + addrError :=
        if decide (x5b ∈ drop j hostport) then inr unexpectedOpen
        else if decide (x5d ∈ drop k hostport) then inr unexpectedClose
        else inl (host, drop (S i) hostport) in
      if decide (hostport !! 0%nat = Some x5b) then
        match IndexByte hostport x5d with
        | None => inr missingBracket
        | Some e =>
            if decide (S e = length hostport) then inr missingPort
            else if decide (S e = i) then finish (drop 1 (take e hostport)) 1%nat (S e)
            else if decide (hostport !! S e = Some colon) then inr tooManyColons
            else inr missingPort
        end
      else
        let host := take i hostport in
        if decide (colon ∈ host) then inr tooManyColons else finish host 0%nat 0%nat
  end.

(** ** Lemmas *)

Lemma IndexByte_None s c : IndexByte s c = None ↔ c ∉ s.
Proof.
  induction s as [|b s IH]; cbn; [rewrite elem_of_nil; naive_solver|]. rewrite not_elem_of_cons.
  case_decide; [subst; naive_solver|]. rewrite fmap_None, IH. naive_solver.
Qed.

Lemma IndexByte_app s c d : c ∉ s → IndexByte (s ++ c :: d) c = Some (length s).
Proof.
  induction s as [|b s IH]; intros Hs; cbn; [by rewrite decide_True|].
  apply not_elem_of_cons in Hs as [Hb Hs]. rewrite decide_False by congruence. by rewrite IH.
Qed.

Lemma LastIndexByte_None s c : LastIndexByte s c = None ↔ c ∉ s.
Proof.
  induction s as [|b s IH]; cbn; [rewrite elem_of_nil; naive_solver|]. rewrite not_elem_of_cons.
  destruct (LastIndexByte s c); [split; [done|]; intros [_ ?%IH]; done|].
  case_decide; [subst; naive_solver|]. naive_solver.
Qed.

Lemma LastIndexByte_app s c d : c ∉ d → LastIndexByte (s ++ c :: d) c = Some (length s).
Proof.
  intros Hd%LastIndexByte_None. induction s as [|b s IH]; cbn; [by rewrite Hd, decide_True|]. by rewrite IH.
Qed.

Lemma SplitByte_ne sep s : SplitByte sep s ≠ [].
Proof. destruct s as [|b s]; cbn; [done|]. case_decide; [done|]. by destruct (SplitByte sep s). Qed.

Lemma SplitByte_free sep p : sep ∉ p → SplitByte sep p = [p].
Proof.
  induction p as [|b p IH]; intros Hp; [done|]. apply not_elem_of_cons in Hp as [Hb Hp]. cbn.
  rewrite decide_False by congruence. by rewrite IH.
Qed.

Lemma SplitByte_app sep p s : sep ∉ p → SplitByte sep (p ++ sep :: s) = p :: SplitByte sep s.
Proof.
  induction p as [|b p IH]; intros Hp; cbn; [by rewrite decide_True|].
  apply not_elem_of_cons in Hp as [Hb Hp]. rewrite decide_False by congruence. by rewrite IH.
Qed.

(** Splitting is the inverse of joining parts without the separator. *)
Lemma Split_Join sep ps : ps ≠ [] → Forall (λ p, sep ∉ p) ps → SplitByte sep (Join ps [sep]) = ps.
Proof.
  intros Hne Hf. induction Hf as [|p ps Hp Hf IH]; [done|]. destruct ps as [|q ps]; cbn [Join].
  - by apply SplitByte_free.
  - cbn [app]. rewrite SplitByte_app by done. f_equal. by apply IH.
Qed.

Lemma Join_Split sep s : Join (SplitByte sep s) [sep] = s.
Proof.
  induction s as [|b s IH]; [done|]. cbn [SplitByte]. case_decide as Hb.
  - subst b. destruct (SplitByte sep s) as [|p ps] eqn:E; [by apply SplitByte_ne in E|].
    cbn [Join app] in *. by rewrite IH.
  - destruct (SplitByte sep s) as [|p ps] eqn:E; [by apply SplitByte_ne in E|].
    destruct ps; cbn [Join app] in *; by rewrite <- IH.
Qed.

Lemma str_inj s t : str s = str t → s = t.
Proof.
  unfold str. intros H. apply (f_equal String.string_of_list_byte) in H.
  by rewrite !String.string_of_list_byte_of_string in H.
Qed.
#[export] Instance str_Inj : Inj (=) (=) str := str_inj.

#[export] Instance Itoa_inj : Inj (=) (=) Itoa.
Proof. unfold Itoa. intros m n H%str_inj. by apply (inj pretty) in H. Qed.

(** The bytes of a decimal number. *)
Definition digit (b : byte) : Prop := 48 <= Z_of_byte b <= 57.

Lemma str_String a s : str (String a s) = Ascii.byte_of_ascii a :: str s.
Proof. done. Qed.

Lemma pretty_N_digits x : ∀ s, Forall digit (str s) → Forall digit (str (pretty_N_go x s)).
Proof.
  induction (N.lt_wf_0 x) as [x _ IH]. intros s Hs. destruct (decide (x = 0)%N) as [->|Hx].
  { by rewrite pretty_N_go_0. }
  rewrite pretty_N_go_step by lia. apply IH; [apply N.div_lt; lia|].
  rewrite str_String. constructor; [|done].
  assert (Hm : (x `mod` 10 < 10)%N) by (apply N.mod_lt; lia).
  unfold digit. revert Hm. generalize (x `mod` 10)%N as m. intros m Hm.
  assert (Hc : m ∈ [0; 1; 2; 3; 4; 5; 6; 7; 8; 9]%N) by (rewrite !elem_of_cons; lia).
  repeat (apply elem_of_cons in Hc as [->|Hc]; [vm_compute; split; discriminate|]). by apply elem_of_nil in Hc.
Qed.

Lemma pretty_N_pos p : Forall digit (str (pretty (Npos p))).
Proof. unfold pretty, pretty_N. rewrite decide_False by done. apply pretty_N_digits. constructor. Qed.

(** A decimal number has digits, and a sign if it is negative. *)
Lemma Itoa_chars n : Forall (λ b, digit b ∨ b = x2d) (Itoa n).
Proof.
  unfold Itoa. destruct n as [|p|p].
  - repeat constructor; vm_compute; discriminate.
  - eapply Forall_impl; [apply (pretty_N_pos p)|]. by left.
  - change (str (pretty (Zneg p))) with (x2d :: str (pretty (Npos p))). constructor; [by right|].
    eapply Forall_impl; [apply (pretty_N_pos p)|]. by left.
Qed.

Lemma Itoa_free n c : ¬ digit c → c ≠ x2d → c ∉ Itoa n.
Proof.
  intros Hc Hm Hin. pose proof (Itoa_chars n) as H. rewrite Forall_forall in H. destruct (H c Hin); auto.
Qed.

Lemma not_digit b : negb (bool_decide (48 <= Z_of_byte b <= 57)) = true → ¬ digit b.
Proof. intros H Hd. unfold digit in Hd. by rewrite bool_decide_true in H. Qed.

(** A host without colons and brackets and a port without them are found again. *)
Lemma Split_JoinHostPort host port :
  colon ∉ host → x5b ∉ host → x5d ∉ host → colon ∉ port → x5b ∉ port → x5d ∉ port →
  SplitHostPort (JoinHostPort host port) = inl (host, port).
Proof.
  intros Hc Ho Hcl Pc Po Pcl. unfold JoinHostPort. rewrite decide_False by done. cbn [app].
  unfold SplitHostPort. rewrite LastIndexByte_app by done. cbv zeta.
  rewrite decide_False; [|].
  2:{ destruct host as [|b host]; cbn; [done|]. intros [= ->]. apply Ho. by constructor. }
  rewrite take_app_length, decide_False by done.
  assert (x5b ∉ host ++ colon :: port) by (rewrite elem_of_app, elem_of_cons; naive_solver).
  assert (x5d ∉ host ++ colon :: port) by (rewrite elem_of_app, elem_of_cons; naive_solver).
  rewrite !drop_0, !decide_False by done.
  by rewrite drop_app_ge, Nat.sub_succ_l, Nat.sub_diag by lia.
Qed.

(** An address with colons is put in brackets and found again. *)
Lemma Split_JoinHostPort_brackets host port :
  colon ∈ host → x5b ∉ host → x5d ∉ host → colon ∉ port → x5b ∉ port → x5d ∉ port →
  SplitHostPort (JoinHostPort host port) = inl (host, port).
Proof.
  intros Hc Ho Hcl Pc Po Pcl. unfold JoinHostPort. rewrite decide_True by done. cbn [app].
  unfold SplitHostPort.
  assert (Hl : LastIndexByte (x5b :: host ++ x5d :: colon :: port) colon = Some (S (S (length host)))).
  { change (x5b :: host ++ x5d :: colon :: port) with (x5b :: host ++ [x5d] ++ colon :: port).
    rewrite app_assoc, app_comm_cons, LastIndexByte_app by done. cbn. rewrite length_app. cbn. do 2 f_equal. lia. }
  assert (He : IndexByte (x5b :: host ++ x5d :: colon :: port) x5d = Some (S (length host))).
  { rewrite (app_comm_cons host), IndexByte_app; [done|]. by apply not_elem_of_cons. }
  rewrite Hl. cbv zeta. cbn [lookup list_lookup]. rewrite decide_True by done. rewrite He.
  rewrite decide_False by (cbn; rewrite length_app; cbn; lia). rewrite decide_True by done.
  cbn [drop take]. rewrite take_app_length.
  assert (x5b ∉ host ++ x5d :: colon :: port) by (rewrite elem_of_app, !elem_of_cons; naive_solver).
  assert (x5d ∉ colon :: port) by (rewrite elem_of_cons; naive_solver).
  rewrite ?drop_0, decide_False by done.
  rewrite drop_app_ge, Nat.sub_succ_l, Nat.sub_diag by lia. cbn [drop]. rewrite decide_False by done.
  by rewrite drop_app_ge, !Nat.sub_succ_l, Nat.sub_diag by lia.
Qed.

(** *** Order and search *)

#[export] Instance bytes_le_refl : Reflexive bytes_le.
Proof. intros a. unfold bytes_le. induction a; cbn; [done|]. by rewrite decide_True. Qed.

#[export] Instance bytes_le_trans : Transitive bytes_le.
Proof.
  unfold bytes_le. intros a. induction a as [|x a IH]; intros [|y b] [|z c]; cbn; try done.
  repeat case_decide; subst; try done.
  - by apply IH.
  - rewrite !bool_decide_eq_true. lia.
  - rewrite !bool_decide_eq_true. lia.
Qed.

#[export] Instance bytes_le_antisymm : AntiSymm (=) bytes_le.
Proof.
  unfold bytes_le. intros a. induction a as [|x a IH]; intros [|y b]; cbn; try done.
  repeat case_decide; subst; try done.
  - intros H1 H2. f_equal. by apply IH.
  - rewrite !bool_decide_eq_true. lia.
Qed.

#[export] Instance bytes_le_total : Total bytes_le.
Proof.
  unfold bytes_le. intros a. induction a as [|x a IH]; intros [|y b]; cbn; try by auto.
  destruct (decide (x = y)) as [->|Hne]; [rewrite decide_True by done; apply IH|].
  rewrite (decide_False (P := y = x)) by congruence. rewrite !bool_decide_eq_true.
  assert (Z_of_byte x ≠ Z_of_byte y) by (by intros ?%Z_of_byte_inj). lia.
Qed.

#[export] Instance by_name_trans {A} (name : A → bytes) : Transitive (by_name name).
Proof. intros x y z. unfold by_name. apply bytes_le_trans. Qed.
#[export] Instance by_name_total {A} (name : A → bytes) : Total (by_name name).
Proof. intros x y. apply bytes_le_total. Qed.

Lemma StronglySorted_lookup {A} (R : relation A) l i j x y :
  StronglySorted R l → l !! i = Some x → l !! j = Some y → (i < j)%nat → R x y.
Proof.
  intros Hs. revert i j. induction Hs as [|z l Hs IH Hz]; intros i j Hx Hy Hij; [done|].
  destruct j as [|j]; [lia|]. destruct i as [|i]; [|apply (IH i j); [done..|lia]].
  injection Hx as <-. by eapply Forall_lookup_1.
Qed.

(** On a predicate that stays true once it is, sort.Search gives the first index at
    which it holds, or [n]. *)
Lemma Search_loop_spec fuel f i j n :
  (∀ a b, (a <= b)%nat → (b < n)%nat → f a = true → f b = true) →
  (j <= n)%nat → (i <= j)%nat → (j - i <= fuel)%nat →
  (∀ a, (a < i)%nat → f a = false) → (∀ a, (j <= a)%nat → (a < n)%nat → f a = true) →
  ∃ k, Search_loop fuel f i j = Ret k ∧ (i <= k <= j)%nat
  ∧ (∀ a, (a < k)%nat → f a = false) ∧ (∀ a, (k <= a)%nat → (a < n)%nat → f a = true).
Proof.
  intros Hmono. revert i j. induction fuel as [|fuel IH]; intros i j Hj Hij Hf Hlo Hhi; cbn [Search_loop].
  { rewrite decide_False by lia. exists i. replace j with i in * by lia. by auto. }
  destruct (decide (i < j)%nat) as [Hlt|Hge]; [|exists i; replace j with i in * by lia; by auto].
  assert (Hh : (i <= Nat.div2 (i + j) < j)%nat).
  { rewrite Nat.div2_div. split; [apply Nat.div_le_lower_bound; lia|apply Nat.div_lt_upper_bound; lia]. }
  revert Hh. generalize (Nat.div2 (i + j)) as h. intros h Hh. destruct (f h) eqn:E.
  - destruct (IH i h) as (k & Ek & Hk & H1 & H2); try done; try lia.
    { intros a Ha Han. by apply (Hmono h). }
    exists k. split_and!; try done; lia.
  - destruct (IH (S h) j) as (k & Ek & Hk & H1 & H2); try done; try lia.
    { intros a Ha. destruct (f a) eqn:Ea; [|done]. rewrite (Hmono a h) in E; [done|lia|lia|done]. }
    exists k. split_and!; try done; lia.
Qed.

Lemma Search_spec n f :
  (∀ a b, (a <= b)%nat → (b < n)%nat → f a = true → f b = true) →
  ∃ k, Search n f = Ret k ∧ (k <= n)%nat
  ∧ (∀ a, (a < k)%nat → f a = false) ∧ (∀ a, (k <= a)%nat → (a < n)%nat → f a = true).
Proof.
  intros Hmono. destruct (Search_loop_spec n f 0 n n Hmono) as (k & E & Hk & H); [lia..|].
  exists k. split_and!; [done|lia|apply H..].
Qed.
