(* ===== verification/Retry.v ===== *)
(** * The retry policy (retry.go)

    Which errors are retried, the request state that persists over the attempts
    and the retry loop Channel.RunWithRetry.  The function under retry is an
    argument of the loop; it reads and updates the request state and a world of
    its own. *)

From S2P Require Import Prelude Errors.

Inductive RetryOn :=
| RetryDefault
| RetryConnectionError
| RetryNever
| RetryNonIdempotent
| RetryUnexpected
| RetryIdempotent.

#[export] Instance RetryOn_eq_dec : EqDecision RetryOn.
Proof. solve_decision. Defined.

(** Whether the dynamic type of an error implements net.Error: the errors of
    the network stack and context.DeadlineExceeded do. *)
Definition isNetError (err : error) : bool :=
  match err with
  | netError _ _ _ => true
  | Sentinel context_DeadlineExceeded => true
  | _ => false
  end.

Definition getErrCode (err : error) : byte :=
  let code := GetSystemErrorCode (Some err) in
  if isNetError err then ErrCodeNetwork else code.

Definition CanRetry (r : RetryOn) (err : error) : bool :=
  if decide (r = RetryNever) then false else
  let r := if decide (r = RetryDefault) then RetryConnectionError else r in
  let code := getErrCode err in
  if decide (code = ErrCodeBusy) then true else
  if decide (code = ErrCodeDeclined) then true else
  if decide (code = ErrCodeBadRequest) then false else
  match r with
  | RetryConnectionError => bool_decide (code = ErrCodeNetwork)
  | RetryUnexpected => bool_decide (code = ErrCodeUnexpected)
  | RetryIdempotent => true
  | _ => false
  end.

Record RetryOptions := mkRetryOptions {
  MaxAttempts : Z;
  RetryOptions_RetryOn : RetryOn;
  TimeoutPerAttempt : Z
}.

Definition defaultRetryOptions : RetryOptions := mkRetryOptions 5 RetryDefault 0.

(** getRetryOptions: [params] is the TChannel parameters of the context, of
    which the function reads the retry options. *)
Definition getRetryOptions (params : option (option RetryOptions)) : RetryOptions :=
  match params with
  | None => defaultRetryOptions
  | Some None => defaultRetryOptions
  | Some (Some opts) =>
      if decide (MaxAttempts opts = 0)
      then mkRetryOptions (MaxAttempts defaultRetryOptions)
             (RetryOptions_RetryOn opts) (TimeoutPerAttempt opts)
      else opts
  end.

(** RequestState; [None] for SelectedPeers is Go's nil map. *)
Record RequestState := mkRequestState {
  Start : Z;
  SelectedPeers : option (gset bytes);
  Attempt : Z;
  retryOpts : RetryOptions
}.

Definition colon : byte := x3a.

(** getHost: the bytes before the first ':', or the whole string. *)
Fixpoint getHost (hostPort : bytes) : bytes :=
  match hostPort with
  | [] => []
  | c :: rest => if decide (c = colon) then [] else c :: getHost rest
  end.

Definition HasRetries (rs : option RequestState) (err : error) : bool :=
  match rs with
  | None => false
  | Some rs =>
      let rOpts := retryOpts rs in
      (Attempt rs <? MaxAttempts rOpts) && CanRetry (RetryOptions_RetryOn rOpts) err
  end.

Definition SinceStart (rs : option RequestState) (now fallback : Z) : Z :=
  match rs with
  | None => fallback
  | Some rs => now - Start rs
  end.

Definition PrevSelectedPeers (rs : option RequestState) : option (gset bytes) :=
  match rs with
  | None => None
  | Some rs => SelectedPeers rs
  end.

Definition AddSelectedPeer (hostPort : bytes) (rs : option RequestState) : option RequestState :=
  match rs with
  | None => None
  | Some rs =>
      let host := getHost hostPort in
      let peers := match SelectedPeers rs with
                   | None => {[hostPort]} ∪ {[host]}
                   | Some m => {[host]} ∪ ({[hostPort]} ∪ m)
                   end in
      Some (mkRequestState (Start rs) (Some peers) (Attempt rs) (retryOpts rs))
  end.

Definition RetryCount (rs : option RequestState) : Z :=
  match rs with
  | None => 0
  | Some rs => Attempt rs - 1
  end.

Definition getRequestState (timeNow : Z) (opts : RetryOptions) : RequestState :=
  mkRequestState timeNow None 0 opts.

Section RunWithRetry.
Context {W : Type}.

(** The retriable function: its first argument is the per-attempt timeout
    the context was given, if any. *)
Definition RetriableFunc : Type :=
  option Z → RequestState → W → option error * RequestState * W.

Implicit Types f : RetriableFunc.

(** The loop, entered with [n] iterations left and the error of the last
    attempt. *)
Fixpoint retryLoop f (opts : RetryOptions) (n : nat) (err : option error)
    (rs : RequestState) (w : W) : option error * RequestState * W :=
  match n with
  | O => (err, rs, w)
  | S n =>
      let rs := mkRequestState (Start rs) (SelectedPeers rs) (Attempt rs + 1) (retryOpts rs) in
      let timeout := if decide (TimeoutPerAttempt opts = 0) then None
                     else Some (TimeoutPerAttempt opts) in
      let '(err, rs, w) := f timeout rs w in
      match err with
      | None => (None, rs, w)
      | Some e =>
          if CanRetry (RetryOptions_RetryOn opts) e
          then retryLoop f opts n (Some e) rs w
          else (Some e, rs, w)
      end
  end.

Definition RunWithRetry f (params : option (option RetryOptions)) (timeNow : Z) (w : W)
    : option error * RequestState * W :=
  let opts := getRetryOptions params in
  let rs := getRequestState timeNow opts in
  retryLoop f opts (Z.to_nat (MaxAttempts opts)) None rs w.
End RunWithRetry.

(** ** The policy *)

(** The set of retried errors grows along
    Never, NonIdempotent, ConnectionError or Unexpected, Idempotent. *)
Definition retry_level (r : RetryOn) : Z :=
  match r with
  | RetryNever => 0
  | RetryNonIdempotent => 1
  | RetryConnectionError | RetryDefault | RetryUnexpected => 2
  | RetryIdempotent => 3
  end.

Lemma CanRetry_mono r1 r2 e :
  retry_level r1 < retry_level r2 → CanRetry r1 e = true → CanRetry r2 e = true.
Proof.
  unfold CanRetry.
  destruct r1, r2; simpl; intros; try lia; repeat case_decide; naive_solver.
Qed.

(** Busy and declined errors are retried by every option but Never; bad
    requests by none. *)
Lemma CanRetry_code r e :
  r ≠ RetryNever → getErrCode e ∈ [ErrCodeBusy; ErrCodeDeclined] → CanRetry r e = true.
Proof.
  intros Hr Hc. unfold CanRetry. rewrite decide_False by done.
  set_unfold in Hc. destruct Hc as [Hc|[Hc|[]]].
  - by rewrite decide_True.
  - case_decide; [done|]. by rewrite decide_True.
Qed.

Lemma CanRetry_bad_request r e : getErrCode e = ErrCodeBadRequest → CanRetry r e = false.
Proof.
  intros Hc. unfold CanRetry. rewrite Hc. by destruct r.
Qed.

(** ** The loop

    [logged f] runs [f] and appends its result to a log, so that statements
    about the attempts made are statements about the log. *)
Section log.
Context {W : Type} (f : @RetriableFunc W).

Definition logged : @RetriableFunc (W * list (option error)) :=
  λ timeout rs '(w, log),
    let '(err, rs, w) := f timeout rs w in (err, rs, (w, log ++ [err])).

(** What the log of a run with at most [n] attempts looks like. *)
Definition attempts_ok (r : RetryOn) (n : nat) (result : option error)
    (log : list (option error)) : Prop :=
  (length log <= n)%nat ∧
  ∃ retried, log = (Some <$> retried) ++ [result]
    ∧ Forall (λ e, CanRetry r e = true) retried
    ∧ (∀ e, result = Some e → CanRetry r e = true → length log = n).

Lemma retryLoop_log opts n err0 rs w log :
  (0 < n)%nat →
  let '(result, _, (_, log')) := retryLoop logged opts n err0 rs (w, log) in
  ∃ made, log' = log ++ made
    ∧ attempts_ok (RetryOptions_RetryOn opts) n result made.
Proof.
  revert err0 rs w log. induction n as [|n IH]; intros err0 rs w log Hn; [lia|].
  cbn [retryLoop]. unfold logged at 1.
  set (rs1 := mkRequestState _ _ _ _). set (t := if decide _ then _ else _).
  destruct (f t rs1 w) as [[err rs2] w2].
  destruct err as [e|].
  2:{ exists [None]. split; [done|]. split; [simpl; lia|]. exists [].
      split_and!; [done|done|simpl; congruence]. }
  destruct (CanRetry _ e) eqn:HC.
  2:{ exists [Some e]. split; [done|]. split; [simpl; lia|]. exists [].
      split_and!; [done|done|simpl; congruence]. }
  destruct n as [|n].
  { simpl. exists [Some e]. split; [done|]. split; [simpl; lia|].
    exists []. split_and!; [done|done|simpl; congruence]. }
  specialize (IH (Some e) rs2 w2 (log ++ [Some e]) ltac:(lia)).
  destruct (retryLoop logged opts (S n) (Some e) rs2 (w2, log ++ [Some e]))
    as [[result rs3] [w3 log']].
  destruct IH as (made & -> & Hlen & retried & -> & Hret & Hfull).
  exists (Some e :: (Some <$> retried) ++ [result]). split; [by rewrite <- app_assoc|].
  split; [simpl in *; lia|]. exists (e :: retried).
  split_and!; [done|by constructor|]. intros e' He' HC'. simpl.
  by rewrite (Hfull e' He' HC').
Qed.
End log.

(** RunWithRetry makes at least one and at most MaxAttempts attempts,
    returns the result of the last one, retries exactly the attempts whose error
    the option allows, and gives up on a retriable error only when the attempts
    are used up. *)
Theorem RunWithRetry_attempts {W} (f : @RetriableFunc W) params now w :
  0 < MaxAttempts (getRetryOptions params) →
  let opts := getRetryOptions params in
  let '(result, _, (_, log)) := RunWithRetry (logged f) params now (w, []) in
  attempts_ok (RetryOptions_RetryOn opts) (Z.to_nat (MaxAttempts opts)) result log.
Proof.
  intros Hmax opts. unfold RunWithRetry. fold opts.
  pose proof (retryLoop_log f opts (Z.to_nat (MaxAttempts opts)) None
    (getRequestState now opts) w [] ltac:(subst opts; lia)) as H.
  destruct (retryLoop _ _ _ _ _ _) as [[result rs] [w' log]].
  destruct H as (made & -> & H). exact H.
Qed.

Definition fail_twice : @RetriableFunc nat := λ _ rs n,
  match n with
  | O => (Some (ErrServerBusy), rs, 1%nat)
  | 1%nat => (Some (netError false true (str "reset")), rs, 2%nat)
  | _ => (None, rs, n)
  end.

Lemma RunWithRetry_attempts_witness :
  attempts_ok RetryDefault 5 None
    [Some ErrServerBusy; Some (netError false true (str "reset")); None].
Proof. exact (RunWithRetry_attempts fail_twice None 7 0%nat ltac:(simpl; lia)). Defined.

(** A peer that was selected is remembered with its host, so that choosing
    a peer that avoids previous hosts cannot pick it again. *)
Theorem AddSelectedPeer_remembered hp rs :
  ∃ peers, PrevSelectedPeers (AddSelectedPeer hp (Some rs)) = Some peers
    ∧ hp ∈ peers ∧ getHost hp ∈ peers
    ∧ (∀ q, SelectedPeers rs = Some q → q ⊆ peers)
    ∧ (∀ x, x ∈ peers → x = hp ∨ x = getHost hp ∨ ∃ q, SelectedPeers rs = Some q ∧ x ∈ q).
Proof.
  destruct rs as [st [q|] at_ ro]; simpl; eexists; split_and!; try done; set_solver.
Qed.

Lemma getHost_prefix host port :
  colon ∉ host → getHost (host ++ colon :: port) = host.
Proof.
  induction host as [|c host IH]; simpl; intros H; [done|].
  rewrite decide_False by set_solver. f_equal. apply IH. set_solver.
Qed.

Lemma getHost_no_port host : colon ∉ host → getHost host = host.
Proof.
  induction host as [|c host IH]; simpl; intros H; [done|].
  rewrite decide_False by set_solver. f_equal. apply IH. set_solver.
Qed.
