(* ===== verification/Buffer.v ===== *)
(** * Typed read and write buffers (typed/buffer.go)

    [ReadBuffer] and [WriteBuffer] with one definition per method.  A write
    buffer keeps the whole array and the offset of the first unwritten byte:
    Go's [buffer] and [remaining] slices alias one array, and so do the
    references returned by the Defer methods, which are offsets into it.
    Lengths ([int] in the source) are [nat]: every caller passes a length or the
    conversion of an unsigned value.

    The theorems state what a sequence of operations does to the bytes
    ([writes], [reads]), that errors are sticky and that no operation reads or
    writes outside the buffer. *)

From S2P Require Import Prelude Errors.

(** ** ReadBuffer *)

Record ReadBuffer := mkReadBuffer {
  initialLength : Z;
  r_remaining : bytes;
  r_err : option error
}.

Definition NewReadBuffer (buffer : bytes) : ReadBuffer :=
  mkReadBuffer (Z.of_nat (length buffer)) buffer None.

Definition ReadByte : ST ReadBuffer (byte * option error) := λ r,
  match r_err r with
  | Some e => ((x00, Some e), r)
  | None =>
      match r_remaining r with
      | [] => ((x00, Some (ErrEOF : error)),
               mkReadBuffer (initialLength r) (r_remaining r) (Some (ErrEOF : error)))
      | b :: rest => ((b, None), mkReadBuffer (initialLength r) rest None)
      end
  end.

Definition ReadSingleByte : ST ReadBuffer byte :=
  '(b, _) ← ReadByte; mret b.

(** [None] is the nil slice. *)
Definition ReadBytes (n : nat) : ST ReadBuffer (option bytes) := λ r,
  match r_err r with
  | Some _ => (None, r)
  | None =>
      if decide (length (r_remaining r) < n)%nat
      then (None, mkReadBuffer (initialLength r) (r_remaining r) (Some (ErrEOF : error)))
      else (Some (take n (r_remaining r)),
            mkReadBuffer (initialLength r) (drop n (r_remaining r)) None)
  end.

Definition SkipBytes (n : nat) : ST ReadBuffer unit := λ r,
  match r_err r with
  | Some _ => (tt, r)
  | None =>
      if decide (length (r_remaining r) < n)%nat
      then (tt, mkReadBuffer (initialLength r) (r_remaining r) (Some (ErrEOF : error)))
      else (tt, mkReadBuffer (initialLength r) (drop n (r_remaining r)) None)
  end.

Definition ReadString (n : nat) : ST ReadBuffer bytes :=
  b ← ReadBytes n;
  match b with Some b => mret b | None => mret [] end.

Definition ReadUint16 : ST ReadBuffer Z :=
  b ← ReadBytes 2;
  match b with Some b => mret (be_dec b) | None => mret 0 end.

Definition ReadUint32 : ST ReadBuffer Z :=
  b ← ReadBytes 4;
  match b with Some b => mret (be_dec b) | None => mret 0 end.

Definition ReadUint64 : ST ReadBuffer Z :=
  b ← ReadBytes 8;
  match b with Some b => mret (be_dec b) | None => mret 0 end.

(** encoding/binary's ReadUvarint over this reader: [n] iterations are left of
    the ten, [x] and [s] are the accumulated value and shift. *)
Fixpoint uvarint_loop (n : nat) (x s : Z) : ST ReadBuffer (Z * option error) :=
  match n with
  | O => mret (x, Some (binary_errOverflow : error))
  | S n' =>
      '(b, err) ← ReadByte;
      let b := Z_of_byte b in
      match err with
      | Some e => mret (x, Some e)
      | None =>
          if b <? 128 then
            if (Nat.eqb n' 0 && (1 <? b))
            then mret (x, Some (binary_errOverflow : error))
            else mret (Z.lor x (uint64 (Z.shiftl b s)), None)
          else uvarint_loop n' (Z.lor x (uint64 (Z.shiftl (Z.land b 127) s))) (s + 7)
      end
  end.

Definition ReadUvarint : ST ReadBuffer Z :=
  '(v, _) ← uvarint_loop 10 0 0; mret v.

Definition ReadLen8String : ST ReadBuffer bytes :=
  n ← ReadSingleByte; ReadString (Z.to_nat (Z_of_byte n)).

Definition ReadLen16String : ST ReadBuffer bytes :=
  n ← ReadUint16; ReadString (Z.to_nat n).

Definition r_Remaining (r : ReadBuffer) : bytes := r_remaining r.
Definition r_BytesRemaining (r : ReadBuffer) : nat := length (r_Remaining r).
Definition BytesRead (r : ReadBuffer) : Z :=
  initialLength r - Z.of_nat (length (r_remaining r)).

Definition r_Wrap (b : bytes) (r : ReadBuffer) : ReadBuffer :=
  mkReadBuffer (Z.of_nat (length b)) b None.

Definition r_Err : ST ReadBuffer (option error) := λ r, (r_err r, r).

(** ** WriteBuffer *)

Record WriteBuffer := mkWriteBuffer {
  w_buffer : bytes;
  w_off : nat;
  w_err : option error
}.

Definition w_remaining (w : WriteBuffer) : bytes := drop (w_off w) (w_buffer w).

Definition NewWriteBuffer (buffer : bytes) : WriteBuffer := mkWriteBuffer buffer 0 None.

Definition NewWriteBufferWithSize (size : nat) : WriteBuffer :=
  NewWriteBuffer (replicate size x00).

Definition setErr (err : error) (w : WriteBuffer) : WriteBuffer :=
  match w_err w with
  | Some _ => w
  | None => mkWriteBuffer (w_buffer w) (w_off w) (Some err)
  end.

(** The value [w.remaining[0:n]] of [reserve] is the pair of its offset in the
    array and its length; [None] is nil. *)
Definition reserve (n : nat) : ST WriteBuffer (option (nat * nat)) := λ w,
  match w_err w with
  | Some _ => (None, w)
  | None =>
      if decide (length (w_remaining w) < n)%nat
      then (None, setErr ErrBufferFull w)
      else (Some (w_off w, n), mkWriteBuffer (w_buffer w) (w_off w + n) None)
  end.

(** Storing into a slice of the array. *)
Definition copy_at (i : nat) (bs : bytes) (w : WriteBuffer) : WriteBuffer :=
  mkWriteBuffer (splice i bs (w_buffer w)) (w_off w) (w_err w).

Definition WriteSingleByte (n : byte) : ST WriteBuffer unit := λ w,
  match w_err w with
  | Some _ => (tt, w)
  | None =>
      match w_remaining w with
      | [] => (tt, setErr ErrBufferFull w)
      | _ => (tt, mkWriteBuffer (splice (w_off w) [n] (w_buffer w)) (w_off w + 1) None)
      end
  end.

Definition WriteBytes (in_ : bytes) : ST WriteBuffer unit := λ w,
  match reserve (length in_) w with
  | (Some (i, _), w) => (tt, copy_at i in_ w)
  | (None, w) => (tt, w)
  end.

Definition WriteUint16 (n : Z) : ST WriteBuffer unit := λ w,
  match reserve 2 w with
  | (Some (i, _), w) => (tt, copy_at i (be_enc 2 n) w)
  | (None, w) => (tt, w)
  end.

Definition WriteUint32 (n : Z) : ST WriteBuffer unit := λ w,
  match reserve 4 w with
  | (Some (i, _), w) => (tt, copy_at i (be_enc 4 n) w)
  | (None, w) => (tt, w)
  end.

Definition WriteUint64 (n : Z) : ST WriteBuffer unit := λ w,
  match reserve 8 w with
  | (Some (i, _), w) => (tt, copy_at i (be_enc 8 n) w)
  | (None, w) => (tt, w)
  end.

(** encoding/binary's PutUvarint: the bytes it stores, for at most [n]
    continuation bytes (nine are enough for a uint64). *)
Fixpoint uvarint_enc (n : nat) (x : Z) : bytes :=
  match n with
  | O => [byte_of_Z x]
  | S n' => if x <? 128 then [byte_of_Z x]
            else byte_of_Z (Z.lor (Z.land x 255) 128) :: uvarint_enc n' (Z.shiftr x 7)
  end.

Definition WriteUvarint (n : Z) : ST WriteBuffer unit := λ w,
  let buf := uvarint_enc 9 n in
  match reserve (length buf) w with
  | (Some (i, _), w) => (tt, copy_at i buf w)
  | (None, w) => (tt, w)
  end.

Definition WriteString (s : bytes) : ST WriteBuffer unit := λ w,
  match reserve (length s) w with
  | (Some (i, _), w) => (tt, copy_at i s w)
  | (None, w) => (tt, w)
  end.

Definition WriteLen8String (s : bytes) : ST WriteBuffer unit := λ w,
  let w := if decide (uint8 (len s) = len s) then w else setErr errStringTooLong w in
  let '(_, w) := WriteSingleByte (byte_of_Z (len s)) w in
  WriteString s w.

Definition WriteLen16String (s : bytes) : ST WriteBuffer unit := λ w,
  let w := if decide (uint16 (len s) = len s) then w else setErr errStringTooLong w in
  let '(_, w) := WriteUint16 (uint16 (len s)) w in
  WriteString s w.

(** References: offset of the placeholder, with its length for BytesRef. *)
Definition ByteRef := option nat.
Definition Uint16Ref := option nat.
Definition Uint32Ref := option nat.
Definition Uint64Ref := option nat.
Definition BytesRef := option (nat * nat).

Definition DeferByte : ST WriteBuffer ByteRef := λ w,
  match w_remaining w with
  | [] => (None, setErr ErrBufferFull w)
  | _ => (Some (w_off w), mkWriteBuffer (splice (w_off w) [x00] (w_buffer w)) (w_off w + 1) (w_err w))
  end.

Definition deferred (n : nat) : ST WriteBuffer (option (nat * nat)) := λ w,
  match reserve n w with
  | (Some (i, k), w) => (Some (i, k), copy_at i (replicate k x00) w)
  | (None, w) => (None, w)
  end.

Definition DeferUint16 : ST WriteBuffer Uint16Ref := r ← deferred 2; mret (fst <$> r).
Definition DeferUint32 : ST WriteBuffer Uint32Ref := r ← deferred 4; mret (fst <$> r).
Definition DeferUint64 : ST WriteBuffer Uint64Ref := r ← deferred 8; mret (fst <$> r).
Definition DeferBytes (n : nat) : ST WriteBuffer BytesRef := deferred n.

Definition ByteRef_Update (ref : ByteRef) (b : byte) (w : WriteBuffer) : WriteBuffer :=
  match ref with Some i => copy_at i [b] w | None => w end.
Definition Uint16Ref_Update (ref : Uint16Ref) (n : Z) (w : WriteBuffer) : WriteBuffer :=
  match ref with Some i => copy_at i (be_enc 2 n) w | None => w end.
Definition Uint32Ref_Update (ref : Uint32Ref) (n : Z) (w : WriteBuffer) : WriteBuffer :=
  match ref with Some i => copy_at i (be_enc 4 n) w | None => w end.
Definition Uint64Ref_Update (ref : Uint64Ref) (n : Z) (w : WriteBuffer) : WriteBuffer :=
  match ref with Some i => copy_at i (be_enc 8 n) w | None => w end.
Definition BytesRef_Update (ref : BytesRef) (b : bytes) (w : WriteBuffer) : WriteBuffer :=
  match ref with Some (i, k) => copy_at i (take k b) w | None => w end.
Definition BytesRef_UpdateString (ref : BytesRef) (s : bytes) (w : WriteBuffer) : WriteBuffer :=
  match ref with Some (i, k) => copy_at i (take k s) w | None => w end.

Definition w_BytesRemaining (w : WriteBuffer) : nat := length (w_remaining w).
Definition BytesWritten (w : WriteBuffer) : nat := length (w_buffer w) - length (w_remaining w).

(** FlushTo hands the written prefix to the writer's Write. *)
Definition FlushTo {R} (iowWrite : bytes → R) (w : WriteBuffer) : R :=
  let dirty := take (BytesWritten w) (w_buffer w) in
  iowWrite dirty.

Definition w_Reset (w : WriteBuffer) : WriteBuffer := mkWriteBuffer (w_buffer w) 0 None.

Definition w_Err : ST WriteBuffer (option error) := λ w, (w_err w, w).

Definition w_Wrap (b : bytes) (w : WriteBuffer) : WriteBuffer := mkWriteBuffer b 0 (w_err w).

(** ** What operations do to the bytes *)

Definition wbuf_ok (w : WriteBuffer) : Prop := (w_off w <= length (w_buffer w))%nat.

(** The bytes written so far. *)
Definition written (w : WriteBuffer) : bytes := take (w_off w) (w_buffer w).

Definition appended (w : WriteBuffer) (bs : bytes) : WriteBuffer :=
  mkWriteBuffer (splice (w_off w) bs (w_buffer w)) (w_off w + length bs) None.

(** [writes m bs]: [m] appends [bs]; when they do not fit it fails with
    ErrBufferFull without disturbing what was written; after an error it does
    nothing. *)
Definition writes (m : ST WriteBuffer unit) (bs : bytes) : Prop :=
  (∀ w, is_Some (w_err w) → m w = (tt, w)) ∧
  (∀ w, wbuf_ok w → w_err w = None → (length bs <= w_BytesRemaining w)%nat →
     m w = (tt, appended w bs)) ∧
  (∀ w, wbuf_ok w → w_err w = None → (w_BytesRemaining w < length bs)%nat →
     ∃ w', m w = (tt, w') ∧ w_err w' = Some (ErrBufferFull : error)
       ∧ wbuf_ok w' ∧ length (w_buffer w') = length (w_buffer w)
       ∧ take (w_off w) (w_buffer w') = written w).

(** [reads m bs a]: on input that starts with [bs], [m] consumes exactly [bs]
    and returns [a]. *)
Definition reads {A} (m : ST ReadBuffer A) (bs : bytes) (a : A) : Prop :=
  ∀ n rest, m (mkReadBuffer n (bs ++ rest) None) = (a, mkReadBuffer n rest None).

(** [rsafe m]: [m] only moves forward in the input, leaves the initial length
    alone, and does nothing after an error. *)
Definition rsafe {A} (m : ST ReadBuffer A) : Prop :=
  ∀ r, ∃ pre, r_remaining r = pre ++ r_remaining (m r).2
    ∧ initialLength (m r).2 = initialLength r
    ∧ (is_Some (r_err r) → (m r).2 = r).

(** [parses m enc]: whenever [m] succeeds, what it consumed is the encoding of
    what it returned. *)
Definition parses {A} (m : ST ReadBuffer A) (enc : A → bytes) : Prop :=
  ∀ r a r', m r = (a, r') → r_err r' = None →
    r_remaining r = enc a ++ r_remaining r' ∧ initialLength r' = initialLength r
    ∧ r_err r = None.

Lemma w_BytesRemaining_eq w : w_BytesRemaining w = (length (w_buffer w) - w_off w)%nat.
Proof. unfold w_BytesRemaining, w_remaining. apply length_drop. Qed.

Lemma BytesWritten_off w : wbuf_ok w → BytesWritten w = w_off w.
Proof. unfold wbuf_ok, BytesWritten, w_remaining. rewrite length_drop. lia. Qed.

Lemma length_written w : wbuf_ok w → length (written w) = w_off w.
Proof. unfold wbuf_ok, written. rewrite length_take. lia. Qed.

Section appended.
Context (w : WriteBuffer) (bs : bytes).
Hypothesis (Hok : wbuf_ok w) (Hfit : (length bs <= w_BytesRemaining w)%nat).

Let Hfit' : (w_off w + length bs <= length (w_buffer w))%nat.
Proof. rewrite w_BytesRemaining_eq in Hfit. unfold wbuf_ok in Hok. lia. Qed.

Lemma appended_length : length (w_buffer (appended w bs)) = length (w_buffer w).
Proof. unfold appended. simpl. apply length_splice. lia. Qed.

Lemma appended_ok : wbuf_ok (appended w bs).
Proof. unfold wbuf_ok. rewrite appended_length. simpl. lia. Qed.

Lemma written_appended : written (appended w bs) = written w ++ bs.
Proof. unfold written, appended. simpl. by apply take_splice_upto. Qed.

Lemma appended_remaining :
  w_BytesRemaining (appended w bs) = (w_BytesRemaining w - length bs)%nat.
Proof. rewrite !w_BytesRemaining_eq, appended_length. simpl. lia. Qed.
End appended.

Lemma splice_splice {A} i (xs ys l : list A) :
  (i + length xs + length ys <= length l)%nat →
  splice (i + length xs) ys (splice i xs l) = splice i (xs ++ ys) l.
Proof.
  intros H. rewrite (splice_fits (i + length xs)) by (rewrite length_splice; lia).
  rewrite take_splice_upto by lia.
  rewrite (splice_fits i (xs ++ ys)) by (rewrite length_app; lia).
  rewrite <- !app_assoc. do 3 f_equal.
  rewrite splice_fits by lia. rewrite app_assoc, drop_app, length_app, length_take, length_app.
  rewrite drop_ge by (rewrite length_app, length_take; lia). simpl.
  rewrite drop_drop. f_equal. lia.
Qed.

Lemma appended_appended w b1 b2 :
  wbuf_ok w → (length b1 + length b2 <= w_BytesRemaining w)%nat →
  appended (appended w b1) b2 = appended w (b1 ++ b2).
Proof.
  intros Hok Hfit. rewrite w_BytesRemaining_eq in Hfit. unfold wbuf_ok in Hok.
  unfold appended; simpl. f_equal.
  - apply splice_splice. lia.
  - rewrite length_app. lia.
Qed.

Lemma appended_nil w : wbuf_ok w → w_err w = None → appended w [] = w.
Proof.
  intros Hok He. destruct w as [b o e]; simpl in *; subst e. unfold appended; simpl.
  rewrite splice_fits by (simpl; unfold wbuf_ok in Hok; simpl in *; lia). simpl.
  rewrite Nat.add_0_r, take_drop. done.
Qed.

(** *** Composition *)

Lemma writes_ret : writes (mret tt) [].
Proof.
  split_and!; [done| |].
  - intros w Hok He _. by rewrite appended_nil.
  - intros w Hok He H. simpl in H. lia.
Qed.

Lemma writes_bind m1 m2 b1 b2 :
  writes m1 b1 → writes m2 b2 → writes (m1 ≫= λ _, m2) (b1 ++ b2).
Proof.
  intros (S1 & F1 & O1) (S2 & F2 & O2). split_and!.
  - intros w He. erewrite st_bind_run by (by apply S1). by apply S2.
  - intros w Hok He Hf. rewrite length_app in Hf.
    erewrite st_bind_run by (apply F1; auto; lia).
    rewrite F2, appended_appended; auto; try lia.
    + apply appended_ok; auto; lia.
    + rewrite appended_remaining; auto; lia.
  - intros w Hok He Hf. rewrite length_app in Hf.
    destruct (decide (length b1 <= w_BytesRemaining w)%nat) as [H1|H1].
    + erewrite st_bind_run by (apply F1; auto; lia).
      destruct (O2 (appended w b1)) as (w' & -> & Hw' & Hok' & Hlen & Htake).
      * apply appended_ok; auto.
      * done.
      * rewrite appended_remaining; auto; lia.
      * exists w'. split_and!; auto.
        -- rewrite Hlen. by apply appended_length.
        -- rewrite written_appended in Htake by auto. simpl in Htake.
           apply (f_equal (take (w_off w))) in Htake.
           rewrite take_take in Htake. rewrite Nat.min_l in Htake by lia.
           rewrite Htake. apply take_app_length'. by rewrite length_written.
    + destruct (O1 w) as (w' & Hm & Hw' & Hrest); auto; [lia|].
      exists w'. erewrite st_bind_run by apply Hm. rewrite S2 by (rewrite Hw'; eauto).
      auto.
Qed.

Lemma reads_ret {A} (a : A) : reads (mret a) [] a.
Proof. intros n' rest. done. Qed.

Lemma reads_bind {A B} (m : ST ReadBuffer A) (f : A → ST ReadBuffer B) b1 b2 a b :
  reads m b1 a → reads (f a) b2 b → reads (m ≫= f) (b1 ++ b2) b.
Proof.
  intros H1 H2 len rest. rewrite <- app_assoc. erewrite st_bind_run by apply H1. apply H2.
Qed.

(** Ending with the error check, as the message methods do. *)
Lemma reads_Err {A B} (m : ST ReadBuffer A) (f : A → B) bs a :
  reads m bs a → reads (x ← m; err ← r_Err; mret (f x, err)) bs (f a, None).
Proof. intros H n rest. erewrite st_bind_run by apply H. done. Qed.

Lemma rsafe_ret {A} (a : A) : rsafe (mret a).
Proof. intros r. by exists []. Qed.

Lemma rsafe_Err : rsafe r_Err.
Proof. intros r. by exists []. Qed.

Lemma rsafe_bind {A B} (m : ST ReadBuffer A) (f : A → ST ReadBuffer B) :
  rsafe m → (∀ a, rsafe (f a)) → rsafe (m ≫= f).
Proof.
  intros H1 H2 r. destruct (H1 r) as (p1 & Hp1 & Hl1 & He1).
  unfold mbind, st_bind. destruct (m r) as [a r1]; simpl in *.
  destruct (H2 a r1) as (p2 & Hp2 & Hl2 & He2).
  exists (p1 ++ p2). split_and!.
  - by rewrite <- app_assoc, <- Hp2.
  - congruence.
  - intros He. specialize (He1 He). subst r1. by apply He2.
Qed.

Lemma parses_bind {A B} (m : ST ReadBuffer A) (f : A → ST ReadBuffer B) e1 (e2 : B → bytes)
    (pi : B → A) :
  parses m e1 →
  (∀ a, parses (f a) e2 ∧ ∀ r b r', f a r = (b, r') → r_err r' = None → pi b = a) →
  parses (m ≫= f) (λ b, e1 (pi b) ++ e2 b).
Proof.
  intros H1 H2 r b r' Hm He. unfold mbind, st_bind in Hm.
  destruct (m r) as [a r1] eqn:Hr. destruct (H2 a) as [Hp Hpi].
  destruct (Hp _ _ _ Hm He) as (E2 & L2 & N2).
  destruct (H1 _ _ _ Hr N2) as (E1 & L1 & N1).
  rewrite (Hpi _ _ _ Hm He). split_and!; [|congruence|done].
  by rewrite E1, E2, app_assoc.
Qed.

(** *** The primitive operations *)

Lemma reserve_fits n w :
  wbuf_ok w → w_err w = None → (n <= w_BytesRemaining w)%nat →
  reserve n w = (Some (w_off w, n), mkWriteBuffer (w_buffer w) (w_off w + n) None).
Proof.
  intros Hok He Hf. unfold reserve. rewrite He. unfold w_BytesRemaining in Hf.
  rewrite decide_False by lia. done.
Qed.

Lemma reserve_full n w :
  w_err w = None → (w_BytesRemaining w < n)%nat →
  reserve n w = (None, mkWriteBuffer (w_buffer w) (w_off w) (Some (ErrBufferFull : error))).
Proof.
  intros He Hf. unfold reserve. rewrite He. unfold w_BytesRemaining in Hf.
  rewrite decide_True by lia. unfold setErr. by rewrite He.
Qed.

(** Every operation that reserves room for [bs] and copies [bs] there. *)
Lemma writes_reserve (m : ST WriteBuffer unit) bs :
  (∀ w, m w = match reserve (length bs) w with
              | (Some (i, _), w) => (tt, copy_at i bs w)
              | (None, w) => (tt, w)
              end) → writes m bs.
Proof.
  intros Hm. split_and!.
  - intros w [e He]. rewrite Hm. unfold reserve. by rewrite He.
  - intros w Hok He Hf. rewrite Hm, reserve_fits by auto. done.
  - intros w Hok He Hf. rewrite Hm, reserve_full by auto. eexists.
    split_and!; simpl; auto.
Qed.

Lemma WriteBytes_writes bs : writes (WriteBytes bs) bs.
Proof. by apply writes_reserve. Qed.

Lemma WriteString_writes s : writes (WriteString s) s.
Proof. by apply writes_reserve. Qed.

Lemma WriteUint16_writes n : writes (WriteUint16 n) (be_enc 2 n).
Proof. apply writes_reserve. intros w. by rewrite length_be_enc. Qed.

Lemma WriteUint32_writes n : writes (WriteUint32 n) (be_enc 4 n).
Proof. apply writes_reserve. intros w. by rewrite length_be_enc. Qed.

Lemma WriteUint64_writes n : writes (WriteUint64 n) (be_enc 8 n).
Proof. apply writes_reserve. intros w. by rewrite length_be_enc. Qed.

Lemma WriteUvarint_writes n : writes (WriteUvarint n) (uvarint_enc 9 n).
Proof. by apply writes_reserve. Qed.

Lemma WriteSingleByte_reserve b w :
  WriteSingleByte b w = match reserve (length [b]) w with
                        | (Some (i, _), w) => (tt, copy_at i [b] w)
                        | (None, w) => (tt, w)
                        end.
Proof.
  unfold WriteSingleByte, reserve. destruct (w_err w); [done|]. simpl.
  by destruct (w_remaining w).
Qed.

Lemma WriteSingleByte_writes b : writes (WriteSingleByte b) [b].
Proof. apply writes_reserve, WriteSingleByte_reserve. Qed.

Lemma writes_ext m m' bs : (∀ w, m w = m' w) → writes m' bs → writes m bs.
Proof.
  intros Hm (S & F & O). split_and!; intros w; rewrite Hm; auto.
Qed.

Lemma WriteLen8String_writes s : len s < 256 →
  writes (WriteLen8String s) (byte_of_Z (len s) :: s).
Proof.
  intros Hs. change (?b :: s) with ([b] ++ s).
  eapply writes_ext; [|apply writes_bind;
    [apply WriteSingleByte_writes|apply WriteString_writes]].
  intros w. unfold WriteLen8String.
  rewrite decide_True by (apply uint8_small; lia). done.
Qed.

Lemma WriteLen16String_writes s : len s < 65536 →
  writes (WriteLen16String s) (be_enc 2 (len s) ++ s).
Proof.
  intros Hs.
  eapply writes_ext; [|apply writes_bind;
    [apply WriteUint16_writes|apply WriteString_writes]].
  intros w. unfold WriteLen16String. rewrite uint16_small by lia.
  rewrite decide_True by done. done.
Qed.

Lemma ReadBytes_reads bs : reads (ReadBytes (length bs)) bs (Some bs).
Proof.
  intros n' rest. unfold ReadBytes. simpl.
  rewrite decide_False by (rewrite length_app; lia).
  rewrite take_app_length, drop_app_length. done.
Qed.

Lemma ReadBytes_reads' n bs : length bs = n → reads (ReadBytes n) bs (Some bs).
Proof. intros <-. apply ReadBytes_reads. Qed.

Lemma ReadString_reads n bs : length bs = n → reads (ReadString n) bs bs.
Proof.
  intros H. unfold ReadString. rewrite <- (app_nil_r bs) at 1.
  eapply reads_bind; [by apply ReadBytes_reads'|apply reads_ret].
Qed.

Lemma SkipBytes_reads n bs : length bs = n → reads (SkipBytes n) bs tt.
Proof.
  intros <- n' rest. unfold SkipBytes. simpl.
  rewrite decide_False by (rewrite length_app; lia). by rewrite drop_app_length.
Qed.

Lemma ReadSingleByte_reads b : reads ReadSingleByte [b] b.
Proof. intros n' rest. done. Qed.

Lemma ReadUint_reads n v : 0 <= v < 2^(8 * Z.of_nat n) →
  reads (b ← ReadBytes n; match b with Some b => mret (be_dec b) | None => mret 0 end)
    (be_enc n v) v.
Proof.
  intros Hv. rewrite <- (app_nil_r (be_enc n v)).
  eapply reads_bind; [apply ReadBytes_reads', length_be_enc|].
  cbn beta iota. rewrite be_dec_enc, Z.mod_small by done. apply reads_ret.
Qed.

Lemma ReadUint16_reads v : 0 <= v < 2^16 → reads ReadUint16 (be_enc 2 v) v.
Proof. apply (ReadUint_reads 2). Qed.
Lemma ReadUint32_reads v : 0 <= v < 2^32 → reads ReadUint32 (be_enc 4 v) v.
Proof. apply (ReadUint_reads 4). Qed.
Lemma ReadUint64_reads v : 0 <= v < 2^64 → reads ReadUint64 (be_enc 8 v) v.
Proof. apply (ReadUint_reads 8). Qed.

Lemma ReadLen8String_reads s : len s < 256 →
  reads ReadLen8String (byte_of_Z (len s) :: s) s.
Proof.
  intros Hs. change (?b :: s) with ([b] ++ s).
  eapply reads_bind; [apply ReadSingleByte_reads|]. apply ReadString_reads.
  rewrite Z_of_byte_of_Z, Z.mod_small by lia. lia.
Qed.

Lemma ReadLen16String_reads s : len s < 65536 →
  reads ReadLen16String (be_enc 2 (len s) ++ s) s.
Proof.
  intros Hs. eapply reads_bind; [apply ReadUint16_reads; lia|].
  apply ReadString_reads. lia.
Qed.

(** *** Reads never leave the buffer and stop at the first error *)

Lemma ReadByte_rsafe : rsafe ReadByte.
Proof.
  intros [n' rem [e|]]; unfold ReadByte; simpl; [by exists []|].
  destruct rem as [|b rem]; simpl; [|exists [b]]; [exists []|];
    split_and!; auto; by intros [].
Qed.

Lemma ReadSingleByte_rsafe : rsafe ReadSingleByte.
Proof. apply rsafe_bind; [apply ReadByte_rsafe|]. intros []. apply rsafe_ret. Qed.

Lemma ReadBytes_rsafe n : rsafe (ReadBytes n).
Proof.
  intros [n' rem [e|]]; unfold ReadBytes; simpl; [by exists []|].
  case_decide; simpl; [exists []|exists (take n rem)];
    split_and!; rewrite ?take_drop; auto; by intros [].
Qed.

Lemma SkipBytes_rsafe n : rsafe (SkipBytes n).
Proof.
  intros [n' rem [e|]]; unfold SkipBytes; simpl; [by exists []|].
  case_decide; simpl; [exists []|exists (take n rem)];
    split_and!; rewrite ?take_drop; auto; by intros [].
Qed.

Lemma ReadString_rsafe n : rsafe (ReadString n).
Proof. apply rsafe_bind; [apply ReadBytes_rsafe|]. intros []; apply rsafe_ret. Qed.

Lemma ReadUint_rsafe n :
  rsafe (b ← ReadBytes n; match b with Some b => mret (be_dec b) | None => mret 0 end).
Proof. apply rsafe_bind; [apply ReadBytes_rsafe|]. intros []; apply rsafe_ret. Qed.

Lemma ReadUint16_rsafe : rsafe ReadUint16.
Proof. apply ReadUint_rsafe. Qed.
Lemma ReadUint32_rsafe : rsafe ReadUint32.
Proof. apply ReadUint_rsafe. Qed.
Lemma ReadUint64_rsafe : rsafe ReadUint64.
Proof. apply ReadUint_rsafe. Qed.
Lemma ReadLen8String_rsafe : rsafe ReadLen8String.
Proof. apply rsafe_bind; [apply ReadSingleByte_rsafe|]. intros; apply ReadString_rsafe. Qed.
Lemma ReadLen16String_rsafe : rsafe ReadLen16String.
Proof. apply rsafe_bind; [apply ReadUint16_rsafe|]. intros; apply ReadString_rsafe. Qed.

#[export] Hint Resolve writes_ret WriteBytes_writes WriteString_writes
  WriteUint16_writes WriteUint32_writes WriteUint64_writes WriteSingleByte_writes
  WriteLen8String_writes WriteLen16String_writes : tchan.
#[export] Hint Resolve rsafe_ret rsafe_Err ReadByte_rsafe ReadSingleByte_rsafe ReadBytes_rsafe
  SkipBytes_rsafe ReadString_rsafe ReadUint16_rsafe ReadUint32_rsafe ReadUint64_rsafe
  ReadLen8String_rsafe ReadLen16String_rsafe : tchan.

(** Decompose reads and writes along the code's sequencing. *)
Ltac rsafe_tac :=
  repeat first
    [ solve [auto with tchan]
    | apply rsafe_bind; [|intros ?]
    | match goal with |- context [match ?x with _ => _ end] => destruct x end ].
Ltac writes_tac :=
  repeat first [ solve [auto with tchan] | apply writes_bind ].

(** *** Unsigned varints *)

Lemma lor_128 a : 0 <= a < 256 → Z.lor a 128 = a mod 128 + 128.
Proof.
  intros Ha. rewrite <- (Z.mod_small a 256) at 1 2 by lia.
  rewrite <- Z_of_byte_of_Z. destruct (byte_of_Z a); reflexivity.
Qed.

Lemma uvarint_cont_byte v : 0 <= v →
  Z_of_byte (byte_of_Z (Z.lor (Z.land v 255) 128)) = v mod 128 + 128.
Proof.
  intros Hv. rewrite Z_of_byte_of_Z. change 255 with (Z.ones 8).
  rewrite Z.land_ones by lia. change (2^8) with 256.
  pose proof (Z.mod_pos_bound v 256 ltac:(lia)).
  rewrite lor_128 by lia.
  assert ((v mod 256) mod 128 = v mod 128) as ->.
  { change 256 with (128 * 2). rewrite Z.rem_mul_r by lia.
    rewrite Z.mul_comm, Z.mod_add, Z.mod_mod by lia. done. }
  pose proof (Z.mod_pos_bound v 128 ltac:(lia)). rewrite Z.mod_small; lia.
Qed.

Lemma land_127 a : Z.land (a mod 128 + 128) 127 = a mod 128.
Proof.
  change 127 with (Z.ones 7). rewrite Z.land_ones by lia. change (2^7) with 128.
  rewrite Z.add_mod, Z.mod_mod, Z_mod_same_full, Z.add_0_r, Z.mod_mod by lia. done.
Qed.

(** One group of seven bits joins the accumulated value. *)
Lemma uvarint_join x v s : 0 <= s → 0 <= x < 2^s → 0 <= v → v * 2^s < 2^64 →
  Z.lor x (uint64 (Z.shiftl v s)) = x + v * 2^s.
Proof.
  intros Hs Hx Hv Hlt. unfold uint64.
  rewrite Z.mod_small by (rewrite Z.shiftl_mul_pow2 by lia; nia).
  rewrite Z.lor_comm, lor_shiftl_low by lia. lia.
Qed.

Lemma uvarint_loop_reads n x s v :
  s = 7 * (9 - Z.of_nat n) → (n <= 9)%nat → 0 <= x < 2^s → 0 <= v → v * 2^s < 2^64 →
  reads (uvarint_loop (S n) x s) (uvarint_enc n v) (x + v * 2^s, None).
Proof.
  revert x s v. induction n as [|n IH]; intros x s v Hs Hn Hx Hv Hlt n' rest.
  - assert (s = 63) as -> by lia. assert (v < 2) by lia.
    cbn [uvarint_loop uvarint_enc]. unfold mbind, st_bind. simpl. unfold ReadByte; simpl.
    rewrite Z_of_byte_of_Z, Z.mod_small by lia.
    destruct (Z.ltb_spec v 128); [|lia].
    destruct (Z.ltb_spec 1 v); [lia|]. simpl.
    unfold mret, st_ret. rewrite uvarint_join by lia. done.
  - cbn [uvarint_enc]. pose proof (Z.pow_pos_nonneg 2 s ltac:(lia) ltac:(lia)).
    destruct (Z.ltb_spec v 128) as [Hsm|Hbig].
    + cbn [uvarint_loop]. unfold mbind, st_bind. simpl. unfold ReadByte; simpl.
      rewrite Z_of_byte_of_Z, Z.mod_small by lia.
      destruct (Z.ltb_spec v 128); [|lia]. unfold mret, st_ret. rewrite uvarint_join by lia. done.
    + remember (S n) as m. cbn [uvarint_loop]. unfold mbind, st_bind. simpl app.
      unfold ReadByte; cbn [r_err r_remaining initialLength].
      rewrite uvarint_cont_byte by lia.
      pose proof (Z.mod_pos_bound v 128 ltac:(lia)).
      destruct (Z.ltb_spec (v mod 128 + 128) 128); [lia|].
      rewrite land_127, uvarint_join by (try lia; nia). subst m.
      pose proof (Z.div_mod v 128 ltac:(lia)).
      pose proof (Z.div_le_lower_bound v 128 1 ltac:(lia) ltac:(lia)).
      rewrite Z.shiftr_div_pow2 by lia. change (2^7) with 128.
      rewrite IH; try lia.
      * do 2 f_equal. rewrite Z.pow_add_r by lia. change (2^7) with 128. nia.
      * rewrite Z.pow_add_r by lia. change (2^7) with 128. nia.
      * rewrite Z.pow_add_r by lia. change (2^7) with 128. nia.
Qed.

Lemma ReadUvarint_reads v : 0 <= v < 2^64 → reads ReadUvarint (uvarint_enc 9 v) v.
Proof.
  intros Hv n' rest. unfold ReadUvarint. unfold mbind, st_bind.
  rewrite (uvarint_loop_reads 9 0 0 v) by (simpl; lia). simpl. unfold mret, st_ret.
  by rewrite Z.mul_1_r.
Qed.

Arguments uvarint_enc : simpl never.
Arguments uvarint_loop : simpl never.

(** *** Placeholders *)

Lemma splice_exact {A} (l1 z v l2 : list A) :
  length v = length z → splice (length l1) v (l1 ++ z ++ l2) = l1 ++ v ++ l2.
Proof.
  intros H. rewrite splice_fits by (rewrite !length_app; lia).
  rewrite take_app_length. do 2 f_equal. rewrite app_assoc.
  apply drop_app_length'. rewrite length_app. lia.
Qed.

Lemma appended_buffer w bs :
  wbuf_ok w → (length bs <= w_BytesRemaining w)%nat →
  w_buffer (appended w bs) = written w ++ bs ++ drop (w_off w + length bs) (w_buffer w).
Proof.
  intros Hok Hf. rewrite w_BytesRemaining_eq in Hf. unfold wbuf_ok in Hok.
  unfold appended; simpl. by rewrite splice_fits by lia.
Qed.

(** Storing [v] over a placeholder [z] that lies [length a] bytes into what was
    appended is the same as having appended [v] in the first place. *)
Lemma copy_at_appended w a z v b :
  wbuf_ok w → (length (a ++ z ++ b) <= w_BytesRemaining w)%nat → length v = length z →
  copy_at (w_off w + length a) v (appended w (a ++ z ++ b)) = appended w (a ++ v ++ b).
Proof.
  intros Hok Hf Hv. unfold copy_at.
  rewrite appended_buffer by done. rewrite <- !app_assoc, (app_assoc (written w)).
  replace (w_off w + length a)%nat with (length (written w ++ a))
    by (rewrite length_app, length_written by done; lia).
  rewrite splice_exact by done.
  rewrite w_BytesRemaining_eq in Hf. unfold wbuf_ok in Hok.
  unfold appended at 3. rewrite splice_fits by (rewrite !length_app in *; lia).
  unfold appended; simpl. f_equal.
  - rewrite <- !app_assoc. do 4 f_equal. rewrite !length_app. f_equal. lia.
  - rewrite !length_app. lia.
Qed.

Lemma deferred_spec n w :
  wbuf_ok w → w_err w = None → (n <= w_BytesRemaining w)%nat →
  deferred n w = (Some (w_off w, n), appended w (replicate n x00)).
Proof.
  intros Hok He Hf. unfold deferred. rewrite reserve_fits by done.
  unfold copy_at, appended. simpl. by rewrite length_replicate.
Qed.

Lemma DeferByte_spec w :
  w_err w = None → (1 <= w_BytesRemaining w)%nat →
  DeferByte w = (Some (w_off w), appended w [x00]).
Proof.
  intros He Hf. unfold DeferByte. unfold w_BytesRemaining in Hf.
  destruct (w_remaining w); [simpl in Hf; lia|]. unfold appended. simpl. by rewrite He.
Qed.

Lemma DeferUint16_spec w :
  wbuf_ok w → w_err w = None → (2 <= w_BytesRemaining w)%nat →
  DeferUint16 w = (Some (w_off w), appended w (replicate 2 x00)).
Proof.
  intros Hok He Hf. unfold DeferUint16. erewrite st_bind_run by (by apply deferred_spec). done.
Qed.

(** a uint16 placeholder that is filled in after other data was written
    leaves the same buffer as writing the value at once. *)
Theorem DeferUint16_update w m bs v ref w1 w2 :
  wbuf_ok w → w_err w = None → (2 + length bs <= w_BytesRemaining w)%nat → writes m bs →
  DeferUint16 w = (ref, w1) → m w1 = (tt, w2) →
  Uint16Ref_Update ref v w2 = appended w (be_enc 2 v ++ bs)
  ∧ (WriteUint16 v ≫= λ _, m) w = (tt, appended w (be_enc 2 v ++ bs)).
Proof.
  intros Hok He Hf Hm Hd Hw2. rewrite DeferUint16_spec in Hd by (auto; lia).
  injection Hd as <- <-. split.
  - assert (w2 = appended w ([] ++ replicate 2 x00 ++ bs)) as ->.
    { destruct Hm as (_ & Fm & _). rewrite Fm in Hw2.
      - rewrite appended_appended in Hw2 by (simpl; auto; lia).
        by injection Hw2.
      - apply appended_ok; simpl; auto; lia.
      - done.
      - rewrite appended_remaining by (simpl; auto; lia). simpl. lia. }
    simpl Uint16Ref_Update.
    rewrite <- (Nat.add_0_r (w_off w)) at 1.
    by apply (copy_at_appended w [] (replicate 2 x00) (be_enc 2 v) bs).
  - pose proof (writes_bind _ _ _ _ (WriteUint16_writes v) Hm) as (_ & F & _).
    by apply F.
Qed.

Lemma DeferUint16_update_witness :
  let w := NewWriteBufferWithSize 6 in
  let '(ref, w1) := DeferUint16 w in
  let '(_, w2) := WriteBytes [x07; x08] w1 in
  Uint16Ref_Update ref 258 w2 = appended w (be_enc 2 258 ++ [x07; x08]).
Proof.
  apply (DeferUint16_update (NewWriteBufferWithSize 6) (WriteBytes [x07; x08]) [x07; x08] 258
    (DeferUint16 (NewWriteBufferWithSize 6)).1 (DeferUint16 (NewWriteBufferWithSize 6)).2
    (WriteBytes [x07; x08] (DeferUint16 (NewWriteBufferWithSize 6)).2).2);
    try reflexivity; [apply Nat.leb_le; reflexivity|apply Nat.leb_le; reflexivity|apply WriteBytes_writes].
Defined.

(** ** Refinement: a write buffer is a bounded byte sink

    The abstract sink has a capacity, the output so far and the first error; it
    knows nothing of arrays and offsets. *)

Record sink := mkSink { s_cap : nat; s_out : bytes; s_err : option error }.

Definition sink_fail (e : error) (s : sink) : sink :=
  match s_err s with Some _ => s | None => mkSink (s_cap s) (s_out s) (Some e) end.

Definition sink_put (bs : bytes) (s : sink) : sink :=
  match s_err s with
  | Some _ => s
  | None => if decide (length (s_out s) + length bs <= s_cap s)%nat
            then mkSink (s_cap s) (s_out s ++ bs) None
            else sink_fail ErrBufferFull s
  end.

(** The write operations clients use. *)
Inductive wop :=
| OpSingleByte (b : byte)
| OpBytes (bs : bytes)
| OpUint16 (n : Z)
| OpUint32 (n : Z)
| OpUint64 (n : Z)
| OpUvarint (n : Z)
| OpString (s : bytes)
| OpLen8String (s : bytes)
| OpLen16String (s : bytes).

Definition run_wop (o : wop) : ST WriteBuffer unit :=
  match o with
  | OpSingleByte b => WriteSingleByte b
  | OpBytes bs => WriteBytes bs
  | OpUint16 n => WriteUint16 n
  | OpUint32 n => WriteUint32 n
  | OpUint64 n => WriteUint64 n
  | OpUvarint n => WriteUvarint n
  | OpString s => WriteString s
  | OpLen8String s => WriteLen8String s
  | OpLen16String s => WriteLen16String s
  end.

Definition sink_wop (o : wop) (s : sink) : sink :=
  match o with
  | OpSingleByte b => sink_put [b] s
  | OpBytes bs => sink_put bs s
  | OpUint16 n => sink_put (be_enc 2 n) s
  | OpUint32 n => sink_put (be_enc 4 n) s
  | OpUint64 n => sink_put (be_enc 8 n) s
  | OpUvarint n => sink_put (uvarint_enc 9 n) s
  | OpString t => sink_put t s
  | OpLen8String t =>
      if decide (len t < 256) then sink_put t (sink_put [byte_of_Z (len t)] s)
      else sink_fail errStringTooLong s
  | OpLen16String t =>
      if decide (len t < 65536) then sink_put t (sink_put (be_enc 2 (len t)) s)
      else sink_fail errStringTooLong s
  end.

Definition sink_of (w : WriteBuffer) : sink :=
  mkSink (length (w_buffer w)) (written w) (w_err w).

Fixpoint run_wops (ops : list wop) (w : WriteBuffer) : WriteBuffer :=
  match ops with [] => w | o :: ops => run_wops ops (run_wop o w).2 end.

Definition sink_wops (ops : list wop) (s : sink) : sink := foldl (λ s o, sink_wop o s) s ops.

(** An operation that reserves and copies in one go implements [sink_put]. *)
Lemma reserve_sink (m : ST WriteBuffer unit) bs w :
  (∀ w, m w = match reserve (length bs) w with
              | (Some (i, _), w) => (tt, copy_at i bs w)
              | (None, w) => (tt, w)
              end) →
  wbuf_ok w → sink_of (m w).2 = sink_put bs (sink_of w) ∧ wbuf_ok (m w).2.
Proof.
  intros Hm Hok. destruct (w_err w) as [e|] eqn:He.
  { rewrite Hm. unfold reserve. rewrite He. simpl. unfold sink_put. simpl. by rewrite He. }
  unfold sink_put. cbn [sink_of s_err s_cap s_out]. rewrite He, length_written by done.
  destruct (writes_reserve m bs Hm) as (_ & F & _).
  case_decide as Hd.
  - assert (Hf : (length bs <= w_BytesRemaining w)%nat) by (rewrite w_BytesRemaining_eq; lia).
    rewrite F by done. simpl. split; [|by apply appended_ok].
    unfold sink_of. rewrite appended_length, written_appended by done. done.
  - rewrite Hm, reserve_full by (auto; rewrite w_BytesRemaining_eq; unfold wbuf_ok in Hok; lia). simpl.
    unfold sink_fail. simpl. by rewrite He.
Qed.

Lemma sink_put_err bs s : is_Some (s_err s) → sink_put bs s = s.
Proof. intros [e He]. unfold sink_put. by rewrite He. Qed.

Lemma setErr_sink e w : sink_of (setErr e w) = sink_fail e (sink_of w) ∧ w_off (setErr e w) = w_off w
  ∧ w_buffer (setErr e w) = w_buffer w ∧ is_Some (w_err (setErr e w)).
Proof. unfold setErr, sink_fail. destruct w as [b o [x|]]; simpl; eauto. Qed.

(** A length prefix and a string, after the length check passed or failed. *)
Lemma len_string_sink (pre : ST WriteBuffer unit) lenbs t w :
  (∀ w, pre w = match reserve (length lenbs) w with
                | (Some (i, _), w) => (tt, copy_at i lenbs w)
                | (None, w) => (tt, w)
                end) →
  wbuf_ok w →
  let w' := (let '(_, w) := pre w in WriteString t w).2 in
  sink_of w' = sink_put t (sink_put lenbs (sink_of w)) ∧ wbuf_ok w'.
Proof.
  intros Hpre Hok. destruct (reserve_sink pre lenbs w Hpre Hok) as [<- H1].
  destruct (pre w) as [[] w1]. by apply reserve_sink.
Qed.

Lemma len_string_fail (pre : ST WriteBuffer unit) lenbs t w :
  writes pre lenbs → wbuf_ok w →
  let w' := (let '(_, w) := pre (setErr errStringTooLong w) in WriteString t w).2 in
  sink_of w' = sink_fail errStringTooLong (sink_of w) ∧ wbuf_ok w'.
Proof.
  intros (S1 & _) Hok. destruct (setErr_sink errStringTooLong w) as (<- & Ho & Hb & He).
  destruct (WriteString_writes t) as (S2 & _). rewrite S1 by done. cbn beta iota zeta.
  rewrite S2 by done. split; [done|]. unfold wbuf_ok in *. simpl. by rewrite Ho, Hb.
Qed.

Lemma run_wop_sink o w : wbuf_ok w →
  sink_of (run_wop o w).2 = sink_wop o (sink_of w) ∧ wbuf_ok (run_wop o w).2.
Proof.
  intros Hok. destruct o as [b|bs|n|n|n|n|t|t|t]; cbn [run_wop sink_wop];
    try (apply reserve_sink; [|done]; intros w'; rewrite ?length_be_enc; done).
  - apply reserve_sink; [apply WriteSingleByte_reserve|done].
  - unfold WriteLen8String. destruct (decide (len t < 256)) as [Hd|Hd].
    + rewrite decide_True by (apply uint8_small; lia).
      apply len_string_sink; [apply WriteSingleByte_reserve|done].
    + rewrite decide_False
        by (unfold uint8; pose proof (Z.mod_pos_bound (len t) (2^8) ltac:(lia)); lia).
      by apply (len_string_fail _ _ _ _ (WriteSingleByte_writes _)).
  - unfold WriteLen16String. destruct (decide (len t < 65536)) as [Hd|Hd].
    + rewrite uint16_small by lia. rewrite decide_True by done.
      apply len_string_sink; [|done]. intros w'. by rewrite length_be_enc.
    + rewrite decide_False
        by (unfold uint16; pose proof (Z.mod_pos_bound (len t) (2^16) ltac:(lia)); lia).
      by apply (len_string_fail _ _ _ _ (WriteUint16_writes _)).
Qed.

(** C36: for every sequence of write operations on a fresh buffer, the bytes
    before the write position, the capacity and the error are those of the
    abstract bounded sink. *)
Theorem WriteBuffer_refines_sink ops buf :
  sink_of (run_wops ops (NewWriteBuffer buf)) = sink_wops ops (mkSink (length buf) [] None).
Proof.
  enough (∀ w, wbuf_ok w → sink_of (run_wops ops w) = sink_wops ops (sink_of w)) as H.
  { rewrite H; [done|]. unfold wbuf_ok. simpl. lia. }
  induction ops as [|o ops IH]; intros w Hok; [done|]. simpl.
  destruct (run_wop_sink o w Hok) as [<- Hok']. by apply IH.
Qed.

(** ** Round trip of typed values *)

Inductive wval :=
| VByte (b : byte)
| VUint16 (n : Z)
| VUint32 (n : Z)
| VUint64 (n : Z)
| VUvarint (n : Z)
| VLen8String (s : bytes)
| VLen16String (s : bytes).

(** The value is one of the Go type. *)
Definition wval_ok (v : wval) : Prop :=
  match v with
  | VByte _ => True
  | VUint16 n => 0 <= n < 2^16
  | VUint32 n => 0 <= n < 2^32
  | VUint64 n | VUvarint n => 0 <= n < 2^64
  | VLen8String _ | VLen16String _ => True
  end.

Definition write_val (v : wval) : ST WriteBuffer unit :=
  match v with
  | VByte b => WriteSingleByte b
  | VUint16 n => WriteUint16 n
  | VUint32 n => WriteUint32 n
  | VUint64 n => WriteUint64 n
  | VUvarint n => WriteUvarint n
  | VLen8String s => WriteLen8String s
  | VLen16String s => WriteLen16String s
  end.

(** Reading a value of the type of [v]. *)
Definition read_val (v : wval) : ST ReadBuffer wval :=
  match v with
  | VByte _ => x ← ReadSingleByte; mret (VByte x)
  | VUint16 _ => x ← ReadUint16; mret (VUint16 x)
  | VUint32 _ => x ← ReadUint32; mret (VUint32 x)
  | VUint64 _ => x ← ReadUint64; mret (VUint64 x)
  | VUvarint _ => x ← ReadUvarint; mret (VUvarint x)
  | VLen8String _ => x ← ReadLen8String; mret (VLen8String x)
  | VLen16String _ => x ← ReadLen16String; mret (VLen16String x)
  end.

Fixpoint write_vals (vs : list wval) : ST WriteBuffer unit :=
  match vs with [] => mret tt | v :: vs => write_val v ≫= λ _, write_vals vs end.

Fixpoint read_vals (vs : list wval) : ST ReadBuffer (list wval) :=
  match vs with
  | [] => mret []
  | v :: vs => x ← read_val v; xs ← read_vals vs; mret (x :: xs)
  end.

Lemma reads_fmap {A B} (m : ST ReadBuffer A) (f : A → B) bs a :
  reads m bs a → reads (x ← m; mret (f x)) bs (f a).
Proof.
  intros H. rewrite <- (app_nil_r bs). eapply reads_bind; [exact H|]. apply reads_ret.
Qed.

(** The bytes of a value, when its string fits its length prefix. *)
Definition enc_val (v : wval) : option bytes :=
  match v with
  | VByte b => Some [b]
  | VUint16 n => Some (be_enc 2 n)
  | VUint32 n => Some (be_enc 4 n)
  | VUint64 n => Some (be_enc 8 n)
  | VUvarint n => Some (uvarint_enc 9 n)
  | VLen8String s => if decide (len s < 256) then Some (byte_of_Z (len s) :: s) else None
  | VLen16String s => if decide (len s < 65536) then Some (be_enc 2 (len s) ++ s) else None
  end.

Lemma write_val_writes v bs : enc_val v = Some bs → writes (write_val v) bs.
Proof.
  destruct v; cbn [enc_val write_val]; intros H; try case_decide; try done; apply (inj Some) in H as <-;
    auto using WriteUvarint_writes with tchan.
Qed.

Lemma read_val_reads v bs : wval_ok v → enc_val v = Some bs → reads (read_val v) bs v.
Proof.
  destruct v; cbn [enc_val read_val wval_ok]; intros Hok H; try case_decide; try done;
    apply (inj Some) in H as <-; apply reads_fmap;
    auto using ReadSingleByte_reads, ReadUint16_reads, ReadUint32_reads, ReadUint64_reads,
      ReadUvarint_reads, ReadLen8String_reads, ReadLen16String_reads.
Qed.

(** A value that cannot be encoded fails the buffer. *)
Lemma write_val_fails v w : enc_val v = None → is_Some (w_err (write_val v w).2).
Proof.
  destruct v; simpl; intros H; try done; case_decide as Hd; simplify_eq.
  - unfold WriteLen8String. rewrite decide_False
      by (unfold uint8; pose proof (Z.mod_pos_bound (len s) (2^8) ltac:(lia)); lia).
    destruct (setErr_sink errStringTooLong w) as (_ & _ & _ & He).
    destruct (WriteSingleByte_writes (byte_of_Z (len s))) as (S1 & _).
    destruct (WriteString_writes s) as (S2 & _). by rewrite S1, S2.
  - unfold WriteLen16String. rewrite decide_False
      by (unfold uint16; pose proof (Z.mod_pos_bound (len s) (2^16) ltac:(lia)); lia).
    destruct (setErr_sink errStringTooLong w) as (_ & _ & _ & He).
    destruct (WriteUint16_writes (uint16 (len s))) as (S1 & _).
    destruct (WriteString_writes s) as (S2 & _). by rewrite S1, S2.
Qed.

Lemma write_val_sticky v w : is_Some (w_err w) → is_Some (w_err (write_val v w).2).
Proof.
  intros He. destruct (enc_val v) as [bs|] eqn:E.
  - destruct (write_val_writes v bs E) as (S & _). by rewrite S.
  - by apply write_val_fails.
Qed.

Lemma write_vals_sticky vs w : is_Some (w_err w) → is_Some (w_err (write_vals vs w).2).
Proof.
  revert w. induction vs as [|v vs IH]; intros w He; [done|]. simpl.
  unfold mbind, st_bind. pose proof (write_val_sticky v w He).
  destruct (write_val v w) as [[] w1]. by apply IH.
Qed.

Lemma write_vals_written vs w :
  wbuf_ok w → w_err w = None → w_err (write_vals vs w).2 = None →
  ∃ bs, writes (write_vals vs) bs ∧ (length bs <= w_BytesRemaining w)%nat
    ∧ (Forall wval_ok vs → reads (read_vals vs) bs vs).
Proof.
  revert w. induction vs as [|v vs IH]; intros w Hok He Hw.
  { exists []. split_and!; [apply writes_ret|simpl; lia|intros; apply reads_ret]. }
  simpl in Hw. unfold mbind, st_bind in Hw.
  destruct (write_val v w) as [[] w1] eqn:Hv.
  assert (He1 : w_err w1 = None).
  { destruct (w_err w1) eqn:E; [|done]. exfalso.
    destruct (write_vals_sticky vs w1) as [x Hx]; [by rewrite E|]. congruence. }
  destruct (enc_val v) as [b1|] eqn:E1.
  2:{ pose proof (write_val_fails v w E1) as [x Hx]. rewrite Hv in Hx. simpl in Hx. congruence. }
  destruct (write_val_writes v b1 E1) as (_ & F & O).
  destruct (decide (length b1 <= w_BytesRemaining w)%nat) as [Hf|Hf].
  2:{ destruct (O w Hok He) as (w' & Hw' & Herr & _); [lia|]. congruence. }
  rewrite F in Hv by done. injection Hv as <-.
  destruct (IH (appended w b1)) as (b2 & W2 & L2 & R2); auto using appended_ok.
  rewrite appended_remaining in L2 by done.
  exists (b1 ++ b2). split_and!.
  - simpl. apply writes_bind; [by apply write_val_writes|done].
  - rewrite length_app. lia.
  - intros Hvs. inversion Hvs as [|? ? Hv Hvs']; subst. simpl.
    eapply reads_bind; [by apply read_val_reads|].
    rewrite <- (app_nil_r b2). eapply reads_bind; [by apply R2|]. apply reads_ret.
Qed.

(** Values written to a buffer without an error are read back unchanged
    from the bytes written, and nothing is left over. *)
Theorem typed_values_roundtrip vs buf :
  Forall wval_ok vs → w_err (write_vals vs (NewWriteBuffer buf)).2 = None →
  read_vals vs (NewReadBuffer (written (write_vals vs (NewWriteBuffer buf)).2))
  = (vs, mkReadBuffer (len (written (write_vals vs (NewWriteBuffer buf)).2)) [] None).
Proof.
  intros Hvs He.
  assert (Hok : wbuf_ok (NewWriteBuffer buf)) by (unfold wbuf_ok; simpl; lia).
  destruct (write_vals_written vs _ Hok eq_refl He) as (bs & (_ & F & _) & Hf & R).
  rewrite F in * by done. cbn [snd] in *. rewrite written_appended by done. simpl app.
  specialize (R Hvs (len bs) []). rewrite app_nil_r in R. exact R.
Qed.

Lemma typed_values_roundtrip_witness :
  let vs := [VByte x07; VUint16 513; VUint64 (2^64 - 1); VUvarint 300;
             VLen8String (str "as"); VLen16String (str "json")] in
  read_vals vs (NewReadBuffer (written (write_vals vs (NewWriteBufferWithSize 64)).2))
  = (vs, mkReadBuffer 22 [] None).
Proof.
  refine (typed_values_roundtrip [VByte x07; VUint16 513; VUint64 (2^64 - 1); VUvarint 300;
    VLen8String (str "as"); VLen16String (str "json")] (replicate 64 x00) _ _).
  - repeat constructor; vm_compute; congruence.
  - vm_compute. reflexivity.
Defined.

(** reading any sequence of typed values from any bytes stays inside the
    buffer, keeps BytesRead within the initial length, and does not move after
    the first error. *)
Theorem read_vals_bounds vs buf :
  let r := (read_vals vs (NewReadBuffer buf)).2 in
  (∃ consumed, buf = consumed ++ r_Remaining r ∧ BytesRead r = len consumed)
  ∧ 0 <= BytesRead r <= len buf
  ∧ (is_Some (r_err r) → ∀ vs', (read_vals vs' r).2 = r).
Proof.
  assert (Hu : ∀ n x s, rsafe (uvarint_loop n x s)).
  { induction n as [|n IH]; intros x s; cbn [uvarint_loop]; [apply rsafe_ret|].
    apply rsafe_bind; [apply ReadByte_rsafe|]. intros [b [e|]]; [apply rsafe_ret|].
    cbn beta iota zeta. case_match; [|apply IH]. case_match; apply rsafe_ret. }
  assert (Hv : ∀ v, rsafe (read_val v)).
  { intros []; simpl; rsafe_tac; apply Hu. }
  assert (Hs : ∀ vs, rsafe (read_vals vs)).
  { induction vs0; simpl; rsafe_tac. }
  intros r. destruct (Hs vs (NewReadBuffer buf)) as (pre & Hpre & Hlen & _).
  fold r in Hpre, Hlen. simpl in Hpre, Hlen. unfold BytesRead, r_Remaining.
  rewrite Hlen. apply (f_equal length) in Hpre as Hl. rewrite length_app in Hl.
  split_and!; [exists pre; split; [done|lia]|lia|lia|].
  intros He vs'. destruct (Hs vs' r) as (_ & _ & _ & H). auto.
Qed.
