(* ===== verification/Checksum.v ===== *)
(** * Checksums (checksum.go)

    The checksum types of the protocol, their running state and the pools that
    recycle them.  hash/crc32 of the Go library is modelled by the table-driven
    update with the table entries computed from the polynomial.  The slice Sum
    returns aliases the checksum's cache in the source; the callers copy or
    compare it at once, so the model returns its bytes. *)

From S2P Require Import Prelude.

(** ** hash/crc32 *)

Definition crc32_IEEE : Z := 0xedb88320.
Definition crc32_Castagnoli : Z := 0x82f63b78.

Definition crc_bit (poly crc : Z) : Z :=
  if Z.odd crc then Z.lxor (Z.shiftr crc 1) poly else Z.shiftr crc 1.

(** tab[i] of simpleMakeTable. *)
Definition crc_table (poly i : Z) : Z := Nat.iter 8 (crc_bit poly) i.

Definition crc_not (crc : Z) : Z := Z.lxor crc 0xffffffff.

Definition crc_byte (poly crc : Z) (b : byte) : Z :=
  Z.lxor (crc_table poly (Z.land (Z.lxor crc (Z_of_byte b)) 255)) (Z.shiftr crc 8).

(** crc32.Update *)
Definition crc_update (poly crc : Z) (p : bytes) : Z :=
  crc_not (foldl (crc_byte poly) (crc_not crc) p).

(** A hash.Hash of crc32: polynomial and running value. *)
Record crc_hash := mkHash { h_poly : Z; h_crc : Z }.

Definition hash_Write (p : bytes) (h : crc_hash) : crc_hash :=
  mkHash (h_poly h) (crc_update (h_poly h) (h_crc h) p).
Definition hash_Sum (h : crc_hash) : bytes := be_enc 4 (h_crc h).
Definition hash_Reset (h : crc_hash) : crc_hash := mkHash (h_poly h) 0.
Definition hash_Size : nat := 4.

(** ** ChecksumType *)

Definition ChecksumTypeNone : byte := x00.
Definition ChecksumTypeCrc32 : byte := x01.
Definition ChecksumTypeFarmhash : byte := x02.
Definition ChecksumTypeCrc32C : byte := x03.
Definition checksumCount : Z := 4.

Definition valid (t : byte) : bool := Z_of_byte t <? checksumCount.

Definition ChecksumSize (t : byte) : nat :=
  match t with
  | x00 => 0
  | x01 | x03 => 4
  | x02 => 4
  | _ => 0
  end.

(** The three implementations of the Checksum interface. *)
Inductive Checksum :=
| nullChecksum
| hashChecksum (checksumType : byte) (hash : crc_hash)
| noReleaseChecksum (c : Checksum).

Definition newHashChecksum (t : byte) (hash : crc_hash) : Checksum := hashChecksum t hash.

Fixpoint TypeCode (c : Checksum) : byte :=
  match c with
  | nullChecksum => ChecksumTypeNone
  | hashChecksum t _ => t
  | noReleaseChecksum c => TypeCode c
  end.

Fixpoint Size (c : Checksum) : nat :=
  match c with
  | nullChecksum => 0
  | hashChecksum _ _ => hash_Size
  | noReleaseChecksum c => Size c
  end.

Fixpoint Sum (c : Checksum) : bytes :=
  match c with
  | nullChecksum => []
  | hashChecksum _ h => hash_Sum h
  | noReleaseChecksum c => Sum c
  end.

(** Add returns the sum besides updating the state. *)
Fixpoint AddState (b : bytes) (c : Checksum) : Checksum :=
  match c with
  | nullChecksum => nullChecksum
  | hashChecksum t h => hashChecksum t (hash_Write b h)
  | noReleaseChecksum c => noReleaseChecksum (AddState b c)
  end.

Definition Add (b : bytes) : ST Checksum bytes := λ c,
  let c := AddState b c in (Sum c, c).

Fixpoint Reset (c : Checksum) : Checksum :=
  match c with
  | nullChecksum => nullChecksum
  | hashChecksum t h => hashChecksum t (hash_Reset h)
  | noReleaseChecksum c => noReleaseChecksum (Reset c)
  end.

(** ** Pools

    checksumPools has one sync.Pool per type, with the New function set by
    init.  Get may return any pooled object or make a new one: [choice] says
    which. *)

Abbreviation checksumPools := (list (list Checksum)).

Definition emptyPools : checksumPools := replicate 4 [].

(** pool().New of each type (init). *)
Definition pool_New (t : nat) : Checksum :=
  match t with
  | 0%nat => nullChecksum
  | 1%nat => newHashChecksum ChecksumTypeCrc32 (mkHash crc32_IEEE 0)
  | 3%nat => newHashChecksum ChecksumTypeCrc32C (mkHash crc32_Castagnoli 0)
  | _ => nullChecksum
  end.

(** The pool a type uses: index into checksumPools. *)
Definition pool (t : byte) : nat :=
  Z.to_nat (Z_of_byte (if valid t then t else ChecksumTypeNone)).

Definition pool_Get (choice : option nat) (i : nat) (ps : checksumPools)
    : Checksum * checksumPools :=
  match choice ≫= λ k, (ps !! i) ≫= λ items, items !! k with
  | Some c => (c, alter (λ items, match choice with
                                  | Some k => delete k items
                                  | None => items
                                  end) i ps)
  | None => (pool_New i, ps)
  end.

Definition pool_Put (i : nat) (c : Checksum) (ps : checksumPools) : checksumPools :=
  alter (λ items, c :: items) i ps.

Definition New (t : byte) (choice : option nat) (ps : checksumPools)
    : Checksum * checksumPools :=
  let '(s, ps) := pool_Get choice (pool t) ps in (Reset s, ps).

(** ChecksumType.Release *)
Definition ReleaseTo (t : byte) (c : Checksum) (ps : checksumPools) : checksumPools :=
  pool_Put (pool t) c ps.

(** The Release method of each implementation. *)
Definition Release (c : Checksum) (ps : checksumPools) : checksumPools :=
  match c with
  | nullChecksum => ReleaseTo (TypeCode c) c ps
  | hashChecksum _ _ => ReleaseTo (TypeCode c) c ps
  | noReleaseChecksum _ => ps
  end.

(** ** Theory *)

(** The checksum of a stream of bytes, as the protocol defines it. *)
Definition fresh (t : byte) : Checksum := pool_New (pool t).
Definition checksum_of (t : byte) (stream : bytes) : bytes := Sum (AddState stream (fresh t)).

Lemma crc_not_involutive c : crc_not (crc_not c) = c.
Proof. unfold crc_not. by rewrite Z.lxor_assoc, Z.lxor_nilpotent, Z.lxor_0_r. Qed.

Lemma crc_update_app poly crc a b :
  crc_update poly (crc_update poly crc a) b = crc_update poly crc (a ++ b).
Proof. unfold crc_update. by rewrite crc_not_involutive, foldl_app. Qed.

Lemma crc_update_nil poly crc : crc_update poly crc [] = crc.
Proof. apply crc_not_involutive. Qed.

Lemma AddState_app a b c : AddState b (AddState a c) = AddState (a ++ b) c.
Proof.
  induction c as [|t h|c IH]; simpl; [done| |by rewrite IH].
  unfold hash_Write. simpl. by rewrite crc_update_app.
Qed.

Lemma AddState_nil c : AddState [] c = c.
Proof.
  induction c as [|t [p v]|c IH]; simpl; [done| |by rewrite IH].
  unfold hash_Write. simpl. by rewrite crc_update_nil.
Qed.

Lemma AddState_TypeCode b c : TypeCode (AddState b c) = TypeCode c.
Proof. by induction c. Qed.

Lemma AddState_Size b c : Size (AddState b c) = Size c.
Proof. by induction c. Qed.

Lemma length_Sum c : length (Sum c) = Size c.
Proof. by induction c. Qed.

(** What may lie in pool [i]. *)
Definition pooled_ok (i : nat) (c : Checksum) : Prop := Reset c = pool_New i.

Definition pools_ok (ps : checksumPools) : Prop :=
  length ps = 4%nat ∧ ∀ i items, ps !! i = Some items → Forall (pooled_ok i) items.

(** A checksum the code can hold: made by New and fed with data. *)
Definition live_checksum (c : Checksum) : Prop :=
  ∃ t stream, c = AddState stream (fresh t).

Lemma pool_lt t : (pool t < 4)%nat.
Proof. destruct t; vm_compute; lia. Qed.

Lemma pool_Get_ok choice i ps :
  pools_ok ps →
  pooled_ok i (pool_Get choice i ps).1 ∧ pools_ok (pool_Get choice i ps).2.
Proof.
  intros [Hlen Hps]. unfold pool_Get.
  assert (Hnew : pooled_ok i (pool_New i)).
  { unfold pooled_ok. destruct i as [|[|[|[|i]]]]; done. }
  destruct choice as [k|]; cbn [mbind option_bind fst snd]; [|done].
  destruct (ps !! i) as [items|] eqn:Hi; cbn [mbind option_bind fst snd]; [|done].
  destruct (items !! k) as [c|] eqn:Hk; cbn [mbind option_bind fst snd]; [|done].
  pose proof (Hps _ _ Hi) as Hall. split.
  - by eapply Forall_lookup_1.
  - split; [by rewrite length_alter|]. intros j items'.
    destruct (decide (i = j)) as [<-|Hne].
    + rewrite list_lookup_alter_eq, Hi. simpl. intros [= <-]. by apply Forall_delete.
    + rewrite list_lookup_alter_ne by done. apply Hps.
Qed.

Lemma Release_ok c ps : live_checksum c → pools_ok ps → pools_ok (Release c ps).
Proof.
  intros (t & stream & ->) [Hlen Hps].
  assert (∃ i, pooled_ok i (AddState stream (fresh t))
               ∧ Release (AddState stream (fresh t)) ps
                 = pool_Put i (AddState stream (fresh t)) ps) as (i & Hi & ->).
  { unfold fresh. pose proof (pool_lt t).
    destruct (pool t) as [|[|[|[|n]]]]; [exists 0%nat|exists 1%nat|exists 0%nat|exists 3%nat|lia];
      done. }
  unfold pool_Put. split; [by rewrite length_alter|]. intros j items.
  destruct (decide (i = j)) as [<-|Hne].
  - rewrite list_lookup_alter_eq. destruct (ps !! i) eqn:E; simpl; [|done].
    intros [= <-]. constructor; eauto.
  - rewrite list_lookup_alter_ne by done. apply Hps.
Qed.

(** Whatever a pool returns, New gives a checksum whose sum after adding
    any chunks is the checksum of their concatenation; and it keeps the pools in
    order. *)
Theorem New_Add_Sum t choice ps (chunks : list bytes) :
  pools_ok ps →
  let '(c, ps') := New t choice ps in
  Sum (foldl (λ c b, (Add b c).2) c chunks) = checksum_of t (concat chunks)
  ∧ pools_ok ps' ∧ live_checksum c.
Proof.
  intros Hps. unfold New. pose proof (pool_Get_ok choice (pool t) ps Hps) as [H1 H2].
  destruct (pool_Get choice (pool t) ps) as [c ps']. simpl in *.
  rewrite H1. fold (fresh t). split_and!; [|done|exists t, []; by rewrite AddState_nil].
  unfold checksum_of. f_equal. generalize (fresh t). clear.
  induction chunks as [|b chunks IH]; intros c; simpl; [by rewrite AddState_nil|].
  by rewrite IH, AddState_app.
Qed.

Lemma New_Add_Sum_witness :
  pools_ok (Release (AddState (str "old") (fresh x01)) emptyPools) ∧
  Sum (foldl (λ c b, (Add b c).2)
         (New x01 (Some 0%nat) (Release (AddState (str "old") (fresh x01)) emptyPools)).1
         [str "1234"; str "56789"])
  = be_enc 4 0xCBF43926.
Proof.
  assert (Hp : pools_ok (Release (AddState (str "old") (fresh x01)) emptyPools)).
  { apply Release_ok; [by eexists _, _|]. split; [done|].
    intros i items Hi.
    unfold emptyPools in Hi. destruct i as [|[|[|[|i]]]]; simpl in Hi; simplify_eq; constructor. }
  split; [exact Hp|].
  pose proof (New_Add_Sum x01 (Some 0%nat)
    (Release (AddState (str "old") (fresh x01)) emptyPools) [str "1234"; str "56789"] Hp) as H.
  destruct (New x01 (Some 0%nat) (Release (AddState (str "old") (fresh x01)) emptyPools))
    as [c ps'] eqn:E.
  destruct H as [H _]. etransitivity; [exact H|]. vm_compute. reflexivity.
Defined.

Example crc32c_check : checksum_of x03 (str "123456789") = be_enc 4 0xE3069283.
Proof. vm_compute. reflexivity. Qed.

(** The size a receiver skips for a type is the size a sender of that type
    writes, except for Farmhash, whose checksum object is the null checksum. *)
Lemma fresh_Size t : t ≠ ChecksumTypeFarmhash → Size (fresh t) = ChecksumSize t.
Proof. destruct t; intros H; try done; vm_compute; reflexivity. Qed.

Lemma fresh_TypeCode t : valid t = true → t ≠ ChecksumTypeFarmhash → TypeCode (fresh t) = t.
Proof. destruct t; intros H Hne; try done; vm_compute in H; congruence. Qed.
