(* ===== verification/Frame.v ===== *)
(** * Frames (frame.go, frame_pool.go)

    A frame is one array: the 16-byte header and the payload are slices of it,
    so [headerBuffer] and [Payload] are functions of the array.  The typed
    header is kept beside it, as in the source.  A network connection delivers a
    list of bytes and then an error; io.ReadFull is the only way the code reads
    from it.  The [Message] class is Go's message interface, [WireMessage] what
    the frame layer needs to know of a message. *)

From stdpp Require Import pretty.
From S2P Require Import Prelude Errors Buffer.

Definition MaxFrameSize : Z := 65535.
Definition FrameHeaderSize : Z := 16.
Definition MaxFramePayloadSize : Z := MaxFrameSize - FrameHeaderSize.

Definition millisecond : Z := 1000000.

(** ** io.Reader and io.ReadFull *)

Record Stream := mkStream { input : bytes; end_err : error }.

(** The bytes stored into the buffer, the error and the rest of the stream. *)
Definition ReadFull (n : nat) (r : Stream) : bytes * option error * Stream :=
  if decide (n <= length (input r))%nat
  then (take n (input r), None, mkStream (drop n (input r)) (end_err r))
  else
    let err := if decide (length (input r) = 0%nat) then end_err r
               else if decide (end_err r = Sentinel io_EOF) then (io_ErrUnexpectedEOF : error)
               else end_err r in
    (input r, Some err, mkStream [] (end_err r)).

(** ** FrameHeader *)

Record FrameHeader := mkFrameHeader {
  fh_size : Z;
  fh_messageType : byte;
  reserved1 : byte;
  ID : Z;
  reserved : bytes
}.

Definition zeroHeader : FrameHeader := mkFrameHeader 0 x00 x00 0 (replicate 8 x00).

Definition SetPayloadSize (sz : Z) (fh : FrameHeader) : FrameHeader :=
  mkFrameHeader (uint16 (sz + FrameHeaderSize)) (fh_messageType fh) (reserved1 fh) (ID fh) (reserved fh).
Definition PayloadSize (fh : FrameHeader) : Z := uint16 (fh_size fh - FrameHeaderSize).
Definition FrameSize (fh : FrameHeader) : Z := fh_size fh.
Definition MessageType (fh : FrameHeader) : byte := fh_messageType fh.

Definition FrameHeader_read (fh : FrameHeader) : ST ReadBuffer (FrameHeader * option error) :=
  sz ← ReadUint16;
  mt ← ReadSingleByte;
  r1 ← ReadSingleByte;
  id ← ReadUint32;
  _ ← ReadBytes (length (reserved fh));
  err ← r_Err;
  mret (mkFrameHeader sz mt r1 id (reserved fh), err).

Definition FrameHeader_write (fh : FrameHeader) : ST WriteBuffer (option error) :=
  _ ← WriteUint16 (fh_size fh);
  _ ← WriteSingleByte (fh_messageType fh);
  _ ← WriteSingleByte (reserved1 fh);
  _ ← WriteUint32 (ID fh);
  _ ← WriteBytes (reserved fh);
  w_Err.

(** ** Frame *)

Record Frame := mkFrame {
  buffer : bytes;
  Header : FrameHeader
}.

Definition headerBuffer (f : Frame) : bytes := take 16 (buffer f).
Definition Payload (f : Frame) : bytes := drop 16 (buffer f).

(** Storing into the payload or the header slice stores into the array. *)
Definition setPayload (p : bytes) (f : Frame) : Frame :=
  mkFrame (splice 16 p (buffer f)) (Header f).
Definition setHeader (h : FrameHeader) (f : Frame) : Frame := mkFrame (buffer f) h.

Definition NewFrame (payloadCapacity : nat) : Frame :=
  mkFrame (replicate (payloadCapacity + 16) x00) zeroHeader.

(** f.Payload[:n] *)
Definition slice_to (n : Z) (bs : bytes) : go bytes :=
  if decide (n <= len bs) then Ret (take (Z.to_nat n) bs) else Panic.

Definition SizedPayload (f : Frame) : go bytes := slice_to (PayloadSize (Header f)) (Payload f).

Definition ReadBody (header : bytes) (r : Stream) (f : Frame) : go (option error * Frame * Stream) :=
  let f := mkFrame (splice 0 header (buffer f)) (Header f) in
  let '((fh, err), _) := FrameHeader_read (Header f) (NewReadBuffer header) in
  let f := setHeader fh f in
  match err with
  | Some e => Ret (Some e, f, r)
  | None =>
      let payloadSize := PayloadSize (Header f) in
      if decide (payloadSize > MaxFramePayloadSize)
      then Ret (Some (otherError (str "invalid frame size " ++ str (pretty (fh_size (Header f))))), f, r)
      else if decide (payloadSize > 0)
      then sp ← SizedPayload f;
           let '(p, err, r) := ReadFull (length sp) r in
           Ret (err, setPayload p f, r)
      else Ret (None, f, r)
  end.

Definition ReadIn (r : Stream) (f : Frame) : go (option error * Frame * Stream) :=
  let '(header, err, r) := ReadFull 16 r in
  match err with
  | Some e => Ret (Some e, f, r)
  | None => ReadBody header r f
  end.

(** WriteOut: [w] is the Write method of the connection.  What a call of it leads to is
    of type [R], so that a caller can record the bytes that Write was given; [fail] is the
    outcome when Write is not called. *)
Definition WriteOut_to {R} (fail : error → R) (w : bytes → R) (f : Frame) : go (R * Frame) :=
  let '(err, wbuf) := FrameHeader_write (Header f) (NewWriteBuffer (headerBuffer f)) in
  let f := mkFrame (splice 0 (w_buffer wbuf) (buffer f)) (Header f) in
  match err with
  | Some e => Ret (fail e, f)
  | None =>
      fullFrame ← slice_to (FrameSize (Header f)) (buffer f);
      Ret (w fullFrame, f)
  end.

Definition WriteOut (w : bytes → option error) (f : Frame) : go (option error * Frame) := WriteOut_to Some w f.

(** ** Messages *)

(** The message interface.  [msg_read] starts from the receiver's value. *)
Class Message (M : Type) := {
  msg_ID : M → Z;
  msg_type : M → byte;
  msg_read : M → ST ReadBuffer (M * option error);
  msg_write : M → ST WriteBuffer (option error)
}.

Definition Frame_write {M} `{Message M} (msg : M) (f : Frame) : option error * Frame :=
  let '(err, wbuf) := msg_write msg (NewWriteBuffer (Payload f)) in
  let f := setPayload (w_buffer wbuf) f in
  match err with
  | Some e => (Some e, f)
  | None =>
      let h := mkFrameHeader (fh_size (Header f)) (msg_type msg) x00 (msg_ID msg) (reserved (Header f)) in
      (None, setHeader (SetPayloadSize (uint16 (Z.of_nat (BytesWritten wbuf))) h) f)
  end.

Definition Frame_read {M} `{Message M} (msg : M) (f : Frame) : go (M * option error) :=
  sp ← SizedPayload f;
  Ret (msg_read msg (NewReadBuffer sp)).1.

(** What the frame layer relies on: a message [m] with [msg_ok m] is encoded as
    [msg_enc m], and reading that encoding into the receiver [m0] gives
    [msg_norm m0 m]. *)
Class WireMessage (M : Type) `{Message M} := {
  msg_ok : M → Prop;
  msg_enc : M → bytes;
  msg_norm : M → M → M;
  msg_write_ok : ∀ m, msg_ok m →
    ∃ body, writes body (msg_enc m) ∧
      ∀ w, w_err w = None → msg_write m w = (body ≫= λ _, w_Err) w;
  msg_read_ok : ∀ m0 m, msg_ok m →
    reads (msg_read m0) (msg_enc m) (msg_norm m0 m, None)
}.

(** ** Frame pools (frame_pool.go) *)

(** The pool implementations: the heap, sync.Pool and a bounded channel. *)
Inductive FramePool :=
| disabledFramePool
| syncFramePool (pool : list Frame)
| channelFramePool (capacity : nat) (c : list Frame).

(** Get: [choice] is what sync.Pool's Get picked. *)
Definition FramePool_Get (choice : option nat) (p : FramePool) : Frame * FramePool :=
  match p with
  | disabledFramePool => (NewFrame (Z.to_nat MaxFramePayloadSize), p)
  | syncFramePool items =>
      match choice ≫= λ k, items !! k with
      | Some f => (f, syncFramePool (match choice with Some k => delete k items | None => items end))
      | None => (NewFrame (Z.to_nat MaxFramePayloadSize), p)
      end
  | channelFramePool cap items =>
      match items with
      | f :: rest => (f, channelFramePool cap rest)
      | [] => (NewFrame (Z.to_nat MaxFramePayloadSize), p)
      end
  end.

Definition FramePool_Release (f : Frame) (p : FramePool) : FramePool :=
  match p with
  | disabledFramePool => disabledFramePool
  | syncFramePool items => syncFramePool (f :: items)
  | channelFramePool cap items =>
      if decide (length items < cap)%nat
      then channelFramePool cap (items ++ [f])
      else channelFramePool cap items
  end.

(** ** Theory *)

Ltac frame_lia := unfold MaxFramePayloadSize, MaxFrameSize, FrameHeaderSize in *; lia.

(** A frame as the pools hand it out. *)
Definition frame_ok (f : Frame) : Prop :=
  len (buffer f) = MaxFrameSize ∧ length (reserved (Header f)) = 8%nat.

(** The fields of a header are values of their Go types. *)
Definition header_ok (fh : FrameHeader) : Prop :=
  0 <= fh_size fh < 2^16 ∧ 0 <= ID fh < 2^32 ∧ length (reserved fh) = 8%nat.

Definition hdr_enc (fh : FrameHeader) : bytes :=
  be_enc 2 (fh_size fh) ++ [fh_messageType fh] ++ [reserved1 fh] ++ be_enc 4 (ID fh) ++ reserved fh.

Lemma length_hdr_enc fh : length (reserved fh) = 8%nat → length (hdr_enc fh) = 16%nat.
Proof. intros H. unfold hdr_enc. rewrite !length_app, !length_be_enc, H. done. Qed.

Lemma NewWriteBuffer_ok b : wbuf_ok (NewWriteBuffer b).
Proof. unfold wbuf_ok. simpl. lia. Qed.

Lemma appended_new_full b bs :
  length bs = length b → w_buffer (appended (NewWriteBuffer b) bs) = bs.
Proof.
  intros H. rewrite appended_buffer.
  - simpl. rewrite drop_ge by lia. apply app_nil_r.
  - apply NewWriteBuffer_ok.
  - rewrite w_BytesRemaining_eq. simpl. lia.
Qed.

Lemma FrameHeader_write_spec fh hb :
  length (reserved fh) = 8%nat → length hb = 16%nat →
  ∃ w, FrameHeader_write fh (NewWriteBuffer hb) = (None, w) ∧ w_buffer w = hdr_enc fh.
Proof.
  intros Hr Hb. pose proof (length_hdr_enc fh Hr) as Hl.
  exists (appended (NewWriteBuffer hb) (hdr_enc fh)). split.
  2:{ by rewrite appended_new_full by lia. }
  assert (writes (_ ← WriteUint16 (fh_size fh); _ ← WriteSingleByte (fh_messageType fh);
    _ ← WriteSingleByte (reserved1 fh); _ ← WriteUint32 (ID fh); WriteBytes (reserved fh))
    (hdr_enc fh)) as (_ & F & _) by (unfold hdr_enc; writes_tac).
  specialize (F (NewWriteBuffer hb) (NewWriteBuffer_ok hb) eq_refl).
  rewrite w_BytesRemaining_eq in F. simpl w_off in F. simpl w_buffer in F.
  specialize (F ltac:(lia)). unfold FrameHeader_write.
  unfold mbind, st_bind in F |- *.
  repeat match goal with
  | |- context [let '(_, _) := ?m ?w in _] => destruct (m w) as [? ?]
  end. simplify_eq. done.
Qed.

Lemma FrameHeader_read_spec fh0 fh :
  header_ok fh → length (reserved fh0) = 8%nat →
  reads (FrameHeader_read fh0) (hdr_enc fh)
    (mkFrameHeader (fh_size fh) (fh_messageType fh) (reserved1 fh) (ID fh) (reserved fh0), None).
Proof.
  intros (Hs & Hi & Hr) Hr0. unfold FrameHeader_read, hdr_enc.
  eapply reads_bind; [by apply ReadUint16_reads|].
  eapply reads_bind; [apply ReadSingleByte_reads|].
  eapply reads_bind; [apply ReadSingleByte_reads|].
  eapply reads_bind; [by apply ReadUint32_reads|].
  rewrite <- (app_nil_r (reserved fh)).
  eapply reads_bind; [apply ReadBytes_reads'; congruence|]. intros n rest. done.
Qed.

Lemma slice_to_fits n bs : 0 <= n <= len bs → slice_to n bs = Ret (take (Z.to_nat n) bs).
Proof. intros H. unfold slice_to. by rewrite decide_True by lia. Qed.

Lemma ReadFull_app n bs rest e :
  length bs = n → ReadFull n (mkStream (bs ++ rest) e) = (bs, None, mkStream rest e).
Proof.
  intros <-. unfold ReadFull. simpl. rewrite decide_True by (rewrite length_app; lia).
  by rewrite take_app_length, drop_app_length.
Qed.

Section frames.
Context (f : Frame).
Hypothesis Hf : frame_ok f.

Lemma length_Payload : len (Payload f) = MaxFramePayloadSize.
Proof.
  destruct Hf as [Hb _]. unfold Payload, MaxFramePayloadSize, FrameHeaderSize, MaxFrameSize in *.
  rewrite length_drop. lia.
Qed.

(** Writing a message: the payload starts with its encoding and the header
    describes it. *)
Lemma Frame_write_spec {M} `{WireMessage M} (m : M) :
  msg_ok m → len (msg_enc m) <= MaxFramePayloadSize →
  ∃ tl, Frame_write m f
    = (None, mkFrame (take 16 (buffer f) ++ msg_enc m ++ tl)
               (mkFrameHeader (len (msg_enc m) + 16) (msg_type m) x00 (msg_ID m) (reserved (Header f))))
    ∧ len (take 16 (buffer f) ++ msg_enc m ++ tl) = MaxFrameSize.
Proof.
  intros Hm Hl. pose proof length_Payload as Hp. destruct Hf as [Hb _].
  destruct (msg_write_ok m Hm) as (body & (_ & F & _) & Hw).
  unfold Frame_write. rewrite Hw by done. unfold mbind, st_bind.
  rewrite F; [|apply NewWriteBuffer_ok|done|rewrite w_BytesRemaining_eq; simpl; lia].
  simpl w_Err. cbn beta iota.
  assert (Hfit : (length (msg_enc m) <= w_BytesRemaining (NewWriteBuffer (Payload f)))%nat)
    by (rewrite w_BytesRemaining_eq; simpl; lia).
  exists (drop (length (msg_enc m)) (Payload f)). split.
  2:{ unfold Payload in *. rewrite !length_app, length_take, !length_drop. frame_lia. }
  unfold setHeader, setPayload. do 2 f_equal.
  - rewrite appended_buffer by (auto using NewWriteBuffer_ok). simpl.
    rewrite splice_fits.
    + rewrite (drop_ge (buffer f)), app_nil_r; [done|].
      rewrite length_app, length_drop. frame_lia.
    + rewrite length_app, length_drop. frame_lia.
  - unfold SetPayloadSize. simpl. f_equal.
    rewrite BytesWritten_off by (apply appended_ok; auto using NewWriteBuffer_ok). simpl.
    unfold MaxFramePayloadSize, MaxFrameSize, FrameHeaderSize in *.
    unfold uint16. rewrite !Z.mod_small; try lia. rewrite Z.mod_small; lia.
Qed.

(** Writing a frame out hands the header encoding and the sized payload to the
    connection. *)
Lemma WriteOut_spec {R} (fail : error → R) w hb p tl fh :
  buffer f = hb ++ p ++ tl → length hb = 16%nat → fh_size fh = len p + 16 →
  length (reserved fh) = 8%nat →
  WriteOut_to fail w (setHeader fh f)
  = Ret (w (hdr_enc fh ++ p), mkFrame (hdr_enc fh ++ p ++ tl) fh).
Proof.
  intros Hbuf Hhb Hsz Hr. unfold WriteOut_to. simpl Header.
  destruct (FrameHeader_write_spec fh (headerBuffer (setHeader fh f)) Hr) as (wb & -> & Hwb).
  { unfold headerBuffer. simpl. rewrite Hbuf, length_take, length_app. lia. }
  cbn beta iota. rewrite Hwb. simpl buffer.
  assert (splice 0 (hdr_enc fh) (buffer f) = hdr_enc fh ++ p ++ tl) as ->.
  { rewrite Hbuf. apply (splice_exact [] hb). rewrite length_hdr_enc; done. }
  pose proof (length_hdr_enc fh Hr) as Hl.
  unfold FrameSize. rewrite slice_to_fits by (rewrite Hsz, !length_app; lia).
  unfold mbind, go_bind. do 3 f_equal. rewrite app_assoc. apply take_app_length'.
  rewrite length_app. lia.
Qed.

(** Reading a well-formed frame consumes exactly its bytes. *)
Lemma ReadIn_spec fh p rest e :
  header_ok fh → fh_size fh = len p + 16 →
  ∃ f', ReadIn (mkStream (hdr_enc fh ++ p ++ rest) e) f = Ret (None, f', mkStream rest e)
    ∧ frame_ok f'
    ∧ Header f' = mkFrameHeader (fh_size fh) (fh_messageType fh) (reserved1 fh) (ID fh) (reserved (Header f))
    ∧ SizedPayload f' = Ret p
    ∧ headerBuffer f' = hdr_enc fh.
Proof.
  intros Hok Hsz. pose proof Hok as (Hrange & _ & Hres). destruct Hf as [Hb Hr].
  pose proof (length_hdr_enc fh Hres) as Hl.
  unfold ReadIn. rewrite ReadFull_app by done. cbn beta iota. unfold ReadBody. simpl Header.
  pose proof (FrameHeader_read_spec (Header f) fh Hok Hr (len (hdr_enc fh)) []) as Hread.
  rewrite app_nil_r in Hread. unfold NewReadBuffer. rewrite Hread. cbn beta iota. simpl Header.
  set (fh' := mkFrameHeader _ _ _ _ _).
  assert (Hps : PayloadSize fh' = len p).
  { unfold PayloadSize, FrameHeaderSize. simpl. rewrite uint16_small; lia. }
  rewrite Hps. unfold MaxFrameSize in Hb.
  rewrite decide_False by (unfold MaxFramePayloadSize, MaxFrameSize, FrameHeaderSize; lia).
  set (f1 := setHeader fh' _).
  assert (Hb1 : buffer f1 = hdr_enc fh ++ drop 16 (buffer f)).
  { unfold f1. simpl. rewrite splice_fits by lia. by rewrite Hl. }
  assert (Hb1l : length (buffer f1) = length (buffer f))
    by (rewrite Hb1, length_app, length_drop; lia).
  assert (Hp1 : Payload f1 = drop 16 (buffer f)).
  { unfold Payload. rewrite Hb1. apply drop_app_length'. lia. }
  assert (Hsp : SizedPayload f1 = Ret (take (length p) (Payload f1))).
  { unfold SizedPayload. simpl Header. rewrite Hps, slice_to_fits.
    - by rewrite Nat2Z.id.
    - rewrite Hp1, length_drop. lia. }
  destruct (decide (len p > 0)) as [Hpos|Hzero].
  - rewrite Hsp. unfold mbind, go_bind.
    assert (length (take (length p) (Payload f1)) = length p) as ->
      by (rewrite Hp1, length_take, length_drop; lia).
    rewrite ReadFull_app by done. eexists. split; [reflexivity|].
    assert (Hb2 : buffer (setPayload p f1) = hdr_enc fh ++ p ++ drop (16 + length p) (buffer f)).
    { change (buffer (setPayload p f1)) with (splice 16 p (buffer f1)).
      rewrite splice_fits by lia.
      rewrite Hb1. rewrite take_app_length' by lia. do 2 f_equal.
      rewrite drop_app_ge by lia. rewrite drop_drop. f_equal. lia. }
    split_and!.
    + unfold frame_ok, MaxFrameSize. rewrite Hb2. rewrite !length_app, length_drop. split; [lia|done].
    + done.
    + unfold SizedPayload. change (Header (setPayload p f1)) with fh'.
      unfold Payload. rewrite Hb2, drop_app_length' by lia.
      rewrite Hps, slice_to_fits by (rewrite length_app; lia).
      by rewrite Nat2Z.id, take_app_length.
    + unfold headerBuffer. rewrite Hb2. by apply take_app_length'.
  - destruct p; [|simpl in Hzero; lia]. eexists. split; [reflexivity|]. split_and!.
    + unfold frame_ok, MaxFrameSize. rewrite Hb1l. split; [lia|done].
    + done.
    + rewrite Hsp. done.
    + unfold headerBuffer. rewrite Hb1. by apply take_app_length'.
Qed.
End frames.

(** Every 16 bytes are the encoding of some header. *)
Lemma hdr_dec (hb : bytes) :
  length hb = 16%nat →
  ∃ fh, header_ok fh ∧ hdr_enc fh = hb ∧ fh_size fh = be_dec (take 2 hb).
Proof.
  intros H. do 16 (destruct hb as [|? hb]; [simpl in H; lia|]).
  destruct hb; [|simpl in H; lia].
  eexists (mkFrameHeader (be_dec [b; b0]) b1 b2 (be_dec [b3; b4; b5; b6])
    [b7; b8; b9; b10; b11; b12; b13; b14]).
  split_and!; [split_and!| |done]; simpl fh_size; simpl ID.
  - pose proof (be_dec_range [b; b0]). simpl in *. lia.
  - pose proof (be_dec_range [b; b0]). simpl in *. lia.
  - pose proof (be_dec_range [b3; b4; b5; b6]). simpl in *. lia.
  - pose proof (be_dec_range [b3; b4; b5; b6]). simpl in *. lia.
  - done.
  - unfold hdr_enc. simpl fh_size. simpl ID.
    by rewrite !be_enc_dec'.
Qed.

(** Headers that announce less than the header itself are refused before
    anything else is read. *)
Lemma ReadIn_short fh rest e f :
  frame_ok f → header_ok fh → fh_size fh < 16 →
  ∃ f', ReadIn (mkStream (hdr_enc fh ++ rest) e) f
    = Ret (Some (otherError (str "invalid frame size " ++ str (pretty (fh_size fh)))), f', mkStream rest e)
    ∧ frame_ok f'.
Proof.
  intros [Hb Hr] Hok Hlt. pose proof Hok as (Hrange & _ & Hres).
  pose proof (length_hdr_enc fh Hres) as Hl.
  unfold ReadIn. rewrite ReadFull_app by done. cbn beta iota. unfold ReadBody. simpl Header.
  pose proof (FrameHeader_read_spec (Header f) fh Hok Hr (len (hdr_enc fh)) []) as Hread.
  rewrite app_nil_r in Hread. unfold NewReadBuffer. rewrite Hread. cbn beta iota. simpl Header.
  rewrite decide_True.
  2:{ unfold PayloadSize. simpl. unfold uint16, FrameHeaderSize.
      replace (fh_size fh - 16) with (fh_size fh - 16 + 1 * 2^16 - 2^16) by lia.
      rewrite <- (Z.mod_add _ 1) by lia.
      replace (fh_size fh - 16 + 1 * 2^16 - 2^16 + 1 * 2^16) with (fh_size fh + 65520) by lia.
      rewrite Z.mod_small by lia. frame_lia. }
  eexists. split; [reflexivity|]. split; [|done].
  simpl buffer. rewrite length_splice by lia. done.
Qed.

(** A frame cut off by the end of the stream. *)
Lemma ReadIn_cut fh p e f :
  frame_ok f → header_ok fh → len p + 16 < fh_size fh →
  ∃ err f' s', ReadIn (mkStream (hdr_enc fh ++ p) e) f = Ret (Some err, f', s') ∧ frame_ok f'
    ∧ input s' = [].
Proof.
  intros [Hb Hr] Hok Hlt. pose proof Hok as (Hrange & _ & Hres).
  pose proof (length_hdr_enc fh Hres) as Hl.
  unfold ReadIn. rewrite ReadFull_app by done. cbn beta iota. unfold ReadBody. simpl Header.
  pose proof (FrameHeader_read_spec (Header f) fh Hok Hr (len (hdr_enc fh)) []) as Hread.
  rewrite app_nil_r in Hread. unfold NewReadBuffer. rewrite Hread. cbn beta iota. simpl Header.
  set (fh' := mkFrameHeader _ _ _ _ _).
  assert (Hps : PayloadSize fh' = fh_size fh - 16).
  { unfold PayloadSize, FrameHeaderSize. simpl. rewrite uint16_small; lia. }
  rewrite Hps, decide_False, decide_True by frame_lia.
  set (f1 := setHeader fh' _).
  assert (Hb1l : length (buffer f1) = length (buffer f)).
  { unfold f1. simpl buffer. apply length_splice. lia. }
  assert (Hsp : SizedPayload f1 = Ret (take (Z.to_nat (fh_size fh - 16)) (Payload f1))).
  { unfold SizedPayload. simpl Header. rewrite Hps, slice_to_fits; [done|].
    unfold Payload. rewrite length_drop. frame_lia. }
  rewrite Hsp. unfold mbind, go_bind.
  assert (length (take (Z.to_nat (fh_size fh - 16)) (Payload f1)) = Z.to_nat (fh_size fh - 16)) as ->
    by (unfold Payload; rewrite length_take, length_drop; frame_lia).
  unfold ReadFull. simpl input. rewrite decide_False by lia. cbn beta iota.
  do 3 eexists. split; [reflexivity|]. split_and!; [split|done]; [|done].
  change (buffer (setPayload p f1)) with (splice 16 p (buffer f1)).
  rewrite length_splice by frame_lia. lia.
Qed.

Lemma ReadIn_total s f :
  frame_ok f →
  let n := be_dec (take 2 (input s)) in
  ∃ err f' s', ReadIn s f = Ret (err, f', s') ∧ frame_ok f'
    ∧ (err = None ↔ 16 <= n <= len (input s) ∧ 16 <= len (input s))
    ∧ (err = None → input s' = drop (Z.to_nat n) (input s)
        ∧ headerBuffer f' = take 16 (input s)
        ∧ SizedPayload f' = Ret (take (Z.to_nat n - 16) (drop 16 (input s)))).
Proof.
  intros Hf n. destruct s as [inp e]. simpl input in *.
  destruct (decide (16 <= len inp)) as [Hl|Hl].
  2:{ unfold ReadIn, ReadFull. simpl input. rewrite decide_False by lia. cbn beta iota.
      do 3 eexists. split; [reflexivity|]. split_and!; [done|split; [done|intros; exfalso; lia]|done]. }
  destruct (hdr_dec (take 16 inp)) as (fh & Hok & Henc & Hsz); [rewrite length_take; lia|].
  assert (Hn : fh_size fh = n) by (unfold n; rewrite Hsz, take_take; done).
  assert (Hin : inp = hdr_enc fh ++ drop 16 inp) by (by rewrite Henc, take_drop).
  assert (Hhl : length (hdr_enc fh) = 16%nat) by (rewrite Henc, length_take; lia).
  destruct (decide (n < 16)) as [Hs|Hs].
  { destruct (ReadIn_short fh (drop 16 inp) e f Hf Hok) as (f' & HR & Hf'); [lia|].
    rewrite <- Hin in HR. do 3 eexists. split; [exact HR|]. split_and!; [done|split; [done|intros; exfalso; lia]|done]. }
  destruct (decide (n <= len inp)) as [Hfit|Hcut].
  2:{ destruct (ReadIn_cut fh (drop 16 inp) e f Hf Hok) as (err & f' & s' & HR & Hf' & Hs').
      { rewrite length_drop. lia. }
      rewrite <- Hin in HR. do 3 eexists. split; [exact HR|].
      split_and!; [done|split; [done|intros; exfalso; lia]|done]. }
  destruct (ReadIn_spec f Hf fh (take (Z.to_nat n - 16) (drop 16 inp))
    (drop (Z.to_nat n - 16) (drop 16 inp)) e Hok) as (f' & HR & Hf' & Hh & Hsp & Hhb).
  { rewrite length_take, length_drop. lia. }
  rewrite take_drop, <- Hin in HR. do 3 eexists. split; [exact HR|]. split_and!; [done|split; [lia|done]|].
  intros _. split_and!; [|by rewrite Hhb|done]. simpl. rewrite drop_drop. f_equal. lia.
Qed.

(** Reading a frame from any stream returns, never panics, keeps the frame
    usable, and succeeds exactly when the stream holds as many bytes as the size
    field announces and that size covers the header; then it consumes exactly
    that many bytes. *)
Theorem ReadIn_any s f :
  frame_ok f →
  let n := be_dec (take 2 (input s)) in
  ∃ err f' s', ReadIn s f = Ret (err, f', s') ∧ frame_ok f'
    ∧ (err = None ↔ 16 <= n <= len (input s) ∧ 16 <= len (input s))
    ∧ (err = None → input s' = drop (Z.to_nat n) (input s)
        ∧ headerBuffer f' = take 16 (input s)
        ∧ SizedPayload f' = Ret (take (Z.to_nat n - 16) (drop 16 (input s)))).
Proof. apply ReadIn_total. Qed.

Lemma ReadIn_any_witness :
  let s := mkStream (be_enc 2 18 ++ [x03; x00] ++ be_enc 4 7 ++ replicate 8 x00 ++ [x0a; x0b; x0c])
             (io_EOF : error) in
  ∃ err f' s', ReadIn s (NewFrame (Z.to_nat MaxFramePayloadSize)) = Ret (err, f', s')
    ∧ (err = None ↔ 16 <= 18 <= 19 ∧ 16 <= 19).
Proof.
  intros s. destruct (ReadIn_any s (NewFrame (Z.to_nat MaxFramePayloadSize)))
    as (err & f' & s' & H1 & _ & H2 & _).
  - split; [|reflexivity]. unfold NewFrame. cbn [buffer]. rewrite length_replicate. reflexivity.
  - exists err, f', s'. split; [exact H1|exact H2].
Defined.

(** The bytes a message is sent as. *)
Lemma message_over_wire {M} `{WireMessage M} (m : M) f :
  frame_ok f → msg_ok m → 0 <= msg_ID m < 2^32 → len (msg_enc m) <= MaxFramePayloadSize →
  ∃ f1 wire f2, Frame_write m f = (None, f1) ∧ (∀ R (fail : error → R) send, WriteOut_to fail send f1 = Ret (send wire, f2))
  ∧ wire = take (Z.to_nat (FrameSize (Header f2))) (buffer f2)
  ∧ ∀ g m0 rest e, frame_ok g → ∃ g1, ReadIn (mkStream (wire ++ rest) e) g = Ret (None, g1, mkStream rest e)
    ∧ frame_ok g1 ∧ ID (Header g1) = msg_ID m ∧ MessageType (Header g1) = msg_type m
    ∧ Frame_read m0 g1 = Ret (msg_norm m0 m, None).
Proof.
  intros Hf Hm Hid Hl. destruct (Frame_write_spec f Hf m Hm Hl) as (tl & -> & Hlen). destruct Hf as [Hb Hr].
  set (fh := mkFrameHeader _ _ _ _ _).
  assert (Hfh : header_ok fh) by (split_and!; simpl; try done; frame_lia).
  eexists _, (hdr_enc fh ++ msg_enc m), _. split; [reflexivity|]. split; [|split].
  - intros R fail send. refine (WriteOut_spec (mkFrame (take 16 (buffer f) ++ msg_enc m ++ tl) fh) fail send
      (take 16 (buffer f)) (msg_enc m) tl fh _ _ _ _); simpl; try done.
    rewrite length_take. frame_lia.
  - cbn [Header buffer]. rewrite (app_assoc (hdr_enc fh)). symmetry. apply take_app_length'.
    rewrite length_app, length_hdr_enc by done. unfold FrameSize. simpl. frame_lia.
  - intros g m0 rest e Hg. destruct (ReadIn_spec g Hg fh (msg_enc m) rest e Hfh) as (g1 & HR & Hg1 & Hh & Hsp & _); [done|].
    exists g1. rewrite <- app_assoc. split_and!; [exact HR|done|by rewrite Hh|by rewrite Hh|].
    unfold Frame_read. rewrite Hsp. unfold mbind, go_bind, NewReadBuffer.
    pose proof (msg_read_ok m0 m Hm (len (msg_enc m)) []) as Hread.
    rewrite app_nil_r in Hread. by rewrite Hread.
Qed.


(** The pools hand out usable frames, and a bounded pool stays bounded. *)
Definition pool_ok (p : FramePool) : Prop :=
  match p with
  | disabledFramePool => True
  | syncFramePool items => Forall frame_ok items
  | channelFramePool cap items => (length items <= cap)%nat ∧ Forall frame_ok items
  end.

Lemma NewFrame_ok : frame_ok (NewFrame (Z.to_nat MaxFramePayloadSize)).
Proof. split; [|done]. unfold NewFrame. cbn [buffer]. rewrite length_replicate. frame_lia. Qed.

Lemma FramePool_Get_ok p choice :
  pool_ok p → frame_ok (FramePool_Get choice p).1 ∧ pool_ok (FramePool_Get choice p).2.
Proof.
  intros Hp. destruct p as [|items|cap items]; simpl in *.
  - auto using NewFrame_ok.
  - destruct choice as [k|]; simpl; [|auto using NewFrame_ok].
    destruct (items !! k) as [g|] eqn:Hk; simpl; [|auto using NewFrame_ok].
    split; [by eapply Forall_lookup_1|by apply Forall_delete].
  - destruct Hp as [Hc Hi]. destruct Hi; simpl in *; auto using NewFrame_ok with lia.
Qed.

Lemma FramePool_Release_ok p f : pool_ok p → frame_ok f → pool_ok (FramePool_Release f p).
Proof.
  intros Hp Hf. destruct p as [|items|cap items]; simpl in *; [done|by constructor|].
  destruct Hp as [Hc Hi]. case_decide; simpl; [|done]. rewrite length_app. simpl.
  split; [lia|]. apply Forall_app. auto.
Qed.

(** Every frame a pool returns is a full-size frame and Release keeps the
    pool in order, for all three pools. *)
Theorem FramePool_usable p choice f :
  pool_ok p → frame_ok f →
  frame_ok (FramePool_Get choice p).1 ∧ pool_ok (FramePool_Get choice p).2
  ∧ pool_ok (FramePool_Release f p).
Proof.
  intros Hp Hf. destruct (FramePool_Get_ok p choice Hp). auto using FramePool_Release_ok.
Qed.

Lemma FramePool_usable_witness :
  frame_ok (FramePool_Get None (channelFramePool 1 [NewFrame (Z.to_nat MaxFramePayloadSize)])).1.
Proof.
  refine (proj1 (FramePool_usable
    (channelFramePool 1 [NewFrame (Z.to_nat MaxFramePayloadSize)]) None
    (NewFrame (Z.to_nat MaxFramePayloadSize)) _ NewFrame_ok)).
  split; [apply le_n|]. constructor; [apply NewFrame_ok|constructor].
Defined.
