(* ===== verification/Messages.v ===== *)
(** * Messages (messages.go, and the wire form of Span in tracing.go)

    Every message type with its read and write methods as an instance of the
    message interface, and the proof that each one is a [WireMessage].  Go
    iterates over maps in an unspecified order: the order is a parameter
    ([MapRange]), so the statements hold for every order. *)

From S2P Require Import Prelude Errors Buffer Frame.

(** ** Map iteration *)

Class MapRange := {
  range : gmap bytes bytes → list (bytes * bytes);
  range_perm : ∀ m, range m ≡ₚ map_to_list m
}.

(** The order in which this model's maps happen to be stored is one of them. *)
Definition storage_range : MapRange := {| range := map_to_list; range_perm := λ m, Permutation_refl _ |}.

(** ** Message types *)

Definition messageTypeInitReq : byte := x01.
Definition messageTypeInitRes : byte := x02.
Definition messageTypeCallReq : byte := x03.
Definition messageTypeCallRes : byte := x04.
Definition messageTypeCallReqContinue : byte := x13.
Definition messageTypeCallResContinue : byte := x14.
Definition messageTypePingReq : byte := xd0.
Definition messageTypePingRes : byte := xd1.
Definition messageTypeError : byte := xff.

(** ** Span *)

Definition Span_read (s : Span) : ST ReadBuffer Span :=
  sid ← ReadUint64;
  pid ← ReadUint64;
  tid ← ReadUint64;
  fl ← ReadSingleByte;
  mret (mkSpan tid pid sid fl).

Definition Span_write (s : Span) : ST WriteBuffer unit :=
  _ ← WriteUint64 (spanID s);
  _ ← WriteUint64 (parentID s);
  _ ← WriteUint64 (traceID s);
  WriteSingleByte (flags s).

(** ** initReq and initRes *)

Record initMessage := mkInitMessage {
  im_id : Z;
  Version : Z;
  initParams : gmap bytes bytes
}.

Definition InitParamHostPort : bytes := str "host_port".
Definition InitParamProcessName : bytes := str "process_name".
Definition InitParamTChannelLanguage : bytes := str "tchannel_language".
Definition InitParamTChannelLanguageVersion : bytes := str "tchannel_language_version".
Definition InitParamTChannelVersion : bytes := str "tchannel_version".

(** The loop of initMessage.read, with [n] iterations left. *)
Fixpoint read_params (n : nat) (params : gmap bytes bytes) : ST ReadBuffer (gmap bytes bytes) :=
  match n with
  | O => mret params
  | S n =>
      k ← ReadLen16String;
      v ← ReadLen16String;
      read_params n (<[k:=v]> params)
  end.

Definition initMessage_read (m : initMessage) : ST ReadBuffer (initMessage * option error) :=
  ver ← ReadUint16;
  np ← ReadUint16;
  params ← read_params (Z.to_nat np) ∅;
  err ← r_Err;
  mret (mkInitMessage (im_id m) ver params, err).

Fixpoint write_params (l : list (bytes * bytes)) : ST WriteBuffer unit :=
  match l with
  | [] => mret tt
  | (k, v) :: l =>
      _ ← WriteLen16String k;
      _ ← WriteLen16String v;
      write_params l
  end.

Definition initMessage_write `{MapRange} (m : initMessage) : ST WriteBuffer (option error) :=
  _ ← WriteUint16 (Version m);
  _ ← WriteUint16 (uint16 (Z.of_nat (size (initParams m))));
  _ ← write_params (range (initParams m));
  w_Err.

Record initReq := mkInitReq { initReq_msg : initMessage }.
Record initRes := mkInitRes { initRes_msg : initMessage }.

#[export] Instance initReq_message `{MapRange} : Message initReq := {|
  msg_ID m := im_id (initReq_msg m);
  msg_type _ := messageTypeInitReq;
  msg_read m := '(x, err) ← initMessage_read (initReq_msg m); mret (mkInitReq x, err);
  msg_write m := initMessage_write (initReq_msg m)
|}.

#[export] Instance initRes_message `{MapRange} : Message initRes := {|
  msg_ID m := im_id (initRes_msg m);
  msg_type _ := messageTypeInitRes;
  msg_read m := '(x, err) ← initMessage_read (initRes_msg m); mret (mkInitRes x, err);
  msg_write m := initMessage_write (initRes_msg m)
|}.

(** ** Transport headers *)

Definition ArgScheme : bytes := str "as".
Definition CallerName : bytes := str "cn".
Definition ClaimAtFinish : bytes := str "caf".
Definition ClaimAtStart : bytes := str "cas".
Definition FailureDomain : bytes := str "fd".
Definition ShardKey : bytes := str "sk".
Definition RetryFlags : bytes := str "re".
Definition SpeculativeExecution : bytes := str "se".
Definition RoutingDelegate : bytes := str "rd".
Definition RoutingKey : bytes := str "rk".

Fixpoint read_headers (n : nat) (ch : gmap bytes bytes) : ST ReadBuffer (gmap bytes bytes) :=
  match n with
  | O => mret ch
  | S n =>
      k ← ReadLen8String;
      v ← ReadLen8String;
      read_headers n (<[k:=v]> ch)
  end.

Definition transportHeaders_read (ch : gmap bytes bytes) : ST ReadBuffer (gmap bytes bytes) :=
  nh ← ReadSingleByte;
  read_headers (Z.to_nat (Z_of_byte nh)) ch.

Fixpoint write_headers (l : list (bytes * bytes)) : ST WriteBuffer unit :=
  match l with
  | [] => mret tt
  | (k, v) :: l =>
      _ ← WriteLen8String k;
      _ ← WriteLen8String v;
      write_headers l
  end.

Definition transportHeaders_write `{MapRange} (ch : gmap bytes bytes) : ST WriteBuffer unit :=
  _ ← WriteSingleByte (byte_of_Z (Z.of_nat (size ch)));
  write_headers (range ch).

(** ** Calls *)

Record callReq := mkCallReq {
  cr_id : Z;
  TimeToLive : Z;
  cr_Tracing : Span;
  cr_Headers : gmap bytes bytes;
  Service : bytes
}.

Definition callReq_read (m : callReq) : ST ReadBuffer (callReq * option error) :=
  ttl ← ReadUint32;
  tr ← Span_read (cr_Tracing m);
  svc ← ReadLen8String;
  hs ← transportHeaders_read ∅;
  err ← r_Err;
  mret (mkCallReq (cr_id m) (ttl * millisecond) tr hs svc, err).

(** The division of a Duration truncates toward zero. *)
Definition callReq_write `{MapRange} (m : callReq) : ST WriteBuffer (option error) :=
  _ ← WriteUint32 (uint32 (Z.quot (TimeToLive m) millisecond));
  _ ← Span_write (cr_Tracing m);
  _ ← WriteLen8String (Service m);
  _ ← transportHeaders_write (cr_Headers m);
  w_Err.

#[export] Instance callReq_message `{MapRange} : Message callReq := {|
  msg_ID := cr_id;
  msg_type _ := messageTypeCallReq;
  msg_read := callReq_read;
  msg_write := callReq_write
|}.

Record callRes := mkCallRes {
  cs_id : Z;
  ResponseCode : byte;
  cs_Tracing : Span;
  cs_Headers : gmap bytes bytes
}.

Definition responseOK : byte := x00.
Definition responseApplicationError : byte := x01.

Definition callRes_read (m : callRes) : ST ReadBuffer (callRes * option error) :=
  code ← ReadSingleByte;
  tr ← Span_read (cs_Tracing m);
  hs ← transportHeaders_read ∅;
  err ← r_Err;
  mret (mkCallRes (cs_id m) code tr hs, err).

Definition callRes_write `{MapRange} (m : callRes) : ST WriteBuffer (option error) :=
  _ ← WriteSingleByte (ResponseCode m);
  _ ← Span_write (cs_Tracing m);
  _ ← transportHeaders_write (cs_Headers m);
  w_Err.

#[export] Instance callRes_message `{MapRange} : Message callRes := {|
  msg_ID := cs_id;
  msg_type _ := messageTypeCallRes;
  msg_read := callRes_read;
  msg_write := callRes_write
|}.

(** ** Messages without a body (noBodyMsg) *)

Definition noBody_read {M} (m : M) : ST ReadBuffer (M * option error) := mret (m, None).
Definition noBody_write : ST WriteBuffer (option error) := mret None.

Record callReqContinue := mkCallReqContinue { crc_id : Z }.
Record callResContinue := mkCallResContinue { csc_id : Z }.
Record pingReq := mkPingReq { pq_id : Z }.
Record pingRes := mkPingRes { ps_id : Z }.

#[export] Instance callReqContinue_message : Message callReqContinue := {|
  msg_ID := crc_id; msg_type _ := messageTypeCallReqContinue;
  msg_read := noBody_read; msg_write _ := noBody_write |}.
#[export] Instance callResContinue_message : Message callResContinue := {|
  msg_ID := csc_id; msg_type _ := messageTypeCallResContinue;
  msg_read := noBody_read; msg_write _ := noBody_write |}.
#[export] Instance pingReq_message : Message pingReq := {|
  msg_ID := pq_id; msg_type _ := messageTypePingReq;
  msg_read := noBody_read; msg_write _ := noBody_write |}.
#[export] Instance pingRes_message : Message pingRes := {|
  msg_ID := ps_id; msg_type _ := messageTypePingRes;
  msg_read := noBody_read; msg_write _ := noBody_write |}.

(** ** errorMessage *)

Definition errorMessage_read (m : errorMessage) : ST ReadBuffer (errorMessage * option error) :=
  code ← ReadSingleByte;
  tr ← Span_read (em_tracing m);
  msg ← ReadLen16String;
  err ← r_Err;
  mret (mkErrorMessage (em_id m) code tr msg, err).

Definition errorMessage_write (m : errorMessage) : ST WriteBuffer (option error) :=
  _ ← WriteSingleByte (errCode m);
  _ ← Span_write (em_tracing m);
  _ ← WriteLen16String (em_message m);
  w_Err.

#[export] Instance errorMessage_message : Message errorMessage := {|
  msg_ID := em_id;
  msg_type _ := messageTypeError;
  msg_read := errorMessage_read;
  msg_write := errorMessage_write
|}.

(** ** callReqSpan: the span of a callReq frame, read in place *)

Definition _spanIndex : nat := 5.
Definition _spanLength : nat := 25.

Definition callReqSpan (f : Frame) : go Span :=
  sl ← slice_to 30 (Payload f);
  Ret (Span_read emptySpan (NewReadBuffer (drop _spanIndex sl))).1.

(** ** Encodings *)

(** Keys and values fit their length prefix of [w] bytes. *)
Definition pairs_ok (bound : Z) (l : list (bytes * bytes)) : Prop :=
  Forall (λ p, len p.1 < bound ∧ len p.2 < bound) l.

Definition pair16_enc (p : bytes * bytes) : bytes :=
  (be_enc 2 (len p.1) ++ p.1) ++ (be_enc 2 (len p.2) ++ p.2).
Definition pair8_enc (p : bytes * bytes) : bytes :=
  (byte_of_Z (len p.1) :: p.1) ++ (byte_of_Z (len p.2) :: p.2).

Definition pairs_enc (e : bytes * bytes → bytes) (l : list (bytes * bytes)) : bytes :=
  concat (e <$> l).

Definition insert_pairs (acc : gmap bytes bytes) (l : list (bytes * bytes)) : gmap bytes bytes :=
  foldl (λ m p, <[p.1:=p.2]> m) acc l.

(** Inserting the pairs of a map in any order gives the map back. *)
Lemma insert_pairs_union acc l : insert_pairs acc l = list_to_map (reverse l) ∪ acc.
Proof.
  revert acc. induction l as [|[k v] l IH]; intros acc.
  { cbn. by rewrite map_empty_union. }
  cbn [insert_pairs foldl fst snd]. fold (insert_pairs (<[k:=v]> acc) l). rewrite IH.
  rewrite reverse_cons, list_to_map_app, <- map_union_assoc. f_equal.
  cbn [list_to_map foldr fst snd]. by rewrite insert_empty, insert_union_singleton_l.
Qed.

Lemma insert_pairs_perm (l : list (bytes * bytes)) (m : gmap bytes bytes) : l ≡ₚ map_to_list m → insert_pairs ∅ l = m.
Proof.
  intros Hl. rewrite insert_pairs_union, map_union_empty.
  rewrite <- (list_to_map_to_list m). apply list_to_map_proper.
  - rewrite reverse_Permutation, Hl. apply NoDup_fst_map_to_list.
  - by rewrite reverse_Permutation.
Qed.

Lemma write_params_writes l :
  pairs_ok 65536 l → writes (write_params l) (pairs_enc pair16_enc l).
Proof.
  induction 1 as [|[k v] l [Hk Hv] Hl IH]; [apply writes_ret|].
  cbn [write_params]. unfold pairs_enc. cbn [fmap list_fmap concat].
  unfold pair16_enc at 1. cbn [fst snd] in *. rewrite <- app_assoc. writes_tac.
Qed.

Lemma write_headers_writes l :
  pairs_ok 256 l → writes (write_headers l) (pairs_enc pair8_enc l).
Proof.
  induction 1 as [|[k v] l [Hk Hv] Hl IH]; [apply writes_ret|].
  cbn [write_headers]. unfold pairs_enc. cbn [fmap list_fmap concat].
  unfold pair8_enc at 1. cbn [fst snd] in *. rewrite <- app_assoc. writes_tac.
Qed.

Lemma read_params_reads l acc :
  pairs_ok 65536 l →
  reads (read_params (length l) acc) (pairs_enc pair16_enc l) (insert_pairs acc l).
Proof.
  intros Hl. revert acc. induction Hl as [|[k v] l [Hk Hv] Hl IH]; intros acc; [apply reads_ret|].
  cbn [length read_params]. unfold pairs_enc. cbn [fmap list_fmap concat].
  unfold pair16_enc at 1. cbn [fst snd] in *. rewrite <- app_assoc.
  eapply reads_bind; [by apply ReadLen16String_reads|].
  eapply reads_bind; [by apply ReadLen16String_reads|]. apply IH.
Qed.

Lemma read_headers_reads l acc :
  pairs_ok 256 l →
  reads (read_headers (length l) acc) (pairs_enc pair8_enc l) (insert_pairs acc l).
Proof.
  intros Hl. revert acc. induction Hl as [|[k v] l [Hk Hv] Hl IH]; intros acc; [apply reads_ret|].
  cbn [length read_headers]. unfold pairs_enc. cbn [fmap list_fmap concat].
  unfold pair8_enc at 1. cbn [fst snd] in *. rewrite <- app_assoc.
  eapply reads_bind; [by apply ReadLen8String_reads|].
  eapply reads_bind; [by apply ReadLen8String_reads|]. apply IH.
Qed.

Definition map_ok (bound : Z) (m : gmap bytes bytes) : Prop :=
  Z.of_nat (size m) < bound ∧ map_Forall (λ k v, len k < bound ∧ len v < bound) m.

(** The body of a write method that ends with [return w.Err()]. *)
Ltac body_then_err :=
  let w := fresh "w" in
  intros w ?; unfold mbind, st_bind;
  by repeat match goal with |- context [let '(_, _) := ?m ?w in _] => destruct (m w) end.

Section map_range.
Context `{MapRange}.

Lemma length_range m : length (range m) = size m.
Proof. by rewrite (Permutation_length (range_perm m)), length_map_to_list. Qed.

Lemma range_pairs_ok bound m : map_ok bound m → pairs_ok bound (range m).
Proof.
  intros [_ Hm]. unfold pairs_ok. rewrite (range_perm m).
  apply Forall_forall. intros [k v] Hin%elem_of_map_to_list. by apply Hm.
Qed.

Definition headers_enc (ch : gmap bytes bytes) : bytes :=
  byte_of_Z (Z.of_nat (size ch)) :: pairs_enc pair8_enc (range ch).

Definition params_enc (m : gmap bytes bytes) : bytes :=
  be_enc 2 (Z.of_nat (size m)) ++ pairs_enc pair16_enc (range m).

Lemma transportHeaders_write_writes ch :
  map_ok 256 ch → writes (transportHeaders_write ch) (headers_enc ch).
Proof.
  intros Hok. unfold transportHeaders_write, headers_enc.
  change (?b :: ?l) with ([b] ++ l). apply writes_bind; [writes_tac|].
  by apply write_headers_writes, range_pairs_ok.
Qed.

Lemma transportHeaders_read_reads ch :
  map_ok 256 ch → reads (transportHeaders_read ∅) (headers_enc ch) ch.
Proof.
  intros Hok. unfold transportHeaders_read, headers_enc.
  change (?b :: ?l) with ([b] ++ l). eapply reads_bind; [apply ReadSingleByte_reads|].
  destruct (Hok) as [Hs _]. rewrite Z_of_byte_of_Z, Z.mod_small by lia.
  rewrite Nat2Z.id, <- length_range.
  rewrite <- (insert_pairs_perm (range ch) ch) at 3 by apply range_perm.
  by apply read_headers_reads, range_pairs_ok.
Qed.

Definition span_ok (s : Span) : Prop :=
  0 <= traceID s < 2^64 ∧ 0 <= parentID s < 2^64 ∧ 0 <= spanID s < 2^64.

Definition span_enc (s : Span) : bytes :=
  be_enc 8 (spanID s) ++ be_enc 8 (parentID s) ++ be_enc 8 (traceID s) ++ [flags s].

Lemma Span_write_writes s : writes (Span_write s) (span_enc s).
Proof. unfold Span_write, span_enc. writes_tac. Qed.

Lemma Span_read_reads s0 s : span_ok s → reads (Span_read s0) (span_enc s) s.
Proof.
  intros (Ht & Hp & Hs). unfold Span_read, span_enc.
  eapply reads_bind; [by apply ReadUint64_reads|].
  eapply reads_bind; [by apply ReadUint64_reads|].
  eapply reads_bind; [by apply ReadUint64_reads|].
  destruct s as [t p sp fl]. apply (reads_fmap ReadSingleByte (mkSpan t p sp)).
  apply ReadSingleByte_reads.
Qed.

Lemma length_span_enc s : length (span_enc s) = _spanLength.
Proof. unfold span_enc. rewrite !length_app, !length_be_enc. done. Qed.

(** *** Each message *)

Definition initMessage_ok (m : initMessage) : Prop :=
  0 <= Version m < 2^16 ∧ map_ok 65536 (initParams m).
Definition initMessage_enc (m : initMessage) : bytes :=
  be_enc 2 (Version m) ++ params_enc (initParams m).

Lemma initMessage_write_spec m : initMessage_ok m →
  ∃ body, writes body (initMessage_enc m)
    ∧ ∀ w, w_err w = None → initMessage_write m w = (body ≫= λ _, w_Err) w.
Proof.
  intros [Hv Hp]. exists (_ ← WriteUint16 (Version m);
    _ ← WriteUint16 (uint16 (Z.of_nat (size (initParams m)))); write_params (range (initParams m))).
  split.
  - unfold initMessage_enc, params_enc. rewrite uint16_small by (destruct Hp; lia).
    writes_tac. by apply write_params_writes, range_pairs_ok.
  - unfold initMessage_write. body_then_err.
Qed.

Lemma initMessage_read_spec m0 m : initMessage_ok m →
  reads (initMessage_read m0) (initMessage_enc m)
    (mkInitMessage (im_id m0) (Version m) (initParams m), None).
Proof.
  intros [Hv Hp]. unfold initMessage_read, initMessage_enc, params_enc.
  eapply reads_bind; [by apply ReadUint16_reads|].
  eapply reads_bind; [apply ReadUint16_reads; destruct Hp; lia|].
  rewrite Nat2Z.id, <- length_range.
  apply (reads_Err (read_params _ ∅) (mkInitMessage (im_id m0) (Version m))).
  rewrite <- (insert_pairs_perm (range (initParams m)) (initParams m)) at 3 by apply range_perm.
  by apply read_params_reads, range_pairs_ok.
Qed.

#[export] Instance initReq_wire : WireMessage initReq.
Proof.
  refine {| msg_ok m := initMessage_ok (initReq_msg m);
            msg_enc m := initMessage_enc (initReq_msg m);
            msg_norm m0 m := mkInitReq (mkInitMessage (im_id (initReq_msg m0))
              (Version (initReq_msg m)) (initParams (initReq_msg m))) |}.
  - intros m Hm. by apply initMessage_write_spec.
  - intros m0 m Hm n rest. simpl.
    erewrite st_bind_run by (by apply initMessage_read_spec). done.
Defined.

#[export] Instance initRes_wire : WireMessage initRes.
Proof.
  refine {| msg_ok m := initMessage_ok (initRes_msg m);
            msg_enc m := initMessage_enc (initRes_msg m);
            msg_norm m0 m := mkInitRes (mkInitMessage (im_id (initRes_msg m0))
              (Version (initRes_msg m)) (initParams (initRes_msg m))) |}.
  - intros m Hm. by apply initMessage_write_spec.
  - intros m0 m Hm n rest. simpl.
    erewrite st_bind_run by (by apply initMessage_read_spec). done.
Defined.

(** The time to live travels in whole milliseconds. *)
Definition callReq_ok (m : callReq) : Prop :=
  0 <= Z.quot (TimeToLive m) millisecond < 2^32 ∧ span_ok (cr_Tracing m)
  ∧ len (Service m) < 256 ∧ map_ok 256 (cr_Headers m).
Definition callReq_enc (m : callReq) : bytes :=
  be_enc 4 (Z.quot (TimeToLive m) millisecond) ++ span_enc (cr_Tracing m)
  ++ (byte_of_Z (len (Service m)) :: Service m) ++ headers_enc (cr_Headers m).
Definition callReq_norm (m0 m : callReq) : callReq :=
  mkCallReq (cr_id m0) (Z.quot (TimeToLive m) millisecond * millisecond)
    (cr_Tracing m) (cr_Headers m) (Service m).

#[export] Instance callReq_wire : WireMessage callReq.
Proof.
  refine {| msg_ok := callReq_ok; msg_enc := callReq_enc; msg_norm := callReq_norm |}.
  - intros m (Ht & Hs & Hv & Hh).
    exists (_ ← WriteUint32 (uint32 (Z.quot (TimeToLive m) millisecond));
      _ ← Span_write (cr_Tracing m); _ ← WriteLen8String (Service m);
      transportHeaders_write (cr_Headers m)). split.
    + rewrite uint32_small by done. unfold callReq_enc. apply writes_bind; [writes_tac|].
      apply writes_bind; [apply Span_write_writes|]. apply writes_bind; [writes_tac|].
      by apply transportHeaders_write_writes.
    + cbn [msg_write callReq_message]. unfold callReq_write. body_then_err.
  - intros m0 m (Ht & Hs & Hv & Hh). cbn [msg_read callReq_message].
    unfold callReq_read, callReq_enc.
    eapply reads_bind; [by apply ReadUint32_reads|].
    eapply reads_bind; [by apply Span_read_reads|].
    eapply reads_bind; [by apply ReadLen8String_reads|].
    apply (reads_Err (transportHeaders_read ∅) (λ hs, mkCallReq (cr_id m0)
      (Z.quot (TimeToLive m) millisecond * millisecond) (cr_Tracing m) hs (Service m))).
    by apply transportHeaders_read_reads.
Defined.

Definition callRes_ok (m : callRes) : Prop :=
  span_ok (cs_Tracing m) ∧ map_ok 256 (cs_Headers m).
Definition callRes_enc (m : callRes) : bytes :=
  [ResponseCode m] ++ span_enc (cs_Tracing m) ++ headers_enc (cs_Headers m).

#[export] Instance callRes_wire : WireMessage callRes.
Proof.
  refine {| msg_ok := callRes_ok; msg_enc := callRes_enc;
    msg_norm m0 m := mkCallRes (cs_id m0) (ResponseCode m) (cs_Tracing m) (cs_Headers m) |}.
  - intros m (Hs & Hh).
    exists (_ ← WriteSingleByte (ResponseCode m); _ ← Span_write (cs_Tracing m);
      transportHeaders_write (cs_Headers m)). split.
    + unfold callRes_enc. apply writes_bind; [writes_tac|].
      apply writes_bind; [apply Span_write_writes|]. by apply transportHeaders_write_writes.
    + cbn [msg_write callRes_message]. unfold callRes_write. body_then_err.
  - intros m0 m (Hs & Hh). cbn [msg_read callRes_message]. unfold callRes_read, callRes_enc.
    eapply reads_bind; [apply ReadSingleByte_reads|].
    eapply reads_bind; [by apply Span_read_reads|].
    apply (reads_Err (transportHeaders_read ∅) (mkCallRes (cs_id m0) (ResponseCode m) (cs_Tracing m))).
    by apply transportHeaders_read_reads.
Defined.
End map_range.

Definition errorMessage_ok (m : errorMessage) : Prop :=
  span_ok (em_tracing m) ∧ len (em_message m) < 65536.
Definition errorMessage_enc (m : errorMessage) : bytes :=
  [errCode m] ++ span_enc (em_tracing m) ++ (be_enc 2 (len (em_message m)) ++ em_message m).

#[export] Instance errorMessage_wire : WireMessage errorMessage.
Proof.
  refine {| msg_ok := errorMessage_ok; msg_enc := errorMessage_enc;
    msg_norm m0 m := mkErrorMessage (em_id m0) (errCode m) (em_tracing m) (em_message m) |}.
  - intros m (Hs & Hm).
    exists (_ ← WriteSingleByte (errCode m); _ ← Span_write (em_tracing m);
      WriteLen16String (em_message m)). split.
    + unfold errorMessage_enc. apply writes_bind; [writes_tac|].
      apply writes_bind; [apply Span_write_writes|]. writes_tac.
    + cbn [msg_write errorMessage_message]. unfold errorMessage_write. body_then_err.
  - intros m0 m (Hs & Hm). cbn [msg_read errorMessage_message].
    unfold errorMessage_read, errorMessage_enc.
    eapply reads_bind; [apply ReadSingleByte_reads|].
    eapply reads_bind; [by apply Span_read_reads|].
    apply (reads_Err ReadLen16String (mkErrorMessage (em_id m0) (errCode m) (em_tracing m))).
    by apply ReadLen16String_reads.
Defined.

(** A string that its length field cannot hold. *)
Lemma WriteLen16String_too_long str w :
  65536 <= len str → ∃ w', WriteLen16String str w = (tt, w') ∧ is_Some (w_err w').
Proof.
  intros Hl. unfold WriteLen16String. rewrite decide_False.
  2: { intros E. pose proof (Z.mod_pos_bound (len str) (2^16)) as Hb. unfold uint16 in E. lia. }
  set (w1 := setErr errStringTooLong w). assert (He : is_Some (w_err w1)) by apply setErr_sink.
  rewrite (proj1 (WriteUint16_writes _) w1 He), (proj1 (WriteString_writes _) w1 He). by exists w1.
Qed.

(** Messages without a body are encoded as nothing, and reading leaves the
    receiver as it is. *)
Lemma noBody_write_spec : ∃ body, writes body [] ∧
  ∀ w, w_err w = None → noBody_write w = (body ≫= λ _, w_Err) w.
Proof.
  exists (mret tt). split; [apply writes_ret|]. intros [b o e] He. simpl in He. by subst.
Qed.

Definition noBody_wire {M} `{Message M}
    (Hr : ∀ m : M, msg_read m = noBody_read m) (Hw : ∀ m : M, msg_write m = noBody_write)
    : WireMessage M.
Proof.
  refine {| msg_ok _ := True; msg_enc _ := []; msg_norm m0 _ := m0 |}.
  - intros m _. rewrite Hw. apply noBody_write_spec.
  - intros m0 m _. rewrite Hr. apply reads_ret.
Defined.

#[export] Instance callReqContinue_wire : WireMessage callReqContinue :=
  @noBody_wire callReqContinue _ (λ _, eq_refl) (λ _, eq_refl).
#[export] Instance callResContinue_wire : WireMessage callResContinue :=
  @noBody_wire callResContinue _ (λ _, eq_refl) (λ _, eq_refl).
#[export] Instance pingReq_wire : WireMessage pingReq :=
  @noBody_wire pingReq _ (λ _, eq_refl) (λ _, eq_refl).
#[export] Instance pingRes_wire : WireMessage pingRes :=
  @noBody_wire pingRes _ (λ _, eq_refl) (λ _, eq_refl).

