(* ===== verification/Fragment.v ===== *)
(** * Fragmentation of arguments (fragmenting_writer.go, fragmenting_reader.go)

    A message carries a sequence of arguments, split into fragments that fit a
    frame; a fragment is a sequence of chunks and a chunk belongs to one
    argument.  [fragmentingWriter] and [fragmentingReader] are modelled with every
    method, over the interfaces [fragmentSender] and [fragmentReceiver] of the
    source.

    Aliasing.  A fragment and its chunks share one WriteBuffer, and the writer,
    its fragments and its chunks share one Checksum: the buffer is kept in the
    fragment and the checksum in the writer.  A chunk whose fragment has been
    replaced ([ck_contents = Some]) keeps its own buffer.

    The main theorem is that any sequence of writes, flushes and closes produces
    fragments from which the reader delivers the same arguments. *)

From S2P Require Import Prelude Errors Buffer Checksum Frame.

Definition chunkHeaderSize : nat := 2.
Definition hasMoreFragmentsFlag : byte := x01.

(** ** Writer *)

(** [noRelease] says that the fragment holds the writer's checksum wrapped in a
    noReleaseChecksum. *)
Record writableFragment := mkWritableFragment {
  flagsRef : ByteRef;
  checksumRef : BytesRef;
  noRelease : bool;
  f_contents : WriteBuffer;
  f_frame : Frame
}.

(** [f.checksum], when the writer's checksum is [c]. *)
Definition f_checksum (f : writableFragment) (c : Checksum) : Checksum :=
  if noRelease f then noReleaseChecksum c else c.

Definition set_contents (b : WriteBuffer) (f : writableFragment) : writableFragment :=
  mkWritableFragment (flagsRef f) (checksumRef f) (noRelease f) b (f_frame f).

(** writableFragment.finish; [ps] are the checksum pools Release returns to. *)
Definition fragment_finish (hasMoreFragments : bool) (checksum : Checksum)
    (ps : checksumPools) (f : writableFragment) : writableFragment * checksumPools :=
  let checksum := f_checksum f checksum in
  let b := BytesRef_Update (checksumRef f) (Sum checksum) (f_contents f) in
  if hasMoreFragments
  then (set_contents (ByteRef_Update (flagsRef f) hasMoreFragmentsFlag b) f, ps)
  else (set_contents b f, Release checksum ps).

Record writableChunk := mkWritableChunk {
  ck_size : Z;
  ck_sizeRef : Uint16Ref;
  ck_contents : option WriteBuffer
}.

Definition newWritableChunk : ST WriteBuffer writableChunk :=
  ref ← DeferUint16; mret (mkWritableChunk 0 ref None).

(** The chunk's new size, the checksum and the buffer after writing what fits of
    [b], with the number of bytes written. *)
Definition writeAsFits (b : bytes) (c : writableChunk) (checksum : Checksum) (buf : WriteBuffer)
    : nat * writableChunk * Checksum * WriteBuffer :=
  let b := if decide (w_BytesRemaining buf < length b)%nat
           then take (w_BytesRemaining buf) b else b in
  (length b,
   mkWritableChunk (uint16 (ck_size c + uint16 (len b))) (ck_sizeRef c) (ck_contents c),
   (Add b checksum).2,
   (WriteBytes b buf).2).

Definition chunk_finish (c : writableChunk) (buf : WriteBuffer) : WriteBuffer :=
  Uint16Ref_Update (ck_sizeRef c) (ck_size c) buf.

(** newFragment may add data to the checksum it is given, which it returns. *)
Class fragmentSender (S : Type) := {
  newFragment : bool → Checksum → GO S (option writableFragment * option error * Checksum);
  flushFragment : writableFragment → GO S (option error);
  doneSending : ST S unit
}.

Inductive fragmentingWriterState :=
| fragmentingWriteStart
| fragmentingWriteInArgument
| fragmentingWriteInLastArgument
| fragmentingWriteWaitingForArgument
| fragmentingWriteComplete.

#[export] Instance fragmentingWriterState_eq_dec : EqDecision fragmentingWriterState.
Proof. solve_decision. Defined.

Definition isWritingArgument (s : fragmentingWriterState) : bool :=
  bool_decide (s = fragmentingWriteInArgument) || bool_decide (s = fragmentingWriteInLastArgument).

Record fragmentingWriter (S : Type) := mkFragmentingWriter {
  fw_sender : S;
  fw_pools : checksumPools;
  fw_checksum : Checksum;
  fw_curFragment : option writableFragment;
  fw_curChunk : option writableChunk;
  fw_state : fragmentingWriterState;
  fw_err : option error
}.
Arguments mkFragmentingWriter {S}.
Arguments fw_sender {S}. Arguments fw_pools {S}. Arguments fw_checksum {S}.
Arguments fw_curFragment {S}. Arguments fw_curChunk {S}. Arguments fw_state {S}.
Arguments fw_err {S}.

Section writer.
Context {S : Type} `{fragmentSender S}.
Implicit Types w : fragmentingWriter S.

Definition newFragmentingWriter (sender : S) (ps : checksumPools) (checksum : Checksum)
    : fragmentingWriter S :=
  mkFragmentingWriter sender ps checksum None None fragmentingWriteStart None.

Definition fw_set_sender (s : S) w : fragmentingWriter S :=
  mkFragmentingWriter s (fw_pools w) (fw_checksum w) (fw_curFragment w) (fw_curChunk w)
    (fw_state w) (fw_err w).
Definition fw_set_err (e : option error) w : fragmentingWriter S :=
  mkFragmentingWriter (fw_sender w) (fw_pools w) (fw_checksum w) (fw_curFragment w) (fw_curChunk w)
    (fw_state w) e.
Definition fw_set_state (st : fragmentingWriterState) w : fragmentingWriter S :=
  mkFragmentingWriter (fw_sender w) (fw_pools w) (fw_checksum w) (fw_curFragment w) (fw_curChunk w)
    st (fw_err w).
Definition fw_set_cur (f : option writableFragment) (c : option writableChunk) w
    : fragmentingWriter S :=
  mkFragmentingWriter (fw_sender w) (fw_pools w) (fw_checksum w) f c (fw_state w) (fw_err w).
Definition fw_set_checksum (ps : checksumPools) (c : Checksum) w : fragmentingWriter S :=
  mkFragmentingWriter (fw_sender w) ps c (fw_curFragment w) (fw_curChunk w) (fw_state w) (fw_err w).

(** [w.err = e; return w.err] *)
Definition fw_fail (e : error) : GO (fragmentingWriter S) (option error) :=
  _ ← gmodify (fw_set_err (Some e)); mret (Some e).

(** [w.curFragment, w.err = w.sender.newFragment(initial, w.checksum)]: the chunk
    in progress, if any, is left with the buffer of the fragment it was in. *)
Definition detach (f : option writableFragment) (c : writableChunk) : writableChunk :=
  match ck_contents c, f with
  | None, Some f => mkWritableChunk (ck_size c) (ck_sizeRef c) (Some (f_contents f))
  | _, _ => c
  end.

Definition requestFragment (initial : bool) : GO (fragmentingWriter S) (option error) := λ w,
  match newFragment initial (fw_checksum w) (fw_sender w) with
  | Ret ((f, err, cs), s) =>
      Ret (err, fw_set_err err
        (fw_set_checksum (fw_pools w) cs
          (fw_set_cur f (detach (fw_curFragment w) <$> fw_curChunk w) (fw_set_sender s w))))
  | Panic => Panic
  | OutOfFuel => OutOfFuel
  end.

(** [w.curChunk = newWritableChunk(w.checksum, w.curFragment.contents)] *)
Definition beginChunk : GO (fragmentingWriter S) unit := λ w,
  match fw_curFragment w with
  | None => Panic
  | Some f =>
      let '(c, b) := newWritableChunk (f_contents f) in
      Ret (tt, fw_set_cur (Some (set_contents b f)) (Some c) w)
  end.

(** [w.curChunk.finish()] *)
Definition finishChunk : GO (fragmentingWriter S) unit := λ w,
  match fw_curChunk w with
  | None => Panic
  | Some c =>
      match ck_contents c, fw_curFragment w with
      | Some b, _ =>
          Ret (tt, fw_set_cur (fw_curFragment w)
                 (Some (mkWritableChunk (ck_size c) (ck_sizeRef c) (Some (chunk_finish c b)))) w)
      | None, Some f =>
          Ret (tt, fw_set_cur (Some (set_contents (chunk_finish c (f_contents f)) f)) (Some c) w)
      | None, None => Ret (tt, w)
      end
  end.

(** [w.curFragment.finish(more)] followed by
    [w.err = w.sender.flushFragment(w.curFragment)] *)
Definition finishAndFlush (more : bool) : GO (fragmentingWriter S) (option error) := λ w,
  match fw_curFragment w with
  | None => Panic
  | Some f =>
      let '(f, ps) := fragment_finish more (fw_checksum w) (fw_pools w) f in
      match flushFragment f (fw_sender w) with
      | Ret (err, s) =>
          Ret (err, fw_set_err err
            (fw_set_checksum ps (fw_checksum w)
              (fw_set_cur (Some f) (fw_curChunk w) (fw_set_sender s w))))
      | Panic => Panic
      | OutOfFuel => OutOfFuel
      end
  end.

(** The first branch of BeginArgument: request a fragment if there is none. *)
Definition ensureFragment : GO (fragmentingWriter S) (option error) :=
  w ← gget;
  match fw_curFragment w with
  | None => requestFragment (bool_decide (fw_state w = fragmentingWriteStart))
  | Some _ => mret None
  end.

Definition writer_BeginArgument (last : bool) : GO (fragmentingWriter S) (option error) :=
  w ← gget;
  match fw_err w with
  | Some e => mret (Some e)
  | None =>
      if bool_decide (fw_state w = fragmentingWriteComplete) then fw_fail errComplete
      else if isWritingArgument (fw_state w) then fw_fail errAlreadyWritingArgument
      else
        err ← ensureFragment;
        match err with
        | Some e => mret (Some e)
        | None =>
            w ← gget;
            match fw_curFragment w with
            | None => gpanic
            | Some f =>
                if decide (w_BytesRemaining (f_contents f) <= chunkHeaderSize)%nat then gpanic
                else
                  _ ← beginChunk;
                  _ ← gmodify (fw_set_state (if last then fragmentingWriteInLastArgument
                                             else fragmentingWriteInArgument));
                  mret None
            end
        end
  end.

Definition writer_Flush : GO (fragmentingWriter S) (option error) :=
  _ ← finishChunk;
  err ← finishAndFlush true;
  match err with
  | Some e => mret (Some e)
  | None =>
      err ← requestFragment false;
      match err with
      | Some e => mret (Some e)
      | None => _ ← beginChunk; mret None
      end
  end.

(** [w.curChunk.writeAsFits(b)] *)
Definition chunkWrite (b : bytes) : GO (fragmentingWriter S) nat := λ w,
  match fw_curChunk w with
  | None => Panic
  | Some c =>
      match ck_contents c, fw_curFragment w with
      | Some buf, f =>
          let '(n, c, cs, buf) := writeAsFits b c (fw_checksum w) buf in
          Ret (n, fw_set_cur f (Some (mkWritableChunk (ck_size c) (ck_sizeRef c) (Some buf)))
                    (fw_set_checksum (fw_pools w) cs w))
      | None, Some f =>
          let '(n, c, cs, buf) := writeAsFits b c (fw_checksum w) (f_contents f) in
          Ret (n, fw_set_cur (Some (set_contents buf f)) (Some c)
                    (fw_set_checksum (fw_pools w) cs w))
      | None, None => Panic
      end
  end.

(** The loop of Write, with at most [fuel] iterations. *)
Fixpoint write_loop (fuel : nat) (totalWritten : nat) (b : bytes)
    : GO (fragmentingWriter S) (nat * option error) :=
  match fuel with
  | O => λ _, OutOfFuel
  | Datatypes.S fuel =>
      bytesWritten ← chunkWrite b;
      let totalWritten := (totalWritten + bytesWritten)%nat in
      if decide (bytesWritten = length b) then mret (totalWritten, None)
      else
        err ← writer_Flush;
        match err with
        | Some e => _ ← fw_fail e; mret (totalWritten, Some e)
        | None => write_loop fuel totalWritten (drop bytesWritten b)
        end
  end.

(** A sender that hands out fragments with room makes progress in every
    iteration after the first, so [length b + 1] iterations are enough. *)
Definition writer_Write (b : bytes) : GO (fragmentingWriter S) (nat * option error) :=
  w ← gget;
  match fw_err w with
  | Some e => mret (0%nat, Some e)
  | None =>
      if negb (isWritingArgument (fw_state w)) then
        err ← fw_fail errNotWritingArgument; mret (0%nat, err)
      else write_loop (Datatypes.S (length b)) 0 b
  end.

(** The last part of Close: the fragment is full, so flush it and start the next
    one with an empty chunk that ends the argument. *)
Definition closeInNextFragment : GO (fragmentingWriter S) (option error) :=
  err ← finishAndFlush true;
  match err with
  | Some e => mret (Some e)
  | None =>
      err ← requestFragment false;
      match err with
      | Some e => mret (Some e)
      | None =>
          w ← gget;
          match fw_curFragment w with
          | None => gpanic
          | Some f =>
              _ ← gmodify (fw_set_cur (Some (set_contents (WriteUint16 0 (f_contents f)).2 f))
                             (fw_curChunk w));
              mret None
          end
      end
  end.

Definition writer_Close : GO (fragmentingWriter S) (option error) :=
  w ← gget;
  let last := bool_decide (fw_state w = fragmentingWriteInLastArgument) in
  match fw_err w with
  | Some e => mret (Some e)
  | None =>
      if negb (isWritingArgument (fw_state w)) then fw_fail errNotWritingArgument
      else
        _ ← finishChunk;
        if last then
          _ ← gmodify (fw_set_state fragmentingWriteComplete);
          err ← finishAndFlush false;
          _ ← gmodify (λ w, fw_set_sender (doneSending (fw_sender w)).2 w);
          mret err
        else
          _ ← gmodify (fw_set_state fragmentingWriteWaitingForArgument);
          w ← gget;
          match fw_curFragment w with
          | None => gpanic
          | Some f =>
              if decide (chunkHeaderSize < w_BytesRemaining (f_contents f))%nat then mret None
              else closeInNextFragment
          end
  end.

(** ArgWriter hands out the writer itself. *)
Definition writer_ArgWriter (last : bool) : GO (fragmentingWriter S) (option error) :=
  writer_BeginArgument last.
End writer.

(** ** Reader *)

(** [rf_ref] is the identity of the object: the reader and its receiver can hold
    the same fragment, so the isDone flag lives with the receiver's state. *)
Record readableFragment := mkReadableFragment {
  rf_ref : nat;
  rf_flags : byte;
  rf_checksumType : byte;
  rf_checksum : bytes;
  rf_contents : ReadBuffer
}.

Class fragmentReceiver (R : Type) := {
  recvNextFragment : bool → GO R (option readableFragment * option error);
  doneReading : option error → ST R unit;
  isDone : nat → R → bool;
  set_isDone : nat → R → R;
  onDone : nat → R → R
}.

Definition fragment_done {R} `{fragmentReceiver R} (f : readableFragment) (r : R) : R :=
  if isDone (rf_ref f) r then r else set_isDone (rf_ref f) (onDone (rf_ref f) r).

Inductive fragmentingReadState :=
| fragmentingReadStart
| fragmentingReadInArgument
| fragmentingReadInLastArgument
| fragmentingReadWaitingForArgument
| fragmentingReadComplete.

#[export] Instance fragmentingReadState_eq_dec : EqDecision fragmentingReadState.
Proof. solve_decision. Defined.

Definition isReadingArgument (s : fragmentingReadState) : bool :=
  bool_decide (s = fragmentingReadInArgument) || bool_decide (s = fragmentingReadInLastArgument).

(** [fr_choice] is what the checksum pool does on Get. *)
Record fragmentingReader (R : Type) := mkFragmentingReader {
  fr_receiver : R;
  fr_pools : checksumPools;
  fr_choice : option nat;
  fr_state : fragmentingReadState;
  remainingChunks : list bytes;
  fr_curChunk : bytes;
  hasMoreFragments : bool;
  fr_curFragment : option readableFragment;
  fr_checksum : option Checksum;
  fr_err : option error
}.
Arguments mkFragmentingReader {R}.
Arguments fr_receiver {R}. Arguments fr_pools {R}. Arguments fr_choice {R}.
Arguments fr_state {R}. Arguments remainingChunks {R}. Arguments fr_curChunk {R}.
Arguments hasMoreFragments {R}. Arguments fr_curFragment {R}. Arguments fr_checksum {R}.
Arguments fr_err {R}.

Section reader.
Context {R : Type} `{fragmentReceiver R}.
Implicit Types r : fragmentingReader R.

Definition newFragmentingReader (receiver : R) (ps : checksumPools) (choice : option nat)
    : fragmentingReader R :=
  mkFragmentingReader receiver ps choice fragmentingReadStart [] [] true None None None.

Definition fr_set_receiver (x : R) r : fragmentingReader R :=
  mkFragmentingReader x (fr_pools r) (fr_choice r) (fr_state r) (remainingChunks r) (fr_curChunk r)
    (hasMoreFragments r) (fr_curFragment r) (fr_checksum r) (fr_err r).
Definition fr_set_state (st : fragmentingReadState) r : fragmentingReader R :=
  mkFragmentingReader (fr_receiver r) (fr_pools r) (fr_choice r) st (remainingChunks r)
    (fr_curChunk r) (hasMoreFragments r) (fr_curFragment r) (fr_checksum r) (fr_err r).
Definition fr_set_chunks (cur : bytes) (rem : list bytes) r : fragmentingReader R :=
  mkFragmentingReader (fr_receiver r) (fr_pools r) (fr_choice r) (fr_state r) rem
    cur (hasMoreFragments r) (fr_curFragment r) (fr_checksum r) (fr_err r).
Definition fr_set_more (more : bool) r : fragmentingReader R :=
  mkFragmentingReader (fr_receiver r) (fr_pools r) (fr_choice r) (fr_state r) (remainingChunks r)
    (fr_curChunk r) more (fr_curFragment r) (fr_checksum r) (fr_err r).
Definition fr_set_fragment (f : option readableFragment) r : fragmentingReader R :=
  mkFragmentingReader (fr_receiver r) (fr_pools r) (fr_choice r) (fr_state r) (remainingChunks r)
    (fr_curChunk r) (hasMoreFragments r) f (fr_checksum r) (fr_err r).
Definition fr_set_checksum (ps : checksumPools) (c : option Checksum) r : fragmentingReader R :=
  mkFragmentingReader (fr_receiver r) ps (fr_choice r) (fr_state r) (remainingChunks r)
    (fr_curChunk r) (hasMoreFragments r) (fr_curFragment r) c (fr_err r).
Definition fr_set_err (e : option error) r : fragmentingReader R :=
  mkFragmentingReader (fr_receiver r) (fr_pools r) (fr_choice r) (fr_state r) (remainingChunks r)
    (fr_curChunk r) (hasMoreFragments r) (fr_curFragment r) (fr_checksum r) e.

(** A call of a method of the receiver. *)
Definition onReceiver {A} (m : GO R A) : GO (fragmentingReader R) A := λ r,
  match m (fr_receiver r) with
  | Ret (a, x) => Ret (a, fr_set_receiver x r)
  | Panic => Panic
  | OutOfFuel => OutOfFuel
  end.

(** [r.err = e; return r.err] *)
Definition fr_fail (e : error) : GO (fragmentingReader R) (option error) :=
  _ ← gmodify (fr_set_err (Some e)); mret (Some e).

(** [r.curFragment.done()] *)
Definition doneCurrent : GO (fragmentingReader R) unit :=
  r ← gget;
  match fr_curFragment r with
  | None => gpanic
  | Some f => gmodify (λ r, fr_set_receiver (fragment_done f (fr_receiver r)) r)
  end.

Definition reader_doneReading (err : option error) : GO (fragmentingReader R) unit :=
  _ ← gmodify (λ r, match fr_checksum r with
                    | Some c => fr_set_checksum (Release c (fr_pools r)) (fr_checksum r) r
                    | None => r
                    end);
  gmodify (λ r, fr_set_receiver (doneReading err (fr_receiver r)).2 r).

(** The loop that splits a fragment into chunks; [fuel] bounds the iterations. *)
Fixpoint split_chunks (fuel : nat) (rb : ReadBuffer) (chunks : list bytes) (cs : Checksum)
    : go (option error * ReadBuffer * list bytes * Checksum) :=
  if decide (0 < r_BytesRemaining rb)%nat then
    match r_err rb with
    | Some e => Ret (None, rb, chunks, cs)
    | None =>
        match fuel with
        | O => OutOfFuel
        | S fuel =>
            let '(chunkSize, rb) := ReadUint16 rb in
            if decide (uint16 (Z.of_nat (r_BytesRemaining rb)) < chunkSize) then
              Ret (Some (errChunkExceedsFragmentSize : error), rb, chunks, cs)
            else
              let '(chunkData, rb) := ReadBytes (Z.to_nat chunkSize) rb in
              split_chunks fuel rb (chunks ++ [default [] chunkData])
                (Add (default [] chunkData) cs).2
        end
    end
  else Ret (None, rb, chunks, cs).

(** Set the checksum, or confirm that the type is that of the previous fragment. *)
Definition adoptChecksum (t : byte) : GO (fragmentingReader R) (option Checksum) :=
  r ← gget;
  match fr_checksum r with
  | None =>
      let '(c, ps) := New t (fr_choice r) (fr_pools r) in
      _ ← gmodify (fr_set_checksum ps (Some c)); mret (Some c)
  | Some c => mret (if decide (TypeCode c = t) then Some c else None)
  end.

Definition set_rf_contents (rb : ReadBuffer) (f : readableFragment) : readableFragment :=
  mkReadableFragment (rf_ref f) (rf_flags f) (rf_checksumType f) (rf_checksum f) rb.

(** The part of recvAndParseNextFragment after a fragment has been received. *)
Definition parseFragment (f : readableFragment) : GO (fragmentingReader R) (option error) :=
  oc ← adoptChecksum (rf_checksumType f);
  match oc with
  | None => mret (Some (errMismatchedChecksumTypes : error))
  | Some c =>
      _ ← gmodify (fr_set_more (bool_decide
            (Z.land (Z_of_byte (rf_flags f)) (Z_of_byte hasMoreFragmentsFlag)
             = Z_of_byte hasMoreFragmentsFlag)));
      match split_chunks (S (r_BytesRemaining (rf_contents f))) (rf_contents f) [] c with
      | Panic => gpanic
      | OutOfFuel => λ _, OutOfFuel
      | Ret (err, rb, chunks, c) =>
          _ ← gmodify (λ r, fr_set_checksum (fr_pools r) (Some c)
                (fr_set_chunks (fr_curChunk r) chunks
                  (fr_set_fragment (Some (set_rf_contents rb f)) r)));
          match err with
          | Some e => mret (Some e)
          | None =>
              match r_err rb with
              | Some e => mret (Some e)
              | None =>
                  if decide (rf_checksum f = Sum c) then
                    match chunks with
                    | [] => fr_fail errEmptyFragment
                    | k :: ks => _ ← gmodify (fr_set_chunks k ks); mret None
                    end
                  else fr_fail errMismatchedChecksums
              end
          end
      end
  end.

Definition recvAndParseNextFragment (initial : bool) : GO (fragmentingReader R) (option error) :=
  r ← gget;
  match fr_err r with
  | Some e => mret (Some e)
  | None =>
      _ ← (match fr_curFragment r with Some _ => doneCurrent | None => mret tt end);
      '(f, err) ← onReceiver (recvNextFragment initial);
      _ ← gmodify (λ r, fr_set_err err (fr_set_fragment f r));
      match err with
      | Some (ErrorMessage m) =>
          let e := AsSystemError m in
          _ ← gmodify (fr_set_err (Some e));
          _ ← reader_doneReading (Some e);
          mret (Some e)
      | Some e => mret (Some e)
      | None =>
          match f with
          | None => gpanic
          | Some f => parseFragment f
          end
      end
  end.

(** [if r.err = r.recvAndParseNextFragment(initial); r.err != nil] *)
Definition nextFragment (initial : bool) : GO (fragmentingReader R) (option error) :=
  err ← recvAndParseNextFragment initial;
  _ ← gmodify (fr_set_err err);
  mret err.

Definition reader_BeginArgument (last : bool) : GO (fragmentingReader R) (option error) :=
  r ← gget;
  match fr_err r with
  | Some e => mret (Some e)
  | None =>
      if isReadingArgument (fr_state r) then fr_fail errAlreadyReadingArgument
      else if bool_decide (fr_state r = fragmentingReadComplete) then fr_fail errComplete
      else
        err ← (if bool_decide (fr_state r = fragmentingReadStart) then nextFragment true
               else mret None);
        match err with
        | Some e => mret (Some e)
        | None =>
            _ ← gmodify (fr_set_state (if last then fragmentingReadInLastArgument
                                       else fragmentingReadInArgument));
            mret None
        end
  end.

(** The copy of a Read iteration into a buffer with [n] bytes left: the bytes
    copied. *)
Definition copyChunk (n : nat) : GO (fragmentingReader R) bytes :=
  r ← gget;
  _ ← gmodify (fr_set_chunks (drop n (fr_curChunk r)) (remainingChunks r));
  mret (take n (fr_curChunk r)).

(** The loop of Read into a buffer with [n] bytes left, with at most [fuel]
    iterations; it returns the bytes copied.  Each iteration after the first
    consumes a fragment. *)
Fixpoint read_loop (fuel : nat) (n : nat) (out : bytes)
    : GO (fragmentingReader R) (bytes * option error) :=
  match fuel with
  | O => λ _, OutOfFuel
  | S fuel =>
      b ← copyChunk n;
      r ← gget;
      if decide (n - length b = 0)%nat then mret (out ++ b, None)
      else if decide (0 < length (remainingChunks r))%nat
      then mret (out ++ b, Some (io_EOF : error))
      else if negb (hasMoreFragments r) then mret (out ++ b, Some (io_EOF : error))
      else
        err ← nextFragment false;
        match err with
        | Some e => mret (out ++ b, Some e)
        | None => read_loop fuel (n - length b) (out ++ b)
        end
  end.

Definition reader_Read (fuel : nat) (n : nat) : GO (fragmentingReader R) (bytes * option error) :=
  r ← gget;
  match fr_err r with
  | Some e => mret ([], Some e)
  | None =>
      if negb (isReadingArgument (fr_state r)) then
        err ← fr_fail errNotReadingArgument; mret ([], err)
      else read_loop fuel n []
  end.

Definition reader_Close : GO (fragmentingReader R) (option error) :=
  r ← gget;
  let last := bool_decide (fr_state r = fragmentingReadInLastArgument) in
  match fr_err r with
  | Some e => mret (Some e)
  | None =>
      if negb (isReadingArgument (fr_state r)) then fr_fail errNotReadingArgument
      else if decide (0 < length (fr_curChunk r))%nat then fr_fail errMoreDataInArgument
      else if last then
        if bool_decide (0 < length (remainingChunks r))%nat || hasMoreFragments r
        then fr_fail errExpectedMoreArguments
        else
          _ ← reader_doneReading None;
          _ ← doneCurrent;
          _ ← gmodify (λ r, fr_set_state fragmentingReadComplete
                              (fr_set_chunks [] (remainingChunks r) r));
          mret None
      else
        _ ← gmodify (fr_set_state fragmentingReadWaitingForArgument);
        match remainingChunks r with
        | k :: ks => _ ← gmodify (fr_set_chunks k ks); mret None
        | [] =>
            if negb (hasMoreFragments r) then fr_fail errNoMoreFragments
            else nextFragment false
        end
  end.

Definition reader_ArgReader (last : bool) : GO (fragmentingReader R) (option error) :=
  reader_BeginArgument last.
End reader.
