(* ===== verification/FragmentCorrect.v ===== *)
(** * Correctness of fragmentation

    The abstract view of a message is a list of fragments, each a list of chunks;
    [args_of] glues them into arguments.  The writer is proved against an abstract
    [GoodSender], the reader against an abstract [GoodReceiver]; both are
    implemented in ReqRes.v. *)

From S2P Require Import Prelude Errors Buffer Checksum Frame Fragment.

(** ** Arguments, fragments and chunks *)

(** [join a b]: the chunks [b] of a fragment that follows the arguments [a]; the
    first chunk continues the last argument. *)
Fixpoint join (a b : list bytes) : list bytes :=
  match a with
  | [] => b
  | x :: a' =>
      match a', b with
      | [], [] => [x]
      | [], y :: b => (x ++ y) :: b
      | _ :: _, _ => x :: join a' b
      end
  end.

Definition args_of (frags : list (list bytes)) : list bytes := foldr join [] frags.

Lemma join_nil_r a : join a [] = a.
Proof. induction a as [|x [|y a] IH]; [done|done|]. cbn [join] in *. by rewrite IH. Qed.

Lemma join_cons x y a b : join (x :: y :: a) b = x :: join (y :: a) b.
Proof. done. Qed.

Lemma join_assoc a b c : join (join a b) c = join a (join b c).
Proof.
  induction a as [|x [|y a] IH]; [done| |].
  - destruct b as [|y b]; [done|]. cbn [join].
    destruct b as [|z b]; [destruct c; cbn [join]; [done|by rewrite app_assoc]|done].
  - rewrite join_cons. destruct (join (y :: a) b) as [|z l] eqn:E.
    { destruct a, b; done. }
    by rewrite join_cons, IH, join_cons.
Qed.

Lemma join_snoc a x b : join (a ++ [x]) b = a ++ join [x] b.
Proof.
  induction a as [|y a IH]; [done|]. cbn [app].
  destruct (a ++ [x]) as [|z l] eqn:E; [by destruct a|]. by rewrite join_cons, IH.
Qed.

Lemma join_last a x d : join (a ++ [x]) [d] = a ++ [x ++ d].
Proof. by rewrite join_snoc. Qed.

Lemma join_app_r a b x : b ≠ [] → join a (b ++ x) = join a b ++ x.
Proof.
  intros Hb. induction a as [|y [|z a] IH]; [done| |].
  - by destruct b.
  - by rewrite !join_cons, IH.
Qed.

Lemma join_not_nil a b : b ≠ [] → join a b ≠ [].
Proof. intros Hb. destruct a as [|x [|y a]]; [done| |done]. by destruct b. Qed.

Lemma join_cons_not_nil x a b : join (x :: a) b ≠ [].
Proof. by destruct a, b. Qed.

(** An empty chunk continues an argument without adding to it. *)
Lemma join_empty_chunk a : a ≠ [] → join a [[]] = a.
Proof.
  intros Ha. destruct (exists_last Ha) as (l & x & ->). by rewrite join_last, app_nil_r.
Qed.

Lemma args_of_app l1 l2 : args_of (l1 ++ l2) = join (args_of l1) (args_of l2).
Proof.
  induction l1 as [|f l1 IH]; [done|]. cbn [app args_of foldr].
  fold (args_of (l1 ++ l2)) (args_of l1). by rewrite IH, join_assoc.
Qed.

Lemma args_of_snoc l f : args_of (l ++ [f]) = join (args_of l) f.
Proof. rewrite args_of_app. cbn [args_of foldr]. by rewrite join_nil_r. Qed.

Definition chunk_enc (d : bytes) : bytes := be_enc 2 (len d) ++ d.
Definition chunks_enc (l : list bytes) : bytes := concat (chunk_enc <$> l).

Lemma chunks_enc_app l1 l2 : chunks_enc (l1 ++ l2) = chunks_enc l1 ++ chunks_enc l2.
Proof. unfold chunks_enc. by rewrite fmap_app, concat_app. Qed.

Lemma chunks_enc_snoc l d : chunks_enc (l ++ [d]) = chunks_enc l ++ be_enc 2 (len d) ++ d.
Proof. rewrite chunks_enc_app. unfold chunks_enc at 2. cbn [fmap list_fmap concat]. by rewrite app_nil_r. Qed.

(** A fragment as it travels: [fg_mid] is what lies between the flags and the
    checksum (the message and the checksum type). *)
Record fragment := mkFragment {
  fg_hdr : FrameHeader;
  fg_flags : byte;
  fg_mid : bytes;
  fg_sum : bytes;
  fg_chunks : list bytes
}.

Definition fragment_enc (f : fragment) : bytes :=
  [fg_flags f] ++ fg_mid f ++ fg_sum f ++ chunks_enc (fg_chunks f).

(** The frame [g] carries the fragment [f]. *)
Definition sent_as (g : Frame) (f : fragment) : Prop :=
  frame_ok g ∧ ID (Header g) = ID (fg_hdr f)
  ∧ MessageType (Header g) = fh_messageType (fg_hdr f)
  ∧ fh_size (Header g) = len (fragment_enc f) + FrameHeaderSize
  ∧ SizedPayload g = Ret (fragment_enc f) ∧ len (fragment_enc f) <= MaxFramePayloadSize.

(** What a well-formed sequence of fragments looks like when the checksum so far
    is [c]: [mid_ok] describes the part that belongs to the message layer,
    [flags0] are the flags of a fragment that is not marked, [final] says that the last fragment ends the message. *)
Section stamped.
Context (mid_ok : bool → byte → FrameHeader → bytes → Prop) (flags0 : byte).

Definition stamp_ok (c : Checksum) (initial more : bool) (f : fragment) : Prop :=
  mid_ok initial (TypeCode c) (fg_hdr f) (fg_mid f)
  ∧ fg_flags f = (if more then hasMoreFragmentsFlag else flags0)
  ∧ fg_sum f = Sum (AddState (concat (fg_chunks f)) c)
  ∧ fg_chunks f ≠ [] ∧ Forall (λ d, len d < 65536) (fg_chunks f).

Fixpoint stamped (final initial : bool) (c : Checksum) (l : list fragment) : Prop :=
  match l with
  | [] => True
  | f :: l =>
      stamp_ok c initial (negb (final && bool_decide (l = []))) f
      ∧ stamped final false (AddState (concat (fg_chunks f)) c) l
  end.

Definition data_of (l : list fragment) : bytes := concat ((λ f, concat (fg_chunks f)) <$> l).

Lemma stamped_snoc final initial c l f :
  stamped final initial c (l ++ [f])
  ↔ stamped false initial c l
    ∧ stamp_ok (AddState (data_of l) c) (initial && bool_decide (l = [])) (negb final) f.
Proof.
  revert initial c. induction l as [|g l IH]; intros initial c; cbn [app stamped].
  - unfold data_of. cbn [fmap list_fmap concat]. rewrite AddState_nil.
    rewrite !bool_decide_eq_true_2, !andb_true_r by done. tauto.
  - rewrite IH. rewrite (bool_decide_eq_false_2 (l ++ [f] = [])) by (by destruct l).
    unfold data_of. cbn [fmap list_fmap concat compose].
    rewrite (bool_decide_eq_false_2 (g :: l = [])), !andb_false_r by done.
    rewrite <- AddState_app. cbn [negb andb]. tauto.
Qed.

Lemma data_of_app l1 l2 : data_of (l1 ++ l2) = data_of l1 ++ data_of l2.
Proof. unfold data_of. by rewrite fmap_app, concat_app. Qed.

(** A message can be continued by fragments that go on where it stopped. *)
Lemma stamped_app final initial c l1 l2 :
  l1 ≠ [] → l2 ≠ [] → stamped false initial c l1 →
  stamped final false (AddState (data_of l1) c) l2 → stamped final initial c (l1 ++ l2).
Proof.
  intros Hne1 Hne2. revert initial c. induction l1 as [|f l1 IH]; intros initial c; [done|].
  intros [Hf Hl1] Hl2. cbn [app stamped].
  rewrite (bool_decide_eq_false_2 (l1 ++ l2 = [])) by (by destruct l1, l2).
  rewrite andb_false_r. cbn [andb negb] in Hf. split; [done|].
  change (data_of (f :: l1)) with (concat (fg_chunks f) ++ data_of l1) in Hl2.
  rewrite <- AddState_app in Hl2. destruct l1 as [|f' l1]; [|by apply IH].
  change (data_of []) with (@nil byte) in Hl2. by rewrite AddState_nil in Hl2.
Qed.
End stamped.

(** When even the last fragment is marked, the message is still open. *)
Lemma stamped_open mid_ok fl initial c l :
  stamped mid_ok hasMoreFragmentsFlag true initial c l → stamped mid_ok fl false initial c l.
Proof.
  revert initial c. induction l as [|f l IH]; intros initial c; [done|].
  intros [(H1 & H2 & H3) Hl]. split; [|by apply IH]. split; [done|]. split; [|done].
  rewrite H2. by destruct (negb _).
Qed.

(** ** The writer *)

(** The fragment under construction: its buffer is a frame payload that holds the
    flags, [mid], room for the checksum and [body]. *)
Definition frag_rep (f : writableFragment) (hdr : FrameHeader) (fl : byte)
    (mid sum body : bytes) : Prop :=
  ∃ w0, w_off w0 = 0%nat ∧ len (w_buffer w0) = MaxFramePayloadSize
  ∧ (length ([fl] ++ mid ++ sum ++ body) <= w_BytesRemaining w0)%nat
  ∧ f_contents f = appended w0 ([fl] ++ mid ++ sum ++ body)
  ∧ flagsRef f = Some 0%nat ∧ checksumRef f = Some (1 + length mid, length sum)%nat
  ∧ frame_ok (f_frame f) ∧ Header (f_frame f) = hdr.

(** What the writer relies on: fragments are handed out with the flags [base_flags]
    and with the chunks [pre_chunks] already in them (and in the checksum), leave
    room for arguments when the checksum has an expected size, and are sent when
    flushed. *)
Class GoodSender (S : Type) `{fragmentSender S} := {
  base_flags : byte;
  pre_chunks : bool → list bytes;
  pre_chunks_ok : pre_chunks false = [] ∧ Forall (λ d, len d < 65536) (pre_chunks true);
  size_ok : nat → Prop;
  ready : S → Prop;
  wire : S → list Frame;
  mid_ok : bool → byte → FrameHeader → bytes → Prop;
  good_new s initial c : ready s → size_ok (Size c) → ∃ f s' hdr mid,
    newFragment initial c s = Ret ((Some f, None, AddState (concat (pre_chunks initial)) c), s')
    ∧ frag_rep f hdr base_flags mid (replicate (Size c) x00) (chunks_enc (pre_chunks initial))
    ∧ mid_ok initial (TypeCode c) hdr mid
    ∧ (4 < w_BytesRemaining (f_contents f))%nat
    ∧ ready s' ∧ wire s' = wire s;
  good_flush s f hdr fl mid sum chunks : ready s →
    frag_rep f hdr fl mid sum (chunks_enc chunks) → ∃ s' g,
    flushFragment f s = Ret (None, s') ∧ ready s' ∧ wire s' = wire s ++ [g]
    ∧ sent_as g (mkFragment hdr fl mid sum chunks);
  good_done s : wire (doneSending s).2 = wire s
}.

Section frag_rep.
Context (f : writableFragment) (hdr : FrameHeader) (fl : byte) (mid sum body : bytes).
Hypothesis Hrep : frag_rep f hdr fl mid sum body.

Lemma frag_remaining :
  Z.of_nat (w_BytesRemaining (f_contents f))
  = MaxFramePayloadSize - len ([fl] ++ mid ++ sum ++ body).
Proof.
  destruct Hrep as (w0 & Hoff & Hlen & Hfit & -> & _).
  rewrite appended_remaining by (unfold wbuf_ok; lia || done).
  rewrite w_BytesRemaining_eq in *. lia.
Qed.

Lemma frag_contents_ok : wbuf_ok (f_contents f) ∧ w_err (f_contents f) = None
  ∧ w_off (f_contents f) = length ([fl] ++ mid ++ sum ++ body).
Proof.
  destruct Hrep as (w0 & Hoff & Hlen & Hfit & -> & _). split; [|split; [done|]].
  - apply appended_ok; [unfold wbuf_ok; lia|done].
  - unfold appended. cbn [w_off]. lia.
Qed.

(** Appending to the body. *)
Lemma frag_append m bs : writes m bs → (length bs <= w_BytesRemaining (f_contents f))%nat →
  frag_rep (set_contents (m (f_contents f)).2 f) hdr fl mid sum (body ++ bs).
Proof.
  intros (_ & Hm & _) Hbs. destruct frag_contents_ok as (Hok & He & _).
  rewrite Hm by done.
  destruct Hrep as (w0 & Hoff & Hlen & Hfit & Hc & Hfr & Hcr & Hfo & Hh). exists w0.
  assert (Hok0 : wbuf_ok w0) by (unfold wbuf_ok; lia).
  rewrite Hc, appended_remaining in Hbs by done.
  split_and!; try done.
  - rewrite !length_app in *. lia.
  - cbn [set_contents f_contents snd]. rewrite Hc, appended_appended by (done || lia).
    f_equal. by rewrite <- !app_assoc.
Qed.

Lemma frag_newChunk : (2 <= w_BytesRemaining (f_contents f))%nat →
  ∃ b, newWritableChunk (f_contents f)
       = (mkWritableChunk 0 (Some (length ([fl] ++ mid ++ sum ++ body))) None, b)
  ∧ frag_rep (set_contents b f) hdr fl mid sum (body ++ [x00; x00]).
Proof.
  intros H2. destruct frag_contents_ok as (Hok & He & Hoff).
  exists (appended (f_contents f) [x00; x00]). split.
  - unfold newWritableChunk. erewrite st_bind_run by (by apply DeferUint16_spec).
    by rewrite Hoff.
  - pose proof (frag_append (WriteBytes [x00; x00]) [x00; x00] (WriteBytes_writes _)) as H.
    destruct (WriteBytes_writes [x00; x00]) as (_ & Hw & _).
    rewrite Hw in H by done. by apply H.
Qed.

(** Filling in a placeholder of the body. *)
Lemma frag_patch pre z v post :
  body = pre ++ z ++ post → length v = length z →
  frag_rep (set_contents (copy_at (length ([fl] ++ mid ++ sum ++ pre)) v (f_contents f)) f)
    hdr fl mid sum (pre ++ v ++ post).
Proof.
  intros Hb Hv. destruct Hrep as (w0 & Hoff & Hlen & Hfit & Hc & Hfr & Hcr & Hfo & Hh). exists w0.
  assert (Hok0 : wbuf_ok w0) by (unfold wbuf_ok; lia). subst body.
  split_and!; try done.
  - rewrite !length_app in *. lia.
  - cbn [set_contents f_contents]. rewrite Hc.
    replace (length ([fl] ++ mid ++ sum ++ pre))
      with (w_off w0 + length ([fl] ++ mid ++ sum ++ pre))%nat by lia.
    replace ([fl] ++ mid ++ sum ++ pre ++ z ++ post)
      with (([fl] ++ mid ++ sum ++ pre) ++ z ++ post) by (by rewrite <- !app_assoc).
    rewrite copy_at_appended; [by rewrite <- !app_assoc|done| |done].
    by rewrite <- !app_assoc.
Qed.

(** writableFragment.finish stores the checksum and, when more fragments follow,
    the flag. *)
Lemma frag_finish more c ps :
  length sum = Size c →
  let '(f', ps') := fragment_finish more c ps f in
  frag_rep f' hdr (if more then hasMoreFragmentsFlag else fl) mid (Sum c) body.
Proof.
  intros Hs. destruct Hrep as (w0 & Hoff & Hlen & Hfit & Hc & Hfr & Hcr & Hfo & Hh).
  assert (Hok0 : wbuf_ok w0) by (unfold wbuf_ok; lia).
  assert (Hsum : length (Sum c) = length sum) by (by rewrite length_Sum).
  assert (HS : Sum (f_checksum f c) = Sum c) by (unfold f_checksum; by destruct (noRelease f)).
  assert (HB : BytesRef_Update (checksumRef f) (Sum c) (f_contents f)
               = appended w0 ([fl] ++ mid ++ Sum c ++ body)).
  { rewrite Hcr, Hc. cbn [BytesRef_Update]. rewrite take_ge by lia.
    replace (1 + length mid)%nat with (w_off w0 + length ([fl] ++ mid))%nat
      by (rewrite length_app; simpl; lia).
    rewrite (app_assoc [fl] mid), copy_at_appended; [by rewrite <- app_assoc|done| |done].
    by rewrite <- app_assoc. }
  assert (HF : copy_at 0 [hasMoreFragmentsFlag] (appended w0 ([fl] ++ mid ++ Sum c ++ body))
               = appended w0 ([hasMoreFragmentsFlag] ++ mid ++ Sum c ++ body)).
  { replace 0%nat with (w_off w0 + length (@nil byte))%nat by (simpl; lia).
    apply (copy_at_appended w0 [] [fl] [hasMoreFragmentsFlag]); [done| |done].
    rewrite !length_app in *. simpl in *. lia. }
  unfold fragment_finish. rewrite HS. destruct more; exists w0; cbn [set_contents f_contents flagsRef
    checksumRef f_frame]; rewrite HB; split_and!; try done;
    try (rewrite !length_app in *; simpl in *; lia); try (by rewrite Hsum).
  by rewrite Hfr.
Qed.
End frag_rep.

Definition cur_remaining {S} (w : fragmentingWriter S) : nat :=
  match fw_curFragment w with Some f => w_BytesRemaining (f_contents f) | None => 0%nat end.

Section writer_correct.
Context {S : Type} `{GoodSender S} (c0 : Checksum) (base : list Frame).
Hypothesis Hsize : size_ok (Size c0).
Implicit Types w : fragmentingWriter S.

(** The fragments [sent] have been flushed and the checksum covers [data]. *)
Definition wbase w (final : bool) (sent : list fragment) (data : bytes) : Prop :=
  fw_err w = None ∧ ready (fw_sender w) ∧ fw_checksum w = AddState data c0
  ∧ (∃ frames, wire (fw_sender w) = base ++ frames ∧ Forall2 sent_as frames sent)
  ∧ stamped mid_ok base_flags final true c0 sent.

Definition open_enc (d : bytes) : bytes := [x00; x00] ++ d.

(** The current fragment holds the finished chunks [cks] and, in an argument, the
    chunk [open] whose size is still to be filled in. *)
Definition wcur w (initial : bool) (cks : list bytes) (open : option bytes) : Prop :=
  ∃ f hdr mid, fw_curFragment w = Some f
  ∧ frag_rep f hdr base_flags mid (replicate (Size c0) x00) (chunks_enc cks ++ default [] (open_enc <$> open))
  ∧ mid_ok initial (TypeCode c0) hdr mid ∧ Forall (λ d, len d < 65536) cks
  ∧ match open with
    | None => True
    | Some d => fw_curChunk w = Some (mkWritableChunk (len d)
        (Some (length ([base_flags] ++ mid ++ replicate (Size c0) x00 ++ chunks_enc cks))) None)
    end.

Definition winv w (sent : list fragment) (cks : list bytes) (open : option bytes) : Prop :=
  wbase w false sent (data_of sent ++ concat cks ++ default [] open)
  ∧ wcur w (bool_decide (sent = [])) cks open.

Lemma pre_chunks_small initial : Forall (λ d, len d < 65536) (pre_chunks initial).
Proof. destruct pre_chunks_ok as [Hf Ht]. destruct initial; [done|rewrite Hf; by apply Forall_nil]. Qed.

Lemma requestFragment_spec w sent :
  wbase w false sent (data_of sent) →
  ∃ w', requestFragment (bool_decide (sent = [])) w = Ret (None, w')
  ∧ winv w' sent (pre_chunks (bool_decide (sent = []))) None ∧ (4 < cur_remaining w')%nat
  ∧ fw_state w' = fw_state w.
Proof.
  intros (He & Hr & Hc & (frames & Hw & Hfs) & Hst).
  destruct (good_new (fw_sender w) (bool_decide (sent = [])) (fw_checksum w) Hr)
    as (f & s' & hdr & mid & Hnew & Hrep & Hmid & Hrem & Hr' & Hw').
  { by rewrite Hc, AddState_Size. }
  unfold requestFragment. rewrite Hnew. eexists. split; [done|].
  rewrite Hc, AddState_Size in Hrep. rewrite Hc, AddState_TypeCode in Hmid.
  split_and!; [split|done|done].
  - split_and!; try done;
      cbn [fw_checksum fw_sender fw_set_cur fw_set_err fw_set_sender fw_set_checksum].
    + rewrite Hc, AddState_app. cbn [default]. by rewrite app_nil_r.
    + exists frames. by rewrite Hw'.
  - exists f, hdr, mid. split_and!; try done; [|by apply pre_chunks_small].
    cbn [fmap option_fmap option_map default]. by rewrite app_nil_r.
Qed.

(** Every fragment after the first is handed out empty. *)
Lemma requestNext_spec w sent fr :
  wbase w false (sent ++ [fr]) (data_of (sent ++ [fr])) →
  ∃ w', requestFragment false w = Ret (None, w') ∧ winv w' (sent ++ [fr]) [] None
  ∧ (4 < cur_remaining w')%nat ∧ fw_state w' = fw_state w.
Proof.
  intros Hb. pose proof (requestFragment_spec w (sent ++ [fr]) Hb) as Hs.
  rewrite bool_decide_eq_false_2 in Hs by (by destruct sent).
  by rewrite (proj1 pre_chunks_ok) in Hs.
Qed.

Lemma beginChunk_spec w sent cks :
  winv w sent cks None → (2 <= cur_remaining w)%nat →
  ∃ w', beginChunk w = Ret (tt, w') ∧ winv w' sent cks (Some []) ∧ fw_state w' = fw_state w
  ∧ cur_remaining w' = (cur_remaining w - 2)%nat.
Proof.
  intros [Hb (f & hdr & mid & Hf & Hrep & Hmid & Hck & _)] H2.
  unfold cur_remaining in *. unfold beginChunk. rewrite Hf in *.
  destruct (frag_newChunk f _ _ _ _ _ Hrep H2) as (b & -> & Hrep').
  eexists. split; [done|]. split_and!; [split|done|]; [exact Hb| |].
  2:{ pose proof (frag_remaining _ _ _ _ _ _ Hrep) as R1.
      pose proof (frag_remaining _ _ _ _ _ _ Hrep') as R2.
      cbn [fw_curFragment fw_set_cur]. rewrite !length_app in R1, R2. simpl in R1, R2.
      rewrite app_nil_r in R2. simpl. lia. }
  cbn [fmap option_fmap option_map default] in *. rewrite app_nil_r in *.
  exists (set_contents b f), hdr, mid. by split_and!.
Qed.

Lemma body_bound f hdr fl mid sum body : frag_rep f hdr fl mid sum body → len body < 65534.
Proof.
  intros Hrep. pose proof (frag_remaining f _ _ _ _ _ Hrep) as H'.
  rewrite !length_app in H'. simpl in H'. frame_lia.
Qed.

Lemma finishChunk_spec w sent cks d :
  winv w sent cks (Some d) →
  ∃ w', finishChunk w = Ret (tt, w') ∧ winv w' sent (cks ++ [d]) None
  ∧ cur_remaining w' = cur_remaining w ∧ fw_state w' = fw_state w.
Proof.
  intros [Hb (f & hdr & mid & Hf & Hrep & Hmid & Hck & Hch)].
  pose proof (body_bound _ _ _ _ _ _ Hrep) as Hlen.
  unfold finishChunk, cur_remaining. rewrite Hch. cbn [ck_contents]. rewrite Hf.
  eexists. split; [done|]. cbn [fw_curFragment fw_set_cur].
  cbn [fmap option_fmap option_map default] in *. unfold open_enc in *.
  pose proof (frag_patch f _ _ _ _ _ Hrep (chunks_enc cks) [x00; x00] (be_enc 2 (len d)) d
    eq_refl (length_be_enc _ _)) as Hrep'.
  split_and!; [split| |done].
  - rewrite concat_app. cbn [default concat] in *. rewrite !app_nil_r. exact Hb.
  - eexists _, hdr, mid. split; [done|]. split; [|split; [done|split; [|done]]].
    + cbn [default]. rewrite app_nil_r, chunks_enc_snoc. exact Hrep'.
    + apply Forall_app. split; [done|]. constructor; [|done].
      rewrite !length_app in Hlen. simpl in Hlen. lia.
  - pose proof (frag_remaining _ _ _ _ _ _ Hrep) as R1.
    pose proof (frag_remaining _ _ _ _ _ _ Hrep') as R2.
    apply Nat2Z.inj. etransitivity; [exact R2|]. rewrite R1, !length_app, length_be_enc.
    unfold id. rewrite length_app. done.
Qed.

Lemma finishAndFlush_spec w sent cks more :
  winv w sent cks None → cks ≠ [] →
  ∃ w' fr, finishAndFlush more w = Ret (None, w') ∧ fg_chunks fr = cks
  ∧ wbase w' (negb more) (sent ++ [fr]) (data_of (sent ++ [fr])) ∧ fw_state w' = fw_state w.
Proof.
  intros [(He & Hr & Hc & (frames & Hw & Hfs) & Hst) (f & hdr & mid & Hf & Hrep & Hmid & Hck & _)] Hne.
  unfold finishAndFlush. rewrite Hf.
  pose proof (frag_finish f _ _ _ _ _ Hrep more (fw_checksum w) (fw_pools w)) as Hfin.
  rewrite Hc, AddState_Size in Hfin. specialize (Hfin (length_replicate _ _)).
  rewrite Hc in *. destruct (fragment_finish _ _ _ f) as [f' ps'] eqn:E.
  cbn [fmap option_fmap option_map default] in *. rewrite !app_nil_r in *.
  destruct (good_flush (fw_sender w) f' hdr _ mid _ cks Hr Hfin) as (s' & g & -> & Hr' & Hw' & Hsent).
  eexists _, (mkFragment hdr _ mid _ cks). split; [done|]. split; [done|]. split; [|done].
  split_and!; try done; cbn [fw_checksum fw_sender fw_set_cur fw_set_err fw_set_sender fw_set_checksum].
  - unfold data_of. rewrite fmap_app, concat_app. cbn [fmap list_fmap concat fg_chunks].
    by rewrite app_nil_r.
  - exists (frames ++ [g]). rewrite Hw', Hw, app_assoc. split; [done|].
    apply Forall2_app; [done|]. by constructor.
  - apply stamped_snoc. split; [done|].
    split_and!; cbn [fg_hdr fg_mid fg_flags fg_sum fg_chunks andb].
    + by rewrite AddState_TypeCode.
    + by destruct more.
    + by rewrite AddState_app.
    + done.
    + done.
Qed.

Lemma chunkWrite_spec w sent cks d b :
  winv w sent cks (Some d) →
  ∃ w', chunkWrite b w = Ret (Nat.min (cur_remaining w) (length b), w')
  ∧ winv w' sent cks (Some (d ++ take (cur_remaining w) b)) ∧ fw_state w' = fw_state w.
Proof.
  intros [(He & Hr & Hc & Hfr & Hst) (f & hdr & mid & Hf & Hrep & Hmid & Hck & Hch)].
  unfold chunkWrite, writeAsFits, cur_remaining. rewrite Hch. cbn [ck_contents]. rewrite Hf.
  set (n := w_BytesRemaining (f_contents f)). set (b' := if decide _ then _ else _).
  assert (b' = take n b) as ->.
  { unfold b', n. case_decide; [done|]. by rewrite take_ge by lia. }
  assert (Hfit : (length (take n b) <= n)%nat) by (rewrite length_take; lia).
  pose proof (frag_append f _ _ _ _ _ Hrep _ _ (WriteBytes_writes (take n b)) Hfit) as Hrep'.
  pose proof (body_bound _ _ _ _ _ _ Hrep') as Hlen.
  rewrite <- length_take. eexists. split; [done|]. split; [|done]. split.
  - split_and!; try done. cbn [fw_checksum fw_set_cur fw_set_checksum Add snd].
    rewrite Hc, AddState_app. cbn [default]. by rewrite <- !app_assoc.
  - eexists _, hdr, mid. split_and!; [done| |done|done|].
    + cbn [fmap option_fmap option_map default] in *. unfold open_enc in *.
      unfold id in *. rewrite <- !app_assoc in Hrep'. exact Hrep'.
    + cbn [fw_curChunk fw_set_cur ck_size ck_sizeRef]. do 2 f_equal.
      cbn [fmap option_fmap option_map default] in Hlen. unfold open_enc, id in Hlen.
      rewrite !length_app in *. simpl in Hlen. rewrite (uint16_small (len (take n b))) by lia.
      rewrite uint16_small by lia. lia.
Qed.

(** *** The methods *)

Definition args_in (sent : list fragment) (cks : list bytes) : list bytes :=
  join (args_of (fg_chunks <$> sent)) cks.

Lemma args_in_sent sent fr cks d :
  fg_chunks fr = cks ++ [d] → args_in (sent ++ [fr]) [[]] = args_in sent (cks ++ [d]).
Proof.
  intros Hfr. unfold args_in. rewrite fmap_app, args_of_app. cbn [fmap list_fmap].
  rewrite Hfr. cbn [args_of foldr]. rewrite join_nil_r. apply join_empty_chunk, join_not_nil.
  by destruct cks.
Qed.

(** In an argument, [args] are the arguments written so far with the current one
    last; between arguments, there is room to begin another. *)
Definition in_arg w (args : list bytes) : Prop :=
  ∃ sent cks d, winv w sent cks (Some d) ∧ args = args_in sent (cks ++ [d]).

Definition between w (args : list bytes) : Prop :=
  ∃ sent cks, winv w sent cks None ∧ cks ≠ [] ∧ (2 < cur_remaining w)%nat
  ∧ args = args_in sent cks.

Lemma Flush_spec w args :
  in_arg w args →
  ∃ w', writer_Flush w = Ret (None, w') ∧ in_arg w' args ∧ (0 < cur_remaining w')%nat
  ∧ fw_state w' = fw_state w.
Proof.
  intros (sent & cks & d & Hinv & ->). unfold writer_Flush.
  destruct (finishChunk_spec _ _ _ _ Hinv) as (w1 & H1 & Hinv1 & _ & S1).
  run_with H1.
  destruct (finishAndFlush_spec w1 sent (cks ++ [d]) true Hinv1) as (w2 & fr & H2 & Hfr & Hb2 & S2).
  { by destruct cks. }
  run_with H2.
  destruct (requestNext_spec w2 sent fr Hb2) as (w3 & H3 & Hinv3 & R3 & S3).
  run_with H3.
  destruct (beginChunk_spec w3 _ _ Hinv3) as (w4 & H4 & Hinv4 & S4 & R4); [lia|].
  run_with H4. eexists. split; [done|]. split_and!; [|lia|congruence].
  exists (sent ++ [fr]), [], []. split; [done|]. symmetry. by apply args_in_sent.
Qed.

Lemma write_loop_spec fuel t b w args :
  in_arg w args → (length b < fuel ∨ (0 < cur_remaining w ∧ 0 < length b <= fuel))%nat →
  ∃ w', write_loop fuel t b w = Ret ((t + length b, None)%nat, w') ∧ in_arg w' (join args [b])
  ∧ fw_state w' = fw_state w.
Proof.
  revert t b w args. induction fuel as [|fuel IH]; intros t b w args Hin Hfuel; [lia|].
  destruct Hin as (sent & cks & d & Hinv & ->). cbn [write_loop].
  destruct (chunkWrite_spec _ _ _ _ b Hinv) as (w1 & H1 & Hinv1 & S1).
  run_with H1. set (n := cur_remaining w) in *.
  assert (Hin1 : in_arg w1 (join (args_in sent (cks ++ [d])) [take n b])).
  { exists sent, cks, (d ++ take n b). split; [done|]. unfold args_in.
    by rewrite join_assoc, join_last. }
  case_decide as Hd.
  - rewrite Hd. eexists. split; [done|]. split; [|done]. by rewrite take_ge in Hin1 by lia.
  - destruct (Flush_spec _ _ Hin1) as (w2 & H2 & Hin2 & R2 & S2).
    run_with H2.
    destruct (IH (t + Nat.min n (length b))%nat (drop (Nat.min n (length b)) b) w2 _ Hin2)
      as (w3 & H3 & Hin3 & S3).
    { rewrite length_drop. lia. }
    rewrite length_drop in H3. exists w3.
    rewrite H3. split_and!; [do 3 f_equal; lia| |congruence].
    rewrite join_assoc in Hin3. cbn [join] in Hin3.
    rewrite Nat.min_l in Hin3 by lia. by rewrite take_drop in Hin3.
Qed.

Definition idle w (args : list bytes) : Prop :=
  (args = pre_chunks true ∧ fw_state w = fragmentingWriteStart ∧ fw_curFragment w = None ∧ wbase w false [] [])
  ∨ (between w args ∧ fw_state w = fragmentingWriteWaitingForArgument).

Lemma in_arg_err w args : in_arg w args → fw_err w = None.
Proof. by intros (sent & cks & d & [(He & _) _] & _). Qed.

Lemma idle_err w args : idle w args → fw_err w = None.
Proof. by intros [(_ & _ & _ & (He & _))|[(sent & cks & [(He & _) _] & _) _]]. Qed.

Lemma ensureFragment_spec w args :
  idle w args →
  ∃ w' sent cks, ensureFragment w = Ret (None, w') ∧ winv w' sent cks None
  ∧ (2 < cur_remaining w')%nat ∧ args_in sent (cks ++ [[]]) = args ++ [[]].
Proof.
  unfold ensureFragment. run_step.
  intros [(-> & Hs & -> & Hb)|[(sent & cks & Hinv & Hne & Hrem & ->) Hs]].
  - rewrite Hs, bool_decide_eq_true_2 by done.
    destruct (requestFragment_spec w [] Hb) as (w' & Hreq & Hinv & Hrem & _).
    exists w', [], (pre_chunks true). split_and!; [done|done|lia|done].
  - pose proof Hinv as [_ (f & hdr & mid & -> & _)].
    exists w, sent, cks. split_and!; [done|done|done|].
    unfold args_in. by rewrite join_app_r.
Qed.

Lemma BeginArgument_spec w args last :
  idle w args →
  ∃ w', writer_BeginArgument last w = Ret (None, w') ∧ in_arg w' (args ++ [[]])
  ∧ fw_state w' = if last then fragmentingWriteInLastArgument else fragmentingWriteInArgument.
Proof.
  intros Hidle. unfold writer_BeginArgument. run_step.
  rewrite (idle_err _ _ Hidle).
  assert (bool_decide (fw_state w = fragmentingWriteComplete) = false
          ∧ isWritingArgument (fw_state w) = false) as [-> ->].
  { by destruct Hidle as [(_ & -> & _)|[_ ->]]. }
  destruct (ensureFragment_spec _ _ Hidle) as (w1 & sent & cks & H1 & Hinv1 & R1 & Hargs).
  run_with H1. run_step.
  destruct (beginChunk_spec w1 _ _ Hinv1) as (w2 & H2 & Hinv2 & S2 & R2); [lia|].
  unfold cur_remaining in R1. destruct (fw_curFragment w1) as [f|] eqn:Hf; [|lia].
  rewrite decide_False by (unfold chunkHeaderSize; lia).
  run_with H2. eexists. split; [done|]. split; [|done].
  exists sent, cks, []. split; [|by symmetry]. exact Hinv2.
Qed.

Lemma Write_spec w args b :
  in_arg w args → isWritingArgument (fw_state w) = true →
  ∃ w', writer_Write b w = Ret ((length b, None), w') ∧ in_arg w' (join args [b])
  ∧ fw_state w' = fw_state w.
Proof.
  intros Hin Hs. unfold writer_Write. run_step.
  rewrite (in_arg_err _ _ Hin), Hs. cbn [negb].
  apply (write_loop_spec _ 0 b w args Hin). lia.
Qed.

Lemma closeInNextFragment_spec w sent cks d :
  winv w sent (cks ++ [d]) None →
  ∃ w', closeInNextFragment w = Ret (None, w') ∧ between w' (args_in sent (cks ++ [d]))
  ∧ fw_state w' = fw_state w.
Proof.
  intros Hinv. unfold closeInNextFragment.
  destruct (finishAndFlush_spec w sent (cks ++ [d]) true Hinv) as (w2 & fr & H2 & Hfr & Hb2 & S2).
  { by destruct cks. }
  run_with H2.
  destruct (requestNext_spec w2 sent fr Hb2) as (w3 & H3 & Hinv3 & R3 & S3).
  run_with H3. run_step.
  destruct Hinv3 as [Hb3 (f & hdr & mid & Hf & Hrep & Hmid & _)].
  unfold cur_remaining in R3. rewrite Hf in *. eexists. split; [done|].
  split; [|cbn; congruence].
  pose proof (frag_append f _ _ _ _ _ Hrep _ _ (WriteUint16_writes 0)) as Hrep'.
  rewrite length_be_enc in Hrep'. specialize (Hrep' ltac:(lia)).
  exists (sent ++ [fr]), [[]]. split_and!; [split|done| |by symmetry; apply args_in_sent].
  - exact Hb3.
  - eexists _, hdr, mid. split; [done|]. split; [exact Hrep'|].
    split; [done|]. split; [|done]. constructor; [simpl; lia|by apply Forall_nil].
  - pose proof (frag_remaining _ _ _ _ _ _ Hrep) as Q1.
    pose proof (frag_remaining _ _ _ _ _ _ Hrep') as Q2.
    unfold cur_remaining. cbn [fw_curFragment fw_set_cur]. rewrite !length_app in Q1, Q2.
    simpl in Q1, Q2. simpl. lia.
Qed.

Lemma Close_spec w args :
  in_arg w args → fw_state w = fragmentingWriteInArgument →
  ∃ w', writer_Close w = Ret (None, w') ∧ idle w' args.
Proof.
  intros Hin Hs. unfold writer_Close. run_step.
  rewrite (in_arg_err _ _ Hin), Hs. destruct Hin as (sent & cks & d & Hinv & ->).
  change (negb (isWritingArgument fragmentingWriteInArgument)) with false. cbv iota.
  destruct (finishChunk_spec _ _ _ _ Hinv) as (w1 & H1 & Hinv1 & R1 & S1).
  run_with H1. rewrite bool_decide_eq_false_2 by done.
  run_step. run_step.
  set (w2 := fw_set_state _ w1).
  assert (Hinv2 : winv w2 sent (cks ++ [d]) None) by exact Hinv1.
  change (fw_curFragment w2) with (fw_curFragment w1).
  destruct (fw_curFragment w1) as [f|] eqn:Hf.
  2:{ by destruct Hinv1 as [_ (? & ? & ? & ? & _)]; simplify_eq. }
  case_decide as Hd.
  - eexists. split; [done|]. right. split; [|done]. exists sent, (cks ++ [d]).
    split_and!; [done|by destruct cks| |done].
    unfold cur_remaining. change (fw_curFragment w2) with (fw_curFragment w1). by rewrite Hf.
  - destruct (closeInNextFragment_spec _ _ _ _ Hinv2) as (w3 & H3 & Hb & S3).
    exists w3. split; [done|]. right. by rewrite S3.
Qed.

(** Everything sent: a complete message that carries [args]. *)
Definition sent_all w (args : list bytes) : Prop :=
  ∃ frames sent, wire (fw_sender w) = base ++ frames ∧ Forall2 sent_as frames sent
  ∧ stamped mid_ok base_flags true true c0 sent ∧ args_of (fg_chunks <$> sent) = args
  ∧ fw_checksum w = AddState (data_of sent) c0.

Lemma Close_last_spec w args :
  in_arg w args → fw_state w = fragmentingWriteInLastArgument →
  ∃ w', writer_Close w = Ret (None, w') ∧ sent_all w' args ∧ fw_state w' = fragmentingWriteComplete.
Proof.
  intros Hin Hs. unfold writer_Close. run_step.
  rewrite (in_arg_err _ _ Hin), Hs. destruct Hin as (sent & cks & d & Hinv & ->).
  change (negb (isWritingArgument fragmentingWriteInLastArgument)) with false. cbv iota.
  destruct (finishChunk_spec _ _ _ _ Hinv) as (w1 & H1 & Hinv1 & R1 & S1).
  run_with H1. rewrite bool_decide_eq_true_2 by done.
  run_step. set (w2 := fw_set_state _ w1).
  assert (Hinv2 : winv w2 sent (cks ++ [d]) None) by exact Hinv1.
  destruct (finishAndFlush_spec w2 sent (cks ++ [d]) false Hinv2) as (w3 & fr & H3 & Hfr & Hb3 & S3).
  { by destruct cks. }
  run_with H3. eexists. split; [done|]. split; [|done].
  destruct Hb3 as (_ & _ & Hc3 & (frames & Hw & Hfs) & Hst). exists frames, (sent ++ [fr]).
  cbn [fw_sender fw_set_sender]. rewrite good_done. split_and!; [done|done|done| |done].
  rewrite fmap_app, args_of_app. cbn [fmap list_fmap]. rewrite Hfr.
  unfold args_of at 2. cbn [foldr]. by rewrite join_nil_r.
Qed.

(** *** A client that writes a whole message *)

Inductive arg_op := ArgWrite (b : bytes) | ArgFlush.

Definition arg_value (ops : list arg_op) : bytes :=
  concat ((λ o, match o with ArgWrite b => b | ArgFlush => [] end) <$> ops).

Definition run_op (o : arg_op) : GO (fragmentingWriter S) (option error) :=
  match o with
  | ArgWrite b => '(_, err) ← writer_Write b; mret err
  | ArgFlush => writer_Flush
  end.

Fixpoint run_ops (ops : list arg_op) : GO (fragmentingWriter S) (option error) :=
  match ops with
  | [] => writer_Close
  | o :: ops =>
      err ← run_op o;
      match err with Some e => mret (Some e) | None => run_ops ops end
  end.

(** Each argument is begun, written in any pattern of writes and flushes, and
    closed; the last one is marked as such. *)
Fixpoint write_args (args : list (list arg_op)) : GO (fragmentingWriter S) (option error) :=
  match args with
  | [] => mret None
  | ops :: args =>
      err ← writer_ArgWriter (bool_decide (args = []));
      match err with
      | Some e => mret (Some e)
      | None =>
          err ← run_ops ops;
          match err with Some e => mret (Some e) | None => write_args args end
      end
  end.

Lemma run_op_spec o w args :
  in_arg w args → isWritingArgument (fw_state w) = true → args ≠ [] →
  ∃ w', run_op o w = Ret (None, w')
  ∧ in_arg w' (join args [match o with ArgWrite b => b | ArgFlush => [] end])
  ∧ fw_state w' = fw_state w.
Proof.
  intros Hin Hs Hne. destruct o as [b|]; cbn [run_op].
  - destruct (Write_spec _ _ b Hin Hs) as (w' & H1 & ?). run_with H1. by exists w'.
  - destruct (Flush_spec _ _ Hin) as (w' & H1 & Hin' & _ & S1). exists w'.
    by rewrite join_empty_chunk.
Qed.

Lemma run_ops_spec ops w args (last : bool) :
  in_arg w args → args ≠ [] →
  fw_state w = (if last then fragmentingWriteInLastArgument else fragmentingWriteInArgument) →
  ∃ w', run_ops ops w = Ret (None, w')
  ∧ if last then sent_all w' (join args [arg_value ops]) else idle w' (join args [arg_value ops]).
Proof.
  revert w args. induction ops as [|o ops IH]; intros w args Hin Hne Hs; cbn [run_ops].
  - unfold arg_value. cbn [fmap list_fmap concat]. rewrite join_empty_chunk by done.
    destruct last.
    + destruct (Close_last_spec _ _ Hin Hs) as (w' & ? & ? & _). by exists w'.
    + by apply Close_spec.
  - destruct (run_op_spec o w args Hin) as (w1 & H1 & Hin1 & S1); [by destruct last; rewrite Hs|done|].
    run_with H1. destruct (IH w1 _ Hin1) as (w2 & H2 & HC); [by apply join_not_nil|congruence|].
    exists w2. split; [done|]. rewrite join_assoc in HC. exact HC.
Qed.

Lemma write_args_spec ops args w pre :
  idle w pre →
  ∃ w', write_args (ops :: args) w = Ret (None, w')
  ∧ sent_all w' (pre ++ (arg_value <$> (ops :: args))).
Proof.
  revert ops w pre. induction args as [|ops' args IH]; intros ops w pre Hidle.
  all: cbn [write_args].
  - destruct (BeginArgument_spec w pre true Hidle) as (w1 & H1 & Hin1 & S1). run_with H1.
    destruct (run_ops_spec ops w1 _ true Hin1) as (w2 & H2 & HC); [by destruct pre|done|].
    run_with H2. exists w2. split; [reflexivity|]. by rewrite join_last in HC.
  - destruct (BeginArgument_spec w pre false Hidle) as (w1 & H1 & Hin1 & S1). run_with H1.
    destruct (run_ops_spec ops w1 _ false Hin1) as (w2 & H2 & HC); [by destruct pre|done|].
    run_with H2. rewrite join_last in HC.
    destruct (IH ops' w2 _ HC) as (w3 & H3 & Hall). exists w3. split; [done|].
    by rewrite <- app_assoc in Hall.
Qed.
End writer_correct.

(** ** The reader *)

(** A receiver whose frames to come carry the given fragments, the first of them
    being the initial one of a message or not: [rmid_ok] are the message parts it
    can parse. *)
Class GoodReceiver (R : Type) `{fragmentReceiver R} := {
  incoming : R → bool → list fragment → Prop;
  rmid_ok : bool → byte → FrameHeader → bytes → Prop;
  good_recv r initial t f l :
    incoming r initial (f :: l) → rmid_ok initial t (fg_hdr f) (fg_mid f) →
    length (fg_sum f) = ChecksumSize t → ∃ rf r',
    recvNextFragment initial r = Ret ((Some rf, None), r') ∧ incoming r' false l
    ∧ rf_flags rf = fg_flags f ∧ rf_checksumType rf = t ∧ rf_checksum rf = fg_sum f
    ∧ r_err (rf_contents rf) = None
    ∧ r_remaining (rf_contents rf) = chunks_enc (fg_chunks f)
    ∧ len (chunks_enc (fg_chunks f)) <= MaxFramePayloadSize;
  good_doneReading r b l e : incoming r b l → incoming (doneReading e r).2 b l;
  good_release r b l n : incoming r b l → incoming (set_isDone n (onDone n r)) b l
}.

Lemma split_chunks_spec l n acc cs fuel :
  Forall (λ d, len d < 65536) l → len (chunks_enc l) <= MaxFramePayloadSize →
  (length (chunks_enc l) < fuel)%nat →
  split_chunks fuel (mkReadBuffer n (chunks_enc l) None) acc cs
  = Ret (None, mkReadBuffer n [] None, acc ++ l, AddState (concat l) cs).
Proof.
  intros Hl. revert acc cs fuel. induction Hl as [|d l Hd Hl IH]; intros acc cs fuel Hlen Hfuel.
  { destruct fuel; cbn; by rewrite app_nil_r, AddState_nil. }
  assert (Henc : chunks_enc (d :: l) = be_enc 2 (len d) ++ d ++ chunks_enc l).
  { unfold chunks_enc. cbn [fmap list_fmap concat]. unfold chunk_enc at 1. by rewrite <- app_assoc. }
  rewrite Henc in *. rewrite !length_app, length_be_enc in Hlen, Hfuel.
  destruct fuel as [|fuel]; [lia|]. cbn [split_chunks r_err].
  rewrite decide_True by (unfold r_BytesRemaining, r_Remaining; cbn [r_remaining];
    rewrite length_app, length_be_enc; lia).
  rewrite (ReadUint16_reads (len d)) by lia. unfold r_BytesRemaining, r_Remaining.
  cbn [r_remaining]. rewrite uint16_small by (rewrite length_app; frame_lia).
  rewrite decide_False by (rewrite length_app; lia).
  rewrite (ReadBytes_reads' _ d) by lia. cbn [default Add snd].
  unfold id. rewrite IH by lia. by rewrite <- app_assoc, AddState_app.
Qed.

Definition sized (c : Checksum) : Prop := Size c = ChecksumSize (TypeCode c).

Lemma sized_AddState b c : sized c → sized (AddState b c).
Proof. unfold sized. by rewrite AddState_Size, AddState_TypeCode. Qed.

Lemma more_flag (b : bool) :
  bool_decide (Z.land (Z_of_byte (if b then hasMoreFragmentsFlag else x00))
    (Z_of_byte hasMoreFragmentsFlag) = Z_of_byte hasMoreFragmentsFlag) = b.
Proof. by destruct b. Qed.

Section reader_correct.
Context {R : Type} `{GoodReceiver R}.
Implicit Types r : fragmentingReader R.

Definition rinv r (rest : list fragment) : Prop :=
  fr_err r = None ∧ incoming (fr_receiver r) false rest
  ∧ (∃ c, fr_checksum r = Some c ∧ stamped rmid_ok x00 true false c rest ∧ sized c)
  ∧ hasMoreFragments r = negb (bool_decide (rest = [])) ∧ is_Some (fr_curFragment r).

(** The arguments from the current one on, as far as they have not been read. *)
Definition unread r (rest : list fragment) : list bytes :=
  args_of ((fr_curChunk r :: remainingChunks r) :: (fg_chunks <$> rest)).

(** What precedes the receipt of a fragment: the first one makes the checksum. *)
Definition before r (initial : bool) (c : Checksum) : Prop :=
  if initial
  then fr_checksum r = None ∧ pools_ok (fr_pools r) ∧ c = fresh (TypeCode c)
  else fr_checksum r = Some c.

Lemma adoptChecksum_spec r initial c :
  before r initial c →
  ∃ r', adoptChecksum (TypeCode c) r = Ret (Some c, r')
  ∧ ∃ ps, r' = fr_set_checksum ps (Some c) r.
Proof.
  unfold before, adoptChecksum. destruct initial; run_step.
  - intros (-> & Hps & Hc). unfold New.
    destruct (pool_Get_ok (fr_choice r) (pool (TypeCode c)) _ Hps) as [Hp _].
    destruct (pool_Get _ _ _) as [c' ps']. unfold pooled_ok in Hp. cbn [fst] in Hp.
    cbn. rewrite Hp. fold (fresh (TypeCode c)). rewrite <- Hc. eauto.
  - intros Hc. rewrite Hc, decide_True by done. eexists. split; [done|].
    exists (fr_pools r). destruct r; simpl in *. by subst.
Qed.

Lemma parseFragment_spec r initial c f l rf :
  before r initial c → fr_err r = None → incoming (fr_receiver r) false l →
  stamped rmid_ok x00 true initial c (f :: l) → sized c →
  rf_flags rf = fg_flags f → rf_checksumType rf = TypeCode c → rf_checksum rf = fg_sum f →
  r_err (rf_contents rf) = None → r_remaining (rf_contents rf) = chunks_enc (fg_chunks f) →
  len (chunks_enc (fg_chunks f)) <= MaxFramePayloadSize →
  ∃ r', parseFragment rf r = Ret (None, r') ∧ rinv r' l
  ∧ fr_curChunk r' :: remainingChunks r' = fg_chunks f ∧ fr_state r' = fr_state r.
Proof.
  intros Hb He Hin [(Hmid & Hfl & Hsum & Hne & Hck) Hst] Hsz Hrfl Hrt Hrs Hre Hrr Hlen.
  unfold parseFragment. rewrite Hrt.
  destruct (adoptChecksum_spec _ _ _ Hb) as (r1 & H1 & ps & ->). run_with H1. run_step.
  destruct (rf_contents rf) as [n rem e] eqn:Erf. cbn [r_remaining r_err] in Hrr, Hre. subst rem e.
  rewrite (split_chunks_spec (fg_chunks f) n [] c) by (done || (unfold r_BytesRemaining; simpl; lia)).
  run_step. cbn [r_err]. rewrite Hrs, Hsum, decide_True by done. cbn [app].
  destruct (fg_chunks f) as [|k ks] eqn:Ek; [done|]. eexists. split; [reflexivity|].
  split_and!; [|done|done]. rewrite <- Ek in *.
  split_and!; [done|done| | |by eexists].
  - eexists. split; [done|]. split; [done|]. by apply sized_AddState.
  - cbn. rewrite Hrfl, Hfl. apply more_flag.
Qed.

Lemma doneCurrent_run r f : fr_curFragment r = Some f →
  doneCurrent r = Ret (tt, fr_set_receiver (fragment_done f (fr_receiver r)) r).
Proof. intros Hf. unfold doneCurrent. run_step. by rewrite Hf. Qed.

Lemma nextFragment_spec r initial c f l :
  before r initial c → fr_err r = None → incoming (fr_receiver r) initial (f :: l) →
  stamped rmid_ok x00 true initial c (f :: l) → sized c →
  ∃ r', nextFragment initial r = Ret (None, r') ∧ rinv r' l
  ∧ fr_curChunk r' :: remainingChunks r' = fg_chunks f ∧ fr_state r' = fr_state r.
Proof.
  intros Hb He Hin Hst Hsz. unfold nextFragment, recvAndParseNextFragment.
  set (r1 := match fr_curFragment r with
             | Some g => fr_set_receiver (fragment_done g (fr_receiver r)) r | None => r end).
  assert (Hb1 : before r1 initial c ∧ fr_err r1 = None ∧ incoming (fr_receiver r1) initial (f :: l)
                ∧ fr_state r1 = fr_state r).
  { unfold r1. destruct (fr_curFragment r); [|done]. split_and!; [exact Hb|done| |done].
    cbn. unfold fragment_done. destruct (isDone _ _); [done|]. by apply good_release. }
  destruct Hb1 as (Hb1 & He1 & Hin1 & Hs1).
  assert (Hsum : length (fg_sum f) = ChecksumSize (TypeCode c)).
  { destruct Hst as [(_ & _ & -> & _) _]. by rewrite length_Sum, AddState_Size. }
  destruct (good_recv (fr_receiver r1) initial (TypeCode c) f l Hin1)
    as (rf & x & Hrecv & Hin2 & H1 & H2 & H3 & H4 & H5 & H6); [apply Hst|done|].
  set (r2 := fr_set_err None (fr_set_fragment (Some rf) (fr_set_receiver x r1))).
  destruct (parseFragment_spec r2 initial c f l rf) as (r3 & Hp & Hinv & Hch & Hs3);
    try done.
  assert (Hrun : recvAndParseNextFragment initial r = Ret (None, r3)).
  { unfold recvAndParseNextFragment. run_step. rewrite He.
    erewrite (gost_bind_run _ _ _ tt r1).
    2:{ unfold r1. destruct (fr_curFragment r) eqn:E; [|done]. by rewrite (doneCurrent_run _ _ E). }
    erewrite (gost_bind_run _ _ _ _ (fr_set_receiver x r1)) by (unfold onReceiver; by rewrite Hrecv).
    cbv beta iota. run_step. exact Hp. }
  run_with Hrun. eexists. split; [reflexivity|]. cbn [fr_state fr_set_err].
  destruct Hinv as (He3 & Hinv). split_and!; [by split|done|].
  etransitivity; [exact Hs3|exact Hs1].
Qed.

(** *** The methods *)

Lemma unread_join r rest :
  unread r rest = join (fr_curChunk r :: remainingChunks r) (args_of (fg_chunks <$> rest)).
Proof. done. Qed.

(** The reader knows that the current argument has ended. *)
Definition at_eof r (rest : list fragment) : Prop :=
  fr_curChunk r = [] ∧ (remainingChunks r ≠ [] ∨ rest = []).

Lemma read_loop_spec fuel n out r rest d more :
  rinv r rest → unread r rest = d :: more → (length rest < fuel)%nat →
  ∃ r' rest', read_loop fuel n out r
    = Ret ((out ++ take n d, if decide (n <= length d)%nat then None else Some (io_EOF : error)), r')
  ∧ rinv r' rest' ∧ unread r' rest' = drop n d :: more ∧ fr_state r' = fr_state r
  ∧ (length rest' <= length rest)%nat ∧ ((length d < n)%nat → at_eof r' rest').
Proof.
  revert n out r rest d. induction fuel as [|fuel IH]; intros n out r rest d Hinv Hun Hfuel; [lia|].
  cbn [read_loop]. unfold copyChunk at 1. rewrite unread_join in Hun.
  set (r1 := fr_set_chunks (drop n (fr_curChunk r)) (remainingChunks r) r).
  erewrite (gost_bind_run _ _ _ (take n (fr_curChunk r)) r1) by reflexivity. run_step.
  assert (Hinv1 : rinv r1 rest) by exact Hinv. rewrite length_take.
  change (remainingChunks r1) with (remainingChunks r).
  change (hasMoreFragments r1) with (hasMoreFragments r).
  destruct (decide (n <= length (fr_curChunk r))%nat) as [Hn|Hn].
  { rewrite decide_True by lia. exists r1, rest.
    assert (∃ y, d = fr_curChunk r ++ y ∧ unread r1 rest = (drop n (fr_curChunk r) ++ y) :: more)
      as (y & -> & Hun1).
    { rewrite unread_join. cbn [fr_curChunk remainingChunks r1 fr_set_chunks].
      destruct (remainingChunks r) as [|k ks]; [destruct (args_of _) as [|y b]|];
        cbn [join] in Hun |- *; injection Hun as <- <-;
        [exists []|exists y|exists []]; by rewrite ?app_nil_r. }
    rewrite (decide_True (P := (n <= _)%nat)) by (rewrite length_app; lia).
    split; [by rewrite take_app_le|]. rewrite drop_app_le, length_app by done. by split_and!; [|..|lia]. }
  rewrite decide_False by lia. rewrite !(take_ge (fr_curChunk r)) by lia.
  assert (Hshort : ∀ e, (length d < n)%nat → d = fr_curChunk r →
    (remainingChunks r ≠ [] ∨ rest = []) → e = (out ++ fr_curChunk r, Some (io_EOF : error), r1) →
    ∃ r' rest', Ret e = Ret (out ++ take n d, if decide (n <= length d)%nat then None
                                           else Some (io_EOF : error), r')
    ∧ rinv r' rest' ∧ unread r' rest' = drop n d :: more ∧ fr_state r' = fr_state r
    ∧ (length rest' <= length rest)%nat ∧ ((length d < n)%nat → at_eof r' rest')).
  { intros e Hd -> Hend ->. exists r1, rest. rewrite decide_False, take_ge, drop_ge by lia.
    split_and!; [done|done| |done|lia|].
    - rewrite unread_join. unfold r1. cbn [fr_curChunk remainingChunks fr_set_chunks].
      rewrite drop_ge by lia.
      destruct (remainingChunks r) as [|k ks]; [destruct Hend as [?| ->]; [done|]|]; cbn in *; congruence.
    - intros _. split; [|done]. unfold r1. cbn. by rewrite drop_ge by lia. }
  destruct (remainingChunks r) as [|k ks] eqn:Erem.
  2:{ rewrite decide_True by (simpl; lia). apply Hshort; try done; cbn [join] in Hun; [|congruence|by left].
      injection Hun as <- <-. lia. }
  rewrite decide_False by (simpl; lia).
  pose proof Hinv1 as (He1 & Hin1 & (c & Hc & Hst & Hsz) & Hm & Hcur).
  change (hasMoreFragments r1) with (hasMoreFragments r) in Hm. rewrite Hm, negb_involutive.
  destruct rest as [|f l].
  { rewrite bool_decide_eq_true_2 by done. cbn in Hun. injection Hun as <- <-.
    apply Hshort; auto. lia. }
  rewrite bool_decide_eq_false_2 by done.
  destruct (nextFragment_spec r1 false c f l Hc He1 Hin1 Hst Hsz) as (r2 & H2 & Hinv2 & Hch & Hs2).
  run_with H2.
  assert (∃ y, unread r2 l = y :: more ∧ d = fr_curChunk r ++ y) as (y & Hun2 & ->).
  { assert (Hun' : join [fr_curChunk r] (unread r2 l) = d :: more).
    { unfold unread. rewrite Hch. exact Hun. }
    destruct (unread r2 l) as [|y b] eqn:E; [by apply join_cons_not_nil in E|].
    exists y. cbn [join] in Hun'. by injection Hun' as <- <-. }
  destruct (IH (n - length (fr_curChunk r))%nat (out ++ fr_curChunk r) r2 l y Hinv2 Hun2)
    as (r3 & rest' & H3 & Hinv3 & Hun3 & Hs3 & Hlen & Heof); [simpl in Hfuel; lia|].
  replace (n - Nat.min n (length (fr_curChunk r)))%nat with (n - length (fr_curChunk r))%nat by lia.
  exists r3, rest'. rewrite H3, <- app_assoc, take_app_ge, drop_app_ge, length_app by lia.
  split_and!; [|done|done|etransitivity; [exact Hs3|exact Hs2]|simpl; lia|intros ?; apply Heof; lia].
  do 3 f_equal. repeat case_decide; done || lia.
Qed.

Lemma Read_spec fuel n r rest d more :
  rinv r rest → unread r rest = d :: more → (length rest < fuel)%nat →
  isReadingArgument (fr_state r) = true →
  ∃ r' rest', reader_Read fuel n r
    = Ret ((take n d, if decide (n <= length d)%nat then None else Some (io_EOF : error)), r')
  ∧ rinv r' rest' ∧ unread r' rest' = drop n d :: more ∧ fr_state r' = fr_state r
  ∧ (length rest' <= length rest)%nat ∧ ((length d < n)%nat → at_eof r' rest').
Proof.
  intros Hinv Hun Hf Hs. unfold reader_Read. run_step. pose proof Hinv as (-> & _).
  rewrite Hs. by apply (read_loop_spec fuel n [] r rest d more).
Qed.

(** Ready to begin the argument at the head of [args]. *)
Definition ridle r (args : list bytes) (n : nat) : Prop :=
  (fr_state r = fragmentingReadStart ∧ fr_err r = None
   ∧ ∃ c f l, before r true c ∧ incoming (fr_receiver r) true (f :: l)
     ∧ stamped rmid_ok x00 true true c (f :: l) ∧ sized c ∧ args_of (fg_chunks <$> f :: l) = args
     ∧ n = length (f :: l))
  ∨ (fr_state r = fragmentingReadWaitingForArgument
     ∧ ∃ rest, rinv r rest ∧ unread r rest = args ∧ (length rest <= n)%nat).

Lemma reader_BeginArgument_spec r args n (last : bool) :
  ridle r args n →
  ∃ r' rest, reader_BeginArgument last r = Ret (None, r')
  ∧ rinv r' rest ∧ unread r' rest = args ∧ (length rest <= n)%nat
  ∧ fr_state r' = if last then fragmentingReadInLastArgument else fragmentingReadInArgument.
Proof.
  unfold reader_BeginArgument. run_step.
  intros [(Hs & He & c & f & l & Hb & Hin & Hst & Hsz & Hargs & ->)|(Hs & rest & Hinv & Hun & Hn)].
  - rewrite He, Hs. change (isReadingArgument fragmentingReadStart) with false. cbv iota.
    rewrite bool_decide_eq_false_2, bool_decide_eq_true_2 by done.
    destruct (nextFragment_spec r true c f l Hb He Hin Hst Hsz) as (r1 & H1 & Hinv & Hch & _).
    run_with H1. eexists _, l. split; [reflexivity|]. split_and!; [exact Hinv| |simpl; lia|done].
    unfold unread. cbn [fr_curChunk remainingChunks fr_set_state]. by rewrite Hch.
  - pose proof Hinv as (-> & _). rewrite Hs. eexists _, rest. split; [reflexivity|].
    by split_and!.
Qed.

Lemma reader_Close_spec r rest more :
  rinv r rest → at_eof r rest → unread r rest = [] :: more → more ≠ [] →
  fr_state r = fragmentingReadInArgument →
  ∃ r', reader_Close r = Ret (None, r') ∧ ridle r' more (length rest) ∧ fr_receiver r' = fr_receiver r.
Proof.
  intros Hinv [Hc Heof] Hun Hne Hs. unfold reader_Close. run_step. pose proof Hinv as (-> & _).
  rewrite Hs, Hc. change (negb (isReadingArgument fragmentingReadInArgument)) with false.
  rewrite bool_decide_eq_false_2, decide_False by (done || simpl; lia). cbv iota. run_step.
  rewrite unread_join, Hc in Hun. destruct (remainingChunks r) as [|k ks] eqn:E.
  { destruct Heof as [?| ->]; [done|]. cbn in Hun. congruence. }
  eexists. split; [reflexivity|]. split; [|done]. right. split; [done|]. exists rest.
  split_and!; [exact Hinv| |lia].
  rewrite unread_join. cbn [fr_curChunk remainingChunks fr_set_chunks fr_set_state].
  rewrite join_cons in Hun. by injection Hun.
Qed.

Lemma doneReading_run r e :
  ∃ r', reader_doneReading e r = Ret (tt, r') ∧ fr_curFragment r' = fr_curFragment r
  ∧ fr_state r' = fr_state r ∧ fr_receiver r' = (doneReading e (fr_receiver r)).2.
Proof. eexists. split; [reflexivity|]. cbn. by destruct (fr_checksum r). Qed.

Lemma reader_Close_last_spec r rest :
  rinv r rest → unread r rest = [[]] → at_eof r rest →
  fr_state r = fragmentingReadInLastArgument →
  ∃ r', reader_Close r = Ret (None, r') ∧ fr_state r' = fragmentingReadComplete
  ∧ incoming (fr_receiver r') false [].
Proof.
  intros Hinv Hun [Hc Heof] Hs. unfold reader_Close. run_step.
  pose proof Hinv as (-> & Hin & _ & Hm & (f & Hf)).
  rewrite unread_join, Hc in Hun. rewrite Hs, Hc. cbn [length].
  assert (remainingChunks r = [] ∧ rest = []) as [Hr ->].
  { destruct (remainingChunks r) as [|k ks] eqn:E.
    - split; [done|]. by destruct Heof.
    - rewrite join_cons in Hun. injection Hun as Hun. by apply join_cons_not_nil in Hun. }
  change (negb (isReadingArgument fragmentingReadInLastArgument)) with false.
  rewrite Hr, Hm, decide_False by lia.
  rewrite (bool_decide_eq_true_2 (fragmentingReadInLastArgument = _)) by done.
  rewrite (bool_decide_eq_false_2 (0 < _)%nat) by (simpl; lia).
  rewrite (bool_decide_eq_true_2 ([] = [])) by done. cbv [negb orb].
  destruct (doneReading_run r None) as (r1 & H1 & Hcur & _ & Hrec). rewrite Hf in Hcur. run_with H1.
  run_with (doneCurrent_run r1 f Hcur). eexists. split_and!; [reflexivity..|]. cbn.
  apply (good_doneReading _ _ _ None) in Hin. rewrite <- Hrec in Hin.
  unfold fragment_done. destruct (isDone _ _); [exact Hin|by apply good_release].
Qed.

(** *** A client that reads a whole message

    An argument is read with buffers of the given sizes until the reader reports
    its end, then closed. *)

Fixpoint read_all (fuel : nat) (sizes : list nat) (acc : bytes)
    : GO (fragmentingReader R) (bytes * option error) :=
  match sizes with
  | [] => mret (acc, None)
  | n :: sizes =>
      '(b, err) ← reader_Read fuel n;
      match err with
      | None => read_all fuel sizes (acc ++ b)
      | Some e => mret (acc ++ b, Some e)
      end
  end.

Fixpoint read_args (fuel : nat) (sizes : list (list nat)) : GO (fragmentingReader R) (option (list bytes)) :=
  match sizes with
  | [] => mret (Some [])
  | ns :: sizes =>
      err ← reader_ArgReader (bool_decide (sizes = []));
      match err with
      | Some _ => mret None
      | None =>
          '(b, err) ← read_all fuel ns [];
          if decide (err = Some (io_EOF : error)) then
            err ← reader_Close;
            match err with
            | Some _ => mret None
            | None => bs ← read_args fuel sizes; mret (cons b <$> bs)
            end
          else mret None
      end
  end.

Lemma read_all_spec fuel sizes acc r rest d more :
  rinv r rest → unread r rest = d :: more → (length rest < fuel)%nat →
  isReadingArgument (fr_state r) = true → (length d < sum_list sizes)%nat →
  ∃ r' rest', read_all fuel sizes acc r = Ret ((acc ++ d, Some (io_EOF : error)), r')
  ∧ rinv r' rest' ∧ unread r' rest' = [] :: more ∧ at_eof r' rest' ∧ fr_state r' = fr_state r
  ∧ (length rest' <= length rest)%nat.
Proof.
  revert acc r rest d. induction sizes as [|n sizes IH]; intros acc r rest d Hinv Hun Hf Hs Hsz.
  { simpl in Hsz. lia. }
  cbn [read_all]. destruct (Read_spec fuel n _ _ _ _ Hinv Hun Hf Hs)
    as (r1 & rest1 & H1 & Hinv1 & Hun1 & Hs1 & Hl1 & Heof). run_with H1.
  case_decide as Hn.
  - destruct (IH (acc ++ take n d) r1 rest1 (drop n d) Hinv1 Hun1)
      as (r2 & rest2 & H2 & Hinv2 & Hun2 & Heof2 & Hs2 & Hl2).
    + lia.
    + by rewrite Hs1.
    + rewrite length_drop. cbn in Hsz. lia.
    + exists r2, rest2. rewrite H2, <- app_assoc, take_drop. split_and!; (done || congruence || lia).
  - rewrite take_ge, drop_ge in * by lia. exists r1, rest1. split_and!; try done.
    apply Heof. lia.
Qed.

Lemma read_args_spec fuel r args n sizes :
  ridle r args n → (n < fuel)%nat →
  Forall2 (λ ns d, (length d < sum_list ns)%nat) sizes args →
  ∃ r', read_args fuel sizes r = Ret (Some args, r').
Proof.
  intros Hidle Hfuel Hsz. revert r n Hidle Hfuel.
  induction Hsz as [|ns d sizes args Hd Hsz IH]; intros r n Hidle Hfuel; [by exists r|].
  cbn [read_args]. destruct (reader_BeginArgument_spec r _ n (bool_decide (sizes = [])) Hidle)
    as (r1 & rest & H1 & Hinv1 & Hun1 & Hl1 & Hs1). run_with H1.
  destruct (read_all_spec fuel ns [] r1 rest d args Hinv1 Hun1)
    as (r2 & rest2 & H2 & Hinv2 & Hun2 & Heof & Hs2 & Hl2); [lia|by rewrite Hs1; case_bool_decide|done|].
  run_with H2. rewrite decide_True by done.
  destruct Hsz as [|ns' d' sizes args Hd' Hsz].
  - destruct (reader_Close_last_spec r2 rest2 Hinv2 Hun2 Heof) as (r3 & H3 & _).
    { rewrite Hs2, Hs1. done. }
    run_with H3. by exists r3.
  - destruct (reader_Close_spec r2 rest2 _ Hinv2 Heof Hun2) as (r3 & H3 & Hidle3 & _); [done|by rewrite Hs2, Hs1|].
    run_with H3. destruct (IH r3 _ Hidle3) as (r4 & H4); [lia|]. run_with H4. by exists r4.
Qed.
End reader_correct.

(** ** Whatever the peer sends *)

(** The loop over chunks ends within the fuel the model gives it, and the checksum
    covers the chunks it returns. *)
Lemma split_chunks_total fuel rb chunks cs :
  (r_BytesRemaining rb < fuel)%nat →
  ∃ err rb' new, split_chunks fuel rb chunks cs = Ret (err, rb', chunks ++ new, AddState (concat new) cs).
Proof.
  revert rb chunks cs. induction fuel as [|fuel IH]; intros rb chunks cs Hfuel; [lia|].
  assert (Hstop : ∀ (e : option error) (rb' : ReadBuffer), ∃ err rb'' new, Ret (e, rb', chunks, cs)
    = Ret (err, rb'', chunks ++ new, AddState (concat new) cs)).
  { intros e rb'. exists e, rb', []. by rewrite app_nil_r, AddState_nil. }
  cbn [split_chunks]. case_decide as Hpos; [|apply Hstop].
  destruct rb as [n rem [e|]]; cbn [r_err]; [apply Hstop|].
  unfold r_BytesRemaining, r_Remaining in *. cbn [r_remaining] in *.
  unfold ReadUint16, mbind, st_bind, mret, st_ret.
  unfold ReadBytes at 1. cbn [r_err r_remaining initialLength]. case_decide as H2.
  - cbn. case_decide; [apply Hstop|]. rewrite AddState_nil.
    assert (Hend : ∀ fuel ch, split_chunks fuel (mkReadBuffer n rem (Some (ErrEOF : error))) ch cs
      = Ret (None, mkReadBuffer n rem (Some (ErrEOF : error)), ch, cs)).
    { intros [|fuel'] ch; cbn [split_chunks]; by case_decide. }
    rewrite Hend. exists None, (mkReadBuffer n rem (Some (ErrEOF : error))), [[]].
    cbn. by rewrite AddState_nil.
  - cbn [r_remaining]. case_decide; [apply Hstop|].
    match goal with |- context [let '(_, _) := ReadBytes ?k ?b in _] =>
      destruct (ReadBytes_rsafe k b) as (pre & Hpre & _); destruct (ReadBytes k b) as [d rb'] end.
    cbn [snd r_remaining] in Hpre.
    destruct (IH rb' (chunks ++ [default [] d]) (Add (default [] d) cs).2) as (err & rb'' & new & ->).
    { apply (f_equal length) in Hpre. rewrite length_app, length_drop in Hpre.
      unfold r_BytesRemaining, r_Remaining. lia. }
    exists err, rb'', (default [] d :: new). rewrite <- app_assoc. cbn [Add snd concat].
    by rewrite AddState_app.
Qed.

Section any_peer.
Context {R : Type} `{fragmentReceiver R}.
Implicit Types r : fragmentingReader R.

(** A receiver in a state [I], which it keeps, reports an error, delivers a
    fragment or waits, and does not panic. *)
Record receiver_total (I : R → Prop) : Prop := {
  total_recv : ∀ b x, I x →
    match recvNextFragment b x with
    | Ret ((f, e), x') => I x' ∧ (e = None → is_Some f)
    | Panic => False
    | OutOfFuel => True
    end;
  total_doneReading : ∀ e x, I x → I (doneReading e x).2;
  total_release : ∀ n x, I x → I (set_isDone n (onDone n x))
}.

Context (I : R → Prop).
Hypothesis Hrecv : receiver_total I.

(** The receiver waits for a frame. *)
Definition waiting : Prop := ∃ b x, recvNextFragment b x = OutOfFuel.

(** [rtriple P m Q]: from [P], [m] does not panic; it ends in [Q] or waits for a
    frame. *)
Definition rtriple {A} (P : fragmentingReader R → Prop) (m : GO (fragmentingReader R) A)
    (Q : A → fragmentingReader R → Prop) : Prop :=
  ∀ r, P r → match m r with Ret (a, r') => Q a r' | Panic => False | OutOfFuel => waiting end.

Lemma rtriple_bind {A B} P (m : GO (fragmentingReader R) A) (f : A → GO (fragmentingReader R) B) Q T :
  rtriple P m Q → (∀ a, rtriple (Q a) (f a) T) → rtriple P (m ≫= f) T.
Proof.
  intros Hm Hf r Hr. unfold mbind, gost_bind. specialize (Hm r Hr).
  destruct (m r) as [[a r']| |]; [by apply Hf|done|done].
Qed.

Lemma rtriple_weaken {A} (P P' : fragmentingReader R → Prop) (m : GO (fragmentingReader R) A) Q :
  (∀ r, P r → P' r) → rtriple P' m Q → rtriple P m Q.
Proof. intros HP Hm r Hr. by apply Hm, HP. Qed.

(** The checksum a fragment of type [t] continues. *)
Definition running r (t : byte) : Checksum :=
  match fr_checksum r with
  | Some c => c
  | None => (New t (fr_choice r) (fr_pools r)).1
  end.

(** What a fragment has to satisfy for the reader to deliver its data. *)
Definition verified r (r' : fragmentingReader R) : Prop :=
  ∃ f, fr_curFragment r' = Some f
  ∧ fr_checksum r' = Some (AddState (concat (fr_curChunk r' :: remainingChunks r'))
                             (running r (rf_checksumType f)))
  ∧ rf_checksum f = Sum (AddState (concat (fr_curChunk r' :: remainingChunks r'))
                             (running r (rf_checksumType f)))
  ∧ (∀ c, fr_checksum r = Some c → rf_checksumType f = TypeCode c).

Lemma parseFragment_sound r0 f :
  rtriple (λ r, fr_checksum r = fr_checksum r0 ∧ fr_choice r = fr_choice r0 ∧ fr_pools r = fr_pools r0
               ∧ fr_state r = fr_state r0 ∧ I (fr_receiver r))
    (parseFragment f)
    (λ err r', (fr_state r' = fr_state r0 ∧ I (fr_receiver r')) ∧ (err = None → verified r0 r')).
Proof.
  intros r (Hcs & Hch & Hps & Hst & HI). unfold parseFragment.
  set (c := running r0 (rf_checksumType f)).
  assert (Hadopt : (∃ c1, fr_checksum r0 = Some c1 ∧ TypeCode c1 ≠ rf_checksumType f
      ∧ adoptChecksum (rf_checksumType f) r = Ret (None, r))
    ∨ ((∀ c1, fr_checksum r0 = Some c1 → rf_checksumType f = TypeCode c1)
       ∧ ∃ r1, adoptChecksum (rf_checksumType f) r = Ret (Some c, r1) ∧ fr_state r1 = fr_state r0
          ∧ fr_receiver r1 = fr_receiver r)).
  { unfold adoptChecksum, c, running. rewrite (gost_bind_run _ gget r r r) by done.
    rewrite Hcs. destruct (fr_checksum r0) as [c1|].
    - case_decide as Ht; [right|left; by eexists]. split; [by intros ? [= <-]|]. by exists r.
    - right. split; [done|]. rewrite Hch, Hps. destruct (New _ _ _) as [c' ps'].
      eexists. split; [reflexivity|]. split; done. }
  destruct Hadopt as [(c1 & _ & _ & Ha)|(Htype & r1 & Ha & Hs1 & Hrc)]; run_with Ha; [done|].
  rewrite <- Hrc in HI.
  run_step.
  destruct (split_chunks_total (S (r_BytesRemaining (rf_contents f))) (rf_contents f) [] c ltac:(lia))
    as (err & rb & new & ->). run_step.
  destruct err as [e|]; [done|]. destruct (r_err rb) as [e|]; [done|].
  cbn [app]. case_decide as Hsum; [|done]. destruct new as [|k ks]; [done|].
  cbn. split; [done|]. intros _. exists (set_rf_contents rb f). split_and!; done.
Qed.

Lemma recvAndParse_sound r0 initial :
  rtriple (λ r, r = r0 ∧ fr_err r0 = None ∧ I (fr_receiver r0)) (recvAndParseNextFragment initial)
    (λ err r', (fr_state r' = fr_state r0 ∧ I (fr_receiver r')) ∧ (err = None → verified r0 r')).
Proof.
  intros r (-> & He & HI). unfold recvAndParseNextFragment. run_step. rewrite He.
  set (r1 := match fr_curFragment r0 with
             | Some g => fr_set_receiver (fragment_done g (fr_receiver r0)) r0 | None => r0 end).
  erewrite (gost_bind_run _ _ _ tt r1).
  2:{ unfold r1. destruct (fr_curFragment r0) eqn:E; [by rewrite (doneCurrent_run _ _ E)|done]. }
  assert (H1 : fr_checksum r1 = fr_checksum r0 ∧ fr_choice r1 = fr_choice r0
    ∧ fr_pools r1 = fr_pools r0 ∧ fr_state r1 = fr_state r0) by (unfold r1; by destruct (fr_curFragment r0)).
  assert (HI1 : I (fr_receiver r1)).
  { unfold r1. destruct (fr_curFragment r0); [|done]. cbn. unfold fragment_done.
    destruct (isDone _ _); [done|by apply total_release]. }
  unfold onReceiver at 1, mbind at 1, gost_bind at 1.
  pose proof (total_recv I Hrecv initial (fr_receiver r1) HI1) as Hr.
  destruct (recvNextFragment initial (fr_receiver r1)) as [[[f err] x]| |] eqn:E; [|done|by eexists _, _].
  destruct Hr as [HI2 Hsome].
  run_step. destruct err as [e|].
  - destruct e as [| |m| | | | |]; try (split; [split; [apply H1|exact HI2]|done]). run_step.
    match goal with |- context [mbind _ (reader_doneReading ?e) ?r] =>
      destruct (doneReading_run r e) as (r2 & H2 & _ & Hs2 & Hrc) end.
    run_with H2. split; [|done]. rewrite Hs2, Hrc. split; [apply H1|]. by apply total_doneReading.
  - destruct (Hsome eq_refl) as [f' ->]. apply (parseFragment_sound r0 f'). by split_and!; try apply H1.
Qed.

(** C2: the reader delivers the data of a fragment only if the fragment's checksum
    type is that of the message and its checksum is the checksum of all the data
    of the message up to and including this fragment; otherwise the error is kept
    and every later call returns it. *)
Theorem nextFragment_verified initial r :
  fr_err r = None → I (fr_receiver r) →
  match nextFragment initial r with
  | Ret (None, r') => fr_err r' = None ∧ verified r r'
  | Ret (Some e, r') => fr_err r' = Some e
      ∧ (∀ last, reader_BeginArgument last r' = Ret (Some e, r'))
      ∧ (∀ fuel n, reader_Read fuel n r' = Ret (([], Some e), r'))
      ∧ reader_Close r' = Ret (Some e, r')
  | Panic => False
  | OutOfFuel => waiting
  end.
Proof.
  intros He HI. pose proof (recvAndParse_sound r initial r (conj eq_refl (conj He HI))) as Hs.
  unfold nextFragment, mbind, gost_bind. destruct (recvAndParseNextFragment initial r) as [[err r1]| |]; [|done|done].
  cbn. destruct err as [e|]; [by split_and!|]. split; [done|]. by apply Hs.
Qed.

(** *** No panic *)

(** Past the first fragment, and without an error, there is a current fragment. *)
Definition reader_safe r : Prop :=
  I (fr_receiver r)
  ∧ (fr_err r = None → fr_state r ≠ fragmentingReadStart → is_Some (fr_curFragment r)).

Lemma nextFragment_safe r0 initial :
  rtriple (λ r, r = r0 ∧ fr_err r0 = None ∧ I (fr_receiver r0)) (nextFragment initial)
    (λ err r', fr_state r' = fr_state r0 ∧ I (fr_receiver r') ∧ fr_err r' = err ∧ (err = None → is_Some (fr_curFragment r'))).
Proof.
  intros r (-> & He & HI). pose proof (recvAndParse_sound r0 initial r0 (conj eq_refl (conj He HI))) as Hs.
  unfold nextFragment, mbind, gost_bind.
  destruct (recvAndParseNextFragment initial r0) as [[err r1]| |]; [|done|done].
  destruct Hs as [[Hst HI'] Hv]. cbn. split_and!; [done|done|done|]. intros Hn.
  destruct (Hv Hn) as (f & -> & _). by eexists.
Qed.

Lemma safe_with_fragment r : I (fr_receiver r) → is_Some (fr_curFragment r) → reader_safe r.
Proof. by split. Qed.
Lemma safe_with_error r e : I (fr_receiver r) → fr_err r = Some e → reader_safe r.
Proof. intros HI He. split; [done|]. congruence. Qed.

Lemma BeginArgument_safe last r : reader_safe r →
  match reader_BeginArgument last r with
  | Ret (_, r') => reader_safe r' | Panic => False | OutOfFuel => waiting end.
Proof.
  intros Hs. pose proof Hs as [HI Hf]. unfold reader_BeginArgument. run_step.
  destruct (fr_err r) eqn:He; [exact Hs|].
  destruct (isReadingArgument _); [by eapply safe_with_error|].
  case_bool_decide; [by eapply safe_with_error|]. case_bool_decide as Hst.
  - pose proof (nextFragment_safe r true r (conj eq_refl (conj He HI))) as Hn.
    unfold mbind at 1, gost_bind at 1. destruct (nextFragment true r) as [[err r1]| |]; [|done|done].
    destruct Hn as (Hs1 & HI1 & He1 & Hc1). destruct err as [e|].
    + by eapply safe_with_error.
    + apply safe_with_fragment; [exact HI1|by apply Hc1].
  - run_step. apply safe_with_fragment; [exact HI|]. by apply Hf.
Qed.

Lemma read_loop_safe fuel n out r : I (fr_receiver r) → fr_err r = None → is_Some (fr_curFragment r) →
  match read_loop fuel n out r with
  | Ret (_, r') => reader_safe r' | Panic => False | OutOfFuel => True end.
Proof.
  revert n out r. induction fuel as [|fuel IH]; intros n out r HI He Hc; [done|]. cbn [read_loop].
  unfold copyChunk at 1. set (r1 := fr_set_chunks (drop n (fr_curChunk r)) (remainingChunks r) r).
  erewrite (gost_bind_run _ _ _ (take n (fr_curChunk r)) r1) by reflexivity. run_step.
  assert (Hs1 : reader_safe r1) by (by apply safe_with_fragment).
  case_decide; [done|]. case_decide; [done|]. destruct (hasMoreFragments r1); [|done]. cbn [negb].
  pose proof (nextFragment_safe r1 false r1 (conj eq_refl (conj He HI))) as Hn.
  unfold mbind at 1, gost_bind at 1. destruct (nextFragment false r1) as [[err r2]| |]; [|done|done].
  destruct Hn as (Hs2 & HI2 & He2 & Hc2). destruct err as [e|]; [by eapply safe_with_error|].
  apply IH; [done|done|by apply Hc2].
Qed.

Lemma reading_not_start r : isReadingArgument (fr_state r) = true → fr_state r ≠ fragmentingReadStart.
Proof. by destruct (fr_state r). Qed.

Lemma Read_safe fuel n r : reader_safe r →
  match reader_Read fuel n r with
  | Ret (_, r') => reader_safe r' | Panic => False | OutOfFuel => True end.
Proof.
  intros Hs. pose proof Hs as [HI Hf]. unfold reader_Read. run_step.
  destruct (fr_err r) eqn:He; [exact Hs|].
  destruct (isReadingArgument _) eqn:Hr; cbn [negb]; [|by eapply safe_with_error].
  apply read_loop_safe; [done|done|]. by apply Hf, reading_not_start.
Qed.

Lemma Close_safe r : reader_safe r →
  match reader_Close r with
  | Ret (_, r') => reader_safe r' | Panic => False | OutOfFuel => waiting end.
Proof.
  intros Hs. pose proof Hs as [HI Hf]. unfold reader_Close. run_step.
  destruct (fr_err r) eqn:He; [exact Hs|].
  destruct (isReadingArgument _) eqn:Hr; cbn [negb]; [|by eapply safe_with_error].
  apply reading_not_start in Hr. destruct (Hf eq_refl Hr) as (f & Hcur).
  case_decide; [by eapply safe_with_error|]. destruct (bool_decide _).
  - destruct (_ || _); [by eapply safe_with_error|].
    destruct (doneReading_run r None) as (r1 & H1 & Hc & _ & Hrc).
    run_with H1. rewrite Hcur in Hc. run_with (doneCurrent_run r1 f Hc).
    apply safe_with_fragment; [|by cbn; rewrite Hc]. cbn. unfold fragment_done. rewrite Hrc.
    pose proof (total_doneReading I Hrecv None _ HI).
    destruct (isDone _ _); [done|by apply total_release].
  - run_step. destruct (remainingChunks r).
    + destruct (hasMoreFragments r); cbn [negb]; [|by eapply safe_with_error].
      set (r1 := fr_set_state _ r).
      pose proof (nextFragment_safe r1 false r1 (conj eq_refl (conj He HI))) as Hn.
      destruct (nextFragment false r1) as [[err r2]| |]; [|done|done].
      destruct Hn as (_ & HI2 & He2 & Hc2). split; [done|]. intros Hn _. apply Hc2. congruence.
    + run_step. apply safe_with_fragment; [done|]. by eexists.
Qed.

(** A client that calls the methods in any order, ignoring errors. *)
Inductive reader_op := RBegin (last : bool) | RRead (fuel n : nat) | RClose.

Definition run_reader_op (o : reader_op) : GO (fragmentingReader R) unit :=
  match o with
  | RBegin last => _ ← reader_BeginArgument last; mret tt
  | RRead fuel n => _ ← reader_Read fuel n; mret tt
  | RClose => _ ← reader_Close; mret tt
  end.

Fixpoint run_reader_ops (ops : list reader_op) : GO (fragmentingReader R) unit :=
  match ops with
  | [] => mret tt
  | o :: ops => _ ← run_reader_op o; run_reader_ops ops
  end.

(** C32: whatever fragments the peer sends and in whatever order the methods are
    called, the reader does not panic. *)
Theorem reader_never_panics ops x ps choice :
  I x → run_reader_ops ops (newFragmentingReader x ps choice) ≠ Panic.
Proof.
  intros HI. assert (Hs : reader_safe (newFragmentingReader x ps choice)).
  { split; [exact HI|]. intros _ Hst. by destruct Hst. }
  revert Hs. generalize (newFragmentingReader x ps choice).
  induction ops as [|o ops IH]; intros r Hs; [done|]. cbn [run_reader_ops].
  assert (Ho : match run_reader_op o r with Ret (_, r') => reader_safe r' | Panic => False | OutOfFuel => True end).
  { destruct o as [last|fuel n|]; cbn [run_reader_op]; unfold mbind, gost_bind.
    - pose proof (BeginArgument_safe last r Hs). by destruct (reader_BeginArgument last r) as [[]| |].
    - pose proof (Read_safe fuel n r Hs). by destruct (reader_Read fuel n r) as [[]| |].
    - pose proof (Close_safe r Hs). by destruct (reader_Close r) as [[]| |]. }
  unfold mbind, gost_bind. destruct (run_reader_op o r) as [[]| |]; [by apply IH|done|done].
Qed.
End any_peer.

(** ** Two behaviours worth knowing *)

(** A receiver over a list of fragments. *)
Definition queue_receiver : fragmentReceiver (list readableFragment) := {|
  recvNextFragment _ l := match l with
                          | [] => OutOfFuel
                          | f :: l => Ret ((Some f, None), l)
                          end;
  doneReading _ l := (tt, l);
  isDone _ _ := false;
  set_isDone _ l := l;
  onDone _ l := l
|}.

Definition plain_fragment (flags : byte) (chunks : list bytes) : readableFragment :=
  mkReadableFragment 0 flags ChecksumTypeNone [] (NewReadBuffer (chunks_enc chunks)).

(** Close fetches the next fragment when the current one is used up, but does not
    step over the empty chunk that ends the argument.  A caller that reads exactly
    the bytes of an argument that ends with its fragment, and closes without having
    seen io.EOF, finds the next argument empty. *)
Example close_before_eof :
  let frags := [[str "ab"]; [[]; str "cd"]] in
  let _ := queue_receiver in
  let run : GO (fragmentingReader (list readableFragment)) _ :=
    e1 ← reader_BeginArgument false;
    d1 ← reader_Read 5 2;
    e2 ← reader_Close;
    e3 ← reader_BeginArgument true;
    d2 ← reader_Read 5 10;
    mret (e1, d1, e2, e3, d2) in
  args_of frags = [str "ab"; str "cd"]
  ∧ ∃ r', run (newFragmentingReader
            [plain_fragment x01 [str "ab"]; plain_fragment x00 [[]; str "cd"]] emptyPools None)
          = Ret ((None, (str "ab", None), None, None, ([], Some (io_EOF : error))), r').
Proof. split; [reflexivity|]. eexists. vm_compute. reflexivity. Qed.

(** The checksum object of type Farmhash is the null checksum, so that no fragment
    with a Farmhash checksum (of 4 bytes) is accepted. *)
Example farmhash_rejected b1 b2 b3 b4 chunk :
  let _ := queue_receiver in
  ∃ r', nextFragment true (newFragmentingReader
      [mkReadableFragment 0 x00 ChecksumTypeFarmhash [b1; b2; b3; b4]
         (NewReadBuffer (chunks_enc [[chunk]]))] emptyPools None)
    = Ret (Some (errMismatchedChecksums : error), r').
Proof. eexists. vm_compute. reflexivity. Qed.

(** The reader over this receiver, on a corrupted message. *)
Lemma nextFragment_verified_witness :
  let _ := queue_receiver in
  let r := newFragmentingReader [mkReadableFragment 0 x00 ChecksumTypeCrc32 (replicate 4 x00)
             (NewReadBuffer (chunks_enc [str "abc"]))] emptyPools None in
  match nextFragment true r with
  | Ret (None, r') => fr_err r' = None ∧ verified r r'
  | Ret (Some e, r') => fr_err r' = Some e
  | _ => False
  end.
Proof.
  intros Q r. assert (HT : receiver_total (λ _ : list readableFragment, True)).
  { split; [|done|done]. intros b [|f l] _; cbn; [done|]. split; [done|]. by eexists. }
  pose proof (nextFragment_verified (λ _, True) HT true r eq_refl Logic.I) as H. revert H.
  destruct (nextFragment true r) as [[[e|] r']| |] eqn:E.
  - intros H. exact (proj1 H).
  - intros H. exact H.
  - intros H. exact H.
  - vm_compute in E. discriminate E.
Defined.
