(* ===== verification/Mex.v ===== *)
(** * Message exchanges (mex.go)

    A message exchange connects the frames of one call to the goroutine that
    handles it.  Exchanges are shared objects: they live in a heap and the set
    maps message ids to references.  What another goroutine can change while a
    method runs is an argument of the method: the state of the context at the time
    of a select, and the case the select takes among those that are ready
    ([None]: that case is not ready, the goroutine waits).

    The callbacks onAdded and onRemoved of a set are recorded in its log; the
    connection runs them (Connection.v). *)

From S2P Require Import Prelude Errors Buffer Frame Messages.

Definition mexChannelBufferSize : nat := 2.
Definition errMexChannelFull : error :=
  NewSystemError ErrCodeBusy (str "cannot send frame to message exchange channel").

(** ** errNotifier: closing [c] is setting the error *)

Record errNotifier := mkErrNotifier {
  en_c : bool;
  en_err : option error;
  notified : bool
}.

Definition newErrNotifier : errNotifier := mkErrNotifier false None false.

Definition Notify (err : option error) (e : errNotifier) : go (option error * errNotifier) :=
  match err with
  | None => Panic
  | Some err =>
      if notified e then
        Ret (Some (otherError (str "cannot broadcast error: " ++ Error err
               ++ str ", already have: " ++ default (str "<nil>") (Error <$> en_err e))), e)
      else Ret (None, mkErrNotifier true (Some err) true)
  end.

Definition checkErr (e : errNotifier) : option error := if en_c e then en_err e else None.

(** ** messageExchange *)

(** [mx_ctx] is what the context's Err returns. *)
Record messageExchange := mkMex {
  recvCh : list Frame;
  recvCap : nat;
  errCh : errNotifier;
  mx_ctx : option sentinel;
  msgID : Z;
  msgType : byte;
  shutdownAtomic : bool;
  errChNotified : bool
}.

Definition mex_set_recvCh (ch : list Frame) (m : messageExchange) : messageExchange :=
  mkMex ch (recvCap m) (errCh m) (mx_ctx m) (msgID m) (msgType m) (shutdownAtomic m) (errChNotified m).
Definition mex_set_errCh (e : errNotifier) (m : messageExchange) : messageExchange :=
  mkMex (recvCh m) (recvCap m) e (mx_ctx m) (msgID m) (msgType m) (shutdownAtomic m) true.
Definition mex_set_shutdown (m : messageExchange) : messageExchange :=
  mkMex (recvCh m) (recvCap m) (errCh m) (mx_ctx m) (msgID m) (msgType m) true (errChNotified m).
Definition mex_set_ctx (c : option sentinel) (m : messageExchange) : messageExchange :=
  mkMex (recvCh m) (recvCap m) (errCh m) c (msgID m) (msgType m) (shutdownAtomic m) (errChNotified m).

Definition ctxError (c : sentinel) : error := GetContextError (Sentinel c).

Definition checkError (m : messageExchange) : option error :=
  match mx_ctx m with
  | Some e => Some (ctxError e)
  | None => checkErr (errCh m)
  end.

Inductive pick := pickFrame | pickCtx | pickErr.

(** [mex.recvCh <- frame] when there is room in the buffer. *)
Definition offer (frame : Frame) (m : messageExchange) : option messageExchange :=
  if decide (length (recvCh m) < recvCap m)%nat
  then Some (mex_set_recvCh (recvCh m ++ [frame]) m) else None.

(** [ctx'] is the context's error when the select runs. *)
Definition mex_forwardPeerFrame (ctx' : option sentinel) (p : pick) (frame : Frame)
    (m : messageExchange) : option (option error * messageExchange) :=
  match mx_ctx m with
  | Some e => Some (Some (ctxError e), m)
  | None =>
      match p with
      | pickFrame => m ← offer frame m; Some (None, m)
      | pickCtx => e ← ctx'; Some (Some (ctxError e), mex_set_ctx (Some e) m)
      | pickErr =>
          if en_c (errCh m) then
            match offer frame m with
            | Some m => Some (None, m)
            | None => Some (en_err (errCh m), m)
            end
          else None
      end
  end.

Definition checkFrame (frame : Frame) (m : messageExchange) : option error :=
  if decide (ID (Header frame) = msgID m) then None else Some (errUnexpectedFrameType : error).

(** Taking a frame out of recvCh and checking it. *)
Definition takeFrame (m : messageExchange) : option (option Frame * option error * messageExchange) :=
  match recvCh m with
  | [] => None
  | frame :: rest =>
      let m := mex_set_recvCh rest m in
      Some (match checkFrame frame m with
            | Some e => (None, Some e, m)
            | None => (Some frame, None, m)
            end)
  end.

Definition recvPeerFrame (ctx' : option sentinel) (p : pick) (m : messageExchange)
    : option (option Frame * option error * messageExchange) :=
  match mx_ctx m with
  | Some e => Some (None, Some (ctxError e), m)
  | None =>
      match p with
      | pickFrame => takeFrame m
      | pickCtx => e ← ctx'; Some (None, Some (ctxError e), mex_set_ctx (Some e) m)
      | pickErr =>
          if en_c (errCh m) then
            match takeFrame m with
            | Some r => Some r
            | None => Some (None, en_err (errCh m), m)
            end
          else None
      end
  end.

(** The frame pool receives the error frame once it has been read. *)
Definition recvPeerFrameOfType (ctx' : option sentinel) (p : pick) (t : byte) (pool : FramePool)
    (m : messageExchange) : option (go (option Frame * option error * messageExchange * FramePool)) :=
  '(frame, err, m) ← recvPeerFrame ctx' p m;
  Some (match err, frame with
        | Some e, _ => Ret (None, Some e, m, pool)
        | None, None => Panic
        | None, Some frame =>
            if decide (MessageType (Header frame) = t) then Ret (Some frame, None, m, pool)
            else if decide (MessageType (Header frame) = messageTypeError) then
              sp ← SizedPayload frame;
              let '((errMsg, err), _) := errorMessage_read
                (mkErrorMessage (ID (Header frame)) x00 emptySpan [])
                (r_Wrap sp (NewReadBuffer [])) in
              let pool := FramePool_Release frame pool in
              match err with
              | Some e => Ret (None, Some e, m, pool)
              | None => Ret (None, Some (ErrorMessage errMsg), m, pool)
              end
            else Ret (None, Some (errUnexpectedFrameType : error), m, pool)
        end).

(** ** messageExchangeSet *)

Inductive callback := onAdded | onRemoved.

Record messageExchangeSet := mkMexSet {
  exchanges : gmap Z nat;
  expiredExchanges : gset Z;
  ms_shutdown : bool;
  heap : gmap nat messageExchange;
  callbacks : list callback
}.

Definition newMessageExchangeSet : messageExchangeSet := mkMexSet ∅ ∅ false ∅ [].

Definition call (cb : callback) (s : messageExchangeSet) : messageExchangeSet :=
  mkMexSet (exchanges s) (expiredExchanges s) (ms_shutdown s) (heap s) (callbacks s ++ [cb]).
Definition set_heap (h : gmap nat messageExchange) (s : messageExchangeSet) : messageExchangeSet :=
  mkMexSet (exchanges s) (expiredExchanges s) (ms_shutdown s) h (callbacks s).
Definition set_maps (ex : gmap Z nat) (old : gset Z) (s : messageExchangeSet) : messageExchangeSet :=
  mkMexSet ex old (ms_shutdown s) (heap s) (callbacks s).

Definition addExchange (ref : nat) (id : Z) (s : messageExchangeSet)
    : option error * messageExchangeSet :=
  if ms_shutdown s then (Some (errMexSetShutdown : error), s)
  else match exchanges s !! id with
       | Some _ => (Some (errDuplicateMex : error), s)
       | None => (None, set_maps (<[id:=ref]> (exchanges s)) (expiredExchanges s) s)
       end.

(** The new object is allocated at a fresh reference. *)
Definition newExchange (ctx : option sentinel) (t : byte) (id : Z) (bufferSize : nat)
    (s : messageExchangeSet) : (option nat * option error) * messageExchangeSet :=
  let mex := mkMex [] bufferSize newErrNotifier ctx id t false false in
  let ref := fresh (dom (heap s)) in
  match addExchange ref id s with
  | (Some e, s) => ((None, Some e), s)
  | (None, s) => ((Some ref, None), call onAdded (set_heap (<[ref:=mex]> (heap s)) s))
  end.

Definition deleteExchange (id : Z) (s : messageExchangeSet) : bool * bool * messageExchangeSet :=
  match exchanges s !! id with
  | Some _ => (true, false, set_maps (delete id (exchanges s)) (expiredExchanges s) s)
  | None =>
      if decide (id ∈ expiredExchanges s)
      then (false, true, set_maps (exchanges s) (expiredExchanges s ∖ {[id]}) s)
      else (false, false, s)
  end.

Definition removeExchange (id : Z) (s : messageExchangeSet) : messageExchangeSet :=
  let '(found, expired, s) := deleteExchange id s in
  if negb found && negb expired then s else call onRemoved s.

Definition expireExchange (id : Z) (s : messageExchangeSet) : messageExchangeSet :=
  let '(found, expired, s) := deleteExchange id s in
  let s := if found || expired
           then set_maps (exchanges s) ({[id]} ∪ expiredExchanges s) s else s in
  call onRemoved s.

Definition count (s : messageExchangeSet) : nat := size (exchanges s).

Definition set_forwardPeerFrame (ctx' : option sentinel) (p : pick) (frame : Frame)
    (s : messageExchangeSet) : option (option error * messageExchangeSet) :=
  match ref ← exchanges s !! ID (Header frame); (λ m, (ref, m)) <$> heap s !! ref with
  | None => Some (None, s)
  | Some (ref, m) =>
      '(err, m) ← mex_forwardPeerFrame ctx' p frame m;
      Some (err, set_heap (<[ref:=m]> (heap s)) s)
  end.

Definition copyExchanges (s : messageExchangeSet) : bool * gmap Z nat :=
  if ms_shutdown s then (true, ∅) else (false, exchanges s).

(** [if mex.errChNotified.CAS(false, true) { mex.errCh.Notify(err) }] *)
Definition notifyOnce (err : error) (m : messageExchange) : messageExchange :=
  if errChNotified m then m
  else match Notify (Some err) (errCh m) with
       | Ret (_, e) => mex_set_errCh e m
       | _ => m
       end.

Definition stopExchanges (err : error) (s : messageExchangeSet) : messageExchangeSet :=
  let '(shutdown, copied) := copyExchanges s in
  let s := mkMexSet (exchanges s) (expiredExchanges s) true (heap s) (callbacks s) in
  if shutdown then s
  else set_heap (foldr (λ ref h, alter (notifyOnce err) ref h) (heap s) (map_to_list copied).*2) s.

(** messageExchange.shutdown and messageExchange.inboundExpired. *)
Definition mex_shutdown (ref : nat) (s : messageExchangeSet) : messageExchangeSet :=
  match heap s !! ref with
  | None => s
  | Some m =>
      if shutdownAtomic m then s
      else
        let m := notifyOnce errMexShutdown (mex_set_shutdown m) in
        removeExchange (msgID m) (set_heap (<[ref:=m]> (heap s)) s)
  end.

Definition inboundExpired (ref : nat) (s : messageExchangeSet) : messageExchangeSet :=
  match heap s !! ref with
  | None => s
  | Some m => expireExchange (msgID m) s
  end.

(** ** Reachable states

    Message ids are meant not to be reused while a call is under way, but a set only
    refuses an id that is active: one that has expired, and whose handler still runs, is
    accepted again.  A run of a set records in [reused] the ids for which that happened;
    [id_reuse] below shows what it leads to. *)

Definition reuses (id : Z) (r : option nat * option error) (s : messageExchangeSet) (reused : gset Z) : gset Z :=
  if decide (r.2 = None ∧ id ∈ expiredExchanges s) then {[id]} ∪ reused else reused.

Inductive mexset_step : gset Z * messageExchangeSet → gset Z * messageExchangeSet → Prop :=
| step_new ctx t id n r R s s' :
    newExchange ctx t id n s = (r, s') → mexset_step (R, s) (reuses id r s R, s')
| step_forward ctx p frame r R s s' :
    set_forwardPeerFrame ctx p frame s = Some (r, s') → mexset_step (R, s) (R, s')
| step_recv ref m ctx p frame err m' R s :
    heap s !! ref = Some m → recvPeerFrame ctx p m = Some (frame, err, m') →
    mexset_step (R, s) (R, set_heap (<[ref:=m']> (heap s)) s)
| step_ctx ref m c R s :
    heap s !! ref = Some m → mexset_step (R, s) (R, set_heap (<[ref:=mex_set_ctx c m]> (heap s)) s)
| step_shutdown ref R s : mexset_step (R, s) (R, mex_shutdown ref s)
| step_expired ref R s : mexset_step (R, s) (R, inboundExpired ref s)
| step_stop err R s : mexset_step (R, s) (R, stopExchanges err s).

Abbreviation mexset_run R s := (rtc mexset_step (∅, newMessageExchangeSet) (R, s)).
Definition mexset_reachable (s : messageExchangeSet) : Prop := ∃ R, mexset_run R s.

(** The error notifier of an exchange is closed exactly when it has an error. *)
Definition err_ok (m : messageExchange) : Prop :=
  errChNotified m = notified (errCh m) ∧ en_c (errCh m) = notified (errCh m)
  ∧ (notified (errCh m) = true ↔ is_Some (en_err (errCh m)))
  ∧ (shutdownAtomic m = true → notified (errCh m) = true).

(** Of each id that has not been reused while it was expired at most one exchange is live,
    and the maps hold exactly the live ones. *)
Record mexset_inv (R : gset Z) (s : messageExchangeSet) : Prop := {
  inv_exchanges : ∀ id ref, exchanges s !! id = Some ref →
    ∃ m, heap s !! ref = Some m ∧ msgID m = id ∧ shutdownAtomic m = false;
  inv_expired : ∀ id, id ∈ expiredExchanges s → id ∉ R →
    exchanges s !! id = None
    ∧ ∃ ref m, heap s !! ref = Some m ∧ msgID m = id ∧ shutdownAtomic m = false;
  inv_live : ∀ ref m, heap s !! ref = Some m → shutdownAtomic m = false → msgID m ∉ R →
    exchanges s !! msgID m = Some ref ∨ msgID m ∈ expiredExchanges s;
  inv_unique : ∀ r1 r2 m1 m2, heap s !! r1 = Some m1 → heap s !! r2 = Some m2 →
    shutdownAtomic m1 = false → shutdownAtomic m2 = false → msgID m1 = msgID m2 → msgID m1 ∉ R → r1 = r2;
  inv_err : ∀ ref m, heap s !! ref = Some m → err_ok m
}.

(** [m'] is [m] with the same identity and the same life-cycle state. *)
Definition same_life (m m' : messageExchange) : Prop :=
  msgID m' = msgID m ∧ shutdownAtomic m' = shutdownAtomic m ∧ err_ok m'.

Lemma lookup_update (h : gmap nat messageExchange) ref m m' r x :
  h !! ref = Some m → same_life m m' → <[ref:=m']> h !! r = Some x →
  ∃ y, h !! r = Some y ∧ msgID x = msgID y ∧ shutdownAtomic x = shutdownAtomic y.
Proof.
  intros Hm (Hid & Hsd & _). rewrite lookup_insert. case_decide as Hr; [|eauto].
  subst r. intros [= <-]. eauto.
Qed.

(** Updates that keep identity and life cycle keep the invariant. *)
Lemma inv_update R s ref m m' :
  mexset_inv R s → heap s !! ref = Some m → same_life m m' →
  mexset_inv R (set_heap (<[ref:=m']> (heap s)) s).
Proof.
  intros [I1 I2 I3 I4 I5] Hm Hsame.
  assert (Hfwd : ∀ r y, heap s !! r = Some y → ∃ x, <[ref:=m']> (heap s) !! r = Some x
    ∧ msgID x = msgID y ∧ shutdownAtomic x = shutdownAtomic y).
  { intros r y Hy. rewrite lookup_insert. case_decide as Hr; [|eauto].
    subst r. simplify_eq. destruct Hsame as (? & ? & _). eauto. }
  pose proof (λ r x, lookup_update (heap s) ref m m' r x Hm Hsame) as Hbwd.
  split; cbn [exchanges expiredExchanges heap set_heap].
  - intros id r Hr. destruct (I1 id r Hr) as (y & Hy & Hi & Hs).
    destruct (Hfwd _ _ Hy) as (x & Hx & E1 & E2). exists x. split_and!; congruence.
  - intros id Hid HR. destruct (I2 id Hid HR) as (Hn & r & y & Hy & Hi & Hs). split; [done|].
    destruct (Hfwd _ _ Hy) as (x & Hx & E1 & E2). exists r, x. split_and!; congruence.
  - intros r x Hx Hs HR. destruct (Hbwd r x Hx) as (y & Hy & E1 & E2). rewrite E1 in *. apply I3; congruence.
  - intros r1 r2 x1 x2 H1 H2 S1 S2 He HR.
    destruct (Hbwd _ _ H1) as (y1 & Hy1 & E1 & F1), (Hbwd _ _ H2) as (y2 & Hy2 & E2 & F2).
    apply (I4 r1 r2 y1 y2); congruence.
  - intros r x. rewrite lookup_insert. case_decide as Hr; [|apply I5].
    intros [= <-]. apply Hsame.
Qed.

Lemma inv_callbacks R s cb : mexset_inv R s → mexset_inv R (call cb s).
Proof. by intros [I1 I2 I3 I4 I5]; split. Qed.

Lemma notifyOnce_life err m : err_ok m → same_life m (notifyOnce err m).
Proof.
  intros Hok. pose proof Hok as (H1 & _). unfold notifyOnce.
  destruct (errChNotified m) eqn:E; [by split_and!|].
  unfold Notify. rewrite <- H1. repeat split; try done.
Qed.

Lemma removeExchange_heap id s : heap (removeExchange id s) = heap s.
Proof.
  unfold removeExchange, deleteExchange. destruct (exchanges s !! id); [done|]. by case_decide.
Qed.

(** Removing the id of an exchange that has just been shut down. *)
Lemma inv_remove R s ref m m' :
  mexset_inv R s → heap s !! ref = Some m → shutdownAtomic m = false →
  msgID m' = msgID m → shutdownAtomic m' = true → err_ok m' →
  mexset_inv R (removeExchange (msgID m) (set_heap (<[ref:=m']> (heap s)) s)).
Proof.
  intros [I1 I2 I3 I4 I5] Hm Hlive Hid Hsd Herr.
  assert (Hother : ∀ r x, <[ref:=m']> (heap s) !! r = Some x → shutdownAtomic x = false →
    r ≠ ref ∧ heap s !! r = Some x).
  { intros r x. rewrite lookup_insert. case_decide as Hr; [intros [= <-]; congruence|]. done. }
  assert (Hsame : ∀ r x, heap s !! r = Some x → shutdownAtomic x = false → msgID x = msgID m → msgID m ∉ R → r = ref).
  { intros r x Hx Hs Hi HR. by apply (I4 r ref x m); try congruence. }
  assert (Hkeep : ∀ r x, heap s !! r = Some x → msgID x ≠ msgID m → <[ref:=m']> (heap s) !! r = Some x).
  { intros r x Hx Hne. rewrite lookup_insert_ne; [done|]. intros ->. congruence. }
  assert (Hgen : ∀ ex old,
    (∀ id, id ≠ msgID m → ex !! id = exchanges s !! id ∧ (id ∈ old ↔ id ∈ expiredExchanges s)) →
    ex !! msgID m = None → (msgID m ∉ R → msgID m ∉ old) →
    mexset_inv R (set_maps ex old (set_heap (<[ref:=m']> (heap s)) s))).
  { intros ex old Hmaps Hex Hold. split; cbn [exchanges expiredExchanges heap set_maps set_heap].
    - intros id r Hr. assert (Hne : id ≠ msgID m) by congruence.
      rewrite (proj1 (Hmaps id Hne)) in Hr. destruct (I1 id r Hr) as (x & Hx & Hi & Hs).
      exists x. split_and!; [|done|done]. apply Hkeep; congruence.
    - intros id Hin HR. assert (Hne : id ≠ msgID m) by (intros ->; by apply Hold). destruct (Hmaps id Hne) as [E1 E2].
      apply E2 in Hin. destruct (I2 id Hin HR) as (Hn & r & x & Hx & Hi & Hs). rewrite E1. split; [done|].
      exists r, x. split_and!; [|done|done]. apply Hkeep; congruence.
    - intros r x Hx Hs HR. destruct (Hother r x Hx Hs) as [Hr Hy].
      assert (Hne : msgID x ≠ msgID m) by (intros E; rewrite E in HR; by apply Hr, (Hsame r x)).
      destruct (Hmaps _ Hne) as [-> ->]. by apply I3.
    - intros r1 r2 x1 x2 H1 H2 S1 S2 He HR.
      destruct (Hother _ _ H1 S1) as [_ Hy1], (Hother _ _ H2 S2) as [_ Hy2]. by apply (I4 r1 r2 x1 x2).
    - intros r x. rewrite lookup_insert. case_decide; [intros [= <-]; done|apply I5]. }
  unfold removeExchange, deleteExchange. cbn [exchanges expiredExchanges set_heap].
  destruct (exchanges s !! msgID m) as [r|] eqn:Hex; cbn; [|case_decide as Hin; cbn].
  - apply inv_callbacks, Hgen; [|by rewrite lookup_delete_eq|].
    + intros id Hne. by rewrite lookup_delete_ne.
    + intros HR Hin. destruct (I2 _ Hin HR). congruence.
  - apply inv_callbacks, Hgen; [|done|set_solver]. intros id Hne. split; [done|set_solver].
  - apply (Hgen (exchanges s) (expiredExchanges s)); done.
Qed.

Lemma inv_expire R s ref m :
  mexset_inv R s → heap s !! ref = Some m → mexset_inv R (expireExchange (msgID m) s).
Proof.
  intros Hinv Hm. pose proof Hinv as [I1 I2 I3 I4 I5]. unfold expireExchange, deleteExchange.
  destruct (exchanges s !! msgID m) as [r|] eqn:Hex; [|case_decide as Hin]; cbn; apply inv_callbacks.
  - destruct (I1 _ _ Hex) as (x & Hx & Hi & Hs).
    split; cbn [exchanges expiredExchanges heap set_maps]; [| | |done|done].
    + intros id r'. rewrite lookup_delete. case_decide; [done|]. apply I1.
    + intros id. rewrite elem_of_union, elem_of_singleton. intros [->|Hin] HR.
      * rewrite lookup_delete_eq. split; [done|]. eauto.
      * destruct (I2 id Hin HR) as (Hn & Hrest). split; [|done].
        rewrite lookup_delete_ne; [done|]. intros Hid. subst id. congruence.
    + intros r' y Hy Hsy HR. rewrite elem_of_union, elem_of_singleton, lookup_delete.
      destruct (decide (msgID m = msgID y)) as [E|E]; [by right; left|].
      destruct (I3 _ _ Hy Hsy HR); [by left|by right; right].
  - assert (Heq : {[msgID m]} ∪ expiredExchanges s ∖ {[msgID m]} = expiredExchanges s).
    { apply set_eq. intros id. destruct (decide (id = msgID m)); set_solver. }
    destruct s as [ex old sd h cb]; cbn in *. unfold set_maps; cbn. rewrite Heq. done.
  - destruct s; done.
Qed.

Lemma inv_stop_heap R err refs h s :
  mexset_inv R (set_heap h s) →
  mexset_inv R (set_heap (foldr (λ ref h, alter (notifyOnce err) ref h) h refs) s).
Proof.
  induction refs as [|r refs IH]; intros Hinv; [done|]. cbn [foldr]. specialize (IH Hinv).
  set (h' := foldr _ h refs) in *. destruct (h' !! r) as [m|] eqn:Hm.
  - assert (alter (notifyOnce err) r h' = <[r:=notifyOnce err m]> h') as ->.
    { apply map_eq. intros i. rewrite lookup_alter, lookup_insert. case_decide; [|done].
      subst i. by rewrite Hm. }
    apply (inv_update R (set_heap h' s) r m); [done|done|].
    apply notifyOnce_life. by apply (inv_err _ _ IH r).
  - assert (alter (notifyOnce err) r h' = h') as ->; [|done].
    apply map_eq. intros i. rewrite lookup_alter. case_decide; [|done]. subst i. by rewrite Hm.
Qed.

Lemma inv_more R R' s : R ⊆ R' → mexset_inv R s → mexset_inv R' s.
Proof.
  intros HR [I1 I2 I3 I4 I5]. split; [done|..|done].
  - intros id Hin Hn. apply I2; [done|]. by intros ?%HR.
  - intros ref m Hm Hs Hn. apply I3; [done..|]. by intros ?%HR.
  - intros r1 r2 m1 m2 H1 H2 S1 S2 He Hn. apply (I4 r1 r2 m1 m2); try done. by intros ?%HR.
Qed.

(** A new exchange whose id is not among the expired ones, or was reused before. *)
Lemma inv_add R s ref mex cb :
  mexset_inv R s → exchanges s !! msgID mex = None → heap s !! ref = None →
  (msgID mex ∈ expiredExchanges s → msgID mex ∈ R) → shutdownAtomic mex = false → err_ok mex →
  mexset_inv R (call cb (set_heap (<[ref:=mex]> (heap s))
    (set_maps (<[msgID mex:=ref]> (exchanges s)) (expiredExchanges s) s))).
Proof.
  intros [I1 I2 I3 I4 I5] Hex Hfresh Hexp Hlive Herr.
  assert (Hnone : ∀ r x, heap s !! r = Some x → shutdownAtomic x = false → msgID x = msgID mex → msgID mex ∈ R).
  { intros r x Hx Hs E. destruct (decide (msgID mex ∈ R)) as [|HR]; [done|]. rewrite <- E in HR.
    destruct (I3 r x Hx Hs HR) as [H|H]; [congruence|]. rewrite E in H. by apply Hexp. }
  apply inv_callbacks. split; cbn [exchanges expiredExchanges heap set_maps set_heap].
  - intros id' r'. rewrite !lookup_insert. case_decide as E.
    + intros [= <-]. rewrite decide_True by done. exists mex. by subst.
    + intros Hr. destruct (I1 _ _ Hr) as (x & Hx & ?). exists x.
      rewrite decide_False by congruence. done.
  - intros id' Hin HR. destruct (I2 _ Hin HR) as (Hn & r' & x & Hx & Hi & Hs).
    rewrite lookup_insert_ne by (intros <-; by apply HR, Hexp). split; [done|].
    exists r', x. rewrite lookup_insert_ne by congruence. done.
  - intros r' x. rewrite lookup_insert. case_decide as E.
    + intros [= <-] _ _. left. subst. by rewrite lookup_insert_eq.
    + intros Hx Hs HR. rewrite lookup_insert_ne; [by apply I3|]. intros Hid. rewrite <- Hid in HR. by apply HR, (Hnone r' x).
  - intros r1 r2 m1 m2. rewrite !lookup_insert. repeat case_decide; subst; try congruence.
    + intros [= <-] H2 _ S2 E HR. by destruct HR; apply (Hnone r2 m2).
    + intros H1 [= <-] S1 _ E HR. rewrite E in HR. by destruct HR; apply (Hnone r1 m1).
    + apply I4.
  - intros r' x. rewrite lookup_insert. case_decide; [|apply I5]. by intros [= <-].
Qed.

Lemma inv_new R s ctx t id n r s' :
  mexset_inv R s → newExchange ctx t id n s = (r, s') → mexset_inv (reuses id r s R) s'.
Proof.
  intros Hinv E. assert (HR : R ⊆ reuses id r s R) by (unfold reuses; case_decide; set_solver).
  pose proof (inv_more _ _ _ HR Hinv) as Hinv'. revert E. unfold newExchange, addExchange.
  destruct (ms_shutdown s); [by intros [= _ <-]|].
  destruct (exchanges s !! id) eqn:Hex; [by intros [= _ <-]|]. intros [= <- <-].
  apply (inv_add _ _ _ (mkMex [] n newErrNotifier ctx id t false false)); try done.
  - apply not_elem_of_dom, is_fresh.
  - cbn [msgID]. intros Hin. unfold reuses. rewrite decide_True by done. set_solver.
  - split_and!; try done. split; [done|]. by intros [? ?].
Qed.

Lemma offer_life frame m m' : err_ok m → offer frame m = Some m' → same_life m m'.
Proof. unfold offer. intros Hm. case_decide; [|done]. intros [= <-]. by split_and!. Qed.

Lemma takeFrame_life m f e m' : err_ok m → takeFrame m = Some (f, e, m') → same_life m m'.
Proof.
  unfold takeFrame. intros Hm. destruct (recvCh m); [done|].
  destruct (checkFrame _ _); intros [= <- <- <-]; by split_and!.
Qed.

Lemma forward_life ctx p frame m r m' :
  err_ok m → mex_forwardPeerFrame ctx p frame m = Some (r, m') → same_life m m'.
Proof.
  intros Hm. unfold mex_forwardPeerFrame. destruct (mx_ctx m); [intros [= <- <-]; by split_and!|].
  destruct p.
  - destruct (offer frame m) eqn:E; cbn; [|done]. intros [= <- <-]. by eapply offer_life.
  - destruct ctx; cbn; [|done]. intros [= <- <-]. by split_and!.
  - destruct (en_c _); [|done]. destruct (offer frame m) eqn:E; intros [= <- <-].
    + by eapply offer_life.
    + by split_and!.
Qed.

Lemma recv_life ctx p m f e m' :
  err_ok m → recvPeerFrame ctx p m = Some (f, e, m') → same_life m m'.
Proof.
  intros Hm. unfold recvPeerFrame. destruct (mx_ctx m); [intros [= <- <- <-]; by split_and!|].
  destruct p.
  - by apply takeFrame_life.
  - destruct ctx; cbn; [|done]. intros [= <- <- <-]. by split_and!.
  - destruct (en_c _); [|done]. destruct (takeFrame m) as [[[f' e'] m1]|] eqn:E; intros [= <- <- <-].
    + by eapply takeFrame_life.
    + by split_and!.
Qed.

Lemma step_inv x y : mexset_step x y → mexset_inv x.1 x.2 → mexset_inv y.1 y.2.
Proof.
  intros Hstep. destruct Hstep as [ctx t id n r R s s' Hnew|ctx p frame r R s s' Hf
    |ref m ctx p frame err m' R s Hm Hr|ref m c R s Hm|ref R s|ref R s|err R s]; cbn [fst snd]; intros Hinv.
  - by eapply inv_new.
  - unfold set_forwardPeerFrame in Hf.
    destruct (exchanges _ !! _) as [ref|] eqn:E; cbn in Hf; [|by simplify_eq].
    destruct (heap _ !! ref) as [m|] eqn:Em; cbn in Hf; [|by simplify_eq].
    destruct (mex_forwardPeerFrame _ _ _ _) as [[e m']|] eqn:Ef; cbn in Hf; simplify_eq.
    eapply inv_update; [done|done|]. eapply forward_life; [|done]. by apply (inv_err _ _ Hinv ref).
  - eapply inv_update; [done|done|]. eapply recv_life; [|done]. by apply (inv_err _ _ Hinv ref).
  - eapply inv_update; [done|done|]. pose proof (inv_err _ _ Hinv ref m Hm). by split_and!.
  - unfold mex_shutdown. destruct (heap _ !! ref) as [m|] eqn:Hm; [|done].
    destruct (shutdownAtomic m) eqn:Hs; [done|].
    pose proof (inv_err _ _ Hinv ref m Hm) as (E1 & E2 & E3 & E4).
    set (m1 := notifyOnce _ _).
    assert (msgID m1 = msgID m ∧ shutdownAtomic m1 = true ∧ err_ok m1) as (H1 & H2 & H3).
    { unfold m1, notifyOnce. cbn. destruct (errChNotified m) eqn:E.
      - repeat split; cbn; (done || congruence || apply E3).
      - unfold Notify. cbn. rewrite <- E1. repeat split; done. }
    rewrite H1. by apply inv_remove.
  - unfold inboundExpired. destruct (heap _ !! ref) as [m|] eqn:Hm; [|done]. by eapply inv_expire.
  - unfold stopExchanges, copyExchanges. destruct (ms_shutdown _).
    + destruct Hinv. by split.
    + apply inv_stop_heap. destruct Hinv. by split.
Qed.

Lemma run_inv R s : mexset_run R s → mexset_inv R s.
Proof.
  intros H. assert (Hgen : ∀ x y, rtc mexset_step x y → mexset_inv x.1 x.2 → mexset_inv y.1 y.2).
  { clear. intros x y H. induction H as [|x y z Hxy _ IH]; [done|]. intros Hx. by apply IH, (step_inv x). }
  apply (Hgen _ _ H). split; cbn; done.
Qed.

(** C3: However calls begin, frames arrive, contexts expire and exchanges are shut down,
    expired or stopped: an entry of exchanges is always a live exchange with that id.  Of
    an id that was never accepted again while it was expired, at most one exchange is live,
    and it is in exactly one of the two maps; the expired ids among them are those of live
    exchanges.  So when every exchange has been shut down no exchange is left in the set,
    and no expired id but those that were reused. *)
Theorem mexset_tracks_live R s :
  mexset_run R s →
  (∀ id ref, exchanges s !! id = Some ref →
     ∃ m, heap s !! ref = Some m ∧ msgID m = id ∧ shutdownAtomic m = false)
  ∧ (∀ ref m, heap s !! ref = Some m → shutdownAtomic m = false → msgID m ∉ R →
      ((exchanges s !! msgID m = Some ref ∧ msgID m ∉ expiredExchanges s)
       ∨ (exchanges s !! msgID m = None ∧ msgID m ∈ expiredExchanges s))
      ∧ ∀ ref' m', heap s !! ref' = Some m' → shutdownAtomic m' = false → msgID m' = msgID m → ref' = ref)
  ∧ (∀ id, id ∈ expiredExchanges s → id ∉ R →
      ∃ ref m, heap s !! ref = Some m ∧ msgID m = id ∧ shutdownAtomic m = false)
  ∧ (map_Forall (λ _ m, shutdownAtomic m = true) (heap s) →
      count s = 0%nat ∧ expiredExchanges s ⊆ R).
Proof.
  intros [I1 I2 I3 I4 I5]%run_inv. split_and!.
  - exact I1.
  - intros ref m Hm Hs HR. split.
    + destruct (I3 _ _ Hm Hs HR) as [Hex|Hin].
      * left. split; [done|]. intros Hin. destruct (I2 _ Hin HR). congruence.
      * right. by destruct (I2 _ Hin HR).
    + intros ref' m' Hm' Hs' He. apply (I4 ref' ref m' m); congruence.
  - intros id Hin HR. apply (I2 id Hin HR).
  - intros Hall. split.
    + unfold count. apply map_size_empty_iff, map_empty. intros id.
      destruct (exchanges s !! id) as [ref|] eqn:Hex; [|done].
      destruct (I1 _ _ Hex) as (m & Hm & _ & Hs). by rewrite (Hall _ _ Hm) in Hs.
    + intros id Hin. destruct (decide (id ∈ R)) as [|HR]; [done|]. exfalso.
      destruct (I2 _ Hin HR) as (_ & ref & m & Hm & _ & Hs). by rewrite (Hall _ _ Hm) in Hs.
Qed.

Lemma mexset_tracks_live_witness :
  let s1 := (newExchange None x03 7 2 newMessageExchangeSet).2 in
  let s2 := inboundExpired 0 s1 in
  let s3 := mex_shutdown 0 s2 in
  7 ∈ expiredExchanges s2 ∧ count s3 = 0%nat ∧ expiredExchanges s3 ⊆ ∅.
Proof.
  intros s1 s2 s3. split; [by vm_compute|].
  refine (proj2 (proj2 (proj2 (mexset_tracks_live ∅ s3 _))) _).
  - eapply rtc_l; [apply (step_new None x03 7 2 (newExchange None x03 7 2 newMessageExchangeSet).1); reflexivity|].
    eapply rtc_l; [apply (step_expired 0)|]. apply rtc_once, (step_shutdown 0).
  - apply (bool_decide_unpack _). vm_compute. exact I.
Defined.

(** ** Stopping *)

Lemma notify_all_lookup err refs (h : gmap nat messageExchange) ref m :
  h !! ref = Some m → err_ok m → ref ∈ refs →
  ∃ m', foldr (λ ref h, alter (notifyOnce err) ref h) h refs !! ref = Some m'
    ∧ en_c (errCh m') = true ∧ is_Some (en_err (errCh m')) ∧ err_ok m'.
Proof.
  intros Hm Hok Hin.
  assert (Hgen : ∀ refs, ∃ m', foldr (λ ref h, alter (notifyOnce err) ref h) h refs !! ref = Some m'
    ∧ err_ok m' ∧ (ref ∈ refs → notified (errCh m') = true)).
  { clear refs Hin. induction refs as [|r refs (m1 & H1 & Ho1 & Hn1)].
    - exists m. split_and!; [done|done|]. by intros ?%not_elem_of_nil.
    - cbn [foldr]. rewrite lookup_alter. case_decide as Hr.
      + subst r. rewrite H1. cbn. eexists. split; [done|].
        pose proof (notifyOnce_life err m1 Ho1) as (_ & _ & Ho2). split; [done|]. intros _.
        destruct Ho1 as (E & _). unfold notifyOnce. destruct (errChNotified m1) eqn:En; [done|].
        unfold Notify. by rewrite <- E.
      + exists m1. split_and!; [done|done|]. intros [->|?]%elem_of_cons; [done|auto]. }
  destruct (Hgen refs) as (m' & H1 & Hok' & Hn). specialize (Hn Hin). exists m'.
  pose proof Hok' as (_ & E2 & E3 & _). split_and!; [done|congruence|by apply E3|done].
Qed.

(** C33: once a connection has failed, every exchange has the error, so that no
    goroutine keeps waiting for a frame or a send on it, and no exchange can be
    added. *)
Theorem stopExchanges_unblocks s err :
  mexset_reachable s → ms_shutdown s = false →
  let s' := stopExchanges err s in
  (∀ id ref, exchanges s !! id = Some ref → ∃ m, heap s' !! ref = Some m
     ∧ is_Some (checkErr (errCh m))
     ∧ (∀ ctx, is_Some (recvPeerFrame ctx pickErr m))
     ∧ (∀ ctx frame, is_Some (mex_forwardPeerFrame ctx pickErr frame m)))
  ∧ (∀ ctx t id n, (newExchange ctx t id n s').1 = (None, Some (errMexSetShutdown : error))).
Proof.
  intros [R Hr] Hsd s'. pose proof (run_inv _ _ Hr) as [I1 I2 I3 I4 I5].
  unfold s', stopExchanges, copyExchanges. rewrite Hsd. split; [|done].
  intros id ref Hex. destruct (I1 _ _ Hex) as (m & Hm & _).
  destruct (notify_all_lookup err (map_to_list (exchanges s)).*2 (heap s) ref m Hm (I5 _ _ Hm))
    as (m' & H1 & Hc & He & _).
  { apply list_elem_of_fmap. exists (id, ref). split; [done|]. by apply elem_of_map_to_list. }
  exists m'. split_and!; [done|by unfold checkErr; rewrite Hc| |]; intros ctx.
  - unfold recvPeerFrame. rewrite Hc. destruct (mx_ctx m'); [by eexists|].
    destruct (takeFrame m'); by eexists.
  - intros frame. unfold mex_forwardPeerFrame. rewrite Hc. destruct (mx_ctx m'); [by eexists|].
    destruct (offer frame m'); by eexists.
Qed.

Lemma stopExchanges_unblocks_witness :
  let s := (newExchange None x03 7 2 newMessageExchangeSet).2 in
  ∃ m, heap (stopExchanges io_EOF s) !! 0%nat = Some m ∧ is_Some (checkErr (errCh m)).
Proof.
  intros s. destruct (proj1 (stopExchanges_unblocks s io_EOF
    ltac:(eexists; apply rtc_once;
          apply (step_new None x03 7 2 (newExchange None x03 7 2 newMessageExchangeSet).1); reflexivity) eq_refl) 7 0%nat) as (m & Hm & He & _).
  - reflexivity.
  - exists m. split; [exact Hm|exact He].
Defined.

(** the order of checks in a waiting exchange.  A context error comes first;
    an exchange error is reported only when no frame is pending (receiving) or
    no buffer space is left (forwarding), whichever case the select takes; frames
    are delivered in the order they were forwarded. *)
Theorem mex_priority ctx p m frame :
  (mx_ctx m = None →
   (∀ f e m', recvPeerFrame ctx p m = Some (f, e, m') → p ≠ pickCtx →
      match recvCh m with
      | [] => e = en_err (errCh m) ∧ f = None ∧ m' = m
      | g :: rest => recvCh m' = rest ∧ (ID (Header g) = msgID m → f = Some g ∧ e = None)
      end)
   ∧ (∀ e m', mex_forwardPeerFrame ctx p frame m = Some (e, m') → p ≠ pickCtx →
      if decide (length (recvCh m) < recvCap m)%nat
      then e = None ∧ recvCh m' = recvCh m ++ [frame]
      else e = en_err (errCh m) ∧ m' = m))
  ∧ (∀ c, mx_ctx m = Some c →
      recvPeerFrame ctx p m = Some (None, Some (ctxError c), m)
      ∧ mex_forwardPeerFrame ctx p frame m = Some (Some (ctxError c), m)).
Proof.
  split.
  - intros Hctx. split.
    + intros f e m'. unfold recvPeerFrame, takeFrame, checkFrame. rewrite Hctx.
      destruct p; [|done|destruct (en_c _); [|done]]; destruct (recvCh m) as [|g rest];
        cbn; try case_decide; intros [= <- <- <-] _; done.
    + intros e m'. unfold mex_forwardPeerFrame, offer. rewrite Hctx.
      destruct p; [|done|destruct (en_c _); [|done]]; case_decide; cbn; try done;
        intros [= <- <-] _; done.
  - intros c Hc. unfold recvPeerFrame, mex_forwardPeerFrame. by rewrite Hc.
Qed.

(** When the peer reuses the id of an expired inbound call whose handler is still
    running, the end of the old handler removes the exchange of the new call. *)
Example id_reuse :
  let s1 := (newExchange None x03 7 2 newMessageExchangeSet).2 in
  let s2 := inboundExpired 0 s1 in
  let '((ref, err), s3) := newExchange None x03 7 2 s2 in
  err = None ∧ exchanges s3 !! 7 = ref
  ∧ exchanges (mex_shutdown 0 s3) !! 7 = None
  ∧ (shutdownAtomic <$> heap (mex_shutdown 0 s3) !! 1%nat) = Some false.
Proof. vm_compute. done. Qed.
