(* ===== verification/ReqRes.v ===== *)
(** * Reading and writing calls (reqres.go, and the ends of calls in inbound.go
    and outbound.go)

    reqResWriter and reqResReader connect the fragmenting writer and reader to a
    message exchange and to frames.  Both are instances of the interfaces of
    Fragment.v; this file discharges their laws and composes writer and reader
    into the round trip of a whole call.

    A wait on channels takes its outcome from [picks], one entry per wait: what
    the environment did first.  The send channel is drained by the connection's
    writer, so that a send that is picked succeeds. *)

From S2P Require Import Prelude Errors Buffer Checksum Frame Messages Fragment FragmentCorrect Mex.

(** ** Messages of calls *)

Inductive message :=
| mCallReq (m : callReq)
| mCallReqContinue (m : callReqContinue)
| mCallRes (m : callRes)
| mCallResContinue (m : callResContinue).

Definition message_type (m : message) : byte :=
  match m with
  | mCallReq m => messageTypeCallReq
  | mCallReqContinue m => messageTypeCallReqContinue
  | mCallRes m => messageTypeCallRes
  | mCallResContinue m => messageTypeCallResContinue
  end.

Section reqres.
Context `{MapRange}.

Definition message_write (m : message) : ST WriteBuffer (option error) :=
  match m with
  | mCallReq m => msg_write m
  | mCallReqContinue m => msg_write m
  | mCallRes m => msg_write m
  | mCallResContinue m => msg_write m
  end.

Definition message_read (m : message) : ST ReadBuffer (message * option error) :=
  match m with
  | mCallReq m => '(m, err) ← msg_read m; mret (mCallReq m, err)
  | mCallReqContinue m => '(m, err) ← msg_read m; mret (mCallReqContinue m, err)
  | mCallRes m => '(m, err) ← msg_read m; mret (mCallRes m, err)
  | mCallResContinue m => '(m, err) ← msg_read m; mret (mCallResContinue m, err)
  end.

(** ** reqResWriter *)

(** The outcome of a wait to send. *)
Inductive sendPick := sendFrame | sendCtx (e : sentinel) | sendErr (e : error).

(** OutboundCall or InboundCallResponse. *)
Inductive writerKind := writesRequest | writesResponse.

Record reqResWriter := mkReqResWriter {
  rw_kind : writerKind;
  rw_set : messageExchangeSet;
  rw_mex : nat;
  rw_pool : FramePool;
  rw_choice : option nat;
  sendCh : list Frame;
  rw_picks : list sendPick;
  rw_state : reqResWriterState;
  rw_messageForFragment : bool → message;
  rw_err : option error
}.

Definition rw_update (set : messageExchangeSet) (pool : FramePool) (ch : list Frame)
    (picks : list sendPick) (err : option error) (w : reqResWriter) : reqResWriter :=
  mkReqResWriter (rw_kind w) set (rw_mex w) pool (rw_choice w) ch picks (rw_state w)
    (rw_messageForFragment w) err.
Definition rw_set_state (st : reqResWriterState) (w : reqResWriter) : reqResWriter :=
  mkReqResWriter (rw_kind w) (rw_set w) (rw_mex w) (rw_pool w) (rw_choice w) (sendCh w)
    (rw_picks w) st (rw_messageForFragment w) (rw_err w).
Definition rw_set_set (set : messageExchangeSet) (w : reqResWriter) : reqResWriter :=
  rw_update set (rw_pool w) (sendCh w) (rw_picks w) (rw_err w) w.

Definition rw_getMex (w : reqResWriter) : option messageExchange := heap (rw_set w) !! rw_mex w.

Definition rw_failed (err : error) : ST reqResWriter (option error) := λ w,
  match rw_err w with
  | Some e => (Some e, w)
  | None =>
      (Some err, rw_update (mex_shutdown (rw_mex w) (rw_set w)) (rw_pool w) (sendCh w)
                   (rw_picks w) (Some err) w)
  end.

Definition rw_checkError (w : reqResWriter) : option error := rw_getMex w ≫= checkError.
Definition rw_msgID (w : reqResWriter) : Z := default 0 (msgID <$> rw_getMex w).

(** [frame.Header.ID = id; frame.Header.messageType = t] *)
Definition set_id_type (id : Z) (t : byte) (f : Frame) : Frame :=
  setHeader (mkFrameHeader (fh_size (Header f)) t (reserved1 (Header f)) id (reserved (Header f))) f.

Definition rw_newFragment (initial : bool) (checksum : Checksum)
    : ST reqResWriter (option writableFragment * option error) := λ w,
  match rw_checkError w with
  | Some err => let '(e, w) := rw_failed err w in ((None, e), w)
  | None =>
      let message := rw_messageForFragment w initial in
      let '(frame, pool) := FramePool_Get (rw_choice w) (rw_pool w) in
      let frame := set_id_type (rw_msgID w) (message_type message) frame in
      let w := rw_update (rw_set w) pool (sendCh w) (rw_picks w) (rw_err w) w in
      let wbuf := NewWriteBuffer (Payload frame) in
      let '(fref, wbuf) := DeferByte wbuf in
      match message_write message wbuf with
      | (Some err, _) => ((None, Some err), w)
      | (None, wbuf) =>
          let '(_, wbuf) := WriteSingleByte (TypeCode checksum) wbuf in
          let '(cref, wbuf) := DeferBytes (Size checksum) wbuf in
          ((Some (mkWritableFragment fref cref false wbuf frame), w_err wbuf), w)
      end
  end.

(** The frame's payload is the memory of the fragment's buffer. *)
Definition fragment_frame (f : writableFragment) : Frame :=
  setPayload (w_buffer (f_contents f))
    (setHeader (SetPayloadSize (uint16 (Z.of_nat (BytesWritten (f_contents f))))
       (Header (f_frame f))) (f_frame f)).

Definition rw_flushFragment (f : writableFragment) : ST reqResWriter (option error) := λ w,
  match rw_err w with
  | Some e => (Some e, w)
  | None =>
      let frame := fragment_frame f in
      match rw_checkError w with
      | Some err => rw_failed err w
      | None =>
          let pick := default sendFrame (head (rw_picks w)) in
          let w := rw_update (rw_set w) (rw_pool w) (sendCh w) (tail (rw_picks w)) (rw_err w) w in
          match pick with
          | sendCtx e => rw_failed (ctxError e) w
          | sendErr e => rw_failed e w
          | sendFrame =>
              (None, rw_update (rw_set w) (rw_pool w) (sendCh w ++ [frame]) (rw_picks w) (rw_err w) w)
          end
      end
  end.

(** OutboundCall.doneSending does nothing; InboundCallResponse.doneSending cancels
    the context and shuts the exchange down unless the response has failed
    (reporting of statistics and spans is left out). *)
Definition cancelCtx (ref : nat) (s : messageExchangeSet) : messageExchangeSet :=
  set_heap (alter (λ m, match mx_ctx m with
                        | None => mex_set_ctx (Some context_Canceled) m
                        | Some _ => m
                        end) ref (heap s)) s.

Definition rw_doneSending : ST reqResWriter unit := λ w,
  match rw_kind w with
  | writesRequest => (tt, w)
  | writesResponse =>
      let set := cancelCtx (rw_mex w) (rw_set w) in
      (tt, rw_set_set (match rw_err w with
                       | None => mex_shutdown (rw_mex w) set
                       | Some _ => set
                       end) w)
  end.

(** newFragment leaves the checksum alone here. *)
#[export] Instance reqResWriter_sender : fragmentSender reqResWriter := {|
  newFragment := λ initial c w, let '(res, w) := rw_newFragment initial c w in Ret ((res, c), w);
  flushFragment := λ f w, Ret (rw_flushFragment f w);
  doneSending := rw_doneSending
|}.

(** The writer of a call: [w.contents] holds the reqResWriter as its sender. *)
Definition onSender {A} (m : ST reqResWriter A) : GO (fragmentingWriter reqResWriter) A := λ w,
  let '(a, s) := m (fw_sender w) in Ret (a, fw_set_sender s w).

Definition argWriter (last : bool) (inState outState : reqResWriterState)
    : GO (fragmentingWriter reqResWriter) (option error) :=
  w ← gget;
  match rw_err (fw_sender w) with
  | Some e => mret (Some e)
  | None =>
      if decide (rw_state (fw_sender w) = inState) then
        err ← writer_ArgWriter last;
        match err with
        | Some e => onSender (rw_failed e)
        | None => _ ← gmodify (λ w, fw_set_sender (rw_set_state outState (fw_sender w)) w); mret None
        end
      else onSender (rw_failed (errReqResWriterStateMismatch (rw_state (fw_sender w)) inState))
  end.

Definition arg1Writer := argWriter false reqResWriterPreArg1 reqResWriterPreArg2.
Definition arg2Writer := argWriter false reqResWriterPreArg2 reqResWriterPreArg3.
Definition arg3Writer := argWriter true reqResWriterPreArg3 reqResWriterComplete.

(** ** reqResReader *)

(** OutboundCallResponse or InboundCall. *)
Inductive readerKind := readsResponse | readsRequest.

Record reqResReader := mkReqResReader {
  rr_kind : readerKind;
  rr_set : messageExchangeSet;
  rr_mex : nat;
  rr_pool : FramePool;
  rr_picks : list (option sentinel * pick);
  rr_state : reqResReaderState;
  rr_messageForFragment : bool → message;
  initialFragment : option readableFragment;
  previousFragment : option readableFragment;
  rr_err : option error;
  (* fragments allocated so far, with the frame their onDone closure holds *)
  rr_frames : list Frame;
  rr_done : gset nat
}.

Definition rr_set_recv (set : messageExchangeSet) (pool : FramePool)
    (picks : list (option sentinel * pick)) (r : reqResReader) : reqResReader :=
  mkReqResReader (rr_kind r) set (rr_mex r) pool picks (rr_state r) (rr_messageForFragment r)
    (initialFragment r) (previousFragment r) (rr_err r) (rr_frames r) (rr_done r).
Definition rr_set_fragments (ini prev : option readableFragment) (fs : list Frame)
    (r : reqResReader) : reqResReader :=
  mkReqResReader (rr_kind r) (rr_set r) (rr_mex r) (rr_pool r) (rr_picks r) (rr_state r)
    (rr_messageForFragment r) ini prev (rr_err r) fs (rr_done r).
Definition rr_set_state (st : reqResReaderState) (r : reqResReader) : reqResReader :=
  mkReqResReader (rr_kind r) (rr_set r) (rr_mex r) (rr_pool r) (rr_picks r) st
    (rr_messageForFragment r) (initialFragment r) (previousFragment r) (rr_err r) (rr_frames r)
    (rr_done r).
Definition rr_set_err (e : option error) (r : reqResReader) : reqResReader :=
  mkReqResReader (rr_kind r) (rr_set r) (rr_mex r) (rr_pool r) (rr_picks r) (rr_state r)
    (rr_messageForFragment r) (initialFragment r) (previousFragment r) e (rr_frames r) (rr_done r).
Definition rr_set_done (pool : FramePool) (d : gset nat) (r : reqResReader) : reqResReader :=
  mkReqResReader (rr_kind r) (rr_set r) (rr_mex r) pool (rr_picks r) (rr_state r)
    (rr_messageForFragment r) (initialFragment r) (previousFragment r) (rr_err r) (rr_frames r) d.

Definition rr_set_messages (f : bool → message) (r : reqResReader) : reqResReader :=
  mkReqResReader (rr_kind r) (rr_set r) (rr_mex r) (rr_pool r) (rr_picks r) (rr_state r) f
    (initialFragment r) (previousFragment r) (rr_err r) (rr_frames r) (rr_done r).

Definition rr_failed (err : error) : ST reqResReader (option error) := λ r,
  match rr_err r with
  | Some e => (Some e, r)
  | None =>
      (Some err, rr_set_err (Some err)
         (rr_set_recv (mex_shutdown (rr_mex r) (rr_set r)) (rr_pool r) (rr_picks r) r))
  end.

(** The message as read is returned with the fragment: the source updates it in
    place.  [ref] is the identity of the new fragment. *)
Definition parseInboundFragment (ref : nat) (frame : Frame) (m : message)
    : go (option readableFragment * option error * message) :=
  sp ← SizedPayload frame;
  let rbuf := NewReadBuffer sp in
  let '(flags, rbuf) := ReadSingleByte rbuf in
  match message_read m rbuf with
  | ((m, Some err), _) => Ret (None, Some err, m)
  | ((m, None), rbuf) =>
      let '(t, rbuf) := ReadSingleByte rbuf in
      if negb (valid t) then Ret (None, Some (errInvalidChecksumType : error), m)
      else
        let '(sum, rbuf) := ReadBytes (ChecksumSize t) rbuf in
        Ret (Some (mkReadableFragment ref flags t (default [] sum) rbuf), r_err rbuf, m)
  end.

(** readableFragment.done on the fragments of this reader. *)
Definition rr_onDone (ref : nat) (r : reqResReader) : reqResReader :=
  match rr_frames r !! ref with
  | Some frame => rr_set_done (FramePool_Release frame (rr_pool r)) (rr_done r) r
  | None => r
  end.
Definition rr_mark (ref : nat) (r : reqResReader) : reqResReader :=
  rr_set_done (rr_pool r) ({[ref]} ∪ rr_done r) r.

(** The message of the first fragment of a response is the callRes of the response,
    which is read in place; all others are new. *)
Definition rr_keep_message (initial : bool) (m : message) (r : reqResReader) : reqResReader :=
  match initial, rr_kind r with
  | true, readsResponse =>
      rr_set_messages (λ b, if b then m else rr_messageForFragment r false) r
  | _, _ => r
  end.

Definition rr_recvNextFragment (initial : bool)
    : GO reqResReader (option readableFragment * option error) := λ r,
  match initialFragment r with
  | Some fragment =>
      Ret ((Some fragment, None), rr_set_fragments None (Some fragment) (rr_frames r) r)
  | None =>
      let message := rr_messageForFragment r initial in
      match heap (rr_set r) !! rr_mex r with
      | None => Panic
      | Some mex =>
          let '(ctx', p) := default (None, pickFrame) (head (rr_picks r)) in
          match recvPeerFrameOfType ctx' p (message_type message) (rr_pool r) mex with
          | None => OutOfFuel
          | Some Panic => Panic
          | Some OutOfFuel => OutOfFuel
          | Some (Ret (frame, err, mex, pool)) =>
              let r := rr_set_recv (set_heap (<[rr_mex r:=mex]> (heap (rr_set r))) (rr_set r)) pool
                         (tail (rr_picks r)) r in
              match err, frame with
              | Some (ErrorMessage m), _ =>
                  Ret ((None, Some (ErrorMessage m)), rr_set_err (Some (AsSystemError m)) r)
              | Some e, _ => let '(e, r) := rr_failed e r in Ret ((None, e), r)
              | None, None => Panic
              | None, Some frame =>
                  match parseInboundFragment (length (rr_frames r)) frame message with
                  | Panic => Panic
                  | OutOfFuel => OutOfFuel
                  | Ret (_, Some e, _) => let '(e, r) := rr_failed e r in Ret ((None, e), r)
                  | Ret (fragment, None, m) =>
                      Ret ((fragment, None),
                           rr_set_fragments (initialFragment r) fragment (rr_frames r ++ [frame])
                             (rr_keep_message initial m r))
                  end
              end
          end
      end
  end.

(** InboundCall.doneReading does nothing; OutboundCallResponse.doneReading shuts the
    exchange down (reporting of statistics and spans is left out). *)
Definition rr_doneReading (unexpected : option error) : ST reqResReader unit := λ r,
  match rr_kind r with
  | readsRequest => (tt, r)
  | readsResponse =>
      (tt, rr_set_recv (mex_shutdown (rr_mex r) (rr_set r)) (rr_pool r) (rr_picks r) r)
  end.

#[export] Instance reqResReader_receiver : fragmentReceiver reqResReader := {|
  recvNextFragment := rr_recvNextFragment;
  doneReading := rr_doneReading;
  isDone ref r := bool_decide (ref ∈ rr_done r);
  set_isDone := rr_mark;
  onDone := rr_onDone
|}.

Definition releasePreviousFragment (r : reqResReader) : reqResReader :=
  let fragment := previousFragment r in
  let r := rr_set_fragments (initialFragment r) None (rr_frames r) r in
  match fragment with
  | Some f => fragment_done f r
  | None => r
  end.

Definition argReader (last : bool) (inState outState : reqResReaderState)
    : GO (fragmentingReader reqResReader) (option error) :=
  r ← gget;
  if decide (rr_state (fr_receiver r) = inState) then
    err ← reader_ArgReader last;
    match err with
    | Some e => onReceiver (λ r, Ret (rr_failed e r))
    | None => _ ← gmodify (λ r, fr_set_receiver (rr_set_state outState (fr_receiver r)) r); mret None
    end
  else onReceiver (λ r, Ret (rr_failed (errReqResReaderStateMismatch (rr_state r) inState) r)).

Definition arg1Reader := argReader false reqResReaderPreArg1 reqResReaderPreArg2.
Definition arg2Reader := argReader false reqResReaderPreArg2 reqResReaderPreArg3.
Definition arg3Reader := argReader true reqResReaderPreArg3 reqResReaderComplete.

(** OutboundCallResponse.ApplicationError *)
Definition code_of (m : message) : option byte :=
  match m with mCallRes m => Some (ResponseCode m) | _ => None end.

Definition ApplicationError (r : reqResReader) : bool :=
  bool_decide (code_of (rr_messageForFragment r true) = Some responseApplicationError).

(** ** The message layer of a fragment *)

Definition message_ok (m : message) : Prop :=
  match m with
  | mCallReq m => msg_ok m
  | mCallReqContinue m => msg_ok m
  | mCallRes m => msg_ok m
  | mCallResContinue m => msg_ok m
  end.
Definition message_enc (m : message) : bytes :=
  match m with
  | mCallReq m => msg_enc m
  | mCallReqContinue m => msg_enc m
  | mCallRes m => msg_enc m
  | mCallResContinue m => msg_enc m
  end.

Lemma message_write_spec m :
  message_ok m → ∃ body, writes body (message_enc m)
  ∧ ∀ w, w_err w = None → message_write m w = (body ≫= λ _, w_Err) w.
Proof. destruct m; apply msg_write_ok. Qed.

(** Reading into a message of the same type as the one that was written. *)
Lemma message_read_spec m0 m :
  message_ok m → message_type m0 = message_type m →
  ∃ m', reads (message_read m0) (message_enc m) (m', None) ∧ code_of m' = code_of m.
Proof.
  intros Hok Ht. destruct m0 as [m0|m0|m0|m0], m as [m|m|m|m]; try done.
  all: eexists; split; [intros n rest; cbn [message_read message_enc];
    erewrite st_bind_run by (by apply msg_read_ok); reflexivity|reflexivity].
Qed.

Definition call_mid (m : message) (t : byte) : bytes := message_enc m ++ [t].

(** *** The writer is a good sender *)

(** A message that leaves room for arguments. *)
Definition message_fits (m : message) : Prop :=
  message_ok m ∧ len (message_enc m) <= 60000.

Section sender.
Context (msgs : bool → message) (callID : Z) (st : reqResWriterState).
Hypothesis (Hfits : ∀ b, message_fits (msgs b)).

Definition sender_ready (s : reqResWriter) : Prop :=
  rw_state s = st ∧ rw_err s = None ∧ rw_picks s = [] ∧ pool_ok (rw_pool s) ∧ rw_messageForFragment s = msgs
  ∧ ∃ m, rw_getMex s = Some m ∧ checkError m = None ∧ msgID m = callID.

Definition sender_mid (initial : bool) (t : byte) (hdr : FrameHeader) (mid : bytes) : Prop :=
  mid = call_mid (msgs initial) t ∧ ID hdr = callID ∧ fh_messageType hdr = message_type (msgs initial).

Lemma Size_le c : (Size c <= 4)%nat.
Proof. induction c; simpl; unfold hash_Size; lia. Qed.

Lemma build_fragment m p c :
  message_fits m → len p = MaxFramePayloadSize →
  let w0 := NewWriteBuffer p in
  let body := [x00] ++ call_mid m (TypeCode c) ++ replicate (Size c) x00 in
  let '(fref, wb) := DeferByte w0 in
  ∃ wb1, message_write m wb = (None, wb1)
  ∧ let '(_, wb) := WriteSingleByte (TypeCode c) wb1 in
    DeferBytes (Size c) wb = (Some (1 + length (call_mid m (TypeCode c)), Size c)%nat, appended w0 body)
  ∧ fref = Some 0%nat ∧ (length body <= w_BytesRemaining w0)%nat.
Proof.
  intros [Hok Hlen] Hp w0 body. pose proof (Size_le c) as Hs.
  assert (Hok0 : wbuf_ok w0) by (unfold wbuf_ok, w0; simpl; lia).
  assert (Hrem : w_BytesRemaining w0 = length p) by (by rewrite w_BytesRemaining_eq; simpl; lia).
  assert (Hbody : (length body <= w_BytesRemaining w0)%nat).
  { unfold body, call_mid. rewrite Hrem, !length_app, length_replicate. simpl. frame_lia. }
  unfold body, call_mid in Hbody. rewrite !length_app, length_replicate in Hbody. simpl in Hbody.
  rewrite DeferByte_spec by (done || lia).
  destruct (message_write_spec m Hok) as (wr & (_ & Hwr & _) & Hm).
  rewrite Hm by done. erewrite st_bind_run.
  2:{ apply Hwr; [apply appended_ok; simpl; (done || lia)|done|].
      rewrite appended_remaining; simpl; (done || lia). }
  rewrite appended_appended by (simpl; (done || lia)).
  set (b1 := [x00] ++ message_enc m). exists (appended w0 b1). split; [done|].
  assert (Hb1 : (length b1 + 1 + Size c <= w_BytesRemaining w0)%nat).
  { unfold b1. rewrite length_app. simpl. lia. }
  destruct (WriteSingleByte_writes (TypeCode c)) as (_ & Hws & _).
  rewrite Hws; [|apply appended_ok; (done || lia)|done|rewrite appended_remaining; simpl; (done || lia)].
  rewrite appended_appended by (simpl; (done || lia)). set (b2 := b1 ++ [TypeCode c]).
  assert (Hb2 : (length b2 + Size c <= w_BytesRemaining w0)%nat).
  { unfold b2. rewrite length_app. simpl. lia. }
  unfold DeferBytes.
  rewrite deferred_spec; [|apply appended_ok; (done || lia)|done|rewrite appended_remaining; (done || lia)].
  rewrite appended_appended by (rewrite ?length_replicate; (done || lia)).
  split_and!; [|done|].
  - assert (E1 : w_off (appended w0 b2) = (1 + length (call_mid m (TypeCode c)))%nat).
    { unfold appended, b2, b1, call_mid. simpl. rewrite !length_app. simpl. lia. }
    assert (E2 : b2 ++ replicate (Size c) x00 = body).
    { unfold b2, b1, body, call_mid. by rewrite <- !app_assoc. }
    by rewrite E1, E2.
  - unfold body, call_mid. rewrite !length_app, length_replicate. simpl. lia.
Qed.

Lemma rw_newFragment_spec s initial c :
  sender_ready s → ∃ f s' hdr mid,
    rw_newFragment initial c s = ((Some f, None), s')
    ∧ frag_rep f hdr x00 mid (replicate (Size c) x00) []
    ∧ sender_mid initial (TypeCode c) hdr mid
    ∧ (4 < w_BytesRemaining (f_contents f))%nat
    ∧ sender_ready s' ∧ sendCh s' = sendCh s.
Proof.
  intros (Hst & He & Hp & Hpool & Hmsg & m & Hm & Hce & Hid). unfold rw_newFragment, rw_checkError, rw_msgID.
  rewrite Hm. cbn [mbind option_bind fmap option_fmap option_map]. rewrite Hce.
  destruct (FramePool_Get_ok (rw_pool s) (rw_choice s) Hpool) as [Hfr Hpool'].
  destruct (FramePool_Get (rw_choice s) (rw_pool s)) as [fr pool']. cbn [fst snd] in Hfr, Hpool'.
  cbn [default]. unfold id. rewrite Hmsg.
  set (fr' := set_id_type _ _ fr).
  assert (Hfr' : frame_ok fr') by exact Hfr.
  pose proof (length_Payload fr' Hfr') as HP.
  pose proof (build_fragment (msgs initial) (Payload fr') c (Hfits initial) HP) as HB.
  cbv zeta in HB. destruct (DeferByte (NewWriteBuffer (Payload fr'))) as [fref wb] eqn:ED.
  destruct HB as (wb1 & HW & HB). rewrite HW. revert HB.
  destruct (WriteSingleByte (TypeCode c) wb1) as [u wb2]. intros (-> & -> & Hlen).
  eexists _, _, (Header fr'), (call_mid (msgs initial) (TypeCode c)). split; [reflexivity|].
  assert (Hrep : frag_rep (mkWritableFragment (Some 0%nat)
      (Some (1 + length (call_mid (msgs initial) (TypeCode c)), Size c)%nat) false
      (appended (NewWriteBuffer (Payload fr')) ([x00] ++ call_mid (msgs initial) (TypeCode c)
        ++ replicate (Size c) x00)) fr')
    (Header fr') x00 (call_mid (msgs initial) (TypeCode c)) (replicate (Size c) x00) []).
  { exists (NewWriteBuffer (Payload fr')).
    rewrite app_nil_r, length_replicate. split_and!; done. }
  split_and!; [exact Hrep|by split_and!| | |done].
  - pose proof (frag_remaining _ _ _ _ _ _ Hrep) as HR. destruct (Hfits initial) as [_ Hl].
    pose proof (Size_le c). unfold call_mid in *.
    rewrite !length_app, length_replicate in HR. simpl in HR. simpl. frame_lia.
  - split_and!; try done. exists m. done.
Qed.

Lemma fragment_frame_sent f hdr fl mid sum chunks :
  frag_rep f hdr fl mid sum (chunks_enc chunks) →
  sent_as (fragment_frame f) (mkFragment hdr fl mid sum chunks).
Proof.
  intros Hrep. pose proof (frag_contents_ok _ _ _ _ _ _ Hrep) as (Hok & _ & Hoff).
  pose proof (frag_remaining _ _ _ _ _ _ Hrep) as Hrem.
  destruct Hrep as (w0 & Hoff0 & Hlen & Hfit & Hc & _ & _ & Hfo & Hh).
  assert (Hbuf : length (w_buffer (f_contents f)) = length (w_buffer w0)).
  { rewrite Hc. apply appended_length; [unfold wbuf_ok; lia|done]. }
  assert (Hwr : take (length ([fl] ++ mid ++ sum ++ chunks_enc chunks)) (w_buffer (f_contents f))
                = [fl] ++ mid ++ sum ++ chunks_enc chunks).
  { rewrite <- Hoff. change (take _ _) with (written (f_contents f)).
    rewrite Hc, written_appended by (unfold wbuf_ok; (lia || done)).
    unfold written. by rewrite Hoff0. }
  assert (HencL : len ([fl] ++ mid ++ sum ++ chunks_enc chunks) <= MaxFramePayloadSize) by lia.
  unfold sent_as, fragment_enc. cbn [fg_flags fg_mid fg_sum fg_chunks fg_hdr].
  unfold fragment_frame. rewrite BytesWritten_off, Hoff, Hh by done.
  set (enc := [fl] ++ mid ++ sum ++ chunks_enc chunks) in *.
  rewrite uint16_small by frame_lia. destruct Hfo as [Hfb Hfr].
  assert (Hb : buffer (setPayload (w_buffer (f_contents f))
      (setHeader (SetPayloadSize (len enc) hdr) (f_frame f)))
    = take 16 (buffer (f_frame f)) ++ w_buffer (f_contents f)).
  { unfold setPayload, setHeader. cbn [buffer Header]. rewrite splice_fits by frame_lia.
    rewrite drop_ge by frame_lia. by rewrite app_nil_r. }
  split_and!; [split|done|done| |unfold SizedPayload, Payload; rewrite Hb|done].
  - rewrite Hb, length_app, length_take. frame_lia.
  - cbn. by rewrite <- Hh.
  - cbn [Header setPayload setHeader SetPayloadSize fh_size]. unfold SetPayloadSize.
    cbn [fh_size]. apply uint16_small. frame_lia.
  - cbn [Header setPayload setHeader SetPayloadSize PayloadSize fh_size].
    unfold PayloadSize, SetPayloadSize. cbn [fh_size].
    rewrite (uint16_small (len enc + FrameHeaderSize)), uint16_small by frame_lia.
    rewrite drop_app_length' by (rewrite length_take; frame_lia).
    rewrite slice_to_fits by lia. f_equal. rewrite <- Hwr at 2. f_equal. lia.
Qed.

Lemma rw_flushFragment_spec s f hdr fl mid sum chunks :
  sender_ready s → frag_rep f hdr fl mid sum (chunks_enc chunks) → ∃ s' g,
    rw_flushFragment f s = (None, s') ∧ sender_ready s' ∧ sendCh s' = sendCh s ++ [g]
    ∧ sent_as g (mkFragment hdr fl mid sum chunks).
Proof.
  intros (Hst & He & Hp & Hpool & Hmsg & m & Hm & Hce & Hid) Hrep. unfold rw_flushFragment, rw_checkError.
  rewrite He, Hm, Hp. cbn [mbind option_bind]. rewrite Hce. cbn [head tail default].
  eexists _, (fragment_frame f). split; [reflexivity|]. split_and!; [|done|by apply fragment_frame_sent].
  split_and!; try done. exists m. done.
Qed.

Lemma rw_doneSending_wire s : sendCh (rw_doneSending s).2 = sendCh s.
Proof. unfold rw_doneSending. by destruct (rw_kind s). Qed.

Program Definition reqResWriter_good : GoodSender reqResWriter := {|
  base_flags := x00;
  pre_chunks := λ _, [];
  size_ok := λ _, True;
  ready := sender_ready;
  wire := sendCh;
  mid_ok := sender_mid;
  good_done := rw_doneSending_wire
|}.
Next Obligation. split; [done|by apply Forall_nil]. Qed.
Next Obligation.
  intros s initial c Hr _.
  destruct (rw_newFragment_spec s initial c Hr) as (f & s' & hdr & mid & Hnew & Hrest).
  exists f, s', hdr, mid. split; [|exact Hrest].
  cbn [newFragment reqResWriter_sender]. by rewrite Hnew, AddState_nil.
Qed.
Next Obligation.
  intros s f hdr fl mid sum chunks Hr Hrep.
  destruct (rw_flushFragment_spec s f hdr fl mid sum chunks Hr Hrep) as (s' & g & Hfl & Hrest).
  exists s', g. split; [|exact Hrest]. cbn [flushFragment reqResWriter_sender]. by rewrite Hfl.
Qed.
End sender.

(** *** The reader is a good receiver *)

Section receiver.
Context (msgs : bool → message) (callID : Z) (st : reqResReaderState).

Definition receiver_mid (initial : bool) (t : byte) (hdr : FrameHeader) (mid : bytes) : Prop :=
  valid t = true ∧ ID hdr = callID ∧ fh_messageType hdr = message_type (msgs initial)
  ∧ ∃ m, message_ok m ∧ message_type m = message_type (msgs initial)
    ∧ code_of m = code_of (msgs initial) ∧ mid = call_mid m t.

(** The fragment [rf] has been read from a frame that carries [f]. *)
Definition parsed (rf : readableFragment) (f : fragment) : Prop :=
  rf_flags rf = fg_flags f ∧ rf_checksum rf = fg_sum f
  ∧ (∃ pre, fg_mid f = pre ++ [rf_checksumType rf])
  ∧ r_err (rf_contents rf) = None ∧ r_remaining (rf_contents rf) = chunks_enc (fg_chunks f)
  ∧ len (chunks_enc (fg_chunks f)) <= MaxFramePayloadSize.

Definition receiver_incoming (r : reqResReader) (initial : bool) (l : list fragment) : Prop :=
  rr_state r = st ∧ rr_err r = None ∧ rr_picks r = []
  ∧ message_type (rr_messageForFragment r false) = message_type (msgs false)
  ∧ ∃ mex, heap (rr_set r) !! rr_mex r = Some mex ∧ mx_ctx mex = None ∧ msgID mex = callID
  ∧ match initialFragment r with
    | None => (initial = true → message_type (rr_messageForFragment r true) = message_type (msgs true)
                 ∧ rr_kind r = readsResponse)
              ∧ (initial = false → code_of (msgs true) ≠ None →
                 code_of (rr_messageForFragment r true) = code_of (msgs true))
              ∧ Forall2 sent_as (recvCh mex) l
    | Some rf => code_of (msgs true) = None
              ∧ ∃ f l', l = f :: l' ∧ parsed rf f ∧ Forall2 sent_as (recvCh mex) l'
    end.

Lemma parseInboundFragment_spec ref g f m0 t initial :
  sent_as g f → receiver_mid initial t (fg_hdr f) (fg_mid f) →
  length (fg_sum f) = ChecksumSize t → message_type m0 = message_type (msgs initial) →
  ∃ rf m', parseInboundFragment ref g m0 = Ret (Some rf, None, m') ∧ parsed rf f
  ∧ rf_checksumType rf = t ∧ code_of m' = code_of (msgs initial).
Proof.
  intros (_ & _ & _ & _ & Hsp & Hlen) (Hv & _ & _ & m & Hok & Ht & Hcode & Hmid) Hsum Hm0.
  destruct (message_read_spec m0 m Hok) as (m' & Hread & Hcm); [congruence|].
  unfold parseInboundFragment. rewrite Hsp. unfold mbind, go_bind, NewReadBuffer, fragment_enc.
  rewrite Hmid. unfold call_mid. rewrite <- !app_assoc.
  rewrite ReadSingleByte_reads, Hread, ReadSingleByte_reads, Hv. cbn [negb].
  rewrite (ReadBytes_reads' (ChecksumSize t) (fg_sum f)) by done.
  eexists _, m'. split; [reflexivity|]. split; [|split; [done|congruence]].
  unfold fragment_enc in Hlen. rewrite !length_app in Hlen.
  split_and!; try done; [by exists (message_enc m)|lia].
Qed.

Lemma rr_recvNextFragment_spec r initial t f l :
  receiver_incoming r initial (f :: l) → receiver_mid initial t (fg_hdr f) (fg_mid f) →
  length (fg_sum f) = ChecksumSize t →
  ∃ rf r', rr_recvNextFragment initial r = Ret ((Some rf, None), r') ∧ receiver_incoming r' false l
  ∧ parsed rf f ∧ rf_checksumType rf = t.
Proof.
  intros (Hst & He & Hp & Hty & mex & Hmex & Hctx & Hid & Hin) Hmid Hsum.
  unfold rr_recvNextFragment. destruct (initialFragment r) as [rf|] eqn:Hini.
  { destruct Hin as (Hk & f' & l' & [= <- <-] & Hparsed & Hfr).
    eexists rf, _. split; [reflexivity|]. split_and!; [|done|].
    - split_and!; [done|done|done|done|]. exists mex. split_and!; [done|done|done|]. cbn. split_and!; [done|congruence|done].
    - destruct Hparsed as (_ & _ & (pre & Hpre) & _), Hmid as (_ & _ & _ & m & _ & _ & _ & Hm).
      rewrite Hpre in Hm. unfold call_mid in Hm. by apply app_inj_tail in Hm as [_ ->]. }
  rewrite Hmex, Hp. cbn [head tail default].
  destruct Hin as (Htrue & Hfalse & Hin). apply Forall2_cons_inv_r in Hin as (g & frs & Hsent & Hrest & Hch).
  assert (Hty' : message_type (rr_messageForFragment r initial) = message_type (msgs initial)).
  { destruct initial; [by apply Htrue|done]. }
  pose proof Hsent as (_ & Hgid & Hgt & _). pose proof Hmid as (_ & Hidh & Hth & _).
  unfold recvPeerFrameOfType, recvPeerFrame, takeFrame, checkFrame. rewrite Hctx, Hch.
  rewrite decide_True by (cbn; congruence). cbn [mbind option_bind].
  rewrite decide_True by congruence.
  cbn [id].
  destruct (parseInboundFragment_spec (length (rr_frames r)) g f _ t initial Hsent Hmid Hsum Hty')
    as (rf & m' & Hparse & Hparsed & Hrt & Hcode).
  cbn [rr_frames rr_set_recv initialFragment]. rewrite Hparse. eexists rf, _. split; [reflexivity|].
  split_and!; [|done|done]. rewrite Hini.
  unfold rr_keep_message. cbn [rr_kind rr_set_recv].
  destruct initial.
  - destruct (Htrue eq_refl) as [_ ->]. split_and!; [done|done|done|done|].
    eexists. cbn. rewrite lookup_insert_eq. by split_and!.
  - split_and!; [done|done|done|done|]. eexists. cbn. rewrite lookup_insert_eq. by split_and!.
Qed.

Lemma mex_shutdown_lookup ref s m :
  heap s !! ref = Some m → ∃ m', heap (mex_shutdown ref s) !! ref = Some m'
  ∧ recvCh m' = recvCh m ∧ mx_ctx m' = mx_ctx m ∧ msgID m' = msgID m.
Proof.
  intros Hm. unfold mex_shutdown. rewrite Hm. destruct (shutdownAtomic m); [by exists m|].
  exists (notifyOnce errMexShutdown (mex_set_shutdown m)).
  rewrite removeExchange_heap. cbn [heap set_heap].
  rewrite lookup_insert_eq. split; [done|]. unfold notifyOnce, Notify.
  cbn. destruct (errChNotified m), (notified (errCh m)); done.
Qed.

Lemma rr_doneReading_incoming r b l e :
  receiver_incoming r b l → receiver_incoming (rr_doneReading e r).2 b l.
Proof.
  intros Hin. unfold rr_doneReading. destruct (rr_kind r); [|exact Hin].
  destruct Hin as (Hst & He & Hp & Hty & mex & Hmex & Hctx & Hid & Hin).
  destruct (mex_shutdown_lookup _ _ _ Hmex) as (mex' & Hmex' & H1 & H2 & H3).
  split_and!; [done|done|done|done|]. exists mex'. cbn. rewrite H1. split_and!; [done|congruence|congruence|done].
Qed.

Lemma rr_release_incoming r b l n :
  receiver_incoming r b l → receiver_incoming (rr_mark n (rr_onDone n r)) b l.
Proof. intros Hin. unfold rr_mark, rr_onDone. destruct (rr_frames r !! n); exact Hin. Qed.

#[local] Lemma good_recv_reqRes r initial t f l :
  receiver_incoming r initial (f :: l) → receiver_mid initial t (fg_hdr f) (fg_mid f) →
  length (fg_sum f) = ChecksumSize t → ∃ rf r',
  rr_recvNextFragment initial r = Ret ((Some rf, None), r') ∧ receiver_incoming r' false l
  ∧ rf_flags rf = fg_flags f ∧ rf_checksumType rf = t ∧ rf_checksum rf = fg_sum f
  ∧ r_err (rf_contents rf) = None
  ∧ r_remaining (rf_contents rf) = chunks_enc (fg_chunks f)
  ∧ len (chunks_enc (fg_chunks f)) <= MaxFramePayloadSize.
Proof.
  intros Hin Hmid Hsum. destruct (rr_recvNextFragment_spec r initial t f l Hin Hmid Hsum)
    as (rf & r' & H1 & H2 & (P1 & P2 & _ & P4 & P5 & P6) & H4). exists rf, r'. by split_and!.
Qed.

Definition reqResReader_good : GoodReceiver reqResReader := {|
  incoming := receiver_incoming;
  rmid_ok := receiver_mid;
  good_recv := good_recv_reqRes;
  good_doneReading := rr_doneReading_incoming;
  good_release := rr_release_incoming
|}.
End receiver.

(** ** A whole call *)

(** *** Clients of the writer and the reader *)

Definition write_arg (open : GO (fragmentingWriter reqResWriter) (option error))
    (ops : list arg_op) : GO (fragmentingWriter reqResWriter) (option error) :=
  err ← open;
  match err with Some e => mret (Some e) | None => run_ops ops end.

Definition write_call (a1 a2 a3 : list arg_op) : GO (fragmentingWriter reqResWriter) (option error) :=
  err ← write_arg arg1Writer a1;
  match err with
  | Some e => mret (Some e)
  | None =>
      err ← write_arg arg2Writer a2;
      match err with
      | Some e => mret (Some e)
      | None => write_arg arg3Writer a3
      end
  end.

Definition read_arg (open : GO (fragmentingReader reqResReader) (option error)) (fuel : nat)
    (sizes : list nat) : GO (fragmentingReader reqResReader) (option bytes) :=
  err ← open;
  match err with
  | Some _ => mret None
  | None =>
      '(b, err) ← read_all fuel sizes [];
      if decide (err = Some (io_EOF : error)) then
        err ← reader_Close;
        mret (match err with Some _ => None | None => Some b end)
      else mret None
  end.

Definition read_call (fuel : nat) (s1 s2 s3 : list nat)
    : GO (fragmentingReader reqResReader) (option (bytes * bytes * bytes)) :=
  b1 ← read_arg arg1Reader fuel s1;
  match b1 with
  | None => mret None
  | Some b1 =>
      b2 ← read_arg arg2Reader fuel s2;
      match b2 with
      | None => mret None
      | Some b2 =>
          b3 ← read_arg arg3Reader fuel s3;
          mret ((λ b3, (b1, b2, b3)) <$> b3)
      end
  end.

(** *** Writing *)

Section writing.
Context (msgs : bool → message) (callID : Z).
Hypothesis (Hfits : ∀ b, message_fits (msgs b)).
Context (c0 : Checksum) (base : list Frame).
Implicit Types w : fragmentingWriter reqResWriter.

Definition G (st : reqResWriterState) : GoodSender reqResWriter :=
  reqResWriter_good msgs callID st Hfits.

Lemma in_arg_state st st' w args :
  in_arg (H0 := G st) c0 base w args →
  in_arg (H0 := G st') c0 base (fw_set_sender (rw_set_state st' (fw_sender w)) w) args.
Proof.
  intros (sent & cks & d & [(He & (_ & Hr) & Hrest) Hcur] & Hargs).
  exists sent, cks, d. split; [|exact Hargs]. split; [|exact Hcur].
  split; [exact He|]. split; [|exact Hrest]. split; [done|exact Hr].
Qed.

Lemma idle_ready st w args : idle (H0 := G st) c0 base w args →
  rw_err (fw_sender w) = None ∧ rw_state (fw_sender w) = st.
Proof.
  by intros [(_ & _ & _ & (_ & (Hs & He & _) & _))|[(? & ? & [(_ & (Hs & He & _) & _) _] & _) _]].
Qed.

Lemma argWriter_spec st st' (last : bool) w args :
  idle (H0 := G st) c0 base w args →
  ∃ w', argWriter last st st' w = Ret (None, w') ∧ in_arg (H0 := G st') c0 base w' (args ++ [[]])
  ∧ fw_state w' = if last then fragmentingWriteInLastArgument else fragmentingWriteInArgument.
Proof.
  intros Hidle. unfold argWriter. run_step. destruct (idle_ready _ _ _ Hidle) as [-> ->].
  rewrite decide_True by done.
  destruct (BeginArgument_spec (H0 := G st) c0 base I w args last Hidle) as (w1 & H1 & Hin & Hs).
  run_with H1. eexists. split; [reflexivity|]. split; [by apply (in_arg_state st)|done].
Qed.

Lemma write_arg_spec st st' (last : bool) w args ops :
  idle (H0 := G st) c0 base w args →
  ∃ w', write_arg (argWriter last st st') ops w = Ret (None, w')
  ∧ if last then sent_all (H0 := G st') c0 base w' (args ++ [arg_value ops])
    else idle (H0 := G st') c0 base w' (args ++ [arg_value ops]).
Proof.
  intros Hidle. destruct (argWriter_spec st st' last w args Hidle) as (w1 & H1 & Hin & Hs).
  unfold write_arg. run_with H1.
  destruct (run_ops_spec (H0 := G st') c0 base I ops w1 _ last Hin) as (w2 & H2 & HC);
    [by destruct args|done|]. exists w2. by rewrite join_last in HC.
Qed.

Lemma write_call_spec w a1 a2 a3 :
  idle (H0 := G reqResWriterPreArg1) c0 base w [] →
  ∃ w', write_call a1 a2 a3 w = Ret (None, w')
  ∧ sent_all (H0 := G reqResWriterComplete) c0 base w' [arg_value a1; arg_value a2; arg_value a3].
Proof.
  intros H1. unfold write_call, arg1Writer, arg2Writer, arg3Writer.
  destruct (write_arg_spec _ reqResWriterPreArg2 false _ _ a1 H1) as (w1 & R1 & H2). run_with R1.
  destruct (write_arg_spec _ reqResWriterPreArg3 false _ _ a2 H2) as (w2 & R2 & H3). run_with R2.
  apply (write_arg_spec _ reqResWriterComplete true _ _ a3 H3).
Qed.
End writing.

(** *** Reading *)

Section reading.
Context (msgs : bool → message) (callID : Z).
Implicit Types r : fragmentingReader reqResReader.

Definition RG (st : reqResReaderState) : GoodReceiver reqResReader :=
  reqResReader_good msgs callID st.

Lemma rinv_state st st' r rest :
  rinv (H0 := RG st) r rest →
  rinv (H0 := RG st') (fr_set_receiver (rr_set_state st' (fr_receiver r)) r) rest.
Proof.
  intros (He & (_ & Hin) & Hrest). split; [exact He|]. split; [|exact Hrest]. split; [done|exact Hin].
Qed.

Lemma ridle_ready st r args n : ridle (H0 := RG st) r args n → rr_state (fr_receiver r) = st.
Proof.
  intros [(_ & _ & c & f & l & _ & (Hs & _) & _)|(_ & rest & (_ & (Hs & _) & _) & _)]; exact Hs.
Qed.

Lemma argReader_spec st st' (last : bool) r args n :
  ridle (H0 := RG st) r args n →
  ∃ r' rest, argReader last st st' r = Ret (None, r')
  ∧ rinv (H0 := RG st') r' rest ∧ unread r' rest = args ∧ (length rest <= n)%nat
  ∧ fr_state r' = if last then fragmentingReadInLastArgument else fragmentingReadInArgument.
Proof.
  intros Hidle. unfold argReader. run_step. rewrite (ridle_ready _ _ _ _ Hidle), decide_True by done.
  destruct (reader_BeginArgument_spec (H0 := RG st) r args n last Hidle)
    as (r1 & rest & H1 & Hinv & Hun & Hl & Hs).
  run_with H1. eexists _, rest. split; [reflexivity|]. split_and!; [by apply (rinv_state st)|done..].
Qed.

Lemma read_arg_spec st st' fuel sizes r d args n :
  ridle (H0 := RG st) r (d :: args) n → args ≠ [] → (n < fuel)%nat →
  (length d < sum_list sizes)%nat →
  ∃ r' n', read_arg (argReader false st st') fuel sizes r = Ret (Some d, r')
  ∧ ridle (H0 := RG st') r' args n' ∧ (n' < fuel)%nat.
Proof.
  intros Hidle Hne Hn Hd.
  destruct (argReader_spec st st' false r _ n Hidle) as (r1 & rest & H1 & Hinv1 & Hun1 & Hl1 & Hs1).
  unfold read_arg. run_with H1.
  destruct (read_all_spec (H0 := RG st') fuel sizes [] r1 rest d args Hinv1 Hun1)
    as (r2 & rest2 & H2 & Hinv2 & Hun2 & Heof & Hs2 & Hl2); [lia|by rewrite Hs1|done|].
  run_with H2. rewrite decide_True by done.
  destruct (reader_Close_spec (H0 := RG st') r2 rest2 _ Hinv2 Heof Hun2)
    as (r3 & H3 & Hidle3 & _); [done|by rewrite Hs2, Hs1|].
  run_with H3. exists r3, (length rest2). split_and!; [done|done|lia].
Qed.

Lemma read_last_arg_spec st st' fuel sizes r d n :
  ridle (H0 := RG st) r [d] n → (n < fuel)%nat → (length d < sum_list sizes)%nat →
  ∃ r', read_arg (argReader true st st') fuel sizes r = Ret (Some d, r').
Proof.
  intros Hidle Hn Hd.
  destruct (argReader_spec st st' true r _ n Hidle) as (r1 & rest & H1 & Hinv1 & Hun1 & Hl1 & Hs1).
  unfold read_arg. run_with H1.
  destruct (read_all_spec (H0 := RG st') fuel sizes [] r1 rest d [] Hinv1 Hun1)
    as (r2 & rest2 & H2 & Hinv2 & Hun2 & Heof & Hs2 & Hl2); [lia|by rewrite Hs1|done|].
  run_with H2. rewrite decide_True by done.
  destruct (reader_Close_last_spec (H0 := RG st') r2 rest2 Hinv2 Hun2 Heof) as (r3 & H3 & _);
    [by rewrite Hs2, Hs1|].
  run_with H3. by exists r3.
Qed.

Lemma read_call_spec fuel s1 s2 s3 r d1 d2 d3 n :
  ridle (H0 := RG reqResReaderPreArg1) r [d1; d2; d3] n → (n < fuel)%nat →
  (length d1 < sum_list s1)%nat → (length d2 < sum_list s2)%nat → (length d3 < sum_list s3)%nat →
  ∃ r', read_call fuel s1 s2 s3 r = Ret (Some (d1, d2, d3), r').
Proof.
  intros I1 Hn L1 L2 L3. unfold read_call, arg1Reader, arg2Reader, arg3Reader.
  destruct (read_arg_spec _ reqResReaderPreArg2 fuel s1 r d1 _ n I1) as (r1 & n1 & R1 & I2 & Hn1);
    [done..|]. run_with R1.
  destruct (read_arg_spec _ reqResReaderPreArg3 fuel s2 r1 d2 _ n1 I2) as (r2 & n2 & R2 & I3 & Hn2);
    [done..|]. run_with R2.
  destruct (read_last_arg_spec _ reqResReaderComplete fuel s3 r2 d3 n2 I3) as (r3 & R3);
    [done..|]. run_with R3. by exists r3.
Qed.
End reading.

(** *** The wire between them *)

(** WriteOut hands the bytes [wire] to the connection. *)
Definition on_wire (g : Frame) (wire : bytes) : Prop :=
  ∀ send, ∃ g', WriteOut send g = Ret (send wire, g').

(** Reading one frame after the other, each into a frame of the pool. *)
Fixpoint read_frames (dsts : list Frame) (s : Stream) : go (option (list Frame) * Stream) :=
  match dsts with
  | [] => Ret (Some [], s)
  | dst :: dsts =>
      '(err, g, s) ← ReadIn s dst;
      match err with
      | Some _ => Ret (None, s)
      | None => '(gs, s) ← read_frames dsts s; Ret (option_map (cons g) gs, s)
      end
  end.

Lemma transmit_frame g f dst :
  sent_as g f → 0 <= ID (fg_hdr f) < 2^32 → frame_ok dst →
  ∃ wire, on_wire g wire ∧ ∀ rest e, ∃ g',
    ReadIn (mkStream (wire ++ rest) e) dst = Ret (None, g', mkStream rest e) ∧ sent_as g' f.
Proof.
  intros (Hg & Hid & Ht & Hsz & Hsp & Hlen) Hrange Hdst. set (p := fragment_enc f) in *.
  assert (Hp : p = take (length p) (Payload g)).
  { unfold SizedPayload, slice_to in Hsp. case_decide; [|done]. injection Hsp as Hsp.
    rewrite <- Hsp at 1. f_equal. apply (f_equal length) in Hsp.
    rewrite length_take in Hsp. lia. }
  assert (Hbuf : buffer g = take 16 (buffer g) ++ p ++ drop (length p) (Payload g)).
  { rewrite Hp at 1. rewrite take_drop. unfold Payload. by rewrite take_drop. }
  assert (Hfh : header_ok (Header g)).
  { split; [rewrite Hsz; frame_lia|split; [by rewrite Hid|by destruct Hg]]. }
  exists (hdr_enc (Header g) ++ p). split.
  - intros send. eexists. replace g with (setHeader (Header g) g) at 1 by (by destruct g).
    eapply (WriteOut_spec g Some); [exact Hbuf| |done|apply Hfh].
    rewrite length_take. destruct Hg. frame_lia.
  - intros rest e. rewrite <- app_assoc.
    destruct (ReadIn_spec dst Hdst (Header g) p rest e Hfh Hsz) as (g' & HR & Hg' & Hh & Hsp' & _).
    exists g'. split; [exact HR|]. split_and!; try done; rewrite Hh; done.
Qed.

Lemma transmit frames sent :
  Forall2 sent_as frames sent → Forall (λ f, 0 <= ID (fg_hdr f) < 2^32) sent →
  ∃ wires, Forall2 on_wire frames wires
  ∧ ∀ dsts rest e, Forall frame_ok dsts → length dsts = length frames →
    ∃ frames', read_frames dsts (mkStream (concat wires ++ rest) e) = Ret (Some frames', mkStream rest e)
    ∧ Forall2 sent_as frames' sent.
Proof.
  induction 1 as [|g f frames sent Hg Hgs IH]; intros Hids.
  { exists []. split; [done|]. intros [|] rest e _ Hl; [|done]. by exists []. }
  apply Forall_cons in Hids as [Hid Hids]. destruct (IH Hids) as (wires & Hw & Hread).
  destruct (transmit_frame g f (NewFrame (Z.to_nat MaxFramePayloadSize)) Hg Hid NewFrame_ok)
    as (wire & Hwire & _).
  exists (wire :: wires). split; [by constructor|].
  intros [|dst dsts] rest e Hd Hl; [done|]. apply Forall_cons in Hd as [Hdst Hd].
  destruct (transmit_frame g f dst Hg Hid Hdst) as (wire' & Hwire' & Hr).
  assert (wire' = wire) as ->.
  { destruct (Hwire (λ b, Some (otherError b))) as (? & E1).
    destruct (Hwire' (λ b, Some (otherError b))) as (? & E2). congruence. }
  cbn [concat read_frames]. rewrite <- app_assoc.
  destruct (Hr (concat wires ++ rest) e) as (g' & HR & Hg'). rewrite HR.
  destruct (Hread dsts rest e Hd) as (frames' & HR' & Hf'); [simpl in Hl; lia|].
  cbn [mbind go_bind]. rewrite HR'. exists (g' :: frames'). split; [done|]. by constructor.
Qed.

Lemma stamped_ids msgs callID fl final initial c l :
  stamped (sender_mid msgs callID) fl final initial c l → Forall (λ f, ID (fg_hdr f) = callID) l.
Proof.
  revert initial c. induction l as [|f l IH]; intros initial c; [done|].
  intros [((_ & Hid & _) & _) Hst]. constructor; [done|by eapply IH].
Qed.

Lemma stamped_mono mid1 mid2 fl final initial c l :
  (∀ b t hdr mid, mid1 b t hdr mid → t = TypeCode c → mid2 b t hdr mid) →
  stamped mid1 fl final initial c l → stamped mid2 fl final initial c l.
Proof.
  revert initial c. induction l as [|f l IH]; intros initial c Hm; [done|].
  intros [(H1 & H2) Hst]. split; [split; [by apply Hm|done]|]. eapply IH; [|done].
  intros b t hdr mid. rewrite AddState_TypeCode. apply Hm.
Qed.

(** A reader at the start of a call whose exchange receives [frames]: either all of
    them (a response), or all but the first, which has been parsed already (a
    request, in handleCallReq). *)
Definition reader_fed (msgs : bool → message) (callID : Z) (frames : list Frame)
    (r : reqResReader) : Prop :=
  rr_state r = reqResReaderPreArg1 ∧ rr_err r = None ∧ rr_picks r = []
  ∧ message_type (rr_messageForFragment r false) = message_type (msgs false)
  ∧ ∃ mex, heap (rr_set r) !! rr_mex r = Some mex ∧ mx_ctx mex = None ∧ msgID mex = callID
  ∧ match initialFragment r with
    | None => rr_kind r = readsResponse
              ∧ message_type (rr_messageForFragment r true) = message_type (msgs true)
              ∧ recvCh mex = frames
    | Some rf => rr_kind r = readsRequest ∧ message_type (msgs true) = messageTypeCallReq
              ∧ ∃ g ref m0 m', frames = g :: recvCh mex
        ∧ message_type m0 = message_type (msgs true)
        ∧ parseInboundFragment ref g m0 = Ret (Some rf, None, m')
    end.

Lemma reader_fed_incoming msgs callID frames sent t c r :
  reader_fed msgs callID frames r → Forall2 sent_as frames sent →
  TypeCode c = t → sized c → stamped (receiver_mid msgs callID) x00 true true c sent →
  receiver_incoming msgs callID reqResReaderPreArg1 r true sent.
Proof.
  intros (Hs & He & Hp & Hty & mex & Hmex & Hctx & Hid & Hfed) Hsent Hc Hsz Hst.
  split_and!; [done..|]. exists mex. split_and!; [done..|].
  destruct (initialFragment r) as [rf|].
  - destruct Hfed as (Hk & Hreq & g & ref & m0 & m' & -> & Hm0 & Hparse).
    split; [by destruct (msgs true)|].
    apply Forall2_cons_inv_l in Hsent as (f & l & Hf & Hl & ->). exists f, l. split_and!; [done| |done].
    destruct Hst as [(Hmid & _ & Hsum & _) _].
    destruct (parseInboundFragment_spec msgs callID ref g f m0 (TypeCode c) true Hf Hmid)
      as (rf' & m'' & Hparse' & Hparsed & _ & _); [|done|congruence].
    by rewrite Hsum, length_Sum, AddState_Size.
  - destruct Hfed as (Hk & Htrue & ->). by split_and!.
Qed.

(** The frames of a call are put on the wire and read by the peer frame by frame;
    [P] holds of every reader of the peer that is fed with what it has read. *)
Definition received_as (msgs : bool → message) (callID : Z) (frames : list Frame)
    (P : fragmentingReader reqResReader → Prop) : Prop :=
  ∃ wires, Forall2 on_wire frames wires
  ∧ ∀ dsts rest e, Forall frame_ok dsts → length dsts = length frames →
    ∃ frames', read_frames dsts (mkStream (concat wires ++ rest) e)
               = Ret (Some frames', mkStream rest e)
    ∧ ∀ r0 rps choice, reader_fed msgs callID frames' r0 → pools_ok rps →
      P (newFragmentingReader r0 rps choice).

(** The reader is ready to deliver the arguments [args]. *)
Definition arrives (msgs : bool → message) (callID : Z) (frames : list Frame)
    (args : list bytes) : Prop :=
  received_as msgs callID frames (λ r,
    ridle (H0 := RG msgs callID reqResReaderPreArg1) r args (length frames)).

(** The reader delivers [d1], [d2] and [d3], for any buffers large enough. *)
Definition delivered (msgs : bool → message) (callID : Z) (frames : list Frame)
    (d1 d2 d3 : bytes) : Prop :=
  received_as msgs callID frames (λ r, ∀ fuel s1 s2 s3,
    (length frames < fuel)%nat → (length d1 < sum_list s1)%nat →
    (length d2 < sum_list s2)%nat → (length d3 < sum_list s3)%nat →
    ∃ r', read_call fuel s1 s2 s3 r = Ret (Some (d1, d2, d3), r')).

Lemma received_impl msgs callID frames (P Q : fragmentingReader reqResReader → Prop) :
  (∀ r, P r → Q r) → received_as msgs callID frames P → received_as msgs callID frames Q.
Proof.
  intros HPQ (wires & Hw & Harr). exists wires. split; [done|]. intros dsts rest e Hd Hl.
  destruct (Harr dsts rest e Hd Hl) as (frames' & HR & HP). exists frames'. split; [done|].
  intros r0 rps choice Hfed Hps. by apply HPQ, HP.
Qed.

Lemma stamped_arrives msgs callID t frames sent args :
  (∀ b, message_ok (msgs b)) → 0 <= callID < 2^32 →
  valid t = true → t ≠ ChecksumTypeFarmhash →
  Forall2 sent_as frames sent → stamped (sender_mid msgs callID) x00 true true (fresh t) sent →
  args_of (fg_chunks <$> sent) = args → args ≠ [] → arrives msgs callID frames args.
Proof.
  intros Hok Hid Hv Hne Hsent Hst <- Hargs.
  pose proof (fresh_TypeCode t Hv Hne) as Hcode.
  pose proof (stamped_ids _ _ _ _ _ _ _ Hst) as Hids.
  destruct (transmit frames sent Hsent) as (wires & Hwires & Hread).
  { eapply Forall_impl; [exact Hids|]. by intros f ->. }
  exists wires. split; [done|].
  intros dsts rest e Hd Hl. destruct (Hread dsts rest e Hd Hl) as (frames' & HR & Hsent').
  exists frames'. split; [done|]. intros r0 rps choice Hfed Hps.
  assert (Hsz : sized (fresh t)) by (unfold sized; rewrite Hcode; by apply fresh_Size).
  assert (Hst' : stamped (receiver_mid msgs callID) x00 true true (fresh t) sent).
  { eapply stamped_mono; [|exact Hst]. intros b t' hdr mid (-> & H1 & H2) ->.
    split_and!; [by rewrite Hcode|done..|]. exists (msgs b). split_and!; [apply Hok|done..]. }
  left. split_and!; [done..|]. exists (fresh t).
  pose proof (reader_fed_incoming _ _ _ _ t _ r0 Hfed Hsent' Hcode Hsz Hst') as Hin.
  destruct sent as [|f l]; [done|]. exists f, l. split_and!; try done.
  - split_and!; try done. by rewrite Hcode.
  - by apply Forall2_length in Hsent as ->.
Qed.

Lemma arrives_delivered msgs callID frames d1 d2 d3 :
  arrives msgs callID frames [d1; d2; d3] → delivered msgs callID frames d1 d2 d3.
Proof.
  apply received_impl. intros r Hidle fuel s1 s2 s3 Hfuel L1 L2 L3.
  by apply (read_call_spec msgs callID fuel s1 s2 s3 _ _ _ _ (length frames)).
Qed.

Lemma stamped_delivered msgs callID t frames sent d1 d2 d3 :
  (∀ b, message_ok (msgs b)) → 0 <= callID < 2^32 →
  valid t = true → t ≠ ChecksumTypeFarmhash →
  Forall2 sent_as frames sent → stamped (sender_mid msgs callID) x00 true true (fresh t) sent →
  args_of (fg_chunks <$> sent) = [d1; d2; d3] →
  delivered msgs callID frames d1 d2 d3.
Proof. intros. apply arrives_delivered. by eapply stamped_arrives. Qed.

(** C1: the arguments of a call survive the trip.  Whatever pattern of writes and
    flushes the caller uses for each of the three arguments, the frames the call
    sends, written to the connection, read back by the peer frame by frame and
    handed to its reader, give exactly the arguments that were written, for any
    sizes of the buffers the peer reads with ([delivered]). *)
Theorem call_roundtrip msgs callID t w0 ps a1 a2 a3 :
  (∀ b, message_fits (msgs b)) → 0 <= callID < 2^32 →
  valid t = true → t ≠ ChecksumTypeFarmhash →
  sender_ready msgs callID reqResWriterPreArg1 w0 →
  ∃ w' frames,
    write_call a1 a2 a3 (newFragmentingWriter w0 ps (fresh t)) = Ret (None, w')
    ∧ sendCh (fw_sender w') = sendCh w0 ++ frames
    ∧ delivered msgs callID frames (arg_value a1) (arg_value a2) (arg_value a3).
Proof.
  intros Hfits Hid Hv Hne Hready.
  destruct (write_call_spec msgs callID Hfits (fresh t) (sendCh w0)
    (newFragmentingWriter w0 ps (fresh t)) a1 a2 a3) as (w' & Hwrite & frames & sent & Hch & Hsent & Hst & Hargs & _).
  { left. split_and!; [done..|]. split_and!; try done; [by rewrite AddState_nil|].
    exists []. split; [by rewrite app_nil_r|constructor]. }
  exists w', frames. split_and!; [done..|].
  apply (stamped_delivered msgs callID t frames sent); try done. intros b. apply Hfits.
Qed.

(** ** Whatever the peer sends *)

(** The frames that wait in the exchange came through ReadIn, so that their sized
    payload exists; a closed error channel has an error. *)
Definition mex_sane (m : messageExchange) : Prop :=
  Forall (λ g, is_Ret (SizedPayload g)) (recvCh m)
  ∧ (en_c (errCh m) = true → is_Some (en_err (errCh m))).

Definition sane (r : reqResReader) : Prop :=
  ∃ mex, heap (rr_set r) !! rr_mex r = Some mex ∧ mex_sane mex.

Lemma shutdown_sane ref s m :
  heap s !! ref = Some m → mex_sane m →
  ∃ m', heap (mex_shutdown ref s) !! ref = Some m' ∧ mex_sane m'.
Proof.
  intros Hm [Hg He]. unfold mex_shutdown. rewrite Hm. destruct (shutdownAtomic m); [by exists m|].
  rewrite removeExchange_heap. cbn [heap set_heap]. eexists. rewrite lookup_insert_eq.
  split; [done|]. unfold notifyOnce, Notify. cbn.
  destruct (errChNotified m), (notified (errCh m)); by split.
Qed.

Lemma sane_failed r e : sane r → sane (rr_failed e r).2.
Proof.
  intros (mex & Hm & Hg). unfold rr_failed. destruct (rr_err r); [by exists mex|].
  by apply (shutdown_sane _ _ mex).
Qed.

Lemma recvPeerFrame_sane ctx p m f e m' :
  mex_sane m → recvPeerFrame ctx p m = Some (f, e, m') →
  mex_sane m' ∧ (is_Some e ∨ ∃ g, f = Some g ∧ e = None ∧ is_Ret (SizedPayload g)).
Proof.
  intros Hsane Hr. pose proof Hsane as [Hg He].
  assert (Htake : takeFrame m = Some (f, e, m') →
    mex_sane m' ∧ (is_Some e ∨ ∃ g, f = Some g ∧ e = None ∧ is_Ret (SizedPayload g))).
  { unfold takeFrame. destruct (recvCh m) as [|g rest]; [done|]. apply Forall_cons in Hg as [Hg Hrest].
    destruct (checkFrame _ _); intros [= <- <- <-]; (split; [by split|]); [left; by eexists|right; by exists g]. }
  unfold recvPeerFrame in Hr. destruct (mx_ctx m); [simplify_eq; split; [by split|left; by eexists]|].
  destruct p; [by apply Htake|..].
  - destruct ctx; cbn in Hr; simplify_eq. split; [by split|left; by eexists].
  - destruct (en_c _) eqn:E; [|done]. destruct (takeFrame m) eqn:Et; [apply Htake; congruence|].
    simplify_eq. split; [done|left; by apply He].
Qed.

Lemma recvPeerFrameOfType_sane ctx p t pool m x :
  mex_sane m → recvPeerFrameOfType ctx p t pool m = Some x →
  ∃ f e m' pool', x = Ret (f, e, m', pool') ∧ mex_sane m'
  ∧ (is_Some e ∨ ∃ g, f = Some g ∧ e = None ∧ is_Ret (SizedPayload g)).
Proof.
  intros Hm. unfold recvPeerFrameOfType.
  destruct (recvPeerFrame ctx p m) as [[[f e] m']|] eqn:E; cbn; [|done]. intros [= <-].
  destruct (recvPeerFrame_sane _ _ _ _ _ _ Hm E) as [Hm' [[e' ->]|(g & -> & -> & [sp Hsp])]].
  { do 4 eexists. split; [reflexivity|]. split; [done|left; by eexists]. }
  case_decide.
  { do 4 eexists. split; [reflexivity|]. split; [done|right; exists g; by split_and!; try eexists]. }
  case_decide.
  - rewrite Hsp. cbn [mbind go_bind]. destruct (errorMessage_read _ _) as [[em err] rb].
    destruct err; do 4 eexists; (split; [reflexivity|]); (split; [done|left; by eexists]).
  - do 4 eexists. split; [reflexivity|]. split; [done|left; by eexists].
Qed.

Lemma parseInboundFragment_total ref g m :
  is_Ret (SizedPayload g) → ∃ f e m', parseInboundFragment ref g m = Ret (f, e, m') ∧ (e = None → is_Some f).
Proof.
  intros [sp Hsp]. unfold parseInboundFragment. rewrite Hsp. cbn [mbind go_bind].
  destruct (ReadSingleByte _) as [fl rb]. destruct (message_read m rb) as [[m' [e|]] rb1].
  { by do 3 eexists. }
  destruct (ReadSingleByte rb1) as [t rb2]. destruct (valid t); cbn [negb]; [|by do 3 eexists].
  destruct (ReadBytes _ rb2) as [sum rb3]. do 3 eexists. split; [reflexivity|]. by eexists.
Qed.

Lemma reqResReader_total : receiver_total sane.
Proof.
  split; cbn [recvNextFragment doneReading set_isDone onDone reqResReader_receiver].
  - intros b r (mex & Hm & Hsane). unfold rr_recvNextFragment.
    destruct (initialFragment r) as [rf|]; [split; [by exists mex|by eexists]|]. rewrite Hm.
    destruct (default _ _) as [ctx' p].
    destruct (recvPeerFrameOfType ctx' p _ _ mex) as [x|] eqn:Ex; [|done].
    destruct (recvPeerFrameOfType_sane _ _ _ _ _ _ Hsane Ex) as (f & e & m' & pool' & -> & Hm' & Hcase).
    set (r1 := rr_set_recv _ _ _ r).
    assert (Hr1 : sane r1) by (exists m'; cbn; by rewrite lookup_insert_eq).
    assert (Hfail : ∀ e, match (let '(e, r) := rr_failed e r1 in
        Ret ((@None readableFragment, e), r)) with
      | Ret ((f, e), x') => sane x' ∧ (e = None → is_Some f) | Panic => False | OutOfFuel => True end).
    { intros e0. pose proof (sane_failed r1 e0 Hr1) as Hs. unfold rr_failed in *.
      destruct (rr_err r1); by split. }
    destruct Hcase as [[e' ->]|(g & -> & -> & Hg)].
    + destruct e'; try apply Hfail. by split.
    + destruct (parseInboundFragment_total (length (rr_frames r1)) g (rr_messageForFragment r b) Hg)
        as (fr & e & m1 & -> & Hfr). destruct e as [e|]; [apply Hfail|]. split; [|by intros _; apply Hfr].
      unfold rr_keep_message. by destruct b, (rr_kind r1).
  - intros e r (mex & Hm & Hsane). unfold rr_doneReading. destruct (rr_kind r); [|by exists mex].
    by apply (shutdown_sane _ _ mex).
  - intros n r Hr. unfold rr_mark, rr_onDone. destruct (rr_frames r !! n); exact Hr.
Qed.
End reqres.

Lemma call_roundtrip_witness :
  let _ := storage_range in
  let msgs := λ b : bool, if b
    then mCallReq (mkCallReq 7 (1000 * millisecond) (mkSpan 1 0 1 x00)
           (<[CallerName := str "me"]> ∅) (str "svc"))
    else mCallReqContinue (mkCallReqContinue 0) in
  let set := (newExchange None messageTypeCallReq 7 2 newMessageExchangeSet).2 in
  let w0 := mkReqResWriter writesRequest set 0 disabledFramePool None [] [] reqResWriterPreArg1 msgs None in
  ∃ w', write_call [ArgWrite (str "echo")] [] [ArgWrite (str "he"); ArgFlush; ArgWrite (str "llo")]
          (newFragmentingWriter w0 emptyPools (fresh ChecksumTypeCrc32)) = Ret (None, w')
  ∧ delivered msgs 7 (sendCh (fw_sender w')) (str "echo") [] (str "hello").
Proof.
  intros MR msgs set w0.
  destruct (call_roundtrip msgs 7 ChecksumTypeCrc32 w0 emptyPools [ArgWrite (str "echo")] []
    [ArgWrite (str "he"); ArgFlush; ArgWrite (str "llo")]) as (w' & frames & H & Hch & HD).
  - intros [|]; (split; [|vm_compute; congruence]); [|exact I].
    split_and!; try (vm_compute; congruence).
    + repeat split; vm_compute; congruence.
    + split; [reflexivity|]. apply (bool_decide_unpack _). vm_compute. exact I.
  - split; vm_compute; congruence.
  - reflexivity.
  - discriminate.
  - repeat split. eexists. split; [reflexivity|]. split; reflexivity.
  - exists w'. split; [exact H|]. rewrite Hch. exact HD.
Defined.

Lemma reader_never_panics_witness :
  let _ := storage_range in
  let set := (newExchange None messageTypeCallReq 7 2 newMessageExchangeSet).2 in
  let garbage := mkFrame (replicate (Z.to_nat 65535) xff)
    (mkFrameHeader 40 messageTypeCallRes x00 7 (replicate 8 x00)) in
  let set := set_heap (alter (mex_set_recvCh [garbage]) 0%nat (heap set)) set in
  let r := mkReqResReader readsResponse set 0 disabledFramePool [] reqResReaderPreArg1
    (λ _, mCallRes (mkCallRes 7 x00 emptySpan ∅)) None None None [] ∅ in
  run_reader_ops [RClose; RBegin false; RRead 5 3; RClose; RBegin true]
    (newFragmentingReader r emptyPools None) ≠ Panic.
Proof.
  intros MR set garbage set' r.
  apply (reader_never_panics sane reqResReader_total).
  eexists. split; [reflexivity|]. split; [|discriminate].
  constructor; [|constructor]. eexists. reflexivity.
Defined.
