(* ===== verification/Conc.v ===== *)
(** * Interleaved code

    A [prog] is code cut into atomic actions: each action runs under a lock or is a
    single atomic operation of the source, and other goroutines can act in between.
    [run] executes a program without interference; [sched_step] interleaves any
    number of them.

    [cwp] is the proof rule for shared accounts.  A state invariant [Inv], a relation
    [Guar] that every action keeps, and a balance [bal] are given; every thread holds
    a credit, the credits of all threads add up to the balance, and an action may
    change the balance only together with the credit of the thread that performs it.
    Of the other threads a thread knows only that they keep [Guar]: it has last seen
    the state [s0], and it acts on any state that [Guar] relates to that one.
    [sched_safe] then gives the invariant, the sum and the absence of panics for
    every interleaving, and [sched_guar] relates any two states of a run. *)

From S2P Require Import Prelude.

Inductive prog (S A : Type) : Type :=
| done_ (a : A)
| act {R : Type} (m : GO S R) (k : R → prog S A).
Arguments done_ {S A} a.
Arguments act {S A R} m k.

Fixpoint prog_bind {S A B} (k : A → prog S B) (p : prog S A) : prog S B :=
  match p with
  | done_ a => k a
  | act m c => act m (λ r, prog_bind k (c r))
  end.

#[export] Instance prog_ret S : MRet (prog S) := λ A, done_.
#[export] Instance prog_mbind S : MBind (prog S) := λ A B, prog_bind.

(** One action. *)
Definition atomic {S A} (m : ST S A) : prog S A := act (glift m) done_.
Definition atomic_go {S A} (m : GO S A) : prog S A := act m done_.

Fixpoint run {S A} (p : prog S A) : GO S A := λ s,
  match p with
  | done_ a => Ret (a, s)
  | act m k =>
      match m s with
      | Ret (r, s) => run (k r) s
      | Panic => Panic
      | OutOfFuel => OutOfFuel
      end
  end.

Lemma run_bind {S A B} (k : A → prog S B) (p : prog S A) s :
  run (p ≫= k) s = (run p ≫= λ a, run (k a)) s.
Proof.
  revert s. induction p as [a|R m c IH]; intros s; [done|].
  unfold mbind, prog_mbind, gost_bind in *. cbn [prog_bind run].
  destruct (m s) as [[r s']| |]; [apply IH|done..].
Qed.

Lemma run_bind_ret {S A B} (k : A → prog S B) (p : prog S A) s a s' :
  run p s = Ret (a, s') → run (p ≫= k) s = run (k a) s'.
Proof. intros E. rewrite run_bind. by erewrite gost_bind_run by exact E. Qed.

Lemma run_atomic {S A B} (m : ST S A) (k : A → prog S B) s :
  run (atomic m ≫= k) s = run (k (m s).1) (m s).2.
Proof. cbn. unfold glift. by destruct (m s). Qed.

(** ** Programs that do the same

    Two programs are equivalent if they perform the same actions in the same order and
    return the same; they can be told apart by no interleaving. *)

Inductive prog_equiv {S A} : relation (prog S A) :=
| equiv_done a : prog_equiv (done_ a) (done_ a)
| equiv_act R (m : GO S R) k k' : (∀ r, prog_equiv (k r) (k' r)) → prog_equiv (act m k) (act m k').

#[export] Instance prog_Equiv S A : Equiv (prog S A) := prog_equiv.

Lemma prog_equiv_trans {S A} (p q r : prog S A) : p ≡ q → q ≡ r → p ≡ r.
Proof.
  intros H. revert r. induction H as [a|R m k k' _ IH]; [done|]. intros z H.
  refine (match H in prog_equiv y z return
    match y with
    | act m k' => ∀ k, (∀ r q, k' r ≡ q → k r ≡ q) → act m k ≡ z
    | _ => True
    end with
  | equiv_done a => I
  | equiv_act _ m k k' Hk => λ k0 H0, equiv_act _ m k0 k' (λ r, H0 r _ (Hk r))
  end k IH).
Qed.

#[export] Instance prog_equivalence S A : Equivalence (≡@{prog S A}).
Proof.
  split.
  - intros p. induction p; constructor; auto.
  - intros p q. induction 1; constructor; auto.
  - intros p q r. apply prog_equiv_trans.
Qed.

#[export] Instance prog_bind_proper S A B :
  Proper (pointwise_relation A (≡) ==> (≡) ==> (≡)) (prog_bind (S := S) (A := A) (B := B)).
Proof.
  intros k k' Hk p p' Hp. induction Hp as [a|R m c c' _ IH]; [apply Hk|]. by constructor.
Qed.

Lemma bind_equiv {S A B} (p : prog S A) (k k' : A → prog S B) : (∀ a, k a ≡ k' a) → p ≫= k ≡ p ≫= k'.
Proof. intros H. by apply prog_bind_proper. Qed.

#[export] Instance run_proper S A : Proper ((≡) ==> (=) ==> (=)) (run (S := S) (A := A)).
Proof.
  intros p p' Hp s _ <-. revert s. induction Hp as [a|R m k k' _ IH]; intros s; cbn; [done|].
  destruct (m s) as [[r s']| |]; [apply IH|done..].
Qed.

(** ** Runs without interference

    A program that starts in [P] does not panic, and if it is not left waiting it ends
    in [Q]. *)

Definition triple {S A} (P : S → Prop) (p : prog S A) (Q : A → S → Prop) : Prop :=
  ∀ s, P s → match run p s with Ret (a, s') => Q a s' | Panic => False | OutOfFuel => True end.

Lemma triple_ret {S A} (P : S → Prop) (a : A) (Q : A → S → Prop) :
  (∀ s, P s → Q a s) → triple P (mret a) Q.
Proof. intros H s Hs. by apply H. Qed.

Lemma triple_bind {S A B} (P : S → Prop) (p : prog S A) (k : A → prog S B) (R : A → S → Prop) Q :
  triple P p R → (∀ a, triple (R a) (k a) Q) → triple P (p ≫= k) Q.
Proof.
  intros Hp Hk s Hs. rewrite run_bind. unfold mbind, gost_bind. specialize (Hp s Hs).
  destruct (run p s) as [[a s']| |]; [|done..]. by apply Hk.
Qed.

Lemma triple_conseq {S A} (P P' : S → Prop) (p : prog S A) (Q Q' : A → S → Prop) :
  triple P p Q → (∀ s, P' s → P s) → (∀ a s, Q a s → Q' a s) → triple P' p Q'.
Proof.
  intros H HP HQ s Hs. specialize (H s (HP s Hs)). destruct (run p s) as [[a s']| |]; auto.
Qed.

(** The precondition as facts about the state. *)
Lemma triple_pure {S A} (P : S → Prop) (F : Prop) (p : prog S A) Q :
  (F → triple P p Q) → triple (λ s, F ∧ P s) p Q.
Proof. intros H s [HF Hs]. by apply H. Qed.

Lemma triple_atomic {S A} (P : S → Prop) (m : ST S A) (Q : A → S → Prop) :
  (∀ s, P s → Q (m s).1 (m s).2) → triple P (atomic m) Q.
Proof. intros H s Hs. cbn. unfold glift. specialize (H s Hs). by destruct (m s). Qed.

Lemma triple_act {S A} (P : S → Prop) (m : GO S A) (Q : A → S → Prop) :
  (∀ s, P s → match m s with Ret (a, s') => Q a s' | Panic => False | OutOfFuel => True end) →
  triple P (atomic_go m) Q.
Proof. intros H s Hs. cbn. specialize (H s Hs). by destruct (m s) as [[a s']| |]. Qed.

(** The same for a program that may panic when [pan] holds. *)
Definition ptriple {S A} (pan : Prop) (P : S → Prop) (p : prog S A) (Q : A → S → Prop) : Prop :=
  ∀ s, P s → match run p s with Ret (a, s') => Q a s' | Panic => pan | OutOfFuel => True end.

Lemma triple_ptriple {S A} pan (P : S → Prop) (p : prog S A) Q : triple P p Q → ptriple pan P p Q.
Proof. intros H s Hs. specialize (H s Hs). by destruct (run p s) as [[a s']| |]. Qed.

Lemma ptriple_bind {S A B} pan (P : S → Prop) (p : prog S A) (k : A → prog S B) (R : A → S → Prop) Q :
  ptriple pan P p R → (∀ a, ptriple pan (R a) (k a) Q) → ptriple pan P (p ≫= k) Q.
Proof.
  intros Hp Hk s Hs. rewrite run_bind. unfold mbind, gost_bind. specialize (Hp s Hs).
  destruct (run p s) as [[a s']| |]; [|done..]. by apply Hk.
Qed.

Lemma ptriple_conseq {S A} pan (P P' : S → Prop) (p : prog S A) (Q Q' : A → S → Prop) :
  ptriple pan P p Q → (∀ s, P' s → P s) → (∀ a s, Q a s → Q' a s) → ptriple pan P' p Q'.
Proof.
  intros H HP HQ s Hs. specialize (H s (HP s Hs)). destruct (run p s) as [[a s']| |]; auto.
Qed.

(** ** One thread *)

Inductive pstep {S A} : prog S A * S → prog S A * S → Prop :=
| pstep_act R (m : GO S R) k s r s' : m s = Ret (r, s') → pstep (act m k, s) (k r, s').

Lemma psteps_bind {S A B} (k : A → prog S B) (p p' : prog S A) s s' :
  rtc pstep (p, s) (p', s') → rtc pstep (p ≫= k, s) (p' ≫= k, s').
Proof.
  intros H. remember (p, s) as x eqn:Ex. remember (p', s') as y eqn:Ey. revert p s Ex.
  induction H as [x|x y z Hxy _ IH]; intros p s Ex; simplify_eq; [done|].
  inversion Hxy as [R m c s1 r s2 Hm E1 E2]; simplify_eq.
  eapply rtc_l; [|by eapply IH]. by apply (pstep_act R m (λ r, prog_bind k (c r))).
Qed.

Lemma psteps_run {S A B} (k : A → prog S B) (p : prog S A) s a s' x :
  run p s = Ret (a, s') → rtc pstep (k a, s') x → rtc pstep (p ≫= k, s) x.
Proof.
  intros Hr Hx. revert s Hr. induction p as [b|R m c IH]; intros s Hr; cbn in Hr; [by simplify_eq|].
  destruct (m s) as [[r s1]| |] eqn:Hm; [|done..].
  eapply rtc_l; [by apply (pstep_act R m (λ r, prog_bind k (c r)))|]. by apply IH.
Qed.

(** The first [n] actions of a program. *)
Fixpoint nsteps {S A} (n : nat) (p : prog S A) (s : S) : option (prog S A * S) :=
  match n, p with
  | O, _ => Some (p, s)
  | Datatypes.S n, act m k => match m s with Ret (r, s') => nsteps n (k r) s' | _ => None end
  | Datatypes.S _, done_ _ => None
  end.

Lemma nsteps_psteps {S A} n (p p' : prog S A) s s' : nsteps n p s = Some (p', s') → rtc pstep (p, s) (p', s').
Proof.
  revert p s. induction n as [|n IH]; intros p s; [intros [= <- <-]; apply rtc_refl|].
  destruct p as [a|R m k]; [done|]. cbn. destruct (m s) as [[r s1]| |] eqn:E; [|done..].
  intros H. eapply rtc_l; [by apply pstep_act|]. by apply IH.
Qed.

(** ** Accounts

    Values of [K] are accounts with one amount for each index. *)

Class Account (K I : Type) := {
  amount : K → I → Z;
  acc0 : K;
  amount_acc0 i : amount acc0 i = 0
}.
#[global] Hint Mode Account + - : typeclass_instances.

(** Two amounts, kept side by side. *)
Definition acc : Type := Z * Z.
#[export] Instance acc_account : Account acc bool := {
  amount k i := if i then k.1 else k.2;
  acc0 := (0, 0);
  amount_acc0 i := match i with true => eq_refl | false => eq_refl end
}.

Section account.
Context {K I : Type} `{!Account K I}.

Definition acc_le (a b : K) : Prop := ∀ i, amount a i <= amount b i.
Definition acc_same (a b : K) : Prop := ∀ i, amount a i = amount b i.
(** The balance goes from [b] to [b'] as the credit goes from [k] to [k']. *)
Definition acc_moved (b k b' k' : K) : Prop := ∀ i, amount b' i + amount k i = amount b i + amount k' i.
Definition acc_total (ks : list K) (i : I) : Z := foldr (λ k z, amount k i + z) 0 ks.

#[export] Instance acc_same_equiv : Equivalence acc_same.
Proof. split; [by intros a i|intros a b H i; by rewrite H|intros a b c H1 H2 i; by rewrite H1]. Qed.

Lemma acc_moved_same b k b' k' : acc_same b' b → acc_same k' k → acc_moved b k b' k'.
Proof. intros Hb Hk i. rewrite Hb, Hk. lia. Qed.

Lemma acc_moved_trans b k b1 k1 b2 k2 : acc_moved b k b1 k1 → acc_moved b1 k1 b2 k2 → acc_moved b k b2 k2.
Proof. intros H1 H2 i. specialize (H1 i). specialize (H2 i). lia. Qed.
End account.

Lemma acc_same_eq (a b : acc) : acc_same a b → a = b.
Proof. intros H. apply injective_projections; [exact (H true)|exact (H false)]. Qed.

Lemma acc_le_pair (a b : acc) : a.1 <= b.1 → a.2 <= b.2 → acc_le a b.
Proof. intros H1 H2 []; [exact H1|exact H2]. Qed.

(** Arithmetic on accounts, index by index. *)
Ltac acc_at x := repeat match goal with H : ∀ _, _ |- _ => specialize (H x) end.
Ltac acc_lia :=
  repeat match goal with |- ?P → _ => match type of P with Prop => intro end end;
  unfold acc_le, acc_same, acc_moved, acc_total in *;
  let x := fresh "x" in intros x; acc_at x; rewrite ?amount_acc0 in *; try destruct x; cbn in *; lia.

(** ** Threads *)

Section threads.
Context {S : Type}.

Definition config : Type := S * list (prog S unit).

(** [spawned] are the programs goroutines run. *)
Inductive sched_step (spawned : prog S unit → Prop) : config → config → Prop :=
| sched_act s ts i R (m : GO S R) k r s' :
    ts !! i = Some (act m k) → m s = Ret (r, s') →
    sched_step spawned (s, ts) (s', <[i := k r]> ts)
| sched_spawn s ts p :
    spawned p → sched_step spawned (s, ts) (s, ts ++ [p]).

(** Some thread's next action panics. *)
Definition panics (c : config) : Prop :=
  ∃ i R (m : GO S R) k, c.2 !! i = Some (act m k) ∧ m c.1 = Panic.

Definition finished (p : prog S unit) : Prop := ∃ a, p = done_ a.

(** A run without interference is one of the schedules. *)
Lemma run_schedule spawned (p : prog S unit) s a s' ts :
  spawned p → run p s = Ret (a, s') → rtc (sched_step spawned) (s, ts) (s', ts ++ [done_ a]).
Proof.
  intros Hp Hr. eapply rtc_l; [by apply sched_spawn|]. clear Hp. revert s Hr.
  induction p as [b|R m k IH]; intros s Hr; cbn in Hr.
  { injection Hr as -> ->. apply rtc_refl. }
  destruct (m s) as [[r s1]| |] eqn:Hm; [|done..].
  eapply rtc_l; [apply (sched_act _ s _ (length ts) _ m k r s1)|].
  - by rewrite lookup_app_r, Nat.sub_diag by done.
  - done.
  - rewrite insert_app_r_alt, Nat.sub_diag by done. by apply IH.
Qed.

Section accounts.
Context {K I : Type} `{!Account K I}.
Context (Inv : S → Prop) (Guar : S → S → Prop) (bal : S → K).
Context `{!PreOrder Guar}.

Fixpoint cwp {A} (s0 : S) (k : K) (p : prog S A) (Q : A → S → K → Prop) : Prop :=
  match p with
  | done_ a => Q a s0 k
  | act m c => ∀ s, Guar s0 s → Inv s → acc_le k (bal s) →
      match m s with
      | Ret (r, s') =>
          Inv s' ∧ Guar s s' ∧ ∃ k', acc_le acc0 k' ∧ acc_moved (bal s) k (bal s') k' ∧ cwp s' k' (c r) Q
      | Panic => False
      | OutOfFuel => True
      end
  end.

Lemma cwp_bind {A B} s0 k (p : prog S A) (c : A → prog S B) Q :
  cwp s0 k p (λ a s k', cwp s k' (c a) Q) → cwp s0 k (p ≫= c) Q.
Proof.
  revert s0 k. induction p as [a|R m d IH]; intros s0 k; [done|].
  intros H s HR Hs Hk. specialize (H s HR Hs Hk). destruct (m s) as [[r s']| |]; [|done..].
  destruct H as (Hs' & HG & k' & H0 & Hb & H). split_and!; [done..|].
  exists k'. split_and!; [done..|]. by apply IH.
Qed.

(** The postcondition may use that the last seen state comes after the first. *)
Lemma cwp_frame {A} s1 s0 k (p : prog S A) (Q Q' : A → S → K → Prop) :
  Guar s1 s0 → (∀ a s k, Guar s1 s → Q a s k → Q' a s k) → cwp s0 k p Q → cwp s0 k p Q'.
Proof.
  intros Hr HQ. revert s0 k Hr. induction p as [a|R m d IH]; intros s0 k Hr; [by apply HQ|].
  intros H s HR Hs Hk. specialize (H s HR Hs Hk). destruct (m s) as [[r s']| |]; [|done..].
  destruct H as (Hs' & HG & k' & H0 & Hb & H). split_and!; [done..|].
  exists k'. split_and!; [done..|]. apply IH; [|done]. do 2 (etransitivity; [eassumption|]). done.
Qed.

Lemma cwp_mono {A} s0 k (p : prog S A) (Q Q' : A → S → K → Prop) :
  (∀ a s k, Guar s0 s → Q a s k → Q' a s k) → cwp s0 k p Q → cwp s0 k p Q'.
Proof. by apply cwp_frame. Qed.

(** An action that moves the credit to [k']. *)
Lemma cwp_act {A} s0 k (m : GO S A) (Q : A → S → K → Prop) :
  (∀ s, Guar s0 s → Inv s → acc_le k (bal s) →
     match m s with
     | Ret (r, s') => Inv s' ∧ Guar s s' ∧ ∃ k', acc_le acc0 k' ∧ acc_moved (bal s) k (bal s') k' ∧ Q r s' k'
     | Panic => False
     | OutOfFuel => True
     end) →
  cwp s0 k (atomic_go m) Q.
Proof. done. Qed.

Lemma cwp_atomic {A} s0 k (m : ST S A) (Q : A → S → K → Prop) :
  (∀ s, Guar s0 s → Inv s → acc_le k (bal s) →
     Inv (m s).2 ∧ Guar s (m s).2 ∧ ∃ k', acc_le acc0 k' ∧ acc_moved (bal s) k (bal (m s).2) k'
     ∧ Q (m s).1 (m s).2 k') →
  cwp s0 k (atomic m) Q.
Proof.
  intros H s HR Hs Hk. specialize (H s HR Hs Hk). unfold glift. destruct (m s) as [a s']. exact H.
Qed.

(** Equal credits are as good as each other. *)
Lemma cwp_credit {A} s0 k k' (p : prog S A) (Q : A → S → K → Prop) :
  acc_same k k' → acc_le acc0 k' → (∀ a s l l', acc_same l l' → Q a s l → Q a s l') →
  cwp s0 k' p Q → cwp s0 k p Q.
Proof.
  intros Hk H0 HQ. destruct p as [a|R m c]; cbn; [apply HQ; by symmetry|].
  intros H s HG Hs Hle. assert (Hle' : acc_le k' (bal s)) by acc_lia. specialize (H s HG Hs Hle').
  destruct (m s) as [[r s']| |]; [|done..]. destruct H as (HI & HG' & k1 & H1 & Hmv & Hc).
  split_and!; [done..|]. exists k1. split_and!; [done|acc_lia|done].
Qed.

(** A program that leaves its credit as it is, from whatever state. *)
Definition neutral {A} (p : prog S A) : Prop :=
  ∀ s0 k, acc_le acc0 k → cwp s0 k p (λ _ _ k', acc_same k' k).

Lemma cwp_neutral {A} s0 k (p : prog S A) (Q : A → S → K → Prop) :
  neutral p → acc_le acc0 k → (∀ a s k', Guar s0 s → acc_same k' k → Q a s k') → cwp s0 k p Q.
Proof. intros Hp Hk HQ. eapply cwp_mono; [|exact (Hp s0 k Hk)]. cbn. intros a s k' HG. by apply HQ. Qed.

Lemma neutral_bind {A B} (p : prog S A) (c : A → prog S B) :
  neutral p → (∀ a, neutral (c a)) → neutral (p ≫= c).
Proof.
  intros Hp Hc s0 k Hk. apply cwp_bind. eapply cwp_mono; [|by apply Hp].
  intros a s k' _ Hk'. eapply cwp_mono; [|apply Hc; acc_lia]. cbn. intros _ _ k'' _ Hk''. by rewrite Hk''.
Qed.

Lemma neutral_ret {A} (a : A) : neutral (mret a).
Proof. done. Qed.

Lemma neutral_atomic {A} (m : ST S A) :
  (∀ s, Inv s → Inv (m s).2 ∧ Guar s (m s).2 ∧ acc_same (bal (m s).2) (bal s)) → neutral (atomic m).
Proof.
  intros H s0 k Hk. apply cwp_atomic. intros s _ Hs _. destruct (H s Hs) as (HI & HG & Hb).
  split_and!; [done..|]. exists k. split_and!; [done|by apply acc_moved_same|done].
Qed.

Lemma neutral_act {A} (m : GO S A) :
  (∀ s, Inv s → match m s with
                | Ret (_, s') => Inv s' ∧ Guar s s' ∧ acc_same (bal s') (bal s)
                | Panic => False
                | OutOfFuel => True
                end) → neutral (atomic_go m).
Proof.
  intros H s0 k Hk. apply cwp_act. intros s _ Hs _. specialize (H s Hs).
  destruct (m s) as [[r s']| |]; [|done..]. destruct H as (HI & HG & Hb).
  split_and!; [done..|]. exists k. split_and!; [done|by apply acc_moved_same|done].
Qed.

(** Run alone, a neutral program leaves invariant and balance as they were. *)
Lemma neutral_run {A} (p : prog S A) s :
  neutral p → Inv s → acc_le acc0 (bal s) →
  match run p s with
  | Ret (_, s') => Inv s' ∧ Guar s s' ∧ acc_same (bal s') (bal s)
  | Panic => False
  | OutOfFuel => True
  end.
Proof.
  intros Hp Hs Hb. specialize (Hp s acc0 ltac:(acc_lia)).
  assert (Hgen : ∀ k s0, Guar s0 s → acc_le k (bal s) →
    cwp s0 k p (λ _ _ k', acc_same k' acc0) → Guar s s →
    match run p s with
    | Ret (_, s') => Inv s' ∧ Guar s s' ∧ acc_moved (bal s) k (bal s') acc0
    | Panic => False
    | OutOfFuel => True
    end).
  { clear Hp Hb. revert s Hs. induction p as [a|R m c IH]; intros s Hs k s0 HG Hk Hc _.
    - cbn in *. split_and!; [done..|]. acc_lia.
    - cbn in *. specialize (Hc s HG Hs Hk). destruct (m s) as [[r s']| |]; [|done..].
      destruct Hc as (Hs' & HG' & k' & Hk' & Hbal & Hc).
      specialize (IH r s' Hs' k' s' ltac:(reflexivity) ltac:(acc_lia) Hc ltac:(reflexivity)).
      destruct (run (c r) s') as [[a s2]| |]; [|done..]. destruct IH as (HI & HG2 & Hb2).
      split_and!; [done|by etransitivity|acc_lia]. }
  specialize (Hgen acc0 s ltac:(reflexivity) Hb Hp ltac:(reflexivity)).
  destruct (run p s) as [[a s']| |]; [|done..]. destruct Hgen as (HI & HG & Hb').
  split_and!; [done..|]. acc_lia.
Qed.

(** A thread in order, seen from the state [s]. *)
Definition thread_ok (s : S) (k : K) (p : prog S unit) : Prop :=
  acc_le acc0 k ∧ ∃ s0, Guar s0 s ∧ cwp s0 k p (λ _ _ k, acc_same k acc0).

Definition balanced (c : config) : Prop :=
  Inv c.1 ∧ ∃ ks, Forall2 (thread_ok c.1) ks c.2 ∧ ∀ i, amount (bal c.1) i = acc_total ks i.

Lemma thread_ok_later s s' k p : Guar s s' → thread_ok s k p → thread_ok s' k p.
Proof. intros HG (Hk & s0 & H0 & Hp). split; [done|]. exists s0. split; [by etransitivity|done]. Qed.

Lemma credits_nonneg s ks ts : Forall2 (thread_ok s) ks ts → ∀ x, 0 <= acc_total ks x.
Proof. induction 1 as [|k p ks ts [Hk _] _ IH]; cbn; acc_lia. Qed.

(** Taking one thread out of the sum. *)
Lemma credits_split s ks ts i p :
  Forall2 (thread_ok s) ks ts → ts !! i = Some p →
  ∃ k, thread_ok s k p ∧ (∀ x, amount k x <= acc_total ks x)
  ∧ ∀ s' k' p', Guar s s' → thread_ok s' k' p' →
    Forall2 (thread_ok s') (<[i:=k']> ks) (<[i:=p']> ts)
    ∧ ∀ x, acc_total (<[i:=k']> ks) x + amount k x = acc_total ks x + amount k' x.
Proof.
  intros HF. revert i. induction HF as [|k q ks ts Hq HF IH]; intros [|i] Hi; try done.
  - injection Hi as ->. exists k. pose proof (credits_nonneg _ _ _ HF). cbn [foldr].
    split_and!; [done..|acc_lia|]. intros s' k' p' HG Hp'. split; [|cbn [insert list_insert foldr]; acc_lia].
    constructor; [done|]. eapply Forall2_impl; [exact HF|]. intros. by eapply thread_ok_later.
  - destruct (IH i Hi) as (k0 & H0 & Hle & Hrest). exists k0. cbn [foldr].
    pose proof Hq as [Hk _].
    split_and!; [done..|acc_lia|]. intros s' k' p' HG Hp'.
    destruct (Hrest s' k' p' HG Hp') as [HF' Hsum].
    split; [constructor; [by eapply thread_ok_later|done]|].
    change (<[Datatypes.S i:=k']> (k :: ks)) with (k :: <[i:=k']> ks). cbn [foldr]. acc_lia.
Qed.

Lemma balanced_step spawned c c' :
  (∀ p, spawned p → neutral p) →
  balanced c → sched_step spawned c c' → balanced c' ∧ Guar c.1 c'.1.
Proof.
  intros Hsp (HI & ks & HF & Hb) Hstep.
  destruct Hstep as [s ts i R m k r s' Hi Hm|s ts p Hp]; cbn [fst snd] in *.
  - destruct (credits_split _ _ _ _ _ HF Hi) as (c & (Hc & s0 & Hs0 & Hcw) & Hle & Hrest).
    cbn [cwp] in Hcw. specialize (Hcw s Hs0 HI ltac:(acc_lia)). rewrite Hm in Hcw.
    destruct Hcw as (HI' & HG & k' & Hk' & Hbal & Hcont). split; [|done].
    split; [done|]. exists (<[i:=k']> ks).
    destruct (Hrest s' k' (k r) HG) as [HF' Hsum].
    { split; [done|]. by exists s'. }
    split; [done|]. cbn [fst]. acc_lia.
  - split; [|reflexivity]. split; [done|]. exists (ks ++ [acc0]). split.
    + apply Forall2_app; [done|]. constructor; [|constructor]. split; [by intros x|].
      exists s. split; [done|]. apply Hsp; [done|by intros x].
    + intros x. cbn [fst]. rewrite Hb. unfold acc_total. rewrite foldr_app. cbn. by rewrite amount_acc0.
Qed.

Lemma balanced_no_panic c : balanced c → ¬ panics c.
Proof.
  intros (HI & ks & HF & Hb) (i & R & m & k & Hi & Hm).
  destruct (credits_split _ _ _ _ _ HF Hi) as (c0 & (Hc & s0 & Hs0 & Hcw) & Hle & _).
  cbn [cwp] in Hcw. specialize (Hcw c.1 Hs0 HI ltac:(acc_lia)). by rewrite Hm in Hcw.
Qed.

(** When every goroutine has come to its end, nothing is owed. *)
Lemma balanced_quiet c : balanced c → Forall finished c.2 → acc_same (bal c.1) acc0.
Proof.
  intros (_ & ks & HF & Hb) Hfin x. rewrite Hb, amount_acc0. clear Hb.
  induction HF as [|k p ks ts (_ & s0 & _ & Hp) _ IH]; [done|].
  apply Forall_cons in Hfin as [[a ->] Hfin]. specialize (IH Hfin). cbn in Hp. unfold acc_total in *. cbn. by rewrite Hp, amount_acc0, IH.
Qed.

Lemma balanced_start s : Inv s → acc_same (bal s) acc0 → balanced (s, []).
Proof. intros HI Hb. split; [done|]. exists []. split; [constructor|]. intros x. by rewrite Hb, amount_acc0. Qed.

Lemma balanced_steps spawned c c' :
  (∀ p, spawned p → neutral p) →
  rtc (sched_step spawned) c c' → balanced c → balanced c' ∧ Guar c.1 c'.1.
Proof.
  intros Hsp Hr. induction Hr as [x|x y z Hxy _ IH]; [by split|]. intros Hx.
  destruct (balanced_step _ _ _ Hsp Hx Hxy) as [Hy HG]. destruct (IH Hy) as [Hz HG'].
  split; [done|]. by etransitivity.
Qed.

(** The rule: from a state in order with no threads, every interleaving of the
    programs keeps the invariant, does not panic, and settles the account. *)
Lemma sched_safe spawned s c :
  (∀ p, spawned p → neutral p) → Inv s → acc_same (bal s) acc0 →
  rtc (sched_step spawned) (s, []) c →
  Inv c.1 ∧ acc_le acc0 (bal c.1) ∧ ¬ panics c ∧ (Forall finished c.2 → acc_same (bal c.1) acc0).
Proof.
  intros Hsp HI Hb Hr.
  destruct (balanced_steps _ _ _ Hsp Hr (balanced_start _ HI Hb)) as [Hbal _].
  split_and!; [apply Hbal| |by apply balanced_no_panic|by apply balanced_quiet].
  destruct Hbal as (_ & ks & HF & Hks). intros x. rewrite Hks, amount_acc0. by eapply credits_nonneg.
Qed.

Lemma sched_guar spawned s c c' :
  (∀ p, spawned p → neutral p) → Inv s → acc_same (bal s) acc0 →
  rtc (sched_step spawned) (s, []) c → rtc (sched_step spawned) c c' → Guar c.1 c'.1.
Proof.
  intros Hsp HI Hb Hr Hr'.
  destruct (balanced_steps _ _ _ Hsp Hr (balanced_start _ HI Hb)) as [Hbal _].
  by destruct (balanced_steps _ _ _ Hsp Hr' Hbal).
Qed.
End accounts.
End threads.

(** ** Programs on a part of the state

    [within] runs a program on the part [get] of the state; [handle] deals with what
    [emit] finds that an action has to tell the rest, before the program goes on. *)

Section within.
Context {S T E : Type} (get : T → S) (put : S → T → T) (emit : S → S → E) (handle : E → prog T unit).

Definition inside {R} (m : GO S R) : GO T (R * E) := λ t,
  match m (get t) with
  | Ret (r, s) => Ret ((r, emit (get t) s), put s t)
  | Panic => Panic
  | OutOfFuel => OutOfFuel
  end.

Fixpoint within {A} (p : prog S A) : prog T A :=
  match p with
  | done_ a => done_ a
  | act m k => act (inside m) (λ re, prog_bind (λ _, within (k re.1)) (handle re.2))
  end.

(** What is proved of a program on its own holds of it within the whole: [emb] finds
    the accounts of the part among those of the whole. *)
Context {K I L J : Type} `{!Account K I} `{!Account L J}.
Context (InvS : S → Prop) (GuarS : S → S → Prop) (balS : S → K) `{!PreOrder GuarS}.
Context (InvT : T → Prop) (GuarT : T → T → Prop) (balT : T → L) `{!PreOrder GuarT}.
Context (emb : K → L → L).

Record part_of : Prop := {
  po_get s t : get (put s t) = s;
  po_inv t : InvT t → InvS (get t);
  po_guar t t' : GuarT t t' → GuarS (get t) (get t');
  po_credit t k l : acc_le acc0 l → acc_le (emb k l) (balT t) → acc_le k (balS (get t));
  po_nonneg k l : acc_le acc0 k → acc_le acc0 l → acc_le acc0 (emb k l);
  po_put s t : InvT t → InvS s → GuarS (get t) s → InvT (put s t) ∧ GuarT t (put s t);
  po_moved s t k k' l : acc_moved (balS (get t)) k (balS s) k' → acc_moved (balT t) (emb k l) (balT (put s t)) (emb k' l);
  po_none k l : acc_same k acc0 → acc_same (emb k l) l
}.

Lemma cwp_within {A} s0 t0 k l (p : prog S A) Q :
  part_of → (∀ e, neutral InvT GuarT balT (handle e)) →
  acc_le acc0 k → acc_le acc0 l → GuarS s0 (get t0) → cwp InvS GuarS balS s0 k p Q →
  cwp InvT GuarT balT t0 (emb k l) (within p)
    (λ a t l', ∃ s k', GuarS s (get t) ∧ acc_same l' (emb k' l) ∧ Q a s k').
Proof.
  intros HP Hh Hk Hl. revert s0 t0 k Hk. induction p as [a|R m c IH]; intros s0 t0 k Hk HG Hp.
  { exists s0, k. split_and!; [done|reflexivity|done]. }
  intros t HGt Ht Hle. cbn in Hp. specialize (Hp (get t)). unfold inside.
  assert (HGs : GuarS s0 (get t)) by (etransitivity; [done|by apply (po_guar HP)]).
  specialize (Hp HGs (po_inv HP _ Ht) (po_credit HP t k l Hl Hle)).
  destruct (m (get t)) as [[r s']| |]; [|done..]. destruct Hp as (HI & HG' & k' & Hk' & Hmv & Hc).
  destruct (po_put HP s' t Ht HI HG') as [HI' HGt']. split_and!; [done..|]. exists (emb k' l).
  split_and!; [by apply (po_nonneg HP)|by apply (po_moved HP)|].
  change (prog_bind ?k ?q) with (q ≫= k). apply cwp_bind.
  eapply (cwp_neutral InvT GuarT balT); [apply Hh|by apply (po_nonneg HP)|]. intros _ t1 l1 HG1 Hl1. cbn.
  apply (cwp_credit InvT GuarT balT) with (emb k' l); [by symmetry|by eauto using po_nonneg| |].
  { intros a t2 l2 l2' H2 (s2 & k2 & Hg2 & Hs2 & HQ). exists s2, k2. split_and!; [done| |done]. by rewrite <- H2. }
  apply (IH r s'); [done| |done]. rewrite <- (po_get HP s' t) at 1. by apply (po_guar HP).
Qed.

Lemma neutral_within {A} (p : prog S A) :
  part_of → (∀ e, neutral InvT GuarT balT (handle e)) →
  neutral InvS GuarS balS p → neutral InvT GuarT balT (within p).
Proof.
  intros HP Hh Hp t0 l Hl.
  assert (H0 : acc_le (acc0 : K) acc0) by (by intros x).
  apply (cwp_credit InvT GuarT balT) with (emb acc0 l).
  - symmetry. apply (po_none HP). reflexivity.
  - by apply (po_nonneg HP).
  - intros a t l1 l2 H12 H. by rewrite <- H12.
  - eapply (cwp_mono InvT GuarT balT); [|apply (cwp_within (get t0) t0 acc0 l p _ HP Hh H0 Hl ltac:(reflexivity) (Hp _ _ H0))].
    cbn. intros a t l' _ (s & k' & _ & Hs & Hk'). rewrite Hs. by apply (po_none HP).
Qed.
End within.
