(* ===== verification/Health.v ===== *)
(** * Health check options and history (health.go)

    The history is a ring of the last [_healthHistorySize] results. *)

From S2P Require Import Prelude.

Definition _defaultHealthCheckTimeout : Z := 1000000000.
Definition _defaultHealthCheckFailuresToClose : Z := 5.
Definition _healthHistorySize : nat := 256.

Record HealthCheckOptions := mkHealthCheckOptions {
  Interval : Z;
  Timeout : Z;
  FailuresToClose : Z
}.

Definition enabled (hco : HealthCheckOptions) : bool := bool_decide (0 < Interval hco).

Definition health_withDefaults (hco : HealthCheckOptions) : HealthCheckOptions :=
  mkHealthCheckOptions (Interval hco)
    (if decide (Timeout hco = 0) then _defaultHealthCheckTimeout else Timeout hco)
    (if decide (FailuresToClose hco = 0) then _defaultHealthCheckFailuresToClose
     else FailuresToClose hco).

Record healthHistory := mkHealthHistory {
  states : list bool;
  insertAt : nat;
  total : nat
}.

Definition newHealthHistory : healthHistory :=
  mkHealthHistory (replicate _healthHistorySize false) 0 0.

(** [hh.states[hh.insertAt] = b]; the index is below the size by construction. *)
Definition hh_add (b : bool) (hh : healthHistory) : healthHistory :=
  mkHealthHistory (<[insertAt hh := b]> (states hh))
    ((insertAt hh + 1) mod _healthHistorySize) (total hh + 1).

Definition asBools (hh : healthHistory) : list bool :=
  if decide (total hh < _healthHistorySize)%nat then take (total hh) (states hh)
  else drop (insertAt hh) (states hh) ++ take (insertAt hh) (states hh).

(** ** The history holds the last results *)

Definition rotated (hh : healthHistory) : list bool :=
  drop (insertAt hh) (states hh) ++ take (insertAt hh) (states hh).

(** The ring after the results [l], as a window on the padded sequence. *)
Definition history_of (l : list bool) (hh : healthHistory) : Prop :=
  length (states hh) = _healthHistorySize ∧ total hh = length l
  ∧ insertAt hh = (length l mod _healthHistorySize)%nat
  ∧ rotated hh = drop (length l) (replicate _healthHistorySize false ++ l).

Lemma rotate_add b hh :
  length (states hh) = _healthHistorySize → (insertAt hh < _healthHistorySize)%nat →
  rotated (hh_add b hh) = tail (rotated hh) ++ [b].
Proof.
  intros Hlen Hi. unfold rotated, hh_add. cbn [states insertAt].
  rewrite insert_take_drop by lia.
  set (n := insertAt hh) in *. set (st := states hh) in *.
  assert (Ht : length (take n st) = n) by (rewrite length_take; lia).
  assert (Hd : drop n st ≠ []) by (intros E; apply (f_equal length) in E; rewrite length_drop in E; cbn in E; lia).
  assert (Htl : tail (drop n st ++ take n st) = drop (S n) st ++ take n st).
  { destruct (drop n st) eqn:E; [done|]. cbn. f_equal. replace (S n) with (n + 1)%nat by lia. by rewrite <- drop_drop, E. }
  rewrite Htl.
  destruct (decide (n + 1 < _healthHistorySize)%nat) as [Hs|Hs].
  - rewrite Nat.mod_small by lia.
    rewrite drop_app_ge, take_app_ge by lia. rewrite Ht. replace (n + 1 - n)%nat with 1%nat by lia.
    cbn [drop take]. by rewrite <- app_assoc.
  - replace (n + 1)%nat with _healthHistorySize by lia. rewrite Nat.Div0.mod_same. cbn [drop take].
    rewrite (drop_ge st (S n)) by lia. by rewrite app_nil_r.
Qed.

Lemma history_add l b hh : history_of l hh → history_of (l ++ [b]) (hh_add b hh).
Proof.
  intros (Hlen & Htot & Hi & Hr).
  assert (Hlt : (insertAt hh < _healthHistorySize)%nat) by (rewrite Hi; by apply Nat.mod_upper_bound).
  split_and!.
  - cbn. by rewrite length_insert.
  - cbn. rewrite length_app. cbn. lia.
  - cbn [hh_add insertAt]. rewrite Hi, length_app. cbn [length]. apply Nat.Div0.add_mod_idemp_l.
  - rewrite rotate_add, Hr, length_app by done. cbn [length].
    assert (Hlong : (length l < length (replicate _healthHistorySize false ++ l))%nat)
      by (rewrite length_app, length_replicate; unfold _healthHistorySize; lia).
    rewrite (app_assoc _ l [b]). rewrite (drop_app_le (replicate _ _ ++ l)) by (unfold lt in Hlong; lia).
    f_equal. rewrite <- drop_drop. destruct (drop (length l) _) eqn:E; [|done].
    apply (f_equal length) in E. rewrite length_drop in E. cbn in E. lia.
Qed.

(** After any sequence of health check results the history reports, oldest first,
    the last 256 of them (all of them while there are fewer). *)
Theorem history_reports_last (l : list bool) :
  asBools (fold_left (λ hh b, hh_add b hh) l newHealthHistory)
  = drop (length l - _healthHistorySize) l.
Proof.
  assert (H : history_of l (fold_left (λ hh b, hh_add b hh) l newHealthHistory)).
  { induction l as [|b l IH] using rev_ind; [by split_and!|].
    rewrite fold_left_app. cbn [fold_left]. by apply history_add. }
  destruct H as (Hlen & Htot & Hi & Hr). unfold asBools. case_decide as Hlt.
  - replace (length l - _healthHistorySize)%nat with 0%nat by lia.
    rewrite Htot in *. rewrite Nat.mod_small in Hi by lia.
    unfold rotated in Hr. rewrite Hi, drop_app_le in Hr by (rewrite length_replicate; lia).
    apply app_inj_2 in Hr; [apply Hr|]. rewrite length_take. lia.
  - change (drop (insertAt _) _ ++ _) with
      (rotated (fold_left (λ hh b, hh_add b hh) l newHealthHistory)).
    rewrite Hr, drop_app_ge by (rewrite length_replicate; lia). by rewrite length_replicate.
Qed.
