(* ===== verification/Connection.v ===== *)
(** * Connections (connection.go, health.go, and the call entry points of inbound.go
    and outbound.go)

    A connection is shared by its reader, its writer, the health checker, the handlers
    of its calls and anybody who closes it.  Its methods are programs whose actions are
    the critical sections and atomic operations of the source ([Conc.prog]), so that
    the theorems speak about every interleaving of them.  The exchange sets are those
    of Mex.v; their callbacks run checkExchanges as newConnection wires them up.  The
    relayer's count of pending calls is part of the state ([c_pending]); the event
    handlers of the channel are recorded as [c_events].

    A channel send or receive that cannot proceed is [OutOfFuel].  Logging, tracing
    and statistics are left out. *)

From S2P Require Import Prelude Conc Errors Buffer Checksum Frame Messages Fragment Mex ReqRes Health.

(** ** State *)

Inductive connEvent := OnExchangeUpdated | OnCloseStateChange | dispatchInbound (id : Z).

(** [c_healthEnabled]: healthCheckDone is not nil; [c_healthQuit]: healthCheckCtx is
    cancelled; [c_healthDone]: healthCheckDone is closed.  [c_early] is not in the
    source: it remembers, for the theorems, the exchanges that existed when close was
    called. *)
Record Connection := mkConnection {
  c_state : connectionState;
  c_stoppedExchanges : bool;
  c_inbound : messageExchangeSet;
  c_outbound : messageExchangeSet;
  c_sendCh : list Frame;
  c_sendCap : nat;
  c_stopCh : bool;
  c_nextMessageID : Z;
  c_pending : option Z;
  c_events : list connEvent;
  c_healthEnabled : bool;
  c_healthQuit : bool;
  c_healthDone : bool;
  c_closeNetworkCalled : bool;
  c_early : option (gset nat * gset nat);
  c_history : healthHistory
}.

Definition c_set_state (x : connectionState) (c : Connection) : Connection :=
  mkConnection x (c_stoppedExchanges c) (c_inbound c) (c_outbound c) (c_sendCh c) (c_sendCap c)
    (c_stopCh c) (c_nextMessageID c) (c_pending c) (c_events c) (c_healthEnabled c)
    (c_healthQuit c) (c_healthDone c) (c_closeNetworkCalled c) (c_early c) (c_history c).
Definition c_set_stopped (c : Connection) : Connection :=
  mkConnection (c_state c) true (c_inbound c) (c_outbound c) (c_sendCh c) (c_sendCap c)
    (c_stopCh c) (c_nextMessageID c) (c_pending c) (c_events c) (c_healthEnabled c)
    (c_healthQuit c) (c_healthDone c) (c_closeNetworkCalled c) (c_early c) (c_history c).
Definition c_set_mex (i o : messageExchangeSet) (c : Connection) : Connection :=
  mkConnection (c_state c) (c_stoppedExchanges c) i o (c_sendCh c) (c_sendCap c)
    (c_stopCh c) (c_nextMessageID c) (c_pending c) (c_events c) (c_healthEnabled c)
    (c_healthQuit c) (c_healthDone c) (c_closeNetworkCalled c) (c_early c) (c_history c).
Definition c_set_sendCh (ch : list Frame) (c : Connection) : Connection :=
  mkConnection (c_state c) (c_stoppedExchanges c) (c_inbound c) (c_outbound c) ch (c_sendCap c)
    (c_stopCh c) (c_nextMessageID c) (c_pending c) (c_events c) (c_healthEnabled c)
    (c_healthQuit c) (c_healthDone c) (c_closeNetworkCalled c) (c_early c) (c_history c).
Definition c_close_stopCh (c : Connection) : Connection :=
  mkConnection (c_state c) (c_stoppedExchanges c) (c_inbound c) (c_outbound c) (c_sendCh c)
    (c_sendCap c) true (c_nextMessageID c) (c_pending c) (c_events c) (c_healthEnabled c)
    (c_healthQuit c) (c_healthDone c) (c_closeNetworkCalled c) (c_early c) (c_history c).
Definition c_set_nextID (n : Z) (c : Connection) : Connection :=
  mkConnection (c_state c) (c_stoppedExchanges c) (c_inbound c) (c_outbound c) (c_sendCh c)
    (c_sendCap c) (c_stopCh c) n (c_pending c) (c_events c) (c_healthEnabled c)
    (c_healthQuit c) (c_healthDone c) (c_closeNetworkCalled c) (c_early c) (c_history c).
Definition c_set_pending (n : option Z) (c : Connection) : Connection :=
  mkConnection (c_state c) (c_stoppedExchanges c) (c_inbound c) (c_outbound c) (c_sendCh c)
    (c_sendCap c) (c_stopCh c) (c_nextMessageID c) n (c_events c) (c_healthEnabled c)
    (c_healthQuit c) (c_healthDone c) (c_closeNetworkCalled c) (c_early c) (c_history c).
Definition c_event (e : connEvent) (c : Connection) : Connection :=
  mkConnection (c_state c) (c_stoppedExchanges c) (c_inbound c) (c_outbound c) (c_sendCh c)
    (c_sendCap c) (c_stopCh c) (c_nextMessageID c) (c_pending c) (c_events c ++ [e])
    (c_healthEnabled c) (c_healthQuit c) (c_healthDone c) (c_closeNetworkCalled c) (c_early c) (c_history c).
Definition c_set_health (quit done closed : bool) (c : Connection) : Connection :=
  mkConnection (c_state c) (c_stoppedExchanges c) (c_inbound c) (c_outbound c) (c_sendCh c)
    (c_sendCap c) (c_stopCh c) (c_nextMessageID c) (c_pending c) (c_events c)
    (c_healthEnabled c) quit done closed (c_early c) (c_history c).

Definition c_set_early (c : Connection) : Connection :=
  mkConnection (c_state c) (c_stoppedExchanges c) (c_inbound c) (c_outbound c) (c_sendCh c)
    (c_sendCap c) (c_stopCh c) (c_nextMessageID c) (c_pending c) (c_events c) (c_healthEnabled c)
    (c_healthQuit c) (c_healthDone c) (c_closeNetworkCalled c)
    (Some (dom (heap (c_inbound c)), dom (heap (c_outbound c)))) (c_history c).
Definition c_set_history (h : healthHistory) (c : Connection) : Connection :=
  mkConnection (c_state c) (c_stoppedExchanges c) (c_inbound c) (c_outbound c) (c_sendCh c)
    (c_sendCap c) (c_stopCh c) (c_nextMessageID c) (c_pending c) (c_events c) (c_healthEnabled c)
    (c_healthQuit c) (c_healthDone c) (c_closeNetworkCalled c) (c_early c) h.

(** A new connection: [relay] says whether the channel has a relay host, [health]
    whether health checks are enabled. *)
Definition newConnection (initialID : Z) (sendCap : nat) (relay health : bool) : Connection :=
  mkConnection connectionActive false newMessageExchangeSet newMessageExchangeSet [] sendCap false
    initialID (if relay then Some 0 else None) [] health false false false None newHealthHistory.

(** ** Reading and moving the state *)

Abbreviation cprog := (prog Connection).

Definition c_read {A} (f : Connection → A) : cprog A := atomic (λ c, (f c, c)).
Definition c_do (f : Connection → Connection) : cprog unit := atomic (λ c, (tt, f c)).

Definition readState : cprog connectionState := c_read c_state.
Definition callOnExchangeChange : cprog unit := c_do (c_event OnExchangeUpdated).
Definition callOnCloseStateChange : cprog unit := c_do (c_event OnCloseStateChange).
Definition onExchangeAdded : cprog unit := callOnExchangeChange.
Definition IsActive : cprog bool :=
  st ← readState; mret (bool_decide (st = connectionActive)).

Definition moveState (fromState toState : connectionState) : cprog bool :=
  atomic (λ c, if decide (c_state c = fromState) then (true, c_set_state toState c) else (false, c)).

(** Relayer.canClose; a nil relayer can close. *)
Definition canClose : cprog bool :=
  c_read (λ c, match c_pending c with None => true | Some n => bool_decide (n = 0) end).

(** Relayer.canHandleNewCall: a call is accepted and counted under the state lock.
    (The counter is a uint32; 2^32 calls pending at a time are not considered.) *)
Definition canHandleNewCall : cprog (bool * connectionState) :=
  atomic (λ c,
    let curState := c_state c in
    if decide (curState = connectionActive)
    then ((true, curState), c_set_pending ((λ n, n + 1) <$> c_pending c) c)
    else ((false, curState), c)).

(** [close(c.stopCh)] panics when the channel is closed already. *)
Definition closeStopCh : cprog unit :=
  atomic_go (λ c, if c_stopCh c then Panic else Ret (tt, c_close_stopCh c)).

(** checkExchanges, up to the final comparison of states; [None] is an early
    return. *)
Definition closeIfStopped (curState : connectionState) : cprog connectionState :=
  if decide (curState = connectionClosed) then mret curState
  else
    stopped ← c_read c_stoppedExchanges;
    if stopped : bool then
      ok ← moveState curState connectionClosed;
      mret (if ok : bool then connectionClosed else curState)
    else mret curState.

Definition closeInbound (curState : connectionState) : cprog (option connectionState) :=
  if decide (curState = connectionStartClose) then
    can ← canClose;
    if negb can then mret None
    else
      n ← c_read (λ c, count (c_inbound c));
      if decide (n = 0%nat) then
        ok ← moveState connectionStartClose connectionInboundClosed;
        mret (Some (if ok : bool then connectionInboundClosed else curState))
      else mret (Some curState)
  else mret (Some curState).

Definition closeOutbound (curState : connectionState) : cprog (option connectionState) :=
  if decide (curState = connectionInboundClosed) then
    can ← canClose;
    if negb can then mret None
    else
      n ← c_read (λ c, count (c_outbound c));
      if decide (n = 0%nat) then
        ok ← moveState connectionInboundClosed connectionClosed;
        mret (Some (if ok : bool then connectionClosed else curState))
      else mret (Some curState)
  else mret (Some curState).

Definition checkExchanges : cprog unit :=
  _ ← callOnExchangeChange;
  origState ← readState;
  curState ← closeIfStopped origState;
  r ← closeInbound curState;
  match r with
  | None => mret tt
  | Some curState =>
      r ← closeOutbound curState;
      match r with
      | None => mret tt
      | Some curState =>
          if decide (curState = origState) then mret tt
          else
            _ ← (if decide (curState = connectionClosed) then closeStopCh else mret tt);
            callOnCloseStateChange
      end
  end.

(** Relayer.decrementPending *)
Definition decrementPending : cprog unit :=
  _ ← c_do (λ c, c_set_pending ((λ n, n - 1) <$> c_pending c) c);
  checkExchanges.

(** ** Exchanges of a connection

    An operation on one of the exchange sets, with the callbacks it makes: onAdded is
    onExchangeAdded and onRemoved is checkExchanges. *)

Inductive direction := inbound | outbound.

Definition get_mex (d : direction) (c : Connection) : messageExchangeSet :=
  match d with inbound => c_inbound c | outbound => c_outbound c end.
Definition put_mex (d : direction) (s : messageExchangeSet) (c : Connection) : Connection :=
  match d with
  | inbound => c_set_mex s (c_outbound c) c
  | outbound => c_set_mex (c_inbound c) s c
  end.

Fixpoint run_callbacks (l : list callback) : cprog unit :=
  match l with
  | [] => mret tt
  | onAdded :: l => _ ← onExchangeAdded; run_callbacks l
  | onRemoved :: l => _ ← checkExchanges; run_callbacks l
  end.

Definition onMex {A} (d : direction) (m : ST messageExchangeSet A) : cprog A :=
  '(a, cbs) ← atomic (λ c,
     let old := get_mex d c in
     let '(a, s) := m old in
     ((a, drop (length (callbacks old)) (callbacks s)), put_mex d s c));
  _ ← run_callbacks cbs;
  mret a.

(** forwardPeerFrame can wait, for the exchange to take the frame. *)
Definition forwardPeerFrame (d : direction) (ctx' : option sentinel) (p : pick) (f : Frame)
    : cprog (option error) :=
  atomic_go (λ c,
    match set_forwardPeerFrame ctx' p f (get_mex d c) with
    | Some (err, s) => Ret (err, put_mex d s c)
    | None => OutOfFuel
    end).

(** ** Closing *)

Definition errNotActiveToClose (s : connectionState) : error :=
  otherError (str "connection must be Active to Close, but it is " ++ connectionState_String s).

(** The first critical section of close. *)
Definition startClose : cprog (option error) :=
  atomic (λ c, match c_state c with
               | connectionActive => (None, c_set_state connectionStartClose (c_set_early c))
               | s => (Some (errNotActiveToClose s), c)
               end).

Definition close_ : cprog (option error) :=
  err ← startClose;
  match err with
  | Some e => mret (Some e)
  | None =>
      _ ← callOnCloseStateChange;
      _ ← checkExchanges;
      mret None
  end.

Definition Close : cprog (option error) := close_.

(** stopHealthCheck waits for the health check goroutine to end. *)
Definition stopHealthCheck : cprog unit :=
  enabled ← c_read c_healthEnabled;
  if negb enabled then mret tt
  else
    quit ← c_read c_healthQuit;
    if quit : bool then mret tt
    else
      _ ← c_do (λ c, c_set_health true (c_healthDone c) (c_closeNetworkCalled c) c);
      atomic_go (λ c, if c_healthDone c then Ret (tt, c) else OutOfFuel).

Definition logConnectionError (err : error) : error :=
  let errCode :=
    match err with
    | SystemError code _ _ => if decide (code = ErrCodeNetwork) then ErrCodeNetwork else code
    | _ => ErrCodeNetwork
    end in
  NewWrappedSystemError errCode err.

(** [if c.stoppedExchanges.CAS(false, true) { stop both exchange sets }] *)
Definition stopAllExchanges (err : error) : cprog unit :=
  won ← atomic (λ c, (negb (c_stoppedExchanges c), c_set_stopped c));
  if won : bool then
    _ ← onMex outbound (λ s, (tt, stopExchanges err s));
    onMex inbound (λ s, (tt, stopExchanges err s))
  else mret tt.

Definition connectionError (err : error) : cprog error :=
  _ ← stopHealthCheck;
  let err := logConnectionError err in
  _ ← close_;
  _ ← stopAllExchanges err;
  _ ← checkExchanges;
  mret err.

(** ** Sending *)

(** [select { case c.sendCh <- frame: ... default: ... }] *)
Definition trySend (frame : Frame) (c : Connection) : option Connection :=
  if decide (length (c_sendCh c) < c_sendCap c)%nat
  then Some (c_set_sendCh (c_sendCh c ++ [frame]) c) else None.

Definition blankFrame : Frame := NewFrame (Z.to_nat MaxFramePayloadSize).

Definition SendSystemError (id : Z) (span : Span) (err : error) : cprog (option error) :=
  match Frame_write (mkErrorMessage id (GetSystemErrorCode (Some err)) span
                       (GetSystemErrorMessage err)) blankFrame with
  | (Some e, _) => mret (Some (otherError (str "failed to create outbound error frame: " ++ Error e)))
  | (None, frame) =>
      atomic (λ c,
        if decide (c_state c = connectionClosed) then
          (Some (otherError (str "failed to send error frame, connection state "
                             ++ connectionState_String (c_state c))), c)
        else match trySend frame c with
             | Some c => (None, c)
             | None => (Some (otherError (str "failed to send error frame, buffer full")), c)
             end)
  end.

Definition protocolError (id : Z) (err : error) : cprog error :=
  let sysErr := NewWrappedSystemError ErrCodeProtocol err in
  _ ← SendSystemError id emptySpan sysErr;
  _ ← close_;
  _ ← stopAllExchanges sysErr;
  mret sysErr.

Definition sendMessage {M} `{Message M} (msg : M) : cprog (option error) :=
  match Frame_write msg blankFrame with
  | (Some e, _) => mret (Some e)
  | (None, frame) =>
      atomic (λ c, match trySend frame c with
                   | Some c => (None, c)
                   | None => (Some (ErrSendBufferFull : error), c)
                   end)
  end.

Definition NextMessageID : cprog Z :=
  atomic (λ c, let n := uint32 (c_nextMessageID c + 1) in (n, c_set_nextID n c)).

(** [inbound.count() > 0 || outbound.count() > 0] and the relay. *)
Definition hasPendingCalls : cprog bool :=
  i ← c_read (λ c, count (c_inbound c));
  if decide (0 < i)%nat then mret true
  else
    o ← c_read (λ c, count (c_outbound c));
    if decide (0 < o)%nat then mret true
    else
      can ← canClose;
      mret (negb can).

(** ** Pings and health checks *)

Definition handlePingReq (frame : Frame) : cprog unit :=
  state ← readState;
  if decide (state = connectionActive) then
    err ← sendMessage (mkPingRes (ID (Header frame)));
    match err with
    | Some e => _ ← connectionError e; mret tt
    | None => mret tt
    end
  else
    _ ← protocolError (ID (Header frame)) (errConnNotActive (str "ping on incoming") state);
    mret tt.

Definition handlePingRes (ctx' : option sentinel) (p : pick) (frame : Frame) : cprog bool :=
  err ← forwardPeerFrame outbound ctx' p frame;
  mret (bool_decide (is_Some err)).

(** ping: [ctx'] and [p] are the outcome of the wait for the answer, as in Mex.v. *)
Definition ping_recv (id : Z) (ref : nat) (ctx' : option sentinel) (p : pick)
    : cprog (option error) :=
  atomic_go (λ c,
    match heap (c_outbound c) !! ref with
    | None => OutOfFuel
    | Some m =>
        match recvPeerFrameOfType ctx' p messageTypePingRes disabledFramePool m with
        | None => OutOfFuel
        | Some (Ret (frame, err, m, _)) =>
            let c := put_mex outbound (set_heap (<[ref := m]> (heap (c_outbound c))) (c_outbound c)) c in
            match err, frame with
            | Some (ErrorMessage em), _ => Ret (Some (AsSystemError em), c)
            | Some e, _ => Ret (Some e, c)
            | None, Some frame =>
                match Frame_read (mkPingRes 0) frame with
                | Ret (_, err) => Ret (err, c)
                | _ => Panic
                end
            | None, None => Panic
            end
        | Some _ => Panic
        end
    end).

Definition ping (ctx ctx' : option sentinel) (p : pick) : cprog (option error) :=
  id ← NextMessageID;
  '(mex, err) ← onMex outbound (newExchange ctx messageTypePingReq id 1);
  match err, mex with
  | Some e, _ => e ← connectionError e; mret (Some e)
  | None, None => mret None
  | None, Some ref =>
      err ← sendMessage (mkPingReq id);
      err ← match err with
            | Some e => e ← connectionError e; mret (Some e)
            | None => ping_recv id ref ctx' p
            end;
      _ ← onMex outbound (λ s, (tt, removeExchange id s));
      mret err
  end.

Definition ErrInvalidConnectionState : error :=
  NewSystemError ErrCodeNetwork (str "connection is in an invalid state").

(** One round of the health checker: [tick] says that the select takes the ticker
    when the checker has been told to quit as well, the rest is the outcome of the
    ping's wait. *)
Record healthTick := mkHealthTick { tick : bool; tick_ctx : option sentinel; tick_pick : pick }.

(** The loop of the health checker, for a sequence of rounds. *)
Fixpoint healthCheckLoop (failuresToClose : Z) (consecutiveFailures : Z)
    (ticks : list healthTick) : cprog unit :=
  match ticks with
  | [] => mret tt
  | t :: ticks =>
      quit ← c_read c_healthQuit;
      if quit && negb (tick t) then mret tt
      else
        quit ← c_read c_healthQuit;
        err ← ping (if quit : bool then Some context_Canceled else None) (tick_ctx t) (tick_pick t);
        _ ← c_do (λ c, c_set_history (hh_add (bool_decide (err = None)) (c_history c)) c);
        match err with
        | None => healthCheckLoop failuresToClose 0 ticks
        | Some e =>
            if bool_decide (GetSystemErrorCode (Some e) = ErrCodeCancelled)
               || bool_decide (e = ErrInvalidConnectionState)
            then mret tt
            else
              let consecutiveFailures := consecutiveFailures + 1 in
              if decide (failuresToClose <= consecutiveFailures) then _ ← close_; mret tt
              else healthCheckLoop failuresToClose consecutiveFailures ticks
        end
  end.

(** healthCheck closes healthCheckDone when it returns. *)
Definition healthCheck (failuresToClose : Z) (ticks : list healthTick) : cprog unit :=
  _ ← healthCheckLoop failuresToClose 0 ticks;
  c_do (λ c, c_set_health (c_healthQuit c) true (c_closeNetworkCalled c) c).

(** ** Calls *)

(** handleCallReq up to the dispatch of the call; [now] is the state of the context
    that is created for it.  (Reading a message does not depend on the order of map
    iteration.) *)
Definition handleCallReq (now : option sentinel) (frame : Frame) : cprog bool :=
  state ← readState;
  match state with
  | connectionActive =>
      parsed ← atomic_go (gcall (parseInboundFragment (H := storage_range) 0 frame
                 (mCallReq (mkCallReq (ID (Header frame)) 0 emptySpan ∅ []))));
      let '(_, err, _) := parsed in
      match err with
      | Some _ => mret true
      | None =>
          '(mex, err) ← onMex inbound
             (newExchange now messageTypeCallReq (ID (Header frame)) mexChannelBufferSize);
          match err, mex with
          | Some _, _ =>
              _ ← protocolError (ID (Header frame)) errInboundRequestAlreadyActive;
              mret true
          | None, None => mret true
          | None, Some ref =>
              state ← readState;
              if decide (state = connectionActive) then
                _ ← c_do (c_event (dispatchInbound (ID (Header frame))));
                mret false
              else
                _ ← onMex inbound (λ s, (tt, mex_shutdown ref s));
                mret true
          end
      end
  | _ =>
      span ← atomic_go (gcall (callReqSpan frame));
      _ ← SendSystemError (ID (Header frame)) span ErrChannelClosed;
      mret true
  end.

Definition handleCallReqContinue (ctx' : option sentinel) (p : pick) (frame : Frame) : cprog bool :=
  err ← forwardPeerFrame inbound ctx' p frame; mret (bool_decide (is_Some err)).
Definition handleCallRes (ctx' : option sentinel) (p : pick) (frame : Frame) : cprog bool :=
  err ← forwardPeerFrame outbound ctx' p frame; mret (bool_decide (is_Some err)).
Definition handleCallResContinue (ctx' : option sentinel) (p : pick) (frame : Frame) : cprog bool :=
  err ← forwardPeerFrame outbound ctx' p frame; mret (bool_decide (is_Some err)).

Definition handleError (ctx' : option sentinel) (p : pick) (frame : Frame) : cprog bool :=
  sized ← atomic_go (gcall (SizedPayload frame));
  let '((errMsg, err), _) := errorMessage_read (mkErrorMessage (ID (Header frame)) x00 emptySpan [])
                               (NewReadBuffer sized) in
  match err with
  | Some e => _ ← connectionError e; mret true
  | None =>
      if decide (errCode errMsg = ErrCodeProtocol) then
        _ ← connectionError (AsSystemError errMsg); mret true
      else
        err ← forwardPeerFrame outbound ctx' p frame; mret (bool_decide (is_Some err))
  end.

(** beginCall up to the creation of the call: [ttl] is the time to the deadline of
    the caller's context (if it has one) and [ctxErr] its error. *)
Definition beginCall (ttl : option Z) (ctxErr : option sentinel) : cprog ((Z * nat) + error) :=
  state ← readState;
  match state with
  | connectionActive =>
      match ttl with
      | None => mret (inr ErrTimeoutRequired)
      | Some timeToLive =>
          if decide (timeToLive < millisecond) then mret (inr ErrTimeout)
          else
            match ctxErr with
            | Some e => mret (inr (GetContextError (Sentinel e)))
            | None =>
                requestID ← NextMessageID;
                '(mex, err) ← onMex outbound
                   (newExchange ctxErr messageTypeCallReq requestID mexChannelBufferSize);
                match err, mex with
                | Some e, _ => mret (inr e)
                | None, None => mret (inr (ErrConnectionClosed : error))
                | None, Some ref =>
                    state ← readState;
                    if decide (state = connectionActive) then mret (inl (requestID, ref))
                    else
                      _ ← onMex outbound (λ s, (tt, mex_shutdown ref s));
                      mret (inr (ErrConnectionClosed : error))
                end
            end
      end
  | _ => mret (inr (ErrConnectionClosed : error))
  end.

(** ** Reading and writing frames *)

Definition handleFrameNoRelay (ctx' : option sentinel) (p : pick) (frame : Frame) : cprog bool :=
  let t := fh_messageType (Header frame) in
  if decide (t = messageTypeCallReq) then handleCallReq ctx' frame
  else if decide (t = messageTypeCallReqContinue) then handleCallReqContinue ctx' p frame
  else if decide (t = messageTypeCallRes) then handleCallRes ctx' p frame
  else if decide (t = messageTypeCallResContinue) then handleCallResContinue ctx' p frame
  else if decide (t = messageTypePingReq) then _ ← handlePingReq frame; mret true
  else if decide (t = messageTypePingRes) then handlePingRes ctx' p frame
  else if decide (t = messageTypeError) then handleError ctx' p frame
  else mret true.

(** What readFrames does with an error of the network. *)
Definition readFrames_handleErr (err : error) : cprog unit :=
  called ← c_read c_closeNetworkCalled;
  if called : bool then mret tt else _ ← connectionError err; mret tt.

Definition closeNetwork : cprog unit :=
  _ ← stopHealthCheck;
  c_do (λ c, c_set_health (c_healthQuit c) (c_healthDone c) true c).

(** The select of writeFrames: [stop] says that it takes stopCh when a frame is ready
    as well. *)
Definition writeFrames_select (stop : bool) : cprog (Frame + unit) :=
  atomic_go (λ c,
    match c_sendCh c with
    | f :: rest =>
        if c_stopCh c && stop then Ret (inr tt, c) else Ret (inl f, c_set_sendCh rest c)
    | [] => if c_stopCh c then Ret (inr tt, c) else OutOfFuel
    end).

(** The case of stopCh: frames that are queued are still to be written. *)
Definition writeFrames_stopped : cprog bool :=
  queued ← c_read (λ c, length (c_sendCh c));
  if decide (0 < queued)%nat then mret true
  else _ ← closeNetwork; mret false.

(** One round of writeFrames; [werr] is the outcome of writing the frame to the network.
    The result says whether the loop goes on.  [FrameLoops.v] has the loop with the
    bytes that are written. *)
Definition writeFrames_round (stop : bool) (werr : option error) : cprog bool :=
  picked ← writeFrames_select stop;
  match picked with
  | inl f =>
      match werr with
      | Some e => _ ← connectionError e; mret false
      | None => mret true
      end
  | inr _ => writeFrames_stopped
  end.
