(* ===== verification/SystemErrors.v ===== *)
(** * System errors from end to end (SendSystemError of connection.go, messages.go,
    mex.go, reqres.go)

    A handler that fails sends its error to the caller as an error frame.  This file puts
    the connection that sends it, the frame on the wire, the exchange and the reader of the
    caller together: the caller sees the code and the message of the error; and an error
    whose message does not fit into a frame is not sent at all. *)

From S2P Require Import Prelude Errors Buffer Checksum Frame Messages Fragment FragmentCorrect Mex ReqRes Conc Health Connection.

Section system_errors.
Context `{MapRange}.

(** A caller that waits for the first fragment of its response, with the frame [g] as the
    next one of its exchange. *)
Definition awaits (callID : Z) (g : Frame) (r : reqResReader) : Prop :=
  initialFragment r = None ∧ rr_picks r = [] ∧ message_type (rr_messageForFragment r true) ≠ messageTypeError
  ∧ ∃ mex rest, heap (rr_set r) !! rr_mex r = Some mex ∧ mx_ctx mex = None ∧ msgID mex = callID ∧ recvCh mex = g :: rest.

(** What the caller gets for [err]. *)
Definition caller_sees (err : error) : error :=
  SystemError (GetSystemErrorCode (Some err)) (GetSystemErrorMessage err) None.

Lemma system_error_sent callID span err c :
  0 <= callID < 2^32 → span_ok span → len (GetSystemErrorMessage err) <= MaxFramePayloadSize - 28 →
  c_state c ≠ connectionClosed → (length (c_sendCh c) < c_sendCap c)%nat →
  ∃ c' f wire, run (SendSystemError callID span err) c = Ret (None, c')
  ∧ c_sendCh c' = c_sendCh c ++ [f] ∧ on_wire f wire
  ∧ ∀ g rest e, frame_ok g → ∃ g', ReadIn (mkStream (wire ++ rest) e) g = Ret (None, g', mkStream rest e)
    ∧ ∀ r, awaits callID g' r → ∃ m r', rr_recvNextFragment true r = Ret ((None, Some (ErrorMessage m)), r')
      ∧ AsSystemError m = caller_sees err ∧ rr_err r' = Some (caller_sees err).
Proof.
  intros Hid Hsp Hlen Hst Hcap.
  set (em := mkErrorMessage callID (GetSystemErrorCode (Some err)) span (GetSystemErrorMessage err)).
  assert (Hok : msg_ok em) by (split; [exact Hsp|]; cbn; unfold MaxFramePayloadSize in *; frame_lia).
  destruct (message_over_wire em blankFrame NewFrame_ok Hok Hid) as (f1 & wire & f2 & HW & Hout & _ & HR).
  { cbn [msg_enc errorMessage_wire errorMessage_enc em_tracing em_message em]. unfold errorMessage_enc, span_enc, em.
    cbn [em_tracing em_message errCode].
    rewrite !length_app, !length_be_enc. unfold MaxFramePayloadSize in *. cbn [length]. lia. }
  eexists _, f1, wire. split_and!.
  - unfold SendSystemError. fold em. rewrite HW. cbn [run atomic glift]. rewrite decide_False by done.
    unfold trySend. rewrite decide_True by done. reflexivity.
  - reflexivity.
  - intros send. exists f2. apply Hout.
  - intros g rest e Hg. destruct (HR g (mkErrorMessage callID x00 emptySpan []) rest e Hg) as (g1 & HRead & Hg1 & Hgid & Hgt & Hread).
    exists g1. split; [done|]. intros r (Hini & Hp & Hmt & mex & more & Hm & Hctx & Hmid & Hch).
    unfold rr_recvNextFragment. rewrite Hini, Hm, Hp. cbn [head default from_option id].
    unfold recvPeerFrameOfType, recvPeerFrame, takeFrame, checkFrame. rewrite Hctx, Hch.
    rewrite decide_True by (rewrite Hgid; cbn; by rewrite Hmid). cbn [mbind option_bind].
    rewrite decide_False by (rewrite Hgt; intros Heq; by apply Hmt; rewrite <- Heq).
    rewrite decide_True by (by rewrite Hgt).
    unfold Frame_read in Hread. destruct (SizedPayload g1) as [sp| |]; try done. cbn [mbind go_bind] in *.
    injection Hread as Hread. rewrite Hgid. cbn [msg_ID errorMessage_message em em_id] in *.
    change (r_Wrap sp (NewReadBuffer [])) with (NewReadBuffer sp).
    destruct (errorMessage_read _ (NewReadBuffer sp)) as [[m err'] rb]. cbn in Hread. injection Hread as -> ->.
    eexists _, _. split; [reflexivity|]. by split.
Qed.

(** C13: a system error reaches the caller: the connection queues one frame, which any peer
    reads from the wire, and the reader of the response that waits for it fails with the
    code and the message that were sent, and keeps failing with them. *)
Theorem system_error_delivered callID span err c :
  0 <= callID < 2^32 → span_ok span → len (GetSystemErrorMessage err) <= MaxFramePayloadSize - 28 →
  c_state c ≠ connectionClosed → (length (c_sendCh c) < c_sendCap c)%nat →
  ∃ c' f wire, run (SendSystemError callID span err) c = Ret (None, c')
  ∧ c_sendCh c' = c_sendCh c ++ [f] ∧ on_wire f wire
  ∧ ∀ g rest e, frame_ok g → ∃ g', ReadIn (mkStream (wire ++ rest) e) g = Ret (None, g', mkStream rest e)
    ∧ ∀ r, awaits callID g' r → ∃ m r', rr_recvNextFragment true r = Ret ((None, Some (ErrorMessage m)), r')
      ∧ AsSystemError m = caller_sees err ∧ rr_err r' = Some (caller_sees err).
Proof. apply system_error_sent. Qed.

(** An open connection with room in its send channel sends the error [err] of the call as
    one frame, and whoever waits for the response and reads that frame, with a new reader
    of the arguments, satisfies [P]. *)
Definition error_received (callID : Z) (err : error) (P : fragmentingReader reqResReader → Prop) : Prop :=
  ∀ span c, span_ok span → c_state c ≠ connectionClosed → (length (c_sendCh c) < c_sendCap c)%nat →
  ∃ c' f wire, run (SendSystemError callID span err) c = Ret (None, c')
  ∧ c_sendCh c' = c_sendCh c ++ [f] ∧ on_wire f wire
  ∧ ∀ g rest e, frame_ok g → ∃ g', ReadIn (mkStream (wire ++ rest) e) g = Ret (None, g', mkStream rest e)
    ∧ ∀ r ps choice, awaits callID g' r → rr_state r = reqResReaderPreArg1 → P (newFragmentingReader r ps choice).

Lemma error_received_impl callID err (P Q : fragmentingReader reqResReader → Prop) :
  (∀ r, P r → Q r) → error_received callID err P → error_received callID err Q.
Proof.
  intros HPQ HP span c Hsp Hst Hcap. destruct (HP span c Hsp Hst Hcap) as (c' & f & wire & ? & ? & ? & HR).
  exists c', f, wire. split_and!; [done..|]. intros g rest e Hg. destruct (HR g rest e Hg) as (g' & ? & Hr).
  exists g'. split; [done|]. intros r ps choice Ha Hs. by apply HPQ, Hr.
Qed.

(** The first argument of the response then is the error. *)
Lemma arg1Reader_error r ps choice err m r1 :
  rr_state r = reqResReaderPreArg1 →
  rr_recvNextFragment true r = Ret ((None, Some (ErrorMessage m)), r1) →
  AsSystemError m = err → rr_err r1 = Some err →
  ∃ r', arg1Reader (newFragmentingReader r ps choice) = Ret (Some err, r').
Proof.
  intros Hst HR Hm He. unfold arg1Reader, argReader. run_step. rewrite decide_True by done.
  assert (∃ r2, reader_ArgReader false (newFragmentingReader r ps choice) = Ret (Some err, r2)
    ∧ rr_err (fr_receiver r2) = Some err) as (r2 & HA & He2).
  { unfold reader_ArgReader, reader_BeginArgument, nextFragment, recvAndParseNextFragment.
    run_step. cbn [fr_err fr_state newFragmentingReader].
    change (isReadingArgument fragmentingReadStart) with false. cbv beta iota.
    rewrite bool_decide_eq_false_2, bool_decide_eq_true_2 by done.
    unfold mbind, gost_bind, gget, onReceiver. cbn -[rr_recvNextFragment]. rewrite HR. cbn. rewrite Hm.
    eexists. split; [reflexivity|]. cbn. unfold rr_doneReading. destruct (rr_kind r1); exact He. }
  erewrite gost_bind_run by exact HA. cbv beta iota. unfold onReceiver, rr_failed. rewrite He2. by eexists.
Qed.

Lemma error_reaches_reader callID err :
  0 <= callID < 2^32 → len (GetSystemErrorMessage err) <= MaxFramePayloadSize - 28 →
  error_received callID err (λ r, ∃ r', arg1Reader r = Ret (Some (caller_sees err), r')).
Proof.
  intros Hid Hlen span c Hsp Hst Hcap.
  destruct (system_error_sent callID span err c Hid Hsp Hlen Hst Hcap) as (c' & f & wire & ? & ? & ? & HR).
  exists c', f, wire. split_and!; [done..|]. intros g rest e Hg. destruct (HR g rest e Hg) as (g' & ? & Hr).
  exists g'. split; [done|]. intros r ps choice Ha Hs. destruct (Hr r Ha) as (m & r' & ? & ? & ?).
  by eapply arg1Reader_error.
Qed.
End system_errors.

(** ** Messages that do not fit *)

Lemma errorMessage_unfit m w :
  wbuf_ok w → w_err w = None → (w_BytesRemaining w < 28 + length (em_message m))%nat →
  ∃ e w', errorMessage_write m w = (Some e, w').
Proof.
  intros Hok He Hlen. unfold errorMessage_write.
  assert (Hone : is_Some (w_err ((_ ← WriteSingleByte (errCode m); _ ← Span_write (em_tracing m);
    WriteLen16String (em_message m)) w).2)).
  { destruct (decide (len (em_message m) < 65536)) as [Hs|Hs].
    - assert (Hw : writes (_ ← WriteSingleByte (errCode m); _ ← Span_write (em_tracing m);
        WriteLen16String (em_message m)) (errorMessage_enc m)).
      { unfold errorMessage_enc. apply writes_bind; [writes_tac|].
        apply writes_bind; [apply Span_write_writes|]. writes_tac. }
      destruct Hw as (_ & _ & Hfull). destruct (Hfull w Hok He) as (w' & HW & He' & _); [|rewrite HW; cbn [snd]; rewrite He'; by eexists].
      unfold errorMessage_enc, span_enc. rewrite !length_app, !length_be_enc. cbn [length]. lia.
    - unfold mbind, st_bind. destruct (WriteSingleByte (errCode m) w) as [[] w1].
      destruct (Span_write (em_tracing m) w1) as [[] w2].
      destruct (WriteLen16String_too_long (em_message m) w2) as (w3 & -> & He3); [lia|exact He3]. }
  unfold mbind, st_bind in *. destruct (WriteSingleByte (errCode m) w) as [[] w1].
  destruct (Span_write (em_tracing m) w1) as [[] w2]. destruct (WriteLen16String (em_message m) w2) as [[] w3].
  destruct Hone as [e He3]. exists e, w3. unfold w_Err. cbn in He3. by rewrite He3.
Qed.

(** An error whose message is longer than a frame can hold is not sent: SendSystemError
    reports it to the handler's side, the connection queues nothing, and the caller is
    left to its timeout. *)
Theorem system_error_too_long callID span err c :
  len (GetSystemErrorMessage err) > MaxFramePayloadSize - 28 →
  ∃ e, run (SendSystemError callID span err) c = Ret (Some e, c).
Proof.
  intros Hlen. unfold SendSystemError, Frame_write. cbn [msg_write errorMessage_message].
  set (em := mkErrorMessage callID _ span _).
  destruct (errorMessage_unfit em (NewWriteBuffer (Payload blankFrame))) as (e & w' & ->).
  - apply NewWriteBuffer_ok.
  - done.
  - change (w_BytesRemaining (NewWriteBuffer (Payload blankFrame))) with (length (Payload blankFrame)).
    assert (length (Payload blankFrame) = Z.to_nat MaxFramePayloadSize) as ->.
    { destruct NewFrame_ok as [Hb _]. unfold Payload, blankFrame. rewrite length_drop. frame_lia. }
    unfold em. cbn [em_message]. lia.
  - eexists. cbn [run mret prog_ret]. reflexivity.
Qed.

Lemma system_error_delivered_witness :
  ∃ c' f wire, run (SendSystemError 7 emptySpan (otherError (str "no"))) (newConnection 1 10 false false) = Ret (None, c')
  ∧ c_sendCh c' = [f] ∧ on_wire f wire.
Proof.
  destruct (system_error_delivered (H := storage_range) 7 emptySpan (otherError (str "no")) (newConnection 1 10 false false))
    as (c' & f & wire & H1 & H2 & H3 & _).
  - split; vm_compute; congruence.
  - repeat split; vm_compute; congruence.
  - vm_compute. congruence.
  - discriminate.
  - cbn. lia.
  - exists c', f, wire. split_and!; [exact H1|exact H2|exact H3].
Defined.

Lemma system_error_too_long_witness :
  ∃ e, run (SendSystemError 7 emptySpan (otherError (replicate 65492 x61))) (newConnection 1 10 false false)
       = Ret (Some e, newConnection 1 10 false false).
Proof.
  apply system_error_too_long. cbn [GetSystemErrorMessage Error]. rewrite length_replicate. reflexivity.
Defined.
