(* ===== verification/ConnectionSafe.v ===== *)
(** * Connections under every interleaving

    The goroutines of a connection, and what holds of it however their actions
    interleave: the stop channel is closed at most once and only when the connection
    is closed, the state only moves forward, and a connection that is closed
    gracefully has waited for the calls that were in flight. *)

From S2P Require Import Prelude Conc Errors Buffer Checksum Frame Messages Fragment Mex ReqRes Health Connection.

(** ** Exchange sets between two moments *)

Definition live (s : messageExchangeSet) (ref : nat) : Prop :=
  ∃ id, exchanges s !! id = Some ref.

(** No exchange is freed, and one that has been removed does not come back. *)
Definition set_later (s s' : messageExchangeSet) : Prop :=
  dom (heap s) ⊆ dom (heap s')
  ∧ ∀ ref, ref ∈ dom (heap s) → live s' ref → live s ref.

#[export] Instance set_later_po : PreOrder set_later.
Proof.
  split.
  - intros s. by split.
  - intros s1 s2 s3 [Hd1 Hl1] [Hd2 Hl2]. split; [by etransitivity|].
    intros ref Hr Hl. apply Hl1; [done|]. apply Hl2; [by apply Hd1|done].
Qed.

Definition set_sane (s : messageExchangeSet) : Prop := map_Forall (λ _ m, mex_sane m) (heap s).

(** An operation of a set that keeps both. *)
Definition set_good (s s' : messageExchangeSet) : Prop := set_later s s' ∧ (set_sane s → set_sane s').

Lemma set_good_refl s : set_good s s.
Proof. split; [done|auto]. Qed.

Lemma set_good_trans s1 s2 s3 : set_good s1 s2 → set_good s2 s3 → set_good s1 s3.
Proof. intros [H1 K1] [H2 K2]. split; [by etransitivity|auto]. Qed.

(** Changing one exchange, forgetting ids, and making callbacks. *)
Lemma set_good_heap ref m m' s :
  heap s !! ref = Some m → (mex_sane m → mex_sane m') →
  set_good s (set_heap (<[ref:=m']> (heap s)) s).
Proof.
  intros Hm Hs. split; [split|].
  - cbn. rewrite dom_insert. set_solver.
  - intros r _ Hl. exact Hl.
  - intros Hall. unfold set_sane. cbn. apply map_Forall_insert_2; [|done]. apply Hs, (Hall ref m Hm).
Qed.

Lemma set_good_delete id s ex old :
  ex = exchanges s ∨ ex = delete id (exchanges s) → set_good s (set_maps ex old s).
Proof.
  intros Hex. split; [split; [done|]|auto]. intros r _ [i Hi]. exists i.
  destruct Hex as [->| ->]; [done|]. cbn in Hi. by apply lookup_delete_Some in Hi as [_ ?].
Qed.

Lemma set_good_call cb s : set_good s (call cb s).
Proof. split; [by split|auto]. Qed.

Lemma deleteExchange_good id s : set_good s (deleteExchange id s).2.
Proof.
  unfold deleteExchange. destruct (exchanges s !! id); [apply (set_good_delete id); by right|].
  case_decide; [|apply set_good_refl]. apply (set_good_delete id). by left.
Qed.

Lemma removeExchange_good id s : set_good s (removeExchange id s).
Proof.
  unfold removeExchange. pose proof (deleteExchange_good id s) as H.
  destruct (deleteExchange id s) as [[fo ex] s']. cbn in H. destruct (_ && _); [done|].
  eapply set_good_trans; [done|apply set_good_call].
Qed.

Lemma expireExchange_good id s : set_good s (expireExchange id s).
Proof.
  unfold expireExchange. pose proof (deleteExchange_good id s) as H.
  destruct (deleteExchange id s) as [[fo ex] s']. cbn in H.
  eapply set_good_trans; [exact H|]. eapply set_good_trans; [|apply set_good_call].
  destruct (fo || ex); [apply (set_good_delete id); by left|apply set_good_refl].
Qed.

Lemma newExchange_good ctx t id n s : set_good s (newExchange ctx t id n s).2.
Proof.
  unfold newExchange, addExchange. pose proof (is_fresh (dom (heap s))) as Hf.
  destruct (ms_shutdown s); [apply set_good_refl|].
  destruct (exchanges s !! id); [apply set_good_refl|]. cbn [snd]. split; [split|].
  - cbn. rewrite dom_insert. set_solver.
  - intros r Hr [i Hi]. cbn in Hi. apply lookup_insert_Some in Hi as [[_ Hi]|[_ Hi]]; [|by exists i].
    subst r. done.
  - intros Hall. unfold set_sane. cbn. apply map_Forall_insert_2; [|done]. split; [constructor|done].
Qed.

Lemma notifyOnce_sane err m : mex_sane m → mex_sane (notifyOnce err m).
Proof.
  intros [Hg He]. unfold notifyOnce, Notify. destruct (errChNotified m); [by split|].
  destruct (notified (errCh m)); by split.
Qed.

Lemma notify_all_good err refs s :
  set_good s (set_heap (foldr (λ ref h, alter (notifyOnce err) ref h) (heap s) refs) s).
Proof.
  induction refs as [|r refs IH]; [destruct s; apply set_good_refl|].
  eapply set_good_trans; [exact IH|]. cbn [foldr].
  set (h := foldr _ _ refs). split; [split|].
  - cbn. by rewrite dom_alter_L.
  - by intros r' _ Hl.
  - intros Hall i m Hi. cbn in Hi. apply lookup_alter_Some in Hi as [(<- & m0 & Hm0 & ->)|[_ Hi]].
    + apply notifyOnce_sane. exact (Hall _ _ Hm0).
    + exact (Hall _ _ Hi).
Qed.

Lemma stopExchanges_good err s : set_good s (stopExchanges err s).
Proof.
  unfold stopExchanges, copyExchanges. destruct (ms_shutdown s); [by split; [split|auto]|].
  eapply set_good_trans; [|apply (notify_all_good err _ (mkMexSet (exchanges s) _ _ (heap s) _))].
  by split; [split|auto].
Qed.

Lemma mex_shutdown_good ref s : set_good s (mex_shutdown ref s).
Proof.
  unfold mex_shutdown. destruct (heap s !! ref) as [m|] eqn:Hm; [|apply set_good_refl].
  destruct (shutdownAtomic m); [apply set_good_refl|].
  eapply set_good_trans; [|apply removeExchange_good].
  apply (set_good_heap _ m); [done|]. intros Hs. by apply notifyOnce_sane.
Qed.

Lemma inboundExpired_good ref s : set_good s (inboundExpired ref s).
Proof.
  unfold inboundExpired. destruct (heap s !! ref); [apply expireExchange_good|apply set_good_refl].
Qed.

Definition frame_sane (f : Frame) : Prop := is_Ret (SizedPayload f).

Lemma offer_sane f m m' : frame_sane f → offer f m = Some m' → mex_sane m → mex_sane m'.
Proof.
  intros Hf. unfold offer. case_decide; [|done]. intros [= <-] [Hg He]. split; [|done].
  cbn. apply Forall_app. by split; [|constructor].
Qed.

Lemma forward_good ctx p f s err s' :
  frame_sane f → set_forwardPeerFrame ctx p f s = Some (err, s') → set_good s s'.
Proof.
  intros Hf. unfold set_forwardPeerFrame.
  destruct (exchanges s !! _) as [ref|] eqn:Hid; cbn; [|intros [= <- <-]; apply set_good_refl].
  destruct (heap s !! ref) as [m|] eqn:Hm; cbn; [|intros [= <- <-]; apply set_good_refl].
  destruct (mex_forwardPeerFrame ctx p f m) as [[e m']|] eqn:Hfw; cbn; [|done].
  intros [= <- <-]. apply (set_good_heap _ m); [done|]. unfold mex_forwardPeerFrame in Hfw.
  destruct (mx_ctx m); [by simplify_eq|]. destruct p.
  - destruct (offer f m) eqn:Ho; cbn in Hfw; [|done]. simplify_eq. by eapply offer_sane.
  - destruct ctx; cbn in Hfw; [|done]. by simplify_eq.
  - destruct (en_c _); [|done]. destruct (offer f m) eqn:Ho; simplify_eq; [by eapply offer_sane|done].
Qed.

(** ** Invariant, guarantee and accounts *)

Definition set_of (d : direction) (e : gset nat * gset nat) : gset nat :=
  match d with inbound => e.1 | outbound => e.2 end.

(** Every exchange that existed when close was called has been removed. *)
Definition drained (d : direction) (c : Connection) : Prop :=
  ∀ e, c_early c = Some e → ∀ ref, ref ∈ set_of d e → ¬ live (get_mex d c) ref.

Definition pending (c : Connection) : Z := default 0 (c_pending c).

Record conn_inv (c : Connection) : Prop := {
  inv_stop : c_stopCh c = true → c_state c = connectionClosed;
  inv_sane d : set_sane (get_mex d c);
  inv_pending : 0 <= pending c;
  inv_active : c_state c = connectionActive → c_early c = None;
  inv_early : c_state c ≠ connectionActive → c_stoppedExchanges c = false → is_Some (c_early c);
  inv_early_dom e d : c_early c = Some e → set_of d e ⊆ dom (heap (get_mex d c));
  inv_inbound : 3 <= connectionState_int (c_state c) → c_stoppedExchanges c = false →
    drained inbound c ∧ pending c = 0;
  inv_outbound : c_state c = connectionClosed → c_stoppedExchanges c = false → drained outbound c
}.

(** What any action leaves true of what has been seen before. *)
Record advance (c c' : Connection) : Prop := {
  adv_state : connectionState_int (c_state c) <= connectionState_int (c_state c');
  adv_stopCh : c_stopCh c = true → c_stopCh c' = true;
  adv_stopped : c_stoppedExchanges c = true → c_stoppedExchanges c' = true;
  adv_set d : set_later (get_mex d c) (get_mex d c');
  adv_early e : c_early c = Some e → c_early c' = Some e;
  adv_new e d : c_early c = None → c_early c' = Some e → dom (heap (get_mex d c)) ⊆ set_of d e;
  adv_pending : c_state c ≠ connectionActive → pending c' <= pending c;
  adv_relay : c_pending c = None ↔ c_pending c' = None
}.

Lemma state_active_int s : s ≠ connectionActive ↔ 2 <= connectionState_int s.
Proof. destruct s; cbn; split; intros; (done || lia). Qed.

Lemma state_closed_int s : s = connectionClosed ↔ 4 <= connectionState_int s.
Proof. destruct s; cbn; split; intros; (done || lia). Qed.

#[export] Instance advance_po : PreOrder advance.
Proof.
  split.
  - intros c. split; try done; try lia. intros e d -> . done.
  - intros c1 c2 c3 H1 H2. split.
    + etransitivity; [apply (adv_state _ _ H1)|apply (adv_state _ _ H2)].
    + intros H. by apply (adv_stopCh _ _ H2), (adv_stopCh _ _ H1).
    + intros H. by apply (adv_stopped _ _ H2), (adv_stopped _ _ H1).
    + intros d. etransitivity; [apply (adv_set _ _ H1)|apply (adv_set _ _ H2)].
    + intros e H. by apply (adv_early _ _ H2), (adv_early _ _ H1).
    + intros e d Hn He. destruct (c_early c2) as [e'|] eqn:E2.
      * apply (adv_early _ _ H2) in E2 as E3. simplify_eq. by apply (adv_new _ _ H1).
      * etransitivity; [apply (adv_set _ _ H1)|]. by apply (adv_new _ _ H2).
    + intros Ha. etransitivity; [|by apply (adv_pending _ _ H1)].
      apply (adv_pending _ _ H2). apply state_active_int.
      pose proof (adv_state _ _ H1). apply state_active_int in Ha. lia.
    + rewrite (adv_relay _ _ H1). apply (adv_relay _ _ H2).
Qed.

(** Owed to the stop channel, and to the relay. *)
Definition conn_bal (c : Connection) : acc :=
  ((if decide (c_state c = connectionClosed) then 1 else 0) - (if c_stopCh c then 1 else 0),
   pending c).

Abbreviation cwp_c := (cwp conn_inv advance conn_bal).
Abbreviation neutral_c := (neutral conn_inv advance conn_bal).
Abbreviation cwp_mono_c := (cwp_mono conn_inv advance conn_bal).
Abbreviation cwp_neutral_c := (cwp_neutral conn_inv advance conn_bal).
Abbreviation neutral_bind_c := (neutral_bind conn_inv advance conn_bal).

(** The part of the state that these speak about. *)
Definition core (c : Connection) :=
  (c_state c, c_stopCh c, c_stoppedExchanges c, c_inbound c, c_outbound c, c_pending c, c_early c).

Lemma core_same c c' :
  core c' = core c → conn_inv c → conn_inv c' ∧ advance c c' ∧ acc_same (conn_bal c') (conn_bal c).
Proof.
  destruct c, c'. unfold core. cbn. intros [= -> -> -> -> -> -> ->] [H1 H2 H3 H3' H4 H5 H6 H7].
  split_and!; [by split| |done]. split; try done; cbn; intros; by simplify_eq.
Qed.

(** ** Actions *)

Create HintDb conn discriminated.

Lemma neutral_core {A} (m : ST Connection A) : (∀ c, core (m c).2 = core c) → neutral_c (atomic m).
Proof. intros H. apply neutral_atomic. intros c Hc. by apply core_same. Qed.

Lemma neutral_do f : (∀ c, core (f c) = core c) → neutral_c (c_do f).
Proof. intros H. apply neutral_core. intros c. apply H. Qed.

Lemma neutral_read {A} (f : Connection → A) : neutral_c (c_read f).
Proof. by apply neutral_core. Qed.

(** A value read off the state at one moment. *)
Lemma cwp_read {A} s0 k (f : Connection → A) Q :
  acc_le acc0 k → (∀ c, advance s0 c → conn_inv c → Q (f c) c k) → cwp_c s0 k (c_read f) Q.
Proof.
  intros Hk HQ. apply cwp_atomic. intros c HG HI _. cbn. split_and!; [done..|].
  exists k. split_and!; [done..|by apply HQ].
Qed.

(** Replacing an exchange set by a later one. *)
Lemma put_good d s' c :
  set_good (get_mex d c) s' → conn_inv c →
  conn_inv (put_mex d s' c) ∧ advance c (put_mex d s' c) ∧ acc_same (conn_bal (put_mex d s' c)) (conn_bal c).
Proof.
  intros [Hl Hs] HI.
  assert (Hlater : ∀ d', set_later (get_mex d' c) (get_mex d' (put_mex d s' c))).
  { intros d'. destruct d, d'; (exact Hl || reflexivity). }
  assert (Hdr : ∀ d', drained d' c → drained d' (put_mex d s' c)).
  { intros d' Hd e He ref Hr Hlive. assert (He' : c_early c = Some e) by by destruct d.
    apply (Hd e He' ref Hr). apply (Hlater d'); [|done]. by apply (inv_early_dom _ HI e d'). }
  split_and!; [| |by destruct d].
  - destruct HI as [H1 H2 H3 H3' H4 H5 H6 H7]. split; try by destruct d.
    + intros d'. destruct d, d';
        solve [apply (H2 inbound)|apply (H2 outbound)|apply Hs, (H2 inbound)|apply Hs, (H2 outbound)].
    + intros e d' He. etransitivity; [|apply (Hlater d')]. apply H5. by destruct d.
    + intros Ha Hst. destruct (H6 ltac:(by destruct d) ltac:(by destruct d)) as [Hd Hp].
      split; [by apply Hdr|by destruct d].
    + intros Ha Hst. apply Hdr, H7; by destruct d.
  - split; try by destruct d.
    intros e d' Hn He. destruct d; cbn in *; congruence.
Qed.

(** Moving the state: [k] gains a credit when the connection is closed by it. *)
Definition gain (from to : connectionState) (k : acc) : acc :=
  if decide (from ≠ connectionClosed ∧ to = connectionClosed) then (k.1 + 1, k.2) else k.

Lemma gain_nonneg from to k : acc_le acc0 k → acc_le acc0 (gain from to k).
Proof. unfold gain. case_decide; acc_lia. Qed.

Lemma gain_same s k : gain s s k = k.
Proof. unfold gain. case_decide as H; [|done]. destruct H; congruence. Qed.

(** [c] may move to [to]: the drains that [to] promises have happened. *)
Definition may_move (to : connectionState) (c : Connection) : Prop :=
  connectionState_int (c_state c) <= connectionState_int to
  ∧ (c_stoppedExchanges c = false →
     is_Some (c_early c)
     ∧ (3 <= connectionState_int to → drained inbound c ∧ pending c = 0)
     ∧ (to = connectionClosed → drained outbound c)).

Lemma set_state_good to c :
  may_move to c → conn_inv c →
  conn_inv (c_set_state to c) ∧ advance c (c_set_state to c)
  ∧ acc_moved (conn_bal c) acc0 (conn_bal (c_set_state to c)) (gain (c_state c) to acc0).
Proof.
  intros [Hle Hm] HI. destruct HI as [H1 H2 H3 H3' H4 H5 H6 H7]. split_and!.
  - split; try done; cbn.
    + intros Hs. apply H1 in Hs. rewrite Hs in Hle. by apply state_closed_int.
    + intros ->. destruct (c_state c) eqn:E; cbn in Hle; try lia. by apply H3'.
    + intros _ Hst. by apply Hm.
    + intros H Hst. by apply Hm.
    + intros H Hst. by apply Hm.
  - split; try done; cbn. by intros e d ->.
  - unfold conn_bal, gain. cbn [c_state c_stopCh c_set_state].
    assert (Hcl : c_state c = connectionClosed → to = connectionClosed).
    { intros E. rewrite E in Hle. by apply state_closed_int. }
    change (pending (c_set_state to c)) with (pending c). repeat case_decide; try tauto; acc_lia.
Qed.

Lemma cwp_moveState s0 k from to Q :
  acc_le acc0 k →
  (∀ c, advance s0 c → conn_inv c → c_state c = from → may_move to c) →
  (∀ c, advance s0 c → Q true (c_set_state to c) (gain from to k)) →
  (∀ c, advance s0 c → Q false c k) → cwp_c s0 k (moveState from to) Q.
Proof.
  intros Hk Hm Ht Hf. apply cwp_atomic. intros c HG HI _. case_decide as E; cbn [fst snd].
  - destruct (set_state_good to c) as (HI' & HG' & Hb); [by apply Hm|done|].
    split_and!; [done..|]. exists (gain from to k). split_and!; [by apply gain_nonneg| |by apply Ht].
    rewrite E in Hb. revert Hb. unfold gain. case_decide; intros Hb; acc_lia.
  - split_and!; [done..|]. exists k. split_and!; [done..|by apply Hf].
Qed.

(** A set found empty stays without the exchanges that existed at close. *)
Lemma empty_drains d c c' :
  conn_inv c → c_state c ≠ connectionActive → count (get_mex d c) = 0%nat →
  advance c c' → c_stoppedExchanges c' = false → is_Some (c_early c') ∧ drained d c'.
Proof.
  intros HI Ha Hn HG Hst.
  assert (Hst0 : c_stoppedExchanges c = false).
  { destruct (c_stoppedExchanges c) eqn:E; [|done]. apply (adv_stopped _ _ HG) in E. congruence. }
  destruct (inv_early _ HI Ha Hst0) as [e He]. apply (adv_early _ _ HG) in He as He'.
  split; [by eexists|]. intros e' Hee' ref Hr Hl. simplify_eq.
  apply (adv_set _ _ HG) in Hl as [id Hid]; [|by apply (inv_early_dom _ HI e)].
  apply map_size_empty_inv in Hn. by rewrite Hn in Hid.
Qed.

Lemma later_not_active c c' : advance c c' → c_state c ≠ connectionActive → c_state c' ≠ connectionActive.
Proof. intros HG Ha. pose proof (adv_state _ _ HG). apply state_active_int in Ha. apply state_active_int. lia. Qed.

(** ** checkExchanges *)

Lemma closeIfStopped_ok s0 k cur :
  acc_le acc0 k → connectionState_int cur <= connectionState_int (c_state s0) →
  cwp_c s0 k (closeIfStopped cur) (λ r s k',
    connectionState_int r <= connectionState_int (c_state s)
    ∧ k' = gain cur r k ∧ (r = cur ∨ r = connectionClosed)).
Proof.
  intros Hk Hle. unfold closeIfStopped. case_decide as Ec.
  { split_and!; [done|by rewrite gain_same|by left]. }
  apply cwp_bind, cwp_read; [done|]. intros c1 HG1 HI1.
  assert (Hle1 : connectionState_int cur <= connectionState_int (c_state c1)).
  { pose proof (adv_state _ _ HG1). lia. }
  destruct (c_stoppedExchanges c1) eqn:Est.
  2: { split_and!; [done|by rewrite gain_same|by left]. }
  apply cwp_bind, cwp_moveState; [done|..].
  - intros c2 HG2 HI2 E2. split; [rewrite E2; destruct cur; cbn; lia|].
    intros Hst. apply (adv_stopped _ _ HG2) in Est. congruence.
  - intros c2 HG2. cbn. split_and!; [done..|by right].
  - intros c2 HG2. cbn. pose proof (adv_state _ _ HG2).
    split_and!; [lia|by rewrite gain_same|by left].
Qed.

(** What closeInbound and closeOutbound know once canClose has said yes. *)
Lemma cwp_canClose s0 k Q :
  acc_le acc0 k →
  (∀ c, advance s0 c → conn_inv c → Q false c k) →
  (∀ c, advance s0 c → conn_inv c → pending c = 0 → Q true c k) → cwp_c s0 k canClose Q.
Proof.
  intros Hk Hf Ht. apply cwp_read; [done|]. intros c HG HI. unfold pending in Ht.
  destruct (c_pending c) as [n|] eqn:E; [|apply Ht; [done..|by rewrite E]].
  case_bool_decide as En; [apply Ht; [done..|by rewrite E]|by apply Hf].
Qed.

Lemma closeInbound_ok s0 k cur :
  acc_le acc0 k → connectionState_int cur <= connectionState_int (c_state s0) →
  cwp_c s0 k (closeInbound cur) (λ r s k', k' = k ∧
    match r with
    | None => cur ≠ connectionClosed
    | Some r => connectionState_int r <= connectionState_int (c_state s)
                ∧ (r = cur ∨ cur = connectionStartClose ∧ r = connectionInboundClosed)
    end).
Proof.
  intros Hk Hle. unfold closeInbound. case_decide as Ec.
  2: { split_and!; [done..|by left]. }
  assert (Ha0 : c_state s0 ≠ connectionActive) by (apply state_active_int; subst cur; done).
  apply cwp_bind, cwp_canClose; [done|..].
  { intros c1 _ _. split; [done|by rewrite Ec]. }
  intros c1 HG1 HI1 Hp1. apply cwp_bind, cwp_read; [done|]. intros c2 HG2 HI2.
  pose proof (adv_state _ _ HG1) as Hs1. pose proof (adv_state _ _ HG2) as Hs2.
  apply (later_not_active _ _ HG1) in Ha0 as Ha1. apply (later_not_active _ _ HG2) in Ha1 as Ha2.
  case_decide as En; [|split_and!; [done|lia|by left]].
  apply cwp_bind, cwp_moveState; [done|..].
  - intros c3 HG3 HI3 E3. split; [rewrite E3; done|]. intros Hst.
    destruct (empty_drains inbound _ _ HI2 Ha2 En HG3 Hst) as [He Hd].
    split_and!; [done| |done]. intros _. split; [done|].
    pose proof (adv_pending _ _ HG2 Ha1). pose proof (adv_pending _ _ HG3 Ha2).
    pose proof (inv_pending _ HI3). lia.
  - intros c3 _. unfold gain. rewrite decide_False by (intros [_ ?]; done).
    split_and!; [done..|by right].
  - intros c3 HG3. pose proof (adv_state _ _ HG3). split_and!; [done|lia|by left].
Qed.

Lemma closeOutbound_ok s0 k cur :
  acc_le acc0 k → connectionState_int cur <= connectionState_int (c_state s0) →
  cwp_c s0 k (closeOutbound cur) (λ r s k',
    match r with
    | None => k' = k ∧ cur ≠ connectionClosed
    | Some r => k' = gain cur r k ∧ (r = cur ∨ r = connectionClosed)
    end).
Proof.
  intros Hk Hle. unfold closeOutbound. case_decide as Ec.
  2: { split_and!; [by rewrite gain_same|by left]. }
  assert (Ha0 : c_state s0 ≠ connectionActive) by (apply state_active_int; subst cur; cbn in Hle; lia).
  apply cwp_bind, cwp_canClose; [done|..].
  { intros c1 _ _. split; [done|by rewrite Ec]. }
  intros c1 HG1 HI1 Hp1. apply cwp_bind, cwp_read; [done|]. intros c2 HG2 HI2.
  apply (later_not_active _ _ HG1) in Ha0 as Ha1. apply (later_not_active _ _ HG2) in Ha1 as Ha2.
  case_decide as En; [|split; [by rewrite gain_same|by left]].
  apply cwp_bind, cwp_moveState; [done|..].
  - intros c3 HG3 HI3 E3. split; [rewrite E3; done|]. intros Hst.
    destruct (empty_drains outbound _ _ HI2 Ha2 En HG3 Hst) as [He Hd].
    split_and!; [done|intros _|done]. apply (inv_inbound _ HI3); [|done]. by rewrite E3.
  - intros c3 _. rewrite Ec. by split; [|right].
  - intros c3 HG3. split; [by rewrite gain_same|by left].
Qed.

(** Closing the stop channel spends the credit of the move to Closed. *)
Lemma closeStopCh_ok s0 k :
  acc_le acc0 k → cwp_c s0 (k.1 + 1, k.2) closeStopCh (λ _ _ k', k' = k).
Proof.
  intros Hk. apply cwp_act. intros c _ HI Hb.
  assert (c_stopCh c = false ∧ c_state c = connectionClosed) as [Hs Hc].
  { specialize (Hb true). specialize (Hk true). unfold conn_bal in Hb. cbn in Hb, Hk.
    destruct (c_stopCh c), (decide (c_state c = connectionClosed)); try lia. done. }
  rewrite Hs. destruct HI as [H1 H2 H3 H3' H4 H5 H6 H7]. split_and!; [by split| |].
  - split; try done; cbn. by intros e d ->.
  - exists k. split_and!; [done| |done]. unfold conn_bal.
    change (pending (c_close_stopCh c)) with (pending c).
    cbn [c_close_stopCh c_state c_stopCh]. rewrite Hc, Hs, decide_True by done. acc_lia.
Qed.

Lemma callOnExchangeChange_neutral : neutral_c callOnExchangeChange.
Proof. by apply neutral_do. Qed.
Lemma callOnCloseStateChange_neutral : neutral_c callOnCloseStateChange.
Proof. by apply neutral_do. Qed.

Lemma checkExchanges_neutral : neutral_c checkExchanges.
Proof.
  intros s0 k Hk. unfold checkExchanges.
  apply cwp_bind. eapply cwp_neutral_c; [apply callOnExchangeChange_neutral|done|]. intros _ c0 ? _ ->%acc_same_eq.
  apply cwp_bind, cwp_read; [done|]. intros c1 HG1 HI1.
  apply cwp_bind. eapply cwp_mono_c; [|by apply closeIfStopped_ok]. cbn. intros cur1 c2 k1 HG2 (Hle1 & -> & Hc1).
  apply cwp_bind. eapply cwp_mono_c; [|apply closeInbound_ok; [by apply gain_nonneg|done]].
  intros r c3 k2 HG3 (-> & Hr). destruct r as [cur2|].
  2: { cbn. destruct Hc1 as [-> | ->]; [by rewrite gain_same|done]. }
  destruct Hr as [Hle2 Hc2].
  apply cwp_bind. eapply cwp_mono_c; [|apply closeOutbound_ok; [by apply gain_nonneg|done]].
  intros r c4 k3 HG4 Hr. destruct r as [cur3|].
  2: { destruct Hr as [-> Hn]. cbn. destruct Hc1 as [-> | ->]; [by rewrite gain_same|].
       destruct Hc2 as [-> |[? _]]; done. }
  destruct Hr as [-> Hc3].
  assert (Htotal : gain cur2 cur3 (gain (c_state c1) cur1 k) = gain (c_state c1) cur3 k).
  { unfold gain.
    destruct Hc1 as [-> | ->], Hc2 as [-> |[H2 ->]], Hc3 as [-> | ->]; try done;
      repeat case_decide; try tauto; try done; intuition congruence. }
  rewrite Htotal. case_decide as E; [rewrite E; cbn; by rewrite gain_same|].
  apply cwp_bind. case_decide as Ecl.
  - eapply cwp_mono_c; [|unfold gain; rewrite decide_True by (split; congruence); by apply closeStopCh_ok].
    cbn. intros _ c5 k5 _ ->. by apply callOnCloseStateChange_neutral.
  - cbn. unfold gain. rewrite decide_False by tauto. by apply callOnCloseStateChange_neutral.
Qed.

#[export] Hint Resolve neutral_ret neutral_read checkExchanges_neutral
  callOnExchangeChange_neutral callOnCloseStateChange_neutral : conn.

(** Programs put together from neutral ones are neutral. *)
Ltac neut :=
  repeat match goal with
  | |- neutral _ _ _ (_ ≫= _) => apply neutral_bind_c; [|intros ?]
  | |- neutral _ _ _ (mret _) => apply neutral_ret
  | |- neutral _ _ _ (c_read _) => apply neutral_read
  | |- neutral _ _ _ readState => apply neutral_read
  | |- neutral _ _ _ (match ?x with _ => _ end) => destruct x
  | |- neutral _ _ _ (let '(_, _) := ?x in _) => destruct x
  | |- neutral _ _ _ _ => solve [eauto with conn nocore]
  end.

(** ** The methods *)

Lemma run_callbacks_neutral l : neutral_c (run_callbacks l).
Proof. induction l as [|[|] l IH]; cbn [run_callbacks]; neut. Qed.

Lemma onMex_neutral {A} d (m : ST messageExchangeSet A) :
  (∀ s, set_good s (m s).2) → neutral_c (onMex d m).
Proof.
  intros Hm. unfold onMex. apply neutral_bind_c.
  - apply neutral_atomic. intros c HI. pose proof (Hm (get_mex d c)) as H.
    destruct (m (get_mex d c)) as [a s]. cbn in *. by apply put_good.
  - intros [a cbs]. apply neutral_bind_c; [apply run_callbacks_neutral|by intros _].
Qed.

Lemma forwardPeerFrame_neutral d ctx p f : frame_sane f → neutral_c (forwardPeerFrame d ctx p f).
Proof.
  intros Hf. apply neutral_act. intros c HI.
  destruct (set_forwardPeerFrame ctx p f (get_mex d c)) as [[err s]|] eqn:E; [|done].
  apply put_good; [|done]. by eapply forward_good.
Qed.

Lemma startClose_neutral : neutral_c startClose.
Proof.
  apply neutral_atomic. intros c HI. destruct (c_state c) eqn:E; cbn [fst snd]; try by apply core_same.
  destruct HI as [H1 H2 H3 H3' H4 H5 H6 H7]. split_and!.
  - split; try done; cbn; try by eexists.
    + intros Hs. apply H1 in Hs. congruence.
    + intros e [|] [= <-]; done.
  - split; try done; cbn; rewrite ?E; try done.
    + intros e He. rewrite H3' in He by done. done.
    + intros e [|] _ [= <-]; done.
  - unfold conn_bal. cbn. by rewrite E.
Qed.

Lemma close_neutral : neutral_c close_.
Proof. unfold close_. neut. apply startClose_neutral. Qed.

#[export] Hint Resolve close_neutral : conn.

Lemma stopHealthCheck_neutral : neutral_c stopHealthCheck.
Proof.
  unfold stopHealthCheck. neut.
  - by apply neutral_do.
  - apply neutral_act. intros c HI. destruct (c_healthDone c); [by apply core_same|done].
Qed.

Lemma stopAllExchanges_neutral err : neutral_c (stopAllExchanges err).
Proof.
  unfold stopAllExchanges. neut.
  - apply neutral_atomic. intros c [H1 H2 H3 H3' H4 H5 H6 H7]. cbn [fst snd]. split_and!; [by split| |done].
    split; try done; cbn. by intros e d ->.
  - apply onMex_neutral. intros s. apply stopExchanges_good.
  - apply onMex_neutral. intros s. apply stopExchanges_good.
Qed.

Lemma connectionError_neutral err : neutral_c (connectionError err).
Proof.
  unfold connectionError. neut; [apply stopHealthCheck_neutral|apply stopAllExchanges_neutral].
Qed.

Lemma trySend_core f c c' : trySend f c = Some c' → core c' = core c.
Proof. unfold trySend. case_decide; [by intros [= <-]|done]. Qed.

Lemma SendSystemError_neutral id span err : neutral_c (SendSystemError id span err).
Proof.
  unfold SendSystemError. neut. apply neutral_core. intros c. case_decide; [done|].
  destruct (trySend _ c) eqn:E; [by apply trySend_core in E|done].
Qed.

Lemma protocolError_neutral id err : neutral_c (protocolError id err).
Proof.
  unfold protocolError. neut; [apply SendSystemError_neutral|apply stopAllExchanges_neutral].
Qed.

Lemma sendMessage_neutral {M} `{Message M} (msg : M) : neutral_c (sendMessage msg).
Proof.
  unfold sendMessage. neut. apply neutral_core. intros c.
  destruct (trySend _ c) eqn:E; [by apply trySend_core in E|done].
Qed.

#[export] Hint Resolve stopHealthCheck_neutral connectionError_neutral protocolError_neutral
  SendSystemError_neutral sendMessage_neutral : conn.

Lemma handlePingReq_neutral f : neutral_c (handlePingReq f).
Proof. unfold handlePingReq. neut. Qed.

Lemma mex_op_neutral d ref : neutral_c (onMex d (λ s, (tt, mex_shutdown ref s))).
Proof. apply onMex_neutral. intros s. apply mex_shutdown_good. Qed.

Lemma ping_recv_neutral id ref ctx p : neutral_c (ping_recv id ref ctx p).
Proof.
  apply neutral_act. intros c HI. destruct (heap (c_outbound c) !! ref) as [m|] eqn:Hm; [|done].
  destruct (recvPeerFrameOfType _ _ _ _ m) as [x|] eqn:Hx; [|done].
  assert (Hsane : mex_sane m) by exact (inv_sane _ HI outbound _ _ Hm).
  destruct (recvPeerFrameOfType_sane _ _ _ _ _ _ Hsane Hx) as (f & e & m' & pool' & -> & Hm' & Hcase).
  set (c' := put_mex outbound _ c).
  assert (Hput : conn_inv c' ∧ advance c c' ∧ acc_same (conn_bal c') (conn_bal c)).
  { apply put_good; [|done]. by apply (set_good_heap _ m). }
  destruct Hcase as [[e' ->]|(g & -> & -> & [sp Hg])]; [by destruct e'|].
  unfold Frame_read. rewrite Hg. cbn [mbind go_bind]. destruct (msg_read _ _) as [[a e] rb]. exact Hput.
Qed.

Lemma ping_neutral ctx ctx' p : neutral_c (ping ctx ctx' p).
Proof.
  unfold ping. neut.
  - by apply neutral_core.
  - apply onMex_neutral. intros s. apply newExchange_good.
  - apply ping_recv_neutral.
  - apply onMex_neutral. intros s. apply removeExchange_good.
Qed.

Lemma healthCheck_neutral n ticks : neutral_c (healthCheck n ticks).
Proof.
  unfold healthCheck. apply neutral_bind_c; [|intros _; by apply neutral_do].
  generalize 0 at 1. induction ticks as [|t ticks IH]; intros failures; cbn [healthCheckLoop]; neut.
  all: try apply ping_neutral; try by apply neutral_do.
Qed.

(** The frames a reader hands over: their size is within their payload, and the
    payload has room for the fields of a call request. *)
Definition wire_frame (f : Frame) : Prop := frame_sane f ∧ is_Ret (callReqSpan f).

Lemma gcall_neutral {A} (m : go A) : is_Ret m → neutral_c (atomic_go (gcall m)).
Proof. intros [a ->]. apply neutral_act. intros c HI. by apply core_same. Qed.

Lemma handleCallReq_neutral now f : wire_frame f → neutral_c (handleCallReq now f).
Proof.
  intros [Hf Hs]. unfold handleCallReq. neut; try by apply gcall_neutral.
  - destruct (parseInboundFragment_total (H := storage_range) 0 f (mCallReq (mkCallReq (ID (Header f)) 0 emptySpan ∅ [])) Hf)
      as (fr & e & m & E & _). apply gcall_neutral. rewrite E. by eexists.
  - apply onMex_neutral. intros s. apply newExchange_good.
  - by apply neutral_do.
  - apply mex_op_neutral.
Qed.

Lemma handleError_neutral ctx p f : frame_sane f → neutral_c (handleError ctx p f).
Proof.
  intros Hf. unfold handleError. neut; [by apply gcall_neutral|by apply forwardPeerFrame_neutral].
Qed.

Lemma beginCall_neutral ttl ctx : neutral_c (beginCall ttl ctx).
Proof.
  unfold beginCall. neut.
  - by apply neutral_core.
  - apply onMex_neutral. intros s. apply newExchange_good.
  - apply mex_op_neutral.
Qed.

Lemma handleFrameNoRelay_neutral ctx p f : wire_frame f → neutral_c (handleFrameNoRelay ctx p f).
Proof.
  intros Hf. unfold handleFrameNoRelay, handleCallReqContinue, handleCallRes, handleCallResContinue, handlePingRes.
  neut; try (by apply forwardPeerFrame_neutral, Hf).
  - by apply handleCallReq_neutral.
  - apply handlePingReq_neutral.
  - by apply handleError_neutral, Hf.
Qed.

Lemma writeFrames_select_neutral stop : neutral_c (writeFrames_select stop).
Proof.
  apply neutral_act. intros c HI. destruct (c_sendCh c), (c_stopCh c); try done; try by apply core_same.
  destruct (_ && _); by apply core_same.
Qed.
Lemma writeFrames_stopped_neutral : neutral_c writeFrames_stopped.
Proof. unfold writeFrames_stopped, closeNetwork. neut. by apply neutral_do. Qed.
#[export] Hint Resolve writeFrames_select_neutral writeFrames_stopped_neutral : conn.

Lemma writeFrames_round_neutral stop werr : neutral_c (writeFrames_round stop werr).
Proof. unfold writeFrames_round. neut. Qed.

Lemma handleErr_neutral err : neutral_c (readFrames_handleErr err).
Proof. unfold readFrames_handleErr. neut. Qed.

(** A frame of the pools has room for the fields of a call request. *)
Lemma frame_ok_wire f : frame_ok f → frame_sane f → wire_frame f.
Proof.
  intros Hf Hs. split; [done|]. pose proof (length_Payload f Hf). unfold callReqSpan.
  rewrite slice_to_fits by frame_lia. by eexists.
Qed.

(** A relayed call: accepted, and at some time later done. *)
Definition relayedCall : cprog unit :=
  '(ok, _) ← canHandleNewCall;
  if ok : bool then decrementPending else mret tt.

Lemma pending_change n c :
  conn_inv c → 0 <= n → (c_state c = connectionActive ∨ n <= pending c) → is_Some (c_pending c) →
  conn_inv (c_set_pending (Some n) c) ∧ advance c (c_set_pending (Some n) c)
  ∧ conn_bal (c_set_pending (Some n) c) = ((conn_bal c).1, n).
Proof.
  intros [H1 H2 H3 H3' H4 H5 H6 H7] Hn Hle [n0 Hp]. split_and!; [| |done].
  - split; try done. cbn. intros Hs Hst. destruct (H6 Hs Hst) as [Hd Hp0]. split; [done|].
    unfold pending in *. cbn. rewrite Hp in *. cbn in *.
    destruct Hle as [Ha|Hle]; [rewrite Ha in Hs; cbn in Hs; lia|lia].
  - split; try done; cbn.
    + by intros e d ->.
    + intros Ha. destruct Hle as [?|Hle]; [done|exact Hle].
    + by rewrite Hp.
Qed.

Lemma relayedCall_neutral : neutral_c relayedCall.
Proof.
  intros s0 k Hk. unfold relayedCall. apply cwp_bind, cwp_atomic. intros c HG HI Hb.
  cbv zeta beta. case_decide as Ea; cbn [fst snd].
  2: { split_and!; [done..|]. exists k. by split_and!. }
  destruct (c_pending c) as [n|] eqn:Ep.
  - assert (Hp : pending c = n) by (unfold pending; by rewrite Ep).
    pose proof (inv_pending _ HI) as H0.
    destruct (pending_change (n + 1) c HI) as (HI' & HG' & Hb'); [lia|by left|by eexists|].
    change ((λ n, n + 1) <$> Some n) with (Some (n + 1)).
    split_and!; [done..|]. exists (k.1, k.2 + 1). split_and!; [acc_lia|rewrite Hb'; unfold conn_bal; rewrite Hp; acc_lia|].
    unfold decrementPending. apply cwp_bind, cwp_atomic. cbn [fst snd]. intros c2 HG2 HI2 Hb2.
    destruct (c_pending c2) as [n2|] eqn:Ep2; [|by apply (adv_relay _ _ HG2) in Ep2].
    assert (Hp2 : pending c2 = n2) by (unfold pending; by rewrite Ep2).
    assert (Hpos : 1 <= n2).
    { specialize (Hb2 false). specialize (Hk false). cbn in Hb2, Hk. rewrite Hp2 in Hb2. lia. }
    destruct (pending_change (n2 - 1) c2 HI2) as (HI3 & HG3 & Hb3); [lia|right; lia|by eexists|].
    change ((λ n, n - 1) <$> Some n2) with (Some (n2 - 1)).
    split_and!; [done..|]. exists k. split_and!; [done|rewrite Hb3; unfold conn_bal; rewrite Hp2; acc_lia|].
    by apply checkExchanges_neutral.
  - change ((λ n, n + 1) <$> None) with (@None Z).
    destruct (core_same c (c_set_pending None c)) as (HI' & HG' & Hb'); [unfold core; by rewrite Ep|done|].
    split_and!; [done..|]. exists k. split_and!; [done|by apply acc_moved_same|].
    unfold decrementPending. apply cwp_bind, cwp_atomic. cbn [fst snd]. intros c2 HG2 HI2 Hb2.
    assert (Ep2 : c_pending c2 = None) by by apply (adv_relay _ _ HG2).
    rewrite Ep2. change ((λ n, n - 1) <$> None) with (@None Z).
    destruct (core_same c2 (c_set_pending None c2)) as (HI3 & HG3 & Hb3); [unfold core; by rewrite Ep2|done|].
    split_and!; [done..|]. exists k. split_and!; [done|by apply acc_moved_same|]. by apply checkExchanges_neutral.
Qed.

(** ** All goroutines *)

Definition forget {A} (p : cprog A) : cprog unit := _ ← p; mret tt.

(** The reader of an exchange, anywhere. *)
Definition mex_recv (d : direction) (ref : nat) (ctx' : option sentinel) (p : pick) (t : byte)
    : cprog (option Frame * option error) :=
  atomic_go (λ c,
    match heap (get_mex d c) !! ref with
    | None => OutOfFuel
    | Some m =>
        match recvPeerFrameOfType ctx' p t disabledFramePool m with
        | None => OutOfFuel
        | Some (Ret (frame, err, m, _)) =>
            Ret ((frame, err), put_mex d (set_heap (<[ref := m]> (heap (get_mex d c))) (get_mex d c)) c)
        | Some _ => Panic
        end
    end).

(** What is run on a connection, by its own goroutines and by those of its calls. *)
Inductive conn_goroutine : cprog unit → Prop :=
| g_close : conn_goroutine (forget Close)
| g_frame ctx p f : wire_frame f → conn_goroutine (forget (handleFrameNoRelay ctx p f))
| g_read_err err : conn_goroutine (readFrames_handleErr err)
| g_write stop werr : conn_goroutine (forget (writeFrames_round stop werr))
| g_health n ticks : conn_goroutine (healthCheck n ticks)
| g_ping ctx ctx' p : conn_goroutine (forget (ping ctx ctx' p))
| g_call ttl ctx : conn_goroutine (forget (beginCall ttl ctx))
| g_recv d ref ctx p t : conn_goroutine (forget (mex_recv d ref ctx p t))
| g_done d ref : conn_goroutine (onMex d (λ s, (tt, mex_shutdown ref s)))
| g_expired ref : conn_goroutine (onMex inbound (λ s, (tt, inboundExpired ref s)))
| g_system_error id span err : conn_goroutine (forget (SendSystemError id span err))
| g_pending : conn_goroutine (forget hasPendingCalls)
| g_relayed : conn_goroutine relayedCall.

Lemma mex_recv_neutral d ref ctx p t : neutral_c (mex_recv d ref ctx p t).
Proof.
  apply neutral_act. intros c HI. destruct (heap (get_mex d c) !! ref) as [m|] eqn:Hm; [|done].
  destruct (recvPeerFrameOfType _ _ _ _ m) as [x|] eqn:Hx; [|done].
  assert (Hsane : mex_sane m) by exact (inv_sane _ HI d _ _ Hm).
  destruct (recvPeerFrameOfType_sane _ _ _ _ _ _ Hsane Hx) as (f & e & m' & pool' & -> & Hm' & _).
  apply put_good; [|done]. by apply (set_good_heap _ m).
Qed.

Lemma goroutine_neutral p : conn_goroutine p → neutral_c p.
Proof.
  destruct 1; unfold forget, Close, readFrames_handleErr, hasPendingCalls, canClose; neut.
  - by apply handleFrameNoRelay_neutral.
  - apply writeFrames_round_neutral.
  - apply healthCheck_neutral.
  - apply ping_neutral.
  - apply beginCall_neutral.
  - apply mex_recv_neutral.
  - apply mex_op_neutral.
  - apply onMex_neutral. intros s. apply inboundExpired_good.
  - apply relayedCall_neutral.
Qed.

Lemma new_inv id cap relay health :
  conn_inv (newConnection id cap relay health) ∧ acc_same (conn_bal (newConnection id cap relay health)) acc0.
Proof.
  split; [|by destruct relay; intros []]. split; try done; cbn.
  - by intros [|] i m Hm.
  - by destruct relay.
Qed.

Abbreviation conn_steps := (rtc (sched_step conn_goroutine)).


(** C4: A graceful close waits for the calls in flight.  Every inbound exchange that
    existed at a time when the connection was active has been removed by the time the
    state is InboundClosed, every outbound one by the time it is Closed, and no relayed
    call is pending from InboundClosed on; unless an error stopped the exchanges.  This
    covers calls that are being set up when Close is called, whatever the
    interleaving. *)
Theorem connection_drains id cap relay health c1 ts1 c2 ts2 :
  conn_steps (newConnection id cap relay health, []) (c1, ts1) →
  conn_steps (c1, ts1) (c2, ts2) →
  c_state c1 = connectionActive → c_stoppedExchanges c2 = false →
  connectionState_int connectionInboundClosed <= connectionState_int (c_state c2) →
  (∀ ref, ref ∈ dom (heap (c_inbound c1)) → ¬ live (c_inbound c2) ref)
  ∧ (c_state c2 = connectionClosed →
     ∀ ref, ref ∈ dom (heap (c_outbound c1)) → ¬ live (c_outbound c2) ref)
  ∧ default 0 (c_pending c2) = 0.
Proof.
  intros H1 H2 Ha Hst Hle. destruct (new_inv id cap relay health) as [HI Hb].
  assert (H12 : conn_steps (newConnection id cap relay health, []) (c2, ts2)) by by etransitivity.
  destruct (sched_safe conn_inv advance conn_bal _ _ _ goroutine_neutral HI Hb H1) as (HI1 & _).
  destruct (sched_safe conn_inv advance conn_bal _ _ _ goroutine_neutral HI Hb H12) as (HI2 & _).
  pose proof (sched_guar conn_inv advance conn_bal _ _ _ _ goroutine_neutral HI Hb H1 H2) as HG.
  cbn [fst] in *. destruct (inv_inbound _ HI2 Hle Hst) as [Hd Hp].
  pose proof (inv_active _ HI1 Ha) as Hn.
  assert (Ha2 : c_state c2 ≠ connectionActive) by (intros E; rewrite E in Hle; cbn in Hle; lia).
  destruct (inv_early _ HI2 Ha2 Hst) as [e He]. split_and!; [| |exact Hp].
  - intros ref Hr. apply (Hd e He). by apply (adv_new _ _ HG e inbound Hn He).
  - intros Hc ref Hr. apply (inv_outbound _ HI2 Hc Hst e He). by apply (adv_new _ _ HG e outbound Hn He).
Qed.

(** A call is made and completed, then the connection is closed. *)
Definition after (p : cprog unit) (c : Connection) : Connection :=
  match run p c with Ret (_, c) => c | _ => c end.

Definition calling : Connection :=
  after (forget (beginCall (Some 1000000000) None)) (newConnection 1 10 false false).
Definition call_done : Connection := after (onMex outbound (λ s, (tt, mex_shutdown 0 s))) calling.
Definition closed : Connection := after (forget Close) call_done.

Lemma calling_steps :
  conn_steps (newConnection 1 10 false false, []) (calling, [done_ tt]).
Proof.
  apply (run_schedule _ (forget (beginCall (Some 1000000000) None)) _ tt _ []);
    [constructor|vm_compute; reflexivity].
Qed.

Lemma closed_steps :
  conn_steps (calling, [done_ tt]) (closed, ([done_ tt] ++ [done_ tt]) ++ [done_ tt]).
Proof.
  etransitivity.
  - apply (run_schedule _ (onMex outbound (λ s, (tt, mex_shutdown 0 s))) _ tt call_done);
      [constructor|vm_compute; reflexivity].
  - apply (run_schedule _ (forget Close) _ tt closed); [constructor|vm_compute; reflexivity].
Qed.


Lemma connection_drains_witness :
  0%nat ∈ dom (heap (c_outbound calling)) ∧ c_state closed = connectionClosed
  ∧ ¬ live (c_outbound closed) 0%nat.
Proof.
  destruct (connection_drains 1 10 false false calling [done_ tt] closed _ calling_steps closed_steps)
    as (_ & Hd & _); [vm_compute; reflexivity..|vm_compute; discriminate|].
  assert (Hin : 0%nat ∈ dom (heap (c_outbound calling))).
  { apply elem_of_dom. vm_compute. by eexists. }
  split_and!; [done|vm_compute; reflexivity|]. by apply Hd; [vm_compute; reflexivity|].
Defined.
