(* ===== verification/ConnectionRun.v ===== *)
(** * Connections without interference

    What the methods of a connection do when they run alone: the table that
    checkExchanges follows, closing after an error, and what happens when the health
    checker itself meets one. *)

From S2P Require Import Prelude Conc Errors Buffer Checksum Frame Messages Fragment Mex ReqRes Health Connection.

(** No relayed call is pending. *)
Definition can_close (c : Connection) : bool :=
  match c_pending c with None => true | Some n => bool_decide (n = 0) end.

(** The state checkExchanges leads to. *)
Definition settle (c : Connection) : connectionState :=
  let inboundEmpty := bool_decide (count (c_inbound c) = 0%nat) in
  let outboundEmpty := bool_decide (count (c_outbound c) = 0%nat) in
  if c_stoppedExchanges c then connectionClosed
  else match c_state c with
       | connectionStartClose =>
           if can_close c && inboundEmpty
           then if outboundEmpty then connectionClosed else connectionInboundClosed
           else connectionStartClose
       | connectionInboundClosed =>
           if can_close c && outboundEmpty then connectionClosed else connectionInboundClosed
       | s => s
       end.

(** The connection it leads to: who is told of a change, and the stop channel. *)
Definition settled (c : Connection) : Connection :=
  let c1 := c_event OnExchangeUpdated c in
  if decide (settle c = c_state c) then c1
  else
    let c2 := c_set_state (settle c) c1 in
    c_event OnCloseStateChange
      (if decide (settle c = connectionClosed) then c_close_stopCh c2 else c2).

(** The stop channel of a connection that is not closed is open. *)
Definition stop_ok (c : Connection) : Prop := c_stopCh c = true → c_state c = connectionClosed.

(** Running through decisions that are settled by the context. *)
Ltac known_states :=
  repeat (cbn; match goal with
    | |- context [decide ?P] =>
        first [rewrite (decide_True (P := P)) by done | rewrite (decide_False (P := P)) by done]
    | |- context [bool_decide ?P] =>
        first [rewrite (bool_decide_eq_true_2 P) by done | rewrite (bool_decide_eq_false_2 P) by done]
    end).

Lemma checkExchanges_run c : stop_ok c → run checkExchanges c = Ret (tt, settled c).
Proof.
  intros Hs. unfold stop_ok in Hs. unfold settled, settle, can_close.
  destruct c as [st stopped i o ch cap stop nid pend ev he hq hd cn early hist]; cbn in Hs.
  assert (Hopen : st ≠ connectionClosed → stop = false) by (destruct stop; [intuition congruence|done]).
  unfold checkExchanges, callOnExchangeChange, readState, closeIfStopped, closeInbound, closeOutbound, canClose, closeStopCh.
  destruct pend as [n|]; [destruct (decide (n = 0)) as [Hn|Hn]|];
    destruct (decide (count i = 0%nat)) as [Hi|Hi], (decide (count o = 0%nat)) as [Ho|Ho].
  all: destruct st, stopped; known_states; rewrite ?Hopen by done; try done.
Qed.

(** CheckExchanges, run to its end, takes the connection to the state of the table
    [settle] (stopped exchanges close it; a graceful close advances as far as the
    relay and the exchange sets allow, inbound first), notifies the channel of a change
    and closes the stop channel exactly when it reaches Closed. *)
Theorem checkExchanges_settles c : stop_ok c → run checkExchanges c = Ret (tt, settled c).
Proof. apply checkExchanges_run. Qed.

Lemma checkExchanges_settles_witness :
  run checkExchanges (c_set_state connectionStartClose (newConnection 1 10 false false))
  = Ret (tt, settled (c_set_state connectionStartClose (newConnection 1 10 false false)))
  ∧ c_state (settled (c_set_state connectionStartClose (newConnection 1 10 false false)))
    = connectionClosed.
Proof. split; [apply checkExchanges_settles; done|vm_compute; reflexivity]. Defined.

(** Nobody is in the middle of closing. *)
Definition quiet (c : Connection) : Prop := c_stopCh c = true ↔ c_state c = connectionClosed.

(** Running a method leaves the exchange sets and the stop flag as they were. *)
Definition same_sets (c c' : Connection) : Prop :=
  c_inbound c' = c_inbound c ∧ c_outbound c' = c_outbound c
  ∧ c_stoppedExchanges c' = c_stoppedExchanges c.

Lemma run_checkExchanges c :
  quiet c → ∃ c', run checkExchanges c = Ret (tt, c') ∧ quiet c' ∧ same_sets c c' ∧ c_state c' = settle c.
Proof.
  intros Hq. assert (Hs : stop_ok c) by (intros H; by apply Hq).
  exists (settled c). split; [by apply checkExchanges_run|].
  assert (Hopen : settle c ≠ c_state c → c_stopCh c = false).
  { intros Hne. destruct (c_stopCh c) eqn:E; [|done]. apply Hs in E. destruct Hne.
    unfold settle. rewrite E. by destruct (c_stoppedExchanges c). }
  unfold settled. case_decide as E.
  { split_and!; try done. }
  case_decide as E'; (split_and!; [|done..]).
  - split; [intros _; exact E'|done].
  - split; [|intros H; cbn in H; congruence]. cbn. intros H. apply Hs in H as H'.
    rewrite Hopen in H by done. done.
Qed.

Lemma run_close c :
  quiet c → ∃ r c', run close_ c = Ret (r, c') ∧ quiet c' ∧ same_sets c c'
  ∧ (r = None ↔ c_state c = connectionActive) ∧ (r ≠ None → c' = c).
Proof.
  intros Hq. unfold close_, startClose. rewrite run_atomic.
  destruct (c_state c) eqn:E; cbn [fst snd];
    try (do 2 eexists; split; [reflexivity|]; split; [done|]; split; [by split_and!|]; by split).
  unfold callOnCloseStateChange, c_do. rewrite run_atomic. cbn [fst snd].
  set (c1 := c_event OnCloseStateChange _).
  destruct (run_checkExchanges c1) as (c2 & Hr & Hq2 & (Hi & Ho & Hs) & _).
  { split; [|done]. intros H. apply Hq in H. congruence. }
  exists None, c2. rewrite (run_bind_ret _ _ _ _ _ Hr). split_and!; try done.
Qed.

Lemma stopExchanges_callbacks err s : callbacks (stopExchanges err s) = callbacks s.
Proof. unfold stopExchanges, copyExchanges. by destruct (ms_shutdown s). Qed.

(** Stopping one set makes no callbacks. *)
Lemma run_stop {B} d err (k : unit → cprog B) c :
  run (onMex d (λ s, (tt, stopExchanges err s)) ≫= k) c
  = run (k tt) (put_mex d (stopExchanges err (get_mex d c)) c).
Proof.
  apply run_bind_ret. unfold onMex. rewrite run_atomic. cbn [fst snd].
  by rewrite stopExchanges_callbacks, drop_all.
Qed.

Lemma run_stopAll err c :
  run (stopAllExchanges err) c = Ret (tt,
    if c_stoppedExchanges c then c_set_stopped c
    else put_mex inbound (stopExchanges err (c_inbound c))
           (put_mex outbound (stopExchanges err (c_outbound c)) (c_set_stopped c))).
Proof.
  unfold stopAllExchanges. rewrite run_atomic. cbn [fst snd].
  destruct (c_stoppedExchanges c); [done|]. cbn [negb]. rewrite run_stop.
  unfold onMex. rewrite run_atomic. cbn [fst snd]. by rewrite stopExchanges_callbacks, drop_all.
Qed.

(** The health checker is not running, or has been told to stop. *)
Definition health_idle (c : Connection) : Prop := c_healthEnabled c = false ∨ c_healthQuit c = true.

Lemma run_stopHealthCheck {B} (k : unit → cprog B) c :
  health_idle c → run (stopHealthCheck ≫= k) c = run (k tt) c.
Proof.
  intros Hh. apply run_bind_ret. unfold stopHealthCheck. unfold c_read. rewrite run_atomic. cbn [fst snd].
  destruct (c_healthEnabled c) eqn:E; [|done]. cbn [negb]. rewrite run_atomic. cbn [fst snd].
  destruct Hh as [?|Hh]; [congruence|]. by rewrite Hh.
Qed.

(** A connection error (a network failure, a full send buffer, a protocol error of
    the peer) closes the connection at once: the state is Closed and the stop channel
    is closed whatever calls are in flight; the first such error stops both exchange
    sets with the wrapped error, a second one leaves them alone. *)
Theorem connectionError_closes err c :
  quiet c → health_idle c →
  ∃ c', run (connectionError err) c = Ret (logConnectionError err, c')
  ∧ c_state c' = connectionClosed ∧ c_stopCh c' = true ∧ c_stoppedExchanges c' = true
  ∧ ∀ d, get_mex d c' = (if c_stoppedExchanges c then get_mex d c
                         else stopExchanges (logConnectionError err) (get_mex d c)).
Proof.
  intros Hq Hh. unfold connectionError. rewrite run_stopHealthCheck by done.
  destruct (run_close c Hq) as (r & c1 & Hr & Hq1 & (Hi & Ho & Hs) & _).
  rewrite (run_bind_ret _ _ _ _ _ Hr), (run_bind_ret _ _ _ _ _ (run_stopAll _ c1)).
  set (c2 := if c_stoppedExchanges c1 then _ else _).
  assert (H2 : quiet c2 ∧ c_stoppedExchanges c2 = true) by (subst c2; by destruct (c_stoppedExchanges c1)).
  destruct H2 as [Hq2 Hst2].
  destruct (run_checkExchanges c2 Hq2) as (c3 & Hr3 & Hq3 & (Hi3 & Ho3 & Hs3) & Hst3).
  exists c3. rewrite (run_bind_ret _ _ _ _ _ Hr3).
  assert (Hcl : c_state c3 = connectionClosed) by (rewrite Hst3; unfold settle; by rewrite Hst2).
  split_and!; [done|done|by apply Hq3|congruence|].
  intros d. rewrite <- Hs. destruct d; cbn [get_mex]; [rewrite Hi3, <- Hi|rewrite Ho3, <- Ho];
    subst c2; by destruct (c_stoppedExchanges c1).
Qed.

Lemma connectionError_closes_witness :
  ∃ c', run (connectionError io_EOF) (newConnection 1 10 false false) = Ret (logConnectionError io_EOF, c')
  ∧ c_state c' = connectionClosed ∧ c_stopCh c' = true.
Proof.
  destruct (connectionError_closes io_EOF (newConnection 1 10 false false)) as (c' & H1 & H2 & H3 & _).
  - split; discriminate.
  - left. reflexivity.
  - exists c'. split_and!; [exact H1|exact H2|exact H3].
Defined.

(** ** The health checker and its own errors *)

(** The receive from healthCheckDone: it proceeds when healthCheck has ended. *)
Definition waitHealthDone : cprog unit :=
  atomic_go (λ c, if c_healthDone c then Ret (tt, c) else OutOfFuel).

Lemma stopHealthCheck_waits c :
  c_healthEnabled c = true → c_healthQuit c = false →
  rtc pstep (stopHealthCheck, c)
    (waitHealthDone, c_set_health true (c_healthDone c) (c_closeNetworkCalled c) c).
Proof.
  intros He Hq. unfold stopHealthCheck.
  eapply psteps_run; [reflexivity|]. rewrite He. cbn [negb].
  eapply psteps_run; [reflexivity|]. rewrite Hq.
  eapply psteps_run; [reflexivity|]. done.
Qed.

Lemma ping_fits id : (Frame_write (mkPingReq id) blankFrame).1 = None.
Proof. reflexivity. Qed.

Lemma run_newExchange ctx t id n c :
  ms_shutdown (c_outbound c) = false → exchanges (c_outbound c) !! id = None →
  ∃ ref s, run (onMex outbound (newExchange ctx t id n)) c
           = Ret ((Some ref, None), c_event OnExchangeUpdated (put_mex outbound s c)).
Proof.
  intros Hsd Hid. unfold onMex. cbn. unfold glift, newExchange, addExchange. rewrite Hsd, Hid. cbn.
  rewrite drop_app_length. cbn. by do 2 eexists.
Qed.

Lemma run_send_full {M} `{Message M} (msg : M) c :
  (Frame_write msg blankFrame).1 = None → (c_sendCap c <= length (c_sendCh c))%nat →
  run (sendMessage msg) c = Ret (Some (ErrSendBufferFull : error), c).
Proof.
  intros Hw Hfull. unfold sendMessage. destruct (Frame_write msg blankFrame) as [e f]. cbn in Hw. subst e.
  cbn. unfold glift, trySend. by rewrite decide_False by lia.
Qed.

(** A ping that finds the send buffer full. *)
Lemma ping_full ctx ctx' p c :
  c_healthEnabled c = true → c_healthQuit c = false →
  (c_sendCap c <= length (c_sendCh c))%nat → ms_shutdown (c_outbound c) = false →
  exchanges (c_outbound c) !! uint32 (c_nextMessageID c + 1) = None →
  ∃ k c', rtc pstep (ping ctx ctx' p, c) (waitHealthDone ≫= k, c')
  ∧ c_state c' = c_state c ∧ c_healthDone c' = c_healthDone c.
Proof.
  intros He Hq Hfull Hsd Hid. set (id := uint32 (c_nextMessageID c + 1)) in *.
  destruct (run_newExchange ctx messageTypePingReq id 1 (c_set_nextID id c)) as (ref & s & Hnew); [done..|].
  set (c1 := c_event OnExchangeUpdated (put_mex outbound s (c_set_nextID id c))) in *.
  pose proof (stopHealthCheck_waits c1 He Hq) as Hwait.
  eexists (λ r, _), _. split.
  - unfold ping. eapply psteps_run; [reflexivity|]. fold id.
    eapply psteps_run; [exact Hnew|]. cbn match.
    eapply psteps_run; [by apply run_send_full|]. cbn match.
    do 3 eapply psteps_bind in Hwait. exact Hwait.
  - done.
Qed.

(** When the health checker's own ping cannot be sent because the send buffer is
    full, the error handling of the connection waits for the health checker to end,
    which is the goroutine that is waiting: it comes to a receive that proceeds only
    once healthCheck has returned, with the connection still in the state it was in. *)
Theorem health_check_waits_for_itself failuresToClose t ticks c :
  c_healthEnabled c = true → c_healthQuit c = false → c_healthDone c = false →
  (c_sendCap c <= length (c_sendCh c))%nat → ms_shutdown (c_outbound c) = false →
  exchanges (c_outbound c) !! uint32 (c_nextMessageID c + 1) = None →
  ∃ k c', rtc pstep (healthCheck failuresToClose (t :: ticks), c) (waitHealthDone ≫= k, c')
  ∧ run (waitHealthDone ≫= k) c' = OutOfFuel
  ∧ c_state c' = c_state c ∧ c_healthDone c' = false.
Proof.
  intros He Hq Hd Hfull Hsd Hid.
  destruct (ping_full None (tick_ctx t) (tick_pick t) c) as (k & c' & Hp & Hst & Hdone); [done..|].
  assert (Hloop : ∃ k, rtc pstep (healthCheckLoop failuresToClose 0 (t :: ticks), c) (waitHealthDone ≫= k, c')).
  { eexists (λ r, _). cbn [healthCheckLoop].
    eapply psteps_run; [reflexivity|]. rewrite Hq. cbn [andb].
    eapply psteps_run; [reflexivity|]. rewrite Hq.
    eapply psteps_bind in Hp. exact Hp. }
  destruct Hloop as [k' Hloop]. eexists (λ r, _), c'. split_and!; [| |done|congruence].
  - eapply psteps_bind in Hloop. exact Hloop.
  - cbn. by rewrite Hdone, Hd.
Qed.

Lemma health_check_waits_for_itself_witness :
  let c := newConnection 1 0 false true in
  ∃ k c', rtc pstep (healthCheck 5 [mkHealthTick true None pickFrame], c) (waitHealthDone ≫= k, c')
  ∧ run (waitHealthDone ≫= k) c' = OutOfFuel ∧ c_state c' = connectionActive.
Proof.
  intros c.
  destruct (health_check_waits_for_itself 5 (mkHealthTick true None pickFrame) [] c
    eq_refl eq_refl eq_refl (le_n 0) eq_refl eq_refl) as (k & c' & H1 & H2 & H3 & _).
  exists k, c'. split_and!; [exact H1|exact H2|exact H3].
Defined.
