(* ===== verification/Headers.v ===== *)
(** * Typed readers and writers over streams, and the headers in arg2
    (typed/reader.go, typed/writer.go, thrift/headers.go,
    thrift/arg2/kv_iterator.go, NewArgWriter of arguments.go)

    A [Writer] wraps any io.Writer (the class [ioWriter]); a [Reader] reads from a
    byte stream that ends with an error.  Headers of a Thrift call are a count
    followed by length-prefixed keys and values; three pieces of code know that
    format: WriteHeaders, ReadHeaders and the relay's KeyValIterator.  The theorems
    show that they agree. *)

From S2P Require Import Prelude Errors Buffer Frame Messages.

(** ** io.Writer *)

Class ioWriter (W : Type) := { io_Write : bytes → GO W (nat * option error) }.

Class ioCloser (W : Type) := { io_Close : GO W (option error) }.

(** A writer that appends to a byte slice (bytes.Buffer). *)
#[export] Instance buffer_writer : ioWriter bytes := {|
  io_Write b := λ w, Ret ((length b, None), w ++ b)
|}.

(** ** Writer *)

Record Writer (W : Type) := mkWriter { wr_writer : W; wr_err : option error }.
Arguments mkWriter {W}. Arguments wr_writer {W}. Arguments wr_err {W}.

Section writer.
Context {W : Type} `{ioWriter W}.

Definition NewWriter (w : W) : Writer W := mkWriter w None.

(** The part the write methods share: write unless an error has been seen. *)
Definition wr_write (b : bytes) : GO (Writer W) unit := λ w,
  match wr_err w with
  | Some _ => Ret (tt, w)
  | None =>
      match io_Write b (wr_writer w) with
      | Ret ((_, err), x) => Ret (tt, mkWriter x err)
      | Panic => Panic
      | OutOfFuel => OutOfFuel
      end
  end.

Definition wr_WriteBytes (b : bytes) : GO (Writer W) unit := wr_write b.
Definition wr_WriteUint16 (n : Z) : GO (Writer W) unit := wr_write (be_enc 2 n).

Definition wr_WriteLen16Bytes (b : bytes) : GO (Writer W) unit := λ w,
  match wr_err w with
  | Some _ => Ret (tt, w)
  | None => (_ ← wr_WriteUint16 (uint16 (len b)); wr_WriteBytes b) w
  end.

Definition wr_Err (w : Writer W) : option error := wr_err w.

(** NewArgWriter(writer, err).Write(bs) *)
Definition ArgWriteHelper_Write `{ioCloser W} (argErr : option error) (bs : bytes)
    : GO W (option error) :=
  match argErr with
  | Some e => mret (Some e)
  | None =>
      '(_, err) ← io_Write bs;
      match err with
      | Some e => mret (Some e)
      | None => io_Close
      end
  end.

(** WriteHeaders: Go iterates over the map twice, each time in an order of its
    own ([r1], [r2]). *)
Definition headers_size (r1 : MapRange) (headers : gmap bytes bytes) : nat :=
  foldl (λ size '(k, v), size + 4 + (length k + length v))%nat 2%nat (range (MapRange := r1) headers).

Definition WriteHeaders (r1 r2 : MapRange) (headers : gmap bytes bytes) : GO W (option error) :=
  let size := headers_size r1 headers in
  let writeBuffer := NewWriteBuffer (replicate size x00) in
  let '(_, writeBuffer) := WriteUint16 (uint16 (Z.of_nat (base.size headers))) writeBuffer in
  let '(_, writeBuffer) := write_params (range (MapRange := r2) headers) writeBuffer in
  match w_err writeBuffer with
  | Some err => mret (Some err)
  | None =>
      if decide (BytesWritten writeBuffer = size) then
        '(_, err) ← FlushTo io_Write writeBuffer; mret err
      else mret (Some (otherError (str "writeHeaders size calculation wrong")))
  end.
End writer.

(** ** Reader

    A typed.Reader only ever calls io.ReadFull on what it wraps. *)

Class fullReader (R : Type) := { io_ReadFull : nat → GO R (bytes * option error) }.

#[export] Instance stream_reader : fullReader Stream := {|
  io_ReadFull n := λ s, let '(b, err, s) := ReadFull n s in Ret ((b, err), s)
|}.

Record Reader (R : Type) := mkReader { rd_reader : R; rd_err : option error }.
Arguments mkReader {R}. Arguments rd_reader {R}. Arguments rd_err {R}.

Section reader.
Context {R : Type} `{fullReader R}.

(** NewReader clears the error of a pooled reader. *)
Definition NewReader (r : R) : Reader R := mkReader r None.

(** The part the read methods share: fill a buffer of [n] bytes unless an error has
    been seen, and give [zero] if it was not filled. *)
Definition rd_read {A} (n : nat) (zero : A) (f : bytes → A) : GO (Reader R) A := λ r,
  match rd_err r with
  | Some _ => Ret (zero, r)
  | None =>
      match io_ReadFull n (rd_reader r) with
      | Ret ((b, err), s) => Ret (if decide (length b < n)%nat then zero else f b, mkReader s err)
      | Panic => Panic
      | OutOfFuel => OutOfFuel
      end
  end.

Definition rd_ReadUint16 : GO (Reader R) Z := rd_read 2 0 be_dec.
Definition rd_ReadString (n : nat) : GO (Reader R) bytes := rd_read n [] id.

Definition rd_ReadLen16String : GO (Reader R) bytes :=
  n ← rd_ReadUint16; rd_ReadString (Z.to_nat n).

Definition rd_Err : GO (Reader R) (option error) := λ r, Ret (rd_err r, r).

(** The loop of readHeaders, with [n] headers to go. *)
Fixpoint readHeaders_loop (n : nat) (headers : gmap bytes bytes) : GO (Reader R) (gmap bytes bytes) :=
  match n with
  | O => mret headers
  | S n => λ r,
      match rd_err r with
      | Some _ => Ret (headers, r)
      | None =>
          (k ← rd_ReadLen16String;
           v ← rd_ReadLen16String;
           readHeaders_loop n (<[k:=v]> headers)) r
      end
  end.

(** A nil map is the empty map. *)
Definition readHeaders : GO (Reader R) (gmap bytes bytes * option error) :=
  numHeaders ← rd_ReadUint16;
  if decide (numHeaders = 0) then
    err ← rd_Err; mret (∅, err)
  else
    headers ← readHeaders_loop (Z.to_nat numHeaders) ∅;
    err ← rd_Err; mret (headers, err).

Definition ReadHeaders : GO R (gmap bytes bytes * option error) := λ s,
  match readHeaders (NewReader s) with
  | Ret (res, r) => Ret (res, rd_reader r)
  | Panic => Panic
  | OutOfFuel => OutOfFuel
  end.
End reader.

(** ** KeyValIterator *)

Record KeyValIterator := mkKeyValIterator {
  kv_remaining : bytes;
  leftPairCount : Z;
  kv_key : bytes;
  kv_val : bytes
}.

Definition kv_Next (i : KeyValIterator) : KeyValIterator + error :=
  if decide (leftPairCount i <= 0) then inr (io_EOF : error)
  else
    let '(keyLen, rbuf) := ReadUint16 (NewReadBuffer (kv_remaining i)) in
    let '(key, rbuf) := ReadBytes (Z.to_nat keyLen) rbuf in
    let '(valLen, rbuf) := ReadUint16 rbuf in
    let '(val, rbuf) := ReadBytes (Z.to_nat valLen) rbuf in
    match r_err rbuf with
    | Some e => inr e
    | None => inl (mkKeyValIterator (r_Remaining rbuf) (leftPairCount i - 1)
                     (default [] key) (default [] val))
    end.

Definition NewKeyValIterator (arg2Payload : bytes) : KeyValIterator + error :=
  if decide (len arg2Payload < 2) then inr (io_EOF : error)
  else kv_Next (mkKeyValIterator (drop 2 arg2Payload) (be_dec (take 2 arg2Payload)) [] []).

Definition kv_Key (i : KeyValIterator) : bytes := kv_key i.
Definition kv_Value (i : KeyValIterator) : bytes := kv_val i.
Definition kv_Remaining (i : KeyValIterator) : bool := bool_decide (0 < leftPairCount i).

(** The client loop of an iterator: [for it, err := New(..); err == nil; it, err =
    it.Next()], with the pairs it visits and the error that ends it; every step
    uses up one of the announced pairs. *)
Fixpoint kv_loop (fuel : nat) (it : KeyValIterator + error) : list (bytes * bytes) * option error :=
  match it with
  | inr e => ([], Some e)
  | inl i =>
      match fuel with
      | O => ([], None)
      | S fuel =>
          let '(l, e) := kv_loop fuel (kv_Next i) in ((kv_Key i, kv_Value i) :: l, e)
      end
  end.

Definition kv_pairs (arg2 : bytes) : list (bytes * bytes) * option error :=
  kv_loop (Z.to_nat 65536) (NewKeyValIterator arg2).

(** ** The header format *)

Definition kvs_enc (l : list (bytes * bytes)) : bytes :=
  be_enc 2 (len l) ++ pairs_enc pair16_enc l.

Lemma length_pair16_enc p : length (pair16_enc p) = (4 + (length p.1 + length p.2))%nat.
Proof. unfold pair16_enc. rewrite !length_app, !length_be_enc. lia. Qed.

Lemma headers_size_eq (l : list (bytes * bytes)) n :
  foldl (λ size '(k, v), size + 4 + (length k + length v))%nat n l
  = (n + length (pairs_enc pair16_enc l))%nat.
Proof.
  revert n. induction l as [|[k v] l IH]; intros n; [cbn; lia|].
  cbn [foldl]. rewrite IH. unfold pairs_enc. cbn [fmap list_fmap concat].
  rewrite length_app, length_pair16_enc. cbn [fst snd]. lia.
Qed.

Lemma pairs_enc_perm l l' : l ≡ₚ l' →
  length (pairs_enc pair16_enc l) = length (pairs_enc pair16_enc l').
Proof.
  induction 1 as [|p l l' _ IH|p q l|l1 l2 l3 _ IH1 _ IH2]; unfold pairs_enc in *;
    cbn [fmap list_fmap concat] in *; rewrite ?length_app; lia.
Qed.

Lemma write_headers_buffer l size :
  pairs_ok 65536 l → len l < 65536 → size = length (kvs_enc l) →
  (_ ← WriteUint16 (len l); write_params l) (NewWriteBuffer (replicate size x00))
  = (tt, mkWriteBuffer (kvs_enc l) size None).
Proof.
  intros Hl Hn ->. set (w := NewWriteBuffer _).
  destruct (writes_bind _ _ _ _ (WriteUint16_writes (len l)) (write_params_writes l Hl))
    as (_ & Hw & _).
  rewrite Hw; [| |done|].
  - unfold appended, w, NewWriteBuffer. cbn [w_off w_buffer]. fold (kvs_enc l).
    rewrite splice_fits by (rewrite length_replicate; lia).
    rewrite drop_ge by (rewrite length_replicate; lia). by rewrite app_nil_r.
  - unfold wbuf_ok, w. simpl. lia.
  - rewrite w_BytesRemaining_eq. unfold w, NewWriteBuffer. cbn [w_buffer w_off].
    rewrite length_replicate. unfold kvs_enc. lia.
Qed.

Section headers.
Context {W : Type} `{ioWriter W} (r1 r2 : MapRange).

(** WriteHeaders hands its writer the count and the pairs, in one write. *)
Lemma WriteHeaders_spec headers (w : W) :
  map_ok 65536 headers →
  WriteHeaders r1 r2 headers w
  = ('(_, err) ← io_Write (kvs_enc (range (MapRange := r2) headers)); mret err) w.
Proof.
  intros Hok. set (l := range headers).
  assert (Hl : pairs_ok 65536 l) by (by apply range_pairs_ok).
  assert (Hn : len l = Z.of_nat (base.size headers)) by (unfold l; by rewrite length_range).
  destruct Hok as [Hs _].
  assert (Hsize : headers_size r1 headers = length (kvs_enc l)).
  { unfold headers_size. rewrite headers_size_eq. unfold kvs_enc. rewrite length_app, length_be_enc.
    f_equal. apply pairs_enc_perm. unfold l. etransitivity; [apply range_perm|].
    symmetry. apply range_perm. }
  unfold WriteHeaders. rewrite uint16_small, <- Hn by lia.
  pose proof (write_headers_buffer l _ Hl ltac:(lia) Hsize) as Hw.
  unfold mbind, st_bind in Hw. fold l. unfold kvs_enc in Hw.
  destruct (WriteUint16 (len l) _) as [[] b1]. rewrite Hw. cbn [w_err].
  assert (Hbw : BytesWritten (mkWriteBuffer (kvs_enc l) (headers_size r1 headers) None)
                = headers_size r1 headers).
  { rewrite BytesWritten_off; [done|]. unfold wbuf_ok. cbn [w_off w_buffer]. lia. }
  fold (kvs_enc l). rewrite decide_True by done. unfold FlushTo. rewrite Hbw. cbn [w_buffer].
  by rewrite take_ge by lia.
Qed.
End headers.

(** ** Reading headers back *)

(** [contains d r]: the reader [r] holds the bytes [d], and ReadFull takes its bytes
    from them. *)
Class Contains (R : Type) `{fullReader R} := {
  contains : bytes → R → Prop;
  contains_ReadFull n d r : contains d r → (n <= length d)%nat →
    ∃ r', io_ReadFull n r = Ret ((take n d, None), r') ∧ contains (drop n d) r'
}.

#[local] Lemma stream_contains_ReadFull e n d s :
  s = mkStream d e → (n <= length d)%nat →
  ∃ s', io_ReadFull n s = Ret ((take n d, None), s') ∧ s' = mkStream (drop n d) e.
Proof.
  intros -> Hn. eexists. split; [|reflexivity]. cbn. unfold ReadFull. cbn [input end_err].
  by rewrite decide_True.
Qed.

Definition stream_contains (e : error) : Contains Stream := {|
  contains d s := s = mkStream d e;
  contains_ReadFull := stream_contains_ReadFull e
|}.

Section reading.
Context {R : Type} `{Contains R}.

(** [rd_reads m bs a]: on a reader that holds [bs] and more, [m] consumes exactly
    [bs] and returns [a]. *)
Definition rd_reads {A} (m : GO (Reader R) A) (bs : bytes) (a : A) : Prop :=
  ∀ d r, contains (bs ++ d) r → ∃ r', m (mkReader r None) = Ret (a, mkReader r' None) ∧ contains d r'.

Lemma rd_reads_bind {A B} (m : GO (Reader R) A) (f : A → GO (Reader R) B) b1 b2 a b :
  rd_reads m b1 a → rd_reads (f a) b2 b → rd_reads (m ≫= f) (b1 ++ b2) b.
Proof.
  intros H1 H2 d r Hr. rewrite <- app_assoc in Hr. destruct (H1 _ _ Hr) as (r1 & R1 & Hr1).
  run_with R1. by apply H2.
Qed.

Lemma rd_read_reads {A} n (zero : A) f bs : length bs = n → rd_reads (rd_read n zero f) bs (f bs).
Proof.
  intros <- d r Hr. destruct (contains_ReadFull (length bs) _ _ Hr) as (r' & R1 & Hr').
  { rewrite length_app. lia. }
  rewrite take_app_length in R1. rewrite drop_app_length in Hr'. exists r'. split; [|done].
  unfold rd_read. cbn [rd_err rd_reader]. rewrite R1. by rewrite decide_False by lia.
Qed.

Lemma rd_ReadUint16_reads v : 0 <= v < 65536 → rd_reads rd_ReadUint16 (be_enc 2 v) v.
Proof.
  intros Hv. rewrite <- (Z.mod_small v (2^(8 * Z.of_nat 2))) at 2 by (cbn; lia).
  rewrite <- be_dec_enc. apply rd_read_reads, length_be_enc.
Qed.

Lemma rd_ReadLen16String_reads s : len s < 65536 →
  rd_reads rd_ReadLen16String (be_enc 2 (len s) ++ s) s.
Proof.
  intros Hs. eapply rd_reads_bind; [apply rd_ReadUint16_reads; lia|].
  apply (rd_read_reads _ _ id). lia.
Qed.

Lemma readHeaders_loop_reads l acc : pairs_ok 65536 l →
  rd_reads (readHeaders_loop (length l) acc) (pairs_enc pair16_enc l) (insert_pairs acc l).
Proof.
  intros Hl. revert acc. induction Hl as [|[k v] l [Hk Hv] Hl IH]; intros acc d r Hr; [by exists r|].
  cbn [length readHeaders_loop rd_err]. unfold pairs_enc in Hr. cbn [fmap list_fmap concat] in Hr.
  unfold pair16_enc at 1 in Hr. cbn [fst snd] in *. rewrite <- (app_assoc (be_enc 2 (len k) ++ k)) in Hr.
  exact (rd_reads_bind _ _ _ _ _ _ (rd_ReadLen16String_reads k Hk)
    (rd_reads_bind _ _ _ _ _ _ (rd_ReadLen16String_reads v Hv) (IH _)) d r Hr).
Qed.

Lemma ReadHeaders_spec l d r :
  pairs_ok 65536 l → len l < 65536 → contains (kvs_enc l ++ d) r →
  ∃ r', ReadHeaders r = Ret ((insert_pairs ∅ l, None), r') ∧ contains d r'.
Proof.
  intros Hl Hn Hr. unfold kvs_enc in Hr. rewrite <- app_assoc in Hr.
  destruct (rd_ReadUint16_reads (len l) ltac:(lia) _ _ Hr) as (r1 & R1 & Hr1).
  unfold ReadHeaders, readHeaders, NewReader. run_with R1. case_decide as Hz.
  - destruct l; [|done]. by exists r1.
  - rewrite Nat2Z.id. destruct (readHeaders_loop_reads l ∅ Hl _ _ Hr1) as (r2 & R2 & Hr2).
    exists r2. run_with R2. split; [reflexivity|done].
Qed.

(** What WriteHeaders has written, whatever the order of iteration. *)
Lemma ReadHeaders_written `{MapRange} headers d r :
  map_ok 65536 headers → contains (kvs_enc (range headers) ++ d) r →
  ∃ r', ReadHeaders r = Ret ((headers, None), r') ∧ contains d r'.
Proof.
  intros Hok Hr. destruct (ReadHeaders_spec (range headers) d r) as (r' & R1 & Hr'); [by apply range_pairs_ok| |done|].
  - rewrite length_range. apply Hok.
  - exists r'. by rewrite R1, (insert_pairs_perm _ headers) by apply range_perm.
Qed.
End reading.

(** Headers written by WriteHeaders are read back by ReadHeaders: the map comes
    back, whatever order Go iterates in, and the reader stops where the headers
    end. *)
Theorem headers_roundtrip r1 r2 headers rest e :
  map_ok 65536 headers →
  ∃ enc, WriteHeaders r1 r2 headers [] = Ret (None, enc)
  ∧ ReadHeaders (mkStream (enc ++ rest) e) = Ret ((headers, None), mkStream rest e).
Proof.
  intros Hok. exists (kvs_enc (range (MapRange := r2) headers)). split.
  - by rewrite WriteHeaders_spec.
  - by destruct (ReadHeaders_written (H0 := stream_contains e) (H1 := r2) headers rest
      (mkStream (kvs_enc (range (MapRange := r2) headers) ++ rest) e) Hok eq_refl) as (? & ? & ->).
Qed.

Lemma headers_roundtrip_witness :
  ∃ enc, WriteHeaders storage_range storage_range {[ str "k" := str "v" ]} [] = Ret (None, enc)
  ∧ ReadHeaders (mkStream (enc ++ [x07]) io_EOF) = Ret (({[ str "k" := str "v" ]}, None), mkStream [x07] io_EOF).
Proof.
  destruct (headers_roundtrip storage_range storage_range {[ str "k" := str "v" ]} [x07] io_EOF)
    as (enc & H1 & H2).
  - split; [vm_compute; reflexivity|]. apply map_Forall_singleton. split; vm_compute; reflexivity.
  - exists enc. split; [exact H1|exact H2].
Defined.

(** ** The iterator *)

Lemma kv_Next_spec n k v p q rest :
  0 < n → len k < 65536 → len v < 65536 →
  kv_Next (mkKeyValIterator (pair16_enc (k, v) ++ rest) n p q)
  = inl (mkKeyValIterator rest (n - 1) k v).
Proof.
  intros Hn Hk Hv. unfold kv_Next. cbn [leftPairCount kv_remaining]. rewrite decide_False by lia.
  unfold NewReadBuffer, pair16_enc. cbn [fst snd]. set (z := Z.of_nat _). clearbody z.
  rewrite <- !app_assoc.
  rewrite (ReadUint16_reads (len k)) by lia. rewrite (ReadBytes_reads' _ k) by lia.
  rewrite (ReadUint16_reads (len v)) by lia. by rewrite (ReadBytes_reads' _ v) by lia.
Qed.

Lemma kv_loop_spec fuel l rest p q :
  pairs_ok 65536 l → (length l <= fuel)%nat →
  kv_loop fuel (kv_Next (mkKeyValIterator (pairs_enc pair16_enc l ++ rest) (len l) p q))
  = (l, Some (io_EOF : error)).
Proof.
  intros Hl. revert fuel p q. induction Hl as [|[k v] l [Hk Hv] Hl IH]; intros fuel p q Hf.
  { unfold kv_Next. cbn [leftPairCount length]. rewrite decide_True by lia. by destruct fuel. }
  unfold pairs_enc. cbn [fmap list_fmap concat]. rewrite <- app_assoc.
  cbn [fst snd] in *. rewrite kv_Next_spec by (cbn [length]; lia).
  destruct fuel as [|fuel]; [cbn in Hf; lia|]. cbn [kv_loop length].
  replace (Z.of_nat (Datatypes.S (length l)) - 1) with (len l) by lia.
  cbn [length] in Hf. by rewrite IH by lia.
Qed.

(** The iterator visits the pairs of an encoded list and ends with io.EOF. *)
Lemma kv_pairs_spec l rest :
  pairs_ok 65536 l → len l < 65536 → kv_pairs (kvs_enc l ++ rest) = (l, Some (io_EOF : error)).
Proof.
  intros Hl Hn. unfold kv_pairs, NewKeyValIterator, kvs_enc.
  rewrite decide_False by (rewrite !length_app, length_be_enc; lia).
  rewrite <- app_assoc, drop_app_length', take_app_length' by (by rewrite length_be_enc).
  rewrite be_dec_enc, Z.mod_small by lia. apply kv_loop_spec; [done|lia].
Qed.

(** One length-prefixed field of a pair: it is there, or the buffer has the error. *)
Lemma field16_cases n rem :
  let '(l, r) := ReadUint16 (mkReadBuffer n rem None) in
  let '(b, r) := ReadBytes (Z.to_nat l) r in
  (∃ bs rest, rem = (be_enc 2 (len bs) ++ bs) ++ rest ∧ len bs < 65536 ∧ b = Some bs ∧ r = mkReadBuffer n rest None)
  ∨ r_err r = Some (ErrEOF : error).
Proof.
  unfold ReadUint16, ReadBytes, mbind, st_bind, mret, st_ret. cbn [r_err r_remaining initialLength].
  case_decide as H1; [by right|]. cbn [r_err r_remaining initialLength]. case_decide as H2; [by right|]. left.
  pose proof (be_dec_range (take 2 rem)) as Hr. rewrite length_take, Nat.min_l in Hr by lia.
  set (l := be_dec (take 2 rem)) in *. exists (take (Z.to_nat l) (drop 2 rem)), (drop (Z.to_nat l) (drop 2 rem)).
  assert (Hl : len (take (Z.to_nat l) (drop 2 rem)) = l) by (rewrite length_take; lia).
  split_and!; [|lia|done|done].
  rewrite Hl. unfold l. rewrite be_enc_dec' by (rewrite length_take; lia). by rewrite <- app_assoc, !take_drop.
Qed.

Lemma ReadBytes_failed n r e : r_err r = Some e → ReadBytes n r = (None, r).
Proof. intros E. unfold ReadBytes. by rewrite E. Qed.

Definition pair_ok (p : bytes * bytes) : Prop := len p.1 < 65536 ∧ len p.2 < 65536.

(** Next takes the pair at the start of what remains; if there is none it is an error. *)
Lemma kv_Next_cases i : 0 < leftPairCount i →
  match kv_Next i with
  | inl i' => kv_remaining i = pair16_enc (kv_key i', kv_val i') ++ kv_remaining i'
              ∧ pair_ok (kv_key i', kv_val i') ∧ leftPairCount i' = leftPairCount i - 1
  | inr e => e = ErrEOF ∧ ∀ p rest, pair_ok p → kv_remaining i ≠ pair16_enc p ++ rest
  end.
Proof.
  intros Hn. destruct (kv_Next i) as [i'|e] eqn:E.
  - revert E. unfold kv_Next. rewrite decide_False by lia. unfold NewReadBuffer.
    pose proof (field16_cases (len (kv_remaining i)) (kv_remaining i)) as H1.
    destruct (ReadUint16 _) as [l1 r1], (ReadBytes (Z.to_nat l1) r1) as [k r2].
    destruct H1 as [(bs & rest & Hrem & Hk & -> & ->)|He].
    + pose proof (field16_cases (len (kv_remaining i)) rest) as H2.
      destruct (ReadUint16 _) as [l2 r3], (ReadBytes (Z.to_nat l2) r3) as [v r4].
      destruct H2 as [(bs' & rest' & Hrest & Hv & -> & ->)|He']; [|by rewrite He'].
      cbn. intros [= <-]. cbn. split_and!; [|done|done]. rewrite Hrem, Hrest. unfold pair16_enc. cbn [fst snd]. by rewrite <- !app_assoc.
    + unfold ReadUint16, mbind, st_bind. rewrite (ReadBytes_failed _ _ _ He). cbn [mret st_ret].
      rewrite (ReadBytes_failed _ _ _ He). by rewrite He.
  - split.
    + revert E. unfold kv_Next. rewrite decide_False by lia. unfold NewReadBuffer.
      pose proof (field16_cases (len (kv_remaining i)) (kv_remaining i)) as H1.
      destruct (ReadUint16 _) as [l1 r1], (ReadBytes (Z.to_nat l1) r1) as [k r2].
      destruct H1 as [(bs & rest & Hrem & Hk & -> & ->)|He].
      * pose proof (field16_cases (len (kv_remaining i)) rest) as H2.
        destruct (ReadUint16 _) as [l2 r3], (ReadBytes (Z.to_nat l2) r3) as [v r4].
        destruct H2 as [(bs' & rest' & Hrest & Hv & -> & ->)|He']; [done|]. rewrite He'. by intros [= <-].
      * unfold ReadUint16, mbind, st_bind. rewrite (ReadBytes_failed _ _ _ He). cbn [mret st_ret].
        rewrite (ReadBytes_failed _ _ _ He), He. by intros [= <-].
    + intros [k v] rest [Hk Hv] Hrem. destruct i as [rem n p q]. cbn in *. subst rem.
      by rewrite (kv_Next_spec n k v p q rest Hn Hk Hv) in E.
Qed.

(** What an iterator with [n] pairs to go does on the bytes [rem]. *)
Lemma kv_loop_total fuel : ∀ rem n p q, 0 <= n <= Z.of_nat fuel →
  ∃ l e rest, kv_loop fuel (kv_Next (mkKeyValIterator rem n p q)) = (l, Some e)
  ∧ rem = pairs_enc pair16_enc l ++ rest ∧ Forall pair_ok l
  ∧ if decide (len l = n) then e = io_EOF
    else e = ErrEOF ∧ len l < n ∧ ∀ p rest', pair_ok p → rest ≠ pair16_enc p ++ rest'.
Proof.
  induction fuel as [|fuel IH]; intros rem n p q Hn.
  { exists [], (io_EOF : error), rem. unfold kv_Next. cbn. rewrite decide_True by lia. by rewrite decide_True by lia. }
  destruct (decide (n = 0)) as [->|Hne].
  { exists [], (io_EOF : error), rem. unfold kv_Next. cbn [leftPairCount]. by rewrite decide_True by lia. }
  pose proof (kv_Next_cases (mkKeyValIterator rem n p q) ltac:(cbn; lia)) as H.
  destruct (kv_Next _) as [[rem' n' k v]|e]; cbn in H.
  - destruct H as (-> & Hp & ->). destruct (IH rem' (n - 1) k v) as (l & e & rest & HL & Hrem & Hl & He); [lia|].
    exists ((k, v) :: l), e, rest. cbn [kv_loop]. rewrite HL. split_and!; [done| |by constructor|].
    + rewrite Hrem. unfold pairs_enc. cbn [fmap list_fmap concat]. by rewrite <- app_assoc.
    + cbn [length]. case_decide; [rewrite decide_True by lia; done|]. rewrite decide_False by lia. split_and!; (apply He || lia).
  - destruct H as [-> Hno]. exists [], (ErrEOF : error), rem. split_and!; [done..|]. cbn [length].
    rewrite decide_False by lia. split_and!; [done|lia|exact Hno].
Qed.

(** C37: The iterator over the headers of an arbitrary arg2 ends, and returns exactly what
    is there.  On less than two bytes it is io.EOF at once.  Otherwise the pairs it returns
    are the key-value pairs that follow the count, in their order and up to the announced
    number; it ends with io.EOF if that number was found, and with typed.ErrEOF, the error
    of a short buffer, if the bytes after the last pair do not hold another one. *)
Theorem kv_iterator_total arg2 :
  ∃ l e, kv_pairs arg2 = (l, Some e)
  ∧ if decide (len arg2 < 2) then l = [] ∧ e = io_EOF
    else ∃ rest, drop 2 arg2 = pairs_enc pair16_enc l ++ rest ∧ Forall pair_ok l
      ∧ let n := be_dec (take 2 arg2) in
        if decide (len l = n) then e = io_EOF
        else e = ErrEOF ∧ len l < n ∧ ∀ p rest', pair_ok p → rest ≠ pair16_enc p ++ rest'.
Proof.
  unfold kv_pairs, NewKeyValIterator. case_decide as Hd; [by exists [], (io_EOF : error)|].
  pose proof (be_dec_range (take 2 arg2)) as Hr. rewrite length_take, Nat.min_l in Hr by lia.
  destruct (kv_loop_total (Z.to_nat 65536) (drop 2 arg2) (be_dec (take 2 arg2)) [] []) as (l & e & rest & HL & H); [lia|].
  exists l, e. split; [exact HL|]. by exists rest.
Qed.
