(* ===== verification/Calls.v ===== *)
(** * The arguments of calls, as their users write and read them
    (arguments.go, internal/argreader, the argument methods of inbound.go and
    outbound.go)

    [ArgReadHelper] and [ArgWriteHelper] wrap the reader or writer of one argument;
    the calls and responses of both ends use them for the method name (arg1) and
    hand out arg2 and arg3.  The specifications at the end say what these methods
    do on a reader that holds the arguments of a call ([ridle]) and on a writer
    that is ready for the next argument ([idle]); the encodings of arg2 and arg3
    are built on them. *)

From S2P Require Import Prelude Errors Buffer Checksum Frame Messages Fragment FragmentCorrect Mex ReqRes Headers.

(** ** io.Reader, ioutil.ReadAll and argreader.EnsureEmpty *)

Class ioReader (R : Type) := { io_Read : nat → GO R (bytes * option error) }.

(** The digits of [%x]. *)
Definition hexdigit (n : Z) : byte :=
  byte_of_Z (if decide (n < 10) then 48 + n else 87 + n).

Definition hex (b : bytes) : bytes :=
  concat ((λ x, [hexdigit (Z_of_byte x / 16); hexdigit (Z_of_byte x mod 16)]) <$> b).

Section reader.
Context {R : Type} `{ioReader R, ioCloser R}.

(** EnsureEmpty reads into a pooled buffer of 128 bytes. *)
Definition EnsureEmpty (stage : bytes) : GO R (option error) :=
  '(b, err) ← io_Read 128;
  if decide (0 < length b)%nat then
    mret (Some (otherError (str "found unexpected bytes after " ++ stage
      ++ str ", found (upto 128 bytes): " ++ hex b)))
  else if decide (err = Some (io_EOF : error)) then mret None
  else mret err.

(** [free] is the free space of the buffer at each iteration; Go lets it grow
    for ever. *)
Fixpoint ReadAll (free : list nat) (b : bytes) : GO R (bytes * option error) :=
  match free with
  | [] => λ _, OutOfFuel
  | n :: free =>
      '(d, err) ← io_Read n;
      match err with
      | None => ReadAll free (b ++ d)
      | Some e => if decide (e = (io_EOF : error)) then mret (b ++ d, None) else mret (b ++ d, Some e)
      end
  end.

(** io.ReadFull into a buffer of [n] bytes, of which [b] has been filled, with [k]
    iterations to go. *)
Fixpoint ReadFull_loop (k n : nat) (b : bytes) : GO R (bytes * option error) :=
  if decide (n <= length b)%nat then mret (b, None)
  else
    match k with
    | O => λ _, OutOfFuel
    | S k =>
        '(d, err) ← io_Read (n - length b);
        match err with
        | None => ReadFull_loop k n (b ++ d)
        | Some e =>
            if decide (n <= length (b ++ d))%nat then mret (b ++ d, None)
            else if decide (b ++ d ≠ [] ∧ e = (io_EOF : error))
            then mret (b ++ d, Some (io_ErrUnexpectedEOF : error))
            else mret (b ++ d, Some e)
        end
    end.

(** The helper holds the outcome [err] of opening the argument. *)
Definition ArgReadHelper_read {A} (err : option error) (zero : A) (f : GO R (A * option error))
    : GO R (A * option error) :=
  match err with
  | Some e => mret (zero, Some e)
  | None =>
      '(a, err) ← f;
      match err with
      | Some e => mret (a, Some e)
      | None =>
          err ← EnsureEmpty (str "read arg");
          match err with
          | Some e => mret (a, Some e)
          | None => err ← io_Close; mret (a, err)
          end
      end
  end.

Definition ArgReadHelper_Read (free : list nat) (err : option error) : GO R (bytes * option error) :=
  ArgReadHelper_read err [] (ReadAll free []).
End reader.

(** [if err := m; err != nil { return err }] followed by [k]. *)
Definition check {S A} (fail : error → A) (m : GO S (option error)) (k : GO S A) : GO S A := λ s,
  match m s with
  | Ret (Some e, s) => Ret (fail e, s)
  | Ret (None, s) => k s
  | Panic => Panic
  | OutOfFuel => OutOfFuel
  end.

Lemma check_run {S A} (fail : error → A) (m : GO S (option error)) (k : GO S A) s s' :
  m s = Ret (None, s') → check fail m k s = k s'.
Proof. unfold check. by intros ->. Qed.

Ltac check_with R := erewrite check_run by exact R; cbv beta iota.

(** ** The argument methods of calls and responses *)

Section calls.
Context `{MapRange}.
(** The iterations of the loop of Read that suffice for the frames of a call, and
    the buffers of ReadAll. *)
Context (fuel : nat).

#[export] Instance argReader_ioReader : ioReader (fragmentingReader reqResReader) :=
  {| io_Read := reader_Read fuel |}.
#[export] Instance argReader_fullReader : fullReader (fragmentingReader reqResReader) :=
  {| io_ReadFull n := ReadFull_loop (H := argReader_ioReader) (S n) n [] |}.
#[export] Instance argReader_ioCloser : ioCloser (fragmentingReader reqResReader) :=
  {| io_Close := reader_Close |}.
#[export] Instance argWriter_ioWriter : ioWriter (fragmentingWriter reqResWriter) :=
  {| io_Write := writer_Write |}.
#[export] Instance argWriter_ioCloser : ioCloser (fragmentingWriter reqResWriter) :=
  {| io_Close := writer_Close |}.

(** InboundCall *)

Definition readMethod (free : list nat) : GO (fragmentingReader reqResReader) (bytes * option error) :=
  err ← arg1Reader;
  '(arg1, err) ← ArgReadHelper_Read free err;
  match err with
  | Some e => e ← onReceiver (λ r, Ret (rr_failed e r)); mret ([], e)
  | None => mret (arg1, None)
  end.

Definition in_Arg2Reader : GO (fragmentingReader reqResReader) (option error) := arg2Reader.
Definition in_Arg3Reader : GO (fragmentingReader reqResReader) (option error) := arg3Reader.

(** OutboundCallResponse *)

Definition res_Arg2Reader (free : list nat) : GO (fragmentingReader reqResReader) (option error) :=
  err ← arg1Reader;
  '(_, err) ← ArgReadHelper_Read free err;
  match err with Some e => mret (Some e) | None => arg2Reader end.
Definition res_Arg3Reader : GO (fragmentingReader reqResReader) (option error) := arg3Reader.

(** OutboundCall *)

Definition writeMethod (method : bytes) : GO (fragmentingWriter reqResWriter) (option error) :=
  err ← arg1Writer; ArgWriteHelper_Write err method.
Definition out_Arg2Writer : GO (fragmentingWriter reqResWriter) (option error) := arg2Writer.
Definition out_Arg3Writer : GO (fragmentingWriter reqResWriter) (option error) := arg3Writer.

(** InboundCallResponse *)

Definition res_Arg2Writer : GO (fragmentingWriter reqResWriter) (option error) :=
  err ← arg1Writer;
  err ← ArgWriteHelper_Write err [];
  match err with Some e => mret (Some e) | None => arg2Writer end.
Definition res_Arg3Writer : GO (fragmentingWriter reqResWriter) (option error) := arg3Writer.
End calls.

(** ** InboundCall and its response

    The reader of the call, the writer of its response, and the system errors that
    have been handed to the connection. *)

Record InboundCall := mkInboundCall {
  ic_reader : fragmentingReader reqResReader;
  ic_writer : fragmentingWriter reqResWriter;
  ic_errors : list error
}.

Definition onReader {A} (m : GO (fragmentingReader reqResReader) A) : GO InboundCall A := λ c,
  match m (ic_reader c) with
  | Ret (a, r) => Ret (a, mkInboundCall r (ic_writer c) (ic_errors c))
  | Panic => Panic
  | OutOfFuel => OutOfFuel
  end.
Definition onWriter {A} (m : GO (fragmentingWriter reqResWriter) A) : GO InboundCall A := λ c,
  match m (ic_writer c) with
  | Ret (a, w) => Ret (a, mkInboundCall (ic_reader c) w (ic_errors c))
  | Panic => Panic
  | OutOfFuel => OutOfFuel
  end.

(** call.Response(): the response of a call that has failed has failed too. *)
Definition call_Response : GO InboundCall unit := λ c,
  match rr_err (fr_receiver (ic_reader c)) with
  | None => Ret (tt, c)
  | Some e =>
      let rw := fw_sender (ic_writer c) in
      Ret (tt, mkInboundCall (ic_reader c)
        (fw_set_sender (rw_update (rw_set rw) (rw_pool rw) (sendCh rw) (rw_picks rw) (Some e) rw) (ic_writer c))
        (ic_errors c))
  end.

(** The message of the first fragment of a response that is an application error. *)
Definition app_error (m : message) : message :=
  match m with
  | mCallRes m => mCallRes (mkCallRes (cs_id m) responseApplicationError (cs_Tracing m) (cs_Headers m))
  | m => m
  end.
Definition app_msgs (msgs : bool → message) (b : bool) : message :=
  if b then app_error (msgs true) else msgs false.

Definition rw_set_messages (f : bool → message) (w : reqResWriter) : reqResWriter :=
  mkReqResWriter (rw_kind w) (rw_set w) (rw_mex w) (rw_pool w) (rw_choice w) (sendCh w) (rw_picks w)
    (rw_state w) f (rw_err w).

Definition SetApplicationError : GO (fragmentingWriter reqResWriter) (option error) :=
  w ← gget;
  match rw_state (fw_sender w) with
  | reqResWriterPreArg1 | reqResWriterPreArg2 =>
      _ ← gmodify (λ w, fw_set_sender
            (rw_set_messages (app_msgs (rw_messageForFragment (fw_sender w))) (fw_sender w)) w);
      mret None
  | st => onSender (rw_failed (errReqResWriterStateMismatch st reqResWriterPreArg2))
  end.

(** [connSend] is what the connection answers when the error is queued. *)
Definition res_SendSystemError `{MapRange} (connSend : option error) (err : error) : GO InboundCall (option error) :=
  c ← gget;
  match rw_err (fw_sender (ic_writer c)) with
  | Some e => mret (Some e)
  | None =>
      _ ← onWriter (onSender (λ w, rw_doneSending (rw_set_state reqResWriterComplete w)));
      _ ← onReader (gmodify (λ r, fr_set_receiver (releasePreviousFragment (fr_receiver r)) r));
      _ ← gmodify (λ c, mkInboundCall (ic_reader c) (ic_writer c) (ic_errors c ++ [err]));
      mret connSend
  end.

(** ** The interfaces ArgWritable and ArgReadable

    The writers and readers they return share the state of the call. *)

Class ArgWritable (W : Type) := {
  aw_writer :: ioWriter W;
  aw_closer :: ioCloser W;
  Arg2Writer : GO W (option error);
  Arg3Writer : GO W (option error)
}.

Class ArgReadable (R : Type) := {
  ar_reader :: ioReader R;
  ar_closer :: ioCloser R;
  Arg2Reader : GO R (option error);
  Arg3Reader : GO R (option error)
}.

Definition OutboundCall_writable `{MapRange} : ArgWritable (fragmentingWriter reqResWriter) := {|
  Arg2Writer := out_Arg2Writer; Arg3Writer := out_Arg3Writer |}.
Definition InboundCallResponse_writable `{MapRange} : ArgWritable (fragmentingWriter reqResWriter) := {|
  Arg2Writer := res_Arg2Writer; Arg3Writer := res_Arg3Writer |}.
Definition InboundCall_readable `{MapRange} (fuel : nat) : ArgReadable (fragmentingReader reqResReader) := {|
  ar_reader := argReader_ioReader fuel; Arg2Reader := in_Arg2Reader; Arg3Reader := in_Arg3Reader |}.
Definition OutboundCallResponse_readable `{MapRange} (fuel : nat) (free : list nat)
    : ArgReadable (fragmentingReader reqResReader) := {|
  ar_reader := argReader_ioReader fuel;
  Arg2Reader := res_Arg2Reader fuel free; Arg3Reader := res_Arg3Reader |}.

(** ** Running the methods of a call *)

Section running.
Context `{MapRange}.

Lemma app_fits (msgs : bool → message) :
  (∀ b, message_fits (msgs b)) → ∀ b, message_fits (app_msgs msgs b).
Proof.
  intros Hf [|]; [|apply Hf]. specialize (Hf true). unfold app_msgs, app_error.
  destruct (msgs true) as [m|m|m|m]; exact Hf.
Qed.

Definition result_msgs (success : bool) (msgs : bool → message) : bool → message :=
  if success then msgs else app_msgs msgs.

Lemma result_fits success msgs :
  (∀ b, message_fits (msgs b)) → ∀ b, message_fits (result_msgs success msgs b).
Proof. destruct success; [done|apply app_fits]. Qed.

Lemma sender_ready_app msgs callID st w :
  sender_ready msgs callID st w → sender_ready (app_msgs msgs) callID st (rw_set_messages (app_msgs msgs) w).
Proof. intros (H1 & H2 & H3 & H4 & H5 & m & Hm). split_and!; try done. by exists m. Qed.

Lemma onReader_run {A} (m : GO _ A) c a r :
  m (ic_reader c) = Ret (a, r) → onReader m c = Ret (a, mkInboundCall r (ic_writer c) (ic_errors c)).
Proof. unfold onReader. by intros ->. Qed.
Lemma onWriter_run {A} (m : GO _ A) c a w :
  m (ic_writer c) = Ret (a, w) → onWriter m c = Ret (a, mkInboundCall (ic_reader c) w (ic_errors c)).
Proof. unfold onWriter. by intros ->. Qed.

Lemma call_Response_run c : rr_err (fr_receiver (ic_reader c)) = None → call_Response c = Ret (tt, c).
Proof. unfold call_Response. by intros ->. Qed.

(** The writer of a response once its kind of result is known. *)
Definition result_writer (success : bool) (msgs : bool → message) (w : reqResWriter) : reqResWriter :=
  if success then w else rw_set_messages (app_msgs msgs) w.

Lemma result_ready success msgs callID st w :
  sender_ready msgs callID st w → sender_ready (result_msgs success msgs) callID st (result_writer success msgs w).
Proof. destruct success; [done|apply sender_ready_app]. Qed.

Lemma result_sendCh success msgs w : sendCh (result_writer success msgs w) = sendCh w.
Proof. by destruct success. Qed.

Lemma set_result_run (success : bool) msgs callID w ps c :
  sender_ready msgs callID reqResWriterPreArg1 w →
  (if success then mret None else SetApplicationError) (newFragmentingWriter w ps c)
  = Ret (None, newFragmentingWriter (result_writer success msgs w) ps c).
Proof.
  intros (Hst & _ & _ & _ & Hm & _). destruct success; [done|].
  unfold SetApplicationError. run_step.
  change (fw_sender (newFragmentingWriter w ps c)) with w. rewrite Hst. run_step.
  cbn [fw_sender newFragmentingWriter result_writer]. by rewrite Hm.
Qed.
End running.

(** ** What the methods do on the arguments of a call *)

Section specs.
Context `{MapRange} (msgs : bool → message) (callID : Z).

Lemma ArgWrite_eq (open : GO (fragmentingWriter reqResWriter) (option error)) b w :
  (err ← open; ArgWriteHelper_Write err b) w = write_arg open [ArgWrite b] w.
Proof.
  unfold write_arg, ArgWriteHelper_Write. unfold mbind, gost_bind.
  destruct (open w) as [[[e|] w1]| |]; try done. cbn [run_ops run_op io_Write argWriter_ioWriter].
  unfold mbind, gost_bind. destruct (writer_Write b w1) as [[[n [e|]] w2]| |]; done.
Qed.

(** *** Writing *)

Section writing.
Hypothesis (Hfits : ∀ b, message_fits (msgs b)).
Context (c0 : Checksum) (base : list Frame).
Implicit Types w : fragmentingWriter reqResWriter.
Notation idle st := (idle (H0 := G msgs callID Hfits st) c0 base).
Notation sent_all st := (sent_all (H0 := G msgs callID Hfits st) c0 base).
Notation in_arg st := (in_arg (H0 := G msgs callID Hfits st) c0 base).

Lemma writeMethod_spec w m :
  idle reqResWriterPreArg1 w [] →
  ∃ w', writeMethod m w = Ret (None, w') ∧ idle reqResWriterPreArg2 w' [m].
Proof.
  intros Hw. unfold writeMethod. rewrite ArgWrite_eq.
  destruct (write_arg_spec msgs callID Hfits c0 base _ reqResWriterPreArg2 false _ _ [ArgWrite m] Hw)
    as (w' & Hrun & Hidle). exists w'. split; [exact Hrun|]. unfold arg_value in Hidle.
  cbn in Hidle. by rewrite app_nil_r in Hidle.
Qed.

Lemma out_Arg2Writer_spec w m :
  idle reqResWriterPreArg2 w [m] →
  ∃ w', out_Arg2Writer w = Ret (None, w') ∧ in_arg reqResWriterPreArg3 w' [m; []]
  ∧ fw_state w' = fragmentingWriteInArgument.
Proof. apply (argWriter_spec msgs callID Hfits c0 base _ reqResWriterPreArg3 false). Qed.

Lemma res_Arg2Writer_spec w :
  idle reqResWriterPreArg1 w [] →
  ∃ w', res_Arg2Writer w = Ret (None, w') ∧ in_arg reqResWriterPreArg3 w' [[]; []]
  ∧ fw_state w' = fragmentingWriteInArgument.
Proof.
  intros Hw. destruct (writeMethod_spec w [] Hw) as (w1 & H1 & Hw1).
  destruct (out_Arg2Writer_spec w1 [] Hw1) as (w2 & H2 & Hw2). exists w2. split; [|exact Hw2].
  unfold res_Arg2Writer. unfold writeMethod in H1.
  unfold mbind, gost_bind in *. destruct (arg1Writer w) as [[e w0]| |]; try done. by rewrite H1.
Qed.

Lemma Arg3Writer_spec w a1 a2 :
  idle reqResWriterPreArg3 w [a1; a2] →
  ∃ w', arg3Writer w = Ret (None, w') ∧ in_arg reqResWriterComplete w' [a1; a2; []]
  ∧ fw_state w' = fragmentingWriteInLastArgument.
Proof. apply (argWriter_spec msgs callID Hfits c0 base _ reqResWriterComplete true). Qed.

(** One write into the open argument, and Close. *)
Lemma Write_spec_last st w args a b :
  in_arg st w (args ++ [a]) → isWritingArgument (fw_state w) = true →
  ∃ w', writer_Write b w = Ret ((length b, None), w') ∧ in_arg st w' (args ++ [a ++ b])
  ∧ fw_state w' = fw_state w.
Proof.
  intros Hin Hs.
  destruct (Write_spec (H0 := G msgs callID Hfits st) c0 base I w _ b Hin Hs) as (w1 & H1 & Hin1 & Hs1).
  exists w1. split_and!; [exact H1| |exact Hs1]. by rewrite join_last in Hin1.
Qed.

Lemma Close_spec_last st w args :
  in_arg st w args → args ≠ [] → fw_state w = fragmentingWriteInLastArgument →
  ∃ w', writer_Close w = Ret (None, w') ∧ sent_all st w' args.
Proof.
  intros Hin Hne Hs.
  destruct (run_ops_spec (H0 := G msgs callID Hfits st) c0 base I [] w _ true Hin Hne Hs) as (w' & H1 & HC).
  exists w'. split; [exact H1|]. unfold arg_value in HC. by rewrite join_empty_chunk in HC.
Qed.

(** A write followed by Close. *)
Lemma write_close_spec st w a1 a2 b :
  in_arg st w [a1; a2] → fw_state w = fragmentingWriteInArgument →
  ∃ w1 w', writer_Write b w = Ret ((length b, None), w1) ∧ writer_Close w1 = Ret (None, w')
  ∧ idle st w' [a1; a2 ++ b].
Proof.
  intros Hin Hs.
  destruct (Write_spec (H0 := G msgs callID Hfits st) c0 base I w [a1; a2] b Hin)
    as (w1 & H1 & Hin1 & Hs1); [by rewrite Hs|].
  destruct (run_ops_spec (H0 := G msgs callID Hfits st) c0 base I [] w1 _ false Hin1)
    as (w2 & H2 & Hidle); [done|by rewrite Hs1|].
  exists w1, w2. split_and!; [exact H1|exact H2|]. unfold arg_value in Hidle. cbn in Hidle.
  by rewrite app_nil_r in Hidle.
Qed.
End writing.

(** *** Reading *)

Section reading.
Context (fuel : nat).
Implicit Types r : fragmentingReader reqResReader.
Notation ridle st := (ridle (H0 := RG msgs callID st)).
Notation rinv st := (rinv (H0 := RG msgs callID st)).
#[local] Existing Instance argReader_ioReader.

Lemma ReadAll_read_all free acc r x r' :
  read_all fuel free acc r = Ret ((x, Some (io_EOF : error)), r') →
  ReadAll (H := argReader_ioReader fuel) free acc r = Ret ((x, None), r').
Proof.
  revert acc r. induction free as [|n free IH]; intros acc r; cbn [read_all ReadAll].
  { intros Hr. injection Hr. discriminate. }
  cbn [io_Read argReader_ioReader]. unfold mbind, gost_bind.
  destruct (reader_Read fuel n r) as [[[b [e|]] r1]| |]; try done; [|apply IH].
  intros Hr. injection Hr as -> -> ->. by rewrite decide_True by done.
Qed.

Lemma EnsureEmpty_spec st stage r rest more :
  rinv st r rest → unread r rest = [] :: more → (length rest < fuel)%nat →
  isReadingArgument (fr_state r) = true →
  ∃ r' rest', EnsureEmpty (H := argReader_ioReader fuel) stage r = Ret (None, r')
  ∧ rinv st r' rest' ∧ unread r' rest' = [] :: more ∧ at_eof r' rest' ∧ fr_state r' = fr_state r
  ∧ (length rest' <= length rest)%nat.
Proof.
  intros Hinv Hun Hf Hs.
  destruct (Read_spec (H0 := RG msgs callID st) fuel 128 r rest [] more Hinv Hun Hf Hs)
    as (r1 & rest1 & H1 & Hinv1 & Hun1 & Hs1 & Hl1 & Heof).
  exists r1, rest1. unfold EnsureEmpty. cbn [io_Read argReader_ioReader]. run_with H1.
  rewrite take_nil, !(decide_False (P := (_ < _)%nat)) by (simpl; lia).
  rewrite (decide_False (P := (_ <= _)%nat)) by (simpl; lia).
  rewrite decide_True by done. split_and!; try done. apply Heof. simpl. lia.
Qed.

(** The reader of an open argument, as a reader of bytes. *)
Definition arg_contains (st : reqResReaderState) (sr : fragmentingReadState) (more : list bytes)
    (d : bytes) r : Prop :=
  ∃ rest, rinv st r rest ∧ unread r rest = d :: more ∧ (length rest < fuel)%nat
  ∧ fr_state r = sr ∧ isReadingArgument sr = true.

Lemma arg_ReadFull st sr more n d r :
  arg_contains st sr more d r → (n <= length d)%nat →
  ∃ r', io_ReadFull (fullReader := argReader_fullReader fuel) n r = Ret ((take n d, None), r')
  ∧ arg_contains st sr more (drop n d) r'.
Proof.
  intros (rest & Hinv & Hun & Hf & Hs & Hr) Hn. cbn [io_ReadFull argReader_fullReader ReadFull_loop].
  case_decide as H0.
  { assert (n = 0)%nat as -> by (simpl in H0; lia). exists r. by split; [|exists rest]. }
  cbn [io_Read argReader_ioReader length]. rewrite Nat.sub_0_r.
  destruct (Read_spec (H0 := RG msgs callID st) fuel n r rest d more Hinv Hun Hf)
    as (r1 & rest1 & H1 & Hinv1 & Hun1 & Hs1 & Hl1 & _); [by rewrite Hs|].
  exists r1. run_with H1. rewrite decide_True by done. cbn [app]. split.
  - destruct n; [done|]. cbn [ReadFull_loop]. rewrite decide_True; [done|]. rewrite length_take. lia.
  - exists rest1. split_and!; try done; [lia|by rewrite Hs1].
Qed.

Definition arg_Contains st sr more : Contains (fragmentingReader reqResReader) (H := argReader_fullReader fuel) := {|
  contains := arg_contains st sr more;
  contains_ReadFull := arg_ReadFull st sr more
|}.

Lemma ArgRead_spec st st' free r d args n :
  ridle st r (d :: args) n → args ≠ [] → (n < fuel)%nat → (length d < sum_list free)%nat →
  ∃ r' n', (err ← argReader false st st';
            ArgReadHelper_Read (H := argReader_ioReader fuel) free err) r = Ret ((d, None), r')
  ∧ ridle st' r' args n' ∧ (n' < fuel)%nat.
Proof.
  intros Hidle Hne Hn Hd.
  destruct (argReader_spec msgs callID st st' false r _ n Hidle)
    as (r1 & rest & H1 & Hinv1 & Hun1 & Hl1 & Hs1). run_with H1.
  destruct (read_all_spec (H0 := RG msgs callID st') fuel free [] r1 rest d args Hinv1 Hun1)
    as (r2 & rest2 & H2 & Hinv2 & Hun2 & _ & Hs2 & Hl2); [lia|by rewrite Hs1|done|].
  apply ReadAll_read_all in H2. unfold ArgReadHelper_Read, ArgReadHelper_read. run_with H2.
  destruct (EnsureEmpty_spec st' (str "read arg") r2 rest2 args Hinv2 Hun2)
    as (r3 & rest3 & H3 & Hinv3 & Hun3 & Heof & Hs3 & Hl3); [lia|by rewrite Hs2, Hs1|].
  run_with H3. cbn [io_Close argReader_ioCloser].
  destruct (reader_Close_spec (H0 := RG msgs callID st') r3 rest3 _ Hinv3 Heof Hun3)
    as (r4 & H4 & Hidle4 & _); [done|by rewrite Hs3, Hs2, Hs1|].
  run_with H4. exists r4, (length rest3). split_and!; [done|done|lia].
Qed.

Lemma readMethod_spec free r d args n :
  ridle reqResReaderPreArg1 r (d :: args) n → args ≠ [] → (n < fuel)%nat →
  (length d < sum_list free)%nat →
  ∃ r' n', readMethod fuel free r = Ret ((d, None), r')
  ∧ ridle reqResReaderPreArg2 r' args n' ∧ (n' < fuel)%nat.
Proof.
  intros Hidle Hne Hn Hd.
  destruct (ArgRead_spec _ reqResReaderPreArg2 free r d args n Hidle Hne Hn Hd) as (r' & n' & Hrun & Hr').
  exists r', n'. split; [|exact Hr']. unfold readMethod, arg1Reader.
  unfold mbind, gost_bind in *.
  destruct (argReader false reqResReaderPreArg1 reqResReaderPreArg2 r) as [[e r0]| |]; try done.
  by rewrite Hrun.
Qed.

(** The last argument: opened by Arg3Reader, read to its end and closed. *)
Definition read_body (sizes : list nat) : GO (fragmentingReader reqResReader) (bytes * option error) :=
  '(b, err) ← read_all fuel sizes [];
  if decide (err = Some (io_EOF : error)) then err ← reader_Close; mret (b, err)
  else mret (b, err).

Lemma Arg3Reader_spec r d n :
  ridle reqResReaderPreArg3 r [d] n → (n < fuel)%nat →
  ∃ r', arg3Reader r = Ret (None, r')
  ∧ ∀ sizes, (length d < sum_list sizes)%nat → ∃ r'', read_body sizes r' = Ret ((d, None), r'').
Proof.
  intros Hidle Hn.
  destruct (argReader_spec msgs callID _ reqResReaderComplete true r _ n Hidle)
    as (r1 & rest & H1 & Hinv1 & Hun1 & Hl1 & Hs1).
  exists r1. split; [exact H1|]. intros sizes Hd.
  destruct (read_all_spec (H0 := RG msgs callID reqResReaderComplete) fuel sizes [] r1 rest d [] Hinv1 Hun1)
    as (r2 & rest2 & H2 & Hinv2 & Hun2 & Heof & Hs2 & Hl2); [lia|by rewrite Hs1|done|].
  unfold read_body. run_with H2. rewrite decide_True by done.
  destruct (reader_Close_last_spec (H0 := RG msgs callID reqResReaderComplete) r2 rest2 Hinv2 Hun2 Heof)
    as (r3 & H3 & _); [by rewrite Hs2, Hs1|].
  run_with H3. by exists r3.
Qed.
(** The last argument read and closed by a helper, and what of the call is left. *)
Lemma ArgRead_last_spec free r d n :
  ridle reqResReaderPreArg3 r [d] n → (n < fuel)%nat → (length d < sum_list free)%nat →
  ∃ r', (err ← arg3Reader; ArgReadHelper_Read (H := argReader_ioReader fuel) free err) r = Ret ((d, None), r')
  ∧ receiver_incoming msgs callID reqResReaderComplete (fr_receiver r') false [].
Proof.
  intros Hidle Hn Hd.
  destruct (argReader_spec msgs callID _ reqResReaderComplete true r _ n Hidle)
    as (r1 & rest & H1 & Hinv1 & Hun1 & Hl1 & Hs1). run_with H1.
  destruct (read_all_spec (H0 := RG msgs callID reqResReaderComplete) fuel free [] r1 rest d [] Hinv1 Hun1)
    as (r2 & rest2 & H2 & Hinv2 & Hun2 & _ & Hs2 & Hl2); [lia|by rewrite Hs1|done|].
  apply ReadAll_read_all in H2. unfold ArgReadHelper_Read, ArgReadHelper_read. run_with H2.
  destruct (EnsureEmpty_spec _ (str "read arg") r2 rest2 [] Hinv2 Hun2)
    as (r3 & rest3 & H3 & Hinv3 & Hun3 & Heof & Hs3 & Hl3); [lia|by rewrite Hs2, Hs1|].
  run_with H3. cbn [io_Close argReader_ioCloser].
  destruct (reader_Close_last_spec (H0 := RG msgs callID reqResReaderComplete) r3 rest3 Hinv3 Hun3 Heof)
    as (r4 & H4 & _ & Hrec); [by rewrite Hs3, Hs2, Hs1|].
  run_with H4. by exists r4.
Qed.

(** An argument that is read by [m], which takes all of it, then found empty and
    closed. *)
Lemma read_through {A} st st' (m : GO (fragmentingReader reqResReader) A) (a : A) r d args n stage :
  ridle st r (d :: args) n → args ≠ [] → (n < fuel)%nat →
  (∀ x, arg_contains st' fragmentingReadInArgument args d x →
    ∃ x', m x = Ret (a, x') ∧ arg_contains st' fragmentingReadInArgument args [] x') →
  ∃ ra rb rc rd n' l, argReader false st st' r = Ret (None, ra) ∧ m ra = Ret (a, rb)
  ∧ EnsureEmpty (H := argReader_ioReader fuel) stage rb = Ret (None, rc) ∧ reader_Close rc = Ret (None, rd)
  ∧ ridle st' rd args n' ∧ (n' < fuel)%nat ∧ receiver_incoming msgs callID st' (fr_receiver rd) false l.
Proof.
  intros Hidle Hne Hn Hm.
  destruct (argReader_spec msgs callID st st' false r _ n Hidle) as (ra & rest & Ra & Hinv & Hun & Hl & Hs).
  destruct (Hm ra) as (rb & Rb & (rest1 & Hinv1 & Hun1 & Hl1 & Hs1 & _)).
  { exists rest. split_and!; try done. lia. }
  destruct (EnsureEmpty_spec st' stage rb rest1 args Hinv1 Hun1 Hl1)
    as (rc & rest2 & Rc & Hinv2 & Hun2 & Heof & Hs2 & Hl2); [by rewrite Hs1|].
  destruct (reader_Close_spec (H0 := RG msgs callID st') rc rest2 _ Hinv2 Heof Hun2)
    as (rd & Rd & Hidle' & Hrec); [done|by rewrite Hs2|].
  exists ra, rb, rc, rd, (length rest2), rest2. split_and!; try done; [lia|].
  rewrite Hrec. apply Hinv2.
Qed.

(** The same for the last argument. *)
Lemma read_through_last {A} (m : GO (fragmentingReader reqResReader) A) (a : A) r d n stage :
  ridle reqResReaderPreArg3 r [d] n → (n < fuel)%nat →
  (∀ x, arg_contains reqResReaderComplete fragmentingReadInLastArgument [] d x →
    ∃ x', m x = Ret (a, x')
    ∧ arg_contains reqResReaderComplete fragmentingReadInLastArgument [] [] x') →
  ∃ ra rb rc rd, arg3Reader r = Ret (None, ra) ∧ m ra = Ret (a, rb)
  ∧ EnsureEmpty (H := argReader_ioReader fuel) stage rb = Ret (None, rc) ∧ reader_Close rc = Ret (None, rd)
  ∧ receiver_incoming msgs callID reqResReaderComplete (fr_receiver rd) false [].
Proof.
  intros Hidle Hn Hm.
  destruct (argReader_spec msgs callID _ reqResReaderComplete true r _ n Hidle) as (ra & rest & Ra & Hinv & Hun & Hl & Hs).
  destruct (Hm ra) as (rb & Rb & (rest1 & Hinv1 & Hun1 & Hl1 & Hs1 & _)).
  { exists rest. split_and!; try done. lia. }
  destruct (EnsureEmpty_spec _ stage rb rest1 [] Hinv1 Hun1 Hl1)
    as (rc & rest2 & Rc & Hinv2 & Hun2 & Heof & Hs2 & Hl2); [by rewrite Hs1|].
  destruct (reader_Close_last_spec (H0 := RG msgs callID reqResReaderComplete) rc rest2 Hinv2 Hun2 Heof)
    as (rd & Rd & _ & Hrec); [by rewrite Hs2|].
  exists ra, rb, rc, rd. by split_and!.
Qed.

(** A response that has been read knows its code. *)
Lemma ApplicationError_spec st l code x :
  receiver_incoming msgs callID st x false l → code_of (msgs true) = Some code →
  ApplicationError x = bool_decide (code = responseApplicationError).
Proof.
  intros (_ & _ & _ & _ & mex & _ & _ & _ & Hini) Hcode. unfold ApplicationError.
  destruct (initialFragment x); [destruct Hini as [Hini _]; congruence|].
  destruct Hini as (_ & Hc & _). rewrite Hc, Hcode by congruence.
  apply bool_decide_ext. split; congruence.
Qed.
End reading.

(** *** Calls from end to end *)

(** What every message of a call and its writer need, as in the arguments' round
    trip. *)
Definition call_ready (t : byte) (w0 : reqResWriter) : Prop :=
  (∀ b, message_fits (msgs b)) ∧ 0 <= callID < 2^32 ∧ valid t = true ∧ t ≠ ChecksumTypeFarmhash
  ∧ sender_ready msgs callID reqResWriterPreArg1 w0.

Lemma writer_idle t w0 ps (Hfits : ∀ b, message_fits (msgs b)) :
  sender_ready msgs callID reqResWriterPreArg1 w0 →
  idle (H0 := G msgs callID Hfits reqResWriterPreArg1) (fresh t) (sendCh w0)
    (newFragmentingWriter w0 ps (fresh t)) [].
Proof.
  intros Hready. left. split_and!; [done..|]. split_and!; try done; [by rewrite AddState_nil|].
  exists []. split; [by rewrite app_nil_r|constructor].
Qed.

(** What has been sent arrives. *)
Lemma sent_arrives t w0 w' args (Hfits : ∀ b, message_fits (msgs b)) :
  0 <= callID < 2^32 → valid t = true → t ≠ ChecksumTypeFarmhash →
  sent_all (H0 := G msgs callID Hfits reqResWriterComplete) (fresh t) (sendCh w0) w' args → args ≠ [] →
  ∃ frames, sendCh (fw_sender w') = sendCh w0 ++ frames ∧ arrives msgs callID frames args.
Proof.
  intros Hid Hv Hne (frames & sent & Hch & Hsent & Hst & Hargs & _) Ha. exists frames.
  split; [done|]. apply (stamped_arrives msgs callID t frames sent); try done.
  intros b. apply Hfits.
Qed.
End specs.

(** ** Example of a call and its response *)

Definition example_msgs (b : bool) : message :=
  if b then mCallReq (mkCallReq 7 (1000 * millisecond) (mkSpan 1 0 1 x00)
              (<[CallerName := str "me"]> ∅) (str "svc"))
  else mCallReqContinue (mkCallReqContinue 0).
Definition example_res (b : bool) : message :=
  if b then mCallRes (mkCallRes 7 x00 (mkSpan 1 0 1 x00) (<[CallerName := str "me"]> ∅))
  else mCallResContinue (mkCallResContinue 0).

Definition example_writer (kind : writerKind) (msgs : bool → message) : reqResWriter :=
  let set := (newExchange None messageTypeCallReq 7 2 newMessageExchangeSet).2 in
  mkReqResWriter kind set 0 disabledFramePool None [] [] reqResWriterPreArg1 msgs None.

Lemma example_ready (msgs : bool → message) (kind : writerKind) : msgs = example_msgs ∨ msgs = example_res →
  call_ready (H := storage_range) msgs 7 ChecksumTypeCrc32 (example_writer kind msgs).
Proof.
  intros Hm. split; [|split; [|split; [|split]]].
  - destruct Hm as [->| ->]; intros [|]; (split; [|vm_compute; congruence]); try exact I.
    + split_and!; try (vm_compute; congruence).
      * repeat split; vm_compute; congruence.
      * split; [reflexivity|]. apply (bool_decide_unpack _). vm_compute. exact I.
    + split_and!; try (vm_compute; congruence).
      * repeat split; vm_compute; congruence.
      * split; [reflexivity|]. apply (bool_decide_unpack _). vm_compute. exact I.
  - split; vm_compute; congruence.
  - reflexivity.
  - discriminate.
  - repeat split. eexists. split; [reflexivity|]. split; reflexivity.
Qed.
