(* ===== verification/Transport.v ===== *)
(** * The transport of Thrift (thrift/transport.go)

    The binary protocol of the Thrift library reads and writes single bytes, byte slices
    and strings; the transport does that on the reader or the writer of an argument.  The
    buffers of one byte and for strings are kept between calls, and transports are taken
    from a pool, so that a transport still has the buffers of its last user.  The theorems
    show that bytes are read as they are in the argument, whatever is left in the buffer,
    and when ReadByte does not return. *)

From S2P Require Import Prelude Errors Buffer Checksum Frame Messages Fragment FragmentCorrect Mex ReqRes Headers Calls.

Section transport.
Context {R W : Type} `{ioReader R, ioWriter W}.

(** [None] for the reader or the writer is nil. *)
Record readWriterTransport := mkTransport {
  tr_Writer : option W;
  tr_Reader : option R;
  readBuf : byte;
  writeBuf : byte;
  strBuf : bytes
}.

(** Read and Write of the embedded reader and writer; a nil one panics. *)
Definition tr_Read (n : nat) : GO readWriterTransport (bytes * option error) := λ t,
  match tr_Reader t with
  | None => Panic
  | Some r =>
      match io_Read n r with
      | Ret (x, r) => Ret (x, mkTransport (tr_Writer t) (Some r) (readBuf t) (writeBuf t) (strBuf t))
      | Panic => Panic
      | OutOfFuel => OutOfFuel
      end
  end.
Definition tr_Write (b : bytes) : GO readWriterTransport (nat * option error) := λ t,
  match tr_Writer t with
  | None => Panic
  | Some w =>
      match io_Write b w with
      | Ret (x, w) => Ret (x, mkTransport (Some w) (tr_Reader t) (readBuf t) (writeBuf t) (strBuf t))
      | Panic => Panic
      | OutOfFuel => OutOfFuel
      end
  end.

Definition set_readBuf (b : byte) (t : readWriterTransport) : readWriterTransport :=
  mkTransport (tr_Writer t) (tr_Reader t) b (writeBuf t) (strBuf t).

(** The loop of ReadByte: until there is a byte or an error. *)
Fixpoint ReadByte_from (fuel : nat) : GO readWriterTransport (nat * option error) :=
  match fuel with
  | O => λ _, OutOfFuel
  | S fuel =>
      '(v, err) ← tr_Read 1;
      _ ← gmodify (λ t, set_readBuf (default (readBuf t) (head v)) t);
      if bool_decide (0 < length v)%nat || bool_decide (err ≠ None) then mret (length v, err)
      else ReadByte_from fuel
  end.
Definition tr_ReadByte (fuel : nat) : GO readWriterTransport (byte * option error) :=
  '(n, err) ← ReadByte_from fuel;
  let err := if bool_decide (err = Some (io_EOF : error)) && bool_decide (0 < n)%nat then None else err in
  t ← gget; mret (readBuf t, err).

Definition tr_WriteByte (b : byte) : GO readWriterTransport (option error) :=
  _ ← gmodify (λ t, mkTransport (tr_Writer t) (tr_Reader t) (readBuf t) b (strBuf t));
  '(_, err) ← tr_Write [b];
  mret err.

(** [sw] is the WriteString method of the writer, if it has one. *)
Definition tr_WriteString (sw : option (bytes → GO W (nat * option error))) (s : bytes)
    : GO readWriterTransport (nat * option error) := λ t,
  match sw, tr_Writer t with
  | Some f, Some w =>
      match f s w with
      | Ret (x, w) => Ret (x, mkTransport (Some w) (tr_Reader t) (readBuf t) (writeBuf t) (strBuf t))
      | Panic => Panic
      | OutOfFuel => OutOfFuel
      end
  | _, _ => tr_Write s (mkTransport (tr_Writer t) (tr_Reader t) (readBuf t) (writeBuf t) s)
  end.

Definition RemainingBytes : Z := 2^64 - 1.

(** The pool: a new transport, or one that was put back. *)
Definition newTransport : readWriterTransport := mkTransport None None x00 x00 [].
Definition getProtocolWriter (pooled : option readWriterTransport) (writer : W) : readWriterTransport :=
  let t := default newTransport pooled in mkTransport (Some writer) None (readBuf t) (writeBuf t) (strBuf t).
Definition getProtocolReader (pooled : option readWriterTransport) (reader : R) : readWriterTransport :=
  let t := default newTransport pooled in mkTransport None (Some reader) (readBuf t) (writeBuf t) (strBuf t).

(** ** Reading *)

(** A reader may return nothing a number of times before it returns a byte or an error. *)
Fixpoint idles (k : nat) (r : R) (x : bytes * option error) (r' : R) : Prop :=
  match k with
  | O => io_Read 1 r = Ret (x, r') ∧ (x.1 ≠ [] ∨ x.2 ≠ None)
  | S k => ∃ r1, io_Read 1 r = Ret (([], None), r1) ∧ idles k r1 x r'
  end.

Lemma ReadByte_returns k : ∀ t r x r' fuel,
  tr_Reader t = Some r → idles k r x r' → (k < fuel)%nat →
  tr_ReadByte fuel t = Ret ((default (readBuf t) (head x.1),
                          if bool_decide (x.2 = Some (io_EOF : error)) && bool_decide (x.1 ≠ []) then None else x.2),
    mkTransport (tr_Writer t) (Some r') (default (readBuf t) (head x.1)) (writeBuf t) (strBuf t)).
Proof.
  induction k as [|k IH]; intros t r [v err] r' [|fuel] Ht Hi Hf; try lia.
  - destruct Hi as [E Hx]. cbn [fst snd] in *. unfold tr_ReadByte. cbn [ReadByte_from]. unfold mbind, gost_bind, tr_Read at 1.
    rewrite Ht, E. cbn [gmodify]. destruct v as [|b v]; cbn [head default length].
    + destruct Hx as [Hx|Hx]; [done|]. rewrite (bool_decide_true (err ≠ None)) by done.
      rewrite (bool_decide_false ([] ≠ [])) by (intros Hn; by apply Hn). rewrite andb_false_r, orb_true_r. cbn. by rewrite andb_false_r.
    + rewrite (bool_decide_true (b :: v ≠ [])) by done. rewrite (bool_decide_true (0 < S (length v))%nat) by lia. cbn. rewrite (bool_decide_true (0 < S (length v))%nat) by lia. done.
  - destruct Hi as (r1 & E & Hi).
    set (t1 := mkTransport (tr_Writer t) (Some r1) (readBuf t) (writeBuf t) (strBuf t)).
    specialize (IH t1 r1 (v, err) r' fuel eq_refl Hi ltac:(lia)). cbn [readBuf tr_Writer writeBuf strBuf t1] in IH.
    rewrite <- IH. unfold tr_ReadByte. cbn [ReadByte_from]. unfold mbind, gost_bind, tr_Read at 1. rewrite Ht, E. reflexivity.
Qed.

(** A reader that goes on returning nothing and no error makes ReadByte go on for ever. *)
Lemma ReadByte_stuck t r fuel : tr_Reader t = Some r → io_Read 1 r = Ret (([], None), r) → tr_ReadByte fuel t = OutOfFuel.
Proof.
  intros Ht E. enough (H' : ReadByte_from fuel t = OutOfFuel) by (unfold tr_ReadByte, mbind, gost_bind; by rewrite H').
  revert t Ht. induction fuel as [|fuel IH]; intros t Ht; [done|]. cbn [ReadByte_from]. unfold mbind, gost_bind, tr_Read.
  rewrite Ht, E. cbn [gmodify]. by apply IH.
Qed.

(** Strings and slices are written the same way by a writer without a WriteString method. *)
Lemma WriteString_Write s t x t' : tr_Write s t = Ret (x, t') →
  tr_WriteString None s t = Ret (x, mkTransport (tr_Writer t') (tr_Reader t') (readBuf t') (writeBuf t') s).
Proof.
  unfold tr_WriteString, tr_Write. cbn [tr_Writer tr_Reader]. destruct (tr_Writer t) as [w|]; [|done].
  destruct (io_Write s w) as [[y w']| |]; [|done..]. intros E. by injection E as <- <-.
Qed.
End transport.
Arguments readWriterTransport : clear implicits.

(** ** Reading an argument byte by byte *)

Section argument.
Context {Rc W : Type} `{GoodReceiver Rc, ioWriter W} (fuel : nat).
#[local] Instance fragment_ioReader : ioReader (fragmentingReader Rc) := {| io_Read := reader_Read fuel |}.
Notation transport := (readWriterTransport (fragmentingReader Rc) W).

(** ReadByte until there is an error. *)
Fixpoint tr_ReadBytes (n : nat) : GO transport (bytes * option error) :=
  match n with
  | O => mret ([], None)
  | S n =>
      '(b, err) ← tr_ReadByte 1;
      match err with
      | Some e => mret ([], Some e)
      | None => '(bs, err) ← tr_ReadBytes n; mret (b :: bs, err)
      end
  end.

(** An argument that the transport is in: what is left of it, and what follows. *)
Definition at_argument (t : transport) (d : bytes) (more : list bytes) : Prop :=
  ∃ r rest, tr_Reader t = Some r ∧ rinv r rest ∧ unread r rest = d :: more ∧ (length rest < fuel)%nat
  ∧ isReadingArgument (fr_state r) = true.

Lemma ReadByte_argument t d more : at_argument t d more →
  ∃ t', at_argument t' (tail d) more
  ∧ tr_ReadByte 1 t = Ret ((default (readBuf t) (head d), match d with [] => Some (io_EOF : error) | _ => None end), t').
Proof.
  intros (r & rest & Ht & Hinv & Hun & Hf & Hs).
  destruct (Read_spec fuel 1 r rest d more Hinv Hun Hf Hs) as (r1 & rest1 & E & Hinv1 & Hun1 & Hs1 & Hl & _).
  set (x := (take 1 d, if decide (1 <= length d)%nat then None else Some (io_EOF : error))) in E.
  assert (Hi : idles 0 r x r1).
  { split; [exact E|]. unfold x. destruct d; [right; by rewrite decide_False by (cbn; lia)|by left]. }
  pose proof (ReadByte_returns 0 t r x r1 1 Ht Hi ltac:(lia)) as ER. eexists. split; [|rewrite ER; do 2 f_equal].
  - exists r1, rest1. cbn [tr_Reader]. split_and!; [done|done|by destruct d|lia|by rewrite Hs1].
  - unfold x. destruct d as [|b d]; [reflexivity|]. cbn [fst snd take head default]. by rewrite decide_True by (cbn; lia).
Qed.

(** Byte by byte, an argument is read as it was sent, however it was cut into fragments and
    whatever the transport has been used for before, and then ends with io.EOF. *)
Theorem argument_bytes d : ∀ t more n, at_argument t d more → (length d < n)%nat →
  ∃ t', tr_ReadBytes n t = Ret ((d, Some (io_EOF : error)), t') ∧ at_argument t' [] more.
Proof.
  induction d as [|b d IH]; intros t more [|n] Ht Hn; cbn [length] in Hn; try lia;
    destruct (ReadByte_argument t _ more Ht) as (t1 & Ht1 & E1); cbn [tr_ReadBytes]; unfold mbind, gost_bind; rewrite E1.
  - by exists t1.
  - destruct (IH t1 more n Ht1 ltac:(lia)) as (t2 & E2 & Ht2). exists t2. split; [|done]. cbn [default head]. by rewrite E2.
Qed.
End argument.
