(* ===== verification/Http.v ===== *)
(** * HTTP over calls (http/buf.go, http/request.go, http/response.go)

    A request is encoded into arg2 (method, URL and headers) and arg3 (the body); a
    response likewise (status, reason and headers in arg2).  The encoding of arg2
    goes through a write buffer of 10000 bytes.  The theorems show that requests
    and responses survive the trip through a call, over the fragmenting writer and
    reader and the frames between them, and what happens to those that do not fit
    the buffer, to a response without a body, and to a length no int can hold. *)

From stdpp Require Import pretty.
From S2P Require Import Prelude Errors Buffer Checksum Frame Messages Fragment FragmentCorrect Mex ReqRes Headers Calls.

(** ** net/http *)

(** http.Header: a list of values for each key. *)
Notation Header := (gmap bytes (list bytes)).

(** An order of iteration over a header. *)
Class HeaderRange := {
  hrange : Header → list (bytes * list bytes);
  hrange_perm : ∀ h, hrange h ≡ₚ map_to_list h
}.

Definition storage_hrange : HeaderRange :=
  {| hrange := map_to_list; hrange_perm := λ h, Permutation_refl _ |}.

(** net/url, as far as the code uses it: the string of a URL, and what NewRequest
    makes of a string. *)
Class URLs := {
  URL : Type;
  URL_String : URL → bytes;
  URL_Parse : bytes → URL + error
}.

(** A body, as a client of the package provides it: the chunks its Read returns, and
    the error after them. *)
Record Body := mkBody { body_chunks : list bytes; body_end : error }.
Definition body_bytes (b : option Body) : bytes := concat (default [] (body_chunks <$> b)).

Record Request `{URLs} := mkRequest {
  req_Method : bytes;
  req_URL : URL;
  req_Header : Header
}.

Record Response := mkResponse {
  StatusCode : Z;
  Status : bytes;
  resp_Header : Header
}.

(** Methods are tokens (RFC 7230). *)
Definition isTokenByte (b : byte) : bool :=
  let z := Z_of_byte b in
  ((48 <=? z) && (z <=? 57)) || ((65 <=? z) && (z <=? 90)) || ((97 <=? z) && (z <=? 122))
  || bool_decide (b ∈ str "!#$%&'*+-.^_`|~").

Definition validMethod (m : bytes) : bool := negb (bool_decide (m = [])) && forallb isTokenByte m.

(** NewRequest without a body: an empty method means GET. *)
Definition NewRequest `{URLs} (method url : bytes) : Request + error :=
  let method := if decide (method = []) then str "GET" else method in
  if negb (validMethod method) then inr (otherError (str "net/http: invalid method " ++ method))
  else match URL_Parse url with
       | inl u => inl (mkRequest _ method u ∅)
       | inr e => inr e
       end.

(** ** buf.go *)

(** ReadBytes and ReadString of a ReadBuffer on any int: the slice expression
    panics on a negative one. *)
Definition ReadBytes_int (n : Z) : GO ReadBuffer (option bytes) := λ r,
  match r_err r with
  | Some _ => Ret (None, r)
  | None => if decide (n < 0) then Panic else Ret (ReadBytes (Z.to_nat n) r)
  end.

Definition ReadString_int (n : Z) : GO ReadBuffer bytes :=
  b ← ReadBytes_int n;
  match b with Some b => mret b | None => mret [] end.

Definition readVarintString : GO ReadBuffer bytes :=
  length ← glift ReadUvarint;
  ReadString_int (int64 length).

Definition writeVarintString (s : bytes) : ST WriteBuffer unit :=
  _ ← WriteUvarint (len s);
  WriteString s.

Fixpoint write_values (k : bytes) (vs : list bytes) (numHeaders : Z) : ST WriteBuffer Z :=
  match vs with
  | [] => mret numHeaders
  | v :: vs =>
      _ ← WriteLen16String k;
      _ ← WriteLen16String v;
      write_values k vs (uint16 (numHeaders + 1))
  end.

Fixpoint write_form (form : list (bytes * list bytes)) (numHeaders : Z) : ST WriteBuffer Z :=
  match form with
  | [] => mret numHeaders
  | (k, values) :: form =>
      numHeaders ← write_values k values numHeaders;
      write_form form numHeaders
  end.

Definition writeHeaders `{HeaderRange} (form : Header) : ST WriteBuffer unit :=
  numHeadersDeferred ← DeferUint16;
  numHeaders ← write_form (hrange form) 0;
  (λ wb, (tt, Uint16Ref_Update numHeadersDeferred numHeaders wb)) : ST WriteBuffer unit.

Definition append_value (form : Header) (p : bytes * bytes) : Header :=
  <[p.1 := default [] (form !! p.1) ++ [p.2]]> form.

Fixpoint read_form (n : nat) (form : Header) : ST ReadBuffer Header :=
  match n with
  | O => mret form
  | S n =>
      k ← ReadLen16String;
      v ← ReadLen16String;
      read_form n (append_value form (k, v))
  end.

Definition http_readHeaders (form : Header) : ST ReadBuffer Header :=
  numHeaders ← ReadUint16;
  read_form (Z.to_nat numHeaders) form.

(** ** request.go *)

Section http.
Context `{URLs, HeaderRange}.

(** io.Copy from a body to the writer of an argument. *)
Fixpoint io_Copy `{ioWriter W} (chunks : list bytes) (e : error) : GO W (option error) :=
  match chunks with
  | [] => mret (if decide (e = (io_EOF : error)) then None else Some e)
  | b :: chunks =>
      if decide (b = []) then io_Copy chunks e
      else
        '(nw, err) ← io_Write b;
        match err with
        | Some e => mret (Some e)
        | None =>
            if decide (nw ≠ length b) then mret (Some (otherError (str "short write")))
            else io_Copy chunks e
        end
  end.

(** The content of the write buffer. *)
Definition request_buffer (req : Request) : WriteBuffer :=
  let wb := NewWriteBufferWithSize (Z.to_nat 10000) in
  ((_ ← WriteLen8String (req_Method req);
    _ ← writeVarintString (URL_String (req_URL req));
    writeHeaders (req_Header req)) wb).2.

Definition WriteRequest `{ArgWritable W} (req : Request) (body : option Body) : GO W (option error) :=
  let wb := request_buffer req in
  err ← Arg2Writer;
  match err with Some e => mret (Some e) | None =>
  '(_, err) ← FlushTo io_Write wb;
  match err with Some e => mret (Some e) | None =>
  err ← io_Close;
  match err with Some e => mret (Some e) | None =>
  err ← Arg3Writer;
  match err with Some e => mret (Some e) | None =>
  err ← match body with
        | Some b => io_Copy (body_chunks b) (body_end b)
        | None => mret None
        end;
  match err with Some e => mret (Some e) | None => io_Close end end end end end.

(** The body of the request read is the reader of arg3. *)
Definition ReadRequest `{ArgReadable R} (free : list nat) : GO R (option Request * option error) :=
  err ← Arg2Reader;
  '(arg2, err) ← ArgReadHelper_Read free err;
  match err with Some e => mret (None, Some e) | None =>
  let rb := NewReadBuffer arg2 in
  let '(method, rb) := ReadLen8String rb in
  '(url, rb) ← gcall (readVarintString rb);
  match NewRequest method url with
  | inr e => mret (None, Some e)
  | inl r =>
      let '(h, rb) := http_readHeaders (req_Header r) rb in
      let r := mkRequest _ (req_Method r) (req_URL r) h in
      match r_err rb with
      | Some e => mret (None, Some e)
      | None => err ← Arg3Reader; mret (Some r, err)
      end
  end end.

(** ** response.go *)

Definition ReadResponse `{ArgReadable R} (free : list nat) : GO R (option Response * option error) :=
  err ← Arg2Reader;
  '(arg2, err) ← ArgReadHelper_Read free err;
  match err with Some e => mret (None, Some e) | None =>
  let rb := NewReadBuffer arg2 in
  let '(statusCode, rb) := ReadUint16 rb in
  '(message, rb) ← gcall (readVarintString rb);
  let '(h, rb) := http_readHeaders ∅ rb in
  match r_err rb with
  | Some e => mret (None, Some e)
  | None =>
      err ← Arg3Reader;
      match err with
      | Some e => mret (None, Some e)
      | None =>
          mret (Some (mkResponse statusCode
                        (str (pretty statusCode) ++ str " " ++ message) h), None)
      end
  end end.

(** [arg3Open]: arg3Writer is not nil. *)
Record tchanResponseWriter (W : Type) := mkTchanResponseWriter {
  trw_headers : Header;
  trw_statusCode : Z;
  trw_response : W;
  trw_arg3Open : bool;
  trw_err : option error
}.
Arguments mkTchanResponseWriter {W}. Arguments trw_headers {W}. Arguments trw_statusCode {W}.
Arguments trw_response {W}. Arguments trw_arg3Open {W}. Arguments trw_err {W}.

Definition StatusOK : Z := 200.

Definition newTChanResponseWriter {W : Type} (response : W) : tchanResponseWriter W :=
  mkTchanResponseWriter ∅ StatusOK response false None.

Definition trw_set {W : Type} (response : W) (open : bool) (err : option error)
    (w : tchanResponseWriter W) : tchanResponseWriter W :=
  mkTchanResponseWriter (trw_headers w) (trw_statusCode w) response open err.

(** The map that Header() returns is shared with the handler, which stores what it
    likes in it. *)
Definition trw_setHeader {W : Type} (h : Header) (w : tchanResponseWriter W) : tchanResponseWriter W :=
  mkTchanResponseWriter h (trw_statusCode w) (trw_response w) (trw_arg3Open w) (trw_err w).

Definition WriteHeader {W : Type} (statusCode : Z) (w : tchanResponseWriter W) : tchanResponseWriter W :=
  mkTchanResponseWriter (trw_headers w) statusCode (trw_response w) (trw_arg3Open w) (trw_err w).

Section response.
(** http.StatusText *)
Context (StatusText : Z → bytes).

Definition response_buffer (statusCode : Z) (headers : Header) : WriteBuffer :=
  let wb := NewWriteBufferWithSize (Z.to_nat 10000) in
  ((_ ← WriteUint16 (uint16 statusCode);
    _ ← writeVarintString (StatusText statusCode);
    writeHeaders headers) wb).2.

(** Run a method of the response. *)
Definition onResponse {W A : Type} (m : GO W A) : GO (tchanResponseWriter W) A := λ w,
  match m (trw_response w) with
  | Ret (a, r) => Ret (a, trw_set r (trw_arg3Open w) (trw_err w) w)
  | Panic => Panic
  | OutOfFuel => OutOfFuel
  end.

Definition trw_setErr {W : Type} (e : option error) : GO (tchanResponseWriter W) unit :=
  gmodify (λ w, trw_set (trw_response w) (trw_arg3Open w) e w).

Definition trw_writeHeaders `{ArgWritable W} : GO (tchanResponseWriter W) unit :=
  w ← gget;
  let wb := response_buffer (trw_statusCode w) (trw_headers w) in
  err ← onResponse Arg2Writer;
  match err with Some e => trw_setErr (Some e) | None =>
  '(_, err) ← onResponse (FlushTo io_Write wb);
  _ ← trw_setErr err;
  match err with Some _ => mret tt | None =>
  err ← onResponse io_Close;
  _ ← trw_setErr err;
  match err with Some _ => mret tt | None =>
  err ← onResponse Arg3Writer;
  gmodify (λ w, trw_set (trw_response w) (bool_decide (err = None)) err w)
  end end end.

Definition trw_Write `{ArgWritable W} (bs : bytes) : GO (tchanResponseWriter W) (nat * option error) :=
  w ← gget;
  match trw_err w with
  | Some e => mret (0%nat, Some e)
  | None =>
      _ ← if trw_arg3Open w then mret tt else trw_writeHeaders;
      w ← gget;
      match trw_err w with
      | Some e => mret (0%nat, Some e)
      | None => onResponse (io_Write bs)
      end
  end.

Definition trw_finish `{ArgWritable W} : GO (tchanResponseWriter W) (option error) :=
  w ← gget;
  match trw_arg3Open w, trw_err w with
  | true, None => onResponse io_Close
  | _, err => mret err
  end.

(** A handler: it stores headers, sets the status and writes the body, in any
    order; then the server calls finish. *)
Inductive handler_op := SetHeader (h : Header) | SetStatus (code : Z) | WriteBody (b : bytes).

Fixpoint run_handler `{ArgWritable W} (ops : list handler_op) : GO (tchanResponseWriter W) (option error) :=
  match ops with
  | [] => trw_finish
  | SetHeader h :: ops => _ ← gmodify (trw_setHeader h); run_handler ops
  | SetStatus c :: ops => _ ← gmodify (WriteHeader c); run_handler ops
  | WriteBody b :: ops =>
      '(_, err) ← trw_Write b;
      match err with Some e => mret (Some e) | None => run_handler ops end
  end.

(** The response such a handler means: the headers and the status as they are at the
    first write, and all that is written; none without a write. *)
Definition bodies (ops : list handler_op) : bytes :=
  concat ((λ o, match o with WriteBody b => b | _ => [] end) <$> ops).

Fixpoint handler_result (ops : list handler_op) (h : Header) (code : Z) : option (Header * Z * bytes) :=
  match ops with
  | [] => None
  | SetHeader h :: ops => handler_result ops h code
  | SetStatus code :: ops => handler_result ops h code
  | WriteBody b :: ops => Some (h, code, b ++ bodies ops)
  end.
End response.

(** ** The encoding *)

(** A header as the list of its pairs of a key and a value. *)
Definition flat (form : list (bytes * list bytes)) : list (bytes * bytes) :=
  concat ((λ p : bytes * list bytes, pair p.1 <$> p.2) <$> form).

Definition form_enc (form : list (bytes * list bytes)) : bytes :=
  be_enc 2 (len (flat form)) ++ pairs_enc pair16_enc (flat form).

Definition varstr_enc (s : bytes) : bytes := uvarint_enc 9 (len s) ++ s.

Definition request_enc (req : Request) : bytes :=
  (byte_of_Z (len (req_Method req)) :: req_Method req)
  ++ varstr_enc (URL_String (req_URL req)) ++ form_enc (hrange (req_Header req)).

Definition response_enc (StatusText : Z → bytes) (statusCode : Z) (h : Header) : bytes :=
  be_enc 2 (uint16 statusCode) ++ varstr_enc (StatusText statusCode) ++ form_enc (hrange h).

(** Headers that can be encoded: no key without values, no overlong strings. *)
Definition header_ok (h : Header) : Prop := map_Forall (λ _ vs, vs ≠ []) h ∧ pairs_ok 65536 (flat (hrange h)).

(** *** Writing *)

Lemma write_params_app l1 l2 w :
  write_params (l1 ++ l2) w = write_params l2 (write_params l1 w).2.
Proof.
  revert w. induction l1 as [|[k v] l1 IH]; intros w; [done|].
  cbn [app write_params]. unfold mbind, st_bind.
  destruct (WriteLen16String k w) as [[] w1]. destruct (WriteLen16String v w1) as [[] w2]. apply IH.
Qed.

Lemma write_values_eq k vs n w : n = uint16 n →
  write_values k vs n w = (uint16 (n + len vs), (write_params (pair k <$> vs) w).2).
Proof.
  revert n w. induction vs as [|v vs IH]; intros n w Hn.
  { cbn. by rewrite Z.add_0_r, <- Hn. }
  cbn [write_values fmap list_fmap write_params length]. unfold mbind, st_bind.
  destruct (WriteLen16String k w) as [[] w1]. destruct (WriteLen16String v w1) as [[] w2].
  rewrite IH by (unfold uint16; by rewrite Zmod_mod). f_equal.
  unfold uint16. rewrite Zplus_mod_idemp_l. f_equal. lia.
Qed.

Lemma write_form_eq form n w : n = uint16 n →
  write_form form n w = (uint16 (n + len (flat form)), (write_params (flat form) w).2).
Proof.
  revert n w. induction form as [|[k vs] form IH]; intros n w Hn.
  { cbn. by rewrite Z.add_0_r, <- Hn. }
  cbn [write_form]. unfold mbind, st_bind. rewrite write_values_eq by done.
  rewrite IH by (unfold uint16; by rewrite Zmod_mod).
  unfold flat. cbn [fmap list_fmap concat fst snd]. fold (flat form).
  rewrite write_params_app. f_equal. unfold uint16. rewrite Zplus_mod_idemp_l, length_app, length_fmap.
  f_equal. lia.
Qed.

Lemma writeHeaders_fits h w :
  pairs_ok 65536 (flat (hrange h)) → wbuf_ok w → w_err w = None →
  len (flat (hrange h)) < 65536 → (length (form_enc (hrange h)) <= w_BytesRemaining w)%nat →
  writeHeaders h w = (tt, appended w (form_enc (hrange h))).
Proof.
  intros Hp Hok He Hn Hf. unfold form_enc in *. rewrite length_app, length_be_enc in Hf.
  unfold writeHeaders. unfold mbind, st_bind.
  destruct (DeferUint16 w) as [ref w1] eqn:E1. rewrite write_form_eq by done. cbn [Z.add].
  destruct (write_params (flat (hrange h)) w1) as [[] w2] eqn:E2. cbn [snd].
  rewrite uint16_small by lia. f_equal.
  by apply (DeferUint16_update w (write_params (flat (hrange h))) _ _ ref w1 w2);
    [done|done|done|apply write_params_writes|..].
Qed.

Lemma FlushTo_appended n bs :
  (length bs <= n)%nat →
  FlushTo (R := bytes) id (appended (NewWriteBufferWithSize n) bs) = bs.
Proof.
  intros Hn. unfold FlushTo. cbn [id].
  assert (Hok : wbuf_ok (NewWriteBufferWithSize n)) by (unfold wbuf_ok; cbn; lia).
  assert (Hr : (length bs <= w_BytesRemaining (NewWriteBufferWithSize n))%nat).
  { rewrite w_BytesRemaining_eq. cbn. rewrite length_replicate. lia. }
  rewrite BytesWritten_off by (by apply appended_ok).
  change (take _ _) with (written (appended (NewWriteBufferWithSize n) bs)).
  rewrite written_appended by done. done.
Qed.

Lemma length_pairs_enc l : (4 * length l <= length (pairs_enc pair16_enc l))%nat.
Proof.
  induction l as [|p l IH]; [done|]. unfold pairs_enc in *. cbn [fmap list_fmap concat length].
  rewrite length_app, length_pair16_enc. lia.
Qed.

Lemma form_enc_count form : 4 * len (flat form) <= len (form_enc form).
Proof. pose proof (length_pairs_enc (flat form)). unfold form_enc. rewrite length_app. lia. Qed.

Lemma writeVarintString_writes s : writes (writeVarintString s) (varstr_enc s).
Proof. apply writes_bind; [apply WriteUvarint_writes|apply WriteString_writes]. Qed.

(** The buffer after a prefix that fits and the headers. *)
Lemma buffer_fits (m : ST WriteBuffer unit) pre h n :
  writes m pre → pairs_ok 65536 (flat (hrange h)) →
  (length (pre ++ form_enc (hrange h)) <= n)%nat → Z.of_nat n <= 65536 →
  ((_ ← m; writeHeaders h) (NewWriteBufferWithSize n)).2
  = appended (NewWriteBufferWithSize n) (pre ++ form_enc (hrange h)).
Proof.
  intros (_ & Hm & _) Hp Hl Hn. rewrite length_app in Hl.
  set (w := NewWriteBufferWithSize n).
  assert (Hok : wbuf_ok w) by (unfold wbuf_ok; cbn; lia).
  assert (Hr : w_BytesRemaining w = n) by (rewrite w_BytesRemaining_eq; cbn; rewrite length_replicate; lia).
  pose proof (form_enc_count (hrange h)).
  unfold mbind, st_bind. rewrite Hm by (done || lia).
  rewrite writeHeaders_fits; try done; [..|lia|].
  - cbn [snd]. by apply appended_appended; [done|..|lia].
  - apply appended_ok; [done|lia].
  - rewrite appended_remaining; [lia|done|lia].
Qed.

Lemma request_buffer_fits req :
  len (req_Method req) < 256 → pairs_ok 65536 (flat (hrange (req_Header req))) →
  len (request_enc req) <= 10000 →
  request_buffer req = appended (NewWriteBufferWithSize (Z.to_nat 10000)) (request_enc req).
Proof.
  intros Hm Hp Hl. unfold request_buffer, request_enc in *. rewrite app_assoc in *.
  rewrite <- (buffer_fits (_ ← WriteLen8String (req_Method req);
                           writeVarintString (URL_String (req_URL req)))); [|..|lia|lia].
  - unfold mbind, st_bind. by destruct (WriteLen8String _ _) as [[] ?].
  - apply writes_bind; [by apply WriteLen8String_writes|apply writeVarintString_writes].
  - done.
Qed.

Lemma response_buffer_fits StatusText statusCode h :
  pairs_ok 65536 (flat (hrange h)) → len (response_enc StatusText statusCode h) <= 10000 →
  response_buffer StatusText statusCode h
  = appended (NewWriteBufferWithSize (Z.to_nat 10000)) (response_enc StatusText statusCode h).
Proof.
  intros Hp Hl. unfold response_buffer, response_enc in *. rewrite app_assoc in *.
  rewrite <- (buffer_fits (_ ← WriteUint16 (uint16 statusCode);
                           writeVarintString (StatusText statusCode))); [|..|lia|lia].
  - unfold mbind, st_bind. by destruct (WriteUint16 _ _) as [[] ?].
  - apply writes_bind; [apply WriteUint16_writes|apply writeVarintString_writes].
  - done.
Qed.

(** *** Reading *)

Lemma read_form_reads l acc :
  pairs_ok 65536 l → reads (read_form (length l) acc) (pairs_enc pair16_enc l) (foldl append_value acc l).
Proof.
  intros Hl. revert acc. induction Hl as [|[k v] l [Hk Hv] Hl IH]; intros acc; [apply reads_ret|].
  cbn [length read_form foldl]. unfold pairs_enc. cbn [fmap list_fmap concat].
  unfold pair16_enc at 1. cbn [fst snd] in *. rewrite <- app_assoc.
  eapply reads_bind; [by apply ReadLen16String_reads|].
  eapply reads_bind; [by apply ReadLen16String_reads|]. apply IH.
Qed.

Lemma append_values (k : bytes) (vs : list bytes) (acc : Header) :
  vs ≠ [] → foldl append_value acc (pair k <$> vs) = <[k := default [] (acc !! k) ++ vs]> acc.
Proof.
  revert acc. induction vs as [|v vs IH]; intros acc Hne; [done|].
  cbn [fmap list_fmap foldl]. destruct vs as [|v' vs]; [done|].
  rewrite IH by done. unfold append_value. cbn [fst snd].
  rewrite lookup_insert_eq, insert_insert_eq. cbn [from_option id]. by rewrite <- app_assoc.
Qed.

Lemma append_flat (form : list (bytes * list bytes)) (acc : Header) :
  NoDup form.*1 → Forall (λ p, p.2 ≠ []) form → Forall (λ p, acc !! p.1 = None) form →
  foldl append_value acc (flat form) = list_to_map form ∪ acc.
Proof.
  revert acc. induction form as [|[k vs] form IH]; intros acc; cbn [fmap list_fmap fst].
  { intros. cbn. by rewrite (left_id_L ∅ (∪)). }
  intros [Hk Hd]%NoDup_cons Hne Hacc.
  apply Forall_cons in Hne as [Hv Hne]. apply Forall_cons in Hacc as [Hnone Hacc].
  unfold flat. cbn [fmap list_fmap concat fst snd] in *. fold (flat form).
  rewrite foldl_app, append_values, Hnone by done. cbn [default app].
  rewrite IH; [|done|done|].
  - cbn [list_to_map foldr fst snd]. rewrite <- insert_union_l.
    symmetry. by apply insert_union_r, not_elem_of_list_to_map_1.
  - apply Forall_forall. intros [k' vs'] Hin. rewrite lookup_insert_ne.
    + by apply (proj1 (Forall_forall _ _) Hacc).
    + cbn [fst]. intros ->. apply Hk. apply list_elem_of_fmap. by exists (k', vs').
Qed.

Lemma hrange_appended h : map_Forall (λ _ vs, vs ≠ []) h → foldl append_value ∅ (flat (hrange h)) = h.
Proof.
  intros Hne. rewrite append_flat.
  - rewrite (right_id_L ∅ (∪)). rewrite <- (list_to_map_to_list h) at 2.
    apply list_to_map_proper; [|by apply hrange_perm]. rewrite hrange_perm. apply NoDup_fst_map_to_list.
  - rewrite hrange_perm. apply NoDup_fst_map_to_list.
  - rewrite hrange_perm. apply Forall_forall. intros [k vs] Hin%elem_of_map_to_list. by apply (Hne k).
  - apply Forall_forall. intros. apply lookup_empty.
Qed.

Lemma http_readHeaders_reads h :
  header_ok h → len (flat (hrange h)) < 65536 →
  reads (http_readHeaders ∅) (form_enc (hrange h)) h.
Proof.
  intros [Hne Hp] Hn. unfold http_readHeaders, form_enc.
  eapply reads_bind; [apply ReadUint16_reads; lia|]. rewrite Nat2Z.id.
  rewrite <- (hrange_appended h Hne) at 3. by apply read_form_reads.
Qed.

Lemma readVarintString_reads s rest n : len s < 2^63 →
  readVarintString (mkReadBuffer n (varstr_enc s ++ rest) None) = Ret (s, mkReadBuffer n rest None).
Proof.
  intros Hs. unfold readVarintString, varstr_enc. rewrite <- app_assoc.
  erewrite glift_run by (apply ReadUvarint_reads; lia).
  assert (int64 (len s) = len s) as -> by (unfold int64; rewrite Z.mod_small; lia).
  unfold ReadString_int, ReadBytes_int, mbind, gost_bind. cbn [r_err].
  rewrite decide_False by lia. rewrite Nat2Z.id.
  by rewrite (ReadBytes_reads s n rest).
Qed.

(** ** Requests and responses through a call *)

Section calls.
Context `{MapRange} (msgs : bool → message) (callID : Z).

(** *** The writer's side *)

Section writing.
Hypothesis (Hfits : ∀ b, message_fits (msgs b)).
Context (c0 : Checksum) (base : list Frame).
Implicit Types w : fragmentingWriter reqResWriter.
Notation idle st := (idle (H0 := G msgs callID Hfits st) c0 base).
Notation sent_all st := (sent_all (H0 := G msgs callID Hfits st) c0 base).
Notation in_arg st := (in_arg (H0 := G msgs callID Hfits st) c0 base).

Lemma io_Copy_spec st chunks w args a :
  in_arg st w (args ++ [a]) → isWritingArgument (fw_state w) = true →
  ∃ w', io_Copy chunks (io_EOF : error) w = Ret (None, w')
  ∧ in_arg st w' (args ++ [a ++ concat chunks]) ∧ fw_state w' = fw_state w.
Proof.
  revert w a. induction chunks as [|b chunks IH]; intros w a Hin Hs; cbn [io_Copy concat].
  { exists w. rewrite app_nil_r, decide_True by done. done. }
  case_decide as Hb; [subst b; by apply IH|].
  destruct (Write_spec_last msgs callID Hfits c0 base st w args a b Hin Hs) as (w1 & H1' & Hin1 & Hs1).
  cbn [io_Write argWriter_ioWriter]. run_with H1'. rewrite decide_False by (intros []; done).
  destruct (IH w1 (a ++ b) Hin1) as (w2 & H2 & Hin2 & Hs2); [by rewrite Hs1|].
  exists w2. rewrite app_assoc. split_and!; [done|done|by rewrite Hs2].
Qed.

(** arg2 is the content of the buffer, flushed and closed. *)
Lemma flush_arg2 st w a bs :
  in_arg st w [a; []] → fw_state w = fragmentingWriteInArgument → (length bs <= Z.to_nat 10000)%nat →
  ∃ w1 w', FlushTo writer_Write (appended (NewWriteBufferWithSize (Z.to_nat 10000)) bs) w
           = Ret ((length bs, None), w1)
  ∧ writer_Close w1 = Ret (None, w') ∧ idle st w' [a; bs].
Proof.
  intros Hin Hs Hl. pose proof (FlushTo_appended _ bs Hl) as HF. unfold FlushTo in *. cbn [id] in HF.
  rewrite HF. by apply (write_close_spec msgs callID Hfits c0 base st w a [] bs).
Qed.

Definition request_ok (req : Request) : Prop :=
  len (req_Method req) < 256 ∧ (req_Method req = [] ∨ validMethod (req_Method req) = true)
  ∧ URL_Parse (URL_String (req_URL req)) = inl (req_URL req)
  ∧ header_ok (req_Header req) ∧ len (request_enc req) <= 10000.

Definition body_ok (b : option Body) : Prop :=
  match b with Some b => body_end b = (io_EOF : error) | None => True end.

Lemma WriteRequest_spec req body w m :
  request_ok req → body_ok body → idle reqResWriterPreArg2 w [m] →
  ∃ w', WriteRequest (H1 := OutboundCall_writable) req body w = Ret (None, w')
  ∧ sent_all reqResWriterComplete w' [m; request_enc req; body_bytes body].
Proof.
  intros (Hm & _ & _ & [_ Hp] & Hl) Hb Hidle. unfold WriteRequest.
  cbn [Arg2Writer Arg3Writer OutboundCall_writable aw_writer aw_closer io_Write io_Close
       argWriter_ioWriter argWriter_ioCloser].
  rewrite request_buffer_fits by done.
  destruct (out_Arg2Writer_spec msgs callID Hfits c0 base w m Hidle) as (w1 & R1 & Hin1 & Hs1). run_with R1.
  destruct (flush_arg2 _ w1 m (request_enc req) Hin1 Hs1) as (w2 & w3 & R2 & R3 & Hidle3); [lia|].
  run_with R2. run_with R3.
  destruct (Arg3Writer_spec msgs callID Hfits c0 base w3 _ _ Hidle3) as (w4 & R4 & Hin4 & Hs4).
  unfold out_Arg3Writer. run_with R4.
  assert (∃ w5, match body with
                | Some b => io_Copy (body_chunks b) (body_end b)
                | None => mret None
                end w4 = Ret (None, w5)
    ∧ in_arg reqResWriterComplete w5 [m; request_enc req; body_bytes body]
    ∧ fw_state w5 = fw_state w4) as (w5 & R5 & Hin5 & Hs5).
  { unfold body_bytes. destruct body as [[chunks e]|]; [|by exists w4]. cbn in Hb. subst e.
    apply (io_Copy_spec _ _ w4 [m; request_enc req] []); [done|by rewrite Hs4]. }
  run_with R5. by apply (Close_spec_last msgs callID Hfits c0 base); [done..|rewrite Hs5].
Qed.

Section response.
Context (StatusText : Z → bytes).
Notation run_handler := (run_handler (H1 := InboundCallResponse_writable) StatusText).

Lemma run_open_spec ops (tw : tchanResponseWriter (fragmentingWriter reqResWriter)) a2 a3 :
  trw_arg3Open tw = true → trw_err tw = None →
  in_arg reqResWriterComplete (trw_response tw) [[]; a2; a3] →
  fw_state (trw_response tw) = fragmentingWriteInLastArgument →
  ∃ tw', run_handler ops tw = Ret (None, tw')
  ∧ sent_all reqResWriterComplete (trw_response tw') [[]; a2; a3 ++ bodies ops].
Proof.
  revert tw a3. induction ops as [|[h|c|b] ops IH]; intros tw a3 Ho He Hin Hs.
  - cbn [run_handler]. unfold trw_finish. run_step. rewrite Ho, He. unfold onResponse.
    cbn [io_Close aw_closer InboundCallResponse_writable argWriter_ioCloser].
    destruct (Close_spec_last msgs callID Hfits c0 base _ _ _ Hin) as (w' & -> & Hsent); [done..|].
    eexists. split; [reflexivity|]. by rewrite app_nil_r.
  - cbn [run_handler]. run_step. by apply IH.
  - cbn [run_handler]. run_step. by apply IH.
  - cbn [run_handler].
    destruct (Write_spec_last msgs callID Hfits c0 base _ _ [[]; a2] a3 b Hin) as (w1 & R1 & Hin1 & Hs1);
      [by rewrite Hs|].
    erewrite gost_bind_run.
    2: { unfold trw_Write. run_step. rewrite He, Ho. run_step. run_step. rewrite He.
         unfold onResponse. cbn [io_Write aw_writer InboundCallResponse_writable argWriter_ioWriter].
         rewrite R1. reflexivity. }
    destruct (IH (trw_set w1 (trw_arg3Open tw) (trw_err tw) tw) (a3 ++ b)) as (tw' & R2 & HS);
      [done..|by cbn; rewrite Hs1|].
    exists tw'. split; [exact R2|]. unfold bodies in *. cbn [fmap list_fmap concat]. by rewrite app_assoc.
Qed.

(** Run the next call of a method of the response. *)
Ltac run_resp R :=
  erewrite gost_bind_run
    by (unfold onResponse, res_Arg3Writer; cbn [trw_response trw_set]; rewrite R; reflexivity);
  cbv beta iota.

Lemma trw_writeHeaders_spec (tw : tchanResponseWriter (fragmentingWriter reqResWriter)) :
  idle reqResWriterPreArg1 (trw_response tw) [] → pairs_ok 65536 (flat (hrange (trw_headers tw))) →
  len (response_enc StatusText (trw_statusCode tw) (trw_headers tw)) <= 10000 →
  ∃ w', trw_writeHeaders (H1 := InboundCallResponse_writable) StatusText tw = Ret (tt, trw_set w' true None tw)
  ∧ in_arg reqResWriterComplete w' [[]; response_enc StatusText (trw_statusCode tw) (trw_headers tw); []]
  ∧ fw_state w' = fragmentingWriteInLastArgument.
Proof.
  intros Hidle Hp Hl. unfold trw_writeHeaders. run_step.
  destruct (res_Arg2Writer_spec msgs callID Hfits c0 base _ Hidle) as (w1 & R1 & Hin1 & Hs1).
  destruct (flush_arg2 _ w1 [] (response_enc StatusText (trw_statusCode tw) (trw_headers tw)) Hin1 Hs1)
    as (w2 & w3 & R2 & R3 & Hidle3); [lia|].
  destruct (Arg3Writer_spec msgs callID Hfits c0 base w3 _ _ Hidle3) as (w4 & R4 & Hin4 & Hs4).
  exists w4. split; [|done]. rewrite response_buffer_fits by done.
  cbn [Arg2Writer Arg3Writer InboundCallResponse_writable aw_writer aw_closer io_Write io_Close
       argWriter_ioWriter argWriter_ioCloser].
  run_resp R1.
  run_resp R2.
  run_step.
  run_resp R3.
  run_step.
  run_resp R4.
  reflexivity.
Qed.

Lemma run_handler_spec ops (tw : tchanResponseWriter (fragmentingWriter reqResWriter)) h code body :
  trw_arg3Open tw = false → trw_err tw = None → idle reqResWriterPreArg1 (trw_response tw) [] →
  handler_result ops (trw_headers tw) (trw_statusCode tw) = Some (h, code, body) →
  header_ok h → len (response_enc StatusText code h) <= 10000 →
  ∃ tw', run_handler ops tw = Ret (None, tw')
  ∧ sent_all reqResWriterComplete (trw_response tw') [[]; response_enc StatusText code h; body].
Proof.
  revert tw. induction ops as [|[h'|c|b] ops IH]; intros tw Ho He Hidle Hres Hh Hl; [done| | |].
  - cbn [run_handler]. run_step. by apply IH.
  - cbn [run_handler]. run_step. by apply IH.
  - injection Hres as <- <- <-.
    destruct (trw_writeHeaders_spec tw Hidle (proj2 Hh) Hl) as (w1 & R1 & Hin1 & Hs1).
    apply (run_open_spec (WriteBody b :: ops) (trw_set w1 true None tw) _ []) in Hin1 as (tw' & R2 & HS);
      [|done..].
    exists tw'. split; [|exact HS]. rewrite <- R2. cbn [run_handler].
    assert (trw_Write (H1 := InboundCallResponse_writable) StatusText b tw
            = trw_Write (H1 := InboundCallResponse_writable) StatusText b (trw_set w1 true None tw)) as E.
    { unfold trw_Write. run_step. rewrite Ho, He. by run_with R1. }
    unfold mbind, gost_bind. by rewrite E.
Qed.
End response.
End writing.

(** *** The reader's side *)

Section reading.
Context (fuel : nat).
Implicit Types r : fragmentingReader reqResReader.
Notation ridle st := (ridle (H0 := RG msgs callID st)).

(** The method the server sees. *)
Definition got_method (m : bytes) : bytes := if decide (m = []) then str "GET" else m.

Lemma got_method_valid m : m = [] ∨ validMethod m = true → validMethod (got_method m) = true.
Proof. unfold got_method. intros [->|Hm]; [reflexivity|]. by case_decide. Qed.

Lemma request_count req : len (request_enc req) <= 10000 → len (flat (hrange (req_Header req))) < 65536.
Proof.
  intros Hl. pose proof (form_enc_count (hrange (req_Header req))). unfold request_enc in Hl.
  rewrite !length_app in Hl. lia.
Qed.

Lemma ReadRequest_spec free r req body n :
  request_ok req → ridle reqResReaderPreArg2 r [request_enc req; body] n → (n < fuel)%nat →
  (length (request_enc req) < sum_list free)%nat →
  ∃ r', ReadRequest (H1 := InboundCall_readable fuel) free r
    = Ret ((Some (mkRequest _ (got_method (req_Method req)) (req_URL req) (req_Header req)), None), r')
  ∧ ∀ sizes, (length body < sum_list sizes)%nat →
    ∃ r'', read_body fuel sizes r' = Ret ((body, None), r'').
Proof.
  intros (Hm & Hv & Hu & Hh & Hl) Hidle Hn Hfree.
  destruct (ArgRead_spec msgs callID fuel _ reqResReaderPreArg3 free r _ _ n Hidle) as (r1 & n1 & R1 & Hidle1 & Hn1);
    [done..|].
  destruct (Arg3Reader_spec msgs callID fuel r1 body n1 Hidle1 Hn1) as (r2 & R2 & Hbody).
  exists r2. split; [|exact Hbody]. unfold ReadRequest.
  cbn [Arg2Reader Arg3Reader InboundCall_readable ar_reader ar_closer].
  run_then R1. unfold request_enc at 1, NewReadBuffer. cbn [fst snd].
  rewrite (ReadLen8String_reads (req_Method req) Hm).
  pose proof (request_count req Hl) as Hc.
  erewrite gost_bind_run.
  2: { unfold gcall. rewrite readVarintString_reads; [reflexivity|].
       unfold request_enc, varstr_enc in Hl. rewrite !length_app in Hl. lia. }
  unfold NewRequest. fold (got_method (req_Method req)). rewrite got_method_valid, Hu by done.
  cbn [negb req_Header req_Method req_URL].
  rewrite <- (app_nil_r (form_enc _)), http_readHeaders_reads by done. cbn [r_err].
  unfold in_Arg3Reader. run_with R2. reflexivity.
Qed.

Lemma uint16_range z : 0 <= uint16 z < 2^16.
Proof. apply Z.mod_pos_bound. lia. Qed.

Definition got_status (StatusText : Z → bytes) (code : Z) : bytes :=
  str (pretty (uint16 code)) ++ str " " ++ StatusText code.

Lemma ReadResponse_spec StatusText free1 free r code h body n :
  header_ok h → len (response_enc StatusText code h) <= 10000 →
  ridle reqResReaderPreArg1 r [[]; response_enc StatusText code h; body] n → (n < fuel)%nat →
  (0 < sum_list free1)%nat → (length (response_enc StatusText code h) < sum_list free)%nat →
  ∃ r', ReadResponse (H1 := OutboundCallResponse_readable fuel free1) free r
    = Ret ((Some (mkResponse (uint16 code) (got_status StatusText code) h), None), r')
  ∧ ∀ sizes, (length body < sum_list sizes)%nat →
    ∃ r'', read_body fuel sizes r' = Ret ((body, None), r'').
Proof.
  intros Hh Hl Hidle Hn Hf1 Hf.
  destruct (ArgRead_spec msgs callID fuel _ reqResReaderPreArg2 free1 r _ _ n Hidle)
    as (r0 & n0 & R0 & Hidle0 & Hn0); [done..|].
  destruct (ArgRead_spec msgs callID fuel _ reqResReaderPreArg3 free r0 _ _ n0 Hidle0)
    as (r1 & n1 & R1 & Hidle1 & Hn1); [done..|].
  destruct (Arg3Reader_spec msgs callID fuel r1 body n1 Hidle1 Hn1) as (r2 & R2 & Hbody).
  exists r2. split; [|exact Hbody].
  assert (R01 : (err ← res_Arg2Reader fuel free1;
    ArgReadHelper_Read (H := argReader_ioReader fuel) free err) r
    = Ret ((response_enc StatusText code h, None), r1)).
  { rewrite <- R1. unfold res_Arg2Reader, arg1Reader, arg2Reader. unfold mbind, gost_bind in *.
    destruct (argReader false reqResReaderPreArg1 reqResReaderPreArg2 r) as [[e ra]| |]; try done.
    by rewrite R0. }
  unfold ReadResponse. cbn [Arg2Reader Arg3Reader OutboundCallResponse_readable ar_reader ar_closer].
  run_then R01. unfold response_enc at 1, NewReadBuffer.
  rewrite ReadUint16_reads by apply uint16_range.
  unfold response_enc in Hl. rewrite !length_app in Hl.
  pose proof (form_enc_count (hrange h)).
  erewrite gost_bind_run.
  2: { unfold gcall. rewrite readVarintString_reads; [reflexivity|].
       unfold varstr_enc in Hl. rewrite length_app in Hl. lia. }
  rewrite <- (app_nil_r (form_enc _)), http_readHeaders_reads by (done || lia). cbn [r_err].
  unfold res_Arg3Reader. run_with R2. reflexivity.
Qed.
End reading.

(** *** From end to end *)

(** The client starts the call and writes the request; the server reads the method,
    the request and its body. *)
Definition send_request (method : bytes) (req : Request) (body : option Body)
    : GO (fragmentingWriter reqResWriter) (option error) :=
  err ← writeMethod method;
  match err with
  | Some e => mret (Some e)
  | None => WriteRequest (H1 := OutboundCall_writable) req body
  end.

Definition receive_request (fuel : nat) (s1 s2 s3 : list nat)
    : GO (fragmentingReader reqResReader) (bytes * option Request * bytes * option error) :=
  '(m, err) ← readMethod fuel s1;
  match err with Some e => mret (m, None, [], Some e) | None =>
  '(req, err) ← ReadRequest (H1 := InboundCall_readable fuel) s2;
  match err with Some e => mret (m, req, [], Some e) | None =>
  '(b, err) ← read_body fuel s3; mret (m, req, b, err) end end.

Definition receive_response (fuel : nat) (s1 s2 s3 : list nat)
    : GO (fragmentingReader reqResReader) (option Response * bytes * option error) :=
  '(res, err) ← ReadResponse (H1 := OutboundCallResponse_readable fuel s1) s2;
  match err with Some e => mret (res, [], Some e) | None =>
  '(b, err) ← read_body fuel s3; mret (res, b, err) end.

(** C19: an HTTP request survives the trip through a call.  Whatever order Go iterates
    over the headers in, the request and its body, written into a call, cut into
    frames, sent, and read by the server with buffers of any size, are the same
    request (an empty method means GET) and the same body.  This is for a request whose
    encoding fits the 10000 bytes of the write buffer (a longer one is cut off without an
    error, [http_overflow_silent]), whose method is empty or valid and shorter than 256
    bytes, whose URL parses back from its text, and whose headers have values that are
    shorter than 64 KiB; and for a body that ends with io.EOF. *)
Theorem http_request_roundtrip t w0 ps method req body :
  call_ready msgs callID t w0 → request_ok req → body_ok body →
  ∃ w' frames,
    send_request method req body (newFragmentingWriter w0 ps (fresh t)) = Ret (None, w')
    ∧ sendCh (fw_sender w') = sendCh w0 ++ frames
    ∧ received_as msgs callID frames (λ r, ∀ fuel s1 s2 s3,
        (length frames < fuel)%nat → (length method < sum_list s1)%nat →
        (length (request_enc req) < sum_list s2)%nat → (length (body_bytes body) < sum_list s3)%nat →
        ∃ r', receive_request fuel s1 s2 s3 r
          = Ret ((method, Some (mkRequest _ (got_method (req_Method req)) (req_URL req) (req_Header req)),
                  body_bytes body, None), r')).
Proof.
  intros (Hfits & Hid & Hv & Hne & Hready) Hreq Hbody.
  destruct (writeMethod_spec msgs callID Hfits (fresh t) (sendCh w0) _ method (writer_idle msgs callID t w0 ps Hfits Hready))
    as (w1 & R1 & Hidle1).
  destruct (WriteRequest_spec Hfits (fresh t) (sendCh w0) req body w1 method Hreq Hbody Hidle1)
    as (w2 & R2 & Hsent).
  destruct (sent_arrives msgs callID t w0 w2 _ Hfits Hid Hv Hne Hsent) as (frames & Hch & Harr); [done|].
  exists w2, frames. split_and!; [unfold send_request; by run_with R1|done|].
  eapply received_impl; [|exact Harr]. intros r Hidle fuel s1 s2 s3 Hfuel L1 L2 L3.
  destruct (readMethod_spec msgs callID fuel s1 r _ _ _ Hidle) as (r1 & n1 & Q1 & Hi1 & Hn1); [done..|].
  destruct (ReadRequest_spec fuel s2 r1 req _ n1 Hreq Hi1 Hn1 L2) as (r2 & Q2 & Hb).
  destruct (Hb s3 L3) as (r3 & Q3).
  exists r3. unfold receive_request. run_with Q1. run_with Q2. by run_with Q3.
Qed.

(** An HTTP response survives the trip back.  However a handler stores headers, sets
    the status and writes the body, if it writes at all, the client reads the
    status and the headers as they were at the first write, and all that was
    written as the body, provided the encoding fits the write buffer. *)
Theorem http_response_roundtrip t w0 ps StatusText ops h code body :
  call_ready msgs callID t w0 → handler_result ops ∅ StatusOK = Some (h, code, body) →
  header_ok h → len (response_enc StatusText code h) <= 10000 →
  ∃ tw' frames,
    run_handler (H1 := InboundCallResponse_writable) StatusText ops
      (newTChanResponseWriter (newFragmentingWriter w0 ps (fresh t))) = Ret (None, tw')
    ∧ sendCh (fw_sender (trw_response tw')) = sendCh w0 ++ frames
    ∧ received_as msgs callID frames (λ r, ∀ fuel s1 s2 s3,
        (length frames < fuel)%nat → (0 < sum_list s1)%nat →
        (length (response_enc StatusText code h) < sum_list s2)%nat → (length body < sum_list s3)%nat →
        ∃ r', receive_response fuel s1 s2 s3 r
          = Ret ((Some (mkResponse (uint16 code) (got_status StatusText code) h), body, None), r')).
Proof.
  intros (Hfits & Hid & Hv & Hne & Hready) Hres Hh Hl.
  destruct (run_handler_spec Hfits (fresh t) (sendCh w0) StatusText ops
    (newTChanResponseWriter (newFragmentingWriter w0 ps (fresh t))) h code body)
    as (tw & R1 & Hsent); [done|done|by apply (writer_idle msgs callID t w0 ps Hfits)|done|done|done|].
  destruct (sent_arrives msgs callID t w0 _ _ Hfits Hid Hv Hne Hsent) as (frames & Hch & Harr); [done|].
  exists tw, frames. split_and!; [done..|].
  eapply received_impl; [|exact Harr]. intros r Hidle fuel s1 s2 s3 Hfuel L1 L2 L3.
  destruct (ReadResponse_spec fuel StatusText s1 s2 r code h body _ Hh Hl Hidle Hfuel L1 L2) as (r2 & Q2 & Hb).
  destruct (Hb s3 L3) as (r3 & Q3).
  exists r3. unfold receive_response. run_with Q2. by run_with Q3.
Qed.
End calls.

(** ** Where the trip fails *)

(** *** A length that is not an int *)

(** A peer can make ReadRequest panic: a URL whose announced length is 2^63 or
    more is read with a negative int, which passes the check of ReadBytes and is
    used to slice the buffer. *)
Theorem http_length_panics `{ArgReadable R} free (r r' : R) m v rest :
  (err ← Arg2Reader; ArgReadHelper_Read free err) r
    = Ret (((byte_of_Z (len m) :: m) ++ uvarint_enc 9 v ++ rest, None), r') →
  len m < 256 → 2^63 <= v < 2^64 → ReadRequest free r = Panic.
Proof.
  intros Hr Hm Hv. unfold ReadRequest. run_then Hr. unfold NewReadBuffer.
  rewrite (ReadLen8String_reads m Hm).
  assert (Hneg : int64 v < 0).
  { unfold int64. replace (v + 2^63) with ((v - 2^63) + 1 * 2^64) by lia.
    rewrite Z_mod_plus_full, Z.mod_small by lia. lia. }
  unfold mbind at 1, gost_bind at 1, gcall, readVarintString.
  erewrite glift_run by (apply ReadUvarint_reads; lia).
  unfold ReadString_int, ReadBytes_int, mbind, gost_bind. cbn [r_err].
  by rewrite decide_True by lia.
Qed.

(** *** A request that does not fit *)

(** A call that keeps its arguments in memory, and the reader of such a call. *)
Record recorder := mkRecorder { rec_arg2 : bytes; rec_arg3 : bytes; rec_in3 : bool }.

#[local] Instance recorder_writer : ioWriter recorder := {|
  io_Write b := λ w, Ret ((length b, None),
    if rec_in3 w then mkRecorder (rec_arg2 w) (rec_arg3 w ++ b) true
    else mkRecorder (rec_arg2 w ++ b) (rec_arg3 w) false) |}.
#[local] Instance recorder_closer : ioCloser recorder := {| io_Close := mret None |}.
#[local] Instance recorder_writable : ArgWritable recorder := {|
  Arg2Writer := mret None;
  Arg3Writer := λ w, Ret (None, mkRecorder (rec_arg2 w) (rec_arg3 w) true) |}.

#[local] Instance bytes_reader : ioReader bytes := {|
  io_Read n := λ b,
    Ret ((take n b, if decide (n <= length b)%nat then None else Some (io_EOF : error)), drop n b) |}.
#[local] Instance bytes_closer : ioCloser bytes := {| io_Close := mret None |}.
#[local] Instance bytes_readable : ArgReadable bytes := {| Arg2Reader := mret None; Arg3Reader := mret None |}.

Lemma bytes_ArgRead n b : (length b < n)%nat →
  (err ← Arg2Reader; ArgReadHelper_Read (R := bytes) [n] err) b = Ret ((b, None), []).
Proof.
  intros Hn. cbn [Arg2Reader bytes_readable]. run_step. unfold ArgReadHelper_Read, ArgReadHelper_read.
  cbn [ReadAll]. cbn [io_Read bytes_reader ar_reader bytes_readable].
  unfold mbind, gost_bind. rewrite take_ge, drop_ge, decide_False by lia. reflexivity.
Qed.

Lemma length_uvarint_enc n x : (length (uvarint_enc n x) <= S n)%nat.
Proof.
  revert x. induction n as [|n IH]; intros x; unfold uvarint_enc; fold uvarint_enc; [done|].
  destruct (x <? 128); cbn [length]; [lia|]. specialize (IH (Z.shiftr x 7)). lia.
Qed.

(** After an error nothing more is written. *)
Lemma writeHeaders_sticky h w : is_Some (w_err w) → writeHeaders h w = (tt, w).
Proof.
  intros [e He].
  assert (HS : ∀ form n, ∃ n', write_form form n w = (n', w)).
  { assert (HW : ∀ s, WriteLen16String s w = (tt, w)).
    { intros s. assert (Hs : (if decide (uint16 (len s) = len s) then w else setErr errStringTooLong w) = w).
      { unfold setErr. rewrite He. by case_decide. }
      unfold WriteLen16String. rewrite Hs, (proj1 (WriteUint16_writes _)) by eauto.
      by apply (WriteString_writes s). }
    assert (HV : ∀ k vs n, ∃ n', write_values k vs n w = (n', w)).
    { intros k vs. induction vs as [|v vs IH]; intros n; cbn [write_values]; [by exists n|].
      unfold mbind, st_bind. rewrite !HW. apply IH. }
    intros form. induction form as [|[k vs] form IH]; intros n; cbn [write_form]; [by exists n|].
    unfold mbind, st_bind. destruct (HV k vs n) as [n' ->]. apply IH. }
  unfold writeHeaders, DeferUint16, deferred, reserve, mbind, st_bind. rewrite He.
  cbn [mret st_ret fmap option_fmap option_map]. destruct (HS (hrange h) 0) as [n ->]. done.
Qed.

Lemma http_readHeaders_sticky form rb :
  is_Some (r_err rb) → r_err (http_readHeaders form rb).2 = r_err rb.
Proof.
  intros He. assert (HS : ∀ n form, (read_form n form rb).2 = rb).
  { intros n. induction n as [|n IH]; intros form'; cbn [read_form]; [done|].
    destruct (ReadLen16String_rsafe rb) as (_ & _ & _ & Hk). specialize (Hk He).
    unfold mbind, st_bind. destruct (ReadLen16String rb) as [k rb1] eqn:E. cbn in Hk. subst rb1.
    rewrite E. apply IH. }
  destruct (ReadUint16_rsafe rb) as (_ & _ & _ & Hk). specialize (Hk He).
  unfold http_readHeaders, mbind, st_bind. destruct (ReadUint16 rb) as [n rb1]. cbn in Hk. subst rb1.
  by rewrite HS.
Qed.

Definition cut_request (req : Request) : bytes :=
  (byte_of_Z (len (req_Method req)) :: req_Method req) ++ uvarint_enc 9 (len (URL_String (req_URL req))).

Lemma request_buffer_cut req :
  len (req_Method req) < 256 → 10000 <= len (URL_String (req_URL req)) →
  FlushTo (R := bytes) id (request_buffer req) = cut_request req
  ∧ w_err (request_buffer req) = Some (ErrBufferFull : error).
Proof.
  intros Hm Hu. set (n := Z.to_nat 10000). set (w0 := NewWriteBufferWithSize n).
  assert (Hok : wbuf_ok w0) by (unfold wbuf_ok; cbn; lia).
  assert (Hr : w_BytesRemaining w0 = n).
  { rewrite w_BytesRemaining_eq. unfold w0. cbn. rewrite length_replicate. lia. }
  assert (Hc : (length (cut_request req) <= n)%nat).
  { unfold cut_request. rewrite length_app. cbn [length].
    pose proof (length_uvarint_enc 9 (len (URL_String (req_URL req)))). unfold n. lia. }
  pose proof (writes_bind _ _ _ _ (WriteLen8String_writes _ Hm)
    (WriteUvarint_writes (len (URL_String (req_URL req))))) as (_ & HW & _).
  fold (cut_request req) in HW.
  assert (HWc := HW w0 Hok eq_refl ltac:(rewrite Hr; exact Hc)).
  assert (Hbuf : request_buffer req = setErr ErrBufferFull (appended w0 (cut_request req))).
  { unfold request_buffer, writeVarintString. fold n. fold w0. unfold mbind, st_bind in *.
    destruct (WriteLen8String (req_Method req) w0) as [[] w1]. rewrite HWc.
    unfold WriteString. rewrite reserve_full; [|done|].
    - rewrite writeHeaders_sticky by (cbn; eauto). done.
    - rewrite appended_remaining; [|done|by rewrite Hr]. rewrite Hr. unfold cut_request. cbn [length app]. unfold n. lia. }
  rewrite Hbuf. split; [|done].
  rewrite <- (FlushTo_appended n (cut_request req) Hc) at 2. done.
Qed.

(** A request that does not fit the buffer is cut off without an error.  When the
    URL has 10000 bytes or more, WriteRequest ignores the error of the write
    buffer, sends the method and the length of the URL alone, and reports success;
    the server fails to read the request. *)
Theorem http_overflow_silent req body :
  len (req_Method req) < 256 → 10000 <= len (URL_String (req_URL req)) < 2^63 → body_ok body →
  WriteRequest req body (mkRecorder [] [] false)
    = Ret (None, mkRecorder (cut_request req) (body_bytes body) true)
  ∧ ∃ e, ReadRequest [Z.to_nat 10000] (cut_request req) = Ret ((None, Some e), []).
Proof.
  intros Hm Hu Hb. destruct (request_buffer_cut req Hm (proj1 Hu)) as [HF _]. split.
  - unfold WriteRequest. cbn [Arg2Writer Arg3Writer recorder_writable aw_closer aw_writer].
    run_step. unfold FlushTo in *. cbn [id] in HF. rewrite HF. run_step. run_step. run_step.
    cbn [rec_arg2 rec_arg3 rec_in3 app].
    assert (HC : ∀ chunks x, io_Copy chunks (io_EOF : error) (mkRecorder (cut_request req) x true)
      = Ret (None, mkRecorder (cut_request req) (x ++ concat chunks) true)).
    { induction chunks as [|b chunks IH]; intros x; cbn [io_Copy concat].
      - by rewrite decide_True, app_nil_r by done.
      - case_decide as Hb0; [subst b; apply IH|]. run_step. rewrite decide_False by (intros []; done).
        cbn [rec_arg2 rec_arg3 rec_in3]. by rewrite IH, <- app_assoc. }
    unfold body_bytes. destruct body as [[chunks e]|]; [|done]. cbn in Hb. subst e.
    by run_with (HC chunks []).
  - unfold ReadRequest. run_then (bytes_ArgRead (Z.to_nat 10000) (cut_request req) ltac:(
      unfold cut_request; rewrite length_app; cbn [length];
      pose proof (length_uvarint_enc 9 (len (URL_String (req_URL req)))); lia)).
    unfold cut_request, NewReadBuffer. rewrite (ReadLen8String_reads _ Hm).
    rewrite <- (app_nil_r (uvarint_enc _ _)).
    erewrite gost_bind_run.
    2: { unfold gcall, readVarintString. erewrite glift_run by (apply ReadUvarint_reads; lia).
         assert (int64 (len (URL_String (req_URL req))) = len (URL_String (req_URL req))) as ->
           by (unfold int64; rewrite Z.mod_small; lia).
         unfold ReadString_int, ReadBytes_int, mbind, gost_bind. cbn [r_err].
         rewrite decide_False by lia. unfold ReadBytes. cbn [r_err r_remaining].
         rewrite decide_True by (cbn; lia). reflexivity. }
    cbv beta iota. destruct (NewRequest (req_Method req) []) as [q|e]; [|by exists e].
    destruct (http_readHeaders _ _) as [h rb] eqn:E. apply (f_equal (λ x, r_err x.2)) in E.
    rewrite http_readHeaders_sticky in E by (cbn [r_err]; eauto). cbn [r_err snd] in E.
    rewrite <- E. by eexists.
Qed.

(** *** A handler that does not write *)

(** A handler that never writes a body sends no response at all: finish returns
    without an error and without touching the call, whatever headers and status
    the handler has set. *)
Theorem http_no_body_no_response `{ArgWritable W} StatusText ops (w : W) :
  handler_result ops ∅ StatusOK = None →
  ∃ tw, run_handler StatusText ops (newTChanResponseWriter w) = Ret (None, tw) ∧ trw_response tw = w.
Proof.
  unfold newTChanResponseWriter. generalize (∅ : Header) StatusOK.
  induction ops as [|[h'|c'|b] ops IH]; intros h c Hres; cbn [run_handler].
  - by eexists.
  - run_step. by apply IH.
  - run_step. by apply IH.
  - done.
Qed.
End http.
Arguments trw_response {W}.

(** ** Examples *)

(** URLs that are their own string. *)
Definition string_urls : URLs := {| URL := bytes; URL_String := λ u, u; URL_Parse := inl |}.

Lemma example_header_ok : header_ok (H0 := storage_hrange) {[ str "k" := [str "v"] ]}.
Proof.
  split; [by apply map_Forall_singleton|].
  change (flat _) with [(str "k", str "v")]. constructor; [split; reflexivity|constructor].
Qed.

Lemma http_request_roundtrip_witness :
  let req := @mkRequest string_urls (str "POST") (str "/a") {[ str "k" := [str "v"] ]} in
  let body := Some (mkBody [str "he"; []; str "llo"] io_EOF) in
  ∃ w', send_request (H := string_urls) (H0 := storage_hrange) (H1 := storage_range) (str "echo") req body
    (newFragmentingWriter (example_writer writesRequest example_msgs) emptyPools (fresh ChecksumTypeCrc32))
    = Ret (None, w').
Proof.
  intros req body.
  destruct (http_request_roundtrip (H := string_urls) (H0 := storage_hrange) (H1 := storage_range)
    example_msgs 7 ChecksumTypeCrc32 (example_writer writesRequest example_msgs) emptyPools (str "echo") req body)
    as (w' & frames & H & _).
  - apply example_ready. left. reflexivity.
  - split_and!; [reflexivity|right; reflexivity|reflexivity|exact example_header_ok|vm_compute; congruence].
  - reflexivity.
  - exists w'. exact H.
Defined.

Lemma http_response_roundtrip_witness :
  ∃ tw', run_handler (H0 := storage_hrange) (H1 := InboundCallResponse_writable (H := storage_range))
    (λ _, str "Not Found") [SetStatus 404; SetHeader {[ str "k" := [str "v"] ]}; WriteBody (str "no"); SetStatus 500]
    (newTChanResponseWriter (newFragmentingWriter (example_writer writesResponse example_res) emptyPools
       (fresh ChecksumTypeCrc32))) = Ret (None, tw').
Proof.
  destruct (http_response_roundtrip (H0 := storage_hrange) (H1 := storage_range)
    example_res 7 ChecksumTypeCrc32 (example_writer writesResponse example_res) emptyPools
    (λ _, str "Not Found")
    [SetStatus 404; SetHeader {[ str "k" := [str "v"] ]}; WriteBody (str "no"); SetStatus 500]
    {[ str "k" := [str "v"] ]} 404 (str "no"))
    as (w' & frames & H & _).
  - apply example_ready. right. reflexivity.
  - reflexivity.
  - exact example_header_ok.
  - vm_compute. congruence.
  - exists w'. exact H.
Defined.

Lemma http_length_panics_witness :
  ReadRequest (H := string_urls) (H1 := bytes_readable) [100%nat]
    ((byte_of_Z (len (str "GET")) :: str "GET") ++ uvarint_enc 9 (2^63) ++ []) = Panic.
Proof.
  apply (http_length_panics (H := string_urls) [100%nat] _ [] (str "GET") (2^63) []).
  - vm_compute. reflexivity.
  - reflexivity.
  - split; vm_compute; congruence.
Defined.

Lemma http_overflow_silent_witness :
  let req := @mkRequest string_urls (str "GET") (replicate (Z.to_nat 10000) x2f) ∅ in
  (WriteRequest (H := string_urls) (H0 := storage_hrange) (H1 := recorder_writable) req None (mkRecorder [] [] false))
    = Ret (None, mkRecorder (cut_request (H := string_urls) req) [] true).
Proof.
  intros req.
  apply (http_overflow_silent (H := string_urls) (H0 := storage_hrange) req None).
  - reflexivity.
  - cbn [req req_URL URL_String string_urls]. rewrite length_replicate. split; vm_compute; congruence.
  - exact I.
Defined.

Lemma http_no_body_no_response_witness :
  ∃ tw, run_handler (H0 := storage_hrange) (H1 := recorder_writable) (λ _, str "Not Found") [SetStatus 404]
    (newTChanResponseWriter (mkRecorder [] [] false)) = Ret (None, tw)
  ∧ trw_response tw = mkRecorder [] [] false.
Proof.
  apply (http_no_body_no_response (H0 := storage_hrange) (H1 := recorder_writable)).
  reflexivity.
Defined.
