(* ===== verification/Context.v ===== *)
(** * Contexts of calls (context.go, context_header.go, context_builder.go,
    calloptions.go)

    A context is a chain of values and deadlines; TChannel keeps two values in it:
    the parameters of calls made with it, and a container of request and response
    headers.  The maps, the containers and the options are shared by pointer, so
    they live in a store, and a method that changes one changes it for every holder
    of the pointer.  The theorems show what a built context holds (its deadline, its
    parameters, the merge of its parent's headers with the builder's), that a child
    context keeps its response headers to itself, and that the options of a call
    reach the handler at the other end. *)

From S2P Require Import Prelude Errors Retry Buffer Frame Messages.

(** ** Call options *)

Definition Format := bytes.
Definition HTTP : Format := str "http".
Definition JSON : Format := str "json".
Definition Raw : Format := str "raw".
Definition Thrift : Format := str "thrift".

(** RequestState, which no header depends on, stays with the retry code. *)
Record CallOptions := mkCallOptions {
  co_Format : Format;
  co_ShardKey : bytes;
  co_RoutingKey : bytes;
  co_RoutingDelegate : bytes;
  co_CallerName : bytes
}.

Definition defaultCallOptions : CallOptions := mkCallOptions [] [] [] [] [].

Notation transportHeaders := (gmap bytes bytes).

Definition set_nonempty (k v : bytes) (headers : transportHeaders) : transportHeaders :=
  if decide (v = []) then headers else <[k:=v]> headers.

Definition overrideHeaders (c : CallOptions) (headers : transportHeaders) : transportHeaders :=
  let headers := set_nonempty ArgScheme (co_Format c) headers in
  let headers := set_nonempty ShardKey (co_ShardKey c) headers in
  let headers := set_nonempty RoutingKey (co_RoutingKey c) headers in
  let headers := set_nonempty RoutingDelegate (co_RoutingDelegate c) headers in
  set_nonempty CallerName (co_CallerName c) headers.

Definition setHeaders (c : CallOptions) (headers : transportHeaders) : transportHeaders :=
  overrideHeaders c (<[ArgScheme := Raw]> headers).

(** Reading a missing key of a map gives the empty string. *)
Definition setResponseHeaders (reqHeaders respHeaders : transportHeaders) : transportHeaders :=
  <[ArgScheme := default [] (reqHeaders !! ArgScheme)]> respHeaders.

(** The headers beginCall sends: those of the call's options, overridden by the
    options of the context. *)
Definition call_headers (serviceName : bytes) (callOptions : CallOptions) (current : option CallOptions)
    : transportHeaders :=
  let headers := setHeaders callOptions {[CallerName := serviceName]} in
  match current with Some opts => overrideHeaders opts headers | None => headers end.

(** InboundCall.CallOptions *)
Definition in_CallOptions (headers : transportHeaders) : CallOptions :=
  let get k := default [] (headers !! k) in
  mkCallOptions (get ArgScheme) (get ShardKey) (get RoutingKey) (get RoutingDelegate) (get CallerName).

(** ** Contexts *)

(** Pointers into the store; [None] is nil. *)
Definition ptr := option nat.

Record headersContainer := mkHeadersContainer { reqHeaders : ptr; respHeaders : ptr }.

Inductive contextKey := contextKeyTChannel | contextKeyHeaders | contextKeyOther (k : bytes).

#[export] Instance contextKey_eq_dec : EqDecision contextKey.
Proof. solve_decision. Defined.

(** An IncomingCall and a base context for connections are handed on as they are. *)
Record tchannelCtxParams := mkParams {
  p_tracingDisabled : bool;
  p_hideListeningOnOutbound : bool;
  p_call : option nat;
  p_options : ptr;
  p_retryOptions : ptr;
  p_connectTimeout : Z;
  p_connectBaseContext : option nat
}.

Inductive ctxValue :=
| vParams (p : tchannelCtxParams)
| vContainer (h : nat)
| vNil
| vOther (v : bytes).

(** context.Background, WithDeadline, WithCancel and WithValue, and the wrapper
    headerCtx. *)
Inductive Context :=
| Background
| ctxDeadline (parent : Context) (deadline : Z)
| ctxCancel (parent : Context)
| ctxValueOf (parent : Context) (k : contextKey) (v : ctxValue)
| headerCtx (c : Context).

Fixpoint Deadline (c : Context) : option Z :=
  match c with
  | Background => None
  | ctxDeadline _ d => Some d
  | ctxCancel p | ctxValueOf p _ _ | headerCtx p => Deadline p
  end.

Fixpoint Value (k : contextKey) (c : Context) : option ctxValue :=
  match c with
  | Background => None
  | ctxDeadline p _ | ctxCancel p | headerCtx p => Value k p
  | ctxValueOf p k' v => if decide (k = k') then Some v else Value k p
  end.

(** WithDeadline keeps the earlier deadline of the parent. *)
Definition WithTimeout (timeNow : Z) (parent : Context) (timeout : Z) : Context :=
  let d := timeNow + timeout in
  match Deadline parent with
  | Some cur => if decide (cur < d) then ctxCancel parent else ctxDeadline parent d
  | None => ctxDeadline parent d
  end.

Definition getTChannelParams (c : Context) : option tchannelCtxParams :=
  match Value contextKeyTChannel c with Some (vParams p) => Some p | _ => None end.

Definition CurrentCall (c : Context) : option nat := getTChannelParams c ≫= p_call.
Definition isTracingDisabled (c : Context) : bool :=
  default false (p_tracingDisabled <$> getTChannelParams c).

(** ** The store *)

Record store := mkStore {
  maps : list (gmap bytes bytes);
  containers : list headersContainer;
  callOpts : list CallOptions;
  retries : list RetryOptions
}.

Definition st_alloc_map (m : gmap bytes bytes) : ST store nat := λ s,
  (length (maps s), mkStore (maps s ++ [m]) (containers s) (callOpts s) (retries s)).
Definition st_set_map (r : nat) (m : gmap bytes bytes) : ST store unit := λ s,
  (tt, mkStore (<[r:=m]> (maps s)) (containers s) (callOpts s) (retries s)).
Definition st_alloc_container (h : headersContainer) : ST store nat := λ s,
  (length (containers s), mkStore (maps s) (containers s ++ [h]) (callOpts s) (retries s)).
Definition st_set_container (r : nat) (h : headersContainer) : ST store unit := λ s,
  (tt, mkStore (maps s) (<[r:=h]> (containers s)) (callOpts s) (retries s)).

(** The content of a map: nil reads as empty. *)
Definition map_at (s : store) (r : ptr) : gmap bytes bytes := default ∅ (r ≫= (maps s !!.)).

Definition currentCallOptions (s : store) (c : Context) : option CallOptions :=
  (getTChannelParams c ≫= p_options) ≫= (callOpts s !!.).

(** ** Contexts with headers *)

Definition headers_ref (c : Context) : option nat :=
  match Value contextKeyHeaders c with Some (vContainer h) => Some h | _ => None end.

Definition container_at (s : store) (c : Context) : option headersContainer :=
  headers_ref c ≫= (containers s !!.).

Definition ctx_Headers (s : store) (c : Context) : ptr := container_at s c ≫= reqHeaders.
Definition ctx_ResponseHeaders (s : store) (c : Context) : ptr := container_at s c ≫= respHeaders.

Definition SetResponseHeaders (headers : ptr) (c : Context) : GO store unit := λ s,
  match headers_ref c, container_at s c with
  | Some r, Some h => Ret (st_set_container r (mkHeadersContainer (reqHeaders h) headers) s)
  | _, _ => Panic
  end.

Definition WrapWithHeaders (c : Context) (headers : ptr) : ST store Context :=
  h ← st_alloc_container (mkHeadersContainer headers None);
  mret (headerCtx (ctxValueOf c contextKeyHeaders (vContainer h))).

Definition Wrap (c : Context) : ST store Context :=
  match headers_ref c with
  | Some _ => mret (headerCtx c)
  | None => WrapWithHeaders c None
  end.

(** Child copies the container; the maps are shared.  [c] is the context inside the
    headerCtx. *)
Definition Child (c : Context) : ST store Context := λ s,
  (h ← st_alloc_container (default (mkHeadersContainer None None) (container_at s c));
   Wrap (ctxValueOf c contextKeyHeaders (vContainer h))) s.

Definition WithoutHeaders (c : Context) : Context :=
  ctxValueOf (ctxValueOf c contextKeyTChannel vNil) contextKeyHeaders vNil.

(** ** ContextBuilder *)

Record ContextBuilder := mkContextBuilder {
  cb_TracingDisabled : bool;
  cb_hideListeningOnOutbound : bool;
  cb_replaceParentHeaders : bool;
  cb_Timeout : Z;
  cb_Headers : ptr;
  cb_CallOptions : ptr;
  cb_RetryOptions : ptr;
  cb_ConnectTimeout : Z;
  cb_ConnectBaseContext : option nat;
  cb_ParentContext : option Context;
  cb_incomingCall : option nat
}.

Definition NewContextBuilder (timeout : Z) : ContextBuilder :=
  mkContextBuilder false false false timeout None None None 0 None None None.

Definition SetTimeout (timeout : Z) (cb : ContextBuilder) : ContextBuilder :=
  mkContextBuilder (cb_TracingDisabled cb) (cb_hideListeningOnOutbound cb) (cb_replaceParentHeaders cb)
    timeout (cb_Headers cb) (cb_CallOptions cb) (cb_RetryOptions cb) (cb_ConnectTimeout cb)
    (cb_ConnectBaseContext cb) (cb_ParentContext cb) (cb_incomingCall cb).

Definition cb_set_headers (replace : bool) (headers : ptr) (cb : ContextBuilder) : ContextBuilder :=
  mkContextBuilder (cb_TracingDisabled cb) (cb_hideListeningOnOutbound cb) replace
    (cb_Timeout cb) headers (cb_CallOptions cb) (cb_RetryOptions cb) (cb_ConnectTimeout cb)
    (cb_ConnectBaseContext cb) (cb_ParentContext cb) (cb_incomingCall cb).

Definition AddHeader (key value : bytes) (cb : ContextBuilder) : ST store ContextBuilder := λ s,
  match cb_Headers cb with
  | None =>
      (r ← st_alloc_map {[key := value]};
       mret (cb_set_headers (cb_replaceParentHeaders cb) (Some r) cb)) s
  | Some r => (_ ← st_set_map r (<[key:=value]> (map_at s (Some r))); mret cb) s
  end.

Definition SetHeaders (headers : ptr) (cb : ContextBuilder) : ContextBuilder := cb_set_headers true headers cb.

(** The setters of the options of the call change the options in place, and
    allocate them first if there are none. *)
Definition cb_set_options (r : ptr) (cb : ContextBuilder) : ContextBuilder :=
  mkContextBuilder (cb_TracingDisabled cb) (cb_hideListeningOnOutbound cb) (cb_replaceParentHeaders cb)
    (cb_Timeout cb) (cb_Headers cb) r (cb_RetryOptions cb) (cb_ConnectTimeout cb)
    (cb_ConnectBaseContext cb) (cb_ParentContext cb) (cb_incomingCall cb).

Definition changeCallOptions (f : CallOptions → CallOptions) (cb : ContextBuilder) : ST store ContextBuilder := λ s,
  match cb_CallOptions cb with
  | None => (cb_set_options (Some (length (callOpts s))) cb,
             mkStore (maps s) (containers s) (callOpts s ++ [f defaultCallOptions]) (retries s))
  | Some r => (cb, mkStore (maps s) (containers s) (alter f r (callOpts s)) (retries s))
  end.

Definition SetShardKey (sk : bytes) : ContextBuilder → ST store ContextBuilder :=
  changeCallOptions (λ o, mkCallOptions (co_Format o) sk (co_RoutingKey o) (co_RoutingDelegate o) (co_CallerName o)).
Definition SetFormat (f : Format) : ContextBuilder → ST store ContextBuilder :=
  changeCallOptions (λ o, mkCallOptions f (co_ShardKey o) (co_RoutingKey o) (co_RoutingDelegate o) (co_CallerName o)).
Definition SetRoutingKey (rk : bytes) : ContextBuilder → ST store ContextBuilder :=
  changeCallOptions (λ o, mkCallOptions (co_Format o) (co_ShardKey o) rk (co_RoutingDelegate o) (co_CallerName o)).
Definition SetRoutingDelegate (rd : bytes) : ContextBuilder → ST store ContextBuilder :=
  changeCallOptions (λ o, mkCallOptions (co_Format o) (co_ShardKey o) (co_RoutingKey o) rd (co_CallerName o)).

Definition SetConnectTimeout (d : Z) (cb : ContextBuilder) : ContextBuilder :=
  mkContextBuilder (cb_TracingDisabled cb) (cb_hideListeningOnOutbound cb) (cb_replaceParentHeaders cb)
    (cb_Timeout cb) (cb_Headers cb) (cb_CallOptions cb) (cb_RetryOptions cb) d
    (cb_ConnectBaseContext cb) (cb_ParentContext cb) (cb_incomingCall cb).
Definition SetConnectBaseContext (c : option nat) (cb : ContextBuilder) : ContextBuilder :=
  mkContextBuilder (cb_TracingDisabled cb) (cb_hideListeningOnOutbound cb) (cb_replaceParentHeaders cb)
    (cb_Timeout cb) (cb_Headers cb) (cb_CallOptions cb) (cb_RetryOptions cb) (cb_ConnectTimeout cb)
    c (cb_ParentContext cb) (cb_incomingCall cb).
Definition HideListeningOnOutbound (cb : ContextBuilder) : ContextBuilder :=
  mkContextBuilder (cb_TracingDisabled cb) true (cb_replaceParentHeaders cb)
    (cb_Timeout cb) (cb_Headers cb) (cb_CallOptions cb) (cb_RetryOptions cb) (cb_ConnectTimeout cb)
    (cb_ConnectBaseContext cb) (cb_ParentContext cb) (cb_incomingCall cb).
Definition DisableTracing (cb : ContextBuilder) : ContextBuilder :=
  mkContextBuilder true (cb_hideListeningOnOutbound cb) (cb_replaceParentHeaders cb)
    (cb_Timeout cb) (cb_Headers cb) (cb_CallOptions cb) (cb_RetryOptions cb) (cb_ConnectTimeout cb)
    (cb_ConnectBaseContext cb) (cb_ParentContext cb) (cb_incomingCall cb).
Definition SetRetryOptions (r : ptr) (cb : ContextBuilder) : ContextBuilder :=
  mkContextBuilder (cb_TracingDisabled cb) (cb_hideListeningOnOutbound cb) (cb_replaceParentHeaders cb)
    (cb_Timeout cb) (cb_Headers cb) (cb_CallOptions cb) r (cb_ConnectTimeout cb)
    (cb_ConnectBaseContext cb) (cb_ParentContext cb) (cb_incomingCall cb).

Definition SetTimeoutPerAttempt (d : Z) (cb : ContextBuilder) : ST store ContextBuilder := λ s,
  let f o := mkRetryOptions (MaxAttempts o) (RetryOptions_RetryOn o) d in
  match cb_RetryOptions cb with
  | None => (SetRetryOptions (Some (length (retries s))) cb,
             mkStore (maps s) (containers s) (callOpts s) (retries s ++ [f (mkRetryOptions 0 RetryDefault 0)]))
  | Some r => (cb, mkStore (maps s) (containers s) (callOpts s) (alter f r (retries s)))
  end.

Definition SetParentContext (c : option Context) (cb : ContextBuilder) : ContextBuilder :=
  mkContextBuilder (cb_TracingDisabled cb) (cb_hideListeningOnOutbound cb) (cb_replaceParentHeaders cb)
    (cb_Timeout cb) (cb_Headers cb) (cb_CallOptions cb) (cb_RetryOptions cb) (cb_ConnectTimeout cb)
    (cb_ConnectBaseContext cb) c (cb_incomingCall cb).
Definition setIncomingCall (call : option nat) (cb : ContextBuilder) : ContextBuilder :=
  mkContextBuilder (cb_TracingDisabled cb) (cb_hideListeningOnOutbound cb) (cb_replaceParentHeaders cb)
    (cb_Timeout cb) (cb_Headers cb) (cb_CallOptions cb) (cb_RetryOptions cb) (cb_ConnectTimeout cb)
    (cb_ConnectBaseContext cb) (cb_ParentContext cb) call.

(** The merge writes the parent's headers and then the builder's into a new map. *)
Definition getHeaders (cb : ContextBuilder) : ST store ptr := λ s,
  match cb_ParentContext cb, cb_replaceParentHeaders cb with
  | None, _ | _, true => (cb_Headers cb, s)
  | Some parent, false =>
      match container_at s parent with
      | None => (cb_Headers cb, s)
      | Some h =>
          if decide (size (map_at s (reqHeaders h)) = 0%nat) then (cb_Headers cb, s)
          else (r ← st_alloc_map (map_at s (cb_Headers cb) ∪ map_at s (reqHeaders h)); mret (Some r)) s
      end
  end.

(** The context that the deadline and the values are put on: a headerCtx is
    unwrapped. *)
Definition parent_of (cb : ContextBuilder) : Context :=
  match cb_ParentContext cb with
  | None => Background
  | Some (headerCtx c) => c
  | Some c => c
  end.

Definition Build (timeNow : Z) (cb : ContextBuilder) : ST store Context :=
  let params := mkParams (cb_TracingDisabled cb) (cb_hideListeningOnOutbound cb) (cb_incomingCall cb)
    (cb_CallOptions cb) (cb_RetryOptions cb) (cb_ConnectTimeout cb) (cb_ConnectBaseContext cb) in
  let parent := parent_of cb in
  let ctx :=
    if decide (cb_Timeout cb = 0 ∧ Deadline parent ≠ None) then ctxCancel parent
    else WithTimeout timeNow parent (cb_Timeout cb) in
  let ctx := ctxValueOf ctx contextKeyTChannel (vParams params) in
  headers ← getHeaders cb;
  WrapWithHeaders ctx headers.

Definition NewContext (timeNow timeout : Z) : ST store Context := Build timeNow (NewContextBuilder timeout).

Definition newIncomingContext (timeNow : Z) (ctx : Context) (call : nat) (timeout : Z) : ST store Context :=
  Build timeNow (setIncomingCall (Some call) (SetParentContext (Some ctx) (NewContextBuilder timeout))).

(** ** The options of a call reach the handler *)

Definition or_else (v w : bytes) : bytes := if decide (v = []) then w else v.

(** Options of the context over options of the call over the defaults. *)
Definition effective_options (serviceName : bytes) (opts : CallOptions) (current : option CallOptions) : CallOptions :=
  let cur := default defaultCallOptions current in
  mkCallOptions (or_else (co_Format cur) (or_else (co_Format opts) Raw))
    (or_else (co_ShardKey cur) (co_ShardKey opts))
    (or_else (co_RoutingKey cur) (co_RoutingKey opts))
    (or_else (co_RoutingDelegate cur) (co_RoutingDelegate opts))
    (or_else (co_CallerName cur) (or_else (co_CallerName opts) serviceName)).

Definition get (k : bytes) (headers : transportHeaders) : bytes := default [] (headers !! k).

Lemma get_set k k' v h :
  get k' (set_nonempty k v h) = if decide (k = k') then or_else v (get k' h) else get k' h.
Proof.
  unfold set_nonempty, or_else, get. case_decide; case_decide; subst; try done.
  - by rewrite lookup_insert_eq.
  - by rewrite lookup_insert_ne.
Qed.

Lemma get_insert k k' v h : get k' (<[k:=v]> h) = if decide (k = k') then v else get k' h.
Proof.
  unfold get. case_decide; subst; [by rewrite lookup_insert_eq|by rewrite lookup_insert_ne].
Qed.

Lemma get_singleton k k' v : get k' {[k := v]} = if decide (k = k') then v else [].
Proof. rewrite <- insert_empty, get_insert. done. Qed.

Lemma or_else_nil v : or_else v [] = v.
Proof. unfold or_else. by case_decide. Qed.

(** The header names are distinct. *)
Ltac header_names :=
  repeat match goal with
  | |- context [decide (?a = ?b :> bytes)] =>
      first [ rewrite (decide_True (P := a = b)) by reflexivity
            | rewrite (decide_False (P := a = b)) by discriminate ]
  end.

Lemma get_override c h :
  get ArgScheme (overrideHeaders c h) = or_else (co_Format c) (get ArgScheme h)
  ∧ get ShardKey (overrideHeaders c h) = or_else (co_ShardKey c) (get ShardKey h)
  ∧ get RoutingKey (overrideHeaders c h) = or_else (co_RoutingKey c) (get RoutingKey h)
  ∧ get RoutingDelegate (overrideHeaders c h) = or_else (co_RoutingDelegate c) (get RoutingDelegate h)
  ∧ get CallerName (overrideHeaders c h) = or_else (co_CallerName c) (get CallerName h).
Proof. unfold overrideHeaders. rewrite !get_set. header_names. done. Qed.

Lemma dom_set k v h : dom (set_nonempty k v h) ⊆ {[k]} ∪ dom h.
Proof. unfold set_nonempty. case_decide; set_solver. Qed.

Definition header_names_of_calls : gset bytes :=
  {[ArgScheme; ShardKey; RoutingKey; RoutingDelegate; CallerName]}.

Lemma dom_override c h :
  dom h ⊆ header_names_of_calls → dom (overrideHeaders c h) ⊆ header_names_of_calls.
Proof.
  intros Hh. unfold overrideHeaders.
  assert (HS : ∀ k v h, k ∈ header_names_of_calls → dom h ⊆ header_names_of_calls →
    dom (set_nonempty k v h) ⊆ header_names_of_calls).
  { intros k v h' Hk Hh'. pose proof (dom_set k v h'). set_solver. }
  repeat apply HS; try done; unfold header_names_of_calls; set_solver.
Qed.

(** The options of a call reach the handler.  The transport headers that a call is
    started with, read by the InboundCall at the other end, give the options of the
    context where they are set, otherwise those of the call, with "raw" as the
    default format and the name of the calling service as the default caller; and
    there are never more than five headers, so that their count fits its byte. *)
Theorem call_options_roundtrip serviceName opts current :
  in_CallOptions (call_headers serviceName opts current) = effective_options serviceName opts current
  ∧ (size (call_headers serviceName opts current) <= 5)%nat.
Proof.
  set (h1 := setHeaders opts {[CallerName := serviceName]}).
  assert (H1 : dom h1 ⊆ header_names_of_calls).
  { apply dom_override. unfold header_names_of_calls. set_solver. }
  assert (Hg : in_CallOptions h1 = effective_options serviceName opts None).
  { unfold in_CallOptions. fold (get ArgScheme h1). change (default [] (h1 !! ?k)) with (get k h1).
    unfold h1, setHeaders. destruct (get_override opts (<[ArgScheme:=Raw]> {[CallerName := serviceName]}))
      as (-> & -> & -> & -> & ->). rewrite !get_insert, !get_singleton. header_names.
    by rewrite !or_else_nil. }
  split.
  - unfold call_headers. fold h1. destruct current as [cur|]; [|exact Hg].
    unfold in_CallOptions. change (default [] (?h !! ?k)) with (get k h).
    destruct (get_override cur h1) as (-> & -> & -> & -> & ->).
    unfold in_CallOptions in Hg. change (default [] (h1 !! ?k)) with (get k h1) in Hg.
    injection Hg as -> -> -> -> ->. reflexivity.
  - assert (Hd : dom (call_headers serviceName opts current) ⊆ header_names_of_calls).
    { unfold call_headers. fold h1. destruct current; [by apply dom_override|done]. }
    rewrite <- size_dom. apply subseteq_size in Hd. etrans; [exact Hd|]. vm_compute. lia.
Qed.

(** ** What a built context holds *)

Definition build_deadline (timeNow : Z) (cb : ContextBuilder) : Z :=
  match Deadline (parent_of cb) with
  | None => timeNow + cb_Timeout cb
  | Some cur => if decide (cb_Timeout cb = 0) then cur else Z.min cur (timeNow + cb_Timeout cb)
  end.

(** The headers of the parent that the builder takes over. *)
Definition inherited (s : store) (cb : ContextBuilder) : gmap bytes bytes :=
  match cb_ParentContext cb with
  | Some parent => if cb_replaceParentHeaders cb then ∅ else map_at s (ctx_Headers s parent)
  | None => ∅
  end.

Definition build_params (cb : ContextBuilder) : tchannelCtxParams :=
  mkParams (cb_TracingDisabled cb) (cb_hideListeningOnOutbound cb) (cb_incomingCall cb)
    (cb_CallOptions cb) (cb_RetryOptions cb) (cb_ConnectTimeout cb) (cb_ConnectBaseContext cb).

Lemma getHeaders_spec cb s :
  ∃ p l, getHeaders cb s = (p, mkStore (maps s ++ l) (containers s) (callOpts s) (retries s))
  ∧ map_at (mkStore (maps s ++ l) (containers s) (callOpts s) (retries s)) p
    = map_at s (cb_Headers cb) ∪ inherited s cb
  ∧ (inherited s cb = ∅ → p = cb_Headers cb).
Proof.
  assert (HN : inherited s cb = ∅ → ∃ p l,
    (cb_Headers cb, s) = (p, mkStore (maps s ++ l) (containers s) (callOpts s) (retries s))
    ∧ map_at (mkStore (maps s ++ l) (containers s) (callOpts s) (retries s)) p
      = map_at s (cb_Headers cb) ∪ inherited s cb
    ∧ (inherited s cb = ∅ → p = cb_Headers cb)).
  { intros HI. exists (cb_Headers cb), []. rewrite HI, app_nil_r, (right_id_L ∅ (∪)). by destruct s. }
  unfold getHeaders.
  destruct (cb_ParentContext cb) as [parent|] eqn:Ep; [|apply HN; unfold inherited; by rewrite Ep].
  destruct (cb_replaceParentHeaders cb) eqn:Er; [apply HN; unfold inherited; by rewrite Ep, Er|].
  assert (HI : inherited s cb = map_at s (container_at s parent ≫= reqHeaders)).
  { unfold inherited. by rewrite Ep, Er. }
  destruct (container_at s parent) as [h|] eqn:Ec; [|by apply HN; rewrite HI].
  cbn [mbind option_bind] in HI. case_decide as Hz.
  { apply HN. rewrite HI. by apply map_size_empty_inv. }
  exists (Some (length (maps s))), [map_at s (cb_Headers cb) ∪ map_at s (reqHeaders h)]. split; [done|]. split.
  - unfold map_at at 1. cbn. rewrite lookup_app_r, Nat.sub_diag by lia. by rewrite HI.
  - rewrite HI. intros HE. rewrite HE in Hz. by rewrite map_size_empty in Hz.
Qed.

(** The container of a context that has just been wrapped. *)
Lemma container_wrapped c h m l co re :
  container_at (mkStore m (l ++ [h]) co re)
    (headerCtx (ctxValueOf c contextKeyHeaders (vContainer (length l)))) = Some h.
Proof.
  unfold container_at. change (headers_ref _) with (Some (length l)). cbn.
  by rewrite lookup_app_r, Nat.sub_diag by lia.
Qed.

Lemma built_deadline timeNow cb :
  Deadline (if decide (cb_Timeout cb = 0 ∧ Deadline (parent_of cb) ≠ None) then ctxCancel (parent_of cb)
            else WithTimeout timeNow (parent_of cb) (cb_Timeout cb)) = Some (build_deadline timeNow cb).
Proof.
  unfold build_deadline. case_decide as Hz; cbn.
  - destruct Hz as [-> Hd]. destruct (Deadline (parent_of cb)); [done|by destruct Hd].
  - unfold WithTimeout. destruct (Deadline (parent_of cb)) as [cur|] eqn:Ed; [|done].
    rewrite (decide_False (P := cb_Timeout cb = 0)) by (intros ?; by apply Hz).
    case_decide; cbn; f_equal; [rewrite Ed; f_equal|]; lia.
Qed.

(** C24: what a built context holds.  The context always has a deadline: the parent's if
    the builder sets no timeout, otherwise the earlier of the two, and without a
    parent's deadline the time of building plus the timeout.  In particular a builder
    without a timeout and without a parent's deadline builds a context that has
    expired, where the comment on the field Timeout promises defaultTimeout.  The
    context carries the parameters of the builder, its headers are the builder's over
    the parent's unless they are replaced, every other value is the parent's, its
    response headers are its own, and no map and no headers of an existing context are
    changed. *)
Theorem Build_context timeNow cb s :
  let '(ctx, s') := Build timeNow cb s in
  Deadline ctx = Some (build_deadline timeNow cb)
  ∧ (cb_Timeout cb = 0 → Deadline (parent_of cb) = None → Deadline ctx = Some timeNow)
  ∧ (∀ k, k ≠ contextKeyTChannel → k ≠ contextKeyHeaders → Value k ctx = cb_ParentContext cb ≫= Value k)
  ∧ getTChannelParams ctx = Some (build_params cb)
  ∧ map_at s' (ctx_Headers s' ctx) = map_at s (cb_Headers cb) ∪ inherited s cb
  ∧ ctx_ResponseHeaders s' ctx = None
  ∧ maps s `prefix_of` maps s' ∧ containers s `prefix_of` containers s'
  ∧ (∀ c h, container_at s c = Some h → headers_ref ctx ≠ headers_ref c).
Proof.
  unfold Build. destruct (getHeaders_spec cb s) as (p & l & Hg & Hm & _).
  unfold mbind at 1, st_bind at 1. rewrite Hg. cbn -[Value].
  fold (build_params cb). split_and!.
  - apply built_deadline.
  - intros Ht Hd. etransitivity; [apply built_deadline|]. unfold build_deadline. rewrite Hd, Ht. f_equal. lia.
  - intros k H1 H2. cbn [Value]. rewrite !decide_False by done.
    transitivity (Value k (parent_of cb)); [|unfold parent_of; by destruct (cb_ParentContext cb) as [[]|]].
    case_decide; [done|]. unfold WithTimeout. destruct (Deadline (parent_of cb)); [case_decide|]; done.
  - done.
  - unfold ctx_Headers. rewrite container_wrapped. exact Hm.
  - unfold ctx_ResponseHeaders. by rewrite container_wrapped.
  - by eexists.
  - by eexists.
  - intros c h Hc Heq. unfold container_at in Hc. rewrite <- Heq in Hc.
    change (headers_ref _) with (Some (length (containers s))) in Hc. cbn in Hc.
    apply lookup_lt_Some in Hc. lia.
Qed.

(** A child context has its parent's headers, but its response headers are its
    own: setting them on the child does not change those of the parent, nor does
    setting them on the parent change those of the child. *)
Theorem Child_isolated c h s :
  container_at s c = Some h →
  let '(child, s1) := Child c s in
  container_at s1 child = Some h ∧ container_at s1 c = Some h
  ∧ ∀ p, ∃ s2 s3,
      SetResponseHeaders p child s1 = Ret (tt, s2)
      ∧ ctx_ResponseHeaders s2 child = p ∧ container_at s2 c = Some h
      ∧ SetResponseHeaders p c s1 = Ret (tt, s3)
      ∧ ctx_ResponseHeaders s3 c = p ∧ container_at s3 child = Some h.
Proof.
  intros Hc.
  set (child := headerCtx (ctxValueOf c contextKeyHeaders (vContainer (length (containers s))))).
  set (s1 := mkStore (maps s) (containers s ++ [h]) (callOpts s) (retries s)).
  assert (Child c s = (child, s1)) as -> by (unfold Child; by rewrite Hc).
  unfold container_at in *. destruct (headers_ref c) as [r|] eqn:Er; [|done]. cbn in Hc.
  pose proof (lookup_lt_Some _ _ _ Hc) as Hr.
  assert (Hch : headers_ref child = Some (length (containers s))) by done.
  assert (H1 : containers s1 !! length (containers s) = Some h)
    by (cbn; by rewrite lookup_app_r, Nat.sub_diag by lia).
  assert (H2 : containers s1 !! r = Some h) by (cbn; by rewrite lookup_app_l).
  split_and!; [by rewrite Hch|done|]. intros p.
  unfold SetResponseHeaders, ctx_ResponseHeaders, container_at. rewrite Hch, Er. cbn [mbind option_bind].
  rewrite H1, H2. eexists _, _. split; [reflexivity|].
  pose proof (lookup_lt_Some _ _ _ H1). pose proof (lookup_lt_Some _ _ _ H2).
  cbn [containers]. split_and!; try reflexivity; cbn;
    try (rewrite list_lookup_insert_eq by (cbn in *; lia); done);
    try (rewrite list_lookup_insert_ne by lia; assumption).
Qed.

(** A context built with a parent, and a child of it. *)
Lemma Child_isolated_witness :
  let s := mkStore [{[str "k" := str "v"]}] [] [] [] in
  let '(c, s0) := WrapWithHeaders Background (Some 0%nat) s in
  let '(child, s1) := Child (ctxValueOf Background contextKeyHeaders (vContainer 0)) s0 in
  container_at s1 child = Some (mkHeadersContainer (Some 0%nat) None).
Proof.
  intros s.
  refine (proj1 (Child_isolated (ctxValueOf Background contextKeyHeaders (vContainer 0))
    (mkHeadersContainer (Some 0%nat) None) (mkStore (maps s) [mkHeadersContainer (Some 0%nat) None] [] []) _)).
  reflexivity.
Defined.
