(* ===== verification/Tracing.v ===== *)
(** * Tracing headers (tracing_keys.go, the header part of tracing.go)

    The tracer's keys travel among the application headers of a call, under a
    prefix.  A cache maps keys to prefixed keys and back.  The theorems show that
    the cache is only a cache, that what the tracer injects at one end is what the
    tracer at the other end extracts, and that the application sees its own headers
    and none of the tracer's. *)

From S2P Require Import Prelude Messages.

Definition tracingKeyPrefix : bytes := str "$tracing$".
Arguments tracingKeyPrefix : simpl never.
Definition tracingKeyMappingSize : nat := 100.

Definition HasPrefix (s pre : bytes) : bool := bool_decide (pre `prefix_of` s).

(** ** The cached mapping of keys *)

Record tracingKeysMapping := mkTracingKeysMapping {
  mapping : gmap bytes bytes;
  mapper : bytes → go bytes
}.

Definition tracingKeyEncoding : tracingKeysMapping :=
  mkTracingKeysMapping ∅ (λ key, Ret (tracingKeyPrefix ++ key)).
Definition tracingKeyDecoding : tracingKeysMapping :=
  mkTracingKeysMapping ∅ (λ key, slice (len tracingKeyPrefix) (len key) key).

(** The second lookup is made under the write lock. *)
Definition mapAndCache (key : bytes) : GO tracingKeysMapping bytes := λ m,
  match mapping m !! key with
  | Some v => Ret (v, m)
  | None =>
      match mapping m !! key with
      | Some v => Ret (v, m)
      | None =>
          match mapper m key with
          | Ret mappedKey =>
              Ret (mappedKey,
                   if decide (size (mapping m) < tracingKeyMappingSize)%nat
                   then mkTracingKeysMapping (<[key:=mappedKey]> (mapping m)) (mapper m) else m)
          | Panic => Panic
          | OutOfFuel => OutOfFuel
          end
      end
  end.

(** The cache holds what the mapper gives, and not too much of it. *)
Definition cache_ok (m : tracingKeysMapping) : Prop :=
  map_Forall (λ k v, mapper m k = Ret v) (mapping m) ∧ (size (mapping m) <= tracingKeyMappingSize)%nat.

Lemma mapAndCache_ok key v m :
  cache_ok m → mapper m key = Ret v →
  ∃ m', mapAndCache key m = Ret (v, m') ∧ cache_ok m' ∧ mapper m' = mapper m.
Proof.
  intros [Hm Hs] Hv. unfold mapAndCache. destruct (mapping m !! key) as [v'|] eqn:E.
  { apply Hm in E. exists m. split; [congruence|done]. }
  rewrite Hv. eexists. split; [reflexivity|]. case_decide; [|by split]. split; [|done]. split; cbn.
  - by apply map_Forall_insert_2.
  - rewrite map_size_insert_None by done. lia.
Qed.

(** ** Carriers *)

Notation tracingHeadersCarrier := (gmap bytes bytes).

(** Both caches are shared by all carriers; each method uses one of them. *)
Definition carrier_Set (key val : bytes) (c : tracingHeadersCarrier)
    : GO tracingKeysMapping tracingHeadersCarrier :=
  prefixedKey ← mapAndCache key;
  mret (<[prefixedKey:=val]> c).

(** The calls of the handler that ForeachKey makes, in an order of iteration. *)
Fixpoint ForeachKey (c : list (bytes * bytes)) : GO tracingKeysMapping (list (bytes * bytes)) :=
  match c with
  | [] => mret []
  | (k, v) :: c =>
      if negb (HasPrefix k tracingKeyPrefix) then ForeachKey c
      else
        noPrefixKey ← mapAndCache k;
        l ← ForeachKey c;
        mret ((noPrefixKey, v) :: l)
  end.

Definition RemoveTracingKeys (c : tracingHeadersCarrier) : tracingHeadersCarrier :=
  filter (λ kv, HasPrefix kv.1 tracingKeyPrefix = false) c.

(** ** Injecting and extracting *)

(** A tracer injects by calls of Set. *)
Fixpoint inject (l : list (bytes * bytes)) (c : tracingHeadersCarrier)
    : GO tracingKeysMapping tracingHeadersCarrier :=
  match l with
  | [] => mret c
  | (k, v) :: l => c ← carrier_Set k v c; inject l c
  end.

(** [calls] are the calls of Set the tracer makes; [None] is a response without a
    span.  The headers are added where the tracer has set none. *)
Definition InjectOutboundSpan (calls : option (list (bytes * bytes))) (headers : gmap bytes bytes)
    : GO tracingKeysMapping (gmap bytes bytes) :=
  match calls with
  | None => mret headers
  | Some l =>
      newHeaders ← inject l ∅;
      if decide (size newHeaders = 0%nat) then mret headers else mret (newHeaders ∪ headers)
  end.

(** The effect of ExtractInboundSpan on the headers, and what the tracer reads of
    them. *)
Definition ExtractInboundSpan `{MapRange} (headers : gmap bytes bytes)
    : GO tracingKeysMapping (list (bytes * bytes) * gmap bytes bytes) :=
  l ← ForeachKey (range headers);
  mret (l, RemoveTracingKeys headers).

(** ** What the tracer sees *)

Lemma HasPrefix_app k : HasPrefix (tracingKeyPrefix ++ k) tracingKeyPrefix = true.
Proof. apply bool_decide_eq_true. by eexists. Qed.

Lemma HasPrefix_inv k : HasPrefix k tracingKeyPrefix = true → ∃ k', k = tracingKeyPrefix ++ k'.
Proof. intros [k' ->]%bool_decide_eq_true. by exists k'. Qed.

Lemma inject_spec l c m :
  cache_ok m → mapper m = mapper tracingKeyEncoding →
  ∃ c' m', inject l c m = Ret (c', m') ∧ cache_ok m' ∧ mapper m' = mapper m
  ∧ (∀ k, c' !! (tracingKeyPrefix ++ k) = default (c !! (tracingKeyPrefix ++ k))
                                            (Some <$> (list_to_map (reverse l) : gmap bytes bytes) !! k))
  ∧ ∀ k, HasPrefix k tracingKeyPrefix = false → c' !! k = c !! k.
Proof.
  revert c m. induction l as [|[k v] l IH]; intros c m Hm Hmap; cbn [inject].
  { exists c, m. by split_and!. }
  destruct (mapAndCache_ok k (tracingKeyPrefix ++ k) m Hm) as (m1 & R1 & Hm1 & Hmap1).
  { by rewrite Hmap. }
  destruct (IH (<[tracingKeyPrefix ++ k:=v]> c) m1 Hm1) as (c' & m' & R2 & Hm' & Hmap' & Hin & Hout).
  { congruence. }
  exists c', m'. split.
  { unfold carrier_Set, mbind, gost_bind in *. by rewrite R1. }
  split_and!; [done|congruence| |].
  - intros k'. rewrite Hin, reverse_cons, list_to_map_app.
    destruct ((list_to_map (reverse l) : gmap bytes bytes) !! k') as [v'|] eqn:E.
    + by rewrite (lookup_union_Some_l _ _ _ _ E).
    + rewrite lookup_union_r by done. cbn. destruct (decide (k = k')) as [->|Hne].
      * by rewrite !lookup_insert_eq.
      * rewrite !lookup_insert_ne, lookup_empty; [done|done|]. intros Heq. by apply app_inv_head in Heq.
  - intros k' Hk'. rewrite Hout by done. apply lookup_insert_ne. intros <-.
    by rewrite HasPrefix_app in Hk'.
Qed.

Lemma ForeachKey_spec c m :
  cache_ok m → mapper m = mapper tracingKeyDecoding →
  ∃ l m', ForeachKey c m = Ret (l, m') ∧ cache_ok m' ∧ mapper m' = mapper m
  ∧ ∀ k v, (k, v) ∈ l ↔ (tracingKeyPrefix ++ k, v) ∈ c.
Proof.
  revert m. induction c as [|[k v] c IH]; intros m Hm Hmap; cbn [ForeachKey].
  { exists [], m. split_and!; try done. intros k v. by rewrite !elem_of_nil. }
  destruct (HasPrefix k tracingKeyPrefix) eqn:Hp; cbn [negb].
  - apply HasPrefix_inv in Hp as [k0 ->].
    destruct (mapAndCache_ok (tracingKeyPrefix ++ k0) k0 m Hm) as (m1 & R1 & Hm1 & Hmap1).
    { rewrite Hmap. cbn [mapper tracingKeyDecoding]. rewrite <- (app_nil_r (tracingKeyPrefix ++ k0)).
      rewrite <- app_assoc. apply slice_app; [done|]. rewrite !length_app. simpl length. lia. }
    destruct (IH m1 Hm1) as (l & m' & R2 & Hm' & Hmap' & Hl); [congruence|].
    exists ((k0, v) :: l), m'. split.
    { run_with R1. by run_with R2. }
    split_and!; [done|congruence|]. intros k v'. rewrite !elem_of_cons, Hl.
    split; (intros [Heq|?]; [left|by right]); [by injection Heq as -> ->|].
    by injection Heq as -> ->.
  - destruct (IH m Hm Hmap) as (l & m' & R1 & Hm' & Hmap' & Hl).
    exists l, m'. split_and!; try done. intros k' v'. rewrite Hl, elem_of_cons. split; [by right|].
    intros [Heq|?]; [|done]. apply (f_equal fst) in Heq. cbn [fst] in Heq. by rewrite <- Heq, HasPrefix_app in Hp.
Qed.

Lemma RemoveTracingKeys_lookup c k :
  RemoveTracingKeys c !! k = if HasPrefix k tracingKeyPrefix then None else c !! k.
Proof.
  unfold RemoveTracingKeys. destruct (HasPrefix k tracingKeyPrefix) eqn:Hp.
  - apply map_lookup_filter_None_2. right. intros v _. cbn. by rewrite Hp.
  - destruct (c !! k) as [v|] eqn:E.
    + by apply map_lookup_filter_Some_2.
    + apply map_lookup_filter_None_2. by left.
Qed.

Lemma headers_travel `{MapRange} calls headers enc dec :
  cache_ok enc → mapper enc = mapper tracingKeyEncoding →
  cache_ok dec → mapper dec = mapper tracingKeyDecoding →
  ∃ sent seen enc' dec' headers',
    InjectOutboundSpan calls headers enc = Ret (sent, enc')
    ∧ ExtractInboundSpan sent dec = Ret ((seen, headers'), dec')
    ∧ (∀ k v, (k, v) ∈ seen ↔
        ((list_to_map (reverse (default [] calls)) : gmap bytes bytes) !! k = Some v
         ∨ (list_to_map (reverse (default [] calls)) : gmap bytes bytes) !! k = None
           ∧ headers !! (tracingKeyPrefix ++ k) = Some v))
    ∧ headers' = RemoveTracingKeys headers
    ∧ cache_ok enc' ∧ cache_ok dec'.
Proof.
  intros He Hem Hd Hdm.
  assert (∃ sent enc', InjectOutboundSpan calls headers enc = Ret (sent, enc') ∧ cache_ok enc'
    ∧ (∀ k, sent !! (tracingKeyPrefix ++ k)
        = match (list_to_map (reverse (default [] calls)) : gmap bytes bytes) !! k with
          | Some v => Some v | None => headers !! (tracingKeyPrefix ++ k) end)
    ∧ ∀ k, HasPrefix k tracingKeyPrefix = false → sent !! k = headers !! k)
    as (sent & enc' & R1 & He' & Hin & Hout).
  { destruct calls as [l|]; [|exists headers, enc; split_and!; try done; intros k; by rewrite lookup_empty].
    destruct (inject_spec l ∅ enc He Hem) as (c & enc' & R1 & He' & _ & Hin & Hout).
    unfold InjectOutboundSpan. run_with R1. cbn [from_option id]. case_decide as Hz.
    - apply map_size_empty_inv in Hz as ->. exists headers, enc'. split_and!; try done. intros k.
      specialize (Hin k). rewrite !lookup_empty in Hin. by destruct (list_to_map (reverse l) !! k).
    - exists (c ∪ headers), enc'. split_and!; try done; intros k.
      + destruct (list_to_map (reverse l) !! k) as [v|] eqn:E.
        * apply lookup_union_Some_l. by rewrite Hin, E.
        * apply lookup_union_r. by rewrite Hin, E.
      + intros Hk. apply lookup_union_r. rewrite Hout by done. apply lookup_empty. }
  destruct (ForeachKey_spec (range sent) dec Hd Hdm) as (seen & dec' & R2 & Hd' & _ & Hseen).
  exists sent, seen, enc', dec', (RemoveTracingKeys sent).
  split_and!; [done|unfold ExtractInboundSpan; by run_with R2| | |done|done].
  - intros k v. rewrite Hseen, range_perm, elem_of_map_to_list, Hin.
    destruct (list_to_map _ !! k); naive_solver.
  - apply map_eq. intros k. rewrite !RemoveTracingKeys_lookup.
    destruct (HasPrefix k tracingKeyPrefix) eqn:Hp; [done|by apply Hout].
Qed.

(** C23: the tracer's headers and the application's stay apart.  What the tracer sets
    at one end (the last value of each key) is exactly what the tracer at the other
    end is shown, over any tracing headers that the application forwards itself;
    and the application at the other end sees exactly those of its headers that do
    not carry the tracing prefix.  The caches of key mappings, whatever they
    already hold, never change a key and stay bounded. *)
Theorem tracing_headers_separate `{MapRange} calls headers enc dec :
  cache_ok enc → mapper enc = mapper tracingKeyEncoding →
  cache_ok dec → mapper dec = mapper tracingKeyDecoding →
  ∃ sent seen enc' dec' headers',
    InjectOutboundSpan calls headers enc = Ret (sent, enc')
    ∧ ExtractInboundSpan sent dec = Ret ((seen, headers'), dec')
    ∧ (∀ k v, (k, v) ∈ seen ↔
        ((list_to_map (reverse (default [] calls)) : gmap bytes bytes) !! k = Some v
         ∨ (list_to_map (reverse (default [] calls)) : gmap bytes bytes) !! k = None
           ∧ headers !! (tracingKeyPrefix ++ k) = Some v))
    ∧ headers' = RemoveTracingKeys headers
    ∧ cache_ok enc' ∧ cache_ok dec'.
Proof. apply headers_travel. Qed.

Lemma tracing_headers_separate_witness :
  ∃ sent seen enc' dec',
    InjectOutboundSpan (Some [(str "t", str "1"); (str "t", str "2")]) {[str "k" := str "v"]} tracingKeyEncoding
      = Ret (sent, enc')
    ∧ ExtractInboundSpan (H := storage_range) sent tracingKeyDecoding
      = Ret ((seen, RemoveTracingKeys {[str "k" := str "v"]}), dec').
Proof.
  destruct (tracing_headers_separate (H := storage_range) (Some [(str "t", str "1"); (str "t", str "2")])
    {[str "k" := str "v"]} tracingKeyEncoding tracingKeyDecoding)
    as (sent & seen & enc' & dec' & h & H1 & H2 & _ & -> & _).
  - split; [apply map_Forall_empty|vm_compute; lia].
  - reflexivity.
  - split; [apply map_Forall_empty|vm_compute; lia].
  - reflexivity.
  - exists sent, seen, enc', dec'. split; [exact H1|exact H2].
Defined.
