(* ===== verification/Raw.v ===== *)
(** * Raw calls (raw/call.go, raw/handler.go)

    arg2 and arg3 are plain bytes.  The client writes them and reads the two of the
    response; the handler that [Wrap] makes reads both, calls the user's handler and
    writes the response, an application error or a system error.  The theorem shows
    what a raw call does from end to end, for every answer of the handler. *)

From S2P Require Import Prelude Errors Buffer Checksum Frame Messages Fragment FragmentCorrect Mex ReqRes Headers Calls Context.

Section raw.
Context `{MapRange} (fuel : nat).

(** ** The client *)

Definition ReadArgsV2 `{ArgReadable R} (free2 free3 : list nat) : GO R (bytes * bytes * option error) :=
  err ← Arg2Reader;
  '(arg2, err) ← ArgReadHelper_Read free2 err;
  match err with
  | Some e => mret ([], [], Some e)
  | None =>
      err ← Arg3Reader;
      '(arg3, err) ← ArgReadHelper_Read free3 err;
      match err with Some e => mret ([], [], Some e) | None => mret (arg2, arg3, None) end
  end.

(** An OutboundCall and its response. *)
Record OutboundCall := mkOutboundCall {
  oc_writer : fragmentingWriter reqResWriter;
  oc_response : fragmentingReader reqResReader
}.
Definition onRequest {A} (m : GO (fragmentingWriter reqResWriter) A) : GO OutboundCall A := λ c,
  match m (oc_writer c) with
  | Ret (a, w) => Ret (a, mkOutboundCall w (oc_response c))
  | Panic => Panic
  | OutOfFuel => OutOfFuel
  end.
Definition onResponse {A} (m : GO (fragmentingReader reqResReader) A) : GO OutboundCall A := λ c,
  match m (oc_response c) with
  | Ret (a, r) => Ret (a, mkOutboundCall (oc_writer c) r)
  | Panic => Panic
  | OutOfFuel => OutOfFuel
  end.

(** The two writes of WriteArgs, which come before any reading. *)
Definition WriteArgs_send (arg2 arg3 : bytes) : GO (fragmentingWriter reqResWriter) (option error) :=
  check Some (err ← out_Arg2Writer; ArgWriteHelper_Write err arg2)
    (err ← out_Arg3Writer; ArgWriteHelper_Write err arg3).

Definition WriteArgs (free1 free2 free3 : list nat) (arg2 arg3 : bytes)
    : GO OutboundCall (bytes * bytes * option error) :=
  check (λ e, ([], [], Some e)) (onRequest (WriteArgs_send arg2 arg3))
    (onResponse (ReadArgsV2 (H0 := OutboundCallResponse_readable fuel free1) free2 free3)).

(** CallV2 once the call has begun. *)
Record CRes := mkCRes { cr_Arg2 : bytes; cr_Arg3 : bytes; cr_AppError : bool }.

Definition CallV2 (free1 free2 free3 : list nat) (arg2 arg3 : bytes) : GO OutboundCall (CRes + error) :=
  '(arg2, arg3, err) ← WriteArgs free1 free2 free3 arg2 arg3;
  match err with
  | Some e => mret (inr e)
  | None => c ← gget; mret (inl (mkCRes arg2 arg3 (ApplicationError (fr_receiver (oc_response c)))))
  end.

(** ** The server *)

Record Args := mkArgs {
  Caller : bytes; ar_Format : Format; ar_Method : bytes; ar_Arg2 : bytes; ar_Arg3 : bytes
}.

Record Res := mkRes { SystemErr : option error; IsErr : bool; rs_Arg2 : bytes; rs_Arg3 : bytes }.

(** [headers] and [method] are those of the call. *)
Definition ReadArgs (free2 free3 : list nat) (headers : gmap bytes bytes) (method : bytes)
    : GO (fragmentingReader reqResReader) (Args + error) :=
  '(arg2, arg3, err) ← ReadArgsV2 (H0 := InboundCall_readable fuel) free2 free3;
  mret (match err with
        | Some e => inr e
        | None => inl (mkArgs (default [] (headers !! CallerName)) (default [] (headers !! ArgScheme)) method arg2 arg3)
        end).

Definition WriteResponse (connSend : option error) (resp : Res) : GO InboundCall (option error) :=
  match SystemErr resp with
  | Some e => res_SendSystemError connSend e
  | None =>
      check Some (onWriter (if IsErr resp then SetApplicationError else mret None)) (
      check Some (onWriter (err ← res_Arg2Writer; ArgWriteHelper_Write err (rs_Arg2 resp))) (
      onWriter (err ← res_Arg3Writer; ArgWriteHelper_Write err (rs_Arg3 resp))))
  end.

(** What the wrapped handler hands to OnError, if anything. *)
Definition Wrap (handler : Args → Res + error) (connSend : option error) (free2 free3 : list nat)
    (headers : gmap bytes bytes) (method : bytes) : GO InboundCall (option error) :=
  args ← onReader (ReadArgs free2 free3 headers method);
  match args with
  | inr e => mret (Some e)
  | inl args =>
      let resp := handler args in
      _ ← call_Response;
      WriteResponse connSend (match resp with inr e => mkRes (Some e) false [] [] | inl resp => resp end)
  end.

(** dispatchInbound up to the handler: the method is read first. *)
Definition raw_serve (handler : Args → Res + error) (connSend : option error) (free1 free2 free3 : list nat)
    (headers : gmap bytes bytes) : GO InboundCall (option error) :=
  '(method, err) ← onReader (readMethod fuel free1);
  match err with
  | Some e => mret (Some e)
  | None => Wrap handler connSend free2 free3 headers method
  end.

(** The system error that an answer of the handler turns into. *)
Definition system_error (answer : Res + error) : option error :=
  match answer with inl resp => SystemErr resp | inr e => Some e end.

(** ** From end to end *)

Section specs.
Context (msgs : bool → message) (callID : Z).

Section writing.
Hypothesis (Hfits : ∀ b, message_fits (msgs b)).
Context (c0 : Checksum) (base : list Frame).
Implicit Types w : fragmentingWriter reqResWriter.
Notation idle st := (idle (H0 := G msgs callID Hfits st) c0 base).
Notation sent_all st := (sent_all (H0 := G msgs callID Hfits st) c0 base).

Lemma write_one st st' (last : bool) w args b :
  idle st w args →
  ∃ w', (err ← argWriter last st st'; ArgWriteHelper_Write err b) w = Ret (None, w')
  ∧ (if last then sent_all st' w' (args ++ [b]) else idle st' w' (args ++ [b])).
Proof.
  intros Hw. destruct (write_arg_spec msgs callID Hfits c0 base st st' last w args [ArgWrite b] Hw)
    as (w' & Hrun & Hidle). exists w'. split.
  - rewrite ArgWrite_eq. exact Hrun.
  - assert (Hv : arg_value [ArgWrite b] = b) by (unfold arg_value; simpl; apply app_nil_r).
    rewrite Hv in Hidle. exact Hidle.
Qed.

Lemma WriteArgs_send_spec w m arg2 arg3 :
  idle reqResWriterPreArg2 w [m] →
  ∃ w', WriteArgs_send arg2 arg3 w = Ret (None, w') ∧ sent_all reqResWriterComplete w' [m; arg2; arg3].
Proof.
  intros Hw. destruct (write_one _ reqResWriterPreArg3 false w _ arg2 Hw) as (w1 & R1 & Hw1).
  destruct (write_one _ reqResWriterComplete true w1 _ arg3 Hw1) as (w2 & R2 & Hw2).
  exists w2. split; [|exact Hw2]. unfold WriteArgs_send. by check_with R1.
Qed.
End writing.

Implicit Types r : fragmentingReader reqResReader.
Notation ridle st := (ridle (H0 := RG msgs callID st)).

(** Both readers, once arg2 is the next argument. *)
Lemma ReadArgsV2_spec free2 free3 r arg2 arg3 n :
  ridle reqResReaderPreArg2 r [arg2; arg3] n → (n < fuel)%nat →
  (length arg2 < sum_list free2)%nat → (length arg3 < sum_list free3)%nat →
  ∃ r', ReadArgsV2 (H0 := InboundCall_readable fuel) free2 free3 r = Ret ((arg2, arg3, None), r')
  ∧ receiver_incoming msgs callID reqResReaderComplete (fr_receiver r') false [].
Proof.
  intros Hidle Hn H2 H3.
  destruct (ArgRead_spec msgs callID fuel _ reqResReaderPreArg3 free2 r _ _ n Hidle)
    as (r1 & n1 & R1 & Hidle1 & Hn1); [done..|].
  destruct (ArgRead_last_spec msgs callID fuel free3 r1 _ n1 Hidle1 Hn1 H3) as (r2 & R2 & Hinc).
  exists r2. split; [|done]. unfold ReadArgsV2. run_then R1. by run_then R2.
Qed.

Lemma ReadResponseArgs_spec free1 free2 free3 r arg2 arg3 n :
  ridle reqResReaderPreArg1 r [[]; arg2; arg3] n → (n < fuel)%nat → (0 < sum_list free1)%nat →
  (length arg2 < sum_list free2)%nat → (length arg3 < sum_list free3)%nat →
  ∃ r', ReadArgsV2 (H0 := OutboundCallResponse_readable fuel free1) free2 free3 r = Ret ((arg2, arg3, None), r')
  ∧ receiver_incoming msgs callID reqResReaderComplete (fr_receiver r') false [].
Proof.
  intros Hidle Hn H1 H2 H3.
  destruct (ArgRead_spec msgs callID fuel _ reqResReaderPreArg2 free1 r _ _ n Hidle)
    as (r1 & n1 & R1 & Hidle1 & Hn1); [done..|].
  destruct (ReadArgsV2_spec free2 free3 r1 arg2 arg3 n1 Hidle1 Hn1 H2 H3) as (r2 & R2 & Hinc).
  exists r2. split; [|done]. unfold ReadArgsV2 in *.
  assert (Ropen : res_Arg2Reader fuel free1 r = arg2Reader r1).
  { unfold res_Arg2Reader. by run_then R1. }
  unfold mbind, gost_bind in *. cbn [Arg2Reader OutboundCallResponse_readable InboundCall_readable] in *.
  unfold in_Arg2Reader in R2. rewrite Ropen. exact R2.
Qed.
End specs.

Lemma onRequest_run {A} (m : GO _ A) c a w :
  m (oc_writer c) = Ret (a, w) → onRequest m c = Ret (a, mkOutboundCall w (oc_response c)).
Proof. unfold onRequest. by intros ->. Qed.
Lemma onResponse_run {A} (m : GO _ A) c a r :
  m (oc_response c) = Ret (a, r) → onResponse m c = Ret (a, mkOutboundCall (oc_writer c) r).
Proof. unfold onResponse. by intros ->. Qed.

Section server.
Context (msgs : bool → message) (callID : Z) (t : byte) (w0 : reqResWriter) (ps : checksumPools).
Hypothesis (Hfits : ∀ b, message_fits (msgs b)) (Hready : sender_ready msgs callID reqResWriterPreArg1 w0).

(** The two arguments of a response, after its kind has been set. *)
Lemma response_written success arg2 arg3 :
  let w1 := newFragmentingWriter (result_writer success msgs w0) ps (fresh t) in
  ∃ wb w', (err ← res_Arg2Writer; ArgWriteHelper_Write err arg2) w1 = Ret (None, wb)
  ∧ (err ← res_Arg3Writer; ArgWriteHelper_Write err arg3) wb = Ret (None, w')
  ∧ sent_all (H0 := G (result_msgs success msgs) callID (result_fits _ msgs Hfits) reqResWriterComplete)
      (fresh t) (sendCh w0) w' [[]; arg2; arg3].
Proof.
  intros w1.
  pose proof (writer_idle _ callID t (result_writer success msgs w0) ps (result_fits success msgs Hfits)
    (result_ready success msgs callID _ w0 Hready)) as Hidle.
  rewrite result_sendCh in Hidle. fold w1 in Hidle.
  destruct (write_one _ callID _ _ _ _ reqResWriterPreArg2 false _ _ [] Hidle) as (wa & Ra & Ha).
  destruct (write_one _ callID _ _ _ _ reqResWriterPreArg3 false _ _ arg2 Ha) as (wb & Rb & Hb).
  destruct (write_one _ callID _ _ _ _ reqResWriterComplete true _ _ arg3 Hb) as (wc & Rc & Hc).
  exists wb, wc. split_and!; [|exact Rc|exact Hc].
  assert (Ropen : res_Arg2Writer w1 = arg2Writer wa) by (unfold res_Arg2Writer; by run_then Ra).
  unfold mbind, gost_bind in *. rewrite Ropen. exact Rb.
Qed.

Lemma WriteResponse_spec r errs resp connSend :
  SystemErr resp = None →
  ∃ w', WriteResponse connSend resp (mkInboundCall r (newFragmentingWriter w0 ps (fresh t)) errs)
        = Ret (None, mkInboundCall r w' errs)
  ∧ sent_all (H0 := G (result_msgs (negb (IsErr resp)) msgs) callID (result_fits _ msgs Hfits) reqResWriterComplete)
      (fresh t) (sendCh w0) w' [[]; rs_Arg2 resp; rs_Arg3 resp].
Proof.
  intros Hse. set (success := negb (IsErr resp)).
  destruct (response_written success (rs_Arg2 resp) (rs_Arg3 resp)) as (wb & wc & Rb & Rc & Hc).
  exists wc. split; [|exact Hc]. unfold WriteResponse. rewrite Hse.
  erewrite check_run.
  2: { apply onWriter_run.
       rewrite <- (set_result_run success msgs callID w0 ps (fresh t) Hready).
       unfold success. by destruct (IsErr resp). }
  erewrite check_run by (by apply onWriter_run).
  by apply onWriter_run.
Qed.

Lemma SendSystemError_spec r errs e connSend :
  ∃ c', res_SendSystemError connSend e (mkInboundCall r (newFragmentingWriter w0 ps (fresh t)) errs) = Ret (connSend, c')
  ∧ ic_errors c' = errs ++ [e] ∧ sendCh (fw_sender (ic_writer c')) = sendCh w0.
Proof.
  destruct Hready as (_ & Herr & _). unfold res_SendSystemError. run_step.
  cbn [ic_writer fw_sender newFragmentingWriter]. rewrite Herr.
  assert (∃ s, rw_doneSending (rw_set_state reqResWriterComplete w0) = (tt, s) ∧ sendCh s = sendCh w0)
    as (s & Hs & Hch) by (unfold rw_doneSending; destruct (rw_kind _); by eexists).
  erewrite gost_bind_run.
  2: { apply onWriter_run. unfold onSender. cbn [ic_writer fw_sender newFragmentingWriter]. by rewrite Hs. }
  cbv beta. erewrite gost_bind_run by (by apply onReader_run). cbv beta. run_step.
  eexists. split; [reflexivity|]. by split.
Qed.

(** What a handler answers is what the caller or the connection gets. *)
Lemma Wrap_spec qmsgs r n handler connSend free2 free3 headers method arg2 arg3 :
  let args := mkArgs (default [] (headers !! CallerName)) (default [] (headers !! ArgScheme)) method arg2 arg3 in
  ridle (H0 := RG qmsgs callID reqResReaderPreArg2) r [arg2; arg3] n → (n < fuel)%nat →
  (length arg2 < sum_list free2)%nat → (length arg3 < sum_list free3)%nat →
  let run := Wrap handler connSend free2 free3 headers method
    (mkInboundCall r (newFragmentingWriter w0 ps (fresh t)) []) in
  match handler args with
  | inl (mkRes None isErr rarg2 rarg3) =>
      ∃ c', run = Ret (None, c') ∧ ic_errors c' = []
      ∧ sent_all (H0 := G (result_msgs (negb isErr) msgs) callID (result_fits _ msgs Hfits) reqResWriterComplete)
          (fresh t) (sendCh w0) (ic_writer c') [[]; rarg2; rarg3]
  | inl (mkRes (Some e) _ _ _) | inr e =>
      ∃ c', run = Ret (connSend, c') ∧ ic_errors c' = [e] ∧ sendCh (fw_sender (ic_writer c')) = sendCh w0
  end.
Proof.
  intros args Hidle Hn H2 H3 run.
  destruct (ReadArgsV2_spec qmsgs callID free2 free3 r arg2 arg3 n Hidle Hn H2 H3) as (r1 & R1 & Hinc).
  assert (Rargs : ReadArgs free2 free3 headers method r = Ret (inl args, r1)).
  { unfold ReadArgs. by run_with R1. }
  assert (Hrun : run = WriteResponse connSend
      (match handler args with inr e => mkRes (Some e) false [] [] | inl resp => resp end)
      (mkInboundCall r1 (newFragmentingWriter w0 ps (fresh t)) [])).
  { unfold run, Wrap. erewrite gost_bind_run by (by apply onReader_run). cbv beta iota.
    erewrite gost_bind_run by (apply call_Response_run, Hinc). done. }
  rewrite Hrun. destruct (handler args) as [[[e|] isErr rarg2 rarg3]|e]; cbn [WriteResponse SystemErr].
  - apply SendSystemError_spec.
  - destruct (WriteResponse_spec r1 [] (mkRes None isErr rarg2 rarg3) connSend) as (w' & R & Hsent); [done|].
    by exists (mkInboundCall r1 w' []).
  - apply SendSystemError_spec.
Qed.
End server.

(** A raw call gets its two arguments, the method and the caller's name and format
    to the handler, and the handler's answer back: the two arguments of the
    response and whether it is an application error reach the caller of CallV2,
    and an error, whether it is returned or put into SystemErr, goes to the
    connection as the system error it is, with no response written besides. *)
Theorem raw_call_roundtrip msgs rmsgs callID t t' w0 rw0 ps ps' handler connSend headers method arg2 arg3 m :
  call_ready msgs callID t w0 → call_ready rmsgs callID t' rw0 →
  rmsgs true = mCallRes m → ResponseCode m = responseOK →
  let args := mkArgs (default [] (headers !! CallerName)) (default [] (headers !! ArgScheme)) method arg2 arg3 in
  ∃ w1 w' frames,
    writeMethod method (newFragmentingWriter w0 ps (fresh t)) = Ret (None, w1)
    ∧ WriteArgs_send arg2 arg3 w1 = Ret (None, w')
    ∧ sendCh (fw_sender w') = sendCh w0 ++ frames
    ∧ received_as msgs callID frames (λ r, ∀ free1 free2 free3,
        (length frames < fuel)%nat → (length method < sum_list free1)%nat →
        (length arg2 < sum_list free2)%nat → (length arg3 < sum_list free3)%nat →
        let run := raw_serve handler connSend free1 free2 free3 headers
                     (mkInboundCall r (newFragmentingWriter rw0 ps' (fresh t')) []) in
        match handler args with
        | inl (mkRes None isErr rarg2 rarg3) =>
            ∃ c' rframes, run = Ret (None, c') ∧ ic_errors c' = []
            ∧ sendCh (fw_sender (ic_writer c')) = sendCh rw0 ++ rframes
            ∧ received_as (result_msgs (negb isErr) rmsgs) callID rframes (λ r2, ∀ f1 f2 f3,
                (length rframes < fuel)%nat → (0 < sum_list f1)%nat →
                (length rarg2 < sum_list f2)%nat → (length rarg3 < sum_list f3)%nat →
                ∃ r', CallV2 f1 f2 f3 arg2 arg3 (mkOutboundCall w1 r2)
                      = Ret (inl (mkCRes rarg2 rarg3 isErr), mkOutboundCall w' r'))
        | inl (mkRes (Some e) _ _ _) | inr e =>
            ∃ c', run = Ret (connSend, c') ∧ ic_errors c' = [e]
            ∧ sendCh (fw_sender (ic_writer c')) = sendCh rw0
        end).
Proof.
  intros (Hfits & Hid & Hv & Hne & Hready) (Hrfits & _ & Hv' & Hne' & Hrready) Hres Hcode args.
  destruct (writeMethod_spec msgs callID Hfits (fresh t) (sendCh w0) _ method
    (writer_idle msgs callID t w0 ps Hfits Hready)) as (w1 & R1 & Hidle1).
  destruct (WriteArgs_send_spec msgs callID Hfits (fresh t) (sendCh w0) w1 method arg2 arg3 Hidle1) as (w2 & R2 & Hsent).
  destruct (sent_arrives msgs callID t w0 w2 _ Hfits Hid Hv Hne Hsent) as (frames & Hch & Harr); [done|].
  exists w1, w2, frames. split_and!; [done..|].
  eapply received_impl; [|exact Harr]. intros r Hidle free1 free2 free3 Hfuel Hf1 Hf2 Hf3 run.
  destruct (readMethod_spec msgs callID fuel free1 r _ _ _ Hidle) as (ra & n1 & Q1 & Hi1 & Hn1); [done..|].
  pose proof (Wrap_spec rmsgs callID t' rw0 ps' Hrfits Hrready msgs ra n1 handler connSend free2 free3 headers
    method arg2 arg3 Hi1 Hn1 Hf2 Hf3) as Hwrap.
  assert (Hrun : run = Wrap handler connSend free2 free3 headers method
    (mkInboundCall ra (newFragmentingWriter rw0 ps' (fresh t')) [])).
  { unfold run, raw_serve. erewrite gost_bind_run by (by apply onReader_run). done. }
  rewrite Hrun. fold args in Hwrap. clearbody run args. clear Hrun.
  destruct (handler args) as [[[e|] isErr rarg2 rarg3]|e]; try exact Hwrap.
  destruct Hwrap as (c' & Q2 & He & Hrsent).
  destruct (sent_arrives _ callID t' rw0 _ _ _ Hid Hv' Hne' Hrsent) as (rframes & Hrch & Hrarr); [done|].
  exists c', rframes. split_and!; [done..|].
  eapply received_impl; [|exact Hrarr]. intros r2 Hidle2 f1 f2 f3 Hf Hs1 Hs2 Hs3.
  destruct (ReadResponseArgs_spec (result_msgs (negb isErr) rmsgs) callID f1 f2 f3 r2 rarg2 rarg3 _ Hidle2 Hf Hs1 Hs2 Hs3)
    as (r' & Q3 & Hinc).
  exists r'. unfold CallV2.
  erewrite gost_bind_run.
  2: { unfold WriteArgs. erewrite check_run by (by apply onRequest_run). by apply onResponse_run. }
  cbv beta iota. run_step. cbn [oc_response].
  rewrite (ApplicationError_spec _ callID _ _ (if isErr then responseApplicationError else responseOK) _ Hinc).
  - by destruct isErr.
  - unfold result_msgs. destruct isErr; cbn [negb]; [unfold app_msgs|]; rewrite Hres; cbn; congruence.
Qed.
End raw.

Lemma raw_call_roundtrip_witness :
  ∃ w1 w', writeMethod (H := storage_range) (str "echo")
      (newFragmentingWriter (example_writer writesRequest example_msgs) emptyPools (fresh ChecksumTypeCrc32))
      = Ret (None, w1)
  ∧ WriteArgs_send (H := storage_range) (str "he") (str "llo") w1 = Ret (None, w').
Proof.
  destruct (raw_call_roundtrip (H := storage_range) 100 example_msgs example_res 7 ChecksumTypeCrc32 ChecksumTypeCrc32
    (example_writer writesRequest example_msgs) (example_writer writesResponse example_res) emptyPools emptyPools
    (λ a, inl (mkRes None true (ar_Arg2 a) (ar_Arg3 a))) None ∅ (str "echo") (str "he") (str "llo")
    (mkCallRes 7 x00 (mkSpan 1 0 1 x00) (<[CallerName := str "me"]> ∅)))
    as (w1 & w' & frames & H1 & H2 & _).
  - apply example_ready. left. reflexivity.
  - apply example_ready. right. reflexivity.
  - reflexivity.
  - reflexivity.
  - exists w1, w'. split; [exact H1|exact H2].
Defined.
