(* ===== verification/Json.v ===== *)
(** * JSON calls (json/call.go, json/handler.go, ReadJSON and WriteJSON of arguments.go)

    arg2 holds the application headers and arg3 the argument or the result, as JSON
    text with a newline.  ReadJSON puts a bufio.Reader and a json.Decoder in front
    of the argument: both are modelled as far as they decide which bytes of the
    argument are consumed.  The grammar of JSON, Marshal and Unmarshal are
    parameters.  The theorems show that a call and its result make the round trip
    for texts shorter than the buffer of bufio, and that a JSON object whose text is
    exactly as long as that buffer is refused, because its newline is left over. *)

From S2P Require Import Prelude Errors Buffer Checksum Frame Messages Fragment FragmentCorrect Mex ReqRes SystemErrors Headers Calls Tracing Raw.

(** ** bufio.Reader *)

Definition bufSize : nat := 4096.
Definition errNoProgress : error := otherError (str "multiple Read calls return no data or error").

Record bufReader (R : Type) := mkBufReader { br_rd : R; br_buf : bytes; br_err : option error }.
Arguments mkBufReader {R}. Arguments br_rd {R}. Arguments br_buf {R}. Arguments br_err {R}.

Section bufio.
Context `{ioReader R}.

Definition br_read (n : nat) : GO (bufReader R) (bytes * option error) := λ b,
  match io_Read n (br_rd b) with
  | Ret (res, r) => Ret (res, mkBufReader r (br_buf b) (br_err b))
  | Panic => Panic
  | OutOfFuel => OutOfFuel
  end.

(** fill, when nothing is buffered. *)
Fixpoint fill (tries : nat) : GO (bufReader R) unit :=
  match tries with
  | O => gmodify (λ b, mkBufReader (br_rd b) (br_buf b) (Some errNoProgress))
  | S tries =>
      '(d, err) ← br_read bufSize;
      _ ← gmodify (λ b, mkBufReader (br_rd b) (br_buf b ++ d) (br_err b));
      match err with
      | Some e => gmodify (λ b, mkBufReader (br_rd b) (br_buf b) (Some e))
      | None => if decide (0 < length d)%nat then mret tt else fill tries
      end
  end.

Definition readErr : GO (bufReader R) (option error) :=
  b ← gget; _ ← gmodify (λ b, mkBufReader (br_rd b) (br_buf b) None); mret (br_err b).

(** The error of Peek(1) on a new reader. *)
Definition Peek1 : GO (bufReader R) (option error) :=
  _ ← fill 100;
  b ← gget;
  if decide (0 < length (br_buf b))%nat then mret None else readErr.

(** Read(p) with n = len(p) > 0. *)
Definition buf_Read (n : nat) : GO (bufReader R) (bytes * option error) :=
  b ← gget;
  let copy : GO (bufReader R) (bytes * option error) :=
    b ← gget;
    _ ← gmodify (λ b, mkBufReader (br_rd b) (drop n (br_buf b)) (br_err b));
    mret (take n (br_buf b), None) in
  if decide (br_buf b = []) then
    match br_err b with
    | Some _ => e ← readErr; mret ([], e)
    | None =>
        if decide (bufSize <= n)%nat then br_read n
        else
          '(d, err) ← br_read bufSize;
          _ ← gmodify (λ b, mkBufReader (br_rd b) d err);
          if decide (d = []) then e ← readErr; mret ([], e) else copy
    end
  else copy.
End bufio.

(** ** json.Decoder and ReadJSON *)

(** Looking for a value at the start of some bytes: it is complete and takes n of
    them, more bytes are needed, or there is none. *)
Inductive scanResult := scanValue (n : nat) | scanMore | scanError (e : error).

Section json.
Context `{MapRange} (fuel : nat).
(** The scanner, and whether a value is complete when the input ends. *)
Context (scan : bytes → scanResult) (scanEnd : bytes → bool).

Definition minRead : nat := 512.

Definition isSpace (c : byte) : bool := bool_decide (c ∈ [x20; x09; x0d; x0a]).
Definition nonSpace (b : bytes) : bool := existsb (λ c, negb (isSpace c)) b.

Section decoder.
Context `{ioReader R}.

(** readValue of a new Decoder: the text of the value.  [buf] is what has been read,
    [cap] the capacity of the buffer, [err] the error of the last read. *)
Fixpoint readValue (tries : nat) (buf : bytes) (cap : nat) (err : option error)
    : GO (bufReader R) (bytes + error) :=
  match scan buf with
  | scanValue n => mret (inl (take n buf))
  | scanError e => mret (inr e)
  | scanMore =>
      match err with
      | Some e =>
          if decide (e = (io_EOF : error)) then
            if scanEnd buf then mret (inl buf)
            else mret (inr (if nonSpace buf then (io_ErrUnexpectedEOF : error) else e))
          else mret (inr e)
      | None =>
          match tries with
          | O => λ _, OutOfFuel
          | S tries =>
              let cap := if decide (cap - length buf < minRead)%nat then (2 * cap + minRead)%nat else cap in
              '(d, err) ← buf_Read (cap - length buf);
              readValue tries (buf ++ d) cap err
          end
      end
  end.

(** The function that ReadJSON hands to [read]: the value, or None when the argument
    is empty and the destination is left alone. *)
Definition decode {T} (Unmarshal : bytes → T + error) (tries : nat) : GO R (option T * option error) := λ r,
  match (err ← Peek1;
         match err with
         | Some e => if decide (e = (io_EOF : error)) then mret (None, None) else mret (None, Some e)
         | None =>
             v ← readValue tries [] 0 None;
             mret (match v with
                   | inr e => (None, Some e)
                   | inl text => match Unmarshal text with inl t => (Some t, None) | inr e => (None, Some e) end
                   end)
         end) (mkBufReader r [] None) with
  | Ret (res, b) => Ret (res, br_rd b)
  | Panic => Panic
  | OutOfFuel => OutOfFuel
  end.

Definition ReadJSON `{ioCloser R} {T} (Unmarshal : bytes → T + error) (tries : nat) (err : option error)
    : GO R (option T * option error) :=
  ArgReadHelper_read err None (decode Unmarshal tries).
End decoder.

Definition newline : byte := x0a.

(** Encode writes the text and a newline at once. *)
Definition WriteJSON `{ioWriter W, ioCloser W} (text : bytes + error) (argErr : option error) : GO W (option error) :=
  match argErr with
  | Some e => mret (Some e)
  | None =>
      match text with
      | inr e => mret (Some e)
      | inl b =>
          '(_, err) ← io_Write (b ++ [newline]);
          match err with Some e => mret (Some e) | None => io_Close end
      end
  end.
(** ** The client and the handler *)

(** Headers: [None] is the nil map. *)
Definition Headers : Type := option (gmap bytes bytes).

(** [A] is the type of the argument, [T] that of the result, [E] the decoded body of an
    application error; [MarshalError] makes the body of an error from its text. *)
Context {A T E : Type} (zero : A).
Context (MarshalHeaders : Headers → bytes + error) (UnmarshalHeaders : bytes → Headers + error)
  (UnmarshalArg : bytes → A + error) (MarshalRes : T → bytes + error) (UnmarshalRes : bytes → T + error)
  (MarshalError : bytes → bytes + error) (UnmarshalError : bytes → E + error).
(** The reads of the decoder that suffice. *)
Context (reads : nat).

#[local] Existing Instance argReader_ioReader.

Definition read_json {X} (Unmarshal : bytes → X + error) (err : option error)
    : GO (fragmentingReader reqResReader) (option X * option error) :=
  ReadJSON (H0 := argReader_ioReader fuel) Unmarshal reads err.

(** makeCall; [headers] are those after the span was injected.  The result is isOK,
    errAt and err, then what the response headers, arg3Out and errorOut were set
    to. *)
Definition callResult : Type := (bool * bytes * option error) * option Headers * option T * option E.

Definition makeCall_send (headers : Headers) (arg3In : bytes + error)
    : GO (fragmentingWriter reqResWriter) (bytes * option error) :=
  check (λ e, (str "arg2 write failed", Some e)) (err ← out_Arg2Writer; WriteJSON (MarshalHeaders headers) err) (
  check (λ e, (str "arg3 write failed", Some e)) (err ← out_Arg3Writer; WriteJSON arg3In err) (
  mret ([], None))).

Definition makeCall_receive (free : list nat) : GO (fragmentingReader reqResReader) callResult :=
  err ← res_Arg2Reader fuel free;
  '(h, err) ← read_json UnmarshalHeaders err;
  match err with
  | Some e => mret (false, str "arg2 read failed", Some e, h, None, None)
  | None =>
      r ← gget;
      if ApplicationError (fr_receiver r) then
        err ← res_Arg3Reader;
        '(x, err) ← read_json UnmarshalError err;
        match err with
        | Some e => mret (false, str "arg3 read error failed", Some e, h, None, x)
        | None => mret (false, [], None, h, None, x)
        end
      else
        err ← res_Arg3Reader;
        '(x, err) ← read_json UnmarshalRes err;
        match err with
        | Some e => mret (false, str "arg3 read failed", Some e, h, x, None)
        | None => mret (true, [], None, h, x, None)
        end
  end.

Definition makeCall (free : list nat) (headers : Headers) (arg3In : bytes + error) : GO OutboundCall callResult :=
  '(errAt, err) ← onRequest (makeCall_send headers arg3In);
  match err with
  | Some e => mret (false, errAt, Some e, None, None, None)
  | None => onResponse (makeCall_receive free)
  end.

(** wrapCall: its error, where an application error is the decoded body, the result and
    the headers that SetResponseHeaders gets. *)
Inductive callError := callFailed (e : error) | ErrApplication (body : option E).

Definition wrapCall (free : list nat) (headers : Headers) (arg3In : bytes + error)
    : GO OutboundCall (option callError * option T * option Headers) :=
  '(isOK, errAt, err, respHeaders, resp, respErr) ← makeCall free headers arg3In;
  match err with
  | Some e => mret (Some (callFailed (otherError (errAt ++ str ": " ++ Error e))), resp, None)
  | None =>
      if isOK : bool then mret (None, resp, Some (default None respHeaders))
      else mret (Some (ErrApplication respErr), resp, None)
  end.

Definition isSystemError (e : error) : bool := match e with SystemError _ _ _ => true | _ => false end.

(** The end of Handle: the two arguments of the response. *)
Definition respond (respHeaders : Headers) (res : bytes + error) : GO InboundCall (option error) :=
  _ ← call_Response;
  check Some (onWriter (err ← res_Arg2Writer; WriteJSON (MarshalHeaders respHeaders) err)) (
  _ ← call_Response;
  onWriter (err ← res_Arg3Writer; WriteJSON res err)).

(** handler.Handle.  The user's function gives a result or an error, and the response
    headers it has set. *)
Definition json_Handle (user : Headers → A → (T + error) * Headers) (connSend : option error)
    : GO InboundCall (option error) :=
  '(headers, err) ← onReader (err ← in_Arg2Reader; read_json UnmarshalHeaders err);
  match err with
  | Some e => mret (Some (otherError (str "arg2 read failed: " ++ Error e)))
  | None =>
      '(arg3, err) ← onReader (err ← in_Arg3Reader; read_json UnmarshalArg err);
      match err with
      | Some e => mret (Some (otherError (str "arg3 read failed: " ++ Error e)))
      | None =>
          let '(result, respHeaders) := user (RemoveTracingKeys <$> default None headers) (default zero arg3) in
          match result with
          | inr e =>
              if isSystemError e then _ ← call_Response; res_SendSystemError connSend e
              else
                _ ← call_Response;
                _ ← onWriter SetApplicationError;
                respond respHeaders (MarshalError (Error e))
          | inl res => respond respHeaders (MarshalRes res)
          end
      end
  end.

(** Register: the handler of a method is looked up when a call comes in; [None] goes to
    onError. *)
Definition json_serve (handlers : gmap bytes (Headers → A → (T + error) * Headers)) (connSend : option error)
    (free : list nat) : GO InboundCall (option error) :=
  '(method, err) ← onReader (readMethod fuel free);
  match err with
  | Some e => mret (Some e)
  | None =>
      match handlers !! method with
      | None => mret (Some (otherError (str "call for unregistered method: " ++ method)))
      | Some user => json_Handle user connSend
      end
  end.

(** ** Reading a text back *)

(** What the scanner does on a text [b] that Marshal made: no value before its end;
    at its end the value of an object or an array is complete, for others it takes
    one byte more. *)
Definition json_text (b : bytes) : Prop :=
  (∀ p, p `prefix_of` b → p ≠ b → scan p = scanMore)
  ∧ (scan b = scanMore ∨ scan b = scanValue (length b))
  ∧ scan (b ++ [newline]) = scanValue (length b).

Lemma json_text_prefix b p : json_text b → p `prefix_of` b ++ [newline] →
  scan p = scanMore ∨ (scan p = scanValue (length b) ∧ b `prefix_of` p).
Proof.
  intros (H1 & H2 & H3) [k Hk].
  assert (p `prefix_of` b ∨ p = b ++ [newline]) as [Hp| ->].
  { destruct k as [|x k _] using rev_ind; [right; by rewrite app_nil_r in Hk|left].
    rewrite app_assoc in Hk. apply app_inj_tail in Hk as [-> _]. by exists k. }
  - destruct (decide (p = b)) as [->|Hne]; [|left; by apply H1].
    destruct H2 as [H2|H2]; [by left|right]. by split.
  - right. split; [done|]. by eexists.
Qed.

Section buffered.
Context {R : Type} {HR : ioReader R}.

(** A value that is complete within the buffered bytes is decoded from them. *)
Lemma readValue_buffered b (r : R) e :
  json_text b → ∀ tries buf d cap,
  buf ++ d `prefix_of` b ++ [newline] → scan (buf ++ d) = scanValue (length b) →
  (length d < tries)%nat → (length buf <= cap)%nat →
  ∃ d' e', readValue tries buf cap None (mkBufReader r d e) = Ret (inl b, mkBufReader r d' e').
Proof.
  intros Hb tries. induction tries as [|tries IH]; intros buf d cap Hpre Hval Ht Hcap; [lia|].
  cbn [readValue].
  destruct (json_text_prefix b buf Hb) as [Hs|[Hs [k ->]]]; [by eapply prefix_app_l|rewrite Hs|rewrite Hs].
  2: { exists d, e. by rewrite take_app_length. }
  set (cap' := if decide _ then _ else _).
  assert (Hcap' : (length buf < cap')%nat).
  { unfold cap', minRead. case_decide; lia. }
  assert (Hd : d ≠ []) by (intros ->; rewrite app_nil_r in Hval; congruence).
  unfold buf_Read. unfold mbind at 1, gost_bind at 1. run_step. cbn [br_buf].
  rewrite decide_False by done. run_step. run_step. cbn [mret gost_ret br_rd br_buf br_err].
  destruct (IH (buf ++ take (cap' - length buf) d) (drop (cap' - length buf) d) cap') as (d' & e' & HR').
  - by rewrite <- app_assoc, take_drop.
  - by rewrite <- app_assoc, take_drop.
  - rewrite length_drop. destruct d; simpl in *; [done|lia].
  - rewrite length_app, length_take. lia.
  - exists d', e'. exact HR'.
Qed.
End buffered.

Section args.
Context (msgs : bool → message) (callID : Z).
Implicit Types r : fragmentingReader reqResReader.
Notation arg_contains := (arg_contains msgs callID fuel).

Lemma arg_Read st sr more n d r :
  arg_contains st sr more d r →
  ∃ r', reader_Read fuel n r
    = Ret ((take n d, if decide (n <= length d)%nat then None else Some (io_EOF : error)), r')
  ∧ arg_contains st sr more (drop n d) r'.
Proof.
  intros (rest & Hinv & Hun & Hf & Hs & Hr).
  destruct (Read_spec (H0 := RG msgs callID st) fuel n r rest d more Hinv Hun Hf)
    as (r1 & rest1 & H1 & Hinv1 & Hun1 & Hs1 & Hl1 & _); [by rewrite Hs|].
  exists r1. split; [done|]. exists rest1. split_and!; try done; [lia|by rewrite Hs1].
Qed.

(** decode takes a whole buffer from the argument, and no more when the value is
    complete in it. *)
Lemma decode_spec {X} (Unmarshal : bytes → X + error) st sr more b t r tries :
  json_text b → Unmarshal b = inl t → (bufSize < tries)%nat →
  (length b < bufSize)%nat ∨ (length b = bufSize ∧ scan b = scanValue (length b)) →
  arg_contains st sr more (b ++ [newline]) r →
  ∃ r', decode (H0 := argReader_ioReader fuel) Unmarshal tries r = Ret ((Some t, None), r')
  ∧ arg_contains st sr more (drop bufSize (b ++ [newline])) r'.
Proof.
  intros Hb HU Ht Hlen Hr.
  destruct (arg_Read st sr more bufSize _ r Hr) as (r1 & R1 & Hr1).
  assert (Hpos : (0 < length (take bufSize (b ++ [newline])))%nat).
  { rewrite length_take, length_app. change (length [newline]) with 1%nat. unfold bufSize. lia. }
  assert (∃ e, Peek1 (H := argReader_ioReader fuel) (mkBufReader r [] None)
    = Ret (None, mkBufReader r1 (take bufSize (b ++ [newline])) e)) as [e HP].
  { assert (Hbr : br_read (H := argReader_ioReader fuel) bufSize (mkBufReader r [] None)
      = Ret ((take bufSize (b ++ [newline]),
              if decide (bufSize <= length (b ++ [newline]))%nat then None else Some (io_EOF : error)),
             mkBufReader r1 [] None)).
    { unfold br_read. cbn [io_Read argReader_ioReader br_rd]. by rewrite R1. }
    assert (∃ e, fill (H := argReader_ioReader fuel) 100 (mkBufReader r [] None)
      = Ret (tt, mkBufReader r1 (take bufSize (b ++ [newline])) e)) as [e Hfill].
    { cbn [fill]. run_with Hbr. run_step. cbn [br_rd br_buf br_err app]. case_decide.
      - rewrite decide_True by done. by eexists.
      - by eexists. }
    exists e. unfold Peek1. run_with Hfill. run_step. cbn [br_buf]. by rewrite decide_True by done. }
  destruct (readValue_buffered (HR := argReader_ioReader fuel) b r1 e Hb tries []
    (take bufSize (b ++ [newline])) 0) as (d' & e' & HV).
  - by apply prefix_take.
  - cbn [app]. destruct Hlen as [Hlen|[Hlen Hv]].
    + rewrite take_ge by (rewrite length_app; change (length [newline]) with 1%nat; lia). apply Hb.
    + by rewrite <- Hlen, take_app_length.
  - rewrite length_take. lia.
  - done.
  - exists r1. split; [|done]. unfold decode. run_with HP. run_with HV. cbn [br_rd]. by rewrite HU.
Qed.

(** A text that fits into the buffer with its newline is read with nothing left. *)
Lemma decode_all {X} (Unmarshal : bytes → X + error) st sr more b t r :
  json_text b → Unmarshal b = inl t → (bufSize < reads)%nat → (length b < bufSize)%nat →
  arg_contains st sr more (b ++ [newline]) r →
  ∃ r', decode (H0 := argReader_ioReader fuel) Unmarshal reads r = Ret ((Some t, None), r')
  ∧ arg_contains st sr more [] r'.
Proof.
  intros Hb HU Ht Hlen Hr.
  destruct (decode_spec Unmarshal st sr more b t r reads Hb HU Ht (or_introl Hlen) Hr) as (r' & HR & Hr').
  exists r'. split; [done|]. rewrite drop_ge in Hr'; [done|].
  rewrite length_app. change (length [newline]) with 1%nat. lia.
Qed.

Notation ridle st := (ridle (H0 := RG msgs callID st)).

Lemma read_json_spec {X} (Unmarshal : bytes → X + error) st st' r b v args n :
  json_text b → Unmarshal b = inl v → (bufSize < reads)%nat → (length b < bufSize)%nat →
  ridle st r ((b ++ [newline]) :: args) n → args ≠ [] → (n < fuel)%nat →
  ∃ r' n' l, (err ← argReader false st st'; read_json Unmarshal err) r = Ret ((Some v, None), r')
  ∧ ridle st' r' args n' ∧ (n' < fuel)%nat ∧ receiver_incoming msgs callID st' (fr_receiver r') false l.
Proof.
  intros Hb HU Ht Hlen Hidle Hne Hn.
  destruct (read_through msgs callID fuel st st' (decode (H0 := argReader_ioReader fuel) Unmarshal reads) (Some v, None) r _ _ n (str "read arg") Hidle)
    as (ra & rb & rc & rd & n' & l & Ra & Rb & Rc & Rd & Hidle' & Hn' & Hinc); [done|done|by intros; eapply decode_all|].
  exists rd, n', l. split_and!; try done. run_with Ra. unfold read_json, ReadJSON, ArgReadHelper_read.
  run_with Rb. run_with Rc. cbn [io_Close argReader_ioCloser]. by run_with Rd.
Qed.

Lemma read_json_last {X} (Unmarshal : bytes → X + error) r b v n :
  json_text b → Unmarshal b = inl v → (bufSize < reads)%nat → (length b < bufSize)%nat →
  ridle reqResReaderPreArg3 r [b ++ [newline]] n → (n < fuel)%nat →
  ∃ r', (err ← arg3Reader; read_json Unmarshal err) r = Ret ((Some v, None), r')
  ∧ receiver_incoming msgs callID reqResReaderComplete (fr_receiver r') false [].
Proof.
  intros Hb HU Ht Hlen Hidle Hn.
  destruct (read_through_last msgs callID fuel (decode (H0 := argReader_ioReader fuel) Unmarshal reads) (Some v, None) r _ n (str "read arg") Hidle Hn)
    as (ra & rb & rc & rd & Ra & Rb & Rc & Rd & Hinc); [by intros; eapply decode_all|].
  exists rd. split; [|done]. run_with Ra. unfold read_json, ReadJSON, ArgReadHelper_read.
  run_with Rb. run_with Rc. cbn [io_Close argReader_ioCloser]. by run_with Rd.
Qed.

(** An object as long as the buffer: its newline is left in the argument. *)
Lemma read_json_left {X} (Unmarshal : bytes → X + error) r b v n :
  json_text b → Unmarshal b = inl v → (bufSize < reads)%nat →
  length b = bufSize → scan b = scanValue (length b) →
  ridle reqResReaderPreArg3 r [b ++ [newline]] n → (n < fuel)%nat →
  ∃ r', (err ← arg3Reader; read_json Unmarshal err) r
    = Ret ((Some v, Some (otherError (str "found unexpected bytes after read arg, found (upto 128 bytes): 0a"))), r').
Proof.
  intros Hb HU Ht Hlen Hv Hidle Hn.
  destruct (argReader_spec msgs callID _ reqResReaderComplete true r _ n Hidle) as (ra & rest & Ra & Hinv & Hun & Hl & Hs).
  assert (Hr : arg_contains reqResReaderComplete fragmentingReadInLastArgument [] (b ++ [newline]) ra).
  { exists rest. split_and!; try done. lia. }
  destruct (decode_spec Unmarshal _ _ _ b v ra reads Hb HU Ht (or_intror (conj Hlen Hv)) Hr) as (rb & Rb & Hrb).
  rewrite <- Hlen, drop_app_length in Hrb.
  destruct (arg_Read _ _ _ 128 _ rb Hrb) as (rc & Rc & _).
  exists rc. unfold arg3Reader. run_with Ra. unfold read_json, ReadJSON, ArgReadHelper_read. run_with Rb.
  unfold EnsureEmpty. cbn [io_Read argReader_ioReader].
  erewrite gost_bind_run; [|erewrite gost_bind_run by exact Rc; cbv beta iota; rewrite decide_True by (simpl; lia); reflexivity].
  reflexivity.
Qed.
End args.

(** ** From end to end *)

(** [text] is what Marshal made of a value, it reads back as [v] and fits. *)
Definition carries {X} (Unmarshal : bytes → X + error) (text : bytes + error) (v : X) : Prop :=
  ∃ b, text = inl b ∧ json_text b ∧ (length b < bufSize)%nat ∧ Unmarshal b = inl v.

Lemma WriteJSON_eq b err :
  WriteJSON (W := fragmentingWriter reqResWriter) (inl b) err = ArgWriteHelper_Write err (b ++ [newline]).
Proof. by destruct err. Qed.

Lemma bind_WriteJSON open b w :
  (err ← open; WriteJSON (W := fragmentingWriter reqResWriter) (inl b) err) w
  = (err ← open; ArgWriteHelper_Write err (b ++ [newline])) w.
Proof. unfold mbind, gost_bind. destruct (open w) as [[err w1]| |]; [|done..]. by rewrite WriteJSON_eq. Qed.

Section ends.
Context (msgs : bool → message) (callID : Z) (Hreads : (bufSize < reads)%nat).

Lemma makeCall_send_spec (Hfits : ∀ b, message_fits (msgs b)) c0 base w m headers bh arg3 :
  MarshalHeaders headers = inl bh →
  idle (H0 := G msgs callID Hfits reqResWriterPreArg2) c0 base w [m] →
  ∃ w', makeCall_send headers (inl arg3) w = Ret (([], None), w')
  ∧ sent_all (H0 := G msgs callID Hfits reqResWriterComplete) c0 base w' [m; bh ++ [newline]; arg3 ++ [newline]].
Proof.
  intros HM Hw.
  destruct (write_one msgs callID Hfits c0 base _ reqResWriterPreArg3 false w _ (bh ++ [newline]) Hw) as (w1 & R1 & Hw1).
  destruct (write_one msgs callID Hfits c0 base _ reqResWriterComplete true w1 _ (arg3 ++ [newline]) Hw1) as (w2 & R2 & Hw2).
  exists w2. split; [|exact Hw2]. unfold makeCall_send. rewrite HM.
  erewrite check_run by (rewrite bind_WriteJSON; exact R1).
  by erewrite check_run by (rewrite bind_WriteJSON; exact R2).
Qed.

Lemma makeCall_receive_spec free r headers bh code (result : T + E) br n :
  json_text bh → (length bh < bufSize)%nat → UnmarshalHeaders bh = inl headers →
  json_text br → (length br < bufSize)%nat →
  match result with
  | inl v => UnmarshalRes br = inl v ∧ code ≠ responseApplicationError
  | inr x => UnmarshalError br = inl x ∧ code = responseApplicationError
  end →
  code_of (msgs true) = Some code →
  ridle (H0 := RG msgs callID reqResReaderPreArg1) r [[]; bh ++ [newline]; br ++ [newline]] n →
  (n < fuel)%nat → (0 < sum_list free)%nat →
  ∃ r', makeCall_receive free r
    = Ret (match result with
           | inl v => (true, [], None, Some headers, Some v, None)
           | inr x => (false, [], None, Some headers, None, Some x)
           end, r').
Proof.
  intros Hbh Hlh HUh Hbr Hlr Hres Hcode Hidle Hn Hfree.
  destruct (ArgRead_spec msgs callID fuel _ reqResReaderPreArg2 free r _ _ n Hidle)
    as (r1 & n1 & R1 & Hidle1 & Hn1); [done..|].
  destruct (read_json_spec msgs callID UnmarshalHeaders _ reqResReaderPreArg3 r1 bh headers _ n1 Hbh HUh Hreads Hlh Hidle1)
    as (r2 & n2 & l & R2 & Hidle2 & Hn2 & Hinc); [done..|].
  assert (Rarg2 : (err ← res_Arg2Reader fuel free; read_json UnmarshalHeaders err) r = Ret ((Some headers, None), r2)).
  { assert (Ropen : res_Arg2Reader fuel free r = arg2Reader r1) by (unfold res_Arg2Reader; by run_then R1).
    unfold mbind, gost_bind in *. rewrite Ropen. exact R2. }
  unfold makeCall_receive. run_then Rarg2. run_step.
  rewrite (ApplicationError_spec msgs callID _ _ _ _ Hinc Hcode).
  destruct result as [v|x], Hres as [HU Hc].
  - rewrite bool_decide_eq_false_2 by done.
    destruct (read_json_last msgs callID UnmarshalRes r2 br v n2 Hbr HU Hreads Hlr Hidle2 Hn2) as (r3 & R3 & _).
    exists r3. by run_then R3.
  - rewrite bool_decide_eq_true_2 by done.
    destruct (read_json_last msgs callID UnmarshalError r2 br x n2 Hbr HU Hreads Hlr Hidle2 Hn2) as (r3 & R3 & _).
    exists r3. by run_then R3.
Qed.
End ends.

Section server.
Context (msgs : bool → message) (callID : Z) (t : byte) (w0 : reqResWriter) (ps : checksumPools).
Hypothesis (Hfits : ∀ b, message_fits (msgs b)) (Hready : sender_ready msgs callID reqResWriterPreArg1 w0).
Hypothesis (Hreads : (bufSize < reads)%nat).

Lemma respond_spec success r errs rheaders bh br :
  MarshalHeaders rheaders = inl bh → rr_err (fr_receiver r) = None →
  ∃ w', respond rheaders (inl br)
          (mkInboundCall r (newFragmentingWriter (result_writer success msgs w0) ps (fresh t)) errs)
        = Ret (None, mkInboundCall r w' errs)
  ∧ sent_all (H0 := G (result_msgs success msgs) callID (result_fits _ msgs Hfits) reqResWriterComplete)
      (fresh t) (sendCh w0) w' [[]; bh ++ [newline]; br ++ [newline]].
Proof.
  intros HM Hr.
  destruct (response_written msgs callID t w0 ps Hfits Hready success (bh ++ [newline]) (br ++ [newline]))
    as (wb & wc & Rb & Rc & Hc).
  exists wc. split; [|exact Hc]. unfold respond. rewrite HM.
  erewrite gost_bind_run by (by apply call_Response_run). cbv beta.
  erewrite check_run by (apply onWriter_run; rewrite bind_WriteJSON; exact Rb).
  erewrite gost_bind_run by (by apply call_Response_run). cbv beta.
  apply (onWriter_run _ (mkInboundCall r wb errs)). rewrite bind_WriteJSON. exact Rc.
Qed.

(** The request is read, the user's function is called, and its answer is sent. *)
Lemma json_Handle_spec qmsgs r n user connSend headers bh a ba result rheaders brh br :
  json_text bh → (length bh < bufSize)%nat → UnmarshalHeaders bh = inl headers →
  json_text ba → (length ba < bufSize)%nat → UnmarshalArg ba = inl a →
  user (RemoveTracingKeys <$> headers) a = (result, rheaders) → MarshalHeaders rheaders = inl brh →
  match result with
  | inl res => MarshalRes res = inl br
  | inr e => isSystemError e = false → MarshalError (Error e) = inl br
  end →
  ridle (H0 := RG qmsgs callID reqResReaderPreArg2) r [bh ++ [newline]; ba ++ [newline]] n → (n < fuel)%nat →
  let run := json_Handle user connSend (mkInboundCall r (newFragmentingWriter w0 ps (fresh t)) []) in
  let answered (success : bool) :=
    ∃ c', run = Ret (None, c') ∧ ic_errors c' = []
    ∧ sent_all (H0 := G (result_msgs success msgs) callID (result_fits _ msgs Hfits) reqResWriterComplete)
        (fresh t) (sendCh w0) (ic_writer c') [[]; brh ++ [newline]; br ++ [newline]] in
  match result with
  | inl _ => answered true
  | inr e =>
      if isSystemError e
      then ∃ c', run = Ret (connSend, c') ∧ ic_errors c' = [e] ∧ sendCh (fw_sender (ic_writer c')) = sendCh w0
      else answered false
  end.
Proof.
  intros Hbh Hlh HUh Hba Hla HUa Huser HMh Hres Hidle Hn run answered.
  destruct (read_json_spec qmsgs callID UnmarshalHeaders _ reqResReaderPreArg3 r bh headers _ n Hbh HUh Hreads Hlh Hidle)
    as (r1 & n1 & l & R1 & Hidle1 & Hn1 & _); [done..|].
  destruct (read_json_last qmsgs callID UnmarshalArg r1 ba a n1 Hba HUa Hreads Hla Hidle1 Hn1) as (r2 & R2 & Hinc).
  assert (Herr : rr_err (fr_receiver r2) = None) by apply Hinc.
  pose (c1 := mkInboundCall r2 (newFragmentingWriter w0 ps (fresh t)) []).
  assert (Hans : ∀ success, run = respond rheaders (inl br)
      (mkInboundCall r2 (newFragmentingWriter (result_writer success msgs w0) ps (fresh t)) []) → answered success).
  { intros success Hr. destruct (respond_spec success r2 [] rheaders brh br HMh Herr) as (w' & Rw & Hs).
    exists (mkInboundCall r2 w' []). rewrite Hr. by split_and!. }
  assert (Hrun : run = match result with
    | inl res => respond rheaders (MarshalRes res) c1
    | inr e => if isSystemError e then (_ ← call_Response; res_SendSystemError connSend e) c1
               else (_ ← call_Response; _ ← onWriter SetApplicationError; respond rheaders (MarshalError (Error e))) c1
    end).
  { unfold run, json_Handle. erewrite gost_bind_run by (by apply onReader_run). cbv beta iota.
    erewrite gost_bind_run by (by apply onReader_run). cbv beta iota. cbn [default from_option id].
    rewrite Huser. destruct result as [res|e]; [done|]. by destruct (isSystemError e). }
  destruct result as [res|e]; [apply Hans; by rewrite Hrun, Hres|].
  destruct (isSystemError e) eqn:Hse.
  - destruct (SendSystemError_spec msgs callID t w0 ps Hready r2 [] e connSend) as (c' & Rs & He & Hch).
    exists c'. split_and!; [|done|done]. rewrite Hrun.
    erewrite gost_bind_run by (by apply call_Response_run). exact Rs.
  - apply Hans. rewrite Hrun, (Hres eq_refl).
    erewrite gost_bind_run by (by apply call_Response_run). cbv beta.
    erewrite gost_bind_run; [|by apply onWriter_run, (set_result_run false msgs callID)]. done.
Qed.
End server.

(** What wrapCall makes of an answer. *)
Definition outcome_of (rheaders : Headers) (res : T + E) : option callError * option T * option Headers :=
  match res with
  | inl v => (None, Some v, Some rheaders)
  | inr x => (Some (ErrApplication (Some x)), None, None)
  end.

(** An answer that has been sent reaches the caller. *)
Lemma answer_returns (rmsgs : bool → message) (callID : Z) (t : byte) (rw0 : reqResWriter) w success (res : T + E)
    headers arg3 w1 w2 rheaders brh br m (Hfits : ∀ b, message_fits (rmsgs b)) :
  0 <= callID < 2^32 → valid t = true → t ≠ ChecksumTypeFarmhash →
  rmsgs true = mCallRes m → ResponseCode m = responseOK → (bufSize < reads)%nat →
  json_text brh → (length brh < bufSize)%nat → UnmarshalHeaders brh = inl rheaders →
  json_text br → (length br < bufSize)%nat →
  match res with
  | inl v => UnmarshalRes br = inl v ∧ success = true
  | inr x => UnmarshalError br = inl x ∧ success = false
  end →
  makeCall_send headers arg3 w1 = Ret (([], None), w2) →
  sent_all (H0 := G (result_msgs success rmsgs) callID (result_fits _ rmsgs Hfits) reqResWriterComplete)
    (fresh t) (sendCh rw0) w [[]; brh ++ [newline]; br ++ [newline]] →
  ∃ rframes, sendCh (fw_sender w) = sendCh rw0 ++ rframes
  ∧ received_as (result_msgs success rmsgs) callID rframes (λ r2, ∀ free2,
      (length rframes < fuel)%nat → (0 < sum_list free2)%nat →
      ∃ r', wrapCall free2 headers arg3 (mkOutboundCall w1 r2) = Ret (outcome_of rheaders res, mkOutboundCall w2 r')).
Proof.
  intros Hid Hv Hne Hres Hcode Hreads Hbr Hlr HUr Hbbr Hlbr Hr R2 Hsent.
  destruct (sent_arrives _ callID t rw0 _ _ _ Hid Hv Hne Hsent) as (rframes & Hch & Harr); [done|].
  exists rframes. split; [done|]. eapply received_impl; [|exact Harr]. intros r2 Hidle2 free2 Hf Hs1.
  destruct (makeCall_receive_spec (result_msgs success rmsgs) callID Hreads free2 r2 rheaders brh
    (if success then responseOK else responseApplicationError) res br (length rframes) Hbr Hlr HUr Hbbr Hlbr)
    as (r' & Q3); [by destruct res as [v|y], Hr as [? ->]| |exact Hidle2|done|done|].
  { unfold result_msgs. destruct success; [|unfold app_msgs]; rewrite Hres; cbn; congruence. }
  exists r'. unfold wrapCall.
  erewrite gost_bind_run; [|unfold makeCall; erewrite gost_bind_run by (by apply onRequest_run); by apply onResponse_run].
  by destruct res.
Qed.

(** A call whose response is a system error fails with it. *)
Lemma wrapCall_error free headers arg3 w1 w2 err r r' :
  makeCall_send headers arg3 w1 = Ret (([], None), w2) → arg1Reader r = Ret (Some err, r') →
  wrapCall free headers arg3 (mkOutboundCall w1 r)
  = Ret ((Some (callFailed (otherError (str "arg2 read failed" ++ str ": " ++ Error err))), None, None), mkOutboundCall w2 r').
Proof.
  intros R2 R1. unfold wrapCall.
  erewrite gost_bind_run; [|unfold makeCall; erewrite gost_bind_run by (by apply onRequest_run); apply onResponse_run;
    unfold makeCall_receive, res_Arg2Reader; erewrite gost_bind_run;
    [|erewrite gost_bind_run by exact R1; run_step; reflexivity]; run_step; reflexivity].
  reflexivity.
Qed.

(** C14: a JSON call delivers its headers and its argument to the function of its method,
    and brings the answer back: the result and the response headers, or the body of an
    application error.  For a SystemError the handler hands the error to the connection and
    sends no response; the connection sends one error frame if it is open, its send channel
    has room and the message fits into a frame, and the call of a caller that receives this
    frame fails with the code and the message.  The tracing keys are all that the function
    does not see of the headers.  The texts have to be shorter than the 4096 bytes of the
    buffer. *)
Theorem json_call_roundtrip (msgs rmsgs : bool → message) (callID : Z) (t t' : byte) (w0 rw0 : reqResWriter) (ps ps' : checksumPools)
    (handlers : gmap bytes (Headers → A → (T + error) * Headers)) (user : Headers → A → (T + error) * Headers)
    (connSend : option error) (method : bytes) (headers : Headers) (arg3 : bytes + error) (a : A)
    (result : T + error) (rheaders : Headers) (x : E) (m : callRes) :
  call_ready msgs callID t w0 → call_ready rmsgs callID t' rw0 →
  rmsgs true = mCallRes m → ResponseCode m = responseOK → (bufSize < reads)%nat →
  handlers !! method = Some user → user (RemoveTracingKeys <$> headers) a = (result, rheaders) →
  carries UnmarshalHeaders (MarshalHeaders headers) headers →
  carries UnmarshalHeaders (MarshalHeaders rheaders) rheaders →
  carries UnmarshalArg arg3 a →
  match result with
  | inl res => carries UnmarshalRes (MarshalRes res) res
  | inr e => carries UnmarshalError (MarshalError (Error e)) x
  end →
  ∃ w1 w' frames,
    writeMethod method (newFragmentingWriter w0 ps (fresh t)) = Ret (None, w1)
    ∧ makeCall_send headers arg3 w1 = Ret (([], None), w')
    ∧ sendCh (fw_sender w') = sendCh w0 ++ frames
    ∧ received_as msgs callID frames (λ r, ∀ free,
        (length frames < fuel)%nat → (length method < sum_list free)%nat →
        let run := json_serve handlers connSend free
                     (mkInboundCall r (newFragmentingWriter rw0 ps' (fresh t')) []) in
        let answered success outcome :=
          ∃ c' rframes, run = Ret (None, c') ∧ ic_errors c' = []
          ∧ sendCh (fw_sender (ic_writer c')) = sendCh rw0 ++ rframes
          ∧ received_as (result_msgs success rmsgs) callID rframes (λ r2, ∀ free2,
              (length rframes < fuel)%nat → (0 < sum_list free2)%nat →
              ∃ r', wrapCall free2 headers arg3 (mkOutboundCall w1 r2)
                    = Ret (outcome, mkOutboundCall w' r')) in
        match result with
        | inl res => answered true (None, Some res, Some rheaders)
        | inr e =>
            if isSystemError e
            then (∃ c', run = Ret (connSend, c') ∧ ic_errors c' = [e]
                  ∧ sendCh (fw_sender (ic_writer c')) = sendCh rw0)
                 ∧ (len (GetSystemErrorMessage e) <= MaxFramePayloadSize - 28 →
                    error_received callID e (λ r2, ∀ free2, ∃ r',
                      wrapCall free2 headers arg3 (mkOutboundCall w1 r2)
                      = Ret ((Some (callFailed (otherError (str "arg2 read failed" ++ str ": " ++ Error (caller_sees e)))),
                              None, None), mkOutboundCall w' r')))
            else answered false (Some (ErrApplication (Some x)), None, None)
        end).
Proof.
  intros (Hfits & Hid & Hv & Hne & Hready) (Hrfits & _ & Hv' & Hne' & Hrready) Hres Hcode Hreads Hfind Huser
    (bh & HMh & Hbh & Hlh & HUh) (brh & HMr & Hbr & Hlr & HUr) (ba & -> & Hba & Hla & HUa) Hout.
  assert (∃ br, json_text br ∧ (length br < bufSize)%nat
    ∧ match result with
      | inl res => MarshalRes res = inl br ∧ UnmarshalRes br = inl res
      | inr e => MarshalError (Error e) = inl br ∧ UnmarshalError br = inl x
      end) as (br & Hbbr & Hlbr & Hbody) by (destruct result; destruct Hout as (br & ? & ? & ? & ?); by exists br).
  destruct (writeMethod_spec msgs callID Hfits (fresh t) (sendCh w0) _ method
    (writer_idle msgs callID t w0 ps Hfits Hready)) as (w1 & R1 & Hidle1).
  destruct (makeCall_send_spec msgs callID Hfits (fresh t) (sendCh w0) w1 method headers bh ba HMh Hidle1)
    as (w2 & R2 & Hsent).
  destruct (sent_arrives msgs callID t w0 w2 _ Hfits Hid Hv Hne Hsent) as (frames & Hch & Harr); [done|].
  exists w1, w2, frames. split_and!; [done..|].
  eapply received_impl; [|exact Harr]. intros r Hidle free Hfuel Hf1 run answered.
  destruct (readMethod_spec msgs callID fuel free r _ _ _ Hidle) as (ra & n1 & Q1 & Hi1 & Hn1); [done..|].
  pose proof (json_Handle_spec rmsgs callID t' rw0 ps' Hrfits Hrready Hreads msgs ra n1 user connSend headers bh a ba
    result rheaders brh br Hbh Hlh HUh Hba Hla HUa Huser HMr) as Hhandle.
  assert (Hrun : run = json_Handle user connSend (mkInboundCall ra (newFragmentingWriter rw0 ps' (fresh t')) [])).
  { unfold run, json_serve. erewrite gost_bind_run by (by apply onReader_run). cbv beta iota. by rewrite Hfind. }
  assert (Hans : ∀ (success : bool) (res : T + E),
    match res with
    | inl v => UnmarshalRes br = inl v ∧ success = true
    | inr y => UnmarshalError br = inl y ∧ success = false
    end →
    (∃ c', run = Ret (None, c') ∧ ic_errors c' = []
      ∧ sent_all (H0 := G (result_msgs success rmsgs) callID (result_fits _ rmsgs Hrfits) reqResWriterComplete)
          (fresh t') (sendCh rw0) (ic_writer c') [[]; brh ++ [newline]; br ++ [newline]]) →
    answered success (outcome_of rheaders res)).
  { clear Hhandle. intros success res Hr (c' & Q2 & He & Hrsent).
    destruct (answer_returns rmsgs callID t' rw0 (ic_writer c') success res headers (inl ba) w1 w2 rheaders brh br m
      Hrfits) as (rframes & Hrch & Hrarr); try done. by exists c', rframes. }
  rewrite <- Hrun in Hhandle. clearbody run. destruct result as [res|e].
  - apply (Hans true (inl res)); [by destruct Hbody|]. apply Hhandle; by destruct Hbody.
  - destruct (isSystemError e) eqn:Hse.
    + split; [apply Hhandle; [by intros|done|done]|]. intros Hlen.
      eapply error_received_impl; [|by apply error_reaches_reader]. intros r2 [r' Hr'] free2. exists r'.
      by apply wrapCall_error.
    + apply (Hans false (inr x)); [by destruct Hbody|]. apply Hhandle; [by destruct Hbody|done|done].
Qed.

(** C15: the boundary of the buffer: an argument that is a JSON object of exactly 4096
    bytes is sent without an error and refused by every handler.  The decoder has
    the whole object when the first buffer is used up and never asks for the
    newline that Encode adds, which is then found as unexpected bytes. *)
Theorem json_buffer_boundary (msgs : bool → message) (callID : Z) (t : byte) (w0 : reqResWriter) (ps : checksumPools)
    (handlers : gmap bytes (Headers → A → (T + error) * Headers)) (user : Headers → A → (T + error) * Headers)
    (connSend : option error) (method : bytes) (headers : Headers) (ba : bytes) (a : A) :
  call_ready msgs callID t w0 → (bufSize < reads)%nat → handlers !! method = Some user →
  carries UnmarshalHeaders (MarshalHeaders headers) headers →
  json_text ba → UnmarshalArg ba = inl a → length ba = bufSize → scan ba = scanValue (length ba) →
  ∃ w1 w' frames,
    writeMethod method (newFragmentingWriter w0 ps (fresh t)) = Ret (None, w1)
    ∧ makeCall_send headers (inl ba) w1 = Ret (([], None), w')
    ∧ sendCh (fw_sender w') = sendCh w0 ++ frames
    ∧ received_as msgs callID frames (λ r, ∀ free rw,
        (length frames < fuel)%nat → (length method < sum_list free)%nat →
        ∃ c', json_serve handlers connSend free (mkInboundCall r rw [])
          = Ret (Some (otherError (str "arg3 read failed: found unexpected bytes after read arg, found (upto 128 bytes): 0a")), c')).
Proof.
  intros (Hfits & Hid & Hv & Hne & Hready) Hreads Hfind (bh & HMh & Hbh & Hlh & HUh) Hba HUa Hla Hobj.
  destruct (writeMethod_spec msgs callID Hfits (fresh t) (sendCh w0) _ method
    (writer_idle msgs callID t w0 ps Hfits Hready)) as (w1 & R1 & Hidle1).
  destruct (makeCall_send_spec msgs callID Hfits (fresh t) (sendCh w0) w1 method headers bh ba HMh Hidle1)
    as (w2 & R2 & Hsent).
  destruct (sent_arrives msgs callID t w0 w2 _ Hfits Hid Hv Hne Hsent) as (frames & Hch & Harr); [done|].
  exists w1, w2, frames. split_and!; [done..|].
  eapply received_impl; [|exact Harr]. intros r Hidle free rw Hfuel Hf1.
  destruct (readMethod_spec msgs callID fuel free r _ _ _ Hidle) as (ra & n1 & Q1 & Hi1 & Hn1); [done..|].
  destruct (read_json_spec msgs callID UnmarshalHeaders _ reqResReaderPreArg3 ra bh headers _ n1 Hbh HUh Hreads Hlh Hi1)
    as (rb & n2 & l & Q2 & Hi2 & Hn2 & _); [done..|].
  destruct (read_json_left msgs callID UnmarshalArg rb ba a n2 Hba HUa Hreads Hla Hobj Hi2 Hn2) as (rc & Q3).
  eexists. unfold json_serve. erewrite gost_bind_run by (by apply onReader_run). cbv beta iota. rewrite Hfind.
  unfold json_Handle. erewrite gost_bind_run by (by apply onReader_run). cbv beta iota.
  by erewrite gost_bind_run by (by apply onReader_run).
Qed.
End json.

(** ** Examples *)

(** A grammar whose objects are anything up to the first closing brace. *)
Fixpoint example_scan_from (n : nat) (b : bytes) : scanResult :=
  match b with
  | [] => scanMore
  | c :: b => if decide (c = x7d) then scanValue (S n) else example_scan_from (S n) b
  end.
Definition example_scan : bytes → scanResult := example_scan_from 0.

Definition example_text (k : nat) : bytes := replicate (S k) x7b ++ [x7d].

Lemma example_scan_open n k b : example_scan_from n (replicate k x7b ++ b) = example_scan_from (n + k) b.
Proof.
  revert n. induction k as [|k IH]; intros n; cbn; [by rewrite Nat.add_0_r|]. rewrite IH. f_equal. lia.
Qed.

Lemma example_scan_text k rest : example_scan (example_text k ++ rest) = scanValue (length (example_text k)).
Proof.
  unfold example_scan, example_text. rewrite <- app_assoc, example_scan_open. cbn [app example_scan_from].
  rewrite decide_True by done. rewrite length_app, length_replicate. f_equal. simpl. lia.
Qed.

Lemma example_json_text k : json_text example_scan (example_text k).
Proof.
  split_and!.
  - intros p [q Hq] Hne. destruct q as [|y q _] using rev_ind; [by rewrite app_nil_r in Hq|].
    unfold example_text in Hq. rewrite app_assoc in Hq. apply app_inj_tail in Hq as [Hq _].
    assert (Hp : p = take (length p) (replicate (S k) x7b)) by (by rewrite Hq, take_app_length).
    rewrite Hp, take_replicate. unfold example_scan. by rewrite <- (app_nil_r (replicate _ _)), example_scan_open.
  - right. pose proof (example_scan_text k []) as Hs. by rewrite app_nil_r in Hs.
  - apply example_scan_text.
Qed.

(** Values are the lengths of their texts. *)
Definition example_marshal (k : nat) : bytes + error := inl (example_text k).
Definition example_unmarshal (b : bytes) : nat + error := inl (length b - 2)%nat.
Definition example_headers (h : Headers) : bytes + error := inl (example_text 0).
Definition no_headers (b : bytes) : Headers + error := inl None.

Lemma example_carries k : (k < 4000)%nat → carries example_scan example_unmarshal (example_marshal k) k.
Proof.
  intros Hk. exists (example_text k). assert (Hl : length (example_text k) = S (S k)).
  { unfold example_text. rewrite length_app, length_replicate. cbn [length]. lia. }
  split_and!; [done|apply example_json_text|rewrite Hl; unfold bufSize; lia|].
  unfold example_unmarshal. rewrite Hl. f_equal. lia.
Qed.

Lemma example_headers_carried : carries example_scan no_headers (example_headers None) None.
Proof. exists (example_text 0). split_and!; [done|apply example_json_text|unfold bufSize; cbn; lia|done]. Qed.

Lemma json_call_roundtrip_witness :
  ∃ w1 w', writeMethod (H := storage_range) (str "echo")
      (newFragmentingWriter (example_writer writesRequest example_msgs) emptyPools (fresh ChecksumTypeCrc32))
      = Ret (None, w1)
  ∧ makeCall_send (H := storage_range) example_headers None (example_marshal 5) w1 = Ret (([], None), w').
Proof.
  destruct (json_call_roundtrip (H := storage_range) 100 example_scan (λ _, false) 0%nat example_headers no_headers
    example_unmarshal example_marshal example_unmarshal (λ _, example_marshal 3) example_unmarshal 5000
    example_msgs example_res 7 ChecksumTypeCrc32 ChecksumTypeCrc32
    (example_writer writesRequest example_msgs) (example_writer writesResponse example_res) emptyPools emptyPools
    {[ str "echo" := λ h a, (inl a, None) ]} (λ h a, (inl a, None)) None (str "echo") None (example_marshal 5) 5%nat
    (inl 5%nat) None 3%nat (mkCallRes 7 x00 (mkSpan 1 0 1 x00) (<[CallerName := str "me"]> ∅)))
    as (w1 & w' & frames & H1 & H2 & _).
  - apply example_ready. left. reflexivity.
  - apply example_ready. right. reflexivity.
  - reflexivity.
  - reflexivity.
  - unfold bufSize. lia.
  - reflexivity.
  - reflexivity.
  - exact example_headers_carried.
  - exact example_headers_carried.
  - apply example_carries. lia.
  - apply example_carries. lia.
  - exists w1, w'. split; [exact H1|exact H2].
Defined.

Lemma json_buffer_boundary_witness :
  ∃ w1 w', writeMethod (H := storage_range) (str "echo")
      (newFragmentingWriter (example_writer writesRequest example_msgs) emptyPools (fresh ChecksumTypeCrc32))
      = Ret (None, w1)
  ∧ makeCall_send (H := storage_range) example_headers None (inl (example_text 4094)) w1 = Ret (([], None), w').
Proof.
  destruct (json_buffer_boundary (H := storage_range) 100 example_scan (λ _, false) 0%nat example_headers no_headers
    example_unmarshal example_marshal (λ _, example_marshal 3) 5000
    example_msgs 7 ChecksumTypeCrc32 (example_writer writesRequest example_msgs) emptyPools
    {[ str "echo" := λ h a, (inl a, None) ]} (λ h a, (inl a, None)) None (str "echo") None (example_text 4094) 4094%nat)
    as (w1 & w' & frames & H1 & H2 & _).
  - apply example_ready. left. reflexivity.
  - unfold bufSize. lia.
  - reflexivity.
  - exact example_headers_carried.
  - apply example_json_text.
  - vm_compute. reflexivity.
  - vm_compute. reflexivity.
  - vm_compute. reflexivity.
  - exists w1, w'. split; [exact H1|exact H2].
Defined.
