(* ===== verification/JsonHandler.v ===== *)
(** * Handlers of the JSON encoding (json/handler.go)

    json.Register takes functions of any type; verifyHandler checks their types by
    reflection, and Handle builds the argument and calls the function by reflection.
    A reflect.Type is an identity with a description; methods of reflect that do not
    apply to a kind panic.  Which types implement error and which are assignable to each
    other are arguments, with the rules of the language that are used as hypotheses.
    The theorems show which types are accepted, that an accepted function, unless it is nil, can be called
    on what Handle builds for it, and what becomes of an error of a concrete type. *)

From S2P Require Import Prelude.

(** ** Reflection *)

Inductive typeDesc :=
| Func (ins outs : list nat)
| Ptr (elem : nat)
| Map (key elem : nat)
| Slice (elem : nat)
| Struct
| String
| Interface
| Basic.

Inductive verifyError :=
| badFormat
| arg0NotContext
| badArgRes (name : bytes)
| notAnError.

Section json_handlers.
Context (types : nat → typeDesc) (typeOfContext : nat) (implementsError : nat → bool).

Definition NumIn (t : nat) : go nat := match types t with Func ins _ => Ret (length ins) | _ => Panic end.
Definition NumOut (t : nat) : go nat := match types t with Func _ outs => Ret (length outs) | _ => Panic end.
Definition In_ (t i : nat) : go nat :=
  match types t with Func ins _ => match ins !! i with Some x => Ret x | None => Panic end | _ => Panic end.
Definition Out (t i : nat) : go nat :=
  match types t with Func _ outs => match outs !! i with Some x => Ret x | None => Panic end | _ => Panic end.
Definition Elem (t : nat) : go nat :=
  match types t with Ptr e | Map _ e | Slice e => Ret e | _ => Panic end.
Definition Key (t : nat) : go nat := match types t with Map k _ => Ret k | _ => Panic end.

Definition isPtr (t : nat) : bool := match types t with Ptr _ => true | _ => false end.
Definition isMapKind (t : nat) : bool := match types t with Map _ _ => true | _ => false end.
Definition isStruct (t : nat) : bool := match types t with Struct => true | _ => false end.
Definition isString (t : nat) : bool := match types t with String => true | _ => false end.
Definition isInterface (t : nat) : bool := match types t with Interface => true | _ => false end.

(** ** verifyHandler *)

Definition isStructPtr (t : nat) : go bool :=
  if isPtr t then e ← Elem t; Ret (isStruct e) else Ret false.
Definition isMap (t : nat) : go bool :=
  if isMapKind t then k ← Key t; Ret (isString k) else Ret false.

Definition validateArgRes (t : nat) (name : bytes) : go (option verifyError) :=
  sp ← isStructPtr t;
  if sp : bool then Ret None
  else m ← isMap t; Ret (if m : bool then None else Some (badArgRes name)).

Definition verifyHandler (t : nat) : go (option verifyError) :=
  nIn ← NumIn t;
  nOut ← (if decide (nIn = 2%nat) then NumOut t else Ret 0%nat);
  if decide (nIn = 2%nat ∧ nOut = 2%nat) then
    in0 ← In_ t 0;
    if decide (in0 = typeOfContext) then
      in1 ← In_ t 1;
      err ← validateArgRes in1 (str "second argument");
      match err with
      | Some e => Ret (Some e)
      | None =>
          out0 ← Out t 0;
          err ← validateArgRes out0 (str "first return value");
          match err with
          | Some e => Ret (Some e)
          | None =>
              out1 ← Out t 1;
              Ret (if implementsError out1 then None else Some notAnError)
          end
      end
    else Ret (Some arg0NotContext)
  else Ret (Some badFormat).

(** A value of an interface type: nil, or a type and whether the value is nil. *)
Record value := mkValue { v_type : nat; v_nil : bool }.

Record handler := mkHandler { h_handler : value; argType : nat; isArgMap : bool }.

(** toHandler: the Type of the zero Value panics. *)
Definition toHandler (f : option value) : go (handler + verifyError) :=
  match f with
  | None => Panic
  | Some hV =>
      err ← verifyHandler (v_type hV);
      match err with
      | Some e => Ret (inr e)
      | None => at_ ← In_ (v_type hV) 1; Ret (inl (mkHandler hV at_ (isMapKind at_)))
      end
  end.

(** Register: the handlers by method, in the order of iteration, are made before the
    first method is registered; the error names the method. *)
Fixpoint makeHandlers (funcs : list (bytes * option value)) (handlers : gmap bytes handler)
    : go (gmap bytes handler + bytes * verifyError) :=
  match funcs with
  | [] => Ret (inl handlers)
  | (m, f) :: funcs =>
      h ← toHandler f;
      match h with
      | inr e => Ret (inr (m, e))
      | inl h => makeHandlers funcs (<[m := h]> handlers)
      end
  end.

(** The handlers and the methods that are registered with the channel. *)
Definition Register (funcs : list (bytes * option value))
    : go (gmap bytes handler * list bytes + bytes * verifyError) :=
  hs ← makeHandlers funcs ∅;
  Ret (match hs with inl hs => inl (hs, funcs.*1) | inr e => inr e end).

(** ** Which types are accepted *)

(** A pointer to a struct, or a map with a string as key. *)
Definition arg_or_res (t : nat) : Prop :=
  (∃ e, types t = Ptr e ∧ types e = Struct) ∨ (∃ k e, types t = Map k e ∧ types k = String).

Lemma validateArgRes_spec t name :
  ∃ err, validateArgRes t name = Ret err ∧ (err = None ↔ arg_or_res t).
Proof.
  unfold validateArgRes, isStructPtr, isMap, isPtr, isMapKind, Elem, Key, isStruct, isString, arg_or_res, mbind, go_bind.
  destruct (types t) as [ins outs|e|k e|e| | | |] eqn:E;
    try (eexists; split; [reflexivity|]; split; [done|]; intros [(? & ? & _)|(? & ? & ? & _)]; done).
  - destruct (types e) eqn:Ee; (eexists; split; [reflexivity|]); (split; [|by intros [(e' & [= <-] & ?)|(? & ? & ? & _)]; congruence]);
      try done; intros _; left; by exists e.
  - destruct (types k) eqn:Ek; (eexists; split; [reflexivity|]); (split; [|by intros [(? & ? & _)|(k' & e' & [= <- <-] & ?)]; congruence]);
      try done; intros _; right; by exists k, e.
Qed.

(** The types that are accepted. *)
Definition acceptable (t : nat) : Prop :=
  ∃ a r e, types t = Func [typeOfContext; a] [r; e] ∧ arg_or_res a ∧ arg_or_res r ∧ implementsError e = true.
Definition is_func (t : nat) : Prop := ∃ ins outs, types t = Func ins outs.

Lemma two_elements {A} (l : list A) : length l = 2%nat → ∃ a b, l = [a; b].
Proof. destruct l as [|a [|b [|]]]; try done. intros _. by exists a, b. Qed.

(** verifyHandler, on a function, gives an answer, which is no error exactly for the
    acceptable types; on anything else it panics. *)
Lemma verifyHandler_spec t :
  (is_func t → ∃ err, verifyHandler t = Ret err ∧ (err = None ↔ acceptable t))
  ∧ (¬ is_func t → verifyHandler t = Panic).
Proof.
  unfold verifyHandler, NumIn, NumOut, is_func. split.
  - intros (ins & outs & E). rewrite E. unfold mbind at 1 2, go_bind at 1 2.
    destruct (decide (length ins = 2%nat)) as [Hi|Hi].
    2:{ rewrite decide_False by (intros [? _]; lia). exists (Some badFormat). split; [done|]. split; [done|].
        intros (a & r & e & E' & _). rewrite E in E'. by injection E' as -> _. }
    destruct (decide (length outs = 2%nat)) as [Ho|Ho].
    2:{ rewrite decide_False by (intros [_ ?]; lia). exists (Some badFormat). split; [done|]. split; [done|].
        intros (a & r & e & E' & _). rewrite E in E'. by injection E' as _ ->. }
    destruct (two_elements _ Hi) as (c & a & ->), (two_elements _ Ho) as (r & e & ->). rewrite decide_True by done.
    assert (Hacc : acceptable t ↔ c = typeOfContext ∧ arg_or_res a ∧ arg_or_res r ∧ implementsError e = true).
    { unfold acceptable. rewrite E. split; [intros (a' & r' & e' & [= -> -> -> ->] & H); by split|].
      intros (-> & H). by exists a, r, e. }
    setoid_rewrite Hacc. unfold In_, Out. rewrite E. cbn [lookup list_lookup]. unfold mbind, go_bind.
    case_decide as Hc; [|exists (Some arg0NotContext); naive_solver].
    destruct (validateArgRes_spec a (str "second argument")) as (err1 & -> & H1).
    destruct err1 as [e1|]; [exists (Some e1); naive_solver|].
    destruct (validateArgRes_spec r (str "first return value")) as (err2 & -> & H2).
    destruct err2 as [e2|]; [exists (Some e2); naive_solver|].
    eexists. split; [reflexivity|]. destruct (implementsError e) eqn:Hie; naive_solver.
  - intros Hn. destruct (types t) as [ins outs| | | | | | |]; try done. destruct Hn. by exists ins, outs.
Qed.

Lemma toHandler_accepted v h : toHandler (Some v) = Ret (inl h) →
  ∃ a r e, types (v_type v) = Func [typeOfContext; a] [r; e] ∧ arg_or_res a ∧ arg_or_res r ∧ implementsError e = true
  ∧ h = mkHandler v a (isMapKind a).
Proof.
  unfold toHandler. intros H. destruct (types (v_type v)) as [ins outs| | | | | | |] eqn:E;
    try (rewrite (proj2 (verifyHandler_spec (v_type v))) in H; [done|intros (? & ? & ?); congruence]).
  destruct (proj1 (verifyHandler_spec (v_type v))) as (err & Ev & Hiff); [by exists ins, outs|].
  rewrite Ev in H. cbn in H. destruct err as [e|]; [done|].
  destruct (proj1 Hiff eq_refl) as (a & r & e & E' & Ha & Hr & He). exists a, r, e. rewrite E in E'.
  unfold In_, mbind, go_bind in H. rewrite E, E' in *. injection E' as -> ->. cbn in H. injection H as <-. done.
Qed.

(** ** Handle: the argument and the call *)

Context (assignable : nat → nat → bool) (ptrTo : nat → nat).

(** reflect.New(t). *)
Definition New (t : nat) : value := mkValue (ptrTo t) false.

(** The argument that is decoded into, and the one the function gets; the value behind a
    pointer to a map is the map, which may be nil. *)
Definition makeArg (h : handler) (null : bool) : go (value * value) :=
  if isArgMap h then Ret (New (argType h), mkValue (argType h) null)
  else e ← Elem (argType h); Ret (New e, New e).

(** Value.Call panics on a nil function, on a wrong number of arguments and on an argument
    that cannot be assigned. *)
Definition Call (f : value) (args : list value) : go (list nat) :=
  match types (v_type f) with
  | Func ins outs =>
      if v_nil f then Panic
      else if decide (length args = length ins) then
        if forallb (λ x, assignable (v_type x.1) x.2) (zip args ins) then Ret outs else Panic
      else Panic
  | _ => Panic
  end.

(** The call of a handler: the context has the dynamic type [ctx]. *)
Definition callHandler (h : handler) (ctx : nat) (null : bool) : go (list nat) :=
  '(_, callArg) ← makeArg h null;
  Call (h_handler h) [mkValue ctx false; callArg].

(** results[1].Interface() != nil, when the function returned nil ([true]) or an error: a
    nil pointer in an interface is not nil. *)
Definition errNotNil (out1 : nat) (returnedNil : bool) : bool :=
  if isInterface out1 then negb returnedNil else true.

(** ** Calls are well typed *)

(** What is used of the rules of Go: a value of a type can be assigned to that type, a new
    pointer to T to any type whose underlying type is a pointer to T, and the contexts of
    this package to its interface. *)
Record assignment (ctx : nat) : Prop := {
  as_refl t : assignable t t = true;
  as_ptr t e : types t = Ptr e → assignable (ptrTo e) t = true;
  as_ctx : assignable ctx typeOfContext = true
}.

(** C18: What toHandler accepts can be called on what Handle builds, unless it is a nil
    function, which is accepted as well and makes every call panic.  Otherwise the argument
    has a type the function takes, whether that is a pointer to a struct or a map, the call
    does not panic, and it gives two results: the first a pointer to a struct or a map with
    string keys, the second of a type that implements error. *)
Theorem json_handler_typed (v : value) (h : handler) (ctx : nat) (null : bool) :
  assignment ctx → toHandler (Some v) = Ret (inl h) →
  if v_nil v then callHandler h ctx null = Panic
  else ∃ r e, callHandler h ctx null = Ret [r; e] ∧ arg_or_res r ∧ implementsError e = true.
Proof.
  intros [Hrefl Hptr Hctx] Hh. destruct (toHandler_accepted v h Hh) as (a & r & e & E & Ha & Hr & He & ->).
  assert (Hcall : callHandler (mkHandler v a (isMapKind a)) ctx null = if v_nil v then Panic else Ret [r; e]).
  { unfold callHandler, makeArg, Call, isMapKind, Elem, mbind, go_bind. cbn [argType isArgMap h_handler].
    destruct Ha as [(x & Ex & _)|(k & x & Ex & _)]; rewrite !Ex; cbn; rewrite E; destruct (v_nil v); cbn; try done; rewrite Hctx.
    - by rewrite (Hptr a x Ex).
    - by rewrite Hrefl. }
  rewrite Hcall. destruct (v_nil v); [done|]. by exists r, e.
Qed.

(** A handler whose second result has a concrete type is accepted, and then every call of
    it is answered as an error, also when it returns no error. *)
Theorem concrete_error_never_nil (v : value) (a r e : nat) :
  types (v_type v) = Func [typeOfContext; a] [r; e] → arg_or_res a → arg_or_res r →
  implementsError e = true → isInterface e = false →
  (∃ h, toHandler (Some v) = Ret (inl h)) ∧ errNotNil e true = true.
Proof.
  intros E Ha Hr He Hi. split; [|unfold errNotNil; by rewrite Hi].
  destruct (proj1 (verifyHandler_spec (v_type v))) as (err & Ev & Hiff); [eexists _, _; exact E|].
  rewrite (proj2 Hiff) in Ev by (by exists a, r, e).
  unfold toHandler, In_, mbind, go_bind. rewrite Ev, E. cbn. by eexists.
Qed.

(** Register registers every method, each with its own handler, or none. *)
Lemma makeHandlers_spec funcs hs hs' :
  NoDup funcs.*1 → makeHandlers funcs hs = Ret (inl hs') →
  ∀ m, match (list_to_map funcs : gmap bytes (option value)) !! m with
       | Some f => ∃ h, toHandler f = Ret (inl h) ∧ hs' !! m = Some h
       | None => hs' !! m = hs !! m
       end.
Proof.
  revert hs. induction funcs as [|[n f] funcs IH]; intros hs Hnd H m; cbn in *; [injection H as <-; done|].
  apply NoDup_cons in Hnd as [Hn Hnd]. unfold mbind, go_bind in H. destruct (toHandler f) as [[h|e]| |] eqn:Ef; [|done..].
  specialize (IH _ Hnd H m). destruct (decide (n = m)) as [->|Hne].
  - rewrite lookup_insert_eq. rewrite (not_elem_of_list_to_map_1 funcs m Hn) in IH.
    rewrite lookup_insert_eq in IH. by exists h.
  - rewrite lookup_insert_ne by done. destruct (list_to_map funcs !! m); [done|]. by rewrite lookup_insert_ne in IH.
Qed.

Lemma Register_all funcs hs ms :
  NoDup funcs.*1 → Register funcs = Ret (inl (hs, ms)) → ms = funcs.*1 ∧
  ∀ m f, (m, f) ∈ funcs → ∃ h, toHandler f = Ret (inl h) ∧ hs !! m = Some h.
Proof.
  intros Hnd H. unfold Register, mbind, go_bind in H. destruct (makeHandlers funcs ∅) as [[hs'|e]| |] eqn:E; [|done..].
  injection H as -> <-. split; [done|]. intros m f Hin. pose proof (makeHandlers_spec funcs ∅ hs Hnd E m) as Hm.
  by rewrite (elem_of_list_to_map_1 funcs m f Hnd Hin) in Hm.
Qed.
End json_handlers.

(** ** Witnesses *)

(** A function from a context and a pointer to a struct to a map and an error. *)
Definition ex_types (t : nat) : typeDesc :=
  match t with
  | 0 => Interface   (* json.Context *)
  | 1 => Interface   (* error *)
  | 2 => Struct
  | 3 => Ptr 2
  | 4 => String
  | 5 => Map 4 2
  | 6 => Func [0; 3] [5; 1]
  | 7 => Ptr 5
  | 8 => Func [0; 3] [5; 3]
  | _ => Basic
  end%nat.
Definition ex_assignable (a b : nat) : bool :=
  (a =? b)%nat || ((a =? 20) && (b =? 0))%nat || match ex_types b with Ptr e => (a =? S e)%nat | _ => false end.

Lemma json_handler_typed_witness :
  let h := mkHandler (mkValue 6 false) 3 false in
  toHandler ex_types 0 (λ t, bool_decide (t = 1%nat)) (Some (mkValue 6 false)) = Ret (inl h)
  ∧ ∃ r e, callHandler ex_types ex_assignable S h 20 false = Ret [r; e] ∧ (r, e) = (5%nat, 1%nat).
Proof.
  split; [vm_compute; reflexivity|].
  destruct (json_handler_typed ex_types 0 (λ t, bool_decide (t = 1%nat)) ex_assignable S (mkValue 6 false)
    (mkHandler (mkValue 6 false) 3 false) 20 false) as (r & e & E & _ & _).
  - split.
    + intros t. unfold ex_assignable. by rewrite Nat.eqb_refl.
    + intros t e E. unfold ex_assignable. rewrite E, Nat.eqb_refl. apply orb_true_r.
    + reflexivity.
  - vm_compute. reflexivity.
  - exists r, e. split; [exact E|]. vm_compute in E. injection E as <- <-. reflexivity.
Defined.

(** The type of 8 has *Err as its second result, a pointer that implements error. *)
Lemma concrete_error_never_nil_witness :
  (∃ h, toHandler ex_types 0 (λ t, bool_decide (t = 3%nat)) (Some (mkValue 8 false)) = Ret (inl h))
  ∧ errNotNil ex_types 3 true = true.
Proof.
  apply (concrete_error_never_nil ex_types 0 (λ t, bool_decide (t = 3%nat)) (mkValue 8 false) 3 5 3);
    [reflexivity|left; by exists 2%nat|right; by exists 4%nat, 2%nat|reflexivity..].
Defined.
