(* ===== verification/Handlers.v ===== *)
(** * Handlers and the dispatch of calls (handlers.go, subchannel.go, channel.go,
    introspection.go, dispatchInbound of inbound.go)

    A channel finds the handler of a call by its service and method: the internal
    handlers of the name "tchannel" come first, then the handler the channel was made
    with, which by default passes the call on to the subchannel of the service.  A
    subchannel has a handlerMap until SetHandler replaces it.  The handlerMaps are
    mutable objects with an address.  The theorem states the routing by the history
    of registrations alone. *)

From S2P Require Import Prelude Errors Buffer.

(** A handler of the user: an identity, and whether it has a Register method. *)
Record UserHandler := mkUserHandler { uh_id : nat; uh_registrar : bool }.

#[export] Instance UserHandler_eq_dec : EqDecision UserHandler.
Proof. solve_decision. Defined.

(** SubChannel.handler: the address of its handlerMap, or what SetHandler was given;
    [None] is nil. *)
Inductive scHandler := hmapAt (loc : nat) | scUser (h : option UserHandler).

(** Channel.handler: channelHandler, userHandlerWithSkip or the handler of the options. *)
Inductive chHandler :=
| channelHandler
| userHandlerWithSkip (ignoreUserHandler : gmap bytes (gset bytes)) (userHandler : UserHandler)
| rootUser (h : UserHandler).

(** The handlers a channel keeps.  [hs_passed] are the registrations that were passed on
    to a Register method of the user's. *)
Record handlersState := mkHandlersState {
  hs_serviceName : bytes;
  hs_maps : gmap nat (gmap bytes (option UserHandler));
  hs_next : nat;
  hs_subs : gmap bytes scHandler;
  hs_internal : nat;
  hs_handler : chHandler;
  hs_passed : list (nat * option UserHandler * bytes)
}.

Definition set_maps maps s := mkHandlersState (hs_serviceName s) maps (hs_next s) (hs_subs s) (hs_internal s) (hs_handler s) (hs_passed s).
Definition set_subs subs s := mkHandlersState (hs_serviceName s) (hs_maps s) (hs_next s) subs (hs_internal s) (hs_handler s) (hs_passed s).
Definition set_next n s := mkHandlersState (hs_serviceName s) (hs_maps s) n (hs_subs s) (hs_internal s) (hs_handler s) (hs_passed s).
Definition set_internal l s := mkHandlersState (hs_serviceName s) (hs_maps s) (hs_next s) (hs_subs s) l (hs_handler s) (hs_passed s).
Definition add_passed p s := mkHandlersState (hs_serviceName s) (hs_maps s) (hs_next s) (hs_subs s) (hs_internal s) (hs_handler s) (hs_passed s ++ [p]).

(** ** handlerMap *)

(** &handlerMap{}: a nil map reads as an empty one. *)
Definition new_handlerMap : GO handlersState nat :=
  s ← gget;
  _ ← gmodify (λ s, set_next (S (hs_next s)) (set_maps (<[hs_next s := ∅]> (hs_maps s)) s));
  mret (hs_next s).

Definition hmap_Register (loc : nat) (h : option UserHandler) (method : bytes) : GO handlersState unit :=
  gmodify (λ s, set_maps (<[loc := <[method := h]> (default ∅ (hs_maps s !! loc))]> (hs_maps s)) s).

Definition hmap_find (loc : nat) (method : bytes) : GO handlersState (option UserHandler) :=
  s ← gget; mret (default None (default ∅ (hs_maps s !! loc) !! method)).

(** ** Subchannels *)

(** GetSubChannel as far as the handler goes. *)
Definition sub_handler (serviceName : bytes) : GO handlersState scHandler :=
  s ← gget;
  match hs_subs s !! serviceName with
  | Some h => mret h
  | None =>
      loc ← new_handlerMap;
      _ ← gmodify (λ s, set_subs (<[serviceName := hmapAt loc]> (hs_subs s)) s);
      mret (hmapAt loc)
  end.

(** SubChannel.Register: a nil handler is not a registrar. *)
Definition sc_Register (serviceName : bytes) (h : option UserHandler) (methodName : bytes) : GO handlersState unit :=
  sh ← sub_handler serviceName;
  match sh with
  | hmapAt loc => hmap_Register loc h methodName
  | scUser (Some u) => if uh_registrar u then gmodify (add_passed (uh_id u, h, methodName)) else gpanic
  | scUser None => gpanic
  end.

Definition GetHandlers (serviceName : bytes) : GO handlersState (gmap bytes (option UserHandler)) :=
  sh ← sub_handler serviceName;
  match sh with
  | hmapAt loc => s ← gget; mret (default ∅ (hs_maps s !! loc))
  | scUser _ => gpanic
  end.

Definition SetHandler (serviceName : bytes) (h : option UserHandler) : GO handlersState unit :=
  _ ← sub_handler serviceName;
  gmodify (λ s, set_subs (<[serviceName := scUser h]> (hs_subs s)) s).

(** ** Channels *)

(** channelHandler.Register and userHandlerWithSkip.Register. *)
Definition local_Register (h : option UserHandler) (methodName : bytes) : GO handlersState unit :=
  s ← gget; sc_Register (hs_serviceName s) h methodName.

Definition ch_Register (h : option UserHandler) (methodName : bytes) : GO handlersState unit :=
  s ← gget;
  match hs_handler s with
  | channelHandler | userHandlerWithSkip _ _ => local_Register h methodName
  | rootUser u => if uh_registrar u then gmodify (add_passed (uh_id u, h, methodName)) else gpanic
  end.

(** What becomes of a call. *)
Inductive dispatched :=
| handledBy (id : nat)
| noHandler (serviceName method : bytes)
| nilHandler.

(** handlerMap.Handle; the error is sent as the system error BadRequest. *)
Definition hmap_Handle (loc : nat) (serviceName method : bytes) : GO handlersState dispatched :=
  h ← hmap_find loc method;
  mret (match h with Some u => handledBy (uh_id u) | None => noHandler serviceName method end).

(** The Handle method of an interface value: nil panics. *)
Definition user_Handle (h : option UserHandler) : dispatched :=
  match h with Some u => handledBy (uh_id u) | None => nilHandler end.

Definition channelHandler_Handle (serviceName method : bytes) : GO handlersState dispatched :=
  sh ← sub_handler serviceName;
  match sh with
  | hmapAt loc => hmap_Handle loc serviceName method
  | scUser h => mret (user_Handle h)
  end.

Definition skips (ignore : gmap bytes (gset bytes)) (serviceName method : bytes) : bool :=
  bool_decide (method ∈ default ∅ (ignore !! serviceName)).

Definition root_Handle (serviceName method : bytes) : GO handlersState dispatched :=
  s ← gget;
  match hs_handler s with
  | channelHandler => channelHandler_Handle serviceName method
  | userHandlerWithSkip ignore u =>
      if skips ignore serviceName method then channelHandler_Handle serviceName method
      else mret (handledBy (uh_id u))
  | rootUser u => mret (handledBy (uh_id u))
  end.

Definition tchannelName : bytes := str "tchannel".

(** The end of dispatchInbound. *)
Definition dispatch (serviceName method : bytes) : GO handlersState dispatched :=
  s ← gget;
  if decide (serviceName = tchannelName) then
    h ← hmap_find (hs_internal s) method;
    match h with
    | Some u => mret (handledBy (uh_id u))
    | None => root_Handle serviceName method
    end
  else root_Handle serviceName method.

(** ** NewChannel *)

(** strings.Split(s, "::"); [cur] is the current part. *)
Fixpoint split_from (cur s : bytes) : list bytes :=
  match s with
  | [] => [cur]
  | x3a :: x3a :: rest => cur :: split_from [] rest
  | c :: rest => split_from (cur ++ [c]) rest
  end.
Definition Split : bytes → list bytes := split_from [].

(** toServiceMethodSet; the error names the entry. *)
Fixpoint toServiceMethodSet_from (set : gmap bytes (gset bytes)) (sms : list bytes) : gmap bytes (gset bytes) + bytes :=
  match sms with
  | [] => inl set
  | sm :: sms =>
      match Split sm with
      | [svc; method] => toServiceMethodSet_from (<[svc := {[method]} ∪ default ∅ (set !! svc)]> set) sms
      | _ => inr sm
      end
  end.
Definition toServiceMethodSet : list bytes → gmap bytes (gset bytes) + bytes := toServiceMethodSet_from ∅.

(** The handler of the options. *)
Definition choose_handler (handler : option UserHandler) (skipHandlerMethods : list bytes) : chHandler + bytes :=
  match handler, skipHandlerMethods with
  | Some h, _ :: _ =>
      match toServiceMethodSet skipHandlerMethods with
      | inr sm => inr sm
      | inl set => inl (userHandlerWithSkip set h)
      end
  | Some h, [] => inl (rootUser h)
  | None, _ => inl channelHandler
  end.

Section channel.
(** The handlers of the two internal endpoints. *)
Context (introspect runtime : UserHandler).

Definition endpoints : list (bytes * UserHandler) :=
  [(str "_gometa_introspect", introspect); (str "_gometa_runtime", runtime)].

Fixpoint register_endpoints (loc : nat) (eps : list (bytes * UserHandler)) : GO handlersState unit :=
  match eps with
  | [] => mret tt
  | (name, h) :: eps =>
      _ ← hmap_Register loc (Some h) name;
      _ ← local_Register (Some h) name;
      register_endpoints loc eps
  end.

Definition createInternalHandlers : GO handlersState unit :=
  loc ← new_handlerMap;
  _ ← register_endpoints loc endpoints;
  gmodify (set_internal loc).

(** The handlers of a new channel. *)
Definition new_channel (serviceName : bytes) (handler : chHandler) : go (unit * handlersState) :=
  createInternalHandlers (mkHandlersState serviceName ∅ 0 ∅ 0 handler []).

(** ** Histories *)

Inductive event :=
| evRegister (serviceName : bytes) (h : option UserHandler) (method : bytes)
| evChannelRegister (h : option UserHandler) (method : bytes)
| evSetHandler (serviceName : bytes) (h : option UserHandler)
| evGetHandlers (serviceName : bytes)
| evCall (serviceName method : bytes).

Definition event_op (e : event) : GO handlersState unit :=
  match e with
  | evRegister s h m => sc_Register s h m
  | evChannelRegister h m => ch_Register h m
  | evSetHandler s h => SetHandler s h
  | evGetHandlers s => _ ← GetHandlers s; mret tt
  | evCall s m => _ ← dispatch s m; mret tt
  end.

(** An operation that panics changes nothing. *)
Definition run_event (s : handlersState) (e : event) : handlersState :=
  match event_op e s with Ret (_, s') => s' | _ => s end.
Definition run_events (evs : list event) (s : handlersState) : handlersState := foldl run_event s evs.

(** ** Routing by the history *)

(** The last SetHandler of a service. *)
Definition override (evs : list event) (s : bytes) : option (option UserHandler) :=
  last (omap (λ e, match e with
                   | evSetHandler s' h => if decide (s' = s) then Some h else None
                   | _ => None
                   end) evs).

Definition internal (m : bytes) : option UserHandler :=
  (list_to_map endpoints : gmap bytes UserHandler) !! m.

Definition is_local (handler : chHandler) : bool := match handler with rootUser _ => false | _ => true end.

(** The last registration of a method of a service, through its subchannel or the
    channel; the endpoints were registered first. *)
Definition registration (svc : bytes) (local : bool) (s m : bytes) (e : event) : option (option UserHandler) :=
  match e with
  | evRegister s' h m' => if decide (s' = s ∧ m' = m) then Some h else None
  | evChannelRegister h m' => if decide (local = true ∧ svc = s ∧ m' = m) then Some h else None
  | _ => None
  end.
Definition registered (svc : bytes) (local : bool) (evs : list event) (s m : bytes) : option UserHandler :=
  default (if decide (s = svc) then internal m else None) (last (omap (registration svc local s m) evs)).

(** Where a call goes that reaches the subchannel of its service. *)
Definition sub_route (svc : bytes) (local : bool) (evs : list event) (s m : bytes) : dispatched :=
  match override evs s with
  | Some h => user_Handle h
  | None =>
      match registered svc local evs s m with
      | Some u => handledBy (uh_id u)
      | None => noHandler s m
      end
  end.

Definition route (svc : bytes) (handler : chHandler) (evs : list event) (s m : bytes) : dispatched :=
  match (if decide (s = tchannelName) then internal m else None) with
  | Some u => handledBy (uh_id u)
  | None =>
      match handler with
      | channelHandler => sub_route svc true evs s m
      | userHandlerWithSkip ignore u =>
          if skips ignore s m then sub_route svc true evs s m else handledBy (uh_id u)
      | rootUser u => handledBy (uh_id u)
      end
  end.

(** ** The invariant *)

(** The handlers of a subchannel that still has its handlerMap. *)
Definition view (st : handlersState) (s m : bytes) : option UserHandler :=
  match hs_subs st !! s with
  | Some (hmapAt l) => default None (default ∅ (hs_maps st !! l) !! m)
  | _ => None
  end.

(** Every handlerMap belongs to one subchannel, or is that of the internal handlers. *)
Record wf (st : handlersState) : Prop := {
  wf_loc s l : hs_subs st !! s = Some (hmapAt l) → (l < hs_next st)%nat ∧ l ≠ hs_internal st;
  wf_inj s s' l : hs_subs st !! s = Some (hmapAt l) → hs_subs st !! s' = Some (hmapAt l) → s = s';
  wf_internal : (hs_internal st < hs_next st)%nat
}.

(** What no operation changes. *)
Definition same (st st' : handlersState) : Prop :=
  hs_serviceName st' = hs_serviceName st ∧ hs_handler st' = hs_handler st
  ∧ hs_internal st' = hs_internal st ∧ hs_maps st' !! hs_internal st = hs_maps st !! hs_internal st.

Lemma same_trans a b c : same a b → same b c → same a c.
Proof. unfold same. intros (H1 & H2 & H3 & H4) (H5 & H6 & H7 & H8). split_and!; congruence. Qed.

(** An operation that only adds empty subchannels. *)
Definition quiet (st st' : handlersState) : Prop :=
  wf st' ∧ same st st' ∧ (∀ s m, view st' s m = view st s m)
  ∧ (∀ s u, hs_subs st' !! s = Some (scUser u) ↔ hs_subs st !! s = Some (scUser u)).

Lemma sub_handler_spec st s :
  wf st → ∃ h st', sub_handler s st = Ret (h, st') ∧ quiet st st' ∧ hs_subs st' !! s = Some h.
Proof.
  intros Hwf. unfold sub_handler. run_step. destruct (hs_subs st !! s) as [h|] eqn:Hs.
  { by exists h, st. }
  exists (hmapAt (hs_next st)). eexists. split; [reflexivity|].
  destruct Hwf as [Hloc Hinj Hint]. split; [split_and!|].
  - split; cbn.
    + intros s' l. destruct (decide (s' = s)) as [->|Hne].
      * rewrite lookup_insert_eq. intros [= <-]. lia.
      * rewrite lookup_insert_ne by done. intros [? ?]%Hloc. lia.
    + intros s1 s2 l. destruct (decide (s1 = s)) as [->|H1], (decide (s2 = s)) as [->|H2];
        rewrite ?lookup_insert_eq, ?lookup_insert_ne by done; try done.
      * intros [= <-] [? ?]%Hloc. lia.
      * intros [? ?]%Hloc [= <-]. lia.
      * apply Hinj.
    + lia.
  - split_and!; try done. cbn. apply lookup_insert_ne. lia.
  - intros s' m. unfold view. cbn. destruct (decide (s' = s)) as [->|Hne].
    + by rewrite lookup_insert_eq, lookup_insert_eq, Hs.
    + rewrite lookup_insert_ne by done. destruct (hs_subs st !! s') as [[l|u]|] eqn:E; try done.
      apply Hloc in E as [? ?]. by rewrite lookup_insert_ne by lia.
  - intros s' u. cbn. destruct (decide (s' = s)) as [->|Hne].
    + rewrite lookup_insert_eq. naive_solver.
    + by rewrite lookup_insert_ne by done.
  - cbn. apply lookup_insert_eq.
Qed.

(** What the invariant says of the service [s]. *)
Definition follows (svc : bytes) (local : bool) (evs : list event) (st : handlersState) : Prop :=
  ∀ s, match override evs s with
       | Some h => hs_subs st !! s = Some (scUser h)
       | None => (∀ h, hs_subs st !! s ≠ Some (scUser h)) ∧ ∀ m, view st s m = registered svc local evs s m
       end.

Lemma override_snoc evs e s :
  override (evs ++ [e]) s = match e with
                            | evSetHandler s' h => if decide (s' = s) then Some h else override evs s
                            | _ => override evs s
                            end.
Proof.
  unfold override. rewrite omap_app. destruct e; cbn; rewrite ?app_nil_r; try done.
  case_decide; [by rewrite last_snoc|by rewrite app_nil_r].
Qed.

Lemma registered_snoc svc local evs e s m :
  registered svc local (evs ++ [e]) s m = default (registered svc local evs s m) (registration svc local s m e).
Proof.
  unfold registered. rewrite omap_app. cbn. destruct (registration svc local s m e); cbn.
  - by rewrite last_snoc.
  - by rewrite app_nil_r.
Qed.

(** Empty subchannels do not matter. *)
Lemma follows_quiet svc local evs evs' st st' :
  follows svc local evs st → quiet st st' →
  (∀ s, override evs' s = override evs s) → (∀ s m, registered svc local evs' s m = registered svc local evs s m) →
  follows svc local evs' st'.
Proof.
  intros Hf (_ & _ & Hv & Hu) Ho Hr s. rewrite Ho. specialize (Hf s). destruct (override evs s) as [h|].
  - by apply Hu.
  - destruct Hf as [Hf Hm]. split; [intros h Hh%Hu; by apply (Hf h)|].
    intros m. by rewrite Hv, Hr.
Qed.

(** Registering in the handlerMap of a subchannel. *)
Lemma hmap_Register_spec st s l h m :
  wf st → hs_subs st !! s = Some (hmapAt l) →
  ∃ st', hmap_Register l h m st = Ret (tt, st') ∧ wf st' ∧ same st st' ∧ hs_subs st' = hs_subs st
  ∧ ∀ s' m', view st' s' m' = if decide (s' = s ∧ m' = m) then h else view st s' m'.
Proof.
  intros [Hloc Hinj Hint] Hs. eexists. split; [reflexivity|]. destruct (Hloc _ _ Hs) as [Hl Hne].
  split_and!; [by split| |done|].
  { split_and!; try done. cbn. by apply lookup_insert_ne. }
  intros s' m'. unfold view. cbn. destruct (hs_subs st !! s') as [[l'|u]|] eqn:E.
  - destruct (decide (l' = l)) as [->|Hll].
    + assert (s' = s) as -> by (by eapply Hinj). rewrite lookup_insert_eq. cbn.
      destruct (decide (m' = m)) as [->|Hm].
      * rewrite lookup_insert_eq. by rewrite decide_True by done.
      * rewrite lookup_insert_ne by done. by rewrite decide_False by naive_solver.
    + rewrite lookup_insert_ne by done. rewrite decide_False; [done|]. intros [-> _]. congruence.
  - rewrite decide_False; [done|]. intros [-> _]. congruence.
  - rewrite decide_False; [done|]. intros [-> _]. congruence.
Qed.

(** Every Register leaves the invariant, whether it takes effect, is passed on or panics:
    the last two only happen after SetHandler. *)
Lemma sc_Register_follows svc local evs e st s h m :
  wf st → follows svc local evs st → (∀ s', override (evs ++ [e]) s' = override evs s') →
  (∀ s' m', registration svc local s' m' e = if decide (s = s' ∧ m = m') then Some h else None) →
  let st' := match sc_Register s h m st with Ret (_, st') => st' | _ => st end in
  wf st' ∧ same st st' ∧ follows svc local (evs ++ [e]) st'.
Proof.
  intros Hwf Hf Ho Hr st'.
  destruct (sub_handler_spec st s Hwf) as (sh & st1 & R1 & Hq & Hs1). pose proof Hq as (Hwf1 & Hsame & Hv & Hu).
  assert (Hf1 : follows svc local evs st1) by (by eapply follows_quiet).
  destruct sh as [l|u].
  - destruct (hmap_Register_spec st1 s l h m Hwf1 Hs1) as (st2 & R2 & Hwf2 & Hsame2 & Hsub & Hv2).
    assert (st' = st2) as -> by (unfold st', sc_Register; run_with R1; by rewrite R2).
    split_and!; [done|by eapply same_trans|]. intros s'. rewrite Ho, Hsub. specialize (Hf1 s').
    destruct (override evs s') as [h'|]; [done|]. destruct Hf1 as [Hn Hm]. split; [done|].
    intros m'. rewrite registered_snoc, Hr, Hv2, Hm.
    destruct (decide (s' = s ∧ m' = m)), (decide (s = s' ∧ m = m')); naive_solver.
  - assert (Hold : hs_subs st !! s = Some (scUser u)) by (by apply Hu).
    assert (Hst : hs_subs st' = hs_subs st ∧ hs_maps st' = hs_maps st ∧ hs_next st' = hs_next st ∧ same st st').
    { unfold st', sc_Register, sub_handler. unfold mbind, gost_bind, gget. rewrite Hold. cbn.
      destruct u as [u|]; [destruct (uh_registrar u)|]; by split_and!. }
    destruct Hst as (H1 & H2 & H3 & H4). destruct Hwf as [Hloc Hinj Hint]. split_and!; [|done|].
    + destruct H4 as (_ & _ & Hi & _). split; rewrite ?H1, ?H3, ?Hi; done.
    + intros s'. rewrite Ho, H1. pose proof (Hf s') as Hfs. destruct (override evs s') as [h'|] eqn:E; [done|].
      destruct Hfs as [Hn Hm]. split; [done|]. intros m'. rewrite registered_snoc, Hr.
      rewrite decide_False by (intros [-> _]; by apply (Hn u)). cbn. rewrite <- Hm. unfold view. by rewrite H1, H2.
Qed.

Record Inv (svc : bytes) (handler : chHandler) (evs : list event) (st : handlersState) : Prop := {
  inv_wf : wf st;
  inv_svc : hs_serviceName st = svc;
  inv_handler : hs_handler st = handler;
  inv_internal m : default None (default ∅ (hs_maps st !! hs_internal st) !! m) = internal m;
  inv_follows : follows svc (is_local handler) evs st
}.

(** What is left to show of an operation. *)
Lemma Inv_keeps svc handler evs evs' st st' :
  Inv svc handler evs st → wf st' → same st st' → follows svc (is_local handler) evs' st' → Inv svc handler evs' st'.
Proof.
  intros [_ Hs Hh Hi _] Hwf (H1 & H2 & H3 & H4) Hf. split; [done|congruence|congruence| |done].
  intros m. by rewrite H3, H4.
Qed.

Lemma Inv_quiet svc handler evs e st st' :
  Inv svc handler evs st → quiet st st' →
  (∀ s, override (evs ++ [e]) s = override evs s) →
  (∀ s m, registration svc (is_local handler) s m e = None) → Inv svc handler (evs ++ [e]) st'.
Proof.
  intros Hinv Hq Ho Hr. pose proof Hq as (Hwf & Hsame & _). eapply Inv_keeps; try done.
  eapply follows_quiet; [apply Hinv|done|done|]. intros s m. by rewrite registered_snoc, Hr.
Qed.

Lemma quiet_refl st : wf st → quiet st st.
Proof. intros Hwf. by split_and!. Qed.

(** A call goes where the history says, and adds at most an empty subchannel. *)
Lemma sub_dispatch svc local evs st s m :
  wf st → follows svc local evs st →
  ∃ st', channelHandler_Handle s m st = Ret (sub_route svc local evs s m, st') ∧ quiet st st'.
Proof.
  intros Hwf Hf. destruct (sub_handler_spec st s Hwf) as (sh & st1 & R1 & Hq & Hs1).
  exists st1. split; [|done]. unfold channelHandler_Handle. run_with R1. unfold sub_route.
  assert (Hf1 : follows svc local evs st1) by (by eapply follows_quiet). specialize (Hf1 s).
  destruct (override evs s) as [h|].
  - assert (sh = scUser h) as -> by congruence. done.
  - destruct Hf1 as [Hn Hm]. destruct sh as [l|u]; [|by destruct (Hn u)].
    specialize (Hm m). unfold view in Hm. rewrite Hs1 in Hm. unfold hmap_Handle, hmap_find. run_step.
    cbn. rewrite Hm. by destruct (registered svc local evs s m).
Qed.

Lemma dispatch_spec svc handler evs st s m :
  Inv svc handler evs st → ∃ st', dispatch s m st = Ret (route svc handler evs s m, st') ∧ quiet st st'.
Proof.
  intros [Hwf Hs Hh Hi Hf].
  assert (Hroot : ∃ st', root_Handle s m st
    = Ret (match handler with
           | channelHandler => sub_route svc true evs s m
           | userHandlerWithSkip ignore u => if skips ignore s m then sub_route svc true evs s m else handledBy (uh_id u)
           | rootUser u => handledBy (uh_id u)
           end, st') ∧ quiet st st').
  { unfold root_Handle. run_step. rewrite Hh. destruct handler as [|ignore u|u].
    - by apply sub_dispatch.
    - destruct (skips ignore s m); [by apply sub_dispatch|]. exists st. by split; [|apply quiet_refl].
    - exists st. by split; [|apply quiet_refl]. }
  unfold dispatch, route. run_step. case_decide as Ht; [|exact Hroot].
  unfold hmap_find. unfold mbind at 1, gost_bind at 1. run_step. cbn. rewrite Hi.
  destruct (internal m) as [u|]; [|exact Hroot]. exists st. by split; [|apply quiet_refl].
Qed.

Lemma SetHandler_spec st s h :
  wf st → ∃ st', SetHandler s h st = Ret (tt, st') ∧ wf st' ∧ same st st'
  ∧ hs_subs st' !! s = Some (scUser h)
  ∧ ∀ s', s' ≠ s → (∀ m, view st' s' m = view st s' m)
      ∧ ∀ u, hs_subs st' !! s' = Some (scUser u) ↔ hs_subs st !! s' = Some (scUser u).
Proof.
  intros Hwf. destruct (sub_handler_spec st s Hwf) as (sh & st1 & R1 & (Hwf1 & Hsame & Hv & Hu) & Hs1).
  eexists. split; [unfold SetHandler; run_with R1; reflexivity|].
  destruct Hwf1 as [Hloc Hinj Hint]. split_and!.
  - split; cbn; [| |done].
    + intros s' l [[_ ?]|[_ Hl]]%lookup_insert_Some; [done|by eapply Hloc].
    + intros s1 s2 l [[_ ?]|[_ H1]]%lookup_insert_Some [[_ ?]|[_ H2]]%lookup_insert_Some; try done. by eapply Hinj.
  - done.
  - cbn. apply lookup_insert_eq.
  - intros s' Hne. split.
    + intros m. rewrite <- Hv. unfold view. cbn. by rewrite lookup_insert_ne by done.
    + intros u. rewrite <- Hu. cbn. by rewrite lookup_insert_ne by done.
Qed.

Lemma run_event_Inv svc handler evs st e :
  Inv svc handler evs st → Inv svc handler (evs ++ [e]) (run_event st e).
Proof.
  intros Hinv. pose proof Hinv as [Hwf Hs Hh _ Hf]. destruct e as [s h m|h m|s h|s|s m].
  - destruct (sc_Register_follows svc (is_local handler) evs (evRegister s h m) st s h m Hwf Hf) as (? & ? & ?);
      [by intros; rewrite override_snoc|done|]. by eapply Inv_keeps.
  - unfold run_event, event_op, ch_Register. unfold mbind, gost_bind, gget. rewrite Hh.
    destruct (is_local handler) eqn:Hl.
    + destruct (sc_Register_follows svc true evs (evChannelRegister h m) st svc h m Hwf Hf) as (H1 & H2 & H3);
        [by intros; rewrite override_snoc|intros; cbn; by destruct (decide (svc = s' ∧ m = m')), (decide (true = true ∧ svc = s' ∧ m = m')); naive_solver|].
      rewrite <- Hl in H3. unfold local_Register, mbind, gost_bind, gget in *.
      destruct handler; try done; cbn; rewrite Hs; by eapply Inv_keeps.
    + destruct handler as [| |u]; try done. cbn in Hl.
      assert (Hq : quiet st (match (if uh_registrar u then gmodify (add_passed (uh_id u, h, m)) else gpanic) st with
                             | Ret (_, st') => st' | _ => st end)).
      { destruct (uh_registrar u); [|by apply quiet_refl]. by destruct Hwf; split_and!. }
      apply (Inv_quiet _ _ _ _ st); [done|exact Hq|by intros; rewrite override_snoc|].
      intros s' m'. cbn. by rewrite decide_False by naive_solver.
  - destruct (SetHandler_spec st s h Hwf) as (st' & R & Hwf' & Hsame & Hsub & Hother).
    unfold run_event, event_op. rewrite R. eapply Inv_keeps; try done. intros s'. rewrite override_snoc.
    case_decide as E; [by subst|]. destruct (Hother s') as [Hv Hu]; [done|]. specialize (Hf s').
    destruct (override evs s'); [by apply Hu|]. destruct Hf as [Hn Hm]. split; [intros u Hu'%Hu; by apply (Hn u)|].
    intros m. by rewrite Hv, Hm, registered_snoc.
  - apply (Inv_quiet _ _ _ _ st); [done| |by intros; rewrite override_snoc|done].
    destruct (sub_handler_spec st s Hwf) as (sh & st1 & R1 & Hq & Hs1).
    unfold run_event, event_op, GetHandlers. unfold mbind, gost_bind. rewrite R1.
    destruct sh; [done|by apply quiet_refl].
  - apply (Inv_quiet _ _ _ _ st); [done| |by intros; rewrite override_snoc|done].
    destruct (dispatch_spec svc handler evs st s m Hinv) as (st' & R & Hq).
    unfold run_event, event_op. by unfold mbind, gost_bind; rewrite R.
Qed.

Lemma sub_handler_at st s h : hs_subs st !! s = Some h → sub_handler s st = Ret (h, st).
Proof. unfold sub_handler. run_step. by intros ->. Qed.

Lemma new_channel_Inv svc handler : ∃ st, new_channel svc handler = Ret (tt, st) ∧ Inv svc handler [] st.
Proof.
  set (eps := (<[str "_gometa_runtime" := Some runtime]> (<[str "_gometa_introspect" := Some introspect]> ∅)
    : gmap bytes (option UserHandler))).
  assert (Heps : ∀ m, default None (eps !! m) = internal m).
  { intros m. unfold eps, internal, endpoints. cbn [list_to_map foldr fst snd].
    destruct (decide (m = str "_gometa_runtime")) as [->|H1]; [done|rewrite lookup_insert_ne by done].
    destruct (decide (m = str "_gometa_introspect")) as [->|H2]; [done|].
    rewrite !lookup_insert_ne by done. done. }
  assert (∃ st, new_channel svc handler = Ret (tt, st) ∧ hs_serviceName st = svc ∧ hs_handler st = handler
    ∧ hs_internal st = 0%nat ∧ hs_next st = 2%nat ∧ hs_subs st = <[svc := hmapAt 1]> ∅
    ∧ hs_maps st !! 0%nat = Some eps ∧ hs_maps st !! 1%nat = Some eps) as (st & R & H1 & H2 & H3 & H4 & H5 & H6 & H7).
  { eexists. split.
    - unfold new_channel, createInternalHandlers, new_handlerMap. unfold mbind at 1, gost_bind at 1. run_step. run_step.
      cbn [mret gost_ret]. unfold mbind at 1, gost_bind at 1. cbn [register_endpoints endpoints]. run_step.
      unfold local_Register, sc_Register. unfold mbind at 1, gost_bind at 1. run_step.
      unfold sub_handler. unfold mbind at 1, gost_bind at 1. run_step. cbn. rewrite lookup_empty.
      unfold new_handlerMap. unfold mbind, gost_bind. cbn. rewrite lookup_insert_eq. reflexivity.
    - cbn. split_and!; try done. }
  exists st. split; [done|]. split; try done.
  - split; rewrite ?H3, ?H4, ?H5; [| |lia].
    + intros s l [[_ [= <-]]|[_ ?]]%lookup_insert_Some; [lia|by rewrite lookup_empty in *].
    + intros s s' l [[<- _]|[_ Ha]]%lookup_insert_Some [[<- _]|[_ Hb]]%lookup_insert_Some; try done;
        by rewrite lookup_empty in *.
  - intros m. rewrite H3, H6. apply Heps.
  - intros s. cbn. rewrite H5. split.
    + intros h [[_ ?]|[_ ?]]%lookup_insert_Some; [done|by rewrite lookup_empty in *].
    + intros m. unfold view, registered. rewrite H5. cbn. destruct (decide (s = svc)) as [->|Hne].
      * rewrite lookup_insert_eq, H7. apply Heps.
      * by rewrite lookup_insert_ne, lookup_empty by done.
Qed.

(** C12: routing: for every channel and every history of registrations, SetHandlers and
    calls, the next call goes where the history says: to an internal handler if
    it is for one under the name tchannel; else to the handler of the channel's
    options, unless it is to be skipped for the call; else to the handler of the
    last SetHandler of the service if there has been one; else to the handler that
    was last registered for the service and method; and if there is none, the
    answer is a bad request that names both. *)
Theorem dispatch_routes (svc : bytes) (handler : chHandler) (evs : list event) (s m : bytes) :
  ∃ st0 st', new_channel svc handler = Ret (tt, st0)
  ∧ dispatch s m (run_events evs st0) = Ret (route svc handler evs s m, st').
Proof.
  destruct (new_channel_Inv svc handler) as (st0 & R & Hinv). exists st0.
  assert (Hrun : Inv svc handler evs (run_events evs st0)).
  { induction evs as [|e evs IH] using rev_ind; [done|]. unfold run_events. rewrite foldl_app. cbn.
    by apply run_event_Inv. }
  destruct (dispatch_spec svc handler evs _ s m Hrun) as (st' & Rd & _). by exists st'.
Qed.
End channel.

(** ** SkipHandlerMethods *)

(** The entries of SkipHandlerMethods: either one of them is not of the form
    service::method, with two parts, and it is named; or the call of a service and
    method is skipped exactly when it is one of the entries. *)
Theorem toServiceMethodSet_skips (sms : list bytes) :
  match toServiceMethodSet sms with
  | inr sm => sm ∈ sms ∧ length (Split sm) ≠ 2%nat
  | inl set => ∀ s m, skips set s m = true ↔ ∃ sm, sm ∈ sms ∧ Split sm = [s; m]
  end.
Proof.
  unfold toServiceMethodSet.
  assert (Hgen : ∀ set0, match toServiceMethodSet_from set0 sms with
    | inr sm => sm ∈ sms ∧ length (Split sm) ≠ 2%nat
    | inl set => ∀ s m, skips set s m = true ↔ skips set0 s m = true ∨ ∃ sm, sm ∈ sms ∧ Split sm = [s; m]
    end).
  { induction sms as [|sm sms IH]; intros set0; cbn [toServiceMethodSet_from].
    { set_solver. }
    destruct (Split sm) as [|svc [|method [|]]] eqn:Hs; try (split; [set_solver|rewrite Hs; simpl; lia]).
    specialize (IH (<[svc := {[method]} ∪ default ∅ (set0 !! svc)]> set0)).
    destruct (toServiceMethodSet_from _ sms) as [set|bad]; [|set_solver].
    intros s m. rewrite IH.
    assert (Hcons : (∃ x, x ∈ sm :: sms ∧ Split x = [s; m])
      ↔ [svc; method] = [s; m] ∨ ∃ x, x ∈ sms ∧ Split x = [s; m]).
    { rewrite <- Hs. split.
      - intros (x & [->|Hx]%elem_of_cons & He); [by left|right]. by exists x.
      - intros [He|(x & Hx & He)]; [exists sm|exists x]; (split; [|done]); apply elem_of_cons; auto. }
    rewrite Hcons. clear IH Hcons. unfold skips. rewrite !bool_decide_eq_true.
    destruct (decide (s = svc)) as [->|Hne].
    - rewrite lookup_insert_eq. cbn. rewrite elem_of_union, elem_of_singleton. naive_solver.
    - rewrite lookup_insert_ne by done. naive_solver. }
  specialize (Hgen ∅). destruct (toServiceMethodSet_from ∅ sms) as [set|]; [|done].
  intros s m. rewrite Hgen. unfold skips at 1. rewrite lookup_empty, bool_decide_eq_true.
  split; [intros [Hm|?]; [by apply elem_of_empty in Hm|done]|by right].
Qed.
