(* ===== verification/Hyperbahn.v ===== *)
(** * Advertising with Hyperbahn (hyperbahn/advertise.go, client.go, call.go)

    The client tells Hyperbahn about its services: a few attempts at first, then a
    loop in the background that advertises again about every minute, backs off after
    failures and ends the process after five in a row, unless it is told to ignore
    them.  The calls, the random numbers and the moments when the client is closed
    are inputs; what the client does is a list of actions. *)

From S2P Require Import Prelude Errors Buffer.

Definition second : Z := 1000000000.
Definition maxAdvertiseFailures : Z := 5.
Definition advertiseInterval : Z := 50 * second.
Definition advertiseFuzzInterval : Z := 20 * second.
Definition advertiseRetryInterval : Z := 1 * second.

Inductive FailStrategy := FailStrategyFatal | FailStrategyIgnore.
Inductive Event := UnknownEvent | SendAdvertise | Advertised | Readvertised.

#[export] Instance FailStrategy_eq_dec : EqDecision FailStrategy.
Proof. solve_decision. Defined.

(** UnmarshalText; [None] is the error. *)
Definition UnmarshalText (text : bytes) : option FailStrategy :=
  if decide (text = [] ∨ text = str "fatal") then Some FailStrategyFatal
  else if decide (text = str "ignore") then Some FailStrategyIgnore
  else None.

(** The errors of sendAdvertise: errEphemeralPeer is compared by identity. *)
Inductive advError := errEphemeralPeer | callFailed (e : error).

(** What the client does: calls of its handler's On and OnError (with WillRetry), sleeps
    and the exit of the process. *)
Inductive action := doOn (ev : Event) | doOnError (cause : advError) (willRetry : bool) | doSleep (d : Z) | doExit.

(** The inputs of one attempt: whether the client has been closed and whether the
    channel is ephemeral when it is made, the result of the call, and the random
    numbers of rand.Int63n. *)
Record attempt := mkAttempt {
  at_closed : bool;
  at_ephemeral : bool;
  at_call : option error;
  at_rand : Z → Z
}.

(** rand.Int63n(n) is in [0, n). *)
Definition random (a : attempt) : Prop := ∀ n, 0 < n → 0 <= at_rand a n < n.

Definition fuzzInterval (a : attempt) (interval : Z) : Z := at_rand a interval.
Definition fuzzedAdvertiseInterval (a : attempt) : Z := advertiseInterval + fuzzInterval a advertiseFuzzInterval.

Definition sendAdvertise (a : attempt) : list action * option advError :=
  if at_ephemeral a then ([], Some errEphemeralPeer)
  else ([doOn SendAdvertise], callFailed <$> at_call a).

(** ** The loop *)

(** How the loop ends, or that it is waiting for the next attempt. *)
Inductive loopEnd := looping (sleepFor consecutiveFailures : Z) | closed | exited.

(** One iteration, after c.sleep(sleepFor). *)
Definition advertise_iter (strategy : FailStrategy) (sleepFor consecutiveFailures : Z) (a : attempt)
    : list action * loopEnd :=
  if at_closed a then ([], closed)
  else
    let '(acts, err) := sendAdvertise a in
    match err with
    | Some e =>
        let failures := uint64 (consecutiveFailures + 1) in
        if decide (maxAdvertiseFailures <= failures ∧ strategy = FailStrategyFatal)
        then (acts ++ [doOnError e false; doExit], exited)
        else
          (acts ++ [doOnError e true],
           looping (if decide (failures < maxAdvertiseFailures)
                    then fuzzInterval a (advertiseRetryInterval * Z.shiftl 1 failures) else sleepFor) failures)
    | None => (acts ++ [doOn Readvertised], looping (fuzzedAdvertiseInterval a) 0)
    end.

Fixpoint advertise_from (strategy : FailStrategy) (sleepFor consecutiveFailures : Z) (l : list attempt)
    : list action * loopEnd :=
  match l with
  | [] => ([], looping sleepFor consecutiveFailures)
  | a :: l =>
      let '(acts, e) := advertise_iter strategy sleepFor consecutiveFailures a in
      match e with
      | looping s f =>
          let '(acts', e) := advertise_from strategy s f l in (doSleep sleepFor :: acts ++ acts', e)
      | e => (doSleep sleepFor :: acts, e)
      end
  end.

(** advertiseLoop through the attempts [l]; [a0] gives the first interval. *)
Definition advertiseLoop (strategy : FailStrategy) (a0 : attempt) (l : list attempt) : list action * loopEnd :=
  advertise_from strategy (fuzzedAdvertiseInterval a0) 0 l.

(** ** The first advertisement *)

Fixpoint initialAdvertise_from (n : nat) (attemptNo : Z) (err : option advError) (l : list attempt)
    : go (list action * option advError) :=
  match n with
  | O => Ret ([], err)
  | S n =>
      match l with
      | [] => OutOfFuel
      | a :: l =>
          let '(acts, err) := sendAdvertise a in
          match err with
          | None | Some errEphemeralPeer => Ret (acts, err)
          | Some (callFailed _) =>
              '(acts', err) ← initialAdvertise_from n (attemptNo + 1) err l;
              Ret (acts ++ [doSleep (fuzzInterval a (advertiseRetryInterval * Z.shiftl 1 attemptNo))] ++ acts', err)
          end
      end
  end.
Definition initialAdvertise : list attempt → go (list action * option advError) :=
  initialAdvertise_from (Z.to_nat maxAdvertiseFailures) 0 None.

(** Advertise, and whether the loop is started. *)
Definition Advertise (l : list attempt) : go (list action * option advError * bool) :=
  '(acts, err) ← initialAdvertise l;
  match err with
  | Some e => Ret (acts, Some e, false)
  | None => Ret (acts ++ [doOn Advertised], None, true)
  end.

(** ** When the process is ended, and how long the sleeps are *)

Definition failed (a : attempt) : bool := at_ephemeral a || bool_decide (at_call a ≠ None).

(** The failures at the end of a list of attempts. *)
Fixpoint trailing_from (n : nat) (l : list attempt) : nat :=
  match l with
  | [] => n
  | a :: l => trailing_from (if failed a then S n else 0) l
  end.
Definition trailing : list attempt → nat := trailing_from 0.

Lemma sendAdvertise_failed a : failed a = bool_decide ((sendAdvertise a).2 ≠ None).
Proof.
  unfold failed, sendAdvertise. destruct (at_ephemeral a); cbn [orb snd].
  - symmetry. by apply bool_decide_eq_true_2.
  - by destruct (at_call a).
Qed.

(** An iteration with the number of failures [n] before it. *)
Lemma advertise_iter_spec strategy s n a :
  at_closed a = false → Z.of_nat n + 1 < 2^64 →
  (advertise_iter strategy s (Z.of_nat n) a).2
  = if failed a then
      if decide (5 <= S n ∧ strategy = FailStrategyFatal)%nat then exited
      else looping (if decide (S n < 5)%nat then fuzzInterval a (2 ^ Z.of_nat (S n) * second) else s) (Z.of_nat (S n))
    else looping (fuzzedAdvertiseInterval a) 0.
Proof.
  intros Hc Hn. unfold advertise_iter. rewrite Hc, sendAdvertise_failed.
  destruct (sendAdvertise a) as [acts [e|]]; [|done]. cbn [snd]. rewrite bool_decide_eq_true_2 by done.
  replace (uint64 (Z.of_nat n + 1)) with (Z.of_nat (S n)) by (rewrite uint64_small; lia).
  unfold maxAdvertiseFailures, advertiseRetryInterval.
  destruct (decide (5 <= Z.of_nat (S n) ∧ _)) as [[H1 H2]|H1], (decide (5 <= S n ∧ _)%nat) as [[H3 H4]|H3];
    cbn [snd]; [done|exfalso; apply H3; split; [lia|done]|exfalso; apply H1; split; [lia|done]|].
  f_equal. rewrite Z.shiftl_1_l.
  destruct (decide (Z.of_nat (S n) < 5)), (decide (S n < 5)%nat); try lia. f_equal. lia.
Qed.

Lemma advertise_from_cons strategy s f a l :
  (advertise_from strategy s f (a :: l)).2
  = match (advertise_iter strategy s f a).2 with
    | looping s f => (advertise_from strategy s f l).2
    | e => e
    end.
Proof.
  cbn [advertise_from]. destruct (advertise_iter strategy s f a) as [acts [s' f'| |]]; try done. cbn [snd].
  by destruct (advertise_from strategy s' f' l).
Qed.

(** Five failures in a row, of which [n] have already happened. *)
Definition five_in_a_row (n : nat) (l : list attempt) : Prop :=
  (∃ p rest, l = p ++ rest ∧ (length p + n = 5)%nat ∧ Forall (λ a, failed a = true) p)
  ∨ ∃ pre five post, l = pre ++ five ++ post ∧ length five = 5%nat ∧ Forall (λ a, failed a = true) five.

Lemma five_cons_failed n a l : failed a = true → (n < 5)%nat →
  five_in_a_row n (a :: l) ↔ n = 4%nat ∨ five_in_a_row (S n) l.
Proof.
  intros Ha Hn. split.
  - intros [(p & rest & Hl & Hp & Hf)|(pre & five & post & Hl & H5 & Hf)].
    + destruct p as [|b p]; [simpl in Hp; lia|]. injection Hl as -> ->. inversion Hf; subst.
      right. left. exists p, rest. split_and!; try done. simpl in Hp. lia.
    + destruct pre as [|b pre].
      * destruct five as [|b five]; [done|]. injection Hl as -> ->. inversion Hf; subst. simpl in H5.
        destruct (decide (n = 4%nat)); [by left|right; left].
        exists (take (4 - n) five), (drop (4 - n) five ++ post).
        split_and!; [by rewrite app_assoc, take_drop|rewrite length_take; lia|by apply Forall_take].
      * injection Hl as -> ->. right. right. by exists pre, five, post.
  - intros [->|[(p & rest & -> & Hp & Hf)|(pre & five & post & -> & H5 & Hf)]].
    + left. exists [a], l. by repeat constructor.
    + left. exists (a :: p), rest. split_and!; [done|simpl; lia|by constructor].
    + right. by exists (a :: pre), five, post.
Qed.

Lemma five_cons_ok n a l : failed a = false → (n < 5)%nat → five_in_a_row n (a :: l) ↔ five_in_a_row 0 l.
Proof.
  intros Ha Hn. split.
  - intros [(p & rest & Hl & Hp & Hf)|(pre & five & post & Hl & H5 & Hf)].
    + destruct p as [|b p]; [simpl in Hp; lia|]. injection Hl as -> ->. inversion Hf; subst. congruence.
    + destruct pre as [|b pre]; [|injection Hl as -> ->; right; by exists pre, five, post].
      destruct five as [|b five]; [done|]. injection Hl as -> ->. inversion Hf; subst. congruence.
  - intros [(p & rest & -> & Hp & Hf)|(pre & five & post & -> & H5 & Hf)].
    + right. exists [a], p, rest. split_and!; [done|lia|done].
    + right. by exists (a :: pre), five, post.
Qed.

Lemma fatal_from l : ∀ s n, (n < 5)%nat → Z.of_nat (n + length l) < 2^64 → Forall (λ a, at_closed a = false) l →
  (advertise_from FailStrategyFatal s (Z.of_nat n) l).2 = exited ↔ five_in_a_row n l.
Proof.
  induction l as [|a l IH]; intros s n Hn Hlen Hc.
  { split; [done|]. intros [([|] & rest & [=] & Hp & _)|([|] & [|] & ? & [=] & ? & _)]; simpl in *; try lia; done. }
  inversion Hc as [|? ? Ha Hl]; subst. cbn [length] in Hlen.
  rewrite advertise_from_cons, advertise_iter_spec by (done || lia).
  destruct (failed a) eqn:Hf.
  - rewrite (five_cons_failed n a l Hf Hn). case_decide as H5.
    + split; [|done]. intros _. left. destruct H5 as [H5 _]. lia.
    + assert (S n < 5)%nat by (apply Nat.nle_gt; intros ?; by apply H5).
      rewrite (IH _ (S n)) by (done || lia). split; [by right|]. intros [->|?]; [lia|done].
  - rewrite (five_cons_ok n a l Hf Hn). apply (IH _ 0%nat); [lia|lia|done].
Qed.

Lemma ignore_from l : ∀ s n, Z.of_nat (n + length l) < 2^64 → Forall (λ a, at_closed a = false) l →
  (advertise_from FailStrategyIgnore s (Z.of_nat n) l).2 ≠ exited.
Proof.
  induction l as [|a l IH]; intros s n Hlen Hc; [done|]. inversion Hc as [|? ? Ha Hl]; subst. cbn [length] in Hlen.
  rewrite advertise_from_cons, advertise_iter_spec by (done || lia).
  destruct (failed a); [|apply (IH _ 0%nat); [lia|done]].
  rewrite decide_False by naive_solver. apply (IH _ (S n)); [lia|done].
Qed.

(** The process is ended exactly when five attempts in a row have failed and the strategy is
    FailStrategyFatal: one success in between starts the count again, and with
    FailStrategyIgnore the loop goes on for ever. *)
Theorem advertise_exits (strategy : FailStrategy) (a0 : attempt) (l : list attempt) :
  len l < 2^64 → Forall (λ a, at_closed a = false) l →
  (advertiseLoop strategy a0 l).2 = exited
  ↔ strategy = FailStrategyFatal
    ∧ ∃ pre five post, l = pre ++ five ++ post ∧ length five = 5%nat ∧ Forall (λ a, failed a = true) five.
Proof.
  intros Hlen Hc. unfold advertiseLoop. destruct strategy.
  - rewrite (fatal_from l _ 0%nat) by (done || lia). split.
    + intros [(p & rest & -> & Hp & Hf)|H5]; [|done]. split; [done|]. exists [], p, rest. split_and!; [done|lia|done].
    + intros [_ H5]. by right.
  - split; [|by intros [? _]]. intros He. by destruct (ignore_from l (fuzzedAdvertiseInterval a0) 0%nat).
Qed.

(** The interval that follows [f] failures. *)
Definition sleep_ok (f : nat) (s : Z) : Prop :=
  if decide (f = 0%nat) then advertiseInterval <= s < advertiseInterval + advertiseFuzzInterval
  else 0 <= s < 2 ^ Z.of_nat (f `min` 4) * second.

Lemma first_sleep_ok a : random a → sleep_ok 0 (fuzzedAdvertiseInterval a).
Proof.
  intros Hr. unfold sleep_ok. rewrite decide_True by done. unfold fuzzedAdvertiseInterval, fuzzInterval.
  pose proof (Hr advertiseFuzzInterval eq_refl). lia.
Qed.

Lemma sleep_from strategy l : ∀ s n, sleep_ok n s → Z.of_nat (n + length l) < 2^64 →
  Forall (λ a, at_closed a = false ∧ random a) l →
  match (advertise_from strategy s (Z.of_nat n) l).2 with
  | looping s' f => f = Z.of_nat (trailing_from n l) ∧ sleep_ok (trailing_from n l) s'
  | closed => False
  | exited => True
  end.
Proof.
  induction l as [|a l IH]; intros s n Hs Hlen Hc; [done|]. inversion Hc as [|? ? [Ha Hr] Hl]; subst.
  cbn [length trailing_from] in *. rewrite advertise_from_cons, advertise_iter_spec by (done || lia).
  destruct (failed a).
  - case_decide; [done|]. apply (IH _ (S n)); [|lia|done]. clear IH. unfold sleep_ok in *. rewrite decide_False by lia.
    destruct (decide (S n < 5)%nat) as [Hn|Hn].
    + rewrite Nat.min_l by lia. apply Hr. unfold second. lia.
    + rewrite decide_False in Hs by lia. rewrite Nat.min_r in * by lia. done.
  - apply (IH _ 0%nat); [|lia|done]. by apply first_sleep_ok.
Qed.

(** The intervals: after a success (and at the start) the loop sleeps for 50 to 70
    seconds; after f failures in a row for less than 2, 4, 8 or 16 seconds, and the
    backoff stays at the fourth.  The count of the failures is exact. *)
Theorem advertise_backoff (strategy : FailStrategy) (a0 : attempt) (l : list attempt) :
  len l < 2^64 → random a0 → Forall (λ a, at_closed a = false ∧ random a) l →
  match (advertiseLoop strategy a0 l).2 with
  | looping s f => f = Z.of_nat (trailing l) ∧ sleep_ok (trailing l) s
  | closed => False
  | exited => True
  end.
Proof.
  intros Hlen Ha0 Hc. apply (sleep_from strategy l _ 0%nat); [by apply first_sleep_ok|lia|done].
Qed.

(** An attempt that is worth another one. *)
Definition retried (a : attempt) : Prop := at_ephemeral a = false ∧ at_call a ≠ None.

(** The first advertisement gives up after five failed calls, or at once when the
    channel is ephemeral; it succeeds when one of the five attempts does. *)
Lemma initialAdvertise_spec n k err l : (n <= length l)%nat → (n = 0%nat → err ≠ None) →
  ∃ acts err', initialAdvertise_from n k err l = Ret (acts, err')
  ∧ (err' = None ↔ ∃ pre a post, l = pre ++ a :: post ∧ (length pre < n)%nat ∧ Forall retried pre ∧ failed a = false).
Proof.
  revert k err l. induction n as [|n IH]; intros k err l Hl He.
  { exists [], err. split; [done|]. split; [intros ->; by destruct (He eq_refl)|]. intros (? & ? & ? & _ & ? & _). lia. }
  destruct l as [|a l]; [simpl in Hl; lia|]. cbn [initialAdvertise_from].
  assert (Hstop : ∀ (acts : list action) (err' : option advError), (err' = None ↔ failed a = false) → ¬ retried a →
    ∃ acts' err'', Ret (acts, err') = Ret (acts', err'') ∧ (err'' = None ↔ ∃ pre b post,
      a :: l = pre ++ b :: post ∧ (length pre < S n)%nat ∧ Forall retried pre ∧ failed b = false)).
  { intros acts err' Hiff Hnr. exists acts, err'. split; [done|]. rewrite Hiff. split.
    - intros Hf. exists [], a, l. split_and!; [done|simpl; lia|constructor|done].
    - intros ([|c pre] & b & post & [= -> ->] & _ & Hpre & Hf); [done|]. by inversion Hpre. }
  unfold sendAdvertise. destruct (at_ephemeral a) eqn:Hep.
  { apply Hstop; [unfold failed; by rewrite Hep|unfold retried; intros [? _]; congruence]. }
  destruct (at_call a) as [e|] eqn:Hcall; cbn [fmap option_fmap option_map].
  - assert (Hr : retried a) by (by split; [|rewrite Hcall]).
    destruct (IH (k + 1) (Some (callFailed e)) l) as (acts & err' & R & Hiff); [simpl in Hl; lia|done|].
    unfold mbind, go_bind. rewrite R. eexists _, err'. split; [reflexivity|]. rewrite Hiff. split.
    + intros (pre & b & post & -> & Hp & Hpre & Hf). exists (a :: pre), b, post.
      split_and!; [done|simpl; lia|by constructor|done].
    + intros ([|c pre] & b & post & [= -> ->] & Hp & Hpre & Hf).
      { unfold failed in Hf. by rewrite Hep, Hcall in Hf. }
      inversion Hpre; subst. exists pre, b, post. split_and!; [done|simpl in Hp; lia|done|done].
  - apply Hstop; [|by intros [_ ?]]. split; [|done]. intros _. unfold failed. by rewrite Hep, Hcall.
Qed.

(** The inputs of the witnesses: calls that fail or succeed, and a random number that is
    half of the bound. *)
Definition example_attempt (ok : bool) : attempt :=
  mkAttempt false false (if ok then None else Some (otherError (str "timeout"))) (λ n, n / 2).

Lemma example_random ok : random (example_attempt ok).
Proof. intros n Hn. cbn. split; [apply Z.div_pos; lia|apply Z.div_lt; lia]. Qed.

Lemma advertise_exits_witness :
  (advertiseLoop FailStrategyFatal (example_attempt true)
    (example_attempt <$> [false; true; false; false; false; false; false])).2 = exited.
Proof.
  apply advertise_exits.
  - vm_compute. reflexivity.
  - repeat constructor.
  - split; [reflexivity|]. exists (example_attempt <$> [false; true]), (example_attempt <$> [false; false; false; false; false]), [].
    split_and!; [reflexivity|reflexivity|repeat constructor].
Defined.

Lemma advertise_backoff_witness :
  match (advertiseLoop FailStrategyIgnore (example_attempt true) (example_attempt <$> [true; false; false])).2 with
  | looping s f => f = 2 ∧ 0 <= s < 4 * second
  | _ => False
  end.
Proof.
  pose proof (advertise_backoff FailStrategyIgnore (example_attempt true) (example_attempt <$> [true; false; false])
    eq_refl (example_random true)
    ltac:(apply Forall_fmap, Forall_forall; intros ok _; split; [reflexivity|apply example_random])) as H.
  vm_compute in H. vm_compute. exact H.
Defined.
