(* ===== verification/Listener.v ===== *)
(** * The listener that waits for Accept (tnet/listener.go)

    Close of a net.Listener can return while another goroutine is in Accept and still
    accepts a connection.  The wrapper counts the goroutines in Accept and lets Close
    wait for them with a condition variable.  Goroutines are modelled by a step
    relation, one step per critical section, per call of the wrapped listener and per
    Broadcast, which is called without the lock.  The theorems show the promise of
    Wrap, that no connection is accepted after Close has returned, and that no wake-up
    of Close is lost. *)

From stdpp Require Import relations.
From S2P Require Import Prelude.

(** ** Goroutines *)

(** Where a goroutine in Accept is; [conn] says whether the wrapped Accept gave a
    connection. *)
Inductive acceptPC :=
| aIncRef                 (** before incRef *)
| aEnter                  (** before the wrapped Accept *)
| aInside                 (** in the wrapped Accept, with a reference to the socket *)
| aDecRef (conn : bool)   (** before decRef *)
| aBroadcast (conn : bool)(** before Broadcast *)
| aDone (conn : bool).

Inductive closePC :=
| cStart                  (** before the wrapped Close *)
| cCheck                  (** before the test of refs *)
| cWaiting                (** in cond.Wait *)
| cDone (failed : bool).

#[export] Instance acceptPC_eq_dec : EqDecision acceptPC.
Proof. solve_decision. Defined.
#[export] Instance closePC_eq_dec : EqDecision closePC.
Proof. solve_decision. Defined.

(** [ls_closed] is the state of the wrapped listener, [ls_accepted] the number of
    connections it has given. *)
Record listenerState := mkListenerState {
  ls_refs : Z;
  ls_closed : bool;
  ls_accepts : gmap nat acceptPC;
  ls_closers : gmap nat closePC;
  ls_accepted : nat
}.

Definition set_accept (i : nat) (pc : acceptPC) (s : listenerState) : listenerState :=
  mkListenerState (ls_refs s) (ls_closed s) (<[i := pc]> (ls_accepts s)) (ls_closers s) (ls_accepted s).
Definition set_closer (i : nat) (pc : closePC) (s : listenerState) : listenerState :=
  mkListenerState (ls_refs s) (ls_closed s) (ls_accepts s) (<[i := pc]> (ls_closers s)) (ls_accepted s).
Definition set_refs (n : Z) (s : listenerState) : listenerState :=
  mkListenerState n (ls_closed s) (ls_accepts s) (ls_closers s) (ls_accepted s).

(** cond.Broadcast: those who wait test refs again. *)
Definition wake (pc : closePC) : closePC := match pc with cWaiting => cCheck | pc => pc end.
Definition broadcast (s : listenerState) : listenerState :=
  mkListenerState (ls_refs s) (ls_closed s) (ls_accepts s) (wake <$> ls_closers s) (ls_accepted s).

(** ** Steps *)

(** incRef and decRef. *)
Definition incRef (i : nat) (s : listenerState) : listenerState := set_accept i aEnter (set_refs (ls_refs s + 1) s).
Definition decRef (i : nat) (conn : bool) (s : listenerState) : listenerState :=
  let newRefs := ls_refs s - 1 in
  set_accept i (if decide (newRefs = 0) then aBroadcast conn else aDone conn) (set_refs newRefs s).

(** One turn of the loop of Close under the lock. *)
Definition check_refs (i : nat) (s : listenerState) : listenerState :=
  set_closer i (if decide (0 < ls_refs s) then cWaiting else cDone false) s.

Inductive step : listenerState → listenerState → Prop :=
(** Accept and Close are called by new goroutines at any time. *)
| step_Accept s i : ls_accepts s !! i = None → step s (set_accept i aIncRef s)
| step_Close s i : ls_closers s !! i = None → step s (set_closer i cStart s)
| step_incRef s i : ls_accepts s !! i = Some aIncRef → step s (incRef i s)
(** A closed net.Listener refuses Accept at once. *)
| step_enter s i : ls_accepts s !! i = Some aEnter → ls_closed s = false → step s (set_accept i aInside s)
| step_refused s i : ls_accepts s !! i = Some aEnter → ls_closed s = true → step s (set_accept i (aDecRef false) s)
(** Inside, a connection can come in even when the listener has been closed. *)
| step_accepted s i : ls_accepts s !! i = Some aInside →
    step s (mkListenerState (ls_refs s) (ls_closed s) (<[i := aDecRef true]> (ls_accepts s)) (ls_closers s) (S (ls_accepted s)))
| step_error s i : ls_accepts s !! i = Some aInside → ls_closed s = true → step s (set_accept i (aDecRef false) s)
| step_decRef s i conn : ls_accepts s !! i = Some (aDecRef conn) → step s (decRef i conn s)
| step_broadcast s i conn : ls_accepts s !! i = Some (aBroadcast conn) → step s (set_accept i (aDone conn) (broadcast s))
(** The wrapped Close fails when the listener has been closed before. *)
| step_close s i : ls_closers s !! i = Some cStart → ls_closed s = false →
    step s (set_closer i cCheck (mkListenerState (ls_refs s) true (ls_accepts s) (ls_closers s) (ls_accepted s)))
| step_close_again s i : ls_closers s !! i = Some cStart → ls_closed s = true → step s (set_closer i (cDone true) s)
| step_check s i : ls_closers s !! i = Some cCheck → step s (check_refs i s).

Definition init : listenerState := mkListenerState 0 false ∅ ∅ 0.
Definition reachable (s : listenerState) : Prop := rtc step init s.

(** ** The invariant *)

(** The goroutines that are counted. *)
Definition holds (pc : acceptPC) : bool := match pc with aEnter | aInside | aDecRef _ => true | _ => false end.
Definition holders (m : gmap nat acceptPC) : gmap nat acceptPC := filter (λ p, holds p.2 = true) m.

Definition broadcasting (s : listenerState) : Prop := ∃ i conn, ls_accepts s !! i = Some (aBroadcast conn).

Record Inv (s : listenerState) : Prop := {
  inv_refs : ls_refs s = Z.of_nat (size (holders (ls_accepts s)));
  inv_closed i pc : ls_closers s !! i = Some pc → pc ≠ cStart → ls_closed s = true;
  inv_done i j : ls_closers s !! i = Some (cDone false) → ls_accepts s !! j ≠ Some aInside;
  inv_waiting i : ls_closers s !! i = Some cWaiting → 0 < ls_refs s ∨ broadcasting s
}.

Lemma holders_insert m i pc pc' :
  m !! i = Some pc → Z.of_nat (size (holders (<[i := pc']> m)))
  = Z.of_nat (size (holders m)) - (if holds pc then 1 else 0) + (if holds pc' then 1 else 0).
Proof.
  intros Hi.
  assert (Hsize : ∀ pc, size (holders (<[i := pc]> m)) = (size (holders (delete i m)) + if holds pc then 1 else 0)%nat).
  { intros q. rewrite <- insert_delete_eq. unfold holders. destruct (holds q) eqn:Hq.
    - rewrite map_filter_insert_True by done.
      rewrite map_size_insert_None; [lia|]. apply map_lookup_filter_None. left. apply lookup_delete_eq.
    - rewrite map_filter_insert_not' by (cbn; rewrite ?Hq; intros; done || by rewrite lookup_delete_eq in *). lia. }
  rewrite Hsize. rewrite <- (insert_id m i pc) at 2 by done. rewrite Hsize. destruct (holds pc), (holds pc'); lia.
Qed.

Definition is_broadcast (pc : acceptPC) : bool := match pc with aBroadcast _ => true | _ => false end.

(** A goroutine in Accept moves on. *)
Lemma Inv_move s i pc pc' refs n :
  Inv s → ls_accepts s !! i = Some pc → is_broadcast pc = false →
  refs = ls_refs s - (if holds pc then 1 else 0) + (if holds pc' then 1 else 0) →
  (pc' = aInside → ls_closed s = false) → (refs <= 0 → ls_refs s <= 0 ∨ is_broadcast pc' = true) →
  Inv (mkListenerState refs (ls_closed s) (<[i := pc']> (ls_accepts s)) (ls_closers s) n).
Proof.
  intros [Hrefs Hclosed Hdone Hwait] Hi Hb -> Hin Hz. split; cbn.
  - by rewrite (holders_insert _ i pc) by done; rewrite Hrefs.
  - exact Hclosed.
  - intros c j Hc. destruct (decide (j = i)) as [->|Hne].
    + rewrite lookup_insert_eq. intros [= ->]. specialize (Hclosed c _ Hc). rewrite Hin in Hclosed by done.
      by discriminate Hclosed.
    + rewrite lookup_insert_ne by done. by eapply Hdone.
  - intros c Hc.
    assert (Hold : broadcasting s → ∃ j conn, <[i := pc']> (ls_accepts s) !! j = Some (aBroadcast conn)).
    { intros (j & conn & Hj). exists j, conn. destruct (decide (j = i)) as [->|Hne]; [|by rewrite lookup_insert_ne].
      rewrite Hi in Hj. injection Hj as ->. done. }
    destruct (decide (0 < ls_refs s - (if holds pc then 1 else 0) + (if holds pc' then 1 else 0))) as [|Hle]; [by left|right].
    destruct (Hwait c Hc) as [Hp|Hbr]; [|by apply Hold].
    destruct Hz as [?|Hb']; [lia|lia|]. destruct pc'; try done. exists i. eexists. cbn. by rewrite lookup_insert_eq.
Qed.

Lemma Inv_step s s' : Inv s → step s s' → Inv s'.
Proof.
  intros Hinv Hstep. destruct Hstep as [s i Hi|s i Hi|s i Hi|s i Hi Hc|s i Hi Hc|s i Hi|s i Hi Hc|s i conn Hi|s i conn Hi
    |s i Hi Hc|s i Hi Hc|s i Hi].
  - (* Accept *) destruct Hinv as [Hrefs Hclosed Hdone Hwait]. split; cbn; try done.
    + unfold holders. by rewrite map_filter_insert_not' by (cbn; intros; congruence).
    + intros c j Hj. rewrite lookup_insert_Some. intros [[_ ?]|[_ ?]]; [done|]. by eapply Hdone.
    + intros c Hj. destruct (Hwait c Hj) as [?|(j & conn & Hb)]; [by left|right].
      exists j, conn. cbn. rewrite lookup_insert_ne; [done|]. congruence.
  - (* Close *) destruct Hinv as [Hrefs Hclosed Hdone Hwait]. split; cbn; try done.
    + intros c pc [[_ <-]|[_ Hp]]%lookup_insert_Some; [done|]. by eapply Hclosed.
    + intros c j [[_ ?]|[_ Hp]]%lookup_insert_Some; [done|]. by eapply Hdone.
    + intros c [[_ ?]|[_ Hp]]%lookup_insert_Some; [done|]. by apply (Hwait c).
  - apply (Inv_move s i aIncRef); try done; cbn; lia.
  - apply (Inv_move s i aEnter); try done; cbn; lia.
  - apply (Inv_move s i aEnter); try done; cbn; lia.
  - apply (Inv_move s i aInside); try done; cbn; lia.
  - apply (Inv_move s i aInside); try done; cbn; lia.
  - unfold decRef. case_decide as Hz; apply (Inv_move s i (aDecRef conn)); try done; cbn; [lia|by right|lia|].
    destruct Hinv as [Hrefs _ _ _]. intros Hneg. left. rewrite Hrefs in *. lia.
  - (* Broadcast *) destruct Hinv as [Hrefs Hclosed Hdone Hwait]. split; cbn; try done.
    + rewrite (holders_insert _ i (aBroadcast conn)) by done. cbn. lia.
    + intros c pc. rewrite lookup_fmap. destruct (ls_closers s !! c) as [q|] eqn:Hq; [|done].
      intros [= <-] Hne. apply (Hclosed c q Hq). by intros ->.
    + intros c j. rewrite lookup_fmap. destruct (ls_closers s !! c) as [q|] eqn:Hq; [|done].
      intros [= Hw]. rewrite lookup_insert_Some. intros [[_ ?]|[_ ?]]; [done|].
      apply (Hdone c j); [|done]. rewrite Hq. destruct q; cbn in Hw; congruence.
    + intros c. rewrite lookup_fmap. destruct (ls_closers s !! c) as [q|] eqn:Hq; [|done].
      intros [= Hw]. by destruct q.
  - (* the wrapped Close *) destruct Hinv as [Hrefs Hclosed Hdone Hwait]. split; cbn; try done.
    + intros c j [[_ ?]|[_ Hp]]%lookup_insert_Some; [done|]. by eapply Hdone.
    + intros c [[_ ?]|[_ Hp]]%lookup_insert_Some; [done|]. by apply (Hwait c).
  - destruct Hinv as [Hrefs Hclosed Hdone Hwait]. split; cbn; try done.
    + intros c j [[_ ?]|[_ Hp]]%lookup_insert_Some; [done|]. by eapply Hdone.
    + intros c [[_ ?]|[_ Hp]]%lookup_insert_Some; [done|]. by apply (Hwait c).
  - (* the test of refs *) destruct Hinv as [Hrefs Hclosed Hdone Hwait].
    assert (Hcl : ls_closed s = true) by (by apply (Hclosed i cCheck)). split; cbn; try done.
    + intros c j [[_ He]|[_ Hp]]%lookup_insert_Some; [|by eapply Hdone]. case_decide as Hz; [done|].
      intros Hin. assert (holders (ls_accepts s) = ∅) as Hemp by (apply map_size_empty_inv; lia).
      assert (holders (ls_accepts s) !! j = Some aInside) as Hj by (by apply map_lookup_filter_Some).
      by rewrite Hemp, lookup_empty in Hj.
    + intros c [[_ He]|[_ Hp]]%lookup_insert_Some; [|by apply (Hwait c)]. case_decide; [by left|done].
Qed.

Lemma reachable_Inv s : reachable s → Inv s.
Proof.
  revert s. apply (rtc_ind_r (R := step)).
  - split; cbn; [done|..]; by intros *; rewrite lookup_empty.
  - intros y z _ Hs HI. by eapply Inv_step.
Qed.

(** ** The promise of Wrap *)

(** C21: once a Close has returned without an error, no connection is accepted any more,
    however many goroutines are in Accept, call it or call Close later. *)
Theorem close_ends_accepting s s' i :
  reachable s → ls_closers s !! i = Some (cDone false) → rtc step s s' → ls_accepted s' = ls_accepted s.
Proof.
  intros Hr Hi Hsteps. apply reachable_Inv in Hr.
  assert (Hgen : Inv s' ∧ ls_closers s' !! i = Some (cDone false) ∧ ls_accepted s' = ls_accepted s); [|apply Hgen].
  induction Hsteps as [s|s1 s2 s3 Hstep _ IH]; [done|].
  assert (Hi2 : ls_closers s2 !! i = Some (cDone false)).
  { destruct Hstep; cbn; try done; try (rewrite lookup_insert_ne; [done|congruence]).
    by rewrite lookup_fmap, Hi. }
  destruct (IH (Inv_step _ _ Hr Hstep) Hi2) as (H1 & H2 & H3). split_and!; try done. rewrite H3.
  destruct Hstep; cbn; try done. destruct (inv_done _ Hr i i0); done.
Qed.

(** No wake-up is lost: when every goroutine that was in Accept has left it, no Close is
    left in Wait, and the next turn of its loop ends it. *)
Theorem close_is_woken s i pc :
  reachable s → (∀ j q, ls_accepts s !! j = Some q → ∃ conn, q = aDone conn) → ls_closers s !! i = Some pc →
  pc ≠ cWaiting ∧ (pc = cCheck → ∃ s', step s s' ∧ ls_closers s' !! i = Some (cDone false)).
Proof.
  intros Hr Hdone Hi. apply reachable_Inv in Hr as [Hrefs _ _ Hwait].
  assert (Hz : ls_refs s = 0).
  { rewrite Hrefs. assert (holders (ls_accepts s) = ∅) as ->; [|by rewrite map_size_empty].
    apply map_empty. intros j. apply map_lookup_filter_None. right. intros q Hq. cbn.
    by destruct (Hdone j q Hq) as [conn ->]. }
  split.
  - intros ->. destruct (Hwait i Hi) as [?|(j & conn & Hj)]; [lia|]. by destruct (Hdone j _ Hj).
  - intros ->. eexists. split; [by apply (step_check s i)|]. cbn. by rewrite lookup_insert_eq, Hz.
Qed.

(** A Close that waits for an Accept, which still accepts a connection. *)
Definition example_run : listenerState :=
  let s1 := set_accept 0 aInside (incRef 0 (set_accept 0 aIncRef init)) in
  let s2 := set_closer 0 cStart s1 in
  let s3 := set_closer 0 cCheck (mkListenerState (ls_refs s2) true (ls_accepts s2) (ls_closers s2) (ls_accepted s2)) in
  let s4 := check_refs 0 s3 in
  let s5 := mkListenerState (ls_refs s4) (ls_closed s4) (<[0%nat := aDecRef true]> (ls_accepts s4)) (ls_closers s4) (S (ls_accepted s4)) in
  set_accept 0 (aDone true) (broadcast (decRef 0 true s5)).

Lemma example_reachable : reachable example_run.
Proof.
  unfold reachable, example_run.
  eapply rtc_l; [by apply (step_Accept _ 0)|].
  eapply rtc_l; [by apply (step_incRef _ 0)|].
  eapply rtc_l; [by apply (step_enter _ 0)|].
  eapply rtc_l; [by apply (step_Close _ 0)|].
  eapply rtc_l; [by apply (step_close _ 0)|].
  eapply rtc_l; [by apply (step_check _ 0)|].
  eapply rtc_l; [by apply (step_accepted _ 0)|].
  eapply rtc_l; [by apply (step_decRef _ 0 true)|].
  eapply rtc_l; [by apply (step_broadcast _ 0 true)|].
  apply rtc_refl.
Qed.

Lemma close_ends_accepting_witness :
  ls_accepted (set_accept 1 aIncRef (check_refs 0 example_run)) = ls_accepted (check_refs 0 example_run).
Proof.
  apply (close_ends_accepting (check_refs 0 example_run) (set_accept 1 aIncRef (check_refs 0 example_run)) 0).
  - eapply rtc_r; [exact example_reachable|]. apply step_check. reflexivity.
  - reflexivity.
  - apply rtc_once. apply step_Accept. reflexivity.
Defined.

Lemma close_is_woken_witness :
  ∃ s', step example_run s' ∧ ls_closers s' !! 0%nat = Some (cDone false).
Proof.
  apply (proj2 (close_is_woken example_run 0 cCheck example_reachable
    ltac:(intros j q Hq; exists true; unfold example_run in Hq; cbn in Hq;
          destruct j as [|j]; [by injection Hq as <-|exfalso];
          repeat (rewrite lookup_insert_ne in Hq by done); by rewrite lookup_empty in Hq)
    eq_refl) eq_refl).
Defined.
