(* ===== verification/Registry.v ===== *)
(** * All channels of a process (all_channels.go)

    The channels of a process by service name; a channel is its id and its service name.
    Removing a channel puts the last one of the name into its place.  The theorem shows
    that exactly the channels that have been created and not closed are found. *)

From S2P Require Import Prelude.

Record chan := mkChan { chID : Z; ch_ServiceName : bytes }.

#[export] Instance chan_eq_dec : EqDecision chan.
Proof. solve_decision. Defined.

Notation channelMap := (gmap bytes (list chan)).

Definition registerNewChannel (ch : chan) (existing : channelMap) : channelMap :=
  <[ch_ServiceName ch := default [] (existing !! ch_ServiceName ch) ++ [ch]]> existing.

(** The loop of removeClosedChannel: [before] has been passed. *)
Fixpoint remove_loop (ch : chan) (before channels : list chan) : list chan :=
  match channels with
  | [] => before
  | v :: rest =>
      if decide (v = ch) then
        let l := before ++ v :: rest in
        removelast (<[length before := default v (last l)]> l)
      else remove_loop ch (before ++ [v]) rest
  end.

Definition removeClosedChannel (ch : chan) (existing : channelMap) : channelMap :=
  <[ch_ServiceName ch := remove_loop ch [] (default [] (existing !! ch_ServiceName ch))]> existing.

(** The channels in the order of the iteration, which is any. *)
Definition findChannelByID (id : Z) (existing : channelMap) : option chan :=
  find (λ ch, bool_decide (chID ch = id)) (concat (map_to_list existing).*2).

(** ** Which channels are found *)

Lemma remove_loop_perm ch l : ∀ before, ch ∉ before → ch ∈ l →
  remove_loop ch before l ++ [ch] ≡ₚ before ++ l.
Proof.
  induction l as [|v l IH]; intros before Hb Hin; [by apply elem_of_nil in Hin|].
  cbn [remove_loop]. case_decide as Hv.
  - subst v. destruct l as [|y l' _] using rev_ind.
    + rewrite last_snoc. cbn [default from_option id]. rewrite insert_app_r_alt by lia.
      rewrite Nat.sub_diag. cbn. by rewrite removelast_last.
    + rewrite app_comm_cons, app_assoc, last_snoc. cbn [default from_option id].
      rewrite insert_app_l by (rewrite length_app; simpl; lia).
      rewrite removelast_last. rewrite insert_app_r_alt by lia. rewrite Nat.sub_diag. cbn.
      rewrite <- !app_assoc. f_equiv. cbn. rewrite (Permutation_app_comm l' [ch]), (Permutation_app_comm l' [y]). cbn.
      apply perm_swap.
  - apply elem_of_cons in Hin as [->|Hin]; [done|].
    rewrite IH; [by rewrite <- app_assoc|by rewrite not_elem_of_app, list_elem_of_singleton|done].
Qed.

Lemma remove_loop_absent ch l : ∀ before, ch ∉ l → remove_loop ch before l = before ++ l.
Proof.
  induction l as [|v l IH]; intros before Hin; cbn; [by rewrite app_nil_r|].
  apply not_elem_of_cons in Hin as [Hv Hin]. rewrite decide_False by congruence.
  by rewrite IH, <- app_assoc.
Qed.

Inductive event := created (ch : chan) | closed (ch : chan).

Definition run_event (existing : channelMap) (e : event) : channelMap :=
  match e with
  | created ch => registerNewChannel ch existing
  | closed ch => removeClosedChannel ch existing
  end.
Definition run_events : list event → channelMap := foldl run_event ∅.

(** The channels that were created by a history, and those that are open after it. *)
Definition creations (evs : list event) : list chan :=
  omap (λ e, match e with created ch => Some ch | closed _ => None end) evs.
Definition live_after (l : list chan) (e : event) : list chan :=
  match e with created ch => l ++ [ch] | closed ch => filter (λ c, c ≠ ch) l end.
Definition live : list event → list chan := foldl live_after [].

Notation at_name existing name := (default [] ((existing : channelMap) !! name)).

Record Inv (existing : channelMap) (evs : list event) : Prop := {
  inv_name name ch : ch ∈ at_name existing name → ch_ServiceName ch = name;
  inv_nodup name : NoDup (at_name existing name);
  inv_live ch : ch ∈ at_name existing (ch_ServiceName ch) ↔ ch ∈ live evs
}.

Lemma live_created evs ch : ch ∈ live evs → ch ∈ creations evs.
Proof.
  induction evs as [|e evs IH] using rev_ind; [done|]. unfold live, creations. rewrite foldl_app, omap_app. cbn.
  rewrite elem_of_app. destruct e as [c|c]; cbn.
  - rewrite elem_of_app, list_elem_of_singleton. intros [?| ->]; [by left; apply IH|right; by constructor].
  - rewrite list_elem_of_filter. intros [_ ?]. left. by apply IH.
Qed.

Lemma Inv_created existing evs ch :
  Inv existing evs → ch ∉ creations evs → Inv (registerNewChannel ch existing) (evs ++ [created ch]).
Proof.
  intros [Hname Hnd Hlive] Hnew.
  assert (Hfresh : ch ∉ at_name existing (ch_ServiceName ch)) by (intros Hin; by apply Hnew, live_created, Hlive).
  assert (Hat : ∀ name, at_name (registerNewChannel ch existing) name
    = at_name existing name ++ (if decide (name = ch_ServiceName ch) then [ch] else [])).
  { intros name. unfold registerNewChannel. case_decide as Hn; [subst; by rewrite lookup_insert_eq|].
    by rewrite lookup_insert_ne, app_nil_r. }
  split.
  - intros name c. rewrite Hat, elem_of_app. case_decide as Hn; [|intros [?|Hx]; [by apply Hname|by apply elem_of_nil in Hx]].
    rewrite list_elem_of_singleton. intros [Hx|Hx]; [by apply Hname|by subst].
  - intros name. rewrite Hat. case_decide as Hn; [subst|by rewrite app_nil_r]. apply NoDup_app.
    split_and!; [done| |apply NoDup_singleton]. intros c Hc Hc'. apply list_elem_of_singleton in Hc' as ->. done.
  - intros c. rewrite Hat. unfold live. rewrite foldl_app. cbn. rewrite !elem_of_app, Hlive, list_elem_of_singleton.
    case_decide as Hn; [by rewrite list_elem_of_singleton|]. rewrite elem_of_nil. naive_solver.
Qed.

Lemma Inv_closed existing evs ch : Inv existing evs → Inv (removeClosedChannel ch existing) (evs ++ [closed ch]).
Proof.
  intros [Hname Hnd Hlive].
  assert (Hat : ∀ name c, c ∈ at_name (removeClosedChannel ch existing) name ↔ c ∈ at_name existing name ∧ c ≠ ch).
  { intros name c. unfold removeClosedChannel. destruct (decide (name = ch_ServiceName ch)) as [->|Hn].
    - rewrite lookup_insert_eq. cbn. destruct (decide (ch ∈ at_name existing (ch_ServiceName ch))) as [Hin|Hout].
      + pose proof (remove_loop_perm ch _ [] (not_elem_of_nil ch) Hin) as Hp. cbn in Hp.
        pose proof (Hnd (ch_ServiceName ch)) as Hn. rewrite <- Hp in Hn. apply NoDup_app in Hn as (_ & Hd & _).
        remember (remove_loop ch [] (at_name existing (ch_ServiceName ch))) as l' eqn:El. clear El.
        rewrite <- Hp, elem_of_app, list_elem_of_singleton. split; [|naive_solver].
        intros Hc. split; [by left|]. intros ->. by apply (Hd ch Hc), list_elem_of_singleton.
      + rewrite remove_loop_absent by done. cbn. split; [|naive_solver]. intros Hc. split; [done|]. by intros ->.
    - rewrite lookup_insert_ne by done. split; [|naive_solver]. intros Hc. split; [done|]. intros ->.
      by apply Hn, eq_sym, Hname. }
  split.
  - intros name c [Hc _]%Hat. by apply Hname.
  - intros name. unfold removeClosedChannel. destruct (decide (name = ch_ServiceName ch)) as [->|Hn];
      [rewrite lookup_insert_eq|by rewrite lookup_insert_ne]. cbn.
    destruct (decide (ch ∈ at_name existing (ch_ServiceName ch))) as [Hin|Hout].
    + pose proof (remove_loop_perm ch _ [] (not_elem_of_nil ch) Hin) as Hp. cbn in Hp.
      pose proof (Hnd (ch_ServiceName ch)) as Hn. rewrite <- Hp in Hn. by apply NoDup_app in Hn as (? & _ & _).
    + rewrite remove_loop_absent by done. apply Hnd.
  - intros c. rewrite Hat, Hlive. unfold live. rewrite foldl_app. cbn. rewrite list_elem_of_filter. naive_solver.
Qed.

(** For every history in which no two channels have the same id, the channel that is found
    under an id is the one that is open with it. *)
Theorem registry_finds evs id :
  NoDup (chID <$> creations evs) →
  ∀ ch, findChannelByID id (run_events evs) = Some ch ↔ ch ∈ live evs ∧ chID ch = id.
Proof.
  intros Hnd.
  assert (Hinv : Inv (run_events evs) evs).
  { induction evs as [|e evs IH] using rev_ind.
    - split; intros *; unfold run_events; cbn; rewrite lookup_empty; cbn; rewrite ?elem_of_nil; done || constructor.
    - unfold creations in Hnd. rewrite omap_app, fmap_app in Hnd. apply NoDup_app in Hnd as (Hnd & Hdis & _).
      specialize (IH Hnd). unfold run_events. rewrite foldl_app. destruct e as [c|c]; cbn; [|by apply Inv_closed].
      apply Inv_created; [done|]. intros Hc. apply (Hdis (chID c)); [by apply list_elem_of_fmap_2|cbn; by constructor]. }
  assert (Hall : ∀ c, c ∈ concat (map_to_list (run_events evs)).*2 ↔ c ∈ live evs).
  { intros c. rewrite <- (inv_live _ _ Hinv), list_elem_of_In, in_concat. setoid_rewrite <- list_elem_of_In. split.
    - intros (l & [[name l'] [-> Hl]]%list_elem_of_fmap & Hc). apply elem_of_map_to_list in Hl. cbn in *.
      assert (Hat : c ∈ at_name (run_events evs) name) by (by rewrite Hl).
      by rewrite (inv_name _ _ Hinv name c Hat).
    - intros Hc. destruct (run_events evs !! ch_ServiceName c) as [l|] eqn:Hl; [|by apply elem_of_nil in Hc].
      exists l. split; [|done]. apply list_elem_of_fmap. exists (ch_ServiceName c, l).
      split; [done|]. by apply elem_of_map_to_list. }
  intros ch. unfold findChannelByID. split.
  - intros Hf. apply find_some in Hf as [Hin Hid]. apply bool_decide_eq_true in Hid.
    split; [|done]. apply Hall. by apply list_elem_of_In.
  - intros [Hl Hid]. destruct (find _ _) as [c|] eqn:Hf.
    + apply find_some in Hf as [Hin Hc]. apply bool_decide_eq_true in Hc. apply list_elem_of_In, Hall in Hin. f_equal.
      apply live_created in Hl, Hin. apply list_elem_of_lookup in Hl as [i Hi], Hin as [j Hj].
      assert (i = j) as ->; [|congruence].
      apply (NoDup_lookup _ i j id Hnd); rewrite list_lookup_fmap, ?Hi, ?Hj; cbn; congruence.
    + pose proof (find_none _ _ Hf ch (proj1 (list_elem_of_In _ _) (proj2 (Hall ch) Hl))) as Hn.
      by apply bool_decide_eq_false in Hn.
Qed.
