(* ===== verification/LocalIP.v ===== *)
(** * The address to listen on (localip.go)

    Every address of the network interfaces is scored; the first one with the best score is
    taken.  The interfaces of the machine are an argument. *)

From S2P Require Import Prelude Buffer.

(** net.IP: 4 or 16 bytes. *)
Definition v4InV6Prefix : bytes := replicate 10 x00 ++ [xff; xff].
Definition To4 (ip : bytes) : option bytes :=
  if decide (length ip = 4%nat) then Some ip
  else if decide (length ip = 16%nat ∧ take 12 ip = v4InV6Prefix) then Some (drop 12 ip)
  else None.
Definition IsLoopback (ip : bytes) : bool :=
  match To4 ip with
  | Some (b :: _) => bool_decide (b = x7f)
  | Some [] => false
  | None => bool_decide (ip = replicate 15 x00 ++ [x01])
  end.

(** net.Addr: an IPNet, an IPAddr or anything else. *)
Inductive Addr := IPNet (ip : bytes) | IPAddr (ip : bytes) | otherAddr.

(** The addresses are [None] when Addrs gives an error. *)
Record Interface := mkInterface {
  FlagLoopback : bool;
  FlagUp : bool;
  HardwareAddr : bytes;
  Addrs : option (list Addr)
}.

Definition isLocalMacAddr (addr : bytes) : bool :=
  match addr with
  | [] => false
  | b :: _ => bool_decide (Z.land (Z_of_byte b) 2 = 2)
  end.

Definition score_ip (iface : Interface) (ip : bytes) : Z :=
  (if To4 ip is Some _ then 300 else 0)
  + (if negb (FlagLoopback iface) && negb (IsLoopback ip) then 100 + (if FlagUp iface then 100 else 0) else 0)
  - (if isLocalMacAddr (HardwareAddr iface) then 50 else 0).

Definition scoreAddr (iface : Interface) (addr : Addr) : Z * option bytes :=
  match addr with
  | IPNet ip | IPAddr ip => (score_ip iface ip, Some ip)
  | otherAddr => (-1, None)
  end.

(** The two loops of listenIP; the state is bestScore and bestIP. *)
Definition better (best cand : Z * option bytes) : Z * option bytes :=
  if decide (best.1 < cand.1) then cand else best.
Definition listen_iface (best : Z * option bytes) (iface : Interface) : Z * option bytes :=
  match Addrs iface with
  | None => best
  | Some addrs => foldl (λ best addr, better best (scoreAddr iface addr)) best addrs
  end.

(** [None] is the error that there is no address; the address can be nil. *)
Definition listenIP (interfaces : list Interface) : option (option bytes) :=
  let '(bestScore, bestIP) := foldl listen_iface (-1, None) interfaces in
  if decide (bestScore = -1) then None else Some bestIP.

(** ** The best address *)

(** The scored addresses in the order of the loops. *)
Definition candidates (interfaces : list Interface) : list (Z * option bytes) :=
  concat ((λ iface, scoreAddr iface <$> default [] (Addrs iface)) <$> interfaces).

Lemma listen_fold best interfaces :
  foldl listen_iface best interfaces = foldl better best (candidates interfaces).
Proof.
  revert best. induction interfaces as [|iface l IH]; intros best; [done|]. unfold candidates in *. cbn.
  rewrite foldl_app, IH. f_equal. unfold listen_iface. destruct (Addrs iface) as [addrs|]; [|done]. cbn. clear IH.
  revert best. induction addrs as [|a addrs IH]; intros best; [done|]. cbn. apply IH.
Qed.

Lemma better_fold l : ∀ best, let r := foldl better best l in
  best.1 <= r.1 ∧ Forall (λ c, c.1 <= r.1) l
  ∧ (r = best ∨ ∃ before after, l = before ++ r :: after ∧ best.1 < r.1 ∧ Forall (λ c, c.1 < r.1) before).
Proof.
  induction l as [|c l IH]; intros best; [cbn; split_and!; [lia|constructor|by left]|].
  cbn. specialize (IH (better best c)). cbn in IH. remember (foldl better (better best c) l) as r eqn:E. clear E.
  destruct IH as (Hle & Hall & Hor). unfold better in *. case_decide as Hlt.
  - split_and!; [lia|by constructor|]. destruct Hor as [->|(before & after & -> & Hb & Hf)].
    + right. exists [], l. split_and!; [done|done|constructor].
    + right. exists (c :: before), after. split_and!; [done|lia|by constructor].
  - split_and!; [done|constructor; [lia|done]|]. destruct Hor as [->|(before & after & -> & Hb & Hf)]; [by left|].
    right. exists (c :: before), after. split_and!; [done|done|constructor; [lia|done]].
Qed.

(** The address that is returned has the best score of all, is the first with it and its
    score is not negative; without an address of such a score there is an error. *)
Theorem listenIP_best interfaces :
  match listenIP interfaces with
  | Some ip => ∃ s before after, candidates interfaces = before ++ (s, ip) :: after
      ∧ 0 <= s ∧ Forall (λ c, c.1 < s) before ∧ Forall (λ c, c.1 <= s) after
  | None => Forall (λ c, c.1 < 0) (candidates interfaces)
  end.
Proof.
  unfold listenIP. rewrite listen_fold.
  destruct (better_fold (candidates interfaces) (-1, None)) as (Hle & Hall & Hor).
  destruct (foldl better (-1, None) (candidates interfaces)) as [s ip]. cbn in *. case_decide as Hs.
  - eapply Forall_impl; [exact Hall|]. cbn. lia.
  - destruct Hor as [[= -> _]|(before & after & Heq & _ & Hf)]; [done|].
    exists s, before, after. rewrite Heq in Hall. apply Forall_app in Hall as [_ Hall]. apply Forall_cons in Hall as [_ Hall].
    split_and!; [done|lia|done|done].
Qed.
