(* ===== verification/Metrics.v ===== *)
(** * Names of metrics and scores (stats/metrickey.go, the tags of stats/tally.go,
    peers/prefer.go)

    The name of a metric has a segment for each of a few tags, with the values of the tags
    cleaned of the characters that separate segments.  The rendezvous scores of
    peers/prefer.go are hashes with their machine arithmetic. *)

From S2P Require Import Prelude Buffer.

(** ** metrickey.go *)

Definition dot : byte := x2e.
Definition special : list byte := [x7b; x7d; x2f; x5c; x3a; x2e; x20; x09; x0d; x0a].

Definition writeClean (v : bytes) : bytes := (λ c, if decide (c ∈ special) then x2d else c) <$> v.

Definition addKeys (name : bytes) : list bytes :=
  if decide (str "outbound" `prefix_of` name) then
    [str "service"; str "target-service"; str "target-endpoint"]
    ++ (if decide (str "outbound.calls.retries" `prefix_of` name) then [str "retry-count"] else [])
  else if decide (str "inbound" `prefix_of` name) then [str "calling-service"; str "service"; str "endpoint"]
  else [].

Definition tag_segment (tags : gmap bytes bytes) (k : bytes) : bytes :=
  match tags !! k with Some v => writeClean v | None => str "no-" ++ k end.

Definition MetricWithPrefix (prefix name : bytes) (tags : gmap bytes bytes) : bytes :=
  prefix ++ name ++ concat ((λ k, dot :: tag_segment tags k) <$> addKeys name).
Definition DefaultMetricPrefix : bytes → gmap bytes bytes → bytes := MetricWithPrefix (str "tchannel.").

Definition dots (b : bytes) : nat := length (filter (λ c, c = dot) b).

Lemma dots_app a b : dots (a ++ b) = (dots a + dots b)%nat.
Proof. unfold dots. by rewrite filter_app, length_app. Qed.

Lemma writeClean_clean v : Forall (λ c, c ∉ special) (writeClean v).
Proof.
  unfold writeClean. apply Forall_fmap, Forall_forall. intros c _. cbn. case_decide; [|done].
  apply (bool_decide_unpack _). vm_compute. exact I.
Qed.

Lemma dots_none b : Forall (λ c, c ∉ special) b → dots b = 0%nat.
Proof.
  unfold dots. induction 1 as [|c b Hc _ IH]; [done|]. rewrite filter_cons_False; [done|].
  intros ->. apply Hc. apply (bool_decide_unpack _). vm_compute. exact I.
Qed.

Lemma tag_segment_dots tags name k : k ∈ addKeys name → dots (tag_segment tags k) = 0%nat.
Proof.
  intros Hk. unfold tag_segment. destruct (tags !! k) as [v|]; [apply dots_none, writeClean_clean|].
  assert (Hall : Forall (λ k, dots (str "no-" ++ k) = 0%nat)
    [str "service"; str "target-service"; str "target-endpoint"; str "retry-count"; str "calling-service"; str "endpoint"])
    by (repeat constructor).
  rewrite Forall_forall in Hall. apply Hall. unfold addKeys in Hk.
  repeat case_decide; cbn [app] in Hk; set_solver.
Qed.

(** No value of a tag can add a segment to the name of a metric or take one away. *)
Theorem metric_segments prefix name tags :
  dots (MetricWithPrefix prefix name tags) = (dots prefix + dots name + length (addKeys name))%nat.
Proof.
  unfold MetricWithPrefix. rewrite !dots_app. enough (Hseg : ∀ l, (∀ k, k ∈ l → dots (tag_segment tags k) = 0%nat) →
    dots (concat ((λ k, dot :: tag_segment tags k) <$> l)) = length l).
  { rewrite Hseg; [lia|]. intros k. apply tag_segment_dots. }
  induction l as [|k l IH]; intros Hl; [done|]. cbn [fmap list_fmap concat length]. rewrite dots_app, IH by set_solver.
  unfold dots. rewrite filter_cons_True by done. fold (dots (tag_segment tags k)). cbn [length].
  fold (dots (tag_segment tags k)). rewrite Hl by set_solver. lia.
Qed.

(** ** tally.go *)

Record knownTags := mkKnownTags { kt_dest : bytes; kt_source : bytes; kt_procedure : bytes; kt_retryCount : bytes }.

Definition convertTags (tags : gmap bytes bytes) : knownTags :=
  let get k := default [] (tags !! k) in
  match tags !! str "target-service" with
  | Some ts => mkKnownTags ts (get (str "service")) (get (str "target-endpoint")) (get (str "retry-count"))
  | None =>
      match tags !! str "calling-service" with
      | Some cs => mkKnownTags (get (str "service")) cs (get (str "endpoint")) (get (str "retry-count"))
      | None => mkKnownTags [] [] [] []
      end
  end.

Definition set_tag (k v : bytes) (m : gmap bytes bytes) : gmap bytes bytes :=
  if decide (v = []) then m else <[k := v]> m.
Definition tallyTags (kt : knownTags) : gmap bytes bytes :=
  set_tag (str "retry-count") (kt_retryCount kt)
    (set_tag (str "procedure") (kt_procedure kt)
      (set_tag (str "source") (kt_source kt) (set_tag (str "dest") (kt_dest kt) ∅))).

(** ** prefer.go *)

Definition fnv_initial : Z := 2166136261.
Definition fnv_prime : Z := 16777619.

Definition fnv32a (s : bytes) : Z :=
  foldl (λ hash c, uint32 (Z.lxor hash (Z_of_byte c) * fnv_prime)) fnv_initial s.

Definition mod2_31 (v : Z) : Z := Z.land v (Z.shiftl 1 31 - 1).

Definition NewHRWScorer (clientID : Z) : Z := mod2_31 clientID.

Definition hrw_GetScore (clientID : Z) (hostPort : bytes) : Z :=
  let server := mod2_31 (fnv32a hostPort) in
  let v := uint32 (1103515245 * Z.lxor (uint32 (uint32 (1103515245 * clientID) + 12345)) server) in
  mod2_31 (uint32 (v + 12345)).

(** A score is a number of 31 bits. *)
Lemma hrw_score_bounds clientID hostPort : 0 <= hrw_GetScore clientID hostPort < 2^31.
Proof.
  unfold hrw_GetScore, mod2_31. change (Z.shiftl 1 31 - 1) with (Z.ones 31).
  rewrite Z.land_ones by lia. apply Z.mod_pos_bound. lia.
Qed.
