(* ===== verification/CallStats.v ===== *)
(** * Statistics of calls (createStatsTags, doneReading and doneSending of inbound.go and
    outbound.go, createCommonStats of channel.go)

    Both ends of a call report counters and timers, tagged with the names of the services
    and methods.  The caller reports some of them for each attempt and some once for a
    request, which can have several attempts ([Retry.v]): each attempt decides for itself
    whether it is the last one.  The theorem gives the numbers of reports of a request from
    the outcomes of its attempts.  The reports of an attempt go with the span of the
    attempt; both are sequences of events here. *)

From S2P Require Import Prelude Text Errors Retry Metrics.

Inductive stat :=
| IncCounter (name : bytes) (tags : gmap bytes bytes) (value : Z)
| RecordTimer (name : bytes) (tags : gmap bytes bytes) (d : Z).

Inductive spanEvent := spanLog (e : error) | spanError | spanFinish (t : Z).

(** ** Tags *)

(** createCommonStats; [host] is the result of os.Hostname. *)
Definition createCommonStats (processName serviceName : bytes) (host : bytes + error) : gmap bytes bytes :=
  let tags := {[str "app" := processName; str "service" := serviceName]} in
  match host with
  | inl host => <[str "host" := host]> tags
  | inr _ => tags
  end.

Definition createStatsTags_inbound (callerName : bytes) (connectionTags : gmap bytes bytes) : gmap bytes bytes :=
  connectionTags ∪ {[str "calling-service" := callerName]}.

(** A format that is not HTTP has an endpoint. *)
Definition createStatsTags_outbound (service method : bytes) (format : bytes) (connectionTags : gmap bytes bytes)
    : gmap bytes bytes :=
  let tags := connectionTags ∪ {[str "target-service" := service]} in
  if decide (format ≠ str "http") then <[str "target-endpoint" := method]> tags else tags.

(** What dispatchInbound reports. *)
Definition received (tags : gmap bytes bytes) (method : bytes) : gmap bytes bytes * stat :=
  let tags := <[str "endpoint" := method]> tags in (tags, IncCounter (str "inbound.calls.recvd") tags 1).

(** ** A response that has been sent *)

Definition doneSending_span (now : Z) (applicationError systemError : bool) : list spanEvent :=
  (if applicationError || systemError then [spanError] else []) ++ [spanFinish now].
Definition doneSending_stats (now calledAt : Z) (tags : gmap bytes bytes) (applicationError systemError : bool) : list stat :=
  RecordTimer (str "inbound.calls.latency") tags (now - calledAt) ::
  (if systemError then []
   else if applicationError then [IncCounter (str "inbound.calls.app-errors") tags 1]
   else [IncCounter (str "inbound.calls.success") tags 1]).

(** ** A response that has been read *)

(** CanRetry and HasRetries, also for a nil error, whose code is [ErrCodeInvalid]. *)
Definition CanRetry_nil (r : RetryOn) (err : option error) : bool :=
  if decide (r = RetryNever) then false else
  let r := if decide (r = RetryDefault) then RetryConnectionError else r in
  let code := match err with Some e => getErrCode e | None => GetSystemErrorCode None end in
  if decide (code = ErrCodeBusy) then true else
  if decide (code = ErrCodeDeclined) then true else
  if decide (code = ErrCodeBadRequest) then false else
  match r with
  | RetryConnectionError => bool_decide (code = ErrCodeNetwork)
  | RetryUnexpected => bool_decide (code = ErrCodeUnexpected)
  | RetryIdempotent => true
  | _ => false
  end.
Definition HasRetries_nil (rs : option RequestState) (err : option error) : bool :=
  match rs with
  | None => false
  | Some rs => (Attempt rs <? MaxAttempts (retryOpts rs)) && CanRetry_nil (RetryOptions_RetryOn (retryOpts rs)) err
  end.

Definition lastAttempt (rs : option RequestState) (applicationError : bool) (unexpected : option error) : bool :=
  bool_decide (unexpected = None) && negb applicationError || negb (HasRetries_nil rs unexpected).

Definition doneReading_span (now : Z) (rs : option RequestState) (applicationError : bool) (unexpected : option error)
    : list spanEvent :=
  let isSuccess := bool_decide (unexpected = None) && negb applicationError in
  (match unexpected with Some e => [spanLog e] | None => [] end)
  ++ (if negb isSuccess && lastAttempt rs applicationError unexpected then [spanError] else [])
  ++ [spanFinish now].

Definition doneReading_stats (now startedAt : Z) (rs : option RequestState) (tags : gmap bytes bytes)
    (applicationError : bool) (unexpected : option error) : list stat :=
  let last := lastAttempt rs applicationError unexpected in
  let latency := now - startedAt in
  RecordTimer (str "outbound.calls.per-attempt.latency") tags latency ::
  (if last then [RecordTimer (str "outbound.calls.latency") tags (SinceStart rs now latency)] else [])
  ++ (if decide (0 < RetryCount rs) then
        [IncCounter (str "outbound.calls.retries") (<[str "retry-count" := Itoa (RetryCount rs)]> tags) 1] else [])
  ++ match unexpected with
     | Some _ => []
     | None =>
         if applicationError : bool then
           IncCounter (str "outbound.calls.per-attempt.app-errors") tags 1 ::
           (if last then [IncCounter (str "outbound.calls.app-errors") tags 1] else [])
         else [IncCounter (str "outbound.calls.success") tags 1]
     end.

(** ** The attempts of a request *)

(** What becomes of an attempt: the call does not begin, its arguments cannot be written,
    or its response is read without an error, with an application error, or with an error.
    The clients of this library return no error to the retries for an application error. *)
Inductive attemptOutcome := notBegun (e : error) | notSent (e : error) | success | appError | failed (e : error).

Definition begun (o : attemptOutcome) : bool := match o with notBegun _ => false | _ => true end.
Definition read_ (o : attemptOutcome) : bool := match o with notBegun _ | notSent _ => false | _ => true end.
Definition outcome_error (o : attemptOutcome) : option error :=
  match o with notBegun e | notSent e | failed e => Some e | success | appError => None end.

Section request.
Context (outcomes : nat → attemptOutcome) (times : nat → Z * Z) (tags : gmap bytes bytes).

Definition attempt_stats (i : nat) (rs : RequestState) : list stat :=
  let done appErr err := doneReading_stats (times i).2 (times i).1 (Some rs) tags appErr err in
  let send := IncCounter (str "outbound.calls.send") tags 1 in
  match outcomes i with
  | notBegun _ => []
  | notSent _ => [send]
  | success => send :: done false None
  | appError => send :: done true None
  | failed e => send :: done false (Some e)
  end.

(** One attempt.  An attempt that has [failed] got an error frame: doneReading gets an
    error only for those. *)
Definition oneAttempt : @RetriableFunc (nat * list stat) := λ _ rs '(i, log),
  (outcome_error (outcomes i), rs, (S i, log ++ attempt_stats i rs)).
End request.

Lemma CanRetry_nil_Some r e : CanRetry_nil r (Some e) = CanRetry r e.
Proof. done. Qed.

(** A nil error can be retried only by the option that retries everything. *)
Lemma CanRetry_nil_None r : CanRetry_nil r None = bool_decide (r = RetryIdempotent).
Proof. by destruct r. Qed.

(** ** How often a request reports what *)

Definition stat_name (s : stat) : bytes := match s with IncCounter n _ _ | RecordTimer n _ _ => n end.
Definition reports (name : bytes) (l : list stat) : nat := length (filter (λ s, stat_name s = name) l).
Definition one_if (b : bool) : nat := if b then 1%nat else 0%nat.

Lemma reports_app name l1 l2 : reports name (l1 ++ l2) = (reports name l1 + reports name l2)%nat.
Proof. unfold reports. by rewrite filter_app, length_app. Qed.
Lemma reports_nil name : reports name [] = 0%nat.
Proof. done. Qed.
Lemma reports_cons name s l : reports name (s :: l) = (one_if (bool_decide (stat_name s = name)) + reports name l)%nat.
Proof.
  unfold reports. rewrite filter_cons. by case_decide as H; [rewrite bool_decide_true|rewrite bool_decide_false].
Qed.

Definition total (f : nat → nat) (n : nat) : nat := foldr (λ j acc, f j + acc)%nat 0%nat (seq 0 n).

Section counting.
Context (outcomes : nat → attemptOutcome) (times : nat → Z * Z) (tags : gmap bytes bytes) (opts : RetryOptions) (start : Z).

(** The request state of attempt [j]. *)
Definition state_at (j : nat) : RequestState := mkRequestState start None (Z.of_nat j + 1) opts.
Definition stats_at (j : nat) : list stat := attempt_stats outcomes times tags j (state_at j).

(** What a run of the loop from attempt [i] on does. *)
Lemma attempts_run n : ∀ i err log, (0 < n)%nat →
  ∃ last res, retryLoop (oneAttempt outcomes times tags) opts n err (mkRequestState start None (Z.of_nat i) opts) (i, log)
    = (res, state_at last, (S last, log ++ concat (stats_at <$> seq i (S last - i))))
  ∧ (i <= last < i + n)%nat ∧ res = outcome_error (outcomes last)
  ∧ (∀ j, (i <= j < last)%nat → ∃ e, outcome_error (outcomes j) = Some e ∧ CanRetry (RetryOptions_RetryOn opts) e = true)
  ∧ (∀ e, res = Some e → CanRetry (RetryOptions_RetryOn opts) e = true → S last = (i + n)%nat).
Proof.
  induction n as [|n IH]; intros i err log Hn; [lia|]. cbn [retryLoop].
  unfold oneAttempt at 1. cbn [Start SelectedPeers Attempt retryOpts]. fold (state_at i). fold (stats_at i).
  assert (Hone : concat (stats_at <$> seq i (S i - i)) = stats_at i).
  { replace (S i - i)%nat with 1%nat by lia. cbn. apply app_nil_r. }
  destruct (outcome_error (outcomes i)) as [e|] eqn:Eo.
  2:{ exists i, None. rewrite Hone, Eo. split_and!; [done|lia|lia|done|intros j ?; lia|done]. }
  destruct (CanRetry (RetryOptions_RetryOn opts) e) eqn:Ec.
  2:{ exists i, (Some e). rewrite Hone, Eo. split_and!; [done|lia|lia|done|intros j ?; lia|]. intros e' [= <-]. congruence. }
  destruct n as [|n].
  { exists i, (Some e). rewrite Hone, Eo. split_and!; [done|lia|lia|done|intros j ?; lia|]. intros. lia. }
  destruct (IH (S i) (Some e) (log ++ stats_at i) ltac:(lia)) as (last & res & E & Hlast & Hres & Hall & Hend).
  exists last, res. split_and!; [|lia|lia|done| |].
  - replace (state_at i) with (mkRequestState start None (Z.of_nat (S i)) opts) by (unfold state_at; f_equal; lia).
    rewrite E. replace (S last - i)%nat with (S (S last - S i)) by lia. cbn [seq fmap list_fmap concat]. by rewrite <- app_assoc.
  - intros j Hj. destruct (decide (j = i)) as [->|]; [by exists e|]. apply Hall. lia.
  - intros e' He' Hc'. rewrite (Hend e' He' Hc'). lia.
Qed.

Lemma reports_concat name n : reports name (concat (stats_at <$> seq 0 n)) = total (λ j, reports name (stats_at j)) n.
Proof.
  unfold total. generalize (seq 0 n) as l. induction l as [|j l IH]; [done|]. cbn [fmap list_fmap concat foldr].
  by rewrite reports_app, IH.
Qed.

Definition is_success (o : attemptOutcome) : bool := match o with success => true | _ => false end.
Definition is_app (o : attemptOutcome) : bool := match o with appError => true | _ => false end.

(** Whether attempt [j] takes itself for the last one. *)
Definition last_at (j : nat) : bool :=
  lastAttempt (Some (state_at j)) (is_app (outcomes j)) (outcome_error (outcomes j)).
Definition is_name (n n' : bytes) : nat := one_if (bool_decide (n = n')).

Lemma reports_if name (b : bool) l : reports name (if b then l else []) = if b then reports name l else 0%nat.
Proof. by destruct b. Qed.

(** The reports of one attempt. *)
Lemma stats_at_reports name j :
  reports name (stats_at j) =
    ((if begun (outcomes j) then is_name (str "outbound.calls.send") name else 0)
     + (if read_ (outcomes j) then
          is_name (str "outbound.calls.per-attempt.latency") name
          + (if last_at j then is_name (str "outbound.calls.latency") name else 0)
          + (if decide (0 < j)%nat then is_name (str "outbound.calls.retries") name else 0)
          + (if is_success (outcomes j) then is_name (str "outbound.calls.success") name else 0)
          + (if is_app (outcomes j) then
               is_name (str "outbound.calls.per-attempt.app-errors") name
               + (if last_at j then is_name (str "outbound.calls.app-errors") name else 0) else 0)
        else 0))%nat.
Proof.
  unfold stats_at, attempt_stats, doneReading_stats, last_at, is_name.
  assert (Hj : (0 < j)%nat ↔ 0 < RetryCount (Some (state_at j))) by (unfold state_at, RetryCount; cbn [Attempt]; lia).
  destruct (decide (0 < RetryCount (Some (state_at j)))) as [Hr|Hr];
    (destruct (decide (0 < j)%nat); [|] ; try tauto);
    (destruct (outcomes j); cbn [begun read_ is_success is_app outcome_error]; [done|..]);
    rewrite ?reports_cons, ?reports_app, ?reports_if, ?reports_nil; cbn [stat_name]; try lia;
    rewrite ?reports_cons, ?reports_if, ?reports_cons, ?reports_nil; cbn [stat_name];
    destruct (lastAttempt _ _ _); rewrite ?reports_cons, ?reports_nil; cbn [stat_name]; lia.
Qed.
End counting.

Lemma total_S f n : total f (S n) = (total f n + f n)%nat.
Proof.
  unfold total. rewrite seq_S, foldr_app. cbn [foldr Nat.add]. generalize (seq 0 n) as l.
  induction l as [|j l IH]; cbn [foldr]; lia.
Qed.

Lemma total_ext f g n : (∀ j, (j < n)%nat → f j = g j) → total f n = total g n.
Proof.
  induction n as [|n IH]; intros H; [done|]. rewrite !total_S, IH, H by (intros; try apply H; lia). done.
Qed.

Lemma total_last f n : (∀ j, (j < n)%nat → f j = 0%nat) → total f (S n) = f n.
Proof.
  intros H. rewrite total_S, (total_ext f (λ _, 0%nat) n H). enough (total (λ _, 0%nat) n = 0%nat) by lia.
  clear H. induction n as [|n IH]; [done|]. rewrite total_S. lia.
Qed.

(** An attempt whose error is retried does not take itself for the last one, and an attempt
    without an error is the last one for itself unless it had an application error, the
    option retries everything, and there are attempts left. *)
Lemma last_at_retried outcomes opts start j e :
  outcome_error (outcomes j) = Some e → CanRetry (RetryOptions_RetryOn opts) e = true → Z.of_nat j + 1 < MaxAttempts opts →
  last_at outcomes opts start j = false.
Proof.
  intros He Hc Hj. unfold last_at, lastAttempt, HasRetries_nil. rewrite He. cbn [state_at Attempt retryOpts].
  rewrite CanRetry_nil_Some, Hc. rewrite (proj2 (Z.ltb_lt _ _)) by done. rewrite bool_decide_false by done. done.
Qed.

(** The reports of an attempt under a name that is given. *)
Ltac named := rewrite stats_at_reports; unfold is_name;
  repeat match goal with |- context [@bool_decide (str ?a = str ?b) ?d] =>
    let r := eval vm_compute in (@bool_decide (str a = str b) d) in change (@bool_decide (str a = str b) d) with r end;
  cbn [one_if].

Definition lost (opts : RetryOptions) (last : nat) (o : attemptOutcome) : bool :=
  is_app o && bool_decide (RetryOptions_RetryOn opts = RetryIdempotent) && (Z.of_nat last + 1 <? MaxAttempts opts).

Lemma last_at_last outcomes opts start j :
  read_ (outcomes j) = true →
  (∀ e, outcome_error (outcomes j) = Some e → CanRetry (RetryOptions_RetryOn opts) e = true → MaxAttempts opts <= Z.of_nat j + 1) →
  last_at outcomes opts start j = negb (lost opts j (outcomes j)).
Proof.
  intros Hread Hend. unfold last_at, lastAttempt, HasRetries_nil, lost. cbn [state_at Attempt retryOpts].
  destruct (outcomes j) as [e|e| | |e] eqn:Eo; try done; cbn [outcome_error is_app] in *.
  - rewrite CanRetry_nil_None. cbn. by rewrite andb_comm.
  - rewrite CanRetry_nil_Some. destruct (CanRetry _ e) eqn:Ec; [|by rewrite andb_false_r, orb_true_r].
    specialize (Hend e eq_refl Ec). rewrite (proj2 (Z.ltb_ge _ _)) by lia. by rewrite orb_true_r.
Qed.

(** C20: The reports of a request with retries, from the outcomes of its attempts: each
    attempt that begins is counted as sent, each response that is read is timed, and
    counted as a retry after the first attempt; a success and an application error are
    counted once, for the last attempt.  The time of the request and its application error
    are reported once, for the last attempt, if its response is read; but neither is
    reported when the last attempt has an application error, the request may retry
    anything, and there are attempts left that nobody will make. *)
Theorem request_counted (outcomes : nat → attemptOutcome) (times : nat → Z * Z) (tags : gmap bytes bytes)
    (params : option (option RetryOptions)) (now : Z) :
  let opts := getRetryOptions params in
  0 < MaxAttempts opts →
  ∃ last log, RunWithRetry (oneAttempt outcomes times tags) params now (0%nat, [])
    = (outcome_error (outcomes last), state_at opts now last, (S last, log))
  ∧ Z.of_nat last < MaxAttempts opts
  ∧ reports (str "outbound.calls.send") log = total (λ j, one_if (begun (outcomes j))) (S last)
  ∧ reports (str "outbound.calls.per-attempt.latency") log = total (λ j, one_if (read_ (outcomes j))) (S last)
  ∧ reports (str "outbound.calls.retries") log = total (λ j, one_if (read_ (outcomes j) && bool_decide (0 < j)%nat)) (S last)
  ∧ reports (str "outbound.calls.success") log = one_if (is_success (outcomes last))
  ∧ reports (str "outbound.calls.per-attempt.app-errors") log = one_if (is_app (outcomes last))
  ∧ reports (str "outbound.calls.latency") log = one_if (read_ (outcomes last) && negb (lost opts last (outcomes last)))
  ∧ reports (str "outbound.calls.app-errors") log = one_if (is_app (outcomes last) && negb (lost opts last (outcomes last))).
Proof.
  intros opts Hmax. unfold RunWithRetry. fold opts.
  destruct (attempts_run outcomes times tags opts now (Z.to_nat (MaxAttempts opts)) 0 None [] ltac:(lia))
    as (last & res & E & Hlast & -> & Hall & Hend).
  change (mkRequestState now None (Z.of_nat 0) opts) with (getRequestState now opts) in E.
  replace (S last - 0)%nat with (S last) in E by lia. cbn [app] in E.
  exists last, (concat (stats_at outcomes times tags opts now <$> seq 0 (S last))). split; [exact E|]. split; [lia|].
  assert (Hprev : ∀ j, (j < last)%nat → is_success (outcomes j) = false ∧ is_app (outcomes j) = false
    ∧ (read_ (outcomes j) = true → last_at outcomes opts now j = false)).
  { intros j Hj. destruct (Hall j ltac:(lia)) as (e & He & Hc). split; [by destruct (outcomes j)|]. split; [by destruct (outcomes j)|].
    intros _. eapply last_at_retried; [exact He|exact Hc|lia]. }
  assert (HL : read_ (outcomes last) = true → last_at outcomes opts now last = negb (lost opts last (outcomes last))).
  { intros Hr. apply last_at_last; [done|]. intros e He Hc. specialize (Hend e He Hc). lia. }
  rewrite !reports_concat. split_and!.
  1-3: apply total_ext; intros j Hj; named; destruct (outcomes j), (last_at outcomes opts now j); cbn [begun read_ is_success is_app andb];
    try reflexivity; case_decide; rewrite ?(bool_decide_true (0 < j)%nat) by done; rewrite ?(bool_decide_false (0 < j)%nat) by done; reflexivity.
  all: rewrite total_last; [|intros j Hj; destruct (Hprev j Hj) as (H1 & H2 & H3); named; rewrite ?H1, ?H2;
    destruct (begun (outcomes j)), (read_ (outcomes j)); rewrite ?H3 by done; repeat case_decide; reflexivity].
  all: named; destruct (read_ (outcomes last)) eqn:Er; [rewrite HL by done|]; repeat case_decide;
    destruct (outcomes last), (lost opts last _); try done; try reflexivity.
Qed.

(** ** The tags at both ends *)

(** What the tags of a call tell tally: a call that goes out is from the service of the
    channel to the service and method that are called, unless it is an HTTP call, which
    has no method; a call that comes in is from its caller to the service of the channel. *)
Theorem call_tags process own host service method format caller :
  let common := createCommonStats process own host in
  convertTags (createStatsTags_outbound service method format common)
    = mkKnownTags service own (if decide (format = str "http") then [] else method) []
  ∧ convertTags (received (createStatsTags_inbound caller common) method).1 = mkKnownTags own caller method [].
Proof.
  assert (Hc : ∀ k, createCommonStats process own host !! k =
    match host with
    | inl h => if decide (str "host" = k) then Some h
               else if decide (str "app" = k) then Some process else if decide (str "service" = k) then Some own else None
    | inr _ => if decide (str "app" = k) then Some process else if decide (str "service" = k) then Some own else None
    end).
  { intros k. unfold createCommonStats. destruct host; [rewrite lookup_insert|]; rewrite lookup_insert, lookup_singleton; done. }
  intros common. split.
  - assert (Ht : createStatsTags_outbound service method format common !! str "target-service" = Some service).
    { unfold createStatsTags_outbound. destruct (decide (format ≠ _)); [rewrite lookup_insert_ne by done|];
        (rewrite lookup_union_r by (rewrite Hc; by destruct host)); by rewrite lookup_singleton. }
    unfold convertTags. rewrite Ht. unfold createStatsTags_outbound. f_equal.
    + destruct (decide (format ≠ _)); [rewrite lookup_insert_ne by done|];
        rewrite lookup_union_l by (by rewrite lookup_singleton); rewrite Hc; by destruct host.
    + destruct (decide (format = str "http")) as [->|Hn].
      * rewrite decide_False by (intros H; by apply H). rewrite lookup_union_l by (by rewrite lookup_singleton). rewrite Hc. by destruct host.
      * rewrite decide_True by done. by rewrite lookup_insert.
    + destruct (decide (format ≠ _)); [rewrite lookup_insert_ne by done|];
        rewrite lookup_union_l by (by rewrite lookup_singleton); rewrite Hc; by destruct host.
  - cbn [received fst]. unfold createStatsTags_inbound, convertTags.
    assert (Hk : ∀ k, str "endpoint" ≠ k → str "calling-service" ≠ k →
      (<[str "endpoint" := method]> (common ∪ {[str "calling-service" := caller]})) !! k = common !! k).
    { intros k H1 H2. rewrite lookup_insert_ne by done. apply lookup_union_l. by rewrite lookup_singleton_ne. }
    rewrite (Hk (str "target-service")) by done. rewrite Hc.
    assert (Ht : (<[str "endpoint" := method]> (common ∪ {[str "calling-service" := caller]})) !! str "calling-service" = Some caller).
    { rewrite lookup_insert_ne by done. rewrite lookup_union_r by (rewrite Hc; by destruct host). by rewrite lookup_singleton. }
    rewrite Ht, (Hk (str "service")), (Hk (str "retry-count")), !Hc, lookup_insert by done. by destruct host.
Qed.

(** ** Witnesses *)

Definition idempotent : RetryOptions := mkRetryOptions 3 RetryIdempotent 0.
Definition busy_then_app (i : nat) : attemptOutcome := match i with O => failed ErrServerBusy | _ => appError end.

(** A request that is answered with an application error by its second attempt of three:
    nothing is reported for the request itself. *)
Lemma request_counted_witness :
  ∃ log rs, RunWithRetry (oneAttempt busy_then_app (λ i, (Z.of_nat i, Z.of_nat i + 1)) ∅) (Some (Some idempotent)) 0 (0%nat, [])
    = (None, rs, (2%nat, log))
  ∧ reports (str "outbound.calls.send") log = 2%nat ∧ reports (str "outbound.calls.retries") log = 1%nat
  ∧ reports (str "outbound.calls.latency") log = 0%nat ∧ reports (str "outbound.calls.app-errors") log = 0%nat.
Proof.
  destruct (request_counted busy_then_app (λ i, (Z.of_nat i, Z.of_nat i + 1)) ∅ (Some (Some idempotent)) 0 eq_refl)
    as (last & log & E & Hl & H1 & _ & H2 & _ & _ & H3 & H4).
  assert (last = 1%nat) as ->.
  { apply (f_equal (λ x, x.2.1)) in E. vm_compute in E. congruence. }
  exists log, (state_at idempotent 0 1). split_and!; [exact E|exact H1|exact H2|exact H3|exact H4].
Defined.
