(* ===== verification/Tally.v ===== *)
(** * The tally reporter (stats/tally.go)

    A reporter keeps a tagged scope for each set of known tags, and each scope its
    counters, gauges and timers by name, in maps that many goroutines share: a reader's
    lock for the lookup, and the writer's lock when something has to be made.  A scope is
    made once, since the map is looked at again under the writer's lock; a metric can be
    made several times, which does no harm because the library returns the same metric for
    the same tags and name.  So a metric is known by the tags and the name it was made
    with.  The theorem shows that whatever goroutines do, every value is reported, and
    under the tags and the name it was meant for. *)

From S2P Require Import Prelude Buffer Metrics Conc.

#[export] Instance knownTags_eq_dec : EqDecision knownTags.
Proof. solve_decision. Defined.
#[export] Instance knownTags_countable : Countable knownTags.
Proof.
  refine (inj_countable' (λ k, (kt_dest k, kt_source k, kt_procedure k, kt_retryCount k))
    (λ '(a, b, c, d), mkKnownTags a b c d) _). by intros [].
Defined.

Inductive metricKind := counter | gauge | timer.
#[export] Instance metricKind_eq_dec : EqDecision metricKind.
Proof. solve_decision. Defined.

Notation tags := (gmap bytes bytes).

(** A metric of the library. *)
Record metric := mkMetric { mt_kind : metricKind; mt_tags : tags; mt_name : bytes }.

(** A taggedScope: the tags of its scope, and its three maps. *)
Record taggedScope := mkTaggedScope {
  ts_tags : tags;
  counters : gmap bytes metric;
  gauges : gmap bytes metric;
  timers : gmap bytes metric
}.

Definition ts_map (k : metricKind) (ts : taggedScope) : gmap bytes metric :=
  match k with counter => counters ts | gauge => gauges ts | timer => timers ts end.
Definition ts_insert (k : metricKind) (name : bytes) (m : metric) (ts : taggedScope) : taggedScope :=
  match k with
  | counter => mkTaggedScope (ts_tags ts) (<[name := m]> (counters ts)) (gauges ts) (timers ts)
  | gauge => mkTaggedScope (ts_tags ts) (counters ts) (<[name := m]> (gauges ts)) (timers ts)
  | timer => mkTaggedScope (ts_tags ts) (counters ts) (gauges ts) (<[name := m]> (timers ts))
  end.

(** A report the user makes. *)
Record request := mkRequest { rq_kind : metricKind; rq_name : bytes; rq_tags : tags; rq_value : Z }.

(** The reporter; a scope is its index in [w_scopes].  [w_begun] are the requests that have
    begun and [w_reported] the ones that have got to a metric. *)
Record wrapper := mkWrapper {
  byTags : gmap knownTags nat;
  w_scopes : list taggedScope;
  w_begun : list request;
  w_reported : list (request * metric)
}.
Definition NewTallyReporter : wrapper := mkWrapper ∅ [] [] [].

(** ** The operations *)

(** The first look, under the reader's lock. *)
Definition lookScope (rq : request) : ST wrapper (option nat) := λ w,
  (byTags w !! convertTags (rq_tags rq), mkWrapper (byTags w) (w_scopes w) (w_begun w ++ [rq]) (w_reported w)).
(** Under the writer's lock. *)
Definition makeScope (rq : request) : ST wrapper nat := λ w,
  let kt := convertTags (rq_tags rq) in
  match byTags w !! kt with
  | Some ts => (ts, w)
  | None =>
      let ts := length (w_scopes w) in
      (ts, mkWrapper (<[kt := ts]> (byTags w)) (w_scopes w ++ [mkTaggedScope (tallyTags kt) ∅ ∅ ∅]) (w_begun w) (w_reported w))
  end.
Definition getTaggedScope (rq : request) : prog wrapper nat :=
  ts ← atomic (lookScope rq);
  match ts with Some ts => mret ts | None => atomic (makeScope rq) end.

(** getCounter, getGauge and getTimer. *)
Definition lookMetric (k : metricKind) (name : bytes) (i : nat) : ST wrapper (option metric) := λ w,
  ((w_scopes w !! i) ≫= λ ts, ts_map k ts !! name, w).
Definition makeMetric (k : metricKind) (name : bytes) (i : nat) : GO wrapper metric := λ w,
  match w_scopes w !! i with
  | None => Panic
  | Some ts =>
      let m := mkMetric k (ts_tags ts) name in
      Ret (m, mkWrapper (byTags w) (<[i := ts_insert k name m ts]> (w_scopes w)) (w_begun w) (w_reported w))
  end.
Definition getMetric (k : metricKind) (name : bytes) (i : nat) : prog wrapper metric :=
  m ← atomic (lookMetric k name i);
  match m with Some m => mret m | None => atomic_go (makeMetric k name i) end.

(** IncCounter, UpdateGauge and RecordTimer. *)
Definition deliver (rq : request) (m : metric) : ST wrapper unit := λ w,
  (tt, mkWrapper (byTags w) (w_scopes w) (w_begun w) (w_reported w ++ [(rq, m)])).
Definition report (rq : request) : prog wrapper unit :=
  ts ← getTaggedScope rq;
  m ← getMetric (rq_kind rq) (rq_name rq) ts;
  atomic (deliver rq m).

(** ** What is kept *)

(** The metric a request is meant for. *)
Definition meant (rq : request) : metric :=
  mkMetric (rq_kind rq) (tallyTags (convertTags (rq_tags rq))) (rq_name rq).

Record tally_ok (w : wrapper) : Prop := {
  ok_scope kt i : byTags w !! kt = Some i → ∃ ts, w_scopes w !! i = Some ts ∧ ts_tags ts = tallyTags kt;
  ok_once : length (w_scopes w) = size (byTags w);
  ok_metric i ts k name m : w_scopes w !! i = Some ts → ts_map k ts !! name = Some m → m = mkMetric k (ts_tags ts) name;
  ok_reported : Forall (λ x, x.2 = meant x.1) (w_reported w)
}.

(** Scopes stay and keep their tags; nothing that has been reported is lost. *)
Record tally_adv (w w' : wrapper) : Prop := {
  adv_scope i ts : w_scopes w !! i = Some ts → ∃ ts', w_scopes w' !! i = Some ts' ∧ ts_tags ts' = ts_tags ts;
  adv_reported : w_reported w `prefix_of` w_reported w';
  adv_begun : w_begun w `prefix_of` w_begun w'
}.

#[export] Instance tally_adv_preorder : PreOrder tally_adv.
Proof.
  split; [intros w; split; [naive_solver|done|done]|]. intros w1 w2 w3 [A1 A2 A3] [B1 B2 B3]. split; [|by etransitivity..].
  intros i ts Hi. destruct (A1 i ts Hi) as (ts2 & H2 & E2). destruct (B1 i ts2 H2) as (ts3 & H3 & E3). exists ts3. split; [done|congruence].
Qed.

(** The requests under way. *)
Definition tally_bal (w : wrapper) : acc := (len (w_begun w) - len (w_reported w), 0).
Notation tcwp := (cwp tally_ok tally_adv tally_bal).

Lemma new_ok : tally_ok NewTallyReporter.
Proof. split; cbn; [by intros kt i; rewrite lookup_empty|by rewrite map_size_empty|by intros i ts k name m; rewrite lookup_nil|constructor]. Qed.

Lemma adv_refl w w' : w_scopes w' = w_scopes w → w_reported w `prefix_of` w_reported w' → w_begun w `prefix_of` w_begun w' →
  tally_adv w w'.
Proof. intros Hs Hr Hb. split; [|done|done]. intros i ts. rewrite Hs. eauto. Qed.

Definition has_scope (w : wrapper) (i : nat) (kt : knownTags) : Prop :=
  ∃ ts, w_scopes w !! i = Some ts ∧ ts_tags ts = tallyTags kt.

Lemma has_scope_adv w w' i kt : tally_adv w w' → has_scope w i kt → has_scope w' i kt.
Proof. intros [A _ _] (ts & Hi & E). destruct (A i ts Hi) as (ts' & Hi' & E'). exists ts'. split; [done|congruence]. Qed.

(** A credit with one more request under way. *)
Definition plus1 (k : acc) : acc := (k.1 + 1, k.2).

Lemma lookScope_cwp w0 k rq : acc_le acc0 k →
  tcwp w0 k (atomic (lookScope rq))
    (λ r w k', (∀ i, r = Some i → has_scope w i (convertTags (rq_tags rq))) ∧ k' = plus1 k).
Proof.
  intros Hk. apply cwp_atomic. intros w _ Hw _. cbn [lookScope fst snd]. split_and!.
  - destruct Hw as [W1 W2 W3 W4]. by split.
  - apply adv_refl; cbn; [done|done|by eexists].
  - exists (plus1 k). unfold plus1. split_and!; [acc_lia| | |done].
    + unfold tally_bal. cbn [w_begun w_reported]. rewrite length_app. cbn [length]. intros []; cbn; lia.
    + intros i Hi. by apply (ok_scope _ Hw).
Qed.

Lemma makeScope_cwp w0 k rq : acc_le acc0 k →
  tcwp w0 k (atomic (makeScope rq)) (λ i w k', has_scope w i (convertTags (rq_tags rq)) ∧ k' = k).
Proof.
  intros Hk. apply cwp_atomic. intros w _ Hw _. unfold makeScope. set (kt := convertTags (rq_tags rq)).
  destruct (byTags w !! kt) as [i|] eqn:E; cbn [fst snd].
  { split_and!; [done|done|]. exists k. split_and!; [done|acc_lia| |done]. by apply (ok_scope _ Hw). }
  assert (Hnew : (w_scopes w ++ [mkTaggedScope (tallyTags kt) ∅ ∅ ∅]) !! length (w_scopes w) = Some (mkTaggedScope (tallyTags kt) ∅ ∅ ∅))
    by (by rewrite lookup_app_r, Nat.sub_diag by done).
  split_and!.
  - destruct Hw as [W1 W2 W3 W4]. split; cbn.
    + intros kt' i. destruct (decide (kt' = kt)) as [->|Hne].
      * rewrite lookup_insert, decide_True by done. intros [= <-]. by eexists.
      * rewrite lookup_insert_ne by done. intros Hi. destruct (W1 kt' i Hi) as (ts & Hts & Et). exists ts. split; [|done].
        by apply lookup_app_l_Some.
    + rewrite length_app, map_size_insert_None by done. cbn [length]. lia.
    + intros i ts k0 name m Hi Hm. apply lookup_app_Some in Hi as [Hi|[_ Hi]]; [by eapply W3|].
      apply list_lookup_singleton_Some in Hi as [_ <-]. destruct k0; cbn in Hm; by rewrite lookup_empty in Hm.
    + done.
  - split; cbn; [|done|done]. intros i ts Hi. exists ts. split; [apply lookup_app_l_Some, Hi|done].
  - exists k. split_and!; [done|acc_lia| |done]. by eexists.
Qed.

Lemma getTaggedScope_cwp w0 k rq : acc_le acc0 k →
  tcwp w0 k (getTaggedScope rq) (λ i w k', has_scope w i (convertTags (rq_tags rq)) ∧ k' = plus1 k).
Proof.
  intros Hk. unfold getTaggedScope. apply cwp_bind. eapply (cwp_mono tally_ok tally_adv tally_bal); [|exact (lookScope_cwp w0 k rq Hk)]. cbn. intros [i|] w k' _ [Hi ->].
  - split; [by apply Hi|done].
  - apply makeScope_cwp. unfold plus1. acc_lia.
Qed.

Lemma ts_insert_map k name m ts k' name' :
  ts_map k' (ts_insert k name m ts) !! name' =
    if decide (k = k' ∧ name = name') then Some m else ts_map k' ts !! name'.
Proof.
  destruct (decide (k = k')) as [<-|Hk].
  - destruct (decide (name = name')) as [<-|Hn].
    + rewrite decide_True by done. by destruct k; cbn; rewrite lookup_insert, decide_True.
    + rewrite decide_False by naive_solver. by destruct k; cbn; rewrite lookup_insert_ne.
  - rewrite decide_False by naive_solver. by destruct k, k'.
Qed.

Lemma getMetric_cwp w0 k i kt kind name : acc_le acc0 k → has_scope w0 i kt →
  tcwp w0 k (getMetric kind name i) (λ m w k', m = mkMetric kind (tallyTags kt) name ∧ k' = k).
Proof.
  intros Hk Hs. apply cwp_bind. apply cwp_atomic. intros w Hadv Hw _. cbn [lookMetric fst snd].
  pose proof (has_scope_adv _ _ _ _ Hadv Hs) as (ts & Hts & Et). split_and!; [done|done|].
  exists k. split_and!; [done|acc_lia|]. rewrite Hts. cbn [mbind option_bind].
  destruct (ts_map kind ts !! name) as [m|] eqn:Em.
  { split; [|done]. rewrite (ok_metric _ Hw _ _ _ _ _ Hts Em). by rewrite Et. }
  apply cwp_act. intros w1 Hadv1 Hw1 _. unfold makeMetric.
  assert (Hs1 : has_scope w1 i kt) by (eapply has_scope_adv; [exact Hadv1|by exists ts]).
  destruct Hs1 as (ts1 & Hts1 & Et1). rewrite Hts1. set (m := mkMetric kind (ts_tags ts1) name). split_and!.
  - destruct Hw1 as [W1 W2 W3 W4]. split; cbn.
    + intros kt' j Hj. destruct (W1 kt' j Hj) as (tsj & Htsj & Etj). destruct (decide (i = j)) as [<-|Hne].
      * exists (ts_insert kind name m ts1). split; [rewrite list_lookup_insert_eq; [done|by eapply lookup_lt_Some]|].
        destruct kind; cbn; congruence.
      * exists tsj. split; [by rewrite list_lookup_insert_ne|done].
    + by rewrite length_insert.
    + intros j tsj k' name' m' Hj Hm'. apply list_lookup_insert_Some in Hj as [(<- & <- & _)|[_ Hj]]; [|by eapply W3].
      rewrite ts_insert_map in Hm'. assert (Htags : ts_tags (ts_insert kind name m ts1) = ts_tags ts1) by (by destruct kind). rewrite Htags.
      case_decide as Hd; [|by eapply W3]. destruct Hd as [<- <-]. by injection Hm' as <-.
    + done.
  - split; cbn; [|done|done]. intros j tsj Hj. destruct (decide (i = j)) as [<-|Hne].
    + exists (ts_insert kind name m ts1). split; [rewrite list_lookup_insert_eq; [done|by eapply lookup_lt_Some]|].
      destruct kind; cbn; congruence.
    + exists tsj. split; [by rewrite list_lookup_insert_ne|done].
  - exists k. split_and!; [done|acc_lia| |done]. unfold m. by rewrite Et1.
Qed.

Lemma report_neutral rq : neutral tally_ok tally_adv tally_bal (report rq).
Proof.
  intros w0 k Hk. unfold report. apply cwp_bind. eapply (cwp_mono tally_ok tally_adv tally_bal); [|by apply getTaggedScope_cwp].
  cbv beta. intros i w k' _ [Hs ->]. apply cwp_bind. assert (Hk1 : acc_le acc0 (plus1 k)) by (unfold plus1; acc_lia).
  eapply (cwp_mono tally_ok tally_adv tally_bal); [|by apply getMetric_cwp]. cbv beta. intros m w1 k' _ [-> ->].
  apply cwp_atomic. intros w2 _ Hw2 _. cbn [deliver fst snd]. split_and!.
  - destruct Hw2 as [W1 W2 W3 W4]. split; cbn; [done..|]. apply Forall_app. split; [done|]. by constructor.
  - apply adv_refl; cbn; [done|by eexists|done].
  - exists k. split_and!; [done| |done]. unfold tally_bal, plus1. cbn [w_begun w_reported]. rewrite length_app. cbn [length].
    intros []; cbn; lia.
Qed.

(** Whatever goroutines report at the same time: no one panics, a scope is made once for
    each set of known tags, every value gets to the metric of its kind with its tags and
    its name, and when all are done, as many values have been reported as were given. *)
Theorem tally_reports c :
  rtc (sched_step (λ p, ∃ rq, p = report rq)) (NewTallyReporter, []) c →
  ¬ panics c
  ∧ length (w_scopes c.1) = size (byTags c.1)
  ∧ Forall (λ x, x.2 = meant x.1) (w_reported c.1)
  ∧ (Forall finished c.2 → length (w_reported c.1) = length (w_begun c.1)).
Proof.
  intros Hr.
  destruct (sched_safe tally_ok tally_adv tally_bal (λ p, ∃ rq, p = report rq) NewTallyReporter c) as (Hok & _ & Hp & Hq).
  - intros p [rq ->]. apply report_neutral.
  - apply new_ok.
  - by intros [].
  - exact Hr.
  - split_and!; [done|apply (ok_once _ Hok)|apply (ok_reported _ Hok)|]. intros Hf. specialize (Hq Hf true). cbn in Hq. lia.
Qed.
