(* ===== verification/Thrift.v ===== *)
(** * Thrift over calls (thrift/client.go, thrift/server.go, thrift/struct.go)

    arg2 holds the application headers and arg3 the struct, in the encoding of the
    Thrift library.  That library is a parameter here: how a struct is written, as
    the pieces its protocol writes, and how it is read; what is assumed of it is
    that a struct that was written can be read back.  The theorems show that a call
    gets its headers and its arguments to the handler of the method it names, and
    the headers, the result and the kind of result (success or an application
    error) back to the caller; and that every method a server registers is served
    by the struct it was registered for. *)

From S2P Require Import Prelude Errors Buffer Checksum Frame Messages Fragment FragmentCorrect Mex ReqRes Headers Calls Tracing.

(** ** Methods and servers *)

Definition separator : bytes := str "::".

(** strings.Index(s, "::") as the parts before and after it. *)
Fixpoint getServiceMethod (method : bytes) : option (bytes * bytes) :=
  if decide (separator `prefix_of` method) then Some ([], drop 2 method)
  else
    match method with
    | [] => None
    | b :: rest => (λ p, (b :: p.1, p.2)) <$> getServiceMethod rest
    end.

(** Server: the handlers by service; a TChanServer is a number.  [registered] are
    the methods that have been registered on the channel, in order. *)
Record Server := mkServer {
  srv_handlers : gmap bytes nat;
  srv_registered : list bytes
}.

Record TChanServer := mkTChanServer { tcs_Service : bytes; tcs_Methods : list bytes }.

Definition srv_Register (id : nat) (svr : TChanServer) (s : Server) : Server :=
  mkServer (<[tcs_Service svr := id]> (srv_handlers s))
    (srv_registered s ++ ((λ m, tcs_Service svr ++ separator ++ m) <$> tcs_Methods svr)).

(** The part of Server.Handle before the call is handled: the handler and the
    method; log.Fatalf ends the process. *)
Definition srv_find (op : bytes) (s : Server) : go (nat * bytes) :=
  match getServiceMethod op with
  | None => Panic
  | Some (service, method) =>
      match srv_handlers s !! service with
      | None => Panic
      | Some h => Ret (h, method)
      end
  end.

(** ** The client and the server of one call *)

Section thrift.
Context `{MapRange} (r1 r2 : MapRange) (fuel : nat).

(** The Thrift library: the pieces a struct is written in, and the reader of a
    struct. *)
Context {Struct : Type} (TEnc : Struct → list bytes)
  (TRead : ∀ R : Type, fullReader R → GO R (option Struct * option error))
  (isProtocolException : error → bool).

(** struct.go *)
Fixpoint WriteStruct_pieces `{ioWriter W} (pieces : list bytes) : GO W (option error) :=
  match pieces with
  | [] => mret None
  | b :: pieces =>
      '(_, err) ← io_Write b;
      match err with Some e => mret (Some e) | None => WriteStruct_pieces pieces end
  end.
Definition WriteStruct `{ioWriter W} (s : Struct) : GO W (option error) := WriteStruct_pieces (TEnc s).
Definition ReadStruct `{fullReader R} : GO R (option Struct * option error) := TRead R _.

#[local] Existing Instance argReader_ioReader.

(** [headers] are the application headers after the span was injected. *)
Definition writeArgs (headers : gmap bytes bytes) (req : Struct) : GO (fragmentingWriter reqResWriter) (option error) :=
  check Some out_Arg2Writer (
  check Some (WriteHeaders r1 r2 headers) (
  check Some writer_Close (
  check Some out_Arg3Writer (
  check Some (WriteStruct req) writer_Close)))).

Definition read_headers : GO (fragmentingReader reqResReader) (gmap bytes bytes * option error) :=
  ReadHeaders (H := argReader_fullReader fuel).
Definition read_struct : GO (fragmentingReader reqResReader) (option Struct * option error) :=
  ReadStruct (H0 := argReader_fullReader fuel).
Definition ensure_empty (stage : bytes) : GO (fragmentingReader reqResReader) (option error) :=
  EnsureEmpty (H := argReader_ioReader fuel) stage.

Definition response_type : Type := gmap bytes bytes * bool * option Struct * option error.

Definition readResponse_body (headers : gmap bytes bytes) (success : bool)
    : GO (fragmentingReader reqResReader) response_type :=
  '(resp, err) ← read_struct;
  match err with
  | Some e => mret (headers, success, resp, Some e)
  | None =>
      check (λ e, (∅, false, resp, Some e)) (ensure_empty (str "reading response body")) (
      err ← reader_Close; mret (headers, success, resp, err))
  end.

Definition readResponse (free : list nat) : GO (fragmentingReader reqResReader) response_type :=
  let failed e : response_type := (∅, false, None, Some e) in
  check failed (res_Arg2Reader fuel free) (
  '(headers, err) ← read_headers;
  match err with
  | Some e => mret (failed e)
  | None =>
      check failed (ensure_empty (str "reading response headers")) (
      check failed reader_Close (
      r ← gget;
      let success := negb (ApplicationError (fr_receiver r)) in
      check (λ e, (headers, success, None, Some e)) res_Arg3Reader (
      readResponse_body headers success)))
  end).

(** The response is an error frame. *)
Lemma readResponse_error free r r' e :
  arg1Reader r = Ret (Some e, r') → readResponse free r = Ret ((∅, false, None, Some e), r').
Proof.
  intros R. unfold readResponse, check at 1, res_Arg2Reader.
  erewrite gost_bind_run by exact R. run_step. reflexivity.
Qed.

(** The error that handle sends for the error of a TChanServer. *)
Definition handle_error (e : error) : error :=
  if isProtocolException e then (NewSystemError ErrCodeBadRequest (Error e) : error) else e.

(** A TChanServer reads the arguments and calls the user's function [user], which
    gives success, the result struct and the response headers it has set, or an
    error. *)
Definition server_Handle (user : Struct → (bool * Struct * gmap bytes bytes) + error)
    : GO (fragmentingReader reqResReader) (bool * option Struct * gmap bytes bytes * option error) :=
  '(req, err) ← read_struct;
  match err, req with
  | Some e, _ => mret (false, None, ∅, Some e)
  | None, None => mret (false, None, ∅, None)
  | None, Some req =>
      match user req with
      | inr e => mret (false, None, ∅, Some e)
      | inl (success, resp, h) => mret (success, Some resp, h, None)
      end
  end.

(** The response of handle: a nil writer (when Arg3Writer fails, which is not checked)
    or a nil struct cannot be written. *)
Definition sendResponse (success : bool) (resp : option Struct) (respHeaders : gmap bytes bytes)
    (connSend : option error) : GO InboundCall (option error) :=
  _ ← call_Response;
  _ ← onWriter (if success then mret None else SetApplicationError);
  check Some (onWriter res_Arg2Writer) (
  check Some (onWriter (WriteHeaders r1 r2 respHeaders)) (
  check Some (onWriter writer_Close) (
  _ ← call_Response;
  err ← onWriter res_Arg3Writer;
  match err, resp with
  | Some _, _ | _, None => gpanic
  | None, Some resp =>
      err ← onWriter (WriteStruct resp);
      match err with
      | Some e => _ ← call_Response; _ ← res_SendSystemError connSend e; mret (Some e)
      | None => onWriter writer_Close
      end
  end))).

(** handle: [user] gets the headers without the tracing keys; [connSend] is the answer
    of the connection to a system error. *)
Definition handle (user : gmap bytes bytes → Struct → (bool * Struct * gmap bytes bytes) + error)
    (connSend : option error) : GO InboundCall (option error) :=
  check Some (onReader in_Arg2Reader) (
  '(headers, err) ← onReader read_headers;
  match err with
  | Some e => mret (Some e)
  | None =>
      check Some (onReader (ensure_empty (str "reading request headers"))) (
      check Some (onReader reader_Close) (
      check Some (onReader in_Arg3Reader) (
      '(success, resp, respHeaders, err) ← onReader (server_Handle (user (RemoveTracingKeys headers)));
      match err with
      | Some e =>
          _ ← onReader reader_Close;
          _ ← call_Response;
          _ ← res_SendSystemError connSend (handle_error e);
          mret None
      | None =>
          check Some (onReader (ensure_empty (str "reading request body"))) (
          check Some (onReader reader_Close) (
          sendResponse success resp respHeaders connSend))
      end)))
  end).

(** ** From end to end *)

(** What is assumed of the Thrift library: a struct that was written is read back,
    and nothing after it is touched. *)
Hypothesis TRead_written : ∀ R (F : fullReader R) (C : Contains R) s d r,
  contains (concat (TEnc s) ++ d) r → ∃ r', TRead R F r = Ret ((Some s, None), r') ∧ contains d r'.


Section specs.
Context (msgs : bool → message) (callID : Z).

(** *** Writing *)

Section writing.
Hypothesis (Hfits : ∀ b, message_fits (msgs b)).
Context (c0 : Checksum) (base : list Frame).
Implicit Types w : fragmentingWriter reqResWriter.
Notation idle st := (idle (H0 := G msgs callID Hfits st) c0 base).
Notation sent_all st := (sent_all (H0 := G msgs callID Hfits st) c0 base).
Notation in_arg st := (in_arg (H0 := G msgs callID Hfits st) c0 base).

Lemma pieces_spec st pieces w args a :
  in_arg st w (args ++ [a]) → isWritingArgument (fw_state w) = true →
  ∃ w', WriteStruct_pieces pieces w = Ret (None, w')
  ∧ in_arg st w' (args ++ [a ++ concat pieces]) ∧ fw_state w' = fw_state w.
Proof.
  revert w a. induction pieces as [|b pieces IH]; intros w a Hin Hs; cbn [WriteStruct_pieces concat].
  { exists w. by rewrite app_nil_r. }
  destruct (Write_spec_last msgs callID Hfits c0 base st w args a b Hin Hs) as (w1 & R1 & Hin1 & Hs1).
  cbn [io_Write argWriter_ioWriter]. run_with R1.
  destruct (IH w1 (a ++ b) Hin1) as (w2 & R2 & Hin2 & Hs2); [by rewrite Hs1|].
  exists w2. rewrite app_assoc. split_and!; [done|done|by rewrite Hs2].
Qed.

(** The headers and the struct, once arg2 is open. *)
Lemma write_body_spec w a1 headers s :
  map_ok 65536 headers → in_arg reqResWriterPreArg3 w [a1; []] → fw_state w = fragmentingWriteInArgument →
  ∃ wa wb wc wd we, WriteHeaders r1 r2 headers w = Ret (None, wa) ∧ writer_Close wa = Ret (None, wb)
  ∧ arg3Writer wb = Ret (None, wc) ∧ WriteStruct s wc = Ret (None, wd) ∧ writer_Close wd = Ret (None, we)
  ∧ sent_all reqResWriterComplete we [a1; kvs_enc (range (MapRange := r2) headers); concat (TEnc s)].
Proof.
  intros Hh Hin Hs.
  destruct (write_close_spec msgs callID Hfits c0 base _ w a1 [] (kvs_enc (range (MapRange := r2) headers)) Hin Hs)
    as (wa & wb & Ra & Rb & Hidle).
  destruct (Arg3Writer_spec msgs callID Hfits c0 base wb _ _ Hidle) as (wc & Rc & Hinc & Hsc).
  destruct (pieces_spec _ (TEnc s) wc [a1; _] [] Hinc) as (wd & Rd & Hind & Hsd); [by rewrite Hsc|].
  destruct (Close_spec_last msgs callID Hfits c0 base _ wd _ Hind) as (we & Re & Hsent); [done|by rewrite Hsd|].
  exists wa, wb, wc, wd, we. split_and!; try done.
  rewrite WriteHeaders_spec by done. by run_with Ra.
Qed.

Lemma writeArgs_spec w m headers req :
  map_ok 65536 headers → idle reqResWriterPreArg2 w [m] →
  ∃ w', writeArgs headers req w = Ret (None, w')
  ∧ sent_all reqResWriterComplete w' [m; kvs_enc (range (MapRange := r2) headers); concat (TEnc req)].
Proof.
  intros Hh Hidle.
  destruct (out_Arg2Writer_spec msgs callID Hfits c0 base w m Hidle) as (w1 & R1 & Hin1 & Hs1).
  destruct (write_body_spec w1 m headers req Hh Hin1 Hs1) as (wa & wb & wc & wd & we & Ra & Rb & Rc & Rd & Re & Hsent).
  exists we. split; [|done]. unfold writeArgs.
  check_with R1. check_with Ra. check_with Rb. check_with Rc. check_with Rd. exact Re.
Qed.
End writing.

(** *** Reading *)

Implicit Types r : fragmentingReader reqResReader.
Notation ridle st := (ridle (H0 := RG msgs callID st)).
Notation rinv st := (rinv (H0 := RG msgs callID st)).
Notation incoming st := (receiver_incoming msgs callID st).

Lemma read_headers_spec st sr args headers x :
  map_ok 65536 headers →
  contains (Contains := arg_Contains msgs callID fuel st sr args) (kvs_enc (range (MapRange := r2) headers)) x →
  ∃ x', read_headers x = Ret ((headers, None), x')
  ∧ contains (Contains := arg_Contains msgs callID fuel st sr args) [] x'.
Proof.
  intros Hok Hx. rewrite <- (app_nil_r (kvs_enc _)) in Hx.
  by apply (ReadHeaders_written (H0 := arg_Contains msgs callID fuel st sr args) (H1 := r2) headers [] x).
Qed.

Lemma read_struct_spec st sr args s x :
  contains (Contains := arg_Contains msgs callID fuel st sr args) (concat (TEnc s)) x →
  ∃ x', read_struct x = Ret ((Some s, None), x')
  ∧ contains (Contains := arg_Contains msgs callID fuel st sr args) [] x'.
Proof.
  intros Hx. rewrite <- (app_nil_r (concat _)) in Hx.
  by apply (TRead_written _ _ (arg_Contains msgs callID fuel st sr args)).
Qed.

Lemma readResponse_spec free r headers s n code :
  map_ok 65536 headers → code_of (msgs true) = Some code →
  ridle reqResReaderPreArg1 r [[]; kvs_enc (range (MapRange := r2) headers); concat (TEnc s)] n →
  (n < fuel)%nat → (0 < sum_list free)%nat →
  ∃ r', readResponse free r
    = Ret ((headers, negb (bool_decide (code = responseApplicationError)), Some s, None), r').
Proof.
  intros Hok Hcode Hidle Hn Hfree.
  destruct (ArgRead_spec msgs callID fuel _ reqResReaderPreArg2 free r _ _ n Hidle)
    as (r0 & n0 & R0 & Hidle0 & Hn0); [done..|].
  destruct (read_through msgs callID fuel _ reqResReaderPreArg3 read_headers (headers, None) r0 _ _ n0
    (str "reading response headers") Hidle0)
    as (ra & rb & rc & rd & n1 & l & Ra & Rb & Rc & Rd & Hidle1 & Hn1 & Hinc);
    [done|done|by intros; apply read_headers_spec|].
  destruct (read_through_last msgs callID fuel read_struct (Some s, None) rd _ n1 (str "reading response body") Hidle1 Hn1)
    as (re & rf & rg & rh & Re & Rf & Rg & Rh & _); [by intros; apply read_struct_spec|].
  assert (Rarg2 : res_Arg2Reader fuel free r = Ret (None, ra)).
  { unfold res_Arg2Reader, arg1Reader. unfold mbind, gost_bind in *.
    destruct (argReader false reqResReaderPreArg1 reqResReaderPreArg2 r) as [[e r']| |]; try done.
    by rewrite R0. }
  pose proof (ApplicationError_spec msgs callID _ _ _ _ Hinc Hcode) as Happ.
  exists rh. unfold readResponse. check_with Rarg2. run_with Rb. check_with Rc. check_with Rd.
  run_step. rewrite Happ. unfold res_Arg3Reader. check_with Re.
  unfold readResponse_body. run_with Rf. check_with Rg. by run_with Rh.
Qed.
End specs.

(** *** The server *)

Section server.
Context (msgs : bool → message) (callID : Z) (t : byte) (w0 : reqResWriter) (ps : checksumPools).
Hypothesis (Hfits : ∀ b, message_fits (msgs b)) (Hready : sender_ready msgs callID reqResWriterPreArg1 w0).

Lemma sendResponse_spec r errs success resp headers connSend :
  rr_err (fr_receiver r) = None → map_ok 65536 headers →
  ∃ c', sendResponse success (Some resp) headers connSend
          (mkInboundCall r (newFragmentingWriter w0 ps (fresh t)) errs) = Ret (None, c')
  ∧ ic_errors c' = errs
  ∧ sent_all (H0 := G (result_msgs success msgs) callID (result_fits success msgs Hfits) reqResWriterComplete)
      (fresh t) (sendCh w0) (ic_writer c')
      [[]; kvs_enc (range (MapRange := r2) headers); concat (TEnc resp)].
Proof.
  intros Hr Hh. set (w1 := result_writer success msgs w0).
  pose proof (writer_idle _ callID t w1 ps (result_fits success msgs Hfits)
    (result_ready success msgs callID _ w0 Hready)) as Hidle.
  unfold w1 in Hidle. rewrite result_sendCh in Hidle.
  destruct (res_Arg2Writer_spec _ callID _ (fresh t) (sendCh w0) _ Hidle) as (wx & Rx & Hin & Hs).
  destruct (write_body_spec _ callID _ (fresh t) (sendCh w0) wx [] headers resp Hh Hin Hs)
    as (wa & wb & wc & wd & we & Ra & Rb & Rc & Rd & Re & Hsent).
  exists (mkInboundCall r we errs). split; [|split; [done|exact Hsent]].
  unfold sendResponse. erewrite gost_bind_run by (by apply call_Response_run). cbv beta.
  erewrite gost_bind_run.
  2: { apply (onWriter_run _ _ None (newFragmentingWriter w1 ps (fresh t))).
       by apply (set_result_run success msgs callID). }
  cbv beta.
  erewrite check_run by (by apply onWriter_run).
  erewrite check_run by (by apply onWriter_run).
  erewrite check_run by (by apply onWriter_run).
  erewrite gost_bind_run by (by apply call_Response_run). cbv beta.
  erewrite gost_bind_run by (by apply onWriter_run). cbv beta iota.
  erewrite gost_bind_run by (by apply onWriter_run). cbv beta iota.
  by apply onWriter_run.
Qed.

(** The request [qmsgs] that is being read. *)
Lemma handle_spec qmsgs r n errs user headers req connSend success resp rheaders :
  ridle (H0 := RG qmsgs callID reqResReaderPreArg2) r
    [kvs_enc (range (MapRange := r2) headers); concat (TEnc req)] n → (n < fuel)%nat →
  map_ok 65536 headers → map_ok 65536 rheaders →
  user (RemoveTracingKeys headers) req = inl (success, resp, rheaders) →
  ∃ c', handle user connSend (mkInboundCall r (newFragmentingWriter w0 ps (fresh t)) errs) = Ret (None, c')
  ∧ ic_errors c' = errs
  ∧ sent_all (H0 := G (result_msgs success msgs) callID (result_fits success msgs Hfits) reqResWriterComplete)
      (fresh t) (sendCh w0) (ic_writer c')
      [[]; kvs_enc (range (MapRange := r2) rheaders); concat (TEnc resp)].
Proof.
  intros Hidle Hn Hh Hrh Huser.
  destruct (read_through qmsgs callID fuel _ reqResReaderPreArg3 read_headers (headers, None) r _ _ n
    (str "reading request headers") Hidle)
    as (ra & rb & rc & rd & n1 & l & Ra & Rb & Rc & Rd & Hidle1 & Hn1 & _);
    [done|done|by intros; apply (read_headers_spec qmsgs callID)|].
  destruct (read_through_last qmsgs callID fuel read_struct (Some req, None) rd _ n1
    (str "reading request body") Hidle1 Hn1)
    as (re & rf & rg & rh & Re & Rf & Rg & Rh & Hinc); [by intros; apply (read_struct_spec qmsgs callID)|].
  assert (Rs : server_Handle (user (RemoveTracingKeys headers)) re
    = Ret ((success, Some resp, rheaders, None), rf)).
  { unfold server_Handle. run_with Rf. by rewrite Huser. }
  destruct (sendResponse_spec rh errs success resp rheaders connSend) as (c' & Rr & He & Hsent);
    [apply Hinc|done|].
  exists c'. split; [|done]. unfold handle.
  erewrite check_run by (by apply onReader_run).
  erewrite gost_bind_run by (by apply onReader_run). cbv beta iota.
  erewrite check_run by (by apply onReader_run).
  erewrite check_run by (by apply onReader_run).
  erewrite check_run by (by apply onReader_run).
  erewrite gost_bind_run by (by apply onReader_run). cbv beta iota.
  erewrite check_run by (by apply onReader_run).
  erewrite check_run by (by apply onReader_run).
  exact Rr.
Qed.
End server.

(** The client of a call, up to the response, and the server: it reads the method,
    finds the TChanServer and handles the call. *)
Definition start_call (service method : bytes) (headers : gmap bytes bytes) (req : Struct)
    : GO (fragmentingWriter reqResWriter) (option error) :=
  check Some (writeMethod (service ++ separator ++ method)) (writeArgs headers req).

Definition serve (srv : Server)
    (users : nat → bytes → gmap bytes bytes → Struct → (bool * Struct * gmap bytes bytes) + error)
    (connSend : option error) (free : list nat) : GO InboundCall (option error) :=
  '(op, err) ← onReader (readMethod fuel free);
  match err with
  | Some e => mret (Some e)
  | None =>
      '(h, method) ← gcall (srv_find op srv);
      handle (users h method) connSend
  end.

(** C11: a Thrift call delivers its headers and its arguments to the user's function of
    the method it names, and brings the response headers, the result and whether
    it is a success back to the caller: across both writers and readers, any cut
    into frames, any order of iteration over the headers, and for either outcome.
    The tracing keys are all that the function does not see of the headers.  What
    is assumed of the Thrift library is that it reads back what it writes. *)
Theorem thrift_call_roundtrip msgs rmsgs callID t t' w0 rw0 ps ps' srv users h connSend
    service method headers req success resp rheaders m :
  call_ready msgs callID t w0 → call_ready rmsgs callID t' rw0 →
  rmsgs true = mCallRes m → ResponseCode m = responseOK →
  srv_find (service ++ separator ++ method) srv = Ret (h, method) →
  map_ok 65536 headers → map_ok 65536 rheaders →
  users h method (RemoveTracingKeys headers) req = inl (success, resp, rheaders) →
  ∃ w' frames,
    start_call service method headers req (newFragmentingWriter w0 ps (fresh t)) = Ret (None, w')
    ∧ sendCh (fw_sender w') = sendCh w0 ++ frames
    ∧ received_as msgs callID frames (λ r, ∀ free,
        (length frames < fuel)%nat → (length (service ++ separator ++ method) < sum_list free)%nat →
        ∃ c' rframes,
          serve srv users connSend free (mkInboundCall r (newFragmentingWriter rw0 ps' (fresh t')) [])
            = Ret (None, c')
          ∧ ic_errors c' = []
          ∧ sendCh (fw_sender (ic_writer c')) = sendCh rw0 ++ rframes
          ∧ received_as (result_msgs success rmsgs) callID rframes (λ r2, ∀ free2,
              (length rframes < fuel)%nat → (0 < sum_list free2)%nat →
              ∃ r', readResponse free2 r2 = Ret ((rheaders, success, Some resp, None), r'))).
Proof.
  intros (Hfits & Hid & Hv & Hne & Hready) (Hrfits & _ & Hv' & Hne' & Hrready) Hres Hcode Hfind Hh Hrh Huser.
  destruct (writeMethod_spec msgs callID Hfits (fresh t) (sendCh w0) _ (service ++ separator ++ method)
    (writer_idle msgs callID t w0 ps Hfits Hready)) as (w1 & R1 & Hidle1).
  destruct (writeArgs_spec msgs callID Hfits (fresh t) (sendCh w0) w1 _ headers req Hh Hidle1) as (w2 & R2 & Hsent).
  destruct (sent_arrives msgs callID t w0 w2 _ Hfits Hid Hv Hne Hsent) as (frames & Hch & Harr); [done|].
  exists w2, frames. split_and!; [unfold start_call; by check_with R1|done|].
  eapply received_impl; [|exact Harr]. intros r Hidle free Hfuel Hfree.
  destruct (readMethod_spec msgs callID fuel free r _ _ _ Hidle) as (ra & n1 & Q1 & Hi1 & Hn1); [done..|].
  destruct (handle_spec rmsgs callID t' rw0 ps' Hrfits Hrready msgs ra n1 [] (users h method) headers req connSend
    success resp rheaders Hi1 Hn1 Hh Hrh Huser) as (c' & Q2 & He & Hrsent).
  destruct (sent_arrives _ callID t' rw0 _ _ _ Hid Hv' Hne' Hrsent) as (rframes & Hrch & Hrarr); [done|].
  exists c', rframes. split_and!; [|done|done|].
  { unfold serve. erewrite gost_bind_run by (by apply onReader_run). cbv beta iota.
    erewrite gost_bind_run by (unfold gcall; by rewrite Hfind). exact Q2. }
  eapply received_impl; [|exact Hrarr]. intros r2' Hidle2 free2 Hf2 Hs2.
  destruct (readResponse_spec (result_msgs success rmsgs) callID free2 r2' rheaders resp (length rframes)
    (if success then responseOK else responseApplicationError) Hrh) as (r' & Q3); [|exact Hidle2|done..|].
  - unfold result_msgs. destruct success; [|unfold app_msgs]; rewrite Hres; cbn; congruence.
  - exists r'. rewrite Q3. by destruct success.
Qed.
End thrift.

(** ** Every registered method is served *)

Definition colon : byte := x3a.

Lemma separator_prefix b rest : separator `prefix_of` b :: rest → b = colon.
Proof. intros [k Hk]. by injection Hk as ->. Qed.

Lemma getServiceMethod_join service m :
  colon ∉ service → getServiceMethod (service ++ separator ++ m) = Some (service, m).
Proof.
  induction service as [|b service IH]; intros Hc.
  { cbn [app getServiceMethod]. change (separator ++ m) with (colon :: colon :: m).
    cbn [getServiceMethod]. rewrite decide_True by (by exists m). done. }
  apply not_elem_of_cons in Hc as [Hb Hc]. cbn [app getServiceMethod].
  rewrite decide_False by (intros Hp; by apply separator_prefix in Hp).
  by rewrite IH.
Qed.

Definition run_registers (regs : list (nat * TChanServer)) : Server :=
  foldl (λ s p, srv_Register p.1 p.2 s) (mkServer ∅ []) regs.

(** The registration that counts for a service is the last one. *)
Definition serving (regs : list (nat * TChanServer)) (service : bytes) : option nat :=
  fst <$> last (filter (λ p, tcs_Service p.2 = service) regs).

Lemma run_registers_snoc regs p : run_registers (regs ++ [p]) = srv_Register p.1 p.2 (run_registers regs).
Proof. unfold run_registers. by rewrite foldl_app. Qed.

Lemma handlers_serving regs service : srv_handlers (run_registers regs) !! service = serving regs service.
Proof.
  induction regs as [|p regs IH] using rev_ind; [done|]. rewrite run_registers_snoc.
  unfold serving. rewrite filter_app, filter_cons, filter_nil. cbn [srv_handlers srv_Register].
  case_decide as Hs.
  - subst. by rewrite lookup_insert_eq, last_snoc.
  - rewrite lookup_insert_ne, app_nil_r by done. exact IH.
Qed.

(** Every method that a Thrift server has registered on its channel is served: a call
    for it is split into the service and the method it was registered with, and
    goes to the last TChanServer that was registered for the service, never to
    log.Fatalf, provided no service name has a colon in it. *)
Theorem thrift_registered_served regs op :
  Forall (λ p, colon ∉ tcs_Service p.2) regs → op ∈ srv_registered (run_registers regs) →
  ∃ p m id, p ∈ regs ∧ m ∈ tcs_Methods p.2 ∧ op = tcs_Service p.2 ++ separator ++ m
  ∧ serving regs (tcs_Service p.2) = Some id
  ∧ srv_find op (run_registers regs) = Ret (id, m).
Proof.
  intros Hc Hop.
  assert (∃ p m, p ∈ regs ∧ m ∈ tcs_Methods p.2 ∧ op = tcs_Service p.2 ++ separator ++ m) as (p & m & Hp & Hm & ->).
  { clear Hc. induction regs as [|p regs IH] using rev_ind; [by apply elem_of_nil in Hop|].
    rewrite run_registers_snoc in Hop. cbn in Hop. apply elem_of_app in Hop as [Hop|Hop].
    - destruct (IH Hop) as (q & m & Hq & ?). exists q, m. split; [|done]. apply elem_of_app. by left.
    - apply list_elem_of_fmap in Hop as (m & -> & Hm). exists p, m. split; [|done].
      apply elem_of_app. right. by apply list_elem_of_singleton. }
  assert (is_Some (serving regs (tcs_Service p.2))) as [id Hid].
  { unfold serving. apply fmap_is_Some, last_is_Some. intros Hnil.
    assert (Hin : p ∈ filter (λ q, tcs_Service q.2 = tcs_Service p.2) regs) by (by apply list_elem_of_filter).
    rewrite Hnil in Hin. by apply elem_of_nil in Hin. }
  exists p, m, id. split_and!; try done. unfold srv_find.
  rewrite getServiceMethod_join by (by apply (proj1 (Forall_forall _ _) Hc)).
  by rewrite handlers_serving, Hid.
Qed.

Lemma thrift_registered_served_witness :
  let regs := [(1%nat, mkTChanServer (str "KV") [str "get"; str "set"]); (2%nat, mkTChanServer (str "KV") [str "get"])] in
  ∃ id m, srv_find (str "KV::set") (run_registers regs) = Ret (id, m).
Proof.
  intros regs. destruct (thrift_registered_served regs (str "KV::set")) as (p & m & id & _ & _ & _ & _ & Hf).
  - repeat constructor; apply (bool_decide_unpack _); vm_compute; exact I.
  - apply (bool_decide_unpack _). vm_compute. exact I.
  - exists id, m. exact Hf.
Defined.

(** ** Example of a call *)

(** A library whose structs are pairs of a tag and a byte, written separately. *)
Definition example_enc (s : byte * byte) : list bytes := [[s.1]; [s.2]].
Definition example_read (R : Type) (F : fullReader R) : GO R (option (byte * byte) * option error) :=
  '(tag, err) ← io_ReadFull 1;
  match err with
  | Some e => mret (None, Some e)
  | None =>
      '(b, err) ← io_ReadFull 1;
      mret (t ← head tag; v ← head b; Some (t, v), err)
  end.

Lemma example_read_written R (F : fullReader R) (C : Contains R) s d r :
  contains (concat (example_enc s) ++ d) r →
  ∃ r', example_read R F r = Ret ((Some s, None), r') ∧ contains d r'.
Proof.
  destruct s as [t v]. intros Hr.
  destruct (contains_ReadFull 1 _ r Hr) as (r1 & R1 & Hr1); [cbn; lia|].
  destruct (contains_ReadFull 1 _ r1 Hr1) as (r2 & R2 & Hr2); [cbn; lia|].
  exists r2. split; [|exact Hr2]. unfold example_read. run_with R1. by run_with R2.
Qed.

Lemma thrift_call_roundtrip_witness :
  let srv := run_registers [(1%nat, mkTChanServer (str "KV") [str "get"])] in
  ∃ w', start_call storage_range storage_range example_enc (str "KV") (str "get")
    {[ str "k" := str "v" ]} (x01, x02)
    (newFragmentingWriter (example_writer writesRequest example_msgs) emptyPools (fresh ChecksumTypeCrc32))
    = Ret (None, w').
Proof.
  intros srv.
  destruct (thrift_call_roundtrip storage_range storage_range 100 example_enc example_read (λ _, false)
    example_read_written example_msgs example_res 7 ChecksumTypeCrc32 ChecksumTypeCrc32
    (example_writer writesRequest example_msgs) (example_writer writesResponse example_res)
    emptyPools emptyPools srv (λ _ _ h s, inl (false, s, h)) 1%nat None (str "KV") (str "get")
    {[ str "k" := str "v" ]} (x01, x02) false (x01, x02)
    (RemoveTracingKeys {[ str "k" := str "v" ]})
    (mkCallRes 7 x00 (mkSpan 1 0 1 x00) (<[CallerName := str "me"]> ∅)))
    as (w' & frames & H & _).
  - apply example_ready. left. reflexivity.
  - apply example_ready. right. reflexivity.
  - reflexivity.
  - reflexivity.
  - vm_compute. reflexivity.
  - split; [vm_compute; congruence|]. apply (bool_decide_unpack _). vm_compute. exact I.
  - split; [vm_compute; congruence|]. apply (bool_decide_unpack _). vm_compute. exact I.
  - reflexivity.
  - exists w'. exact H.
Defined.
