(* ===== verification/ThriftStructs.v ===== *)
(** * Structs of the Thrift library (the parts every generated struct shares)

    The generated code reads and writes its structs field by field through a TProtocol of
    the Thrift library, which is not part of this repository: [TProtocol] is its
    interface and [TProtocolLaws] what is used of it, that what was written is read back
    in the same order (names of structs and fields need not be) and that Skip passes over
    one value.  What a protocol holds is a list of tokens; a [tval] is a value with the
    tokens it is written as.

    The pieces the compiler repeats in every struct are combinators here: writing a
    struct and its fields, and the loop that reads them, which fills the struct in as it
    goes and returns what it has when there is an error.  [readStruct_spec] gives the
    result of that loop on any well-formed struct, with fields in any order, repeated,
    unknown or of another type than expected.  [token_list] is a protocol that satisfies
    the laws. *)

From S2P Require Import Prelude Errors Text Buffer Checksum Frame Messages Fragment FragmentCorrect Mex ReqRes Headers Calls.

Inductive ttype := STOP | BOOL | BYTE | DOUBLE | I16 | I32 | I64 | STRING | STRUCT | MAP | SET | LIST.

#[export] Instance ttype_eq_dec : EqDecision ttype.
Proof. solve_decision. Defined.

(** The methods of a TProtocol that generated structs call. *)
Class TProtocol (P : Type) := {
  WriteStructBegin : bytes → GO P (option error);
  WriteStructEnd : GO P (option error);
  WriteFieldBegin : bytes → ttype → Z → GO P (option error);
  WriteFieldEnd : GO P (option error);
  WriteFieldStop : GO P (option error);
  WriteMapBegin : ttype → ttype → Z → GO P (option error);
  WriteMapEnd : GO P (option error);
  WriteListBegin : ttype → Z → GO P (option error);
  WriteListEnd : GO P (option error);
  WriteBool : bool → GO P (option error);
  WriteI32 : Z → GO P (option error);
  WriteString : bytes → GO P (option error);
  ReadStructBegin : GO P (bytes * option error);
  ReadStructEnd : GO P (option error);
  ReadFieldBegin : GO P (bytes * ttype * Z * option error);
  ReadFieldEnd : GO P (option error);
  ReadMapBegin : GO P (ttype * ttype * Z * option error);
  ReadMapEnd : GO P (option error);
  ReadListBegin : GO P (ttype * Z * option error);
  ReadListEnd : GO P (option error);
  ReadBool : GO P (bool * option error);
  ReadI32 : GO P (Z * option error);
  ReadString : GO P (bytes * option error);
  Skip : ttype → GO P (option error)
}.

(** The functions of the library that make errors: PrependError, and a
    TProtocolException of type INVALID_DATA. *)
Class ThriftErrors := { PrependError : bytes → error → error; invalidData : bytes → error }.

(** ** The pieces of generated code *)

Section generated.
Context `{TProtocol P, ThriftErrors}.

(** [if err := m; err != nil { return PrependError(msg, err) }], as a result to go on
    with. *)
Definition prepend (msg : bytes) (m : GO P (option error)) : GO P (option error) :=
  err ← m; mret (PrependError msg <$> err).

(** The value of a scalar, or the error with its prefix. *)
Definition prependV {A} (msg : bytes) (m : GO P (A * option error)) : GO P (A * option error) :=
  '(a, err) ← m; mret (a, PrependError msg <$> err).

(** writeFieldN: [T] is the struct as fmt prints its type, [label] is "1:ok". *)
Definition writeField (T name : bytes) (ty : ttype) (id : Z) (value : GO P (option error)) : GO P (option error) :=
  let label := Itoa id ++ str ":" ++ name ++ str ": " in
  check Some (prepend (T ++ str " write field begin error " ++ label) (WriteFieldBegin name ty id)) (
  check Some value (
  prepend (T ++ str " write field end error " ++ label) WriteFieldEnd)).

(** The message of a scalar that cannot be written. *)
Definition fieldMsg (T name : bytes) (id : Z) : bytes :=
  T ++ str "." ++ name ++ str " (" ++ Itoa id ++ str ") field write error: ".

(** Write: [fields] writes the fields, if the pointer is not nil. *)
Definition writeStruct (T name : bytes) (fields : GO P (option error)) : GO P (option error) :=
  check Some (prepend (T ++ str " write struct begin error: ") (WriteStructBegin name)) (
  check Some fields (
  check Some (prepend (str "write field stop error: ") WriteFieldStop) (
  prepend (str "write struct stop error: ") WriteStructEnd))).

(** The fields one after another. *)
Fixpoint writeFields (fs : list (GO P (option error))) : GO P (option error) :=
  match fs with
  | [] => mret None
  | f :: fs => check Some f (writeFields fs)
  end.

(** A field of the type the struct expects is read, any other is skipped. *)
Definition onType {X} (expected actual : ttype) (x : X) (read : GO P (X * option error)) : GO P (X * option error) :=
  if decide (actual = expected) then read else (err ← Skip actual; mret (x, err)).
Definition skipField {X} (actual : ttype) (x : X) : GO P (X * option error) := err ← Skip actual; mret (x, err).

(** ReadFieldN of a scalar, and of a struct, which is read into a new value. *)
Definition readInto {A X} (msg : bytes) (m : GO P (A * option error)) (x : X) (set : A → X) : GO P (X * option error) :=
  '(v, err) ← m;
  mret (match err with Some e => (x, Some (PrependError msg e)) | None => (set v, None) end).
Definition readNested {A X} (T : bytes) (m : GO P (A * option error)) (set : A → X) : GO P (X * option error) :=
  '(v, err) ← m;
  mret (set v, PrependError (T ++ str " error reading struct: ") <$> err).

(** The loop of Read. *)
Fixpoint readFields {X} (fuel : nat) (T : bytes) (onField : Z → ttype → X → GO P (X * option error)) (x : X)
    : GO P (X * option error) :=
  match fuel with
  | O => λ _, OutOfFuel
  | S fuel =>
      '(_, ty, id, err) ← ReadFieldBegin;
      match err with
      | Some e => mret (x, Some (PrependError (T ++ str " field " ++ Itoa id ++ str " read error: ") e))
      | None =>
          if decide (ty = STOP) then mret (x, None)
          else
            '(x, err) ← onField id ty x;
            match err with
            | Some e => mret (x, Some e)
            | None => check (λ e, (x, Some e)) ReadFieldEnd (readFields fuel T onField x)
            end
      end
  end.

(** Read without the check of the required fields. *)
Definition readStruct {X} (fuel : nat) (T : bytes) (onField : Z → ttype → X → GO P (X * option error)) (x : X)
    : GO P (X * option error) :=
  '(_, err) ← ReadStructBegin;
  match err with
  | Some e => mret (x, Some (PrependError (T ++ str " read error: ") e))
  | None =>
      '(x, err) ← readFields fuel T onField x;
      match err with
      | Some e => mret (x, Some e)
      | None => check (λ e, (x, Some e)) (prepend (T ++ str " read struct end error: ") ReadStructEnd) (mret (x, None))
      end
  end.

(** The check of the required fields: whether each has been read, and the error. *)
Fixpoint checkRequired (required : list (bool * bytes)) : option error :=
  match required with
  | [] => None
  | (isset, name) :: required =>
      if isset : bool then checkRequired required
      else Some (invalidData (str "Required field " ++ name ++ str " is not set"))
  end.
Definition readRequired {X Y} (fuel : nat) (T : bytes) (onField : Z → ttype → X → GO P (X * option error)) (x : X)
    (finish : X → Y * list (bool * bytes)) : GO P (Y * option error) :=
  '(x, err) ← readStruct fuel T onField x;
  let '(y, required) := finish x in
  mret (y, match err with Some e => Some e | None => checkRequired required end).
End generated.

(** ** Values and their tokens *)

Inductive token :=
| kStructBegin | kStructEnd | kFieldBegin (ty : ttype) (id : Z) | kFieldEnd | kFieldStop
| kMapBegin (kt vt : ttype) (n : Z) | kMapEnd | kListBegin (et : ttype) (n : Z) | kListEnd
| kBool (b : bool) | kI32 (z : Z) | kString (s : bytes)
| kOther (ty : ttype) (z : Z).

(** [TOther] are the values of types that no struct here uses. *)
Inductive tval :=
| TBool (b : bool)
| TI32 (z : Z)
| TString (s : bytes)
| TOther (ty : ttype) (z : Z)
| TStruct (fs : list (Z * tval))
| TMap (kt vt : ttype) (kvs : list (tval * tval))
| TList (et : ttype) (l : list tval).

Definition type_of (v : tval) : ttype :=
  match v with
  | TBool _ => BOOL
  | TI32 _ => I32
  | TString _ => STRING
  | TOther ty _ => ty
  | TStruct _ => STRUCT
  | TMap _ _ _ => MAP
  | TList _ _ => LIST
  end.

Fixpoint tokens (v : tval) : list token :=
  match v with
  | TBool b => [kBool b]
  | TI32 z => [kI32 z]
  | TString s => [kString s]
  | TOther ty z => [kOther ty z]
  | TStruct fs =>
      kStructBegin :: concat ((λ f, kFieldBegin (type_of f.2) f.1 :: tokens f.2 ++ [kFieldEnd]) <$> fs)
        ++ [kFieldStop; kStructEnd]
  | TMap kt vt kvs =>
      kMapBegin kt vt (len kvs) :: concat ((λ kv, tokens kv.1 ++ tokens kv.2) <$> kvs) ++ [kMapEnd]
  | TList et l => kListBegin et (len l) :: concat (tokens <$> l) ++ [kListEnd]
  end.

Definition field_tokens (f : Z * tval) : list token := kFieldBegin (type_of f.2) f.1 :: tokens f.2 ++ [kFieldEnd].

(** Values that fit: numbers in their range, sizes an int32, no value of type STOP; a
    value of another type is one of the types that are not spelled out. *)
Definition scalar_type (ty : ttype) : bool := bool_decide (ty ∈ [BYTE; DOUBLE; I16; I64]).
Definition int32_ok (z : Z) : Prop := - 2^31 <= z < 2^31.

Fixpoint fits (v : tval) : Prop :=
  match v with
  | TBool _ | TString _ => True
  | TI32 z => int32_ok z
  | TOther ty _ => scalar_type ty = true
  | TStruct fs => foldr (λ f P, fits f.2 ∧ P) True fs
  | TMap _ _ kvs => len kvs < 2^31 ∧ foldr (λ kv P, (fits kv.1 ∧ fits kv.2) ∧ P) True kvs
  | TList _ l => len l < 2^31 ∧ foldr (λ v P, fits v ∧ P) True l
  end.

Lemma type_of_fits v : fits v → type_of v ≠ STOP.
Proof. destruct v; try done. cbn. intros Hs ->. by vm_compute in Hs. Qed.

(** ** What is assumed of a protocol *)

Class TProtocolLaws (P : Type) `{TProtocol P} := {
  (** the tokens that have been written and not yet read *)
  holds : list token → P → Prop;
}.

Section laws.
Context `{TProtocolLaws P}.

Definition writes (m : GO P (option error)) (ks : list token) : Prop :=
  ∀ ts p, holds ts p → ∃ p', m p = Ret (None, p') ∧ holds (ts ++ ks) p'.
Definition reads {A} (m : GO P A) (ks : list token) (a : A) : Prop :=
  ∀ ts p, holds (ks ++ ts) p → ∃ p', m p = Ret (a, p') ∧ holds ts p'.

(** [r_skip] is for the values of [tval], which has no sets, and leaves out that the
    library's Skip gives up below 64 levels of nesting. *)
Record protocol_ok : Prop := {
  w_struct name : writes (WriteStructBegin name) [kStructBegin];
  w_struct_end : writes WriteStructEnd [kStructEnd];
  w_field name ty id : writes (WriteFieldBegin name ty id) [kFieldBegin ty id];
  w_field_end : writes WriteFieldEnd [kFieldEnd];
  w_stop : writes WriteFieldStop [kFieldStop];
  w_map kt vt n : 0 <= n < 2^31 → writes (WriteMapBegin kt vt n) [kMapBegin kt vt n];
  w_map_end : writes WriteMapEnd [kMapEnd];
  w_list et n : 0 <= n < 2^31 → writes (WriteListBegin et n) [kListBegin et n];
  w_list_end : writes WriteListEnd [kListEnd];
  w_bool b : writes (WriteBool b) [kBool b];
  w_i32 z : int32_ok z → writes (WriteI32 z) [kI32 z];
  w_string s : writes (WriteString s) [kString s];
  r_struct : ∃ name, reads ReadStructBegin [kStructBegin] (name, None);
  r_struct_end : reads ReadStructEnd [kStructEnd] None;
  r_field ty id : ∃ name, reads ReadFieldBegin [kFieldBegin ty id] (name, ty, id, None);
  r_stop : ∃ name id, reads ReadFieldBegin [kFieldStop] (name, STOP, id, None);
  r_field_end : reads ReadFieldEnd [kFieldEnd] None;
  r_map kt vt n : ∃ kt' vt', reads ReadMapBegin [kMapBegin kt vt n] (kt', vt', n, None);
  r_map_end : reads ReadMapEnd [kMapEnd] None;
  r_list et n : ∃ et', reads ReadListBegin [kListBegin et n] (et', n, None);
  r_list_end : reads ReadListEnd [kListEnd] None;
  r_bool b : reads ReadBool [kBool b] (b, None);
  r_i32 z : reads ReadI32 [kI32 z] (z, None);
  r_string s : reads ReadString [kString s] (s, None);
  r_skip v : fits v → reads (Skip (type_of v)) (tokens v) None
}.
End laws.

(** ** Writing and reading *)

Section specs.
Context {P : Type} {HP : TProtocol P} {HL : TProtocolLaws P} {HE : ThriftErrors} (Hok : protocol_ok (P := P)).
Implicit Types m : GO P (option error).

Lemma writes_nil : writes (mret None) [].
Proof. intros ts p Hp. exists p. by rewrite app_nil_r. Qed.

Lemma writes_check m m' ks ks' : writes m ks → writes m' ks' → writes (check Some m m') (ks ++ ks').
Proof.
  intros Hm Hm' ts p Hp. destruct (Hm ts p Hp) as (p1 & E1 & H1). destruct (Hm' _ p1 H1) as (p2 & E2 & H2).
  exists p2. rewrite (check_run _ _ _ _ _ E1). by rewrite app_assoc.
Qed.

Lemma writes_prepend msg m ks : writes m ks → writes (prepend msg m) ks.
Proof.
  intros Hm ts p Hp. destruct (Hm ts p Hp) as (p1 & E1 & H1). exists p1. unfold prepend. by run_with E1.
Qed.

Lemma writes_eq m ks ks' : writes m ks → ks = ks' → writes m ks'.
Proof. by intros ? <-. Qed.

Lemma writeField_spec T name id value v :
  writes value (tokens v) → writes (writeField T name (type_of v) id value) (field_tokens (id, v)).
Proof.
  intros Hv. eapply writes_eq.
  { apply writes_check; [by apply writes_prepend, w_field|]. apply writes_check; [exact Hv|].
    by apply writes_prepend, w_field_end. }
  done.
Qed.

(** A list of fields: each writes its part of the fields of the struct. *)
Lemma writeFields_spec (fs : list (GO P (option error))) (kss : list (list token)) :
  Forall2 writes fs kss → writes (writeFields fs) (concat kss).
Proof.
  induction 1 as [|f ks fs kss Hf _ IH]; cbn [writeFields concat]; [apply writes_nil|]. by apply writes_check.
Qed.

Lemma writeStruct_spec T name m fs :
  writes m (concat (field_tokens <$> fs)) → writes (writeStruct T name m) (tokens (TStruct fs)).
Proof.
  intros Hm. eapply writes_eq.
  { apply writes_check; [by apply writes_prepend, w_struct|]. apply writes_check; [exact Hm|].
    apply writes_check; [by apply writes_prepend, w_stop|by apply writes_prepend, w_struct_end]. }
  done.
Qed.

Lemma reads_then {A B} (m : GO P A) (k : A → GO P B) ks ks' a b :
  reads m ks a → reads (k a) ks' b → reads (m ≫= k) (ks ++ ks') b.
Proof.
  intros Hm Hk ts p Hp. rewrite <- app_assoc in Hp. destruct (Hm _ p Hp) as (p1 & E1 & H1).
  destruct (Hk _ p1 H1) as (p2 & E2 & H2). exists p2. by run_with E1.
Qed.

Lemma reads_done {A} (a : A) : reads (mret a) [] a.
Proof. intros ts p Hp. by exists p. Qed.

Lemma reads_map {A B} (m : GO P A) (f : A → B) ks a : reads m ks a → reads (x ← m; mret (f x)) ks (f a).
Proof. intros Hm. rewrite <- (app_nil_r ks). eapply reads_then; [exact Hm|apply reads_done]. Qed.

Lemma reads_check {A} (fail : error → A) m (k : GO P A) ks ks' a :
  reads m ks None → reads k ks' a → reads (check fail m k) (ks ++ ks') a.
Proof.
  intros Hm Hk ts p Hp. rewrite <- app_assoc in Hp. destruct (Hm _ p Hp) as (p1 & E1 & H1).
  destruct (Hk _ p1 H1) as (p2 & E2 & H2). exists p2. by rewrite (check_run _ _ _ _ _ E1).
Qed.

Lemma reads_prepend msg m ks : reads m ks None → reads (prepend msg m) ks None.
Proof. intros Hm. exact (reads_map m (fmap (PrependError msg)) ks None Hm). Qed.

Lemma reads_prependV {A} msg (m : GO P (A * option error)) ks a :
  reads m ks (a, None) → reads (prependV msg m) ks (a, None).
Proof.
  intros Hm ts p Hp. destruct (Hm ts p Hp) as (p1 & E1 & H1). exists p1. unfold prependV. by run_with E1.
Qed.

(** A field of the expected type, and one that is skipped. *)
Lemma onType_read {X} ty (x : X) read r ks : reads read ks r → reads (onType ty ty x read) ks r.
Proof. intros Hr. unfold onType. by rewrite decide_True. Qed.

Lemma skipField_spec {X} v (x : X) : fits v → reads (skipField (type_of v) x) (tokens v) (x, None).
Proof. intros Hv. exact (reads_map (Skip (type_of v)) (λ err, (x, err)) _ None (r_skip Hok v Hv)). Qed.

Lemma onType_skip {X} ty v (x : X) read :
  fits v → type_of v ≠ ty → reads (onType ty (type_of v) x read) (tokens v) (x, None).
Proof. intros Hv Hne. unfold onType. rewrite decide_False by done. by apply skipField_spec. Qed.

Lemma readInto_spec {A X} msg (m : GO P (A * option error)) (x : X) set ks a :
  reads m ks (a, None) → reads (readInto msg m x set) ks (set a, None).
Proof.
  intros Hm ts p Hp. destruct (Hm ts p Hp) as (p1 & E1 & H1). exists p1. unfold readInto. by run_with E1.
Qed.

Lemma readNested_spec {A X} T (m : GO P (A * option error)) (set : A → X) ks a :
  reads m ks (a, None) → reads (readNested T m set) ks (set a, None).
Proof.
  intros Hm ts p Hp. destruct (Hm ts p Hp) as (p1 & E1 & H1). exists p1. unfold readNested. by run_with E1.
Qed.

(** A struct from its fields, one after another: [onField] reads each of them and takes the
    struct from one state to the next. *)
Section loop.
Context {X : Type} (T : bytes) (onField : Z → ttype → X → GO P (X * option error)).

Inductive field_chain : X → list (Z * tval) → X → Prop :=
| chain_nil x : field_chain x [] x
| chain_cons x id v fs x1 x2 :
    fits v → reads (onField id (type_of v) x) (tokens v) (x1, None) → field_chain x1 fs x2 →
    field_chain x ((id, v) :: fs) x2.

Lemma readFields_chain x fs x' : field_chain x fs x' → ∀ fuel, (length fs < fuel)%nat →
  reads (readFields fuel T onField x) (concat (field_tokens <$> fs) ++ [kFieldStop]) (x', None).
Proof.
  induction 1 as [x|x id v fs x1 x2 Hv Hr1 _ IH]; intros [|fuel] Hfuel; try (cbn in Hfuel; lia); cbn [readFields].
  { cbn [fmap list_fmap concat app]. destruct (r_stop Hok) as (name & i & Hs). rewrite <- (app_nil_r [kFieldStop]).
    eapply reads_then; [exact Hs|]. cbn. apply reads_done. }
  destruct (r_field Hok (type_of v) id) as (name & Hr).
  change (concat (field_tokens <$> (id, v) :: fs) ++ [kFieldStop])
    with ([kFieldBegin (type_of v) id] ++ ((tokens v ++ [kFieldEnd]) ++ concat (field_tokens <$> fs)) ++ [kFieldStop]).
  eapply reads_then; [exact Hr|]. cbv beta iota. rewrite decide_False by (by apply type_of_fits).
  rewrite <- !app_assoc. eapply reads_then; [exact Hr1|]. cbv beta iota.
  apply reads_check; [apply (r_field_end Hok)|]. apply IH. cbn in Hfuel. lia.
Qed.

Lemma readStruct_chain x fs x' fuel : field_chain x fs x' → (length fs < fuel)%nat →
  reads (readStruct fuel T onField x) (tokens (TStruct fs)) (x', None).
Proof.
  intros Hc Hfuel. unfold readStruct. destruct (r_struct Hok) as (name & Hs).
  change (tokens (TStruct fs)) with ([kStructBegin] ++ concat (field_tokens <$> fs) ++ [kFieldStop] ++ [kStructEnd]).
  eapply reads_then; [exact Hs|]. cbv beta iota. rewrite app_assoc.
  eapply reads_then; [by apply (readFields_chain _ _ _ Hc)|]. cbv beta iota.
  rewrite <- (app_nil_r [kStructEnd]). apply reads_check; [by apply reads_prepend, r_struct_end|apply reads_done].
Qed.

(** With required fields. *)
Lemma readRequired_chain {Y} x fs x' fuel (finish : X → Y * list (bool * bytes)) :
  field_chain x fs x' → (length fs < fuel)%nat →
  reads (readRequired fuel T onField x finish) (tokens (TStruct fs)) ((finish x').1, checkRequired (finish x').2).
Proof.
  intros Hc Hfuel. unfold readRequired. rewrite <- (app_nil_r (tokens _)).
  eapply reads_then; [by apply (readStruct_chain _ _ _ _ Hc)|]. cbv beta iota.
  destruct (finish x') as [y req]. apply reads_done.
Qed.

(** What a struct makes of any fields: [upd] is the effect of one field, for every value a
    field can have; [Q] is what is needed of fields with values inside. *)
Context (upd : X → Z * tval → X) (Q : Z * tval → Prop).
Hypothesis HonField : ∀ id v x, fits v → Q (id, v) → reads (onField id (type_of v) x) (tokens v) (upd x (id, v), None).

Definition field_fits (f : Z * tval) : Prop := fits f.2 ∧ Q f.

Lemma field_chain_foldl fs : ∀ x, Forall field_fits fs → field_chain x fs (foldl upd x fs).
Proof.
  induction fs as [|[id v] fs IH]; intros x Hf; [constructor|]. apply Forall_cons in Hf as [[Hv Hq] Hf].
  econstructor; [exact Hv|by apply HonField|by apply IH].
Qed.

Lemma readStruct_spec fs fuel x : Forall field_fits fs → (length fs < fuel)%nat →
  reads (readStruct fuel T onField x) (tokens (TStruct fs)) (foldl upd x fs, None).
Proof. intros Hf. by apply readStruct_chain, field_chain_foldl. Qed.

Lemma readRequired_spec {Y} fs fuel x (finish : X → Y * list (bool * bytes)) :
  Forall field_fits fs → (length fs < fuel)%nat →
  reads (readRequired fuel T onField x finish) (tokens (TStruct fs))
    ((finish (foldl upd x fs)).1, checkRequired (finish (foldl upd x fs)).2).
Proof. intros Hf. by apply readRequired_chain, field_chain_foldl. Qed.
End loop.
End specs.

(** ** A protocol: a list of tokens *)

Section token_list.

Definition put (k : token) : GO (list token) (option error) := λ ts, Ret (None, ts ++ [k]).
Definition unexpected : error := otherError (str "unexpected token").

(** Reading a token that [f] accepts. *)
Definition take_token {A} (f : token → option A) (zero : A) : GO (list token) (A * option error) := λ ts,
  match ts with
  | k :: rest => match f k with Some a => Ret ((a, None), rest) | None => Ret ((zero, Some unexpected), ts) end
  | [] => Ret ((zero, Some unexpected), ts)
  end.
Definition expect_token (f : token → bool) : GO (list token) (option error) := λ ts,
  match ts with
  | k :: rest => if f k then Ret (None, rest) else Ret (Some unexpected, ts)
  | [] => Ret (Some unexpected, ts)
  end.

(** Skip counts the structs, maps and lists it is in. *)
Fixpoint skip_go (depth : nat) (ts : list token) : option (list token) :=
  match ts with
  | [] => None
  | k :: ts =>
      match k with
      | kStructBegin | kMapBegin _ _ _ | kListBegin _ _ => skip_go (S depth) ts
      | kStructEnd | kMapEnd | kListEnd =>
          match depth with O => None | S O => Some ts | S d => skip_go d ts end
      | kFieldBegin _ _ | kFieldEnd | kFieldStop => match depth with O => None | S _ => skip_go depth ts end
      | kBool _ | kI32 _ | kString _ | kOther _ _ => match depth with O => Some ts | S _ => skip_go depth ts end
      end
  end.
Definition skip_token (ty : ttype) : GO (list token) (option error) := λ ts,
  match skip_go 0 ts with Some rest => Ret (None, rest) | None => Ret (Some unexpected, ts) end.

#[export] Instance token_list : TProtocol (list token) := {
  WriteStructBegin _ := put kStructBegin;
  WriteStructEnd := put kStructEnd;
  WriteFieldBegin _ ty id := put (kFieldBegin ty id);
  WriteFieldEnd := put kFieldEnd;
  WriteFieldStop := put kFieldStop;
  WriteMapBegin kt vt n := put (kMapBegin kt vt n);
  WriteMapEnd := put kMapEnd;
  WriteListBegin et n := put (kListBegin et n);
  WriteListEnd := put kListEnd;
  WriteBool b := put (kBool b);
  WriteI32 z := put (kI32 z);
  WriteString s := put (kString s);
  ReadStructBegin := take_token (λ k, match k with kStructBegin => Some [] | _ => None end) [];
  ReadStructEnd := expect_token (λ k, match k with kStructEnd => true | _ => false end);
  ReadFieldBegin := take_token (λ k, match k with
                                     | kFieldBegin ty id => Some ([], ty, id)
                                     | kFieldStop => Some ([], STOP, 0)
                                     | _ => None
                                     end) ([], STOP, 0);
  ReadFieldEnd := expect_token (λ k, match k with kFieldEnd => true | _ => false end);
  ReadMapBegin := take_token (λ k, match k with kMapBegin kt vt n => Some (kt, vt, n) | _ => None end) (STOP, STOP, 0);
  ReadMapEnd := expect_token (λ k, match k with kMapEnd => true | _ => false end);
  ReadListBegin := take_token (λ k, match k with kListBegin et n => Some (et, n) | _ => None end) (STOP, 0);
  ReadListEnd := expect_token (λ k, match k with kListEnd => true | _ => false end);
  ReadBool := take_token (λ k, match k with kBool b => Some b | _ => None end) false;
  ReadI32 := take_token (λ k, match k with kI32 z => Some z | _ => None end) 0;
  ReadString := take_token (λ k, match k with kString s => Some s | _ => None end) [];
  Skip := skip_token
}.

#[export] Instance token_list_laws : TProtocolLaws (list token) := { holds ts p := p = ts }.

Lemma skip_tokens : ∀ v d ts, skip_go d (tokens v ++ ts) = match d with O => Some ts | S _ => skip_go d ts end.
Proof.
  fix IH 1. intros [b|z|s|ty z|fs|kt vt kvs|et l] d ts; cbn [tokens app skip_go]; try by destruct d.
  - rewrite <- app_assoc.
    assert (H : ∀ rest, skip_go (S d) (concat ((λ f, kFieldBegin (type_of f.2) f.1 :: tokens f.2 ++ [kFieldEnd]) <$> fs) ++ rest)
      = skip_go (S d) rest); [|rewrite H; cbn; by destruct d].
    induction fs as [|[i x] fs IHfs]; intros rest; [done|]. cbn. rewrite <- !app_assoc, IH. cbn. apply IHfs.
  - rewrite <- app_assoc.
    assert (H : ∀ rest, skip_go (S d) (concat ((λ kv, tokens kv.1 ++ tokens kv.2) <$> kvs) ++ rest) = skip_go (S d) rest);
      [|rewrite H; cbn; by destruct d].
    induction kvs as [|[x y] kvs IHk]; intros rest; [done|]. cbn. rewrite <- !app_assoc, !IH. apply IHk.
  - rewrite <- app_assoc.
    assert (H : ∀ rest, skip_go (S d) (concat (tokens <$> l) ++ rest) = skip_go (S d) rest);
      [|rewrite H; cbn; by destruct d].
    induction l as [|x l IHl]; intros rest; [done|]. cbn. rewrite <- app_assoc, IH. apply IHl.
Qed.

Lemma put_writes k : writes (put k) [k].
Proof. intros ts p ->. by exists (ts ++ [k]). Qed.

Lemma token_list_ok : protocol_ok (P := list token).
Proof.
  assert (Hr : ∀ A (m : GO (list token) A) k a, (∀ ts, m (k :: ts) = Ret (a, ts)) → reads m [k] a)
    by (intros A m k a Hm ts p ->; exists ts; split; [apply Hm|reflexivity]).
  split; intros; try apply put_writes; try (apply Hr; reflexivity).
  all: try (eexists; apply Hr; reflexivity).
  all: try (do 2 eexists; apply Hr; reflexivity).
  intros ts p ->. exists ts. split; [|reflexivity]. cbn. unfold skip_token. by rewrite skip_tokens.
Qed.
End token_list.
