(* ===== verification/ThriftMeta.v ===== *)
(** * The Meta service (thrift/meta.go, thrift/tchan-meta.go, thrift/server.go,
    thrift/gen-go/meta/meta.go)

    Every Thrift server of this library serves "Meta": a health check, which the user can
    replace, and version information.  Modelled are the structs of the service with the
    code the Thrift compiler wrote for them (on the interface of [ThriftStructs.v]), the
    handler, the generated client and server, and the registration by NewServer.

    A struct that is read gets its fields as they come; [HealthStatus_Read_spec] and the
    like give the result for every sequence of fields, so that what another version of
    the service adds is known to be skipped and what it leaves out is known to be an
    error exactly when it is required. *)

From S2P Require Import Prelude Errors Text Buffer Checksum Frame Messages Fragment FragmentCorrect Mex ReqRes Headers Calls SystemErrors ThriftStructs Thrift.

(** ** Enums *)

Definition HealthState_REFUSING : Z := 0.
Definition HealthState_ACCEPTING : Z := 1.
Definition HealthState_STOPPING : Z := 2.
Definition HealthState_STOPPED : Z := 3.

Definition HealthState_String (p : Z) : bytes :=
  if decide (p = HealthState_REFUSING) then str "REFUSING"
  else if decide (p = HealthState_ACCEPTING) then str "ACCEPTING"
  else if decide (p = HealthState_STOPPING) then str "STOPPING"
  else if decide (p = HealthState_STOPPED) then str "STOPPED"
  else str "<UNSET>".

(** HealthStateFromString; [None] is the error. *)
Definition HealthStateFromString (s : bytes) : option Z :=
  if decide (s = str "REFUSING") then Some HealthState_REFUSING
  else if decide (s = str "ACCEPTING") then Some HealthState_ACCEPTING
  else if decide (s = str "STOPPING") then Some HealthState_STOPPING
  else if decide (s = str "STOPPED") then Some HealthState_STOPPED
  else None.

Definition HealthState_MarshalText (p : Z) : bytes := HealthState_String p.
Definition HealthState_UnmarshalText (text : bytes) : option Z := HealthStateFromString text.

Definition HealthRequestType_PROCESS : Z := 0.
Definition HealthRequestType_TRAFFIC : Z := 1.

Definition HealthRequestType_String (p : Z) : bytes :=
  if decide (p = HealthRequestType_PROCESS) then str "PROCESS"
  else if decide (p = HealthRequestType_TRAFFIC) then str "TRAFFIC"
  else str "<UNSET>".
Definition HealthRequestTypeFromString (s : bytes) : option Z :=
  if decide (s = str "PROCESS") then Some HealthRequestType_PROCESS
  else if decide (s = str "TRAFFIC") then Some HealthRequestType_TRAFFIC
  else None.
Definition HealthRequestType_MarshalText (p : Z) : bytes := HealthRequestType_String p.
Definition HealthRequestType_UnmarshalText (text : bytes) : option Z := HealthRequestTypeFromString text.

(** ** Structs *)

Record HealthRequest := mkHealthRequest { hr_Type : option Z }.
Record HealthStatus := mkHealthStatus { hs_Ok : bool; hs_Message : option bytes; hs_State : option Z }.
Record ThriftIDLs := mkThriftIDLs { Idls : gmap bytes bytes; EntryPoint : bytes }.
Record VersionInfo := mkVersionInfo { vi_Language : bytes; vi_LanguageVersion : bytes; vi_Version : bytes }.
Record MetaHealthArgs := mkMetaHealthArgs { Hr : option HealthRequest }.
Record MetaHealthResult := mkMetaHealthResult { mh_Success : option HealthStatus }.
Record MetaThriftIDLResult := mkMetaThriftIDLResult { mt_Success : option ThriftIDLs }.
Record MetaVersionInfoResult := mkMetaVersionInfoResult { mv_Success : option VersionInfo }.

Definition HealthRequest_GetType (p : HealthRequest) : Z := default 0 (hr_Type p).
Definition HealthStatus_GetMessage (p : HealthStatus) : bytes := default [] (hs_Message p).
Definition HealthStatus_GetState (p : HealthStatus) : Z := default 0 (hs_State p).

(** Equals on pointers: nil equals only nil. *)
Definition ptr_Equals {A} (eqv : A → A → bool) (p other : option A) : bool :=
  match p, other with
  | None, None => true
  | Some a, Some b => eqv a b
  | _, _ => false
  end.
Definition HealthRequest_Equals : option HealthRequest → option HealthRequest → bool :=
  ptr_Equals (λ p o, ptr_Equals Z.eqb (hr_Type p) (hr_Type o)).
Definition HealthStatus_Equals : option HealthStatus → option HealthStatus → bool :=
  ptr_Equals (λ p o, bool_decide (hs_Ok p = hs_Ok o)
    && ptr_Equals (λ a b, bool_decide (a = b)) (hs_Message p) (hs_Message o)
    && ptr_Equals Z.eqb (hs_State p) (hs_State o)).
(** A key that the other map does not have reads as the empty string. *)
Definition ThriftIDLs_Equals : option ThriftIDLs → option ThriftIDLs → bool :=
  ptr_Equals (λ p o, bool_decide (size (Idls p) = size (Idls o))
    && forallb (λ kv, bool_decide (kv.2 = default [] (Idls o !! kv.1))) (map_to_list (Idls p))
    && bool_decide (EntryPoint p = EntryPoint o)).
Definition VersionInfo_Equals : option VersionInfo → option VersionInfo → bool :=
  ptr_Equals (λ p o, bool_decide (vi_Language p = vi_Language o)
    && bool_decide (vi_LanguageVersion p = vi_LanguageVersion o) && bool_decide (vi_Version p = vi_Version o)).

Section structs.
Context `{TProtocol P, ThriftErrors}.
Notation io := (GO P).

Notation errRead n := (str "error reading field " ++ Itoa n ++ str ": ").

(** *** HealthRequest *)

Definition T_HealthRequest : bytes := str "*meta.HealthRequest".

Definition HealthRequest_ReadField1 (p : HealthRequest) : io (HealthRequest * option error) :=
  readInto (errRead 1) ReadI32 p (λ v, mkHealthRequest (Some v)).
Definition HealthRequest_Read (fuel : nat) : HealthRequest → io (HealthRequest * option error) :=
  readStruct fuel T_HealthRequest (λ id ty p,
    if decide (id = 1) then onType I32 ty p (HealthRequest_ReadField1 p) else skipField ty p).

Definition HealthRequest_writeField1 (p : HealthRequest) : io (option error) :=
  match hr_Type p with
  | None => mret None
  | Some v => writeField T_HealthRequest (str "type") I32 1
                (prepend (fieldMsg T_HealthRequest (str "type") 1) (WriteI32 (int32 v)))
  end.
Definition HealthRequest_Write (p : option HealthRequest) : io (option error) :=
  writeStruct T_HealthRequest (str "HealthRequest")
    (match p with None => mret None | Some p => writeFields [HealthRequest_writeField1 p] end).

(** *** HealthStatus *)

Definition T_HealthStatus : bytes := str "*meta.HealthStatus".

Definition HealthStatus_ReadField1 (p : HealthStatus) : io (HealthStatus * option error) :=
  readInto (errRead 1) ReadBool p (λ v, mkHealthStatus v (hs_Message p) (hs_State p)).
Definition HealthStatus_ReadField2 (p : HealthStatus) : io (HealthStatus * option error) :=
  readInto (errRead 2) ReadString p (λ v, mkHealthStatus (hs_Ok p) (Some v) (hs_State p)).
Definition HealthStatus_ReadField3 (p : HealthStatus) : io (HealthStatus * option error) :=
  readInto (errRead 3) ReadI32 p (λ v, mkHealthStatus (hs_Ok p) (hs_Message p) (Some v)).

(** A field that sets the flag of a required field once it has been read. *)
Definition and_isset {X I} (isset : I) (isset' : I) (m : io (X * option error)) : io (X * I * option error) :=
  '(x, err) ← m;
  mret (match err with Some e => (x, isset, Some e) | None => (x, isset', None) end).

Definition HealthStatus_onField (id : Z) (ty : ttype) (x : HealthStatus * bool) : io (HealthStatus * bool * option error) :=
  let '(p, issetOk) := x in
  if decide (id = 1) then onType BOOL ty x (and_isset issetOk true (HealthStatus_ReadField1 p))
  else if decide (id = 2) then onType STRING ty x (and_isset issetOk issetOk (HealthStatus_ReadField2 p))
  else if decide (id = 3) then onType I32 ty x (and_isset issetOk issetOk (HealthStatus_ReadField3 p))
  else skipField ty x.
Definition HealthStatus_Read (fuel : nat) (p : HealthStatus) : io (HealthStatus * option error) :=
  readRequired fuel T_HealthStatus HealthStatus_onField (p, false) (λ '(p, issetOk), (p, [(issetOk, str "Ok")])).

Definition HealthStatus_writeField1 (p : HealthStatus) : io (option error) :=
  writeField T_HealthStatus (str "ok") BOOL 1 (prepend (fieldMsg T_HealthStatus (str "ok") 1) (WriteBool (hs_Ok p))).
Definition HealthStatus_writeField2 (p : HealthStatus) : io (option error) :=
  match hs_Message p with
  | None => mret None
  | Some v => writeField T_HealthStatus (str "message") STRING 2
                (prepend (fieldMsg T_HealthStatus (str "message") 2) (WriteString v))
  end.
Definition HealthStatus_writeField3 (p : HealthStatus) : io (option error) :=
  match hs_State p with
  | None => mret None
  | Some v => writeField T_HealthStatus (str "state") I32 3
                (prepend (fieldMsg T_HealthStatus (str "state") 3) (WriteI32 (int32 v)))
  end.
Definition HealthStatus_Write (p : option HealthStatus) : io (option error) :=
  writeStruct T_HealthStatus (str "HealthStatus")
    (match p with
     | None => mret None
     | Some p => writeFields [HealthStatus_writeField1 p; HealthStatus_writeField2 p; HealthStatus_writeField3 p]
     end).

(** *** ThriftIDLs *)

Definition T_ThriftIDLs : bytes := str "*meta.ThriftIDLs".

(** The entries of the map; what was read stays when there is an error. *)
Fixpoint ThriftIDLs_readEntries (n : nat) (m : gmap bytes bytes) : io (gmap bytes bytes * option error) :=
  match n with
  | O => mret (m, None)
  | S n =>
      '(k, err) ← prependV (errRead 0) ReadString;
      match err with
      | Some e => mret (m, Some e)
      | None =>
          '(v, err) ← prependV (errRead 0) ReadString;
          match err with
          | Some e => mret (m, Some e)
          | None => ThriftIDLs_readEntries n (<[k := v]> m)
          end
      end
  end.
Definition ThriftIDLs_ReadField1 (p : ThriftIDLs) : io (ThriftIDLs * option error) :=
  '(_, _, size, err) ← ReadMapBegin;
  match err with
  | Some e => mret (p, Some (PrependError (str "error reading map begin: ") e))
  | None =>
      '(m, err) ← ThriftIDLs_readEntries (Z.to_nat size) ∅;
      let p := mkThriftIDLs m (EntryPoint p) in
      match err with
      | Some e => mret (p, Some e)
      | None => err ← prepend (str "error reading map end: ") ReadMapEnd; mret (p, err)
      end
  end.
Definition ThriftIDLs_ReadField2 (p : ThriftIDLs) : io (ThriftIDLs * option error) :=
  readInto (errRead 2) ReadString p (λ v, mkThriftIDLs (Idls p) v).
Definition ThriftIDLs_onField (id : Z) (ty : ttype) (x : ThriftIDLs * (bool * bool)) : io (ThriftIDLs * (bool * bool) * option error) :=
  let '(p, (issetIdls, issetEntryPoint)) := x in
  if decide (id = 1) then onType MAP ty x (and_isset (issetIdls, issetEntryPoint) (true, issetEntryPoint) (ThriftIDLs_ReadField1 p))
  else if decide (id = 2) then onType STRING ty x (and_isset (issetIdls, issetEntryPoint) (issetIdls, true) (ThriftIDLs_ReadField2 p))
  else skipField ty x.
Definition ThriftIDLs_Read (fuel : nat) (p : ThriftIDLs) : io (ThriftIDLs * option error) :=
  readRequired fuel T_ThriftIDLs ThriftIDLs_onField (p, (false, false))
    (λ '(p, (issetIdls, issetEntryPoint)), (p, [(issetIdls, str "Idls"); (issetEntryPoint, str "EntryPoint")])).

Context `{MapRange}.

Definition ThriftIDLs_writeEntry (kv : bytes * bytes) : io (option error) :=
  check Some (prepend (T_ThriftIDLs ++ str ". (0) field write error: ") (WriteString kv.1)) (
  prepend (T_ThriftIDLs ++ str ". (0) field write error: ") (WriteString kv.2)).
Definition ThriftIDLs_writeField1 (p : ThriftIDLs) : io (option error) :=
  writeField T_ThriftIDLs (str "idls") MAP 1 (
    check Some (prepend (str "error writing map begin: ") (WriteMapBegin STRING STRING (Z.of_nat (size (Idls p))))) (
    check Some (writeFields (ThriftIDLs_writeEntry <$> range (Idls p))) (
    prepend (str "error writing map end: ") WriteMapEnd))).
Definition ThriftIDLs_writeField2 (p : ThriftIDLs) : io (option error) :=
  writeField T_ThriftIDLs (str "entryPoint") STRING 2
    (prepend (fieldMsg T_ThriftIDLs (str "entryPoint") 2) (WriteString (EntryPoint p))).
Definition ThriftIDLs_Write (p : option ThriftIDLs) : io (option error) :=
  writeStruct T_ThriftIDLs (str "ThriftIDLs")
    (match p with None => mret None | Some p => writeFields [ThriftIDLs_writeField1 p; ThriftIDLs_writeField2 p] end).

(** *** VersionInfo *)

Definition T_VersionInfo : bytes := str "*meta.VersionInfo".

Definition VersionInfo_ReadField1 (p : VersionInfo) : io (VersionInfo * option error) :=
  readInto (errRead 1) ReadString p (λ v, mkVersionInfo v (vi_LanguageVersion p) (vi_Version p)).
Definition VersionInfo_ReadField2 (p : VersionInfo) : io (VersionInfo * option error) :=
  readInto (errRead 2) ReadString p (λ v, mkVersionInfo (vi_Language p) v (vi_Version p)).
Definition VersionInfo_ReadField3 (p : VersionInfo) : io (VersionInfo * option error) :=
  readInto (errRead 3) ReadString p (λ v, mkVersionInfo (vi_Language p) (vi_LanguageVersion p) v).
Definition VersionInfo_onField (id : Z) (ty : ttype) (x : VersionInfo * (bool * bool * bool))
    : io (VersionInfo * (bool * bool * bool) * option error) :=
  let '(p, (l, lv, v)) := x in
  if decide (id = 1) then onType STRING ty x (and_isset (l, lv, v) (true, lv, v) (VersionInfo_ReadField1 p))
  else if decide (id = 2) then onType STRING ty x (and_isset (l, lv, v) (l, true, v) (VersionInfo_ReadField2 p))
  else if decide (id = 3) then onType STRING ty x (and_isset (l, lv, v) (l, lv, true) (VersionInfo_ReadField3 p))
  else skipField ty x.
Definition VersionInfo_Read (fuel : nat) (p : VersionInfo) : io (VersionInfo * option error) :=
  readRequired fuel T_VersionInfo VersionInfo_onField (p, (false, false, false))
    (λ '(p, (l, lv, v)), (p, [(l, str "Language"); (lv, str "LanguageVersion"); (v, str "Version")])).

Definition VersionInfo_writeString (name : bytes) (id : Z) (v : bytes) : io (option error) :=
  writeField T_VersionInfo name STRING id (prepend (fieldMsg T_VersionInfo name id) (WriteString v)).
Definition VersionInfo_writeField1 (p : VersionInfo) := VersionInfo_writeString (str "language") 1 (vi_Language p).
Definition VersionInfo_writeField2 (p : VersionInfo) := VersionInfo_writeString (str "language_version") 2 (vi_LanguageVersion p).
Definition VersionInfo_writeField3 (p : VersionInfo) := VersionInfo_writeString (str "version") 3 (vi_Version p).
Definition VersionInfo_Write (p : option VersionInfo) : io (option error) :=
  writeStruct T_VersionInfo (str "VersionInfo")
    (match p with
     | None => mret None
     | Some p => writeFields [VersionInfo_writeField1 p; VersionInfo_writeField2 p; VersionInfo_writeField3 p]
     end).

(** *** Arguments and results *)

Definition T_MetaHealthArgs : bytes := str "*meta.MetaHealthArgs".

Definition MetaHealthArgs_ReadField1 (fuel : nat) : io (MetaHealthArgs * option error) :=
  readNested T_HealthRequest (HealthRequest_Read fuel (mkHealthRequest None)) (λ v, mkMetaHealthArgs (Some v)).
Definition MetaHealthArgs_Read (fuel : nat) : MetaHealthArgs → io (MetaHealthArgs * option error) :=
  readStruct fuel T_MetaHealthArgs (λ id ty p,
    if decide (id = 1) then onType STRUCT ty p (MetaHealthArgs_ReadField1 fuel) else skipField ty p).
(** The request is written also when it is nil, as a struct without fields. *)
Definition MetaHealthArgs_writeField1 (p : MetaHealthArgs) : io (option error) :=
  writeField T_MetaHealthArgs (str "hr") STRUCT 1
    (prepend (T_HealthRequest ++ str " error writing struct: ") (HealthRequest_Write (Hr p))).
Definition MetaHealthArgs_Write (p : option MetaHealthArgs) : io (option error) :=
  writeStruct T_MetaHealthArgs (str "health_args")
    (match p with None => mret None | Some p => writeFields [MetaHealthArgs_writeField1 p] end).

(** A result with one optional field, number 0. *)
Definition result_writeField0 {A} (T Tsub : bytes) (write : option A → io (option error)) (success : option A) : io (option error) :=
  match success with
  | None => mret None
  | Some v => writeField T (str "success") STRUCT 0 (prepend (Tsub ++ str " error writing struct: ") (write (Some v)))
  end.

Definition T_MetaHealthResult : bytes := str "*meta.MetaHealthResult".

Definition MetaHealthResult_ReadField0 (fuel : nat) : io (MetaHealthResult * option error) :=
  readNested T_HealthStatus (HealthStatus_Read fuel (mkHealthStatus false None None)) (λ v, mkMetaHealthResult (Some v)).
Definition MetaHealthResult_Read (fuel : nat) : MetaHealthResult → io (MetaHealthResult * option error) :=
  readStruct fuel T_MetaHealthResult (λ id ty p,
    if decide (id = 0) then onType STRUCT ty p (MetaHealthResult_ReadField0 fuel) else skipField ty p).
Definition MetaHealthResult_writeField0 (p : MetaHealthResult) : io (option error) :=
  result_writeField0 T_MetaHealthResult T_HealthStatus HealthStatus_Write (mh_Success p).
Definition MetaHealthResult_Write (p : option MetaHealthResult) : io (option error) :=
  writeStruct T_MetaHealthResult (str "health_result")
    (match p with None => mret None | Some p => writeFields [MetaHealthResult_writeField0 p] end).

Definition T_MetaThriftIDLArgs : bytes := str "*meta.MetaThriftIDLArgs".
Definition T_MetaVersionInfoArgs : bytes := str "*meta.MetaVersionInfoArgs".
Definition T_MetaThriftIDLResult : bytes := str "*meta.MetaThriftIDLResult".
Definition T_MetaVersionInfoResult : bytes := str "*meta.MetaVersionInfoResult".

(** Arguments without fields. *)
Definition MetaThriftIDLArgs_Read (fuel : nat) : io (unit * option error) :=
  readStruct fuel T_MetaThriftIDLArgs (λ _ ty p, skipField ty p) tt.
Definition MetaThriftIDLArgs_Write : io (option error) :=
  writeStruct T_MetaThriftIDLArgs (str "thriftIDL_args") (mret None).
Definition MetaVersionInfoArgs_Read (fuel : nat) : io (unit * option error) :=
  readStruct fuel T_MetaVersionInfoArgs (λ _ ty p, skipField ty p) tt.
Definition MetaVersionInfoArgs_Write : io (option error) :=
  writeStruct T_MetaVersionInfoArgs (str "versionInfo_args") (mret None).

Definition MetaThriftIDLResult_ReadField0 (fuel : nat) : io (MetaThriftIDLResult * option error) :=
  readNested T_ThriftIDLs (ThriftIDLs_Read fuel (mkThriftIDLs ∅ [])) (λ v, mkMetaThriftIDLResult (Some v)).
Definition MetaThriftIDLResult_Read (fuel : nat) : MetaThriftIDLResult → io (MetaThriftIDLResult * option error) :=
  readStruct fuel T_MetaThriftIDLResult (λ id ty p,
    if decide (id = 0) then onType STRUCT ty p (MetaThriftIDLResult_ReadField0 fuel) else skipField ty p).
Definition MetaThriftIDLResult_Write (p : option MetaThriftIDLResult) : io (option error) :=
  writeStruct T_MetaThriftIDLResult (str "thriftIDL_result")
    (match p with
     | None => mret None
     | Some p => writeFields [result_writeField0 T_MetaThriftIDLResult T_ThriftIDLs ThriftIDLs_Write (mt_Success p)]
     end).

Definition MetaVersionInfoResult_ReadField0 (fuel : nat) : io (MetaVersionInfoResult * option error) :=
  readNested T_VersionInfo (VersionInfo_Read fuel (mkVersionInfo [] [] [])) (λ v, mkMetaVersionInfoResult (Some v)).
Definition MetaVersionInfoResult_Read (fuel : nat) : MetaVersionInfoResult → io (MetaVersionInfoResult * option error) :=
  readStruct fuel T_MetaVersionInfoResult (λ id ty p,
    if decide (id = 0) then onType STRUCT ty p (MetaVersionInfoResult_ReadField0 fuel) else skipField ty p).
Definition MetaVersionInfoResult_Write (p : option MetaVersionInfoResult) : io (option error) :=
  writeStruct T_MetaVersionInfoResult (str "versionInfo_result")
    (match p with
     | None => mret None
     | Some p => writeFields [result_writeField0 T_MetaVersionInfoResult T_VersionInfo VersionInfo_Write (mv_Success p)]
     end).
End structs.

(** ** The effect of a field *)

Definition HealthRequest_upd (p : HealthRequest) (f : Z * tval) : HealthRequest :=
  match f with (1, TI32 z) => mkHealthRequest (Some z) | _ => p end.
Definition HealthStatus_upd (x : HealthStatus * bool) (f : Z * tval) : HealthStatus * bool :=
  let '(p, isset) := x in
  match f with
  | (1, TBool b) => (mkHealthStatus b (hs_Message p) (hs_State p), true)
  | (2, TString s) => (mkHealthStatus (hs_Ok p) (Some s) (hs_State p), isset)
  | (3, TI32 z) => (mkHealthStatus (hs_Ok p) (hs_Message p) (Some z), isset)
  | _ => x
  end.
Definition VersionInfo_upd (x : VersionInfo * (bool * bool * bool)) (f : Z * tval) : VersionInfo * (bool * bool * bool) :=
  let '(p, (l, lv, v)) := x in
  match f with
  | (1, TString s) => (mkVersionInfo s (vi_LanguageVersion p) (vi_Version p), (true, lv, v))
  | (2, TString s) => (mkVersionInfo (vi_Language p) s (vi_Version p), (l, true, v))
  | (3, TString s) => (mkVersionInfo (vi_Language p) (vi_LanguageVersion p) s, (l, lv, true))
  | _ => x
  end.

(** A map of strings, as its entries are read one after another. *)
Definition string_pair (kv : bytes * bytes) : tval * tval := (TString kv.1, TString kv.2).
Definition read_map (m : gmap bytes bytes) (kvs : list (tval * tval)) : gmap bytes bytes :=
  foldl (λ m kv, match kv with (TString k, TString v) => <[k := v]> m | _ => m end) m kvs.
Definition ThriftIDLs_upd (x : ThriftIDLs * (bool * bool)) (f : Z * tval) : ThriftIDLs * (bool * bool) :=
  let '(p, (i, e)) := x in
  match f with
  | (1, TMap _ _ kvs) => (mkThriftIDLs (read_map ∅ kvs) (EntryPoint p), (true, e))
  | (2, TString s) => (mkThriftIDLs (Idls p) s, (i, true))
  | _ => x
  end.

(** What a struct is when it has been read from the fields [fs]. *)
Definition HealthRequest_of (fs : list (Z * tval)) : HealthRequest := foldl HealthRequest_upd (mkHealthRequest None) fs.
Definition HealthStatus_of (fs : list (Z * tval)) : HealthStatus * bool :=
  foldl HealthStatus_upd (mkHealthStatus false None None, false) fs.

(** The arguments and results: the struct inside has to be complete. *)
Definition MetaHealthArgs_upd (p : MetaHealthArgs) (f : Z * tval) : MetaHealthArgs :=
  match f with (1, TStruct fs) => mkMetaHealthArgs (Some (HealthRequest_of fs)) | _ => p end.
Definition MetaHealthResult_upd (p : MetaHealthResult) (f : Z * tval) : MetaHealthResult :=
  match f with (0, TStruct fs) => mkMetaHealthResult (Some (HealthStatus_of fs).1) | _ => p end.

(** What is required of a field: maps of strings, and structs inside that are complete
    and have fewer fields than the fuel. *)
Definition map_of_strings (f : Z * tval) : Prop :=
  match f with (1, TMap _ _ kvs) => ∃ l, kvs = string_pair <$> l | _ => True end.
Definition any_field (f : Z * tval) : Prop := True.
Definition nested_args (fuel : nat) (f : Z * tval) : Prop :=
  match f with (1, TStruct fs) => (length fs < fuel)%nat | _ => True end.
Definition nested_status (fuel : nat) (f : Z * tval) : Prop :=
  match f with (0, TStruct fs) => (length fs < fuel)%nat ∧ (HealthStatus_of fs).2 = true | _ => True end.

Lemma fits_fields fs : fits (TStruct fs) ↔ Forall (λ f, fits f.2) fs.
Proof. cbn. induction fs as [|f fs IH]; cbn; [done|]. by rewrite Forall_cons, IH. Qed.

(** ** What is read *)

Section reading.
Context {P : Type} {HP : TProtocol P} {HL : TProtocolLaws P} {HE : ThriftErrors} (Hok : protocol_ok (P := P)).

Lemma and_isset_spec {X I} (i i' : I) (m : GO P (X * option error)) ks x :
  reads m ks (x, None) → reads (and_isset i i' m) ks (x, i', None).
Proof.
  intros Hm ts p Hp. destruct (Hm ts p Hp) as (p1 & E1 & H1). exists p1. unfold and_isset. by run_with E1.
Qed.

(** A value of another type than [ty] is skipped. *)
Lemma other_type {X} ty v (x x' : X) read :
  fits v → type_of v ≠ ty → x' = x → reads (onType ty (type_of v) x read) (tokens v) (x', None).
Proof. intros Hv Hne ->. by apply onType_skip. Qed.

Lemma TOther_type ty z ty' : fits (TOther ty z) → scalar_type ty' = false → ty ≠ ty'.
Proof. cbn. intros Hf Hs ->. congruence. Qed.

Ltac skip_other := apply other_type; [assumption|first [done | eapply TOther_type; [eassumption|reflexivity]]|reflexivity].
(** A field, by the type of its value; [law] reads a scalar. *)
Ltac scalar_field law :=
  match goal with v : tval |- _ => destruct v; try skip_other end;
  cbn [HealthRequest_upd HealthStatus_upd VersionInfo_upd ThriftIDLs_upd];
  apply onType_read; try apply and_isset_spec;
  match goal with
  | |- reads ?r _ _ => let r' := eval red in r in
      match r' with readInto ?msg ?m ?x ?set => apply (readInto_spec msg m x set), law end
  end.

Lemma HealthRequest_field id v p : fits v → any_field (id, v) →
  reads (if decide (id = 1) then onType I32 (type_of v) p (HealthRequest_ReadField1 p) else skipField (type_of v) p)
    (tokens v) (HealthRequest_upd p (id, v), None).
Proof.
  intros Hv _. case_decide as Hid; [subst id; scalar_field (r_i32 Hok)|].
  replace (HealthRequest_upd p (id, v)) with p by (destruct id as [|[]|]; done). by apply skipField_spec.
Qed.

Lemma HealthStatus_field id v x : fits v → any_field (id, v) →
  reads (HealthStatus_onField id (type_of v) x) (tokens v) (HealthStatus_upd x (id, v), None).
Proof.
  intros Hv _. unfold HealthStatus_onField. destruct x as [p isset].
  case_decide; [subst id; scalar_field (r_bool Hok)|]. case_decide; [subst id; scalar_field (r_string Hok)|].
  case_decide; [subst id; scalar_field (r_i32 Hok)|].
  replace (HealthStatus_upd (p, isset) (id, v)) with (p, isset) by (destruct id as [|[[]|[]|]|]; done). by apply skipField_spec.
Qed.

Lemma VersionInfo_field id v x : fits v → any_field (id, v) →
  reads (VersionInfo_onField id (type_of v) x) (tokens v) (VersionInfo_upd x (id, v), None).
Proof.
  intros Hv _. unfold VersionInfo_onField. destruct x as [p [[i1 i2] i3]].
  case_decide; [subst id; scalar_field (r_string Hok)|]. case_decide; [subst id; scalar_field (r_string Hok)|].
  case_decide; [subst id; scalar_field (r_string Hok)|].
  replace (VersionInfo_upd (p, (i1, i2, i3)) (id, v)) with (p, (i1, i2, i3)) by (destruct id as [|[[]|[]|]|]; done).
  by apply skipField_spec.
Qed.

Lemma readEntries_spec l : ∀ m,
  reads (ThriftIDLs_readEntries (length l) m) (concat ((λ kv, tokens kv.1 ++ tokens kv.2) <$> (string_pair <$> l)))
    (read_map m (string_pair <$> l), None).
Proof.
  induction l as [|[k v] l IH]; intros m; [apply reads_done|]. cbn [length ThriftIDLs_readEntries].
  change (concat ((λ kv, tokens kv.1 ++ tokens kv.2) <$> (string_pair <$> (k, v) :: l)))
    with ([kString k] ++ [kString v] ++ concat ((λ kv, tokens kv.1 ++ tokens kv.2) <$> (string_pair <$> l))).
  eapply reads_then; [apply reads_prependV, (r_string Hok)|]. cbv beta iota.
  eapply reads_then; [apply reads_prependV, (r_string Hok)|]. cbv beta iota. apply IH.
Qed.

Lemma ThriftIDLs_map kt vt l p :
  reads (ThriftIDLs_ReadField1 p) (tokens (TMap kt vt (string_pair <$> l)))
    (mkThriftIDLs (read_map ∅ (string_pair <$> l)) (EntryPoint p), None).
Proof.
  unfold ThriftIDLs_ReadField1. destruct (r_map Hok kt vt (len (string_pair <$> l))) as (kt' & vt' & Hr).
  cbn [tokens]. set (body := concat _).
  change (kMapBegin kt vt (len (string_pair <$> l)) :: body ++ [kMapEnd])
    with ([kMapBegin kt vt (len (string_pair <$> l))] ++ body ++ [kMapEnd]).
  eapply reads_then; [exact Hr|]. cbv beta iota.
  rewrite length_fmap, Nat2Z.id. eapply reads_then; [apply readEntries_spec|]. cbv beta iota.
  rewrite <- (app_nil_r [kMapEnd]). eapply reads_then; [apply reads_prepend, (r_map_end Hok)|]. apply reads_done.
Qed.

Lemma ThriftIDLs_field id v x : fits v → map_of_strings (id, v) →
  reads (ThriftIDLs_onField id (type_of v) x) (tokens v) (ThriftIDLs_upd x (id, v), None).
Proof.
  intros Hv Hq. unfold ThriftIDLs_onField. destruct x as [p [i1 i2]]. case_decide.
  { subst id. destruct v; try skip_other. apply onType_read, and_isset_spec. destruct Hq as [l ->]. apply ThriftIDLs_map. }
  case_decide; [subst id; scalar_field (r_string Hok)|].
  replace (ThriftIDLs_upd (p, (i1, i2)) (id, v)) with (p, (i1, i2)) by (destruct id as [|[[]|[]|]|]; done).
  by apply skipField_spec.
Qed.

Lemma all_fields fs : Forall (λ f, fits f.2) fs → Forall (field_fits any_field) fs.
Proof. intros H. eapply Forall_impl; [exact H|]. by split. Qed.

(** *** Structs *)

Lemma HealthRequest_Read_spec fs fuel p : fits (TStruct fs) → (length fs < fuel)%nat →
  reads (HealthRequest_Read fuel p) (tokens (TStruct fs)) (foldl HealthRequest_upd p fs, None).
Proof.
  intros Hf%fits_fields Hn. apply (readStruct_spec Hok _ _ HealthRequest_upd any_field); [|by apply all_fields|done].
  exact HealthRequest_field.
Qed.

Lemma HealthStatus_Read_spec fs fuel p : fits (TStruct fs) → (length fs < fuel)%nat →
  reads (HealthStatus_Read fuel p) (tokens (TStruct fs))
    (let '(q, isset) := foldl HealthStatus_upd (p, false) fs in
     (q, if isset : bool then None else Some (invalidData (str "Required field Ok is not set")))).
Proof.
  intros Hf%fits_fields Hn. unfold HealthStatus_Read.
  pose proof (readRequired_spec Hok T_HealthStatus HealthStatus_onField HealthStatus_upd any_field HealthStatus_field
    fs fuel (p, false) (λ '(p, issetOk), (p, [(issetOk, str "Ok")])) (all_fields _ Hf) Hn) as Hr.
  destruct (foldl HealthStatus_upd (p, false) fs) as [q isset]. by destruct isset.
Qed.

Lemma VersionInfo_Read_spec fs fuel p : fits (TStruct fs) → (length fs < fuel)%nat →
  reads (VersionInfo_Read fuel p) (tokens (TStruct fs))
    (let '(q, (l, lv, v)) := foldl VersionInfo_upd (p, (false, false, false)) fs in
     (q, checkRequired [(l, str "Language"); (lv, str "LanguageVersion"); (v, str "Version")])).
Proof.
  intros Hf%fits_fields Hn. unfold VersionInfo_Read.
  pose proof (readRequired_spec Hok T_VersionInfo VersionInfo_onField VersionInfo_upd any_field VersionInfo_field
    fs fuel (p, (false, false, false)) (λ '(p, (l, lv, v)), (p, [(l, str "Language"); (lv, str "LanguageVersion"); (v, str "Version")]))
    (all_fields _ Hf) Hn) as Hr.
  by destruct (foldl VersionInfo_upd (p, (false, false, false)) fs) as [q [[l lv] v]].
Qed.

Lemma ThriftIDLs_Read_spec fs fuel p : fits (TStruct fs) → Forall map_of_strings fs → (length fs < fuel)%nat →
  reads (ThriftIDLs_Read fuel p) (tokens (TStruct fs))
    (let '(q, (i, e)) := foldl ThriftIDLs_upd (p, (false, false)) fs in
     (q, checkRequired [(i, str "Idls"); (e, str "EntryPoint")])).
Proof.
  intros Hf%fits_fields Hm Hn. unfold ThriftIDLs_Read.
  pose proof (readRequired_spec Hok T_ThriftIDLs ThriftIDLs_onField ThriftIDLs_upd map_of_strings ThriftIDLs_field
    fs fuel (p, (false, false)) (λ '(p, (i, e)), (p, [(i, str "Idls"); (e, str "EntryPoint")]))) as Hr.
  destruct (foldl ThriftIDLs_upd (p, (false, false)) fs) as [q [i e]]. apply Hr; [|done].
  apply Forall_forall. intros f Hin. rewrite Forall_forall in Hf, Hm. by split; [apply Hf|apply Hm].
Qed.

Lemma MetaHealthArgs_Read_spec fs fuel p : fits (TStruct fs) → Forall (nested_args fuel) fs → (length fs < fuel)%nat →
  reads (MetaHealthArgs_Read fuel p) (tokens (TStruct fs)) (foldl MetaHealthArgs_upd p fs, None).
Proof.
  intros Hf%fits_fields Hq Hn. apply (readStruct_spec Hok _ _ MetaHealthArgs_upd (nested_args fuel)); [| |done].
  - intros id v x Hv Hnest. case_decide as Hid.
    + subst id. destruct v; try skip_other. apply onType_read. unfold MetaHealthArgs_ReadField1.
      apply (readNested_spec _ _ (λ v, mkMetaHealthArgs (Some v))).
      apply (HealthRequest_Read_spec _ _ (mkHealthRequest None)); [done|]. exact Hnest.
    + replace (MetaHealthArgs_upd x (id, v)) with x by (destruct id as [|[]|]; done). by apply skipField_spec.
  - apply Forall_forall. intros f Hin. rewrite Forall_forall in Hf, Hq. by split; [apply Hf|apply Hq].
Qed.

Lemma MetaHealthResult_Read_spec fs fuel p : fits (TStruct fs) → Forall (nested_status fuel) fs → (length fs < fuel)%nat →
  reads (MetaHealthResult_Read fuel p) (tokens (TStruct fs)) (foldl MetaHealthResult_upd p fs, None).
Proof.
  intros Hf%fits_fields Hq Hn. apply (readStruct_spec Hok _ _ MetaHealthResult_upd (nested_status fuel)); [| |done].
  - intros id v x Hv Hnest. case_decide as Hid.
    + subst id. destruct v as [| | | |gs| |]; try skip_other. apply onType_read. unfold MetaHealthResult_ReadField0.
      apply (readNested_spec _ _ (λ v, mkMetaHealthResult (Some v))). destruct Hnest as [Hlen Hset].
      pose proof (HealthStatus_Read_spec gs fuel (mkHealthStatus false None None) Hv Hlen) as Hr.
      unfold HealthStatus_of in *. destruct (foldl HealthStatus_upd _ gs) as [q isset]. cbn in Hset. by subst isset.
    + replace (MetaHealthResult_upd x (id, v)) with x by (destruct id as [|[]|]; done). by apply skipField_spec.
  - apply Forall_forall. intros f Hin. rewrite Forall_forall in Hf, Hq. by split; [apply Hf|apply Hq].
Qed.
End reading.

(** ** What is written *)

Definition HealthRequest_fields (p : HealthRequest) : list (Z * tval) :=
  match hr_Type p with None => [] | Some v => [(1, TI32 (int32 v))] end.
Definition HealthStatus_fields (p : HealthStatus) : list (Z * tval) :=
  [(1, TBool (hs_Ok p))]
  ++ match hs_Message p with None => [] | Some v => [(2, TString v)] end
  ++ match hs_State p with None => [] | Some v => [(3, TI32 (int32 v))] end.
Definition VersionInfo_fields (p : VersionInfo) : list (Z * tval) :=
  [(1, TString (vi_Language p)); (2, TString (vi_LanguageVersion p)); (3, TString (vi_Version p))].
Definition ThriftIDLs_fields `{MapRange} (p : ThriftIDLs) : list (Z * tval) :=
  [(1, TMap STRING STRING (string_pair <$> range (Idls p))); (2, TString (EntryPoint p))].

(** The fields of a pointer: none for nil. *)
Definition ptr_fields {A} (fields : A → list (Z * tval)) (p : option A) : list (Z * tval) :=
  match p with None => [] | Some p => fields p end.

Definition MetaHealthArgs_fields (p : MetaHealthArgs) : list (Z * tval) :=
  [(1, TStruct (ptr_fields HealthRequest_fields (Hr p)))].
Definition MetaHealthResult_fields (p : MetaHealthResult) : list (Z * tval) :=
  match mh_Success p with None => [] | Some s => [(0, TStruct (HealthStatus_fields s))] end.

Lemma int32_in_range v : int32_ok (int32 v).
Proof. unfold int32_ok, int32. pose proof (Z.mod_pos_bound (v + 2^31) (2^32) ltac:(lia)). lia. Qed.

Lemma HealthRequest_fits p : fits (TStruct (ptr_fields HealthRequest_fields p)).
Proof.
  destruct p as [[[v|]]|]; [|done..]. apply fits_fields. constructor; [apply int32_in_range|constructor].
Qed.
Lemma HealthStatus_fits p : fits (TStruct (HealthStatus_fields p)).
Proof.
  apply fits_fields. destruct p as [ok [m|] [st|]];
    repeat (constructor; [first [apply int32_in_range | exact I]|]); constructor.
Qed.
Lemma VersionInfo_fits p : fits (TStruct (VersionInfo_fields p)).
Proof. done. Qed.
Lemma length_string_range `{MapRange} m : len (string_pair <$> range m) = Z.of_nat (size m).
Proof. by rewrite length_fmap, (Permutation_length (range_perm m)), length_map_to_list. Qed.
Lemma ThriftIDLs_fits `{MapRange} p : Z.of_nat (size (Idls p)) < 2^31 → fits (TStruct (ThriftIDLs_fields p)).
Proof.
  intros Hs. apply fits_fields. unfold ThriftIDLs_fields. repeat constructor; cbn [fits snd].
  - by rewrite length_string_range.
  - generalize (range (Idls p)). intros l. by induction l as [|[k v] l IH].
Qed.

Section writing.
Context {P : Type} {HP : TProtocol P} {HL : TProtocolLaws P} {HE : ThriftErrors} {HM : MapRange}
  (Hok : protocol_ok (P := P)).

Lemma scalar_writes T name id msg (m : GO P (option error)) v :
  writes m (tokens v) → writes (writeField T name (type_of v) id (prepend msg m)) (field_tokens (id, v)).
Proof. intros Hm. by apply (writeField_spec Hok), writes_prepend. Qed.

(** Two kinds of fields: always written, and written when they are set. *)
Lemma fields_cons (f : GO P (option error)) fs ks kss :
  writes f ks → writes (writeFields fs) kss → writes (writeFields (f :: fs)) (ks ++ kss).
Proof. intros Hf Hfs. by apply writes_check. Qed.

Lemma HealthRequest_Write_spec p :
  writes (HealthRequest_Write p) (tokens (TStruct (ptr_fields HealthRequest_fields p))).
Proof.
  apply (writeStruct_spec Hok). destruct p as [[t]|]; [|apply writes_nil]. cbn [ptr_fields].
  eapply writes_eq; [apply fields_cons; [|apply writes_nil]|apply app_nil_r].
  unfold HealthRequest_writeField1, HealthRequest_fields. cbn [hr_Type]. destruct t as [v|]; [|apply writes_nil].
  eapply writes_eq; [apply (scalar_writes _ _ _ _ _ (TI32 (int32 v))), (w_i32 Hok), int32_in_range|].
  done.
Qed.

Lemma HealthStatus_Write_spec p :
  writes (HealthStatus_Write p) (tokens (TStruct (ptr_fields HealthStatus_fields p))).
Proof.
  apply (writeStruct_spec Hok). destruct p as [[ok m st]|]; [|apply writes_nil]. cbn [ptr_fields].
  unfold HealthStatus_fields. rewrite !fmap_app, !concat_app.
  apply fields_cons; [|apply fields_cons; [|eapply writes_eq; [apply fields_cons; [|apply writes_nil]|apply app_nil_r]]].
  - eapply writes_eq; [apply (scalar_writes _ _ _ _ _ (TBool ok)), (w_bool Hok)|]. cbn. done.
  - unfold HealthStatus_writeField2. cbn [hs_Message]. destruct m as [v|]; [|apply writes_nil].
    eapply writes_eq; [apply (scalar_writes _ _ _ _ _ (TString v)), (w_string Hok)|]. cbn. done.
  - unfold HealthStatus_writeField3. cbn [hs_State]. destruct st as [v|]; [|apply writes_nil].
    eapply writes_eq; [apply (scalar_writes _ _ _ _ _ (TI32 (int32 v))), (w_i32 Hok), int32_in_range|]. cbn. done.
Qed.

Lemma VersionInfo_Write_spec p :
  writes (VersionInfo_Write p) (tokens (TStruct (ptr_fields VersionInfo_fields p))).
Proof.
  apply (writeStruct_spec Hok). destruct p as [p|]; [|apply writes_nil]. cbn [ptr_fields].
  assert (Hs : ∀ name id v, writes (VersionInfo_writeString name id v) (field_tokens (id, TString v)))
    by (intros name id v; apply (scalar_writes _ _ _ _ _ (TString v)), (w_string Hok)).
  do 3 (apply fields_cons; [apply Hs|]). apply writes_nil.
Qed.

Lemma writeEntries_spec l :
  writes (writeFields (ThriftIDLs_writeEntry <$> l)) (concat ((λ kv, tokens kv.1 ++ tokens kv.2) <$> (string_pair <$> l))).
Proof.
  induction l as [|[k v] l IH]; [apply writes_nil|]. cbn [fmap list_fmap]. apply fields_cons; [|exact IH].
  apply writes_check; apply writes_prepend, (w_string Hok).
Qed.

Lemma ThriftIDLs_Write_spec p : Z.of_nat (size (Idls (default (mkThriftIDLs ∅ []) p))) < 2^31 →
  writes (ThriftIDLs_Write p) (tokens (TStruct (ptr_fields ThriftIDLs_fields p))).
Proof.
  intros Hsize. apply (writeStruct_spec Hok). destruct p as [p|]; [|apply writes_nil]. cbn [ptr_fields]. change (default _ (Some p)) with p in Hsize.
  apply fields_cons.
  - apply (writeField_spec Hok _ _ _ _ (TMap STRING STRING (string_pair <$> range (Idls p)))).
    cbn [tokens]. rewrite length_string_range. set (body := concat _).
    apply (writes_check _ _ [kMapBegin STRING STRING (Z.of_nat (size (Idls p)))] (body ++ [kMapEnd])).
    + apply writes_prepend, (w_map Hok). lia.
    + apply writes_check; [apply writeEntries_spec|]. apply writes_prepend, (w_map_end Hok).
  - apply fields_cons; [|apply writes_nil]. apply (scalar_writes _ _ _ _ _ (TString (EntryPoint p))), (w_string Hok).
Qed.

Lemma MetaHealthArgs_Write_spec p :
  writes (MetaHealthArgs_Write p) (tokens (TStruct (ptr_fields MetaHealthArgs_fields p))).
Proof.
  apply (writeStruct_spec Hok). destruct p as [p|]; [|apply writes_nil]. cbn [ptr_fields].
  apply fields_cons; [|apply writes_nil].
  apply (writeField_spec Hok _ _ _ _ (TStruct (ptr_fields HealthRequest_fields (Hr p)))).
  apply writes_prepend, HealthRequest_Write_spec.
Qed.

Lemma MetaHealthResult_Write_spec p :
  writes (MetaHealthResult_Write p) (tokens (TStruct (ptr_fields MetaHealthResult_fields p))).
Proof.
  apply (writeStruct_spec Hok). destruct p as [[s]|]; [|apply writes_nil]. cbn [ptr_fields].
  eapply writes_eq; [apply fields_cons; [|apply writes_nil]|apply app_nil_r].
  unfold MetaHealthResult_writeField0, result_writeField0, MetaHealthResult_fields. cbn [mh_Success].
  destruct s as [s|]; [|apply writes_nil].
  eapply writes_eq; [apply (writeField_spec Hok _ _ _ _ (TStruct (HealthStatus_fields s)))|].
  - apply writes_prepend. apply (HealthStatus_Write_spec (Some s)).
  - cbn [fmap list_fmap concat]. by rewrite app_nil_r.
Qed.
End writing.

(** ** Round trips *)

(** What is read after it was written, in a protocol that holds nothing else. *)
Definition comes_back {P : Type} `{TProtocolLaws P} {A} (w : GO P (option error)) (r : GO P (A * option error)) (a : A) : Prop :=
  ∀ p, holds [] p → ∃ p1 p2, w p = Ret (None, p1) ∧ r p1 = Ret ((a, None), p2) ∧ holds [] p2.

Lemma comes_back_intro {P : Type} `{TProtocolLaws P} {A} (w : GO P (option error)) (r : GO P (A * option error)) ks a :
  writes w ks → reads r ks (a, None) → comes_back w r a.
Proof.
  intros Hw Hr p Hp. destruct (Hw [] p Hp) as (p1 & E1 & H1). rewrite <- (app_nil_r ([] ++ ks)) in H1.
  destruct (Hr [] p1 H1) as (p2 & E2 & H2). by exists p1, p2.
Qed.

Lemma read_map_list m l : NoDup l.*1 → read_map m (string_pair <$> l) = list_to_map l ∪ m.
Proof.
  revert m. induction l as [|[k v] l IH]; intros m Hnd; [symmetry; apply (left_id_L ∅ (∪))|].
  apply NoDup_cons in Hnd as [Hk Hnd]. cbn. change (foldl _ (<[k:=v]> m) _) with (read_map (<[k:=v]> m) (string_pair <$> l)).
  rewrite IH by done. rewrite <- insert_union_r by (by apply not_elem_of_list_to_map_1). by rewrite insert_union_l.
Qed.

Lemma read_map_range `{MapRange} m : read_map ∅ (string_pair <$> range m) = m.
Proof.
  pose proof (range_perm m) as Hp.
  assert (Hnd : NoDup (range m).*1) by (rewrite Hp; apply NoDup_fst_map_to_list).
  rewrite read_map_list, (right_id_L ∅ (∪)) by done. rewrite <- (list_to_map_to_list m) at 2. by apply list_to_map_proper.
Qed.

(** An enum as it comes back: an int64 is sent as an int32. *)
Definition enum_back (v : option Z) : option Z := int32 <$> v.

(** The structs of the Meta service come back as they were written, over any protocol
    that reads what it has written: a HealthRequest and a HealthStatus with their optional
    fields set or unset, whose enums, 64-bit integers in Go, come back as 32-bit ones; the
    map and the entry point of ThriftIDLs; the three strings of a VersionInfo; and a nil
    request as an empty one. *)
Theorem meta_structs_roundtrip {P : Type} {HP : TProtocol P} {HL : TProtocolLaws P} {HE : ThriftErrors} {HM : MapRange}
    (fuel : nat) (hr : HealthRequest) (hs : HealthStatus) (idls : ThriftIDLs) (vi : VersionInfo)
    (args : MetaHealthArgs) :
  protocol_ok (P := P) → (3 < fuel)%nat → Z.of_nat (size (Idls idls)) < 2^31 →
  comes_back (P := P) (HealthRequest_Write (Some hr)) (HealthRequest_Read fuel (mkHealthRequest None))
    (mkHealthRequest (enum_back (hr_Type hr)))
  ∧ comes_back (P := P) (HealthStatus_Write (Some hs)) (HealthStatus_Read fuel (mkHealthStatus false None None))
      (mkHealthStatus (hs_Ok hs) (hs_Message hs) (enum_back (hs_State hs)))
  ∧ comes_back (P := P) (ThriftIDLs_Write (Some idls)) (ThriftIDLs_Read fuel (mkThriftIDLs ∅ [])) idls
  ∧ comes_back (P := P) (VersionInfo_Write (Some vi)) (VersionInfo_Read fuel (mkVersionInfo [] [] [])) vi
  ∧ comes_back (P := P) (MetaHealthArgs_Write (Some args)) (MetaHealthArgs_Read fuel (mkMetaHealthArgs None))
      (mkMetaHealthArgs (Some (mkHealthRequest (enum_back (Hr args ≫= hr_Type))))).
Proof.
  intros Hok Hfuel Hsize. split_and!.
  - eapply comes_back_intro; [by apply HealthRequest_Write_spec|].
    pose proof (HealthRequest_Read_spec Hok _ fuel (mkHealthRequest None) (HealthRequest_fits (Some hr))) as Hr.
    destruct hr as [[v|]]; apply Hr; cbn; lia.
  - eapply comes_back_intro; [by apply HealthStatus_Write_spec|].
    pose proof (HealthStatus_Read_spec Hok _ fuel (mkHealthStatus false None None) (HealthStatus_fits hs)) as Hr.
    destruct hs as [ok [m|] [st|]]; apply Hr; cbn; lia.
  - eapply comes_back_intro; [by apply ThriftIDLs_Write_spec|].
    pose proof (ThriftIDLs_Read_spec Hok _ fuel (mkThriftIDLs ∅ []) (ThriftIDLs_fits idls Hsize)) as Hr.
    assert (E : foldl ThriftIDLs_upd (mkThriftIDLs ∅ [], (false, false)) (ThriftIDLs_fields idls) = (idls, (true, true))).
    { cbn. rewrite read_map_range. by destruct idls. }
    rewrite E in Hr. apply Hr; [|cbn; lia]. repeat constructor. by exists (range (Idls idls)).
  - eapply comes_back_intro; [by apply VersionInfo_Write_spec|].
    pose proof (VersionInfo_Read_spec Hok _ fuel (mkVersionInfo [] [] []) (VersionInfo_fits vi)) as Hr.
    destruct vi; apply Hr; cbn; lia.
  - eapply comes_back_intro; [by apply MetaHealthArgs_Write_spec|].
    pose proof (MetaHealthArgs_Read_spec Hok (MetaHealthArgs_fields args) fuel (mkMetaHealthArgs None)) as Hr.
    assert (Hf : fits (TStruct (MetaHealthArgs_fields args))).
    { apply fits_fields. repeat constructor. apply HealthRequest_fits. }
    destruct args as [[[[v|]]|]]; apply Hr; first [exact Hf | repeat constructor; cbn; lia | cbn; lia].
Qed.

(** ** The service *)

(** HealthRequestFunc: from the type of the request to whether the service is healthy,
    and a message. *)
Record metaHandler := mkMetaHandler { healthFn : Z → bool * bytes }.

Definition defaultHealth (r : Z) : bool * bytes := (true, []).
Definition newMetaHandler : metaHandler := mkMetaHandler defaultHealth.
Definition setHandler (f : Z → bool * bytes) (h : metaHandler) : metaHandler := mkMetaHandler f.

Definition metaReqToReq (r : option HealthRequest) : Z :=
  match r with None => 0 | Some r => HealthRequest_GetType r end.

Definition meta_Health (h : metaHandler) (req : option HealthRequest) : HealthStatus :=
  let '(ok, message) := healthFn h (metaReqToReq req) in
  if decide (message = []) then mkHealthStatus ok None None else mkHealthStatus ok (Some message) None.
Definition unimplemented : error := otherError (str "unimplemented").
Definition meta_ThriftIDL : ThriftIDLs + error := inr unimplemented.
(** [goVersion] is runtime.Version(). *)
Definition tchannelVersion : bytes := str "1.22.0-dev".
Definition meta_VersionInfo (goVersion : bytes) : VersionInfo :=
  mkVersionInfo (str "go") (TrimPrefix goVersion (str "go")) tchannelVersion.

(** The structs a handler returns. *)
Inductive metaResult :=
| healthResult (r : MetaHealthResult)
| thriftIDLResult (r : MetaThriftIDLResult)
| versionInfoResult (r : MetaVersionInfoResult).

Definition meta_Service : bytes := str "Meta".
Definition meta_Methods : list bytes := [str "health"; str "thriftIDL"; str "versionInfo"].

Section service.
Context `{TProtocol P, ThriftErrors, MapRange} (fuel : nat) (goVersion : bytes).

Notation handled := (GO P (bool * option metaResult * option error)).

Definition handleHealth (h : metaHandler) : handled :=
  '(req, err) ← MetaHealthArgs_Read fuel (mkMetaHealthArgs None);
  match err with
  | Some e => mret (false, None, Some e)
  | None => mret (true, Some (healthResult (mkMetaHealthResult (Some (meta_Health h (Hr req))))), None)
  end.
Definition handleThriftIDL : handled :=
  '(_, err) ← MetaThriftIDLArgs_Read fuel;
  match err with
  | Some e => mret (false, None, Some e)
  | None =>
      match meta_ThriftIDL with
      | inr e => mret (false, None, Some e)
      | inl r => mret (true, Some (thriftIDLResult (mkMetaThriftIDLResult (Some r))), None)
      end
  end.
Definition handleVersionInfo : handled :=
  '(_, err) ← MetaVersionInfoArgs_Read fuel;
  match err with
  | Some e => mret (false, None, Some e)
  | None => mret (true, Some (versionInfoResult (mkMetaVersionInfoResult (Some (meta_VersionInfo goVersion)))), None)
  end.

Definition methodNotFound (methodName : bytes) : error :=
  otherError (str "method " ++ methodName ++ str " not found in service " ++ meta_Service).

Definition meta_Handle (h : metaHandler) (methodName : bytes) : handled :=
  if decide (methodName = str "health") then handleHealth h
  else if decide (methodName = str "thriftIDL") then handleThriftIDL
  else if decide (methodName = str "versionInfo") then handleVersionInfo
  else mret (false, None, Some (methodNotFound methodName)).

Definition metaResult_Write (r : metaResult) : GO P (option error) :=
  match r with
  | healthResult r => MetaHealthResult_Write (Some r)
  | thriftIDLResult r => MetaThriftIDLResult_Write (Some r)
  | versionInfoResult r => MetaVersionInfoResult_Write (Some r)
  end.

(** tchanMetaClient.Health after the call: a call without an error that is not a success
    returns no error either. *)
Definition client_Health (resp : MetaHealthResult) (success : bool) (err : option error)
    : option HealthStatus * option error := (mh_Success resp, err).

(** A health check: the client writes its arguments, the server handles the method and
    writes its result, the client reads it.  An error of the server, which no handler of a
    health check returns, reaches the client as an error frame with its code and message
    ([error_reaches_reader]). *)
Definition health_check (h : metaHandler) (req : option HealthRequest) : GO P (option HealthStatus * option error) :=
  check (λ e, (None, Some e)) (MetaHealthArgs_Write (Some (mkMetaHealthArgs req))) (
  '(success, res, err) ← meta_Handle h (str "health");
  match err, res with
  | None, Some res =>
      check (λ e, (None, Some e)) (metaResult_Write res) (
      '(resp, err) ← MetaHealthResult_Read fuel (mkMetaHealthResult None);
      mret (client_Health resp success err))
  | _, _ => mret (client_Health (mkMetaHealthResult None) false (caller_sees <$> err))
  end).
End service.

(** ** Servers *)

(** A server of thrift.NewServer: the service name its methods are registered under, its
    handlers, and its handler of the Meta service. *)
Record MetaServer := mkMetaServer { ms_registrar : bytes; ms_server : Server; ms_meta : metaHandler }.

(** The Meta service is TChanServer number 0. *)
Definition newServerOn (registrar : bytes) : MetaServer :=
  mkMetaServer registrar (srv_Register 0 (mkTChanServer meta_Service meta_Methods) (mkServer ∅ [])) newMetaHandler.

(** NewServer: on a channel, a second server is made for the name "tchannel", which the
    caller does not get. *)
Definition NewServer (registrar : bytes) (isChannel : bool) : MetaServer * option MetaServer :=
  (newServerOn registrar, if isChannel then Some (newServerOn (str "tchannel")) else None).

Definition RegisterHealthRequestHandler (f : Z → bool * bytes) (s : MetaServer) : MetaServer :=
  mkMetaServer (ms_registrar s) (ms_server s) (setHandler f (ms_meta s)).
Definition RegisterHealthHandler (f : bool * bytes) (s : MetaServer) : MetaServer :=
  RegisterHealthRequestHandler (λ _, f) s.

(** onError: the level of the message. *)
Inductive logLevel := logDebug | logError.
Definition onError_level (err : error) : logLevel :=
  if decide (GetSystemErrorCode (Some err) = ErrCodeTimeout) then logDebug else logError.

(** ** Health checks *)

(** A health check, from the client's request to its answer: the function that was
    registered gets the type of the request, as an int32, or 0 when the request has none or
    is nil; the client gets whether the service is healthy and the message, if it is not
    empty, and no error. *)
Theorem health_check_answers {P : Type} {HP : TProtocol P} {HL : TProtocolLaws P} {HE : ThriftErrors} {HM : MapRange}
    (fuel : nat) (goVersion : bytes) (h : metaHandler) (req : option HealthRequest) (p : P) :
  protocol_ok (P := P) → (3 < fuel)%nat → holds [] p →
  let '(ok, message) := healthFn h (default 0 (enum_back (req ≫= hr_Type))) in
  ∃ p', health_check fuel goVersion h req p
    = Ret ((Some (mkHealthStatus ok (if decide (message = []) then None else Some message) None), None), p')
  ∧ holds [] p'.
Proof.
  intros Hok Hfuel Hp.
  destruct (healthFn h (default 0 (enum_back (req ≫= hr_Type)))) as [ok message] eqn:Eh.
  set (args := mkMetaHealthArgs (Some (mkHealthRequest (enum_back (req ≫= hr_Type))))).
  set (status := mkHealthStatus ok (if decide (message = []) then None else Some message) None).
  assert (Hargs : reads (MetaHealthArgs_Read fuel (mkMetaHealthArgs None))
    (tokens (TStruct (MetaHealthArgs_fields (mkMetaHealthArgs req)))) (args, None)).
  { pose proof (MetaHealthArgs_Read_spec Hok (MetaHealthArgs_fields (mkMetaHealthArgs req)) fuel (mkMetaHealthArgs None)) as Hr.
    assert (Hf : fits (TStruct (MetaHealthArgs_fields (mkMetaHealthArgs req)))).
    { apply fits_fields. repeat constructor. apply HealthRequest_fits. }
    unfold args. destruct req as [[[v|]]|]; apply Hr; first [exact Hf | repeat constructor; cbn; lia | cbn; lia]. }
  assert (Hhealth : meta_Health h (Hr args) = status).
  { unfold meta_Health, args, status, metaReqToReq, HealthRequest_GetType. cbn [Hr hr_Type]. rewrite Eh. by case_decide. }
  assert (Hres : reads (MetaHealthResult_Read fuel (mkMetaHealthResult None))
    (tokens (TStruct (MetaHealthResult_fields (mkMetaHealthResult (Some status))))) (mkMetaHealthResult (Some status), None)).
  { pose proof (MetaHealthResult_Read_spec Hok (MetaHealthResult_fields (mkMetaHealthResult (Some status))) fuel
      (mkMetaHealthResult None)) as Hr.
    assert (Hf : fits (TStruct (MetaHealthResult_fields (mkMetaHealthResult (Some status))))).
    { apply fits_fields. repeat constructor. apply HealthStatus_fits. }
    unfold status in *. destruct (decide (message = [])); apply Hr; first [exact Hf | repeat constructor; cbn; lia | cbn; lia]. }
  unfold health_check, meta_Handle, handleHealth. rewrite decide_True by done.
  destruct (MetaHealthArgs_Write_spec Hok (Some (mkMetaHealthArgs req)) [] p Hp) as (p1 & E1 & H1).
  rewrite (check_run _ _ _ _ _ E1). cbn [app ptr_fields] in H1. rewrite <- (app_nil_r (tokens _)) in H1.
  destruct (Hargs [] p1 H1) as (p2 & E2 & H2). unfold mbind, gost_bind. rewrite E2. cbn [metaResult_Write].
  rewrite Hhealth.
  destruct (MetaHealthResult_Write_spec Hok (Some (mkMetaHealthResult (Some status))) [] p2 H2) as (p3 & E3 & H3).
  cbn [mret gost_ret]. rewrite (check_run _ _ _ _ _ E3). cbn [app ptr_fields] in H3. rewrite <- (app_nil_r (tokens _)) in H3.
  destruct (Hres [] p3 H3) as (p4 & E4 & H4). rewrite E4. exists p4. by split.
Qed.

(** ** Structs of other versions *)

(** The fields a HealthStatus knows, with their types. *)
Definition known_status (f : Z * tval) : bool :=
  match f with (1, TBool _) | (2, TString _) | (3, TI32 _) => true | _ => false end.

Lemma status_unknown x f : known_status f = false → HealthStatus_upd x f = x.
Proof.
  destruct x as [p isset], f as [id v]. unfold HealthStatus_upd, known_status.
  destruct id as [|[[]|[]|]|]; try done; by destruct v.
Qed.

(** The last value of a field. *)
Definition last_field {A} (get : Z * tval → option A) (fs : list (Z * tval)) : option A := last (omap get fs).
Definition get_ok (f : Z * tval) : option bool := match f with (1, TBool b) => Some b | _ => None end.
Definition get_message (f : Z * tval) : option bytes := match f with (2, TString s) => Some s | _ => None end.
Definition get_state (f : Z * tval) : option Z := match f with (3, TI32 z) => Some z | _ => None end.

Lemma last_snoc_omap {A} (get : Z * tval → option A) fs f :
  last_field get (fs ++ [f]) = match get f with Some a => Some a | None => last_field get fs end.
Proof.
  unfold last_field. rewrite omap_app. cbn. destruct (get f); cbn; [by rewrite last_snoc|by rewrite app_nil_r].
Qed.

Lemma HealthStatus_fold fs :
  foldl HealthStatus_upd (mkHealthStatus false None None, false) fs
  = (mkHealthStatus (default false (last_field get_ok fs)) (last_field get_message fs) (last_field get_state fs),
     bool_decide (is_Some (last_field get_ok fs))).
Proof.
  induction fs as [|f fs IH] using rev_ind; [done|]. rewrite foldl_app, !last_snoc_omap, IH. cbn [foldl].
  destruct (known_status f) eqn:Hk.
  - destruct f as [id v]. unfold known_status in Hk. destruct id as [|[[]|[]|]|]; try done; by destruct v.
  - rewrite status_unknown by done. destruct f as [id v]. unfold known_status, get_ok, get_message, get_state in *.
    destruct id as [|[[]|[]|]|]; try done; by destruct v.
Qed.

(** C17: A HealthStatus is read from any well-formed struct, with its fields in any order,
    given more than once, with other types, or along with fields this version does not
    know: each of its fields gets the last value that is given for it with its type,
    everything else is skipped without effect, what follows the struct is left alone, and
    the only error is that of a struct without the required field. *)
Theorem HealthStatus_compatible {P : Type} {HP : TProtocol P} {HL : TProtocolLaws P} {HE : ThriftErrors}
    (fuel : nat) (fs : list (Z * tval)) (rest : list token) (p : P) :
  protocol_ok (P := P) → fits (TStruct fs) → (length fs < fuel)%nat → holds (tokens (TStruct fs) ++ rest) p →
  ∃ p', HealthStatus_Read fuel (mkHealthStatus false None None) p
    = Ret ((mkHealthStatus (default false (last_field get_ok fs)) (last_field get_message fs) (last_field get_state fs),
            match last_field get_ok fs with
            | Some _ => None
            | None => Some (invalidData (str "Required field Ok is not set"))
            end), p')
  ∧ holds rest p'.
Proof.
  intros Hok Hf Hn Hp. pose proof (HealthStatus_Read_spec Hok fs fuel (mkHealthStatus false None None) Hf Hn rest p Hp) as Hr.
  rewrite HealthStatus_fold in Hr. cbv zeta iota beta in Hr. by destruct (last_field get_ok fs).
Qed.

(** ** Enums, equality, servers *)

Lemma HealthState_text p : p ∈ [0; 1; 2; 3] → HealthState_UnmarshalText (HealthState_MarshalText p) = Some p.
Proof. intros H. repeat (apply elem_of_cons in H as [->|H]; [by vm_compute|]). by apply elem_of_nil in H. Qed.
Lemma HealthState_text_other p : p ∉ [0; 1; 2; 3] → HealthState_UnmarshalText (HealthState_MarshalText p) = None.
Proof.
  intros H. rewrite !not_elem_of_cons in H. destruct H as (H0 & H1 & H2 & H3 & _).
  unfold HealthState_MarshalText, HealthState_String. by rewrite !decide_False.
Qed.
Lemma HealthRequestType_text p : p ∈ [0; 1] → HealthRequestType_UnmarshalText (HealthRequestType_MarshalText p) = Some p.
Proof. intros H. repeat (apply elem_of_cons in H as [->|H]; [by vm_compute|]). by apply elem_of_nil in H. Qed.

(** The comparison of ThriftIDLs takes a key that is missing for an empty entry. *)
Lemma ThriftIDLs_Equals_missing_key :
  let a := mkThriftIDLs {[str "a" := []]} [] in
  let b := mkThriftIDLs {[str "b" := []]} [] in
  ThriftIDLs_Equals (Some a) (Some b) = true ∧ a ≠ b.
Proof.
  split; [vm_compute; reflexivity|]. intros E. apply (f_equal (λ x, Idls x !! str "a")) in E.
  by vm_compute in E.
Qed.

(** The health function a server was given is not the one that answers for "tchannel". *)
Lemma health_of_tchannel own f :
  let '(s, hidden) := NewServer own true in
  healthFn (ms_meta (RegisterHealthRequestHandler f s)) = f
  ∧ (ms_meta <$> hidden) = Some newMetaHandler ∧ (ms_registrar <$> hidden) = Some (str "tchannel").
Proof. done. Qed.

(** ** Witnesses *)

#[local] Instance example_errors : ThriftErrors :=
  {| PrependError msg e := otherError (msg ++ Error e); invalidData msg := otherError msg |}.
#[local] Instance example_range : MapRange := {| range := map_to_list; range_perm m := reflexivity _ |}.

Definition example_status : HealthStatus := mkHealthStatus false (Some (str "draining")) (Some HealthState_STOPPING).
Definition example_health (type : Z) : bool * bytes :=
  if decide (type = HealthRequestType_TRAFFIC) then (false, str "warming up") else (true, []).

Lemma meta_structs_roundtrip_witness :
  ∃ p1 p2 : list token, HealthStatus_Write (Some example_status) [] = Ret (None, p1)
  ∧ HealthStatus_Read 4 (mkHealthStatus false None None) p1 = Ret ((example_status, None), p2) ∧ p2 = [].
Proof.
  destruct (meta_structs_roundtrip (P := list token) 4 (mkHealthRequest None) example_status
    (mkThriftIDLs ∅ []) (mkVersionInfo [] [] []) (mkMetaHealthArgs None) token_list_ok ltac:(lia) ltac:(vm_compute; reflexivity))
    as (_ & H & _). destruct (H [] eq_refl) as (p1 & p2 & E1 & E2 & H2).
  exists p1, p2. split; [exact E1|]. split; [exact E2|exact H2].
Defined.

Lemma health_check_answers_witness :
  ∃ p' : list token, health_check 4 (str "go1.16") (mkMetaHandler example_health)
      (Some (mkHealthRequest (Some HealthRequestType_TRAFFIC))) []
    = Ret ((Some (mkHealthStatus false (Some (str "warming up")) None), None), p').
Proof.
  destruct (health_check_answers (P := list token) 4 (str "go1.16") (mkMetaHandler example_health)
    (Some (mkHealthRequest (Some HealthRequestType_TRAFFIC))) [] token_list_ok ltac:(lia) eq_refl) as (p' & E & _).
  exists p'. exact E.
Defined.

(** An unknown struct, a repeated field and one of another type. *)
Lemma HealthStatus_compatible_witness :
  ∃ p' : list token, HealthStatus_Read 9 (mkHealthStatus false None None)
      (tokens (TStruct [(7, TStruct [(1, TI32 5)]); (1, TBool false); (2, TI32 1); (1, TBool true)]) ++ [kBool true])
    = Ret ((mkHealthStatus true None None, None), p') ∧ p' = [kBool true].
Proof.
  destruct (HealthStatus_compatible (P := list token) 9
    [(7, TStruct [(1, TI32 5)]); (1, TBool false); (2, TI32 1); (1, TBool true)] [kBool true]
    (tokens (TStruct [(7, TStruct [(1, TI32 5)]); (1, TBool false); (2, TI32 1); (1, TBool true)]) ++ [kBool true])
    token_list_ok) as (p' & E & H).
  - repeat split; vm_compute; discriminate.
  - cbn. lia.
  - reflexivity.
  - exists p'. split; [exact E|exact H].
Defined.
