(* ===== verification/ThriftGen.v ===== *)
(** * The code generator for Thrift services (thrift/thrift-gen)

    thrift-gen reads the parsed Thrift files and writes, for each service, a client and
    a server over this library.  Modelled are the names it gives to Thrift identifiers
    (names.go), the Go types of Thrift types through typedefs and includes
    (typestate.go, include.go), the services with their methods and the service they
    extend (wrap.go, extends.go, validate.go), and the dispatch of the generated server
    (tchannel-template.go).  The parser, the templates as text and the files are not
    modelled.

    A pointer to a type is compared by identity in one place, goTypePrefix; there
    [rootType] says whether it returned its argument. *)

From stdpp Require Import sorting.
From S2P Require Import Prelude Text.

(** ** Names *)

Definition goKeywords : list bytes := str <$>
  ["error"; "break"; "default"; "func"; "interface"; "select"; "case"; "defer"; "go"; "map"; "struct"; "chan";
   "else"; "goto"; "package"; "switch"; "const"; "fallthrough"; "if"; "range"; "type"; "continue"; "for";
   "import"; "return"; "var"]%string.

Definition commonInitialisms : list bytes := str <$>
  ["API"; "ASCII"; "CPU"; "CSS"; "DNS"; "EOF"; "GUID"; "HTML"; "HTTP"; "HTTPS"; "ID"; "IP"; "JSON"; "LHS"; "QPS";
   "RAM"; "RHS"; "RPC"; "SLA"; "SMTP"; "SQL"; "SSH"; "TCP"; "TLS"; "TTL"; "UDP"; "UI"; "UID"; "UUID"; "URI"; "URL";
   "UTF8"; "VM"; "XML"; "XSRF"; "XSS"]%string.

Definition underscore : byte := x5f.

Definition fixInitialism (name : bytes) : bytes :=
  if decide (ToUpper name ∈ commonInitialisms) then ToUpper name else name.

(** One part of a name that is not left alone; [i] is its index. *)
Definition camelPart (i : nat) (name : bytes) : bytes :=
  match name with
  | [] => []
  | b :: rest =>
      fixInitialism (if decide (0 < i ∧ upperByte b = b)%nat then underscore :: b :: rest else upperByte b :: rest)
  end.

(** The loop over the parts from [startAt] on. *)
Fixpoint camelParts (startAt i : nat) (parts : list bytes) : list bytes :=
  match parts with
  | [] => []
  | p :: parts => (if decide (startAt <= i)%nat then camelPart i p else p) :: camelParts startAt (S i) parts
  end.

Definition camelCase (name : bytes) (publicName : bool) : bytes :=
  Join (camelParts (if publicName then 0 else 1) 0 (SplitByte underscore name)) [].

Definition goName (name : bytes) : bytes :=
  camelCase (if decide (name ∈ goKeywords) then name ++ str "_a1" else name) false.

Definition avoidThriftClash (name : bytes) : bytes :=
  if HasSuffix name (str "Result") || HasSuffix name (str "Args") || HasPrefix name (str "New")
  then name ++ [underscore] else name.

Definition goPublicName (name : bytes) : bytes := camelCase name true.
Definition goPublicFieldName (name : bytes) : bytes := avoidThriftClash (goPublicName name).

(** ** Types *)

Definition thriftToGo (name : bytes) : option bytes :=
  str <$> (list_to_map [(str "bool", "bool"); (str "byte", "int8"); (str "i16", "int16"); (str "i32", "int32");
    (str "i64", "int64"); (str "double", "float64"); (str "string", "string")]%string : gmap bytes string) !! name.

(** parser.Type: KeyType and ValueType are nil when they do not apply. *)
Inductive Type_ := mkType (Name : bytes) (KeyType ValueType : option Type_).
Definition Name (t : Type_) : bytes := let 'mkType n _ _ := t in n.
Definition KeyType (t : Type_) : option Type_ := let 'mkType _ k _ := t in k.
Definition ValueType (t : Type_) : option Type_ := let 'mkType _ _ v := t in v.
Definition with_name (n : bytes) (t : Type_) : Type_ := mkType n (KeyType t) (ValueType t).

Record Include := mkInclude { inc_key : bytes; inc_file : bytes; pkg : bytes }.

(** State; the states of all files are found by file name in [all]. *)
Record State := mkState { typedefs : gmap bytes Type_; includes : gmap bytes Include }.

(** What is used of a parsed file: its typedefs, its enums, and the files it includes,
    by the name they are referred to. *)
Record Thrift := mkThrift {
  Typedefs : gmap bytes Type_;
  Enums : gset bytes;
  Includes : gmap bytes bytes;
  namespace : bytes
}.

(** newState: an enum is a typedef to i64, also when there is a typedef of that name. *)
Definition i64Type : Type_ := mkType (str "i64") None None.
Definition newState (v : Thrift) : State :=
  mkState (set_fold (λ k m, <[k := i64Type]> m) (Typedefs v) (Enums v)) ∅.

(** createIncludes and setIncludes; an include of a file that was not parsed gets the
    namespace of a zero parseState. *)
Definition createIncludes (all : gmap bytes Thrift) (parsed : Thrift) : gmap bytes Include :=
  map_imap (λ k v, Some (mkInclude k v (default [] (namespace <$> all !! v)))) (Includes parsed).
Definition setIncludes (all : gmap bytes Thrift) : gmap bytes State :=
  (λ v, mkState (typedefs (newState v)) (createIncludes all v)) <$> all.

Definition isBasicType (thriftType : bytes) : bool := bool_decide (is_Some (thriftToGo thriftType)).

Section types.
Context (all : gmap bytes State).

(** checkInclude: a prefix that is not included, and a file that is not there, are nil
    pointers. *)
Definition checkInclude (s : State) (t : Type_) : go (option (State * Type_ * Include)) :=
  match SplitN2 dot (Name t) with
  | None => Ret None
  | Some (prefix, rest) =>
      match includes s !! prefix with
      | None => Panic
      | Some include =>
          match all !! inc_file include with
          | None => Panic
          | Some state => Ret (Some (state, with_name rest t, include))
          end
      end
  end.

(** rootType, and whether the result is the argument itself. *)
Fixpoint rootType (fuel : nat) (s : State) (t : Type_) : go (Type_ * bool) :=
  match fuel with
  | O => OutOfFuel
  | S fuel =>
      inc ← checkInclude s t;
      match inc with
      | Some (state, newType, _) => '(r, _) ← rootType fuel state newType; Ret (r, false)
      | None =>
          match typedefs s !! Name t with
          | Some v => '(r, _) ← rootType fuel s v; Ret (r, false)
          | None => Ret (t, true)
          end
      end
  end.

Definition isResultPointer (fuel : nat) (s : State) (t : Type_) : go bool :=
  '(r, _) ← rootType fuel s t; Ret (negb (isBasicType (Name r))).

Definition container (name : bytes) : bool :=
  bool_decide (name ∈ [str "list"; str "set"; str "map"]).

(** The part of goTypePrefix for a type with a name of its own. *)
Definition goNamedType (fuel : nat) (s : State) (prefix : bytes) (t : Type_) : go bytes :=
  let goThriftName := prefix ++ goPublicFieldName (Name t) in
  '(r, same) ← rootType fuel s t;
  Ret (if isBasicType (Name r) || container (Name r) || negb same then goThriftName
       else str "*" ++ goThriftName).

(** goTypePrefix; a nil KeyType or ValueType is dereferenced. *)
Fixpoint goTypePrefix (fuel : nat) (s : State) (prefix : bytes) (t : Type_) : go bytes :=
  match fuel with
  | O => OutOfFuel
  | S fuel =>
      let goType_at o := match o with Some t => goTypePrefix fuel s [] t | None => Panic end in
      if decide (Name t = str "binary") then Ret (str "[]byte")
      else if decide (Name t = str "list" ∨ Name t = str "set") then
        v ← goType_at (ValueType t); Ret (str "[]" ++ v)
      else if decide (Name t = str "map") then
        k ← goType_at (KeyType t); v ← goType_at (ValueType t); Ret (str "map[" ++ k ++ str "]" ++ v)
      else
        inc ← checkInclude s t;
        match inc with
        | Some (state, newType, include) => goTypePrefix fuel state (pkg include ++ [dot]) newType
        | None =>
            match thriftToGo (Name t) with
            | Some goType => Ret goType
            | None => goNamedType fuel s prefix t
            end
        end
  end.
Definition goType (fuel : nat) (s : State) (t : Type_) : go bytes := goTypePrefix fuel s [] t.

(** ** Methods *)

Record Field := mkField { f_Name : bytes; f_Optional : bool; f_Type : Type_ }.
Record Method := mkMethod {
  m_Name : bytes;
  Oneway : bool;
  ReturnType : option Type_;
  m_Arguments : list Field;
  m_Exceptions : list Field
}.

(** parser.Service: the methods are a map by name. *)
Record Service := mkService {
  s_Name : bytes;
  Extends : bytes;
  s_Methods : gmap bytes Method
}.

(** validateMethod: the error, or the method whose arguments are not optional any
    more. *)
Definition validateMethod (m : Method) : option Method :=
  if Oneway m then None
  else Some (mkMethod (m_Name m) (Oneway m) (ReturnType m)
               ((λ a, mkField (f_Name a) false (f_Type a)) <$> m_Arguments m) (m_Exceptions m)).

(** Validate; the methods in the order of iteration. *)
Definition Validate (svc : Service) : option Service :=
  if forallb (λ km, negb (Oneway km.2)) (map_to_list (s_Methods svc))
  then Some (mkService (s_Name svc) (Extends svc) (omap validateMethod (s_Methods svc)))
  else None.

(** wrapServices. *)
Definition wrapServices (svcs : list Service) : option (list Service) :=
  svcs ← mapM Validate svcs; Some (sortByName s_Name svcs).

Definition HasReturn (m : Method) : bool := bool_decide (is_Some (ReturnType m)).
Definition HasExceptions (m : Method) : bool := bool_decide (m_Exceptions m ≠ []).

Definition Field_Name (a : Field) : bytes := goName (f_Name a).
Definition ArgStructName (a : Field) : bytes := goPublicFieldName (f_Name a).
Definition ArgType (fuel : nat) (s : State) (a : Field) : go bytes := goType fuel s (f_Type a).
Definition Declaration (fuel : nat) (s : State) (a : Field) : go bytes :=
  t ← ArgType fuel s a; Ret (Field_Name a ++ str " " ++ t).

Fixpoint Declarations (fuel : nat) (s : State) (l : list Field) : go (list bytes) :=
  match l with
  | [] => Ret []
  | a :: l => d ← Declaration fuel s a; ds ← Declarations fuel s l; Ret (d :: ds)
  end.

Definition contextType : bytes := str "thrift.Context".

Definition ArgList (fuel : nat) (s : State) (m : Method) : go bytes :=
  ds ← Declarations fuel s (m_Arguments m); Ret (Join ((str "ctx " ++ contextType) :: ds) (str ", ")).
Definition CallList (m : Method) (reqStruct : bytes) : bytes :=
  Join (str "ctx" :: ((λ a, reqStruct ++ [dot] ++ ArgStructName a) <$> m_Arguments m)) (str ", ").
Definition RetType (fuel : nat) (s : State) (m : Method) : go bytes :=
  match ReturnType m with
  | None => Ret (str "error")
  | Some t => g ← goType fuel s t; Ret (str "(" ++ g ++ str ", " ++ str "error" ++ str ")")
  end.
Definition WrapResult (fuel : nat) (s : State) (m : Method) (respVar : bytes) : go bytes :=
  match ReturnType m with
  | None => Panic
  | Some t => ptr ← isResultPointer fuel s t; Ret (if ptr : bool then respVar else str "&" ++ respVar)
  end.
Definition ReturnWith (m : Method) (respName errName : bytes) : bytes :=
  if HasReturn m then respName ++ str ", " ++ errName else errName.

Definition Method_Name (m : Method) : bytes := goPublicName (m_Name m).
Definition HandleFunc (m : Method) : bytes := str "handle" ++ goPublicName (m_Name m).
Definition argResPrefix (svc : Service) (m : Method) : bytes := goPublicName (s_Name svc) ++ Method_Name m.
Definition ArgsType (svc : Service) (m : Method) : bytes := argResPrefix svc m ++ str "Args".
Definition ResultType (svc : Service) (m : Method) : bytes := argResPrefix svc m ++ str "Result".

Definition Interface (s : Service) : bytes := str "TChan" ++ goPublicName (s_Name s).
Definition ClientStruct (s : Service) : bytes := str "tchan" ++ goPublicName (s_Name s) ++ str "Client".
Definition ClientConstructor (s : Service) : bytes := str "NewTChan" ++ goPublicName (s_Name s) ++ str "Client".
Definition InheritedClientConstructor (s : Service) : bytes :=
  str "NewTChan" ++ goPublicName (s_Name s) ++ str "InheritedClient".
Definition ServerStruct (s : Service) : bytes := str "tchan" ++ goPublicName (s_Name s) ++ str "Server".
Definition ServerConstructor (s : Service) : bytes := str "NewTChan" ++ goPublicName (s_Name s) ++ str "Server".
End types.

(** ** Services that extend others *)

(** The services of the files, after wrapServices; a service is known by its file and
    its index. *)
Definition services_of (svcs : gmap bytes (list Service)) (file : bytes) : list Service := default [] (svcs !! file).

(** The file and the name of the base service. *)
Definition extendsTarget (all : gmap bytes State) (file : bytes) (s : Service) : go (bytes * bytes) :=
  match SplitN2 dot (Extends s) with
  | None => Ret (file, Extends s)
  | Some (prefix, rest) =>
      match all !! file ≫= λ st, includes st !! prefix with
      | None => Panic
      | Some include => Ret (inc_file include, rest)
      end
  end.

(** The body of setExtends for one service: where the base service is, if it extends
    one; [None] is the error. *)
Definition findExtends (all : gmap bytes State) (svcs : gmap bytes (list Service)) (file : bytes) (s : Service)
    : go (option (option (bytes * nat))) :=
  if decide (Extends s = []) then Ret (Some None)
  else
    '(searchFile, searchFor) ← extendsTarget all file s;
    let searchServices := services_of svcs searchFile in
    i ← Search (length searchServices)
          (λ i, match searchServices !! i with Some x => bytes_leb searchFor (s_Name x) | None => true end);
    Ret (if decide (i = length searchServices) then None else Some (Some (searchFile, i))).

Definition ExtendsServicePrefix (ExtendsPrefix : bytes) (s : Service) : bytes :=
  match IndexByte (Extends s) dot with Some (S _) => ExtendsPrefix | _ => [] end.

(** setExtends: the bases of the services of one file, in order. *)
Fixpoint setExtends (all : gmap bytes State) (svcs : gmap bytes (list Service)) (file : bytes) (l : list Service)
    : go (option (list (option (bytes * nat)))) :=
  match l with
  | [] => Ret (Some [])
  | s :: l =>
      b ← findExtends all svcs file s;
      match b with
      | None => Ret None
      | Some b =>
          bs ← setExtends all svcs file l;
          Ret (match bs with Some bs => Some (b :: bs) | None => None end)
      end
  end.

(** The services from ExtendsService on, nearest first, as the loop of InheritedMethods
    visits them; [bases] is what setExtends has stored. *)
Fixpoint extendsChain (fuel : nat) (svcs : gmap bytes (list Service)) (bases : bytes * nat → option (bytes * nat))
    (at_ : bytes * nat) : go (list Service) :=
  match bases at_ with
  | None => Ret []
  | Some base =>
      match fuel with
      | O => OutOfFuel
      | S fuel =>
          match services_of svcs base.1 !! base.2 with
          | None => Panic
          | Some svc => rest ← extendsChain fuel svcs bases base; Ret (svc :: rest)
          end
      end
  end.

(** A service with the services it extends. *)
Record Wrapped := mkWrapped { wr_Service : Service; wr_Extends : list Service }.

Definition Methods (s : Service) : list Method := sortByName m_Name (map_to_list (s_Methods s)).*2.
Definition InheritedMethods (w : Wrapped) : list bytes :=
  sortStrings (s ← wr_Extends w; (map_to_list (s_Methods s)).*1).

(** The generated Methods and Handle: the service that handles a method. *)
Definition server_Methods (w : Wrapped) : list bytes := (m_Name <$> Methods (wr_Service w)) ++ InheritedMethods w.

Fixpoint server_Handle (s : Service) (chain : list Service) (methodName : bytes) : option Service :=
  if decide (methodName ∈ m_Name <$> Methods s) then Some s
  else
    match chain with
    | [] => None
    | parent :: chain' =>
        if decide (methodName ∈ InheritedMethods (mkWrapped s chain)) then server_Handle parent chain' methodName
        else None
    end.

(** ** Names: the keywords of Go *)

Lemma upperByte_not_lower b : isLower (upperByte b) = false.
Proof. by destruct b. Qed.
Lemma upperByte_idem b : upperByte (upperByte b) = upperByte b.
Proof. by destruct b. Qed.

(** A part after the first one that is not empty begins with a byte that is not a lower
    case letter. *)
Lemma camelPart_head i p : p ≠ [] → ∃ c q, camelPart (S i) p = c :: q ∧ isLower c = false.
Proof.
  destruct p as [|b p]; [done|]. intros _. cbn [camelPart].
  assert (Hn : ∀ c q, isLower c = false → ∃ c' q', fixInitialism (c :: q) = c' :: q' ∧ isLower c' = false).
  { intros c q Hc. unfold fixInitialism. case_decide; [|by eexists _, _].
    exists (upperByte c), (ToUpper q). split; [done|apply upperByte_not_lower]. }
  case_decide; apply Hn; [done|apply upperByte_not_lower].
Qed.

Definition lower (s : bytes) : Prop := Forall (λ b, isLower b = true) s.

Lemma keywords_lower kw : kw ∈ goKeywords → lower kw ∧ underscore ∉ kw ∧ kw ≠ [].
Proof.
  intros H. apply (proj1 (Forall_forall (λ kw, lower kw ∧ underscore ∉ kw ∧ kw ≠ []) goKeywords)); [|done].
  unfold lower. refine (bool_decide_unpack _ _). vm_compute. exact I.
Qed.

Lemma Join_concat ps : Join ps [] = concat ps.
Proof.
  induction ps as [|p ps IH]; [done|]. cbn [concat]. destruct ps; [by rewrite app_nil_r|].
  change (Join (p :: l :: ps) []) with (p ++ [] ++ Join (l :: ps) []). by rewrite app_nil_l, IH.
Qed.

(** The parts after the first one are empty when they become lower case. *)
Lemma camelParts_lower i ps : lower (concat (camelParts 1 (S i) ps)) → Forall (λ p, p = []) ps.
Proof.
  revert i. induction ps as [|p ps IH]; intros i H; [constructor|]. cbn [camelParts concat] in H.
  rewrite decide_True in H by lia. apply Forall_app in H as [Hp H]. constructor; [|by apply (IH (S i))].
  destruct (decide (p = [])) as [|Hne]; [done|]. destruct (camelPart_head i p Hne) as (c & q & E & Hc).
  rewrite E in Hp. apply Forall_cons in Hp as [Hc' _]. congruence.
Qed.

Lemma camelParts_empty i n : camelParts 1 (S i) (replicate n []) = replicate n [].
Proof. revert i. induction n as [|n IH]; intros i; [done|]. cbn. by rewrite IH. Qed.

Lemma Forall_replicate_nil (ps : list bytes) : Forall (λ p, p = []) ps → ps = replicate (length ps) [].
Proof. induction 1 as [|p ps -> _ IH]; [done|]. cbn. by f_equal. Qed.

Lemma Join_underscores p n : Join (p :: replicate n []) [underscore] = p ++ replicate n underscore.
Proof.
  revert p. induction n as [|n IH]; intros p; [by rewrite app_nil_r|].
  cbn [replicate]. change (Join (p :: [] :: replicate n []) [underscore])
    with (p ++ [underscore] ++ Join ([] :: replicate n []) [underscore]).
  by rewrite IH.
Qed.

Lemma camelCase_private name p ps :
  SplitByte underscore name = p :: ps → camelCase name false = p ++ concat (camelParts 1 1 ps).
Proof. intros E. unfold camelCase. rewrite E, Join_concat. done. Qed.

Lemma Split_underscores p n : underscore ∉ p → SplitByte underscore (p ++ replicate n underscore) = p :: replicate n [].
Proof.
  intros Hp. rewrite <- Join_underscores. apply Split_Join; [done|].
  constructor; [done|]. apply Forall_replicate. apply not_elem_of_nil.
Qed.

(** The names of arguments: the Go name of a Thrift identifier is a keyword of Go (or
    the name "error") exactly when the identifier is such a keyword followed by one or
    more underscores.  So the suffix the generator adds to a keyword avoids every keyword,
    but an argument named "type_" is declared with the name "type". *)
Theorem goName_keyword (name : bytes) :
  goName name ∈ goKeywords ↔ ∃ kw n, kw ∈ goKeywords ∧ name = kw ++ replicate (S n) underscore.
Proof.
  unfold goName. split.
  - intros Hk. set (name' := if decide (name ∈ goKeywords) then name ++ str "_a1" else name) in Hk.
    destruct (SplitByte underscore name') as [|p ps] eqn:E; [by apply SplitByte_ne in E|].
    rewrite (camelCase_private _ _ _ E) in Hk.
    pose proof (keywords_lower _ Hk) as (Hl & _). apply Forall_app in Hl as [Hp Hps%camelParts_lower].
    rewrite (Forall_replicate_nil _ Hps) in E, Hk. rewrite camelParts_empty, <- Join_concat in Hk.
    assert (Hc : ∀ n, Join (replicate n []) [] = []) by (intros [|n]; [done|]; rewrite Join_concat; induction n; done).
    rewrite Hc, app_nil_r in Hk. apply (f_equal (λ l, Join l [underscore])) in E.
    rewrite Join_Split, Join_underscores in E. unfold name' in E. case_decide as Hn.
    + apply (f_equal last) in E. destruct (keywords_lower _ Hk) as (_ & _ & Hne).
      rewrite last_app in E. cbn in E. destruct (length ps) as [|k].
      * cbn in E. rewrite app_nil_r in E. destruct (last p) as [b|] eqn:El; [|by apply last_None in El]. injection E as <-.
        apply last_Some_elem_of in El. by eapply Forall_forall in Hp; [|exact El].
      * rewrite replicate_S_end, app_assoc, last_snoc in E. done.
    + destruct (length ps) as [|k]; [cbn in E; rewrite app_nil_r in E; by subst|]. by exists p, k.
  - intros (kw & n & Hk & ->). destruct (keywords_lower _ Hk) as (Hl & Hu & _).
    rewrite decide_False.
    + rewrite (camelCase_private _ kw (replicate (S n) [])) by (by apply Split_underscores).
      rewrite camelParts_empty, <- Join_concat.
      assert (Hc : ∀ n, Join (replicate n []) [] = []) by (intros [|m]; [done|]; rewrite Join_concat; induction m; done).
      by rewrite Hc, app_nil_r.
    + intros (_ & H & _)%keywords_lower. apply H, elem_of_app. right. cbn. by constructor.
Qed.

(** ** Types: typedefs and includes *)

(** One step of rootType: through an include or a typedef. *)
Inductive type_step (all : gmap bytes State) : State * Type_ → State * Type_ → Prop :=
| step_include s t s' t' inc :
    checkInclude all s t = Ret (Some (s', t', inc)) → type_step all (s, t) (s', t')
| step_typedef s t v :
    checkInclude all s t = Ret None → typedefs s !! Name t = Some v → type_step all (s, t) (s, v).

(** A type that is neither included nor a typedef. *)
Definition is_root (all : gmap bytes State) (x : State * Type_) : Prop :=
  checkInclude all x.1 x.2 = Ret None ∧ typedefs x.1 !! Name x.2 = None.

Lemma checkInclude_fuel all s t : checkInclude all s t ≠ OutOfFuel.
Proof.
  unfold checkInclude. destruct (SplitN2 dot (Name t)) as [[p r]|]; [|done].
  destruct (includes s !! p); [|done]. by destruct (all !! inc_file i).
Qed.

(** A type is a root, or steps to exactly one type. *)
Lemma type_cases all s t : checkInclude all s t ≠ Panic →
  is_root all (s, t) ∨ ∃ y, type_step all (s, t) y.
Proof.
  intros Hp. unfold is_root. cbn. destruct (checkInclude all s t) as [[[[s' t'] inc]|]| |] eqn:E; [|..|done|].
  - right. eexists. by eapply step_include.
  - destruct (typedefs s !! Name t) as [v|] eqn:Ev; [|by left]. right. eexists. by eapply step_typedef.
  - by apply checkInclude_fuel in E.
Qed.

Lemma rootType_step all fuel s t y : type_step all (s, t) y →
  rootType all (S fuel) s t = ('(r, _) ← rootType all fuel y.1 y.2; Ret (r, false)).
Proof.
  intros H. cbn [rootType]. inversion H as [s0 t0 s' t' inc E|s0 t0 v E Ev]; subst; cbn [fst snd].
  - unfold mbind at 1, go_bind at 1. by rewrite E.
  - unfold mbind at 1, go_bind at 1. by rewrite E, Ev.
Qed.

Lemma rootType_root all fuel s t : is_root all (s, t) → rootType all (S fuel) s t = Ret (t, true).
Proof. intros [E Ev]. cbn in *. unfold mbind, go_bind. by rewrite E, Ev. Qed.

Lemma rootType_panics all fuel s t : checkInclude all s t = Panic → rootType all (S fuel) s t = Panic.
Proof. intros E. cbn [rootType]. unfold mbind, go_bind. by rewrite E. Qed.

Lemma root_stops all x y : is_root all x → ¬ type_step all x y.
Proof. intros [E Ev] H. inversion H; subst; cbn in *; congruence. Qed.

(** A root that can be reached is found, by every large enough fuel. *)
Lemma rootType_finds all x y : rtc (type_step all) x y → is_root all y →
  ∃ n same, (same = true ↔ is_root all x) ∧ ∀ fuel, (n <= fuel)%nat → rootType all fuel x.1 x.2 = Ret (y.2, same).
Proof.
  intros H Hy. induction H as [[s t]|[s t] z y Hz _ IH].
  - exists 1%nat, true. split; [done|]. intros [|fuel] Hf; [lia|]. by apply rootType_root.
  - destruct (IH Hy) as (n & same & _ & Hn). exists (S n), false. split.
    + split; [done|]. intros Hr. by apply root_stops in Hz.
    + intros [|fuel] Hf; [lia|]. cbn [fst snd]. rewrite (rootType_step _ _ _ _ _ Hz). by rewrite Hn by lia.
Qed.

Lemma rootType_hits all x y : rtc (type_step all) x y → checkInclude all y.1 y.2 = Panic →
  ∃ n, ∀ fuel, (n <= fuel)%nat → rootType all fuel x.1 x.2 = Panic.
Proof.
  intros H Hy. induction H as [[s t]|[s t] z y Hz _ IH].
  - exists 1%nat. intros [|fuel] Hf; [lia|]. by apply rootType_panics.
  - destruct (IH Hy) as [n Hn]. exists (S n).
    intros [|fuel] Hf; [lia|]. cbn [fst snd]. rewrite (rootType_step _ _ _ _ _ Hz). by rewrite Hn by lia.
Qed.

(** What a result says. *)
Lemma rootType_result all fuel x :
  match rootType all fuel x.1 x.2 with
  | Ret (r, same) => (∃ s', rtc (type_step all) x (s', r) ∧ is_root all (s', r)) ∧ (same = true ↔ is_root all x)
  | Panic => ∃ y, rtc (type_step all) x y ∧ checkInclude all y.1 y.2 = Panic
  | OutOfFuel => True
  end.
Proof.
  revert x. induction fuel as [|fuel IH]; intros [s t]; [done|]. cbn [fst snd].
  destruct (checkInclude all s t) as [c| |] eqn:E; [|by rewrite rootType_panics; [exists (s, t); split; [apply rtc_refl|]|]|].
  2:{ by apply checkInclude_fuel in E. }
  destruct (type_cases all s t) as [Hroot|[y Hy]]; [congruence|..].
  - rewrite (rootType_root _ _ _ _ Hroot). split; [|done]. exists s. split; [apply rtc_refl|done].
  - rewrite (rootType_step _ _ _ _ _ Hy). specialize (IH y). unfold mbind, go_bind.
    destruct (rootType all fuel y.1 y.2) as [[r same]| |]; [| |done].
    + destruct IH as [(s' & Hr & Hs) _]. split; [exists s'; split; [by eapply rtc_l|done]|].
      split; [done|]. intros Hr'. by apply root_stops in Hy.
    + destruct IH as (z & Hz & Hp). exists z. split; [by eapply rtc_l|done].
Qed.

Lemma rootType_cycle all fuel x y :
  tc (type_step all) x y → tc (type_step all) y y → rootType all fuel x.1 x.2 = OutOfFuel.
Proof.
  revert x. induction fuel as [|fuel IH]; intros [s t] Hxy Hyy; [done|].
  assert (Hx : ∃ z, type_step all (s, t) z ∧ tc (type_step all) z y).
  { inversion Hxy as [? ? H|? z ? H H']; subst; eauto. }
  destruct Hx as (z & Hz & Hzy). cbn [fst snd]. rewrite (rootType_step _ _ _ _ _ Hz). by rewrite IH.
Qed.

(** C38: What rootType comes to, in terms of the steps through includes and typedefs from a
    type.  It returns, with every large enough fuel, exactly when these steps reach a type
    that is neither included nor a typedef; that type is the result, and the flag says
    whether it is the type itself.  It panics, with every large enough fuel, exactly when
    they reach a type whose prefix is not included or whose file is not there.  It does
    not end, whatever the fuel, exactly when every type that they reach steps on; this is
    so whenever they reach a cycle, be the type itself on it or not. *)
Theorem rootType_ends (all : gmap bytes State) (s : State) (t : Type_) :
  (∀ r same, (∃ n, ∀ fuel, (n <= fuel)%nat → rootType all fuel s t = Ret (r, same))
     ↔ (∃ s', rtc (type_step all) (s, t) (s', r) ∧ is_root all (s', r)) ∧ (same = true ↔ is_root all (s, t)))
  ∧ ((∃ n, ∀ fuel, (n <= fuel)%nat → rootType all fuel s t = Panic)
     ↔ ∃ y, rtc (type_step all) (s, t) y ∧ checkInclude all y.1 y.2 = Panic)
  ∧ ((∀ fuel, rootType all fuel s t = OutOfFuel)
     ↔ ∀ y, rtc (type_step all) (s, t) y → ∃ z, type_step all y z)
  ∧ (∀ y, rtc (type_step all) (s, t) y → tc (type_step all) y y → ∀ fuel, rootType all fuel s t = OutOfFuel).
Proof.
  split_and!.
  - intros r same. split.
    + intros [n Hn]. pose proof (rootType_result all n (s, t)) as H. cbn [fst snd] in H. by rewrite Hn in H.
    + intros [(s' & Hr & Hs) Hsame]. destruct (rootType_finds all (s, t) (s', r) Hr Hs) as (n & b & Hb & Hn).
      assert (b = same) as -> by (clear -Hb Hsame; destruct b, same; naive_solver). by exists n.
  - split.
    + intros [n Hn]. pose proof (rootType_result all n (s, t)) as H. cbn [fst snd] in H. by rewrite Hn in H.
    + intros (y & Hy & Hp). by apply (rootType_hits all (s, t) y).
  - split.
    + intros Hout [s' r] Hy. destruct (type_cases all s' r) as [Hroot|Hstep]; [..|done].
      * intros Hp. destruct (rootType_hits all (s, t) (s', r) Hy Hp) as [n Hn]. specialize (Hn n (le_n n)). by rewrite Hout in Hn.
      * destruct (rootType_finds all (s, t) (s', r) Hy Hroot) as (n & b & _ & Hn). specialize (Hn n (le_n n)). by rewrite Hout in Hn.
    + intros Hgo fuel. pose proof (rootType_result all fuel (s, t)) as H. cbn [fst snd] in H.
      destruct (rootType all fuel s t) as [[r same]| |]; [| |done].
      * destruct H as [(s' & Hr & Hs) _]. destruct (Hgo _ Hr) as [z Hz]. by apply root_stops in Hz.
      * destruct H as (y & Hy & Hp). destruct (Hgo y Hy) as [z Hz]. inversion Hz; subst; cbn in Hp; congruence.
  - intros y Hy Hc fuel. apply (rootType_cycle all fuel (s, t) y); [|done]. by eapply tc_rtc_l.
Qed.

(** ** Services that extend others *)

Lemma wrapServices_sorted svcs l : wrapServices svcs = Some l → Sorted (by_name s_Name) l.
Proof.
  unfold wrapServices. intros H. destruct (mapM Validate svcs) as [vs|]; [|done]. cbn in H. injection H as <-.
  apply Sorted_merge_sort, _.
Qed.

(** The search of setExtends: the first service whose name is not smaller. *)
Lemma findExtends_search all svcs file s file' name :
  Extends s ≠ [] → extendsTarget all file s = Ret (file', name) →
  Sorted (by_name s_Name) (services_of svcs file') →
  ∃ k, (k <= length (services_of svcs file'))%nat
  ∧ findExtends all svcs file s
    = Ret (if decide (k = length (services_of svcs file')) then None else Some (Some (file', k)))
  ∧ ∀ i x, services_of svcs file' !! i = Some x → bytes_le name (s_Name x) ↔ (k <= i)%nat.
Proof.
  intros He Ht Hs. apply Sorted_StronglySorted in Hs; [|apply _]. set (l := services_of svcs file') in *.
  set (f := λ i, match l !! i with Some x => bytes_leb name (s_Name x) | None => true end).
  destruct (Search_spec (length l) f) as (k & E & Hk & Hlo & Hhi).
  { intros a b Hab Hb Ha. unfold f in *. destruct (lookup_lt_is_Some_2 l b Hb) as [y Ey].
    destruct (lookup_lt_is_Some_2 l a) as [x Ex]; [lia|]. rewrite Ex in Ha. rewrite Ey.
    destruct (decide (a = b)) as [->|Hne]; [congruence|].
    assert (Hxy : by_name s_Name x y) by (apply (StronglySorted_lookup _ l a b); [done..|lia]).
    by eapply bytes_le_trans. }
  exists k. split_and!; [done| |].
  - unfold findExtends. rewrite decide_False by done. rewrite Ht. unfold mbind, go_bind. fold l f. by rewrite E.
  - intros i x Ex. assert (Hf : f i = bytes_leb name (s_Name x)) by (unfold f; by rewrite Ex). unfold bytes_le.
    rewrite <- Hf. destruct (decide (k <= i)%nat) as [Hki|Hki].
    + rewrite Hhi; [done..|by eapply lookup_lt_Some].
    + rewrite Hlo by lia. naive_solver lia.
Qed.

(** SetExtends looks for the base service with a binary search among the services of
    the file, which wrapServices has sorted.  If the file has a service with that name, it
    is the one that is found.  If it has none, that is an error exactly when all services
    of the file sort before the name: otherwise the service takes the next one in the order
    as its base, without an error. *)
Theorem extends_found (all : gmap bytes State) (svcs : gmap bytes (list Service)) (file : bytes) (s : Service)
    (file' name : bytes) :
  Extends s ≠ [] → extendsTarget all file s = Ret (file', name) →
  Sorted (by_name s_Name) (services_of svcs file') →
  (name ∈ s_Name <$> services_of svcs file' →
     ∃ k x, findExtends all svcs file s = Ret (Some (Some (file', k)))
     ∧ services_of svcs file' !! k = Some x ∧ s_Name x = name)
  ∧ (name ∉ s_Name <$> services_of svcs file' →
     (findExtends all svcs file s = Ret None ↔ Forall (λ x, ¬ bytes_le name (s_Name x)) (services_of svcs file'))
     ∧ ∀ k x, findExtends all svcs file s = Ret (Some (Some (file', k))) → services_of svcs file' !! k = Some x →
         s_Name x ≠ name ∧ bytes_le name (s_Name x)).
Proof.
  intros He Ht Hs. destruct (findExtends_search all svcs file s file' name He Ht Hs) as (k & Hk & E & Hspec).
  rewrite E. set (l := services_of svcs file') in *. split.
  - intros (x & -> & Hx)%list_elem_of_fmap. apply list_elem_of_lookup in Hx as [i Hi].
    pose proof (proj1 (Hspec i x Hi) (reflexivity _)) as Hki. pose proof (lookup_lt_Some _ _ _ Hi) as Hil.
    rewrite decide_False by lia. destruct (lookup_lt_is_Some_2 l k) as [y Hy]; [lia|].
    exists k, y. split_and!; [done..|]. apply (anti_symm bytes_le); [|by apply (Hspec k y Hy)].
    destruct (decide (k = i)) as [->|Hne]; [replace y with x by congruence; reflexivity|].
    apply Sorted_StronglySorted in Hs; [|apply _].
    apply (StronglySorted_lookup (by_name s_Name) l k i y x); [done..|lia].
  - intros Hno. split.
    + rewrite Forall_lookup. split.
      * case_decide as Hkl; [|done]. intros _ i x Hi Hle%(Hspec i x Hi). apply lookup_lt_Some in Hi. lia.
      * intros Hall. case_decide as Hkl; [done|]. destruct (lookup_lt_is_Some_2 l k) as [y Hy]; [lia|].
        by destruct (Hall k y Hy); apply (Hspec k y Hy).
    + intros k' x. case_decide as Hkl; [done|]. intros [= <-] Hx. split; [|by apply (Hspec k x Hx)].
      intros <-. apply Hno, list_elem_of_fmap. exists x. split; [done|]. by eapply list_elem_of_lookup_2.
Qed.

(** ** The dispatch of a generated server *)

(** The methods of a service are stored under their names. *)
Definition named (s : Service) : Prop := ∀ k m, s_Methods s !! k = Some m → m_Name m = k.
Definition declares (m : bytes) (s : Service) : Prop := is_Some (s_Methods s !! m).

Lemma elem_of_Methods s m : named s → m ∈ m_Name <$> Methods s ↔ declares m s.
Proof.
  intros Hn. unfold Methods, sortByName. rewrite list_elem_of_fmap. setoid_rewrite merge_sort_Permutation. split.
  - intros (x & -> & [[k y] [-> Hy%elem_of_map_to_list]]%list_elem_of_fmap). cbn. rewrite (Hn _ _ Hy). by exists y.
  - intros [x Hx]. exists x. split; [by rewrite (Hn _ _ Hx)|]. apply list_elem_of_fmap. exists (m, x).
    split; [done|]. by apply elem_of_map_to_list.
Qed.

Lemma elem_of_Inherited w m : m ∈ InheritedMethods w ↔ Exists (declares m) (wr_Extends w).
Proof.
  unfold InheritedMethods, sortStrings. rewrite merge_sort_Permutation, list_elem_of_bind, Exists_exists.
  apply exist_proper. intros s. rewrite list_elem_of_fmap. split.
  - intros [([k y] & -> & Hy%elem_of_map_to_list) Hs]. by split; [|exists y].
  - intros [Hs [y Hy]]. split; [|done]. exists (m, y). split; [done|]. by apply elem_of_map_to_list.
Qed.

(** A generated server handles exactly the methods it registers, and each one with the
    nearest service, from its own one up the chain of services it extends, that declares
    the method. *)
Theorem server_dispatches (s : Service) (chain : list Service) (m : bytes) :
  Forall named (s :: chain) →
  (m ∈ server_Methods (mkWrapped s chain) ↔ is_Some (server_Handle s chain m))
  ∧ ∀ svc, server_Handle s chain m = Some svc →
      ∃ pre post, s :: chain = pre ++ svc :: post ∧ declares m svc ∧ Forall (λ x, ¬ declares m x) pre.
Proof.
  revert s. induction chain as [|p chain IH]; intros s Hn; apply Forall_cons in Hn as [Hs Hn];
    unfold server_Methods; rewrite elem_of_app, elem_of_Methods, elem_of_Inherited by done; cbn [wr_Service wr_Extends server_Handle].
  - rewrite Exists_nil. case_decide as Hm; rewrite elem_of_Methods in Hm by done.
    + split; [naive_solver|]. intros svc [= <-]. exists [], []. by split_and!.
    + split; [split; [naive_solver|by intros [? ?]]|]. done.
  - destruct (IH p Hn) as [Hiff Hnear]. case_decide as Hm; rewrite elem_of_Methods in Hm by done.
    { split; [naive_solver|]. intros svc [= <-]. exists [], (p :: chain). by split_and!. }
    unfold server_Methods in Hiff. apply Forall_cons in Hn as [Hp _].
    rewrite elem_of_app, elem_of_Methods, elem_of_Inherited in Hiff by done. cbn [wr_Service wr_Extends] in Hiff.
    rewrite Exists_cons. case_decide as Hi; rewrite elem_of_Inherited in Hi; cbn [wr_Extends] in Hi; rewrite Exists_cons in Hi.
    + split; [rewrite <- Hiff; naive_solver|]. intros svc Hsvc. destruct (Hnear svc Hsvc) as (pre & post & E & Hd & Hpre).
      exists (s :: pre), post. rewrite E. split_and!; [done..|]. by constructor.
    + split; [|done]. split; [naive_solver|by intros [? ?]].
Qed.

(** ** Examples *)

(** A service that extends a service that is not there, in a file with no other service:
    it extends itself, and collecting the inherited methods never ends. *)
Definition lone : Service := mkService (str "Foo") (str "Bar") ∅.
Definition lone_svcs : gmap bytes (list Service) := {[str "foo.thrift" := [lone]]}.
Definition lone_bases (x : bytes * nat) : option (bytes * nat) :=
  match findExtends ∅ lone_svcs x.1 lone with Ret (Some b) => b | _ => None end.

Theorem extends_missing_hangs :
  wrapServices [lone] = Some [lone]
  ∧ findExtends ∅ lone_svcs (str "foo.thrift") lone = Ret (Some (Some (str "foo.thrift", 0%nat)))
  ∧ ∀ fuel, extendsChain fuel lone_svcs lone_bases (str "foo.thrift", 0%nat) = OutOfFuel.
Proof.
  split_and!; [reflexivity|vm_compute; reflexivity|].
  assert (Hb : lone_bases (str "foo.thrift", 0%nat) = Some (str "foo.thrift", 0%nat)) by (vm_compute; reflexivity).
  assert (Hl : services_of lone_svcs (str "foo.thrift") !! 0%nat = Some lone) by (vm_compute; reflexivity).
  intros fuel. induction fuel as [|fuel IH]; cbn [extendsChain]; rewrite Hb; [done|].
  cbn [fst snd]. by rewrite Hl, IH.
Qed.

(** A typedef of a typedef, a type with a prefix that is not included, and a typedef that
    leads to a typedef of itself. *)
Definition ex_named_type (n : bytes) : Type_ := mkType n None None.
Definition ex_types : State :=
  mkState {[ str "A" := ex_named_type (str "B"); str "B" := ex_named_type (str "i64");
             str "T1" := ex_named_type (str "T2"); str "T2" := ex_named_type (str "T2");
             str "Q" := ex_named_type (str "gone.X") ]} ∅.

Lemma rootType_ends_witness :
  (∃ n, ∀ fuel, (n <= fuel)%nat → rootType ∅ fuel ex_types (ex_named_type (str "A")) = Ret (i64Type, false))
  ∧ (∃ n, ∀ fuel, (n <= fuel)%nat → rootType ∅ fuel ex_types (ex_named_type (str "Q")) = Panic)
  ∧ (∀ fuel, rootType ∅ fuel ex_types (ex_named_type (str "T1")) = OutOfFuel).
Proof.
  assert (Hstep : ∀ a b, SplitN2 dot a = None → typedefs ex_types !! a = Some (ex_named_type b) →
    type_step ∅ (ex_types, ex_named_type a) (ex_types, ex_named_type b)).
  { intros a b Ha Hb. apply step_typedef; [|exact Hb]. unfold checkInclude. cbn [Name ex_named_type]. by rewrite Ha. }
  split_and!.
  - apply (proj1 (rootType_ends ∅ ex_types (ex_named_type (str "A")))). split.
    + exists ex_types. split; [|split; vm_compute; reflexivity].
      eapply rtc_l; [apply (Hstep (str "A") (str "B")); vm_compute; reflexivity|].
      eapply rtc_l; [apply (Hstep (str "B") (str "i64")); vm_compute; reflexivity|]. apply rtc_refl.
    + split; [done|]. intros [_ H]. vm_compute in H. discriminate H.
  - apply (proj1 (proj2 (rootType_ends ∅ ex_types (ex_named_type (str "Q"))))).
    exists (ex_types, ex_named_type (str "gone.X")). split; [|vm_compute; reflexivity].
    apply rtc_once, Hstep; vm_compute; reflexivity.
  - apply (proj2 (proj2 (proj2 (rootType_ends ∅ ex_types (ex_named_type (str "T1"))))) (ex_types, ex_named_type (str "T2"))).
    + apply rtc_once, Hstep; vm_compute; reflexivity.
    + apply tc_once, Hstep; vm_compute; reflexivity.
Defined.

Example goName_examples :
  goName (str "type") = str "typeA1" ∧ goName (str "my_arg") = str "myArg" ∧ goName (str "user_id") = str "userID"
  ∧ goName (str "a_B") = str "a_B" ∧ goName (str "type_") = str "type" ∧ goPublicFieldName (str "new_args") = str "NewArgs_".
Proof. by vm_compute. Qed.

(** Two services, one of which extends the other; the base is found by its name. *)
Definition ex_method (n : bytes) : Method := mkMethod n false None [] [].
Definition ex_base : Service := mkService (str "Base") [] {[str "ping" := ex_method (str "ping")]}.
Definition ex_child : Service := mkService (str "Child") (str "Base") {[str "get" := ex_method (str "get")]}.
Definition ex_svcs : gmap bytes (list Service) := {[str "x.thrift" := [ex_base; ex_child]]}.

Lemma extends_found_witness :
  ∃ k x, findExtends ∅ ex_svcs (str "x.thrift") ex_child = Ret (Some (Some (str "x.thrift", k)))
  ∧ services_of ex_svcs (str "x.thrift") !! k = Some x ∧ s_Name x = str "Base".
Proof.
  apply (extends_found ∅ ex_svcs (str "x.thrift") ex_child (str "x.thrift") (str "Base")).
  - discriminate.
  - vm_compute. reflexivity.
  - change (services_of ex_svcs (str "x.thrift")) with [ex_base; ex_child]. repeat constructor.
  - change (services_of ex_svcs (str "x.thrift")) with [ex_base; ex_child]. by left.
Defined.

Lemma ex_named : Forall named [ex_child; ex_base].
Proof.
  assert (H : ∀ a b n, named (mkService a b {[n := ex_method n]})) by (intros a b n k m; cbn; by intros [<- <-]%lookup_singleton_Some).
  constructor; [apply H|]. constructor; [apply H|constructor].
Qed.

Lemma server_dispatches_witness :
  str "ping" ∈ server_Methods (mkWrapped ex_child [ex_base])
  ∧ server_Handle ex_child [ex_base] (str "ping") = Some ex_base
  ∧ declares (str "ping") ex_base.
Proof.
  assert (E : server_Handle ex_child [ex_base] (str "ping") = Some ex_base) by (vm_compute; reflexivity).
  destruct (server_dispatches ex_child [ex_base] (str "ping") ex_named) as [Hiff Hnear].
  split_and!; [apply Hiff; by rewrite E|exact E|].
  destruct (Hnear ex_base E) as (pre & post & _ & Hd & _). exact Hd.
Defined.
