(* ===== verification/Clients.v ===== *)
(** * Clients that retry (Call of thrift/client.go and json/call.go)

    A call of a client is made under RunWithRetry.  One attempt (startCall, the
    arguments, the response) is an argument here: it changes a world of its own and
    the request state, and ends in one of a few ways; the other files model what
    happens within.  The closures of the clients keep the outcome of an attempt in
    variables that are shared by all attempts.  The theorem shows that what the caller
    sees is the outcome of the last attempt alone, and which attempts are made. *)

From S2P Require Import Prelude Errors Buffer Retry.

(** Application headers; [None] is the nil map. *)
Notation Headers := (option (gmap bytes bytes)).

(** How one attempt ends: no call could be begun, the arguments could not be written, or
    readResponse has returned: headers, success and error. *)
Inductive outcome :=
| startFailed (e : error)
| writeFailed (e : error)
| responded (headers : Headers) (isOK : bool) (err : option error).

Definition outcome_err (o : outcome) : option error :=
  match o with startFailed e | writeFailed e => Some e | responded _ _ err => err end.

Section client.
Context {W : Type} (attempt : option Z → RequestState → W → outcome * RequestState * W).

(** The variables of the closure. *)
Record callVars := mkCallVars { cv_respHeaders : Headers; cv_isOK : bool }.

(** The closure of client.Call of thrift. *)
Definition call_closure : @RetriableFunc (W * callVars) := λ timeout rs '(w, _),
  let '(o, rs, w) := attempt timeout rs w in
  match o with
  | startFailed e | writeFailed e => (Some e, rs, (w, mkCallVars None false))
  | responded h ok err => (err, rs, (w, mkCallVars h ok))
  end.

(** client.Call: success and error, and the headers that SetResponseHeaders is given, if
    it is called. *)
Definition client_Call (params : option (option RetryOptions)) (now : Z) (w : W)
    : bool * option error * option Headers * W :=
  let '(err, _, (w, v)) := RunWithRetry call_closure params now (w, mkCallVars None false) in
  match err with
  | Some e => (false, Some e, None, w)
  | None => (cv_isOK v, None, Some (cv_respHeaders v), w)
  end.

(** The attempts of a loop, one after the other, and how they ended. *)
Inductive made (opts : RetryOptions) : RequestState → W → list outcome → RequestState → W → Prop :=
| made_none rs w : made opts rs w [] rs w
| made_more rs w o rs1 w1 os rs2 w2 :
    attempt (if decide (TimeoutPerAttempt opts = 0) then None else Some (TimeoutPerAttempt opts))
      (mkRequestState (Start rs) (SelectedPeers rs) (Attempt rs + 1) (retryOpts rs)) w = (o, rs1, w1) →
    made opts rs1 w1 os rs2 w2 → made opts rs w (o :: os) rs2 w2.

Definition retriable (opts : RetryOptions) (o : outcome) : Prop :=
  ∃ e, outcome_err o = Some e ∧ CanRetry (RetryOptions_RetryOn opts) e = true.

Definition vars_of (o : outcome) : callVars :=
  match o with responded h ok _ => mkCallVars h ok | _ => mkCallVars None false end.

Lemma call_closure_eq timeout rs w v o rs1 w1 :
  attempt timeout rs w = (o, rs1, w1) → call_closure timeout rs (w, v) = (outcome_err o, rs1, (w1, vars_of o)).
Proof. intros Ha. unfold call_closure. rewrite Ha. by destruct o. Qed.

Lemma retryLoop_made opts n : (0 < n)%nat → ∀ err rs w v,
  ∃ os o rs1 w1, retryLoop call_closure opts n err rs (w, v) = (outcome_err o, rs1, (w1, vars_of o))
  ∧ made opts rs w (os ++ [o]) rs1 w1 ∧ Forall (retriable opts) os
  ∧ (length os < n)%nat ∧ (retriable opts o → S (length os) = n).
Proof.
  induction n as [|n IH]; [lia|]. intros _ err rs w v. cbn [retryLoop].
  set (rs' := mkRequestState _ _ _ _). set (t := if decide _ then _ else _).
  destruct (attempt t rs' w) as [[o rs1] w1] eqn:Ha. rewrite (call_closure_eq _ _ _ v _ _ _ Ha).
  assert (Hone : made opts rs w [o] rs1 w1) by (by econstructor; [|constructor]).
  destruct (outcome_err o) as [e|] eqn:He.
  2: { exists [], o, rs1, w1. rewrite He. split_and!; [done|done|constructor|simpl; lia|]. intros (e & He' & _). congruence. }
  destruct (CanRetry (RetryOptions_RetryOn opts) e) eqn:HC.
  2: { exists [], o, rs1, w1. rewrite He. split_and!; [done|done|constructor|simpl; lia|].
       intros (e' & He' & HC'). congruence. }
  destruct n as [|n].
  { exists [], o, rs1, w1. cbn [retryLoop]. rewrite He. split_and!; [done|done|constructor|simpl; lia|done]. }
  destruct (IH ltac:(lia) (Some e) rs1 w1 (vars_of o)) as (os & o2 & rs2 & w2 & HR & Hm & Hf & Hl & Hr).
  exists (o :: os), o2, rs2, w2. split_and!; [exact HR|by econstructor| |simpl; lia|].
  - constructor; [|done]. by exists e.
  - intros Ho2. simpl. by rewrite (Hr Ho2).
Qed.

(** A client's call is its last attempt: success, response headers and error are those
    of the attempt that was made last, whatever earlier ones have left behind; the
    response headers are set only when there is no error; an attempt is followed by
    another exactly when its error may be retried and the attempts are not used
    up. *)
Theorem client_Call_last params now w :
  let opts := getRetryOptions params in
  0 < MaxAttempts opts →
  ∃ os o rs' w', made opts (getRequestState now opts) w (os ++ [o]) rs' w'
  ∧ client_Call params now w
    = (match o with responded h ok None => (ok, None, Some h) | _ => (false, outcome_err o, None) end, w')
  ∧ Forall (retriable opts) os
  ∧ Z.of_nat (length os) < MaxAttempts opts
  ∧ (retriable opts o → Z.of_nat (length os) + 1 = MaxAttempts opts).
Proof.
  intros opts Hmax.
  destruct (retryLoop_made opts (Z.to_nat (MaxAttempts opts)) ltac:(lia) None (getRequestState now opts) w
    (mkCallVars None false)) as (os & o & rs' & w' & HR & Hm & Hf & Hl & Hr).
  exists os, o, rs', w'. split_and!; [done| |done|lia|].
  - unfold client_Call, RunWithRetry. fold opts. rewrite HR. by destruct o as [e|e|h ok [e|]].
  - intros Ho. specialize (Hr Ho). lia.
Qed.
End client.

(** ** json.Client.Call *)

(** What makeCall gives when it is reached: isOK, errAt, err and the error body. *)
Inductive json_outcome {E : Type} :=
| jsonStartFailed (e : error)
| jsonMade (isOK : bool) (errAt : bytes) (err : option error) (respErr : E).
Arguments json_outcome : clear implicits.

Inductive json_result {E : Type} := jsonOK | jsonErr (e : error) | jsonApplication (respErr : E).
Arguments json_result : clear implicits.

Section json.
Context {W E : Type} (nilErr : E) (attempt : option Z → RequestState → W → json_outcome E * RequestState * W).

Record jsonVars := mkJsonVars { jv_respErr : E; jv_errAt : bytes; jv_isOK : bool }.

Definition json_closure : @RetriableFunc (W * jsonVars) := λ timeout rs '(w, _),
  let '(o, rs, w) := attempt timeout rs w in
  match o with
  | jsonStartFailed e => (Some e, rs, (w, mkJsonVars nilErr (str "connect") false))
  | jsonMade ok errAt err respErr => (err, rs, (w, mkJsonVars respErr errAt ok))
  end.

Definition json_Client_Call (params : option (option RetryOptions)) (now : Z) (w : W) : json_result E * W :=
  let '(err, _, (w, v)) := RunWithRetry json_closure params now (w, mkJsonVars nilErr [] false) in
  match err with
  | Some e => (jsonErr (otherError (jv_errAt v ++ str ": " ++ Error e)), w)
  | None => (if jv_isOK v then jsonOK else jsonApplication (jv_respErr v), w)
  end.

(** A call that is not to be retried: the error says where it happened. *)
Lemma json_Client_Call_once params now w o rs1 w1 :
  let opts := getRetryOptions params in
  0 < MaxAttempts opts →
  attempt (if decide (TimeoutPerAttempt opts = 0) then None else Some (TimeoutPerAttempt opts))
    (mkRequestState now None 1 opts) w = (o, rs1, w1) →
  (∀ e, match o with jsonStartFailed e' => e' = e | jsonMade _ _ err _ => err = Some e end →
    CanRetry (RetryOptions_RetryOn opts) e = false) →
  json_Client_Call params now w
  = (match o with
     | jsonStartFailed e => jsonErr (otherError (str "connect: " ++ Error e))
     | jsonMade _ errAt (Some e) _ => jsonErr (otherError (errAt ++ str ": " ++ Error e))
     | jsonMade true _ None _ => jsonOK
     | jsonMade false _ None respErr => jsonApplication respErr
     end, w1).
Proof.
  intros opts Hmax Ha Hno. unfold json_Client_Call, RunWithRetry. fold opts.
  destruct (Z.to_nat (MaxAttempts opts)) as [|n] eqn:Hn; [lia|]. cbn [retryLoop getRequestState Start SelectedPeers Attempt retryOpts].
  unfold json_closure at 1. change (0 + 1) with 1. rewrite Ha.
  destruct o as [e|ok errAt [e|] respErr].
  - rewrite (Hno e eq_refl). reflexivity.
  - rewrite (Hno e eq_refl). by destruct ok.
  - by destruct ok.
Qed.
End json.

(** The first attempt finds its peer busy, the second one is answered. *)
Definition example_attempt (timeout : option Z) (rs : RequestState) (n : nat) : outcome * RequestState * nat :=
  match n with
  | O => (startFailed ErrServerBusy, rs, 1%nat)
  | S _ => (responded (Some {[ str "k" := str "v" ]}) true None, rs, 2%nat)
  end.

Lemma client_Call_last_witness :
  ∃ os o rs' w', made example_attempt (getRetryOptions None) (getRequestState 0 (getRetryOptions None)) 0%nat (os ++ [o]) rs' w'
  ∧ client_Call example_attempt None 0 0%nat
    = (match o with responded h ok None => (ok, None, Some h) | _ => (false, outcome_err o, None) end, w').
Proof.
  destruct (client_Call_last example_attempt None 0 0%nat) as (os & o & rs' & w' & H1 & H2 & _).
  - reflexivity.
  - exists os, o, rs', w'. split; [exact H1|exact H2].
Defined.
