(* ===== verification/LazyMessages.v ===== *)
(** * Frames read in place by a relay (relay_messages.go)

    A relay does not parse the calls it forwards: [newLazyCallReq] and
    [newLazyCallRes] scan a frame once and remember offsets and slices.  Slices of
    the payload are the bytes they denote; nil and empty slices are both [[]]
    (the code only compares them and takes their length).

    The theorems: the scan of a frame that carries the first fragment of a call
    agrees with the message that was encoded and with its chunks; on arbitrary
    bytes the scan does not panic and the offsets it stores are in order and inside
    the payload; SetTTL changes the time to live and nothing else. *)

From S2P Require Import Prelude Errors Buffer Checksum Frame Messages Fragment FragmentCorrect Headers.

(** ** Offsets *)

Definition _flagsIndex : nat := 0.
Definition _ttlIndex : nat := 1.
Definition _ttlLen : nat := 4.
Definition _serviceLenIndex : nat := _spanIndex + _spanLength.
Definition _serviceNameIndex : nat := _serviceLenIndex + 1.
Definition _resCodeOK : byte := x00.
Definition _resCodeIndex : nat := 1.
Definition _errCodeIndex : nat := 0.

Definition _tchanThriftValueBytes : bytes := str "thrift".

(** ** Frames *)

(** [f.Payload[_flagsIndex]&hasMoreFragmentsFlag != 0] *)
Definition more_bit (flags : byte) : bool :=
  negb (Z.land (Z_of_byte flags) (Z_of_byte hasMoreFragmentsFlag) =? 0).

Definition frameHasMoreFragments (f : Frame) : go bool :=
  flags ← index (Payload f) _flagsIndex;
  Ret (more_bit flags).

Definition isCallResOK (f : Frame) : go bool :=
  code ← index (Payload f) _resCodeIndex;
  Ret (bool_decide (code = _resCodeOK)).

Definition finishesCall (f : Frame) : go bool :=
  let t := MessageType (Header f) in
  if bool_decide (t = messageTypeError) then Ret true
  else if bool_decide (t = messageTypeCallRes) || bool_decide (t = messageTypeCallResContinue) then
    more ← frameHasMoreFragments f;
    Ret (negb more)
  else Ret false.

(** ** lazyError *)

Record lazyError := mkLazyError { le_Frame : Frame }.

Definition newLazyError (f : Frame) : go lazyError :=
  if bool_decide (MessageType (Header f) = messageTypeError) then Ret (mkLazyError f) else Panic.

Definition lazyError_Code (e : lazyError) : go byte := index (Payload (le_Frame e)) _errCodeIndex.

(** ** The loop over the transport headers *)

Fixpoint scan_headers {A} (body : bytes → bytes → A → A) (n : nat) (a : A) : ST ReadBuffer A :=
  match n with
  | O => mret a
  | S n =>
      keyLen ← ReadSingleByte;
      key ← ReadBytes (Z.to_nat (Z_of_byte keyLen));
      valLen ← ReadSingleByte;
      val ← ReadBytes (Z.to_nat (Z_of_byte valLen));
      scan_headers body n (body (default [] key) (default [] val) a)
  end.

(** ** lazyCallRes *)

Record lazyCallRes := mkLazyCallRes {
  lr_Frame : Frame;
  lr_as : bytes;
  lr_arg2IsFragmented : bool;
  arg2Payload : bytes
}.

Definition res_header (key val as_ : bytes) : bytes :=
  if bool_decide (key = ArgScheme) then val else as_.

Definition scan_callRes (f : Frame) : GO ReadBuffer (lazyCallRes + error) :=
  _ ← glift (SkipBytes 1);
  _ ← glift (SkipBytes 1);
  _ ← glift (SkipBytes _spanLength);
  nh ← glift ReadSingleByte;
  as_ ← glift (scan_headers res_header (Z.to_nat (Z_of_byte nh)) []);
  csumtype ← glift ReadSingleByte;
  if negb (valid csumtype) then mret (inr (errInvalidChecksumType : error))
  else
    _ ← glift (SkipBytes (ChecksumSize csumtype));
    narg1 ← glift ReadUint16;
    _ ← glift (SkipBytes (Z.to_nat narg1));
    narg2 ← glift ReadUint16;
    arg2 ← glift (ReadBytes (Z.to_nat narg2));
    r ← gget;
    fragmented ← (if decide (r_BytesRemaining r = 0%nat) then gcall (frameHasMoreFragments f)
                  else mret false);
    match r_err r with
    | Some err => mret (inr (otherError (str "read response frame: " ++ Error err)))
    | None => mret (inl (mkLazyCallRes f as_ fragmented (default [] arg2)))
    end.

Definition newLazyCallRes (f : Frame) : go (lazyCallRes + error) :=
  if bool_decide (MessageType (Header f) = messageTypeCallRes) then
    sized ← SizedPayload f;
    '(res, _) ← scan_callRes f (NewReadBuffer sized);
    Ret res
  else Panic.

Definition lazyCallRes_OK (cr : lazyCallRes) : go bool := isCallResOK (lr_Frame cr).
Definition lazyCallRes_ArgScheme (cr : lazyCallRes) : bytes := lr_as cr.
Definition lazyCallRes_Arg2IsFragmented (cr : lazyCallRes) : bool := lr_arg2IsFragmented cr.
Definition lazyCallRes_Arg2 (cr : lazyCallRes) : bytes := arg2Payload cr.

(** ** lazyCallReq *)

Record KeyVal := mkKeyVal { Key : bytes; Val : bytes }.

(** The fields that the header loop fills in. *)
Record reqHeaders := mkReqHeaders { as_ : bytes; caller : bytes; delegate : bytes; key : bytes }.

Record lazyCallReq := mkLazyCallReq {
  lq_Frame : Frame;
  checksumTypeOffset : Z;
  arg2StartOffset : Z;
  arg2EndOffset : Z;
  arg3StartOffset : Z;
  lq_headers : reqHeaders;
  method : bytes;
  arg2Appends : list KeyVal;
  checksumType : byte;
  isArg2Fragmented : bool
}.

Definition req_header (k v : bytes) (h : reqHeaders) : reqHeaders :=
  if bool_decide (k = ArgScheme) then mkReqHeaders v (caller h) (delegate h) (key h)
  else if bool_decide (k = CallerName) then mkReqHeaders (as_ h) v (delegate h) (key h)
  else if bool_decide (k = RoutingDelegate) then mkReqHeaders (as_ h) (caller h) v (key h)
  else if bool_decide (k = RoutingKey) then mkReqHeaders (as_ h) (caller h) (delegate h) v
  else h.

(** The part before the checksum: everything up to the headers. *)
Definition scan_message : ST ReadBuffer reqHeaders :=
  _ ← SkipBytes _serviceLenIndex;
  serviceLen ← ReadSingleByte;
  _ ← SkipBytes (Z.to_nat (Z_of_byte serviceLen));
  numHeaders ← ReadSingleByte;
  scan_headers req_header (Z.to_nat (Z_of_byte numHeaders)) (mkReqHeaders [] [] [] []).

Definition scan_callReq (f : Frame) : GO ReadBuffer (lazyCallReq + error) :=
  hs ← glift scan_message;
  r ← gget;
  let checksumTypeOffset := uint16 (BytesRead r) in
  checksumType ← glift ReadSingleByte;
  if negb (valid checksumType) then mret (inr (errInvalidChecksumType : error))
  else
    _ ← glift (SkipBytes (ChecksumSize checksumType));
    arg1Len ← glift ReadUint16;
    method ← glift (ReadBytes (Z.to_nat arg1Len));
    arg2Len ← glift ReadUint16;
    r ← gget;
    let arg2StartOffset := uint16 (BytesRead r) in
    let arg2EndOffset := uint16 (arg2StartOffset + arg2Len) in
    _ ← glift (SkipBytes (Z.to_nat arg2Len));
    r ← gget;
    fragmented ← (if decide (r_BytesRemaining r = 0%nat) then gcall (frameHasMoreFragments f)
                  else mret false);
    _ ← (if fragmented : bool then mret tt else glift (SkipBytes 2));
    r ← gget;
    let arg3StartOffset := if fragmented : bool then 0 else uint16 (BytesRead r) in
    match r_err r with
    | Some err => mret (inr err)
    | None =>
        mret (inl (mkLazyCallReq f checksumTypeOffset arg2StartOffset arg2EndOffset
          arg3StartOffset hs (default [] method) [] checksumType fragmented))
    end.

Definition newLazyCallReq (f : Frame) : go (lazyCallReq + error) :=
  if bool_decide (MessageType (Header f) = messageTypeCallReq) then
    sized ← SizedPayload f;
    '(res, _) ← scan_callReq f (NewReadBuffer sized);
    Ret res
  else Panic.

Definition lazyCallReq_Caller (f : lazyCallReq) : bytes := caller (lq_headers f).

Definition lazyCallReq_Service (f : lazyCallReq) : go bytes :=
  l ← index (Payload (lq_Frame f)) _serviceLenIndex;
  slice (Z.of_nat _serviceNameIndex) (Z.of_nat _serviceNameIndex + Z_of_byte l) (Payload (lq_Frame f)).

Definition lazyCallReq_Method (f : lazyCallReq) : bytes := method f.
Definition lazyCallReq_RoutingDelegate (f : lazyCallReq) : bytes := delegate (lq_headers f).
Definition lazyCallReq_RoutingKey (f : lazyCallReq) : bytes := key (lq_headers f).

Definition lazyCallReq_TTL (f : lazyCallReq) : go Z :=
  b ← slice (Z.of_nat _ttlIndex) (Z.of_nat (_ttlIndex + _ttlLen)) (Payload (lq_Frame f));
  Ret (be_dec b * millisecond).

Definition lq_set_Frame (g : Frame) (f : lazyCallReq) : lazyCallReq :=
  mkLazyCallReq g (checksumTypeOffset f) (arg2StartOffset f) (arg2EndOffset f)
    (arg3StartOffset f) (lq_headers f) (method f) (arg2Appends f) (checksumType f)
    (isArg2Fragmented f).

Definition lazyCallReq_SetTTL (d : Z) (f : lazyCallReq) : go lazyCallReq :=
  _ ← slice (Z.of_nat _ttlIndex) (Z.of_nat (_ttlIndex + _ttlLen)) (Payload (lq_Frame f));
  let ttl := uint32 (Z.quot d millisecond) in
  Ret (lq_set_Frame (setPayload (splice _ttlIndex (be_enc _ttlLen ttl) (Payload (lq_Frame f)))
                       (lq_Frame f)) f).

Definition lazyCallReq_Span (f : lazyCallReq) : go Span := callReqSpan (lq_Frame f).
Definition lazyCallReq_HasMoreFragments (f : lazyCallReq) : go bool := frameHasMoreFragments (lq_Frame f).
Definition lazyCallReq_Arg2EndOffset (f : lazyCallReq) : Z * bool := (arg2EndOffset f, isArg2Fragmented f).
Definition lazyCallReq_Arg2StartOffset (f : lazyCallReq) : Z := arg2StartOffset f.

Definition lazyCallReq_arg2 (f : lazyCallReq) : go bytes :=
  slice (arg2StartOffset f) (arg2EndOffset f) (Payload (lq_Frame f)).

Definition lazyCallReq_arg3 (f : lazyCallReq) : go bytes :=
  sized ← SizedPayload (lq_Frame f);
  slice (arg3StartOffset f) (len sized) sized.

Definition lazyCallReq_Arg2Iterator (f : lazyCallReq) : go (KeyValIterator + error) :=
  if bool_decide (as_ (lq_headers f) = _tchanThriftValueBytes) then
    arg2 ← slice (arg2StartOffset f) (arg2EndOffset f) (Payload (lq_Frame f));
    Ret (NewKeyValIterator arg2)
  else Ret (inr (otherError (sentinel_text errArg2ThriftOnly ++ str ": got " ++ as_ (lq_headers f)))).

Definition lazyCallReq_Arg2Append (k v : bytes) (f : lazyCallReq) : lazyCallReq :=
  mkLazyCallReq (lq_Frame f) (checksumTypeOffset f) (arg2StartOffset f) (arg2EndOffset f)
    (arg3StartOffset f) (lq_headers f) (method f) (arg2Appends f ++ [mkKeyVal k v])
    (checksumType f) (isArg2Fragmented f).

(** ** Scanning what was encoded *)

Lemma scan_headers_reads {A} (body : bytes → bytes → A → A) l a :
  pairs_ok 256 l →
  reads (scan_headers body (length l) a) (pairs_enc pair8_enc l)
    (foldl (λ a p, body p.1 p.2 a) a l).
Proof.
  intros Hl. revert a. induction Hl as [|[k v] l [Hk Hv] Hl IH]; intros a; [apply reads_ret|].
  cbn [length scan_headers]. unfold pairs_enc. cbn [fmap list_fmap concat foldl fst snd] in *.
  unfold pair8_enc at 1. cbn [fst snd]. rewrite <- app_assoc.
  change (byte_of_Z (len k) :: k) with ([byte_of_Z (len k)] ++ k).
  change (byte_of_Z (len v) :: v) with ([byte_of_Z (len v)] ++ v). rewrite <- !app_assoc.
  eapply reads_bind; [apply ReadSingleByte_reads|].
  eapply reads_bind.
  { apply ReadBytes_reads'. rewrite Z_of_byte_of_Z, Z.mod_small by lia. lia. }
  eapply reads_bind; [apply ReadSingleByte_reads|].
  eapply (reads_bind _ _ v _ (Some v)); [|apply IH].
  apply ReadBytes_reads'. rewrite Z_of_byte_of_Z, Z.mod_small by lia. lia.
Qed.

Lemma scan_headers_rsafe {A} (body : bytes → bytes → A → A) n a : rsafe (scan_headers body n a).
Proof. revert a. induction n as [|n IH]; intros a; cbn [scan_headers]; rsafe_tac. Qed.

Definition headers_of (m : gmap bytes bytes) : reqHeaders :=
  mkReqHeaders (default [] (m !! ArgScheme)) (default [] (m !! CallerName))
    (default [] (m !! RoutingDelegate)) (default [] (m !! RoutingKey)).

Lemma req_header_insert k v m : req_header k v (headers_of m) = headers_of (<[k:=v]> m).
Proof.
  unfold req_header, headers_of. cbn [as_ caller delegate key].
  repeat case_bool_decide; subst;
    by rewrite ?lookup_insert_eq, ?lookup_insert_ne by (congruence || (vm_compute; congruence)).
Qed.

Lemma scan_req_headers l m :
  foldl (λ h p, req_header p.1 p.2 h) (headers_of m) l = headers_of (insert_pairs m l).
Proof.
  revert m. induction l as [|[k v] l IH]; intros m; [done|]. cbn [foldl fst snd].
  rewrite req_header_insert. apply IH.
Qed.

Lemma scan_res_headers l m :
  foldl (λ a p, res_header p.1 p.2 a) (default [] (m !! ArgScheme)) l
  = default [] (insert_pairs m l !! ArgScheme).
Proof.
  revert m. induction l as [|[k v] l IH]; intros m; [done|]. cbn [foldl fst snd].
  change (insert_pairs m ((k, v) :: l)) with (insert_pairs (<[k:=v]> m) l).
  rewrite <- IH. f_equal. unfold res_header. case_bool_decide; subst.
  - by rewrite lookup_insert_eq.
  - by rewrite lookup_insert_ne by congruence.
Qed.

Section scanning.
Context `{MapRange}.

Lemma headers_scan_reads {A} (body : bytes → bytes → A → A) ch a res :
  map_ok 256 ch → foldl (λ a p, body p.1 p.2 a) a (range ch) = res →
  reads (nh ← ReadSingleByte; scan_headers body (Z.to_nat (Z_of_byte nh)) a) (headers_enc ch) res.
Proof.
  intros Hok <-. unfold headers_enc. change (?b :: ?l) with ([b] ++ l).
  eapply reads_bind; [apply ReadSingleByte_reads|].
  destruct (Hok) as [Hs _]. rewrite Z_of_byte_of_Z, Z.mod_small by lia.
  rewrite Nat2Z.id, <- length_range. by apply scan_headers_reads, range_pairs_ok.
Qed.

Lemma length_fixed_part fl m :
  length ([fl] ++ be_enc 4 (Z.quot (TimeToLive m) millisecond) ++ span_enc (cr_Tracing m))
  = _serviceLenIndex.
Proof. rewrite !length_app, length_be_enc, length_span_enc. done. Qed.

Lemma scan_message_reads fl m :
  callReq_ok m → reads scan_message ([fl] ++ callReq_enc m) (headers_of (cr_Headers m)).
Proof.
  intros (_ & _ & Hv & Hh). unfold scan_message, callReq_enc. rewrite !(app_assoc [fl]).
  rewrite <- (app_assoc [fl]), (app_assoc (be_enc _ _)), (app_assoc [fl]).
  change (byte_of_Z (len (Service m)) :: Service m)
    with ([byte_of_Z (len (Service m))] ++ Service m). rewrite <- !(app_assoc [byte_of_Z _]).
  eapply reads_bind; [apply SkipBytes_reads, length_fixed_part|].
  eapply reads_bind; [apply ReadSingleByte_reads|].
  eapply reads_bind.
  { apply SkipBytes_reads. rewrite Z_of_byte_of_Z, Z.mod_small by lia. lia. }
  apply headers_scan_reads; [done|].
  change (mkReqHeaders [] [] [] []) with (headers_of ∅). rewrite scan_req_headers.
  by rewrite (insert_pairs_perm _ (cr_Headers m)) by apply range_perm.
Qed.

(** The frame [g] carries the first fragment [f] of the call [m]: the message, the
    checksum type [t], a checksum, and the chunks [cks]. *)
Definition first_fragment (g : Frame) (m : callReq) (t : byte) (f : fragment) : Prop :=
  sent_as g f ∧ MessageType (Header g) = messageTypeCallReq ∧ callReq_ok m
  ∧ fg_mid f = callReq_enc m ++ [t] ∧ valid t = true ∧ length (fg_sum f) = ChecksumSize t
  ∧ Forall (λ d, len d < 65536) (fg_chunks f).

Lemma sent_payload g f : sent_as g f → ∃ tl, Payload g = fragment_enc f ++ tl.
Proof.
  intros (_ & _ & _ & _ & Hp & _). unfold SizedPayload, slice_to in Hp. case_decide; [|done].
  injection Hp as Hp. eexists. by rewrite <- Hp, take_drop.
Qed.

Lemma sent_flags g f : sent_as g f → frameHasMoreFragments g = Ret (more_bit (fg_flags f)).
Proof. intros Hg. destruct (sent_payload g f Hg) as [tl Htl]. unfold frameHasMoreFragments. by rewrite Htl. Qed.

Lemma chunks_enc_cons d l : chunks_enc (d :: l) = be_enc 2 (len d) ++ d ++ chunks_enc l.
Proof. unfold chunks_enc. cbn [fmap list_fmap concat]. unfold chunk_enc at 1. by rewrite <- app_assoc. Qed.

Lemma chunks_enc_nil l : length (chunks_enc l) = 0%nat ↔ l = [].
Proof.
  split; [|by intros ->]. destruct l as [|d l]; [done|].
  rewrite chunks_enc_cons, length_app, length_be_enc. lia.
Qed.

(** Where arg2 starts in the payload. *)
Definition arg2_start (m : callReq) (t : byte) (f : fragment) (method : bytes) : Z :=
  len ([fg_flags f] ++ callReq_enc m ++ [t] ++ fg_sum f ++ be_enc 2 (len method) ++ method
       ++ be_enc 2 0).

Lemma newLazyCallReq_spec g m t f method arg2 rest :
  first_fragment g m t f → fg_chunks f = method :: arg2 :: rest →
  newLazyCallReq g = Ret (
    if bool_decide (rest = []) && negb (more_bit (fg_flags f)) then inr (ErrEOF : error)
    else inl (mkLazyCallReq g (1 + len (callReq_enc m)) (arg2_start m t f method)
      (arg2_start m t f method + len arg2)
      (if bool_decide (rest = []) then 0 else arg2_start m t f method + len arg2 + 2)
      (headers_of (cr_Headers m)) method [] t (bool_decide (rest = [])))).
Proof.
  intros (Hg & Hty & Hm & Hmid & Hv & Hsum & Hck) Hcks.
  pose proof (sent_flags g f Hg) as Hmore.
  destruct Hg as (_ & _ & _ & _ & Hsized & Hlen).
  unfold newLazyCallReq. rewrite bool_decide_eq_true_2 by done. rewrite Hsized.
  cbn [mbind go_bind]. set (n := len (fragment_enc f)) in *.
  assert (Henc : fragment_enc f = ([fg_flags f] ++ callReq_enc m) ++ [t] ++ fg_sum f
    ++ be_enc 2 (len method) ++ method ++ be_enc 2 (len arg2) ++ arg2 ++ chunks_enc rest).
  { unfold fragment_enc. rewrite Hmid, Hcks, !chunks_enc_cons, <- !app_assoc. done. }
  rewrite Hcks in Hck. apply Forall_cons in Hck as [Hl1 Hck].
  apply Forall_cons in Hck as [Hl2 Hck].
  assert (Hn : n = 1 + len (callReq_enc m) + 1 + len (fg_sum f) + 2 + len method + 2 + len arg2
    + len (chunks_enc rest)).
  { unfold n. rewrite Henc, !length_app, !length_be_enc. simpl. lia. }
  assert (Hst : arg2_start m t f method
    = 1 + len (callReq_enc m) + 1 + len (fg_sum f) + 2 + len method + 2).
  { unfold arg2_start. rewrite !length_app, !length_be_enc. simpl. lia. }
  unfold NewReadBuffer. fold n. rewrite Henc. unfold scan_callReq.
  erewrite glift_run by (by apply scan_message_reads). run_step.
  unfold BytesRead. cbn [initialLength r_remaining].
  rewrite !length_app, !length_be_enc. cbn [length].
  erewrite glift_run by apply ReadSingleByte_reads. rewrite Hv. cbn [negb].
  erewrite glift_run by (by apply SkipBytes_reads).
  erewrite glift_run by (apply ReadUint16_reads; lia).
  erewrite glift_run by (apply ReadBytes_reads'; lia).
  erewrite glift_run by (apply ReadUint16_reads; lia).
  run_step. cbn [initialLength r_remaining]. rewrite length_app.
  erewrite glift_run by (apply SkipBytes_reads; lia). run_step.
  unfold r_BytesRemaining, r_Remaining. cbn [r_remaining].
  rewrite !uint16_small by frame_lia.
  replace (n - _) with (1 + len (callReq_enc m)) by lia.
  replace (n - _) with (arg2_start m t f method) by lia.
  destruct (bool_decide_reflect (rest = [])) as [->|Hr].
  - change (chunks_enc []) with (@nil byte). cbn [length]. rewrite decide_True by done.
    unfold gcall. rewrite Hmore. unfold mbind at 1, gost_bind at 1.
    destruct (more_bit (fg_flags f)); done.
  - rewrite decide_False by (by rewrite chunks_enc_nil). run_step.
    destruct rest as [|a3 rest]; [done|]. rewrite chunks_enc_cons in *.
    rewrite length_app, length_be_enc in Hn.
    erewrite glift_run by (apply SkipBytes_reads, length_be_enc). run_step.
    cbn [initialLength r_remaining r_err]. rewrite uint16_small by frame_lia.
    cbn [andb]. unfold mbind, go_bind, mret, gost_ret. do 4 f_equal. lia.
Qed.

Lemma lazyCallReq_scanned g m t f method arg2 rest :
  first_fragment g m t f → fg_chunks f = method :: arg2 :: rest → rest ≠ [] →
  ∃ cr, newLazyCallReq g = Ret (inl cr).
Proof.
  intros Hf Hck Hr. rewrite (newLazyCallReq_spec _ _ _ _ _ _ _ Hf Hck).
  rewrite bool_decide_eq_false_2 by done. by eexists.
Qed.

(** The pieces of the payload of a first fragment. *)
Lemma first_fragment_payload g m t f : first_fragment g m t f → ∃ tl,
  Payload g = [fg_flags f] ++ be_enc 4 (Z.quot (TimeToLive m) millisecond)
    ++ span_enc (cr_Tracing m) ++ [byte_of_Z (len (Service m))] ++ Service m
    ++ headers_enc (cr_Headers m) ++ [t] ++ fg_sum f ++ chunks_enc (fg_chunks f) ++ tl.
Proof.
  intros (Hg & _ & _ & Hmid & _). destruct (sent_payload g f Hg) as [tl Htl].
  exists tl. rewrite Htl. unfold fragment_enc. rewrite Hmid. unfold callReq_enc.
  change (byte_of_Z (len (Service m)) :: Service m)
    with ([byte_of_Z (len (Service m))] ++ Service m).
  by rewrite <- !app_assoc.
Qed.

Lemma TTL_spec g m t f cr :
  first_fragment g m t f → lq_Frame cr = g →
  lazyCallReq_TTL cr = Ret (Z.quot (TimeToLive m) millisecond * millisecond).
Proof.
  intros Hf Hcr. destruct (first_fragment_payload _ _ _ _ Hf) as [tl Htl].
  destruct Hf as (_ & _ & (Ht & _) & _). unfold lazyCallReq_TTL. rewrite Hcr, Htl.
  rewrite (slice_app [_] (be_enc 4 _)); [|done|by rewrite length_be_enc].
  cbn [mbind go_bind]. by rewrite be_dec_enc, Z.mod_small by done.
Qed.

Lemma Span_spec g m t f cr :
  first_fragment g m t f → lq_Frame cr = g → lazyCallReq_Span cr = Ret (cr_Tracing m).
Proof.
  intros Hf Hcr. destruct (first_fragment_payload _ _ _ _ Hf) as [tl Htl].
  destruct Hf as (_ & _ & (_ & Hs & _) & _). unfold lazyCallReq_Span, callReqSpan.
  rewrite Hcr, Htl, (app_assoc (be_enc _ _)), (app_assoc [_]).
  pose proof (length_fixed_part (fg_flags f) m) as Hl.
  rewrite slice_to_fits by (rewrite length_app, Hl; unfold _serviceLenIndex, _spanIndex, _spanLength; lia).
  rewrite take_app_length' by (by rewrite Hl). cbn [mbind go_bind].
  rewrite (app_assoc [_]), drop_app_length' by (by rewrite length_app, length_be_enc).
  pose proof (Span_read_reads emptySpan _ Hs (len (span_enc (cr_Tracing m))) []) as Hr.
  rewrite app_nil_r in Hr. unfold NewReadBuffer. by rewrite Hr.
Qed.

Lemma Service_spec g m t f cr :
  first_fragment g m t f → lq_Frame cr = g → lazyCallReq_Service cr = Ret (Service m).
Proof.
  intros Hf Hcr. destruct (first_fragment_payload _ _ _ _ Hf) as [tl Htl].
  destruct Hf as (_ & _ & (_ & _ & Hv & _) & _). unfold lazyCallReq_Service.
  rewrite Hcr, Htl, (app_assoc (be_enc _ _)), (app_assoc [_]).
  pose proof (length_fixed_part (fg_flags f) m) as Hl. rewrite <- Hl at 1.
  match type of Hl with length ?p = _ => set (pre := p) in * end.
  cbn [app]. rewrite index_app. cbn [mbind go_bind].
  rewrite Z_of_byte_of_Z, Z.mod_small by lia. rewrite cons_middle, app_assoc.
  apply slice_app; [|lia]. rewrite length_app, Hl. done.
Qed.

Lemma arg2_spec g m t f method arg2 rest cr :
  first_fragment g m t f → fg_chunks f = method :: arg2 :: rest → lq_Frame cr = g →
  arg2StartOffset cr = arg2_start m t f method → arg2EndOffset cr = arg2StartOffset cr + len arg2 →
  lazyCallReq_arg2 cr = Ret arg2.
Proof.
  intros Hf Hck Hcr Hs He. destruct Hf as (Hg & _ & _ & Hmid & _).
  destruct (sent_payload g f Hg) as [tl Htl]. unfold lazyCallReq_arg2. rewrite Hcr, Htl.
  assert (Henc : fragment_enc f ++ tl = ([fg_flags f] ++ (callReq_enc m ++ [t]) ++ fg_sum f
    ++ be_enc 2 (len method) ++ method ++ be_enc 2 (len arg2)) ++ arg2 ++ chunks_enc rest ++ tl).
  { unfold fragment_enc. rewrite Hmid, Hck, !chunks_enc_cons. by rewrite <- !app_assoc. }
  rewrite Henc. apply slice_app; [|done].
  rewrite Hs. unfold arg2_start. rewrite !length_app, !length_be_enc. simpl. lia.
Qed.

Lemma arg3_spec g m t f method arg2 arg3 cr :
  first_fragment g m t f → fg_chunks f = [method; arg2; arg3] → lq_Frame cr = g →
  arg3StartOffset cr = arg2_start m t f method + len arg2 + 2 →
  lazyCallReq_arg3 cr = Ret arg3.
Proof.
  intros Hf Hck Hcr Hs. destruct Hf as (Hg & _ & _ & Hmid & _).
  destruct Hg as (_ & _ & _ & _ & Hsized & _). unfold lazyCallReq_arg3. rewrite Hcr, Hsized.
  cbn [mbind go_bind].
  assert (Henc : fragment_enc f = ([fg_flags f] ++ (callReq_enc m ++ [t]) ++ fg_sum f
    ++ be_enc 2 (len method) ++ method ++ be_enc 2 (len arg2) ++ arg2 ++ be_enc 2 (len arg3))
    ++ arg3 ++ []).
  { unfold fragment_enc. rewrite Hmid, Hck, !chunks_enc_cons.
    change (chunks_enc []) with (@nil byte). by rewrite <- !app_assoc. }
  rewrite Henc. apply slice_app.
  - rewrite Hs. unfold arg2_start. rewrite !length_app, !length_be_enc. simpl. lia.
  - rewrite Hs. unfold arg2_start. rewrite !length_app, !length_be_enc. simpl. lia.
Qed.

(** C34: the relay's view of a call agrees with what the caller encoded.  For a frame
    that carries the first fragment of the call [m], with arg1 and arg2 (or its
    first piece) in it, the scan succeeds and the accessors return the service, the
    headers, the time to live (in whole milliseconds) and the span of [m], the
    chunks of arg1 and arg2, whether arg2 may go on in the next frame, and arg3 when
    the frame holds it all. *)
Theorem lazyCallReq_agrees g m t f method arg2 rest :
  first_fragment g m t f → fg_chunks f = method :: arg2 :: rest →
  rest ≠ [] ∨ more_bit (fg_flags f) = true →
  ∃ cr, newLazyCallReq g = Ret (inl cr)
  ∧ lazyCallReq_Service cr = Ret (Service m)
  ∧ lazyCallReq_Caller cr = default [] (cr_Headers m !! CallerName)
  ∧ lazyCallReq_RoutingDelegate cr = default [] (cr_Headers m !! RoutingDelegate)
  ∧ lazyCallReq_RoutingKey cr = default [] (cr_Headers m !! RoutingKey)
  ∧ as_ (lq_headers cr) = default [] (cr_Headers m !! ArgScheme)
  ∧ lazyCallReq_TTL cr = Ret (Z.quot (TimeToLive m) millisecond * millisecond)
  ∧ lazyCallReq_Span cr = Ret (cr_Tracing m)
  ∧ lazyCallReq_HasMoreFragments cr = Ret (more_bit (fg_flags f))
  ∧ lazyCallReq_Method cr = method ∧ lazyCallReq_arg2 cr = Ret arg2
  ∧ (lazyCallReq_Arg2EndOffset cr).2 = bool_decide (rest = [])
  ∧ (∀ arg3, rest = [arg3] → lazyCallReq_arg3 cr = Ret arg3).
Proof.
  intros Hf Hck Hmore. pose proof (newLazyCallReq_spec _ _ _ _ _ _ _ Hf Hck) as Hnew.
  assert (bool_decide (rest = []) && negb (more_bit (fg_flags f)) = false) as Hb.
  { case_bool_decide; [|done]. by destruct Hmore as [?| ->]. }
  rewrite Hb in Hnew.
  eexists. split; [exact Hnew|]. split_and!; try reflexivity.
  - by eapply Service_spec.
  - by eapply TTL_spec.
  - by eapply Span_spec.
  - by apply sent_flags, Hf.
  - by eapply arg2_spec.
  - intros arg3 ->. by eapply arg3_spec.
Qed.
(** the relay's view of a response agrees with what the callee encoded: for a
    frame that carries the first fragment of the response [m] with arg1 and arg2 in
    it, the scan returns the arg scheme header, the response code, the chunk of
    arg2, and whether arg2 may go on in the next frame. *)
Theorem lazyCallRes_agrees g m t f arg1 arg2 rest :
  sent_as g f → MessageType (Header g) = messageTypeCallRes → callRes_ok m →
  fg_mid f = callRes_enc m ++ [t] → valid t = true → length (fg_sum f) = ChecksumSize t →
  fg_chunks f = arg1 :: arg2 :: rest → Forall (λ d, len d < 65536) (fg_chunks f) →
  ∃ cr, newLazyCallRes g = Ret (inl cr)
  ∧ lazyCallRes_OK cr = Ret (bool_decide (ResponseCode m = responseOK))
  ∧ lazyCallRes_ArgScheme cr = default [] (cs_Headers m !! ArgScheme)
  ∧ lazyCallRes_Arg2 cr = arg2
  ∧ lazyCallRes_Arg2IsFragmented cr = bool_decide (rest = []) && more_bit (fg_flags f).
Proof.
  intros Hg Hty (_ & Hh) Hmid Hv Hsum Hcks Hck. pose proof (sent_flags g f Hg) as Hmore.
  destruct (sent_payload g f Hg) as [tl Htl].
  assert (Henc : fragment_enc f = [fg_flags f] ++ [ResponseCode m] ++ span_enc (cs_Tracing m)
    ++ headers_enc (cs_Headers m) ++ [t] ++ fg_sum f
    ++ be_enc 2 (len arg1) ++ arg1 ++ be_enc 2 (len arg2) ++ arg2 ++ chunks_enc rest).
  { unfold fragment_enc. rewrite Hmid, Hcks, !chunks_enc_cons. unfold callRes_enc.
    by rewrite <- !app_assoc. }
  rewrite Hcks in Hck. apply Forall_cons in Hck as [Hl1 Hck]. apply Forall_cons in Hck as [Hl2 _].
  destruct Hg as (_ & _ & _ & _ & Hsized & _).
  unfold newLazyCallRes. rewrite bool_decide_eq_true_2 by done. rewrite Hsized.
  cbn [mbind go_bind]. unfold NewReadBuffer. set (n := len (fragment_enc f)). rewrite Henc. unfold scan_callRes.
  erewrite glift_run by (by apply SkipBytes_reads). erewrite glift_run by (by apply SkipBytes_reads).
  erewrite glift_run by (apply SkipBytes_reads, length_span_enc).
  unfold headers_enc. change (?b :: pairs_enc ?e ?l) with ([b] ++ pairs_enc e l).
  rewrite <- (app_assoc [byte_of_Z _]). erewrite glift_run by apply ReadSingleByte_reads.
  destruct (Hh) as [Hs _]. rewrite Z_of_byte_of_Z, Z.mod_small, Nat2Z.id, <- length_range by lia.
  erewrite glift_run by (by apply scan_headers_reads, range_pairs_ok).
  erewrite glift_run by apply ReadSingleByte_reads. rewrite Hv. cbn [negb].
  erewrite glift_run by (by apply SkipBytes_reads).
  erewrite glift_run by (apply ReadUint16_reads; lia).
  erewrite glift_run by (apply SkipBytes_reads; lia).
  erewrite glift_run by (apply ReadUint16_reads; lia).
  erewrite glift_run by (apply ReadBytes_reads'; lia). run_step.
  unfold r_BytesRemaining, r_Remaining. cbn [r_remaining r_err].
  pose proof (scan_res_headers (range (cs_Headers m)) ∅) as Has. cbn [default] in Has.
  change (default [] ((∅ : gmap bytes bytes) !! ArgScheme)) with (@nil byte) in Has. rewrite Has.
  rewrite (insert_pairs_perm _ (cs_Headers m)) by apply range_perm. clear Has.
  assert (Hok : isCallResOK g = Ret (bool_decide (ResponseCode m = responseOK))).
  { unfold isCallResOK. by rewrite Htl, Henc. }
  destruct (bool_decide_reflect (rest = [])) as [->|Hr].
  - rewrite decide_True by done. unfold gcall. rewrite Hmore. eexists. by split.
  - rewrite decide_False by (by rewrite chunks_enc_nil). eexists. by split.
Qed.

(** Replacing bytes of the payload of a frame that carries a fragment. *)
Lemma sent_as_patch g f f' pre old new post :
  sent_as g f → fragment_enc f = pre ++ old ++ post → fragment_enc f' = pre ++ new ++ post →
  length new = length old → fg_hdr f' = fg_hdr f →
  sent_as (setPayload (splice (length pre) new (Payload g)) g) f'.
Proof.
  intros Hg He He' Hl Hh. destruct (sent_payload g f Hg) as [tl Htl].
  destruct Hg as ((Hb & Hr) & H2 & H3 & H4 & H5 & H6).
  assert (HL : length (fragment_enc f') = length (fragment_enc f))
    by (rewrite He, He', !length_app; lia).
  assert (HPl : length (Payload g) = (length (buffer g) - 16)%nat) by (unfold Payload; by rewrite length_drop).
  assert (Hspl : splice (length pre) new (Payload g) = fragment_enc f' ++ tl).
  { rewrite Htl, He, He', <- !app_assoc. rewrite splice_fits by (rewrite !length_app; lia).
    rewrite take_app_length, (app_assoc pre old), drop_app_length'; [done|].
    rewrite length_app. lia. }
  rewrite Hspl. set (g' := setPayload _ g).
  assert (HP : Payload g' = fragment_enc f' ++ tl).
  { unfold g', setPayload, Payload. cbn [buffer].
    assert (length (fragment_enc f' ++ tl) = (length (buffer g) - 16)%nat) as HLL
      by (rewrite length_app, HL, <- length_app, <- Htl; done).
    rewrite splice_fits by (rewrite HLL; frame_lia).
    rewrite drop_app_length' by (rewrite length_take; frame_lia).
    rewrite drop_ge by (rewrite HLL; frame_lia). by rewrite app_nil_r. }
  unfold sent_as. rewrite Hh, HL. split_and!; try done.
  - split; [|done]. unfold g', setPayload. cbn [buffer]. rewrite length_splice; [done|frame_lia].
  - unfold SizedPayload in *. rewrite HP. change (Header g') with (Header g).
    rewrite Htl in H5. unfold slice_to in *. rewrite length_app, HL, <- length_app.
    case_decide as Hz; [|done]. apply (f_equal (λ x, match x with Ret l => length l | _ => 0%nat end)) in H5.
    rewrite length_take in H5. f_equal. apply take_app_length'. rewrite HL, <- H5.
    rewrite length_app in *. lia.
Qed.

Definition with_ttl (d : Z) (m : callReq) : callReq :=
  mkCallReq (cr_id m) d (cr_Tracing m) (cr_Headers m) (Service m).

Definition with_mid (mid : bytes) (f : fragment) : fragment :=
  mkFragment (fg_hdr f) (fg_flags f) mid (fg_sum f) (fg_chunks f).

(** SetTTL changes the time to live of the call in the frame and nothing else:
    the frame then carries the first fragment of the same call with the new value,
    with the same flags, checksum and chunks, and the offsets stay what they
    were. *)
Theorem SetTTL_changes_ttl g m t f cr d :
  first_fragment g m t f → lq_Frame cr = g → 0 <= Z.quot d millisecond < 2^32 →
  ∃ cr', lazyCallReq_SetTTL d cr = Ret cr' ∧ cr' = lq_set_Frame (lq_Frame cr') cr
  ∧ Header (lq_Frame cr') = Header g
  ∧ lazyCallReq_TTL cr' = Ret (Z.quot d millisecond * millisecond)
  ∧ first_fragment (lq_Frame cr') (with_ttl d m) t
      (with_mid (callReq_enc (with_ttl d m) ++ [t]) f).
Proof.
  intros Hf Hcr Hd. pose proof Hf as (Hg & Hty & Hm & Hmid & Hv & Hsum & Hck).
  set (m' := with_ttl d m). set (f' := with_mid _ f).
  set (post := span_enc (cr_Tracing m) ++ (byte_of_Z (len (Service m)) :: Service m)
    ++ headers_enc (cr_Headers m) ++ [t] ++ fg_sum f ++ chunks_enc (fg_chunks f)).
  assert (Henc : fragment_enc f = [fg_flags f] ++ be_enc 4 (Z.quot (TimeToLive m) millisecond) ++ post).
  { unfold fragment_enc, post. rewrite Hmid. unfold callReq_enc. by rewrite <- !app_assoc. }
  assert (Henc' : fragment_enc f' = [fg_flags f] ++ be_enc 4 (Z.quot d millisecond) ++ post).
  { unfold fragment_enc, post, f', callReq_enc. cbn [with_mid fg_flags fg_mid fg_sum fg_chunks].
    by rewrite <- !app_assoc. }
  set (g' := setPayload (splice 1 (be_enc 4 (Z.quot d millisecond)) (Payload g)) g).
  assert (Hff : first_fragment g' m' t f').
  { split; [|split_and!; [done| |reflexivity|done..]].
    - eapply (sent_as_patch g f f' [fg_flags f]); [done|exact Henc|exact Henc'|by rewrite !length_be_enc|done].
    - destruct Hm as (_ & ? & ? & ?). split; [exact Hd|by split_and!]. }
  exists (lq_set_Frame g' cr). split.
  - unfold lazyCallReq_SetTTL. rewrite Hcr. destruct (sent_payload g f Hg) as [tl Htl].
    unfold _ttlIndex, _ttlLen.
    rewrite slice_fits by (rewrite ?Htl, ?Henc, ?length_app, ?length_be_enc; cbn [length]; lia).
    cbn [mbind go_bind]. by rewrite uint32_small by done.
  - split_and!; [done..| |done]. by apply (TTL_spec _ _ _ _ (lq_set_Frame g' cr) Hff).
Qed.
End scanning.

(** ** Arbitrary frames *)

(** When the reads of [m] succeed they consume at least [k] bytes. *)
Definition eats {A} (m : ST ReadBuffer A) (k : nat) : Prop :=
  ∀ r a r', m r = (a, r') → r_err r' = None →
  r_err r = None ∧ initialLength r' = initialLength r
  ∧ (k + length (r_remaining r') <= length (r_remaining r))%nat.

Lemma eats_le {A} (m : ST ReadBuffer A) k k' : (k' <= k)%nat → eats m k → eats m k'.
Proof. intros Hk Hm r a r' E He. destruct (Hm r a r' E He) as (? & ? & ?). split_and!; [done..|lia]. Qed.

Lemma eats_bind {A B} (m : ST ReadBuffer A) (f : A → ST ReadBuffer B) k1 k2 :
  eats m k1 → (∀ a, eats (f a) k2) → eats (m ≫= f) (k1 + k2).
Proof.
  intros H1 H2 r b r' E He. unfold mbind, st_bind in E. destruct (m r) as [a r1] eqn:E1.
  destruct (H2 a r1 b r' E He) as (He1 & L1 & R1). destruct (H1 r a r1 E1 He1) as (He0 & L0 & R0).
  split_and!; [done|congruence|lia].
Qed.

Lemma eats_rsafe {A} (m : ST ReadBuffer A) : rsafe m → eats m 0.
Proof.
  intros Hm r a r' E He. destruct (Hm r) as (pre & Hp & Hl & Hs). rewrite E in *.
  cbn [snd] in *. split_and!; [|done|].
  - destruct (r_err r) as [e|] eqn:Er; [|done]. rewrite Hs in He by done. congruence.
  - rewrite Hp, length_app. lia.
Qed.

Lemma eats_SkipBytes n : eats (SkipBytes n) n.
Proof.
  intros r a r' E He. unfold SkipBytes in E. destruct (r_err r) eqn:Er; [by simplify_eq|].
  case_decide; simplify_eq/=. rewrite length_drop.
  split_and!; (done || lia).
Qed.

Lemma eats_ReadBytes n : eats (ReadBytes n) n.
Proof.
  intros r a r' E He. unfold ReadBytes in E. destruct (r_err r) eqn:Er; [by simplify_eq/=|].
  case_decide; simplify_eq/=. rewrite length_drop. split_and!; (done || lia).
Qed.

Lemma eats_ReadUint16 : eats ReadUint16 2.
Proof.
  apply (eats_bind _ _ 2 0); [apply eats_ReadBytes|]. intros []; apply eats_rsafe, rsafe_ret.
Qed.

Lemma eats_ReadSingleByte : eats ReadSingleByte 1.
Proof.
  intros [n l [e|]] a r' E He; unfold ReadSingleByte, ReadByte in E; cbn in E;
    [|destruct l as [|b l]; cbn in E]; by injection E as <- <-.
Qed.

Lemma eats_scan_message : eats scan_message 32.
Proof.
  apply (eats_bind _ _ 30 2); [apply eats_SkipBytes|]. intros [].
  apply (eats_bind _ _ 1 1); [apply eats_ReadSingleByte|]. intros b.
  apply (eats_bind _ _ 0 1); [eapply eats_le, eats_SkipBytes; lia|]. intros [].
  apply (eats_bind _ _ 1 0); [apply eats_ReadSingleByte|]. intros n.
  apply eats_rsafe, scan_headers_rsafe.
Qed.

Lemma ReadUint16_range r a r' : ReadUint16 r = (a, r') → 0 <= a < 65536.
Proof.
  unfold ReadUint16, ReadBytes, mbind, st_bind. destruct (r_err r); [by intros [= <- <-]|].
  case_decide as Hd; intros [= <- <-]; [done|].
  pose proof (be_dec_range (take 2 (r_remaining r))) as Hr.
  rewrite length_take, Nat.min_l in Hr by lia. exact Hr.
Qed.

Lemma glift_bind_eq {S A B} (m : ST S A) (f : A → GO S B) (s : S) :
  (glift m ≫= f) s = f (m s).1 (m s).2.
Proof. unfold glift, mbind, gost_bind. by destruct (m s). Qed.

Lemma gget_bind_eq {S B} (f : S → GO S B) (s : S) : (gget ≫= f) s = f s s.
Proof. done. Qed.

Definition offsets_ok (size : Z) (cr : lazyCallReq) : Prop :=
  Z.of_nat _serviceLenIndex + 2 <= checksumTypeOffset cr
  ∧ checksumTypeOffset cr + 1 + Z.of_nat (ChecksumSize (checksumType cr)) + 2 + len (method cr) + 2
    <= arg2StartOffset cr
  ∧ arg2StartOffset cr <= arg2EndOffset cr <= size
  ∧ (isArg2Fragmented cr = false → arg2EndOffset cr + 2 <= arg3StartOffset cr <= size)
  ∧ (isArg2Fragmented cr = true → arg3StartOffset cr = 0)
  ∧ valid (checksumType cr) = true.

Lemma length_ReadBytes n r a r' :
  ReadBytes n r = (a, r') → r_err r' = None → length (default [] a) = n.
Proof.
  unfold ReadBytes. destruct (r_err r) eqn:Er; [intros [= <- <-]; congruence|].
  case_decide; intros [= <- <-]; [done|]. intros _. cbn [default]. unfold id. rewrite length_take. lia.
Qed.

(** Name the outcome of the next read. *)
Ltac next_read a r E :=
  rewrite glift_bind_eq;
  match goal with |- context [(?m ?s).2] => destruct (m s) as [a r] eqn:E; cbn [fst snd] end.

Lemma scan_callReq_bounds f n l :
  frame_ok f → n = len l → n <= MaxFramePayloadSize →
  ∃ res r, scan_callReq f (mkReadBuffer n l None) = Ret (res, r)
  ∧ match res with inl cr => lq_Frame cr = f ∧ arg2Appends cr = [] ∧ offsets_ok n cr | inr _ => True end.
Proof.
  intros Hf Hn Hmax. unfold scan_callReq.
  next_read hs r1 E1. rewrite gget_bind_eq. next_read t r2 E2.
  destruct (valid t) eqn:Hv; cbn [negb]; [|eexists _, _; split; [reflexivity|done]].
  next_read u r3 E3. next_read n1 r4 E4. next_read me r5 E5. next_read n2 r6 E6.
  rewrite gget_bind_eq. next_read v r7 E7. rewrite gget_bind_eq.
  pose proof (ReadUint16_range _ _ _ E6) as Hn2.
  set (ma := if decide _ then _ else _).
  assert (Hma : ∃ b, ma r7 = Ret (b, r7)).
  { unfold ma. case_decide; [|by eexists]. unfold gcall, frameHasMoreFragments, index.
    pose proof (length_Payload f Hf). destruct (Payload f) as [|x p]; [cbn in *; frame_lia|].
    by eexists. }
  destruct Hma as [b Hb]. erewrite gost_bind_run by exact Hb. clear Hb ma. cbv beta.
  assert (Hm2 : ∃ r8, (if b then mret tt else glift (SkipBytes 2)) r7 = Ret (tt, r8)
    ∧ (r_err r8 = None → r_err r7 = None ∧ initialLength r8 = initialLength r7
       ∧ ((if b then 0 else 2) + length (r_remaining r8) <= length (r_remaining r7))%nat)).
  { destruct b; [exists r7; split; [done|]; intros; split_and!; (done || lia)|].
    destruct (SkipBytes 2 r7) as [[] r8] eqn:E8. exists r8. unfold glift. rewrite E8.
    split; [done|]. intros He. by apply (eats_SkipBytes 2 _ _ _ E8). }
  destruct Hm2 as (r8 & Hr8 & H8). erewrite gost_bind_run by exact Hr8. cbv beta.
  rewrite gget_bind_eq. destruct (r_err r8) as [e|] eqn:He8; [eexists _, _; by split|].
  destruct (H8 eq_refl) as (He7 & I8 & L8).
  destruct (eats_SkipBytes _ _ _ _ E7 He7) as (He6 & I7 & L7).
  destruct (eats_ReadUint16 _ _ _ E6 He6) as (He5 & I6 & L6).
  pose proof (length_ReadBytes _ _ _ _ E5 He5) as Hlm.
  destruct (eats_ReadBytes _ _ _ _ E5 He5) as (He4 & I5 & L5).
  pose proof (ReadUint16_range _ _ _ E4) as Hn1.
  destruct (eats_ReadUint16 _ _ _ E4 He4) as (He3 & I4 & L4).
  destruct (eats_SkipBytes _ _ _ _ E3 He3) as (He2 & I3 & L3).
  destruct (eats_ReadSingleByte _ _ _ E2 He2) as (He1 & I2 & L2).
  destruct (eats_scan_message _ _ _ E1 He1) as (_ & I1 & L1).
  cbn [initialLength r_remaining] in I1, L1. unfold BytesRead.
  assert (initialLength r1 = n ∧ initialLength r6 = n ∧ initialLength r8 = n) as (-> & -> & ->)
    by (split_and!; congruence).
  rewrite !uint16_small by (destruct b; frame_lia).
  eexists _, _. split; [reflexivity|]. split; [done|]. split; [done|]. unfold offsets_ok.
  cbn [checksumTypeOffset arg2StartOffset arg2EndOffset arg3StartOffset method checksumType
       isArg2Fragmented]. unfold _serviceLenIndex, _spanIndex, _spanLength.
  split_and!; try lia; [|by destruct b|done]. intros ->. lia.
Qed.

(** What newLazyCallReq gives for a frame with any content. *)
Lemma newLazyCallReq_safe g :
  frame_ok g → FrameHeaderSize <= fh_size (Header g) <= MaxFrameSize →
  MessageType (Header g) = messageTypeCallReq →
  ∃ res, newLazyCallReq g = Ret res
  ∧ match res with
    | inr _ => True
    | inl cr => lq_Frame cr = g ∧ arg2Appends cr = [] ∧ offsets_ok (PayloadSize (Header g)) cr
        ∧ is_Ret (lazyCallReq_Service cr) ∧ is_Ret (lazyCallReq_TTL cr)
        ∧ is_Ret (lazyCallReq_Span cr) ∧ is_Ret (lazyCallReq_HasMoreFragments cr)
        ∧ is_Ret (lazyCallReq_arg2 cr) ∧ is_Ret (lazyCallReq_arg3 cr)
    end.
Proof.
  intros Hg Hsz Hty. pose proof (length_Payload g Hg) as HP.
  assert (HS : 0 <= PayloadSize (Header g) <= MaxFramePayloadSize).
  { unfold PayloadSize. rewrite uint16_small; frame_lia. }
  assert (Hsized : SizedPayload g = Ret (take (Z.to_nat (PayloadSize (Header g))) (Payload g)))
    by (apply slice_to_fits; lia).
  unfold newLazyCallReq. rewrite bool_decide_eq_true_2 by done. rewrite Hsized.
  set (sized := take _ _) in *.
  assert (Hl : PayloadSize (Header g) = len sized) by (unfold sized; rewrite length_take; lia).
  destruct (scan_callReq_bounds g _ sized Hg Hl) as (res & r & Hscan & Hres); [lia|].
  cbn [mbind go_bind]. unfold NewReadBuffer. rewrite <- Hl, Hscan. exists res. split; [done|].
  destruct res as [cr|]; [|done]. destruct Hres as (Hcr & Happ & Hok). split; [done|]. split; [done|]. split; [done|].
  unfold lazyCallReq_Service, lazyCallReq_TTL, lazyCallReq_Span, lazyCallReq_HasMoreFragments,
    lazyCallReq_arg2, lazyCallReq_arg3, callReqSpan, frameHasMoreFragments. rewrite Hcr, Hsized.
  assert (Hidx : ∀ i, (Z.of_nat i < MaxFramePayloadSize) → ∃ x, index (Payload g) i = Ret x).
  { intros i Hi. unfold index. destruct (lookup_lt_is_Some_2 (Payload g) i) as [x ->]; [lia|by eexists]. }
  destruct Hok as (H1 & H2 & H3 & H4 & H5 & _).
  destruct (Hidx _serviceLenIndex) as [l ->]; [done|].
  destruct (Hidx _flagsIndex) as [fl ->]; [done|].
  pose proof (Z_of_byte_range l). cbn [mbind go_bind].
  rewrite slice_to_fits by frame_lia.
  unfold _serviceNameIndex, _serviceLenIndex, _spanIndex, _spanLength, _ttlIndex, _ttlLen in *.
  rewrite !slice_fits; try frame_lia; try by (split_and!; eexists).
  - destruct (isArg2Fragmented cr); [rewrite H5 by done; lia|]. lia.
  - destruct (isArg2Fragmented cr); [rewrite H5 by done; lia|]. lia.
Qed.

(** C35: a relay survives any call request frame.  On a frame with arbitrary content
    newLazyCallReq returns, and when it accepts the frame every offset it remembers
    is in order and inside the payload, so that none of the accessors panics. *)
Theorem lazyCallReq_bounds g :
  frame_ok g → FrameHeaderSize <= fh_size (Header g) <= MaxFrameSize →
  MessageType (Header g) = messageTypeCallReq →
  ∃ res, newLazyCallReq g = Ret res
  ∧ match res with
    | inr _ => True
    | inl cr => offsets_ok (PayloadSize (Header g)) cr
        ∧ is_Ret (lazyCallReq_Service cr) ∧ is_Ret (lazyCallReq_TTL cr)
        ∧ is_Ret (lazyCallReq_Span cr) ∧ is_Ret (lazyCallReq_HasMoreFragments cr)
        ∧ is_Ret (lazyCallReq_arg2 cr) ∧ is_Ret (lazyCallReq_arg3 cr)
    end.
Proof.
  intros Hg Hsz Hty. destruct (newLazyCallReq_safe g Hg Hsz Hty) as (res & E & Hres).
  exists res. split; [done|]. destruct res; [apply Hres|done].
Qed.

(** ** Examples *)

(** The frame that carries the fragment [f]. *)
Definition frame_of (f : fragment) : Frame :=
  mkFrame (replicate 16 x00 ++ fragment_enc f
           ++ replicate (Z.to_nat MaxFramePayloadSize - length (fragment_enc f)) x00)
    (SetPayloadSize (len (fragment_enc f)) (fg_hdr f)).

Lemma frame_of_sent f :
  len (fragment_enc f) <= MaxFramePayloadSize → length (reserved (fg_hdr f)) = 8%nat →
  sent_as (frame_of f) f.
Proof.
  intros Hl Hr. unfold sent_as, frame_of, SizedPayload, Payload, PayloadSize, SetPayloadSize.
  cbn [buffer Header fh_size ID MessageType fh_messageType].
  rewrite (uint16_small (_ + _)) by frame_lia.
  split_and!; [split|done..| |done]; cbn [buffer Header reserved].
  - rewrite !length_app, !length_replicate. frame_lia.
  - done.
  - rewrite drop_app_length' by done. rewrite uint16_small by frame_lia.
    rewrite slice_to_fits by (rewrite length_app; lia).
    f_equal. apply take_app_length'. lia.
Qed.

Definition example_req : callReq :=
  mkCallReq 7 (2500 * millisecond) (mkSpan 3 2 1 x00)
    {[ ArgScheme := str "thrift"; CallerName := str "alice" ]} (str "bob").

Definition example_fragment : fragment :=
  mkFragment (mkFrameHeader 0 messageTypeCallReq x00 7 (replicate 8 x00)) x01
    (callReq_enc (H := storage_range) example_req ++ [ChecksumTypeNone]) []
    [str "Bob::echo"; [x00; x00]; str "body"].

Lemma example_first_fragment :
  first_fragment (H := storage_range) (frame_of example_fragment) example_req ChecksumTypeNone
    example_fragment.
Proof.
  assert (map_Forall (λ k v, len k < 256 ∧ len v < 256) (cr_Headers example_req)) as Hm.
  { apply map_Forall_insert_2; [by vm_compute|]. by apply map_Forall_singleton. }
  split; [by apply frame_of_sent; vm_compute|]. split_and!; [done| |done..|].
  - split_and!; by vm_compute.
  - by repeat constructor.
Qed.

Lemma lazyCallReq_agrees_witness :
  ∃ cr, newLazyCallReq (frame_of example_fragment) = Ret (inl cr)
  ∧ lazyCallReq_Service cr = Ret (str "bob") ∧ lazyCallReq_Caller cr = str "alice"
  ∧ lazyCallReq_Method cr = str "Bob::echo" ∧ lazyCallReq_arg3 cr = Ret (str "body").
Proof.
  destruct (lazyCallReq_agrees (H := storage_range) (frame_of example_fragment) example_req
    ChecksumTypeNone example_fragment (str "Bob::echo") [x00; x00] [str "body"])
    as (cr & Hnew & Hs & Hc & _ & _ & _ & _ & _ & _ & Hm & _ & _ & H3).
  - exact example_first_fragment.
  - reflexivity.
  - left. discriminate.
  - exists cr. split_and!; [exact Hnew|exact Hs|rewrite Hc; vm_compute; reflexivity|exact Hm|].
    apply H3. reflexivity.
Defined.

Lemma lazyCallReq_bounds_witness :
  ∃ res, newLazyCallReq (mkFrame (replicate (Z.to_nat MaxFrameSize) xff)
           (mkFrameHeader 500 messageTypeCallReq x00 7 (replicate 8 x00))) = Ret res.
Proof.
  destruct (lazyCallReq_bounds (mkFrame (replicate (Z.to_nat MaxFrameSize) xff)
    (mkFrameHeader 500 messageTypeCallReq x00 7 (replicate 8 x00)))) as (res & Hres & _).
  - split; vm_compute; reflexivity.
  - vm_compute. split; discriminate.
  - reflexivity.
  - exists res. exact Hres.
Defined.

Lemma SetTTL_changes_ttl_witness :
  ∃ cr cr', lq_Frame cr = frame_of example_fragment
  ∧ lazyCallReq_SetTTL (1000 * millisecond) cr = Ret cr'
  ∧ lazyCallReq_TTL cr' = Ret (1000 * millisecond).
Proof.
  set (cr := mkLazyCallReq (frame_of example_fragment) 0 0 0 0 (mkReqHeaders [] [] [] []) [] []
    x00 false).
  destruct (SetTTL_changes_ttl (H := storage_range) (frame_of example_fragment) example_req
    ChecksumTypeNone example_fragment cr (1000 * millisecond)) as (cr' & H1 & _ & _ & H2 & _).
  - exact example_first_fragment.
  - reflexivity.
  - vm_compute. split; [discriminate|reflexivity].
  - exists cr, cr'. split; [reflexivity|]. split; [exact H1|exact H2].
Defined.

Definition example_res_fragment : fragment :=
  mkFragment (mkFrameHeader 0 messageTypeCallRes x00 7 (replicate 8 x00)) x01
    (callRes_enc (H := storage_range) (mkCallRes 7 responseOK (mkSpan 3 2 1 x00)
       {[ ArgScheme := str "raw" ]}) ++ [ChecksumTypeNone]) [] [[]; str "a2"].

Lemma lazyCallRes_agrees_witness :
  ∃ cr, newLazyCallRes (frame_of example_res_fragment) = Ret (inl cr)
  ∧ lazyCallRes_ArgScheme cr = str "raw" ∧ lazyCallRes_Arg2IsFragmented cr = true.
Proof.
  destruct (lazyCallRes_agrees (H := storage_range) (frame_of example_res_fragment)
    (mkCallRes 7 responseOK (mkSpan 3 2 1 x00) {[ ArgScheme := str "raw" ]})
    ChecksumTypeNone example_res_fragment [] (str "a2") []) as (cr & Hnew & _ & Ha & _ & Hf).
  - apply frame_of_sent; vm_compute; [discriminate|reflexivity].
  - reflexivity.
  - split; [vm_compute; split_and!; (discriminate || reflexivity)|].
    split; [vm_compute; reflexivity|]. apply map_Forall_singleton. by vm_compute.
  - reflexivity.
  - reflexivity.
  - reflexivity.
  - reflexivity.
  - repeat constructor.
  - exists cr. split_and!; [exact Hnew|exact Ha|exact Hf].
Defined.
