(* ===== verification/RelaySend.v ===== *)
(** * Sending modified calls through a relay (relay.go: the arg2 appends)

    A relay host can append key/value pairs to arg2 of a call.  The frame then no
    longer fits what was received, so the relay writes arg2 and arg3 anew with a
    fragmenting writer whose sender is a [relayFragmentSender], and recomputes the
    checksum of every frame that follows.  What the sender needs of the relayer (the
    destination's Receive, failRelayItem, the statistics) is the class [relayEnv].

    The main theorem: the destination reads the method, the pairs that were in arg2
    followed by the appended ones, and arg3, over all frames of the call. *)

From S2P Require Import Prelude Errors Buffer Checksum Frame Messages Fragment FragmentCorrect Mex ReqRes Headers LazyMessages.

(** ** Small functions of the relay *)

Inductive frameType := requestFrame | responseFrame.

#[export] Instance frameType_eq_dec : EqDecision frameType.
Proof. solve_decision. Defined.

Definition frameTypeFor (f : Frame) : go frameType :=
  let t := fh_messageType (Header f) in
  if decide (t ∈ [messageTypeCallRes; messageTypeCallResContinue; messageTypeError;
                  messageTypePingRes]) then Ret responseFrame
  else if decide (t ∈ [messageTypeCallReq; messageTypeCallReqContinue; messageTypePingReq])
  then Ret requestFrame
  else Panic.

Definition determinesCallSuccess (f : Frame) : go (bool * bytes) :=
  let t := MessageType (Header f) in
  if bool_decide (t = messageTypeError) then
    e ← newLazyError f;
    code ← lazyError_Code e;
    Ret (false, MetricsKey code)
  else if bool_decide (t = messageTypeCallRes) then
    ok ← isCallResOK f;
    Ret (if ok : bool then (true, []) else (false, str "application-error"))
  else Ret (false, []).

Definition _defaultRelayMaxTimeout : Z := 120 * 1000 * millisecond.

Definition validateRelayMaxTimeout (d : Z) : Z :=
  let maxMillis := Z.quot d millisecond in
  if decide (0 < maxMillis ∧ maxMillis <= 4294967295) then d
  else if decide (d = 0) then _defaultRelayMaxTimeout
  else _defaultRelayMaxTimeout.

Definition errFrameNotSent : error :=
  NewSystemError ErrCodeNetwork (str "frame was not sent to remote side").

(** ** writeArg2WithAppends *)

Section appends.
Context {W : Type} `{ioWriter W}.

Fixpoint write_appends (appends : list KeyVal) : GO (Writer W) unit :=
  match appends with
  | [] => mret tt
  | kv :: appends =>
      _ ← wr_WriteLen16Bytes (Key kv);
      _ ← wr_WriteLen16Bytes (Val kv);
      write_appends appends
  end.

Definition writeArg2WithAppends (arg2 : bytes) (appends : list KeyVal) : GO W (option error) :=
  if decide (len arg2 < 2) then mret (Some (errNoNHInArg2 : error))
  else λ w,
    let nh := uint16 (be_dec (take 2 arg2) + uint16 (len appends)) in
    let body :=
      _ ← wr_WriteUint16 nh;
      _ ← (if decide (2 < len arg2) then wr_WriteBytes (drop 2 arg2) else mret tt);
      write_appends appends in
    match body (NewWriter w) with
    | Ret (_, writer) => Ret (wr_Err writer, wr_writer writer)
    | Panic => Panic
    | OutOfFuel => OutOfFuel
    end.
End appends.

(** ** relayFragmentSender *)

(** Receive of the destination's relayer, failRelayItem for the call's item among
    the outbound items, and the call's SentBytes. *)
Class relayEnv (D : Type) := {
  env_Receive : Frame → frameType → GO D (bool * bytes);
  env_failRelayItem : Z → bytes → error → GO D unit;
  env_SentBytes : Z → GO D unit
}.

Record relayFragmentSender (D : Type) := mkRelayFragmentSender {
  rfs_callReq : lazyCallReq;
  rfs_framePool : FramePool;
  rfs_choice : option nat;
  rfs_env : D;
  origID : Z
}.
Arguments mkRelayFragmentSender {D}. Arguments rfs_callReq {D}. Arguments rfs_framePool {D}.
Arguments rfs_choice {D}. Arguments rfs_env {D}. Arguments origID {D}.

Section sender.
Context {D : Type} `{relayEnv D}.
Implicit Types s : relayFragmentSender D.

Definition rfs_set_pool (p : FramePool) s : relayFragmentSender D :=
  mkRelayFragmentSender (rfs_callReq s) p (rfs_choice s) (rfs_env s) (origID s).
Definition rfs_set_env (d : D) s : relayFragmentSender D :=
  mkRelayFragmentSender (rfs_callReq s) (rfs_framePool s) (rfs_choice s) d (origID s).

Definition rfs_newFragment (initial : bool) (checksum : Checksum)
    : GO (relayFragmentSender D) (option writableFragment * option error * Checksum) := λ s,
  let callReq := rfs_callReq s in
  let '(frame, pool) := FramePool_Get (rfs_choice s) (rfs_framePool s) in
  let frame := set_id_type (ID (Header (lq_Frame callReq)))
    (if initial then messageTypeCallReq else messageTypeCallReqContinue) frame in
  let contents := NewWriteBuffer (Payload frame) in
  let '(flagsRef, contents) := DeferByte contents in
  flags ← index (Payload (lq_Frame callReq)) _flagsIndex;
  let contents := ByteRef_Update flagsRef flags contents in
  prefix ← (if initial then slice 1 (checksumTypeOffset callReq) (Payload (lq_Frame callReq))
            else Ret []);
  let contents := if initial then (WriteBytes prefix contents).2 else contents in
  let '(_, contents) := WriteSingleByte (TypeCode checksum) contents in
  let '(checksumRef, contents) := DeferBytes (Size checksum) contents in
  let contents := if initial
    then (WriteBytes (method callReq) (WriteUint16 (uint16 (len (method callReq))) contents).2).2
    else contents in
  let checksum := if initial then (Add (method callReq) checksum).2 else checksum in
  Ret ((Some (mkWritableFragment flagsRef checksumRef true contents frame), w_err contents, checksum),
       rfs_set_pool pool s).

Definition rfs_flushFragment (wf : writableFragment)
    : GO (relayFragmentSender D) (option error) := λ s,
  let frame := fragment_frame wf in
  '(_, env) ← env_SentBytes (FrameSize (Header frame)) (rfs_env s);
  '((sent, failure), env) ← env_Receive frame requestFrame env;
  if sent : bool then Ret (None, rfs_set_env env s)
  else
    '(_, env) ← env_failRelayItem (origID s) failure errFrameNotSent env;
    Ret (None, rfs_set_env env s).

Definition rfs_doneSending : ST (relayFragmentSender D) unit := λ s, (tt, s).

#[export] Instance relayFragmentSender_sender : fragmentSender (relayFragmentSender D) := {|
  newFragment := rfs_newFragment;
  flushFragment := rfs_flushFragment;
  doneSending := rfs_doneSending
|}.
End sender.

(** An argument writer is an io.WriteCloser. *)
#[export] Instance argWriter_writer {S} `{fragmentSender S} : ioWriter (fragmentingWriter S) := {|
  io_Write := writer_Write
|}.
#[export] Instance argWriter_closer {S} `{fragmentSender S} : ioCloser (fragmentingWriter S) := {|
  io_Close := writer_Close
|}.

(** ** fragmentingSend *)

Section fragmentingSend.
Context {D : Type} `{relayEnv D}.

(** Writing arg2 and arg3 with the fragmenting writer. *)
Definition send_args (f : lazyCallReq)
    : GO (fragmentingWriter (relayFragmentSender D)) (option error) :=
  err ← writer_ArgWriter false;
  match err with
  | Some e => mret (Some (otherError (str "get arg2 writer: " ++ Error e)))
  | None =>
      arg2 ← gcall (lazyCallReq_arg2 f);
      err ← writeArg2WithAppends arg2 (arg2Appends f);
      match err with
      | Some e => mret (Some (otherError (str "write arg2: " ++ Error e)))
      | None =>
          err ← writer_Close;
          match err with
          | Some e => mret (Some (otherError (str "close arg2 writer: " ++ Error e)))
          | None =>
              err ← writer_ArgWriter true;
              arg3 ← gcall (lazyCallReq_arg3 f);
              err ← ArgWriteHelper_Write err arg3;
              match err with
              | Some _ => mret (Some (otherError (str "arg3 write failed")))
              | None => mret None
              end
          end
      end
  end.

(** The fragmenting writer shares [mutatedChecksum] with the relay item. *)
Definition fragmentingSend (f : lazyCallReq) (mutatedChecksum : Checksum) (ps : checksumPools)
    (sender : relayFragmentSender D)
    : go (option error * fragmentingWriter (relayFragmentSender D)) :=
  let fragWriter := newFragmentingWriter sender ps mutatedChecksum in
  if isArg2Fragmented f then Ret (Some (errFragmentedArg2WithAppend : error), fragWriter)
  else if bool_decide (as_ (lq_headers f) = _tchanThriftValueBytes) then send_args f fragWriter
  else
    Ret (Some (otherError (sentinel_text errArg2ThriftOnly ++ str ": got " ++ as_ (lq_headers f))),
         fragWriter).
End fragmentingSend.

(** ** updateMutatedCallReqContinueChecksum

    The reference to the checksum is a slice of the payload, from offset 2. *)

Definition updateMutatedCallReqContinueChecksum (f : Frame) (cs : Checksum) : go (Frame * Checksum) :=
  sized ← SizedPayload f;
  let '(_, rbuf) := SkipBytes 1 (NewReadBuffer sized) in
  let '(_, rbuf) := SkipBytes 1 rbuf in
  let '(checksumRef, rbuf) := ReadBytes (Size cs) rbuf in
  let '(n, rbuf) := ReadUint16 rbuf in
  let '(data, rbuf) := ReadBytes (Z.to_nat n) rbuf in
  let cs := (Add (default [] data) cs).2 in
  Ret (match checksumRef with
       | Some ref => setPayload (splice 2 (take (length ref) (Sum cs)) (Payload f)) f
       | None => f
       end, cs).

(** ** Writing arg2 *)

Definition kv_pair (kv : KeyVal) : bytes * bytes := (Key kv, Val kv).

Section write_arg2.
Context {W : Type} `{ioWriter W} (P : W → bytes → Prop).
Hypothesis io_Write_ok : ∀ w d b, P w d → ∃ w', io_Write b w = Ret ((length b, None), w') ∧ P w' (d ++ b).

(** [wr_appends m b]: the writer is healthy and [m] writes [b]. *)
Definition wr_appends (m : GO (Writer W) unit) (b : bytes) : Prop :=
  ∀ w d, P w d → ∃ w', m (mkWriter w None) = Ret (tt, mkWriter w' None) ∧ P w' (d ++ b).

Lemma wr_write_appends b : wr_appends (wr_write b) b.
Proof.
  intros w d Hw. destruct (io_Write_ok w d b Hw) as (w' & E & HP). exists w'.
  unfold wr_write. cbn [wr_err wr_writer]. by rewrite E.
Qed.

Lemma wr_appends_bind (m1 m2 : GO (Writer W) unit) b1 b2 :
  wr_appends m1 b1 → wr_appends m2 b2 → wr_appends (_ ← m1; m2) (b1 ++ b2).
Proof.
  intros H1 H2 w d Hw. destruct (H1 w d Hw) as (w1 & E1 & P1).
  destruct (H2 w1 _ P1) as (w2 & E2 & P2). exists w2. run_with E1. by rewrite app_assoc.
Qed.

Lemma wr_ret_appends : wr_appends (mret tt) [].
Proof. intros w d Hw. exists w. by rewrite app_nil_r. Qed.

Lemma wr_WriteLen16Bytes_any b :
  wr_appends (wr_WriteLen16Bytes b) (be_enc 2 (uint16 (len b)) ++ b).
Proof.
  intros w d Hw. unfold wr_WriteLen16Bytes. cbn [wr_err].
  exact (wr_appends_bind _ _ _ _ (wr_write_appends _) (wr_write_appends _) w d Hw).
Qed.

Lemma wr_WriteLen16Bytes_appends b : len b < 65536 →
  wr_appends (wr_WriteLen16Bytes b) (be_enc 2 (len b) ++ b).
Proof. intros Hb. rewrite <- (uint16_small (len b)) at 1 by lia. apply wr_WriteLen16Bytes_any. Qed.

Lemma write_appends_appends kvs : pairs_ok 65536 (kv_pair <$> kvs) →
  wr_appends (write_appends kvs) (pairs_enc pair16_enc (kv_pair <$> kvs)).
Proof.
  unfold pairs_ok. induction kvs as [|[k v] kvs IH]; intros Hok; [apply wr_ret_appends|].
  apply Forall_cons in Hok as [[Hk Hv] Hok]. cbn [fst snd kv_pair Key Val] in Hk, Hv.
  cbn [write_appends fmap list_fmap]. unfold pairs_enc. cbn [fmap list_fmap concat].
  unfold pair16_enc at 1. cbn [fst snd kv_pair Key Val]. rewrite <- app_assoc.
  apply wr_appends_bind; [by apply wr_WriteLen16Bytes_appends|].
  apply wr_appends_bind; [by apply wr_WriteLen16Bytes_appends|]. by apply IH.
Qed.

(** Appending to an encoded list of pairs gives the encoding of the longer list. *)
Lemma writeArg2WithAppends_spec l kvs w d :
  pairs_ok 65536 l → pairs_ok 65536 (kv_pair <$> kvs) → len l + len kvs < 65536 → P w d →
  ∃ w', writeArg2WithAppends (kvs_enc l) kvs w = Ret (None, w')
  ∧ P w' (d ++ kvs_enc (l ++ (kv_pair <$> kvs))).
Proof.
  intros Hl Hk Hn Hw. unfold writeArg2WithAppends, kvs_enc.
  rewrite decide_False by (rewrite length_app, length_be_enc; lia).
  rewrite take_app_length', drop_app_length' by (by rewrite length_be_enc).
  rewrite be_dec_enc, Z.mod_small, (uint16_small (len kvs)), uint16_small by lia.
  set (body := _ ≫= _).
  assert (Hbody : wr_appends body (be_enc 2 (len l + len kvs)
    ++ pairs_enc pair16_enc l ++ pairs_enc pair16_enc (kv_pair <$> kvs))).
  { apply wr_appends_bind; [apply wr_write_appends|].
    apply wr_appends_bind; [|by apply write_appends_appends].
    case_decide as Hd; [apply wr_write_appends|]. rewrite length_app, length_be_enc in Hd.
    destruct (pairs_enc pair16_enc l); [apply wr_ret_appends|cbn [length] in Hd; lia]. }
  destruct (Hbody w d Hw) as (w' & E & HP). exists w'. unfold NewWriter. rewrite E. split; [done|].
  rewrite length_app, length_fmap, Nat2Z.inj_add. unfold pairs_enc in *.
  by rewrite fmap_app, concat_app.
Qed.
End write_arg2.

(** ** The sender is a good sender *)

(** A destination that takes the frames it is given. *)
Class GoodEnv (D : Type) `{relayEnv D} := {
  env_open : D → Prop;
  env_wire : D → list Frame;
  good_SentBytes d n : env_open d → ∃ d', env_SentBytes n d = Ret (tt, d')
    ∧ env_open d' ∧ env_wire d' = env_wire d;
  good_Receive d g : env_open d → frame_ok g → ∃ d', env_Receive g requestFrame d = Ret ((true, []), d')
    ∧ env_open d' ∧ env_wire d' = env_wire d ++ [g]
}.

(** The messages of the modified call. *)
Definition relayed_msgs (m : callReq) (initial : bool) : message :=
  if initial then mCallReq m else mCallReqContinue (mkCallReqContinue 0).

Section good_sender.
Context {D : Type} `{GoodEnv D} `{MapRange}.
Context (g : Frame) (m : callReq) (t : byte) (f : fragment) (meth arg2 : bytes) (rest : list bytes).
Hypothesis (Hfirst : first_fragment g m t f).
Hypothesis (Hchunks : fg_chunks f = meth :: arg2 :: rest) (Hrest : rest ≠ []).
Hypothesis (Harg2 : (2 <= length arg2)%nat).
Context (cr : lazyCallReq).
Hypothesis (Hcr : lq_Frame cr = g ∧ checksumTypeOffset cr = 1 + len (callReq_enc m) ∧ method cr = meth).

Definition rfs_ready (s : relayFragmentSender D) : Prop :=
  rfs_callReq s = cr ∧ pool_ok (rfs_framePool s) ∧ env_open (rfs_env s).

Lemma first_frame_room :
  1 + len (callReq_enc m) + 1 + Z.of_nat (ChecksumSize t) + 2 + len meth + 6 <= MaxFramePayloadSize.
Proof.
  destruct Hfirst as ((_ & _ & _ & _ & _ & Hlen) & _ & _ & Hmid & _ & Hsum & _).
  unfold fragment_enc in Hlen. rewrite Hmid, Hchunks, !chunks_enc_cons in Hlen.
  destruct rest as [|a3 r]; [done|]. rewrite chunks_enc_cons in Hlen.
  rewrite !length_app, !length_be_enc, Hsum in Hlen. cbn [length] in Hlen. frame_lia.
Qed.

Lemma first_frame_prefix :
  slice 1 (checksumTypeOffset cr) (Payload (lq_Frame cr)) = Ret (callReq_enc m).
Proof.
  destruct Hfirst as (Hg & _ & _ & Hmid & _). destruct Hcr as (-> & -> & _).
  destruct (sent_payload g f Hg) as [tl ->]. unfold fragment_enc. rewrite Hmid, <- !app_assoc.
  by apply (slice_app [fg_flags f] (callReq_enc m)).
Qed.

(** The buffer of a new fragment: what newFragment writes into it. *)
Lemma DeferByte_flags p fl : len p = MaxFramePayloadSize →
  let '(ref, w) := DeferByte (NewWriteBuffer p) in
  ref = Some 0%nat ∧ ByteRef_Update ref fl w = appended (NewWriteBuffer p) [fl].
Proof.
  intros Hp. rewrite DeferByte_spec; [|done|].
  2:{ rewrite w_BytesRemaining_eq. cbn [NewWriteBuffer w_buffer w_off]. frame_lia. }
  split; [done|]. cbn [ByteRef_Update NewWriteBuffer w_off].
  change 0%nat with (w_off (NewWriteBuffer p) + length (@nil byte))%nat.
  apply (copy_at_appended _ [] [x00] [fl] []).
  - apply NewWriteBuffer_ok.
  - rewrite w_BytesRemaining_eq. cbn. frame_lia.
  - done.
Qed.

Lemma appended_step w0 bs mm b : wbuf_ok w0 → writes mm b →
  (length (bs ++ b) <= w_BytesRemaining w0)%nat →
  mm (appended w0 bs) = (tt, appended w0 (bs ++ b)).
Proof.
  intros Hok (_ & Hm & _) Hl. rewrite length_app in Hl. rewrite Hm.
  - by rewrite appended_appended by (done || lia).
  - apply appended_ok; [done|lia].
  - done.
  - rewrite appended_remaining by (done || lia). lia.
Qed.

Lemma DeferBytes_step w0 bs n : wbuf_ok w0 →
  (length bs + n <= w_BytesRemaining w0)%nat →
  DeferBytes n (appended w0 bs)
  = (Some (w_off w0 + length bs, n)%nat, appended w0 (bs ++ replicate n x00)).
Proof.
  intros Hok Hl. unfold DeferBytes. rewrite deferred_spec.
  - rewrite appended_appended by (rewrite ?length_replicate; (done || lia)). done.
  - apply appended_ok; [done|lia].
  - done.
  - rewrite appended_remaining by (done || lia). lia.
Qed.

Definition relay_pre (initial : bool) : list bytes := if initial then [meth] else [].

Lemma meth_small : len meth < 65536.
Proof.
  destruct Hfirst as (_ & _ & _ & _ & _ & _ & Hck). rewrite Hchunks in Hck.
  by apply Forall_cons in Hck as [? _].
Qed.

(** newFragment writes the flags, the message and the checksum type, leaves room for
    the checksum, and then writes arg1 into the first fragment. *)
Definition relay_mid (initial : bool) (c : Checksum) : bytes :=
  (if initial then callReq_enc m else []) ++ [TypeCode c].

Lemma length_relay_mid initial c :
  len (relay_mid initial c) = (if initial then len (callReq_enc m) else 0) + 1.
Proof. unfold relay_mid. rewrite length_app. cbn [length]. destruct initial; [lia|done]. Qed.

Lemma relay_header_step w0 initial c :
  wbuf_ok w0 → Z.of_nat (w_BytesRemaining w0) = MaxFramePayloadSize → w_off w0 = 0%nat →
  Size c = ChecksumSize t →
  (let '(_, contents) := WriteSingleByte (TypeCode c)
      (if initial : bool then (WriteBytes (callReq_enc m) (appended w0 [fg_flags f])).2
       else appended w0 [fg_flags f]) in DeferBytes (Size c) contents)
  = (Some (1 + length (relay_mid initial c), Size c)%nat,
     appended w0 ([fg_flags f] ++ relay_mid initial c ++ replicate (Size c) x00)).
Proof.
  intros Hok0 Hrem Hoff Hsize. pose proof first_frame_room as Hroom. unfold relay_mid.
  destruct initial; cbn [app] in *.
  - rewrite (appended_step w0 _ _ (callReq_enc m));
      [|done|auto with tchan|rewrite ?length_app; cbn [length]; frame_lia]. cbn [snd].
    rewrite (appended_step w0 _ _ [TypeCode c]);
      [|done|auto with tchan|rewrite !length_app; cbn [length]; frame_lia].
    rewrite DeferBytes_step by (rewrite ?length_app; cbn [length]; (done || frame_lia)).
    rewrite Hoff, !length_app. cbn [length]. by rewrite <- !app_assoc.
  - rewrite (appended_step w0 _ _ [TypeCode c]);
      [|done|auto with tchan|rewrite ?length_app; cbn [length]; frame_lia].
    rewrite DeferBytes_step by (cbn [length app]; (done || frame_lia)). by rewrite Hoff.
Qed.

Lemma relay_arg1_step w0 initial c :
  wbuf_ok w0 → Z.of_nat (w_BytesRemaining w0) = MaxFramePayloadSize → Size c = ChecksumSize t →
  let wd := appended w0 ([fg_flags f] ++ relay_mid initial c ++ replicate (Size c) x00) in
  (if initial then (WriteBytes meth (WriteUint16 (uint16 (len meth)) wd).2).2 else wd)
  = appended w0 ([fg_flags f] ++ relay_mid initial c ++ replicate (Size c) x00
                 ++ chunks_enc (relay_pre initial)).
Proof.
  intros Hok0 Hrem Hsize. pose proof first_frame_room as Hroom. pose proof meth_small as Hmeth.
  pose proof (length_relay_mid initial c) as Hmid. cbv zeta. destruct initial; cbn [relay_pre].
  - rewrite uint16_small by lia. rewrite chunks_enc_cons. change (chunks_enc []) with (@nil byte).
    rewrite (appended_step w0 _ _ (be_enc 2 (len meth)));
      [|done|auto with tchan|rewrite !length_app, length_replicate, length_be_enc; cbn [length]; frame_lia].
    cbn [snd]. rewrite (appended_step w0 _ _ meth);
      [|done|auto with tchan|rewrite !length_app, length_replicate, length_be_enc; cbn [length]; frame_lia].
    by rewrite app_nil_r, <- !app_assoc.
  - change (chunks_enc []) with (@nil byte). by rewrite app_nil_r.
Qed.

Lemma rfs_newFragment_spec s initial c :
  rfs_ready s → Size c = ChecksumSize t → ∃ fr s' hdr mid,
    rfs_newFragment initial c s
    = Ret ((Some fr, None, AddState (concat (relay_pre initial)) c), s')
    ∧ frag_rep fr hdr (fg_flags f) mid (replicate (Size c) x00) (chunks_enc (relay_pre initial))
    ∧ sender_mid (relayed_msgs m) (ID (Header g)) initial (TypeCode c) hdr mid
    ∧ (4 < w_BytesRemaining (f_contents fr))%nat
    ∧ rfs_ready s' ∧ env_wire (rfs_env s') = env_wire (rfs_env s).
Proof.
  intros (Hs & Hpool & Hopen) Hsize.
  pose proof first_frame_room as Hroom. pose proof meth_small as Hmeth.
  pose proof first_frame_prefix as Hpre. destruct Hcr as (Hfr & _ & Hme).
  destruct (FramePool_Get_ok (rfs_framePool s) (rfs_choice s) Hpool) as [Hf Hpool'].
  unfold rfs_newFragment. rewrite Hs.
  destruct (FramePool_Get (rfs_choice s) (rfs_framePool s)) as [fr0 pool']. cbn [fst snd] in Hf, Hpool'.
  set (fr := set_id_type _ _ fr0).
  assert (Hfok : frame_ok fr) by exact Hf. pose proof (length_Payload fr Hfok) as HP.
  pose proof (DeferByte_flags (Payload fr) (fg_flags f) HP) as Hflags.
  destruct (DeferByte (NewWriteBuffer (Payload fr))) as [ref w1]. destruct Hflags as [-> Hw1].
  assert (Hidx : index (Payload (lq_Frame cr)) _flagsIndex = Ret (fg_flags f)).
  { rewrite Hfr. destruct Hfirst as (Hg & _). destruct (sent_payload g f Hg) as [tl ->]. done. }
  rewrite Hidx. cbn [mbind go_bind]. rewrite Hw1, Hme. clear Hw1 w1 Hidx.
  set (w0 := NewWriteBuffer (Payload fr)).
  assert (Hok0 : wbuf_ok w0) by apply NewWriteBuffer_ok.
  assert (Hrem : Z.of_nat (w_BytesRemaining w0) = MaxFramePayloadSize).
  { rewrite w_BytesRemaining_eq. cbn [w0 NewWriteBuffer w_buffer w_off]. lia. }
  set (mid := relay_mid initial c). pose proof (length_relay_mid initial c) as Hmid. fold mid in Hmid.
  pose proof (relay_header_step w0 initial c Hok0 Hrem eq_refl Hsize) as HB.
  pose proof (relay_arg1_step w0 initial c Hok0 Hrem Hsize) as HE. fold mid in HB, HE.
  set (wd := appended w0 ([fg_flags f] ++ mid ++ replicate (Size c) x00)) in *. cbv zeta in HE.
  set (we := appended w0 ([fg_flags f] ++ mid ++ _)) in HE.
  assert (Hpl : len (chunks_enc (relay_pre initial)) = if initial then 2 + len meth else 0).
  { destruct initial; [|done]. cbn [relay_pre]. rewrite chunks_enc_cons, !length_app, length_be_enc.
    cbn. lia. }
  assert (Hgo : (if initial then slice 1 (checksumTypeOffset cr) (Payload (lq_Frame cr)) else Ret [])
    = Ret (if initial then callReq_enc m else [])) by (by destruct initial).
  rewrite Hgo. cbn [mbind go_bind].
  assert (Hif : (if initial then (WriteBytes (if initial then callReq_enc m else [])
      (appended w0 [fg_flags f])).2 else appended w0 [fg_flags f])
    = (if initial then (WriteBytes (callReq_enc m) (appended w0 [fg_flags f])).2
       else appended w0 [fg_flags f])) by (by destruct initial).
  rewrite Hif. clear Hif Hgo. destruct (WriteSingleByte _ _) as [[] w2]. rewrite HB, HE.
  eexists _, _, (Header fr), mid. split.
  { replace (AddState _ c) with (if initial then (Add meth c).2 else c); [reflexivity|].
    destruct initial; cbn [relay_pre concat]; [by rewrite app_nil_r|by rewrite AddState_nil]. }
  assert (Hrep : frag_rep (mkWritableFragment (Some 0%nat) (Some (1 + length mid, Size c)%nat) true we fr)
    (Header fr) (fg_flags f) mid (replicate (Size c) x00) (chunks_enc (relay_pre initial))).
  { exists w0. rewrite length_replicate. split_and!; try done.
    rewrite !length_app, length_replicate. cbn [length]. destruct initial; frame_lia. }
  split; [exact Hrep|]. split; [split_and!; [by destruct initial|by rewrite <- Hfr|by destruct initial]|].
  split; [|done].
  pose proof (frag_remaining _ _ _ _ _ _ Hrep) as HR.
  rewrite !length_app, length_replicate in HR. cbn [length] in HR. destruct initial; frame_lia.
Qed.

Lemma rfs_flushFragment_spec s fr hdr fl mid sum chunks :
  rfs_ready s → frag_rep fr hdr fl mid sum (chunks_enc chunks) → ∃ s' g',
    rfs_flushFragment fr s = Ret (None, s') ∧ rfs_ready s'
    ∧ env_wire (rfs_env s') = env_wire (rfs_env s) ++ [g']
    ∧ sent_as g' (mkFragment hdr fl mid sum chunks).
Proof.
  intros (Hs & Hpool & Hopen) Hrep. pose proof (fragment_frame_sent _ _ _ _ _ _ Hrep) as Hsent.
  unfold rfs_flushFragment.
  destruct (good_SentBytes (rfs_env s) (FrameSize (Header (fragment_frame fr))) Hopen)
    as (d1 & E1 & O1 & W1).
  destruct (good_Receive d1 (fragment_frame fr) O1) as (d2 & E2 & O2 & W2); [apply Hsent|].
  rewrite E1. cbn [mbind go_bind]. rewrite E2. cbn [mbind go_bind].
  eexists _, (fragment_frame fr). split; [reflexivity|]. split; [done|].
  split; [|exact Hsent]. cbn [rfs_set_env rfs_env]. by rewrite W2, W1.
Qed.

#[program]
Definition relayFragmentSender_good : GoodSender (relayFragmentSender D) := {|
  base_flags := fg_flags f;
  pre_chunks := relay_pre;
  size_ok := λ n, n = ChecksumSize t;
  ready := rfs_ready;
  wire := λ s, env_wire (rfs_env s);
  mid_ok := sender_mid (relayed_msgs m) (ID (Header g));
  good_new := rfs_newFragment_spec;
  good_flush := rfs_flushFragment_spec;
  good_done := λ s, eq_refl
|}.
Next Obligation.
  split; [done|]. constructor; [apply meth_small|by apply Forall_nil].
Qed.

#[local] Existing Instance relayFragmentSender_good.

Lemma send_args_spec c0 base w l arg3 :
  Size c0 = ChecksumSize t →
  lazyCallReq_arg2 cr = Ret (kvs_enc l) → lazyCallReq_arg3 cr = Ret arg3 →
  pairs_ok 65536 l → pairs_ok 65536 (kv_pair <$> arg2Appends cr) →
  len l + len (arg2Appends cr) < 65536 → idle c0 base w [meth] →
  ∃ w', send_args cr w = Ret (None, w')
  ∧ sent_all c0 base w' [meth; kvs_enc (l ++ (kv_pair <$> arg2Appends cr)); arg3].
Proof.
  intros Hc0 H2 H3 Hl Hk Hn Hidle.
  assert (Hsize : size_ok (GoodSender := relayFragmentSender_good) (Size c0)) by exact Hc0.
  unfold send_args, writer_ArgWriter.
  destruct (BeginArgument_spec c0 base Hsize w _ false Hidle) as (w1 & E1 & I1 & S1). run_with E1.
  rewrite H2. erewrite gost_bind_run by reflexivity. cbv beta.
  set (P := λ (w : fragmentingWriter (relayFragmentSender D)) d,
    in_arg c0 base w [meth; d] ∧ fw_state w = fragmentingWriteInArgument).
  destruct (writeArg2WithAppends_spec P) with (l := l) (kvs := arg2Appends cr) (w := w1) (d := @nil byte)
    as (w2 & E2 & I2 & S2); [|done..|by split|].
  { intros v d b [Hin Hst]. destruct (Write_spec c0 base Hsize v _ b Hin) as (v' & Ew & Hin' & Hst').
    - by rewrite Hst.
    - exists v'. split; [exact Ew|]. split; [exact Hin'|congruence]. }
  run_with E2.
  destruct (Close_spec c0 base Hsize w2 _ I2 S2) as (w3 & E3 & I3). run_with E3.
  destruct (BeginArgument_spec c0 base Hsize w3 _ true I3) as (w4 & E4 & I4 & S4). run_with E4.
  rewrite H3. erewrite gost_bind_run by reflexivity. cbv beta.
  destruct (Write_spec c0 base Hsize w4 _ arg3 I4) as (w5 & E5 & I5 & S5); [by rewrite S4|].
  destruct (Close_last_spec c0 base w5 _ I5) as (w6 & E6 & A6 & _); [congruence|].
  exists w6. split; [|exact A6]. unfold ArgWriteHelper_Write.
  erewrite gost_bind_run.
  2:{ erewrite gost_bind_run by exact E5. cbv beta iota. exact E6. }
  done.
Qed.
End good_sender.

(** ** The frames that follow *)

Definition with_sum (sum : bytes) (f : fragment) : fragment :=
  mkFragment (fg_hdr f) (fg_flags f) (fg_mid f) sum (fg_chunks f).

(** [f.Header.ID = id] *)
Definition hdr_set_id (id : Z) (h : FrameHeader) : FrameHeader :=
  mkFrameHeader (fh_size h) (fh_messageType h) (reserved1 h) id (reserved h).
Definition set_id (id : Z) (f : Frame) : Frame := setHeader (hdr_set_id id (Header f)) f.

Definition with_id (id : Z) (f : fragment) : fragment :=
  mkFragment (hdr_set_id id (fg_hdr f)) (fg_flags f) (fg_mid f) (fg_sum f) (fg_chunks f).

Lemma set_id_sent id g f : sent_as g f → sent_as (set_id id g) (with_id id f).
Proof. intros (Hok & H2 & H3 & H4 & H5 & H6). by split_and!. Qed.

Lemma update_spec g f t c d :
  sent_as g f → fg_mid f = [t] → length (fg_sum f) = Size c → fg_chunks f = [d] →
  len d < 65536 →
  ∃ g', updateMutatedCallReqContinueChecksum g c = Ret (g', AddState d c)
  ∧ sent_as g' (with_sum (Sum (AddState d c)) f).
Proof.
  intros Hg Hmid Hsum Hck Hd. pose proof Hg as (_ & _ & _ & _ & Hsized & _).
  unfold updateMutatedCallReqContinueChecksum. rewrite Hsized. cbn [mbind go_bind].
  assert (Henc : fragment_enc f = [fg_flags f] ++ [t] ++ fg_sum f ++ be_enc 2 (len d) ++ d).
  { unfold fragment_enc. rewrite Hmid, Hck, chunks_enc_cons. by rewrite app_nil_r. }
  unfold NewReadBuffer. set (n := len (fragment_enc f)). clearbody n. rewrite Henc.
  rewrite (SkipBytes_reads 1 [_]) by done. rewrite (SkipBytes_reads 1 [_]) by done.
  rewrite (ReadBytes_reads' _ (fg_sum f)) by done.
  rewrite (ReadUint16_reads (len d)) by lia.
  pose proof (ReadBytes_reads' (Z.to_nat (len d)) d ltac:(lia) n []) as Hrd.
  rewrite app_nil_r in Hrd. rewrite Hrd. cbn [default Add snd]. unfold id.
  eexists. split; [reflexivity|].
  rewrite take_ge by (rewrite length_Sum, AddState_Size; lia).
  eapply (sent_as_patch g f _ [fg_flags f; t] (fg_sum f) _ (be_enc 2 (len d) ++ d)); [done|exact Henc| | |done].
  - unfold fragment_enc. cbn [with_sum fg_flags fg_mid fg_sum fg_chunks].
    rewrite Hmid, Hck, chunks_enc_cons. by rewrite app_nil_r.
  - by rewrite length_Sum, AddState_Size.
Qed.

(** What handleNonCallReq does to the callReqContinue frames of a modified call, one after
    the other, before it hands them to the destination: the checksum is updated and the id
    replaced.  Finding the item, timeouts and failures are in [handleNonCallReq] itself. *)
Fixpoint relay_continue (destID : Z) (cs : Checksum) (frames : list Frame) : go (list Frame) :=
  match frames with
  | [] => Ret []
  | f :: frames =>
      '(f, cs) ← updateMutatedCallReqContinueChecksum f cs;
      frames ← relay_continue destID cs frames;
      Ret (set_id destID f :: frames)
  end.

Lemma relay_continue_nil destID cs frames frames' :
  relay_continue destID cs frames = Ret frames' → frames = [] ↔ frames' = [].
Proof.
  destruct frames as [|f frames]; cbn [relay_continue]; [by intros [= <-]|].
  destruct (updateMutatedCallReqContinueChecksum f cs) as [[f' cs']| |]; [|done..].
  cbn [mbind go_bind]. destruct (relay_continue destID cs' frames); [|done..]. by intros [= <-].
Qed.

(** The frames after the first one of a call whose arg1 and arg2 are in the first
    frame: each holds a piece of arg3. *)
Definition arg3_fragment (t : byte) (last : bool) (g : Frame) (f : fragment) (d : bytes) : Prop :=
  sent_as g f ∧ MessageType (fg_hdr f) = messageTypeCallReqContinue ∧ fg_mid f = [t]
  ∧ length (fg_sum f) = ChecksumSize t ∧ fg_chunks f = [d] ∧ len d < 65536
  ∧ fg_flags f = if last then x00 else hasMoreFragmentsFlag.

Fixpoint arg3_frames (t : byte) (frames : list Frame) (frags : list fragment) (ds : list bytes) : Prop :=
  match frames, frags, ds with
  | [], [], [] => True
  | g :: frames, f :: frags, d :: ds =>
      arg3_fragment t (bool_decide (frames = [])) g f d ∧ arg3_frames t frames frags ds
  | _, _, _ => False
  end.

Lemma args_of_single ds : ds ≠ [] → args_of ((λ d, [d]) <$> ds) = [concat ds].
Proof.
  induction ds as [|d ds IH]; [done|]. intros _. destruct ds as [|d' ds].
  - cbn. by rewrite app_nil_r.
  - change (args_of ((λ d, [d]) <$> d :: d' :: ds)) with (join [d] (args_of ((λ d, [d]) <$> d' :: ds))).
    by rewrite IH.
Qed.

Section continue.
Context `{MapRange} (m : callReq) (t : byte) (destID : Z).

Lemma relay_continue_spec frames frags ds cs :
  arg3_frames t frames frags ds → TypeCode cs = t → Size cs = ChecksumSize t →
  ∃ frames' frags', relay_continue destID cs frames = Ret frames' ∧ Forall2 sent_as frames' frags'
  ∧ stamped (sender_mid (relayed_msgs m) destID) x00 true false cs frags'
  ∧ fg_chunks <$> frags' = (λ d, [d]) <$> ds.
Proof.
  revert frags ds cs. induction frames as [|g frames IH]; intros [|f frags] [|d ds] cs; try done.
  - by exists [], [];split_and!; try done.
  - intros [(Hg & Hty & Hmid & Hsum & Hck & Hd & Hfl) Hrest] Ht Hsz.
    destruct (update_spec g f t cs d Hg Hmid ltac:(congruence) Hck Hd) as (g' & E & Hg').
    destruct (IH frags ds (AddState d cs) Hrest) as (frames' & frags' & E' & Hs' & Hst' & Hcks);
      [by rewrite AddState_TypeCode|by rewrite AddState_Size|].
    cbn [relay_continue]. rewrite E. cbn [mbind go_bind]. rewrite E'.
    exists (set_id destID g' :: frames'), (with_id destID (with_sum (Sum (AddState d cs)) f) :: frags').
    assert (Hnil : frames = [] ↔ frags' = []).
    { apply Forall2_length in Hs'. apply (f_equal length) in Hcks. rewrite !length_fmap in Hcks.
      destruct frames, frags, ds, frags'; try done. }
    split; [done|]. split; [constructor; [by apply set_id_sent|done]|].
    split; [|cbn [fmap list_fmap with_id with_sum fg_chunks]; rewrite Hck; by f_equal].
    cbn [stamped with_id with_sum fg_chunks]. rewrite Hck. cbn [concat]. rewrite app_nil_r.
    split; [|exact Hst'].
    split_and!; cbn [with_id with_sum fg_hdr fg_mid fg_flags fg_sum fg_chunks].
    + rewrite Hmid, Ht. by split_and!.
    + rewrite Hfl. rewrite (bool_decide_ext _ _ Hnil). by destruct (bool_decide (frags' = [])).
    + rewrite Hck. cbn [concat]. by rewrite app_nil_r.
    + by rewrite Hck.
    + rewrite Hck. by constructor; [|apply Forall_nil].
Qed.
End continue.

(** ** Modified calls arrive *)

(** The relay host appends the pairs [kvs] to the call. *)
Definition append_all (kvs : list KeyVal) (cr : lazyCallReq) : lazyCallReq :=
  foldl (λ cr kv, lazyCallReq_Arg2Append (Key kv) (Val kv) cr) cr kvs.

Lemma append_all_eq kvs cr :
  append_all kvs cr = mkLazyCallReq (lq_Frame cr) (checksumTypeOffset cr) (arg2StartOffset cr)
    (arg2EndOffset cr) (arg3StartOffset cr) (lq_headers cr) (method cr) (arg2Appends cr ++ kvs)
    (checksumType cr) (isArg2Fragmented cr).
Proof.
  revert cr. induction kvs as [|[k v] kvs IH]; intros cr.
  - cbn. rewrite app_nil_r. by destruct cr.
  - change (append_all (mkKeyVal k v :: kvs) cr) with (append_all kvs (lazyCallReq_Arg2Append k v cr)).
    rewrite IH. cbn [lazyCallReq_Arg2Append lq_Frame checksumTypeOffset arg2StartOffset arg2EndOffset
      arg3StartOffset lq_headers method arg2Appends checksumType isArg2Fragmented Key Val].
    by rewrite <- app_assoc.
Qed.

(** The fragments of the first frame and those of the frames that follow make up one
    message. *)
Lemma continue_delivered `{MapRange} m t id fl sent frs rest frs2 a1 a2 a3 ds :
  callReq_ok m → 0 <= id < 2^32 → valid t = true → t ≠ ChecksumTypeFarmhash →
  fl = (if bool_decide (rest = []) then x00 else hasMoreFragmentsFlag) →
  Forall2 sent_as sent frs → stamped (sender_mid (relayed_msgs m) id) fl true true (fresh t) frs →
  args_of (fg_chunks <$> frs) = [a1; a2; a3] →
  Forall2 sent_as rest frs2 →
  stamped (sender_mid (relayed_msgs m) id) x00 true false (AddState (data_of frs) (fresh t)) frs2 →
  fg_chunks <$> frs2 = (λ d, [d]) <$> ds →
  delivered (relayed_msgs m) id (sent ++ rest) a1 a2 (a3 ++ concat ds).
Proof.
  intros Hm Hid Hv Ht Hfl Hsent Hst Hargs Hsent2 Hst2 Hcks.
  apply (stamped_delivered _ _ t _ (frs ++ frs2)); try done.
  - by intros [].
  - by apply Forall2_app.
  - destruct rest as [|g rest].
    + apply Forall2_nil_inv_l in Hsent2 as ->. rewrite app_nil_r. by subst fl.
    + subst fl. apply stamped_app; [by intros ->|by apply Forall2_length in Hsent2; intros ->| |done].
      by eapply stamped_open.
  - rewrite fmap_app, args_of_app, Hargs, Hcks. destruct ds as [|d ds]; [by rewrite app_nil_r|].
    by rewrite args_of_single.
Qed.

(** C30: a call whose arg2 the relay host has extended arrives as it should.  The
    first frame [g] of the call holds the method, arg2 with the pairs [l], and the
    beginning of arg3; the rest of arg3 comes in the frames [frames].  The frames
    that fragmentingSend hands to the destination, followed by the continuation
    frames with their checksums updated and their ids replaced, are read by the
    destination as the method, the pairs [l] followed by the appended ones, and
    arg3.  This is for a Thrift call whose arg2 is not fragmented and whose checksum type
    is not Farmhash, keys and values shorter than 64 KiB, fewer than 65536 pairs in all
    (the code checks neither, [append_overlong_truncated]), and a destination that accepts
    every frame. *)
Theorem relay_appends_delivered {D} `{GoodEnv D} `{MapRange} g m t f meth l arg3 cr kvs
    frames frags ds (s : relayFragmentSender D) ps :
  first_fragment g m t f → fg_chunks f = [meth; kvs_enc l; arg3] →
  fg_flags f = (if bool_decide (frames = []) then x00 else hasMoreFragmentsFlag) →
  cr_Headers m !! ArgScheme = Some _tchanThriftValueBytes →
  newLazyCallReq g = Ret (inl cr) → 0 <= ID (Header g) < 2^32 → t ≠ ChecksumTypeFarmhash →
  pairs_ok 65536 l → pairs_ok 65536 (kv_pair <$> kvs) → len l + len kvs < 65536 →
  arg3_frames t frames frags ds →
  rfs_callReq s = append_all kvs cr → pool_ok (rfs_framePool s) → env_open (rfs_env s) →
  ∃ w sent rest,
    fragmentingSend (append_all kvs cr) (fresh t) ps s = Ret (None, w)
    ∧ env_wire (rfs_env (fw_sender w)) = env_wire (rfs_env s) ++ sent
    ∧ relay_continue (ID (Header g)) (fw_checksum w) frames = Ret rest
    ∧ delivered (relayed_msgs m) (ID (Header g)) (sent ++ rest)
        meth (kvs_enc (l ++ (kv_pair <$> kvs))) (arg3 ++ concat ds)
    ∧ kv_pairs (kvs_enc (l ++ (kv_pair <$> kvs))) = (l ++ (kv_pair <$> kvs), Some (io_EOF : error)).
Proof.
  intros Hf Hck Hfl Has Hnew Hid Ht Hl Hk Hn Hfr Hs Hpool Hopen.
  pose proof (newLazyCallReq_spec _ _ _ _ _ _ _ Hf Hck) as Hspec. rewrite Hnew in Hspec.
  rewrite bool_decide_eq_false_2 in Hspec by done. cbn [andb] in Hspec. injection Hspec as Hcr.
  pose proof (append_all_eq kvs cr) as Happ. set (cr' := append_all kvs cr) in *.
  assert (H2 : (2 <= length (kvs_enc l))%nat) by (unfold kvs_enc; rewrite length_app, length_be_enc; lia).
  assert (Hcr' : lq_Frame cr' = g ∧ checksumTypeOffset cr' = 1 + len (callReq_enc m) ∧ method cr' = meth)
    by (rewrite Happ, Hcr; done).
  assert (Hv : valid t = true) by apply Hf.
  assert (Hsz : Size (fresh t) = ChecksumSize t) by (by apply fresh_Size).
  assert (Hna : [arg3] ≠ []) by done.
  assert (Hfrag : isArg2Fragmented cr' = false) by (by rewrite Happ, Hcr).
  destruct (send_args_spec g m t f meth (kvs_enc l) [arg3] Hf Hck Hna H2 cr' Hcr' (fresh t)
    (env_wire (rfs_env s)) (newFragmentingWriter s ps (fresh t)) l arg3) as (w & Hsend & Hall).
  - done.
  - eapply arg2_spec; [exact Hf|exact Hck|apply Hcr'|by rewrite Happ, Hcr..].
  - eapply arg3_spec; [exact Hf|exact Hck|apply Hcr'|by rewrite Happ, Hcr].
  - done.
  - by rewrite Happ, Hcr.
  - by rewrite Happ, Hcr.
  - left. split_and!; [done..|]. split_and!; try done; [by rewrite AddState_nil|].
    exists []. split; [by rewrite app_nil_r|constructor].
  - assert (Hkv : arg2Appends cr' = kvs) by (by rewrite Happ, Hcr).
    rewrite Hkv in Hall. destruct Hall as (sent & frs & Hw & Hsent & Hst & Hargs & Hcs).
    destruct (relay_continue_spec m t (ID (Header g)) frames frags ds (fw_checksum w) Hfr)
      as (rest & frs2 & Hrest & Hsent2 & Hst2 & Hcks2).
    { rewrite Hcs, AddState_TypeCode. by apply fresh_TypeCode. }
    { by rewrite Hcs, AddState_Size. }
    exists w, sent, rest. split.
    { unfold fragmentingSend. rewrite Hfrag.
      rewrite bool_decide_eq_true_2; [exact Hsend|].
      rewrite Happ, Hcr. cbn [lq_headers headers_of as_]. by rewrite Has. }
    split; [exact Hw|]. split; [exact Hrest|]. split.
    + eapply (continue_delivered m t _ (fg_flags f)); try done; [apply Hf| |by rewrite <- Hcs].
      rewrite Hfl. by rewrite (bool_decide_ext _ _ (relay_continue_nil _ _ _ _ Hrest)).
    + rewrite <- (app_nil_r (kvs_enc _)). apply kv_pairs_spec; [by apply Forall_app|].
      rewrite length_app, length_fmap. lia.
Qed.

(** A destination that keeps the frames it receives. *)
#[export] Instance queue_env : relayEnv (list Frame) := {|
  env_Receive f _ := λ d, Ret ((true, []), d ++ [f]);
  env_failRelayItem _ _ _ := mret tt;
  env_SentBytes _ := mret tt
|}.

#[export] Instance queue_env_good : GoodEnv (list Frame).
Proof.
  refine {| env_open _ := True; env_wire d := d |}.
  - intros d n _. by exists d.
  - intros d g _ _. by exists (d ++ [g]).
Defined.

Definition example_continue : fragment :=
  mkFragment (mkFrameHeader 0 messageTypeCallReqContinue x00 7 (replicate 8 x00)) x00
    [ChecksumTypeNone] [] [str " and more"].

Lemma relay_appends_delivered_witness :
  ∃ cr w sent rest, newLazyCallReq (frame_of example_fragment) = Ret (inl cr)
  ∧ fragmentingSend (append_all [mkKeyVal (str "k") (str "v")] cr) (fresh ChecksumTypeNone) emptyPools
      (mkRelayFragmentSender (append_all [mkKeyVal (str "k") (str "v")] cr) disabledFramePool None [] 7)
    = Ret (None, w)
  ∧ delivered (H := storage_range) (relayed_msgs example_req) 7 (sent ++ rest)
      (str "Bob::echo") (kvs_enc [(str "k", str "v")]) (str "body and more").
Proof.
  destruct (lazyCallReq_scanned (H := storage_range) (frame_of example_fragment) example_req
    ChecksumTypeNone example_fragment (str "Bob::echo") [x00; x00] [str "body"]
    example_first_fragment eq_refl ltac:(discriminate)) as (cr & E).
  destruct (relay_appends_delivered (H1 := storage_range) (frame_of example_fragment) example_req
    ChecksumTypeNone example_fragment (str "Bob::echo") [] (str "body") cr
    [mkKeyVal (str "k") (str "v")] [frame_of example_continue] [example_continue] [str " and more"]
    (mkRelayFragmentSender (append_all [mkKeyVal (str "k") (str "v")] cr) disabledFramePool None
       ([] : list Frame) 7) emptyPools) as (w & sent & rest & H1 & _ & _ & H2 & _).
  - exact example_first_fragment.
  - reflexivity.
  - reflexivity.
  - vm_compute. reflexivity.
  - exact E.
  - vm_compute. split; [discriminate|reflexivity].
  - discriminate.
  - constructor.
  - repeat constructor.
  - vm_compute. reflexivity.
  - split; [|exact I]. split; [apply frame_of_sent; vm_compute; [discriminate|reflexivity]|].
    repeat split.
  - reflexivity.
  - exact I.
  - exact I.
  - exists cr, w, sent, rest. split; [exact E|]. split; [exact H1|]. exact H2.
Defined.

(** The typed writer that relays use for appended pairs drops the high bits of a
    length: an appended value of 65536 bytes is written without an error, and a
    reader of arg2 finds an empty value. *)
Theorem append_overlong_truncated k v :
  len k < 65536 → len v = 65536 →
  ∃ out, writeArg2WithAppends (kvs_enc []) [mkKeyVal k v] [] = Ret (None, out)
  ∧ kv_pairs out = ([(k, [])], Some (io_EOF : error)).
Proof.
  intros Hk Hv. exists (kvs_enc [(k, [])] ++ v). split.
  - assert (Hio : ∀ w d b : bytes, w = d → ∃ w', io_Write b w = Ret ((length b, None), w') ∧ w' = d ++ b)
      by (intros w d b ->; by eexists).
    set (P := λ w d : bytes, w = d).
    destruct (wr_appends_bind P _ _ _ _ (wr_write_appends P Hio (be_enc 2 1))
      (wr_appends_bind P _ _ _ _ (wr_ret_appends P)
        (wr_appends_bind P _ _ _ _ (wr_WriteLen16Bytes_appends P Hio k Hk)
          (wr_appends_bind P _ _ _ _ (wr_WriteLen16Bytes_any P Hio v) (wr_ret_appends P)))) [] [])
      as (w' & E & ->); [done|].
    unfold writeArg2WithAppends. rewrite !decide_False by done. unfold NewWriter.
    change (uint16 (be_dec _ + _)) with 1. unfold wr_WriteUint16 at 1.
    cbn [write_appends Key Val]. rewrite E. cbn [wr_Err wr_err wr_writer].
    do 2 f_equal. rewrite Hv. unfold kvs_enc, pairs_enc, pair16_enc.
    cbn [fmap list_fmap concat fst snd length]. change (uint16 65536) with 0.
    cbn [app]. by rewrite !app_nil_r, <- !app_assoc.
  - apply kv_pairs_spec; [|cbn; lia]. constructor; [|by apply Forall_nil]. cbn. lia.
Qed.

Lemma append_overlong_truncated_witness :
  ∃ out, writeArg2WithAppends (kvs_enc []) [mkKeyVal (str "k") (replicate (Z.to_nat 65536) x61)] []
         = Ret (None, out) ∧ kv_pairs out = ([(str "k", [])], Some (io_EOF : error)).
Proof.
  apply append_overlong_truncated.
  - vm_compute. reflexivity.
  - vm_compute. reflexivity.
Defined.

(** The relay's maximum timeout, however it is configured, is a positive number
    of milliseconds that fits the 32-bit time to live of a frame; a valid setting is
    kept. *)
Theorem validateRelayMaxTimeout_fits d :
  0 < Z.quot (validateRelayMaxTimeout d) millisecond < 2^32
  ∧ (0 < Z.quot d millisecond < 2^32 → validateRelayMaxTimeout d = d).
Proof.
  unfold validateRelayMaxTimeout. repeat case_decide; split; try done; try lia.
Qed.
