(* ===== verification/Relay.v ===== *)
(** * The relay (relay.go, relay_timer_pool.go)

    A relayer sits on a connection and forwards the frames of calls to the relayer of
    another connection, with their message ids replaced.  Each of the two keeps an item
    for the call, with a timer; whoever takes a live item out of its map, or turns it
    into a tombstone, completes the call on that side.

    The relayers of a channel refer to each other, so they live in one [World] with the
    timers, the calls of the relay host and the checksums that relay items share with
    fragmenting writers.  The code is given as programs ([Conc.prog]) whose actions are
    the critical sections of the source and the calls into a connection.

    The relay host, the choice of a destination and the state of sync.Pools are not
    part of this repository's relay: their answers are arguments ([callOracle]).  What
    a call is told (SentBytes, Failed, End, ...) is recorded as its list of events.
    Logging and statistics about slow connections are left out. *)

From stdpp Require Import functions.
From S2P Require Import Prelude Conc Errors Buffer Checksum Frame Messages Fragment Mex ReqRes Health Connection Headers LazyMessages RelaySend.

(** ** State *)

Definition _defaultRelayMaxTombs : Z := 30000.

Definition _relayErrorNotFound : bytes := str "relay-not-found".
Definition _relayErrorDestConnSlow : bytes := str "relay-dest-conn-slow".
Definition _relayErrorSourceConnSlow : bytes := str "relay-source-conn-slow".
Definition _relayArg2ModifyFailed : bytes := str "relay-arg2-modify-failed".

Definition errRelayMethodFragmented : error :=
  NewSystemError ErrCodeBadRequest (str "relay handler cannot receive fragmented calls").
Definition errBadRelayHost : error :=
  NewSystemError ErrCodeDeclined (str "bad relay host implementation").
Definition errUnknownID : error := otherError (str "non-callReq for inactive ID").
Definition errActiveID : error := otherError (str "callReq with already active ID").

(** What a RelayCall is told. *)
Inductive callEvent :=
| SentBytes (n : Z)
| ReceivedBytes (n : Z)
| CallResponse
| Succeeded
| Failed (reason : bytes)
| End.

#[export] Instance callEvent_eq_dec : EqDecision callEvent.
Proof. solve_decision. Defined.

(** The two maps of a relayer. *)
Inductive side := outboundItems | inboundItems.

#[export] Instance side_eq_dec : EqDecision side.
Proof. solve_decision. Defined.

(** A pointer to relayItems. *)
Abbreviation itemsRef := (nat * side)%type.

(** [call], [destination], [timeout] and [mutatedChecksum] are references. *)
Record relayItem := mkRelayItem {
  remapID : Z;
  tomb : bool;
  isOriginator : bool;
  call : nat;
  destination : nat;
  ri_span : Span;
  timeout : nat;
  mutatedChecksum : option nat
}.

Definition set_tomb (i : relayItem) : relayItem :=
  mkRelayItem (remapID i) true (isOriginator i) (call i) (destination i) (ri_span i) (timeout i)
    (mutatedChecksum i).

Record relayItems := mkRelayItems {
  maxTombs : Z;
  tombs : Z;
  items : gmap Z relayItem
}.

Definition newRelayItems (maxTombs : Z) : relayItems :=
  mkRelayItems (if decide (maxTombs = 0) then _defaultRelayMaxTombs else maxTombs) 0 ∅.

(** A relayTimer with its time.Timer: [rt_pending] says that the timer will fire,
    [rt_fired] counts the runs of OnTimer that have been started and have not got to
    run. *)
Record relayTimer := mkRelayTimer {
  rt_pool : nat;
  rt_pending : bool;
  rt_fired : nat;
  rt_duration : Z;
  active : bool;
  stopped : bool;
  released : bool;
  rt_items : option itemsRef;
  rt_id : Z;
  rt_isOriginator : bool
}.

(** [r_pool] and [r_verify] are the relayTimerPool. *)
Record Relayer := mkRelayer {
  r_conn : Connection;
  r_outbound : relayItems;
  r_inbound : relayItems;
  r_pool : list nat;
  r_verify : bool;
  maxTimeout : Z;
  localHandler : gset bytes;
  r_framePool : FramePool
}.

Definition NewRelayer (conn : Connection) (maxTombs maxTimeout : Z) (verify : bool)
    (localHandler : gset bytes) (framePool : FramePool) : Relayer :=
  mkRelayer conn (newRelayItems maxTombs) (newRelayItems maxTombs) [] verify maxTimeout localHandler
    framePool.

(** [w_gc] are the tombs whose deletion has been scheduled. *)
Record World := mkWorld {
  w_relayer : nat → Relayer;
  w_timer : nat → relayTimer;
  w_nextTimer : nat;
  w_call : nat → list callEvent;
  w_nextCall : nat;
  w_gc : list (itemsRef * Z);
  w_sum : nat → Checksum;
  w_nextSum : nat;
  w_pools : checksumPools
}.

Definition get_items (ref : itemsRef) (w : World) : relayItems :=
  match ref.2 with
  | outboundItems => r_outbound (w_relayer w ref.1)
  | inboundItems => r_inbound (w_relayer w ref.1)
  end.

Definition r_set_conn (c : Connection) (r : Relayer) : Relayer :=
  mkRelayer c (r_outbound r) (r_inbound r) (r_pool r) (r_verify r) (maxTimeout r) (localHandler r)
    (r_framePool r).
Definition r_set_items (s : side) (i : relayItems) (r : Relayer) : Relayer :=
  mkRelayer (r_conn r) (if decide (s = outboundItems) then i else r_outbound r)
    (if decide (s = outboundItems) then r_inbound r else i) (r_pool r) (r_verify r) (maxTimeout r)
    (localHandler r) (r_framePool r).
Definition r_set_pool (l : list nat) (r : Relayer) : Relayer :=
  mkRelayer (r_conn r) (r_outbound r) (r_inbound r) l (r_verify r) (maxTimeout r) (localHandler r)
    (r_framePool r).
Definition r_set_framePool (p : FramePool) (r : Relayer) : Relayer :=
  mkRelayer (r_conn r) (r_outbound r) (r_inbound r) (r_pool r) (r_verify r) (maxTimeout r)
    (localHandler r) p.

Definition w_relayer_do (r : nat) (f : Relayer → Relayer) (w : World) : World :=
  mkWorld (<[r := f (w_relayer w r)]> (w_relayer w)) (w_timer w) (w_nextTimer w) (w_call w) (w_nextCall w)
    (w_gc w) (w_sum w) (w_nextSum w) (w_pools w).
Definition set_items (ref : itemsRef) (i : relayItems) (w : World) : World :=
  w_relayer_do ref.1 (r_set_items ref.2 i) w.
Definition w_set_timer (t : nat) (x : relayTimer) (w : World) : World :=
  mkWorld (w_relayer w) (<[t := x]> (w_timer w)) (w_nextTimer w) (w_call w) (w_nextCall w)
    (w_gc w) (w_sum w) (w_nextSum w) (w_pools w).
Definition w_new_timer (x : relayTimer) (w : World) : World :=
  mkWorld (w_relayer w) (<[w_nextTimer w := x]> (w_timer w)) (S (w_nextTimer w)) (w_call w) (w_nextCall w)
    (w_gc w) (w_sum w) (w_nextSum w) (w_pools w).
Definition tell (c : nat) (e : callEvent) (w : World) : World :=
  mkWorld (w_relayer w) (w_timer w) (w_nextTimer w) (<[c := w_call w c ++ [e]]> (w_call w)) (w_nextCall w)
    (w_gc w) (w_sum w) (w_nextSum w) (w_pools w).
Definition w_new_call (w : World) : World :=
  mkWorld (w_relayer w) (w_timer w) (w_nextTimer w) (<[w_nextCall w := []]> (w_call w)) (S (w_nextCall w))
    (w_gc w) (w_sum w) (w_nextSum w) (w_pools w).
Definition w_set_gc (l : list (itemsRef * Z)) (w : World) : World :=
  mkWorld (w_relayer w) (w_timer w) (w_nextTimer w) (w_call w) (w_nextCall w) l (w_sum w) (w_nextSum w)
    (w_pools w).
Definition w_set_sum (n : nat) (c : Checksum) (ps : checksumPools) (w : World) : World :=
  mkWorld (w_relayer w) (w_timer w) (w_nextTimer w) (w_call w) (w_nextCall w) (w_gc w)
    (<[n := c]> (w_sum w)) (w_nextSum w) ps.
Definition w_new_sum (c : Checksum) (ps : checksumPools) (w : World) : World :=
  mkWorld (w_relayer w) (w_timer w) (w_nextTimer w) (w_call w) (w_nextCall w) (w_gc w)
    (<[w_nextSum w := c]> (w_sum w)) (S (w_nextSum w)) ps.

(** A method of a connection, called by the relay, as one action. *)
Abbreviation wprog := (prog World).

Definition on_conn {A} (r : nat) (p : prog Connection A) : wprog A :=
  atomic_go (λ w,
    match run p (r_conn (w_relayer w r)) with
    | Ret (a, c) => Ret (a, w_relayer_do r (r_set_conn c) w)
    | Panic => Panic
    | OutOfFuel => OutOfFuel
    end).

Definition w_do (f : World → World) : wprog unit := atomic (λ w, (tt, f w)).
Definition w_read {A} (f : World → A) : wprog A := atomic (λ w, (f w, w)).
Definition w_call_go {A} (m : go A) : wprog A := atomic_go (gcall m).

(** ** Timers *)

(** [rt.verifyNotReleased()] at the start of a method. *)
Definition verifyNotReleased {A} (t : nat) (m : GO World A) : GO World A := λ w,
  if released (w_timer w t) then Panic else m w.

Definition markTimerInactive (x : relayTimer) : relayTimer :=
  mkRelayTimer (rt_pool x) (rt_pending x) (rt_fired x) (rt_duration x) false (stopped x) (released x)
    None 0 false.

(** A pooled timer, if the pool has one and gives it out, or a new one.  (A new timer
    is made with time.AfterFunc and stopped at once.) *)
Definition timeouts_Get (r : nat) (choice : option nat) : ST World nat := λ w,
  let pool := r_pool (w_relayer w r) in
  match choice ≫= λ k, pool !! k with
  | Some t =>
      let x := w_timer w t in
      (t, w_set_timer t (mkRelayTimer (rt_pool x) (rt_pending x) (rt_fired x) (rt_duration x) (active x)
                           (stopped x) false (rt_items x) (rt_id x) (rt_isOriginator x))
            (w_relayer_do r (r_set_pool (match choice with Some k => delete k pool | None => pool end)) w))
  | None => (w_nextTimer w, w_new_timer (mkRelayTimer r false 0 0 false false false None 0 false) w)
  end.

Definition timeouts_Put (t : nat) (w : World) : World :=
  let r := rt_pool (w_timer w t) in
  if r_verify (w_relayer w r) then w
  else w_relayer_do r (r_set_pool (t :: r_pool (w_relayer w r))) w.

(** time.Timer.Reset says whether the timer was waiting to fire. *)
Definition timer_Start (d : Z) (ref : itemsRef) (id : Z) (orig : bool) (t : nat) : GO World unit :=
  verifyNotReleased t (λ w, let x := w_timer w t in
    if active x then Panic
    else if rt_pending x then Panic
    else Ret (tt, w_set_timer t (mkRelayTimer (rt_pool x) true (rt_fired x) d true false (released x)
                                   (Some ref) id orig) w)).

(** time.Timer.Stop says whether it kept the timer from firing. *)
Definition timer_Stop (t : nat) : GO World bool :=
  verifyNotReleased t (λ w, let x := w_timer w t in
    if stopped x then Ret (true, w)
    else if rt_pending x then
      Ret (true, w_set_timer t (markTimerInactive
        (mkRelayTimer (rt_pool x) false (rt_fired x) (rt_duration x) (active x) true (released x)
           (rt_items x) (rt_id x) (rt_isOriginator x))) w)
    else Ret (false, w)).

Definition timer_Release (t : nat) : GO World unit :=
  verifyNotReleased t (λ w, let x := w_timer w t in
    if active x then Panic
    else Ret (tt, timeouts_Put t (w_set_timer t
           (mkRelayTimer (rt_pool x) (rt_pending x) (rt_fired x) (rt_duration x) (active x) (stopped x) true
              (rt_items x) (rt_id x) (rt_isOriginator x)) w))).

(** ** Relay items *)

Definition Count (i : relayItems) : Z := Z.of_nat (size (items i)) - tombs i.

(** The result is the item with whether the timeout was stopped, if it was found. *)
Definition items_Get (ref : itemsRef) (id : Z) (stopTimeout : bool) : wprog (option (relayItem * bool)) :=
  atomic_go (λ w,
    match items (get_items ref w) !! id with
    | None => Ret (None, w)
    | Some item =>
        if stopTimeout then
          match timer_Stop (timeout item) w with
          | Ret (b, w) => Ret (Some (item, b), w)
          | Panic => Panic
          | OutOfFuel => OutOfFuel
          end
        else Ret (Some (item, false), w)
    end).

Definition items_Add (ref : itemsRef) (id : Z) (item : relayItem) : wprog unit :=
  w_do (λ w, let i := get_items ref w in
    set_items ref (mkRelayItems (maxTombs i) (tombs i) (<[id := item]> (items i))) w).

(** The critical section of Delete. *)
Definition items_remove (ref : itemsRef) (id : Z) (w : World) : option relayItem * World :=
  let i := get_items ref w in
  match items i !! id with
  | None => (None, w)
  | Some item =>
      (Some item, set_items ref (mkRelayItems (maxTombs i)
         (if tomb item then uint64 (tombs i - 1) else tombs i) (delete id (items i))) w)
  end.

(** The item, if it was live: if a relayed call has been completed by this. *)
Definition items_Delete (ref : itemsRef) (id : Z) : wprog (option relayItem) :=
  oitem ← atomic (items_remove ref id);
  match oitem with
  | None => mret None
  | Some item =>
      _ ← atomic_go (timer_Release (timeout item));
      mret (if tomb item then None else Some item)
  end.

(** The critical section of Entomb: [None] when there are too many tombs. *)
Definition items_entomb (ref : itemsRef) (id : Z) (w : World) : option (option relayItem) * World :=
  let i := get_items ref w in
  if decide (maxTombs i < tombs i) then (None, w)
  else
    match items i !! id with
    | None => (Some None, w)
    | Some item =>
        if tomb item then (Some None, w)
        else (Some (Some (set_tomb item)),
              set_items ref (mkRelayItems (maxTombs i) (uint64 (tombs i + 1))
                (<[id := set_tomb item]> (items i))) w)
    end.

Definition items_Entomb (ref : itemsRef) (id : Z) : wprog (option relayItem) :=
  r ← atomic (items_entomb ref id);
  match r with
  | None => items_Delete ref id
  | Some None => mret None
  | Some (Some item) =>
      _ ← w_do (λ w, w_set_gc (w_gc w ++ [(ref, id)]) w);
      mret (Some item)
  end.

(** ** Relayers *)

Definition pending_done (r : nat) : wprog unit := on_conn r decrementPending.

Definition relay_SendSystemError (r : nat) (id : Z) (span : Span) (err : error) : wprog unit :=
  _ ← on_conn r (SendSystemError id span err); mret tt.

Definition addRelayItem (r : nat) (orig : bool) (id remap : Z) (dest : nat) (ttl : Z) (span : Span)
    (c : nat) (sum : option nat) (choice : option nat) : wprog relayItem :=
  let ref := (r, if orig then outboundItems else inboundItems) in
  t ← atomic (timeouts_Get r choice);
  let item := mkRelayItem remap false orig c dest span t sum in
  _ ← items_Add ref id item;
  _ ← atomic_go (timer_Start ttl ref id orig t);
  mret item.

(** What the originator of a call that timed out, failed or finished does. *)
Definition timeoutCall (r : nat) (id : Z) (item : relayItem) : wprog unit :=
  _ ← relay_SendSystemError r id (ri_span item) ErrTimeout;
  _ ← w_do (tell (call item) (Failed (str "timeout")));
  w_do (tell (call item) End).

Definition failCallItem (r : nat) (id : Z) (reason : bytes) (err : error) (item : relayItem) : wprog unit :=
  _ ← (if decide (reason = _relayErrorSourceConnSlow) then mret tt
       else relay_SendSystemError r id (ri_span item) (otherError (reason ++ str ": " ++ Error err)));
  _ ← w_do (tell (call item) (Failed reason));
  w_do (tell (call item) End).

Definition finishCall (item : relayItem) : wprog unit :=
  _ ← w_do (tell (call item) End);
  match mutatedChecksum item with
  | Some n => w_do (λ w, w_set_sum n (w_sum w n) (Release (w_sum w n) (w_pools w)) w)
  | None => mret tt
  end.

Definition timeoutRelayItem (r : nat) (ref : itemsRef) (id : Z) (orig : bool) : wprog unit :=
  oitem ← items_Entomb ref id;
  match oitem with
  | None => mret tt
  | Some item =>
      _ ← (if orig then timeoutCall r id item else mret tt);
      pending_done r
  end.

(** One run of OnTimer: the pool's trigger is timeoutRelayItem of its relayer. *)
Definition OnTimer (t : nat) : wprog unit :=
  p ← atomic_go (verifyNotReleased t (λ w,
        let x := w_timer w t in
        Ret ((rt_pool x, rt_items x, rt_id x, rt_isOriginator x),
             w_set_timer t (markTimerInactive
               (mkRelayTimer (rt_pool x) (rt_pending x) (pred (rt_fired x)) (rt_duration x) (active x)
                  (stopped x) (released x) (rt_items x) (rt_id x) (rt_isOriginator x))) w)));
  let '(r, oref, id, orig) := p in
  match oref with
  | None => atomic_go gpanic
  | Some ref => timeoutRelayItem r ref id orig
  end.

Definition failRelayItem (r : nat) (ref : itemsRef) (id : Z) (reason : bytes) (err : error) : wprog unit :=
  g ← items_Get ref id true;
  match g with
  | None => mret tt
  | Some (_, stopped) =>
      if negb stopped then mret tt
      else
        oitem ← items_Entomb ref id;
        match oitem with
        | None => mret tt
        | Some item =>
            _ ← (if isOriginator item then failCallItem r id reason err item else mret tt);
            pending_done r
        end
  end.

Definition finishRelayItem (r : nat) (ref : itemsRef) (id : Z) : wprog unit :=
  oitem ← items_Delete ref id;
  match oitem with
  | None => mret tt
  | Some item =>
      _ ← (if isOriginator item then finishCall item else mret tt);
      pending_done r
  end.

(** The side of the receiving relayer where the item of a frame is. *)
Definition receiverItems (r : nat) (fType : frameType) : itemsRef :=
  (r, if decide (fType = requestFrame) then inboundItems else outboundItems).

(** [select { case r.conn.sendCh <- f: ... default: ... }] *)
Definition sendFrame (r : nat) (f : Frame) : wprog bool :=
  on_conn r (atomic (λ c, match trySend f c with Some c => (true, c) | None => (false, c) end)).

(** The result is whether the frame was sent, with the reason of a failure. *)
Definition Receive (r : nat) (f : Frame) (fType : frameType) : wprog (bool * bytes) :=
  let id := ID (Header f) in
  let ref := receiverItems r fType in
  finished ← w_call_go (finishesCall f);
  g ← items_Get ref id finished;
  match g with
  | None => mret (false, _relayErrorNotFound)
  | Some (item, stopped) =>
      if tomb item || (finished && negb stopped) then mret (true, [])
      else
        _ ← (if decide (fType = responseFrame) then
               s ← w_call_go (determinesCallSuccess f);
               if s.1 : bool then w_do (tell (call item) Succeeded)
               else if decide (s.2 = []) then mret tt
               else w_do (tell (call item) (Failed s.2))
             else mret tt);
        sent ← sendFrame r f;
        if negb sent then
          let err := if decide (fType = responseFrame) then _relayErrorSourceConnSlow
                     else _relayErrorDestConnSlow in
          _ ← failRelayItem r ref id err errFrameNotSent;
          mret (false, err)
        else
          _ ← (if finished : bool then finishRelayItem r ref id else mret tt);
          mret (true, [])
  end.

Definition reportRelayBytes (item : relayItem) (fType : frameType) (n : Z) : wprog unit :=
  w_do (tell (call item) (if decide (fType = requestFrame) then SentBytes n else ReceivedBytes n)).

(** What handleNonCallReq does with the contents of a frame before it forwards it. *)
Definition inspectFrame (f : Frame) (item : relayItem) : wprog Frame :=
  let t := MessageType (Header f) in
  if decide (t = messageTypeCallRes) then
    cr ← w_call_go (newLazyCallRes f);
    _ ← match cr with inl _ => w_do (tell (call item) CallResponse) | inr _ => mret tt end;
    mret f
  else if decide (t = messageTypeCallReqContinue) then
    match mutatedChecksum item with
    | None => mret f
    | Some n =>
        atomic_go (λ w,
          match updateMutatedCallReqContinueChecksum f (w_sum w n) with
          | Ret (f, cs) => Ret (f, w_set_sum n cs (w_pools w) w)
          | Panic => Panic
          | OutOfFuel => OutOfFuel
          end)
    end
  else mret f.

Definition handleNonCallReq (r : nat) (f : Frame) : wprog (option error) :=
  fType ← w_call_go (frameTypeFor f);
  finished ← w_call_go (finishesCall f);
  let ref := (r, if decide (fType = responseFrame) then inboundItems else outboundItems) in
  let originalID := ID (Header f) in
  g ← items_Get ref originalID finished;
  match g with
  | None => mret (Some errUnknownID)
  | Some (item, stopped) =>
      if tomb item || (finished && negb stopped) then mret None
      else
        f ← inspectFrame f item;
        _ ← reportRelayBytes item fType (FrameSize (Header f));
        let f := set_id (remapID item) f in
        '(sent, failure) ← Receive (destination item) f fType;
        if negb sent then
          _ ← failRelayItem r ref originalID failure errFrameNotSent;
          mret None
        else
          _ ← (if finished : bool then finishRelayItem r ref originalID else mret tt);
          mret None
  end.

(** ** New calls *)

Inductive hostError := RateLimitDropError | HostError (e : error).

(** call.Destination and the connection of the peer it gives. *)
Inductive destAnswer := noDestination | connectFailed (e : error) | connectedTo (relayer : nat).

(** What the environment of the relay answers for one call: the relay host (whether
    Start returned a call, its error, the pairs it appended to arg2), the destination,
    the choices of the pools, and the wait of a call that is handled locally. *)
Record callOracle := mkCallOracle {
  o_call : bool;
  o_err : option hostError;
  o_appends : list KeyVal;
  o_dest : destAnswer;
  o_timerSrc : option nat;
  o_timerDst : option nat;
  o_sum : option nat;
  o_frame : option nat;
  o_ctx : option sentinel;
  o_pick : pick
}.

(** The result says that the frame was for the relay's own channel. *)
Definition handleLocalCallReq (r : nat) (o : callOracle) (cr : lazyCallReq) : wprog bool :=
  service ← w_call_go (lazyCallReq_Service cr);
  loc ← w_read (λ w, localHandler (w_relayer w r));
  if decide (service ∈ loc) then
    more ← w_call_go (lazyCallReq_HasMoreFragments cr);
    if more : bool then
      span ← w_call_go (lazyCallReq_Span cr);
      _ ← relay_SendSystemError r (ID (Header (lq_Frame cr))) span errRelayMethodFragmented;
      mret true
    else
      _ ← on_conn r (handleFrameNoRelay (o_ctx o) (o_pick o) (lq_Frame cr));
      mret true
  else mret false.

(** The relayer of the destination, or an error; neither when the destination could
    not be connected to. *)
Definition getDestination (r : nat) (f : lazyCallReq) (c : nat) (a : destAnswer)
    : wprog (option nat * option error) :=
  let id := ID (Header (lq_Frame f)) in
  g ← items_Get (r, outboundItems) id false;
  match g with
  | Some _ =>
      _ ← w_do (tell c (Failed (relayMetricsKey ErrCodeProtocol)));
      mret (None, Some errActiveID)
  | None =>
      match a with
      | noDestination =>
          _ ← w_do (tell c (Failed (str "relay-bad-relay-host")));
          span ← w_call_go (lazyCallReq_Span f);
          _ ← relay_SendSystemError r id span errBadRelayHost;
          mret (None, Some errBadRelayHost)
      | connectFailed e =>
          _ ← w_do (tell c (Failed (str "relay-connection-failed")));
          span ← w_call_go (lazyCallReq_Span f);
          _ ← relay_SendSystemError r id span (NewWrappedSystemError ErrCodeNetwork e);
          mret (None, None)
      | connectedTo b => mret (Some b, None)
      end
  end.

(** fragmentingSend hands its frames to the destination's Receive. *)
Record relayCtx := mkRelayCtx { x_world : World; x_src : nat; x_dst : nat; x_call : nat }.

Definition x_run {A} (p : wprog A) : GO relayCtx A := λ x,
  match run p (x_world x) with
  | Ret (a, w) => Ret (a, mkRelayCtx w (x_src x) (x_dst x) (x_call x))
  | Panic => Panic
  | OutOfFuel => OutOfFuel
  end.

#[export] Instance relayCtx_env : relayEnv relayCtx := {|
  env_Receive f ft := λ x, x_run (Receive (x_dst x) f ft) x;
  env_failRelayItem id reason err := λ x,
    x_run (failRelayItem (x_src x) (x_src x, outboundItems) id reason err) x;
  env_SentBytes n := λ x, x_run (w_do (tell (x_call x) (SentBytes n))) x
|}.

(** All of fragmentingSend, as one action. *)
Definition sendFragmented (r b c n : nat) (orig : Z) (choice : option nat) (f : lazyCallReq)
    : wprog (option error) :=
  atomic_go (λ w,
    let sender := mkRelayFragmentSender f (r_framePool (w_relayer w r)) choice (mkRelayCtx w r b c) orig in
    match fragmentingSend f (w_sum w n) (w_pools w) sender with
    | Ret (err, fw) =>
        Ret (err, w_set_sum n (fw_checksum fw) (fw_pools fw)
               (w_relayer_do r (r_set_framePool (rfs_framePool (fw_sender fw)))
                  (x_world (rfs_env (fw_sender fw)))))
    | Panic => Panic
    | OutOfFuel => OutOfFuel
    end).

(** [call.Failed(reason); call.End()] for a call that may be nil. *)
Definition failCall (oc : option nat) (reason : bytes) : wprog unit :=
  match oc with
  | None => mret tt
  | Some c => _ ← w_do (tell c (Failed reason)); w_do (tell c End)
  end.

Definition limitTTL (r : nat) (f : lazyCallReq) : wprog (lazyCallReq * Z) :=
  ttl ← w_call_go (lazyCallReq_TTL f);
  max ← w_read (λ w, maxTimeout (w_relayer w r));
  if decide (max < ttl) then
    f ← w_call_go (lazyCallReq_SetTTL max f);
    mret (f, max)
  else mret (f, ttl).

(** The checksum of a call whose arg2 is modified. *)
Definition newSum (o : callOracle) (f : lazyCallReq) : wprog (option nat) :=
  if decide (arg2Appends f = []) then mret None
  else atomic (λ w, let '(cs, ps) := New (checksumType f) (o_sum o) (w_pools w) in
                    (Some (w_nextSum w), w_new_sum cs ps w)).

(** The end of handleCallReq: the call has a destination and is counted as pending on
    both sides. *)
Definition startRelay (r b c : nat) (o : callOracle) (f : lazyCallReq) : wprog (bool * option error) :=
  let origID := ID (Header (lq_Frame f)) in
  destinationID ← on_conn b NextMessageID;
  '(f, ttl) ← limitTTL r f;
  span ← w_call_go (lazyCallReq_Span f);
  sum ← newSum o f;
  _ ← addRelayItem b false destinationID origID r ttl span c None (o_timerDst o);
  relayToDest ← addRelayItem r true origID destinationID b ttl span c sum (o_timerSrc o);
  let f := lq_set_Frame (set_id destinationID (lq_Frame f)) f in
  match sum with
  | Some n =>
      err ← sendFragmented r (destination relayToDest) c n origID (o_frame o) f;
      _ ← match err with
          | Some e => failRelayItem r (r, outboundItems) origID _relayArg2ModifyFailed e
          | None => mret tt
          end;
      mret (true, None)
  | None =>
      _ ← w_do (tell c (SentBytes (FrameSize (Header (lq_Frame f)))));
      '(sent, failure) ← Receive (destination relayToDest) (lq_Frame f) requestFrame;
      _ ← (if sent : bool then mret tt
           else failRelayItem r (r, outboundItems) origID failure errFrameNotSent);
      mret (false, None)
  end.

(** Whether the destination takes a new call. *)
Definition acceptRemote (r : nat) (f : lazyCallReq) (c : nat) (d : option nat * option error)
    : wprog (option error) :=
  match d with
  | (Some b, None) =>
      '(canHandle, state) ← on_conn b canHandleNewCall;
      if canHandle : bool then mret None
      else
        let err := NewWrappedSystemError ErrCodeNetwork (errConnNotActive (str "selected remote") state) in
        _ ← w_do (tell c (Failed (str "relay-remote-inactive")));
        span ← w_call_go (lazyCallReq_Span f);
        _ ← relay_SendSystemError r (ID (Header (lq_Frame f))) span
              (NewWrappedSystemError ErrCodeDeclined err);
        mret (Some err)
  | (_, err) => mret err
  end.

(** What Start of the relay host returned. *)
Definition startCall (o : callOracle) : wprog (option nat) :=
  if o_call o then atomic (λ w, (Some (w_nextCall w), w_new_call w)) else mret None.

(** A new call whose host returned no error. *)
Definition acceptCall (r : nat) (o : callOracle) (f : lazyCallReq) (oc : option nat) : wprog (bool * option error) :=
  match oc with
  | None => atomic_go gpanic
  | Some c =>
      '(canHandle, state) ← on_conn r canHandleNewCall;
      if negb canHandle then
        let err := errConnNotActive (str "incoming") state in
        _ ← failCall (Some c) (str "relay-client-conn-inactive");
        span ← w_call_go (lazyCallReq_Span f);
        _ ← relay_SendSystemError r (ID (Header (lq_Frame f))) span (NewWrappedSystemError ErrCodeDeclined err);
        mret (false, Some err)
      else
        d ← getDestination r f c (o_dest o);
        err ← acceptRemote r f c d;
        match err, d.1 with
        | None, Some b => startRelay r b c o f
        | _, _ =>
            _ ← pending_done r;
            _ ← w_do (tell c End);
            mret (false, err)
        end
  end.

(** The result says whether the frame should be released. *)
Definition relay_handleCallReq (r : nat) (o : callOracle) (f : lazyCallReq) : wprog (bool * option error) :=
  let id := ID (Header (lq_Frame f)) in
  handled ← handleLocalCallReq r o f;
  if handled : bool then mret (false, None)
  else
    oc ← startCall o;
    let f := append_all (o_appends o) f in
    match o_err o with
    | Some RateLimitDropError =>
        _ ← failCall oc (str "relay-dropped");
        mret (false, None)
    | Some (HostError e) =>
        let err := match e with SystemError _ _ _ => e | _ => NewSystemError ErrCodeDeclined (Error e) end in
        _ ← failCall oc (relayMetricsKey (GetSystemErrorCode (Some err)));
        span ← w_call_go (lazyCallReq_Span f);
        _ ← relay_SendSystemError r id span err;
        if decide (GetSystemErrorCode (Some err) = ErrCodeProtocol)
        then err ← on_conn r close_; mret (false, err)
        else mret (false, None)
    | None => acceptCall r o f oc
    end.

Definition Relay (r : nat) (o : callOracle) (f : Frame) : wprog (bool * option error) :=
  if decide (MessageType (Header f) = messageTypeCallReq) then
    cr ← w_call_go (newLazyCallReq f);
    match cr with
    | inr err => mret (true, Some err)
    | inl cr => relay_handleCallReq r o cr
    end
  else
    err ← handleNonCallReq r f;
    if decide (err = Some errUnknownID) then
      e ← on_conn r (forwardPeerFrame outbound (o_ctx o) (o_pick o) f);
      mret (false, match e with None => None | Some _ => err end)
    else mret (false, err).

(** Connection.handleFrameRelay *)
Definition handleFrameRelay (r : nat) (o : callOracle) (f : Frame) : wprog bool :=
  let t := fh_messageType (Header f) in
  if decide (t ∈ [messageTypeCallReq; messageTypeCallReqContinue; messageTypeCallRes;
                  messageTypeCallResContinue; messageTypeError]) then
    '(shouldRelease, _) ← Relay r o f; mret shouldRelease
  else on_conn r (handleFrameNoRelay (o_ctx o) (o_pick o) f).
