(* ===== verification/RelaySafe.v ===== *)
(** * The relay keeps its books

    Every handler of the relay, run to its end, keeps: the pending count of a
    connection is the number of its live items, the tomb count that of its tombs;
    every live item has a timer that will remove it and every tomb a scheduled
    deletion; a call is ended exactly once, when its originator's item is gone.  No
    handler panics when it runs alone. *)

From stdpp Require Import functions.
From S2P Require Import Prelude Conc Errors Buffer Checksum Frame Messages Fragment Mex ReqRes Health Connection ConnectionSafe Headers LazyMessages RelaySend Relay.

(** ** Counting items *)

Definition live_items (m : gmap Z relayItem) : gmap Z relayItem := filter (λ p, tomb p.2 = false) m.
Definition tomb_items (m : gmap Z relayItem) : gmap Z relayItem := filter (λ p, tomb p.2 = true) m.

Definition nlive (m : gmap Z relayItem) : Z := Z.of_nat (size (live_items m)).
Definition ntomb (m : gmap Z relayItem) : Z := Z.of_nat (size (tomb_items m)).

Lemma nlive_nonneg m : 0 <= nlive m.
Proof. unfold nlive. lia. Qed.

Lemma nlive_insert id i m : tomb i = false → m !! id = None → nlive (<[id:=i]> m) = nlive m + 1.
Proof.
  intros Hi Hm. unfold nlive, live_items. rewrite map_filter_insert_True by done.
  rewrite map_size_insert_None; [lia|]. apply map_lookup_filter_None. by left.
Qed.
Lemma ntomb_insert_live id i m : tomb i = false → m !! id = None → ntomb (<[id:=i]> m) = ntomb m.
Proof.
  intros Hi Hm. unfold ntomb, tomb_items. rewrite map_filter_insert_False by (cbn; congruence).
  by rewrite delete_id.
Qed.

Lemma nlive_delete id i m : m !! id = Some i →
  nlive (delete id m) = nlive m - (if tomb i then 0 else 1).
Proof.
  intros Hm. unfold nlive, live_items. rewrite map_filter_delete.
  destruct (tomb i) eqn:Ht.
  - rewrite delete_id; [lia|]. apply map_lookup_filter_None. right. intros j Hj. cbn. congruence.
  - assert (Hl : filter (λ p, tomb p.2 = false) m !! id = Some i) by by apply map_lookup_filter_Some.
    rewrite map_size_delete_Some by (by eexists).
    assert (size (filter (λ p : Z * relayItem, tomb p.2 = false) m) ≠ 0%nat); [|lia].
    intros H0. apply map_size_empty_inv in H0. rewrite H0 in Hl. done.
Qed.
Lemma ntomb_delete id i m : m !! id = Some i →
  ntomb (delete id m) = ntomb m - (if tomb i then 1 else 0).
Proof.
  intros Hm. unfold ntomb, tomb_items. rewrite map_filter_delete.
  destruct (tomb i) eqn:Ht.
  - assert (Hl : filter (λ p, tomb p.2 = true) m !! id = Some i) by by apply map_lookup_filter_Some.
    rewrite map_size_delete_Some by (by eexists).
    assert (size (filter (λ p : Z * relayItem, tomb p.2 = true) m) ≠ 0%nat); [|lia].
    intros H0. apply map_size_empty_inv in H0. rewrite H0 in Hl. done.
  - rewrite delete_id; [lia|]. apply map_lookup_filter_None. right. intros j Hj. cbn. congruence.
Qed.

(** Turning a live item into a tomb. *)
Lemma nlive_entomb id i m : m !! id = Some i → tomb i = false →
  nlive (<[id:=set_tomb i]> m) = nlive m - 1.
Proof.
  intros Hm Hi. pose proof (nlive_delete id i m Hm) as H. rewrite Hi in H.
  unfold nlive, live_items in *. rewrite map_filter_insert_False by done.
  by rewrite map_filter_delete in *.
Qed.
Lemma ntomb_entomb id i m : m !! id = Some i → tomb i = false →
  ntomb (<[id:=set_tomb i]> m) = ntomb m + 1.
Proof.
  intros Hm Hi. unfold ntomb, tomb_items. rewrite map_filter_insert_True by done.
  rewrite map_size_insert_None; [lia|]. apply map_lookup_filter_None. right.
  intros j Hj. cbn. congruence.
Qed.
Lemma ntomb_pos id i m : m !! id = Some i → tomb i = true → 1 <= ntomb m.
Proof.
  intros Hm Hi. pose proof (ntomb_delete id i m Hm) as H. rewrite Hi in H.
  unfold ntomb in *. lia.
Qed.
Lemma nlive_pos id i m : m !! id = Some i → tomb i = false → 1 <= nlive m.
Proof.
  intros Hm Hi. pose proof (nlive_delete id i m Hm) as H. rewrite Hi in H.
  unfold nlive in *. lia.
Qed.

(** Every item is live or a tomb. *)
Lemma size_live_tomb m : Z.of_nat (size m) - ntomb m = nlive m.
Proof.
  unfold nlive, ntomb, live_items, tomb_items.
  assert (Hm : m = filter (λ p : Z * relayItem, tomb p.2 = false) m ∪ filter (λ p : Z * relayItem, tomb p.2 = true) m).
  { apply map_eq. intros id. destruct (m !! id) as [i|] eqn:E; symmetry.
    - destruct (tomb i) eqn:Ht.
      + apply lookup_union_Some_raw. right. split; [|by apply map_lookup_filter_Some].
        apply map_lookup_filter_None. right. intros j Hj. cbn. congruence.
      + apply lookup_union_Some_raw. left. by apply map_lookup_filter_Some.
    - apply lookup_union_None. split; apply map_lookup_filter_None; by left. }
  rewrite Hm at 1. rewrite map_size_disj_union; [lia|].
  apply map_disjoint_spec. intros id i j [Hi Hi']%map_lookup_filter_Some [Hj Hj']%map_lookup_filter_Some.
  cbn in *. congruence.
Qed.

(** ** The invariant

    In the middle of a handler the books are off by what the handler still owes:
    [δ] calls of a relayer are counted as pending without an item; the timers of the
    live items in [X] have been stopped ([Some true]) or have run ([Some false]); the
    calls in [O] are open without an item. *)

Abbreviation ikey := (itemsRef * Z)%type.

Definition item_at (w : World) (k : ikey) : option relayItem := items (get_items k.1 w) !! k.2.

Definition nothing : ikey → option bool := λ _, None.
Definition no_debt : nat → Z := λ _, 0.
Definition none_open : nat → Prop := λ _, False.

Definition idle (x : relayTimer) : Prop :=
  active x = false ∧ rt_pending x = false ∧ rt_fired x = 0%nat.

Definition running (x : relayTimer) (k : ikey) (i : relayItem) : Prop :=
  active x = true ∧ stopped x = false ∧ rt_items x = Some k.1 ∧ rt_id x = k.2
  ∧ rt_isOriginator x = isOriginator i
  ∧ (rt_pending x = true ∧ rt_fired x = 0%nat ∨ rt_pending x = false ∧ rt_fired x = 1%nat).

(** The timer of an item. *)
Definition timer_ok (X : ikey → option bool) (w : World) (k : ikey) (i : relayItem) : Prop :=
  let x := w_timer w (timeout i) in
  released x = false ∧ rt_pool x = k.1.1 ∧ (timeout i < w_nextTimer w)%nat
  ∧ if tomb i then idle x
    else match X k with
         | None => running x k i
         | Some b => idle x ∧ stopped x = b
         end.

Definition nends (l : list callEvent) : nat := length (filter (λ e, e = End) l).

Definition relayer_live (r : nat) (w : World) : Z :=
  nlive (items (r_outbound (w_relayer w r))) + nlive (items (r_inbound (w_relayer w r))).

Definition conn_of (w : World) (r : nat) : Connection := r_conn (w_relayer w r).

Record books (δ : nat → Z) (X : ikey → option bool) (O : nat → Prop) (w : World) : Prop := {
  b_conn r : conn_inv (conn_of w r) ∧ (conn_bal (conn_of w r)).1 = 0;
  b_pending r : c_pending (conn_of w r) = Some (relayer_live r w + δ r);
  b_tombs ref : tombs (get_items ref w) = ntomb (items (get_items ref w))
    ∧ tombs (get_items ref w) <= maxTombs (get_items ref w) + 1
    ∧ 0 <= maxTombs (get_items ref w) < 2^64 - 1;
  b_side k i : item_at w k = Some i → isOriginator i = bool_decide (k.1.2 = outboundItems);
  b_timer k i : item_at w k = Some i → timer_ok X w k i;
  b_own k i k' i' : item_at w k = Some i → item_at w k' = Some i' → timeout i = timeout i' → k = k';
  b_fires t : rt_pending (w_timer w t) = true ∨ rt_fired (w_timer w t) ≠ 0%nat →
    ∃ k i, item_at w k = Some i ∧ timeout i = t;
  b_fresh t : (w_nextTimer w <= t)%nat → idle (w_timer w t);
  b_pool r : NoDup (r_pool (w_relayer w r));
  b_pooled r t : t ∈ r_pool (w_relayer w r) →
    (t < w_nextTimer w)%nat ∧ idle (w_timer w t) ∧ released (w_timer w t) = true ∧ rt_pool (w_timer w t) = r;
  b_gc k i : item_at w k = Some i → (tomb i = true ↔ k ∈ w_gc w);
  b_gc_dup : NoDup (w_gc w);
  b_call k i : item_at w k = Some i → tomb i = false → isOriginator i = true →
    (call i < w_nextCall w)%nat ∧ nends (w_call w (call i)) = 0%nat ∧ ¬ O (call i);
  b_call_own k i k' i' : item_at w k = Some i → item_at w k' = Some i' →
    tomb i = false → tomb i' = false → isOriginator i = true → isOriginator i' = true →
    call i = call i' → k = k';
  b_open c : O c → (c < w_nextCall w)%nat ∧ nends (w_call w c) = 0%nat;
  b_ended c : (c < w_nextCall w)%nat → ¬ O c →
    (∀ k i, item_at w k = Some i → tomb i = false → isOriginator i = true → call i ≠ c) →
    nends (w_call w c) = 1%nat
}.

(** Two worlds with the same items, timers and numbers of ends. *)
Record same_books (w w' : World) : Prop := {
  sb_items ref : get_items ref w' = get_items ref w;
  sb_pool r : r_pool (w_relayer w' r) = r_pool (w_relayer w r);
  sb_timer t : w_timer w' t = w_timer w t;
  sb_nextTimer : w_nextTimer w' = w_nextTimer w;
  sb_ends c : nends (w_call w' c) = nends (w_call w c);
  sb_nextCall : w_nextCall w' = w_nextCall w;
  sb_gc : w_gc w' = w_gc w;
  sb_conn r : conn_inv (conn_of w r) → conn_inv (conn_of w' r);
  sb_bal r : conn_inv (conn_of w r) → (conn_bal (conn_of w' r)).1 = (conn_bal (conn_of w r)).1;
  sb_pending r : conn_inv (conn_of w r) → c_pending (conn_of w' r) = c_pending (conn_of w r)
}.

Lemma same_item w w' k : same_books w w' → item_at w' k = item_at w k.
Proof. intros H. unfold item_at. by rewrite (sb_items _ _ H). Qed.

Lemma same_live w w' r : same_books w w' → relayer_live r w' = relayer_live r w.
Proof.
  intros H. unfold relayer_live.
  change (r_outbound (w_relayer w' r)) with (get_items (r, outboundItems) w').
  change (r_inbound (w_relayer w' r)) with (get_items (r, inboundItems) w').
  by rewrite !(sb_items _ _ H).
Qed.

Lemma books_same δ X O w w' : same_books w w' → books δ X O w → books δ X O w'.
Proof.
  intros H [B1 B2 B3 B4 B5 B6 B7 B8 B9 B10 B11 B12 B13 B14 B15 B16].
  assert (Hi : ∀ k, item_at w' k = item_at w k) by (intros k; by apply same_item).
  pose proof H as [_ Hpool Ht Hnt Hends Hnc Hgc Hc Hb Hp]. split.
  - intros r. destruct (B1 r). split; [by apply Hc|by rewrite Hb].
  - intros r. rewrite Hp, (same_live _ _ _ H) by apply B1. apply B2.
  - intros ref. rewrite (sb_items _ _ H). apply B3.
  - intros k i. rewrite Hi. apply B4.
  - intros k i. rewrite Hi. intros Hk. specialize (B5 k i Hk). unfold timer_ok in *. by rewrite Ht, Hnt.
  - intros k i k' i'. rewrite !Hi. apply B6.
  - intros t. rewrite Ht. intros Hf. destruct (B7 t Hf) as (k & i & Hk & Heq). exists k, i. by rewrite Hi.
  - intros t. rewrite Hnt, Ht. apply B8.
  - intros r. rewrite Hpool. apply B9.
  - intros r t. rewrite Hpool, Ht, Hnt. apply B10.
  - intros k i. rewrite Hgc, Hi. apply B11.
  - by rewrite Hgc.
  - intros k i. rewrite Hi, Hnc, Hends. apply B13.
  - intros k i k' i'. rewrite !Hi. apply B14.
  - intros c. rewrite Hnc, Hends. apply B15.
  - intros c. rewrite Hnc, Hends. intros Hlt Ho Hno. apply B16; [done..|]. intros k i Hk. apply (Hno k i). by rewrite Hi.
Qed.

Lemma books_ext δ δ' X X' O O' w :
  (∀ r, δ r = δ' r) → (∀ k, X k = X' k) → (∀ c, O c ↔ O' c) → books δ X O w → books δ' X' O' w.
Proof.
  intros Hd HX HO [B1 B2 B3 B4 B5 B6 B7 B8 B9 B10 B11 B12 B13 B14 B15 B16]. split; try done.
  - intros r. by rewrite <- Hd.
  - intros k i Hk. specialize (B5 k i Hk). unfold timer_ok in *. by rewrite <- HX.
  - intros k i. rewrite <- HO. apply B13.
  - intros c. rewrite <- HO. apply B15.
  - intros c. rewrite <- HO. apply B16.
Qed.

(** ** Actions that leave the books alone *)

Lemma relayer_do_eq r f w r' :
  w_relayer (w_relayer_do r f w) r' = if decide (r = r') then f (w_relayer w r) else w_relayer w r'.
Proof. done. Qed.

Lemma get_items_do r f ref w :
  (∀ x, r_outbound (f x) = r_outbound x ∧ r_inbound (f x) = r_inbound x) →
  get_items ref (w_relayer_do r f w) = get_items ref w.
Proof.
  intros Hf. unfold get_items. rewrite relayer_do_eq. case_decide as E; [|done].
  destruct (Hf (w_relayer w r)) as [H1 H2]. subst. rewrite H1, H2. done.
Qed.

Lemma same_conn r c w :
  (conn_inv (conn_of w r) → conn_inv c ∧ (conn_bal c).1 = (conn_bal (conn_of w r)).1
   ∧ c_pending c = c_pending (conn_of w r)) →
  same_books w (w_relayer_do r (r_set_conn c) w).
Proof.
  intros Hc. split; try done.
  - intros ref. by apply get_items_do.
  - intros r'. rewrite relayer_do_eq. by case_decide; subst.
  - intros r'. unfold conn_of. rewrite relayer_do_eq. case_decide; subst; [|done]. intros HI. apply Hc, HI.
  - intros r'. unfold conn_of. rewrite relayer_do_eq. case_decide; subst; [|done]. intros HI. apply Hc, HI.
  - intros r'. unfold conn_of. rewrite relayer_do_eq. case_decide; subst; [|done]. intros HI. apply Hc, HI.
Qed.

(** What a handler may assume and must keep. *)
Abbreviation preserves δ X O p := (triple (books δ X O) p (λ _, books δ X O)).

Lemma keeps_atomic {A} δ X O (m : ST World A) :
  (∀ w, same_books w (m w).2) → preserves δ X O (atomic m).
Proof. intros H. apply triple_atomic. intros w. apply books_same, H. Qed.

(** A call into a connection. *)
Lemma on_conn_keeps {A} δ X O r (p : prog Connection A) :
  neutral_c p → preserves δ X O (on_conn r p).
Proof.
  intros Hp. apply triple_act. intros w Hw. destruct (b_conn _ _ _ _ Hw r) as [HI Hb].
  pose proof (inv_pending _ HI) as Hpos.
  pose proof (neutral_run conn_inv advance conn_bal p (conn_of w r) Hp HI) as Hr.
  fold (conn_of w r). destruct (run p (conn_of w r)) as [[a c]| |]; [| |done].
  - destruct Hr as (HI' & HG & Hbal%acc_same_eq).
    { apply acc_le_pair; [by rewrite Hb|done]. }
    apply (books_same _ _ _ w); [|done]. apply same_conn. intros _. split_and!; [done|by rewrite Hbal|].
    pose proof (adv_relay _ _ HG) as Hn. rewrite (b_pending _ _ _ _ Hw r) in *.
    apply (f_equal snd) in Hbal. cbn in Hbal. unfold pending in Hbal.
    rewrite (b_pending _ _ _ _ Hw r) in Hbal. cbn in Hbal.
    destruct (c_pending c); [cbn in Hbal; congruence|]. by destruct (proj2 Hn).
  - apply Hr. apply acc_le_pair; [by rewrite Hb|done].
Qed.

Lemma tell_same c e w : e ≠ End → same_books w (tell c e w).
Proof.
  intros He. split; try done. intros c'. cbn. unfold insert, fn_insert. case_decide; subst; [|done].
  unfold nends. rewrite filter_app, length_app, filter_cons_False by done. cbn. lia.
Qed.

Lemma tell_keeps δ X O c e : e ≠ End → preserves δ X O (w_do (tell c e)).
Proof. intros He. apply keeps_atomic. intros w. by apply tell_same. Qed.

Lemma go_keeps {A} δ X O (m : go A) : is_Ret m → preserves δ X O (w_call_go m).
Proof. intros [a ->]. apply triple_act. intros w Hw. exact Hw. Qed.

Lemma read_keeps {A} δ X O (f : World → A) : preserves δ X O (w_read f).
Proof. apply triple_atomic. by intros w Hw. Qed.

Lemma SendSystemError_keeps δ X O r id span err : preserves δ X O (relay_SendSystemError r id span err).
Proof.
  unfold relay_SendSystemError. eapply triple_bind; [apply on_conn_keeps, SendSystemError_neutral|].
  intros a. apply triple_ret. auto.
Qed.

(** ** Counting pending calls *)

(** A connection with another pending count. *)
Lemma books_conn δ X O w r c d :
  books δ X O w → conn_inv c → (conn_bal c).1 = 0 → c_pending c = Some (relayer_live r w + d) →
  books (<[r:=d]> δ) X O (w_relayer_do r (r_set_conn c) w).
Proof.
  intros [B1 B2 B3 B4 B5 B6 B7 B8 B9 B10 B11 B12 B13 B14 B15 B16] HI Hb Hp.
  set (w' := w_relayer_do r (r_set_conn c) w).
  assert (Hg : ∀ ref, get_items ref w' = get_items ref w) by (intros ref; by apply get_items_do).
  assert (Hi : ∀ k, item_at w' k = item_at w k) by (intros k; unfold item_at; by rewrite Hg).
  assert (Hpool : ∀ r', r_pool (w_relayer w' r') = r_pool (w_relayer w r')).
  { intros r'. unfold w'. rewrite relayer_do_eq. by case_decide; subst. }
  assert (Hlive : ∀ r', relayer_live r' w' = relayer_live r' w).
  { intros r'. unfold relayer_live, w'. rewrite relayer_do_eq. by case_decide; subst. }
  split; try done.
  - intros r'. unfold conn_of, w'. rewrite relayer_do_eq. case_decide; [by split|apply B1].
  - intros r'. rewrite Hlive. unfold conn_of, w'. rewrite relayer_do_eq. unfold insert, fn_insert.
    case_decide; subst; [done|apply B2].
  - intros ref. rewrite Hg. apply B3.
  - intros k i. rewrite Hi. apply B4.
  - intros k i. rewrite Hi. apply B5.
  - intros k i k' i'. rewrite !Hi. apply B6.
  - intros t Ht. destruct (B7 t Ht) as (k & i & Hk & E). exists k, i. by rewrite Hi.
  - intros r'. rewrite Hpool. apply B9.
  - intros r' t. rewrite Hpool. apply B10.
  - intros k i. rewrite Hi. apply B11.
  - intros k i. rewrite Hi. apply B13.
  - intros k i k' i'. rewrite !Hi. apply B14.
  - intros c0 Hlt Ho Hno. apply B16; [done..|]. intros k i Hk. apply (Hno k i). by rewrite Hi.
Qed.

Lemma relayer_live_nonneg r w : 0 <= relayer_live r w.
Proof. unfold relayer_live. pose proof (nlive_nonneg (items (r_outbound (w_relayer w r)))).
  pose proof (nlive_nonneg (items (r_inbound (w_relayer w r)))). lia. Qed.

Lemma pending_of_conn c n : c_pending c = Some n → pending c = n.
Proof. unfold pending. by intros ->. Qed.

Lemma run_decrementPending c n :
  conn_inv c → (conn_bal c).1 = 0 → c_pending c = Some n → 1 <= n →
  match run decrementPending c with
  | Ret (_, c') => conn_inv c' ∧ (conn_bal c').1 = 0 ∧ c_pending c' = Some (n - 1)
  | Panic => False
  | OutOfFuel => True
  end.
Proof.
  intros HI Hb Hp Hn. pose proof (pending_of_conn _ _ Hp) as Hpc.
  unfold decrementPending, c_do. rewrite run_atomic. cbn [fst snd]. rewrite Hp.
  change ((λ n, n - 1) <$> Some n) with (Some (n - 1)).
  destruct (pending_change (n - 1) c HI) as (HI1 & _ & Hb1); [lia|right; lia|by eexists|].
  pose proof (neutral_run conn_inv advance conn_bal checkExchanges
                (c_set_pending (Some (n - 1)) c) checkExchanges_neutral HI1) as Hr.
  destruct (run checkExchanges _) as [[u c']| |]; [|apply Hr; rewrite Hb1, Hb; acc_lia|done].
  destruct Hr as (HI2 & HG & Hb2%acc_same_eq); [rewrite Hb1, Hb; acc_lia|].
  split_and!; [done|by rewrite Hb2, Hb1|].
  pose proof (adv_relay _ _ HG) as Hrel. cbn in Hrel. rewrite Hb1 in Hb2. apply (f_equal snd) in Hb2. cbn in Hb2.
  unfold pending in Hb2. destruct (c_pending c') as [m|]; [cbn in Hb2; congruence|].
  by destruct (proj2 Hrel).
Qed.

Lemma pending_done_ok δ X O r :
  1 <= δ r →
  triple (books δ X O) (pending_done r) (λ _, books (<[r := δ r - 1]> δ) X O).
Proof.
  intros Hd. apply triple_act. intros w Hw. fold (conn_of w r).
  destruct (b_conn _ _ _ _ Hw r) as [HI Hb]. pose proof (b_pending _ _ _ _ Hw r) as Hp.
  pose proof (relayer_live_nonneg r w).
  pose proof (run_decrementPending (conn_of w r) _ HI Hb Hp ltac:(lia)) as Hr.
  destruct (run decrementPending (conn_of w r)) as [[u c]| |]; [|done..].
  destruct Hr as (HI' & Hb' & Hp'). apply books_conn; [done..|]. rewrite Hp'. f_equal. lia.
Qed.

Lemma canHandleNewCall_ok δ X O r :
  triple (books δ X O) (on_conn r canHandleNewCall)
    (λ a, if a.1 then books (<[r := δ r + 1]> δ) X O else books δ X O).
Proof.
  apply triple_act. intros w Hw. fold (conn_of w r).
  destruct (b_conn _ _ _ _ Hw r) as [HI Hb]. pose proof (b_pending _ _ _ _ Hw r) as Hp.
  pose proof (pending_of_conn _ _ Hp) as Hpc. pose proof (inv_pending _ HI).
  unfold canHandleNewCall. cbn. unfold glift. case_decide as Ea.
  - rewrite Hp. change ((λ n, n + 1) <$> Some (relayer_live r w + δ r)) with (Some (relayer_live r w + δ r + 1)).
    destruct (pending_change (relayer_live r w + δ r + 1) (conn_of w r) HI) as (HI1 & _ & Hb1);
      [lia|by left|by eexists|].
    cbn [fst]. apply books_conn; [done|done|by rewrite Hb1|]. cbn. f_equal. lia.
  - cbn [fst]. apply (books_same _ _ _ w); [|done]. apply same_conn. done.
Qed.

(** ** Timers of items *)

Lemma books_set_timer δ X X' O w k i x :
  books δ X O w → item_at w k = Some i → (∀ k', k' ≠ k → X' k' = X k') →
  timer_ok X' (w_set_timer (timeout i) x w) k i → books δ X' O (w_set_timer (timeout i) x w).
Proof.
  intros [B1 B2 B3 B4 B5 B6 B7 B8 B9 B10 B11 B12 B13 B14 B15 B16] Hk HX Hok.
  destruct (B5 k i Hk) as (Hrel & _ & Hlt & _).
  assert (Hne : ∀ t, t ≠ timeout i → w_timer (w_set_timer (timeout i) x w) t = w_timer w t).
  { intros t Ht. cbn. unfold insert, fn_insert. by rewrite decide_False by congruence. }
  split; try done.
  - intros k' i' Hk'. destruct (decide (k' = k)) as [->|Hkk].
    { change (item_at w k = Some i') in Hk'. by simplify_eq. }
    assert (Ht : timeout i' ≠ timeout i) by (intros E; by apply Hkk, (B6 k' i' k i)).
    unfold timer_ok. rewrite Hne, HX by done. by apply B5.
  - intros t Ht. destruct (decide (t = timeout i)) as [->|E]; [by exists k, i|].
    rewrite Hne in Ht by done. exact (B7 t Ht).
  - intros t Ht. rewrite Hne; [by apply B8|]. intros ->. cbn in Ht. lia.
  - intros r t Ht. rewrite Hne; [by apply (B10 r)|]. intros ->. destruct (B10 r _ Ht) as (_ & _ & H & _). congruence.
Qed.

Lemma set_timer_eq t x w : w_timer (w_set_timer t x w) t = x.
Proof. cbn. unfold insert, fn_insert. by rewrite decide_True. Qed.

(** Stopping the timer of an item. *)
Lemma items_Get_ok δ X O ref id stop :
  X (ref, id) ≠ Some false →
  triple (books δ X O) (items_Get ref id stop) (λ g w', match g with
    | None => books δ X O w' ∧ item_at w' (ref, id) = None
    | Some (i, b) => item_at w' (ref, id) = Some i
        ∧ (stop = true → tomb i = false → X (ref, id) = Some true → b = true)
        ∧ books δ (if stop && negb (tomb i) && b then <[(ref, id) := Some true]> X else X) O w'
    end).
Proof.
  intros HX. apply triple_act. intros w Hw. change (items (get_items ref w) !! id) with (item_at w (ref, id)).
  destruct (item_at w (ref, id)) as [i|] eqn:Hk; [|done]. destruct stop; [|done].
  unfold timer_Stop, verifyNotReleased. destruct (b_timer _ _ _ _ Hw _ _ Hk) as (Hrel & Hpool & Hlt & Hst).
  rewrite Hrel. set (t := timeout i) in *. set (x := w_timer w t) in *.
  destruct (tomb i) eqn:Htomb.
  { destruct Hst as (Ha & Hp & Hf). rewrite Hp. destruct (stopped x); (split_and!; [done|congruence|]); by rewrite Htomb. }
  destruct (X (ref, id)) as [b|] eqn:HXk.
  - destruct Hst as ((Ha & Hp & Hf) & Hs). destruct b; [|done]. rewrite Hs. split_and!; [done..|].
    rewrite Htomb. cbn [andb negb]. eapply books_ext; [..|exact Hw]; try done. intros k. unfold insert, fn_insert.
    case_decide; congruence.
  - destruct Hst as (Ha & Hs & Hi & Hid & Ho & Hcase). rewrite Hs.
    destruct Hcase as [[Hp Hf]|[Hp Hf]]; rewrite Hp; [|rewrite Htomb; by split_and!].
    split_and!; [done..|]. rewrite Htomb. cbn [andb negb]. apply (books_set_timer _ X _ _ _ (ref, id)); [done..| |].
    + intros k' Hne. unfold insert, fn_insert. by rewrite decide_False.
    + unfold timer_ok. fold t. rewrite set_timer_eq. cbn. rewrite Htomb. unfold insert, fn_insert.
      rewrite decide_True by done. by split_and!.
Qed.

(** ** Taking an item out of the books *)

Lemma get_items_set ref x w ref' :
  get_items ref' (set_items ref x w) = if decide (ref = ref') then x else get_items ref' w.
Proof.
  unfold get_items, set_items. rewrite relayer_do_eq. destruct ref as [r s], ref' as [r' s']. cbn.
  case_decide as E; [|by rewrite decide_False by congruence]. subst r'.
  destruct s, s'; by repeat case_decide.
Qed.

Lemma item_at_set ref mx tb m w k :
  item_at (set_items ref (mkRelayItems mx tb m) w) k = if decide (ref = k.1) then m !! k.2 else item_at w k.
Proof. unfold item_at. rewrite get_items_set. by case_decide. Qed.

Lemma set_items_conn ref x w r : conn_of (set_items ref x w) r = conn_of w r.
Proof. unfold conn_of, set_items. rewrite relayer_do_eq. by case_decide; subst. Qed.
Lemma set_items_pool ref x w r : r_pool (w_relayer (set_items ref x w) r) = r_pool (w_relayer w r).
Proof. unfold set_items. rewrite relayer_do_eq. by case_decide; subst. Qed.

(** How the number of live items of a relayer changes with one of its maps. *)
Lemma relayer_live_set ref x w r :
  relayer_live r (set_items ref x w)
  = relayer_live r w + (if decide (r = ref.1) then nlive (items x) - nlive (items (get_items ref w)) else 0).
Proof.
  unfold relayer_live, set_items, get_items. rewrite relayer_do_eq. destruct ref as [r0 s]. cbn.
  case_decide as E; [|rewrite decide_False by congruence; lia]. subst.
  rewrite decide_True by done. destruct s; cbn; repeat case_decide; try done; lia.
Qed.

Definition opened (i : relayItem) (O : nat → Prop) : nat → Prop :=
  λ c, O c ∨ (tomb i = false ∧ isOriginator i = true ∧ c = call i).

Definition owing (r : nat) (i : relayItem) (δ : nat → Z) : nat → Z :=
  if tomb i then δ else <[r := δ r + 1]> δ.

(** An item is deleted, or a live one becomes a tomb; if it was live its timer is out
    of the way already. *)
Lemma books_take δ X O w k i oi tb gc :
  books δ X O w → item_at w k = Some i → (tomb i = false → X k ≠ None) →
  (oi = None ∧ gc = w_gc w ∧ tb = tombs (get_items k.1 w) - (if tomb i then 1 else 0)
   ∨ oi = Some (set_tomb i) ∧ tomb i = false ∧ gc = w_gc w ++ [k]
     ∧ tb = tombs (get_items k.1 w) + 1 ∧ tombs (get_items k.1 w) <= maxTombs (get_items k.1 w)) →
  books (owing k.1.1 i δ) (<[k := None]> X) (opened i O)
    (w_set_gc gc (set_items k.1 (mkRelayItems (maxTombs (get_items k.1 w)) tb
       (partial_alter (λ _, oi) k.2 (items (get_items k.1 w)))) w)).
Proof.
  intros [B1 B2 B3 B4 B5 B6 B7 B8 B9 B10 B11 B12 B13 B14 B15 B16] Hk HX Hoi.
  set (m := items (get_items k.1 w)) in *. set (mx := maxTombs (get_items k.1 w)) in *.
  set (m' := partial_alter (λ _, oi) k.2 m).
  assert (Hm : m !! k.2 = Some i) by exact Hk.
  assert (Hcount : nlive m' = nlive m - (if tomb i then 0 else 1) ∧ ntomb m' = tb ∧ tb <= mx + 1).
  { destruct (B3 k.1) as (Ht & Hle & Hmx). fold m in Ht. fold mx in Hle, Hmx. unfold m'.
    destruct Hoi as [(-> & _ & ->)|(-> & Hi & _ & -> & Hmax)].
    - change (partial_alter (λ _, None) k.2 m) with (delete k.2 m).
      rewrite (nlive_delete _ _ _ Hm), (ntomb_delete _ _ _ Hm), <- Ht. destruct (tomb i); lia.
    - change (partial_alter (λ _, Some (set_tomb i)) k.2 m) with (<[k.2 := set_tomb i]> m).
      rewrite (nlive_entomb _ _ _ Hm Hi), (ntomb_entomb _ _ _ Hm Hi), Hi. lia. }
  destruct Hcount as (Hlive & Htomb & Htb).
  set (w' := w_set_gc gc (set_items k.1 (mkRelayItems mx tb m') w)).
  assert (Hitem : ∀ k', item_at w' k' = if decide (k' = k) then oi else item_at w k').
  { intros k'. change (item_at w' k') with (item_at (set_items k.1 (mkRelayItems mx tb m') w) k').
    rewrite item_at_set. destruct k as [ref id], k' as [ref' id']. cbn in *. case_decide as E.
    - subst ref'. unfold m'. case_decide as E'; [injection E' as ->; apply lookup_partial_alter_eq|].
      by rewrite lookup_partial_alter_ne by congruence.
    - by rewrite decide_False by congruence. }
  assert (Hcase : ∀ k' j, item_at w' k' = Some j →
    k' ≠ k ∧ item_at w k' = Some j ∨ k' = k ∧ j = set_tomb i ∧ gc = w_gc w ++ [k]).
  { intros k' j. rewrite Hitem. case_decide as E; [|by left]. intros ->. right.
    destruct Hoi as [(? & _)|([= ->] & _ & ? & _)]; done. }
  assert (Hidle : idle (w_timer w (timeout i))).
  { destruct (B5 k i Hk) as (_ & _ & _ & Hst). destruct (tomb i); [done|]. destruct (X k); [apply Hst|].
    by destruct HX. }
  assert (Hmem : ∀ k', k' ≠ k → (k' ∈ gc ↔ k' ∈ w_gc w)).
  { intros k' Hne. destruct Hoi as [(_ & -> & _)|(_ & _ & -> & _)]; [done|].
    rewrite elem_of_app, list_elem_of_singleton. split; [by intros [?|?]|by left]. }
  split.
  - intros r. unfold w'. change (conn_of _ r) with (conn_of (set_items k.1 (mkRelayItems mx tb m') w) r).
    rewrite set_items_conn. apply B1.
  - intros r. change (conn_of w' r) with (conn_of (set_items k.1 (mkRelayItems mx tb m') w) r).
    change (relayer_live r w') with (relayer_live r (set_items k.1 (mkRelayItems mx tb m') w)).
    rewrite set_items_conn, relayer_live_set, B2. cbn [items]. rewrite Hlive. fold m. unfold owing.
    f_equal. destruct (tomb i); unfold insert, fn_insert; repeat case_decide; subst; try lia; congruence.
  - intros ref. change (get_items ref w') with (get_items ref (set_items k.1 (mkRelayItems mx tb m') w)).
    rewrite get_items_set. case_decide as E; [|apply B3]. cbn. subst ref. split_and!; [done|done|apply B3..].
  - intros k' j Hj. destruct (Hcase _ _ Hj) as [[_ H]|(-> & -> & _)]; [by apply B4|by apply (B4 k i)].
  - intros k' j Hj. destruct (Hcase _ _ Hj) as [[Hne H]|(-> & -> & _)].
    + specialize (B5 _ _ H). unfold timer_ok in *. unfold insert, fn_insert.
      by rewrite decide_False by congruence.
    + destruct (B5 k i Hk) as (? & ? & ? & _). by split_and!.
  - intros k1 j1 k2 j2 H1 H2. destruct (Hcase _ _ H1) as [[_ E1]|(-> & -> & _)], (Hcase _ _ H2) as [[_ E2]|(-> & -> & _)];
      [by apply B6|by apply (B6 k1 j1 k i)|by apply (B6 k i k2 j2)|done].
  - intros t Ht. destruct (B7 t Ht) as (k0 & i0 & Hk0 & E). exists k0, i0. split; [|done].
    rewrite Hitem. case_decide as Ek; [|done]. subst k0. exfalso.
    assert (i0 = i) as -> by congruence. rewrite E in Hidle. destruct Hidle as (_ & Hp & Hf).
    cbn in Ht. destruct Ht; congruence.
  - exact B8.
  - intros r. change (w_relayer w' r) with (w_relayer (set_items k.1 (mkRelayItems mx tb m') w) r).
    rewrite set_items_pool. apply B9.
  - intros r t. change (w_relayer w' r) with (w_relayer (set_items k.1 (mkRelayItems mx tb m') w) r).
    rewrite set_items_pool. apply B10.
  - intros k' j Hj. change (w_gc w') with gc. destruct (Hcase _ _ Hj) as [[Hne H]|(-> & -> & ->)].
    + rewrite Hmem by done. by apply B11.
    + split; [intros _|done]. apply elem_of_app. right. by apply list_elem_of_singleton.
  - change (w_gc w') with gc. destruct Hoi as [(_ & -> & _)|(_ & Hi & -> & _)]; [done|].
    apply NoDup_app. split_and!; [done| |apply NoDup_singleton].
    intros k' Hin ->%list_elem_of_singleton. apply (B11 k i Hk) in Hin. congruence.
  - intros k' j Hj Hl Ho. destruct (Hcase _ _ Hj) as [[Hne H]|(-> & -> & _)]; [|done].
    destruct (B13 _ _ H Hl Ho) as (H1 & H2 & H3). split_and!; [done..|]. intros [?|(Hi & Hoi' & E)]; [done|].
    by apply Hne, (B14 k' j k i).
  - intros k1 j1 k2 j2 H1 H2 L1 L2. destruct (Hcase _ _ H1) as [[_ E1]|(-> & -> & _)]; [|done].
    destruct (Hcase _ _ H2) as [[_ E2]|(-> & -> & _)]; [|done]. by apply B14.
  - intros c [Ho|(Hi & Ho & ->)]; [by apply B15|]. by apply B13 in Hk as (? & ? & _).
  - intros c Hlt Hno Hnone. apply B16; [done|intros ?; apply Hno; by left|].
    intros k0 i0 Hk0 Hl Ho Hc. destruct (decide (k0 = k)) as [->|Hne].
    + simplify_eq. apply Hno. by right.
    + apply (Hnone k0 i0); [|done..]. rewrite Hitem. by rewrite decide_False.
Qed.

(** A timer that no item has. *)
Definition orphan (w : World) (t r : nat) : Prop :=
  (t < w_nextTimer w)%nat ∧ idle (w_timer w t) ∧ released (w_timer w t) = false
  ∧ rt_pool (w_timer w t) = r ∧ ∀ k i, item_at w k = Some i → timeout i ≠ t.

Lemma timer_Release_ok δ X O t r :
  triple (λ w, books δ X O w ∧ orphan w t r) (atomic_go (timer_Release t)) (λ _, books δ X O).
Proof.
  apply triple_act.
  intros w [[B1 B2 B3 B4 B5 B6 B7 B8 B9 B10 B11 B12 B13 B14 B15 B16] (Hlt & Hidle & Hrel & Hp & Hown)].
  unfold timer_Release, verifyNotReleased. rewrite Hrel. destruct Hidle as (Ha & Hpend & Hf). rewrite Ha.
  set (x := mkRelayTimer _ _ _ _ _ _ true _ _ _). set (w1 := w_set_timer t x w).
  assert (Hx : w_timer w1 t = x) by apply set_timer_eq.
  assert (Hne : ∀ t', t' ≠ t → w_timer w1 t' = w_timer w t').
  { intros t' Ht. cbn. unfold insert, fn_insert. by rewrite decide_False by congruence. }
  assert (Hpool : ∀ r', r_pool (w_relayer (timeouts_Put t w1) r') = r_pool (w_relayer w r')
    ∨ r' = r ∧ r_pool (w_relayer (timeouts_Put t w1) r') = t :: r_pool (w_relayer w r')).
  { intros r'. unfold timeouts_Put. rewrite Hx. change (rt_pool x) with (rt_pool (w_timer w t)). rewrite Hp.
    destruct (r_verify _); [by left|]. rewrite relayer_do_eq. case_decide; [|by left]. right. by subst. }
  assert (Hconn : ∀ r', conn_of (timeouts_Put t w1) r' = conn_of w r').
  { intros r'. unfold conn_of, timeouts_Put. destruct (r_verify _); [done|].
    rewrite relayer_do_eq. case_decide as E; [|done]. by rewrite <- E. }
  assert (Hitems : ∀ ref, get_items ref (timeouts_Put t w1) = get_items ref w).
  { intros ref. unfold timeouts_Put. destruct (r_verify _); [done|]. by rewrite get_items_do. }
  assert (Hrest : w_timer (timeouts_Put t w1) = w_timer w1 ∧ w_nextTimer (timeouts_Put t w1) = w_nextTimer w
    ∧ w_call (timeouts_Put t w1) = w_call w ∧ w_nextCall (timeouts_Put t w1) = w_nextCall w
    ∧ w_gc (timeouts_Put t w1) = w_gc w).
  { unfold timeouts_Put. by destruct (r_verify _). }
  destruct Hrest as (R1 & R2 & R3 & R4 & R5).
  assert (Hi : ∀ k, item_at (timeouts_Put t w1) k = item_at w k) by (intros k; unfold item_at; by rewrite Hitems).
  assert (Hlive : ∀ r', relayer_live r' (timeouts_Put t w1) = relayer_live r' w).
  { intros r'. unfold relayer_live.
    change (r_outbound (w_relayer ?v r')) with (get_items (r', outboundItems) v).
    change (r_inbound (w_relayer ?v r')) with (get_items (r', inboundItems) v). by rewrite !Hitems. }
  split.
  - intros r'. rewrite Hconn. apply B1.
  - intros r'. rewrite Hconn, Hlive. apply B2.
  - intros ref. rewrite Hitems. apply B3.
  - intros k i. rewrite Hi. apply B4.
  - intros k i. rewrite Hi. intros Hk. specialize (B5 k i Hk). unfold timer_ok in *. rewrite R1, R2, Hne; [done|].
    by apply (Hown k).
  - intros k i k' i'. rewrite !Hi. apply B6.
  - intros t'. rewrite R1. intros Ht'. destruct (decide (t' = t)) as [->|E].
    { rewrite Hx in Ht'. cbn in Ht'. destruct Ht'; congruence. }
    rewrite Hne in Ht' by done. destruct (B7 t' Ht') as (k & i & Hk & Heq). exists k, i. by rewrite Hi.
  - intros t'. rewrite R1, R2. intros Ht'. rewrite Hne; [by apply B8|]. intros ->. lia.
  - intros r'. destruct (Hpool r') as [->|[-> ->]]; [apply B9|]. apply NoDup_cons. split; [|apply B9].
    intros Hin. destruct (B10 _ _ Hin) as (_ & _ & H & _). congruence.
  - intros r' t' Hin. rewrite R1, R2.
    assert (Hcase : t' = t ∧ r' = r ∨ t' ∈ r_pool (w_relayer w r')).
    { destruct (Hpool r') as [E|[-> E]]; rewrite E in Hin; [by right|].
      apply elem_of_cons in Hin as [->|?]; [by left|by right]. }
    destruct Hcase as [[-> ->]|Hin'].
    + rewrite Hx. by split_and!.
    + destruct (B10 _ _ Hin') as (H1 & H2 & H3 & H4). rewrite Hne; [done|]. intros ->. congruence.
  - intros k i. rewrite Hi, R5. apply B11.
  - by rewrite R5.
  - intros k i. rewrite Hi, R3, R4. apply B13.
  - intros k i k' i'. rewrite !Hi. apply B14.
  - intros c. rewrite R3, R4. apply B15.
  - intros c. rewrite R3, R4. intros H1 H2 H3. apply B16; [done..|]. intros k i Hk. apply (H3 k i). by rewrite Hi.
Qed.

Lemma books_clear δ X O w k :
  (∀ i, item_at w k = Some i → tomb i = true) → books δ X O w → books δ (<[k := None]> X) O w.
Proof.
  intros Hk [B1 B2 B3 B4 B5 B6 B7 B8 B9 B10 B11 B12 B13 B14 B15 B16]. split; try done.
  intros k' i Hi. specialize (B5 k' i Hi). unfold timer_ok, insert, fn_insert in *.
  case_decide as E; [|done]. subst k'. by rewrite (Hk i Hi) in *.
Qed.

Lemma opened_tomb i O c : tomb i = true → opened i O c ↔ O c.
Proof. intros Ht. unfold opened. rewrite Ht. intuition congruence. Qed.

Definition live_done (δ : nat → Z) (X : ikey → option bool) (O : nat → Prop) (k : ikey)
    (oi : option relayItem) (w : World) : Prop :=
  match oi with
  | None => books δ (<[k := None]> X) O w
  | Some i =>
      books (<[k.1.1 := δ k.1.1 + 1]> δ) (<[k := None]> X)
        (λ c, O c ∨ isOriginator i = true ∧ c = call i) w
      ∧ isOriginator i = bool_decide (k.1.2 = outboundItems) ∧ ¬ (isOriginator i = true ∧ O (call i))
  end.

Lemma live_done_intro δ X O k i w :
  tomb i = false → books (owing k.1.1 i δ) (<[k := None]> X) (opened i O) w →
  isOriginator i = bool_decide (k.1.2 = outboundItems) → ¬ (isOriginator i = true ∧ O (call i)) →
  ∀ i', isOriginator i' = isOriginator i → call i' = call i → live_done δ X O k (Some i') w.
Proof.
  intros Ht Hb Ho Hno i' Ei Ec. unfold live_done. rewrite Ei, Ec. split_and!; [|done..].
  eapply books_ext; [..|exact Hb]; try done.
  - intros r. unfold owing. by rewrite Ht.
  - intros c. unfold opened. rewrite Ht. tauto.
Qed.

(** Deleting an item. *)
Lemma items_Delete_ok δ X O ref id :
  triple (λ w, books δ X O w ∧ ∀ i, item_at w (ref, id) = Some i → tomb i = false → X (ref, id) ≠ None)
    (items_Delete ref id) (live_done δ X O (ref, id)).
Proof.
  unfold items_Delete. eapply (triple_bind _ _ _ (λ oi w, match oi with
    | None => books δ (<[(ref, id) := None]> X) O w
    | Some i => books (owing ref.1 i δ) (<[(ref, id) := None]> X) (opened i O) w ∧ orphan w (timeout i) ref.1
        ∧ isOriginator i = bool_decide (ref.2 = outboundItems)
        ∧ (tomb i = false → ¬ (isOriginator i = true ∧ O (call i)))
    end)).
  - apply triple_atomic. intros w [Hw HX]. unfold items_remove.
    change (items (get_items ref w) !! id) with (item_at w (ref, id)).
    destruct (item_at w (ref, id)) as [i|] eqn:Hk; cbn [fst snd].
    2: { apply books_clear; [|done]. intros i Hi. congruence. }
    destruct (b_timer _ _ _ _ Hw _ _ Hk) as (Hrel & Hpool & Hlt & Hst).
    assert (Htb : (if tomb i then uint64 (tombs (get_items ref w) - 1) else tombs (get_items ref w))
                  = tombs (get_items ref w) - (if tomb i then 1 else 0)).
    { destruct (tomb i) eqn:Ht; [|lia]. destruct (b_tombs _ _ _ _ Hw ref) as (H1 & H2 & H3).
      pose proof (ntomb_pos _ _ _ Hk Ht). cbn in *. apply uint64_small. lia. }
    rewrite Htb.
    pose proof (books_take δ X O w (ref, id) i None
      (tombs (get_items ref w) - (if tomb i then 1 else 0)) (w_gc w) Hw Hk (HX i eq_refl)
      ltac:(left; by split_and!)) as Hb.
    cbn [fst snd] in Hb.
    match type of Hb with books _ _ _ (w_set_gc _ ?v) =>
      assert (Hv : w_set_gc (w_gc w) v = v) by reflexivity end.
    rewrite Hv in Hb. clear Hv.
    split_and!; [exact Hb| |by apply (b_side _ _ _ _ Hw _ _ Hk)|].
    + split_and!; try done.
      * destruct (tomb i) eqn:Ht; [done|]. destruct (X (ref, id)) eqn:E; [apply Hst|by destruct (HX i eq_refl Ht)].
      * intros k' i' Hk' E. revert Hk'. rewrite item_at_set. intros Hk'.
        assert (Hk0 : item_at w k' = Some i' ∧ k' ≠ (ref, id)).
        { destruct k' as [ref' id']. cbn in *. case_decide as Er; [|split; [done|congruence]].
          subst ref'. apply lookup_delete_Some in Hk' as [? ?]. split; [done|congruence]. }
        destruct Hk0 as [Hk0 Hne]. by apply Hne, (b_own _ _ _ _ Hw _ _ _ _ Hk0 Hk).
    + intros Ht [Ho Hc]. by apply (b_call _ _ _ _ Hw _ _ Hk Ht Ho).
  - intros [i|]; [|apply triple_ret; done].
    eapply (triple_bind _ _ _ (λ _ w, books (owing ref.1 i δ) (<[(ref, id) := None]> X) (opened i O) w
        ∧ isOriginator i = bool_decide (ref.2 = outboundItems)
        ∧ (tomb i = false → ¬ (isOriginator i = true ∧ O (call i))))).
    + intros w (Hb & Ho & Hs & Hn). pose proof (timer_Release_ok _ _ _ (timeout i) ref.1 w (conj Hb Ho)) as H.
      destruct (run _ w) as [[a w']| |]; [|done..]. by split_and!.
    + intros _. apply triple_ret. intros w (Hb & Hs & Hn). destruct (tomb i) eqn:Ht.
      * eapply books_ext; [..|exact Hb]; try done; [unfold owing; by rewrite Ht|].
        intros c. by apply opened_tomb.
      * apply (live_done_intro _ _ _ _ i); auto.
Qed.

(** Turning an item into a tomb. *)
Lemma items_Entomb_ok δ X O ref id :
  triple (λ w, books δ X O w ∧ ∀ i, item_at w (ref, id) = Some i → tomb i = false → X (ref, id) ≠ None)
    (items_Entomb ref id) (live_done δ X O (ref, id)).
Proof.
  unfold items_Entomb. eapply (triple_bind _ _ _ (λ r w, match r with
    | None => books δ X O w ∧ ∀ i, item_at w (ref, id) = Some i → tomb i = false → X (ref, id) ≠ None
    | Some None => books δ (<[(ref, id) := None]> X) O w
    | Some (Some i) => live_done δ X O (ref, id) (Some i) (w_set_gc (w_gc w ++ [(ref, id)]) w)
    end)).
  - apply triple_atomic. intros w [Hw HX]. unfold items_entomb. case_decide as Hmax; [done|].
    change (items (get_items ref w) !! id) with (item_at w (ref, id)).
    destruct (item_at w (ref, id)) as [i|] eqn:Hk; cbn [fst snd].
    2: { apply books_clear; [|done]. intros i Hi. congruence. }
    destruct (tomb i) eqn:Ht.
    { cbn [fst snd]. apply books_clear; [|done]. intros j Hj. congruence. }
    destruct (b_tombs _ _ _ _ Hw ref) as (H1 & H2 & H3). cbn [fst snd].
    assert (Hpos : 0 <= tombs (get_items ref w)) by (rewrite H1; unfold ntomb; lia).
    rewrite uint64_small by lia.
    pose proof (books_take δ X O w (ref, id) i (Some (set_tomb i)) (tombs (get_items ref w) + 1)
      (w_gc w ++ [(ref, id)]) Hw Hk (HX i eq_refl) ltac:(right; split_and!; cbn; try done; lia)) as Hb.
    apply (live_done_intro δ X O (ref, id) i _ Ht Hb); try done.
    + exact (b_side _ _ _ _ Hw _ _ Hk).
    + intros [Ho Hc]. by apply (b_call _ _ _ _ Hw _ _ Hk Ht Ho).
  - intros [[i|]|].
    + eapply (triple_bind _ _ _ (λ _, live_done δ X O (ref, id) (Some i))).
      * apply triple_atomic. done.
      * intros _. by apply triple_ret.
    + by apply triple_ret.
    + apply items_Delete_ok.
Qed.

(** ** Ending calls *)

Lemma tell_End_ok δ X O c :
  triple (λ w, books δ X (λ c', O c' ∨ c' = c) w ∧ ¬ O c) (w_do (tell c End)) (λ _, books δ X O).
Proof.
  apply triple_atomic. cbn [fst snd].
  intros w [[B1 B2 B3 B4 B5 B6 B7 B8 B9 B10 B11 B12 B13 B14 B15 B16] Ho].
  destruct (B15 c ltac:(by right)) as [Hlt H0].
  assert (Hc : ∀ c', nends (w_call (tell c End w) c') = if decide (c' = c) then 1%nat else nends (w_call w c')).
  { intros c'. cbn. unfold insert, fn_insert. case_decide as E.
    - subst c'. rewrite decide_True by done. unfold nends in *.
      rewrite filter_app, length_app, H0, filter_cons_True by done. done.
    - by rewrite decide_False by congruence. }
  split; try done.
  - intros k i Hk Hl Hor. destruct (B13 k i Hk Hl Hor) as (H1 & H2 & H3). rewrite Hc.
    rewrite decide_False by tauto. split_and!; [done..|tauto].
  - intros c' Hc'. rewrite Hc. destruct (B15 c' ltac:(by left)). rewrite decide_False by congruence. done.
  - intros c' Hlt' Hno Hnone. rewrite Hc. case_decide as E; [done|].
    apply B16; [done|tauto|done].
Qed.

Lemma failRelay_end δ X O c reason :
  triple (λ w, books δ X (λ c', O c' ∨ c' = c) w ∧ ¬ O c)
    (_ ← w_do (tell c (Failed reason)); w_do (tell c End)) (λ _, books δ X O).
Proof.
  eapply (triple_bind _ _ _ (λ _ w, books δ X (λ c', O c' ∨ c' = c) w ∧ ¬ O c)).
  - intros w [Hw Ho]. pose proof (tell_keeps _ _ _ c (Failed reason) ltac:(done) w Hw) as H.
    destruct (run _ w) as [[a w']| |]; [|done..]. done.
  - intros _. apply tell_End_ok.
Qed.

(** What is owed for a live item that has been taken out is paid by ending the call on
    the originator's side and counting down. *)
Lemma insert_back (δ : nat → Z) r : ∀ r', <[r := <[r := δ r + 1]> δ r - 1]> (<[r := δ r + 1]> δ) r' = δ r'.
Proof. intros r'. unfold insert, fn_insert. repeat case_decide; subst; try done. lia. Qed.

Lemma settle_item δ X O (k : ikey) i (ending : wprog unit) :
  (∀ δ', triple (λ w, books δ' X (λ c, O c ∨ c = call i) w ∧ ¬ O (call i)) ending (λ _, books δ' X O)) →
  triple (λ w, books (<[k.1.1 := δ k.1.1 + 1]> δ) X (λ c, O c ∨ isOriginator i = true ∧ c = call i) w
               ∧ ¬ (isOriginator i = true ∧ O (call i)) ∧ 0 <= δ k.1.1)
    (_ ← (if isOriginator i then ending else mret tt); pending_done k.1.1) (λ _, books δ X O).
Proof.
  intros Hend. apply (triple_bind _ _ _ (λ _ w, books (<[k.1.1 := δ k.1.1 + 1]> δ) X O w ∧ 0 <= δ k.1.1)).
  - intros w (Hw & Ho & Hpos). destruct (isOriginator i) eqn:Eo.
    + assert (Hw' : books (<[k.1.1 := δ k.1.1 + 1]> δ) X (λ c, O c ∨ c = call i) w).
      { eapply books_ext; [..|exact Hw]; try done. intros c. tauto. }
      assert (Hno : ¬ O (call i)) by (intros ?; by apply Ho).
      pose proof (Hend _ w (conj Hw' Hno)) as H.
      destruct (run _ w) as [[a w']| |]; [|done..]. done.
    + cbn. split; [|done]. eapply books_ext; [..|exact Hw]; try done. intros c. intuition congruence.
  - intros _ w [Hw Hpos].
    pose proof (pending_done_ok (<[k.1.1 := δ k.1.1 + 1]> δ) X O k.1.1
      ltac:(rewrite fn_lookup_insert; lia) w Hw) as H.
    destruct (run _ w) as [[a w']| |]; [|done..]. eapply books_ext; [..|exact H]; try done. apply insert_back.
Qed.

(** After an item has been taken out ([live_done]), paying for it. *)
Lemma settle_taken δ X O (k : ikey) (oi : option relayItem) (ending : relayItem → wprog unit) :
  0 <= δ k.1.1 →
  (∀ i δ', triple (λ w, books δ' (<[k := None]> X) (λ c, O c ∨ c = call i) w ∧ ¬ O (call i)) (ending i)
             (λ _, books δ' (<[k := None]> X) O)) →
  triple (live_done δ X O k oi)
    (match oi with
     | None => mret tt
     | Some i => _ ← (if isOriginator i then ending i else mret tt); pending_done k.1.1
     end) (λ _, books δ (<[k := None]> X) O).
Proof.
  intros Hpos Hend. destruct oi as [i|]; [|by apply triple_ret].
  eapply triple_conseq; [apply (settle_item δ (<[k := None]> X) O k i (ending i)); apply Hend| |done].
  intros w (Hw & _ & Ho). by split_and!.
Qed.

(** A triple whose precondition keeps a fact about the state of the handler. *)
Lemma triple_and {S A} (P : S → Prop) (F : Prop) (p : prog S A) (Q : A → S → Prop) :
  triple P p Q → triple (λ s, P s ∧ F) p (λ a s, Q a s ∧ F).
Proof.
  intros H s [Hs HF]. specialize (H s Hs). by destruct (run p s) as [[a s']| |].
Qed.

Lemma error_then_end δ X O r id span err c reason :
  triple (λ w, books δ X (λ c', O c' ∨ c' = c) w ∧ ¬ O c)
    (_ ← relay_SendSystemError r id span err;
     _ ← w_do (tell c (Failed reason)); w_do (tell c End)) (λ _, books δ X O).
Proof.
  eapply triple_bind; [apply triple_and, SendSystemError_keeps|]. intros u. apply failRelay_end.
Qed.

Lemma finishRelayItem_ok δ X O ref id :
  0 <= δ ref.1 →
  triple (λ w, books δ X O w ∧ ∀ i, item_at w (ref, id) = Some i → tomb i = false → X (ref, id) ≠ None)
    (finishRelayItem ref.1 ref id) (λ _, books δ (<[(ref, id) := None]> X) O).
Proof.
  intros Hpos. unfold finishRelayItem. eapply triple_bind; [apply items_Delete_ok|]. intros oi.
  apply (settle_taken δ X O (ref, id) oi finishCall); [done|].
  intros i δ'. eapply triple_bind; [apply tell_End_ok|]. intros u.
  destruct (mutatedChecksum i); [|by apply triple_ret]. apply keeps_atomic. by intros w.
Qed.

Lemma failRelayItem_ok δ X O ref id reason err :
  0 <= δ ref.1 → X (ref, id) ≠ Some false →
  triple (books δ X O) (failRelayItem ref.1 ref id reason err) (λ _, books δ (<[(ref, id) := None]> X) O).
Proof.
  intros Hpos HX. unfold failRelayItem. eapply triple_bind; [by apply items_Get_ok|].
  intros [[i b]|].
  2: { apply triple_ret. intros w [Hw Hk]. apply books_clear; [|done]. intros j Hj. congruence. }
  cbn [andb]. destruct b; cbn [negb].
  2: { apply triple_ret. intros w (Hk & Hb & Hw). rewrite andb_false_r in Hw.
       destruct (tomb i) eqn:Ht; [apply books_clear; [|done]; intros j Hj; congruence|].
       eapply books_ext; [..|exact Hw]; try done. intros k. unfold insert, fn_insert. case_decide; [|done]. subst k.
       destruct (X (ref, id)) as [[]|] eqn:E; try done. by specialize (Hb eq_refl eq_refl eq_refl). }
  set (X1 := if negb (tomb i) && true then <[(ref, id) := Some true]> X else X).
  apply (triple_bind _ _ _ (λ oi, live_done δ X1 O (ref, id) oi)).
  - eapply triple_conseq; [apply items_Entomb_ok| |done].
    intros w (Hk & _ & Hw). split; [exact Hw|]. intros j Hj Hl. assert (j = i) as -> by congruence.
    unfold X1. rewrite Hl. cbn. unfold insert, fn_insert. by rewrite decide_True.
  - intros oi. eapply triple_conseq; [apply (settle_taken δ X1 O (ref, id) oi (failCallItem ref.1 id reason err)); [done|]|done|].
    + intros j δ'. eapply (triple_bind _ _ _ (λ _ w, books δ' (<[(ref, id) := None]> X1) (λ c, O c ∨ c = call j) w ∧ ¬ O (call j))).
      * case_decide; [apply triple_ret; auto|]. apply triple_and, SendSystemError_keeps.
      * intros _. apply failRelay_end.
    + intros u w Hw. eapply books_ext; [..|exact Hw]; try done. intros k. unfold X1, insert, fn_insert.
      destruct (negb (tomb i) && true); [|done]. by repeat case_decide.
Qed.

Lemma timeoutRelayItem_ok δ X O ref id orig :
  0 <= δ ref.1 → orig = bool_decide (ref.2 = outboundItems) →
  triple (λ w, books δ X O w ∧ ∀ i, item_at w (ref, id) = Some i → tomb i = false → X (ref, id) ≠ None)
    (timeoutRelayItem ref.1 ref id orig) (λ _, books δ (<[(ref, id) := None]> X) O).
Proof.
  intros Hpos Ho. unfold timeoutRelayItem. eapply triple_bind; [apply items_Entomb_ok|]. intros oi.
  destruct oi as [i|]; [|by apply triple_ret].
  intros w Hw. assert (Hi : isOriginator i = orig) by (destruct Hw as (_ & -> & _); done).
  rewrite <- Hi. revert w Hw.
  apply (settle_taken δ X O (ref, id) (Some i) (timeoutCall ref.1 id)); [done|].
  intros j δ'. apply error_then_end.
Qed.

(** ** Adding items *)

Definition free (w : World) (k : ikey) : Prop := item_at w k = None ∧ k ∉ w_gc w.

Lemma timeouts_Get_ok δ X O r choice k :
  triple (λ w, books δ X O w ∧ free w k) (atomic (timeouts_Get r choice))
    (λ t w, (books δ X O w ∧ orphan w t r) ∧ free w k).
Proof.
  apply triple_atomic.
  intros w [[B1 B2 B3 B4 B5 B6 B7 B8 B9 B10 B11 B12 B13 B14 B15 B16] Hfree]. unfold timeouts_Get.
  destruct (choice ≫= λ j, r_pool (w_relayer w r) !! j) as [t|] eqn:Ec; cbn [fst snd].
  - destruct choice as [j|]; [|done]. cbn in Ec.
    assert (Hin : t ∈ r_pool (w_relayer w r)) by (by eapply list_elem_of_lookup_2).
    destruct (B10 r t Hin) as (Hlt & Hidle & Hrel & Hp).
    set (x := mkRelayTimer _ _ _ _ _ _ false _ _ _).
    set (w1 := w_relayer_do r (r_set_pool (delete j (r_pool (w_relayer w r)))) w).
    set (w2 := w_set_timer t x w1).
    assert (Hg : ∀ ref, get_items ref w2 = get_items ref w) by (intros ref; by apply get_items_do).
    assert (Hi : ∀ k, item_at w2 k = item_at w k) by (intros k'; unfold item_at; by rewrite Hg).
    assert (Hx : w_timer w2 t = x) by apply set_timer_eq.
    assert (Hne : ∀ t', t' ≠ t → w_timer w2 t' = w_timer w t').
    { intros t' Ht. cbn. unfold insert, fn_insert. by rewrite decide_False by congruence. }
    assert (Hown : ∀ k i, item_at w k = Some i → timeout i ≠ t).
    { intros k' i Hk E. destruct (B5 _ _ Hk) as (Hr & _). rewrite E in Hr. congruence. }
    assert (Hpool : ∀ r' t', t' ∈ r_pool (w_relayer w2 r') → t' ≠ t ∧ t' ∈ r_pool (w_relayer w r')).
    { intros r' t'. unfold w2. cbn. unfold insert, fn_insert. case_decide as E.
      - subst r'. intros H. cbn in H. split; [|by eapply list_elem_of_delete_inv].
        intros ->. rewrite delete_take_drop in H. pose proof (B9 r) as Hnd.
        rewrite <- (take_drop_middle _ _ _ Ec) in Hnd. apply NoDup_app in Hnd as (_ & Hd & Hnd).
        apply NoDup_cons in Hnd as [Hnin _]. apply elem_of_app in H as [H|H]; [|done].
        apply (Hd t H). apply elem_of_cons. by left.
      - intros H. split; [|done]. intros ->. destruct (B10 _ _ H) as (_ & _ & _ & Hp'). congruence. }
    assert (Hnd : ∀ r', NoDup (r_pool (w_relayer w2 r'))).
    { intros r'. unfold w2. cbn. unfold insert, fn_insert. case_decide; [|apply B9].
      eapply sublist_NoDup; [apply B9|apply sublist_delete]. }
    split; [|unfold free; rewrite Hi; exact Hfree]. split.
    + split; try done.
      * intros r'. unfold conn_of, w2. cbn. unfold insert, fn_insert. case_decide as E; [subst r'|]; apply B1.
      * intros r'. specialize (B2 r'). unfold conn_of, relayer_live, w2 in *. cbn. unfold insert, fn_insert.
        case_decide as E; [subst r'|]; apply B2.
      * intros ref. rewrite Hg. apply B3.
      * intros k' i. rewrite Hi. apply B4.
      * intros k' i. rewrite Hi. intros Hk. specialize (B5 k' i Hk). unfold timer_ok in *. rewrite Hne; [done|by apply (Hown k')].
      * intros k1 i1 k2 i2. rewrite !Hi. apply B6.
      * intros t'. destruct (decide (t' = t)) as [->|E].
        { rewrite Hx. cbn. intros Ht. destruct Hidle as (_ & H1 & H2). destruct Ht; congruence. }
        rewrite Hne by done. intros Ht. destruct (B7 t' Ht) as (k' & i & Hk & Heq). exists k', i. by rewrite Hi.
      * intros t' Ht. rewrite Hne; [by apply B8|]. intros ->. cbn in Ht. lia.
      * intros r' t' Ht. destruct (Hpool r' t' Ht) as [Hn Hin']. rewrite Hne by done. by apply B10.
      * intros k' i. rewrite Hi. apply B11.
      * intros k' i. rewrite Hi. apply B13.
      * intros k1 i1 k2 i2. rewrite !Hi. apply B14.
      * intros c H1 H2 H3. apply B16; [done..|]. intros k' i Hk. apply (H3 k' i). by rewrite Hi.
    + unfold orphan. rewrite Hx. split_and!; [done..|]. intros k' i. rewrite Hi. apply Hown.
  - set (x := mkRelayTimer r false 0 0 false false false None 0 false).
    assert (Hx : w_timer (w_new_timer x w) (w_nextTimer w) = x).
    { cbn. unfold insert, fn_insert. by rewrite decide_True. }
    assert (Hne : ∀ t', t' ≠ w_nextTimer w → w_timer (w_new_timer x w) t' = w_timer w t').
    { intros t' Ht. cbn. unfold insert, fn_insert. by rewrite decide_False by congruence. }
    assert (Hown : ∀ k i, item_at w k = Some i → timeout i ≠ w_nextTimer w).
    { intros k' i Hk. destruct (B5 _ _ Hk) as (_ & _ & Hlt & _). lia. }
    split; [|exact Hfree]. split.
    + split; try done.
      * intros k' i Hk. destruct (B5 k' i Hk) as (H1 & H2 & H3 & H4). unfold timer_ok.
        rewrite Hne by (by apply (Hown k')). split_and!; [done..|cbn; lia|done].
      * intros t'. destruct (decide (t' = w_nextTimer w)) as [->|E]; [rewrite Hx; cbn; intros []; done|].
        rewrite Hne by done. apply B7.
      * intros t' Ht. cbn in Ht. rewrite Hne by lia. apply B8. lia.
      * intros r' t' Ht. destruct (B10 r' t' Ht) as (H1 & H2 & H3 & H4). rewrite Hne by lia.
        split_and!; [cbn; lia|done..].
    + unfold orphan. rewrite Hx. split_and!; [cbn; lia|done..|exact Hown].
Qed.

(** A new item with its timer running. *)
Lemma books_add δ X O w k i d :
  books δ X O w → orphan w (timeout i) k.1.1 → free w k → X k = None → tomb i = false →
  isOriginator i = bool_decide (k.1.2 = outboundItems) → (isOriginator i = true → O (call i)) →
  let g := get_items k.1 w in
  let x := w_timer w (timeout i) in
  books (<[k.1.1 := δ k.1.1 - 1]> δ) X (λ c, O c ∧ ¬ (isOriginator i = true ∧ c = call i))
    (w_set_timer (timeout i) (mkRelayTimer (rt_pool x) true (rt_fired x) d true false (released x)
         (Some k.1) k.2 (isOriginator i))
       (set_items k.1 (mkRelayItems (maxTombs g) (tombs g) (<[k.2 := i]> (items g))) w)).
Proof.
  intros [B1 B2 B3 B4 B5 B6 B7 B8 B9 B10 B11 B12 B13 B14 B15 B16] (Hlt & Hidle & Hrel & Hp & Hown)
    (Hnone & Hgc) HX Ht Ho Hopen g x.
  set (x' := mkRelayTimer _ true _ _ _ _ _ _ _ _). set (m' := <[k.2 := i]> (items g)).
  set (w1 := set_items k.1 (mkRelayItems (maxTombs g) (tombs g) m') w). set (w' := w_set_timer _ _ w1).
  assert (Hx : w_timer w' (timeout i) = x') by apply set_timer_eq.
  assert (Hne : ∀ t, t ≠ timeout i → w_timer w' t = w_timer w t).
  { intros t E. cbn. unfold insert, fn_insert. by rewrite decide_False by congruence. }
  assert (Hitem : ∀ k', item_at w' k' = if decide (k' = k) then Some i else item_at w k').
  { intros k'. change (item_at w' k') with (item_at w1 k'). unfold w1. rewrite item_at_set.
    destruct (decide (k' = k)) as [->|E']; [rewrite decide_True by done; apply lookup_insert_eq|].
    destruct (decide (k.1 = k'.1)) as [E|E]; [|reflexivity]. unfold m'. rewrite lookup_insert_ne; [unfold g; by rewrite E|].
    intros E2. apply E'. destruct k, k'. cbn in *. congruence. }
  assert (Hcase : ∀ k' j, item_at w' k' = Some j → k' ≠ k ∧ item_at w k' = Some j ∨ k' = k ∧ j = i).
  { intros k' j. rewrite Hitem. destruct (decide (k' = k)) as [E|E]; [|intros Hj; left; split; assumption]. intros [= <-]. right. split; [exact E|reflexivity]. }
  assert (Hm : items g !! k.2 = None) by exact Hnone.
  destruct Hidle as (Ha & Hpend & Hf). fold x in Ha, Hpend, Hf, Hrel, Hp.
  split.
  - intros r. change (conn_of w' r) with (conn_of w1 r). unfold w1. rewrite set_items_conn. apply B1.
  - intros r. change (conn_of w' r) with (conn_of w1 r). change (relayer_live r w') with (relayer_live r w1).
    unfold w1. rewrite set_items_conn, relayer_live_set, B2. cbn [items]. unfold m'. fold g.
    rewrite (nlive_insert _ _ _ Ht Hm). f_equal. unfold insert, fn_insert.
    destruct (decide (r = k.1.1)) as [E|E], (decide (k.1.1 = r)) as [E'|E']; try congruence; [rewrite E|]; lia.
  - intros ref. change (get_items ref w') with (get_items ref w1). unfold w1. rewrite get_items_set.
    destruct (decide (k.1 = ref)) as [E|E]; [|apply B3]. cbn. subst ref. unfold m'. rewrite (ntomb_insert_live _ _ _ Ht Hm). apply B3.
  - intros k' j Hj. destruct (Hcase _ _ Hj) as [[_ H]|(-> & ->)]; [by apply B4|done].
  - intros k' j Hj. destruct (Hcase _ _ Hj) as [[Hn H]|(-> & ->)].
    + specialize (B5 _ _ H). unfold timer_ok in *. rewrite Hne; [done|]. by apply (Hown k').
    + unfold timer_ok. rewrite Hx, Ht, HX. split_and!; [done..|]. split_and!; try done. by left.
  - intros k1 j1 k2 j2 H1 H2 E. destruct (Hcase _ _ H1) as [[_ E1]|(-> & ->)], (Hcase _ _ H2) as [[_ E2]|(-> & ->)].
    + by apply (B6 k1 j1 k2 j2).
    + by destruct (Hown k1 j1 E1).
    + by destruct (Hown k2 j2 E2).
    + done.
  - intros t. destruct (decide (t = timeout i)) as [->|E].
    { intros _. exists k, i. rewrite Hitem. by rewrite decide_True. }
    rewrite Hne by done. intros H. destruct (B7 t H) as (k0 & i0 & Hk0 & E0). exists k0, i0. split; [|done].
    rewrite Hitem. destruct (decide (k0 = k)) as [->|]; [congruence|done].
  - intros t H. change (w_nextTimer w') with (w_nextTimer w) in H. rewrite Hne by lia. by apply B8.
  - intros r. change (w_relayer w' r) with (w_relayer w1 r). unfold w1. rewrite set_items_pool. apply B9.
  - intros r t. change (w_relayer w' r) with (w_relayer w1 r). unfold w1. rewrite set_items_pool. intros H.
    destruct (B10 _ _ H) as (H1 & H2 & H3 & H4). rewrite Hne; [done|]. intros ->. unfold x in Hrel. congruence.
  - intros k' j Hj. change (w_gc w') with (w_gc w). destruct (Hcase _ _ Hj) as [[_ H]|(-> & ->)]; [by apply B11|].
    rewrite Ht. by split.
  - exact B12.
  - intros k' j Hj Hl Hor. destruct (Hcase _ _ Hj) as [[Hn H]|(-> & ->)].
    + destruct (B13 _ _ H Hl Hor) as (H1 & H2 & H3). split_and!; [done..|]. tauto.
    + destruct (B15 _ (Hopen Hor)). split_and!; [done..|]. tauto.
  - intros k1 j1 k2 j2 H1 H2 L1 L2 O1 O2 E.
    destruct (Hcase _ _ H1) as [[_ E1]|(-> & ->)], (Hcase _ _ H2) as [[_ E2]|(-> & ->)]; [by apply (B14 k1 j1 k2 j2)|..|done].
    + destruct (B13 _ _ E1 L1 O1) as (_ & _ & H). destruct H. rewrite E. by apply Hopen.
    + destruct (B13 _ _ E2 L2 O2) as (_ & _ & H). destruct H. rewrite <- E. by apply Hopen.
  - intros c [Hc _]. by apply B15.
  - intros c Hc Hno Hall. change (w_call w' c) with (w_call w c). apply B16; [done| |].
    + intros Hoc. apply Hno. split; [done|]. intros [Hor ->]. apply (Hall k i); [|done..]. rewrite Hitem. by rewrite decide_True.
    + intros k0 i0 Hk0. apply (Hall k0 i0). rewrite Hitem. destruct (decide (k0 = k)) as [->|]; [congruence|done].
Qed.

Lemma addRelayItem_ok δ X O r (orig : bool) id remap dest ttl span c sum choice :
  let k : ikey := ((r, if orig then outboundItems else inboundItems), id) in
  X k = None → (orig = true → O c) →
  triple (λ w, books δ X O w ∧ free w k) (addRelayItem r orig id remap dest ttl span c sum choice)
    (λ i, books (<[r := δ r - 1]> δ) X (λ c', O c' ∧ ¬ (orig = true ∧ c' = c))).
Proof.
  intros k HX Hopen. unfold addRelayItem. eapply triple_bind; [apply timeouts_Get_ok|].
  intros t w [[Hw Horph] Hfree]. set (i := mkRelayItem remap false orig c dest span t sum).
  unfold items_Add, w_do. rewrite run_atomic. cbn [fst snd].
  rewrite run_bind. unfold mbind, gost_bind. cbn [run atomic_go].
  pose proof (books_add δ X O w k i ttl Hw Horph Hfree HX eq_refl ltac:(by destruct orig) Hopen) as Hb.
  destruct Horph as (_ & (Ha & Hp & _) & Hrel & _).
  unfold timer_Start, verifyNotReleased.
  change (w_timer (set_items (r, if orig then outboundItems else inboundItems) _ w) t) with (w_timer w t).
  rewrite Hrel, Ha, Hp. cbn zeta in Hb. change (timeout i) with t in Hb. rewrite Hrel in Hb. exact Hb.
Qed.

(** ** Receiving frames *)

(** A frame as the reader of a connection delivers it. *)
Definition relay_frame (f : Frame) : Prop :=
  frame_ok f ∧ FrameHeaderSize <= fh_size (Header f) <= MaxFrameSize.

Lemma payload_index f n : frame_ok f → (n < 100)%nat → is_Ret (index (Payload f) n).
Proof.
  intros Hf Hn. unfold index. pose proof (length_Payload f Hf) as Hl.
  destruct (Payload f !! n) eqn:E; [by eexists|]. apply lookup_ge_None in E. unfold MaxFramePayloadSize, MaxFrameSize, FrameHeaderSize in *. lia.
Qed.

Lemma finishesCall_total f : frame_ok f → is_Ret (finishesCall f).
Proof.
  intros Hf. unfold finishesCall, frameHasMoreFragments. destruct (bool_decide _); [by eexists|].
  destruct (_ || _); [|by eexists]. destruct (payload_index f _flagsIndex Hf ltac:(unfold _flagsIndex; lia)) as [b E].
  unfold mbind, go_bind. rewrite E. by eexists.
Qed.

Lemma determinesCallSuccess_total f : frame_ok f → is_Ret (determinesCallSuccess f).
Proof.
  intros Hf. unfold determinesCallSuccess, newLazyError, lazyError_Code, isCallResOK.
  destruct (bool_decide (MessageType (Header f) = messageTypeError)).
  - destruct (payload_index f _errCodeIndex Hf ltac:(unfold _errCodeIndex; lia)) as [b E].
    unfold mbind, go_bind. cbn. rewrite E. by eexists.
  - destruct (bool_decide _); [|by eexists].
    destruct (payload_index f _resCodeIndex Hf ltac:(unfold _resCodeIndex; lia)) as [b E].
    unfold mbind, go_bind. rewrite E. by eexists.
Qed.

Lemma sendFrame_keeps δ X O r f : preserves δ X O (sendFrame r f).
Proof.
  apply on_conn_keeps. apply neutral_core. intros c. destruct (trySend f c) eqn:E; [|done].
  by apply trySend_core in E.
Qed.

Lemma insert_None (X : ikey → option bool) k b : X k = None → ∀ k', <[k := None]> (<[k := b]> X) k' = X k'.
Proof.
  intros HX k'. destruct (decide (k = k')) as [<-|E]; [by rewrite fn_lookup_insert|].
  by rewrite !fn_lookup_insert_ne.
Qed.
Lemma insert_None' (X : ikey → option bool) k : X k = None → ∀ k', <[k := None]> X k' = X k'.
Proof.
  intros HX k'. destruct (decide (k = k')) as [<-|E]; [by rewrite fn_lookup_insert|].
  by rewrite fn_lookup_insert_ne.
Qed.

(** Code that does not touch the world, and may panic where [pan] allows it. *)
Lemma go_pkeeps {A} (pan : Prop) δ X O (m : go A) :
  pan ∨ is_Ret m → ptriple pan (books δ X O) (w_call_go m) (λ _, books δ X O).
Proof.
  intros [Hp|[a ->]] w Hw; [|exact Hw]. cbn. unfold gcall. by destruct m.
Qed.

Lemma Receive_pok (pan : Prop) δ X O r f ft :
  let k := (receiverItems r ft, ID (Header f)) in
  X k = None → 0 <= δ r → pan ∨ frame_ok f →
  ptriple pan (books δ X O) (Receive r f ft) (λ _, books δ X O).
Proof.
  intros k HX Hpos Hf. unfold Receive.
  eapply ptriple_bind; [apply go_pkeeps; destruct Hf; [by left|right; by apply finishesCall_total]|]. intros finished.
  eapply ptriple_bind; [apply triple_ptriple, items_Get_ok; by fold k; rewrite HX|]. intros [[i b]|].
  2: { apply triple_ptriple, triple_ret. by intros w [Hw _]. }
  destruct (tomb i || finished && negb b) eqn:Hlate.
  { apply triple_ptriple, triple_ret. intros w (_ & _ & Hw).
    destruct (tomb i), finished, b; cbn in *; try done. }
  apply orb_false_iff in Hlate as [Ht Hfin].
  set (X1 := if finished then <[k := Some true]> X else X).
  assert (HX1 : ∀ k', <[k := None]> X1 k' = X k').
  { unfold X1. destruct finished; [by apply insert_None|by apply insert_None']. }
  apply (ptriple_bind _ _ _ _ (λ _, books δ X1 O)).
  { assert (Hpre : ∀ w, item_at w k = Some i
      ∧ (finished = true → tomb i = false → X k = Some true → b = true)
      ∧ books δ (if finished && negb (tomb i) && b then <[k := Some true]> X else X) O w → books δ X1 O w).
    { intros w (_ & _ & Hw). unfold X1. rewrite Ht in Hw. by destruct finished, b. }
    eapply ptriple_conseq; [|exact Hpre|intros a w H; exact H].
    case_decide; [|apply triple_ptriple, triple_ret; done].
    eapply ptriple_bind; [apply go_pkeeps; destruct Hf; [by left|right; by apply determinesCallSuccess_total]|].
    intros [s reason]. cbn [fst snd]. apply triple_ptriple.
    destruct s; [by apply tell_keeps|]. case_decide; [by apply triple_ret|by apply tell_keeps]. }
  intros _. apply triple_ptriple. eapply triple_bind; [apply sendFrame_keeps|].
  intros sent. destruct sent; cbn [negb].
  - apply (triple_bind _ _ _ (λ _, books δ X O)); [|intros _; by apply triple_ret].
    unfold X1 in *. destruct finished; [|by apply triple_ret].
    eapply triple_conseq; [apply (finishRelayItem_ok δ (<[k := Some true]> X) O (receiverItems r ft)); exact Hpos| |].
    + intros w Hw. split; [done|]. intros j _ _. fold k. by rewrite fn_lookup_insert.
    + intros u w Hw. eapply books_ext; [done|exact HX1|done|exact Hw].
  - eapply (triple_bind _ _ _ (λ _, books δ X O)); [|intros _; by apply triple_ret].
    eapply triple_conseq; [apply (failRelayItem_ok δ X1 O (receiverItems r ft))|done|]; [done| |].
    + unfold X1. destruct finished; fold k; [by rewrite fn_lookup_insert|by rewrite HX].
    + intros u w Hw. eapply books_ext; [done|exact HX1|done|exact Hw].
Qed.

Lemma Receive_ok δ X O r f ft :
  X (receiverItems r ft, ID (Header f)) = None → 0 <= δ r → relay_frame f → preserves δ X O (Receive r f ft).
Proof. intros HX Hpos [Hf _]. apply (Receive_pok False); [done..|by right]. Qed.
