(* ===== verification/RelayRun.v ===== *)
(** * The handlers of the relay, and its runs

    The remaining handlers keep the books of [RelaySafe]: frames of calls that are
    under way, timers that run, deletions of tombs, and new calls.  [relay_step] is one
    step of a channel that relays, a handler that runs to its end; the states that are
    reached in this way have their books in order. *)

From stdpp Require Import functions.
From S2P Require Import Prelude Conc Errors Buffer Checksum Frame Messages Fragment Mex ReqRes Health Connection ConnectionSafe Headers LazyMessages RelaySend Relay RelaySafe.

(** ** Frames *)

Lemma relay_frame_sized f : relay_frame f → is_Ret (SizedPayload f).
Proof.
  intros [Hf Hsz]. pose proof (length_Payload f Hf). unfold SizedPayload.
  rewrite slice_to_fits; [by eexists|]. unfold PayloadSize. rewrite uint16_small; frame_lia.
Qed.

Lemma relay_frame_wire f : relay_frame f → wire_frame f.
Proof. intros H. apply frame_ok_wire; [apply H|by apply relay_frame_sized]. Qed.

Lemma set_id_frame id f : relay_frame f → relay_frame (set_id id f).
Proof. intros [[H1 H2] H3]. by split. Qed.

Lemma setPayload_frame p f : relay_frame f → relay_frame (setPayload p f).
Proof.
  intros [[H1 H2] H3]. split; [|done]. split; [|done]. unfold setPayload. cbn [buffer].
  rewrite length_splice; [done|]. frame_lia.
Qed.

Lemma scan_callRes_total f r : frame_ok f → is_Ret (scan_callRes f r).
Proof.
  intros Hf. unfold scan_callRes. rewrite !glift_bind_eq.
  destruct (valid _); cbn [negb]; [|by eexists]. rewrite !glift_bind_eq, gget_bind_eq.
  match goal with |- is_Ret ((?m ≫= ?k) ?s) =>
    assert (Hm : ∃ b, m s = Ret (b, s)) end.
  { case_decide; [|by eexists]. unfold gcall, frameHasMoreFragments.
    destruct (payload_index f _flagsIndex Hf ltac:(unfold _flagsIndex; lia)) as [b E].
    cbn [mbind go_bind]. rewrite E. by eexists. }
  destruct Hm as [b Hm]. erewrite gost_bind_run by exact Hm. destruct (r_err _); by eexists.
Qed.

Lemma newLazyCallRes_total f :
  relay_frame f → MessageType (Header f) = messageTypeCallRes → is_Ret (newLazyCallRes f).
Proof.
  intros Hf Ht. unfold newLazyCallRes. rewrite bool_decide_eq_true_2 by done.
  destruct (relay_frame_sized f Hf) as [p ->]. cbn [mbind go_bind].
  destruct (scan_callRes_total f (NewReadBuffer p) (proj1 Hf)) as [[res r] ->]. by eexists.
Qed.

Lemma updateChecksum_total f cs :
  relay_frame f → ∃ f' cs', updateMutatedCallReqContinueChecksum f cs = Ret (f', cs')
  ∧ relay_frame f' ∧ Header f' = Header f.
Proof.
  intros Hf. unfold updateMutatedCallReqContinueChecksum.
  destruct (relay_frame_sized f Hf) as [p ->]. cbn [mbind go_bind].
  repeat match goal with |- context [let '(_, _) := ?x in _] => destruct x end.
  eexists _, _. split; [reflexivity|]. destruct o as [ref|]; [|done]. split; [by apply setPayload_frame|done].
Qed.

Definition call_types : list byte :=
  [messageTypeCallReq; messageTypeCallReqContinue; messageTypeCallRes; messageTypeCallResContinue;
   messageTypeError].

Lemma frameTypeFor_total f : fh_messageType (Header f) ∈ call_types → is_Ret (frameTypeFor f).
Proof.
  intros H. unfold frameTypeFor. case_decide as H1; [by eexists|]. case_decide as H2; [by eexists|].
  exfalso. unfold call_types in H. rewrite !elem_of_cons in *. tauto.
Qed.

(** ** Frames of calls under way *)

Lemma inspectFrame_ok δ X O f i :
  relay_frame f →
  triple (books δ X O) (inspectFrame f i)
    (λ f' w, books δ X O w ∧ relay_frame f' ∧ Header f' = Header f).
Proof.
  intros Hf. unfold inspectFrame. case_decide as Ht.
  { eapply triple_bind; [by apply go_keeps, newLazyCallRes_total|]. intros cr.
    apply (triple_bind _ _ _ (λ _, books δ X O)); [|intros _; by apply triple_ret].
    destruct cr; [by apply tell_keeps|by apply triple_ret]. }
  case_decide; [|by apply triple_ret]. destruct (mutatedChecksum i) as [n|]; [|by apply triple_ret].
  apply triple_act. intros w Hw.
  destruct (updateChecksum_total f (w_sum w n) Hf) as (f' & cs & -> & Hf' & E).
  split_and!; [|done..]. by apply (books_same _ _ _ w).
Qed.

Lemma handleNonCallReq_ok δ O r f :
  (∀ r, 0 <= δ r) → relay_frame f → fh_messageType (Header f) ∈ call_types →
  preserves δ nothing O (handleNonCallReq r f).
Proof.
  intros Hpos Hf Ht. unfold handleNonCallReq.
  eapply triple_bind; [by apply go_keeps, frameTypeFor_total|]. intros ft.
  eapply triple_bind; [by apply go_keeps, finishesCall_total, Hf|]. intros finished.
  set (ref := (r, if decide (ft = responseFrame) then inboundItems else outboundItems)).
  set (k := (ref, ID (Header f))).
  eapply triple_bind; [by apply items_Get_ok|]. intros [[i b]|].
  2: { apply triple_ret. by intros w [Hw _]. }
  destruct (tomb i || finished && negb b) eqn:Hlate.
  { apply triple_ret. intros w (_ & _ & Hw). destruct (tomb i), finished, b; cbn in *; try done. }
  apply orb_false_iff in Hlate as [Hi Hfin].
  set (X1 := if finished then <[k := Some true]> nothing else nothing).
  assert (HX1 : ∀ k', <[k := None]> X1 k' = nothing k').
  { unfold X1. destruct finished; [by apply insert_None|by apply insert_None']. }
  apply (triple_bind _ _ _ (λ f' w, books δ X1 O w ∧ relay_frame f' ∧ Header f' = Header f)).
  { eapply triple_conseq; [by apply inspectFrame_ok| |intros a w H; exact H].
    intros w (_ & _ & Hw). unfold X1. rewrite Hi in Hw. by destruct finished, b. }
  intros f' w (Hw & Hf' & Hhdr). revert w Hw.
  eapply triple_bind; [by apply tell_keeps; case_decide|]. intros u0.
  eapply triple_bind.
  { apply Receive_ok; [|by apply Hpos|by apply set_id_frame].
    unfold X1. destruct finished; [|done]. rewrite fn_lookup_insert_ne; [done|].
    unfold k, ref, receiverItems. destruct ft; intros [=]; repeat case_decide; done. }
  intros [sent failure]. destruct sent; cbn [negb].
  - apply (triple_bind _ _ _ (λ _, books δ nothing O)); [|intros _; by apply triple_ret].
    unfold X1 in *. destruct finished; [|by apply triple_ret].
    eapply triple_conseq; [apply (finishRelayItem_ok δ (<[k := Some true]> nothing) O ref), Hpos| |].
    + intros w Hw. split; [done|]. intros j _ _. fold k. by rewrite fn_lookup_insert.
    + intros u w Hw. eapply books_ext; [done|exact HX1|done|exact Hw].
  - apply (triple_bind _ _ _ (λ _, books δ nothing O)); [|intros _; by apply triple_ret].
    eapply triple_conseq; [apply (failRelayItem_ok δ X1 O ref); [apply Hpos|]|done|].
    + unfold X1. destruct finished; fold k; [by rewrite fn_lookup_insert|done].
    + intros u w Hw. eapply books_ext; [done|exact HX1|done|exact Hw].
Qed.

(** ** What a fragmenting writer leaves alone

    Whatever holds of the sender and is kept by newFragment and flushFragment is kept
    by every method of the writer that returns. *)

Definition gkeeps {S A} (J : S → Prop) (m : GO S A) : Prop :=
  ∀ s a s', J s → m s = Ret (a, s') → J s'.

Lemma gkeeps_ret {S A} (J : S → Prop) (a : A) : gkeeps J (mret a).
Proof. intros s b s' Hs [= <- <-]. exact Hs. Qed.
Lemma gkeeps_get {S} (J : S → Prop) : gkeeps J gget.
Proof. intros s b s' Hs [= <- <-]. exact Hs. Qed.
Lemma gkeeps_call {S A} (J : S → Prop) (m : go A) : gkeeps J (gcall m).
Proof. intros s b s' Hs. unfold gcall. destruct m; [|done..]. by intros [= <- <-]. Qed.
Lemma gkeeps_panic {S A} (J : S → Prop) : gkeeps J (gpanic (S := S) (A := A)).
Proof. done. Qed.
Lemma gkeeps_modify {S} (J : S → Prop) f : (∀ s, J s → J (f s)) → gkeeps J (gmodify f).
Proof. intros Hf s b s' Hs [= <- <-]. by apply Hf. Qed.
Lemma gkeeps_bind {S A B} (J : S → Prop) (m : GO S A) (k : A → GO S B) :
  gkeeps J m → (∀ a, gkeeps J (k a)) → gkeeps J (m ≫= k).
Proof.
  intros Hm Hk s b s' Hs. unfold mbind, gost_bind. destruct (m s) as [[a s1]| |] eqn:E; [|done..].
  apply Hk. by eapply Hm.
Qed.

Create HintDb gkeeps discriminated.
#[export] Hint Constants Opaque : gkeeps.
#[export] Hint Resolve gkeeps_ret gkeeps_get gkeeps_call gkeeps_panic : gkeeps.

(** Follow the code: binds, case distinctions, known methods. *)
Ltac keeps_steps :=
  repeat first
    [ solve [eauto with gkeeps]
    | apply gkeeps_bind; [|intros ?]
    | apply gkeeps_modify; solve [intros []; auto]
    | match goal with |- gkeeps _ (match ?x with _ => _ end) => destruct x end ].

Section writer_keeps.
Context {S : Type} `{fragmentSender S} (I : S → Prop).
Hypothesis newFragment_keeps : ∀ initial cs, gkeeps I (newFragment initial cs).
Hypothesis flushFragment_keeps : ∀ f, gkeeps I (flushFragment f).
Hypothesis doneSending_keeps : ∀ s, I s → I (doneSending s).2.

Definition fw_J (w : fragmentingWriter S) : Prop := I (fw_sender w).

Lemma fw_fail_keeps e : gkeeps fw_J (fw_fail e).
Proof. unfold fw_fail. keeps_steps. Qed.

Lemma requestFragment_keeps initial : gkeeps fw_J (requestFragment initial).
Proof.
  intros w a w' Hw. unfold requestFragment.
  destruct (newFragment _ _ _) as [[[[f err] cs] s]| |] eqn:E; [|done..]. intros [= <- <-].
  by apply (newFragment_keeps _ _ _ _ _ Hw E).
Qed.

Lemma finishAndFlush_keeps more : gkeeps fw_J (finishAndFlush more).
Proof.
  intros w a w' Hw. unfold finishAndFlush. destruct (fw_curFragment w); [|done].
  destruct (fragment_finish _ _ _ _) as [f ps].
  destruct (flushFragment _ _) as [[err s]| |] eqn:E; [|done..]. intros [= <- <-].
  by apply (flushFragment_keeps _ _ _ _ Hw E).
Qed.

Lemma beginChunk_keeps : gkeeps fw_J beginChunk.
Proof.
  intros w a w' Hw. unfold beginChunk. destruct (fw_curFragment w); [|done].
  destruct (newWritableChunk _). by intros [= <- <-].
Qed.

Lemma finishChunk_keeps : gkeeps fw_J finishChunk.
Proof.
  intros w a w' Hw. unfold finishChunk. destruct (fw_curChunk w) as [c|]; [|done].
  destruct (ck_contents c), (fw_curFragment w); by intros [= <- <-].
Qed.

Lemma chunkWrite_keeps b : gkeeps fw_J (chunkWrite b).
Proof.
  intros w a w' Hw. unfold chunkWrite. destruct (fw_curChunk w) as [c|]; [|done].
  destruct (ck_contents c), (fw_curFragment w); try done;
    destruct (writeAsFits _ _ _ _) as [[[? ?] ?] ?]; by intros [= <- <-].
Qed.
#[local] Hint Resolve fw_fail_keeps requestFragment_keeps finishAndFlush_keeps beginChunk_keeps
  finishChunk_keeps chunkWrite_keeps : gkeeps.

Lemma writer_BeginArgument_keeps last : gkeeps fw_J (writer_BeginArgument last).
Proof. unfold writer_BeginArgument, ensureFragment. keeps_steps. Qed.

Lemma writer_Flush_keeps : gkeeps fw_J writer_Flush.
Proof. unfold writer_Flush. keeps_steps. Qed.
#[local] Hint Resolve writer_Flush_keeps : gkeeps.

Lemma write_loop_keeps fuel n b : gkeeps fw_J (write_loop fuel n b).
Proof.
  revert n b. induction fuel as [|fuel IH]; intros n b; [done|]. cbn [write_loop]. keeps_steps.
Qed.

Lemma writer_Write_keeps b : gkeeps fw_J (writer_Write b).
Proof. pose proof write_loop_keeps. unfold writer_Write. keeps_steps. Qed.

Lemma writer_Close_keeps : gkeeps fw_J writer_Close.
Proof.
  unfold writer_Close, closeInNextFragment. keeps_steps.
  apply gkeeps_modify. intros w. apply doneSending_keeps.
Qed.

Lemma wr_write_keeps b : gkeeps (λ x, fw_J (wr_writer x)) (wr_write b).
Proof.
  intros x a x' Hx. unfold wr_write. destruct (wr_err x); [by intros [= <- <-]|].
  destruct (io_Write b (wr_writer x)) as [[[n err] y]| |] eqn:E; [|done..]. intros [= <- <-].
  by apply (writer_Write_keeps _ _ _ _ Hx E).
Qed.

Lemma wr_WriteLen16Bytes_keeps b : gkeeps (λ x, fw_J (wr_writer x)) (wr_WriteLen16Bytes b).
Proof.
  intros x a x' Hx. unfold wr_WriteLen16Bytes. destruct (wr_err x); [by intros [= <- <-]|].
  apply (gkeeps_bind (λ x, fw_J (wr_writer x))); [apply wr_write_keeps|intros ?; apply wr_write_keeps|done].
Qed.

Lemma writeArg2WithAppends_keeps arg2 kvs : gkeeps fw_J (writeArg2WithAppends arg2 kvs).
Proof.
  unfold writeArg2WithAppends. case_decide; [apply gkeeps_ret|]. intros w a w' Hw.
  set (body := _ ≫= _).
  assert (Hbody : gkeeps (λ x, fw_J (wr_writer x)) body).
  { apply gkeeps_bind; [apply wr_write_keeps|intros ?].
    apply gkeeps_bind; [case_decide; [apply wr_write_keeps|apply gkeeps_ret]|intros ?].
    induction kvs as [|kv kvs IH]; [apply gkeeps_ret|]. cbn [write_appends].
    apply gkeeps_bind; [apply wr_WriteLen16Bytes_keeps|intros ?].
    apply gkeeps_bind; [apply wr_WriteLen16Bytes_keeps|intros ?]. exact IH. }
  destruct (body _) as [[u x]| |] eqn:E; [|done..]. intros [= <- <-]. exact (Hbody (NewWriter w) _ _ Hw E).
Qed.
End writer_keeps.

Lemma send_args_keeps {D} `{relayEnv D} (I : relayFragmentSender D → Prop) f :
  (∀ initial cs, gkeeps I (rfs_newFragment initial cs)) → (∀ wf, gkeeps I (rfs_flushFragment wf)) →
  gkeeps (fw_J I) (send_args f).
Proof.
  intros Hn Hf.
  pose proof (writer_BeginArgument_keeps I Hn) as H1.
  pose proof (writeArg2WithAppends_keeps I Hn Hf) as H2.
  pose proof (writer_Close_keeps I Hn Hf ltac:(done)) as H3.
  pose proof (writer_Write_keeps I Hn Hf) as H4.
  unfold send_args, writer_ArgWriter, ArgWriteHelper_Write. keeps_steps.
Qed.

(** ** New calls *)

Definition ctx_books (δ : nat → Z) (O : nat → Prop) (x : relayCtx) : Prop := books δ nothing O (x_world x).

Lemma x_run_keeps {A} δ O (p : wprog A) :
  ptriple True (books δ nothing O) p (λ _, books δ nothing O) → gkeeps (ctx_books δ O) (x_run p).
Proof.
  intros Hp x a x' Hx. unfold x_run. specialize (Hp _ Hx). destruct (run p (x_world x)) as [[b w]| |]; [|done..].
  by intros [= <- <-].
Qed.

Lemma failRelay_ok δ O r id reason err :
  0 <= δ r → preserves δ nothing O (failRelayItem r (r, outboundItems) id reason err).
Proof.
  intros Hpos.
  eapply triple_conseq; [by apply (failRelayItem_ok δ nothing O (r, outboundItems))|done|].
  intros u w Hw. eapply books_ext; [done| |done|exact Hw]. by apply insert_None'.
Qed.

(** fragmentingSend, if it returns. *)
Lemma sendFragmented_ok δ O r b c n orig choice f :
  (∀ r, 0 <= δ r) →
  ptriple True (books δ nothing O) (sendFragmented r b c n orig choice f) (λ _, books δ nothing O).
Proof.
  intros Hpos w Hw. cbn. set (s0 := mkRelayFragmentSender f _ choice _ orig).
  set (I := λ s : relayFragmentSender relayCtx, ctx_books δ O (rfs_env s)).
  assert (Hn : ∀ initial cs, gkeeps I (rfs_newFragment initial cs)).
  { intros initial cs s a s' Hs. unfold rfs_newFragment. destruct (FramePool_Get _ _).
    destruct (DeferByte _). destruct (index _ _); [|done..].
    destruct (if initial then slice _ _ _ else _); [|done..]. cbn [mbind go_bind].
    destruct (WriteSingleByte _ _), (DeferBytes _ _). by intros [= <- <-]. }
  assert (Hf : ∀ wf, gkeeps I (rfs_flushFragment wf)).
  { intros wf s a s' Hs. unfold rfs_flushFragment. cbn [env_SentBytes env_Receive env_failRelayItem relayCtx_env].
    destruct (x_run (w_do _) _) as [[u x1]| |] eqn:E1; [|done..]. cbn [mbind go_bind].
    apply (x_run_keeps δ O _ (triple_ptriple _ _ _ _ (tell_keeps _ _ _ _ (SentBytes _) ltac:(done))) _ _ _ Hs) in E1.
    destruct (x_run (Receive _ _ _) _) as [[[sent reason] x2]| |] eqn:E2; [|done..].
    apply (x_run_keeps δ O _ (Receive_pok True δ nothing O (x_dst x1) (fragment_frame wf) requestFrame
      eq_refl (Hpos _) (or_introl Logic.I)) _ _ _ E1) in E2.
    destruct sent; [by intros [= <- <-]|]. cbn [mbind go_bind].
    destruct (x_run (failRelayItem _ _ _ _ _) _) as [[u3 x3]| |] eqn:E3; [|done..].
    apply (x_run_keeps δ O _ (triple_ptriple True _ _ _ (failRelay_ok δ O (x_src x2) (origID s) reason errFrameNotSent (Hpos _))) _ _ _ E2) in E3.
    by intros [= <- <-]. }
  assert (Hs : gkeeps (fw_J I) (λ fw, fragmentingSend f (fw_checksum fw) (fw_pools fw) (fw_sender fw))).
  { intros fw a fw' Hfw. unfold fragmentingSend. destruct (isArg2Fragmented f); [by intros [= <- <-]|].
    destruct (bool_decide _); [|by intros [= <- <-]]. by apply (send_args_keeps I f Hn Hf). }
  destruct (fragmentingSend _ _ _ _) as [[err fw]| |] eqn:E; [|done..].
  specialize (Hs (newFragmentingWriter s0 (w_pools w) (w_sum w n)) err fw Hw E).
  eapply books_same; [|exact Hs]. split; try done; cbn.
  - intros ref. by apply get_items_do.
  - intros r'. cbn. unfold insert, fn_insert. by case_decide as Er; [rewrite <- Er|].
  - intros r'. unfold conn_of. cbn. unfold insert, fn_insert. by destruct (decide (r = r')) as [<-|].
  - intros r'. unfold conn_of. cbn. unfold insert, fn_insert. by destruct (decide (r = r')) as [<-|].
  - intros r'. unfold conn_of. cbn. unfold insert, fn_insert. by destruct (decide (r = r')) as [<-|].
Qed.

Lemma req_total f :
  relay_frame (lq_Frame f) →
  is_Ret (lazyCallReq_Service f) ∧ is_Ret (lazyCallReq_TTL f) ∧ is_Ret (lazyCallReq_Span f)
  ∧ is_Ret (lazyCallReq_HasMoreFragments f).
Proof.
  intros Hf. pose proof (length_Payload _ (proj1 Hf)) as Hl.
  unfold lazyCallReq_Service, lazyCallReq_TTL, lazyCallReq_Span, lazyCallReq_HasMoreFragments, frameHasMoreFragments.
  destruct (payload_index _ _serviceLenIndex (proj1 Hf)) as [l ->].
  { unfold _serviceLenIndex, _spanIndex, _spanLength. lia. }
  destruct (payload_index _ _flagsIndex (proj1 Hf)) as [fl ->]; [unfold _flagsIndex; lia|].
  pose proof (Z_of_byte_range l). cbn [mbind go_bind].
  unfold _serviceNameIndex, _serviceLenIndex, _spanIndex, _spanLength, _ttlIndex, _ttlLen in *.
  rewrite !slice_fits by frame_lia. split_and!; try by eexists. by apply relay_frame_wire.
Qed.

Lemma SetTTL_total d f :
  relay_frame (lq_Frame f) →
  ∃ f', lazyCallReq_SetTTL d f = Ret f' ∧ relay_frame (lq_Frame f') ∧ arg2Appends f' = arg2Appends f.
Proof.
  intros Hf. pose proof (length_Payload _ (proj1 Hf)) as Hl. unfold lazyCallReq_SetTTL.
  unfold _ttlIndex, _ttlLen. rewrite slice_fits by frame_lia. eexists. split; [reflexivity|].
  split; [by apply setPayload_frame|done].
Qed.

(** A property of the world that a program leaves alone, next to its triple. *)
Lemma triple_stays {A} (P : World → Prop) (F : World → Prop) (p : wprog A) Q :
  triple P p Q → gkeeps F (run p) → triple (λ w, P w ∧ F w) p (λ a w, Q a w ∧ F w).
Proof.
  intros Hp HF w [Hw Hf]. specialize (Hp w Hw). destruct (run p w) as [[a w']| |] eqn:E; [|done..].
  split; [done|]. by eapply HF.
Qed.

Lemma stays_bind {S A B} (F : S → Prop) (p : prog S A) (k : A → prog S B) :
  gkeeps F (run p) → (∀ a, gkeeps F (run (k a))) → gkeeps F (run (p ≫= k)).
Proof.
  intros Hp Hk w b w' Hw. rewrite run_bind. by apply (gkeeps_bind F (run p) (λ a, run (k a))).
Qed.

Lemma stays_atomic {S A} (F : S → Prop) (m : ST S A) : (∀ w, F w → F (m w).2) → gkeeps F (run (atomic m)).
Proof. intros H w a w' Hw. cbn. unfold glift. specialize (H w Hw). destruct (m w). by intros [= <- <-]. Qed.

Lemma stays_act {S A} (F : S → Prop) (m : GO S A) : gkeeps F m → gkeeps F (run (atomic_go m)).
Proof.
  intros H w a w' Hw. cbn. specialize (H w). destruct (m w) as [[b w1]| |]; [|done..].
  intros [= <- <-]. by eapply H.
Qed.

(** No item has the id, and none is scheduled to be deleted. *)
Lemma free_same w w' k : (∀ ref, get_items ref w' = get_items ref w) → w_gc w' = w_gc w → free w k → free w' k.
Proof. intros H1 H2. unfold free, item_at. by rewrite H1, H2. Qed.

Lemma on_conn_free {A} r (p : prog Connection A) k : gkeeps (λ w, free w k) (run (on_conn r p)).
Proof.
  apply stays_act. intros w a w' Hw. destruct (run p _) as [[b c]| |]; [|done..].
  intros [= <- <-]. eapply free_same; [..|exact Hw]; [|done]. intros ref. by apply get_items_do.
Qed.

Lemma addRelayItem_free r (orig : bool) id remap dest ttl span c sum choice k :
  k ≠ ((r, if orig then outboundItems else inboundItems), id) →
  gkeeps (λ w, free w k) (run (addRelayItem r orig id remap dest ttl span c sum choice)).
Proof.
  intros Hk. unfold addRelayItem. apply stays_bind.
  { apply stays_atomic. intros w Hw. unfold timeouts_Get.
    destruct (choice ≫= _); cbn [snd]; (eapply free_same; [..|exact Hw]); try done. intros ref. by apply get_items_do. }
  intros t. apply stays_bind.
  { apply stays_atomic. cbn [snd]. intros w [H1 H2]. split; [|done]. rewrite item_at_set.
    case_decide as E; [|done]. destruct k as [ref id']. cbn in *. subst ref.
    rewrite lookup_insert_ne by congruence. exact H1. }
  intros u. apply stays_bind; [|intros ?; apply gkeeps_ret].
  apply stays_act. intros w a w' Hw. unfold timer_Start, verifyNotReleased.
  destruct (released _); [done|]. destruct (active _); [done|]. destruct (rt_pending _); [done|].
  intros [= <- <-]. by apply (free_same w).
Qed.

Definition add (r : nat) (δ : nat → Z) : nat → Z := <[r := δ r + 1]> δ.

(** Code that is known to return [a]. *)
Lemma go_then {A B} (P : World → Prop) (m : go A) a (k : A → wprog B) Q :
  m = Ret a → triple P (k a) Q → triple P (w_call_go m ≫= k) Q.
Proof. intros -> H w Hw. exact (H w Hw). Qed.

Lemma limitTTL_ok δ X O r f :
  relay_frame (lq_Frame f) →
  triple (books δ X O) (limitTTL r f)
    (λ a w, books δ X O w ∧ relay_frame (lq_Frame a.1) ∧ arg2Appends a.1 = arg2Appends f).
Proof.
  intros Hf. unfold limitTTL.
  eapply triple_bind; [apply go_keeps, req_total, Hf|]. intros ttl.
  eapply triple_bind; [apply read_keeps|]. intros max. case_decide; [|by apply triple_ret].
  destruct (SetTTL_total max f Hf) as (f' & E & Hf' & Ha).
  apply (go_then _ _ f' _ _ E). by apply triple_ret.
Qed.

Lemma triple_stays2 {A} (P F G : World → Prop) (p : wprog A) Q :
  triple P p Q → gkeeps F (run p) → gkeeps G (run p) →
  triple (λ w, P w ∧ F w ∧ G w) p (λ a w, Q a w ∧ F w ∧ G w).
Proof.
  intros Hp HF HG w (Hw & Hf & Hg). specialize (Hp w Hw). destruct (run p w) as [[a w']| |] eqn:E; [|done..].
  split_and!; [done|by eapply HF|by eapply HG].
Qed.

Lemma w_call_go_free {A} (m : go A) k : gkeeps (λ w, free w k) (run (w_call_go m)).
Proof. apply stays_act, gkeeps_call. Qed.

Lemma limitTTL_free r f k : gkeeps (λ w, free w k) (run (limitTTL r f)).
Proof.
  unfold limitTTL. apply stays_bind; [apply w_call_go_free|]. intros ttl.
  apply stays_bind; [by apply stays_atomic|]. intros max. case_decide; [|apply gkeeps_ret].
  apply stays_bind; [apply w_call_go_free|]. intros ?. apply gkeeps_ret.
Qed.

Lemma newSum_ok δ X O o f :
  triple (books δ X O) (newSum o f)
    (λ s w, books δ X O w ∧ (arg2Appends f = [] → s = None)).
Proof.
  unfold newSum. case_decide; [by apply triple_ret|]. apply triple_atomic. intros w Hw.
  destruct (New _ _ _) as [cs ps]. cbn [fst snd]. split; [|done]. by apply (books_same _ _ _ w).
Qed.

Lemma newSum_free o f k : gkeeps (λ w, free w k) (run (newSum o f)).
Proof.
  unfold newSum. case_decide; [apply gkeeps_ret|]. apply stays_atomic. intros w Hw.
  by destruct (New _ _ _) as [cs ps].
Qed.

Definition next_id (c : Connection) : Z := uint32 (c_nextMessageID c + 1).

Lemma NextMessageID_ok δ X O b :
  triple (λ w, books δ X O w ∧ free w ((b, inboundItems), next_id (conn_of w b))) (on_conn b NextMessageID)
    (λ id w, books δ X O w ∧ free w ((b, inboundItems), id)).
Proof.
  intros w [Hw Hfree].
  pose proof (on_conn_keeps δ X O b NextMessageID ltac:(by apply neutral_core) w Hw) as H.
  destruct (run (on_conn b NextMessageID) w) as [[id w']| |] eqn:E; [|done..]. split; [done|].
  apply (on_conn_free b NextMessageID ((b, inboundItems), id) w id w'); [|done].
  cbn in E. unfold glift in E. by injection E as <- _.
Qed.

(** Both items of a new call take over the pending counts. *)
Lemma startRelay_ok (pan : Prop) δ O r b c o f :
  (∀ r, 0 <= δ r) → ¬ O c → relay_frame (lq_Frame f) → (arg2Appends f ≠ [] → pan) →
  let k1 := ((r, outboundItems), ID (Header (lq_Frame f))) in
  ptriple pan
    (λ w, (books (add b (add r δ)) nothing (λ c', O c' ∨ c' = c) w
           ∧ free w ((b, inboundItems), next_id (conn_of w b))) ∧ free w k1)
    (startRelay r b c o f) (λ _, books δ nothing O).
Proof.
  intros Hpos Hc Hf Hpan k1. unfold startRelay. set (O1 := λ c', O c' ∨ c' = c).
  set (δ2 := add b (add r δ)).
  eapply ptriple_bind.
  { apply triple_ptriple, triple_stays; [apply NextMessageID_ok|apply on_conn_free]. }
  intros id. set (k2 := ((b, inboundItems), id)).
  apply (ptriple_bind _ _ _ _ (λ a w, (books δ2 nothing O1 w ∧ relay_frame (lq_Frame a.1)
      ∧ arg2Appends a.1 = arg2Appends f) ∧ free w k1 ∧ free w k2)).
  { apply triple_ptriple. eapply triple_conseq;
      [apply triple_stays2; [by apply limitTTL_ok|apply limitTTL_free..]| |intros a w H; exact H].
    intros w [[H1 H2] H3]. done. }
  intros [g ttl] w ((Hw & Hg & Happ) & Hk1 & Hk2). cbn [fst] in *.
  revert w Hw Hk1 Hk2. intros w H1 H2 H3. pose proof (conj H1 (conj H2 H3)) as Hpre.
  clear H1 H2 H3. revert w Hpre.
  eapply ptriple_bind.
  { apply triple_ptriple, triple_stays2; [apply go_keeps, req_total, Hg|apply w_call_go_free..]. }
  intros span. eapply ptriple_bind.
  { apply triple_ptriple, triple_stays2; [apply newSum_ok|apply newSum_free..]. }
  intros sum w ((Hw & Hsum) & Hk1 & Hk2).
  pose proof (conj (conj Hw Hk2) Hk1) as Hpre. clear Hw Hk1 Hk2. revert w Hpre.
  eapply ptriple_bind.
  { apply triple_ptriple, triple_stays.
    - apply (addRelayItem_ok δ2 nothing O1 b false id); [done|by intros].
    - apply addRelayItem_free. unfold k1. intros [=]. }
  intros i2. cbn beta. eapply ptriple_bind.
  { apply triple_ptriple. eapply triple_conseq.
    - apply (addRelayItem_ok (<[b := δ2 b - 1]> δ2) nothing O1 r true (ID (Header (lq_Frame f)))); [done|].
      intros _. by right.
    - intros w [Hw Hk]. split; [|exact Hk]. eapply books_ext; [..|exact Hw]; try done.
      intros c'. split; [by intros []|]. by intros ?; split; [|intros []].
    - intros i w Hw. exact Hw. }
  intros i1. apply (ptriple_conseq _ (books δ nothing O) _ _ (λ _, books δ nothing O)); [|intros w Hw|done].
  2: { eapply books_ext; [..|exact Hw]; [|done|].
    - intros r'. unfold δ2, add, insert, fn_insert. repeat case_decide; subst; try done; lia.
    - intros c'. unfold O1. split; [|intros H; split; [by left|intros [_ ->]; done]].
      intros [[?| ->] Hn]; [done|]. by destruct Hn. }
  destruct sum as [n|].
  - assert (pan) as Hp by (apply Hpan; rewrite <- Happ; intros E; by apply Hsum in E).
    eapply ptriple_bind.
    { intros w Hw. pose proof (sendFragmented_ok δ O r (destination i1) c n (ID (Header (lq_Frame f))) (o_frame o)
        (lq_set_Frame (set_id id (lq_Frame g)) g) Hpos w Hw) as H.
      destruct (run _ w) as [[e w']| |]; [exact H|done..]. }
    intros err. apply triple_ptriple.
    apply (triple_bind _ _ _ (λ _, books δ nothing O)); [|intros _; by apply triple_ret].
    destruct err; [|by apply triple_ret]. by apply failRelay_ok.
  - apply triple_ptriple. eapply triple_bind; [by apply tell_keeps|]. intros u.
    eapply triple_bind; [by apply Receive_ok; [|apply Hpos|apply set_id_frame]|]. intros [sent failure].
    apply (triple_bind _ _ _ (λ _, books δ nothing O)); [|intros _; by apply triple_ret].
    destruct sent; [by apply triple_ret|]. by apply failRelay_ok.
Qed.

(** The ids of a call request are not in use: the source's id, if it has no item, is
    not that of a deletion to come, and so is the next id of the destination. *)
Definition ids_free (r : nat) (id : Z) (o : callOracle) (w : World) : Prop :=
  (item_at w ((r, outboundItems), id) = None → ((r, outboundItems), id) ∉ w_gc w)
  ∧ ∀ b, o_dest o = connectedTo b → free w ((b, inboundItems), next_id (conn_of w b)).

Lemma ids_free_same r id o w w' :
  (∀ ref, get_items ref w' = get_items ref w) → w_gc w' = w_gc w →
  (∀ b, c_nextMessageID (conn_of w' b) = c_nextMessageID (conn_of w b)) →
  ids_free r id o w → ids_free r id o w'.
Proof.
  intros Hi Hgc Hn. unfold ids_free, free, item_at, next_id. rewrite Hi, Hgc. intros [H1 H2]. split; [done|].
  intros b Hb. rewrite Hi, Hn. by apply H2.
Qed.

Lemma canHandle_ids b r id o : gkeeps (ids_free r id o) (run (on_conn b canHandleNewCall)).
Proof.
  apply stays_act. intros w a w' Hw. unfold canHandleNewCall. cbn. unfold glift.
  destruct (decide _); intros [= <- <-]; (eapply ids_free_same; [..|exact Hw]; [by intros ref; apply get_items_do|done|]);
    intros b'; unfold conn_of; rewrite relayer_do_eq; destruct (decide (b = b')) as [<-|]; done.
Qed.

Lemma getDestination_ok δ O r f c o :
  relay_frame (lq_Frame f) →
  let id := ID (Header (lq_Frame f)) in
  triple (λ w, books δ nothing O w ∧ ids_free r id o w) (getDestination r f c (o_dest o))
    (λ d w, books δ nothing O w
       ∧ match d.1 with
         | Some b => d.2 = None ∧ o_dest o = connectedTo b ∧ ids_free r id o w ∧ free w ((r, outboundItems), id)
         | None => True
         end).
Proof.
  intros Hf id. destruct (req_total f Hf) as (_ & _ & Hspan & _). unfold getDestination.
  apply (triple_bind _ _ _ (λ g w, books δ nothing O w ∧ ids_free r id o w
    ∧ (g = None → item_at w ((r, outboundItems), id) = None))).
  { apply triple_act. intros w [Hw Hids]. change (items (get_items _ w) !! _) with (item_at w ((r, outboundItems), id)).
    by destruct (item_at w _) eqn:E. }
  assert (Hend : ∀ (e : callEvent) (err : error) (d : option nat * option error), d.1 = None → e ≠ End →
    triple (books δ nothing O) (_ ← w_do (tell c e); s ← w_call_go (lazyCallReq_Span f);
      _ ← relay_SendSystemError r id s err; mret d)
      (λ d w, books δ nothing O w ∧ match d.1 with
         | Some b => d.2 = None ∧ o_dest o = connectedTo b ∧ ids_free r id o w ∧ free w ((r, outboundItems), id)
         | None => True
         end)).
  { intros e err d Hd He. eapply triple_bind; [by apply tell_keeps|]. intros u.
    eapply triple_bind; [by apply go_keeps|]. intros s. eapply triple_bind; [apply SendSystemError_keeps|].
    intros u'. apply triple_ret. intros w Hw. by rewrite Hd. }
  intros [g|].
  { apply (triple_bind _ _ _ (λ _, books δ nothing O)); [|intros _; by apply triple_ret].
    eapply triple_conseq; [by apply tell_keeps|by intros w []|done]. }
  destruct (o_dest o) as [|e|b] eqn:Eo.
  - eapply triple_conseq; [by apply (Hend (Failed _) errBadRelayHost (None, Some errBadRelayHost))|by intros w []|done].
  - eapply triple_conseq; [by apply (Hend (Failed _) (NewWrappedSystemError ErrCodeNetwork e) (None, None))|by intros w []|done].
  - apply triple_ret. intros w (Hw & Hids & Hnone). split; [done|]. cbn [fst snd].
    split; [done|]. split; [done|]. split; [exact Hids|]. split; [by apply Hnone|]. by apply Hids, Hnone.
Qed.

Lemma acceptRemote_ok δ O r f c o d :
  relay_frame (lq_Frame f) →
  let id := ID (Header (lq_Frame f)) in
  triple (λ w, books δ nothing O w
       ∧ match d.1 with
         | Some b => d.2 = None ∧ o_dest o = connectedTo b ∧ ids_free r id o w ∧ free w ((r, outboundItems), id)
         | None => True
         end)
    (acceptRemote r f c d)
    (λ err w, match err, d.1 with
       | None, Some b => (books (add b δ) nothing O w ∧ free w ((b, inboundItems), next_id (conn_of w b)))
                         ∧ free w ((r, outboundItems), id)
       | _, _ => books δ nothing O w
       end).
Proof.
  intros Hf id. destruct (req_total f Hf) as (_ & _ & Hspan & _).
  destruct d as [[b|] derr]; cbn [fst snd]; [|apply triple_ret; intros w [Hw _]; by destruct derr].
  intros w (Hw & -> & Hb & Hids & Hfree). pose proof (conj (conj Hw Hids) Hfree) as Hpre. clear Hw Hids Hfree.
  revert w Hpre. unfold acceptRemote. eapply triple_bind.
  { apply triple_stays; [apply triple_stays; [apply canHandleNewCall_ok|apply canHandle_ids]|apply on_conn_free]. }
  intros [ok st]. cbn [fst]. destruct ok.
  { apply triple_ret. intros w ((Hw & Hids) & Hfree). split; [split; [done|]|done]. by apply Hids. }
  eapply triple_conseq; [|intros w ((Hw & _) & _); exact Hw|intros a w Hw; exact Hw].
  eapply triple_bind; [by apply tell_keeps|]. intros u. eapply triple_bind; [by apply go_keeps|]. intros s.
  eapply triple_bind; [apply SendSystemError_keeps|]. intros u'. by apply triple_ret.
Qed.

Lemma books_new_call δ X O w :
  books δ X O w → books δ X (λ c, O c ∨ c = w_nextCall w) (w_new_call w) ∧ ¬ O (w_nextCall w).
Proof.
  intros [B1 B2 B3 B4 B5 B6 B7 B8 B9 B10 B11 B12 B13 B14 B15 B16].
  assert (Hne : ∀ c, (c < w_nextCall w)%nat → w_call (w_new_call w) c = w_call w c).
  { intros c Hc. cbn. rewrite fn_lookup_insert_ne; [done|lia]. }
  split; [|intros H; apply B15 in H as [? _]; lia]. split; try done.
  - intros k i Hk Hl Ho. destruct (B13 k i Hk Hl Ho) as (H1 & H2 & H3). rewrite Hne by done.
    split_and!; [cbn; lia|done|]. intros [?|?]; [done|lia].
  - intros c [Hc|Hc].
    + destruct (B15 c Hc). rewrite Hne by done. split; [cbn; lia|done].
    + subst c. cbn. rewrite fn_lookup_insert. split; [lia|done].
  - intros c Hlt Hno Hnone. cbn in Hlt. assert (c ≠ w_nextCall w) by tauto.
    rewrite Hne by lia. apply B16; [lia|tauto|done].
Qed.

(** The books with the call, if there is one, still open. *)
Definition books_open (δ : nat → Z) (O : nat → Prop) (oc : option nat) (w : World) : Prop :=
  match oc with
  | Some c => books δ nothing (λ c', O c' ∨ c' = c) w ∧ ¬ O c
  | None => books δ nothing O w
  end.

Lemma startCall_ok δ O r id o :
  triple (λ w, books δ nothing O w ∧ ids_free r id o w) (startCall o)
    (λ oc w, books_open δ O oc w ∧ ids_free r id o w ∧ (oc = None → o_call o = false)).
Proof.
  unfold startCall. destruct (o_call o); [|apply triple_ret; by intros w []].
  apply triple_atomic. intros w [Hw Hids]. cbn [fst snd]. split; [by apply books_new_call|]. by split.
Qed.

Lemma failCall_ok δ O oc reason :
  triple (books_open δ O oc) (failCall oc reason) (λ _, books δ nothing O).
Proof. destruct oc as [c|]; [apply failRelay_end|by apply triple_ret]. Qed.

Lemma span_error_keeps δ X O r id f err :
  relay_frame (lq_Frame f) →
  preserves δ X O (s ← w_call_go (lazyCallReq_Span f); relay_SendSystemError r id s err).
Proof.
  intros Hf. eapply triple_bind; [apply go_keeps, req_total, Hf|]. intros s. apply SendSystemError_keeps.
Qed.

Lemma handleLocalCallReq_ok δ O r o f F :
  relay_frame (lq_Frame f) →
  triple (λ w, books δ nothing O w ∧ F w) (handleLocalCallReq r o f)
    (λ b w, books δ nothing O w ∧ (b = false → F w)).
Proof.
  intros Hf. destruct (req_total f Hf) as (Hs & _ & Hspan & Hmore). unfold handleLocalCallReq.
  destruct Hs as [service Es]. apply (go_then _ _ service _ _ Es).
  apply (triple_bind _ _ _ (λ _ w, books δ nothing O w ∧ F w)); [by apply triple_atomic|]. intros loc.
  case_decide; [|apply triple_ret; by intros w []].
  eapply triple_conseq; [|intros w [Hw _]; exact Hw|intros a w Hw; exact Hw].
  eapply triple_bind; [by apply go_keeps|]. intros more. destruct more.
  - eapply triple_bind; [by apply go_keeps|]. intros s. eapply triple_bind; [apply SendSystemError_keeps|].
    intros u. by apply triple_ret.
  - eapply triple_bind; [by apply on_conn_keeps, handleFrameNoRelay_neutral, relay_frame_wire|].
    intros u. by apply triple_ret.
Qed.

(** The relay host broke its contract, or the call goes through fragmentingSend. *)
Definition may_panic (o : callOracle) : Prop :=
  (o_err o = None ∧ o_call o = false) ∨ o_appends o ≠ [].

Lemma append_all_frame kvs f : lq_Frame (append_all kvs f) = lq_Frame f.
Proof. by rewrite append_all_eq. Qed.

Lemma acceptCall_ok (pan : Prop) δ O r o f oc :
  (∀ r, 0 <= δ r) → relay_frame (lq_Frame f) → (arg2Appends f ≠ [] ∨ oc = None → pan) →
  ptriple pan (λ w, books_open δ O oc w ∧ ids_free r (ID (Header (lq_Frame f))) o w)
    (acceptCall r o f oc) (λ _, books δ nothing O).
Proof.
  intros Hpos Hf Hpan. unfold acceptCall. destruct oc as [c|]; [|intros w _; apply Hpan; by right].
  set (id := ID (Header (lq_Frame f))). set (O1 := λ c', O c' ∨ c' = c).
  intros w ((Hw & Hc) & Hids). pose proof (conj Hw Hids) as Hpre. clear Hw Hids. revert w Hpre.
  eapply ptriple_bind.
  { apply triple_ptriple, triple_stays; [apply canHandleNewCall_ok|apply canHandle_ids]. }
  intros [ok st]. cbn [fst]. destruct ok; cbn [negb].
  2: { apply triple_ptriple. apply (triple_bind _ _ _ (λ _, books δ nothing O)).
    { eapply triple_conseq; [apply (failCall_ok δ O (Some c))| |done]. by intros w [Hw _]. }
    intros u. eapply triple_bind; [apply go_keeps, req_total, Hf|]. intros s.
    eapply triple_bind; [apply SendSystemError_keeps|]. intros u'. by apply triple_ret. }
  fold (add r δ). eapply ptriple_bind; [by apply triple_ptriple, getDestination_ok|].
  intros d. eapply ptriple_bind; [by apply triple_ptriple, acceptRemote_ok|]. intros err.
  assert (Hend : triple (books (add r δ) nothing O1)
    (_ ← pending_done r; _ ← w_do (tell c End); mret (false, err)) (λ _, books δ nothing O)).
  { eapply triple_bind.
    { apply pending_done_ok. unfold add. rewrite fn_lookup_insert. specialize (Hpos r). lia. }
    intros u. eapply triple_bind.
    { eapply triple_conseq; [apply (tell_End_ok δ nothing O c)| |intros a w H; exact H].
      intros w Hw. split; [|done]. eapply books_ext; [..|exact Hw]; try done.
      intros r'. unfold add. apply insert_back. }
    intros u'. by apply triple_ret. }
  destruct err as [e|]; [by apply triple_ptriple|]. destruct (d.1) as [b|]; [|by apply triple_ptriple].
  apply startRelay_ok; auto.
Qed.

Lemma relay_handleCallReq_ok δ O r o f :
  (∀ r, 0 <= δ r) → relay_frame (lq_Frame f) → arg2Appends f = [] →
  ptriple (may_panic o) (λ w, books δ nothing O w ∧ ids_free r (ID (Header (lq_Frame f))) o w)
    (relay_handleCallReq r o f) (λ _, books δ nothing O).
Proof.
  intros Hpos Hf Happ. unfold relay_handleCallReq. set (id := ID (Header (lq_Frame f))).
  eapply ptriple_bind; [by apply triple_ptriple, handleLocalCallReq_ok|]. intros handled.
  destruct handled; [apply triple_ptriple, triple_ret; by intros w []|].
  eapply ptriple_bind.
  { apply triple_ptriple. eapply triple_conseq; [apply (startCall_ok δ O r id o)| |intros a w H; exact H].
    intros w [Hw Hids]. by split; [|apply Hids]. }
  intros oc w (Hw & Hids & Hoc). pose proof (conj Hw Hids) as Hpre. clear Hw Hids. revert w Hpre.
  set (g := append_all (o_appends o) f).
  assert (Hg : relay_frame (lq_Frame g)) by (unfold g; by rewrite append_all_frame).
  destruct (o_err o) as [[|e]|] eqn:Ee.
  - apply triple_ptriple. eapply triple_bind.
    { eapply triple_conseq; [apply failCall_ok|by intros w []|intros a w H; exact H]. }
    intros u. by apply triple_ret.
  - apply triple_ptriple. eapply triple_bind.
    { eapply triple_conseq; [apply failCall_ok|by intros w []|intros a w H; exact H]. }
    intros u. eapply triple_bind; [apply go_keeps, req_total, Hg|]. intros s.
    eapply triple_bind; [apply SendSystemError_keeps|]. intros u'. case_decide; [|by apply triple_ret].
    eapply triple_bind; [apply on_conn_keeps, close_neutral|]. intros err. by apply triple_ret.
  - assert (Hid : id = ID (Header (lq_Frame g))) by (unfold g; by rewrite append_all_frame).
    rewrite Hid. apply (acceptCall_ok (may_panic o) δ O r o g oc); [done..|].
    unfold may_panic. intros [Ha|Ha]; [right|left].
    + intros E. apply Ha. unfold g. by rewrite append_all_eq, Happ, E.
    + split; [done|by apply Hoc].
Qed.

Lemma Relay_ok δ O r o f :
  (∀ r, 0 <= δ r) → relay_frame f → fh_messageType (Header f) ∈ call_types →
  ptriple (may_panic o)
    (λ w, books δ nothing O w
          ∧ (fh_messageType (Header f) = messageTypeCallReq → ids_free r (ID (Header f)) o w))
    (Relay r o f) (λ _, books δ nothing O).
Proof.
  intros Hpos Hf Ht. unfold Relay. case_decide as Hreq.
  - destruct (newLazyCallReq_safe f (proj1 Hf) (proj2 Hf) Hreq) as (res & E & Hres).
    intros w [Hw Hids]. rewrite E. cbn [w_call_go mbind prog_mbind prog_bind atomic_go run gcall].
    destruct res as [cr|e]; [|exact Hw]. destruct Hres as (Hcr & Happ & _).
    apply (relay_handleCallReq_ok δ O r o cr Hpos); [by rewrite Hcr|done|]. split; [done|].
    rewrite Hcr. by apply Hids.
  - apply triple_ptriple. eapply triple_bind.
    { eapply triple_conseq; [by apply handleNonCallReq_ok|by intros w []|intros a w H; exact H]. }
    intros err. case_decide; [|by apply triple_ret].
    eapply triple_bind; [by apply on_conn_keeps, forwardPeerFrame_neutral, relay_frame_sized|].
    intros e. by apply triple_ret.
Qed.

Lemma handleFrameRelay_ok δ O r o f :
  (∀ r, 0 <= δ r) → relay_frame f →
  ptriple (may_panic o)
    (λ w, books δ nothing O w
          ∧ (fh_messageType (Header f) = messageTypeCallReq → ids_free r (ID (Header f)) o w))
    (handleFrameRelay r o f) (λ _, books δ nothing O).
Proof.
  intros Hpos Hf. unfold handleFrameRelay. case_decide as Ht.
  - eapply ptriple_bind; [by apply Relay_ok|]. intros [rel err]. by apply triple_ptriple, triple_ret.
  - apply triple_ptriple. eapply triple_conseq; [|by intros w [Hw _]|intros a w H; exact H].
    by apply on_conn_keeps, handleFrameNoRelay_neutral, relay_frame_wire.
Qed.

(** ** Timers and tombs *)

(** The runtime lets a timer fire: OnTimer will run. *)
Definition timer_fire (t : nat) (w : World) : World :=
  let x := w_timer w t in
  w_set_timer t (mkRelayTimer (rt_pool x) false (S (rt_fired x)) (rt_duration x) (active x) (stopped x)
                   (released x) (rt_items x) (rt_id x) (rt_isOriginator x)) w.

(** The item of a timer that has fired or will. *)
Lemma firing_item δ O w t :
  books δ nothing O w → rt_pending (w_timer w t) = true ∨ rt_fired (w_timer w t) ≠ 0%nat →
  ∃ k i, item_at w k = Some i ∧ timeout i = t ∧ tomb i = false ∧ released (w_timer w t) = false
  ∧ rt_pool (w_timer w t) = k.1.1 ∧ (t < w_nextTimer w)%nat ∧ running (w_timer w t) k i
  ∧ isOriginator i = bool_decide (k.1.2 = outboundItems).
Proof.
  intros Hw Ht. destruct (b_fires _ _ _ _ Hw t Ht) as (k & i & Hk & <-).
  destruct (b_timer _ _ _ _ Hw k i Hk) as (H1 & H2 & H3 & H4). exists k, i.
  assert (Hl : tomb i = false).
  { destruct (tomb i); [|done]. destruct H4 as (_ & Hp & Hf). destruct Ht; congruence. }
  rewrite Hl in H4. split_and!; try done; [by apply H4..|]. by apply (b_side _ _ _ _ Hw).
Qed.

Lemma timer_fire_ok δ O w t :
  books δ nothing O w → rt_pending (w_timer w t) = true → books δ nothing O (timer_fire t w).
Proof.
  intros Hw Hp. destruct (firing_item δ O w t Hw (or_introl Hp)) as (k & i & Hk & <- & Hl & Hr & Hpool & Hlt & Hrun & _).
  apply (books_set_timer δ nothing nothing O w k i); [done..|].
  unfold timer_ok. rewrite set_timer_eq, Hl. cbn. split_and!; [done..|].
  destruct Hrun as (H1 & H2 & H3 & H4 & H5 & H6). split_and!; try done. right.
  destruct H6 as [[_ ->]|[? _]]; [done|congruence].
Qed.

Lemma OnTimer_ok δ O t :
  (∀ r, 0 <= δ r) →
  triple (λ w, books δ nothing O w ∧ rt_fired (w_timer w t) ≠ 0%nat) (OnTimer t) (λ _, books δ nothing O).
Proof.
  intros Hpos w [Hw Hf]. destruct (firing_item δ O w t Hw (or_intror Hf))
    as (k & i & Hk & <- & Hl & Hr & Hpool & Hlt & (H1 & H2 & H3 & H4 & H5 & H6) & Hside).
  destruct H6 as [[_ E]|[Hpend Hone]]; [by rewrite E in Hf|].
  unfold OnTimer. rewrite run_bind. unfold mbind, gost_bind. cbn [run atomic_go]. unfold verifyNotReleased.
  rewrite Hr, Hpool, H3, H4, H5. set (w1 := w_set_timer (timeout i) _ w).
  assert (Hw1 : books δ (<[k := Some false]> nothing) O w1).
  { apply (books_set_timer δ nothing _ O w k i); [done..| |].
    - intros k' Hne. by rewrite fn_lookup_insert_ne.
    - unfold timer_ok. rewrite set_timer_eq, Hl, fn_lookup_insert. cbn. unfold idle. cbn.
      rewrite Hpend, Hone. by split_and!. }
  pose proof (timeoutRelayItem_ok δ (<[k := Some false]> nothing) O k.1 k.2 (isOriginator i) (Hpos _) Hside w1) as H.
  destruct (run _ w1) as [[u w']| |].
  - eapply books_ext; [done| |done|apply H]; [|].
    + intros k'. rewrite <- (surjective_pairing k). by apply insert_None.
    + split; [done|]. intros j _ _. rewrite <- (surjective_pairing k), fn_lookup_insert. done.
  - apply H. split; [done|]. intros j _ _. rewrite <- (surjective_pairing k), fn_lookup_insert. done.
  - done.
Qed.

(** The deletion of a tomb, when its time has come. *)
Definition gc_tomb (k : ikey) : wprog unit :=
  _ ← items_Delete k.1 k.2;
  w_do (λ w, w_set_gc (filter (λ k', k' ≠ k) (w_gc w)) w).

Lemma items_Delete_gone k w oi w' : run (items_Delete k.1 k.2) w = Ret (oi, w') →
  item_at w' k = None ∧ (oi = None ∨ ∃ i, item_at w k = Some i ∧ tomb i = false).
Proof.
  unfold items_Delete. rewrite run_atomic. unfold items_remove.
  change (items (get_items k.1 w) !! k.2) with (item_at w k).
  destruct (item_at w k) as [i|] eqn:Hk; cbn [fst snd]; [|intros [= <- <-]; split; [done|by left]].
  set (w1 := set_items _ _ w).
  assert (H1 : item_at w1 k = None).
  { unfold w1. rewrite item_at_set. rewrite decide_True by done. apply lookup_delete_eq. }
  rewrite run_bind. unfold mbind, gost_bind. cbn [run atomic_go]. unfold timer_Release, verifyNotReleased.
  destruct (released _); [done|]. destruct (active _); [done|]. intros [= <- <-].
  split; [|destruct (tomb i) eqn:Ht; [by left|right; by exists i]].
  unfold timeouts_Put. rewrite set_timer_eq. cbn [rt_pool]. destruct (r_verify _); [exact H1|].
  unfold item_at in *. rewrite get_items_do by done. exact H1.
Qed.

Lemma gc_tomb_ok δ O k :
  (∀ r, 0 <= δ r) → triple (λ w, books δ nothing O w ∧ k ∈ w_gc w) (gc_tomb k) (λ _, books δ nothing O).
Proof.
  intros Hpos w [Hw Hin]. unfold gc_tomb. rewrite run_bind. unfold mbind, gost_bind.
  pose proof (items_Delete_ok δ nothing O k.1 k.2 w) as H.
  assert (Hpre : books δ nothing O w ∧ ∀ i, item_at w (k.1, k.2) = Some i → tomb i = false → nothing (k.1, k.2) ≠ None).
  { split; [done|]. intros i Hi Hl. rewrite <- (surjective_pairing k) in Hi.
    apply (b_gc _ _ _ _ Hw) in Hi. rewrite Hl in Hi. by apply Hi in Hin. }
  destruct (run (items_Delete k.1 k.2) w) as [[oi w']| |] eqn:E; [|by apply H|done].
  destruct (items_Delete_gone k w oi w' E) as [Hgone Hoi].
  destruct Hoi as [->|(i & Hi & Hl)].
  2: { apply (b_gc _ _ _ _ Hw) in Hi. rewrite Hl in Hi. by apply Hi in Hin. }
  specialize (H Hpre). cbn [live_done] in H. cbn.
  assert (Hw' : books δ nothing O w').
  { eapply books_ext; [done| |done|exact H]. intros k'. by apply insert_None'. }
  destruct Hw' as [B1 B2 B3 B4 B5 B6 B7 B8 B9 B10 B11 B12 B13 B14 B15 B16]. split; try done.
  - intros k' i Hi. cbn. rewrite list_elem_of_filter. change (item_at w' k' = Some i) in Hi.
    rewrite (B11 k' i Hi). split; [|by intros []]. intros H'. split; [|done]. intros ->. congruence.
  - by apply NoDup_filter.
Qed.

(** ** Runs of the relay *)

(** A channel that relays, before any frame has come: every connection has a new
    relayer, with its own message ids and settings. *)
Record relayConfig := mkRelayConfig {
  cfg_initialID : nat → Z;
  cfg_sendCap : nat → nat;
  cfg_maxTombs : Z;
  cfg_maxTimeout : Z;
  cfg_verify : bool;
  cfg_local : gset bytes;
  cfg_framePool : FramePool;
  cfg_pools : checksumPools
}.

Definition config_ok (g : relayConfig) : Prop := 0 <= cfg_maxTombs g < 2^64 - 1.

Definition relay_init (g : relayConfig) : World :=
  mkWorld (λ r, NewRelayer (newConnection (cfg_initialID g r) (cfg_sendCap g r) true false)
                  (cfg_maxTombs g) (validateRelayMaxTimeout (cfg_maxTimeout g)) (cfg_verify g) (cfg_local g)
                  (cfg_framePool g))
    (λ _, mkRelayTimer 0 false 0 0 false false false None 0 false) 0 (λ _, []) 0 [] (λ _, nullChecksum) 0
    (cfg_pools g).

(** One step: a connection reads a frame, a timer fires, OnTimer runs, a tomb is
    deleted, or a goroutine of a connection runs.  Each of these runs to its end before the
    next one starts; the relay makes no such promise, and [early_answer_panics] is an
    interleaving of two of them that breaks it.  The ids of a new call are assumed to be
    free: the relay refuses a call whose id has an item, but it does not look for a
    deletion of that id that is still to come, nor does it check the id that the
    destination gives out, which starts again after 2^32 calls. *)
Inductive relay_step : World → World → Prop :=
| step_frame r o f w b w' :
    relay_frame f → (fh_messageType (Header f) = messageTypeCallReq → ids_free r (ID (Header f)) o w) →
    run (handleFrameRelay r o f) w = Ret (b, w') → relay_step w w'
| step_fire t w : rt_pending (w_timer w t) = true → relay_step w (timer_fire t w)
| step_OnTimer t w u w' :
    rt_fired (w_timer w t) ≠ 0%nat → run (OnTimer t) w = Ret (u, w') → relay_step w w'
| step_gc k w u w' : k ∈ w_gc w → run (gc_tomb k) w = Ret (u, w') → relay_step w w'
| step_conn r p w u w' : conn_goroutine p → run (on_conn r p) w = Ret (u, w') → relay_step w w'.

Abbreviation in_order := (books no_debt nothing none_open).

Lemma relay_init_ok g : config_ok g → in_order (relay_init g).
Proof.
  intros Hg. assert (Hempty : ∀ k, item_at (relay_init g) k = None) by (by intros [[r []] id]).
  split; try (intros; exfalso; rewrite ?Hempty in *; done).
  - intros r. destruct (new_inv (cfg_initialID g r) (cfg_sendCap g r) true false) as [HI Hb].
    split; [exact HI|]. unfold conn_of. cbn [relay_init w_relayer NewRelayer r_conn]. by rewrite (acc_same_eq _ _ Hb).
  - done.
  - intros [r []]; cbn; unfold config_ok, _defaultRelayMaxTombs in *; case_decide; (split; [done|lia]).
  - intros t [?|?]; done.
  - intros t _. done.
  - intros r. constructor.
  - intros r t. by intros ?%elem_of_nil.
  - constructor.
  - intros c Hc. cbn in Hc. lia.
Qed.

Lemma triple_run {A} (P : World → Prop) (p : wprog A) Q w a w' :
  triple P p Q → P w → run p w = Ret (a, w') → Q a w'.
Proof. intros H Hw E. specialize (H w Hw). by rewrite E in H. Qed.

Lemma relay_step_ok w w' : relay_step w w' → in_order w → in_order w'.
Proof.
  intros Hstep Hw. destruct Hstep as [r o f w b w' Hf Hids E|t w Hp|t w u w' Ht E|k w u w' Hk E|r p w u w' Hp E].
  - pose proof (handleFrameRelay_ok no_debt none_open r o f ltac:(done) Hf w (conj Hw Hids)) as H. by rewrite E in H.
  - by apply timer_fire_ok.
  - by apply (triple_run _ _ _ _ _ _ (OnTimer_ok no_debt none_open t ltac:(done)) (conj Hw Ht) E).
  - by apply (triple_run _ _ _ _ _ _ (gc_tomb_ok no_debt none_open k ltac:(done)) (conj Hw Hk) E).
  - by apply (triple_run _ _ _ _ _ _ (on_conn_keeps no_debt nothing none_open r p (goroutine_neutral p Hp)) Hw E).
Qed.

Abbreviation relay_steps := (rtc relay_step).

Lemma relay_steps_ok g w : config_ok g → relay_steps (relay_init g) w → in_order w.
Proof.
  intros Hg H. assert (H0 := relay_init_ok g Hg). revert H0.
  induction H as [w|w1 w2 w3 H12 _ IH]; [done|]. intros H1. by apply IH, (relay_step_ok w1).
Qed.

(** C7: The relay keeps its books between its handlers.  After any sequence of frames,
    timers, deletions and goroutines of connections, each of which runs to its end before
    the next one starts, and in which the ids of new calls are not in use or awaiting a
    deletion, the count of pending calls
    of a connection is the number of live items of its relayer, and the tomb count of
    a map is the number of its tombs, which stays within the limit; every live item
    has a timer that is set for it, every tomb a scheduled deletion; and every call
    the relay host was asked about is ended at most once, not while its originator has
    a live item, and exactly once when it has none. *)
Theorem relay_accounting g w :
  config_ok g → relay_steps (relay_init g) w →
  (∀ r, c_pending (conn_of w r) = Some (relayer_live r w))
  ∧ (∀ ref, let i := get_items ref w in
       tombs i = ntomb (items i) ∧ tombs i <= maxTombs i + 1 ∧ Count i = nlive (items i))
  ∧ (∀ k i, item_at w k = Some i →
       if tomb i then k ∈ w_gc w else running (w_timer w (timeout i)) k i)
  ∧ (∀ c, (c < w_nextCall w)%nat →
       (nends (w_call w c) <= 1)%nat
       ∧ (∀ k i, item_at w k = Some i → tomb i = false → isOriginator i = true → call i = c →
            nends (w_call w c) = 0%nat)
       ∧ ((∀ k i, item_at w k = Some i → tomb i = false → isOriginator i = true → call i ≠ c) →
            nends (w_call w c) = 1%nat)).
Proof.
  intros Hg Hr. pose proof (relay_steps_ok g w Hg Hr) as Hw. split_and!.
  - intros r. rewrite (b_pending _ _ _ _ Hw r). f_equal. unfold no_debt. lia.
  - intros ref i. destruct (b_tombs _ _ _ _ Hw ref) as (H1 & H2 & _). split_and!; [done..|].
    unfold Count. fold i in H1. rewrite H1. apply size_live_tomb.
  - intros k i Hk. destruct (tomb i) eqn:Ht; [by apply (b_gc _ _ _ _ Hw k i Hk)|].
    destruct (b_timer _ _ _ _ Hw k i Hk) as (_ & _ & _ & H). by rewrite Ht in H.
  - intros c Hc.
    assert (Hlive : ∀ k i, item_at w k = Some i → tomb i = false → isOriginator i = true → call i = c →
      nends (w_call w c) = 0%nat).
    { intros k i Hk Hl Ho <-. by apply (b_call _ _ _ _ Hw k i). }
    pose proof (b_ended _ _ _ _ Hw c Hc (λ x, x)) as Hend. split_and!; [|exact Hlive|exact Hend].
    destruct (decide (nends (w_call w c) <= 1)%nat) as [|Hn]; [done|]. exfalso.
    rewrite Hend in Hn; [lia|]. intros k i Hk Hl Ho Hcall. rewrite (Hlive k i Hk Hl Ho Hcall) in Hn. lia.
Qed.

(** C27: The relay does not crash as long as its handlers do not interleave.  In every state
    that it reaches by frames, timers, deletions and goroutines of connections that run one
    after another, each to its end, with the ids of new calls free, none of them makes it
    panic when it runs alone, if the relay host returns a call or an error and does not
    append to arg2.  An answer that comes while the handler of the request is still
    running is not covered and can make it panic ([early_answer_panics]). *)
Theorem relay_no_panic g w :
  config_ok g → relay_steps (relay_init g) w →
  (∀ r o f, relay_frame f →
     (fh_messageType (Header f) = messageTypeCallReq → ids_free r (ID (Header f)) o w) →
     (o_err o = None → o_call o = true) → o_appends o = [] →
     run (handleFrameRelay r o f) w ≠ Panic)
  ∧ (∀ t, rt_fired (w_timer w t) ≠ 0%nat → run (OnTimer t) w ≠ Panic)
  ∧ (∀ k, k ∈ w_gc w → run (gc_tomb k) w ≠ Panic)
  ∧ (∀ r p, conn_goroutine p → run (on_conn r p) w ≠ Panic).
Proof.
  intros Hg Hr. pose proof (relay_steps_ok g w Hg Hr) as Hw. split_and!.
  - intros r o f Hf Hids Hhost Happ E.
    pose proof (handleFrameRelay_ok no_debt none_open r o f ltac:(done) Hf w (conj Hw Hids)) as H.
    rewrite E in H. destruct H as [[He Hc]|Ha]; [|done]. rewrite (Hhost He) in Hc. done.
  - intros t Ht E. pose proof (OnTimer_ok no_debt none_open t ltac:(done) w (conj Hw Ht)) as H. by rewrite E in H.
  - intros k Hk E. pose proof (gc_tomb_ok no_debt none_open k ltac:(done) w (conj Hw Hk)) as H. by rewrite E in H.
  - intros r p Hp E. pose proof (on_conn_keeps no_debt nothing none_open r p (goroutine_neutral p Hp) w Hw) as H.
    by rewrite E in H.
Qed.
