(* ===== verification/RelayForward.v ===== *)
(** * What the relay does with a frame

    A frame of a call under way goes to the other side of the call with its message id
    replaced and nothing else changed; the last frame of a call ends it on both sides.
    At the end, runs of the relay that show where it does not do what it means to. *)

From stdpp Require Import functions.
From S2P Require Import Prelude Conc Errors Buffer Checksum Frame Messages Fragment FragmentCorrect Mex ReqRes Health Connection ConnectionSafe ConnectionRun Headers LazyMessages RelaySend Relay RelaySafe RelayRun.

(** ** Finishing an item *)

Lemma settled_send c : c_sendCh (settled c) = c_sendCh c.
Proof. unfold settled. case_decide; [done|]. by case_decide. Qed.

Lemma settled_stop c : stop_ok c → stop_ok (settled c).
Proof.
  intros Hs. unfold settled. case_decide as E; [exact Hs|]. case_decide as E'; [intros _; exact E'|].
  intros H. cbn in H. apply Hs in H. destruct E. unfold settle. rewrite H. by destruct (c_stoppedExchanges c).
Qed.

Lemma pending_done_run r w :
  (∀ r, stop_ok (conn_of w r)) →
  ∃ w', run (pending_done r) w = Ret (tt, w') ∧ (∀ k, item_at w' k = item_at w k)
  ∧ (∀ r', c_sendCh (conn_of w' r') = c_sendCh (conn_of w r')) ∧ w_timer w' = w_timer w
  ∧ ∀ r', stop_ok (conn_of w' r').
Proof.
  intros Hs. set (c := conn_of w r).
  set (c1 := c_set_pending ((λ n, n - 1) <$> c_pending c) c).
  assert (E : run decrementPending c = Ret (tt, settled c1)).
  { unfold decrementPending, c_do. rewrite run_atomic. apply checkExchanges_run, (Hs r). }
  exists (w_relayer_do r (r_set_conn (settled c1)) w). split_and!.
  - unfold pending_done, on_conn. cbn [run atomic_go]. fold (conn_of w r). fold c. by rewrite E.
  - intros k. unfold item_at. by rewrite get_items_do.
  - intros r'. unfold conn_of. rewrite relayer_do_eq. case_decide; subst; [|done]. exact (settled_send c1).
  - done.
  - intros r'. unfold conn_of. rewrite relayer_do_eq. case_decide; [|apply Hs]. apply settled_stop, (Hs r).
Qed.

(** The item [k] goes, and no other; nothing is sent. *)
Record finishes (k : ikey) (w w' : World) : Prop := {
  fin_gone : item_at w' k = None;
  fin_item k' : k' ≠ k → item_at w' k' = item_at w k';
  fin_send r : c_sendCh (conn_of w' r) = c_sendCh (conn_of w r)
}.

Lemma items_Delete_run k w i :
  item_at w k = Some i → tomb i = false →
  released (w_timer w (timeout i)) = false → active (w_timer w (timeout i)) = false →
  ∃ w', run (items_Delete k.1 k.2) w = Ret (Some i, w') ∧ finishes k w w'
  ∧ (∀ r, conn_of w' r = conn_of w r)
  ∧ ∀ t, t ≠ timeout i → w_timer w' t = w_timer w t.
Proof.
  intros Hk Hl Hr Ha. unfold items_Delete. rewrite run_atomic. unfold items_remove.
  change (items (get_items k.1 w) !! k.2) with (item_at w k). rewrite Hk. cbn [fst snd].
  set (w1 := set_items _ _ w). rewrite run_bind. unfold mbind, gost_bind. cbn [run atomic_go].
  unfold timer_Release, verifyNotReleased. change (w_timer w1) with (w_timer w). rewrite Hr, Ha, Hl.
  set (x := mkRelayTimer _ _ _ _ _ _ true _ _ _). set (w2 := w_set_timer _ x w1).
  assert (Hput : (∀ ref, get_items ref (timeouts_Put (timeout i) w2) = get_items ref w1)
    ∧ (∀ r, conn_of (timeouts_Put (timeout i) w2) r = conn_of w1 r)
    ∧ w_timer (timeouts_Put (timeout i) w2) = w_timer w2).
  { unfold timeouts_Put. destruct (r_verify _); [done|]. split_and!; [|intros r|done].
    - intros ref. by rewrite get_items_do.
    - unfold conn_of. rewrite relayer_do_eq. case_decide as E; [by rewrite <- E|done]. }
  destruct Hput as (Hi & Hc & Ht). eexists. split; [reflexivity|].
  assert (Hitem : ∀ k', item_at w1 k' = if decide (k = k') then None else item_at w k').
  { intros k'. unfold w1. rewrite item_at_set. destruct k as [ref id], k' as [ref' id']. cbn.
    case_decide as E; [|by rewrite decide_False by congruence]. subst ref'. case_decide as E.
    - injection E as ->. apply lookup_delete_eq.
    - by rewrite lookup_delete_ne by congruence. }
  assert (Hconn : ∀ r, conn_of w1 r = conn_of w r) by (intros r; apply set_items_conn).
  split_and!; [split| |].
  - unfold item_at in *. rewrite Hi, Hitem. by rewrite decide_True.
  - intros k' Hne. unfold item_at in *. rewrite Hi, Hitem. by rewrite decide_False.
  - intros r. by rewrite Hc, Hconn.
  - intros r. by rewrite Hc, Hconn.
  - intros t Hne. rewrite Ht. unfold w2. cbn. by rewrite fn_lookup_insert_ne.
Qed.

Lemma finishRelayItem_run k w i :
  item_at w k = Some i → tomb i = false →
  released (w_timer w (timeout i)) = false → active (w_timer w (timeout i)) = false →
  (∀ r, stop_ok (conn_of w r)) →
  ∃ w', run (finishRelayItem k.1.1 k.1 k.2) w = Ret (tt, w') ∧ finishes k w w'
  ∧ (∀ t, t ≠ timeout i → w_timer w' t = w_timer w t) ∧ ∀ r, stop_ok (conn_of w' r).
Proof.
  intros Hk Hl Hr Ha Hs. unfold finishRelayItem.
  destruct (items_Delete_run k w i Hk Hl Hr Ha) as (w1 & E1 & [F1 F2 F3] & Hconn & Ht1).
  rewrite (run_bind_ret _ _ _ _ _ E1).
  assert (Hcall : ∃ w2, run (if isOriginator i then finishCall i else mret tt) w1 = Ret (tt, w2)
    ∧ (∀ ref, get_items ref w2 = get_items ref w1) ∧ (∀ r, conn_of w2 r = conn_of w1 r) ∧ w_timer w2 = w_timer w1).
  { destruct (isOriginator i); [|by exists w1]. unfold finishCall, w_do. rewrite run_atomic. cbn [fst snd].
    destruct (mutatedChecksum i); by eexists. }
  destruct Hcall as (w2 & E2 & Hi2 & Hc2 & Ht2). rewrite (run_bind_ret _ _ _ _ _ E2).
  destruct (pending_done_run k.1.1 w2) as (w3 & E3 & Hi3 & Hs3 & Ht3 & Hst3); [intros r; by rewrite Hc2, Hconn|].
  exists w3. split; [done|].
  assert (Hit : ∀ k', item_at w3 k' = item_at w1 k').
  { intros k'. rewrite Hi3. unfold item_at. by rewrite Hi2. }
  split; [split|split; [|done]].
  - by rewrite Hit.
  - intros k' Hne. rewrite Hit. by apply F2.
  - intros r. rewrite Hs3, Hc2. apply F3.
  - intros t Hne. rewrite Ht3, Ht2. by apply Ht1.
Qed.

(** ** Forwarding *)

(** Events, statistics: the items, connections and timers stay. *)
Record unmoved (w w' : World) : Prop := {
  um_items ref : get_items ref w' = get_items ref w;
  um_conn r : conn_of w' r = conn_of w r;
  um_timer t : w_timer w' t = w_timer w t
}.

Lemma unmoved_refl w : unmoved w w.
Proof. by split. Qed.
Lemma unmoved_tell c e w : unmoved w (tell c e w).
Proof. by split. Qed.
Lemma unmoved_item w w' k : unmoved w w' → item_at w' k = item_at w k.
Proof. intros H. unfold item_at. by rewrite (um_items _ _ H). Qed.

(** An item whose timer will fire, and has not. *)
Definition ticking (w : World) (k : ikey) (i : relayItem) : Prop :=
  item_at w k = Some i ∧ tomb i = false ∧ rt_pending (w_timer w (timeout i)) = true.

Definition timer_armed (x : relayTimer) : Prop :=
  released x = false ∧ stopped x = false ∧ rt_pending x = true.

Definition stop_timer (t : nat) (w : World) : World :=
  let x := w_timer w t in
  w_set_timer t (markTimerInactive
    (mkRelayTimer (rt_pool x) false (rt_fired x) (rt_duration x) (active x) true (released x)
       (rt_items x) (rt_id x) (rt_isOriginator x))) w.

Lemma go_run {A B} (m : go A) a (K : A → wprog B) w :
  m = Ret a → run (w_call_go m ≫= K) w = run (K a) w.
Proof. by intros ->. Qed.

Lemma items_Get_run {B} k w i (stop : bool) (K : option (relayItem * bool) → wprog B) :
  item_at w k = Some i → timer_armed (w_timer w (timeout i)) →
  run (items_Get k.1 k.2 stop ≫= K) w
  = run (K (Some (i, stop))) (if stop then stop_timer (timeout i) w else w).
Proof.
  intros Hk (Hr & Hs & Hp). unfold items_Get. rewrite run_bind. unfold mbind, gost_bind. cbn [run atomic_go].
  change (items (get_items k.1 w) !! k.2) with (item_at w k). rewrite Hk. destruct stop; [|done].
  unfold timer_Stop, verifyNotReleased. rewrite Hr, Hs, Hp. unfold stop_timer. by rewrite Hr.
Qed.

Lemma inspectFrame_run f i w :
  relay_frame f → mutatedChecksum i = None →
  ∃ w', run (inspectFrame f i) w = Ret (f, w') ∧ unmoved w w'.
Proof.
  intros Hf Hm. unfold inspectFrame. rewrite Hm. case_decide as Ht.
  - destruct (newLazyCallRes_total f Hf Ht) as [cr E]. rewrite E. cbn.
    destruct cr; cbn; eexists; (split; [reflexivity|]); by split.
  - case_decide; exists w; by split.
Qed.

(** The destination queues the frame. *)
Definition queue (d : nat) (f : Frame) (w : World) : World :=
  w_relayer_do d (r_set_conn (c_set_sendCh (c_sendCh (conn_of w d) ++ [f]) (conn_of w d))) w.

Definition has_room (w : World) (d : nat) : Prop :=
  (length (c_sendCh (conn_of w d)) < c_sendCap (conn_of w d))%nat.

Lemma sendFrame_run d f w : has_room w d → run (sendFrame d f) w = Ret (true, queue d f w).
Proof.
  intros H. unfold sendFrame, on_conn. cbn. unfold glift, trySend. fold (conn_of w d).
  by rewrite decide_True by exact H.
Qed.

Lemma queue_items d f w ref : get_items ref (queue d f w) = get_items ref w.
Proof. by apply get_items_do. Qed.
Lemma queue_conn d f w r :
  c_sendCh (conn_of (queue d f w) r) = c_sendCh (conn_of w r) ++ (if decide (d = r) then [f] else []).
Proof.
  unfold queue, conn_of. rewrite relayer_do_eq. case_decide; subst; [done|]. by rewrite app_nil_r.
Qed.
Lemma queue_stop d f w : (∀ r, stop_ok (conn_of w r)) → ∀ r, stop_ok (conn_of (queue d f w) r).
Proof.
  intros H r. unfold queue, conn_of. rewrite relayer_do_eq. case_decide; [exact (H d)|apply H].
Qed.

(** Receive of a frame for an item that ticks. *)
Lemma Receive_run d f ft fin w j :
  frame_ok f → finishesCall f = Ret fin →
  let k := (receiverItems d ft, ID (Header f)) in
  item_at w k = Some j → tomb j = false → timer_armed (w_timer w (timeout j)) → has_room w d →
  (∀ r, stop_ok (conn_of w r)) →
  ∃ w', run (Receive d f ft) w = Ret ((true, []), w')
  ∧ (∀ r, c_sendCh (conn_of w' r) = c_sendCh (conn_of w r) ++ (if decide (d = r) then [f] else []))
  ∧ (∀ k', item_at w' k' = if fin && bool_decide (k' = k) then None else item_at w k')
  ∧ (∀ t, t ≠ timeout j → w_timer w' t = w_timer w t) ∧ ∀ r, stop_ok (conn_of w' r).
Proof.
  intros Hf Hfin k Hj Hl Harm Hroom Hst. unfold Receive. rewrite (go_run _ _ _ _ Hfin).
  rewrite (items_Get_run k w j fin _ Hj Harm). cbv zeta. rewrite Hl. cbn [orb].
  assert (Hlate : fin && negb fin = false) by by destruct fin. rewrite Hlate. clear Hlate.
  set (w1 := if fin then stop_timer (timeout j) w else w).
  assert (H1 : (∀ ref, get_items ref w1 = get_items ref w) ∧ (∀ r, conn_of w1 r = conn_of w r)
    ∧ ∀ t, t ≠ timeout j → w_timer w1 t = w_timer w t).
  { unfold w1. destruct fin; [|done]. split_and!; [done..|]. intros t Hne. cbn. by rewrite fn_lookup_insert_ne. }
  assert (Htell : ∃ w2, run (if decide (ft = responseFrame) then
               s ← w_call_go (determinesCallSuccess f);
               if s.1 : bool then w_do (tell (call j) Succeeded)
               else if decide (s.2 = []) then mret tt
               else w_do (tell (call j) (Failed s.2))
             else mret tt) w1 = Ret (tt, w2) ∧ unmoved w1 w2).
  { case_decide; [|exists w1; by split]. destruct (determinesCallSuccess_total f Hf) as [[s reason] Es].
    rewrite (go_run _ _ _ _ Es). cbn [fst snd].
    destruct s; [eexists; split; [reflexivity|by split]|].
    case_decide; eexists; (split; [reflexivity|by split]). }
  destruct Htell as (w2 & E2 & U2). rewrite (run_bind_ret _ _ _ _ _ E2).
  destruct H1 as (Hi1 & Hc1 & Ht1).
  assert (Hroom2 : has_room w2 d) by (unfold has_room; by rewrite (um_conn _ _ U2), Hc1).
  rewrite (run_bind_ret _ _ _ _ _ (sendFrame_run d f w2 Hroom2)). cbn [negb].
  assert (Hitem : ∀ k', item_at (queue d f w2) k' = item_at w k').
  { intros k'. unfold item_at. by rewrite queue_items, (um_items _ _ U2), Hi1. }
  assert (Hsend : ∀ r, c_sendCh (conn_of (queue d f w2) r) = c_sendCh (conn_of w r) ++ (if decide (d = r) then [f] else [])).
  { intros r. by rewrite queue_conn, (um_conn _ _ U2), Hc1. }
  assert (Hstop : ∀ r, stop_ok (conn_of (queue d f w2) r)).
  { apply queue_stop. intros r. by rewrite (um_conn _ _ U2), Hc1. }
  assert (Htimer : ∀ t, w_timer (queue d f w2) t = w_timer w1 t) by (intros t; apply (um_timer _ _ U2)).
  destruct fin.
  - destruct (finishRelayItem_run k (queue d f w2) j) as (w3 & E3 & [F1 F2 F3] & T3 & S3); try done.
    + by rewrite Hitem.
    + rewrite Htimer. unfold w1, stop_timer. rewrite set_timer_eq. apply Harm.
    + rewrite Htimer. unfold w1, stop_timer. by rewrite set_timer_eq.
    + exists w3. rewrite (run_bind_ret _ _ _ _ _ E3). split_and!; [done| | | |done].
      * intros r. by rewrite F3.
      * intros k'. cbn [andb]. case_bool_decide as E; [by subst|]. rewrite F2 by done. apply Hitem.
      * intros t Hne. rewrite T3, Htimer by done. by apply Ht1.
  - exists (queue d f w2). split_and!; [done..| |done]. intros t Hne. rewrite Htimer. by apply Ht1.
Qed.

(** C8: The relay forwards.  A frame that continues or answers a live call, read from the
    connection [r] and handled without interference, is queued on the connection of the
    destination with the message id the item maps to, and with everything else as it came;
    no other connection is sent anything.  If the frame is the call's last the two items
    are gone afterwards, otherwise all items are as before.  This is for a call whose two
    items have timers that have not run out, whose arg2 the relay host has not changed (or
    else the checksum of the frame is rewritten), and a destination with room in its send
    channel (or else the call fails); the state is one that the relay reaches when its
    handlers run one after another. *)
Theorem relay_forwards g w r f ft i j :
  config_ok g → relay_steps (relay_init g) w → relay_frame f → frameTypeFor f = Ret ft →
  let src := ((r, if decide (ft = responseFrame) then inboundItems else outboundItems), ID (Header f)) in
  let dst := (receiverItems (destination i) ft, remapID i) in
  ticking w src i → mutatedChecksum i = None → ticking w dst j → has_room w (destination i) →
  ∃ fin w', finishesCall f = Ret fin ∧ run (handleNonCallReq r f) w = Ret (None, w')
  ∧ (∀ r', c_sendCh (conn_of w' r') =
       c_sendCh (conn_of w r') ++ (if decide (destination i = r') then [set_id (remapID i) f] else []))
  ∧ (∀ k, item_at w' k = if fin && bool_decide (k = src ∨ k = dst) then None else item_at w k).
Proof.
  intros Hg Hr Hf Hft src dst (Hi & Hil & Hit) Hm (Hj & Hjl & Hjt) Hroom.
  pose proof (relay_steps_ok g w Hg Hr) as Hw.
  assert (Harm : ∀ k x, item_at w k = Some x → tomb x = false → rt_pending (w_timer w (timeout x)) = true →
    timer_armed (w_timer w (timeout x))).
  { intros k x Hx Hl Hp. destruct (b_timer _ _ _ _ Hw k x Hx) as (H1 & _ & _ & H2). rewrite Hl in H2.
    split_and!; [done|apply H2|done]. }
  assert (Hne : src ≠ dst).
  { unfold src, dst, receiverItems. destruct ft; intros [=]; repeat case_decide; done. }
  assert (Ht : timeout i ≠ timeout j) by (intros E; by apply Hne, (b_own _ _ _ _ Hw src i dst j)).
  assert (Hst : ∀ r', stop_ok (conn_of w r')) by (intros r'; exact (inv_stop _ (proj1 (b_conn _ _ _ _ Hw r')))).
  destruct (finishesCall_total f (proj1 Hf)) as [fin Hfin]. exists fin.
  unfold handleNonCallReq. rewrite (go_run _ _ _ _ Hft), (go_run _ _ _ _ Hfin).
  rewrite (items_Get_run src w i fin _ Hi (Harm _ _ Hi Hil Hit)). rewrite Hil. cbn [orb].
  assert (Hlate : fin && negb fin = false) by by destruct fin. rewrite Hlate. clear Hlate.
  set (w1 := if fin then stop_timer (timeout i) w else w).
  assert (H1 : (∀ ref, get_items ref w1 = get_items ref w) ∧ (∀ r, conn_of w1 r = conn_of w r)
    ∧ ∀ t, t ≠ timeout i → w_timer w1 t = w_timer w t).
  { unfold w1. destruct fin; [|done]. split_and!; [done..|]. intros t Hn. cbn. by rewrite fn_lookup_insert_ne. }
  destruct H1 as (Hi1 & Hc1 & Ht1).
  destruct (inspectFrame_run f i w1 Hf Hm) as (w2 & E2 & U2). rewrite (run_bind_ret _ _ _ _ _ E2).
  unfold reportRelayBytes, w_do. rewrite run_atomic. cbn [fst snd]. set (w3 := tell _ _ w2).
  assert (U3 : unmoved w1 w3) by (destruct U2; by split). clearbody w3.
  assert (Hitem : ∀ k, item_at w3 k = item_at w k) by (intros k; unfold item_at; by rewrite (um_items _ _ U3), Hi1).
  assert (Hconn : ∀ r', conn_of w3 r' = conn_of w r') by (intros r'; by rewrite (um_conn _ _ U3), Hc1).
  destruct (Receive_run (destination i) (set_id (remapID i) f) ft fin w3 j) as (w4 & E4 & S4 & I4 & T4 & O4).
  - apply (set_id_frame _ _ Hf).
  - exact Hfin.
  - rewrite Hitem. exact Hj.
  - done.
  - rewrite (um_timer _ _ U3), Ht1 by congruence. by apply (Harm dst).
  - unfold has_room. by rewrite Hconn.
  - intros r'. by rewrite Hconn.
  - rewrite (run_bind_ret _ _ _ _ _ E4). cbn [negb].
    assert (Hs4 : ∀ r', c_sendCh (conn_of w4 r') = c_sendCh (conn_of w r')
      ++ (if decide (destination i = r') then [set_id (remapID i) f] else [])) by (intros r'; by rewrite S4, Hconn).
    destruct fin.
    + destruct (finishRelayItem_run src w4 i) as (w5 & E5 & [F1 F2 F3] & _ & _); try done.
      * rewrite I4, Hitem. change (ID (Header (set_id (remapID i) f))) with (remapID i).
        fold dst. by rewrite bool_decide_eq_false_2.
      * rewrite T4, (um_timer _ _ U3) by done. unfold w1, stop_timer. rewrite set_timer_eq. by apply (Harm src).
      * rewrite T4, (um_timer _ _ U3) by done. unfold w1, stop_timer. by rewrite set_timer_eq.
      * exists w5. rewrite (run_bind_ret _ _ _ _ _ E5). split_and!; [done..| |].
        -- intros r'. by rewrite F3.
        -- intros k. cbn [andb]. case_bool_decide as Ek.
           { destruct Ek as [->| ->]; [done|]. rewrite F2 by congruence. rewrite I4. cbn [andb].
             change (receiverItems (destination i) ft, ID (Header (set_id (remapID i) f))) with dst.
             by rewrite bool_decide_eq_true_2. }
           rewrite F2 by tauto. rewrite I4, Hitem. cbn [andb].
           change (receiverItems (destination i) ft, ID (Header (set_id (remapID i) f))) with dst.
           by rewrite bool_decide_eq_false_2 by tauto.
    + exists w4. split_and!; [done..|]. intros k. by rewrite I4, Hitem.
Qed.

(** ** An example: a call through two connections *)

Definition outcome {A} (p : wprog A) (w : World) : World :=
  match run p w with Ret (_, w') => w' | _ => w end.
Definition returns {A} (p : wprog A) (w : World) : bool :=
  match run p w with Ret _ => true | _ => false end.

Lemma returns_run {A} (p : wprog A) w : returns p w = true → ∃ a, run p w = Ret (a, outcome p w).
Proof. unfold returns, outcome. destruct (run p w) as [[a w']| |]; [by eexists|done..]. Qed.

Definition example_config : relayConfig :=
  mkRelayConfig (λ _, 100) (λ _, 4%nat) 2 0 false ∅ disabledFramePool emptyPools.

(** The relay host sends every call to the second connection. *)
Definition to_second : callOracle :=
  mkCallOracle true None [] (connectedTo 1) None None None None None pickFrame.

Definition req_frame : Frame := frame_of example_fragment.

(** The second connection answers with a message of type [t] and flags [fl]; the
    payload is that of a response. *)
Definition res_frame (t fl : byte) (id : Z) : Frame :=
  frame_of (mkFragment (mkFrameHeader 0 t x00 id (replicate 8 x00)) fl
    (callRes_enc (H := storage_range) (mkCallRes id responseOK (mkSpan 3 2 1 x00) {[ ArgScheme := str "raw" ]})
       ++ [ChecksumTypeNone]) [] [[]; str "a2"; str "a3"]).

Definition started : World := outcome (handleFrameRelay 0 to_second req_frame) (relay_init example_config).
Definition answered : World := outcome (handleFrameRelay 1 to_second (res_frame messageTypeCallRes x00 101)) started.

Lemma frame_of_relay f :
  len (fragment_enc f) <= MaxFramePayloadSize → length (reserved (fg_hdr f)) = 8%nat →
  relay_frame (frame_of f).
Proof.
  intros H1 H2. split; [apply (frame_of_sent f H1 H2)|]. unfold frame_of, SetPayloadSize.
  cbn [Header fh_size]. rewrite uint16_small; frame_lia.
Qed.

Lemma ids_free_check r id o w b :
  o_dest o = connectedTo b → item_at w ((r, outboundItems), id) = None →
  item_at w ((b, inboundItems), next_id (conn_of w b)) = None →
  Forall (λ k, k ≠ ((r, outboundItems), id) ∧ k ≠ ((b, inboundItems), next_id (conn_of w b))) (w_gc w) →
  ids_free r id o w.
Proof.
  intros Hb H1 H2 Hgc. rewrite Forall_forall in Hgc. split.
  - intros _ Hin. by destruct (Hgc _ Hin).
  - intros b' E. assert (b' = b) as -> by congruence. split; [done|]. intros Hin. by destruct (Hgc _ Hin).
Qed.

Lemma frame_steps r o f w w' :
  relay_frame f → (fh_messageType (Header f) = messageTypeCallReq → ids_free r (ID (Header f)) o w) →
  w' = outcome (handleFrameRelay r o f) w → returns (handleFrameRelay r o f) w = true → relay_step w w'.
Proof.
  intros Hf Hids -> Hret. destruct (returns_run _ _ Hret) as [b E]. by eapply step_frame.
Qed.

Lemma req_frame_ok : relay_frame req_frame.
Proof. apply frame_of_relay; by vm_compute. Qed.

Lemma res_frame_ok : relay_frame (res_frame messageTypeCallRes x00 101).
Proof. apply frame_of_relay; by vm_compute. Qed.

Lemma started_step : relay_step (relay_init example_config) started.
Proof.
  apply (frame_steps 0 to_second req_frame); [apply req_frame_ok| |done|by vm_compute].
  intros _. apply (ids_free_check _ _ _ _ 1); [done|by vm_compute..|]. constructor.
Qed.

Lemma answered_step : relay_step started answered.
Proof. apply (frame_steps 1 to_second (res_frame messageTypeCallRes x00 101)); [apply res_frame_ok|done..|by vm_compute]. Qed.

Lemma answered_steps : relay_steps (relay_init example_config) answered.
Proof. eapply rtc_l; [apply started_step|]. apply rtc_once, answered_step. Qed.

Lemma example_config_ok : config_ok example_config.
Proof. by vm_compute. Qed.

Lemma relay_accounting_witness :
  c_pending (conn_of started 0) = Some 1 ∧ c_pending (conn_of answered 0) = Some 0
  ∧ (0 < w_nextCall answered)%nat ∧ (nends (w_call answered 0) <= 1)%nat.
Proof.
  destruct (relay_accounting example_config started example_config_ok (rtc_once _ _ started_step)) as (H1 & _).
  destruct (relay_accounting example_config answered example_config_ok answered_steps) as (H2 & _ & _ & H3).
  assert (Hc : (0 < w_nextCall answered)%nat) by (vm_compute; lia).
  split; [rewrite (H1 0%nat); vm_compute; reflexivity|]. split; [rewrite (H2 0%nat); vm_compute; reflexivity|].
  split; [exact Hc|]. exact (proj1 (H3 0%nat Hc)).
Defined.

Lemma relay_no_panic_witness :
  run (handleFrameRelay 1 to_second (res_frame messageTypeCallRes x00 101)) started ≠ Panic.
Proof.
  destruct (relay_no_panic example_config started example_config_ok (rtc_once _ _ started_step)) as (H & _).
  apply H; [apply res_frame_ok|discriminate|reflexivity|reflexivity].
Defined.

Definition src_item : relayItem := default (mkRelayItem 0 true false 0 0 (mkSpan 0 0 0 x00) 0 None)
  (item_at started ((0%nat, outboundItems), 7)).
Definition dst_item : relayItem := default (mkRelayItem 0 true false 0 0 (mkSpan 0 0 0 x00) 0 None)
  (item_at started ((1%nat, inboundItems), 101)).

Lemma relay_forwards_witness :
  ∃ w', run (handleNonCallReq 1 (res_frame messageTypeCallRes x00 101)) started = Ret (None, w')
  ∧ c_sendCh (conn_of w' 0) = [set_id 7 (res_frame messageTypeCallRes x00 101)]
  ∧ item_at w' ((0%nat, outboundItems), 7) = None ∧ item_at w' ((1%nat, inboundItems), 101) = None.
Proof.
  destruct (relay_forwards example_config started 1 (res_frame messageTypeCallRes x00 101) responseFrame
    dst_item src_item example_config_ok (rtc_once _ _ started_step) res_frame_ok)
    as (fin & w' & Hfin & Hrun & Hsend & Hitem).
  - reflexivity.
  - split_and!; vm_compute; reflexivity.
  - vm_compute; reflexivity.
  - split_and!; vm_compute; reflexivity.
  - vm_compute. lia.
  - assert (fin = true) as -> by (vm_compute in Hfin; congruence).
    exists w'. split; [exact Hrun|]. split; [|split].
    + rewrite Hsend.
      assert (H1 : c_sendCh (conn_of started 0) = []) by (vm_compute; reflexivity).
      assert (H2 : destination dst_item = 0%nat) by (vm_compute; reflexivity).
      assert (H3 : remapID dst_item = 7) by (vm_compute; reflexivity).
      rewrite H1, H2, H3. reflexivity.
    + rewrite Hitem. vm_compute. reflexivity.
    + rewrite Hitem. vm_compute. reflexivity.
Defined.

(** ** Where the relay strays *)

(** The originator's timer runs out first, and only then the response comes. *)
Definition timed_out : World := outcome (OnTimer 1) (timer_fire 1 started).
Definition late : World := outcome (handleFrameRelay 1 to_second (res_frame messageTypeCallRes x00 101)) timed_out.

Lemma late_steps : relay_steps (relay_init example_config) late.
Proof.
  eapply rtc_l; [apply started_step|]. eapply rtc_l; [apply (step_fire 1); vm_compute; reflexivity|].
  apply (rtc_l _ _ timed_out).
  - destruct (returns_run (OnTimer 1) (timer_fire 1 started)) as [u E]; [vm_compute; reflexivity|].
    apply (step_OnTimer 1 _ u); [vm_compute; discriminate|exact E].
  - apply rtc_once. apply (frame_steps 1 to_second (res_frame messageTypeCallRes x00 101));
      [apply res_frame_ok|done..|by vm_compute].
Qed.

(** HandleNonCallReq reports bytes only before call.End(), its comment says.  But it
    looks at its own side's item only: when the originator's timer has run out, and
    the destination's has not, the bytes of the response (and the response itself)
    are reported to a call that has been ended. *)
Theorem bytes_after_End :
  relay_steps (relay_init example_config) late
  ∧ w_call late 0 = [SentBytes 92; Failed (str "timeout"); End; CallResponse; ReceivedBytes 62].
Proof. split; [apply late_steps|vm_compute; reflexivity]. Qed.

(** A second call, for which the source's timer comes from the pool, is stopped in the
    middle of addRelayItem, when the item has been added and its timer not started; the
    peer has already sent a response with the id the call is going to have. *)
Definition reuse_timer : callOracle :=
  mkCallOracle true None [] (connectedTo 1) (Some 0%nat) None None None None pickFrame.
Definition next_req : Frame := set_id 8 req_frame.
Definition early_res : Frame := res_frame messageTypeCallRes x00 102.

Definition crashes (n : nat) (p q : wprog bool) (w : World) : bool :=
  match nsteps n p w with
  | Some (p', w1) =>
      match run q w1 with
      | Ret (_, w2) => match run p' w2 with Panic => true | _ => false end
      | _ => false
      end
  | None => false
  end.

Lemma crashes_spec n p q w :
  crashes n p q w = true →
  ∃ p' w1 u w2, rtc pstep (p, w) (p', w1) ∧ run q w1 = Ret (u, w2) ∧ run p' w2 = Panic.
Proof.
  unfold crashes. destruct (nsteps n p w) as [[p' w1]|] eqn:E; [|done].
  destruct (run q w1) as [[u w2]| |] eqn:E2; [|done..]. destruct (run p' w2) eqn:E3; [done| |done].
  intros _. exists p', w1, u, w2. split; [by eapply nsteps_psteps|done].
Qed.

(** AddRelayItem adds an item before it starts the item's timer.  If a response comes
    in between, and the timer is a reused one, which still counts as stopped, the
    response finishes the item and releases the timer; starting it then panics.  So a
    peer that answers a call it has not been sent can crash the relay. *)
Theorem early_answer_panics :
  relay_steps (relay_init example_config) answered
  ∧ ∃ p w1 u w2, rtc pstep (handleFrameRelay 0 reuse_timer next_req, answered) (p, w1)
    ∧ run (handleFrameRelay 1 to_second early_res) w1 = Ret (u, w2) ∧ run p w2 = Panic.
Proof. split; [apply answered_steps|]. apply (crashes_spec 16). vm_compute. reflexivity. Qed.
