(* ===== verification/PeerHeap.v ===== *)
(** * The heap of peers (peer_heap.go)

    A peerHeap is a binary min-heap of pointers to peerScores, kept with Go's
    container/heap: the functions [up], [down], [heap_Push], [heap_Pop],
    [heap_Remove] and [heap_Fix] are those of that package, on the Len, Less, Swap,
    Push and Pop of peerHeap.  [ph_mem] is the memory with the peerScores; indices are
    Go ints, so that the index -1 of a peerScore outside the heap can be used.

    What the random source returned is an argument. *)

From stdpp Require Import functions.
From S2P Require Import Prelude.

(** Indexing with an int. *)
Definition at_ {A} (l : list A) (i : Z) : option A := if decide (0 <= i) then l !! Z.to_nat i else None.

Record peerScore := mkPeerScore {
  ps_Peer : nat;
  score : Z;
  ps_index : Z;
  ps_order : Z
}.

Definition newPeerScore (p : nat) (score : Z) : peerScore := mkPeerScore p score (-1) 0.

Definition set_score (s : Z) (p : peerScore) : peerScore := mkPeerScore (ps_Peer p) s (ps_index p) (ps_order p).
Definition set_index (i : Z) (p : peerScore) : peerScore := mkPeerScore (ps_Peer p) (score p) i (ps_order p).
Definition set_order (o : Z) (p : peerScore) : peerScore := mkPeerScore (ps_Peer p) (score p) (ps_index p) o.

Record peerHeap := mkPeerHeap {
  peerScores : list nat;
  ph_order : Z;
  ph_mem : nat → peerScore
}.

Definition newPeerHeap : peerHeap := mkPeerHeap [] 0 (λ _, newPeerScore 0 0).

(** Assigning to a field of a peerScore. *)
Definition ph_write (r : nat) (f : peerScore → peerScore) (ph : peerHeap) : peerHeap :=
  mkPeerHeap (peerScores ph) (ph_order ph) (<[r := f (ph_mem ph r)]> (ph_mem ph)).
Definition ph_set_list (l : list nat) (ph : peerHeap) : peerHeap := mkPeerHeap l (ph_order ph) (ph_mem ph).

Abbreviation hop := (GO peerHeap).

(** ** The heap's own operations *)

Definition Len (ph : peerHeap) : Z := len (peerScores ph).

Definition score_less (a b : peerScore) : bool :=
  if decide (score a = score b) then bool_decide (ps_order a < ps_order b)
  else bool_decide (score a < score b).

Definition Less (i j : Z) : hop bool := λ ph,
  match at_ (peerScores ph) i, at_ (peerScores ph) j with
  | Some a, Some b => Ret (score_less (ph_mem ph a) (ph_mem ph b), ph)
  | _, _ => Panic
  end.

Definition Swap (i j : Z) : hop unit := λ ph,
  match at_ (peerScores ph) i, at_ (peerScores ph) j with
  | Some a, Some b =>
      Ret (tt, ph_write a (set_index j) (ph_write b (set_index i)
        (ph_set_list (<[Z.to_nat j := a]> (<[Z.to_nat i := b]> (peerScores ph))) ph)))
  | _, _ => Panic
  end.

Definition heap_push_end (r : nat) : hop unit := λ ph,
  Ret (tt, ph_set_list (peerScores ph ++ [r]) (ph_write r (set_index (Len ph)) ph)).

Definition heap_pop_end : hop nat := λ ph,
  match at_ (peerScores ph) (Len ph - 1) with
  | Some r =>
      Ret (r, ph_set_list (take (length (peerScores ph) - 1) (peerScores ph)) (ph_write r (set_index (-1)) ph))
  | None => Panic
  end.

(** ** container/heap *)

(** Go's integer division. *)
Definition parent (j : Z) : Z := Z.quot (j - 1) 2.

Fixpoint up_loop (fuel : nat) (j : Z) : hop unit :=
  match fuel with
  | O => λ _, OutOfFuel
  | S fuel =>
      let i := parent j in
      if decide (i = j) then mret tt
      else
        less ← Less j i;
        if less : bool then _ ← Swap i j; up_loop fuel i else mret tt
  end.

(** An index is at least halved in every iteration. *)
Definition up (j : Z) : hop unit := up_loop (S (Z.to_nat j)) j.

(** The smaller child of [i], if it has one below [n]. *)
Definition min_child (i n : Z) : hop (option Z) :=
  let j1 := 2 * i + 1 in
  if decide (n <= j1 ∨ j1 < 0) then mret None
  else
    let j2 := j1 + 1 in
    if decide (j2 < n) then less ← Less j2 j1; mret (Some (if less : bool then j2 else j1))
    else mret (Some j1).

Fixpoint down_loop (fuel : nat) (i n : Z) : hop Z :=
  match fuel with
  | O => λ _, OutOfFuel
  | S fuel =>
      oj ← min_child i n;
      match oj with
      | None => mret i
      | Some j =>
          less ← Less j i;
          if less : bool then _ ← Swap i j; down_loop fuel j n else mret i
      end
  end.

Definition down (i0 n : Z) : hop bool :=
  i ← down_loop (S (Z.to_nat (n - i0))) i0 n; mret (bool_decide (i0 < i)).

Definition heap_Push (r : nat) : hop unit :=
  _ ← heap_push_end r;
  ph ← gget;
  up (Len ph - 1).

Definition heap_Pop : hop nat :=
  ph ← gget;
  let n := Len ph - 1 in
  _ ← Swap 0 n;
  _ ← down 0 n;
  heap_pop_end.

Definition heap_Remove (i : Z) : hop nat :=
  ph ← gget;
  let n := Len ph - 1 in
  _ ← (if decide (n = i) then mret tt
       else
         _ ← Swap i n;
         moved ← down i n;
         if moved : bool then mret tt else up i);
  heap_pop_end.

Definition heap_Fix (i : Z) : hop unit :=
  ph ← gget;
  moved ← down i (Len ph);
  if moved : bool then mret tt else up i.

(** ** peerHeap *)

Definition ph_updatePeer (r : nat) : hop unit := ph ← gget; heap_Fix (ps_index (ph_mem ph r)).
Definition ph_removePeer (r : nat) : hop nat := ph ← gget; heap_Remove (ps_index (ph_mem ph r)).
Definition popPeer : hop nat := heap_Pop.

(** rng.Intn(n): a random number below [n], as [seed] decides. *)
Definition Intn (seed n : Z) : Z := seed mod n.

Definition pushPeer (r : nat) (rnd : Z) : hop unit :=
  _ ← gmodify (λ ph, mkPeerHeap (peerScores ph) (uint64 (ph_order ph + 1)) (ph_mem ph));
  _ ← gmodify (λ ph, ph_write r (set_order (uint64 (ph_order ph + Intn rnd (Len ph / 2 + 1)))) ph);
  heap_Push r.

Definition swapOrder (i j : Z) : hop unit :=
  if decide (i = j) then mret tt
  else
    _ ← (λ ph,
      match at_ (peerScores ph) i, at_ (peerScores ph) j with
      | Some a, Some b =>
          Ret (tt, ph_write b (set_order (ps_order (ph_mem ph a)))
                     (ph_write a (set_order (ps_order (ph_mem ph b))) ph))
      | _, _ => Panic
      end);
    _ ← heap_Fix i;
    heap_Fix j.

(** [rnd] and [rnd'] are the seeds of the two random numbers. *)
Definition addPeer (r : nat) (rnd rnd' : Z) : hop unit :=
  _ ← pushPeer r rnd;
  ph ← gget;
  swapOrder (ps_index (ph_mem ph r)) (Intn rnd' (Len ph)).

Definition peek (ph : peerHeap) : go nat := match at_ (peerScores ph) 0 with Some r => Ret r | None => Panic end.

(** ** Lists with int indices *)

Lemma at_Some {A} (l : list A) i : 0 <= i < len l → ∃ a, at_ l i = Some a.
Proof.
  intros Hi. unfold at_. rewrite decide_True by lia.
  destruct (lookup_lt_is_Some_2 l (Z.to_nat i)) as [a Ha]; [lia|]. by exists a.
Qed.
Lemma at_Some_range {A} (l : list A) i a : at_ l i = Some a → 0 <= i < len l.
Proof.
  unfold at_. case_decide; [|done]. intros E%lookup_lt_Some. lia.
Qed.
Lemma at_lookup {A} (l : list A) (n : nat) : at_ l (Z.of_nat n) = l !! n.
Proof. unfold at_. rewrite decide_True by lia. by rewrite Nat2Z.id. Qed.

Lemma at_inv {A} (l : list A) i a : at_ l i = Some a → 0 <= i < len l ∧ l !! Z.to_nat i = Some a.
Proof. intros H. split; [by eapply at_Some_range|]. unfold at_ in H. by case_decide. Qed.

(** Exchanging two elements. *)
Definition lswap (i j : Z) (a b : nat) (l : list nat) : list nat :=
  <[Z.to_nat j := a]> (<[Z.to_nat i := b]> l).

Lemma at_lswap l i j a b k :
  at_ l i = Some a → at_ l j = Some b →
  at_ (lswap i j a b l) k = if decide (k = j) then Some a else if decide (k = i) then Some b else at_ l k.
Proof.
  intros Hi Hj. apply at_Some_range in Hi as Hi', Hj as Hj'. unfold at_, lswap. case_decide as Hk.
  - destruct (decide (k = j)) as [->|Hkj].
    { rewrite list_lookup_insert_eq by (rewrite length_insert; lia). done. }
    rewrite list_lookup_insert_ne by lia. destruct (decide (k = i)) as [->|Hki].
    { rewrite list_lookup_insert_eq by lia. done. }
    by rewrite list_lookup_insert_ne by lia.
  - by rewrite !decide_False by lia.
Qed.

Lemma lswap_length l i j a b : len (lswap i j a b l) = len l.
Proof. unfold lswap. by rewrite !length_insert. Qed.

Lemma lswap_perm l i j a b : at_ l i = Some a → at_ l j = Some b → lswap i j a b l ≡ₚ l.
Proof.
  intros [Hi' Hi]%at_inv [Hj' Hj]%at_inv. unfold lswap.
  destruct (decide (i = j)) as [->|Hne].
  - assert (b = a) as -> by congruence. rewrite list_insert_insert_eq, list_insert_id by done. done.
  - apply Permutation_inj. split; [by rewrite !length_insert|].
    exists (λ n, if decide (n = Z.to_nat j) then Z.to_nat i else if decide (n = Z.to_nat i) then Z.to_nat j else n).
    split.
    + intros x y. repeat case_decide; lia.
    + intros n. case_decide as H1; subst.
      { rewrite list_lookup_insert_eq by (rewrite length_insert; lia). done. }
      rewrite list_lookup_insert_ne by done. case_decide as H2; subst.
      { rewrite list_lookup_insert_eq by lia. done. }
      by rewrite list_lookup_insert_ne.
Qed.

(** ** Well-formed heaps *)

(** Every peerScore in the heap is there once and knows its index. *)
Record heap_wf (ph : peerHeap) : Prop := {
  wf_nodup : NoDup (peerScores ph);
  wf_index i r : at_ (peerScores ph) i = Some r → ps_index (ph_mem ph r) = i
}.

(** What moving peerScores around changes. *)
Record moves (ph ph' : peerHeap) : Prop := {
  mv_perm : peerScores ph' ≡ₚ peerScores ph;
  mv_order : ph_order ph' = ph_order ph;
  mv_mem r : ph_mem ph' r = set_index (ps_index (ph_mem ph' r)) (ph_mem ph r);
  mv_other r : r ∉ peerScores ph → ph_mem ph' r = ph_mem ph r
}.

#[export] Instance moves_preorder : PreOrder moves.
Proof.
  split.
  - intros ph. split; try done. intros r. by destruct (ph_mem ph r).
  - intros p1 p2 p3 H1 H2. split.
    + by rewrite (mv_perm _ _ H2), (mv_perm _ _ H1).
    + by rewrite (mv_order _ _ H2), (mv_order _ _ H1).
    + intros r. rewrite (mv_mem _ _ H2 r), (mv_mem _ _ H1 r). done.
    + intros r Hr. rewrite (mv_other _ _ H2); [by apply (mv_other _ _ H1)|]. by rewrite (mv_perm _ _ H1).
Qed.

Lemma moves_Len ph ph' : moves ph ph' → Len ph' = Len ph.
Proof. intros H. unfold Len. by rewrite (mv_perm _ _ H). Qed.
Lemma moves_less ph ph' a b : moves ph ph' → score_less (ph_mem ph' a) (ph_mem ph' b) = score_less (ph_mem ph a) (ph_mem ph b).
Proof. intros H. rewrite (mv_mem _ _ H a), (mv_mem _ _ H b). done. Qed.

Lemma at_nodup (l : list nat) i j a : NoDup l → at_ l i = Some a → at_ l j = Some a → i = j.
Proof.
  intros Hn [Hi' Hi]%at_inv [Hj' Hj]%at_inv. pose proof (NoDup_lookup _ _ _ _ Hn Hi Hj). lia.
Qed.

Lemma Swap_ok ph i j a b :
  heap_wf ph → at_ (peerScores ph) i = Some a → at_ (peerScores ph) j = Some b →
  ∃ ph', Swap i j ph = Ret (tt, ph') ∧ heap_wf ph' ∧ moves ph ph'
  ∧ peerScores ph' = lswap i j a b (peerScores ph).
Proof.
  intros [Hn Hix] Hi Hj. unfold Swap. rewrite Hi, Hj. eexists. split; [reflexivity|].
  set (l := peerScores ph) in *. fold (lswap i j a b l). set (ph' := ph_write _ _ _).
  assert (Hl : peerScores ph' = lswap i j a b l) by done.
  assert (Hmem : ∀ r, ph_mem ph' r =
    if decide (r = a) then set_index j (ph_mem ph a) else if decide (r = b) then set_index i (ph_mem ph b) else ph_mem ph r).
  { intros r. unfold ph', ph_write. cbn. destruct (decide (r = a)) as [->|Hra].
    - rewrite fn_lookup_insert. destruct (decide (b = a)) as [->|Hba]; [by rewrite fn_lookup_insert|].
      by rewrite fn_lookup_insert_ne.
    - rewrite fn_lookup_insert_ne by done. destruct (decide (r = b)) as [->|Hrb]; [by rewrite fn_lookup_insert|].
      by rewrite fn_lookup_insert_ne. }
  assert (Hin : ∀ k r, at_ l k = Some r → r ∈ l).
  { intros k r Hk. unfold at_ in Hk. case_decide; [|done]. by eapply list_elem_of_lookup_2. }
  split_and!; [|split|done].
  - split; [rewrite Hl; by rewrite (lswap_perm l i j a b Hi Hj)|].
    intros k r. rewrite Hl, at_lswap, Hmem by done. case_decide as Hk.
    { intros [= <-]. by rewrite decide_True. }
    case_decide as Hk'.
    { intros [= <-]. subst k. rewrite decide_False; [by rewrite decide_True|]. intros ->.
      apply Hk. by apply (at_nodup l i j a). }
    intros Hr. rewrite !decide_False; [by apply Hix| |]; intros ->.
    + by apply Hk, (at_nodup l k j b).
    + by apply Hk', (at_nodup l k i a).
  - rewrite Hl. by apply lswap_perm.
  - done.
  - intros r. rewrite Hmem. destruct (decide (r = a)) as [->|]; [done|].
    destruct (decide (r = b)) as [->|]; [done|]. by destruct (ph_mem ph r).
  - intros r Hr. rewrite Hmem. rewrite !decide_False; [done| |]; intros ->; [by apply Hr, (Hin j)|by apply Hr, (Hin i)].
Qed.

(** ** Heap order

    The order is any order on the peerScores that Less agrees with: by score, and by
    score and then order. *)

Lemma parent_spec j : 0 < j → 0 <= parent j < j ∧ (j = 2 * parent j + 1 ∨ j = 2 * parent j + 2).
Proof. intros Hj. unfold parent. Z.to_euclidean_division_equations. lia. Qed.

Lemma parent_child i k : 0 < k → parent k = i → k = 2 * i + 1 ∨ k = 2 * i + 2.
Proof. intros Hk <-. by apply parent_spec. Qed.

Lemma parent_of_child i k : 0 <= i → k = 2 * i + 1 ∨ k = 2 * i + 2 → parent k = i.
Proof. intros Hi Hk. unfold parent. Z.to_euclidean_division_equations. lia. Qed.

Section order.
Context (le : nat → nat → Prop) `{!Transitive le}.

Definition agrees (ph : peerHeap) : Prop := ∀ a b,
  if score_less (ph_mem ph a) (ph_mem ph b) then le a b else le b a.

Definition edge (l : list nat) (k : Z) : Prop :=
  ∀ a b, at_ l (parent k) = Some a → at_ l k = Some b → le a b.

(** The heap order among the first [n] elements. *)
Definition ordered (l : list nat) (n : Z) : Prop := ∀ k, 0 < k < n → edge l k.

(** The children of [i] are not below its parent. *)
Definition bridged (l : list nat) (n i : Z) : Prop :=
  0 < i → ∀ k a b, 0 < k < n → parent k = i → at_ l (parent i) = Some a → at_ l k = Some b → le a b.

Lemma agrees_moves ph ph' : moves ph ph' → agrees ph → agrees ph'.
Proof. intros H Ha a b. rewrite (moves_less ph ph') by done. apply Ha. Qed.

Lemma agrees_le ph a b : agrees ph →
  if score_less (ph_mem ph a) (ph_mem ph b) then le a b else le b a.
Proof. intros H. apply H. Qed.

Lemma Less_ok ph i j a b :
  at_ (peerScores ph) i = Some a → at_ (peerScores ph) j = Some b →
  Less i j ph = Ret (score_less (ph_mem ph a) (ph_mem ph b), ph).
Proof. intros Hi Hj. unfold Less. by rewrite Hi, Hj. Qed.

(** What every operation keeps, and what is beyond [n]. *)
Definition keeps_heap (n : Z) (ph ph' : peerHeap) : Prop :=
  heap_wf ph' ∧ moves ph ph' ∧ agrees ph' ∧ ∀ k, n <= k → at_ (peerScores ph') k = at_ (peerScores ph) k.

Lemma keeps_heap_refl n ph : heap_wf ph → agrees ph → keeps_heap n ph ph.
Proof. intros H1 H2. split_and!; done. Qed.

Lemma keeps_heap_trans n p1 p2 p3 : keeps_heap n p1 p2 → keeps_heap n p2 p3 → keeps_heap n p1 p3.
Proof.
  intros (H1 & H2 & H3 & H4) (G1 & G2 & G3 & G4). split_and!; [done|by etransitivity|done|].
  intros k Hk. by rewrite G4, H4.
Qed.

Lemma Swap_keeps ph i j a b n :
  heap_wf ph → agrees ph → at_ (peerScores ph) i = Some a → at_ (peerScores ph) j = Some b → i < n → j < n →
  ∃ ph', Swap i j ph = Ret (tt, ph') ∧ keeps_heap n ph ph' ∧ peerScores ph' = lswap i j a b (peerScores ph).
Proof.
  intros Hwf Hag Ha Hb Hi Hj. destruct (Swap_ok ph i j a b Hwf Ha Hb) as (ph' & E & Hwf' & Hmv & Hl).
  exists ph'. split_and!; try done. split_and!; [done..|by eapply agrees_moves|].
  intros k Hk. rewrite Hl, at_lswap by done. by rewrite !decide_False by lia.
Qed.

(** Look up in a swapped list where the indices are known to differ or to be equal. *)
Ltac swapped Ha Hb :=
  rewrite ?(at_lswap _ _ _ _ _ _ Ha Hb);
  repeat match goal with |- context [decide (?x = ?y)] =>
    first [rewrite (decide_True (P := x = y)) by lia | rewrite (decide_False (P := x = y)) by lia] end.

Lemma up_loop_ok fuel ph j n :
  heap_wf ph → agrees ph → 0 <= j < n → n <= Len ph → (Z.to_nat j < fuel)%nat →
  (∀ k, 0 < k < n → k ≠ j → edge (peerScores ph) k) → bridged (peerScores ph) n j →
  ∃ ph', up_loop fuel j ph = Ret (tt, ph') ∧ keeps_heap n ph ph' ∧ ordered (peerScores ph') n.
Proof.
  revert ph j. induction fuel as [|fuel IH]; intros ph j Hwf Hag Hj Hn Hfuel He Hbr; [lia|].
  set (l := peerScores ph) in *. cbn [up_loop]. case_decide as Hroot.
  { exists ph. split_and!; [done|by apply keeps_heap_refl|]. intros k Hk. apply He; [done|].
    intros ->. destruct (parent_spec j); lia. }
  assert (Hj0 : 0 < j). { destruct (decide (j = 0)) as [->|]; [done|lia]. }
  destruct (parent_spec j Hj0) as [Hp Hj2]. set (i := parent j) in *.
  destruct (at_Some l i) as [a Ha]; [unfold Len in Hn; fold l in Hn; lia|].
  destruct (at_Some l j) as [b Hb]; [unfold Len in Hn; fold l in Hn; lia|].
  erewrite gost_bind_run by (by apply Less_ok). cbv beta iota.
  pose proof (agrees_le ph b a Hag) as Hle. destruct (score_less _ _) eqn:Hless.
  2: { exists ph. split_and!; [done|by apply keeps_heap_refl|]. intros k Hk.
       destruct (decide (k = j)) as [->|]; [|by apply He]. intros a' b' Ha' Hb'.
       fold i in Ha'. fold l in Ha', Hb'. congruence. }
  destruct (Swap_keeps ph i j a b n Hwf Hag Ha Hb) as (ph1 & E1 & Hk1 & Hl1); [lia..|].
  erewrite gost_bind_run by exact E1. cbv beta. pose proof Hk1 as (Hwf1 & Hmv1 & Hag1 & _).
  destruct (IH ph1 i) as (ph2 & E2 & Hk2 & Ho2); try done; try lia.
  - by rewrite (moves_Len _ _ Hmv1).
  - rewrite Hl1. intros k Hk Hki x y.
    destruct (parent_spec k ltac:(lia)) as [Hpk Hk2].
    destruct (decide (k = j)) as [->|Hkj].
    { fold i. swapped Ha Hb. congruence. }
    destruct (decide (parent k = j)) as [Epk|Hpj].
    { swapped Ha Hb. intros [= <-] Hy. apply (Hbr Hj0 k); done. }
    destruct (decide (parent k = i)) as [Epk|Hpi].
    { swapped Ha Hb. intros [= <-] Hy. transitivity a; [done|]. apply (He k); [done|done|by rewrite Epk|done]. }
    swapped Ha Hb. apply He; done.
  - rewrite Hl1. intros Hi0 k x y Hk Hpk. destruct (parent_spec i Hi0) as [Hpi _].
    destruct (parent_spec k ltac:(lia)) as [_ Hk2].
    destruct (decide (k = j)) as [->|Hkj]; swapped Ha Hb.
    + intros Hx [= <-]. apply (He i); [lia..|done|done].
    + intros Hx Hy. transitivity a; [apply (He i); [lia..|done|done]|].
      apply (He k); [done|done|by rewrite Hpk|done].
  - exists ph2. split_and!; [done|by eapply keeps_heap_trans|done].
Qed.

Lemma up_ok ph j n :
  heap_wf ph → agrees ph → 0 <= j < n → n <= Len ph →
  (∀ k, 0 < k < n → k ≠ j → edge (peerScores ph) k) → bridged (peerScores ph) n j →
  ∃ ph', up j ph = Ret (tt, ph') ∧ keeps_heap n ph ph' ∧ ordered (peerScores ph') n.
Proof. intros. apply up_loop_ok; try done. lia. Qed.

(** The smaller child. *)
Lemma min_child_ok ph i n :
  agrees ph → 0 <= i → n <= Len ph →
  ∃ oj, min_child i n ph = Ret (oj, ph)
  ∧ match oj with
    | None => n <= 2 * i + 1
    | Some j => 0 < j < n ∧ parent j = i
        ∧ ∀ k x y, 0 < k < n → parent k = i → at_ (peerScores ph) j = Some x → at_ (peerScores ph) k = Some y → le x y
    end.
Proof.
  intros Hag Hi Hn. unfold min_child. set (l := peerScores ph) in *.
  assert (Hrefl : ∀ x, le x x). { intros x. pose proof (agrees_le ph x x Hag) as H. by destruct (score_less _ _). }
  case_decide as H1.
  { exists None. split; [done|]. lia. }
  destruct (at_Some l (2 * i + 1)) as [a Ha]; [unfold Len in Hn; fold l in Hn; lia|].
  assert (Hp1 : parent (2 * i + 1) = i) by (apply parent_of_child; lia).
  case_decide as H2.
  2: { exists (Some (2 * i + 1)). split_and!; [done|lia..|done|]. intros k x y Hk Hpk Hx Hy.
       destruct (parent_child i k) as [->|E]; [lia|done| |lia]. assert (x = y) as -> by congruence. done. }
  destruct (at_Some l (2 * i + 1 + 1)) as [b Hb]; [unfold Len in Hn; fold l in Hn; lia|].
  assert (Hp2 : parent (2 * i + 1 + 1) = i) by (apply parent_of_child; lia).
  erewrite gost_bind_run by (by apply Less_ok). cbv beta iota.
  pose proof (agrees_le ph b a Hag) as Hle. eexists. split; [reflexivity|]. cbv beta iota.
  destruct (score_less _ _); (split_and!; [lia..|done|]); intros k x y Hk Hpk Hx Hy;
    destruct (parent_child i k) as [->|E]; try lia; try done.
  - congruence.
  - assert (k = 2 * i + 1 + 1) as -> by lia. assert (x = y) as -> by congruence. done.
  - assert (x = y) as -> by congruence. done.
  - assert (k = 2 * i + 1 + 1) as -> by lia. congruence.
Qed.

(** [top] says whether [i] is in order with its parent. *)
Lemma down_loop_ok fuel ph i n (top : Prop) :
  heap_wf ph → agrees ph → 0 <= i → n <= Len ph → (Z.to_nat (n - i) < fuel)%nat →
  (∀ k, 0 < k < n → parent k ≠ i → (k = i → top) → edge (peerScores ph) k) → bridged (peerScores ph) n i →
  ∃ i' ph', down_loop fuel i n ph = Ret (i', ph') ∧ keeps_heap n ph ph' ∧ i <= i'
  ∧ (i' = i → ph' = ph ∧ ∀ k, 0 < k < n → (k = i → top) → edge (peerScores ph) k)
  ∧ (i < i' → ordered (peerScores ph') n).
Proof.
  revert ph i top. induction fuel as [|fuel IH]; intros ph i top Hwf Hag Hi Hn Hfuel He Hbr; [lia|].
  set (l := peerScores ph) in *. cbn [down_loop].
  destruct (min_child_ok ph i n Hag Hi Hn) as (oj & Emin & Hoj).
  erewrite gost_bind_run by exact Emin. cbv beta iota. destruct oj as [j|].
  2: { exists i, ph. split_and!; [done|by apply keeps_heap_refl|lia| |lia]. intros _. split; [done|].
       intros k Hk Ht. apply He; [done| |done]. intros E. destruct (parent_child i k); [lia|done|lia..]. }
  destruct Hoj as (Hj & Hpj & Hmin). destruct (parent_spec j ltac:(lia)) as [Hij _]. rewrite Hpj in Hij.
  destruct (at_Some l i) as [a Ha]; [unfold Len in Hn; fold l in Hn; lia|].
  destruct (at_Some l j) as [b Hb]; [unfold Len in Hn; fold l in Hn; lia|].
  erewrite gost_bind_run by (by apply Less_ok). cbv beta iota.
  pose proof (agrees_le ph b a Hag) as Hle. destruct (score_less _ _) eqn:Hless.
  2: { exists i, ph. split_and!; [done|by apply keeps_heap_refl|lia| |lia]. intros _. split; [done|].
       intros k Hk Ht. destruct (decide (parent k = i)) as [E|E]; [|by apply He].
       intros x y Hx Hy. rewrite E in Hx. fold l in Hx, Hy. assert (x = a) as -> by congruence.
       transitivity b; [done|]. by apply (Hmin k). }
  destruct (Swap_keeps ph i j a b n Hwf Hag Ha Hb) as (ph1 & E1 & Hk1 & Hl1); [lia..|].
  erewrite gost_bind_run by exact E1. cbv beta. pose proof Hk1 as (Hwf1 & Hmv1 & Hag1 & _).
  destruct (IH ph1 j True) as (i2 & ph2 & E2 & Hk2 & Hle2 & Hsame & Hord); try done; try lia.
  - by rewrite (moves_Len _ _ Hmv1).
  - rewrite Hl1. intros k Hk Hpk _ x y. destruct (parent_spec k ltac:(lia)) as [Hpk' _].
    destruct (decide (k = j)) as [->|Hkj].
    { rewrite Hpj. swapped Ha Hb. congruence. }
    destruct (decide (parent k = i)) as [Epk|Hpi].
    { swapped Ha Hb. intros [= <-] Hy. by apply (Hmin k). }
    destruct (decide (k = i)) as [->|Hki].
    { swapped Ha Hb. intros Hx [= <-]. apply (Hbr ltac:(lia) j); done. }
    swapped Ha Hb. apply He; [done..|]. by intros ->.
  - rewrite Hl1. intros Hj0 k x y Hk Hpk. destruct (parent_spec k ltac:(lia)) as [Hpk' _]. rewrite Hpj.
    swapped Ha Hb. intros [= <-] Hy. apply (He k); [done|lia|lia|by rewrite Hpk|done].
  - exists i2, ph2. split_and!; [done|by eapply keeps_heap_trans|lia|lia|].
    intros _. destruct (decide (i2 = j)) as [->|]; [|apply Hord; lia].
    destruct (Hsame eq_refl) as [-> Hall]. intros k Hk. by apply Hall.
Qed.

(** Everything is in order but the element at [i]. *)
Definition hole (l : list nat) (n i : Z) : Prop :=
  (∀ k, 0 < k < n → parent k ≠ i → k ≠ i → edge l k) ∧ bridged l n i.

Lemma ordered_hole l n i : ordered l n → hole l n i.
Proof.
  intros H. split; [intros k Hk _ _; by apply H|]. intros Hi k a b Hk Hpk Ha Hb.
  destruct (parent_spec k ltac:(lia)) as [Hp _]. destruct (at_Some l i) as [c Hc].
  { pose proof (at_Some_range _ _ _ Hb). lia. }
  transitivity c; [apply (H i); [lia|done..]|apply (H k); [done|by rewrite Hpk|done]].
Qed.

(** [if !down(h, i, n) { up(h, i) }] *)
Lemma sift_ok ph i n :
  heap_wf ph → agrees ph → 0 <= i < n → n <= Len ph → hole (peerScores ph) n i →
  ∃ ph', (moved ← down i n; if moved : bool then mret tt else up i) ph = Ret (tt, ph')
  ∧ keeps_heap n ph ph' ∧ ordered (peerScores ph') n.
Proof.
  intros Hwf Hag Hi Hn [He Hbr].
  destruct (down_loop_ok (S (Z.to_nat (n - i))) ph i n False) as (i' & ph1 & E & Hk1 & Hle & Hsame & Hord); try done; try lia.
  assert (Ed : down i n ph = Ret (bool_decide (i < i'), ph1)).
  { unfold down. by erewrite gost_bind_run by exact E. }
  erewrite gost_bind_run by exact Ed. cbv beta. case_bool_decide as Hmv.
  { exists ph1. split_and!; [done..|]. by apply Hord. }
  destruct (Hsame ltac:(lia)) as [-> Hall].
  apply (up_ok ph i n); try done.
Qed.

Lemma Fix_ok ph i :
  heap_wf ph → agrees ph → 0 <= i < Len ph → hole (peerScores ph) (Len ph) i →
  ∃ ph', heap_Fix i ph = Ret (tt, ph') ∧ heap_wf ph' ∧ moves ph ph' ∧ ordered (peerScores ph') (Len ph').
Proof.
  intros Hwf Hag Hi Hh. destruct (sift_ok ph i (Len ph)) as (ph' & E & (H1 & H2 & _) & Ho); try done.
  exists ph'. split_and!; try done. by rewrite (moves_Len _ _ H2).
Qed.

Lemma Fix_absent ph : heap_Fix (-1) ph = Ret (tt, ph).
Proof.
  unfold heap_Fix, down. rewrite gost_bind_run with (a := ph) (s' := ph) by done.
  assert (E : ∀ n, down_loop (S n) (-1) (Len ph) ph = Ret (-1, ph)).
  { intros n. cbn [down_loop]. unfold min_child. rewrite decide_True by (right; lia). done. }
  erewrite gost_bind_run; [|erewrite gost_bind_run by apply E; reflexivity].
  cbv beta iota. done.
Qed.

(** What an operation that leaves the peerScores [l] in the heap does. *)
Record becomes (l : list nat) (ph ph' : peerHeap) : Prop := {
  bc_wf : heap_wf ph';
  bc_ordered : ordered (peerScores ph') (Len ph');
  bc_perm : peerScores ph' ≡ₚ l;
  bc_order : ph_order ph' = ph_order ph;
  bc_mem r : ph_mem ph' r = set_index (ps_index (ph_mem ph' r)) (ph_mem ph r);
  bc_other r : r ∉ l → r ∉ peerScores ph → ph_mem ph' r = ph_mem ph r
}.

Lemma agrees_mem ph ph' :
  (∀ r, ph_mem ph' r = set_index (ps_index (ph_mem ph' r)) (ph_mem ph r)) → agrees ph → agrees ph'.
Proof. intros H Ha a b. rewrite (H a), (H b). apply Ha. Qed.

Lemma at_app_l {A} (l l' : list A) k : k < len l → at_ (l ++ l') k = at_ l k.
Proof. intros Hk. unfold at_. case_decide; [|done]. apply lookup_app_l. lia. Qed.

Lemma at_elem {A} (l : list A) k a : at_ l k = Some a → a ∈ l.
Proof. intros [_ H]%at_inv. by eapply list_elem_of_lookup_2. Qed.

Lemma elem_at {A} (l : list A) a : a ∈ l → ∃ k, at_ l k = Some a ∧ 0 <= k < len l.
Proof.
  intros [n Hn]%list_elem_of_lookup. exists (Z.of_nat n). rewrite at_lookup. split; [done|].
  apply lookup_lt_Some in Hn. lia.
Qed.

Lemma Push_ok ph r :
  heap_wf ph → agrees ph → ordered (peerScores ph) (Len ph) → r ∉ peerScores ph →
  ∃ ph', heap_Push r ph = Ret (tt, ph') ∧ becomes (r :: peerScores ph) ph ph'.
Proof.
  intros [Hnd Hix] Hag Hord Hr. unfold heap_Push. set (l := peerScores ph) in *.
  set (ph1 := ph_set_list (l ++ [r]) (ph_write r (set_index (Len ph)) ph)).
  erewrite gost_bind_run by reflexivity. erewrite gost_bind_run by reflexivity. fold l. fold ph1.
  assert (Hlen : Len ph1 = Len ph + 1) by (unfold Len, ph1; cbn; fold l; rewrite length_app; cbn; lia).
  assert (Hmem : ∀ x, ph_mem ph1 x = set_index (ps_index (ph_mem ph1 x)) (ph_mem ph x)).
  { intros x. unfold ph1. cbn. destruct (decide (x = r)) as [->|Hx]; [by rewrite fn_lookup_insert|].
    rewrite fn_lookup_insert_ne by done. by destruct (ph_mem ph x). }
  assert (Hat : ∀ k, k < Len ph → at_ (peerScores ph1) k = at_ l k) by (intros k Hk; by apply at_app_l).
  assert (Hwf1 : heap_wf ph1).
  { split.
    - cbn. apply NoDup_app. split_and!; [done| |apply NoDup_singleton]. intros x Hx ->%list_elem_of_singleton. done.
    - intros k x Hk. apply at_Some_range in Hk as Hk'. change (len (peerScores ph1)) with (Len ph1) in Hk'.
      destruct (decide (k < Len ph)) as [Hlt|Hge].
      + rewrite Hat in Hk by done. cbn. rewrite fn_lookup_insert_ne; [by apply Hix|].
        intros ->. by apply Hr, (at_elem l k).
      + assert (k = len l) as -> by (change (len l) with (Len ph); lia). rewrite at_lookup in Hk. cbn in Hk.
        rewrite lookup_app_r, Nat.sub_diag in Hk by done. injection Hk as <-. cbn. by rewrite fn_lookup_insert. }
  destruct (up_ok ph1 (Len ph1 - 1) (Len ph1)) as (ph2 & E2 & (Hwf2 & Hmv2 & _) & Ho2); try done.
  - by eapply agrees_mem.
  - assert (0 <= Len ph) by (unfold Len; lia). lia.
  - intros k Hk Hne a b. destruct (parent_spec k ltac:(lia)) as [Hp _]. rewrite !Hat by lia. apply Hord. lia.
  - intros _ k a b Hk Hpk. destruct (parent_spec k ltac:(lia)) as [Hp _]. lia.
  - exists ph2. split; [done|]. split.
    + done.
    + by rewrite (moves_Len _ _ Hmv2).
    + rewrite (mv_perm _ _ Hmv2). cbn. fold l. by rewrite Permutation_app_comm.
    + apply (mv_order _ _ Hmv2).
    + intros x. rewrite (mv_mem _ _ Hmv2 x), (Hmem x). done.
    + intros x Hx1 Hx2. rewrite (mv_other _ _ Hmv2).
      * cbn. rewrite fn_lookup_insert_ne; [done|]. intros ->. apply Hx1. by left.
      * cbn. rewrite elem_of_app, list_elem_of_singleton. intros [?|?]; [done|]. subst. apply Hx1. by left.
Qed.

Lemma agrees_refl ph x : agrees ph → le x x.
Proof. intros H. pose proof (agrees_le ph x x H) as Hle. by destruct (score_less _ _). Qed.

(** The first element is a least one. *)
Lemma root_least ph r x :
  agrees ph → ordered (peerScores ph) (Len ph) → at_ (peerScores ph) 0 = Some r → x ∈ peerScores ph → le r x.
Proof.
  intros Hag Ho Hr [k [Hk Hrange]]%elem_at.
  assert (Hn : ∀ n : nat, ∀ k x, (Z.to_nat k < n)%nat → at_ (peerScores ph) k = Some x → le r x).
  { clear k x Hk Hrange. induction n as [|n IH]; intros k x Hlt Hk; [lia|].
    pose proof (at_Some_range _ _ _ Hk) as Hrange. destruct (decide (k = 0)) as [->|Hk0].
    - assert (x = r) as -> by congruence. by eapply agrees_refl.
    - destruct (parent_spec k ltac:(lia)) as [Hp _].
      destruct (at_Some (peerScores ph) (parent k)) as [y Hy]; [lia|].
      transitivity y; [apply (IH (parent k)); [lia|done]|]. apply (Ho k); [unfold Len; lia|done..]. }
  apply (Hn (S (Z.to_nat k)) k); [lia|done].
Qed.

(** Taking the last element off. *)
Lemma pop_end_ok ph n r :
  heap_wf ph → agrees ph → Len ph = n + 1 → at_ (peerScores ph) n = Some r → ordered (peerScores ph) n →
  ∃ ph' l', heap_pop_end ph = Ret (r, ph') ∧ peerScores ph ≡ₚ r :: l' ∧ becomes l' ph ph'
  ∧ ps_index (ph_mem ph' r) = -1.
Proof.
  intros [Hnd Hix] Hag Hlen Hr Hord. unfold heap_pop_end. set (l := peerScores ph) in *.
  rewrite Hlen. replace (n + 1 - 1) with n by lia. rewrite Hr. pose proof (at_inv _ _ _ Hr) as [Hn Hr'].
  set (l' := take (length l - 1) l). assert (Hsplit : l = l' ++ [r]).
  { unfold l'. assert (Hl : length l = S (Z.to_nat n)) by (unfold Len in Hlen; fold l in Hlen; lia).
    rewrite Hl. cbn [Nat.sub]. rewrite Nat.sub_0_r. rewrite <- (take_S_r _ _ _ Hr').
    symmetry. apply take_ge. lia. }
  assert (Hat : ∀ k, k < len l' → at_ l' k = at_ l k) by (intros k Hk; rewrite Hsplit; symmetry; by apply at_app_l).
  assert (Hlen' : len l' = n). { rewrite Hsplit, length_app in Hn. unfold Len in Hlen. fold l in Hlen.
    rewrite Hsplit, length_app in Hlen. cbn in Hlen. lia. }
  assert (Hnr : r ∉ l'). { rewrite Hsplit in Hnd. apply NoDup_app in Hnd as (_ & Hd & _). intros H.
    apply (Hd r H). by apply list_elem_of_singleton. }
  eexists _, l'. split; [reflexivity|]. split_and!.
  - rewrite Hsplit at 1. by rewrite Permutation_app_comm.
  - split.
    + split; [cbn; fold l'; rewrite Hsplit in Hnd; by apply NoDup_app in Hnd as (? & _)|].
      intros k x Hk. change (at_ l' k = Some x) in Hk. pose proof (at_Some_range _ _ _ Hk).
      cbn. rewrite fn_lookup_insert_ne; [apply Hix; by rewrite <- Hat by lia|].
      intros ->. by apply Hnr, (at_elem l' k).
    + intros k. change (0 < k < len l' → edge l' k). intros Hk a b. destruct (parent_spec k ltac:(lia)) as [Hp _].
      rewrite !Hat by lia. apply Hord. lia.
    + done.
    + done.
    + intros x. cbn. destruct (decide (x = r)) as [->|Hx]; [by rewrite fn_lookup_insert|].
      rewrite fn_lookup_insert_ne by done. by destruct (ph_mem ph x).
    + intros x Hx1 Hx2. cbn. rewrite fn_lookup_insert_ne; [done|]. intros ->. apply Hx2. by eapply at_elem.
  - cbn. by rewrite fn_lookup_insert.
Qed.

Lemma becomes_after l ph ph1 ph' : moves ph ph1 → becomes l ph1 ph' → becomes l ph ph'.
Proof.
  intros Hm [B1 B2 B3 B4 B5 B6]. split; try done.
  - by rewrite B4, (mv_order _ _ Hm).
  - intros r. rewrite (B5 r), (mv_mem _ _ Hm r). done.
  - intros r H1 H2. rewrite B6; [by apply (mv_other _ _ Hm)|done|by rewrite (mv_perm _ _ Hm)].
Qed.

Lemma ordered_less l n n' : n' <= n → ordered l n → ordered l n'.
Proof. intros H Ho k Hk. apply Ho. lia. Qed.

Lemma Pop_ok ph :
  heap_wf ph → agrees ph → ordered (peerScores ph) (Len ph) → peerScores ph ≠ [] →
  ∃ ph' r l', heap_Pop ph = Ret (r, ph') ∧ peerScores ph ≡ₚ r :: l' ∧ becomes l' ph ph'
  ∧ ps_index (ph_mem ph' r) = -1 ∧ ∀ x, x ∈ peerScores ph → le r x.
Proof.
  intros Hwf Hag Hord Hne. set (l := peerScores ph) in *.
  assert (Hlen : 0 < Len ph). { unfold Len. fold l. destruct l; [done|cbn; lia]. }
  set (n := Len ph - 1) in *.
  destruct (at_Some l 0) as [a Ha]; [unfold Len in Hlen; fold l in Hlen; lia|].
  destruct (at_Some l n) as [b Hb]; [unfold n, Len in *; fold l in Hlen; fold l; lia|].
  destruct (Swap_keeps ph 0 n a b (n + 1) Hwf Hag Ha Hb) as (ph1 & E1 & (Hwf1 & Hmv1 & Hag1 & _) & Hl1); [lia..|].
  pose proof (moves_Len _ _ Hmv1) as Hlen1.
  destruct (down_loop_ok (S (Z.to_nat (n - 0))) ph1 0 n True) as (i' & ph2 & E2 & (Hwf2 & Hmv2 & Hag2 & Hat2) & Hi' & Hsame & Hmoved);
    try done; try lia.
  { intros k Hk Hpk _ x y. destruct (parent_spec k ltac:(lia)) as [Hp _]. rewrite Hl1. swapped Ha Hb.
    apply Hord. lia. }
  assert (Ho2 : ordered (peerScores ph2) n).
  { destruct (decide (i' = 0)) as [->|]; [|apply Hmoved; lia]. destruct (Hsame eq_refl) as [-> Hall].
    intros k Hk. by apply Hall. }
  assert (Hn2 : at_ (peerScores ph2) n = Some a). { rewrite Hat2 by lia. rewrite Hl1. swapped Ha Hb. done. }
  destruct (pop_end_ok ph2 n a) as (ph3 & l' & E3 & Hp3 & Hb3 & Hix3); try done.
  { rewrite (moves_Len _ _ Hmv2). lia. }
  exists ph3, a, l'. split_and!.
  - unfold heap_Pop. erewrite gost_bind_run by reflexivity. fold n. erewrite gost_bind_run by exact E1.
    unfold down. cbv beta iota. erewrite gost_bind_run; [|erewrite gost_bind_run by exact E2; reflexivity]. exact E3.
  - rewrite <- Hp3, (mv_perm _ _ Hmv2), (mv_perm _ _ Hmv1). done.
  - eapply becomes_after; [|exact Hb3]. by etransitivity.
  - done.
  - intros x Hx. by apply (root_least ph).
Qed.

Lemma Remove_ok ph i r :
  heap_wf ph → agrees ph → ordered (peerScores ph) (Len ph) → at_ (peerScores ph) i = Some r →
  ∃ ph' l', heap_Remove i ph = Ret (r, ph') ∧ peerScores ph ≡ₚ r :: l' ∧ becomes l' ph ph'
  ∧ ps_index (ph_mem ph' r) = -1.
Proof.
  intros Hwf Hag Hord Hr. set (l := peerScores ph) in *. pose proof (at_Some_range _ _ _ Hr) as Hi.
  set (n := Len ph - 1) in *. change (len l) with (Len ph) in Hi.
  assert (Hlow : ordered l n) by (by eapply ordered_less; [|exact Hord]; lia).
  unfold heap_Remove. erewrite gost_bind_run by reflexivity. fold n. case_decide as Hlast.
  { subst i. erewrite gost_bind_run by reflexivity. cbv beta.
    destruct (pop_end_ok ph n r) as (ph' & l' & H); try done; [lia|]. by exists ph', l'. }
  destruct (at_Some l n) as [b Hb]; [change (len l) with (Len ph); lia|].
  destruct (Swap_keeps ph i n r b (n + 1) Hwf Hag Hr Hb) as (ph1 & E1 & (Hwf1 & Hmv1 & Hag1 & _) & Hl1); [lia..|].
  pose proof (moves_Len _ _ Hmv1) as Hlen1.
  destruct (sift_ok ph1 i n) as (ph2 & E2 & (Hwf2 & Hmv2 & Hag2 & Hat2) & Ho2); try done; try lia.
  { rewrite Hl1. destruct (ordered_hole l n i Hlow) as [_ Hbr]. split.
    - intros k Hk Hpk Hki x y. destruct (parent_spec k ltac:(lia)) as [Hp _]. swapped Hr Hb. by apply Hlow.
    - intros Hi0 k x y Hk Hpk. destruct (parent_spec k ltac:(lia)) as [Hp _]. destruct (parent_spec i Hi0) as [Hpi _].
      swapped Hr Hb. by apply (Hbr Hi0 k). }
  assert (Hn2 : at_ (peerScores ph2) n = Some r). { rewrite Hat2 by lia. rewrite Hl1. swapped Hr Hb. done. }
  destruct (pop_end_ok ph2 n r) as (ph3 & l' & E3 & Hp3 & Hb3 & Hix3); try done.
  { rewrite (moves_Len _ _ Hmv2). lia. }
  exists ph3, l'. split_and!.
  - erewrite gost_bind_run; [exact E3|]. cbv beta. erewrite gost_bind_run by exact E1. exact E2.
  - rewrite <- Hp3, (mv_perm _ _ Hmv2), (mv_perm _ _ Hmv1). done.
  - eapply becomes_after; [|exact Hb3]. by etransitivity.
  - done.
Qed.
End order.

(** ** The heap is ordered by score

    Whatever the tie-breaking orders are, the heap is one with respect to the scores. *)

Definition by_score (ph : peerHeap) (a b : nat) : Prop := score (ph_mem ph a) <= score (ph_mem ph b).

#[export] Instance by_score_trans ph : Transitive (by_score ph).
Proof. intros a b c. unfold by_score. lia. Qed.

Lemma by_score_agrees ph : agrees (by_score ph) ph.
Proof.
  intros a b. unfold by_score, score_less. case_decide as E.
  - destruct (bool_decide _); lia.
  - case_bool_decide; lia.
Qed.

(** What the methods keep: the members know their indices, no score is below that of the
    parent, and a peerScore that is not in the heap says so.  Less also compares the orders
    of equal scores; that part is not kept, because swapOrder exchanges two orders and then
    fixes one index after the other ([swapOrder_breaks_ties]). *)
Record heap_ok (ph : peerHeap) : Prop := {
  hp_wf : heap_wf ph;
  hp_ordered : ordered (by_score ph) (peerScores ph) (Len ph);
  hp_absent r : r ∉ peerScores ph → ps_index (ph_mem ph r) = -1
}.

(** The scores and peers are as they were. *)
Definition same_scores (ph ph' : peerHeap) : Prop :=
  ∀ r, score (ph_mem ph' r) = score (ph_mem ph r) ∧ ps_Peer (ph_mem ph' r) = ps_Peer (ph_mem ph r).

#[export] Instance same_scores_preorder : PreOrder same_scores.
Proof.
  split; [by intros ph r|]. intros p1 p2 p3 H1 H2 r. destruct (H1 r), (H2 r). split; congruence.
Qed.

Lemma ordered_ext (le le' : nat → nat → Prop) l n : (∀ a b, le a b → le' a b) → ordered le l n → ordered le' l n.
Proof. intros H Ho k Hk a b Ha Hb. by apply H, (Ho k Hk). Qed.

Lemma same_by_score ph ph' a b : same_scores ph ph' → by_score ph a b → by_score ph' a b.
Proof. intros H. unfold by_score. rewrite (proj1 (H a)), (proj1 (H b)). done. Qed.
Lemma same_by_score' ph ph' a b : same_scores ph ph' → by_score ph' a b → by_score ph a b.
Proof. intros H. unfold by_score. rewrite (proj1 (H a)), (proj1 (H b)). done. Qed.

Lemma agrees_same ph ph' : same_scores ph ph' → agrees (by_score ph) ph'.
Proof.
  intros H a b. pose proof (by_score_agrees ph' a b) as Ha.
  destruct (score_less _ _); by eapply same_by_score'.
Qed.

Lemma becomes_scores le l ph ph' : becomes le l ph ph' → same_scores ph ph'.
Proof. intros H r. by rewrite (bc_mem _ _ _ _ H r). Qed.

Lemma moves_scores ph ph' : moves ph ph' → same_scores ph ph'.
Proof. intros H r. by rewrite (mv_mem _ _ H r). Qed.

(** Outcome of an operation after which the heap holds [l]. *)
Definition heap_now (l : list nat) (ph ph' : peerHeap) : Prop :=
  heap_ok ph' ∧ peerScores ph' ≡ₚ l ∧ same_scores ph ph'.

Lemma becomes_ok l ph ph' :
  becomes (by_score ph) l ph ph' →
  (∀ r, r ∉ l → r ∈ peerScores ph → ps_index (ph_mem ph' r) = -1) →
  (∀ r, r ∉ peerScores ph → ps_index (ph_mem ph r) = -1) → heap_now l ph ph'.
Proof.
  intros Hb Hout Habs. pose proof (becomes_scores _ _ _ _ Hb) as Hs. destruct Hb as [B1 B2 B3 B4 B5 B6].
  split_and!; [split; [done| |]|done|done].
  - eapply ordered_ext; [|exact B2]. intros a b. by apply same_by_score.
  - intros r Hr. rewrite B3 in Hr. destruct (decide (r ∈ peerScores ph)) as [Hin|Hin]; [by apply Hout|].
    rewrite B6 by done. by apply Habs.
Qed.

Lemma heap_Push_ok ph r :
  heap_ok ph → r ∉ peerScores ph →
  ∃ ph', heap_Push r ph = Ret (tt, ph') ∧ heap_now (r :: peerScores ph) ph ph'.
Proof.
  intros [Hwf Ho Ha] Hr. destruct (Push_ok (by_score ph) ph r Hwf (by_score_agrees ph) Ho Hr) as (ph' & E & Hb).
  exists ph'. split; [done|]. apply becomes_ok; [done| |done]. intros x Hx Hin. destruct Hx. by right.
Qed.

Lemma taken_out (r : nat) l l' x : NoDup l → l ≡ₚ r :: l' → x ∉ l' → x ∈ l → x = r.
Proof. intros _ -> Hx [->|?]%elem_of_cons; done. Qed.

Lemma popPeer_ok ph :
  heap_ok ph → peerScores ph ≠ [] →
  ∃ ph' r, popPeer ph = Ret (r, ph') ∧ peerScores ph ≡ₚ r :: peerScores ph' ∧ heap_now (peerScores ph') ph ph'
  ∧ ∀ x, x ∈ peerScores ph → score (ph_mem ph r) <= score (ph_mem ph x).
Proof.
  intros [Hwf Ho Ha] Hne.
  destruct (Pop_ok (by_score ph) ph Hwf (by_score_agrees ph) Ho Hne) as (ph' & r & l' & E & Hp & Hb & Hix & Hmin).
  exists ph', r. pose proof (bc_perm _ _ _ _ Hb) as Hl'. split_and!; [done|by rewrite Hl'| |done].
  destruct (becomes_ok l' ph ph' Hb) as (H1 & H2 & H3); [|done|by split_and!].
  intros x Hx Hin. by rewrite (taken_out r (peerScores ph) l' x (wf_nodup _ Hwf) Hp Hx Hin).
Qed.

Lemma index_of ph r : heap_ok ph → r ∈ peerScores ph → at_ (peerScores ph) (ps_index (ph_mem ph r)) = Some r.
Proof. intros H [k [Hk _]]%elem_at. by rewrite (wf_index _ (hp_wf _ H) k r Hk). Qed.

Lemma ph_removePeer_ok ph r :
  heap_ok ph → r ∈ peerScores ph →
  ∃ ph', ph_removePeer r ph = Ret (r, ph') ∧ peerScores ph ≡ₚ r :: peerScores ph' ∧ heap_now (peerScores ph') ph ph'.
Proof.
  intros H Hr. pose proof (index_of ph r H Hr) as Hi. destruct H as [Hwf Ho Ha].
  destruct (Remove_ok (by_score ph) ph _ r Hwf (by_score_agrees ph) Ho Hi) as (ph' & l' & E & Hp & Hb & Hix).
  exists ph'. pose proof (bc_perm _ _ _ _ Hb) as Hl'. split_and!; [exact E|by rewrite Hl'|].
  destruct (becomes_ok l' ph ph' Hb) as (H1 & H2 & H3); [|done|by split_and!].
  intros x Hx Hin. by rewrite (taken_out r (peerScores ph) l' x (wf_nodup _ Hwf) Hp Hx Hin).
Qed.

(** Fixing after the element at [i] has changed. *)
Lemma heap_Fix_ok ph i :
  heap_wf ph → 0 <= i < Len ph → hole (by_score ph) (peerScores ph) (Len ph) i →
  (∀ r, r ∉ peerScores ph → ps_index (ph_mem ph r) = -1) →
  ∃ ph', heap_Fix i ph = Ret (tt, ph') ∧ heap_now (peerScores ph) ph ph'.
Proof.
  intros Hwf Hi Hh Habs.
  destruct (Fix_ok (by_score ph) ph i Hwf (by_score_agrees ph) Hi Hh) as (ph' & E & Hwf' & Hmv & Ho).
  exists ph'. split; [done|]. pose proof (moves_scores _ _ Hmv) as Hs. split_and!; [split; [done| |]|apply Hmv|done].
  - eapply ordered_ext; [|exact Ho]. intros a b. by apply same_by_score.
  - intros r Hr. rewrite (mv_perm _ _ Hmv) in Hr. rewrite (mv_other _ _ Hmv) by done. by apply Habs.
Qed.

(** Writing a field other than the score and the index. *)
Lemma write_order_ok ph r o :
  heap_ok ph → heap_ok (ph_write r (set_order o) ph) ∧ same_scores ph (ph_write r (set_order o) ph).
Proof.
  intros [Hwf Ho Ha].
  assert (Hmem : ∀ x, ∃ o', ph_mem (ph_write r (set_order o) ph) x = set_order o' (ph_mem ph x)).
  { intros x. cbn. destruct (decide (x = r)) as [->|Hx]; [rewrite fn_lookup_insert; by eexists|].
    rewrite fn_lookup_insert_ne by done. exists (ps_order (ph_mem ph x)). by destruct (ph_mem ph x). }
  assert (Hs : same_scores ph (ph_write r (set_order o) ph)).
  { intros x. destruct (Hmem x) as [o' ->]. done. }
  split; [|done]. split.
  - split; [apply Hwf|]. intros i x Hx. destruct (Hmem x) as [o' ->]. by apply (wf_index _ Hwf).
  - eapply ordered_ext; [|exact Ho]. intros a b. by apply same_by_score.
  - intros x Hx. destruct (Hmem x) as [o' ->]. by apply Ha.
Qed.

Lemma heap_now_trans l l' p1 p2 p3 :
  same_scores p1 p2 → heap_now l p2 p3 → l ≡ₚ l' → heap_now l' p1 p3.
Proof. intros Hs (H1 & H2 & H3) Hl. split_and!; [done|by rewrite H2|by etransitivity]. Qed.

Lemma pushPeer_ok ph r rnd :
  heap_ok ph → r ∉ peerScores ph →
  ∃ ph', pushPeer r rnd ph = Ret (tt, ph') ∧ heap_now (r :: peerScores ph) ph ph'.
Proof.
  intros H Hr. unfold pushPeer. erewrite gost_bind_run by reflexivity. erewrite gost_bind_run by reflexivity.
  set (ph1 := mkPeerHeap _ _ _). assert (H1 : heap_ok ph1) by (by destruct H as [[] ? ?]).
  destruct (write_order_ok ph1 r (uint64 (ph_order ph1 + Intn rnd (Len ph1 / 2 + 1))) H1) as [H2 Hs].
  destruct (heap_Push_ok _ r H2 Hr) as (ph' & E & Hn). exists ph'. split; [exact E|].
  by eapply heap_now_trans; [|exact Hn|]; [intros x; apply (Hs x)|].
Qed.

Lemma heap_now_ok l ph ph' : heap_now l ph ph' → heap_ok ph'.
Proof. by intros []. Qed.

Lemma Fix_again_ok ph i :
  heap_ok ph → 0 <= i < Len ph → ∃ ph', heap_Fix i ph = Ret (tt, ph') ∧ heap_now (peerScores ph) ph ph'.
Proof.
  intros [Hwf Ho Ha] Hi. apply heap_Fix_ok; [done..| |done]. by apply ordered_hole; [apply by_score_trans|].
Qed.

Lemma swapOrder_ok ph i j :
  heap_ok ph → 0 <= i < Len ph → 0 <= j < Len ph →
  ∃ ph', swapOrder i j ph = Ret (tt, ph') ∧ heap_now (peerScores ph) ph ph'.
Proof.
  intros H Hi Hj. unfold swapOrder. case_decide; [exists ph; split; [done|split_and!; done]|].
  destruct (at_Some (peerScores ph) i Hi) as [a Ea]. destruct (at_Some (peerScores ph) j Hj) as [b Eb].
  erewrite gost_bind_run; [|rewrite Ea, Eb; reflexivity]. cbv beta.
  destruct (write_order_ok ph a (ps_order (ph_mem ph b)) H) as [H1 S1].
  destruct (write_order_ok _ b (ps_order (ph_mem ph a)) H1) as [H2 S2].
  set (ph2 := ph_write b _ _) in *.
  destruct (Fix_again_ok ph2 i H2 Hi) as (ph3 & E3 & H3 & P3 & S3).
  erewrite gost_bind_run by exact E3. cbv beta.
  destruct (Fix_again_ok ph3 j H3) as (ph4 & E4 & Hn4); [unfold Len in *; by rewrite P3|].
  exists ph4. split; [done|]. eapply heap_now_trans; [|exact Hn4|exact P3].
  etransitivity; [exact S1|]. by etransitivity.
Qed.

Lemma addPeer_ok ph r rnd rnd' :
  heap_ok ph → r ∉ peerScores ph →
  ∃ ph', addPeer r rnd rnd' ph = Ret (tt, ph') ∧ heap_now (r :: peerScores ph) ph ph'.
Proof.
  intros H Hr. unfold addPeer. destruct (pushPeer_ok ph r rnd H Hr) as (ph1 & E1 & H1 & P1 & S1).
  erewrite gost_bind_run by exact E1. erewrite gost_bind_run by reflexivity. cbv beta.
  assert (Hlen : Len ph1 = Len ph + 1) by (unfold Len; rewrite P1; cbn; lia).
  assert (Hin : r ∈ peerScores ph1) by (rewrite P1; by left).
  destruct (swapOrder_ok ph1 (ps_index (ph_mem ph1 r)) (Intn rnd' (Len ph1)) H1) as (ph2 & E2 & Hn2).
  - pose proof (at_Some_range _ _ _ (index_of ph1 r H1 Hin)). done.
  - apply Z.mod_pos_bound. rewrite Hlen. unfold Len. lia.
  - exists ph2. split; [done|]. by eapply heap_now_trans.
Qed.

(** A peer's score changes and the heap is updated; a peer that has been removed is
    left alone. *)
Lemma updatePeer_ok ph r s :
  heap_ok ph →
  ∃ ph', ph_updatePeer r (ph_write r (set_score s) ph) = Ret (tt, ph') ∧ heap_ok ph' ∧ peerScores ph' ≡ₚ peerScores ph
  ∧ ∀ x, score (ph_mem ph' x) = (if decide (x = r) then s else score (ph_mem ph x))
         ∧ ps_Peer (ph_mem ph' x) = ps_Peer (ph_mem ph x).
Proof.
  intros H. set (ph1 := ph_write r (set_score s) ph).
  assert (Hmem : ∀ x, score (ph_mem ph1 x) = (if decide (x = r) then s else score (ph_mem ph x))
    ∧ ps_Peer (ph_mem ph1 x) = ps_Peer (ph_mem ph x) ∧ ps_index (ph_mem ph1 x) = ps_index (ph_mem ph x)).
  { intros x. cbn. case_decide as E; [subst; by rewrite fn_lookup_insert|by rewrite fn_lookup_insert_ne]. }
  destruct H as [Hwf Ho Ha].
  assert (Hwf1 : heap_wf ph1).
  { split; [apply Hwf|]. intros i x Hx. destruct (Hmem x) as (_ & _ & ->). by apply (wf_index _ Hwf). }
  assert (Ha1 : ∀ x, x ∉ peerScores ph1 → ps_index (ph_mem ph1 x) = -1).
  { intros x Hx. destruct (Hmem x) as (_ & _ & ->). by apply Ha. }
  unfold ph_updatePeer. erewrite gost_bind_run by reflexivity. cbv beta.
  destruct (decide (r ∈ peerScores ph)) as [Hin|Hout].
  - pose proof (index_of ph r ltac:(done) Hin) as Hi. destruct (Hmem r) as (_ & _ & Eix). rewrite Eix.
    set (i := ps_index (ph_mem ph r)) in *.
    destruct (heap_Fix_ok ph1 i) as (ph' & E & H' & P' & S'); try done.
    + exact (at_Some_range _ _ _ Hi).
    + assert (Hle : ∀ k a b, 0 < k < Len ph → k ≠ i → parent k ≠ i →
        at_ (peerScores ph) (parent k) = Some a → at_ (peerScores ph) k = Some b → by_score ph1 a b).
      { intros k a b Hk Hki Hpk Ea Eb. unfold by_score. destruct (Hmem a) as [-> _], (Hmem b) as [-> _].
        assert (a ≠ r) by (intros ->; apply Hpk; by apply (at_nodup _ _ _ _ (wf_nodup _ Hwf) Ea)).
        assert (b ≠ r) by (intros ->; apply Hki; by apply (at_nodup _ _ _ _ (wf_nodup _ Hwf) Eb)).
        rewrite !decide_False by done. exact (Ho k Hk a b Ea Eb). }
      split; [intros k Hk Hpk Hki a b; by apply Hle|].
      intros Hi0 k a b Hk Hpk Ea Eb. destruct (ordered_hole (by_score ph) _ _ i Ho) as [_ Hbr].
      specialize (Hbr Hi0 k a b Hk Hpk Ea Eb). unfold by_score in *. destruct (Hmem a) as [-> _], (Hmem b) as [-> _].
      destruct (parent_spec k ltac:(lia)) as [Hp _]. destruct (parent_spec i Hi0) as [Hp' _].
      rewrite !decide_False; [done| |]; intros ->.
      * pose proof (at_nodup _ _ _ _ (wf_nodup _ Hwf) Eb Hi). lia.
      * pose proof (at_nodup _ _ _ _ (wf_nodup _ Hwf) Ea Hi). lia.
    + exists ph'. split_and!; [done..|]. intros x. destruct (S' x) as [-> ->], (Hmem x) as (-> & -> & _). done.
  - destruct (Hmem r) as (_ & _ & ->). rewrite (Ha r Hout), Fix_absent. exists ph1. split_and!; [done| |done|].
    + split; [done| |done]. intros k Hk a b Ea Eb. unfold by_score.
      destruct (Hmem a) as [-> _], (Hmem b) as [-> _].
      rewrite !decide_False; [by apply (Ho k)| |]; intros ->; apply Hout; by eapply at_elem.
    + intros x. destruct (Hmem x) as (-> & -> & _). done.
Qed.

(** ** The tie-breaker *)

(** Adding the peerScores 0, 1, ... with the random numbers [l] of the second draw (the
    first draw gives 0), and the orders in which they are popped. *)
Fixpoint add_all (r : nat) (l : list Z) : hop unit :=
  match l with [] => mret tt | rnd :: l => _ ← addPeer r 0 rnd; add_all (S r) l end.

Fixpoint pop_orders (n : nat) : hop (list Z) :=
  match n with
  | O => mret []
  | S n => r ← popPeer; ph ← gget; rest ← pop_orders n; mret (ps_order (ph_mem ph r) :: rest)
  end.

(** The order is meant to break ties between equal scores, but the heap does not
    keep to it: swapOrder exchanges the orders of two peers and calls heap.Fix for
    both indices, although the first call may move the second peer to another index.
    Here five peers with equal scores are added, and popped in the order 1, 3, 2. *)
Theorem swapOrder_breaks_ties :
  ∃ ph, (_ ← add_all 0 [0; 1; 2; 0; 4]; pop_orders 5) newPeerHeap = Ret ([1; 3; 2; 4; 5], ph).
Proof. eexists. vm_compute. reflexivity. Qed.
