(* ===== verification/Peer.v ===== *)
(** * Peers (peer.go, root_peer_list.go, peer_strategies.go)

    A Peer is a remote host:port with its connections.  The RootPeerList of a channel
    creates the peers; PeerLists (that of the channel and those of its isolated
    subchannels) share them, count themselves in the peer's scCount and choose among
    their peers with a heap of scores.

    All lists of a channel live in one [Peers] with the peers and the connections.
    Methods are programs ([Conc.prog]) whose actions are critical sections of the
    source.  PeerList.Add holds the lock of its list while it calls into the root list
    and the peer: it is three actions, between which other code can act on anything
    but the list.

    Logging and the user's callbacks are left out; random numbers and the result of
    Connect are arguments. *)

From stdpp Require Import functions.
From S2P Require Import Prelude Conc Errors Retry Buffer Checksum Frame Messages Fragment Mex ReqRes Health Connection PeerHeap.

(** ** State *)

Definition ErrNoPeers : error := otherError (str "no peers available").
Definition ErrPeerNotFound : error := otherError (str "peer not found").
Definition ErrNoNewPeers : error := otherError (str "no new peer available").

Record Peer := mkPeer {
  hostPort : bytes;
  scCount : Z;
  inboundConnections : list nat;
  outboundConnections : list nat;
  chosenCount : Z
}.

Definition p_set_scCount (n : Z) (p : Peer) : Peer :=
  mkPeer (hostPort p) n (inboundConnections p) (outboundConnections p) (chosenCount p).
Definition p_set_conns (i o : list nat) (p : Peer) : Peer :=
  mkPeer (hostPort p) (scCount p) i o (chosenCount p).
Definition p_chosen (p : Peer) : Peer :=
  mkPeer (hostPort p) (scCount p) (inboundConnections p) (outboundConnections p) (uint64 (chosenCount p + 1)).

(** A blank host:port panics. *)
Definition newPeer (hp : bytes) : go Peer := if decide (hp = []) then Panic else Ret (mkPeer hp 0 [] [] 0).

(** The strategies; a function gets the peer and the connections. *)
Inductive ScoreCalculator :=
| zeroCalculator
| leastPendingCalculator
| preferIncomingCalculator
| ScoreCalculatorFunc (f : Peer → (nat → Connection) → Z).

(** [pl_next] is the next address of a peerScore. *)
Record PeerList := mkPeerList {
  pl_byHostPort : gmap bytes nat;
  peerHeap_ : peerHeap;
  pl_next : nat;
  scoreCalculator : ScoreCalculator
}.

Definition newPeerList : PeerList := mkPeerList ∅ newPeerHeap 0 preferIncomingCalculator.

Record Peers := mkPeers {
  root : gmap bytes nat;
  w_peer : nat → Peer;
  w_nextPeer : nat;
  w_list : nat → PeerList;
  w_conn : nat → Connection
}.

Definition set_root (m : gmap bytes nat) (w : Peers) : Peers :=
  mkPeers m (w_peer w) (w_nextPeer w) (w_list w) (w_conn w).
Definition peer_do (p : nat) (f : Peer → Peer) (w : Peers) : Peers :=
  mkPeers (root w) (<[p := f (w_peer w p)]> (w_peer w)) (w_nextPeer w) (w_list w) (w_conn w).
Definition new_peer (x : Peer) (w : Peers) : Peers :=
  mkPeers (root w) (<[w_nextPeer w := x]> (w_peer w)) (S (w_nextPeer w)) (w_list w) (w_conn w).
Definition set_list (l : nat) (x : PeerList) (w : Peers) : Peers :=
  mkPeers (root w) (w_peer w) (w_nextPeer w) (<[l := x]> (w_list w)) (w_conn w).

Abbreviation pprog := (prog Peers).

(** An operation on the heap of a list. *)
Definition on_heap {A} (l : nat) (m : hop A) : GO Peers A := λ w,
  let x := w_list w l in
  match m (peerHeap_ x) with
  | Ret (a, ph) => Ret (a, set_list l (mkPeerList (pl_byHostPort x) ph (pl_next x) (scoreCalculator x)) w)
  | Panic => Panic
  | OutOfFuel => OutOfFuel
  end.

(** ** Scores *)

Definition NumConnections (p : Peer) : Z * Z := (len (inboundConnections p), len (outboundConnections p)).

Definition NumPendingOutbound (conns : nat → Connection) (p : Peer) : Z :=
  foldl (λ n c, n + Z.of_nat (count (c_outbound (conns c)))) 0
    (outboundConnections p ++ inboundConnections p).

Definition MaxUint64 : Z := 2^64 - 1.
Definition MaxInt32 : Z := 2^31 - 1.

Definition GetScore (sc : ScoreCalculator) (conns : nat → Connection) (p : Peer) : Z :=
  let '(nIn, nOut) := NumConnections p in
  match sc with
  | zeroCalculator => 0
  | leastPendingCalculator =>
      if decide (nIn + nOut = 0) then MaxUint64 else uint64 (NumPendingOutbound conns p)
  | preferIncomingCalculator =>
      if decide (nIn + nOut = 0) then MaxUint64
      else
        let numPendingOutbound := uint64 (NumPendingOutbound conns p) in
        if decide (nIn = 0) then uint64 (MaxInt32 + numPendingOutbound) else numPendingOutbound
  | ScoreCalculatorFunc f => f p conns
  end.

(** ** Connections of a peer *)

Definition getConn (p : Peer) (i : nat) : option nat :=
  let inboundLen := length (inboundConnections p) in
  if decide (i < inboundLen)%nat then inboundConnections p !! i
  else outboundConnections p !! (i - inboundLen)%nat.

(** Cycling through [n] connections from [i] on. *)
Fixpoint find_active (conns : nat → Connection) (p : Peer) (startOffset allConns i n : nat) : go (option nat) :=
  match n with
  | O => Ret None
  | S n =>
      match getConn p ((i + startOffset) mod allConns) with
      | None => Panic
      | Some c => if decide (c_state (conns c) = connectionActive) then Ret (Some c)
                  else find_active conns p startOffset allConns (S i) n
      end
  end.

(** [rnd] is peerRng.Intn(allConns). *)
Definition getActiveConnLocked (rnd : nat) (conns : nat → Connection) (p : Peer) : go (option nat) :=
  let allConns := (length (inboundConnections p) + length (outboundConnections p))%nat in
  if decide (allConns = 0%nat) then Ret None
  else
    let startOffset := if decide (1 < allConns)%nat then rnd else 0%nat in
    find_active conns p startOffset allConns 0 allConns.

Definition getActiveConn (p rnd : nat) : pprog (option nat) :=
  atomic_go (λ w, gcall (getActiveConnLocked rnd (w_conn w) (w_peer w p)) w).

(** GetConnection, and getConnectionRelay, which differ in the context for Connect:
    [connect] is what Connect answers, if it is called. *)
Definition GetConnection (p rnd rnd' : nat) (connect : pprog (nat + error)) : pprog (nat + error) :=
  c ← getActiveConn p rnd;
  match c with
  | Some c => mret (inl c)
  | None =>
      c ← getActiveConn p rnd';
      match c with
      | Some c => mret (inl c)
      | None => connect
      end
  end.

(** The timeout getConnectionRelay connects with. *)
Definition relayConnTimeout (callTimeout relayMaxConnTimeout : Z) : Z :=
  if decide (relayMaxConnTimeout < callTimeout ∧ 0 < relayMaxConnTimeout) then relayMaxConnTimeout else callTimeout.

Definition addSC (p : nat) (w : Peers) : Peers :=
  peer_do p (λ x, p_set_scCount (uint32 (scCount x + 1)) x) w.
Definition delSC (p : nat) (w : Peers) : Peers :=
  peer_do p (λ x, p_set_scCount (uint32 (scCount x - 1)) x) w.

Definition canRemove (p : Peer) : bool :=
  bool_decide (len (inboundConnections p) + len (outboundConnections p) + scCount p = 0).

(** Which list of connections: inbound or outbound. *)
Definition connectionsFor (d : direction) (p : Peer) : list nat :=
  match d with inbound => inboundConnections p | outbound => outboundConnections p end.
Definition set_connectionsFor (d : direction) (l : list nat) (p : Peer) : Peer :=
  match d with
  | inbound => p_set_conns l (outboundConnections p) p
  | outbound => p_set_conns (inboundConnections p) l p
  end.

(** The connection is added if it was active when its state was read. *)
Definition peer_addConnection (p c : nat) (d : direction) : pprog (option error) :=
  st ← atomic (λ w, (c_state (w_conn w c), w));
  if decide (st = connectionActive) then
    _ ← atomic (λ w, (tt, peer_do p (λ x, set_connectionsFor d (connectionsFor d x ++ [c]) x) w));
    mret None
  else mret (Some ErrInvalidConnectionState).

(** The last connection moves to the place of the removed one. *)
Definition removeConnection (conns : list nat) (changed : nat) : option (list nat) :=
  match list_find (eq changed) conns with
  | None => None
  | Some (i, _) =>
      match last conns with
      | None => None
      | Some l => Some (take (length conns - 1) (<[i := l]> conns))
      end
  end.

(** ** The root list *)

Definition root_Get (hp : bytes) : pprog (option nat) := atomic (λ w, (root w !! hp, w)).

(** The two critical sections of Add: look up, then look up and create. *)
Definition root_create (hp : bytes) : GO Peers nat := λ w,
  match root w !! hp with
  | Some p => Ret (p, w)
  | None =>
      match newPeer hp with
      | Ret x => Ret (w_nextPeer w, set_root (<[hp := w_nextPeer w]> (root w)) (new_peer x w))
      | Panic => Panic
      | OutOfFuel => OutOfFuel
      end
  end.

Definition root_Add (hp : bytes) : pprog nat :=
  o ← root_Get hp;
  match o with
  | Some p => mret p
  | None => atomic_go (root_create hp)
  end.

Definition root_GetOrAdd (hp : bytes) : pprog nat :=
  o ← root_Get hp;
  match o with Some p => mret p | None => root_Add hp end.

Definition onClosedConnRemoved (peer : nat) : pprog unit :=
  hp ← atomic (λ w, (hostPort (w_peer w peer), w));
  o ← root_Get hp;
  match o with
  | None => mret tt
  | Some p =>
      can ← atomic (λ w, (canRemove (w_peer w p), w));
      if can : bool then atomic (λ w, (tt, set_root (delete hp (root w)) w)) else mret tt
  end.

Definition connectionCloseStateChange (p changed : nat) : pprog unit :=
  st ← atomic (λ w, (c_state (w_conn w changed), w));
  if decide (st = connectionActive) then mret tt
  else
    found ← atomic (λ w, let x := w_peer w p in
      match removeConnection (inboundConnections x) changed with
      | Some l => (true, peer_do p (λ x, p_set_conns l (outboundConnections x) x) w)
      | None =>
          match removeConnection (outboundConnections x) changed with
          | Some l => (true, peer_do p (λ x, p_set_conns (inboundConnections x) l x) w)
          | None => (false, w)
          end
      end);
    if found : bool then onClosedConnRemoved p else mret tt.

(** ** Peer lists *)

Definition list_of (w : Peers) (l : nat) : PeerList := w_list w l.
Definition score_of (w : Peers) (l r : nat) : peerScore := ph_mem (peerHeap_ (w_list w l)) r.

Definition pl_Len (x : PeerList) : Z := Len (peerHeap_ x).

Definition exists_ (l : nat) (hp : bytes) : pprog (option nat) :=
  atomic (λ w, (pl_byHostPort (w_list w l) !! hp, w)).

Definition peer_of (l r : nat) : pprog nat := atomic (λ w, (ps_Peer (score_of w l r), w)).

(** [newPeerScore] and its entry in the map. *)
Definition register (l : nat) (hp : bytes) (ps : peerScore) : ST Peers nat := λ w,
  let x := w_list w l in
  let r := pl_next x in
  let ph := peerHeap_ x in
  (r, set_list l (mkPeerList (<[hp := r]> (pl_byHostPort x))
        (mkPeerHeap (peerScores ph) (ph_order ph) (<[r := ps]> (ph_mem ph))) (S r) (scoreCalculator x)) w).

(** The end of Add: [p] is the peer from the root list. *)
Definition addPeerScore (l p : nat) (hp : bytes) (rnd rnd' : Z) : GO Peers unit := λ w,
  let w := addSC p w in
  let '(r, w) := register l hp (newPeerScore p (GetScore (scoreCalculator (w_list w l)) (w_conn w) (w_peer w p))) w in
  on_heap l (addPeer r rnd rnd') w.

Definition pl_Add (l : nat) (hp : bytes) (rnd rnd' : Z) : pprog nat :=
  o ← exists_ l hp;
  match o with
  | Some r => peer_of l r
  | None =>
      o ← exists_ l hp;
      match o with
      | Some r => peer_of l r
      | None =>
          p ← root_Add hp;
          _ ← atomic_go (addPeerScore l p hp rnd rnd');
          mret p
      end
  end.

Definition pl_GetOrAdd (l : nat) (hp : bytes) (rnd rnd' : Z) : pprog nat :=
  o ← exists_ l hp;
  match o with
  | Some r => peer_of l r
  | None => pl_Add l hp rnd rnd'
  end.

Definition pl_Remove (l : nat) (hp : bytes) : pprog (option error) :=
  atomic_go (λ w,
    let x := w_list w l in
    match pl_byHostPort x !! hp with
    | None => Ret (Some ErrPeerNotFound, w)
    | Some r =>
        let w := delSC (ps_Peer (score_of w l r)) w in
        let w := set_list l (mkPeerList (delete hp (pl_byHostPort x)) (peerHeap_ x) (pl_next x) (scoreCalculator x)) w in
        match on_heap l (ph_removePeer r) w with
        | Ret (_, w) => Ret (None, w)
        | Panic => Panic
        | OutOfFuel => OutOfFuel
        end
    end).

(** ** Choosing a peer *)

Definition canChoosePeer (prevSelected : gset bytes) (avoidHost : bool) (hp : bytes) : bool :=
  if decide (hp ∈ prevSelected) then false
  else if avoidHost then bool_decide (getHost hp ∉ prevSelected) else true.

(** Popping at most [n] peers until one can be chosen; the others are returned in the
    order they were popped. *)
Fixpoint pop_until (can : peerScore → bool) (n : nat) (popped : list nat) : hop (option nat * list nat) :=
  match n with
  | O => mret (None, popped)
  | S n =>
      r ← popPeer;
      ph ← gget;
      if can (ph_mem ph r) then mret (Some r, popped) else pop_until can n (popped ++ [r])
  end.

Fixpoint push_all (l : list nat) : hop unit :=
  match l with [] => mret tt | r :: l => _ ← heap_Push r; push_all l end.

Definition choose (can : peerScore → bool) (rnd : Z) : hop (option nat) :=
  ph ← gget;
  '(ps, popped) ← pop_until can (length (peerScores ph)) [];
  _ ← push_all popped;
  match ps with
  | None => mret None
  | Some r => _ ← pushPeer r rnd; mret (Some r)
  end.

Definition choosePeer (l : nat) (prevSelected : gset bytes) (avoidHost : bool) (rnd : Z) : GO Peers (option nat) :=
  w ← gget;
  r ← on_heap l (choose (λ ps, canChoosePeer prevSelected avoidHost (hostPort (w_peer w (ps_Peer ps)))) rnd);
  match r with
  | None => mret None
  | Some r =>
      w ← gget;
      let p := ps_Peer (score_of w l r) in
      _ ← gmodify (peer_do p p_chosen);
      mret (Some p)
  end.

Definition GetNew (l : nat) (prevSelected : gset bytes) (rnd : Z) : GO Peers (nat + error) :=
  w ← gget;
  if decide (pl_Len (w_list w l) = 0) then mret (inr ErrNoPeers)
  else
    peer ← choosePeer l prevSelected true rnd;
    peer ← match peer with Some p => mret (Some p) | None => choosePeer l prevSelected false rnd end;
    mret (match peer with Some p => inl p | None => inr ErrNoNewPeers end).

Definition pl_Get (l : nat) (prevSelected : gset bytes) (rnd : Z) : pprog (nat + error) :=
  r ← atomic_go (GetNew l prevSelected rnd);
  match r with
  | inl p => mret (inl p)
  | inr e =>
      if decide (e = ErrNoNewPeers) then
        p ← atomic_go (choosePeer l ∅ false rnd);
        mret (match p with Some p => inl p | None => inr ErrNoPeers end)
      else mret (inr e)
  end.

(** ** Changing scores *)

Definition pl_updatePeer (l r : nat) (newScore : Z) : GO Peers unit :=
  w ← gget;
  if decide (score (score_of w l r) = newScore) then mret tt
  else on_heap l (_ ← gmodify (ph_write r (set_score newScore)); ph_updatePeer r).

Definition onPeerChange (l p : nat) : pprog unit :=
  o ← atomic (λ w, let x := w_list w l in
        (match pl_byHostPort x !! hostPort (w_peer w p) with
         | Some r => Some (r, score (score_of w l r), scoreCalculator x)
         | None => None
         end, w));
  match o with
  | None => mret tt
  | Some (r, psScore, sc) =>
      newScore ← atomic (λ w, (GetScore sc (w_conn w) (w_peer w (ps_Peer (score_of w l r))), w));
      if decide (newScore = psScore) then mret tt
      else atomic_go (pl_updatePeer l r newScore)
  end.

Fixpoint rescore (l : nat) (sc : ScoreCalculator) (rs : list nat) : GO Peers unit :=
  match rs with
  | [] => mret tt
  | r :: rs =>
      w ← gget;
      _ ← pl_updatePeer l r (GetScore sc (w_conn w) (w_peer w (ps_Peer (score_of w l r))));
      rescore l sc rs
  end.

(** [order] is the order in which the map is ranged over. *)
Definition SetStrategy (l : nat) (sc : ScoreCalculator) (order : list nat) : pprog unit :=
  atomic_go (
    _ ← gmodify (λ w, let x := w_list w l in
          set_list l (mkPeerList (pl_byHostPort x) (peerHeap_ x) (pl_next x) sc) w);
    rescore l sc order).
