(* ===== verification/PeerCorrect.v ===== *)
(** * Choosing peers

    What PeerList.choosePeer and PeerList.Get promise: the best peer of the list. *)

From stdpp Require Import functions.
From S2P Require Import Prelude Conc Errors Retry Buffer Checksum Frame Messages Fragment Mex ReqRes Health Connection PeerHeap Peer.

(** ** Choosing from the heap *)

Section choose.
Context (can : peerScore → bool).
Hypothesis can_peer : ∀ a b, ps_Peer a = ps_Peer b → can a = can b.

Definition able (ph : peerHeap) (r : nat) : Prop := can (ph_mem ph r) = true.

Lemma can_same ph ph' r : same_scores ph ph' → can (ph_mem ph' r) = can (ph_mem ph r).
Proof. intros H. apply can_peer, H. Qed.

Lemma pop_until_ok n ph popped :
  heap_ok ph → length (peerScores ph) = n →
  ∃ o out ph', pop_until can n popped ph = Ret ((o, popped ++ out), ph') ∧ heap_ok ph' ∧ same_scores ph ph'
  ∧ (∀ x, x ∈ out → can (ph_mem ph x) = false)
  ∧ match o with
    | None => peerScores ph ≡ₚ out ∧ peerScores ph' = []
    | Some r => peerScores ph ≡ₚ r :: out ++ peerScores ph' ∧ able ph r
        ∧ ∀ x, x ∈ peerScores ph → able ph x → score (ph_mem ph r) <= score (ph_mem ph x)
    end.
Proof.
  revert ph popped. induction n as [|n IH]; intros ph popped Hok Hn; cbn [pop_until].
  { apply length_zero_iff_nil in Hn. exists None, [], ph. rewrite app_nil_r, Hn. split_and!; try done.
    by intros x ?%elem_of_nil. }
  destruct (popPeer_ok ph Hok) as (ph1 & r & E1 & P1 & (Hok1 & _ & S1) & Hmin); [by intros H; rewrite H in Hn|].
  erewrite gost_bind_run by exact E1. erewrite gost_bind_run by reflexivity. cbv beta.
  rewrite (can_same ph ph1 r S1). destruct (can (ph_mem ph r)) eqn:Hcan.
  - exists (Some r), [], ph1. rewrite app_nil_r. split_and!; try done; [by intros x ?%elem_of_nil|].
    intros x Hx _. by apply Hmin.
  - assert (Hn1 : length (peerScores ph1) = n) by (rewrite P1 in Hn; cbn in Hn; lia).
    destruct (IH ph1 (popped ++ [r]) Hok1 Hn1) as (o & out & ph2 & E2 & Hok2 & S2 & Hout & Ho).
    exists o, (r :: out), ph2. split_and!.
    + by rewrite E2, <- app_assoc.
    + done.
    + by etransitivity.
    + intros x [->|Hx]%elem_of_cons; [done|]. rewrite <- (can_same ph ph1 x S1). by apply Hout.
    + destruct o as [r'|].
      * destruct Ho as (P2 & Hr' & Hmin2). split_and!.
        -- rewrite P1, P2. cbn. apply Permutation_swap.
        -- unfold able in *. by rewrite <- (can_same ph ph1 r' S1).
        -- intros x Hx Hab. rewrite P1 in Hx. apply elem_of_cons in Hx as [->|Hx].
           { unfold able in Hab. congruence. }
           destruct (S1 r') as [<- _], (S1 x) as [<- _]. apply Hmin2; [done|].
           unfold able in *. by rewrite (can_same ph ph1 x S1).
      * destruct Ho as [P2 Hnil]. split; [by rewrite P1, P2|done].
Qed.

Lemma push_all_ok l ph :
  heap_ok ph → NoDup (l ++ peerScores ph) →
  ∃ ph', push_all l ph = Ret (tt, ph') ∧ heap_now (l ++ peerScores ph) ph ph'.
Proof.
  revert ph. induction l as [|r l IH]; intros ph Hok Hnd; cbn [push_all].
  { exists ph. split; [done|]. by split_and!. }
  cbn in Hnd. apply NoDup_cons in Hnd as [Hr Hnd].
  destruct (heap_Push_ok ph r Hok) as (ph1 & E1 & Hok1 & P1 & S1).
  { intros Hin. apply Hr, elem_of_app. by right. }
  erewrite gost_bind_run by exact E1. cbv beta.
  destruct (IH ph1 Hok1) as (ph2 & E2 & Hn2).
  { rewrite P1. rewrite <- Permutation_middle. by apply NoDup_cons. }
  exists ph2. split; [done|]. eapply heap_now_trans; [exact S1|exact Hn2|].
  rewrite P1. cbn. by rewrite <- Permutation_middle.
Qed.

Lemma choose_ok ph rnd :
  heap_ok ph →
  ∃ o ph', choose can rnd ph = Ret (o, ph') ∧ heap_now (peerScores ph) ph ph'
  ∧ match o with
    | None => ∀ x, x ∈ peerScores ph → can (ph_mem ph x) = false
    | Some r => r ∈ peerScores ph ∧ able ph r
        ∧ ∀ x, x ∈ peerScores ph → able ph x → score (ph_mem ph r) <= score (ph_mem ph x)
    end.
Proof.
  intros Hok. pose proof (wf_nodup _ (hp_wf _ Hok)) as Hnd. unfold choose. erewrite gost_bind_run by reflexivity. cbv beta.
  destruct (pop_until_ok _ ph [] Hok eq_refl) as (o & out & ph1 & E1 & Hok1 & S1 & Hout & Ho).
  erewrite gost_bind_run by exact E1. cbv beta iota. cbn [app].
  assert (Hnd1 : NoDup (out ++ peerScores ph1)).
  { destruct o as [r|].
    - destruct Ho as (P & _). rewrite P in Hnd. by apply NoDup_cons in Hnd as [_ ?].
    - destruct Ho as (P & ->). rewrite app_nil_r. by rewrite P in Hnd. }
  destruct (push_all_ok out ph1 Hok1 Hnd1) as (ph2 & E2 & Hok2 & P2 & S2).
  erewrite gost_bind_run by exact E2. cbv beta. destruct o as [r|].
  - destruct Ho as (P & Hr & Hmin).
    destruct (pushPeer_ok ph2 r rnd Hok2) as (ph3 & E3 & Hok3 & P3 & S3).
    { rewrite P2. rewrite P in Hnd. by apply NoDup_cons in Hnd as [? _]. }
    erewrite gost_bind_run by exact E3. cbv beta. exists (Some r), ph3. split; [done|].
    split; [split_and!; [done| |]|split_and!; [|done|done]].
    + by rewrite P3, P2, P.
    + etransitivity; [exact S1|]. by etransitivity.
    + rewrite P. by left.
  - destruct Ho as [P Hnil]. exists None, ph2. split; [done|].
    split; [split_and!; [done| |]|].
    + by rewrite P2, Hnil, app_nil_r, P.
    + by etransitivity.
    + intros x Hx. apply Hout. by rewrite <- P.
Qed.
End choose.

(** ** Get *)

(** How much a peer is to be avoided: not at all, because its host has been selected
    before, or because it has been itself. *)
Definition tier (prev : gset bytes) (hp : bytes) : Z :=
  if canChoosePeer prev true hp then 0 else if canChoosePeer prev false hp then 1 else 2.

Lemma can_host prev hp : canChoosePeer prev true hp = true → canChoosePeer prev false hp = true.
Proof. unfold canChoosePeer. by case_decide. Qed.

Lemma can_all hp : canChoosePeer ∅ false hp = true.
Proof. unfold canChoosePeer. by rewrite decide_False by set_solver. Qed.

(** The list [l] keeps its peers and their scores, and only the chosen peer changes. *)
Record chosen (l : nat) (op : option nat) (w w' : Peers) : Prop := {
  ch_list l' : l' ≠ l → w_list w' l' = w_list w l';
  ch_heap : heap_now (peerScores (peerHeap_ (w_list w l))) (peerHeap_ (w_list w l)) (peerHeap_ (w_list w' l));
  ch_rest : pl_byHostPort (w_list w' l) = pl_byHostPort (w_list w l) ∧ pl_next (w_list w' l) = pl_next (w_list w l)
    ∧ scoreCalculator (w_list w' l) = scoreCalculator (w_list w l);
  ch_peer p : w_peer w' p = if decide (op = Some p) then p_chosen (w_peer w p) else w_peer w p;
  ch_other : root w' = root w ∧ w_nextPeer w' = w_nextPeer w ∧ w_conn w' = w_conn w
}.

Definition hp_of (w : Peers) (l r : nat) : bytes := hostPort (w_peer w (ps_Peer (score_of w l r))).

Lemma on_heap_ok {A} l (m : hop A) w a ph :
  m (peerHeap_ (w_list w l)) = Ret (a, ph) →
  heap_now (peerScores (peerHeap_ (w_list w l))) (peerHeap_ (w_list w l)) ph →
  ∃ w', on_heap l m w = Ret (a, w') ∧ chosen l None w w' ∧ peerHeap_ (w_list w' l) = ph.
Proof.
  intros E Hn. unfold on_heap. rewrite E. eexists. split; [reflexivity|]. split; [split|]; cbn.
  - intros l' Hl. by rewrite fn_lookup_insert_ne.
  - by rewrite fn_lookup_insert.
  - by rewrite fn_lookup_insert.
  - done.
  - done.
  - by rewrite fn_lookup_insert.
Qed.

Lemma choosePeer_ok l prev avoid rnd w :
  heap_ok (peerHeap_ (w_list w l)) →
  let members := peerScores (peerHeap_ (w_list w l)) in
  ∃ op w', choosePeer l prev avoid rnd w = Ret (op, w') ∧ chosen l op w w'
  ∧ match op with
    | None => ∀ x, x ∈ members → canChoosePeer prev avoid (hp_of w l x) = false
    | Some p => ∃ r, r ∈ members ∧ ps_Peer (score_of w l r) = p ∧ canChoosePeer prev avoid (hp_of w l r) = true
        ∧ ∀ x, x ∈ members → canChoosePeer prev avoid (hp_of w l x) = true →
            score (score_of w l r) <= score (score_of w l x)
    end.
Proof.
  intros Hok members. unfold choosePeer. erewrite gost_bind_run by reflexivity. cbv beta.
  set (can := λ ps, canChoosePeer prev avoid (hostPort (w_peer w (ps_Peer ps)))).
  destruct (choose_ok can ltac:(intros a b E; unfold can; by rewrite E) _ rnd Hok) as (o & ph & E & Hn & Ho).
  destruct (on_heap_ok l _ w _ _ E Hn) as (w1 & E1 & Hch & Hph). erewrite gost_bind_run by exact E1. cbv beta.
  destruct o as [r|].
  - destruct Ho as (Hr & Hab & Hmin). erewrite gost_bind_run by reflexivity. erewrite gost_bind_run by reflexivity.
    assert (Hp : ps_Peer (score_of w1 l r) = ps_Peer (score_of w l r)).
    { unfold score_of. rewrite Hph. by apply (proj2 (proj2 Hn) r). }
    rewrite Hp. eexists _, _. split; [reflexivity|]. split; [|by exists r].
    destruct Hch as [C1 C2 C3 C4 C5]. split; try done. intros p. cbn.
    destruct (decide (p = ps_Peer (score_of w l r))) as [->|Hne].
    + rewrite fn_lookup_insert, decide_True by done. by rewrite C4.
    + rewrite fn_lookup_insert_ne, decide_False by congruence. by rewrite C4.
  - eexists _, _. split; [reflexivity|]. by split.
Qed.

(** Choosing twice in vain. *)
Lemma chosen_trans l op w1 w2 w3 : chosen l None w1 w2 → chosen l op w2 w3 → chosen l op w1 w3.
Proof.
  intros [A1 (H1 & P1 & S1) (A3 & A4 & A5) A6 (A7 & A8 & A9)] [B1 (H2 & P2 & S2) (B3 & B4 & B5) B6 (B7 & B8 & B9)].
  split.
  - intros l' Hl. by rewrite B1, A1.
  - split_and!; [done|by rewrite P2|by etransitivity].
  - split_and!; congruence.
  - intros p. rewrite B6, A6. done.
  - split_and!; congruence.
Qed.

Lemma chosen_members l op w w' x :
  chosen l op w w' → x ∈ peerScores (peerHeap_ (w_list w' l)) ↔ x ∈ peerScores (peerHeap_ (w_list w l)).
Proof. intros H. by rewrite (proj1 (proj2 (ch_heap _ _ _ _ H))). Qed.

Lemma chosen_score l op w w' r :
  chosen l op w w' → score (score_of w' l r) = score (score_of w l r) ∧ ps_Peer (score_of w' l r) = ps_Peer (score_of w l r).
Proof. intros H. apply (proj2 (proj2 (ch_heap _ _ _ _ H)) r). Qed.

Lemma chosen_hp l op w w' r : chosen l op w w' → hp_of w' l r = hp_of w l r.
Proof.
  intros H. unfold hp_of. destruct (chosen_score l op w w' r H) as [_ ->]. rewrite (ch_peer _ _ _ _ H). by case_decide.
Qed.

Definition best (prev : gset bytes) (w : Peers) (l p : nat) : Prop :=
  ∃ r, r ∈ peerScores (peerHeap_ (w_list w l)) ∧ ps_Peer (score_of w l r) = p
  ∧ ∀ x, x ∈ peerScores (peerHeap_ (w_list w l)) →
      tier prev (hp_of w l r) < tier prev (hp_of w l x)
      ∨ tier prev (hp_of w l r) = tier prev (hp_of w l x) ∧ score (score_of w l r) <= score (score_of w l x).

Lemma Get_spec w l prev rnd :
  heap_ok (peerHeap_ (w_list w l)) →
  ∃ res w', run (pl_Get l prev rnd) w = Ret (res, w')
  ∧ match res with
    | inl p => chosen l (Some p) w w' ∧ best prev w l p
    | inr e => w' = w ∧ e = ErrNoPeers ∧ peerScores (peerHeap_ (w_list w l)) = []
    end.
Proof.
  intros Hok. set (members := peerScores (peerHeap_ (w_list w l))).
  unfold pl_Get. rewrite run_bind. unfold mbind at 1, gost_bind at 1. cbn [run atomic_go]. unfold GetNew.
  erewrite gost_bind_run by reflexivity. cbv beta. case_decide as Hlen.
  { unfold mret, gost_ret. cbn. eexists _, _. split; [reflexivity|]. split_and!; try done.
    unfold pl_Len, Len in Hlen. by destruct (peerScores (peerHeap_ (w_list w l))). }
  destruct (choosePeer_ok l prev true rnd w Hok) as (op1 & w1 & E1 & C1 & H1).
  erewrite gost_bind_run by exact E1. cbv beta. destruct op1 as [p|].
  { eexists _, _. split; [reflexivity|]. split; [done|]. destruct H1 as (r & Hr & Hp & Hcan & Hmin).
    exists r. split_and!; [done..|]. intros x Hx. unfold tier. rewrite Hcan.
    destruct (canChoosePeer prev true (hp_of w l x)) eqn:Hx'; [right; split; [done|by apply Hmin]|left].
    destruct (canChoosePeer prev false (hp_of w l x)); lia. }
  destruct (choosePeer_ok l prev false rnd w1) as (op2 & w2 & E2 & C2 & H2); [apply C1|].
  erewrite gost_bind_run by exact E2. cbv beta. pose proof (chosen_trans l op2 w w1 w2 C1 C2) as C12.
  assert (Hscore : ∀ x, score (score_of w1 l x) = score (score_of w l x)) by (intros x; apply (chosen_score l _ w w1 x C1)).
  assert (Hhp : ∀ x, hp_of w1 l x = hp_of w l x) by (intros x; by apply (chosen_hp l None)).
  destruct op2 as [p|].
  { eexists _, _. split; [reflexivity|]. split; [done|]. destruct H2 as (r & Hr & Hp & Hcan & Hmin).
    rewrite (chosen_members l None w w1 r C1) in Hr. rewrite Hhp in Hcan.
    exists r. split_and!; [done|rewrite <- Hp; symmetry; by apply (chosen_score l None)|].
    intros x Hx. unfold tier. rewrite (H1 r Hr), (H1 x Hx), Hcan.
    destruct (canChoosePeer prev false (hp_of w l x)) eqn:Hx'; [right|left; lia]. split; [done|].
    rewrite <- !Hscore. apply Hmin; [by apply (chosen_members l None w w1 x C1)|by rewrite Hhp]. }
  cbv beta iota. unfold mret at 1, gost_ret at 1. cbv beta iota.
  rewrite decide_True by done. rewrite run_bind. unfold mbind at 1, gost_bind at 1. cbn [run atomic_go].
  destruct (choosePeer_ok l ∅ false rnd w2) as (op3 & w3 & E3 & C3 & H3); [apply C12|]. rewrite E3.
  pose proof (chosen_trans l op3 w w2 w3 C12 C3) as C. destruct op3 as [p|].
  - eexists _, _. split; [reflexivity|]. split; [done|]. destruct H3 as (r & Hr & Hp & _ & Hmin).
    rewrite (chosen_members l None w w2 r C12) in Hr.
    exists r. split_and!; [done|rewrite <- Hp; symmetry; by apply (chosen_score l None)|].
    assert (Htier : ∀ x, x ∈ members → tier prev (hp_of w l x) = 2).
    { intros x Hx. unfold tier. rewrite (H1 x Hx). rewrite <- (Hhp x).
      rewrite (H2 x) by (by apply (chosen_members l None w w1 x C1)). done. }
    intros x Hx. rewrite !Htier by done. right. split; [done|].
    destruct (chosen_score l None w w2 r C12) as [<- _], (chosen_score l None w w2 x C12) as [<- _].
    apply Hmin; [by apply (chosen_members l None w w2 x C12)|apply can_all].
  - exfalso. apply Hlen. unfold pl_Len, Len. destruct (peerScores (peerHeap_ (w_list w l))) as [|x rest] eqn:El; [done|].
    exfalso. assert (Hx : x ∈ peerScores (peerHeap_ (w_list w2 l))).
    { apply (chosen_members l None w w2 x C12). rewrite El. by left. }
    specialize (H3 x Hx). by rewrite can_all in H3.
Qed.

(** C26: PeerList.Get chooses the best peer.  Get fails only when the list is empty.
    Otherwise it returns a peer of the list that is least, first by how it has been
    selected before (peers on new hosts, then new peers, then the others), and then
    by score; the list keeps its peers and their scores, and the chosen peer alone is
    counted as chosen once more. *)
Theorem Get_best w l prev rnd :
  heap_ok (peerHeap_ (w_list w l)) →
  ∃ res w', run (pl_Get l prev rnd) w = Ret (res, w')
  ∧ match res with
    | inl p => chosen l (Some p) w w' ∧ best prev w l p
    | inr e => w' = w ∧ e = ErrNoPeers ∧ peerScores (peerHeap_ (w_list w l)) = []
    end.
Proof. apply Get_spec. Qed.
