(* ===== verification/PeerShared.v ===== *)
(** * Sharing peers

    The invariant that ties the peer lists of a channel to its root list, kept by every
    method that runs alone, and a schedule of two methods that breaks it. *)

From stdpp Require Import functions.
From S2P Require Import Prelude Conc Errors Retry Buffer Checksum Frame Messages Fragment Mex ReqRes Health Connection PeerHeap Peer PeerCorrect.

(** ** Counting lists *)

Fixpoint sum_upto (n : nat) (f : nat → Z) : Z :=
  match n with O => 0 | S n => sum_upto n f + f n end.

Lemma sum_upto_ext n f g : (∀ k, (k < n)%nat → f k = g k) → sum_upto n f = sum_upto n g.
Proof. induction n as [|n IH]; intros H; cbn; [done|]. rewrite IH, H; auto. Qed.

Lemma sum_upto_change n f g l :
  (l < n)%nat → (∀ k, k ≠ l → f k = g k) → sum_upto n f = sum_upto n g + f l - g l.
Proof.
  intros Hl H. induction n as [|n IH]; [lia|]. cbn. destruct (decide (l = n)) as [->|Hne].
  - rewrite (sum_upto_ext n f g); [lia|]. intros k Hk. apply H. lia.
  - rewrite IH, (H n) by lia. lia.
Qed.

Lemma sum_upto_nonneg n f l : (∀ k, 0 <= f k) → (l < n)%nat → f l <= sum_upto n f.
Proof.
  intros Hf. assert (H0 : ∀ m, 0 <= sum_upto m f) by (induction m; cbn; [done|specialize (Hf m); lia]).
  induction n as [|n IH]; intros Hl; [lia|]. cbn. destruct (decide (l = n)) as [->|].
  - specialize (H0 n). lia.
  - specialize (Hf n). assert (l < n)%nat by lia. specialize (IH H). lia.
Qed.

Lemma sum_upto_le n f : (∀ k, 0 <= f k <= 1) → 0 <= sum_upto n f <= Z.of_nat n.
Proof. intros H. induction n as [|n IH]; cbn; [lia|]. specialize (H n). lia. Qed.

Lemma sum_upto_zero n : sum_upto n (λ _, 0) = 0.
Proof. induction n as [|n IH]; cbn; [done|]. by rewrite IH. Qed.

(** ** The lists share the root's peers *)

(** The peer of a host:port in a list. *)
Definition listed (w : Peers) (l : nat) (hp : bytes) : option nat :=
  (λ r, ps_Peer (score_of w l r)) <$> pl_byHostPort (w_list w l) !! hp.

Definition holds (w : Peers) (p l : nat) : Z :=
  if decide (listed w l (hostPort (w_peer w p)) = Some p) then 1 else 0.

(** The first [N] lists are the lists of the channel. *)
Record peers_ok (N : nat) (w : Peers) : Prop := {
  ok_root hp p : root w !! hp = Some p → (p < w_nextPeer w)%nat ∧ hostPort (w_peer w p) = hp;
  ok_heap l : heap_ok (peerHeap_ (w_list w l));
  ok_map l hp r : pl_byHostPort (w_list w l) !! hp = Some r →
    r ∈ peerScores (peerHeap_ (w_list w l)) ∧ (r < pl_next (w_list w l))%nat ∧ (l < N)%nat;
  ok_members l r : r ∈ peerScores (peerHeap_ (w_list w l)) → pl_byHostPort (w_list w l) !! hp_of w l r = Some r;
  ok_shared l hp p : listed w l hp = Some p → root w !! hp = Some p;
  ok_count p : scCount (w_peer w p) = sum_upto N (holds w p);
  ok_blank : root w !! [] = None
}.

Lemma holds_range w p l : 0 <= holds w p l <= 1.
Proof. unfold holds. case_decide; lia. Qed.

(** Changes of connections, of chosen counts, and heaps that move and rescore their
    peers. *)
Record peers_same (w w' : Peers) : Prop := {
  sm_root : root w' = root w;
  sm_next : w_nextPeer w' = w_nextPeer w;
  sm_peer p : hostPort (w_peer w' p) = hostPort (w_peer w p) ∧ scCount (w_peer w' p) = scCount (w_peer w p);
  sm_map l : pl_byHostPort (w_list w' l) = pl_byHostPort (w_list w l) ∧ pl_next (w_list w' l) = pl_next (w_list w l);
  sm_heap l : heap_ok (peerHeap_ (w_list w l)) → heap_ok (peerHeap_ (w_list w' l))
    ∧ peerScores (peerHeap_ (w_list w' l)) ≡ₚ peerScores (peerHeap_ (w_list w l));
  sm_peer_of l r : heap_ok (peerHeap_ (w_list w l)) → ps_Peer (score_of w' l r) = ps_Peer (score_of w l r)
}.

Lemma peers_ok_same N w w' : peers_ok N w → peers_same w w' → peers_ok N w'.
Proof.
  intros [K1 K2 K3 K4 K5 K6 K7] [S1 S2 S3 S4 S5 S6].
  assert (Hl : ∀ l hp, listed w' l hp = listed w l hp).
  { intros l hp. unfold listed. rewrite (proj1 (S4 l)).
    destruct (pl_byHostPort (w_list w l) !! hp) as [r|]; [|done]. cbn. by rewrite S6. }
  split.
  - intros hp p. rewrite S1, S2, (proj1 (S3 p)). apply K1.
  - intros l. by apply S5.
  - intros l hp r. rewrite (proj1 (S4 l)), (proj2 (S4 l)), (proj2 (S5 l (K2 l))). apply K3.
  - intros l r. rewrite (proj2 (S5 l (K2 l))), (proj1 (S4 l)). unfold hp_of. rewrite S6, (proj1 (S3 _)) by done. apply K4.
  - intros l hp p. rewrite Hl, S1. apply K5.
  - intros p. rewrite (proj2 (S3 p)), K6. apply sum_upto_ext. intros l _. unfold holds. by rewrite Hl, (proj1 (S3 p)).
  - by rewrite S1.
Qed.

Lemma chosen_same l op w w' : chosen l op w w' → peers_same w w'.
Proof.
  intros C. pose proof C as [C1 (C2 & C2' & C2'') (C3 & C3' & _) C4 (C5 & C6 & C7)]. split; try done.
  - intros p. rewrite C4. by case_decide.
  - intros l'. destruct (decide (l' = l)) as [->|Hne]; [done|by rewrite C1].
  - intros l'. destruct (decide (l' = l)) as [->|Hne]; [done|by rewrite C1].
  - intros l' r _. destruct (decide (l' = l)) as [->|Hne]; [apply (C2'' r)|]. unfold score_of. by rewrite C1.
Qed.

Lemma peer_do_same p f w :
  (∀ x, hostPort (f x) = hostPort x ∧ scCount (f x) = scCount x) → peers_same w (peer_do p f w).
Proof.
  intros H. split; try done. intros q. cbn. destruct (decide (q = p)) as [->|Hne].
  - rewrite fn_lookup_insert. apply H.
  - by rewrite fn_lookup_insert_ne.
Qed.

Lemma updatePeer_same l r s w :
  heap_ok (peerHeap_ (w_list w l)) →
  ∃ w', pl_updatePeer l r s w = Ret (tt, w') ∧ peers_same w w'.
Proof.
  intros Hok. unfold pl_updatePeer. erewrite gost_bind_run by reflexivity. cbv beta. case_decide as E.
  { exists w. split; [done|]. by split. }
  destruct (updatePeer_ok (peerHeap_ (w_list w l)) r s Hok) as (ph & E1 & H1 & P1 & S1).
  unfold on_heap. erewrite gost_bind_run by reflexivity. cbv beta. rewrite E1.
  eexists. split; [reflexivity|]. split; try done; cbn.
  - intros l'. destruct (decide (l' = l)) as [->|Hne]; [by rewrite fn_lookup_insert|by rewrite fn_lookup_insert_ne].
  - intros l'. destruct (decide (l' = l)) as [->|Hne]; [by rewrite fn_lookup_insert|by rewrite fn_lookup_insert_ne].
  - intros l' x _. unfold score_of. cbn.
    destruct (decide (l' = l)) as [->|Hne]; [|by rewrite fn_lookup_insert_ne]. rewrite fn_lookup_insert. apply S1.
Qed.

(** The root list creates a peer. *)
Lemma root_create_ok N hp w :
  peers_ok N w → hp ≠ [] →
  ∃ p w', root_create hp w = Ret (p, w') ∧ peers_ok N w' ∧ root w' !! hp = Some p
  ∧ w_list w' = w_list w ∧ w_conn w' = w_conn w.
Proof.
  intros Hok Hhp. unfold root_create. destruct (root w !! hp) as [p|] eqn:E; [by exists p, w|].
  unfold newPeer. rewrite decide_False by done. eexists _, _. split; [reflexivity|].
  set (x := mkPeer hp 0 [] [] 0). set (w' := set_root _ _). set (q := w_nextPeer w).
  destruct Hok as [K1 K2 K3 K4 K5 K6 K7].
  assert (Hne : ∀ p, p ≠ q → w_peer w' p = w_peer w p) by (intros p Hp; unfold w'; cbn; by rewrite fn_lookup_insert_ne).
  assert (Hnew : w_peer w' q = x) by (unfold w'; cbn; by rewrite fn_lookup_insert).
  assert (Hlist : ∀ l hp' p, listed w l hp' = Some p → p ≠ q).
  { intros l hp' p Hl. apply K5, K1 in Hl as [Hlt _]. unfold q. lia. }
  split_and!; [split| |done|done].
  - intros hp' p. change (root w') with (<[hp:=q]> (root w)). change (w_nextPeer w') with (S q).
    rewrite lookup_insert. case_decide as Eh.
    + intros [= <-]. subst hp'. rewrite Hnew. split; [lia|done].
    + intros Hr. destruct (K1 hp' p Hr) as [Hlt Hp]. rewrite Hne by (unfold q; lia). split; [unfold q; lia|done].
  - apply K2.
  - apply K3.
  - intros l r Hr. unfold hp_of. change (score_of w' l r) with (score_of w l r).
    rewrite Hne; [by apply K4|]. apply (Hlist l (hp_of w l r)). unfold listed.
    change (w_list w' l) with (w_list w l) in Hr. by rewrite (K4 l r Hr).
  - intros l hp' p Hl. change (listed w' l hp') with (listed w l hp') in Hl. cbn. rewrite lookup_insert.
    apply K5 in Hl. case_decide as Eh; [congruence|done].
  - intros p. destruct (decide (p = q)) as [->|Hp].
    + rewrite Hnew. cbn [x scCount]. symmetry. rewrite (sum_upto_ext N _ (λ _, 0)); [apply sum_upto_zero|].
      intros l _. unfold holds. rewrite decide_False; [done|]. intros Hl.
      change (listed w' l (hostPort (w_peer w' q))) with (listed w l (hostPort (w_peer w' q))) in Hl.
      by apply Hlist in Hl.
    + rewrite Hne, K6 by done. apply sum_upto_ext. intros l _. unfold holds. by rewrite Hne by done.
  - cbn. by rewrite lookup_insert_ne.
  - cbn. by rewrite lookup_insert_eq.
Qed.

(** The root list forgets a peer that no list holds. *)
Lemma root_delete_ok N hp p w :
  peers_ok N w → root w !! hp = Some p → scCount (w_peer w p) = 0 → peers_ok N (set_root (delete hp (root w)) w).
Proof.
  intros [K1 K2 K3 K4 K5 K6 K7] Hp Hsc. split; try done.
  - intros hp' q. cbn. intros [_ Hq]%lookup_delete_Some. by apply K1.
  - intros l hp' q Hl. cbn. change (listed w l hp' = Some q) in Hl. pose proof (K5 l hp' q Hl) as Hr.
    apply lookup_delete_Some. split; [|done]. intros ->. assert (q = p) as -> by congruence.
    rewrite K6 in Hsc. destruct (K1 hp' p Hp) as [_ Ehp].
    assert (Hlt : (l < N)%nat).
    { unfold listed in Hl. destruct (pl_byHostPort (w_list w l) !! hp') eqn:E; [|done]. by apply K3 in E as (_ & _ & ?). }
    pose proof (sum_upto_nonneg N (holds w p) l (λ k, proj1 (holds_range w p k)) Hlt) as Hle.
    unfold holds in Hle at 1. rewrite Ehp, decide_True in Hle by done. lia.
  - cbn. apply lookup_delete_None. by right.
Qed.

(** ** Changing one list

    [l] gets the peer [p], or loses it. *)

Definition bump (d : Z) (p : nat) (w : Peers) : Peers := peer_do p (λ x, p_set_scCount (scCount x + d) x) w.

Lemma addSC_bump N p w : peers_ok N w → Z.of_nat N < 2^32 - 1 → addSC p w = bump 1 p w.
Proof.
  intros Hok HN. unfold addSC, bump, peer_do. rewrite (ok_count _ _ Hok).
  pose proof (sum_upto_le N _ (holds_range w p)). by rewrite uint32_small by lia.
Qed.

Lemma delSC_bump N p w l : peers_ok N w → Z.of_nat N < 2^32 - 1 → (l < N)%nat → holds w p l = 1 → delSC p w = bump (-1) p w.
Proof.
  intros Hok HN Hl H1. unfold delSC, bump, peer_do. rewrite (ok_count _ _ Hok).
  pose proof (sum_upto_le N _ (holds_range w p)).
  pose proof (sum_upto_nonneg N (holds w p) l (λ k, proj1 (holds_range w p k)) Hl).
  rewrite uint32_small by lia. by replace (sum_upto N (holds w p) - 1) with (sum_upto N (holds w p) + -1) by lia.
Qed.

(** Everything but the list [l] and the count of [p] is as before, and the list now
    has the entries of [m]. *)
Record list_changed (l p : nat) (d : Z) (w w' : Peers) : Prop := {
  lc_root : root w' = root w;
  lc_next : w_nextPeer w' = w_nextPeer w;
  lc_host q : hostPort (w_peer w' q) = hostPort (w_peer w q);
  lc_count q : scCount (w_peer w' q) = scCount (w_peer w q) + if decide (q = p) then d else 0;
  lc_list l' : l' ≠ l → w_list w' l' = w_list w l'
}.

Lemma bump_changed l p d w x : list_changed l p d w (set_list l x (bump d p w)).
Proof.
  split; try done.
  - intros q. cbn. destruct (decide (q = p)) as [->|]; [by rewrite fn_lookup_insert|by rewrite fn_lookup_insert_ne].
  - intros q. cbn. destruct (decide (q = p)) as [->|]; [by rewrite fn_lookup_insert|rewrite fn_lookup_insert_ne by done; lia].
  - intros l' Hl. cbn. by rewrite fn_lookup_insert_ne.
Qed.

(** The invariant after a change of the list [l], from what the list now holds. *)
Lemma list_changed_ok N l p d w w' :
  peers_ok N w → list_changed l p d w w' → (l < N)%nat →
  heap_ok (peerHeap_ (w_list w' l)) →
  (∀ hp r, pl_byHostPort (w_list w' l) !! hp = Some r →
     r ∈ peerScores (peerHeap_ (w_list w' l)) ∧ (r < pl_next (w_list w' l))%nat) →
  (∀ r, r ∈ peerScores (peerHeap_ (w_list w' l)) → pl_byHostPort (w_list w' l) !! hp_of w' l r = Some r) →
  (∀ hp q, listed w' l hp = Some q → root w !! hp = Some q) →
  (∀ q, holds w' q l = holds w q l + if decide (q = p) then d else 0) →
  peers_ok N w'.
Proof.
  intros [K1 K2 K3 K4 K5 K6 K7] [C1 C2 C3 C4 C5] Hl Hheap Hmap Hmem Hsh Hholds.
  assert (Hsame : ∀ l' r, l' ≠ l → hp_of w' l' r = hp_of w l' r).
  { intros l' r Hne. unfold hp_of, score_of. by rewrite C5, C3. }
  assert (Hlst : ∀ l' hp, l' ≠ l → listed w' l' hp = listed w l' hp).
  { intros l' hp Hne. unfold listed, score_of. by rewrite C5. }
  split.
  - intros hp q. rewrite C1, C2, C3. apply K1.
  - intros l'. destruct (decide (l' = l)) as [->|Hne]; [done|by rewrite C5].
  - intros l' hp r. destruct (decide (l' = l)) as [->|Hne]; [|rewrite C5 by done; apply K3].
    intros H. by destruct (Hmap hp r H).
  - intros l' r. destruct (decide (l' = l)) as [->|Hne]; [apply Hmem|]. rewrite Hsame, C5 by done. apply K4.
  - intros l' hp q. rewrite C1. destruct (decide (l' = l)) as [->|Hne]; [apply Hsh|]. rewrite Hlst by done. apply K5.
  - intros q. rewrite C4, K6, (sum_upto_change N (holds w' q) (holds w q) l); [rewrite Hholds; lia|done|].
    intros k Hk. unfold holds. by rewrite Hlst, C3.
  - by rewrite C1.
Qed.

Lemma set_list_changed l p d w w' x : list_changed l p d w w' → list_changed l p d w (set_list l x w').
Proof.
  intros [C1 C2 C3 C4 C5]. split; try done. intros l' Hl. cbn. rewrite fn_lookup_insert_ne by done. by apply C5.
Qed.

Lemma heap_ok_fresh ph r p s :
  heap_ok ph → r ∉ peerScores ph →
  heap_ok (mkPeerHeap (peerScores ph) (ph_order ph) (<[r := newPeerScore p s]> (ph_mem ph))).
Proof.
  intros [[Hnd Hix] Ho Ha] Hr.
  assert (Hne : ∀ k x, at_ (peerScores ph) k = Some x → x ≠ r) by (by intros k x Hx%at_elem ->).
  split; [split|..]; cbn; [done| | |].
  - intros i x Hx. rewrite fn_lookup_insert_ne by (symmetry; by eapply Hne). by apply Hix.
  - intros k Hk a b Ha' Hb'. unfold by_score. cbn.
    rewrite !fn_lookup_insert_ne by (symmetry; by eapply Hne). by apply (Ho k Hk).
  - intros x Hx. destruct (decide (x = r)) as [->|Hxr]; [by rewrite fn_lookup_insert|].
    rewrite fn_lookup_insert_ne by done. by apply Ha.
Qed.

(** The entry of a list for [hp]. *)
Lemma addPeerScore_ok N l p hp rnd rnd' w :
  peers_ok N w → Z.of_nat N < 2^32 - 1 → (l < N)%nat → root w !! hp = Some p →
  pl_byHostPort (w_list w l) !! hp = None →
  ∃ w', addPeerScore l p hp rnd rnd' w = Ret (tt, w') ∧ peers_ok N w' ∧ listed w' l hp = Some p
  ∧ list_changed l p 1 w w'.
Proof.
  intros Hok HN Hl Hroot Hnone. unfold addPeerScore. rewrite (addSC_bump N) by done.
  generalize (GetScore (scoreCalculator (w_list (bump 1 p w) l)) (w_conn (bump 1 p w)) (w_peer (bump 1 p w) p)). intros s.
  set (x := w_list w l) in *. set (r := pl_next x).
  pose proof (ok_heap _ _ Hok l) as Hheap. fold x in Hheap.
  assert (Hr : r ∉ peerScores (peerHeap_ x)).
  { intros Hin%(ok_members _ _ Hok l r). apply (ok_map _ _ Hok) in Hin as (_ & Hlt & _). fold x r in Hlt. lia. }
  unfold register. change (w_list (bump 1 p w) l) with x. fold r.
  set (ph1 := mkPeerHeap _ _ _). set (w1 := set_list l _ _).
  destruct (addPeer_ok ph1 r rnd rnd') as (ph' & E & Hok' & P' & S'); [by apply heap_ok_fresh|done|].
  unfold on_heap. assert (Ew : w_list w1 l = mkPeerList (<[hp := r]> (pl_byHostPort x)) ph1 (S r) (scoreCalculator x))
    by (unfold w1; cbn; by rewrite fn_lookup_insert).
  rewrite Ew. cbn [peerHeap_ pl_byHostPort pl_next scoreCalculator]. rewrite E.
  set (x' := mkPeerList _ ph' _ _). eexists. split; [reflexivity|].
  assert (Hlc : list_changed l p 1 w (set_list l x' w1)) by apply set_list_changed, bump_changed.
  assert (Hx' : w_list (set_list l x' w1) l = x') by (cbn; by rewrite fn_lookup_insert).
  assert (Hps : ∀ y, ps_Peer (score_of (set_list l x' w1) l y) = if decide (y = r) then p else ps_Peer (score_of w l y)).
  { intros y. unfold score_of. rewrite Hx'. cbn. rewrite (proj2 (S' y)). cbn.
    case_decide as Ey; [by rewrite Ey, fn_lookup_insert|by rewrite fn_lookup_insert_ne]. }
  destruct (ok_root _ _ Hok hp p Hroot) as [Hp Hhp].
  assert (Hlst : ∀ hp', listed (set_list l x' w1) l hp' = if decide (hp = hp') then Some p else listed w l hp').
  { intros hp'. unfold listed at 1. rewrite Hx'. cbn [x' pl_byHostPort]. rewrite lookup_insert. case_decide as Eh; cbn.
    - by rewrite Hps, decide_True.
    - unfold listed. fold x. destruct (pl_byHostPort x !! hp') as [y|] eqn:Ey; [|done]. cbn. rewrite Hps, decide_False; [done|].
      intros ->. apply (ok_map _ _ Hok) in Ey as (_ & Hlt & _). fold x r in Hlt. lia. }
  split_and!; [|by rewrite Hlst, decide_True|done]. clearbody w1. apply (list_changed_ok N l p 1 w); try done.
  - by rewrite Hx'.
  - rewrite Hx'. cbn. intros hp' y. rewrite P'. cbn. rewrite lookup_insert. case_decide as Eh.
    + intros [= <-]. split; [by left|lia].
    + intros Hy. apply (ok_map _ _ Hok) in Hy as (Hin & Hlt & _). fold x r in Hlt. split; [by right|lia].
  - rewrite Hx'. cbn [x' peerHeap_ pl_byHostPort]. intros y. rewrite P'. cbn [ph1 peerScores]. unfold hp_of. rewrite Hps, (lc_host _ _ _ _ _ Hlc).
    intros [->|Hy]%elem_of_cons.
    + rewrite decide_True, Hhp by done. by rewrite lookup_insert_eq.
    + rewrite decide_False by (by intros ->). pose proof (ok_members _ _ Hok l y Hy) as Hy'. fold x in Hy'.
      rewrite lookup_insert_ne; [done|]. intros Eh. unfold hp_of in Hy'. rewrite <- Eh in Hy'. congruence.
  - intros hp' q. rewrite Hlst. case_decide as Eh; [intros [= <-]; by rewrite <- Eh|apply (ok_shared _ _ Hok)].
  - intros q. unfold holds. rewrite Hlst, (lc_host _ _ _ _ _ Hlc).
    assert (Hnl : listed w l hp = None) by (unfold listed; fold x; by rewrite Hnone).
    destruct (decide (hp = hostPort (w_peer w q))) as [Eh|Eh].
    + rewrite <- Eh, Hnl, (decide_False (P := None = Some q)) by done.
      destruct (decide (q = p)) as [->|Hq]; [by rewrite decide_True|by rewrite decide_False by congruence].
    + rewrite (decide_False (P := q = p)) by congruence. lia.
Qed.

Lemma pl_Remove_ok N l hp w :
  peers_ok N w → Z.of_nat N < 2^32 - 1 →
  ∃ o w', run (pl_Remove l hp) w = Ret (o, w') ∧ peers_ok N w' ∧ listed w' l hp = None
  ∧ match listed w l hp with
    | None => o = Some ErrPeerNotFound ∧ w' = w
    | Some p => o = None ∧ list_changed l p (-1) w w'
    end.
Proof.
  intros Hok HN. unfold pl_Remove, atomic_go. cbn [run]. set (x := w_list w l). unfold listed at 2. fold x.
  destruct (pl_byHostPort x !! hp) as [r|] eqn:Er; cbn [fmap option_fmap option_map].
  2: { eexists _, _. split; [reflexivity|]. split_and!; try done. unfold listed. fold x. by rewrite Er. }
  set (p := ps_Peer (score_of w l r)).
  destruct (ok_map _ _ Hok l hp r Er) as (Hin & Hlt & Hl). fold x in Hin.
  assert (Hp : listed w l hp = Some p) by (unfold listed; fold x; by rewrite Er).
  pose proof (ok_shared _ _ Hok l hp p Hp) as Hroot. destruct (ok_root _ _ Hok hp p Hroot) as [_ Hhp].
  assert (Hh : holds w p l = 1) by (unfold holds; by rewrite Hhp, decide_True).
  rewrite (delSC_bump N p w l) by done. set (w1 := set_list l _ _).
  destruct (ph_removePeer_ok (peerHeap_ x) r (ok_heap _ _ Hok l) Hin) as (ph' & E & P & Hok' & _ & S').
  unfold on_heap. assert (Ew : w_list w1 l = mkPeerList (delete hp (pl_byHostPort x)) (peerHeap_ x) (pl_next x) (scoreCalculator x))
    by (unfold w1; cbn; by rewrite fn_lookup_insert).
  rewrite Ew. cbn [peerHeap_ pl_byHostPort pl_next scoreCalculator]. rewrite E.
  set (x' := mkPeerList _ ph' _ _). eexists _, _. split; [reflexivity|].
  assert (Hlc : list_changed l p (-1) w (set_list l x' w1)) by apply set_list_changed, bump_changed.
  assert (Hx' : w_list (set_list l x' w1) l = x') by (cbn; by rewrite fn_lookup_insert).
  assert (Hps : ∀ y, ps_Peer (score_of (set_list l x' w1) l y) = ps_Peer (score_of w l y)).
  { intros y. unfold score_of. rewrite Hx'. apply S'. }
  assert (Hlst : ∀ hp', listed (set_list l x' w1) l hp' = if decide (hp = hp') then None else listed w l hp').
  { intros hp'. unfold listed at 1. rewrite Hx'. cbn [x' pl_byHostPort]. rewrite lookup_delete. case_decide as Eh; [done|].
    unfold listed. fold x. destruct (pl_byHostPort x !! hp') as [y|]; [|done]. cbn. by rewrite Hps. }
  assert (Hnd : r ∉ peerScores ph').
  { pose proof (wf_nodup _ (hp_wf _ (ok_heap _ _ Hok l))) as Hnd. fold x in Hnd. rewrite P in Hnd. by apply NoDup_cons in Hnd as [? _]. }
  split_and!; [|by rewrite Hlst, decide_True|done..]. clearbody w1. apply (list_changed_ok N l p (-1) w); try done.
  - by rewrite Hx'.
  - rewrite Hx'. cbn. intros hp' y [Hne Hy]%lookup_delete_Some.
    pose proof (ok_map _ _ Hok l hp' y Hy) as (Hiny & Hlty & _). fold x in Hiny, Hlty. rewrite P in Hiny. split; [|done].
    apply elem_of_cons in Hiny as [->|Hy']; [|done]. exfalso. apply Hne.
    pose proof (ok_members _ _ Hok l r Hin) as Hm.
    assert (Hlp : listed w l hp' = Some p) by (unfold listed; fold x; by rewrite Hy).
    apply (ok_shared _ _ Hok), (ok_root _ _ Hok) in Hlp as [_ Hq]. congruence.
  - rewrite Hx'. cbn [x' peerHeap_ pl_byHostPort]. intros y Hy. unfold hp_of. rewrite Hps, (lc_host _ _ _ _ _ Hlc).
    assert (Hy' : y ∈ peerScores (peerHeap_ x)) by (rewrite P; by right).
    pose proof (ok_members _ _ Hok l y Hy') as Hm. fold x in Hm. rewrite lookup_delete_ne; [done|].
    intros Eh. unfold hp_of in Hm. rewrite <- Eh, Er in Hm. congruence.
  - intros hp' q. rewrite Hlst. case_decide as Eh; [done|apply (ok_shared _ _ Hok)].
  - intros q. unfold holds. rewrite Hlst, (lc_host _ _ _ _ _ Hlc). destruct (decide (hp = hostPort (w_peer w q))) as [Eh|Eh].
    + rewrite <- Eh, Hp, (decide_False (P := None = Some q)) by done.
      destruct (decide (q = p)) as [->|Hq]; [by rewrite decide_True|by rewrite decide_False by congruence].
    + rewrite (decide_False (P := q = p)) by congruence. lia.
Qed.

(** ** Methods *)

Lemma run_atomic_go {S A} (m : GO S A) s a s' : m s = Ret (a, s') → run (atomic_go m) s = Ret (a, s').
Proof. intros E. cbn. by rewrite E. Qed.

(** A method that, run alone, returns and keeps the invariant. *)
Definition keeps_peers {A} (N : nat) (m : pprog A) (w : Peers) : Prop :=
  ∃ a w', run m w = Ret (a, w') ∧ peers_ok N w'.

Lemma keeps_bind {A B} N (m : pprog A) (k : A → pprog B) w :
  (∃ a w', run m w = Ret (a, w') ∧ peers_ok N w' ∧ keeps_peers N (k a) w') → keeps_peers N (m ≫= k) w.
Proof.
  intros (a & w1 & E & _ & b & w2 & E2 & H). exists b, w2. split; [|done]. by rewrite (run_bind_ret _ _ _ _ _ E).
Qed.

Lemma keeps_ret {A} N (a : A) w : peers_ok N w → keeps_peers N (mret a) w.
Proof. intros H. by exists a, w. Qed.

(** Reading the world. *)
Lemma keeps_read {A B} N (f : Peers → A) (k : A → pprog B) w :
  keeps_peers N (k (f w)) w → keeps_peers N (atomic (λ w, (f w, w)) ≫= k) w.
Proof. intros (b & w' & E & H). exists b, w'. split; [|done]. by rewrite run_atomic. Qed.

Lemma root_Add_ok N hp w :
  peers_ok N w → hp ≠ [] →
  ∃ p w', run (root_Add hp) w = Ret (p, w') ∧ peers_ok N w' ∧ root w' !! hp = Some p ∧ w_list w' = w_list w.
Proof.
  intros Hok Hhp. unfold root_Add, root_Get. rewrite run_atomic. cbn [fst snd].
  destruct (root w !! hp) as [p|] eqn:E; [by exists p, w|].
  destruct (root_create_ok N hp w Hok Hhp) as (p & w' & E' & Hok' & Hr & Hl & _).
  exists p, w'. by rewrite (run_atomic_go _ _ _ _ E').
Qed.

Lemma pl_Add_ok N l hp rnd rnd' w :
  peers_ok N w → Z.of_nat N < 2^32 - 1 → (l < N)%nat → hp ≠ [] →
  ∃ p w', run (pl_Add l hp rnd rnd') w = Ret (p, w') ∧ peers_ok N w' ∧ listed w' l hp = Some p ∧ root w' !! hp = Some p.
Proof.
  intros Hok HN Hl Hhp. unfold pl_Add, exists_. rewrite run_atomic. cbn [fst snd].
  destruct (pl_byHostPort (w_list w l) !! hp) as [r|] eqn:Er.
  { eexists _, w. split; [reflexivity|]. cbn. assert (Hlst : listed w l hp = Some (ps_Peer (score_of w l r))).
    { unfold listed. by rewrite Er. }
    split_and!; [done..|by apply (ok_shared _ _ Hok l)]. }
  rewrite run_atomic. cbn [fst snd]. rewrite Er.
  destruct (root_Add_ok N hp w Hok Hhp) as (p & w1 & E1 & Hok1 & Hr1 & Hl1). rewrite (run_bind_ret _ _ _ _ _ E1).
  destruct (addPeerScore_ok N l p hp rnd rnd' w1) as (w2 & E2 & Hok2 & Hlst & Hlc); rewrite ?Hl1; try done.
  exists p, w2. rewrite (run_bind_ret _ _ _ _ _ (run_atomic_go _ _ _ _ E2)). split_and!; try done. by rewrite (lc_root _ _ _ _ _ Hlc).
Qed.

Lemma pl_GetOrAdd_ok N l hp rnd rnd' w :
  peers_ok N w → Z.of_nat N < 2^32 - 1 → (l < N)%nat → hp ≠ [] →
  keeps_peers N (pl_GetOrAdd l hp rnd rnd') w.
Proof.
  intros Hok HN Hl Hhp. unfold pl_GetOrAdd, exists_. apply keeps_read.
  destruct (pl_byHostPort (w_list w l) !! hp) as [r|].
  - by exists (ps_Peer (score_of w l r)), w.
  - destruct (pl_Add_ok N l hp rnd rnd' w) as (p & w' & E & Hok' & _); try done. by exists p, w'.
Qed.

Lemma pl_Get_keeps N l prev rnd w : peers_ok N w → keeps_peers N (pl_Get l prev rnd) w.
Proof.
  intros Hok. destruct (Get_spec w l prev rnd (ok_heap _ _ Hok l)) as (res & w' & E & H). exists res, w'. split; [done|].
  destruct res as [p|e]; [|by destruct H as [-> _]]. eapply peers_ok_same; [done|]. eapply chosen_same, H.
Qed.

Lemma GetNew_keeps N l prev rnd w : peers_ok N w → keeps_peers N (atomic_go (GetNew l prev rnd)) w.
Proof.
  intros Hok. unfold GetNew, keeps_peers, atomic_go. cbn [run]. erewrite gost_bind_run by reflexivity. cbv beta. case_decide.
  { by eexists _, w. }
  destruct (choosePeer_ok l prev true rnd w (ok_heap _ _ Hok l)) as (op1 & w1 & E1 & C1 & _).
  assert (Hok1 : peers_ok N w1) by (eapply peers_ok_same; [done|by eapply chosen_same]).
  erewrite gost_bind_run by exact E1. cbv beta. destruct op1 as [p|]; [by eexists _, w1|].
  destruct (choosePeer_ok l prev false rnd w1 (ok_heap _ _ Hok1 l)) as (op2 & w2 & E2 & C2 & _).
  erewrite gost_bind_run by exact E2. eexists _, w2. split; [reflexivity|]. eapply peers_ok_same; [done|by eapply chosen_same].
Qed.

Lemma onPeerChange_keeps N l p w : peers_ok N w → keeps_peers N (onPeerChange l p) w.
Proof.
  intros Hok. unfold onPeerChange.
  apply (keeps_read N (λ w, match pl_byHostPort (w_list w l) !! hostPort (w_peer w p) with
    | Some r => Some (r, score (score_of w l r), scoreCalculator (w_list w l)) | None => None end)).
  destruct (pl_byHostPort (w_list w l) !! hostPort (w_peer w p)) as [r|]; [|by apply keeps_ret].
  apply (keeps_read N (λ w0, GetScore (scoreCalculator (w_list w l)) (w_conn w0) (w_peer w0 (ps_Peer (score_of w0 l r))))).
  case_decide; [by apply keeps_ret|].
  destruct (updatePeer_same l r (GetScore (scoreCalculator (w_list w l)) (w_conn w) (w_peer w (ps_Peer (score_of w l r)))) w
              (ok_heap _ _ Hok l)) as (w' & E & Hs).
  exists tt, w'. rewrite (run_atomic_go _ _ _ _ E). split; [done|]. by eapply peers_ok_same.
Qed.

Lemma rescore_ok N l sc rs w : peers_ok N w → ∃ w', rescore l sc rs w = Ret (tt, w') ∧ peers_ok N w'.
Proof.
  revert w. induction rs as [|r rs IH]; intros w Hok; cbn [rescore]; [by exists w|].
  erewrite gost_bind_run by reflexivity. cbv beta. match goal with |- context [pl_updatePeer l r ?s] =>
    destruct (updatePeer_same l r s w (ok_heap _ _ Hok l)) as (w1 & E & Hs) end.
  erewrite gost_bind_run by exact E. apply IH. by eapply peers_ok_same.
Qed.

Lemma SetStrategy_keeps N l sc order w : peers_ok N w → keeps_peers N (SetStrategy l sc order) w.
Proof.
  intros Hok. unfold SetStrategy, keeps_peers, atomic_go. cbn [run]. erewrite gost_bind_run by reflexivity. cbv beta.
  match goal with |- context [rescore l sc order ?w1] => destruct (rescore_ok N l sc order w1) as (w' & E & H') end.
  - eapply peers_ok_same; [done|]. split; try done; intros l'; [| |intros r _; unfold score_of]; cbn;
      destruct (decide (l' = l)) as [->|]; rewrite ?fn_lookup_insert, ?fn_lookup_insert_ne by done; done.
  - exists tt, w'. by rewrite E.
Qed.

(** An update of a peer that leaves its name and its count. *)
Lemma keeps_peer_do {B} N p (f : Peer → Peer) (k : unit → pprog B) w :
  peers_ok N w → (∀ x, hostPort (f x) = hostPort x ∧ scCount (f x) = scCount x) →
  (peers_ok N (peer_do p f w) → keeps_peers N (k tt) (peer_do p f w)) →
  keeps_peers N (atomic (λ w, (tt, peer_do p f w)) ≫= k) w.
Proof.
  intros Hok Hf Hk. assert (H : peers_ok N (peer_do p f w)) by (eapply peers_ok_same; [done|by apply peer_do_same]).
  destruct (Hk H) as (b & w' & E & H'). exists b, w'. split; [|done]. by rewrite run_atomic.
Qed.

Lemma peer_addConnection_keeps N p c d w : peers_ok N w → keeps_peers N (peer_addConnection p c d) w.
Proof.
  intros Hok. unfold peer_addConnection. apply (keeps_read N (λ w, c_state (w_conn w c))). case_decide; [|by apply keeps_ret].
  apply keeps_peer_do; [done|by destruct d|by apply keeps_ret].
Qed.

Lemma canRemove_count p : canRemove p = true → 0 <= scCount p → scCount p = 0.
Proof. unfold canRemove. rewrite bool_decide_eq_true. lia. Qed.

Lemma onClosedConnRemoved_keeps N p w : peers_ok N w → keeps_peers N (onClosedConnRemoved p) w.
Proof.
  intros Hok. unfold onClosedConnRemoved. apply (keeps_read N (λ w, hostPort (w_peer w p))).
  unfold root_Get. apply (keeps_read N (λ w', root w' !! hostPort (w_peer w p))).
  destruct (root w !! hostPort (w_peer w p)) as [q|] eqn:Eq; [|by apply keeps_ret].
  apply (keeps_read N (λ w, canRemove (w_peer w q))). destruct (canRemove (w_peer w q)) eqn:Hc; [|by apply keeps_ret].
  eexists _, _. split; [reflexivity|]. eapply root_delete_ok; [done..|].
  apply canRemove_count; [done|]. rewrite (ok_count _ _ Hok). apply (sum_upto_le N). apply holds_range.
Qed.

Lemma connectionCloseStateChange_keeps N p c w : peers_ok N w → keeps_peers N (connectionCloseStateChange p c) w.
Proof.
  intros Hok. unfold connectionCloseStateChange. apply (keeps_read N (λ w, c_state (w_conn w c))).
  case_decide; [by apply keeps_ret|]. apply keeps_bind.
  assert (Hdo : ∀ f, (∀ x, hostPort (f x) = hostPort x ∧ scCount (f x) = scCount x) → peers_ok N (peer_do p f w)).
  { intros f Hf. eapply peers_ok_same; [done|by apply peer_do_same]. }
  destruct (removeConnection (inboundConnections (w_peer w p)) c) as [l|] eqn:E1;
    [|destruct (removeConnection (outboundConnections (w_peer w p)) c) as [l|] eqn:E2].
  - eexists true, _. split; [cbn; unfold glift; rewrite E1; reflexivity|]. split; [by apply Hdo|].
    by apply onClosedConnRemoved_keeps, Hdo.
  - eexists true, _. split; [cbn; unfold glift; rewrite E1, E2; reflexivity|]. split; [by apply Hdo|].
    by apply onClosedConnRemoved_keeps, Hdo.
  - exists false, w. split; [cbn; unfold glift; rewrite E1, E2; reflexivity|]. split; [done|]. by apply keeps_ret.
Qed.

(** ** The connections of a peer *)

Definition connections (p : Peer) : list nat := inboundConnections p ++ outboundConnections p.

Lemma getConn_connections p i : getConn p i = connections p !! i.
Proof.
  unfold getConn, connections. case_decide; [by rewrite lookup_app_l|]. rewrite lookup_app_r by lia. done.
Qed.

Lemma find_active_ok conns p start i n :
  connections p ≠ [] →
  ∃ o, find_active conns p start (length (connections p)) i n = Ret o
  ∧ match o with
    | Some c => c ∈ connections p ∧ c_state (conns c) = connectionActive
    | None => ∀ j c, (i <= j < i + n)%nat → connections p !! ((j + start) mod length (connections p))%nat = Some c →
        c_state (conns c) ≠ connectionActive
    end.
Proof.
  intros Hne. revert i. induction n as [|n IH]; intros i; cbn [find_active].
  { exists None. split; [done|]. intros j c Hj. lia. }
  assert (Hlen : length (connections p) ≠ 0%nat) by (by destruct (connections p)).
  rewrite getConn_connections.
  destruct (lookup_lt_is_Some_2 (connections p) ((i + start) mod length (connections p))) as [c Hc].
  { by apply Nat.mod_upper_bound. }
  rewrite Hc. case_decide as Hact.
  - exists (Some c). split; [done|]. split; [by eapply list_elem_of_lookup_2|done].
  - destruct (IH (S i)) as (o & E & Ho). exists o. split; [done|]. destruct o as [c'|]; [done|].
    intros j c' Hj Hc'. destruct (decide (j = i)) as [->|Hji]; [congruence|]. apply (Ho j c'); [lia|done].
Qed.

(** Cycling from any start reaches every index. *)
Lemma mod_cycle start n k : (k < n)%nat → ∃ j, (j < n)%nat ∧ ((j + start) mod n = k)%nat.
Proof.
  intros Hk. exists ((k + (n - start mod n)) mod n)%nat. assert (Hn : n ≠ 0%nat) by lia.
  pose proof (Nat.mod_upper_bound start n Hn) as Hs. split; [by apply Nat.mod_upper_bound|].
  rewrite Nat.Div0.add_mod_idemp_l. rewrite <- (Nat.Div0.add_mod_idemp_r _ start).
  replace (k + (n - start mod n) + start mod n)%nat with (k + 1 * n)%nat by lia.
  rewrite Nat.Div0.mod_add. by apply Nat.mod_small.
Qed.

Lemma getActiveConnLocked_ok rnd conns p :
  ∃ o, getActiveConnLocked rnd conns p = Ret o
  ∧ match o with
    | Some c => c ∈ connections p ∧ c_state (conns c) = connectionActive
    | None => ∀ c, c ∈ connections p → c_state (conns c) ≠ connectionActive
    end.
Proof.
  unfold getActiveConnLocked. rewrite <- length_app. fold (connections p). case_decide as H0.
  { exists None. split; [done|]. apply length_zero_iff_nil in H0. rewrite H0. by intros c ?%elem_of_nil. }
  set (start := if decide _ then rnd else 0%nat).
  destruct (find_active_ok conns p start 0 (length (connections p))) as (o & E & Ho); [by intros H; rewrite H in H0|].
  exists o. split; [done|]. destruct o as [c|]; [done|]. intros c [k Hk]%list_elem_of_lookup.
  destruct (mod_cycle start (length (connections p)) k) as (j & Hj & Hjk); [by eapply lookup_lt_Some|].
  apply (Ho j c); [lia|]. by rewrite Hjk.
Qed.

Lemma getActiveConn_keeps N p rnd w : peers_ok N w → keeps_peers N (getActiveConn p rnd) w.
Proof.
  intros Hok. destruct (getActiveConnLocked_ok rnd (w_conn w) (w_peer w p)) as (o & E & _).
  exists o, w. split; [|done]. apply run_atomic_go. unfold gcall. by rewrite E.
Qed.

(** Peer.GetConnection finds an active connection whenever the peer has one,
    wherever the random search starts, and dials only if it has none; looking for a
    connection never panics. *)
Theorem GetConnection_active w p rnd rnd' connect :
  (∃ c, run (GetConnection p rnd rnd' connect) w = Ret (inl c, w)
     ∧ c ∈ connections (w_peer w p) ∧ c_state (w_conn w c) = connectionActive)
  ∨ (∀ c, c ∈ connections (w_peer w p) → c_state (w_conn w c) ≠ connectionActive)
    ∧ run (GetConnection p rnd rnd' connect) w = run connect w.
Proof.
  assert (Hrun : ∀ r o, getActiveConnLocked r (w_conn w) (w_peer w p) = Ret o → run (getActiveConn p r) w = Ret (o, w)).
  { intros r o E. apply run_atomic_go. unfold gcall. by rewrite E. }
  unfold GetConnection. destruct (getActiveConnLocked_ok rnd (w_conn w) (w_peer w p)) as (o & E & Ho).
  rewrite (run_bind_ret _ _ _ _ _ (Hrun _ _ E)). destruct o as [c|]; [left; by exists c|right]. split; [done|].
  destruct (getActiveConnLocked_ok rnd' (w_conn w) (w_peer w p)) as (o & E' & Ho').
  rewrite (run_bind_ret _ _ _ _ _ (Hrun _ _ E')). destruct o as [c|]; [|done]. destruct Ho' as [Hin Hact]. by destruct (Ho c Hin).
Qed.

(** ** Runs *)

(** The methods of the lists and peers of a channel with [N] lists.  [blank] says that a
    method adds a peer with a blank host:port, for which newPeer panics. *)
Definition blank (hp : bytes) : bool := bool_decide (hp = []).

Inductive peers_method (N : nat) : ∀ {A}, bool → pprog A → Prop :=
| method_Add l hp rnd rnd' : (l < N)%nat → peers_method N (blank hp) (pl_Add l hp rnd rnd')
| method_GetOrAdd l hp rnd rnd' : (l < N)%nat → peers_method N (blank hp) (pl_GetOrAdd l hp rnd rnd')
| method_Remove l hp : peers_method N false (pl_Remove l hp)
| method_Get l prev rnd : peers_method N false (pl_Get l prev rnd)
| method_GetNew l prev rnd : peers_method N false (atomic_go (GetNew l prev rnd))
| method_onPeerChange l p : peers_method N false (onPeerChange l p)
| method_SetStrategy l sc order : peers_method N false (SetStrategy l sc order)
| method_root_Add hp : peers_method N (blank hp) (root_Add hp)
| method_root_GetOrAdd hp : peers_method N (blank hp) (root_GetOrAdd hp)
| method_addConnection p c d : peers_method N false (peer_addConnection p c d)
| method_closeStateChange p c : peers_method N false (connectionCloseStateChange p c)
| method_getActiveConn p rnd : peers_method N false (getActiveConn p rnd).

(** A method runs without interference and returns, or connections change. *)
Inductive peers_step (N : nat) (w : Peers) : Peers → Prop :=
| peers_run A b (m : pprog A) a w' : peers_method N b m → run m w = Ret (a, w') → peers_step N w w'
| peers_conn conns : peers_step N w (mkPeers (root w) (w_peer w) (w_nextPeer w) (w_list w) conns).

Definition no_peers (conns : nat → Connection) : Peers :=
  mkPeers ∅ (λ _, mkPeer [] 0 [] [] 0) 0 (λ _, newPeerList) conns.

Lemma no_peers_ok N conns : peers_ok N (no_peers conns).
Proof.
  split; cbn; try done.
  - intros l. split; cbn; [split; [apply NoDup_nil_2|]|..].
    + intros i r Hi. unfold at_ in Hi. by case_decide.
    + intros k Hk. unfold Len in Hk. cbn in Hk. lia.
    + done.
  - by intros l r ?%elem_of_nil.
  - intros p. rewrite (sum_upto_ext N _ (λ _, 0)); [by rewrite sum_upto_zero|]. done.
Qed.

Lemma root_GetOrAdd_keeps N hp w : peers_ok N w → hp ≠ [] → keeps_peers N (root_GetOrAdd hp) w.
Proof.
  intros Hok Hhp. unfold root_GetOrAdd, root_Get. apply (keeps_read N (λ w, root w !! hp)).
  destruct (root w !! hp) as [p|]; [by apply keeps_ret|].
  destruct (root_Add_ok N hp w Hok Hhp) as (p & w' & E & H & _). by exists p, w'.
Qed.

(** Adding a blank host:port panics. *)
Lemma root_Add_blank N w : peers_ok N w → run (root_Add []) w = Panic.
Proof.
  intros Hok. unfold root_Add, root_Get. rewrite run_atomic. cbn [fst snd]. rewrite (ok_blank _ _ Hok).
  unfold atomic_go. cbn [run]. unfold root_create. by rewrite (ok_blank _ _ Hok).
Qed.

Lemma unlisted_blank N w l : peers_ok N w → pl_byHostPort (w_list w l) !! [] = None.
Proof.
  intros Hok. destruct (pl_byHostPort (w_list w l) !! []) as [r|] eqn:E; [|done].
  pose proof (ok_shared _ _ Hok l [] (ps_Peer (score_of w l r))) as H. unfold listed in H. rewrite E in H.
  rewrite (ok_blank _ _ Hok) in H. by specialize (H eq_refl).
Qed.

Lemma pl_Add_blank N l rnd rnd' w : peers_ok N w → run (pl_Add l [] rnd rnd') w = Panic.
Proof.
  intros Hok. unfold pl_Add, exists_. rewrite run_atomic. cbn [fst snd]. rewrite (unlisted_blank N) by done.
  rewrite run_atomic. cbn [fst snd]. rewrite (unlisted_blank N) by done.
  rewrite run_bind. unfold mbind at 1, gost_bind. by rewrite (root_Add_blank N).
Qed.

Lemma blank_panics {A} N w (m : pprog A) : peers_ok N w → peers_method N true m → run m w = Panic.
Proof.
  intros Hok Hm. remember true as b eqn:Eb. destruct Hm; try done; unfold blank in Eb; apply bool_decide_eq_true in Eb as ->.
  - by apply (pl_Add_blank N).
  - unfold pl_GetOrAdd, exists_. rewrite run_atomic. cbn [fst snd]. rewrite (unlisted_blank N) by done. by apply (pl_Add_blank N).
  - by apply (root_Add_blank N).
  - unfold root_GetOrAdd, root_Get. rewrite run_atomic. cbn [fst snd]. rewrite (ok_blank _ _ Hok). by apply (root_Add_blank N).
Qed.

Lemma method_keeps {A} N w (m : pprog A) :
  peers_ok N w → Z.of_nat N < 2^32 - 1 → peers_method N false m → keeps_peers N m w.
Proof.
  intros Hok HN Hm. remember false as b eqn:Eb. destruct Hm; try (unfold blank in Eb; apply bool_decide_eq_false in Eb).
  - edestruct (pl_Add_ok N l hp rnd rnd' w) as (p & w' & E & H' & _); try done. by exists p, w'.
  - by apply pl_GetOrAdd_ok.
  - edestruct (pl_Remove_ok N l hp w) as (o & w' & E & H' & _); try done. by exists o, w'.
  - by apply pl_Get_keeps.
  - by apply GetNew_keeps.
  - by apply onPeerChange_keeps.
  - by apply SetStrategy_keeps.
  - edestruct (root_Add_ok N hp w) as (p & w' & E & H' & _); try done. by exists p, w'.
  - by apply root_GetOrAdd_keeps.
  - by apply peer_addConnection_keeps.
  - by apply connectionCloseStateChange_keeps.
  - by apply getActiveConn_keeps.
Qed.

Lemma peers_reachable N conns w :
  Z.of_nat N < 2^32 - 1 → rtc (peers_step N) (no_peers conns) w → peers_ok N w.
Proof.
  intros HN H. assert (Hgen : ∀ w1 w2, rtc (peers_step N) w1 w2 → peers_ok N w1 → peers_ok N w2).
  { clear H. intros w1 w2 H. induction H as [|w1 w2 w3 Hs _ IH]; [done|]. intros Hok. apply IH. destruct Hs as [A [] m a w' Hm E|c].
    - by rewrite (blank_panics N) in E.
    - destruct (method_keeps N w1 m Hok HN Hm) as (a' & w'' & E' & H'). congruence.
    - eapply peers_ok_same; [done|]. by split. }
  eapply Hgen; [done|apply no_peers_ok].
Qed.

(** C25: The lists of a channel share its peers.  After any sequence of methods that
    run one after another, a peer list has, for each of its host:ports, the very peer
    the root list has for it, its heap holds exactly the peers of its map, with no score
    below that of the parent and with the right indices, and the scCount of a peer is the
    number of lists that hold it.  A method that adds a peer with a blank host:port
    panics; every other method returns.  Among equal scores the heap need not be in the
    order that its Less asks for. *)
Theorem peers_shared N conns w :
  Z.of_nat N < 2^32 - 1 → rtc (peers_step N) (no_peers conns) w →
  (∀ l hp p, listed w l hp = Some p → root w !! hp = Some p ∧ hostPort (w_peer w p) = hp)
  ∧ (∀ l r, r ∈ peerScores (peerHeap_ (w_list w l)) ↔ ∃ hp, pl_byHostPort (w_list w l) !! hp = Some r)
  ∧ (∀ l, heap_ok (peerHeap_ (w_list w l)))
  ∧ (∀ p, scCount (w_peer w p) = sum_upto N (holds w p))
  ∧ (∀ A (m : pprog A), peers_method N true m → run m w = Panic)
  ∧ (∀ A (m : pprog A), peers_method N false m → ∃ a w', run m w = Ret (a, w')).
Proof.
  intros HN Hr. pose proof (peers_reachable N conns w HN Hr) as Hok. split_and!.
  - intros l hp p Hl%(ok_shared _ _ Hok). split; [done|]. apply (ok_root _ _ Hok hp p Hl).
  - intros l r. split; [intros H; eexists; by apply (ok_members _ _ Hok)|]. intros [hp H]. by apply (ok_map _ _ Hok l hp).
  - apply (ok_heap _ _ Hok).
  - apply (ok_count _ _ Hok).
  - intros A m. by apply blank_panics.
  - intros A m Hm. destruct (method_keeps N w m Hok HN Hm) as (a & w' & E & _). by exists a, w'.
Qed.

(** ** Example runs *)

Definition after {A} (m : pprog A) (w : Peers) : Peers := match run m w with Ret (_, w') => w' | _ => w end.

Lemma after_steps {A} N conns w (m : pprog A) :
  Z.of_nat N < 2^32 - 1 → rtc (peers_step N) (no_peers conns) w → peers_method N false m →
  rtc (peers_step N) (no_peers conns) (after m w).
Proof.
  intros HN Hr Hm. pose proof (peers_reachable N conns w HN Hr) as Hok.
  destruct (method_keeps N w m Hok HN Hm) as (a & w' & E & _). eapply rtc_r; [exact Hr|].
  eapply peers_run; [done|]. unfold after. by rewrite E.
Qed.

(** A method whose host:port, if any, is not blank. *)
Ltac named_method :=
  match goal with
  | |- peers_method _ _ (pl_Add _ ?hp _ _) => change false with (blank hp)
  | |- peers_method _ _ (root_Add ?hp) => change false with (blank hp)
  | _ => idtac
  end; constructor.

Definition up_conn : Connection := newConnection 0 8 false false.
Definition host1 : bytes := str "1.1.1.1:1".
Definition host2 : bytes := str "1.1.1.1:2".
Definition start : Peers := no_peers (λ _, up_conn).

(** Two lists with two peers of one host; the first has a connection. *)
Definition added : Peers :=
  after (onPeerChange 0 0) (after (peer_addConnection 0 0 inbound)
    (after (pl_Add 1 host1 0 0) (after (pl_Add 0 host2 0 1) (after (pl_Add 0 host1 0 0) start)))).

Lemma added_steps : rtc (peers_step 2) start added.
Proof.
  unfold added. repeat (apply after_steps; [lia| |]); [apply rtc_refl|..]; named_method; lia.
Qed.

Lemma peers_shared_witness :
  rtc (peers_step 2) start added ∧ listed added 1 host1 = Some 0%nat ∧ root added !! host1 = Some 0%nat
  ∧ sum_upto 2 (holds added 0) = 2 ∧ scCount (w_peer added 0) = 2.
Proof.
  destruct (peers_shared 2 (λ _, up_conn) added ltac:(lia) added_steps) as (Hs & _ & _ & Hc & _).
  assert (Hl : listed added 1 host1 = Some 0%nat) by (vm_compute; reflexivity).
  assert (Hn : sum_upto 2 (holds added 0) = 2) by (vm_compute; reflexivity).
  split_and!; [apply added_steps|exact Hl|exact (proj1 (Hs _ _ _ Hl))|exact Hn|rewrite Hc; exact Hn].
Defined.

(** The first peer has the better score, but has been selected before. *)
Lemma Get_best_witness :
  score (score_of added 0 0) < score (score_of added 0 1)
  ∧ ∃ p w', run (pl_Get 0 {[host1]} 0) added = Ret (inl p, w') ∧ p = 1%nat ∧ best {[host1]} added 0 p.
Proof.
  split; [vm_compute; reflexivity|].
  destruct (Get_best added 0 {[host1]} 0 (ok_heap _ _ (peers_reachable 2 _ added ltac:(lia) added_steps) 0)) as (res & w' & E & H).
  assert (Hp : match run (pl_Get 0 {[host1]} 0) added with Ret (inl p, _) => p = 1%nat | _ => False end)
    by (vm_compute; reflexivity).
  rewrite E in Hp. destruct res as [p|e]; [|destruct Hp]. exists p, w'. split; [exact E|]. split; [exact Hp|exact (proj2 H)].
Defined.

(** A peer without lists whose only connection has just been closed. *)
Definition conn_lost : Peers :=
  let w := after (peer_addConnection 0 0 inbound) (after (root_Add host1) start) in
  mkPeers (root w) (w_peer w) (w_nextPeer w) (w_list w) (λ _, c_set_state connectionStartClose up_conn).

Lemma conn_lost_steps : rtc (peers_step 2) start conn_lost.
Proof.
  unfold conn_lost. eapply rtc_r; [|apply peers_conn].
  repeat (apply after_steps; [lia| |]); [apply rtc_refl|..]; named_method.
Qed.

(** [q] runs after [n] actions of [p], whose remaining actions follow. *)
Definition between {A B} (n : nat) (p : pprog A) (q : pprog B) (w : Peers) : option Peers :=
  match nsteps n p w with
  | Some (p', w1) =>
      match run q w1 with
      | Ret (_, w2) => match run p' w2 with Ret (_, w3) => Some w3 | _ => None end
      | _ => None
      end
  | None => None
  end.

Lemma between_spec {A B} n (p : pprog A) (q : pprog B) w w3 :
  between n p q w = Some w3 →
  ∃ p' w1 b w2 a, rtc pstep (p, w) (p', w1) ∧ run q w1 = Ret (b, w2) ∧ run p' w2 = Ret (a, w3).
Proof.
  unfold between. destruct (nsteps n p w) as [[p' w1]|] eqn:E; [|done].
  destruct (run q w1) as [[b w2]| |] eqn:E2; [|done..]. destruct (run p' w2) as [[a w4]| |] eqn:E3; [|done..].
  intros [= <-]. exists p', w1, b, w2, a. split; [by eapply nsteps_psteps|done].
Qed.

Definition raced : Peers :=
  default start (between 5 (connectionCloseStateChange 0 0) (pl_Add 0 host1 0 0) conn_lost).

Lemma raced_is : between 5 (connectionCloseStateChange 0 0) (pl_Add 0 host1 0 0) conn_lost = Some raced.
Proof. unfold raced. destruct (between _ _ _ _) eqn:E; [done|]. exfalso. revert E. vm_compute. done. Qed.

(** C39: There is a reachable state and a schedule of two methods after which the root list
    has dropped a peer that a list holds: onClosedConnRemoved asks whether the peer can be
    removed and deletes it afterwards, without asking again, and here a PeerList.Add runs
    in between, takes the peer from the root list and counts itself in it.  When another
    list then adds the host:port it gets another peer for it, and the two lists do not
    share their connections.  In other schedules, such as those in which Add comes before
    the question, the peer stays. *)
Theorem duplicate_peer :
  rtc (peers_step 2) start conn_lost
  ∧ (∃ p w1 b w2 a, rtc pstep (connectionCloseStateChange 0 0, conn_lost) (p, w1)
       ∧ run (pl_Add 0 host1 0 0) w1 = Ret (b, w2) ∧ run p w2 = Ret (a, raced))
  ∧ listed raced 0 host1 = Some 0%nat ∧ root raced !! host1 = None
  ∧ ∃ w', run (pl_Add 1 host1 0 0) raced = Ret (1%nat, w') ∧ listed w' 0 host1 = Some 0%nat ∧ listed w' 1 host1 = Some 1%nat.
Proof.
  split_and!; [apply conn_lost_steps|apply (between_spec 5), raced_is|vm_compute; reflexivity..|].
  exists (after (pl_Add 1 host1 0 0) raced). split_and!; [|vm_compute; reflexivity..].
  assert (H : match run (pl_Add 1 host1 0 0) raced with Ret (p, _) => p = 1%nat | _ => False end) by (vm_compute; reflexivity).
  unfold after. destruct (run (pl_Add 1 host1 0 0) raced) as [[p w']| |]; [by subst p|done..].
Qed.
