(* ===== verification/PeerSafe.v ===== *)
(** * Peers under interference

    What the critical sections of the peers and their lists keep whatever other code
    does between them, in the form [Conc.cwp] asks for: no method panics, the heaps of
    the lists stay in order, and every peer that is handed out has a host:port. *)

From stdpp Require Import functions.
From S2P Require Import Prelude Conc Errors Retry Buffer Checksum Frame Messages Fragment Mex ReqRes Health Connection ConnectionSafe PeerHeap Peer PeerCorrect PeerShared.

(** ** What is kept *)

Record lists_ok (w : Peers) : Prop := {
  lo_root hp p : root w !! hp = Some p → (p < w_nextPeer w)%nat ∧ hostPort (w_peer w p) ≠ [];
  lo_heap l : heap_ok (peerHeap_ (w_list w l));
  lo_map l hp r : pl_byHostPort (w_list w l) !! hp = Some r → r ∈ peerScores (peerHeap_ (w_list w l));
  lo_inj l hp hp' r : pl_byHostPort (w_list w l) !! hp = Some r → pl_byHostPort (w_list w l) !! hp' = Some r → hp = hp';
  lo_score l r : r ∈ peerScores (peerHeap_ (w_list w l)) →
    (r < pl_next (w_list w l))%nat ∧ (ps_Peer (score_of w l r) < w_nextPeer w)%nat
    ∧ hostPort (w_peer w (ps_Peer (score_of w l r))) ≠ []
}.

(** Peers keep their names, and connections are left alone. *)
Record lists_step (w w' : Peers) : Prop := {
  ls_next : (w_nextPeer w <= w_nextPeer w')%nat;
  ls_host p : (p < w_nextPeer w)%nat → hostPort (w_peer w' p) = hostPort (w_peer w p);
  ls_conn : w_conn w' = w_conn w
}.

#[export] Instance lists_step_preorder : PreOrder lists_step.
Proof.
  split; [by split|]. intros w1 w2 w3 [A1 A2 A3] [B1 B2 B3]. split; [lia| |congruence].
  intros p Hp. rewrite B2, A2 by lia. done.
Qed.

(** What other code may do: connections go on, too. *)
Definition peers_inv (w : Peers) : Prop := lists_ok w ∧ ∀ i, conn_inv (w_conn w i).

Record lists_adv (w w' : Peers) : Prop := {
  la_next : (w_nextPeer w <= w_nextPeer w')%nat;
  la_host p : (p < w_nextPeer w)%nat → hostPort (w_peer w' p) = hostPort (w_peer w p);
  la_conn i : advance (w_conn w i) (w_conn w' i)
}.

#[export] Instance lists_adv_preorder : PreOrder lists_adv.
Proof.
  split; [intros w; split; [done|done|intros i; reflexivity]|]. intros w1 w2 w3 [A1 A2 A3] [B1 B2 B3]. split; [lia| |].
  - intros p Hp. rewrite B2, A2 by lia. done.
  - intros i. etransitivity; [apply A3|apply B3].
Qed.

Lemma step_adv w w' : lists_step w w' → lists_adv w w'.
Proof. intros [H1 H2 H3]. split; [done..|]. intros i. rewrite H3. reflexivity. Qed.

(** The accounts of the connections. *)
#[export] Instance fun_account I : Account (I → Z) I := {
  amount k x := k x;
  acc0 := λ _, 0;
  amount_acc0 _ := eq_refl
}.
Definition conns_bal (w : Peers) : nat * bool → Z := λ x, amount (conn_bal (w_conn w x.1)) x.2.

Abbreviation cwp_p := (cwp peers_inv lists_adv conns_bal).
Abbreviation neutral_p := (neutral peers_inv lists_adv conns_bal).
Abbreviation neutral_bind_p := (neutral_bind peers_inv lists_adv conns_bal).
Abbreviation cwp_mono_p := (cwp_mono peers_inv lists_adv conns_bal).

Lemma step_good w w' :
  peers_inv w → lists_ok w' → lists_step w w' → peers_inv w' ∧ lists_adv w w' ∧ acc_same (conns_bal w') (conns_bal w).
Proof.
  intros [_ Hc] Hw' Hs. pose proof (ls_conn _ _ Hs) as E. split_and!; [|by apply step_adv|].
  - split; [done|]. intros i. rewrite E. apply Hc.
  - intros x. cbn. unfold conns_bal. by rewrite E.
Qed.

Lemma neutral_p_act {A} (m : GO Peers A) :
  (∀ w, lists_ok w → match m w with Ret (_, w') => lists_ok w' ∧ lists_step w w' | Panic => False | OutOfFuel => True end) →
  neutral_p (atomic_go m).
Proof.
  intros H. apply neutral_act. intros w Hw. specialize (H w (proj1 Hw)). destruct (m w) as [[a w']| |]; [|done..].
  destruct H. by apply step_good.
Qed.

Lemma neutral_p_atomic {A} (m : ST Peers A) :
  (∀ w, lists_ok w → lists_ok (m w).2 ∧ lists_step w (m w).2) → neutral_p (atomic m).
Proof. intros H. apply neutral_atomic. intros w Hw. destruct (H w (proj1 Hw)). by apply step_good. Qed.

Lemma neutral_p_read {A} (f : Peers → A) : neutral_p (atomic (λ w, (f w, w))).
Proof. by apply neutral_p_atomic. Qed.

(** A peer changes, but not its name. *)
Lemma peer_do_ok p f w : (∀ x, hostPort (f x) = hostPort x) → lists_ok w → lists_ok (peer_do p f w) ∧ lists_step w (peer_do p f w).
Proof.
  intros Hf [L1 L2 L3 L4 L5].
  assert (Hh : ∀ q, hostPort (w_peer (peer_do p f w) q) = hostPort (w_peer w q)).
  { intros q. cbn. destruct (decide (q = p)) as [->|]; [by rewrite fn_lookup_insert|by rewrite fn_lookup_insert_ne]. }
  split; split; try done.
  - intros hp q Hq. rewrite Hh. by apply (L1 hp).
  - intros l r Hr. rewrite Hh. by apply L5.
Qed.

(** Lists that move and rescore their peers. *)
Lemma same_lists_ok w w' :
  lists_ok w → peers_same w w' → w_conn w' = w_conn w → lists_ok w' ∧ lists_step w w'.
Proof.
  intros [L1 L2 L3 L4 L5] [S1 S2 S3 S4 S5 S6] Hc. split.
  - split.
    + intros hp p. rewrite S1, S2, (proj1 (S3 p)). apply L1.
    + intros l. by apply S5.
    + intros l hp r. rewrite (proj1 (S4 l)), (proj2 (S5 l (L2 l))). apply L3.
    + intros l hp hp' r. rewrite (proj1 (S4 l)). apply L4.
    + intros l r. rewrite (proj2 (S5 l (L2 l))), (proj2 (S4 l)), S2, S6, (proj1 (S3 _)) by done. apply L5.
  - split; [by rewrite S2|intros p _; apply S3|done].
Qed.

Lemma on_heap_conn {A} l (m : hop A) w a w' : on_heap l m w = Ret (a, w') → w_conn w' = w_conn w.
Proof. unfold on_heap. destruct (m (peerHeap_ (w_list w l))) as [[b ph]| |]; [|done..]. by intros [= <- <-]. Qed.

Lemma updatePeer_conn l r s w w' : pl_updatePeer l r s w = Ret (tt, w') → w_conn w' = w_conn w.
Proof.
  unfold pl_updatePeer. erewrite gost_bind_run by reflexivity. cbv beta. case_decide; [by intros [= <-]|]. apply on_heap_conn.
Qed.

Lemma updatePeer_neutral l r s : neutral_p (atomic_go (pl_updatePeer l r s)).
Proof.
  apply neutral_p_act. intros w Hw. destruct (updatePeer_same l r s w (lo_heap _ Hw l)) as (w' & E & Hs).
  rewrite E. by apply same_lists_ok; [..|by eapply updatePeer_conn].
Qed.

Lemma onPeerChange_neutral l p : neutral_p (onPeerChange l p).
Proof.
  unfold onPeerChange. apply neutral_bind_p; [apply neutral_p_read|]. intros [[[r sc] c]|]; [|apply neutral_ret].
  apply neutral_bind_p; [apply neutral_p_read|]. intros s. case_decide; [apply neutral_ret|apply updatePeer_neutral].
Qed.

Lemma chosen_lists_ok l op w w' : lists_ok w → chosen l op w w' → lists_ok w' ∧ lists_step w w'.
Proof. intros Hw C. apply same_lists_ok; [done|by eapply chosen_same|apply (ch_other _ _ _ _ C)]. Qed.

(** A chosen peer has a name. *)
Lemma chosen_named l p prev w : lists_ok w → best prev w l p → (p < w_nextPeer w)%nat ∧ hostPort (w_peer w p) ≠ [].
Proof. intros Hw (r & Hr & <- & _). apply (lo_score _ Hw l r Hr). Qed.

Lemma choosePeer_neutral l prev avoid rnd : neutral_p (atomic_go (choosePeer l prev avoid rnd)).
Proof.
  apply neutral_p_act. intros w Hw. destruct (choosePeer_ok l prev avoid rnd w (lo_heap _ Hw l)) as (op & w' & E & C & _).
  rewrite E. by eapply chosen_lists_ok.
Qed.

Definition named (w : Peers) (p : nat) : Prop := (p < w_nextPeer w)%nat ∧ hostPort (w_peer w p) ≠ [].

Lemma named_later w w' p : lists_adv w w' → named w p → named w' p.
Proof. intros HA [Hp Hn]. split; [pose proof (la_next _ _ HA); lia|]. by rewrite (la_host _ _ HA). Qed.

Lemma named_step w w' p : lists_step w w' → named w p → named w' p.
Proof. intros HA%step_adv. by apply named_later. Qed.

(** A choice, seen as one action. *)
Lemma choosePeer_named l prev avoid rnd w :
  lists_ok w → ∃ op w', choosePeer l prev avoid rnd w = Ret (op, w') ∧ lists_ok w' ∧ lists_step w w' ∧ ∀ p, op = Some p → named w' p.
Proof.
  intros Hw. destruct (choosePeer_ok l prev avoid rnd w (lo_heap _ Hw l)) as (op & w' & E & C & H).
  destruct (chosen_lists_ok l op w w' Hw C) as [Hw' HA]. exists op, w'. split_and!; try done.
  intros p ->. destruct H as (r & Hr & Hp & _). eapply named_step; [done|]. rewrite <- Hp. apply (lo_score _ Hw l r Hr).
Qed.

Lemma GetNew_named l prev rnd w :
  lists_ok w → ∃ r w', GetNew l prev rnd w = Ret (r, w') ∧ lists_ok w' ∧ lists_step w w' ∧ ∀ p, r = inl p → named w' p.
Proof.
  intros Hw. unfold GetNew. erewrite gost_bind_run by reflexivity. cbv beta. case_decide.
  { eexists _, w. by split_and!. }
  destruct (choosePeer_named l prev true rnd w Hw) as (op1 & w1 & E1 & Hw1 & HA1 & Hn1).
  erewrite gost_bind_run by exact E1. cbv beta. destruct op1 as [p|].
  { eexists _, w1. split; [reflexivity|]. split_and!; try done. intros q [= <-]. by apply Hn1. }
  destruct (choosePeer_named l prev false rnd w1 Hw1) as (op2 & w2 & E2 & Hw2 & HA2 & Hn2).
  erewrite gost_bind_run by exact E2. cbv beta. eexists _, w2. split; [reflexivity|].
  split_and!; [done|by etransitivity|]. intros p Hp. destruct op2 as [q|]; [|done]. injection Hp as ->. by apply Hn2.
Qed.

(** [Q] holds of what a program returns, and keeps holding. *)
Definition yields {A} (p : pprog A) (Q : A → Peers → Prop) : Prop :=
  ∀ w k, acc_le acc0 k → cwp_p w k p (λ a w' k', acc_same k' k ∧ Q a w').

Lemma yields_act {A} (m : GO Peers A) (Q : A → Peers → Prop) :
  (∀ w, lists_ok w → match m w with Ret (a, w') => lists_ok w' ∧ lists_step w w' ∧ Q a w' | Panic => False | OutOfFuel => True end) →
  yields (atomic_go m) Q.
Proof.
  intros H w0 k Hk. apply cwp_act. intros w _ Hw _. specialize (H w (proj1 Hw)). destruct (m w) as [[a w']| |]; [|done..].
  destruct H as (H1 & H2 & H3). destruct (step_good w w' Hw H1 H2) as (G1 & G2 & G3).
  split_and!; [done..|]. exists k. split_and!; [done|by apply acc_moved_same|done|done].
Qed.

Lemma yields_bind {A B} (p : pprog A) (f : A → pprog B) (P : A → Peers → Prop) (Q : B → Peers → Prop) :
  yields p P → (∀ a w0 k, acc_le acc0 k → P a w0 → cwp_p w0 k (f a) (λ b w' k', acc_same k' k ∧ Q b w')) → yields (p ≫= f) Q.
Proof.
  intros Hp Hf w k Hk. apply cwp_bind. eapply cwp_mono_p; [|by apply Hp]. cbn.
  intros a w1 k1 _ [Hk1 HP]. eapply cwp_mono_p; [|apply Hf; [acc_lia|done]]. cbn.
  intros b w2 k2 _ [Hk2 HQ]. split; [acc_lia|done].
Qed.

Lemma yields_neutral {A} (p : pprog A) Q : yields p Q → neutral_p p.
Proof.
  intros H w k Hk. eapply cwp_mono_p; [|by apply H]. by intros a w' k' _ [? _].
Qed.

Lemma pl_Get_named l prev rnd : yields (pl_Get l prev rnd) (λ r w, ∀ p, r = inl p → named w p).
Proof.
  unfold pl_Get. eapply yields_bind.
  - apply yields_act. intros w Hw. destruct (GetNew_named l prev rnd w Hw) as (r & w' & E & H1 & H2 & H3). rewrite E.
    split_and!; [done..|exact H3].
  - intros [p|e] w0 k Hk HP; [split; [reflexivity|exact HP]|]. case_decide; [|by split].
    apply (yields_bind (atomic_go (choosePeer l ∅ false rnd)) _ (λ op w, ∀ p, op = Some p → named w p)); [| |done].
    + apply yields_act. intros w Hw. destruct (choosePeer_named l ∅ false rnd w Hw) as (op & w' & E & H1 & H2 & H3).
      rewrite E. by split_and!.
    + intros [p|] w1 k1 Hk1 H1; (split; [reflexivity|]); intros q; [intros [= <-]; by apply H1|done].
Qed.

(** ** Methods of the lists *)

Record list_replaced (l : nat) (w w' : Peers) : Prop := {
  lr_root : root w' = root w;
  lr_peer : w_peer w' = w_peer w;
  lr_next : w_nextPeer w' = w_nextPeer w;
  lr_conn : w_conn w' = w_conn w;
  lr_list l' : l' ≠ l → w_list w' l' = w_list w l'
}.

Lemma set_list_replaced l x w w' : list_replaced l w w' → list_replaced l w (set_list l x w').
Proof. intros [R1 R2 R3 R4 R5]. split; try done. intros l' Hl. cbn. rewrite fn_lookup_insert_ne by done. by apply R5. Qed.

Lemma replaced_ok l w w' :
  lists_ok w → list_replaced l w w' → heap_ok (peerHeap_ (w_list w' l)) →
  (∀ hp r, pl_byHostPort (w_list w' l) !! hp = Some r → r ∈ peerScores (peerHeap_ (w_list w' l))) →
  (∀ hp hp' r, pl_byHostPort (w_list w' l) !! hp = Some r → pl_byHostPort (w_list w' l) !! hp' = Some r → hp = hp') →
  (∀ r, r ∈ peerScores (peerHeap_ (w_list w' l)) →
     (r < pl_next (w_list w' l))%nat ∧ named w (ps_Peer (score_of w' l r))) →
  lists_ok w' ∧ lists_step w w'.
Proof.
  intros [L1 L2 L3 L4 L5] [R1 R2 R3 R4 R5] Hh Hm Hi Hs. split; [|split; [by rewrite R3|by rewrite R2|done]]. split.
  - intros hp p. rewrite R1, R2, R3. apply L1.
  - intros l'. destruct (decide (l' = l)) as [->|Hl]; [done|by rewrite R5].
  - intros l'. destruct (decide (l' = l)) as [->|Hl]; [done|rewrite R5 by done; apply L3].
  - intros l'. destruct (decide (l' = l)) as [->|Hl]; [done|rewrite R5 by done; apply L4].
  - intros l' r. rewrite R2, R3. destruct (decide (l' = l)) as [->|Hl].
    + intros Hr. destruct (Hs r Hr) as (H1 & H2 & H3). done.
    + unfold score_of. rewrite R5 by done. apply L5.
Qed.

Lemma addPeerScore_safe l p hp rnd rnd' w :
  lists_ok w → named w p →
  ∃ w', addPeerScore l p hp rnd rnd' w = Ret (tt, w') ∧ lists_ok w' ∧ lists_step w w'.
Proof.
  intros Hw Hp. unfold addPeerScore. destruct (peer_do_ok p (λ x, p_set_scCount (uint32 (scCount x + 1)) x) w) as [Hw0 HA0]; [done..|].
  fold (addSC p w) in Hw0, HA0. apply (named_step _ _ _ HA0) in Hp. revert Hw0 HA0 Hp. generalize (addSC p w). clear Hw.
  intros w0 Hw0 HA0 Hp. generalize (GetScore (scoreCalculator (w_list w0 l)) (w_conn w0) (w_peer w0 p)). intros s.
  set (x := w_list w0 l). set (r := pl_next x). unfold register. fold x r.
  assert (Hr : r ∉ peerScores (peerHeap_ x)) by (intros Hin; destruct (lo_score _ Hw0 l r Hin) as [Hlt _]; fold x r in Hlt; lia).
  set (ph1 := mkPeerHeap _ _ _). set (w1 := set_list l _ _).
  destruct (addPeer_ok ph1 r rnd rnd') as (ph' & E & Hok' & P' & S'); [apply heap_ok_fresh; [apply (lo_heap _ Hw0)|done]|done|].
  unfold on_heap. assert (Ew : w_list w1 l = mkPeerList (<[hp := r]> (pl_byHostPort x)) ph1 (S r) (scoreCalculator x))
    by (unfold w1; cbn; by rewrite fn_lookup_insert).
  rewrite Ew. cbn [peerHeap_ pl_byHostPort pl_next scoreCalculator]. rewrite E. set (x' := mkPeerList _ ph' _ _).
  exists (set_list l x' w1). split; [done|].
  assert (Hx' : w_list (set_list l x' w1) l = x') by (cbn; by rewrite fn_lookup_insert).
  assert (Hmap : ∀ hp' y, <[hp := r]> (pl_byHostPort x) !! hp' = Some y → hp = hp' ∧ y = r ∨ hp ≠ hp' ∧ y ≠ r ∧ pl_byHostPort x !! hp' = Some y).
  { intros hp' y [[<- <-]|[Hne Hy]]%lookup_insert_Some; [by left|right]. split_and!; [done| |done].
    intros ->. apply (lo_map _ Hw0) in Hy. done. }
  destruct (replaced_ok l w0 (set_list l x' w1)) as [Hok HA]; rewrite ?Hx'; try done; [by do 2 apply set_list_replaced|..].
  - cbn [x' peerHeap_ pl_byHostPort]. intros hp' y [[_ ->]|(_ & _ & Hy)]%Hmap; rewrite P'; [by left|right]. by apply (lo_map _ Hw0 l hp').
  - cbn [x' pl_byHostPort]. intros hp1 hp2 y [[<- ->]|(_ & H1 & Hy1)]%Hmap [[<- ?]|(_ & H2 & Hy2)]%Hmap; try done.
    by apply (lo_inj _ Hw0 l _ _ y).
  - cbn [x' peerHeap_ pl_next]. intros y Hy. rewrite P' in Hy. unfold score_of. rewrite Hx'. cbn [x' peerHeap_]. rewrite (proj2 (S' y)).
    cbn [ph1 ph_mem]. apply elem_of_cons in Hy as [->|Hy]; [rewrite fn_lookup_insert; split; [lia|done]|].
    rewrite fn_lookup_insert_ne by (by intros ->). destruct (lo_score _ Hw0 l y Hy) as (H1 & H2 & H3). fold x r in H1.
    split; [lia|by split].
  - split; [done|by etransitivity].
Qed.

Lemma pl_Remove_neutral l hp : neutral_p (pl_Remove l hp).
Proof.
  apply neutral_p_act. intros w Hw. cbv beta zeta. set (x := w_list w l). destruct (pl_byHostPort x !! hp) as [r|] eqn:Er; [|by split].
  set (p := ps_Peer (score_of w l r)).
  destruct (peer_do_ok p (λ x, p_set_scCount (uint32 (scCount x - 1)) x) w) as [Hw0 HA0]; [done..|].
  fold (delSC p w) in Hw0, HA0. set (w0 := delSC p w) in *. set (w1 := set_list l _ _).
  change (w_list w0 l) with x in *. pose proof (lo_map _ Hw l hp r Er) as Hin. fold x in Hin.
  destruct (ph_removePeer_ok (peerHeap_ x) r (lo_heap _ Hw l) Hin) as (ph' & E & P & Hok' & _ & S').
  unfold on_heap. assert (Ew : w_list w1 l = mkPeerList (delete hp (pl_byHostPort x)) (peerHeap_ x) (pl_next x) (scoreCalculator x))
    by (unfold w1; cbn; by rewrite fn_lookup_insert).
  rewrite Ew. cbn [peerHeap_ pl_byHostPort pl_next scoreCalculator]. rewrite E. set (x' := mkPeerList _ ph' _ _).
  assert (Hx' : w_list (set_list l x' w1) l = x') by (cbn; by rewrite fn_lookup_insert).
  destruct (replaced_ok l w0 (set_list l x' w1)) as [Hok HA]; rewrite ?Hx'; try done; [by do 2 apply set_list_replaced|..].
  - cbn [x' peerHeap_ pl_byHostPort]. intros hp' y [Hne Hy]%lookup_delete_Some. pose proof (lo_map _ Hw l hp' y Hy) as Hiny.
    fold x in Hiny. rewrite P in Hiny. apply elem_of_cons in Hiny as [->|?]; [|done]. by destruct Hne; apply (lo_inj _ Hw l _ _ r).
  - cbn [x' pl_byHostPort]. intros hp1 hp2 y [_ H1]%lookup_delete_Some [_ H2]%lookup_delete_Some. by apply (lo_inj _ Hw l _ _ y).
  - cbn [x' peerHeap_ pl_next]. intros y Hy. unfold score_of. rewrite Hx'. cbn [x' peerHeap_]. rewrite (proj2 (S' y)).
    apply (lo_score _ Hw0 l y). change (w_list w0 l) with x. rewrite P. by right.
  - split; [done|by etransitivity].
Qed.

Lemma root_create_safe hp w :
  lists_ok w → hp ≠ [] →
  ∃ p w', root_create hp w = Ret (p, w') ∧ lists_ok w' ∧ lists_step w w' ∧ named w' p.
Proof.
  intros Hw Hhp. unfold root_create. destruct (root w !! hp) as [p|] eqn:E.
  { exists p, w. split_and!; try done. apply (lo_root _ Hw hp p E). }
  unfold newPeer. rewrite decide_False by done. set (q := w_nextPeer w). set (w' := set_root _ _).
  assert (Hne : ∀ p, (p < q)%nat → w_peer w' p = w_peer w p) by (intros p Hp; unfold w'; cbn; by rewrite fn_lookup_insert_ne by lia).
  assert (Hq : named w' q) by (split; [cbn; lia|unfold w'; cbn; by rewrite fn_lookup_insert]).
  exists q, w'. split_and!; try done.
  - split; try apply Hw.
    + intros hp' p. change (root w') with (<[hp:=q]> (root w)). intros [[_ <-]|[_ Hp]]%lookup_insert_Some; [done|].
      destruct (lo_root _ Hw hp' p Hp) as [H1 H2]. rewrite Hne by done. split; [cbn; lia|done].
    + intros l r Hr. change (score_of w' l r) with (score_of w l r). destruct (lo_score _ Hw l r Hr) as (H1 & H2 & H3).
      rewrite Hne by done. split_and!; [done|cbn; lia|done].
  - split; [cbn; lia| |done]. intros p Hp. by rewrite Hne.
Qed.

(** Looking a peer up. *)
Lemma root_Get_named hp : yields (root_Get hp) (λ o w, ∀ p, o = Some p → named w p).
Proof.
  apply yields_act. intros w Hw. unfold glift. split_and!; [done..|]. intros p Hp. apply (lo_root _ Hw hp p Hp).
Qed.

Lemma yields_ret {A} (a : A) Q w k : acc_le acc0 k → Q a w → cwp_p w k (mret a) (λ b w' k', acc_same k' k ∧ Q b w').
Proof. intros _ HQ. by split. Qed.

Lemma root_Add_named hp : hp ≠ [] → yields (root_Add hp) (λ p w, named w p).
Proof.
  intros Hhp. unfold root_Add. eapply yields_bind; [apply root_Get_named|]. intros [p|] w0 k Hk Hp.
  { apply (yields_ret p (λ p w, named w p)); [done|by apply Hp]. }
  apply (yields_act (root_create hp) (λ p w, named w p)); [|done]. intros w Hw.
  destruct (root_create_safe hp w Hw Hhp) as (p & w' & E & H1 & H2 & H3). rewrite E. by split_and!.
Qed.

Lemma root_GetOrAdd_named hp : hp ≠ [] → yields (root_GetOrAdd hp) (λ p w, named w p).
Proof.
  intros Hhp. unfold root_GetOrAdd. eapply yields_bind; [apply root_Get_named|]. intros [p|] w0 k Hk Hp.
  - apply (yields_ret p (λ p w, named w p)); [done|by apply Hp].
  - by apply root_Add_named.
Qed.

Lemma pl_Add_neutral l hp rnd rnd' : hp ≠ [] → neutral_p (pl_Add l hp rnd rnd').
Proof.
  intros Hhp. unfold pl_Add, exists_, peer_of. apply neutral_bind_p; [apply neutral_p_read|].
  intros [r|]; [apply neutral_p_read|]. apply neutral_bind_p; [apply neutral_p_read|].
  intros [r|]; [apply neutral_p_read|]. apply (yields_neutral _ (λ _ _, True)). eapply yields_bind; [by apply root_Add_named|].
  intros p w0 k Hk Hp. apply cwp_bind, cwp_act. intros w HA Hw _.
  destruct (addPeerScore_safe l p hp rnd rnd' w (proj1 Hw)) as (w' & E & H1 & H2); [by eapply named_later|]. rewrite E.
  destruct (step_good w w' Hw H1 H2) as (G1 & G2 & G3). split_and!; [done..|]. exists k. by split_and!; [|by apply acc_moved_same|..].
Qed.

Lemma pl_GetOrAdd_neutral l hp rnd rnd' : hp ≠ [] → neutral_p (pl_GetOrAdd l hp rnd rnd').
Proof.
  intros Hhp. unfold pl_GetOrAdd, exists_, peer_of. apply neutral_bind_p; [apply neutral_p_read|].
  intros [r|]; [apply neutral_p_read|by apply pl_Add_neutral].
Qed.

Lemma GetNew_neutral l prev rnd : neutral_p (atomic_go (GetNew l prev rnd)).
Proof.
  apply neutral_p_act. intros w Hw. destruct (GetNew_named l prev rnd w Hw) as (r & w' & E & H1 & H2 & _). rewrite E. by split.
Qed.

Lemma rescore_safe l sc rs w : lists_ok w → ∃ w', rescore l sc rs w = Ret (tt, w') ∧ lists_ok w' ∧ lists_step w w'.
Proof.
  revert w. induction rs as [|r rs IH]; intros w Hw; cbn [rescore]; [by exists w|].
  erewrite gost_bind_run by reflexivity. cbv beta. match goal with |- context [pl_updatePeer l r ?s] =>
    destruct (updatePeer_same l r s w (lo_heap _ Hw l)) as (w1 & E & Hs) end.
  destruct (same_lists_ok w w1 Hw Hs) as [Hw1 HA1]; [by eapply updatePeer_conn|].
  erewrite gost_bind_run by exact E. destruct (IH w1 Hw1) as (w2 & E2 & Hw2 & HA2). exists w2. split_and!; [done..|by etransitivity].
Qed.

Lemma SetStrategy_neutral l sc order : neutral_p (SetStrategy l sc order).
Proof.
  apply neutral_p_act. intros w Hw. erewrite gost_bind_run by reflexivity. cbv beta zeta.
  match goal with |- context [rescore l sc order ?w1] => set (w0 := w1) end.
  destruct (same_lists_ok w w0 Hw) as [Hw0 HA0]; [|done|].
  { split; try done; intros l'; [| |intros r _; unfold score_of]; cbn;
      destruct (decide (l' = l)) as [->|]; rewrite ?fn_lookup_insert, ?fn_lookup_insert_ne by done; done. }
  destruct (rescore_safe l sc order w0 Hw0) as (w' & E & H1 & H2). rewrite E. split; [done|by etransitivity].
Qed.

Lemma peer_addConnection_neutral p c d : neutral_p (peer_addConnection p c d).
Proof.
  unfold peer_addConnection. apply neutral_bind_p; [apply neutral_p_read|]. intros st. case_decide; [|apply neutral_ret].
  apply neutral_bind_p; [|intros; apply neutral_ret]. apply neutral_p_atomic. intros w Hw. apply peer_do_ok; [by destruct d|done].
Qed.

Lemma onClosedConnRemoved_neutral p : neutral_p (onClosedConnRemoved p).
Proof.
  unfold onClosedConnRemoved, root_Get. apply neutral_bind_p; [apply neutral_p_read|]. intros hp.
  apply neutral_bind_p; [apply neutral_p_read|]. intros [q|]; [|apply neutral_ret].
  apply neutral_bind_p; [apply neutral_p_read|]. intros []; [|apply neutral_ret].
  apply neutral_p_atomic. intros w Hw. cbn. split; [|by split]. split; try apply Hw.
  cbn. intros hp' p' [_ Hp]%lookup_delete_Some. by apply (lo_root _ Hw hp').
Qed.

Lemma connectionCloseStateChange_neutral p c : neutral_p (connectionCloseStateChange p c).
Proof.
  unfold connectionCloseStateChange. apply neutral_bind_p; [apply neutral_p_read|]. intros st. case_decide; [apply neutral_ret|].
  apply neutral_bind_p; [|intros []; [apply onClosedConnRemoved_neutral|apply neutral_ret]].
  apply neutral_p_atomic. intros w Hw. cbv zeta.
  destruct (removeConnection (inboundConnections _) c); [by apply peer_do_ok|].
  destruct (removeConnection (outboundConnections _) c); [by apply peer_do_ok|done].
Qed.

Lemma getActiveConn_neutral p rnd : neutral_p (getActiveConn p rnd).
Proof.
  apply neutral_p_act. intros w Hw. unfold gcall.
  destruct (getActiveConnLocked_ok rnd (w_conn w) (w_peer w p)) as (o & E & _). by rewrite E.
Qed.
