(* ===== verification/Channel.v ===== *)
(** * Channels (channel.go, subchannel.go, idle_sweep.go, the entry points of peer.go)

    A channel keeps the connections it has to wait for when it closes, its listener,
    the idle sweep and its subchannels.  Its state [Channel] also holds the peers, and
    with them the connections ([Peer.v], [Connection.v]): code of a peer or of a
    connection runs on its part of the state ([Conc.within]).  When a connection calls
    one of its events, the channel's handler runs before the connection's code goes on,
    as in the source.

    A connection is known by its connID, and a channel's peer list is number 0; the
    lists of isolated subchannels are numbered from 1 on.  What the network does (the
    listener's address, what a dial or a handshake returns) is an argument.  Logging,
    the global registry of channels and hooks for tests are left out. *)

From stdpp Require Import functions.
From S2P Require Import Prelude Conc Errors Retry Buffer Checksum Frame Messages Fragment Mex ReqRes Health Connection PeerHeap Peer.

(** ** State *)

Inductive ChannelState := ChannelClient | ChannelListening | ChannelStartClose | ChannelInboundClosed | ChannelClosed.

#[export] Instance ChannelState_eq_dec : EqDecision ChannelState.
Proof. solve_decision. Defined.

Definition ChannelState_int (s : ChannelState) : Z :=
  match s with
  | ChannelClient => 1
  | ChannelListening => 2
  | ChannelStartClose => 3
  | ChannelInboundClosed => 4
  | ChannelClosed => 5
  end.

(** [is_stopCh] is nil, or says whether the channel has been closed. *)
Record idleSweep := mkIdleSweep {
  maxIdleTime : Z;
  idleCheckInterval : Z;
  is_started : bool;
  is_stopCh : option bool
}.

(** What the channel reads of a connection besides its state; the times are in
    nanoseconds. *)
Record connInfo := mkConnInfo {
  remoteHostPort : bytes;
  outboundHP : bytes;
  lastActivityRead : Z;
  lastActivityWrite : Z
}.

(** [ch_l] is nil, or says whether the listener has been closed; a subchannel is the
    number of its peer list. *)
Record Channel := mkChannel {
  ch_state : ChannelState;
  ch_l : option bool;
  ch_hostPort : bytes;
  ch_isEphemeral : bool;
  ch_conns : gset nat;
  ch_closedCh : bool;
  ch_idleSweep : idleSweep;
  ch_subChannels : gmap bytes nat;
  ch_nextList : nat;
  ch_peers : Peers;
  ch_info : nat → connInfo
}.

Definition ch_set_state (s : ChannelState) (ch : Channel) : Channel :=
  mkChannel s (ch_l ch) (ch_hostPort ch) (ch_isEphemeral ch) (ch_conns ch) (ch_closedCh ch)
    (ch_idleSweep ch) (ch_subChannels ch) (ch_nextList ch) (ch_peers ch) (ch_info ch).
Definition ch_set_l (l : option bool) (ch : Channel) : Channel :=
  mkChannel (ch_state ch) l (ch_hostPort ch) (ch_isEphemeral ch) (ch_conns ch) (ch_closedCh ch)
    (ch_idleSweep ch) (ch_subChannels ch) (ch_nextList ch) (ch_peers ch) (ch_info ch).
Definition ch_set_hostPort (hp : bytes) (ch : Channel) : Channel :=
  mkChannel (ch_state ch) (ch_l ch) hp false (ch_conns ch) (ch_closedCh ch)
    (ch_idleSweep ch) (ch_subChannels ch) (ch_nextList ch) (ch_peers ch) (ch_info ch).
Definition ch_set_conns (cs : gset nat) (ch : Channel) : Channel :=
  mkChannel (ch_state ch) (ch_l ch) (ch_hostPort ch) (ch_isEphemeral ch) cs (ch_closedCh ch)
    (ch_idleSweep ch) (ch_subChannels ch) (ch_nextList ch) (ch_peers ch) (ch_info ch).
Definition ch_close_closedCh (ch : Channel) : Channel :=
  mkChannel (ch_state ch) (ch_l ch) (ch_hostPort ch) (ch_isEphemeral ch) (ch_conns ch) true
    (ch_idleSweep ch) (ch_subChannels ch) (ch_nextList ch) (ch_peers ch) (ch_info ch).
Definition ch_set_idle (sw : idleSweep) (ch : Channel) : Channel :=
  mkChannel (ch_state ch) (ch_l ch) (ch_hostPort ch) (ch_isEphemeral ch) (ch_conns ch) (ch_closedCh ch)
    sw (ch_subChannels ch) (ch_nextList ch) (ch_peers ch) (ch_info ch).
Definition ch_set_subs (m : gmap bytes nat) (next : nat) (ch : Channel) : Channel :=
  mkChannel (ch_state ch) (ch_l ch) (ch_hostPort ch) (ch_isEphemeral ch) (ch_conns ch) (ch_closedCh ch)
    (ch_idleSweep ch) m next (ch_peers ch) (ch_info ch).
Definition ch_set_peers (w : Peers) (ch : Channel) : Channel :=
  mkChannel (ch_state ch) (ch_l ch) (ch_hostPort ch) (ch_isEphemeral ch) (ch_conns ch) (ch_closedCh ch)
    (ch_idleSweep ch) (ch_subChannels ch) (ch_nextList ch) w (ch_info ch).
Definition ch_set_info (i : nat) (x : connInfo) (ch : Channel) : Channel :=
  mkChannel (ch_state ch) (ch_l ch) (ch_hostPort ch) (ch_isEphemeral ch) (ch_conns ch) (ch_closedCh ch)
    (ch_idleSweep ch) (ch_subChannels ch) (ch_nextList ch) (ch_peers ch) (<[i := x]> (ch_info ch)).

Definition conn (ch : Channel) (i : nat) : Connection := w_conn (ch_peers ch) i.
Definition put_conn (i : nat) (c : Connection) (ch : Channel) : Channel :=
  let w := ch_peers ch in
  ch_set_peers (mkPeers (root w) (w_peer w) (w_nextPeer w) (w_list w) (<[i := c]> (w_conn w))) ch.

Abbreviation chprog := (prog Channel).

Definition ch_read {A} (f : Channel → A) : chprog A := atomic (λ ch, (f ch, ch)).
Definition ch_do (f : Channel → Channel) : chprog unit := atomic (λ ch, (tt, f ch)).

(** Code of the peers and their lists. *)
Definition on_peers {A} (p : pprog A) : chprog A :=
  within ch_peers ch_set_peers (λ _ _, tt) (λ _, mret tt) p.

(** ** The idle sweep *)

Definition is_start (sw : idleSweep) : idleSweep :=
  if decide (is_started sw = true ∨ idleCheckInterval sw <= 0) then sw
  else mkIdleSweep (maxIdleTime sw) (idleCheckInterval sw) true (Some false).

Definition startIdleSweep (MaxIdleTime IdleCheckInterval : Z) : idleSweep :=
  is_start (mkIdleSweep MaxIdleTime IdleCheckInterval false None).

(** Closing a nil or a closed channel panics. *)
Definition is_Stop (sw : idleSweep) : go idleSweep :=
  if is_started sw then
    match is_stopCh sw with
    | Some false => Ret (mkIdleSweep (maxIdleTime sw) (idleCheckInterval sw) false (Some true))
    | _ => Panic
    end
  else Ret sw.

(** ** New channels *)

Definition validateIdleCheck (MaxIdleTime IdleCheckInterval : Z) : option error :=
  if decide (0 < IdleCheckInterval ∧ MaxIdleTime <= 0) then Some (Sentinel errMaxIdleTimeNotSet) else None.

Definition ephemeralHostPort : bytes := str "0.0.0.0:0".

(** [conns] and [info] are the connections the channel is going to have. *)
Definition NewChannel (serviceName : bytes) (MaxIdleTime IdleCheckInterval : Z)
    (conns : nat → Connection) (info : nat → connInfo) : Channel + error :=
  if decide (serviceName = []) then inr (Sentinel ErrNoServiceName)
  else
    match validateIdleCheck MaxIdleTime IdleCheckInterval with
    | Some e => inr e
    | None =>
        inl (mkChannel ChannelClient None ephemeralHostPort true ∅ false
               (startIdleSweep MaxIdleTime IdleCheckInterval) ∅ 1
               (mkPeers ∅ (λ _, mkPeer [] 0 [] [] 0) 0 (λ _, newPeerList) conns) info)
    end.

(** ** Serving *)

(** The listener is remembered even when the state does not allow to serve. *)
Definition Serve (addr : bytes) : chprog (option error) :=
  atomic (λ ch,
    match ch_l ch with
    | Some _ => (Some (Sentinel errAlreadyListening), ch)
    | None =>
        let ch := ch_set_l (Some false) ch in
        if decide (ch_state ch = ChannelClient)
        then (None, ch_set_hostPort addr (ch_set_state ChannelListening ch))
        else (Some (Sentinel errInvalidStateForOp), ch)
    end).

(** [listen] is what net.Listen returns: the address, or an error. *)
Definition ListenAndServe (listen : bytes + error) : chprog (option error) :=
  l ← ch_read ch_l;
  match l, listen with
  | Some _, _ => mret (Some (Sentinel errAlreadyListening))
  | None, inr e => mret (Some e)
  | None, inl addr => Serve addr
  end.

(** The wait before the next Accept after temporary errors, in nanoseconds. *)
Definition acceptBackoff_next (acceptBackoff : Z) : Z :=
  let acceptBackoff := if decide (acceptBackoff = 0) then 5 * millisecond else 2 * acceptBackoff in
  if decide (1000 * millisecond < acceptBackoff) then 1000 * millisecond else acceptBackoff.

(** ** Updating peers *)

Definition sub_Isolated (name : bytes) (ch : Channel) : option nat :=
  match ch_subChannels ch !! name with
  | Some l => if decide (l = 0%nat) then None else Some l
  | None => None
  end.

(** subChannelMap.updatePeer, for the subchannels in the order of iteration. *)
Fixpoint subs_updatePeer (names : list bytes) (p : nat) : chprog unit :=
  match names with
  | [] => mret tt
  | name :: names =>
      o ← ch_read (sub_Isolated name);
      _ ← match o with Some l => on_peers (onPeerChange l p) | None => mret tt end;
      subs_updatePeer names p
  end.

Definition updatePeer (p : nat) : chprog unit :=
  _ ← on_peers (onPeerChange 0 p);
  names ← ch_read (λ ch, (map_to_list (ch_subChannels ch)).*1);
  subs_updatePeer names p.

Definition exchangeUpdated (i : nat) : chprog unit :=
  hp ← ch_read (λ ch, remoteHostPort (ch_info ch i));
  if decide (hp = []) then mret tt
  else
    o ← on_peers (root_Get hp);
    match o with
    | None => mret tt
    | Some p => updatePeer p
    end.

(** ** Closing connections *)

Definition removeClosedConn (i : nat) : chprog unit :=
  st ← ch_read (λ ch, c_state (conn ch i));
  if decide (st = connectionClosed) then ch_do (λ ch, ch_set_conns (ch_conns ch ∖ {[i]}) ch)
  else mret tt.

(** The states of the connections are read one after another. *)
Fixpoint minState_loop (cs : list nat) (minState : connectionState) : chprog connectionState :=
  match cs with
  | [] => mret minState
  | i :: cs =>
      s ← ch_read (λ ch, c_state (conn ch i));
      minState_loop cs (if decide (connectionState_int s < connectionState_int minState) then s else minState)
  end.

Definition getMinConnectionState : chprog connectionState :=
  cs ← ch_read (λ ch, elements (ch_conns ch));
  minState_loop cs connectionClosed.

(** Closing a closed channel panics. *)
Definition onClosed : chprog unit :=
  atomic_go (λ ch, if ch_closedCh ch then Panic else Ret (tt, ch_close_closedCh ch)).

(** The connection leaves the peer with this host:port. *)
Definition peerLosesConn (hp : bytes) (i : nat) : chprog unit :=
  o ← on_peers (root_Get hp);
  match o with
  | None => mret tt
  | Some p =>
      _ ← on_peers (connectionCloseStateChange p i);
      updatePeer p
  end.

Definition updateTo (minState : connectionState) (chState : ChannelState) : option ChannelState :=
  if decide (connectionState_int connectionClosed <= connectionState_int minState) then Some ChannelClosed
  else if decide (connectionState_int connectionInboundClosed <= connectionState_int minState ∧ chState = ChannelStartClose)
  then Some ChannelInboundClosed
  else None.

(** The end of connectionCloseStateChange. *)
Definition updateState : chprog unit :=
  chState ← ch_read ch_state;
  if decide (chState ≠ ChannelStartClose ∧ chState ≠ ChannelInboundClosed) then mret tt
  else
    minState ← getMinConnectionState;
    match updateTo minState chState with
    | None => mret tt
    | Some u =>
        updated ← atomic (λ ch, if decide (ch_state ch = chState) then (true, ch_set_state u ch) else (false, ch));
        if decide (updated = true ∧ u = ChannelClosed) then onClosed else mret tt
    end.

Definition ch_connectionCloseStateChange (i : nat) : chprog unit :=
  _ ← removeClosedConn i;
  hp ← ch_read (λ ch, remoteHostPort (ch_info ch i));
  _ ← peerLosesConn hp i;
  out ← ch_read (λ ch, outboundHP (ch_info ch i));
  _ ← (if decide (out ≠ [] ∧ out ≠ hp) then peerLosesConn out i else mret tt);
  updateState.

(** ** Calls into a connection *)

Fixpoint conn_events (i : nat) (l : list connEvent) : chprog unit :=
  match l with
  | [] => mret tt
  | e :: l =>
      _ ← match e with
          | OnExchangeUpdated => exchangeUpdated i
          | OnCloseStateChange => ch_connectionCloseStateChange i
          | dispatchInbound _ => mret tt
          end;
      conn_events i l
  end.

(** The events an action of the connection has called. *)
Definition new_events (c c' : Connection) : list connEvent := drop (length (c_events c)) (c_events c').

Definition ch_on_conn {A} (i : nat) (p : cprog A) : chprog A :=
  within (λ ch, conn ch i) (put_conn i) new_events (conn_events i) p.

(** ** New connections *)

Definition ch_addConnection (i : nat) : chprog bool :=
  atomic (λ ch,
    if decide (c_state (conn ch i) ≠ connectionActive) then (false, ch)
    else if decide (ch_state ch = ChannelClient ∨ ch_state ch = ChannelListening)
    then (true, ch_set_conns ({[i]} ∪ ch_conns ch) ch)
    else (false, ch)).

Definition addConnectionToPeer (hp : bytes) (i : nat) (d : direction) : chprog unit :=
  p ← on_peers (root_GetOrAdd hp);
  _ ← on_peers (peer_addConnection p i d);
  updatePeer p.

(** OnActive, which newConnection calls. *)
Definition ch_connectionActive (i : nat) (d : direction) : chprog unit :=
  added ← ch_addConnection i;
  if negb added then
    _ ← ch_on_conn i close_;
    mret tt
  else
    hp ← ch_read (λ ch, remoteHostPort (ch_info ch i));
    addConnectionToPeer hp i d.

Inductive dialError := dialTimeout (e : error) | dialCanceled (e : error) | dialFailed (e : error).

(** What Connect makes of a failed dial. *)
Definition dialErr (e : dialError) : error :=
  match e with
  | dialTimeout _ => ErrTimeout
  | dialCanceled _ => GetContextError ErrRequestCancelled
  | dialFailed e => e
  end.

(** [ctxErr] is what ctx.Err returns, [dial] the outcome of the dialer, and of the
    handshake on the connection it made: a new connection, or an error. *)
Definition Connect (hostPort : bytes) (ctxErr : option sentinel) (dial : (nat + error) + dialError) : chprog (nat + error) :=
  state ← ch_read ch_state;
  if decide (state = ChannelClient ∨ state = ChannelListening) then
    match ctxErr with
    | Some e => mret (inr (GetContextError (Sentinel e)))
    | None =>
        match dial with
        | inr e => mret (inr (dialErr e))
        | inl (inr e) => mret (inr e)
        | inl (inl i) =>
            _ ← ch_connectionActive i outbound;
            hp ← ch_read (λ ch, remoteHostPort (ch_info ch i));
            _ ← (if decide (hostPort = hp) then mret tt else addConnectionToPeer hostPort i outbound);
            mret (inl i)
        end
    end
  else mret (inr (Sentinel errInvalidStateForOp)).

(** ** Close *)

(** The critical section: the connections to close, and whether the channel is closed
    already by this. *)
Definition startChannelClose : GO Channel (list nat * bool) := λ ch,
  if decide (ch_state ch = ChannelClosed) then Ret (([], false), ch)
  else
    let ch := ch_set_l ((λ _, true) <$> ch_l ch) ch in
    match is_Stop (ch_idleSweep ch) with
    | Ret sw =>
        let ch := ch_set_state ChannelStartClose (ch_set_idle sw ch) in
        if decide (ch_conns ch = ∅) then Ret (([], true), ch_set_state ChannelClosed ch)
        else Ret ((elements (ch_conns ch), false), ch)
    | Panic => Panic
    | OutOfFuel => OutOfFuel
    end.

Fixpoint close_all (cs : list nat) : chprog unit :=
  match cs with
  | [] => mret tt
  | i :: cs => _ ← ch_on_conn i close_; close_all cs
  end.

Definition ch_Close : chprog unit :=
  '(connections, channelClosed) ← atomic_go startChannelClose;
  _ ← close_all connections;
  if channelClosed : bool then onClosed else mret tt.

(** ** The idle sweep at work *)

(** [now], and the times of a connection, are in nanoseconds. *)
Definition idle_at (now : Z) (sw : idleSweep) (x : connInfo) : bool :=
  bool_decide (maxIdleTime sw <= now - Z.max (lastActivityRead x) (lastActivityWrite x)).

Fixpoint close_idle (cs : list nat) : chprog unit :=
  match cs with
  | [] => mret tt
  | i :: cs =>
      active ← ch_on_conn i IsActive;
      _ ← (if active : bool then
             pending ← ch_on_conn i hasPendingCalls;
             if pending : bool then mret tt else _ ← ch_on_conn i close_; mret tt
           else mret tt);
      close_idle cs
  end.

Definition checkIdleConnections (now : Z) : chprog unit :=
  idleConnections ← ch_read (λ ch, filter (λ i, idle_at now (ch_idleSweep ch) (ch_info ch i)) (elements (ch_conns ch)));
  close_idle idleConnections.

Definition isMessageTypeCall (f : Frame) : bool :=
  bool_decide (fh_messageType (Header f) ∈ [messageTypeCallReq; messageTypeCallReqContinue; messageTypeCallRes;
                                          messageTypeCallResContinue; messageTypeError]).

Definition updateLastActivityRead (i : nat) (f : Frame) (now : Z) : chprog unit :=
  if isMessageTypeCall f then
    ch_do (λ ch, let x := ch_info ch i in
             ch_set_info i (mkConnInfo (remoteHostPort x) (outboundHP x) now (lastActivityWrite x)) ch)
  else mret tt.

Definition updateLastActivityWrite (i : nat) (f : Frame) (now : Z) : chprog unit :=
  if isMessageTypeCall f then
    ch_do (λ ch, let x := ch_info ch i in
             ch_set_info i (mkConnInfo (remoteHostPort x) (outboundHP x) (lastActivityRead x) now) ch)
  else mret tt.

(** ** Subchannels *)

Definition sub_get (name : bytes) : chprog (option nat) := ch_read (λ ch, ch_subChannels ch !! name).

Definition registerNewSubChannel (name : bytes) : chprog (nat * bool) :=
  atomic (λ ch,
    match ch_subChannels ch !! name with
    | Some l => ((l, false), ch)
    | None => ((0%nat, true), ch_set_subs (<[name := 0%nat]> (ch_subChannels ch)) (ch_nextList ch) ch)
    end).

Definition sub_getOrAdd (name : bytes) : chprog (nat * bool) :=
  o ← sub_get name;
  match o with
  | Some l => mret (l, false)
  | None => registerNewSubChannel name
  end.

(** The option Isolated: the subchannel gets a list of its own. *)
Definition Isolated (name : bytes) : chprog unit :=
  l ← atomic (λ ch, let l := ch_nextList ch in
        (l, ch_set_subs (<[name := l]> (ch_subChannels ch)) (S l) ch));
  on_peers (SetStrategy l leastPendingCalculator []).

Definition GetSubChannel (name : bytes) (isolated : bool) : chprog unit :=
  '(_, added) ← sub_getOrAdd name;
  if decide (added = true ∧ isolated = true) then Isolated name else mret tt.

(** ** Calls *)

(** What the environment answers on the way to a connection: the random starts of the
    two searches for an active connection, and the outcome of dialing. *)
Record callEnv := mkCallEnv {
  e_rnd : nat;
  e_rnd' : nat;
  e_ctxErr : option sentinel;
  e_dial : (nat + error) + dialError
}.

Definition peer_GetConnection (p : nat) (e : callEnv) : chprog (nat + error) :=
  c ← on_peers (getActiveConn p (e_rnd e));
  match c with
  | Some c => mret (inl c)
  | None =>
      c ← on_peers (getActiveConn p (e_rnd' e));
      match c with
      | Some c => mret (inl c)
      | None =>
          hp ← ch_read (λ ch, hostPort (w_peer (ch_peers ch) p));
          Connect hp (e_ctxErr e) (e_dial e)
      end
  end.

Definition maxMethodSize : Z := 16 * 1024.

(** [ttl] is the time to the deadline of the context, if it has one. *)
Definition validateCall (ttl : option Z) (serviceName methodName : bytes) : option error :=
  if decide (serviceName = []) then Some (Sentinel ErrNoServiceName)
  else if decide (maxMethodSize < len methodName) then Some ErrMethodTooLarge
  else match ttl with None => Some ErrTimeoutRequired | Some _ => None end.

(** A call on a connection of the peer: the connection, the message id and the
    exchange; the request state remembers that the peer was selected. *)
Definition peer_BeginCall (p : nat) (e : callEnv) (ttl : option Z) (serviceName methodName : bytes) (rs : option RequestState)
    : chprog (option RequestState * ((nat * (Z * nat)) + error)) :=
  hp ← ch_read (λ ch, hostPort (w_peer (ch_peers ch) p));
  let rs := AddSelectedPeer hp rs in
  match validateCall ttl serviceName methodName with
  | Some err => mret (rs, inr err)
  | None =>
      r ← peer_GetConnection p e;
      match r with
      | inr err => mret (rs, inr err)
      | inl c =>
          r ← ch_on_conn c (beginCall ttl (e_ctxErr e));
          mret (rs, match r with inr err => inr err | inl call => inl (c, call) end)
      end
  end.

Definition ch_BeginCall (hp : bytes) (e : callEnv) (ttl : option Z) (serviceName methodName : bytes) (rs : option RequestState)
    : chprog (option RequestState * ((nat * (Z * nat)) + error)) :=
  p ← on_peers (root_GetOrAdd hp);
  peer_BeginCall p e ttl serviceName methodName rs.

(** SubChannel.BeginCall: a peer is chosen from the list of the subchannel. *)
Definition sub_BeginCall (name : bytes) (rnd : Z) (e : callEnv) (ttl : option Z) (methodName : bytes) (rs : option RequestState)
    : chprog (option RequestState * ((nat * (Z * nat)) + error)) :=
  l ← ch_read (λ ch, default 0%nat (ch_subChannels ch !! name));
  r ← on_peers (pl_Get l (default ∅ (PrevSelectedPeers rs)) rnd);
  match r with
  | inr err => mret (rs, inr err)
  | inl p => peer_BeginCall p e ttl name methodName rs
  end.

Definition ch_Ping (hp : bytes) (e : callEnv) (ctx ctx' : option sentinel) (pk : pick) : chprog (option error) :=
  p ← on_peers (root_GetOrAdd hp);
  r ← peer_GetConnection p e;
  match r with
  | inr err => mret (Some err)
  | inl c => ch_on_conn c (ping ctx ctx' pk)
  end.
