(* ===== verification/FrameLoops.v ===== *)
(** * The reader and the writer of a connection (readFrames and writeFrames of
    connection.go)

    Each connection has a goroutine that reads frames from the network and hands them to
    the connection or its relay, and one that takes frames from the send channel and
    writes them.  They are loops in the state of the channel: besides the connection they
    change the times of the last activity.  Reading the network touches nothing shared and
    is no action; the input is a stream of bytes that ends with an error.  What the select
    statements choose, the time, the frames the pool provides and the outcome of writing
    are given for every round.  The result of a loop is the frames that it releases to the
    pool, and for the writer also the bytes that it has passed to the Write method of the
    network connection.

    The theorems show that the reader, whatever the input, hands over exactly the frames
    that the bytes encode, in their order, and then reports one error; that the writer of
    a connection that is stopped still writes what is queued before it closes the network
    if no write fails; and that frames cross from one connection to the other unchanged
    and in order.  The first holds under every interleaving, the others for a writer that
    runs alone. *)

From stdpp Require Import functions.
From S2P Require Import Prelude Conc Errors Retry Buffer Checksum Frame Messages Fragment Mex ReqRes Health Connection ConnectionSafe ConnectionRun PeerHeap Peer Channel.

(** ** The loops *)

Record readEnv := mkReadEnv {
  re_frame : Frame;
  re_ctx : option sentinel;
  re_pick : pick;
  re_now : Z
}.

Section loops.
Context (i : nat) (handleFrameRelay : option (Frame → chprog bool)).

Definition handleErr (err : error) : chprog unit := ch_on_conn i (readFrames_handleErr err).

(** c.relay is nil, or the relay's part of handleFrameRelay is given. *)
Definition handleFrame (e : readEnv) (frame : Frame) : chprog bool :=
  match handleFrameRelay with
  | None => ch_on_conn i (handleFrameNoRelay (re_ctx e) (re_pick e) frame)
  | Some relay => relay frame
  end.

Fixpoint readFrames (env : list readEnv) (r : Stream) : chprog (list Frame) :=
  match env with
  | [] => atomic_go (λ _, OutOfFuel)
  | e :: env =>
      let '(headerBuf, err, r) := ReadFull 16 r in
      match err with
      | Some err => _ ← handleErr err; mret []
      | None =>
          match ReadBody headerBuf r (re_frame e) with
          | Ret (Some err, frame, _) => _ ← handleErr err; mret [frame]
          | Ret (None, frame, r) =>
              _ ← updateLastActivityRead i frame (re_now e);
              releaseFrame ← handleFrame e frame;
              released ← readFrames env r;
              mret (if releaseFrame : bool then frame :: released else released)
          | _ => atomic_go (λ _, Panic)
          end
      end
  end.

Record writeEnv := mkWriteEnv { we_stop : bool; we_now : Z; we_err : option error }.

(** The outcome of Write is that of the round; the bytes it was given are recorded. *)
Fixpoint writeFrames (env : list writeEnv) : chprog (list Frame * bytes) :=
  match env with
  | [] => atomic_go (λ _, OutOfFuel)
  | e :: env =>
      picked ← ch_on_conn i (writeFrames_select (we_stop e));
      match picked with
      | inl f =>
          _ ← updateLastActivityWrite i f (we_now e);
          match WriteOut_to (λ err, (Some err, [])) (λ bs, (we_err e, bs)) f with
          | Ret (Some err, bs, f) => _ ← ch_on_conn i (connectionError err); mret ([f], bs)
          | Ret (None, bs, f) => '(released, written) ← writeFrames env; mret (f :: released, bs ++ written)
          | _ => atomic_go (λ _, Panic)
          end
      | inr _ =>
          more ← ch_on_conn i writeFrames_stopped;
          if more : bool then writeFrames env else mret ([], [])
      end
  end.

(** ** What the reader does with frames *)

Fixpoint hand_over (l : list (readEnv * Frame)) (finally : chprog (list Frame)) : chprog (list Frame) :=
  match l with
  | [] => finally
  | (e, f) :: l =>
      _ ← updateLastActivityRead i f (re_now e);
      releaseFrame ← handleFrame e f;
      released ← hand_over l finally;
      mret (if releaseFrame : bool then f :: released else released)
  end.
End loops.

(** ** Frames on the wire *)

Definition wire_ok (x : FrameHeader * bytes) : Prop := header_ok x.1 ∧ fh_size x.1 = len x.2 + 16.
Definition wire_enc (x : FrameHeader * bytes) : bytes := hdr_enc x.1 ++ x.2.

(** The frame has the header (the reserved bytes are not read) and the payload. *)
Definition carries (f : Frame) (x : FrameHeader * bytes) : Prop :=
  frame_ok f ∧ SizedPayload f = Ret x.2
  ∧ Header f = mkFrameHeader (fh_size x.1) (fh_messageType x.1) (reserved1 x.1) (ID x.1) (reserved (Header f)).

(** No frame can be read from the bytes. *)
Definition no_frame (bs : bytes) : Prop := ∀ x rest, wire_ok x → bs ≠ wire_enc x ++ rest.

Lemma hdr_enc_inj x y : header_ok x → header_ok y → hdr_enc x = hdr_enc y → x = y.
Proof.
  intros Hx Hy E. pose proof (FrameHeader_read_spec x x Hx (proj2 (proj2 Hx)) 0 []) as H1.
  pose proof (FrameHeader_read_spec x y Hy (proj2 (proj2 Hx)) 0 []) as H2. rewrite <- E, H1 in H2.
  assert (Hr : reserved x = reserved y).
  { unfold hdr_enc in E. rewrite !app_assoc in E. apply app_inj_2 in E as [_ E]; [done|].
    by destruct Hx as (_ & _ & ->), Hy as (_ & _ & ->). }
  destruct x, y. cbn in *. by simplify_eq.
Qed.

(** A stream of bytes has at most one frame at its start. *)
Lemma wire_enc_inj x y rest rest' :
  wire_ok x → wire_ok y → wire_enc x ++ rest = wire_enc y ++ rest' → x = y ∧ rest = rest'.
Proof.
  intros [Hx Sx] [Hy Sy] E. unfold wire_enc in E. rewrite <- !app_assoc in E.
  apply app_inj_1 in E as [E1 E2].
  2:{ rewrite !length_hdr_enc; [done|apply Hy|apply Hx]. }
  apply hdr_enc_inj in E1; [|done..]. destruct x as [h p], y as [h' p']. cbn in *. subst h'.
  apply app_inj_1 in E2 as [-> ->]; [done|]. lia.
Qed.

(** Bytes start with a frame if there are as many as their size field says. *)
Lemma frame_at bs :
  16 <= be_dec (take 2 bs) <= len bs → 16 <= len bs → ∃ x rest, wire_ok x ∧ bs = wire_enc x ++ rest.
Proof.
  intros Hs Hl. destruct (hdr_dec (take 16 bs)) as (fh & Hok & Henc & Hsz); [rewrite length_take; lia|].
  rewrite take_take in Hsz. change (2 `min` 16)%nat with 2%nat in Hsz. rewrite <- Hsz in Hs.
  exists (fh, take (Z.to_nat (fh_size fh) - 16) (drop 16 bs)), (drop (Z.to_nat (fh_size fh) - 16) (drop 16 bs)).
  split; [split; [done|]|].
  - cbn. rewrite length_take, length_drop. lia.
  - unfold wire_enc. cbn [fst snd]. by rewrite Henc, <- app_assoc, !take_drop.
Qed.

Lemma first_frame bs : (∃ x rest, wire_ok x ∧ bs = wire_enc x ++ rest) ∨ no_frame bs.
Proof.
  destruct (decide (16 <= be_dec (take 2 bs) <= len bs ∧ 16 <= len bs)) as [[Hs Hl]|Hn]; [left; by apply frame_at|].
  right. intros x rest [Hx Sx] ->. apply Hn. destruct Hx as (Hr & _ & Hl). unfold wire_enc.
  assert (take 2 ((hdr_enc x.1 ++ x.2) ++ rest) = be_enc 2 (fh_size x.1)) as ->.
  { unfold hdr_enc. rewrite <- !app_assoc. apply take_app_length'. by rewrite length_be_enc. }
  rewrite be_dec_enc, Z.mod_small by (cbn; lia). rewrite !length_app, length_hdr_enc by done. lia.
Qed.

Lemma ReadIn_frame f x rest e :
  frame_ok f → wire_ok x → ∃ g, ReadIn (mkStream (wire_enc x ++ rest) e) f = Ret (None, g, mkStream rest e) ∧ carries g x.
Proof.
  intros Hf [Hx Sx]. destruct (ReadIn_spec f Hf x.1 x.2 rest e Hx Sx) as (g & HR & Hg & Hh & Hp & _).
  exists g. unfold wire_enc. rewrite <- app_assoc. split; [done|]. split_and!; [done|done|]. by rewrite Hh.
Qed.

Lemma ReadIn_no_frame f s :
  frame_ok f → no_frame (input s) → ∃ err g s', ReadIn s f = Ret (Some err, g, s') ∧ (input s = [] → err = end_err s).
Proof.
  intros Hf Hn. destruct (ReadIn_total s f Hf) as ([err|] & g & s' & HR & _ & Hiff & _).
  - exists err, g, s'. split; [done|]. intros E. unfold ReadIn, ReadFull in HR. rewrite E in HR.
    rewrite decide_False, decide_True in HR by (cbn; lia). by injection HR.
  - exfalso. destruct (proj1 Hiff eq_refl) as [Hs Hl]. destruct (frame_at _ Hs Hl) as (x & rest & Hx & E). by apply (Hn x rest).
Qed.

Section reading.
Context (i : nat) (handleFrameRelay : option (Frame → chprog bool)).

(** One round of the reader; the frame is not taken from the pool if there is no header. *)
Lemma readFrames_round e env r :
  readFrames i handleFrameRelay (e :: env) r =
  match ReadIn r (re_frame e) with
  | Ret (Some err, frame, _) => _ ← handleErr i err; mret (if decide (16 <= length (input r))%nat then [frame] else [])
  | Ret (None, frame, r) =>
      _ ← updateLastActivityRead i frame (re_now e);
      releaseFrame ← handleFrame i handleFrameRelay e frame;
      released ← readFrames i handleFrameRelay env r;
      mret (if releaseFrame : bool then frame :: released else released)
  | _ => atomic_go (λ _, Panic)
  end.
Proof.
  cbn [readFrames]. unfold ReadIn, ReadFull. case_decide; [|done]. cbn beta iota.
  destruct (ReadBody _ _ _) as [[[[err|] f] s]| |]; done.
Qed.

Lemma readFrames_dispatches (env : list readEnv) (r : Stream) :
  Forall (λ e, frame_ok (re_frame e)) env → (length (input r) < 16 * length env)%nat →
  ∃ sent tail fs err last, (length fs < length env)%nat ∧
    input r = concat (wire_enc <$> sent) ++ tail ∧ Forall wire_ok sent ∧ no_frame tail
    ∧ Forall2 carries fs sent ∧ (tail = [] → err = end_err r ∧ last = [])
    ∧ readFrames i handleFrameRelay env r
      ≡ hand_over i handleFrameRelay (zip env fs) (_ ← handleErr i err; mret last).
Proof.
  revert r. induction env as [|e env IH]; intros r Henv Hlen; [cbn in Hlen; lia|].
  apply Forall_cons in Henv as [He Henv]. rewrite readFrames_round.
  destruct r as [inp er]. destruct (first_frame inp) as [(x & rest & Hx & ->)|Hn].
  - destruct (ReadIn_frame (re_frame e) x rest er He Hx) as (g & -> & Hg).
    destruct (IH (mkStream rest er)) as (sent & tail & fs & err & last & Hl & Hin & Hok & Hno & Hfs & Herr & Heq); [done| |].
    { cbn [input length] in *. unfold wire_enc in Hlen. rewrite !length_app, length_hdr_enc in Hlen by apply Hx. lia. }
    exists (x :: sent), tail, (g :: fs), err, last. cbn [input end_err] in *. split_and!; try by constructor.
    + cbn. lia.
    + cbn [fmap list_fmap concat]. rewrite <- app_assoc. congruence.
    + done.
    + done.
    + cbn [zip zip_with hand_over]. apply bind_equiv. intros _. apply bind_equiv. intros b. by apply prog_bind_proper.
  - destruct (ReadIn_no_frame (re_frame e) (mkStream inp er) He Hn) as (err & g & s' & -> & Herr).
    exists [], inp, [], err, (if decide (16 <= length inp)%nat then [g] else []). split_and!; try done; [cbn; lia|].
    intros ->. split; [by apply Herr|done].
Qed.
End reading.

(** ** What the writer writes *)

(** A frame to be sent. *)
Definition sends (f : Frame) (x : FrameHeader * bytes) : Prop :=
  frame_ok f ∧ wire_ok x ∧ Header f = x.1 ∧ SizedPayload f = Ret x.2.

Lemma WriteOut_sends {R} (fail : error → R) w f x :
  sends f x → ∃ g, WriteOut_to fail w f = Ret (w (wire_enc x), g).
Proof.
  intros (Hf & [Hx Sx] & Hh & Hp). pose proof (length_Payload f Hf) as Hl. destruct x as [fh p]. cbn [fst snd] in *.
  assert (len p <= MaxFramePayloadSize ∧ take (length p) (Payload f) = p) as [Hsz Hpre].
  { unfold SizedPayload, slice_to in Hp. case_decide as Hd; [|done]. injection Hp as <-. rewrite length_take.
    split; [lia|]. f_equal. lia. }
  pose proof (WriteOut_spec f fail w (headerBuffer f) p (drop (length p) (Payload f)) fh) as HW.
  unfold setHeader in HW. rewrite <- Hh in HW at 1. destruct f as [buf h]. cbn [buffer Header] in *. subst h.
  eexists. rewrite HW; [reflexivity| |..].
  - rewrite <- Hpre at 1. rewrite take_drop. unfold headerBuffer, Payload. cbn [buffer]. by rewrite take_drop.
  - destruct Hf as [Hb _]. unfold headerBuffer. cbn [buffer] in *. rewrite length_take. frame_lia.
  - done.
  - apply Hx.
Qed.

(** ** The writer of a connection that is stopped *)

Lemma conn_put_same i c ch : conn (put_conn i c ch) i = c.
Proof. unfold conn, put_conn. cbn. by rewrite fn_lookup_insert. Qed.

Lemma new_events_same c c' : c_events c' = c_events c → new_events c c' = [].
Proof. intros E. unfold new_events. rewrite E. apply drop_ge. done. Qed.

(** Code of a connection that calls no event. *)
Fixpoint silent {A} (p : cprog A) : Prop :=
  match p with
  | done_ _ => True
  | act m k => ∀ c r c', m c = Ret (r, c') → c_events c' = c_events c ∧ silent (k r)
  end.

Lemma silent_bind {A B} (p : cprog A) (k : A → cprog B) : silent p → (∀ a, silent (k a)) → silent (p ≫= k).
Proof.
  intros Hp Hk. induction p as [a|R m c IH]; [apply Hk|]. cbn in *. intros s r s' E.
  destruct (Hp s r s' E) as [He Hs]. split; [done|]. by apply IH.
Qed.

Lemma silent_read {A} (f : Connection → A) : silent (c_read f).
Proof. cbn. unfold glift. intros c r c' E. by injection E as <- <-. Qed.

(** It runs within the channel as it does on its own. *)
Lemma run_silent {A} i (p : cprog A) : silent p → ∀ ch a c',
  run p (conn ch i) = Ret (a, c') → ∃ ch', run (ch_on_conn i p) ch = Ret (a, ch') ∧ conn ch' i = c'.
Proof.
  induction p as [a0|R m k IH]; intros Hp ch a c' E; cbn in E.
  - injection E as <- <-. by exists ch.
  - destruct (m (conn ch i)) as [[r c1]| |] eqn:Em; [|done..]. destruct (Hp _ _ _ Em) as [He Hs].
    unfold ch_on_conn. cbn [within run]. unfold inside. rewrite Em, new_events_same by done.
    apply (IH r Hs (put_conn i c1 ch)). by rewrite conn_put_same.
Qed.

Lemma select_silent stop : silent (writeFrames_select stop).
Proof.
  cbn. intros c r c' E. destruct (c_sendCh c), (c_stopCh c), stop; cbn in E; simplify_eq; done.
Qed.

Lemma closeNetwork_silent : silent closeNetwork.
Proof.
  unfold closeNetwork, stopHealthCheck. apply silent_bind.
  - apply silent_bind; [apply silent_read|]. intros []; [|done]. apply silent_bind; [apply silent_read|]. intros []; [done|].
    apply silent_bind; [|intros _]; cbn; intros c r c' E.
    + by injection E as <- <-.
    + destruct (c_healthDone c); by simplify_eq.
  - intros _. cbn. intros c r c' E. by injection E as <- <-.
Qed.

Lemma stopped_silent : silent writeFrames_stopped.
Proof.
  apply silent_bind; [apply silent_read|]. intros n. case_decide; [done|].
  apply silent_bind; [apply closeNetwork_silent|done].
Qed.

Lemma run_stopped c :
  health_idle c →
  run writeFrames_stopped c
  = Ret (match c_sendCh c with
         | [] => (false, c_set_health (c_healthQuit c) (c_healthDone c) true c)
         | _ => (true, c)
         end).
Proof.
  intros Hh. unfold writeFrames_stopped, c_read. rewrite run_atomic. cbn [fst snd].
  destruct (c_sendCh c) as [|f q]; cbn [length]; case_decide; try lia; [|done].
  unfold closeNetwork. rewrite run_bind. unfold mbind at 1, gost_bind. by rewrite run_stopHealthCheck.
Qed.

Lemma run_activity i f now ch :
  ∃ ch', run (updateLastActivityWrite i f now) ch = Ret (tt, ch') ∧ conn ch' i = conn ch i.
Proof. unfold updateLastActivityWrite. destruct (isMessageTypeCall f); by eexists. Qed.

(** The rounds in which the select takes a frame when there is one. *)
Definition taking (env : list writeEnv) : nat := length (filter (λ e, we_stop e = false) env).

(** A frame is taken and written. *)
Lemma writeFrames_takes i e env ch f ws x :
  c_sendCh (conn ch i) = f :: ws → we_stop e = false → we_err e = None → sends f x →
  ∃ g ch', conn ch' i = c_set_sendCh ws (conn ch i)
  ∧ ∀ released written ch2, run (writeFrames i env) ch' = Ret ((released, written), ch2) →
    run (writeFrames i (e :: env)) ch = Ret ((g :: released, wire_enc x ++ written), ch2).
Proof.
  intros Hq Hs He Hf. destruct (WriteOut_sends (λ err, (Some err, [])) (λ bs, (we_err e, bs)) f x Hf) as (g & HW).
  destruct (run_silent i _ (select_silent (we_stop e)) ch (inl f) (c_set_sendCh ws (conn ch i))) as (ch1 & R1 & E1).
  { cbn. by rewrite Hq, Hs, andb_false_r. }
  destruct (run_activity i f (we_now e) ch1) as (ch2 & R2 & E2).
  exists g, ch2. split; [congruence|]. intros released written ch3 R3. cbn [writeFrames].
  rewrite (run_bind_ret _ _ _ _ _ R1), (run_bind_ret _ _ _ _ _ R2), HW, He. by rewrite (run_bind_ret _ _ _ _ _ R3).
Qed.

(** The select takes the stop channel. *)
Lemma writeFrames_stops i e env ch :
  c_stopCh (conn ch i) = true → health_idle (conn ch i) → we_stop e = true ∨ c_sendCh (conn ch i) = [] →
  ∃ ch', (c_sendCh (conn ch i) = [] → run (writeFrames i (e :: env)) ch = Ret (([], []), ch')
          ∧ c_sendCh (conn ch' i) = [] ∧ c_closeNetworkCalled (conn ch' i) = true)
  ∧ (c_sendCh (conn ch i) ≠ [] → conn ch' i = conn ch i ∧ run (writeFrames i (e :: env)) ch = run (writeFrames i env) ch').
Proof.
  intros Hs Hh Hc. destruct (run_silent i _ (select_silent (we_stop e)) ch (inr tt) (conn ch i)) as (ch1 & R1 & E1).
  { cbn. rewrite Hs. destruct (c_sendCh (conn ch i)); [done|]. by destruct Hc as [->|]. }
  cbn [writeFrames]. rewrite (run_bind_ret _ _ _ _ _ R1).
  pose proof (run_stopped (conn ch1 i) ltac:(by rewrite E1)) as R2.
  destruct (c_sendCh (conn ch1 i)) as [|f q] eqn:Eq;
    destruct (run_silent i _ stopped_silent ch1 _ _ R2) as (ch2 & R & E2); rewrite (run_bind_ret _ _ _ _ _ R), <- E1, Eq.
  - exists ch2. split; [|done]. intros _. by rewrite E2.
  - exists ch2. split; [done|]. by rewrite E2.
Qed.

Lemma writer_drains i env : ∀ ch ws xs,
  c_stopCh (conn ch i) = true → health_idle (conn ch i) → c_sendCh (conn ch i) = ws →
  Forall2 sends ws xs → Forall (λ e, we_err e = None) env → (length ws < taking env)%nat →
  ∃ released ch', run (writeFrames i env) ch = Ret ((released, concat (wire_enc <$> xs)), ch')
  ∧ c_sendCh (conn ch' i) = [] ∧ c_closeNetworkCalled (conn ch' i) = true ∧ length released = length ws.
Proof.
  induction env as [|e env IH]; intros ch ws xs Hstop Hh Hq Hws Herr Hlen; [cbn in Hlen; lia|].
  apply Forall_cons in Herr as [He Herr]. unfold taking in *. rewrite filter_cons in Hlen.
  destruct ws as [|f ws]; [|destruct (we_stop e) eqn:Es].
  - apply Forall2_nil_inv_l in Hws as ->.
    destruct (writeFrames_stops i e env ch Hstop Hh) as (ch' & H & _); [by right|]. destruct (H Hq) as (R & ? & ?). by exists [], ch'.
  - destruct (writeFrames_stops i e env ch Hstop Hh) as (ch' & _ & H); [by left|]. destruct H as [E R]; [by rewrite Hq|].
    rewrite R, decide_False in * by done. apply (IH ch' (f :: ws) xs); by rewrite ?E.
  - rewrite decide_True in Hlen by done. cbn [length] in Hlen. apply Forall2_cons_inv_l in Hws as (x & xs' & Hf & Hws & ->).
    destruct (writeFrames_takes i e env ch f ws x Hq Es He Hf) as (g & ch1 & E & Hrun).
    destruct (IH ch1 ws xs') as (released & ch' & R & ? & ? & Hw); [rewrite ?E; try done; lia..|].
    exists (g :: released), ch'. split_and!; [by apply Hrun|done|done|]. cbn [length]. by rewrite Hw.
Qed.

(** ** From one connection to the other *)

Lemma wire_unique xs : ∀ sent tail,
  Forall wire_ok xs → Forall wire_ok sent → no_frame tail →
  concat (wire_enc <$> xs) = concat (wire_enc <$> sent) ++ tail → sent = xs ∧ tail = [].
Proof.
  induction xs as [|x xs IH]; intros [|y sent] tail Hxs Hsent Hn E; cbn in E.
  - by subst.
  - apply Forall_cons in Hsent as [[Hy _] _]. apply (f_equal length) in E. unfold wire_enc in E.
    rewrite !length_app, length_hdr_enc in E by apply Hy. cbn in E. lia.
  - subst tail. apply Forall_cons in Hxs as [Hx _]. by destruct (Hn x (concat (wire_enc <$> xs)) Hx).
  - apply Forall_cons in Hxs as [Hx Hxs]. apply Forall_cons in Hsent as [Hy Hsent]. rewrite <- app_assoc in E.
    apply wire_enc_inj in E as [-> E]; [|done..]. by destruct (IH sent tail Hxs Hsent Hn E) as [-> ->].
Qed.

(** C6: Whatever bytes arrive, the reader of a connection does exactly this: it hands
    over the frames that the bytes encode, one after the other and with their headers and
    payloads, up to the place where no frame can be read, and then reports one error and
    ends; the error is that of the stream if all bytes belong to frames.  Nothing is lost,
    repeated or reordered, no input makes it panic, and a round for every 16 bytes is
    enough.  The equivalence holds for every interleaving with other goroutines, with and
    without a relay. *)
Theorem readFrames_decodes i handleFrameRelay (env : list readEnv) (r : Stream) :
  Forall (λ e, frame_ok (re_frame e)) env → (length (input r) < 16 * length env)%nat →
  ∃ sent tail fs err last, (length fs < length env)%nat ∧
    input r = concat (wire_enc <$> sent) ++ tail ∧ Forall wire_ok sent ∧ no_frame tail
    ∧ Forall2 carries fs sent ∧ (tail = [] → err = end_err r ∧ last = [])
    ∧ readFrames i handleFrameRelay env r
      ≡ hand_over i handleFrameRelay (zip env fs) (_ ← handleErr i err; mret last).
Proof. apply readFrames_dispatches. Qed.

(** C5: When a connection is closed, the frames that are in its send channel still reach
    the peer.  The writer, once stopped, passes exactly the encodings of these frames, in
    their order, to the network connection and releases as many frames, before it closes
    the network, even if its select prefers the stop channel now and then.  The reader of a
    peer that receives these bytes hands over frames with the same headers and payloads in
    the same order, and then finds the end of the stream.  This is for a writer that runs
    without interference, when no write fails, the select takes a frame in enough rounds,
    and the health check has ended or there is none. *)
Theorem frames_cross i env ch xs :
  c_stopCh (conn ch i) = true → health_idle (conn ch i) → Forall2 sends (c_sendCh (conn ch i)) xs →
  Forall (λ e, we_err e = None) env → (length xs < taking env)%nat →
  ∃ released written ch', run (writeFrames i env) ch = Ret ((released, written), ch')
  ∧ c_sendCh (conn ch' i) = [] ∧ c_closeNetworkCalled (conn ch' i) = true
  ∧ length released = length xs ∧ written = concat (wire_enc <$> xs)
  ∧ ∀ j handleFrameRelay renv,
    Forall (λ e, frame_ok (re_frame e)) renv → (length written < 16 * length renv)%nat →
    ∃ fs, Forall2 carries fs xs
    ∧ readFrames j handleFrameRelay renv (mkStream written (io_EOF : error))
      ≡ hand_over j handleFrameRelay (zip renv fs) (_ ← handleErr j (io_EOF : error); mret []).
Proof.
  intros Hs Hh Hq He Hl.
  destruct (writer_drains i env ch _ xs Hs Hh eq_refl Hq He) as (released & ch' & R & Hq' & Hc & Hw).
  { by rewrite (Forall2_length _ _ _ Hq). }
  exists released, (concat (wire_enc <$> xs)), ch'. rewrite <- (Forall2_length _ _ _ Hq).
  split_and!; [done..|]. intros j relay renv Hr Hlen.
  destruct (readFrames_dispatches j relay renv (mkStream _ (io_EOF : error)) Hr Hlen)
    as (sent & tail & fs & err & last & _ & Hin & Hok & Hn & Hfs & Herr & Heq).
  cbn [input] in Hin. apply wire_unique in Hin as [-> ->]; [|try done..].
  - exists fs. split; [done|]. destruct (Herr eq_refl) as [-> ->]. done.
  - clear -Hq. induction Hq as [|f x ws xs Hf _ IH]; constructor; [apply Hf|done].
Qed.

(** ** Examples *)

Definition blank_env : readEnv := mkReadEnv (NewFrame (Z.to_nat MaxFramePayloadSize)) None pickCtx 0.
Definition ping_header (id : Z) : FrameHeader := mkFrameHeader 16 messageTypePingReq x00 id (replicate 8 x00).

Lemma new_frame_ok h : length (reserved h) = 8%nat → frame_ok (setHeader h (NewFrame (Z.to_nat MaxFramePayloadSize))).
Proof. intros H. split; [|done]. unfold NewFrame, setHeader. cbn [buffer]. rewrite length_replicate. reflexivity. Qed.

Lemma blank_env_ok : frame_ok (re_frame blank_env).
Proof. by apply (new_frame_ok zeroHeader). Qed.

Lemma ping_ok id : 0 <= id < 2^32 → wire_ok (ping_header id, []).
Proof. intros H. repeat split; cbn; lia. Qed.

(** A ping, and the first bytes of another one. *)
Lemma readFrames_decodes_witness :
  ∃ f err last, carries f (ping_header 7, [])
  ∧ readFrames 0 None [blank_env; blank_env] (mkStream (hdr_enc (ping_header 7) ++ [x00; x10]) (io_EOF : error))
    ≡ hand_over 0 None [(blank_env, f)] (_ ← handleErr 0 err; mret last).
Proof.
  destruct (readFrames_decodes 0 None [blank_env; blank_env] (mkStream (hdr_enc (ping_header 7) ++ [x00; x10]) (io_EOF : error)))
    as (sent & tail & fs & err & last & Hl & Hin & Hok & Hn & Hfs & _ & Heq).
  - repeat constructor; apply blank_env_ok.
  - vm_compute. lia.
  - assert (sent = [(ping_header 7, [])]) as ->.
    { destruct sent as [|x [|y sent]].
      - cbn [input fmap list_fmap concat app] in Hin. exfalso. apply (Hn (ping_header 7, []) [x00; x10]); [by apply ping_ok|].
        rewrite <- Hin. unfold wire_enc. cbn [fst snd]. by rewrite app_nil_r.
      - apply Forall_inv in Hok. cbn [input fmap list_fmap concat] in Hin. rewrite app_nil_r in Hin.
        destruct (wire_enc_inj (ping_header 7, []) x [x00; x10] tail) as [-> _]; [by apply ping_ok|done| |done].
        unfold wire_enc at 1. cbn [fst snd]. by rewrite app_nil_r.
      - exfalso. apply (f_equal length) in Hin. unfold wire_enc in Hin. apply Forall_cons in Hok as [[Hx _] [[Hy _] _]%Forall_cons].
        cbn [input fmap list_fmap concat] in Hin. rewrite !length_app, !length_hdr_enc in Hin by (apply Hx || apply Hy || done).
        cbn in Hin. lia. }
    apply Forall2_cons_inv_r in Hfs as (f & fs' & Hf & Hfs & ->). apply Forall2_nil_inv_r in Hfs as ->.
    exists f, err, last. split; [exact Hf|exact Heq].
Defined.

Definition ping_frame (id : Z) : Frame := setHeader (ping_header id) (NewFrame (Z.to_nat MaxFramePayloadSize)).

Lemma ping_frame_sends id : 0 <= id < 2^32 → sends (ping_frame id) (ping_header id, []).
Proof. intros H. split_and!; [by apply new_frame_ok|by apply ping_ok..|done|done]. Qed.

Definition closing_conn : Connection :=
  c_close_stopCh (c_set_sendCh [ping_frame 1; ping_frame 2] (newConnection 1 10 false false)).

Definition closing_channel : Channel :=
  mkChannel ChannelClient None [] true ∅ false (mkIdleSweep 0 0 false None) ∅ 1
    (mkPeers ∅ (λ _, mkPeer [] 0 [] [] 0) 0 (λ _, newPeerList) (λ _, closing_conn)) (λ _, mkConnInfo [] [] 0 0).

(** Two pings in the send channel of a connection that is closed. *)
Lemma frames_cross_witness :
  ∃ released written ch' f g,
    run (writeFrames 0 [mkWriteEnv false 0 None; mkWriteEnv true 0 None; mkWriteEnv false 0 None; mkWriteEnv false 0 None])
      closing_channel = Ret ((released, written), ch')
  ∧ c_sendCh (conn ch' 0) = [] ∧ c_closeNetworkCalled (conn ch' 0) = true
  ∧ carries f (ping_header 1, []) ∧ carries g (ping_header 2, [])
  ∧ readFrames 0 None [blank_env; blank_env; blank_env] (mkStream written (io_EOF : error))
    ≡ hand_over 0 None [(blank_env, f); (blank_env, g)] (_ ← handleErr 0 (io_EOF : error); mret []).
Proof.
  destruct (frames_cross 0 [mkWriteEnv false 0 None; mkWriteEnv true 0 None; mkWriteEnv false 0 None; mkWriteEnv false 0 None]
    closing_channel [(ping_header 1, []); (ping_header 2, [])]) as (released & written & ch' & R & Hq & Hc & _ & Hw & Hread).
  - reflexivity.
  - by left.
  - constructor; [apply ping_frame_sends; lia|]. constructor; [apply ping_frame_sends; lia|constructor].
  - repeat constructor.
  - apply Nat.ltb_lt. reflexivity.
  - destruct (Hread 0%nat None [blank_env; blank_env; blank_env]) as (fs & Hfs & Heq).
    + repeat constructor; apply blank_env_ok.
    + rewrite Hw. vm_compute. lia.
    + apply Forall2_cons_inv_r in Hfs as (f & fs' & Hf & Hfs & ->). apply Forall2_cons_inv_r in Hfs as (g & fs & Hg & Hfs & ->).
      apply Forall2_nil_inv_r in Hfs as ->. exists released, written, ch', f, g. split_and!; assumption.
Defined.
