(* ===== verification/HyperbahnClient.v ===== *)
(** * The client of Hyperbahn (hyperbahn/client.go, utils.go, discover.go, call.go,
    gen-go/hyperbahn/tchan-hyperbahn.go)

    NewClient checks its configuration and adds the initial nodes to the peers of the
    subchannel "hyperbahn" of its channel; Advertise collects the services for the
    request; Discover asks Hyperbahn for the peers of a service and writes them as
    host:port strings; Close ends the background advertisements.

    The file with the nodes (os.Open and the decoding of its JSON) and the call of the
    Thrift client are arguments.  The theorems show that a valid configuration puts
    exactly its nodes into the peer list and an invalid one changes nothing, that the
    host:port strings of Discover identify the address and the port and are accepted
    wherever a node is parsed, that the results of a discovery reach the caller as the
    handler returned them, and that Close is not safe for concurrent use. *)

From stdpp Require Import functions.
From S2P Require Import Prelude Text Conc Errors Retry Buffer Checksum Frame Messages Fragment Mex ReqRes Health Connection PeerHeap Peer PeerCorrect PeerShared Channel Hyperbahn.

(** ** Options and configuration *)

Definition hyperbahnServiceName : bytes := str "hyperbahn".

(** The handler of events and the function to sleep with: the user's (an identity) or
    the default. *)
Inductive Handler := nullHandler | userHandler (id : nat).
Inductive Sleep := quitSleep | userSleep (id : nat).

Record ClientOptions := mkClientOptions {
  Timeout : Z;
  TimeoutPerAttempt : Z;
  co_Handler : option Handler;
  co_FailStrategy : FailStrategy;
  TimeSleep : option Sleep
}.

Definition zeroOptions : ClientOptions := mkClientOptions 0 0 None FailStrategyFatal None.

(** The defaults of NewClient. *)
Definition withDefaults (opts : option ClientOptions) : ClientOptions :=
  let o := default zeroOptions opts in
  mkClientOptions
    (if decide (Timeout o = 0) then 3 * second else Timeout o)
    (if decide (TimeoutPerAttempt o = 0) then second else TimeoutPerAttempt o)
    (Some (default nullHandler (co_Handler o)))
    (co_FailStrategy o)
    (Some (default quitSleep (TimeSleep o))).

Record Configuration := mkConfiguration { InitialNodes : list bytes; InitialNodesFile : bytes }.

Inductive configError :=
| badFile (e : error)
| noInitialNodes
| invalidNode (node : bytes) (why : addrError).

(** The check of the nodes, in order. *)
Fixpoint checkNodes (nodes : list bytes) : option configError :=
  match nodes with
  | [] => None
  | node :: nodes =>
      match SplitHostPort node with
      | inr why => Some (invalidNode node why)
      | inl _ => checkNodes nodes
      end
  end.

(** [load] opens and decodes a file. *)
Definition parseConfig (load : bytes → list bytes + error) (config : Configuration) : Configuration + configError :=
  let loaded :=
    if decide (InitialNodesFile config = []) then inl config
    else match load (InitialNodesFile config) with
         | inl nodes => inl (mkConfiguration nodes (InitialNodesFile config))
         | inr e => inr (badFile e)
         end in
  match loaded with
  | inr e => inr e
  | inl config =>
      if decide (InitialNodes config = []) then inr noInitialNodes
      else match checkNodes (InitialNodes config) with Some e => inr e | None => inl config end
  end.

(** ** The client *)

(** [c_quit] says whether the channel has been closed. *)
Record Client := mkClient { c_services : list bytes; c_opts : ClientOptions; c_quit : bool }.

(** The peer list of a subchannel; [rnds] are the random numbers of the heap. *)
Definition sub_Peers (name : bytes) (ch : Channel) : nat := default 0%nat (ch_subChannels ch !! name).

Definition addPeer (rnd rnd' : Z) (hostPort : bytes) : chprog unit :=
  _ ← GetSubChannel hyperbahnServiceName false;
  l ← ch_read (sub_Peers hyperbahnServiceName);
  _ ← on_peers (pl_Add l hostPort rnd rnd');
  mret tt.

Fixpoint addPeers (rnds : bytes → Z * Z) (nodes : list bytes) : chprog unit :=
  match nodes with
  | [] => mret tt
  | node :: nodes => _ ← addPeer (rnds node).1 (rnds node).2 node; addPeers rnds nodes
  end.

Definition NewClient (load : bytes → list bytes + error) (rnds : bytes → Z * Z)
    (config : Configuration) (opts : option ClientOptions) : chprog (Client + configError) :=
  match parseConfig load config with
  | inr e => mret (inr e)
  | inl config =>
      _ ← addPeers rnds (InitialNodes config);
      mret (inl (mkClient [] (withDefaults opts) false))
  end.

(** [own] is the service name of the channel. *)
Definition getServiceNames (own : bytes) (others : list bytes) (c : Client) : Client :=
  mkClient (own :: others) (c_opts c) (c_quit c).

Record service := mkService { svc_Name : bytes; svc_Cost : Z }.
Definition createRequest (c : Client) : list service := (λ s, mkService s 0) <$> c_services c.

Definition IsClosed (c : Client) : bool := c_quit c.

(** Closing a closed channel panics; another goroutine can act after the check. *)
Definition close_quit : GO Client unit := λ c,
  if c_quit c then Panic else Ret (tt, mkClient (c_services c) (c_opts c) true).
Definition Close : prog Client unit :=
  closed ← atomic (λ c, (IsClosed c, c));
  if closed : bool then mret tt else atomic_go close_quit.

(** ** Discovery *)

Definition intToIP4 (ip : Z) : list byte :=
  [byte_of_Z (Z.land (Z.shiftr ip 24) 255); byte_of_Z (Z.land (Z.shiftr ip 16) 255);
   byte_of_Z (Z.land (Z.shiftr ip 8) 255); byte_of_Z (Z.land ip 255)].

(** net.IP.String of four bytes. *)
Definition IP_String (ip : list byte) : bytes := Join ((λ b, Itoa (Z_of_byte b)) <$> ip) [dot].

(** A ServicePeer: its IP is a pointer to a union whose member is a pointer. *)
Record ServicePeer := mkServicePeer { sp_IP : option (option Z); sp_Port : Z }.

Definition servicePeerToHostPort (peer : ServicePeer) : go bytes :=
  match sp_IP peer with
  | Some (Some ipv4) => Ret (JoinHostPort (IP_String (intToIP4 (uint32 ipv4))) (Itoa (sp_Port peer)))
  | _ => Panic
  end.

Fixpoint hostPorts (peers : list ServicePeer) : go (list bytes) :=
  match peers with
  | [] => Ret []
  | p :: peers => hp ← servicePeerToHostPort p; hps ← hostPorts peers; Ret (hp :: hps)
  end.

(** What the service can answer, as errors of the generated code. *)
Inductive discoverError :=
| NoPeersAvailable (message serviceName : bytes)
| InvalidServiceName (message serviceName : bytes)
| noResult
| discoverFailed (e : error).

(** Client.Discover; a nil result has no peers to get. *)
Definition Discover (answer : option (list ServicePeer) * option discoverError) : go (list bytes + discoverError) :=
  match answer with
  | (_, Some e) => Ret (inr e)
  | (None, None) => Panic
  | (Some peers, None) => hps ← hostPorts peers; Ret (inl hps)
  end.

(** *** The generated client and server *)

(** HyperbahnDiscoverResult: at most one field is set. *)
Record DiscoverResult := mkDiscoverResult {
  dr_Success : option (list ServicePeer);
  dr_NoPeersAvailable : option (bytes * bytes);
  dr_InvalidServiceName : option (bytes * bytes)
}.

(** tchanHyperbahnClient.Discover after the call, which gave the result struct and
    whether the call was a success, or an error. *)
Definition client_Discover (resp : DiscoverResult) (call : bool + error)
    : option (list ServicePeer) * option discoverError :=
  (dr_Success resp,
   match call with
   | inr e => Some (discoverFailed e)
   | inl true => None
   | inl false =>
       match dr_NoPeersAvailable resp, dr_InvalidServiceName resp with
       | Some (m, s), _ => Some (NoPeersAvailable m s)
       | None, Some (m, s) => Some (InvalidServiceName m s)
       | None, None => Some noResult
       end
   end).

(** The result of a handler: a pointer, or an error; an error can be a nil pointer of
    the exception's type. *)
Inductive handlerError :=
| hNoPeersAvailable (v : option (bytes * bytes))
| hInvalidServiceName (v : option (bytes * bytes))
| hOther (e : error).

Definition nilException (name type : bytes) : error :=
  otherError (str "Handler for " ++ name ++ str " returned non-nil error type *" ++ type ++ str " but nil value").

(** handleDiscover after the arguments have been read: success, the struct and the
    error. *)
Definition handleDiscover (r : option (list ServicePeer) + handlerError) : bool * option DiscoverResult * option error :=
  match r with
  | inl r => (true, Some (mkDiscoverResult r None None), None)
  | inr (hNoPeersAvailable None) => (false, None, Some (nilException (str "noPeersAvailable") (str "NoPeersAvailable")))
  | inr (hNoPeersAvailable (Some v)) => (false, Some (mkDiscoverResult None (Some v) None), None)
  | inr (hInvalidServiceName None) => (false, None, Some (nilException (str "invalidServiceName") (str "InvalidServiceName")))
  | inr (hInvalidServiceName (Some v)) => (false, Some (mkDiscoverResult None None (Some v)), None)
  | inr (hOther e) => (false, None, Some e)
  end.

(** ** The configuration *)

Lemma checkNodes_None nodes : checkNodes nodes = None ↔ Forall (λ n, ∃ hp, SplitHostPort n = inl hp) nodes.
Proof.
  induction nodes as [|n nodes IH]; cbn; [split; [constructor|done]|]. rewrite Forall_cons, <- IH.
  destruct (SplitHostPort n) as [hp|why]; [naive_solver|]. split; [done|]. by intros [[? ?] _].
Qed.

(** What parses as a node is not empty. *)
Lemma node_not_empty n hp : SplitHostPort n = inl hp → n ≠ [].
Proof. by intros H ->. Qed.

Lemma parseConfig_valid load config config' :
  parseConfig load config = inl config' →
  InitialNodes config' ≠ [] ∧ Forall (λ n, ∃ hp, SplitHostPort n = inl hp) (InitialNodes config')
  ∧ (InitialNodesFile config = [] → config' = config)
  ∧ (InitialNodesFile config ≠ [] → load (InitialNodesFile config) = inl (InitialNodes config')).
Proof.
  unfold parseConfig. intros H. destruct (decide (InitialNodesFile config = [])) as [Hf|Hf].
  - destruct (decide (InitialNodes config = [])); [done|].
    destruct (checkNodes (InitialNodes config)) eqn:E; [done|]. injection H as <-. by rewrite <- checkNodes_None.
  - destruct (load (InitialNodesFile config)) as [nodes|e]; [|done]. cbn in H.
    destruct (decide (nodes = [])); [done|]. destruct (checkNodes nodes) eqn:E; [done|]. injection H as <-.
    cbn. by rewrite <- checkNodes_None.
Qed.

(** ** Adding the nodes *)

Lemma on_peers_run {A} (p : pprog A) ch :
  run (on_peers p) ch = match run p (ch_peers ch) with
                        | Ret (a, w) => Ret (a, ch_set_peers w ch)
                        | Panic => Panic
                        | OutOfFuel => OutOfFuel
                        end.
Proof.
  unfold on_peers. revert ch. induction p as [a|R m k IH]; intros ch; cbn; [by destruct ch|]. unfold inside.
  destruct (m (ch_peers ch)) as [[r w]| |]; cbn; [|done..]. rewrite IH. cbn.
  by destruct (run (k r) w) as [[a w']| |].
Qed.

(** The host:ports of a list. *)
Definition members (w : Peers) (l : nat) : gset bytes := dom (pl_byHostPort (w_list w l)).

Lemma on_heap_map {A} l (m : hop A) w a w' l' :
  on_heap l m w = Ret (a, w') → pl_byHostPort (w_list w' l') = pl_byHostPort (w_list w l').
Proof.
  unfold on_heap. intros H. destruct (m (peerHeap_ (w_list w l))) as [[b ph]| |]; [|done..].
  injection H as <- <-. cbn. destruct (decide (l' = l)) as [->|Hne]; [by rewrite fn_lookup_insert|].
  by rewrite fn_lookup_insert_ne.
Qed.

Lemma root_Add_lists hp w p w' : run (root_Add hp) w = Ret (p, w') → w_list w' = w_list w.
Proof.
  unfold root_Add, root_Get. rewrite run_atomic. cbn [fst snd]. destruct (root w !! hp) eqn:E; [by intros [= _ <-]|].
  cbn. unfold root_create. rewrite E. destruct (newPeer hp); [|done..]. by intros [= _ <-].
Qed.

(** Add adds a host:port to its list and leaves the other lists alone. *)
Lemma pl_Add_members l hp rnd rnd' w p w' l' :
  run (pl_Add l hp rnd rnd') w = Ret (p, w') →
  members w' l' = if decide (l' = l) then {[hp]} ∪ members w l else members w l'.
Proof.
  unfold pl_Add, exists_, members. rewrite run_atomic. cbn [fst snd].
  assert (Hhas : is_Some (pl_byHostPort (w_list w l) !! hp) →
    dom (pl_byHostPort (w_list w l')) =@{gset bytes} if decide (l' = l) then {[hp]} ∪ dom (pl_byHostPort (w_list w l))
      else dom (pl_byHostPort (w_list w l'))).
  { intros Hs%elem_of_dom. case_decide; [|done]. subst. set_solver. }
  destruct (pl_byHostPort (w_list w l) !! hp) as [r|] eqn:Er; [cbn; intros [= _ <-]; by apply Hhas|].
  rewrite run_atomic. cbn [fst snd]. rewrite Er, run_bind. unfold mbind, gost_bind.
  destruct (run (root_Add hp) w) as [[q w1]| |] eqn:E1; [|done..]. apply root_Add_lists in E1.
  cbn [run prog_bind prog_mbind atomic_go]. destruct (addPeerScore l q hp rnd rnd' w1) as [[[] w2]| |] eqn:E2; [|done..].
  intros [= _ <-]. unfold addPeerScore, register in E2. apply (on_heap_map l _ _ _ _ l') in E2. rewrite E2. cbn.
  rewrite !E1. case_decide as Hl; [subst; rewrite fn_lookup_insert|by rewrite fn_lookup_insert_ne]. cbn.
  by rewrite dom_insert_L.
Qed.

Lemma GetSubChannel_run name ch :
  run (GetSubChannel name false) ch
  = Ret (tt, match ch_subChannels ch !! name with
             | Some _ => ch
             | None => ch_set_subs (<[name := 0%nat]> (ch_subChannels ch)) (ch_nextList ch) ch
             end).
Proof.
  unfold GetSubChannel, sub_getOrAdd, sub_get, registerNewSubChannel, ch_read, mbind, prog_mbind, glift.
  destruct (ch_subChannels ch !! name) eqn:E; cbn; unfold glift; cbn; rewrite E; cbn; unfold glift; cbn; rewrite ?E; done.
Qed.

Lemma sub_Peers_at name ch l : ch_subChannels ch !! name = Some l → sub_Peers name ch = l.
Proof. unfold sub_Peers. by intros ->. Qed.

(** The subchannel's list is one of the channel's. *)
Definition client_ready (N : nat) (ch : Channel) : Prop :=
  peers_ok N (ch_peers ch) ∧ (sub_Peers hyperbahnServiceName ch < N)%nat ∧ Z.of_nat N < 2^32 - 1.

Lemma addPeer_spec N rnd rnd' hp ch :
  client_ready N ch → hp ≠ [] →
  ∃ ch', run (addPeer rnd rnd' hp) ch = Ret (tt, ch') ∧ client_ready N ch'
  ∧ ch_subChannels ch' !! hyperbahnServiceName = Some (sub_Peers hyperbahnServiceName ch)
  ∧ ∀ l, members (ch_peers ch') l
      = if decide (l = sub_Peers hyperbahnServiceName ch) then {[hp]} ∪ members (ch_peers ch) l
        else members (ch_peers ch) l.
Proof.
  intros (Hok & Hl & HN) Hhp. unfold addPeer. rewrite (run_bind_ret _ _ _ _ _ (GetSubChannel_run _ ch)).
  set (ch1 := match ch_subChannels ch !! _ with Some _ => ch | None => _ end).
  assert (H1 : ch_peers ch1 = ch_peers ch ∧
    ch_subChannels ch1 !! hyperbahnServiceName = Some (sub_Peers hyperbahnServiceName ch)).
  { unfold ch1, sub_Peers. destruct (ch_subChannels ch !! hyperbahnServiceName) eqn:E; [by rewrite E|]. cbn.
    by rewrite lookup_insert_eq. }
  clearbody ch1. destruct H1 as [Hp1 Hs1]. unfold ch_read. rewrite run_atomic. cbn [fst snd].
  pose proof (sub_Peers_at _ _ _ Hs1) as Hsp.
  rewrite Hsp.
  destruct (pl_Add_ok N (sub_Peers hyperbahnServiceName ch) hp rnd rnd' (ch_peers ch1)) as (p & w' & E & Hok' & _);
    [by rewrite Hp1|done..|].
  pose proof (λ l', pl_Add_members _ _ _ _ _ _ _ l' E) as Hm.
  rewrite (run_bind_ret _ _ _ p (ch_set_peers w' ch1)); [|by rewrite on_peers_run, E].
  exists (ch_set_peers w' ch1). split; [done|]. split; [|split; [done|]].
  - split_and!; [done| |done]. by rewrite (sub_Peers_at _ (ch_set_peers w' ch1) _ Hs1).
  - intros l. cbn [ch_peers ch_set_peers]. rewrite Hm, !Hp1. by case_decide; subst.
Qed.

Lemma addPeers_spec N rnds nodes ch :
  client_ready N ch → Forall (λ n, n ≠ []) nodes →
  ∃ ch', run (addPeers rnds nodes) ch = Ret (tt, ch') ∧ client_ready N ch'
  ∧ (nodes ≠ [] → ch_subChannels ch' !! hyperbahnServiceName = Some (sub_Peers hyperbahnServiceName ch))
  ∧ ∀ l, members (ch_peers ch') l
      = if decide (l = sub_Peers hyperbahnServiceName ch) then list_to_set nodes ∪ members (ch_peers ch) l
        else members (ch_peers ch) l.
Proof.
  revert ch. induction nodes as [|n nodes IH]; intros ch Hr Hf; cbn [addPeers list_to_set].
  { exists ch. split_and!; [done..|]. intros l. case_decide; set_solver. }
  apply Forall_cons in Hf as [Hn Hf].
  destruct (addPeer_spec N (rnds n).1 (rnds n).2 n ch Hr Hn) as (ch1 & E1 & Hr1 & Hs1 & Hm1).
  rewrite (run_bind_ret _ _ _ _ _ E1). destruct (IH ch1 Hr1 Hf) as (ch2 & E2 & Hr2 & Hs2 & Hm2).
  pose proof (sub_Peers_at _ _ _ Hs1) as Hsp.
  rewrite Hsp in *. exists ch2. split_and!; [done|done| |].
  - intros _. destruct nodes; [cbn in E2; by injection E2 as <-|]. by apply Hs2.
  - intros l. rewrite Hm2, Hm1. case_decide; [set_solver|done].
Qed.

(** NewClient, on any channel whose peers are well formed: a configuration that does
    not parse is an error and leaves the channel as it was; one that parses (with the
    nodes of the file, when a file is given) adds exactly its nodes to the peer list of
    the subchannel "hyperbahn", which is made when there is none, leaves every other peer
    list alone, keeps the peers well formed and never panics; and the client has the
    default timeouts, handler and sleep where the options have none. *)
Theorem NewClient_adds_nodes (N : nat) (load : bytes → list bytes + error) (rnds : bytes → Z * Z)
    (config : Configuration) (opts : option ClientOptions) (ch : Channel) :
  client_ready N ch →
  ∃ r ch', run (NewClient load rnds config opts) ch = Ret (r, ch') ∧
  match parseConfig load config with
  | inr e => r = inr e ∧ ch' = ch
  | inl config' =>
      r = inl (mkClient [] (withDefaults opts) false) ∧ client_ready N ch'
      ∧ (InitialNodesFile config ≠ [] → load (InitialNodesFile config) = inl (InitialNodes config'))
      ∧ ch_subChannels ch' !! hyperbahnServiceName = Some (sub_Peers hyperbahnServiceName ch)
      ∧ ∀ l, members (ch_peers ch') l
          = if decide (l = sub_Peers hyperbahnServiceName ch)
            then list_to_set (InitialNodes config') ∪ members (ch_peers ch) l
            else members (ch_peers ch) l
  end.
Proof.
  intros Hr. unfold NewClient. destruct (parseConfig load config) as [config'|e] eqn:E; [|by exists (inr e), ch].
  apply parseConfig_valid in E as (Hne & Hf & _ & Hload).
  destruct (addPeers_spec N rnds (InitialNodes config') ch Hr) as (ch' & E' & Hr' & Hs & Hm).
  { eapply Forall_impl; [exact Hf|]. intros n [hp Hn]. by eapply node_not_empty. }
  eexists _, ch'. rewrite (run_bind_ret _ _ _ _ _ E'). split; [reflexivity|]. split_and!; auto.
Qed.

(** ** Addresses *)

Lemma intToIP4_enc ip : intToIP4 ip = be_enc 4 ip.
Proof.
  assert (H : ∀ z, byte_of_Z (Z.land z 255) = byte_of_Z z).
  { intros z. change 255 with (Z.ones 8). rewrite Z.land_ones by lia. apply byte_of_Z_mod. }
  unfold intToIP4. by rewrite !H.
Qed.

Lemma intToIP4_dec ip : be_dec (intToIP4 ip) = uint32 ip.
Proof. by rewrite intToIP4_enc, be_dec_enc. Qed.

Lemma Itoa_no_dot n : dot ∉ Itoa n.
Proof. apply Itoa_free; [by apply not_digit|done]. Qed.

Lemma IP_String_inj a b : a ≠ [] → b ≠ [] → IP_String a = IP_String b → a = b.
Proof.
  intros Ha Hb H. unfold IP_String in H. apply (f_equal (SplitByte dot)) in H.
  rewrite !Split_Join in H.
  - assert (Hi : Inj (=) (=) (λ b, Itoa (Z_of_byte b))) by (intros x y E%(inj Itoa); by apply Z_of_byte_inj).
    revert H. apply list_fmap_eq_inj, Hi.
  - by destruct b.
  - apply Forall_fmap, Forall_true. intros x. apply Itoa_no_dot.
  - by destruct a.
  - apply Forall_fmap, Forall_true. intros x. apply Itoa_no_dot.
Qed.

(** No colon and no bracket in an address or a port. *)
Lemma Join_free sep c ps : c ∉ sep → Forall (λ p, c ∉ p) ps → c ∉ Join ps sep.
Proof.
  intros Hs Hf. induction Hf as [|p ps Hp Hf IH]; [apply not_elem_of_nil|]. destruct ps; [done|].
  cbn [Join]. rewrite !elem_of_app. naive_solver.
Qed.

Lemma IP_String_free ip c : ¬ digit c → c ≠ x2d → c ≠ dot → c ∉ IP_String ip.
Proof.
  intros Hd Hm Hdot. apply Join_free; [by rewrite list_elem_of_singleton|].
  apply Forall_fmap, Forall_true. intros x. by apply Itoa_free.
Qed.

(** What is found in the host:port of an address. *)
Lemma Split_address ip port :
  SplitHostPort (JoinHostPort (IP_String ip) (Itoa port)) = inl (IP_String ip, Itoa port).
Proof.
  apply Split_JoinHostPort; (apply IP_String_free || apply Itoa_free); (by apply not_digit) || done.
Qed.

(** A peer that can be written: its address is set, and its fields have their widths. *)
Definition has_address (ip port : Z) (p : ServicePeer) : Prop :=
  p = mkServicePeer (Some (Some ip)) port ∧ - 2^31 <= ip < 2^31 ∧ - 2^31 <= port < 2^31.

Lemma servicePeer_hostPort ip port p : has_address ip port p →
  servicePeerToHostPort p = Ret (JoinHostPort (IP_String (intToIP4 (uint32 ip))) (Itoa port)).
Proof. by intros [-> _]. Qed.

Lemma uint32_idem a : uint32 (uint32 a) = uint32 a.
Proof. apply Zmod_mod. Qed.

Lemma int32_of_uint32 a b : - 2^31 <= a < 2^31 → - 2^31 <= b < 2^31 → uint32 a = uint32 b → a = b.
Proof. unfold uint32. intros Ha Hb H. Z.div_mod_to_equations. lia. Qed.

Lemma hostPort_inj ip port ip' port' p p' :
  has_address ip port p → has_address ip' port' p' →
  servicePeerToHostPort p = servicePeerToHostPort p' → p = p'.
Proof.
  intros Hp Hp' E. rewrite (servicePeer_hostPort _ _ _ Hp), (servicePeer_hostPort _ _ _ Hp') in E. injection E as E.
  apply (f_equal SplitHostPort) in E. rewrite !Split_address in E. injection E as Ei Ep.
  apply IP_String_inj, (f_equal be_dec) in Ei; [|done..]. rewrite !intToIP4_dec in Ei.
  rewrite !uint32_idem in Ei. apply (inj Itoa) in Ep.
  destruct Hp as (-> & Hi & _), Hp' as (-> & Hi' & _). apply int32_of_uint32 in Ei; [by subst|done..].
Qed.

Lemma hostPorts_all peers : Forall (λ p, ∃ ip port, has_address ip port p) peers →
  ∃ hps, hostPorts peers = Ret hps ∧ Forall2 (λ p hp, servicePeerToHostPort p = Ret hp) peers hps.
Proof.
  induction 1 as [|p peers (ip & port & Hp) _ IH]; [by exists []|]. destruct IH as (hps & E & H2).
  cbn [hostPorts]. rewrite (servicePeer_hostPort _ _ _ Hp), E. eexists. split; [reflexivity|].
  constructor; [by apply servicePeer_hostPort|done].
Qed.

(** Discover, on any list of peers with an IPv4 address, returns one host:port for
    each, in order; every one of them can be given back to Hyperbahn or to a channel as a
    node (net.SplitHostPort accepts it, with the dotted address and the decimal port as
    its parts); and two of them are the same only if the peers have the same address and
    the same port, for addresses on both sides of the sign bit of the int32 they are
    sent as. *)
Theorem Discover_hostPorts (peers : list ServicePeer) :
  Forall (λ p, ∃ ip port, has_address ip port p) peers →
  ∃ hps, Discover (Some peers, None) = Ret (inl hps) ∧ length hps = length peers ∧ checkNodes hps = None
  ∧ (∀ i p ip port, peers !! i = Some p → has_address ip port p →
       ∃ hp, hps !! i = Some hp ∧ SplitHostPort hp = inl (IP_String (intToIP4 (uint32 ip)), Itoa port))
  ∧ (∀ i j p q, peers !! i = Some p → peers !! j = Some q → hps !! i = hps !! j → p = q).
Proof.
  intros Hf. destruct (hostPorts_all peers Hf) as (hps & E & H2). exists hps. cbn [Discover]. rewrite E.
  rewrite Forall_forall in Hf.
  assert (Hat : ∀ i p, peers !! i = Some p → ∃ ip port hp, has_address ip port p ∧ hps !! i = Some hp
    ∧ servicePeerToHostPort p = Ret hp).
  { intros i p Hp. destruct (Hf p) as (ip & port & Ha); [by eapply list_elem_of_lookup_2|].
    destruct (Forall2_lookup_l _ _ _ _ _ H2 Hp) as (hp & Hhp & Es). by exists ip, port, hp. }
  split_and!; [done|by apply Forall2_length in H2| | |].
  - apply checkNodes_None, Forall_lookup. intros i hp Hhp.
    destruct (Forall2_lookup_r _ _ _ _ _ H2 Hhp) as (p & Hp & Es).
    destruct (Hf p) as (ip & port & Ha); [by eapply list_elem_of_lookup_2|].
    rewrite (servicePeer_hostPort _ _ _ Ha) in Es. injection Es as <-. eexists. apply Split_address.
  - intros i p ip port Hp Ha. destruct (Hat i p Hp) as (_ & _ & hp & _ & Hhp & Es). exists hp. split; [done|].
    rewrite (servicePeer_hostPort _ _ _ Ha) in Es. injection Es as <-. apply Split_address.
  - intros i j p q Hp Hq Hij. destruct (Hat i p Hp) as (ip & port & hp & Ha & Hhp & Es).
    destruct (Hat j q Hq) as (ip' & port' & hp' & Ha' & Hhp' & Es'). rewrite Hhp, Hhp' in Hij. injection Hij as <-.
    apply (hostPort_inj ip port ip' port'); [done..|congruence].
Qed.

(** A peer whose address is not set, which the union of the IDL allows, is not an error
    but the end of the process. *)
Lemma Discover_unset_address peers port :
  Forall (λ p, ∃ ip port, has_address ip port p) peers →
  Discover (Some (peers ++ [mkServicePeer (Some None) port]), None) = Panic.
Proof.
  intros Hf. cbn [Discover].
  assert (H : hostPorts (peers ++ [mkServicePeer (Some None) port]) = Panic); [|by rewrite H].
  induction Hf as [|p peers (ip & port' & Hp) _ IH]; [done|]. cbn [hostPorts app].
  by rewrite (servicePeer_hostPort _ _ _ Hp), IH.
Qed.

(** ** Results of a discovery *)

(** What the caller is to see of the outcome of the handler. *)
Definition seen (r : option (list ServicePeer) + handlerError) (server : option error)
    : option (list ServicePeer) * option discoverError :=
  match r, server with
  | inl x, _ => (x, None)
  | inr (hNoPeersAvailable (Some (m, s))), _ => (None, Some (NoPeersAvailable m s))
  | inr (hInvalidServiceName (Some (m, s))), _ => (None, Some (InvalidServiceName m s))
  | inr _, Some e => (None, Some (discoverFailed e))
  | inr _, None => (None, Some noResult)
  end.

(** The client returns what the handler returned: its result, or its exception; any other
    error fails the call, as what the server made of it. *)
Theorem discovery_delivered (r : option (list ServicePeer) + handlerError) (r0 : DiscoverResult) :
  dr_Success r0 = None →
  match handleDiscover r with
  | (success, Some res, None) => client_Discover res (inl success) = seen r None
  | (_, None, Some e) => client_Discover r0 (inr e) = seen r (Some e)
  | _ => False
  end.
Proof.
  intros H0. destruct r as [x|[[[m s]|]|[[m s]|]|e]]; try done; unfold client_Discover; cbn; by rewrite H0.
Qed.

(** ** Closing *)

Lemma Close_run c : run Close c = Ret (tt, mkClient (c_services c) (c_opts c) true).
Proof. destruct c as [s o []]; reflexivity. Qed.

(** Close can be called any number of times, one after another; but two goroutines that
    both find the client open both close its channel, and the second one panics. *)
Theorem Close_twice (c : Client) :
  (∃ c', run (_ ← Close; Close) c = Ret (tt, c') ∧ IsClosed c' = true)
  ∧ (c_quit c = false → ∃ s, rtc (sched_step (λ p, p = Close)) (c, []) s ∧ panics s).
Proof.
  split.
  - rewrite run_bind. unfold mbind, gost_bind. rewrite Close_run, Close_run. eexists. split; reflexivity.
  - intros Ho. set (c' := mkClient (c_services c) (c_opts c) true).
    exists (c', [done_ tt; atomic_go close_quit]). split.
    + eapply rtc_l; [by apply (sched_spawn _ c [] Close)|].
      eapply rtc_l; [by apply (sched_spawn _ c [Close] Close)|].
      assert (Hchk : glift (λ c, (IsClosed c, c)) c = Ret (false, c)) by (unfold glift, IsClosed; by rewrite Ho).
      eapply rtc_l; [eapply (sched_act _ c [Close; Close] 0%nat); [reflexivity|exact Hchk]|].
      eapply rtc_l; [eapply (sched_act _ c [atomic_go close_quit; Close] 1%nat); [reflexivity|exact Hchk]|].
      apply rtc_once, (sched_act _ c [atomic_go close_quit; atomic_go close_quit] 0%nat _ close_quit done_ tt c');
        [reflexivity|]. unfold close_quit. by rewrite Ho.
    + exists 1%nat, _, close_quit, done_. by split.
Qed.

(** ** The request *)

(** Advertise asks for the service of the channel first, then for the others, in the
    order they were given and at no cost. *)
Lemma createRequest_services own others c :
  createRequest (getServiceNames own others c) = mkService own 0 :: ((λ s, mkService s 0) <$> others).
Proof. done. Qed.

(** ** Witnesses *)

Definition example_channel (conns : nat → Connection) (info : nat → connInfo) : Channel :=
  match NewChannel (str "svc") 0 0 conns info with inl ch => ch | inr _ => mkChannel ChannelClient None [] true ∅ false (startIdleSweep 0 0) ∅ 1 (no_peers conns) info end.
Definition example_conns : nat → Connection := λ _, up_conn.
Definition example_info : nat → connInfo := λ _, mkConnInfo [] [] 0 0.
Definition example_nodes : list bytes := [str "10.0.0.1:21300"; str "[::1]:21301"; str "10.0.0.1:21300"].

Lemma example_client_ready : client_ready 1 (example_channel example_conns example_info).
Proof. split_and!; [apply no_peers_ok|apply Nat.lt_0_succ|done]. Qed.

Lemma NewClient_adds_nodes_witness :
  parseConfig (λ _, inr (otherError (str "no file"))) (mkConfiguration example_nodes []) = inl (mkConfiguration example_nodes [])
  ∧ ∃ c ch', run (NewClient (λ _, inr (otherError (str "no file"))) (λ _, (0, 0)) (mkConfiguration example_nodes []) None)
      (example_channel example_conns example_info) = Ret (inl c, ch')
    ∧ Timeout (c_opts c) = 3 * second
    ∧ members (ch_peers ch') 0 = list_to_set example_nodes.
Proof.
  assert (E : parseConfig (λ _, inr (otherError (str "no file"))) (mkConfiguration example_nodes [])
    = inl (mkConfiguration example_nodes [])) by (vm_compute; reflexivity).
  split; [exact E|].
  destruct (NewClient_adds_nodes 1 (λ _, inr (otherError (str "no file"))) (λ _, (0, 0)) (mkConfiguration example_nodes []) None
    (example_channel example_conns example_info) example_client_ready) as (r & ch' & Er & Hspec).
  rewrite E in Hspec. destruct Hspec as (-> & _ & _ & _ & Hm). eexists _, ch'. split_and!; [exact Er|reflexivity|].
  rewrite Hm, decide_True by reflexivity. change (members _ _) with (∅ : gset bytes). apply (right_id_L ∅ (∪)).
Defined.

(** 127.0.0.1, and 255.0.0.2, which is negative as an int32. *)
Lemma Discover_hostPorts_witness :
  ∃ hps, Discover (Some [mkServicePeer (Some (Some 2130706433)) 21300; mkServicePeer (Some (Some (-16777214))) 80], None)
    = Ret (inl hps) ∧ checkNodes hps = None ∧ hps = [str "127.0.0.1:21300"; str "255.0.0.2:80"].
Proof.
  destruct (Discover_hostPorts [mkServicePeer (Some (Some 2130706433)) 21300; mkServicePeer (Some (Some (-16777214))) 80])
    as (hps & E & _ & Hc & _).
  { repeat constructor; eexists _, _; (split; [reflexivity|]; lia). }
  exists hps. split; [exact E|]. split; [exact Hc|]. vm_compute in E. injection E as <-. vm_compute. reflexivity.
Defined.
