(* ===== verification/HyperbahnStructs.v ===== *)
(** * Discovery on the wire (hyperbahn/gen-go/hyperbahn/hyperbahn.go)

    The structs of Hyperbahn's discovery with the code the Thrift compiler wrote for them,
    on the interface of [ThriftStructs.v], and a discovery from end to end: the client
    writes its query, the server reads it, calls its handler and writes the result or the
    exception, and the client reads it and makes host:port strings of the peers.

    An IpAddress is a union with one member; it is known here by that member, a pointer.
    A DiscoveryResult is the list of its peers, and the two exceptions, which have the same
    fields, are pairs; HyperbahnDiscoverResult is [DiscoverResult]. *)

From S2P Require Import Prelude Errors Text Buffer Checksum Frame Messages Fragment FragmentCorrect Mex ReqRes Headers Calls SystemErrors Thrift ThriftStructs ThriftMeta Hyperbahn HyperbahnClient.

(** ** Structs *)

(** The exceptions: a message and a service name. *)
Notation Exception := (bytes * bytes)%type.
Record DiscoveryQuery := mkDiscoveryQuery { dq_ServiceName : bytes }.
Notation IpAddress := (option Z).
Record HyperbahnDiscoverArgs := mkHyperbahnDiscoverArgs { Query : option DiscoveryQuery }.

Section structs.
Context `{TProtocol P, ThriftErrors} (fuel : nat).
Notation io := (GO P).
Notation errRead n := (str "error reading field " ++ Itoa n ++ str ": ").

(** *** NoPeersAvailable and InvalidServiceName: the same struct under two names *)

Definition exception_ReadField1 (p : Exception) : io (Exception * option error) :=
  readInto (errRead 1) ReadString p (λ v, (v, p.2)).
Definition exception_ReadField2 (p : Exception) : io (Exception * option error) :=
  readInto (errRead 2) ReadString p (λ v, (p.1, v)).
Definition exception_onField (id : Z) (ty : ttype) (x : Exception * (bool * bool)) : io (Exception * (bool * bool) * option error) :=
  let '(p, (m, s)) := x in
  if decide (id = 1) then onType STRING ty x (and_isset (m, s) (true, s) (exception_ReadField1 p))
  else if decide (id = 2) then onType STRING ty x (and_isset (m, s) (m, true) (exception_ReadField2 p))
  else skipField ty x.
Definition exception_Read (T : bytes) (p : Exception) : io (Exception * option error) :=
  readRequired fuel T exception_onField (p, (false, false))
    (λ '(p, (m, s)), (p, [(m, str "Message"); (s, str "ServiceName")])).
Definition exception_writeField1 (T : bytes) (p : Exception) : io (option error) :=
  writeField T (str "message") STRING 1 (prepend (fieldMsg T (str "message") 1) (WriteString p.1)).
Definition exception_writeField2 (T : bytes) (p : Exception) : io (option error) :=
  writeField T (str "serviceName") STRING 2 (prepend (fieldMsg T (str "serviceName") 2) (WriteString p.2)).
Definition exception_Write (T name : bytes) (p : option Exception) : io (option error) :=
  writeStruct T name
    (match p with None => mret None | Some p => writeFields [exception_writeField1 T p; exception_writeField2 T p] end).

Definition T_NoPeersAvailable : bytes := str "*hyperbahn.NoPeersAvailable".
Definition NoPeersAvailable_Read := exception_Read T_NoPeersAvailable.
Definition NoPeersAvailable_Write := exception_Write T_NoPeersAvailable (str "NoPeersAvailable").
Definition T_InvalidServiceName : bytes := str "*hyperbahn.InvalidServiceName".
Definition InvalidServiceName_Read := exception_Read T_InvalidServiceName.
Definition InvalidServiceName_Write := exception_Write T_InvalidServiceName (str "InvalidServiceName").

(** *** DiscoveryQuery *)

Definition T_DiscoveryQuery : bytes := str "*hyperbahn.DiscoveryQuery".
Definition DiscoveryQuery_ReadField1 (p : DiscoveryQuery) : io (DiscoveryQuery * option error) :=
  readInto (errRead 1) ReadString p mkDiscoveryQuery.
Definition DiscoveryQuery_onField (id : Z) (ty : ttype) (x : DiscoveryQuery * bool) : io (DiscoveryQuery * bool * option error) :=
  let '(p, isset) := x in
  if decide (id = 1) then onType STRING ty x (and_isset isset true (DiscoveryQuery_ReadField1 p)) else skipField ty x.
Definition DiscoveryQuery_Read (p : DiscoveryQuery) : io (DiscoveryQuery * option error) :=
  readRequired fuel T_DiscoveryQuery DiscoveryQuery_onField (p, false) (λ '(p, isset), (p, [(isset, str "ServiceName")])).
Definition DiscoveryQuery_writeField1 (p : DiscoveryQuery) : io (option error) :=
  writeField T_DiscoveryQuery (str "serviceName") STRING 1
    (prepend (fieldMsg T_DiscoveryQuery (str "serviceName") 1) (WriteString (dq_ServiceName p))).
Definition DiscoveryQuery_Write (p : option DiscoveryQuery) : io (option error) :=
  writeStruct T_DiscoveryQuery (str "DiscoveryQuery")
    (match p with None => mret None | Some p => writeFields [DiscoveryQuery_writeField1 p] end).

(** *** IpAddress *)

Definition T_IpAddress : bytes := str "*hyperbahn.IpAddress".
Definition CountSetFieldsIpAddress (p : IpAddress) : Z := match p with Some _ => 1 | None => 0 end.
Definition IpAddress_ReadField1 (p : IpAddress) : io (IpAddress * option error) := readInto (errRead 1) ReadI32 p Some.
Definition IpAddress_Read : IpAddress → io (IpAddress * option error) :=
  readStruct fuel T_IpAddress (λ id ty p,
    if decide (id = 1) then onType I32 ty p (IpAddress_ReadField1 p) else skipField ty p).
Definition IpAddress_writeField1 (p : IpAddress) : io (option error) :=
  match p with
  | None => mret None
  | Some v => writeField T_IpAddress (str "ipv4") I32 1 (prepend (fieldMsg T_IpAddress (str "ipv4") 1) (WriteI32 (int32 v)))
  end.
(** A nil union is dereferenced; one without a member is an error. *)
Definition IpAddress_Write (p : option IpAddress) : io (option error) :=
  match p with
  | None => gpanic
  | Some p =>
      let c := CountSetFieldsIpAddress p in
      if decide (c ≠ 1) then
        mret (Some (otherError (T_IpAddress ++ str " write union: exactly one field must be set (" ++ Itoa c ++ str " set)")))
      else writeStruct T_IpAddress (str "IpAddress") (writeFields [IpAddress_writeField1 p])
  end.

(** *** ServicePeer *)

Definition T_ServicePeer : bytes := str "*hyperbahn.ServicePeer".
Definition ServicePeer_ReadField1 (p : ServicePeer) : io (ServicePeer * option error) :=
  readNested T_IpAddress (IpAddress_Read None) (λ ip, mkServicePeer (Some ip) (sp_Port p)).
Definition ServicePeer_ReadField2 (p : ServicePeer) : io (ServicePeer * option error) :=
  readInto (errRead 2) ReadI32 p (λ v, mkServicePeer (sp_IP p) v).
Definition ServicePeer_onField (id : Z) (ty : ttype) (x : ServicePeer * (bool * bool)) : io (ServicePeer * (bool * bool) * option error) :=
  let '(p, (i, o)) := x in
  if decide (id = 1) then onType STRUCT ty x (and_isset (i, o) (true, o) (ServicePeer_ReadField1 p))
  else if decide (id = 2) then onType I32 ty x (and_isset (i, o) (i, true) (ServicePeer_ReadField2 p))
  else skipField ty x.
Definition ServicePeer_Read (p : ServicePeer) : io (ServicePeer * option error) :=
  readRequired fuel T_ServicePeer ServicePeer_onField (p, (false, false))
    (λ '(p, (i, o)), (p, [(i, str "IP"); (o, str "Port")])).
Definition ServicePeer_writeField1 (p : ServicePeer) : io (option error) :=
  writeField T_ServicePeer (str "ip") STRUCT 1
    (prepend (T_IpAddress ++ str " error writing struct: ") (IpAddress_Write (sp_IP p))).
Definition ServicePeer_writeField2 (p : ServicePeer) : io (option error) :=
  writeField T_ServicePeer (str "port") I32 2
    (prepend (fieldMsg T_ServicePeer (str "port") 2) (WriteI32 (int32 (sp_Port p)))).
Definition ServicePeer_Write (p : option ServicePeer) : io (option error) :=
  writeStruct T_ServicePeer (str "ServicePeer")
    (match p with None => mret None | Some p => writeFields [ServicePeer_writeField1 p; ServicePeer_writeField2 p] end).

(** *** DiscoveryResult *)

Definition T_DiscoveryResult : bytes := str "*hyperbahn.DiscoveryResult_".
Definition zeroPeer : ServicePeer := mkServicePeer None 0.

Fixpoint DiscoveryResult_readPeers (n : nat) (peers : list ServicePeer) : io (list ServicePeer * option error) :=
  match n with
  | O => mret (peers, None)
  | S n =>
      '(elem, err) ← prependV (T_ServicePeer ++ str " error reading struct: ") (ServicePeer_Read zeroPeer);
      match err with
      | Some e => mret (peers, Some e)
      | None => DiscoveryResult_readPeers n (peers ++ [elem])
      end
  end.
(** make with a negative capacity panics. *)
Definition DiscoveryResult_ReadField1 (p : list ServicePeer) : io (list ServicePeer * option error) :=
  '(_, size, err) ← ReadListBegin;
  match err with
  | Some e => mret (p, Some (PrependError (str "error reading list begin: ") e))
  | None =>
      if decide (size < 0) then gpanic
      else
        '(peers, err) ← DiscoveryResult_readPeers (Z.to_nat size) [];
        let p := peers in
        match err with
        | Some e => mret (p, Some e)
        | None => err ← prepend (str "error reading list end: ") ReadListEnd; mret (p, err)
        end
  end.
Definition DiscoveryResult_onField (id : Z) (ty : ttype) (x : list ServicePeer * bool) : io (list ServicePeer * bool * option error) :=
  let '(p, isset) := x in
  if decide (id = 1) then onType LIST ty x (and_isset isset true (DiscoveryResult_ReadField1 p)) else skipField ty x.
Definition DiscoveryResult_Read (p : list ServicePeer) : io (list ServicePeer * option error) :=
  readRequired fuel T_DiscoveryResult DiscoveryResult_onField (p, false) (λ '(p, isset), (p, [(isset, str "Peers")])).

Definition DiscoveryResult_writeField1 (p : list ServicePeer) : io (option error) :=
  writeField T_DiscoveryResult (str "peers") LIST 1 (
    check Some (prepend (str "error writing list begin: ") (WriteListBegin STRUCT (len p))) (
    check Some (writeFields ((λ v, prepend (T_ServicePeer ++ str " error writing struct: ") (ServicePeer_Write (Some v))) <$> p)) (
    prepend (str "error writing list end: ") WriteListEnd))).
Definition DiscoveryResult_Write (p : option (list ServicePeer)) : io (option error) :=
  writeStruct T_DiscoveryResult (str "DiscoveryResult")
    (match p with None => mret None | Some p => writeFields [DiscoveryResult_writeField1 p] end).

(** *** Arguments and result *)

Definition T_HyperbahnDiscoverArgs : bytes := str "*hyperbahn.HyperbahnDiscoverArgs".
Definition DiscoverArgs_ReadField1 : io (HyperbahnDiscoverArgs * option error) :=
  readNested T_DiscoveryQuery (DiscoveryQuery_Read (mkDiscoveryQuery [])) (λ v, mkHyperbahnDiscoverArgs (Some v)).
Definition DiscoverArgs_onField (id : Z) (ty : ttype) (x : HyperbahnDiscoverArgs * bool)
    : io (HyperbahnDiscoverArgs * bool * option error) :=
  let '(p, isset) := x in
  if decide (id = 1) then onType STRUCT ty x (and_isset isset true DiscoverArgs_ReadField1) else skipField ty x.
Definition DiscoverArgs_Read (p : HyperbahnDiscoverArgs) : io (HyperbahnDiscoverArgs * option error) :=
  readRequired fuel T_HyperbahnDiscoverArgs DiscoverArgs_onField (p, false) (λ '(p, isset), (p, [(isset, str "Query")])).
Definition DiscoverArgs_writeField1 (p : HyperbahnDiscoverArgs) : io (option error) :=
  writeField T_HyperbahnDiscoverArgs (str "query") STRUCT 1
    (prepend (T_DiscoveryQuery ++ str " error writing struct: ") (DiscoveryQuery_Write (Query p))).
Definition DiscoverArgs_Write (p : option HyperbahnDiscoverArgs) : io (option error) :=
  writeStruct T_HyperbahnDiscoverArgs (str "discover_args")
    (match p with None => mret None | Some p => writeFields [DiscoverArgs_writeField1 p] end).

Definition T_HyperbahnDiscoverResult : bytes := str "*hyperbahn.HyperbahnDiscoverResult".
Definition DiscoverResult_ReadField0 (p : DiscoverResult) : io (DiscoverResult * option error) :=
  readNested T_DiscoveryResult (DiscoveryResult_Read [])
    (λ v, mkDiscoverResult (Some v) (dr_NoPeersAvailable p) (dr_InvalidServiceName p)).
Definition DiscoverResult_ReadField1 (p : DiscoverResult) : io (DiscoverResult * option error) :=
  readNested T_NoPeersAvailable (NoPeersAvailable_Read ([], []))
    (λ v, mkDiscoverResult (dr_Success p) (Some v) (dr_InvalidServiceName p)).
Definition DiscoverResult_ReadField2 (p : DiscoverResult) : io (DiscoverResult * option error) :=
  readNested T_InvalidServiceName (InvalidServiceName_Read ([], []))
    (λ v, mkDiscoverResult (dr_Success p) (dr_NoPeersAvailable p) (Some v)).
Definition DiscoverResult_onField (id : Z) (ty : ttype) (p : DiscoverResult)
    : io (DiscoverResult * option error) :=
  if decide (id = 0) then onType STRUCT ty p (DiscoverResult_ReadField0 p)
  else if decide (id = 1) then onType STRUCT ty p (DiscoverResult_ReadField1 p)
  else if decide (id = 2) then onType STRUCT ty p (DiscoverResult_ReadField2 p)
  else skipField ty p.
Definition DiscoverResult_Read : DiscoverResult → io (DiscoverResult * option error) :=
  readStruct fuel T_HyperbahnDiscoverResult DiscoverResult_onField.

Definition optional_field {A} (name : bytes) (id : Z) (Tsub : bytes) (write : option A → io (option error)) (v : option A)
    : io (option error) :=
  match v with
  | None => mret None
  | Some v => writeField T_HyperbahnDiscoverResult name STRUCT id (prepend (Tsub ++ str " error writing struct: ") (write (Some v)))
  end.
Definition DiscoverResult_writeField0 (p : DiscoverResult) : io (option error) :=
  optional_field (str "success") 0 T_DiscoveryResult DiscoveryResult_Write (dr_Success p).
Definition DiscoverResult_writeField1 (p : DiscoverResult) : io (option error) :=
  optional_field (str "noPeersAvailable") 1 T_NoPeersAvailable NoPeersAvailable_Write (dr_NoPeersAvailable p).
Definition DiscoverResult_writeField2 (p : DiscoverResult) : io (option error) :=
  optional_field (str "invalidServiceName") 2 T_InvalidServiceName InvalidServiceName_Write (dr_InvalidServiceName p).
Definition DiscoverResult_Write (p : option DiscoverResult) : io (option error) :=
  writeStruct T_HyperbahnDiscoverResult (str "discover_result")
    (match p with
     | None => mret None
     | Some p => writeFields [DiscoverResult_writeField0 p; DiscoverResult_writeField1 p; DiscoverResult_writeField2 p]
     end).

(** ** A discovery *)

(** tchanHyperbahnServer.Handle of the method discover: the arguments are read, the
    handler is called with the query. *)
Definition server_discover (handler : option DiscoveryQuery → option (list ServicePeer) + handlerError)
    : io (bool * option DiscoverResult * option error) :=
  '(req, err) ← DiscoverArgs_Read (mkHyperbahnDiscoverArgs None);
  match err with
  | Some e => mret (false, None, Some e)
  | None => mret (handleDiscover (handler (Query req)))
  end.

Definition zeroResult : DiscoverResult := mkDiscoverResult None None None.

(** Client.Discover with the call in between.  The result is what Discover returns, or the
    error that the server hands to its connection instead of a response; a nil struct
    cannot be written. *)
Definition discovery (isProtocolException : error → bool)
    (handler : option DiscoveryQuery → option (list ServicePeer) + handlerError) (serviceName : bytes)
    : io (go (list bytes + discoverError) + error) :=
  check (λ e, inl (Ret (inr (discoverFailed e))))
    (DiscoverArgs_Write (Some (mkHyperbahnDiscoverArgs (Some (mkDiscoveryQuery serviceName))))) (
  '(success, res, err) ← server_discover handler;
  match err, res with
  | Some e, _ => mret (inr (handle_error isProtocolException e))
  | None, None => gpanic
  | None, Some res =>
      check inr (DiscoverResult_Write (Some res)) (
      '(resp, err) ← DiscoverResult_Read zeroResult;
      mret (inl (Discover (client_Discover resp (match err with Some e => inr e | None => inl success end)))))
  end).
End structs.

(** ** The fields of the structs *)

Definition exception_fields (e : Exception) : list (Z * tval) := [(1, TString e.1); (2, TString e.2)].
Definition query_fields (q : DiscoveryQuery) : list (Z * tval) := [(1, TString (dq_ServiceName q))].
Definition ip_fields (ip : IpAddress) : list (Z * tval) := match ip with None => [] | Some v => [(1, TI32 v)] end.
Definition peer_val (ip : IpAddress) (port : Z) : tval := TStruct [(1, TStruct (ip_fields ip)); (2, TI32 port)].
Definition peers_val (l : list (IpAddress * Z)) : tval := TList STRUCT ((λ p, peer_val p.1 p.2) <$> l).
Definition result_fields (l : list (IpAddress * Z)) : list (Z * tval) := [(1, peers_val l)].
Definition args_fields (q : DiscoveryQuery) : list (Z * tval) := [(1, TStruct (query_fields q))].

(** A peer from its address and its port. *)
Definition peer_of (p : IpAddress * Z) : ServicePeer := mkServicePeer (Some p.1) p.2.
Definition peer_ok (p : IpAddress * Z) : Prop := (∀ v, p.1 = Some v → int32_ok v) ∧ int32_ok p.2.

Lemma peer_val_fits p : peer_ok p → fits (peer_val p.1 p.2).
Proof.
  intros [Hip Hport]. apply fits_fields. constructor; [|constructor; [exact Hport|constructor]].
  apply fits_fields. destruct (p.1) as [v|]; [|constructor]. constructor; [by apply Hip|constructor].
Qed.

Lemma peers_val_fits l : len l < 2^31 → Forall peer_ok l → fits (peers_val l).
Proof.
  intros Hlen Hl. cbn [peers_val fits]. rewrite length_fmap. split; [exact Hlen|].
  induction Hl as [|p l Hp _ IH]; [done|]. split; [by apply peer_val_fits|]. apply IH. cbn [length] in Hlen. lia.
Qed.

Section specs.
Context {P : Type} {HP : TProtocol P} {HL : TProtocolLaws P} {HE : ThriftErrors} (Hok : protocol_ok (P := P)).
Context (fuel : nat) (Hfuel : (3 < fuel)%nat).

(** A scalar field of the expected type. *)
Ltac scalar law := apply onType_read; try apply and_isset_spec;
  match goal with |- reads ?r _ _ => let r' := eval red in r in
    match r' with readInto ?msg ?m ?x ?set => apply (readInto_spec msg m x set), law end end.

(** A struct that has its required fields. *)
Lemma required_read {X Y} T (onField : Z → ttype → X → GO P (X * option error)) x fs x' fuel'
    (finish : X → Y * list (bool * bytes)) y req :
  field_chain onField x fs x' → (length fs < fuel')%nat → finish x' = (y, req) → checkRequired req = None →
  reads (readRequired fuel' T onField x finish) (tokens (TStruct fs)) (y, None).
Proof.
  intros Hc Hf Ey Er. pose proof (readRequired_chain Hok T onField x fs x' fuel' finish Hc Hf) as Hr.
  rewrite Ey in Hr. cbn [fst snd] in Hr. by rewrite Er in Hr.
Qed.

Lemma exception_Read_spec T e :
  reads (exception_Read fuel T ([], [])) (tokens (TStruct (exception_fields e))) (e, None).
Proof.
  destruct e as [m s].
  apply (readRequired_chain Hok T exception_onField ([], [], (false, false)) _ ((m, s), (true, true)) fuel
    (λ '(p, (m, s)), (p, [(m, str "Message"); (s, str "ServiceName")]))); [|cbn; lia].
  apply (chain_cons _ _ 1 (TString m) _ ((m, []), (true, false))); [done|scalar (r_string Hok)|].
  apply (chain_cons _ _ 2 (TString s) _ ((m, s), (true, true))); [done|scalar (r_string Hok)|]. constructor.
Qed.

Lemma query_Read_spec q :
  reads (DiscoveryQuery_Read fuel (mkDiscoveryQuery [])) (tokens (TStruct (query_fields q))) (q, None).
Proof.
  destruct q as [s].
  apply (readRequired_chain Hok T_DiscoveryQuery DiscoveryQuery_onField (mkDiscoveryQuery [], false) _ (mkDiscoveryQuery s, true) fuel
    (λ '(p, isset), (p, [(isset, str "ServiceName")]))); [|cbn; lia].
  apply (chain_cons _ _ 1 (TString s) _ (mkDiscoveryQuery s, true)); [done|scalar (r_string Hok)|]. constructor.
Qed.

Lemma ip_Read_spec ip : (∀ v, ip = Some v → int32_ok v) →
  reads (IpAddress_Read fuel None) (tokens (TStruct (ip_fields ip))) (ip, None).
Proof.
  intros Hv. apply (readStruct_chain Hok); [|destruct ip; cbn; lia]. destruct ip as [v|]; [|constructor].
  apply (chain_cons _ _ 1 (TI32 v) _ (Some v)); [by apply Hv|scalar (r_i32 Hok)|]. constructor.
Qed.

Lemma peer_Read_spec p : peer_ok p →
  reads (ServicePeer_Read fuel zeroPeer) (tokens (peer_val p.1 p.2)) (peer_of p, None).
Proof.
  destruct p as [ip port]. intros Hp.
  apply (readRequired_chain Hok T_ServicePeer (ServicePeer_onField fuel) (zeroPeer, (false, false)) _ (peer_of (ip, port), (true, true)) fuel
    (λ '(p, (i, o)), (p, [(i, str "IP"); (o, str "Port")]))); [|cbn; lia].
  pose proof (peer_val_fits _ Hp) as Hf. apply fits_fields, Forall_cons in Hf as [Hf1 Hf2]. apply Forall_cons in Hf2 as [Hf2 _].
  destruct Hp as [Hip Hport]. cbn in Hip, Hport.
  apply (chain_cons _ _ 1 (TStruct (ip_fields ip)) _ (mkServicePeer (Some ip) 0, (true, false))); [exact Hf1| |].
  { apply onType_read, and_isset_spec. apply (readNested_spec _ _ (λ ip, mkServicePeer (Some ip) 0)). by apply ip_Read_spec. }
  apply (chain_cons _ _ 2 (TI32 port) _ (mkServicePeer (Some ip) port, (true, true))); [exact Hf2|scalar (r_i32 Hok)|]. constructor.
Qed.

Lemma readPeers_spec l : ∀ acc, Forall peer_ok l →
  reads (DiscoveryResult_readPeers fuel (length l) acc) (concat (tokens <$> ((λ p, peer_val p.1 p.2) <$> l)))
    (acc ++ (peer_of <$> l), None).
Proof.
  induction l as [|p l IH]; intros acc Hl; cbn [length DiscoveryResult_readPeers].
  { rewrite app_nil_r. apply reads_done. }
  apply Forall_cons in Hl as [Hp Hl]. cbn [fmap list_fmap concat].
  eapply reads_then; [apply reads_prependV; by apply peer_Read_spec|]. cbv beta iota.
  pose proof (IH (acc ++ [peer_of p]) Hl) as IH'. rewrite <- app_assoc in IH'. exact IH'.
Qed.

Lemma result_Read_spec l : len l < 2^31 → Forall peer_ok l →
  reads (DiscoveryResult_Read fuel []) (tokens (TStruct (result_fields l))) (peer_of <$> l, None).
Proof.
  intros Hlen Hl.
  refine (required_read T_DiscoveryResult (DiscoveryResult_onField fuel) ([], false) (result_fields l) (peer_of <$> l, true) fuel
    (λ '(p, isset), (p, [(isset, str "Peers")])) _ _ _ ltac:(cbn; lia) eq_refl eq_refl).
  apply (chain_cons _ _ 1 (peers_val l) _ (peer_of <$> l, true)); [by apply peers_val_fits| |constructor].
  apply onType_read, and_isset_spec. unfold DiscoveryResult_ReadField1. cbn [peers_val tokens].
  destruct (r_list Hok STRUCT (len ((λ p, peer_val p.1 p.2) <$> l))) as (et & Hr).
  set (body := concat _). change (?k :: body ++ [kListEnd]) with ([k] ++ body ++ [kListEnd]).
  eapply reads_then; [exact Hr|]. cbv beta iota. rewrite decide_False by lia. rewrite length_fmap, Nat2Z.id.
  eapply reads_then; [by apply (readPeers_spec l [])|]. cbv beta iota.
  rewrite <- (app_nil_r [kListEnd]). eapply reads_then; [apply reads_prepend, (r_list_end Hok)|]. apply reads_done.
Qed.

Lemma args_Read_spec q :
  reads (DiscoverArgs_Read fuel (mkHyperbahnDiscoverArgs None)) (tokens (TStruct (args_fields q)))
    (mkHyperbahnDiscoverArgs (Some q), None).
Proof.
  apply (readRequired_chain Hok T_HyperbahnDiscoverArgs (DiscoverArgs_onField fuel) (mkHyperbahnDiscoverArgs None, false) _
    (mkHyperbahnDiscoverArgs (Some q), true) fuel (λ '(p, isset), (p, [(isset, str "Query")]))); [|cbn; lia].
  apply (chain_cons _ _ 1 (TStruct (query_fields q)) _ (mkHyperbahnDiscoverArgs (Some q), true)); [done| |constructor].
  apply onType_read, and_isset_spec. apply (readNested_spec _ _ (λ v, mkHyperbahnDiscoverArgs (Some v))). apply query_Read_spec.
Qed.

(** *** The result: at most one of its fields is set *)

Lemma DiscoverResult_Read_one id fs x :
  fits (TStruct fs) → reads (DiscoverResult_onField fuel id STRUCT zeroResult) (tokens (TStruct fs)) (x, None) →
  reads (DiscoverResult_Read fuel zeroResult) (tokens (TStruct [(id, TStruct fs)])) (x, None).
Proof.
  intros Hf Hr. apply (readStruct_chain Hok); [|cbn; lia]. by eapply chain_cons; [|exact Hr|constructor].
Qed.

Lemma DiscoverResult_Read_success l : len l < 2^31 → Forall peer_ok l →
  reads (DiscoverResult_Read fuel zeroResult) (tokens (TStruct [(0, TStruct (result_fields l))]))
    (mkDiscoverResult (Some (peer_of <$> l)) None None, None).
Proof.
  intros Hlen Hl. apply DiscoverResult_Read_one; [apply fits_fields; constructor; [by apply peers_val_fits|constructor]|].
  apply onType_read. apply (readNested_spec _ _ (λ v, mkDiscoverResult (Some v) None None)). by apply result_Read_spec.
Qed.

Lemma DiscoverResult_Read_exceptions e :
  reads (DiscoverResult_Read fuel zeroResult) (tokens (TStruct [(1, TStruct (exception_fields e))]))
    (mkDiscoverResult None (Some e) None, None)
  ∧ reads (DiscoverResult_Read fuel zeroResult) (tokens (TStruct [(2, TStruct (exception_fields e))]))
      (mkDiscoverResult None None (Some e), None).
Proof.
  split; (apply DiscoverResult_Read_one; [done|]); apply onType_read.
  - apply (readNested_spec _ _ (λ v, mkDiscoverResult None (Some v) None)), exception_Read_spec.
  - apply (readNested_spec _ _ (λ v, mkDiscoverResult None None (Some v))), exception_Read_spec.
Qed.

End specs.

(** *** Writing *)

Section writing.
Context {P : Type} {HP : TProtocol P} {HL : TProtocolLaws P} {HE : ThriftErrors} (Hok : protocol_ok (P := P)).

Lemma exception_Write_spec T name e : writes (exception_Write T name (Some e)) (tokens (TStruct (exception_fields e))).
Proof.
  apply (writeStruct_spec Hok). do 2 (apply fields_cons; [apply (scalar_writes Hok _ _ _ _ _ (TString _)), (w_string Hok)|]).
  apply writes_nil.
Qed.

Lemma args_Write_spec q :
  writes (DiscoverArgs_Write (Some (mkHyperbahnDiscoverArgs (Some q)))) (tokens (TStruct (args_fields q))).
Proof.
  apply (writeStruct_spec Hok). apply fields_cons; [|apply writes_nil].
  apply (writeField_spec Hok _ _ _ _ (TStruct (query_fields q))). apply writes_prepend, (writeStruct_spec Hok).
  apply fields_cons; [|apply writes_nil]. apply (scalar_writes Hok _ _ _ _ _ (TString _)), (w_string Hok).
Qed.

(** A peer with an address. *)
Lemma peer_Write_spec v port : int32_ok v → int32_ok port →
  writes (ServicePeer_Write (Some (peer_of (Some v, port)))) (tokens (peer_val (Some v) port)).
Proof.
  intros Hv Hp. apply (writeStruct_spec Hok). apply fields_cons; [|apply fields_cons; [|apply writes_nil]].
  - apply (writeField_spec Hok _ _ _ _ (TStruct (ip_fields (Some v)))). apply writes_prepend. cbn [peer_of sp_IP fst IpAddress_Write CountSetFieldsIpAddress].
    rewrite decide_False by lia. apply (writeStruct_spec Hok). apply fields_cons; [|apply writes_nil].
    apply (scalar_writes Hok _ _ _ _ _ (TI32 _)). rewrite int32_small by exact Hv. by apply (w_i32 Hok).
  - apply (scalar_writes Hok _ _ _ _ _ (TI32 _)). cbn [peer_of sp_Port snd]. rewrite int32_small by exact Hp. by apply (w_i32 Hok).
Qed.

Definition addressed (p : IpAddress * Z) : Prop := is_Some p.1 ∧ peer_ok p.

Lemma peers_Write_spec l : Forall addressed l →
  writes (writeFields ((λ v, prepend (T_ServicePeer ++ str " error writing struct: ") (ServicePeer_Write (Some v))) <$> (peer_of <$> l)))
    (concat (tokens <$> ((λ p, peer_val p.1 p.2) <$> l))).
Proof.
  induction 1 as [|[ip port] l [[v Ev] [Hip Hp]] _ IH]; [apply writes_nil|]. cbn in Ev, Hip, Hp. subst ip.
  cbn [fmap list_fmap concat]. apply fields_cons; [|exact IH]. apply writes_prepend, peer_Write_spec; [by apply Hip|done].
Qed.

Lemma result_Write_spec l : len l < 2^31 → Forall addressed l →
  writes (DiscoveryResult_Write (Some (peer_of <$> l))) (tokens (TStruct (result_fields l))).
Proof.
  intros Hlen Hl. apply (writeStruct_spec Hok). apply fields_cons; [|apply writes_nil].
  apply (writeField_spec Hok _ _ _ _ (peers_val l)). cbn [peers_val tokens]. set (body := concat _).
  apply (writes_check _ _ [kListBegin STRUCT _] (body ++ [kListEnd])).
  - rewrite !length_fmap. apply writes_prepend, (w_list Hok). lia.
  - apply writes_check; [by apply peers_Write_spec|]. apply writes_prepend, (w_list_end Hok).
Qed.

(** One field of the result. *)
Lemma optional_field_spec {A} name id Tsub (write : option A → GO P (option error)) v fs :
  writes (write (Some v)) (tokens (TStruct fs)) →
  writes (optional_field name id Tsub write (Some v)) (concat (field_tokens <$> [(id, TStruct fs)])).
Proof.
  intros Hw. eapply writes_eq; [by apply (writeField_spec Hok _ _ _ _ (TStruct fs)), writes_prepend, Hw|].
  cbn [fmap list_fmap concat]. by rewrite app_nil_r.
Qed.

(** The fields of a result the server sends. *)
Definition sent_fields (r : option (list (IpAddress * Z)) + (bool * Exception)) : list (Z * tval) :=
  match r with
  | inl None => []
  | inl (Some l) => [(0, TStruct (result_fields l))]
  | inr (invalid, e) => [(if invalid : bool then 2 else 1, TStruct (exception_fields e))]
  end.
Definition sent_result (r : option (list (IpAddress * Z)) + (bool * Exception)) : DiscoverResult :=
  match r with
  | inl None => zeroResult
  | inl (Some l) => mkDiscoverResult (Some (peer_of <$> l)) None None
  | inr (false, e) => mkDiscoverResult None (Some e) None
  | inr (true, e) => mkDiscoverResult None None (Some e)
  end.
Definition sendable (r : option (list (IpAddress * Z)) + (bool * Exception)) : Prop :=
  ∀ l, r = inl (Some l) → len l < 2^31 ∧ Forall addressed l.

Lemma sent_Write_spec r : sendable r → writes (DiscoverResult_Write (Some (sent_result r))) (tokens (TStruct (sent_fields r))).
Proof.
  intros Hr. apply (writeStruct_spec Hok). destruct r as [[l|]|[[] e]]; cbn [sent_result sent_fields].
  - destruct (Hr l eq_refl) as [Hlen Hl].
    eapply writes_eq; [apply fields_cons; [by apply optional_field_spec, result_Write_spec|do 2 (apply fields_cons; [apply writes_nil|]); apply writes_nil]|].
    by rewrite !app_nil_r.
  - do 3 (apply (fields_cons _ _ [] []); [apply writes_nil|]). apply writes_nil.
  - do 2 (apply (fields_cons _ _ []); [apply writes_nil|]).
    eapply writes_eq; [apply fields_cons; [by apply optional_field_spec, exception_Write_spec|apply writes_nil]|apply app_nil_r].
  - apply (fields_cons _ _ []); [apply writes_nil|].
    eapply writes_eq; [apply fields_cons; [by apply optional_field_spec, exception_Write_spec|apply (fields_cons _ _ [] []); apply writes_nil]|apply app_nil_r].
Qed.

Lemma sent_Read_spec fuel r : (3 < fuel)%nat → sendable r →
  reads (DiscoverResult_Read fuel zeroResult) (tokens (TStruct (sent_fields r))) (sent_result r, None).
Proof.
  intros Hfuel Hr. destruct r as [[l|]|[[] e]].
  - destruct (Hr l eq_refl) as [Hlen Hl]. apply (DiscoverResult_Read_success Hok _ Hfuel); [done|]. eapply Forall_impl; [exact Hl|]. by intros p [_ ?].
  - apply (readStruct_chain Hok); [constructor|cbn; lia].
  - apply (DiscoverResult_Read_exceptions Hok _ Hfuel e).
  - apply (DiscoverResult_Read_exceptions Hok _ Hfuel e).
Qed.
End writing.

(** ** Discovery from end to end *)

Lemma addressed_peers peers : Forall (λ p, ∃ ip port, has_address ip port p) peers →
  ∃ l, peers = peer_of <$> l ∧ Forall addressed l.
Proof.
  induction 1 as [|p peers (ip & port & -> & Hip & Hport) _ (l & -> & Hl)]; [by exists []|].
  exists ((Some ip, port) :: l). split; [done|]. constructor; [|done].
  split; [by eexists|]. split; [by intros v [= <-]|done].
Qed.

(** What the server sends for what its handler returned, if it sends a struct. *)
Lemma handled_sent r success res : handleDiscover r = (success, Some res, None) →
  (∀ peers, r = inl (Some peers) → len peers < 2^31 ∧ Forall (λ p, ∃ ip port, has_address ip port p) peers) →
  ∃ x, res = sent_result x ∧ sendable x.
Proof.
  intros E Hr. destruct r as [[peers|]|[[v|]|[v|]|e]]; inversion E; subst.
  - destruct (Hr peers eq_refl) as [Hlen Hf]. destruct (addressed_peers peers Hf) as (l & -> & Hl).
    exists (inl (Some l)). split; [done|]. intros l' [= <-]. by rewrite length_fmap in Hlen.
  - exists (inl None). by split.
  - exists (inr (false, v)). by split.
  - exists (inr (true, v)). by split.
Qed.

(** What the outcome of the handler comes to: the return of the client's Discover, or the
    error that the server sends instead of a response. *)
Definition discovered (isProtocolException : error → bool) (r : option (list ServicePeer) + handlerError)
    : go (list bytes + discoverError) + error :=
  match r with
  | inl None => inl Panic
  | inl (Some peers) => inl (hps ← hostPorts peers; Ret (inl hps))
  | inr (hNoPeersAvailable (Some (m, s))) => inl (Ret (inr (NoPeersAvailable m s)))
  | inr (hInvalidServiceName (Some (m, s))) => inl (Ret (inr (InvalidServiceName m s)))
  | inr (hNoPeersAvailable None) =>
      inr (handle_error isProtocolException (nilException (str "noPeersAvailable") (str "NoPeersAvailable")))
  | inr (hInvalidServiceName None) =>
      inr (handle_error isProtocolException (nilException (str "invalidServiceName") (str "InvalidServiceName")))
  | inr (hOther e) => inr (handle_error isProtocolException e)
  end.

(** C16: A discovery from end to end, over any protocol that keeps the laws.  The handler of
    the server gets the name the client asked for.  When it returns fewer than 2^31 peers,
    each with an ipv4 address and a port of 32 bits, the client gets their host:ports in
    the same order; when it returns neither peers nor an error, the client panics; its two
    exceptions arrive with their message and service name.  An exception that is nil and
    any other error is handed to the server's connection and no response is written; if its
    message fits into a frame it is sent as an error frame, the client that receives this
    frame fails to read the response with its code and message, and Discover returns
    that error.  Nothing of the call is left in the protocol. *)
Theorem discovery_end_to_end {P : Type} {HP : TProtocol P} {HL : TProtocolLaws P} {HE : ThriftErrors}
    `{MapRange} (fuel : nat) (isProtocolException : error → bool)
    (handler : option DiscoveryQuery → option (list ServicePeer) + handlerError) (serviceName : bytes) (p : P) :
  protocol_ok (P := P) → (3 < fuel)%nat → holds [] p →
  let r := handler (Some (mkDiscoveryQuery serviceName)) in
  (∀ peers, r = inl (Some peers) → len peers < 2^31 ∧ Forall (λ p, ∃ ip port, has_address ip port p) peers) →
  (∃ p', discovery fuel isProtocolException handler serviceName p = Ret (discovered isProtocolException r, p') ∧ holds [] p')
  ∧ ∀ e callID, discovered isProtocolException r = inr e →
    0 <= callID < 2^32 → len (GetSystemErrorMessage e) <= MaxFramePayloadSize - 28 →
    error_received callID e (λ reader, ∀ n TRead free, ∃ reader' : fragmentingReader reqResReader,
      readResponse _ n (Struct := DiscoverResult) TRead free reader = Ret ((∅, false, None, Some (caller_sees e)), reader'))
    ∧ Discover (client_Discover zeroResult (inr (caller_sees e))) = Ret (inr (discoverFailed (caller_sees e))).
Proof.
  intros Hok Hfuel Hp r Hr. split.
  2:{ intros e callID _ Hid Hlen. split; [|done]. eapply error_received_impl; [|by apply error_reaches_reader].
      intros reader [reader' HR] n TRead free. exists reader'. by apply readResponse_error. }
  set (q := mkDiscoveryQuery serviceName) in *.
  destruct (args_Write_spec Hok q [] p Hp) as (p1 & E1 & H1). cbn [app] in H1. rewrite <- (app_nil_r (tokens _)) in H1.
  destruct (args_Read_spec Hok fuel Hfuel q [] p1 H1) as (p2 & E2 & H2).
  unfold discovery. rewrite (check_run _ _ _ _ _ E1). unfold server_discover.
  unfold mbind, gost_bind at 1. unfold mbind, gost_bind at 1. rewrite E2. cbn [mret gost_ret Query]. fold q r.
  destruct (handleDiscover r) as [[success [res|]] [e|]] eqn:E.
  - by destruct r as [[peers|]|[[v|]|[v|]|e']].
  - destruct (handled_sent r success res E Hr) as (x & -> & Hx).
    destruct (sent_Write_spec Hok x Hx [] p2 H2) as (p3 & E3 & H3). rewrite (check_run _ _ _ _ _ E3).
    cbn [app] in H3. rewrite <- (app_nil_r (tokens _)) in H3.
    destruct (sent_Read_spec Hok fuel x Hfuel Hx [] p3 H3) as (p4 & E4 & H4). unfold gost_bind. rewrite E4.
    exists p4. split; [|exact H4]. unfold mret, gost_ret. do 2 f_equal.
    destruct r as [[peers|]|[[[m s]|]|[[m s]|]|e']]; cbn [handleDiscover] in E; inversion E as [[Hs Hres]]; rewrite <- ?Hres; reflexivity.
  - exists p2. split; [|exact H2]. unfold mret, gost_ret. do 2 f_equal.
    destruct r as [[peers|]|[[[m s]|]|[[m s]|]|e']]; cbn [handleDiscover] in E; by inversion E.
  - by destruct r as [[peers|]|[[v|]|[v|]|e']].
Qed.

(** A peer whose address has no member, as a union with a member this version does not know
    is read, passes the struct's checks: it is not a required field of the union.  The
    client dereferences it. *)
Lemma unset_address_from_wire {P : Type} {HP : TProtocol P} {HL : TProtocolLaws P} {HE : ThriftErrors}
    (fuel : nat) (l : list (IpAddress * Z)) (port : Z) (p : P) :
  protocol_ok (P := P) → (3 < fuel)%nat → len l < 2^31 - 1 → Forall addressed l → int32_ok port →
  holds (tokens (TStruct [(0, TStruct (result_fields (l ++ [(None, port)])))])) p →
  ∃ resp p', DiscoverResult_Read fuel zeroResult p = Ret ((resp, None), p')
  ∧ Discover (client_Discover resp (inl true)) = Panic.
Proof.
  intros Hok Hfuel Hlen Hl Hport Hp. rewrite <- (app_nil_r (tokens _)) in Hp.
  assert (Hpeers : Forall peer_ok (l ++ [(None, port)])).
  { apply Forall_app. split; [eapply Forall_impl; [exact Hl|]; by intros x []|]. constructor; [by split|constructor]. }
  assert (Hsize : len (l ++ [(None : IpAddress, port)]) < 2^31) by (rewrite length_app; cbn [length]; lia).
  destruct (DiscoverResult_Read_success Hok fuel Hfuel _ Hsize Hpeers [] p Hp) as (p' & E & _).
  eexists _, p'. split; [exact E|]. unfold client_Discover. cbn [dr_Success]. rewrite fmap_app. apply Discover_unset_address.
  rewrite Forall_fmap. eapply Forall_impl; [exact Hl|]. intros [ip pt] [[v Ev] [Hip Hpt]]. cbn in Ev, Hip, Hpt. subst ip.
  exists v, pt. split; [done|]. split; [by apply Hip|done].
Qed.

(** ** Witnesses *)

#[local] Instance example_prefixes : ThriftErrors :=
  {| PrependError msg e := otherError (msg ++ Error e); invalidData msg := otherError msg |}.

Definition example_handler (q : option DiscoveryQuery) : option (list ServicePeer) + handlerError :=
  match q with
  | Some q =>
      if decide (dq_ServiceName q = str "moe") then
        inl (Some [mkServicePeer (Some (Some 2130706433)) 21300; mkServicePeer (Some (Some (-16777214))) 80])
      else inr (hNoPeersAvailable (Some (str "none", dq_ServiceName q)))
  | None => inr (hOther (otherError (str "no query")))
  end.

Lemma discovery_end_to_end_witness :
  (∃ p', discovery 4 (λ _, false) example_handler (str "moe") ([] : list token)
    = Ret (inl (Ret (inl [str "127.0.0.1:21300"; str "255.0.0.2:80"])), p'))
  ∧ (∃ p', discovery 4 (λ _, false) example_handler (str "bar") ([] : list token)
    = Ret (inl (Ret (inr (NoPeersAvailable (str "none") (str "bar")))), p')).
Proof.
  split.
  - destruct (discovery_end_to_end (H := storage_range) 4 (λ _, false) example_handler (str "moe") ([] : list token)) as [(p' & E & _) _].
    + apply token_list_ok.
    + lia.
    + reflexivity.
    + intros peers Ep. vm_compute in Ep. injection Ep as <-. split; [reflexivity|].
      repeat constructor; eexists _, _; (split; [reflexivity|]; lia).
    + exists p'. rewrite E. vm_compute. reflexivity.
  - destruct (discovery_end_to_end (H := storage_range) 4 (λ _, false) example_handler (str "bar") ([] : list token)) as [(p' & E & _) _].
    + apply token_list_ok.
    + lia.
    + reflexivity.
    + intros peers Ep. vm_compute in Ep. discriminate Ep.
    + exists p'. exact E.
Defined.
