(* ===== verification/Serve.v ===== *)
(** * Accepting connections (serve of channel.go), options of connections (connection.go)

    The loop that accepts connections waits after an error that is temporary, twice as long
    each time, and ends at any other error: silently if the channel is being closed, and
    otherwise with a fatal log message, which ends the process.  Accept is the sequence of
    its results, with the state of the channel at the time. *)

From S2P Require Import Prelude Text Errors Buffer Checksum Frame Messages Fragment Mex ReqRes Conc Health Connection PeerHeap Peer Channel.

Inductive accepted :=
| acceptConn (conn : nat)
| acceptTemporary (e : error)
| acceptFails (e : error) (state : ChannelState).

Inductive serveEvent := startHandshake (conn : nat) | sleeps (d : Z) | fatal (e : error) | returns.

(** The next wait. *)
Definition backoff (acceptBackoff : Z) : Z :=
  let b := if decide (acceptBackoff = 0) then 5 * millisecond else acceptBackoff * 2 in
  let max := 1000 * millisecond in
  if decide (b > max) then max else b.

Fixpoint serve_from (acceptBackoff : Z) (results : list accepted) : list serveEvent :=
  match results with
  | [] => []
  | acceptConn c :: results => startHandshake c :: serve_from 0 results
  | acceptTemporary e :: results =>
      let b := backoff acceptBackoff in sleeps b :: serve_from b results
  | acceptFails e state :: _ =>
      if decide (ChannelState_int ChannelStartClose <= ChannelState_int state) then [returns] else [fatal e; returns]
  end.
Definition ch_serve (results : list accepted) : list serveEvent := serve_from 0 results.

(** ** Waiting *)

(** The wait after [k] temporary errors in a row. *)
Definition waits (k : nat) : Z := Z.min (5 * millisecond * 2 ^ Z.of_nat k) (1000 * millisecond).

Lemma backoff_first : backoff 0 = waits 0.
Proof. reflexivity. Qed.

Lemma backoff_next k : backoff (waits k) = waits (S k).
Proof.
  unfold backoff, waits, millisecond. rewrite Nat2Z.inj_succ, Z.pow_succ_r by lia.
  pose proof (Z.pow_pos_nonneg 2 (Z.of_nat k) ltac:(lia) ltac:(lia)).
  repeat case_decide; lia.
Qed.

Lemma serve_temporary es : ∀ k results,
  serve_from (if k is S k then waits k else 0) ((acceptTemporary <$> es) ++ results)
  = (sleeps <$> (waits <$> seq k (length es)))
    ++ serve_from (if (k + length es)%nat is S k then waits k else 0) results.
Proof.
  induction es as [|e es IH]; intros k results; cbn [length seq fmap list_fmap app]; [by rewrite Nat.add_0_r|].
  cbn [serve_from]. replace (backoff (if k is S k then waits k else 0)) with (waits k)
    by (destruct k; [symmetry; apply backoff_first|symmetry; apply backoff_next]).
  f_equal. rewrite (IH (S k) results). by rewrite Nat.add_succ_r.
Qed.

(** However the results are mixed, temporary errors in a row are waited for 5, 10, 20, ...
    milliseconds and never more than a second; the first connection that is accepted
    starts the count anew. *)
Theorem serve_backoff es c results :
  ch_serve ((acceptTemporary <$> es) ++ acceptConn c :: results)
  = (sleeps <$> (waits <$> seq 0 (length es))) ++ startHandshake c :: ch_serve results
  ∧ ∀ k, 5 * millisecond <= waits k <= 1000 * millisecond ∧ ((8 <= k)%nat → waits k = 1000 * millisecond).
Proof.
  split.
  - unfold ch_serve. rewrite (serve_temporary es 0). f_equal.
  - intros k. unfold waits, millisecond.
    pose proof (Z.pow_le_mono_r 2 0 (Z.of_nat k) ltac:(lia) ltac:(lia)). split; [lia|]. intros Hk.
    pose proof (Z.pow_le_mono_r 2 8 (Z.of_nat k) ltac:(lia) ltac:(lia)). lia.
Qed.

(** The loop ends at the first error that is not temporary, and the process goes on exactly
    when the channel was being closed. *)
Theorem serve_ends pre e state rest :
  Forall (λ r, match r with acceptFails _ _ => False | _ => True end) pre →
  ∃ before, ch_serve (pre ++ acceptFails e state :: rest)
    = before ++ (if decide (state ∈ [ChannelStartClose; ChannelInboundClosed; ChannelClosed]) then [returns] else [fatal e; returns])
  ∧ returns ∉ before ∧ length before = length pre.
Proof.
  unfold ch_serve. generalize 0 as b. induction pre as [|r pre IH]; intros b Hf.
  - exists []. split_and!; [|apply not_elem_of_nil|done]. cbn [serve_from app]. f_equal.
    destruct state; repeat case_decide; try done; try (cbn in *; lia); exfalso; set_solver.
  - apply Forall_cons in Hf as [Hr Hf]. destruct r as [c|e'|]; [| |done]; cbn [serve_from app].
    + destruct (IH 0 Hf) as (before & -> & Hn & Hl). exists (startHandshake c :: before). split_and!; [done| |cbn; lia].
      rewrite not_elem_of_cons. by split.
    + destruct (IH (backoff b) Hf) as (before & -> & Hn & Hl). exists (sleeps (backoff b) :: before). split_and!; [done| |cbn; lia].
      rewrite not_elem_of_cons. by split.
Qed.

(** ** Options of connections *)

Record SendBufferSizeOverride := mkOverride { ProcessNamePrefix : bytes; ov_SendBufferSize : Z }.

(** The frame pool is an identity; [None] is nil. *)
Record ConnectionOptions := mkConnectionOptions {
  co_FramePool : option nat;
  RecvBufferSize : Z;
  co_SendBufferSize : Z;
  SendBufferSizeOverrides : list SendBufferSizeOverride;
  co_ChecksumType : byte;
  TosPriority : Z;
  co_HealthChecks : HealthCheckOptions;
  MaxCloseTime : Z
}.

Definition DefaultConnectionBufferSize : Z := 512.
Definition DefaultConnectTimeout : Z := 5000 * millisecond.

Definition co_withDefaults (defaultPool : nat) (co : ConnectionOptions) : ConnectionOptions :=
  mkConnectionOptions
    (Some (default defaultPool (co_FramePool co)))
    (RecvBufferSize co)
    (if decide (co_SendBufferSize co <= 0) then DefaultConnectionBufferSize else co_SendBufferSize co)
    (SendBufferSizeOverrides co)
    (if decide (co_ChecksumType co = ChecksumTypeNone) then ChecksumTypeCrc32 else co_ChecksumType co)
    (TosPriority co)
    (health_withDefaults (co_HealthChecks co))
    (MaxCloseTime co).

Fixpoint firstOverride (overrides : list SendBufferSizeOverride) (processName : bytes) : option Z :=
  match overrides with
  | [] => None
  | o :: overrides =>
      if HasPrefix processName (ProcessNamePrefix o) then Some (ov_SendBufferSize o) else firstOverride overrides processName
  end.
Definition getSendBufferSize (co : ConnectionOptions) (processName : bytes) : Z :=
  default (co_SendBufferSize co) (firstOverride (SendBufferSizeOverrides co) processName).

(** The capacity of the send channel of a new connection; make of a negative size panics. *)
Definition sendChCapacity (co : ConnectionOptions) (processName : bytes) : go nat :=
  let n := getSendBufferSize co processName in
  if decide (n < 0) then Panic else Ret (Z.to_nat n).

(** [deadline] of the context, if it has one. *)
Definition getTimeout (deadline : option Z) (now : Z) : Z :=
  match deadline with
  | None => DefaultConnectTimeout
  | Some d => d - now
  end.

(** The first override whose prefix fits decides, as it is; only without one there is the
    size of the options, which is positive once the defaults are set. *)
Theorem send_buffer pool co processName :
  let co' := co_withDefaults pool co in
  (∀ pre o post, SendBufferSizeOverrides co = pre ++ o :: post →
     Forall (λ o, HasPrefix processName (ProcessNamePrefix o) = false) pre →
     HasPrefix processName (ProcessNamePrefix o) = true →
     sendChCapacity co' processName = if decide (ov_SendBufferSize o < 0) then Panic else Ret (Z.to_nat (ov_SendBufferSize o)))
  ∧ (Forall (λ o, HasPrefix processName (ProcessNamePrefix o) = false) (SendBufferSizeOverrides co) →
     ∃ n, sendChCapacity co' processName = Ret n ∧ (0 < n)%nat).
Proof.
  intros co'. split.
  - intros pre o post E Hpre Ho. unfold sendChCapacity, getSendBufferSize, co'. cbn [SendBufferSizeOverrides co_withDefaults].
    rewrite E. assert (Hf : firstOverride (pre ++ o :: post) processName = Some (ov_SendBufferSize o)).
    { clear E. induction Hpre as [|x pre Hx _ IH]; cbn [app firstOverride]; [by rewrite Ho|by rewrite Hx]. }
    by rewrite Hf.
  - intros Hall. unfold sendChCapacity, getSendBufferSize, co'. cbn [SendBufferSizeOverrides co_SendBufferSize co_withDefaults].
    assert (Hf : firstOverride (SendBufferSizeOverrides co) processName = None).
    { induction Hall as [|x l Hx _ IH]; cbn [firstOverride]; [done|by rewrite Hx]. }
    rewrite Hf. cbn [default]. unfold DefaultConnectionBufferSize. destruct (decide (co_SendBufferSize co <= 0)).
    + exists 512%nat. split; [done|lia].
    + rewrite decide_False by lia. eexists. split; [reflexivity|lia].
Qed.
