(* ===== verification/ChannelSafe.v ===== *)
(** * The life of a channel

    Every interleaving of the goroutines of a channel, of its connections and of the
    users of its peer lists: the channel closes once, when its connections are closed,
    and no code panics. *)

From stdpp Require Import functions.
From S2P Require Import Prelude Conc Errors Retry Buffer Checksum Frame Messages Fragment Mex ReqRes Health Connection ConnectionSafe PeerHeap Peer PeerCorrect PeerShared PeerSafe Channel FrameLoops.

(** ** Invariant, guarantee and accounts *)

Definition conn_int (ch : Channel) (i : nat) : Z := connectionState_int (c_state (conn ch i)).

(** The connections the channel has to wait for. *)
Record chan_inv (ch : Channel) : Prop := {
  ci_conn i : conn_inv (conn ch i);
  ci_lists : lists_ok (ch_peers ch);
  ci_info i : remoteHostPort (ch_info ch i) ≠ [];
  ci_stop : ch_closedCh ch = true → ch_state ch = ChannelClosed;
  ci_closed i : ch_state ch = ChannelClosed → i ∈ ch_conns ch → c_state (conn ch i) = connectionClosed;
  ci_inbound i : ch_state ch = ChannelInboundClosed → i ∈ ch_conns ch → 3 <= conn_int ch i;
  ci_idle : is_started (ch_idleSweep ch) = true → is_stopCh (ch_idleSweep ch) = Some false
}.

Record chan_adv (ch ch' : Channel) : Prop := {
  ca_conn i : advance (conn ch i) (conn ch' i);
  ca_host p : (p < w_nextPeer (ch_peers ch))%nat → hostPort (w_peer (ch_peers ch') p) = hostPort (w_peer (ch_peers ch) p);
  ca_next : (w_nextPeer (ch_peers ch) <= w_nextPeer (ch_peers ch'))%nat;
  ca_info i : remoteHostPort (ch_info ch' i) = remoteHostPort (ch_info ch i);
  ca_closing : 3 <= ChannelState_int (ch_state ch) → 3 <= ChannelState_int (ch_state ch') ∧ ch_conns ch' ⊆ ch_conns ch;
  ca_closed : ch_state ch = ChannelClosed → ch_state ch' = ChannelClosed;
  ca_kept i : i ∈ ch_conns ch → i ∈ ch_conns ch' ∨ c_state (conn ch' i) = connectionClosed
}.

Lemma conn_int_later c c' : advance c c' → connectionState_int (c_state c) <= connectionState_int (c_state c').
Proof. apply adv_state. Qed.

Lemma closed_later c c' : advance c c' → c_state c = connectionClosed → c_state c' = connectionClosed.
Proof. intros HA H. apply adv_state in HA. rewrite H in HA. by apply state_closed_int. Qed.

#[export] Instance chan_adv_preorder : PreOrder chan_adv.
Proof.
  split.
  - intros ch. split; try done. by left.
  - intros a b c [A1 A2 A3 A4 A5 A6 A7] [B1 B2 B3 B4 B5 B6 B7]. split.
    + intros i. etransitivity; [apply A1|apply B1].
    + intros p Hp. rewrite B2, A2 by lia. done.
    + lia.
    + intros i. by rewrite B4.
    + intros H. destruct (A5 H) as [H1 H2]. destruct (B5 H1) as [H3 H4]. split; [done|by etransitivity].
    + auto.
    + intros i Hi. destruct (A7 i Hi) as [H|H]; [by apply B7|right]. eapply closed_later; [apply B1|done].
Qed.

(** Owed are the closing of the stop channels of the connections and their relayed
    calls, and, under [None], the closing of the channel's own channel. *)
Definition chan_idx : Type := option (nat * bool).

Definition chan_bal (ch : Channel) : chan_idx → Z := λ x,
  match x with
  | None => (if decide (ch_state ch = ChannelClosed) then 1 else 0) - (if ch_closedCh ch then 1 else 0)
  | Some (i, b) => amount (conn_bal (conn ch i)) b
  end.

Abbreviation cwp_ch := (cwp chan_inv chan_adv chan_bal).
Abbreviation neutral_ch := (neutral chan_inv chan_adv chan_bal).
Abbreviation neutral_bind_ch := (neutral_bind chan_inv chan_adv chan_bal).
Abbreviation cwp_mono_ch := (cwp_mono chan_inv chan_adv chan_bal).

(** ** Code of peers and connections *)

Definition emb_p (k : nat * bool → Z) (l : chan_idx → Z) : chan_idx → Z := λ x,
  match x with Some y => k y + l x | None => l x end.

Lemma peers_part : part_of ch_peers ch_set_peers peers_inv lists_adv conns_bal chan_inv chan_adv chan_bal emb_p.
Proof.
  split.
  - done.
  - intros ch H. split; apply H.
  - intros ch ch' H. split; apply H.
  - intros ch k l Hl H [i b]. specialize (Hl (Some (i, b))). specialize (H (Some (i, b))). cbn in *. unfold conn in H. lia.
  - intros k l Hk Hl [[i b]|]; cbn; [specialize (Hk (i, b)); specialize (Hl (Some (i, b)))|specialize (Hl None)]; cbn in *; lia.
  - intros w ch [C1 C2 C3 C4 C5 C6 C7] [H1 H2] [A1 A2 A3]. split.
    + split; try done; cbn.
      * intros i Hc Hi. eapply closed_later; [apply (A3 i)|by apply C5].
      * intros i Hc Hi. specialize (C6 i Hc Hi). pose proof (adv_state _ _ (A3 i)) as H. unfold conn_int, conn in *. cbn [ch_peers ch_set_peers]. lia.
    + split; try done; cbn. by left.
  - intros w ch k k' l H [[i b]|]; cbn; [|lia]. specialize (H (i, b)). cbn in H. unfold conns_bal in H. cbn in H. unfold conn. cbn. lia.
  - intros k l H [[i b]|]; cbn; [|done]. specialize (H (i, b)). cbn in H. lia.
Qed.

Lemma on_peers_neutral {A} (p : pprog A) : neutral_p p → neutral_ch (on_peers p).
Proof.
  intros Hp. apply (neutral_within _ _ _ _ _ _ _ _ _ _ _ p peers_part); [intros _; apply neutral_ret|done].
Qed.

Definition emb_c (i : nat) (k : acc) (l : chan_idx → Z) : chan_idx → Z := λ x,
  match x with Some (j, b) => if decide (j = i) then amount k b + l x else l x | None => l x end.

Lemma conn_put i c ch j : conn (put_conn i c ch) j = if decide (j = i) then c else conn ch j.
Proof.
  unfold conn. cbn. case_decide as E; [by rewrite E, fn_lookup_insert|by rewrite fn_lookup_insert_ne by congruence].
Qed.

Lemma put_adv i c ch j : advance (conn ch i) c → advance (conn ch j) (conn (put_conn i c ch) j).
Proof. intros H. rewrite conn_put. case_decide; [by subst|reflexivity]. Qed.

Lemma conn_part i : part_of (λ ch, conn ch i) (put_conn i) conn_inv advance conn_bal chan_inv chan_adv chan_bal (emb_c i).
Proof.
  split.
  - intros c ch. rewrite conn_put. by rewrite decide_True.
  - intros ch H. apply H.
  - intros ch ch' H. apply H.
  - intros ch k l Hl H b. specialize (Hl (Some (i, b))). specialize (H (Some (i, b))). cbn in Hl, H. rewrite decide_True in H by done. cbn. lia.
  - intros k l Hk Hl [[j b]|]; cbn; [specialize (Hk b); specialize (Hl (Some (j, b))); destruct b; case_decide|specialize (Hl None)]; cbn in *; lia.
  - intros c ch [C1 C2 C3 C4 C5 C6 C7] H1 HA. pose proof (put_adv i c ch) as Hput. split.
    + split; try done.
      * intros j. rewrite conn_put. by case_decide.
      * destruct C2. by split.
      * intros j Hc Hi. eapply closed_later; [by apply Hput|by apply C5].
      * intros j Hc Hi. specialize (C6 j Hc Hi). pose proof (adv_state _ _ (Hput j HA)). unfold conn_int in *. lia.
    + split; try done. { intros j. by apply Hput. } by left.
  - intros c ch k k' l H [[j b]|]; [|cbn; lia]. cbn [amount fun_account chan_bal emb_c]. rewrite conn_put.
    case_decide as E; [rewrite E|lia]. specialize (H b). lia.
  - intros k l H [[j b]|]; cbn; [|done]. specialize (H b). cbn in H. case_decide; [destruct b; cbn in *; lia|done].
Qed.

(** ** Actions of the channel *)

Create HintDb chan discriminated.

Lemma neutral_ch_read {A} (f : Channel → A) : neutral_ch (ch_read f).
Proof. apply neutral_atomic. intros ch H. split_and!; [done|reflexivity|reflexivity]. Qed.

(** A value read off the channel at one moment. *)
Lemma cwp_ch_read {A} s0 k (f : Channel → A) Q :
  acc_le acc0 k → (∀ ch, chan_adv s0 ch → chan_inv ch → Q (f ch) ch k) → cwp_ch s0 k (ch_read f) Q.
Proof.
  intros Hk HQ. apply cwp_atomic. intros ch HG HI _. cbn. split_and!; [done|reflexivity|].
  exists k. split_and!; [done|by apply acc_moved_same|by apply HQ].
Qed.

(** Changes that leave state, connections and accounts alone. *)
Lemma neutral_ch_do {A} (m : ST Channel A) :
  (∀ ch, chan_inv ch → chan_inv (m ch).2 ∧ chan_adv ch (m ch).2 ∧ acc_same (chan_bal (m ch).2) (chan_bal ch)) →
  neutral_ch (atomic m).
Proof. apply neutral_atomic. Qed.

#[export] Hint Resolve neutral_ch_read on_peers_neutral onPeerChange_neutral connectionCloseStateChange_neutral
  peer_addConnection_neutral getActiveConn_neutral SetStrategy_neutral : chan.
#[export] Hint Extern 1 (neutral_ch (mret _)) => apply neutral_ret : chan.

Lemma root_Get_neutral hp : neutral_p (root_Get hp).
Proof. apply neutral_p_read. Qed.
Lemma root_GetOrAdd_neutral hp : hp ≠ [] → neutral_p (root_GetOrAdd hp).
Proof. intros H. eapply yields_neutral. by apply root_GetOrAdd_named. Qed.
#[export] Hint Resolve root_Get_neutral root_GetOrAdd_neutral : chan.

(** Straight-line code whose actions are neutral. *)
Ltac neut_ch :=
  repeat match goal with
  | |- neutral_ch (_ ≫= _) => apply neutral_bind_ch; [|intros ?]
  | |- neutral_ch (match ?x with _ => _ end) => destruct x
  | |- neutral_ch _ => solve [eauto 3 with chan]
  end.

Lemma subs_updatePeer_neutral names p : neutral_ch (subs_updatePeer names p).
Proof. induction names as [|n names IH]; cbn [subs_updatePeer]; neut_ch. Qed.
#[export] Hint Resolve subs_updatePeer_neutral : chan.

Lemma updatePeer_ch_neutral p : neutral_ch (updatePeer p).
Proof. unfold updatePeer. neut_ch. Qed.
#[export] Hint Resolve updatePeer_ch_neutral : chan.

Lemma exchangeUpdated_neutral i : neutral_ch (exchangeUpdated i).
Proof. unfold exchangeUpdated. neut_ch. Qed.
#[export] Hint Resolve exchangeUpdated_neutral : chan.

Lemma peerLosesConn_neutral hp i : neutral_ch (peerLosesConn hp i).
Proof. unfold peerLosesConn. neut_ch. Qed.
#[export] Hint Resolve peerLosesConn_neutral : chan.

(** Setting the connections or the state. *)
Lemma set_conns_good cs ch :
  chan_inv ch → (cs ⊆ ch_conns ch ∨ ChannelState_int (ch_state ch) < 3) →
  (∀ i, i ∈ ch_conns ch → i ∈ cs ∨ c_state (conn ch i) = connectionClosed) →
  chan_inv (ch_set_conns cs ch) ∧ chan_adv ch (ch_set_conns cs ch) ∧ acc_same (chan_bal (ch_set_conns cs ch)) (chan_bal ch).
Proof.
  intros [C1 C2 C3 C4 C5 C6 C7] Hsub Hkept. split_and!; [split; try done|split; try done|reflexivity].
  - cbn. intros i Hc Hi. apply C5; [done|]. destruct Hsub as [Hs|Hs]; [by apply Hs|rewrite Hc in Hs; cbn in Hs; lia].
  - cbn. intros i Hc Hi. apply C6; [done|]. destruct Hsub as [Hs|Hs]; [by apply Hs|rewrite Hc in Hs; cbn in Hs; lia].
  - cbn. intros H. split; [done|]. destruct Hsub; [done|lia].
Qed.

Lemma removeClosedConn_neutral i : neutral_ch (removeClosedConn i).
Proof.
  intros s0 k Hk. unfold removeClosedConn. apply cwp_bind, cwp_ch_read; [done|]. intros ch1 _ _.
  case_decide as Ec; [|done]. apply cwp_atomic. intros ch HG HI _. cbn [fst snd].
  destruct (set_conns_good (ch_conns ch ∖ {[i]}) ch) as (HI' & HG' & Hb); [done|left; set_solver| |].
  - intros j Hj. destruct (decide (j = i)) as [->|]; [right|left; set_solver]. eapply closed_later; [apply HG|done].
  - split_and!; [done..|]. exists k. split_and!; [done|by apply acc_moved_same|done].
Qed.
#[export] Hint Resolve removeClosedConn_neutral : chan.

(** ** The state of the channel follows its connections *)

(** [m] bounds the states of the connections from below. *)
Definition at_least (m : connectionState) (ch : Channel) : Prop :=
  3 <= ChannelState_int (ch_state ch) ∧ ∀ i, i ∈ ch_conns ch → connectionState_int m <= conn_int ch i.

Lemma minState_loop_ok cs s0 k m :
  acc_le acc0 k → 3 <= ChannelState_int (ch_state s0) →
  (∀ i, i ∈ ch_conns s0 → i ∈ cs ∨ connectionState_int m <= conn_int s0 i) →
  cwp_ch s0 k (minState_loop cs m) (λ m' ch k', k' = k ∧ at_least m' ch).
Proof.
  revert s0 m. induction cs as [|j cs IH]; intros s0 m Hk Hst Hm; cbn [minState_loop].
  { split; [done|]. split; [done|]. intros i Hi. by destruct (Hm i Hi) as [?%elem_of_nil|]. }
  apply cwp_bind, cwp_ch_read; [done|]. intros ch HG HI. destruct (ca_closing _ _ HG Hst) as [Hst' Hsub].
  apply IH; [done..|]. intros i Hi. assert (Hle : conn_int s0 i <= conn_int ch i) by apply adv_state, HG.
  destruct (Hm i (Hsub i Hi)) as [[->|Hin]%elem_of_cons|Hmi]; [right|by left|right].
  - change (connectionState_int (c_state (conn ch j))) with (conn_int ch j). case_decide; [done|lia].
  - change (connectionState_int (c_state (conn ch j))) with (conn_int ch j). case_decide; [|lia]. unfold conn_int in *. lia.
Qed.

Lemma getMin_ok s0 k :
  acc_le acc0 k → 3 <= ChannelState_int (ch_state s0) →
  cwp_ch s0 k getMinConnectionState (λ m ch k', k' = k ∧ at_least m ch).
Proof.
  intros Hk Hst. unfold getMinConnectionState. apply cwp_bind, cwp_ch_read; [done|]. intros ch HG HI.
  apply minState_loop_ok; [done|by apply (ca_closing _ _ HG)|]. intros i Hi. left. by apply elem_of_elements.
Qed.

(** The right to close the channel's channel. *)
Definition owe (k : chan_idx → Z) : chan_idx → Z := λ x, match x with None => k None + 1 | Some _ => k x end.

Lemma owe_nonneg k : acc_le acc0 k → acc_le acc0 (owe k).
Proof. intros H [x|]; [apply (H (Some x))|specialize (H None); cbn in *; lia]. Qed.

Lemma onClosed_ok s0 k : acc_le acc0 k → cwp_ch s0 (owe k) onClosed (λ _ _ k', k' = k).
Proof.
  intros Hk. apply cwp_act. intros ch _ HI Hb.
  assert (ch_closedCh ch = false ∧ ch_state ch = ChannelClosed) as [Hs Hc].
  { specialize (Hb None). specialize (Hk None). cbn in Hb, Hk.
    destruct (ch_closedCh ch), (decide (ch_state ch = ChannelClosed)); try lia. done. }
  rewrite Hs. destruct HI as [C1 C2 C3 C4 C5 C6 C7]. split_and!; [by split|split; try done; by left|].
  exists k. split_and!; [done| |done]. intros [[i b]|]; [reflexivity|]. cbn. rewrite Hs, Hc. cbn. lia.
Qed.

(** Moving the state to [u], which pays for [onClosed] if the channel is closed by it. *)
Definition gain_ch (u : ChannelState) (k : chan_idx → Z) : chan_idx → Z := if decide (u = ChannelClosed) then owe k else k.

Lemma set_ch_state_good u ch k :
  chan_inv ch → ch_state ch ≠ ChannelClosed → ChannelState_int u >= 3 ∨ ChannelState_int (ch_state ch) < 3 →
  (u = ChannelClosed → ∀ i, i ∈ ch_conns ch → c_state (conn ch i) = connectionClosed) →
  (u = ChannelInboundClosed → ∀ i, i ∈ ch_conns ch → 3 <= conn_int ch i) →
  chan_inv (ch_set_state u ch) ∧ chan_adv ch (ch_set_state u ch)
  ∧ acc_moved (chan_bal ch) k (chan_bal (ch_set_state u ch)) (gain_ch u k).
Proof.
  intros [C1 C2 C3 C4 C5 C6 C7] Hne Hu Hcl Hin. split_and!.
  - split; try done; cbn; [intros Hs; by apply C4 in Hs|by intros i ->; apply Hcl|by intros i ->; apply Hin].
  - split; try done; cbn; [intros H; split; [lia|done]|by left].
  - intros [[i b]|]; unfold gain_ch; [by case_decide|]. cbn.
    rewrite (decide_False (P := ch_state ch = ChannelClosed)) by done. case_decide; cbn; lia.
Qed.

Lemma updateTo_sound m st u ch :
  updateTo m st = Some u → at_least m ch → st = ChannelStartClose ∨ st = ChannelInboundClosed →
  3 <= ChannelState_int u
  ∧ (u = ChannelClosed → ∀ i, i ∈ ch_conns ch → c_state (conn ch i) = connectionClosed)
  ∧ (u = ChannelInboundClosed → ∀ i, i ∈ ch_conns ch → 3 <= conn_int ch i).
Proof.
  unfold updateTo, at_least, conn_int. intros Hu [_ Hm] Hst. case_decide as H1; [|case_decide as H2; [|done]]; injection Hu as <-; cbn.
  - split_and!; [lia| |done]. intros _ i Hi. specialize (Hm i Hi). apply state_closed_int. cbn in *. lia.
  - split_and!; [lia|done|]. intros _ i Hi. specialize (Hm i Hi). cbn in *. lia.
Qed.

Lemma at_least_later m ch ch' : chan_adv ch ch' → at_least m ch → at_least m ch'.
Proof.
  intros HG [H1 H2]. destruct (ca_closing _ _ HG H1) as [H3 H4]. split; [done|]. intros i Hi.
  pose proof (adv_state _ _ (ca_conn _ _ HG i)). specialize (H2 i (H4 i Hi)). unfold conn_int in *. lia.
Qed.

Lemma updateState_neutral : neutral_ch updateState.
Proof.
  intros s0 k Hk. unfold updateState. apply cwp_bind, cwp_ch_read; [done|]. intros ch1 _ _.
  case_decide as Hst; [done|]. assert (Hst' : ch_state ch1 = ChannelStartClose ∨ ch_state ch1 = ChannelInboundClosed)
    by (destruct (ch_state ch1); first [by left|by right|by destruct Hst]).
  apply cwp_bind. eapply cwp_mono_ch; [|apply getMin_ok; [done|destruct Hst' as [->| ->]; done]].
  intros m ch2 k2 HG2 [-> Hm]. destruct (updateTo m (ch_state ch1)) as [u|] eqn:Hu; [|done].
  apply cwp_bind, cwp_atomic. intros ch HG HI _. case_decide as E; cbn [fst snd].
  2: { split_and!; [done|reflexivity|]. exists k. split_and!; [done|by apply acc_moved_same|].
       rewrite decide_False by (by intros [? _]). done. }
  apply (at_least_later _ _ _ HG) in Hm. destruct (updateTo_sound m _ u ch Hu Hm Hst') as (H1 & H2 & H3).
  destruct (set_ch_state_good u ch k HI) as (HI' & HG' & Hb); [destruct Hst'; congruence|left; lia|done..|].
  split_and!; [done..|]. exists (gain_ch u k). unfold gain_ch in *. case_decide as Eu.
  - split_and!; [by apply owe_nonneg|done|]. rewrite decide_True by done. eapply cwp_mono_ch; [|by apply onClosed_ok].
    cbn. by intros _ _ k' _ ->.
  - split_and!; [done..|]. rewrite decide_False by (by intros [_ ?]). done.
Qed.
#[export] Hint Resolve updateState_neutral : chan.

Lemma ch_closeStateChange_neutral i : neutral_ch (ch_connectionCloseStateChange i).
Proof. unfold ch_connectionCloseStateChange. neut_ch. Qed.
#[export] Hint Resolve ch_closeStateChange_neutral : chan.

Lemma conn_events_neutral i l : neutral_ch (conn_events i l).
Proof. induction l as [|e l IH]; cbn [conn_events]; neut_ch. Qed.

Lemma ch_on_conn_neutral {A} i (p : cprog A) : neutral_c p → neutral_ch (ch_on_conn i p).
Proof. intros Hp. apply (neutral_within _ _ _ _ _ _ _ _ _ _ _ p (conn_part i)); [apply conn_events_neutral|done]. Qed.
#[export] Hint Resolve ch_on_conn_neutral : chan.

(** ** Methods of the channel *)

Lemma ch_read_bind {A B} (f : Channel → A) (k : A → chprog B) :
  (∀ ch, chan_inv ch → neutral_ch (k (f ch))) → neutral_ch (ch_read f ≫= k).
Proof. intros H s0 c Hc. apply cwp_bind, cwp_ch_read; [done|]. intros ch _ HI. by apply H. Qed.

Lemma addConnection_neutral i : neutral_ch (ch_addConnection i).
Proof.
  apply neutral_ch_do. intros ch HI. case_decide; [by split_and!|]. case_decide as Hst; cbn [snd]; [|by split_and!].
  apply set_conns_good; [done|right; by destruct Hst as [->| ->]|]. intros j Hj. left. set_solver.
Qed.
#[export] Hint Resolve addConnection_neutral : chan.

Lemma addConnectionToPeer_neutral hp i d : hp ≠ [] → neutral_ch (addConnectionToPeer hp i d).
Proof. intros H. unfold addConnectionToPeer. neut_ch. Qed.
#[export] Hint Resolve addConnectionToPeer_neutral : chan.

Lemma IsActive_neutral : neutral_c IsActive.
Proof. unfold IsActive, readState. neut. Qed.
Lemma hasPendingCalls_neutral : neutral_c hasPendingCalls.
Proof. unfold hasPendingCalls, canClose. neut. Qed.
#[export] Hint Resolve close_neutral IsActive_neutral hasPendingCalls_neutral ping_neutral beginCall_neutral goroutine_neutral : chan.

Lemma connectionActive_neutral i d : neutral_ch (ch_connectionActive i d).
Proof.
  unfold ch_connectionActive. apply neutral_bind_ch; [eauto with chan|]. intros []; cbn [negb]; [|neut_ch].
  apply ch_read_bind. intros ch HI. apply addConnectionToPeer_neutral, HI.
Qed.
#[export] Hint Resolve connectionActive_neutral : chan.

Lemma Connect_neutral hp ctx dial : hp ≠ [] → neutral_ch (Connect hp ctx dial).
Proof. intros Hhp. unfold Connect. neut_ch. Qed.
#[export] Hint Resolve Connect_neutral : chan.

Lemma close_all_neutral cs : neutral_ch (close_all cs).
Proof. induction cs as [|i cs IH]; cbn [close_all]; neut_ch. Qed.
#[export] Hint Resolve close_all_neutral : chan.

(** Stopping the idle sweep and the listener. *)
Lemma stop_all_good l sw ch :
  chan_inv ch → (is_started sw = true → is_stopCh sw = Some false) →
  chan_inv (ch_set_idle sw (ch_set_l l ch)) ∧ chan_adv ch (ch_set_idle sw (ch_set_l l ch)).
Proof. intros [C1 C2 C3 C4 C5 C6 C7] Hsw. split; split; try done. by left. Qed.

Lemma is_Stop_ok sw :
  (is_started sw = true → is_stopCh sw = Some false) →
  ∃ sw', is_Stop sw = Ret sw' ∧ is_started sw' = false.
Proof. intros H. unfold is_Stop. destruct (is_started sw) eqn:E; [rewrite H by done|]; by eexists. Qed.

Lemma ch_Close_neutral : neutral_ch ch_Close.
Proof.
  intros s0 k Hk. unfold ch_Close. apply cwp_bind, cwp_act. intros ch _ HI _. unfold startChannelClose. case_decide as Hc.
  { split_and!; [done|reflexivity|]. exists k. split_and!; [done|by apply acc_moved_same|]. done. }
  cbv zeta. destruct (is_Stop_ok (ch_idleSweep (ch_set_l ((λ _, true) <$> ch_l ch) ch))) as (sw & E & Hsw); [apply HI|]. rewrite E.
  destruct (stop_all_good ((λ _, true) <$> ch_l ch) sw ch HI) as [HI1 HG1]; [congruence|]. set (ch1 := ch_set_idle _ _) in *.
  destruct (set_ch_state_good ChannelStartClose ch1 k HI1) as (HI2 & HG2 & Hb2); [done|by left|done..|].
  change (gain_ch ChannelStartClose k) with k in Hb2. set (ch2 := ch_set_state _ ch1) in *.
  assert (HG12 : chan_adv ch ch2) by by etransitivity. case_decide as Hemp.
  - destruct (set_ch_state_good ChannelClosed ch2 k HI2) as (HI3 & HG3 & Hb3); [done|by left|..|].
    { intros _ i Hi. set_solver. } { done. }
    split_and!; [done|by etransitivity|]. exists (owe k). split_and!; [by apply owe_nonneg| |].
    + exact (acc_moved_trans _ _ _ _ _ _ Hb2 Hb3).
    + change (cwp_ch (ch_set_state ChannelClosed ch2) (owe k) onClosed (λ _ _ k', acc_same k' k)).
      eapply cwp_mono_ch; [|by apply onClosed_ok]. cbn. by intros _ _ k' _ ->.
  - split_and!; [done..|]. exists k. split_and!; [done|exact Hb2|]. cbn [fst snd].
    apply (neutral_bind_ch (close_all (elements (ch_conns ch2))) (λ _, mret tt)); [apply close_all_neutral|intros; apply neutral_ret|done].
Qed.

Lemma Serve_neutral addr : neutral_ch (Serve addr).
Proof.
  apply neutral_ch_do. intros ch HI. destruct (ch_l ch); [by split_and!|]. cbv zeta.
  destruct HI as [C1 C2 C3 C4 C5 C6 C7]. case_decide as Hc; cbn [snd].
  - split_and!.
    + split; try done. cbn. intros Hs. apply C4 in Hs. cbn in Hc. congruence.
    + split; try done; cbn in *; [|congruence|by left]. rewrite Hc. cbn. lia.
    + intros [x|]; [done|]. cbn in *. rewrite Hc. done.
  - split_and!; [by split|split; try done; by left|done].
Qed.
#[export] Hint Resolve Serve_neutral : chan.

Lemma ListenAndServe_neutral listen : neutral_ch (ListenAndServe listen).
Proof. unfold ListenAndServe. neut_ch. Qed.

Lemma close_idle_neutral cs : neutral_ch (close_idle cs).
Proof. induction cs as [|i cs IH]; cbn [close_idle]; neut_ch. Qed.
#[export] Hint Resolve close_idle_neutral : chan.

Lemma checkIdleConnections_neutral now : neutral_ch (checkIdleConnections now).
Proof. unfold checkIdleConnections. neut_ch. Qed.

Lemma set_info_good i x ch :
  chan_inv ch → remoteHostPort x = remoteHostPort (ch_info ch i) →
  chan_inv (ch_set_info i x ch) ∧ chan_adv ch (ch_set_info i x ch) ∧ acc_same (chan_bal (ch_set_info i x ch)) (chan_bal ch).
Proof.
  intros [C1 C2 C3 C4 C5 C6 C7] Hx.
  assert (Hi : ∀ j, remoteHostPort (ch_info (ch_set_info i x ch) j) = remoteHostPort (ch_info ch j)).
  { intros j. cbn. destruct (decide (j = i)) as [->|]; [by rewrite fn_lookup_insert|by rewrite fn_lookup_insert_ne]. }
  split_and!; [split; try done|split; try done; by left|done]. intros j. by rewrite Hi.
Qed.

Lemma updateLastActivity_neutral i f now :
  neutral_ch (updateLastActivityRead i f now) ∧ neutral_ch (updateLastActivityWrite i f now).
Proof.
  unfold updateLastActivityRead, updateLastActivityWrite. destruct (isMessageTypeCall f); [|split; apply neutral_ret].
  split; apply neutral_ch_do; intros ch HI; by apply set_info_good.
Qed.

Lemma set_subs_good m n ch :
  chan_inv ch → chan_inv (ch_set_subs m n ch) ∧ chan_adv ch (ch_set_subs m n ch) ∧ acc_same (chan_bal (ch_set_subs m n ch)) (chan_bal ch).
Proof. intros [C1 C2 C3 C4 C5 C6 C7]. split_and!; [by split|split; try done; by left|done]. Qed.

Lemma GetSubChannel_neutral name isolated : neutral_ch (GetSubChannel name isolated).
Proof.
  unfold GetSubChannel, sub_getOrAdd, sub_get, registerNewSubChannel, Isolated.
  assert (Hreg : neutral_ch (registerNewSubChannel name)).
  { apply neutral_ch_do. intros ch HI. destruct (ch_subChannels ch !! name); [by split_and!|by apply set_subs_good]. }
  apply neutral_bind_ch; [neut_ch; exact Hreg|]. intros [_ added]. case_decide; [|apply neutral_ret].
  apply neutral_bind_ch; [|intros l; eauto with chan]. apply neutral_ch_do. intros ch HI. by apply set_subs_good.
Qed.

(** Going on with a peer that has a name. *)
Definition named_ch (ch : Channel) (p : nat) : Prop := named (ch_peers ch) p.

Lemma named_ch_later ch ch' p : chan_adv ch ch' → named_ch ch p → named_ch ch' p.
Proof. intros HG. apply named_later. exact (po_guar _ _ _ _ _ _ _ _ _ peers_part ch ch' HG). Qed.

Lemma on_peers_named {A B} (p : pprog A) (f : A → chprog B) (P : A → nat → Prop) :
  yields p (λ a w, ∀ q, P a q → named w q) →
  (∀ a s0 k, acc_le acc0 k → (∀ q, P a q → named_ch s0 q) → cwp_ch s0 k (f a) (λ _ _ k', acc_same k' k)) →
  neutral_ch (on_peers p ≫= f).
Proof.
  intros Hp Hf s0 k Hk. assert (H0 : acc_le (acc0 : nat * bool → Z) acc0) by (by intros x).
  pose proof (cwp_within ch_peers ch_set_peers (λ _ _, tt) (λ _, mret tt) peers_inv lists_adv conns_bal chan_inv chan_adv chan_bal emb_p
    (ch_peers s0) s0 acc0 k p _ peers_part (λ _, neutral_ret _ _ _ tt) H0 Hk ltac:(reflexivity) (Hp _ _ H0)) as H.
  apply (cwp_credit chan_inv chan_adv chan_bal) with (emb_p acc0 k).
  { symmetry. apply (po_none _ _ _ _ _ _ _ _ _ peers_part). reflexivity. }
  { by apply (po_nonneg _ _ _ _ _ _ _ _ _ peers_part). }
  { intros a ch l l' Hll Hl. by rewrite <- Hll. }
  apply cwp_bind. eapply cwp_mono_ch; [|exact H]. intros a ch l _ (w & k' & HA & Hl & Hk' & HQ).
  assert (Hlk : acc_same l k) by (rewrite Hl; by apply (po_none _ _ _ _ _ _ _ _ _ peers_part)).
  eapply cwp_mono_ch; [|apply Hf; [intros x; rewrite Hlk; apply Hk|]].
  - cbn. intros _ _ l' _ Hl'. by rewrite Hl'.
  - intros q Hq. eapply named_later; [exact HA|by apply HQ].
Qed.

Lemma peer_GetConnection_ok p e s0 k :
  acc_le acc0 k → named_ch s0 p → cwp_ch s0 k (peer_GetConnection p e) (λ _ _ k', acc_same k' k).
Proof.
  intros Hk Hp. unfold peer_GetConnection. apply cwp_bind.
  eapply (cwp_neutral chan_inv chan_adv chan_bal); [eauto with chan|done|]. intros [c|] ch1 k1 HG1 Hk1; [done|].
  assert (Hk1' : acc_le acc0 k1) by acc_lia. apply cwp_bind.
  eapply (cwp_neutral chan_inv chan_adv chan_bal); [eauto with chan|done|]. intros [c|] ch2 k2 HG2 Hk2; [exact (transitivity Hk2 Hk1)|].
  assert (Hk2' : acc_le acc0 k2) by acc_lia. apply cwp_bind, cwp_ch_read; [done|]. intros ch3 HG3 HI3.
  eapply cwp_mono_ch; [|apply Connect_neutral; [|done]].
  - cbn. intros _ _ k3 _ Hk3. by rewrite Hk3, Hk2, Hk1.
  - assert (H3 : named_ch ch3 p) by (do 3 (eapply named_ch_later; [eassumption|]); done). apply H3.
Qed.

Lemma peer_BeginCall_ok p e ttl svc m rs s0 k :
  acc_le acc0 k → named_ch s0 p → cwp_ch s0 k (peer_BeginCall p e ttl svc m rs) (λ _ _ k', acc_same k' k).
Proof.
  intros Hk Hp. unfold peer_BeginCall. apply cwp_bind, cwp_ch_read; [done|]. intros ch1 HG1 _.
  destruct (validateCall ttl svc m); [done|]. apply cwp_bind.
  eapply cwp_mono_ch; [|apply peer_GetConnection_ok; [done|by eapply named_ch_later]]. intros r ch2 k2 _ Hk2.
  assert (Hk2' : acc_le acc0 k2) by acc_lia. destruct r as [c|err]; [|done]. apply cwp_bind.
  eapply (cwp_neutral chan_inv chan_adv chan_bal); [eauto with chan|done|]. intros r ch3 k3 _ Hk3. cbn. by rewrite Hk3.
Qed.

Lemma ch_BeginCall_neutral hp e ttl svc m rs : hp ≠ [] → neutral_ch (ch_BeginCall hp e ttl svc m rs).
Proof.
  intros Hhp. unfold ch_BeginCall. apply (on_peers_named _ _ (λ p q, p = q)).
  - intros w k Hk. eapply cwp_mono_p; [|by apply root_GetOrAdd_named]. cbn. intros p w' k' _ [? ?]. split; [done|]. by intros q <-.
  - intros p s0 k Hk Hp. apply peer_BeginCall_ok; [done|by apply Hp].
Qed.

Lemma sub_BeginCall_neutral name rnd e ttl m rs : neutral_ch (sub_BeginCall name rnd e ttl m rs).
Proof.
  unfold sub_BeginCall. apply ch_read_bind. intros ch _. apply (on_peers_named _ _ (λ r q, r = inl q)); [apply pl_Get_named|].
  intros [p|err] s0 k Hk Hp; [|done]. apply peer_BeginCall_ok; [done|by apply Hp].
Qed.

Lemma ch_Ping_neutral hp e ctx ctx' pk : hp ≠ [] → neutral_ch (ch_Ping hp e ctx ctx' pk).
Proof.
  intros Hhp. unfold ch_Ping. apply (on_peers_named _ _ (λ p q, p = q)).
  - intros w k Hk. eapply cwp_mono_p; [|by apply root_GetOrAdd_named]. cbn. intros p w' k' _ [? ?]. split; [done|]. by intros q <-.
  - intros p s0 k Hk Hp. apply cwp_bind. eapply cwp_mono_ch; [|apply peer_GetConnection_ok; [done|by apply Hp]].
    intros r ch2 k2 _ Hk2. assert (Hk2' : acc_le acc0 k2) by acc_lia. destruct r as [c|err]; [|done].
    eapply (cwp_neutral chan_inv chan_adv chan_bal); [eauto with chan|done|]. intros r ch3 k3 _ Hk3. by rewrite Hk3.
Qed.

(** ** The reader of a connection *)

Lemma stuck_neutral {A} : neutral_ch (atomic_go (λ _, OutOfFuel) : chprog A).
Proof. intros s0 c Hc. by intros s. Qed.
#[export] Hint Resolve stuck_neutral handleErr_neutral : chan.

Lemma readFrames_neutral i env r :
  Forall (λ e, frame_ok (re_frame e)) env → neutral_ch (readFrames i None env r).
Proof.
  revert r. induction env as [|e env IH]; intros r Henv; [apply stuck_neutral|].
  apply Forall_cons in Henv as [He Henv]. rewrite readFrames_round. unfold handleErr, handleFrame.
  destruct (ReadIn_total r (re_frame e) He) as ([err|] & g & s & -> & Hg & _ & Hok); [neut_ch|].
  destruct (Hok eq_refl) as (_ & _ & Hp). assert (Hw : wire_frame g) by (apply frame_ok_wire; [done|by eexists]).
  apply neutral_bind_ch; [apply updateLastActivity_neutral|intros _].
  apply neutral_bind_ch; [by apply ch_on_conn_neutral, handleFrameNoRelay_neutral|intros b].
  apply neutral_bind_ch; [by apply IH|intros fs]. apply neutral_ret.
Qed.

(** ** Runs *)

Definition ignore {S A} (p : prog S A) : prog S unit := _ ← p; mret tt.

(** The goroutines of a channel: those of its connections, with the channel's handlers
    for their events, and their readers on any input; new connections; the methods of
    channel and subchannels; the idle sweep; and users of the peer lists.  The host:ports
    that callers pass are not blank, for which newPeer panics by design, and the readers
    are those of connections without a relay. *)
Inductive chan_goroutine : chprog unit → Prop :=
| gc_conn i p : conn_goroutine p → chan_goroutine (ch_on_conn i p)
| gc_active i d : chan_goroutine (ch_connectionActive i d)
| gc_connect hp ctx dial : hp ≠ [] → chan_goroutine (ignore (Connect hp ctx dial))
| gc_close : chan_goroutine ch_Close
| gc_serve addr : chan_goroutine (ignore (Serve addr))
| gc_listen l : chan_goroutine (ignore (ListenAndServe l))
| gc_idle now : chan_goroutine (checkIdleConnections now)
| gc_reader i env r : Forall (λ e, frame_ok (re_frame e)) env → chan_goroutine (ignore (readFrames i None env r))
| gc_write i f now : chan_goroutine (updateLastActivityWrite i f now)
| gc_sub name isolated : chan_goroutine (GetSubChannel name isolated)
| gc_call hp e ttl svc m rs : hp ≠ [] → chan_goroutine (ignore (ch_BeginCall hp e ttl svc m rs))
| gc_subcall name rnd e ttl m rs : chan_goroutine (ignore (sub_BeginCall name rnd e ttl m rs))
| gc_ping hp e ctx ctx' pk : hp ≠ [] → chan_goroutine (ignore (ch_Ping hp e ctx ctx' pk))
| gc_Add l hp rnd rnd' : hp ≠ [] → chan_goroutine (ignore (on_peers (pl_Add l hp rnd rnd')))
| gc_Remove l hp : chan_goroutine (ignore (on_peers (pl_Remove l hp)))
| gc_Get l prev rnd : chan_goroutine (ignore (on_peers (pl_Get l prev rnd)))
| gc_SetStrategy l sc order : chan_goroutine (on_peers (SetStrategy l sc order)).

Lemma ignore_neutral {A} (p : chprog A) : neutral_ch p → neutral_ch (ignore p).
Proof. intros Hp. unfold ignore. neut_ch; done. Qed.

Lemma chan_goroutine_neutral p : chan_goroutine p → neutral_ch p.
Proof.
  destruct 1; try apply ignore_neutral; eauto using ch_Close_neutral, ListenAndServe_neutral, checkIdleConnections_neutral,
    GetSubChannel_neutral, ch_BeginCall_neutral, sub_BeginCall_neutral, ch_Ping_neutral with chan.
  - by apply readFrames_neutral.
  - apply updateLastActivity_neutral.
  - by apply on_peers_neutral, pl_Add_neutral.
  - apply on_peers_neutral, pl_Remove_neutral.
  - eapply on_peers_neutral, yields_neutral, pl_Get_named.
Qed.

Abbreviation chan_steps := (rtc (sched_step chan_goroutine)).

(** The connections and addresses a channel starts from. *)
Definition fresh_conns (conns : nat → Connection) (info : nat → connInfo) : Prop :=
  (∀ i, ∃ id cap relay health, conns i = newConnection id cap relay health) ∧ ∀ i, remoteHostPort (info i) ≠ [].

Lemma empty_lists_ok conns : lists_ok (mkPeers ∅ (λ _, mkPeer [] 0 [] [] 0) 0 (λ _, newPeerList) conns).
Proof.
  split; try done.
  - intros l. apply (ok_heap _ _ (no_peers_ok 0 conns) l).
  - by intros l r ?%elem_of_nil.
Qed.

Lemma NewChannel_inv svc mi ii conns info ch :
  NewChannel svc mi ii conns info = inl ch → fresh_conns conns info → chan_inv ch ∧ acc_same (chan_bal ch) acc0.
Proof.
  intros Hnew [Hc Hi]. unfold NewChannel in Hnew. case_decide; [done|].
  destruct (validateIdleCheck mi ii); [done|]. injection Hnew as <-.
  assert (Hinv : ∀ i, conn_inv (conns i) ∧ acc_same (conn_bal (conns i)) acc0).
  { intros i. destruct (Hc i) as (id & cap & relay & health & ->). apply new_inv. }
  split.
  - split; try done.
    + intros i. apply Hinv.
    + apply empty_lists_ok.
    + cbn. unfold startIdleSweep, is_start. cbn. by case_decide.
  - intros [[i b]|]; [|done]. etransitivity; [exact (proj2 (Hinv i) b)|apply amount_acc0].
Qed.

(** C9: The life of a channel without a relay whose users pass no blank host:port (for
    which newPeer panics).  However its goroutines interleave, and whatever bytes the
    readers of its connections find, no code of the channel, its peer lists and its
    connections panics; in particular the channel that
    ClosedChan returns is closed at most once.  It is closed only if the state is
    Closed, and when no goroutine is in the middle of anything it is closed if the
    state is.  Every connection the channel has ever kept track of is closed by the
    time the channel is, and once Close has been called no connection is added. *)
Theorem channel_lifecycle svc mi ii conns info ch0 ch1 ts1 ch2 ts2 :
  NewChannel svc mi ii conns info = inl ch0 → fresh_conns conns info →
  chan_steps (ch0, []) (ch1, ts1) → chan_steps (ch1, ts1) (ch2, ts2) →
  ¬ panics (ch2, ts2)
  ∧ (ch_closedCh ch2 = true → ch_state ch2 = ChannelClosed)
  ∧ (Forall finished ts2 → ch_state ch2 = ChannelClosed → ch_closedCh ch2 = true)
  ∧ (ch_state ch2 = ChannelClosed → ∀ i, i ∈ ch_conns ch1 → c_state (conn ch2 i) = connectionClosed)
  ∧ (3 <= ChannelState_int (ch_state ch1) → 3 <= ChannelState_int (ch_state ch2) ∧ ch_conns ch2 ⊆ ch_conns ch1).
Proof.
  intros Hnew Hfresh H1 H2. destruct (NewChannel_inv _ _ _ _ _ _ Hnew Hfresh) as [HI Hb].
  assert (H12 : chan_steps (ch0, []) (ch2, ts2)) by by etransitivity.
  destruct (sched_safe chan_inv chan_adv chan_bal _ _ _ chan_goroutine_neutral HI Hb H12) as (HI2 & _ & Hp & Hq).
  pose proof (sched_guar chan_inv chan_adv chan_bal _ _ _ _ chan_goroutine_neutral HI Hb H1 H2) as HG. cbn [fst snd] in *.
  split_and!; [done|apply HI2| | |apply HG].
  - intros Hfin Hc. specialize (Hq Hfin None). cbn in Hq. rewrite Hc, decide_True in Hq by done. by destruct (ch_closedCh ch2).
  - intros Hc i Hi. destruct (ca_kept _ _ HG i Hi) as [Hi'|?]; [by apply (ci_closed _ HI2)|done].
Qed.
