(* ===== verification/ChannelRun.v ===== *)
(** * A channel that does not close

    The race between two goroutines that tell a closing channel of the states of its
    connections. *)

From stdpp Require Import functions.
From S2P Require Import Prelude Conc Errors Retry Buffer Checksum Frame Messages Fragment Mex ReqRes Health Connection ConnectionSafe PeerHeap Peer PeerCorrect PeerShared PeerSafe Channel ChannelSafe.

(** ** Schedules *)

Section schedules.
Context {S : Type} (spawned : prog S unit → Prop).

Lemma nsteps_schedule n (p p' : prog S unit) s s' ts ts' :
  nsteps n p s = Some (p', s') → rtc (sched_step spawned) (s, ts ++ p :: ts') (s', ts ++ p' :: ts').
Proof.
  revert p s. induction n as [|n IH]; intros p s; cbn; [by intros [= <- <-]|].
  destruct p as [a|R m k]; [done|]. destruct (m s) as [[r s1]| |] eqn:E; [|done..]. intros Hn.
  eapply rtc_l; [|by apply IH]. replace (ts ++ k r :: ts') with (<[length ts := k r]> (ts ++ act m k :: ts')).
  - by eapply sched_act; [apply list_lookup_middle|].
  - by rewrite insert_app_r_alt, Nat.sub_diag by done.
Qed.

Lemma run_nsteps (p : prog S unit) s a s' : run p s = Ret (a, s') → ∃ n, nsteps n p s = Some (done_ a, s').
Proof.
  revert s. induction p as [b|R m k IH]; intros s; cbn; [intros [= <- <-]; by exists 0%nat|].
  destruct (m s) as [[r s1]| |] eqn:E; [|done..]. intros Hr. destruct (IH r s1 Hr) as [n Hn]. exists (Datatypes.S n). cbn. by rewrite E.
Qed.

(** Two goroutines that take turns: [n] actions of [p], [m] of [q], the rest of [p]
    and the rest of [q]. *)
Definition turns (n m : nat) (p q : prog S unit) (s : S) : option S :=
  match nsteps n p s with
  | Some (p', s1) =>
      match nsteps m q s1 with
      | Some (q', s2) =>
          match run p' s2 with
          | Ret (_, s3) => match run q' s3 with Ret (_, s4) => Some s4 | _ => None end
          | _ => None
          end
      | None => None
      end
  | None => None
  end.

Lemma turns_schedule n m p q s s' ts :
  spawned p → spawned q → turns n m p q s = Some s' →
  rtc (sched_step spawned) (s, ts) (s', ts ++ [done_ tt; done_ tt]).
Proof.
  intros Hp Hq. unfold turns. destruct (nsteps n p s) as [[p' s1]|] eqn:E1; [|done].
  destruct (nsteps m q s1) as [[q' s2]|] eqn:E2; [|done]. destruct (run p' s2) as [[[] s3]| |] eqn:E3; [|done..].
  destruct (run q' s3) as [[[] s4]| |] eqn:E4; [|done..]. intros [= <-].
  apply run_nsteps in E3 as [n3 E3]. apply run_nsteps in E4 as [n4 E4].
  assert (Hq' : ∀ p q : prog S unit, ts ++ [p; q] = (ts ++ [p]) ++ q :: []) by (intros; by rewrite <- app_assoc).
  eapply rtc_l; [by apply (sched_spawn _ _ _ p)|]. eapply rtc_l; [by apply (sched_spawn _ _ _ q)|]. rewrite <- app_assoc. cbn [app].
  etransitivity; [by apply (nsteps_schedule n p p')|]. rewrite (Hq' p' q).
  etransitivity; [by apply (nsteps_schedule m q q')|]. rewrite <- Hq'.
  etransitivity; [by apply (nsteps_schedule n3 p' (done_ tt))|]. rewrite !Hq'.
  by apply (nsteps_schedule n4 q' (done_ tt)).
Qed.
End schedules.

(** ** Example *)

Definition ex_conns : nat → Connection := λ _, newConnection 0 8 false false.
Definition ex_info : nat → connInfo := λ _, mkConnInfo host1 [] 0 0.
Definition ex_new : Channel :=
  match NewChannel (str "svc") 0 0 ex_conns ex_info with inl ch => ch | inr _ => mkChannel ChannelClosed None [] true ∅ true (startIdleSweep 0 0) ∅ 0 start ex_info end.

Lemma ex_fresh : fresh_conns ex_conns ex_info.
Proof. split; [intros i; by eexists _, _, _, _|done]. Qed.

Definition then_ (p : chprog unit) (ch : Channel) : Channel := match run p ch with Ret (_, ch) => ch | _ => ch end.

(** A channel with one connection and one call on it. *)
Definition calling : Channel :=
  then_ (ch_on_conn 0 (forget (beginCall (Some (1000 * millisecond)) None))) (then_ (ch_connectionActive 0 inbound) ex_new).

Definition call_ends : chprog unit := ch_on_conn 0 (onMex outbound (λ s, (tt, mex_shutdown 0 s))).

Definition stuck : Channel := default ex_new (turns 36 17 ch_Close call_ends calling).

Lemma stuck_is : turns 36 17 ch_Close call_ends calling = Some stuck.
Proof. unfold stuck. destruct (turns 36 17 ch_Close call_ends calling) eqn:E; [done|]. exfalso. revert E. vm_compute. done. Qed.

(** Running a goroutine from start to end. *)
Lemma then_schedule p ch ts :
  chan_goroutine p → (match run p ch with Ret _ => True | _ => False end) →
  chan_steps (ch, ts) (then_ p ch, ts ++ [done_ tt]).
Proof.
  intros Hp H. unfold then_. destruct (run p ch) as [[[] ch']| |] eqn:E; [|done..]. by apply (run_schedule chan_goroutine p).
Qed.

Lemma call_steps : chan_steps (ex_new, []) (calling, [done_ tt; done_ tt]).
Proof.
  unfold calling. etransitivity; [apply (then_schedule (ch_connectionActive 0 inbound)); [constructor|vm_compute; exact I]|].
  apply (then_schedule (ch_on_conn 0 (forget (beginCall (Some (1000 * millisecond)) None))) _ [done_ tt]);
    [apply gc_conn, g_call|vm_compute; exact I].
Qed.

(** C40: A channel may never close.  connectionCloseStateChange computes the state to move
    to from what it has read, and gives up if the state of the channel has changed
    meanwhile, although the connections may call for another change then.  Here Close
    has found the only connection InboundClosed; before it updates the channel, the
    last call on the connection ends and the connection is closed.  The goroutine that
    reports it has read the old state and does not move the channel to Closed.  All
    goroutines have ended, no connection is left to report anything, and the channel
    stays InboundClosed. *)
Theorem channel_stays_open :
  chan_steps (ex_new, []) (stuck, [done_ tt; done_ tt; done_ tt; done_ tt])
  ∧ ch_state stuck = ChannelInboundClosed ∧ ch_conns stuck = ∅ ∧ c_state (conn stuck 0) = connectionClosed
  ∧ ch_closedCh stuck = false.
Proof.
  split_and!; [|vm_compute; reflexivity..]. etransitivity; [apply call_steps|].
  apply (turns_schedule chan_goroutine 36 17 ch_Close call_ends calling stuck [done_ tt; done_ tt]).
  - constructor.
  - apply gc_conn, g_done.
  - exact stuck_is.
Qed.

(** Without the race the channel closes. *)
Definition closed_ch : Channel := then_ call_ends (then_ ch_Close calling).

Lemma closing_steps : chan_steps (calling, [done_ tt; done_ tt]) (closed_ch, [done_ tt; done_ tt; done_ tt; done_ tt]).
Proof.
  etransitivity; [apply (then_schedule ch_Close); [constructor|vm_compute; exact I]|].
  apply (then_schedule call_ends _ [done_ tt; done_ tt; done_ tt]); [apply gc_conn, g_done|vm_compute; exact I].
Qed.

Lemma channel_lifecycle_witness :
  ch_state closed_ch = ChannelClosed ∧ 0%nat ∈ ch_conns calling ∧ c_state (conn closed_ch 0) = connectionClosed
  ∧ ch_closedCh closed_ch = true.
Proof.
  assert (Hst : ch_state closed_ch = ChannelClosed) by (vm_compute; reflexivity).
  assert (Hin : 0%nat ∈ ch_conns calling) by (apply elem_of_elements; vm_compute; left).
  destruct (channel_lifecycle (str "svc") 0 0 ex_conns ex_info ex_new calling _ closed_ch _ eq_refl ex_fresh call_steps closing_steps)
    as (_ & _ & Hq & Hc & _).
  split; [exact Hst|]. split; [exact Hin|]. split; [exact (Hc Hst 0%nat Hin)|]. apply Hq; [|exact Hst].
  repeat (apply Forall_cons; split; [by eexists|]). apply Forall_nil_2.
Defined.
