(* ===== verification/Preinit.v ===== *)
(** * The handshake (preinit_connection.go)

    Before a connection is used its two ends exchange an initReq and an initRes.  A
    network connection is the stream it reads, what has been written to it, and
    whether it has been closed; [nc_werr] is what its Write returns.

    Deadlines only show in the errors of the network, [isTimeout] tells the errors that
    are timeouts.  The components of the remote address, which only tracing uses, are
    left out. *)

From stdpp Require Import pretty.
From S2P Require Import Prelude Errors Buffer Checksum Frame Messages.

(** ** State *)

Record NetConn := mkNetConn {
  nc_in : Stream;
  nc_out : bytes;
  nc_werr : option error;
  nc_closed : bool;
  nc_remoteAddr : bytes
}.

Definition nc_set_in (s : Stream) (c : NetConn) : NetConn :=
  mkNetConn s (nc_out c) (nc_werr c) (nc_closed c) (nc_remoteAddr c).
Definition nc_sent (bs : bytes) (c : NetConn) : NetConn :=
  mkNetConn (nc_in c) (nc_out c ++ bs) (nc_werr c) (nc_closed c) (nc_remoteAddr c).
Definition nc_Close (c : NetConn) : NetConn :=
  mkNetConn (nc_in c) (nc_out c) (nc_werr c) true (nc_remoteAddr c).

Record PeerVersion := mkPeerVersion {
  Language : bytes;
  LanguageVersion : bytes;
  TChannelVersion : bytes
}.

Record PeerInfo := mkPeerInfo {
  HostPort : bytes;
  ProcessName : bytes;
  IsEphemeral : bool;
  pi_Version : PeerVersion
}.

Definition CurrentProtocolVersion : Z := 2.
Definition ephemeral : bytes := str "0.0.0.0:0".

Abbreviation netop := (GO NetConn).

(** ** Messages *)

Definition messageType_String (t : byte) : bytes :=
  if decide (t = messageTypeInitReq) then str "messageTypeInitReq"
  else if decide (t = messageTypeInitRes) then str "messageTypeInitRes"
  else if decide (t = messageTypeCallReq) then str "messageTypeCallReq"
  else if decide (t = messageTypeCallRes) then str "messageTypeCallRes"
  else if decide (t = messageTypeCallReqContinue) then str "messageTypeCallReqContinue"
  else if decide (t = messageTypeCallResContinue) then str "messageTypeCallResContinue"
  else if decide (t = messageTypePingReq) then str "messageTypePingReq"
  else if decide (t = messageTypePingRes) then str "messageTypePingRes"
  else if decide (t = messageTypeError) then str "messageTypeError"
  else str "messageType(" ++ str (pretty (Z_of_byte t)) ++ str ")".

(** [frame] is the frame the pool gives.  Write fails with the connection's error or
    sends the bytes that it is given. *)
Definition writeMessage {M} `{Message M} (frame : Frame) (msg : M) : netop (option error) := λ c,
  match Frame_write msg frame with
  | (Some e, _) => Ret (Some e, c)
  | (None, f) =>
      match WriteOut_to (λ e, (Some e, c)) (λ bs, match nc_werr c with Some e => (Some e, c) | None => (None, nc_sent bs c) end) f with
      | Ret (r, _) => Ret r
      | Panic => Panic
      | OutOfFuel => OutOfFuel
      end
  end.

Definition readError (frame : Frame) : go error :=
  '(errMsg, err) ← Frame_read (mkErrorMessage (ID (Header frame)) x00 emptySpan []) frame;
  Ret (match err with Some e => e | None => AsSystemError errMsg end).

Definition errMessageType (want got : byte) : error :=
  NewSystemError ErrCodeProtocol
    (str "expected message type " ++ messageType_String want ++ str ", got " ++ messageType_String got).

(** The message id, and the message or an error. *)
Definition readMessage {M} `{Message M} (frame : Frame) (msg : M) : netop (Z * (M + error)) := λ c,
  match ReadIn (nc_in c) frame with
  | Ret (Some e, _, s) => Ret ((0, inr e), nc_set_in s c)
  | Ret (None, f, s) =>
      let c := nc_set_in s c in
      let t := MessageType (Header f) in
      if decide (t = msg_type msg) then
        match Frame_read msg f with
        | Ret (m, err) => Ret ((ID (Header f), match err with Some e => inr e | None => inl m end), c)
        | Panic => Panic
        | OutOfFuel => OutOfFuel
        end
      else if decide (t = messageTypeError) then
        match readError f with
        | Ret e => Ret ((ID (Header f), inr e), c)
        | Panic => Panic
        | OutOfFuel => OutOfFuel
        end
      else Ret ((ID (Header f), inr (errMessageType (msg_type msg) t)), c)
  | Panic => Panic
  | OutOfFuel => OutOfFuel
  end.

(** ** Peers *)

Definition isEphemeralHostPort (hostPort : bytes) : bool :=
  bool_decide (hostPort = [] ∨ hostPort = ephemeral ∨ drop (length hostPort - 2) hostPort = str ":0").

Definition errHeaderRequired (h : bytes) : error := otherError (str "header " ++ h ++ str " is required").

Definition parseRemotePeer (p : gmap bytes bytes) (remoteAddr : bytes) : PeerInfo + error :=
  match p !! InitParamHostPort with
  | None => inr (errHeaderRequired InitParamHostPort)
  | Some hostPort =>
      match p !! InitParamProcessName with
      | None => inr (errHeaderRequired InitParamProcessName)
      | Some processName =>
          let eph := isEphemeralHostPort hostPort in
          inl (mkPeerInfo (if eph then remoteAddr else hostPort) processName eph
                 (mkPeerVersion (default [] (p !! InitParamTChannelLanguage))
                    (default [] (p !! InitParamTChannelLanguageVersion))
                    (default [] (p !! InitParamTChannelVersion))))
      end
  end.

Definition getInitParams (localPeer : PeerInfo) : gmap bytes bytes :=
  {[ InitParamHostPort := HostPort localPeer;
     InitParamProcessName := ProcessName localPeer;
     InitParamTChannelLanguage := Language (pi_Version localPeer);
     InitParamTChannelLanguageVersion := LanguageVersion (pi_Version localPeer);
     InitParamTChannelVersion := TChannelVersion (pi_Version localPeer) ]}.

(** [hide] is the option HideListeningOnOutbound of the context. *)
Definition getInitMessage (localPeer : PeerInfo) (hide : bool) (id : Z) : initMessage :=
  let p := getInitParams localPeer in
  mkInitMessage id CurrentProtocolVersion (if hide then <[InitParamHostPort := ephemeral]> p else p).

Definition unsupportedProtocolVersion (got : Z) : error :=
  NewSystemError ErrCodeProtocol
    (str "unsupported protocol version " ++ str (pretty got) ++ str " from peer, expected " ++ str (pretty CurrentProtocolVersion)).

Definition errInitResID (want got : Z) : error :=
  NewSystemError ErrCodeProtocol
    (str "received initRes with invalid ID, wanted " ++ str (pretty want) ++ str ", got " ++ str (pretty got)).

(** ** Handshakes *)

Section handshake.
Context `{MapRange} (isTimeout : error → bool) (frame : Frame).

(** A failed handshake tells the peer and closes the connection. *)
Definition initError (id : Z) (err : error) : netop error :=
  let err := if isTimeout err then (ErrTimeout : error) else err in
  let err := if decide (err = Sentinel io_EOF) then NewWrappedSystemError ErrCodeNetwork (Sentinel io_EOF) else err in
  _ ← writeMessage frame (mkErrorMessage id (GetSystemErrorCode (Some err)) emptySpan (Error err));
  _ ← gmodify nc_Close;
  mret err.

Definition emptyInit : initMessage := mkInitMessage 0 0 ∅.

Definition outboundInit (localPeer : PeerInfo) (hide : bool) : netop (PeerInfo + error) :=
  let msg := getInitMessage localPeer hide 1 in
  err ← writeMessage frame (mkInitReq msg);
  match err with
  | Some e => mret (inr e)
  | None =>
      '(id, r) ← readMessage frame (mkInitRes emptyInit);
      match r with
      | inr e => mret (inr e)
      | inl res =>
          if decide (id ≠ im_id msg) then mret (inr (errInitResID (im_id msg) id))
          else if decide (Version (initRes_msg res) ≠ CurrentProtocolVersion)
          then mret (inr (unsupportedProtocolVersion (Version (initRes_msg res))))
          else
            c ← gget;
            mret (match parseRemotePeer (initParams (initRes_msg res)) (nc_remoteAddr c) with
                  | inr e => inr (NewWrappedSystemError ErrCodeProtocol e)
                  | inl p => inl p
                  end)
      end
  end.

Definition outboundHandshake (localPeer : PeerInfo) (hide : bool) : netop (PeerInfo + error) :=
  r ← outboundInit localPeer hide;
  match r with
  | inl p => mret (inl p)
  | inr e => e ← initError 1 e; mret (inr e)
  end.

(** The id of the request, and the remote peer or an error. *)
Definition inboundInit (localPeer : PeerInfo) : netop (Z * (PeerInfo + error)) :=
  '(id, r) ← readMessage frame (mkInitReq emptyInit);
  match r with
  | inr e => mret (id, inr e)
  | inl req =>
      if decide (Version (initReq_msg req) < CurrentProtocolVersion)
      then mret (id, inr (unsupportedProtocolVersion (Version (initReq_msg req))))
      else
        c ← gget;
        match parseRemotePeer (initParams (initReq_msg req)) (nc_remoteAddr c) with
        | inr e => mret (id, inr (NewWrappedSystemError ErrCodeProtocol e))
        | inl p =>
            err ← writeMessage frame (mkInitRes (getInitMessage localPeer false id));
            mret (id, match err with Some e => inr e | None => inl p end)
        end
  end.

Definition inboundHandshake (localPeer : PeerInfo) : netop (PeerInfo + error) :=
  '(id, r) ← inboundInit localPeer;
  match r with
  | inl p => mret (inl p)
  | inr e => e ← initError id e; mret (inr e)
  end.
End handshake.

(** ** What the ends tell each other *)

(** The parameters a peer sends. *)
Definition init_pairs (hp : bytes) (p : PeerInfo) : list (bytes * bytes) :=
  [(InitParamHostPort, hp); (InitParamProcessName, ProcessName p);
   (InitParamTChannelLanguage, Language (pi_Version p)); (InitParamTChannelLanguageVersion, LanguageVersion (pi_Version p));
   (InitParamTChannelVersion, TChannelVersion (pi_Version p))].

(** The host:port a peer announces. *)
Definition announced (p : PeerInfo) (hide : bool) : bytes := if hide then ephemeral else HostPort p.

Lemma init_keys hp p : NoDup (init_pairs hp p).*1.
Proof. change (NoDup [InitParamHostPort; InitParamProcessName; InitParamTChannelLanguage; InitParamTChannelLanguageVersion; InitParamTChannelVersion]).
  apply (bool_decide_unpack _). vm_compute. exact I. Qed.

Lemma init_params p hide id : initParams (getInitMessage p hide id) = list_to_map (init_pairs (announced p hide) p).
Proof. destruct hide; cbn [getInitMessage initParams announced]; [|done]. unfold getInitParams. by rewrite insert_insert_eq. Qed.

Lemma init_lookup hp p k v : (k, v) ∈ init_pairs hp p → (list_to_map (init_pairs hp p) : gmap bytes bytes) !! k = Some v.
Proof. apply elem_of_list_to_map_1, init_keys. Qed.

(** How a peer appears at the other end of a connection from [addr]. *)
Definition appears (p : PeerInfo) (hide : bool) (addr : bytes) : PeerInfo :=
  let eph := isEphemeralHostPort (announced p hide) in
  mkPeerInfo (if eph then addr else announced p hide) (ProcessName p) eph (pi_Version p).

Lemma parse_init p hide id addr : parseRemotePeer (initParams (getInitMessage p hide id)) addr = inl (appears p hide addr).
Proof.
  rewrite init_params. unfold parseRemotePeer.
  rewrite !(init_lookup (announced p hide) p _ _) by (unfold init_pairs; repeat (apply elem_of_cons; (left; reflexivity) || right)).
  unfold appears. cbn. by destruct (pi_Version p).
Qed.

(** A peer whose parameters fit into a frame. *)
Definition peer_fits (p : PeerInfo) : Prop :=
  len (HostPort p) + len (ProcessName p) + len (Language (pi_Version p)) + len (LanguageVersion (pi_Version p))
    + len (TChannelVersion (pi_Version p)) <= 65000.

Lemma length_pairs_perm e l l' : l ≡ₚ l' → length (pairs_enc e l) = length (pairs_enc e l').
Proof.
  unfold pairs_enc. induction 1 as [|x l l' _ IH|x y l|l l' l'' _ IH1 _ IH2]; cbn; rewrite ?length_app; lia.
Qed.

Section facts.
Context `{MapRange}.

Lemma init_message_fits p hide id :
  peer_fits p →
  initMessage_ok (getInitMessage p hide id) ∧ len (initMessage_enc (getInitMessage p hide id)) <= MaxFramePayloadSize.
Proof.
  intros Hp. assert (Ha : len (announced p hide) <= len (HostPort p) + 9) by (destruct hide; cbn; lia).
  unfold peer_fits in Hp. set (hp := announced p hide) in *.
  assert (Hm : initParams (getInitMessage p hide id) = list_to_map (init_pairs hp p)) by apply init_params.
  assert (Hl : map_to_list (initParams (getInitMessage p hide id)) ≡ₚ init_pairs hp p).
  { rewrite Hm. apply map_to_list_to_map, init_keys. }
  assert (Hsize : size (initParams (getInitMessage p hide id)) = 5%nat).
  { rewrite <- length_map_to_list. by rewrite Hl. }
  split.
  - split; [cbn [getInitMessage Version]; unfold CurrentProtocolVersion; lia|]. split; [rewrite Hsize; lia|]. apply map_Forall_to_list. rewrite Hl.
    repeat (apply Forall_cons; split; [cbn; lia|]). apply Forall_nil_2.
  - unfold initMessage_enc, params_enc. rewrite !length_app, !length_be_enc.
    rewrite (length_pairs_perm _ _ (init_pairs hp p)) by (by rewrite range_perm).
    unfold pairs_enc, pair16_enc. cbn [init_pairs fmap list_fmap concat fst snd]. rewrite !length_app, !length_be_enc.
    pose proof (eq_refl : length InitParamHostPort = 9%nat). pose proof (eq_refl : length InitParamProcessName = 12%nat).
    pose proof (eq_refl : length InitParamTChannelLanguage = 17%nat). pose proof (eq_refl : length InitParamTChannelLanguageVersion = 25%nat).
    pose proof (eq_refl : length InitParamTChannelVersion = 16%nat).
    unfold MaxFramePayloadSize, MaxFrameSize, FrameHeaderSize. cbn [length]. lia.
Qed.

(** A message written at one end is what the other end reads. *)
Lemma message_delivered {M} `{WireMessage M} (m : M) frame :
  frame_ok frame → msg_ok m → 0 <= msg_ID m < 2^32 → len (msg_enc m) <= MaxFramePayloadSize →
  ∃ wire, (∀ c, nc_werr c = None → writeMessage frame m c = Ret (None, nc_sent wire c))
  ∧ ∀ frame' m0 c rest e, frame_ok frame' → msg_type m0 = msg_type m → nc_in c = mkStream (wire ++ rest) e →
      readMessage frame' m0 c = Ret ((msg_ID m, inl (msg_norm m0 m)), nc_set_in (mkStream rest e) c).
Proof.
  intros Hf Hm Hid Hl. destruct (message_over_wire m frame Hf Hm Hid Hl) as (f1 & wire & f2 & HW & HO & _ & HR).
  exists wire. split.
  - intros c Hc. unfold writeMessage. by rewrite HW, HO, Hc.
  - intros frame' m0 c rest e Hf' Ht Hin. destruct (HR frame' m0 rest e Hf') as (g & EI & Hg & Hgid & Hgt & ER).
    unfold readMessage. rewrite Hin, EI. rewrite Hgt, decide_True by done. by rewrite ER, Hgid.
Qed.

Lemma writeMessage_fits {M} `{WireMessage M} (m : M) frame :
  frame_ok frame → msg_ok m → len (msg_enc m) <= MaxFramePayloadSize →
  ∃ wire, ∀ c, writeMessage frame m c = Ret (match nc_werr c with Some e => (Some e, c) | None => (None, nc_sent wire c) end).
Proof.
  intros Hf Hm Hl. destruct (Frame_write_spec frame Hf m Hm Hl) as (tl & HW & Hlen). destruct Hf as [Hb Hr].
  set (fh := mkFrameHeader _ _ _ _ _) in HW. unfold writeMessage. rewrite HW.
  assert (HO : ∀ R (fail : error → R) send, WriteOut_to fail send (mkFrame (take 16 (buffer frame) ++ msg_enc m ++ tl) fh)
    = Ret (send (hdr_enc fh ++ msg_enc m), mkFrame (hdr_enc fh ++ msg_enc m ++ tl) fh)).
  { intros R fail send. refine (WriteOut_spec (mkFrame (take 16 (buffer frame) ++ msg_enc m ++ tl) fh) fail send
      (take 16 (buffer frame)) (msg_enc m) tl fh _ _ _ _); simpl; try done.
    rewrite length_take. unfold MaxFrameSize in *. lia. }
  eexists. intros c. rewrite HO. reflexivity.
Qed.

(** An error message that does not fit is not written. *)
Lemma Frame_write_too_long {M} `{WireMessage M} (m : M) frame :
  frame_ok frame → msg_ok m → MaxFramePayloadSize < len (msg_enc m) → ∃ e f, Frame_write m frame = (Some e, f).
Proof.
  intros Hf Hm Hl. pose proof (length_Payload frame Hf) as Hp. destruct (msg_write_ok m Hm) as (body & (_ & _ & F) & Hw).
  unfold Frame_write. rewrite Hw by done. unfold mbind, st_bind.
  destruct (F (NewWriteBuffer (Payload frame))) as (w' & E & Herr & _); [apply NewWriteBuffer_ok|done|rewrite w_BytesRemaining_eq; simpl; lia|].
  rewrite E. unfold w_Err. rewrite Herr. by eexists _, _.
Qed.

Lemma errorMessage_too_long m frame : 65536 <= len (em_message m) → ∃ e f, Frame_write m frame = (Some e, f).
Proof.
  intros Hl. unfold Frame_write. cbn [msg_write errorMessage_message]. unfold errorMessage_write.
  set (w := NewWriteBuffer _). unfold mbind, st_bind. destruct (WriteSingleByte (errCode m) w) as [[] w1].
  destruct (Span_write (em_tracing m) w1) as [[] w2].
  destruct (WriteLen16String_too_long (em_message m) w2 Hl) as (w3 & -> & [e He]). unfold w_Err. rewrite He. by eexists _, _.
Qed.

(** Telling the peer of an error does not fail in any other way. *)
Lemma error_written m frame c :
  frame_ok frame → span_ok (em_tracing m) →
  ∃ err c', writeMessage frame m c = Ret (err, c') ∧ nc_in c' = nc_in c.
Proof.
  intros Hf Hs. destruct (decide (len (em_message m) < 65536)) as [Hl|Hl].
  - assert (Hm : msg_ok m) by by split. destruct (decide (len (msg_enc m) <= MaxFramePayloadSize)) as [He|He].
    + destruct (writeMessage_fits m frame Hf Hm He) as [wire HW]. rewrite HW. destruct (nc_werr c); by eexists _, _.
    + destruct (Frame_write_too_long m frame Hf Hm ltac:(lia)) as (e & f & E). unfold writeMessage. rewrite E. by eexists _, _.
  - destruct (errorMessage_too_long m frame ltac:(lia)) as (e & f & E). unfold writeMessage. rewrite E. by eexists _, _.
Qed.

(** Reading a message from any stream. *)
Lemma readMessage_total {M} `{Message M} (m : M) frame c :
  frame_ok frame → ∃ id r s, readMessage frame m c = Ret ((id, r), nc_set_in s c).
Proof.
  intros Hf. destruct (ReadIn_total (nc_in c) frame Hf) as (err & f & s & E & Hf' & _ & Hsp). unfold readMessage. rewrite E.
  destruct err as [e|]; [by eexists _, _, _|]. destruct (Hsp eq_refl) as (_ & _ & Hp).
  case_decide; [|case_decide; [|by eexists _, _, _]].
  - unfold Frame_read. rewrite Hp. unfold mbind, go_bind. destruct (msg_read m _) as [[m' err] rb]. by eexists _, _, _.
  - unfold readError, Frame_read. rewrite Hp. unfold mbind, go_bind.
    destruct (msg_read (mkErrorMessage _ _ _ _) _) as [[m' err] rb]. cbn. by eexists _, _, _.
Qed.
End facts.

(** ** The handshake *)

(** C10: The two ends of a connection agree.  What outboundHandshake of one channel writes
    is what inboundHandshake of the other reads, and the other way round; both succeed,
    each end knows the other by the host:port, process name and version it announced,
    or by its network address if the host:port is ephemeral or hidden, and nothing that
    follows the handshake has been consumed. *)
Theorem handshake_agrees `{MapRange} isTimeout frameA frameB A B hide addrA addrB restA restB eA eB :
  frame_ok frameA → frame_ok frameB → peer_fits A → peer_fits B →
  ∃ req res,
    outboundHandshake isTimeout frameA A hide (mkNetConn (mkStream (res ++ restA) eA) [] None false addrB)
      = Ret (inl (appears B false addrB), mkNetConn (mkStream restA eA) req None false addrB)
    ∧ inboundHandshake isTimeout frameB B (mkNetConn (mkStream (req ++ restB) eB) [] None false addrA)
      = Ret (inl (appears A hide addrA), mkNetConn (mkStream restB eB) res None false addrA).
Proof.
  intros HfA HfB HA HB.
  destruct (init_message_fits A hide 1 HA) as [HA1 HA2], (init_message_fits B false 1 HB) as [HB1 HB2].
  destruct (message_delivered (mkInitReq (getInitMessage A hide 1)) frameA HfA) as (req & HWreq & HRreq); [exact HA1|cbn; lia|done|].
  destruct (message_delivered (mkInitRes (getInitMessage B false 1)) frameB HfB) as (res & HWres & HRres); [exact HB1|cbn; lia|done|].
  exists req, res. split.
  - unfold outboundHandshake, outboundInit. cbv zeta.
    rewrite (gost_bind_run _ _ _ (inl (appears B false addrB)) (mkNetConn (mkStream restA eA) req None false addrB)); [done|].
    erewrite gost_bind_run by (by apply HWreq). cbv beta iota.
    erewrite gost_bind_run by (by apply (HRres frameA (mkInitRes emptyInit) _ restA eA)). cbv beta iota zeta.
    rewrite decide_False by (by intros []). rewrite decide_False by (by intros []).
    erewrite gost_bind_run by reflexivity. cbn [nc_set_in nc_sent nc_remoteAddr]. cbn [msg_norm initRes_wire initRes_msg initParams].
    by rewrite parse_init.
  - unfold inboundHandshake, inboundInit.
    rewrite (gost_bind_run _ _ _ (1, inl (appears A hide addrA)) (mkNetConn (mkStream restB eB) res None false addrA)); [done|].
    erewrite gost_bind_run by (by apply (HRreq frameB (mkInitReq emptyInit) _ restB eB)). cbv beta iota zeta.
    rewrite decide_False by (cbn; unfold CurrentProtocolVersion; lia).
    erewrite gost_bind_run by reflexivity. cbn [nc_set_in nc_remoteAddr]. cbn [msg_norm initReq_wire initReq_msg initParams msg_ID initReq_message im_id].
    rewrite parse_init. erewrite gost_bind_run by (by apply HWres). done.
Qed.

Lemma initError_closes isTimeout frame id err c :
  frame_ok frame → ∃ e c', initError isTimeout frame id err c = Ret (e, c') ∧ nc_closed c' = true ∧ e ≠ Sentinel io_EOF.
Proof.
  intros Hf. unfold initError. cbv zeta. set (e1 := if isTimeout err then _ else err).
  set (e2 := if decide (e1 = Sentinel io_EOF) then _ else e1).
  assert (He2 : e2 ≠ Sentinel io_EOF) by (unfold e2; by case_decide).
  destruct (error_written (mkErrorMessage id (GetSystemErrorCode (Some e2)) emptySpan (Error e2)) frame c Hf) as (x & c1 & E & _).
  { split_and!; done. }
  erewrite gost_bind_run by exact E. eexists e2, _. split; [reflexivity|]. by split.
Qed.

(** What the first message of the peer was. *)
Definition accepted_req `{MapRange} (frame : Frame) (c : NetConn) (p : PeerInfo) : Prop :=
  ∃ id req s, readMessage frame (mkInitReq emptyInit) c = Ret ((id, inl req), nc_set_in s c)
  ∧ CurrentProtocolVersion <= Version (initReq_msg req)
  ∧ parseRemotePeer (initParams (initReq_msg req)) (nc_remoteAddr c) = inl p.

Definition accepted_res `{MapRange} (frame : Frame) (c : NetConn) (p : PeerInfo) : Prop :=
  ∃ res s, readMessage frame (mkInitRes emptyInit) c = Ret ((1, inl res), nc_set_in s c)
  ∧ Version (initRes_msg res) = CurrentProtocolVersion
  ∧ parseRemotePeer (initParams (initRes_msg res)) (nc_remoteAddr c) = inl p.

Lemma inboundInit_total `{MapRange} frame local c :
  frame_ok frame → peer_fits local →
  ∃ id r c', inboundInit frame local c = Ret ((id, r), c')
  ∧ match r with inl p => nc_closed c' = nc_closed c ∧ accepted_req frame c p | inr _ => True end.
Proof.
  intros Hf Hl. unfold inboundInit. destruct (readMessage_total (mkInitReq emptyInit) frame c Hf) as (id & r & s & E).
  erewrite gost_bind_run by exact E. cbv beta iota. destruct r as [req|e]; [|by eexists _, _, _].
  case_decide as Hv; [by eexists _, _, _|]. erewrite gost_bind_run by reflexivity. cbn [nc_set_in nc_remoteAddr].
  destruct (parseRemotePeer _ _) as [p|e] eqn:Ep; [|by eexists _, _, _].
  destruct (init_message_fits local false id Hl) as [H1 H2].
  destruct (writeMessage_fits (mkInitRes (getInitMessage local false id)) frame Hf) as [wire HW]; [exact H1|exact H2|].
  unfold mbind, gost_bind. rewrite HW. cbn [nc_set_in nc_werr]. destruct (nc_werr c) as [e|]; [by eexists _, _, _|].
  eexists _, _, _. split; [reflexivity|]. split; [done|]. exists id, req, s. split_and!; [done|lia|done].
Qed.

Lemma outboundInit_total `{MapRange} frame local hide c :
  frame_ok frame → peer_fits local →
  ∃ r c', outboundInit frame local hide c = Ret (r, c')
  ∧ match r with inl p => nc_closed c' = nc_closed c ∧ ∃ sent, accepted_res frame (nc_sent sent c) p | inr _ => True end.
Proof.
  intros Hf Hl. unfold outboundInit. cbv zeta. destruct (init_message_fits local hide 1 Hl) as [H1 H2].
  destruct (writeMessage_fits (mkInitReq (getInitMessage local hide 1)) frame Hf) as [wire HW]; [exact H1|exact H2|].
  unfold mbind at 1, gost_bind at 1. rewrite HW. destruct (nc_werr c) as [e|]; [by eexists _, _|].
  destruct (readMessage_total (mkInitRes emptyInit) frame (nc_sent wire c) Hf) as (id & r & s & E).
  erewrite gost_bind_run by exact E. cbv beta iota. destruct r as [res|e]; [|by eexists _, _].
  case_decide as Hid; [by eexists _, _|]. case_decide as Hv; [by eexists _, _|].
  erewrite gost_bind_run by reflexivity. cbn [nc_set_in nc_sent nc_remoteAddr].
  change (id = 1) in Hid. subst id.
  destruct (parseRemotePeer _ _) as [p|e] eqn:Ep; [|by eexists _, _]. eexists _, _. split; [reflexivity|]. split; [done|].
  exists wire, res, s. split_and!; done.
Qed.

(** C31: A handshake with any peer ends well or is refused.  Whatever the peer sends and
    however the network fails, both handshakes return without a panic.  They give a
    connection only if the peer's first message is an init message of the right type
    (and id), of a supported version, with the required parameters; otherwise the
    network connection has been closed, and an end of the stream is reported as a
    network error. *)
Theorem handshake_total `{MapRange} isTimeout frame local hide c :
  frame_ok frame → peer_fits local →
  (∃ r c', inboundHandshake isTimeout frame local c = Ret (r, c')
   ∧ match r with
     | inl p => nc_closed c' = nc_closed c ∧ accepted_req frame c p
     | inr e => nc_closed c' = true ∧ e ≠ Sentinel io_EOF
     end)
  ∧ ∃ r c', outboundHandshake isTimeout frame local hide c = Ret (r, c')
   ∧ match r with
     | inl p => nc_closed c' = nc_closed c ∧ ∃ sent, accepted_res frame (nc_sent sent c) p
     | inr e => nc_closed c' = true ∧ e ≠ Sentinel io_EOF
     end.
Proof.
  intros Hf Hl. split.
  - unfold inboundHandshake. destruct (inboundInit_total frame local c Hf Hl) as (id & r & c1 & E & Hr).
    erewrite gost_bind_run by exact E. cbv beta iota. destruct r as [p|e]; [by eexists _, _|].
    destruct (initError_closes isTimeout frame id e c1 Hf) as (e' & c2 & E2 & H2 & H3).
    erewrite gost_bind_run by exact E2. by eexists _, _.
  - unfold outboundHandshake. destruct (outboundInit_total frame local hide c Hf Hl) as (r & c1 & E & Hr).
    erewrite gost_bind_run by exact E. cbv beta iota. destruct r as [p|e]; [by eexists _, _|].
    destruct (initError_closes isTimeout frame 1 e c1 Hf) as (e' & c2 & E2 & H2 & H3).
    erewrite gost_bind_run by exact E2. by eexists _, _.
Qed.

(** ** Examples *)

Definition server : PeerInfo := mkPeerInfo (str "10.0.0.1:4040") (str "server") false (mkPeerVersion (str "go") (str "1.15") (str "1.22.0")).
Definition client : PeerInfo := mkPeerInfo ephemeral (str "client") true (mkPeerVersion (str "go") (str "1.15") (str "1.22.0")).
Definition pooled : Frame := NewFrame (Z.to_nat MaxFramePayloadSize).

Lemma pooled_ok : frame_ok pooled.
Proof. apply NewFrame_ok. Qed.

(** The server knows a client that does not listen by its network address. *)
Lemma handshake_agrees_witness :
  ∃ req res c1 c2, let _ := storage_range in
    outboundHandshake (λ _, false) pooled client false (mkNetConn (mkStream res (Sentinel io_EOF)) [] None false (str "10.0.0.1:4040"))
      = Ret (inl server, c1)
    ∧ inboundHandshake (λ _, false) pooled server (mkNetConn (mkStream req (Sentinel io_EOF)) [] None false (str "10.0.0.2:5050"))
      = Ret (inl (mkPeerInfo (str "10.0.0.2:5050") (str "client") true (pi_Version client)), c2).
Proof.
  destruct (@handshake_agrees storage_range (λ _, false) pooled pooled client server false (str "10.0.0.2:5050") (str "10.0.0.1:4040")
    [] [] (Sentinel io_EOF) (Sentinel io_EOF) pooled_ok pooled_ok) as (req & res & H1 & H2).
  - vm_compute. discriminate.
  - vm_compute. discriminate.
  - rewrite app_nil_r in H1, H2. eexists req, res, _, _. split; [exact H1|exact H2].
Defined.

(** A peer that closes the connection at once. *)
Lemma handshake_total_witness :
  ∃ e c', inboundHandshake (H := storage_range) (λ _, false) pooled server (mkNetConn (mkStream [] (Sentinel io_EOF)) [] None false (str "10.0.0.2:5050"))
    = Ret (inr e, c') ∧ nc_closed c' = true ∧ e ≠ Sentinel io_EOF.
Proof.
  destruct (@handshake_total storage_range (λ _, false) pooled server false
    (mkNetConn (mkStream [] (Sentinel io_EOF)) [] None false (str "10.0.0.2:5050")) pooled_ok) as [(r & c' & E & Hr) _].
  - vm_compute. discriminate.
  - destruct r as [p|e]; [|exists e, c'; split; [exact E|exact Hr]]. exfalso.
    destruct Hr as (_ & id & req & s & ER & _).
    assert (Hno : match @readMessage _ (@initReq_message storage_range) pooled (mkInitReq emptyInit)
      (mkNetConn (mkStream [] (Sentinel io_EOF)) [] None false (str "10.0.0.2:5050")) with Ret ((_, inl _), _) => False | _ => True end)
      by (vm_compute; exact I).
    rewrite ER in Hno. exact Hno.
Defined.
