(* ===== verification/Spans.v ===== *)
(** * Spans (tracing.go, parseRemotePeer of preinit_connection.go)

    A call has a span at each end.  The caller starts one and sends its identity twice: in
    the tracing field of the call request, if its tracer knows Zipkin-style identities,
    and in the application headers ([Tracing.v]).  The handler's side starts a span from
    the tracing field if it can, and otherwise from the headers when they have been read.

    The tracer belongs to the OpenTracing library; it is a [Tracer], and what a new span's
    context is ([newContext]) is an argument.  [same_trace] says that two span contexts
    identify the same span, and [zipkin_tracer], [plain_tracer] and [text_tracer] are the
    laws of injecting and extracting.  The theorem shows that, with either kind of tracer,
    the span of the handler is a child of the span of the caller. *)

From S2P Require Import Prelude Text Errors Buffer Messages Tracing.

(** ** The address of the peer *)

Record peerAddressComponents := mkPeerAddressComponents {
  pa_port : Z;
  pa_ipv4 : Z;
  pa_ipv6 : bytes;
  pa_hostname : bytes
}.

(** strconv.ParseUint in base 10; [None] is an error. *)
Fixpoint parseDigits (acc : Z) (s : bytes) : option Z :=
  match s with
  | [] => Some acc
  | b :: s =>
      if decide (48 <= Z_of_byte b <= 57) then parseDigits (acc * 10 + (Z_of_byte b - 48)) s else None
  end.

Definition ParseUint (s : bytes) (bitSize : Z) : option Z :=
  if decide (s = []) then None
  else n ← parseDigits 0 s; if decide (n < 2^bitSize) then Some n else None.

(** IP.To4: addresses have 4 or 16 bytes. *)
Definition To4 (ip : bytes) : option bytes :=
  if decide (length ip = 4%nat) then Some ip
  else if decide (length ip = 16%nat ∧ take 12 ip = replicate 10 x00 ++ [xff; xff]) then Some (drop 12 ip)
  else None.

(** The end of parseRemotePeer, for the host:port it has found; [ParseIP] is net.ParseIP. *)
Definition remotePeerAddress (ParseIP : bytes → option bytes) (hostPort : bytes) : peerAddressComponents :=
  let '(address, port) :=
    match SplitHostPort hostPort with
    | inl (sHost, sPort) => (sHost, default 0 (ParseUint sPort 16))
    | inr _ => (hostPort, 0)
    end in
  if decide (address = str "localhost") then mkPeerAddressComponents port (Z.lor (Z.shiftl 127 24) 1) [] []
  else
    match ParseIP address with
    | Some ip =>
        match To4 ip with
        | Some ip4 => mkPeerAddressComponents port (be_dec ip4) [] []
        | None => mkPeerAddressComponents port 0 address []
        end
    | None => mkPeerAddressComponents port 0 [] address
    end.

(** ** Spans of the tracing library *)

Inductive rpcKind := RPCClient | RPCServer.

(** The tags that are set on spans: those of the package ext, and others by their key. *)
Inductive tag :=
| SamplingPriority (priority : Z)
| SpanKind (kind : rpcKind)
| PeerService (service : bytes)
| PeerHostIPv4 (ip : Z)
| PeerHostIPv6 (ip : bytes)
| PeerHostname (name : bytes)
| PeerPort (port : Z)
| TagAs (format : bytes).

Record Tracer (SC : Type) := mkTracer {
  injectZipkin : SC → Span + error;
  extractZipkin : Span → option SC + error;
  injectTextMap : SC → list (bytes * bytes);
  extractTextMap : list (bytes * bytes) → SC + error;
  baggageItems : SC → list (bytes * bytes)
}.
Arguments mkTracer {SC}.
Arguments injectZipkin {SC}.
Arguments extractZipkin {SC}.
Arguments injectTextMap {SC}.
Arguments extractTextMap {SC}.
Arguments baggageItems {SC}.

(** A span of the OpenTracing library, which is not part of this program, as a record of
    what the program has told it; [sp_baggage] is what SetBaggageItem has set. *)
Record otSpan (SC : Type) := mkOtSpan {
  operationName : bytes;
  sp_parent : option SC;
  sp_context : SC;
  sp_tags : list tag;
  sp_baggage : list (bytes * bytes)
}.
Arguments mkOtSpan {SC}.
Arguments operationName {SC}.
Arguments sp_parent {SC}.
Arguments sp_context {SC}.
Arguments sp_tags {SC}.
Arguments sp_baggage {SC}.

Section spans.
Context {SC : Type} (tracer : Tracer SC) (newContext : option SC → SC).

Definition StartSpan (name : bytes) (parent : option SC) (tags : list tag) : otSpan SC :=
  mkOtSpan name parent (newContext parent) tags [].

Definition setTag (t : tag) (s : otSpan SC) : otSpan SC :=
  mkOtSpan (operationName s) (sp_parent s) (sp_context s) (sp_tags s ++ [t]) (sp_baggage s).

Definition SetBaggageItem (item : bytes * bytes) (s : otSpan SC) : otSpan SC :=
  mkOtSpan (operationName s) (sp_parent s) (sp_context s) (sp_tags s) (sp_baggage s ++ [item]).

Definition setTagIf (b : bool) (t : tag) (s : otSpan SC) : otSpan SC := if b then setTag t s else s.

Definition setPeerHostPort (a : peerAddressComponents) (s : otSpan SC) : otSpan SC :=
  let s := setTagIf (bool_decide (pa_ipv4 a ≠ 0)) (PeerHostIPv4 (pa_ipv4 a)) s in
  let s := setTagIf (bool_decide (pa_ipv6 a ≠ [])) (PeerHostIPv6 (pa_ipv6 a)) s in
  let s := setTagIf (bool_decide (pa_hostname a ≠ [])) (PeerHostname (pa_hostname a)) s in
  setTagIf (bool_decide (pa_port a ≠ 0)) (PeerPort (pa_port a)) s.

(** ** The caller *)

(** initRandom keeps the flags. *)
Definition initRandom (rnd : Z) (s : Span) : Span := mkSpan rnd 0 rnd (flags s).

Definition CurrentSpan (ctxSpan : option (otSpan SC)) : Span :=
  match ctxSpan with
  | Some sp => match injectZipkin tracer (sp_context sp) with inl span => span | inr _ => emptySpan end
  | None => emptySpan
  end.

(** [ctxSpan] is the span of the context; the result is the span and the tracing field of
    the request. *)
Definition startOutboundSpan (ctxSpan : option (otSpan SC)) (tracingDisabled : bool) (rnd : Z)
    (addr : peerAddressComponents) (serviceName methodName : bytes) (req : callReq) : otSpan SC * Span :=
  let parent := sp_context <$> ctxSpan in
  let span := StartSpan methodName parent [] in
  let span := setTagIf tracingDisabled (SamplingPriority 0) span in
  let span := setTag (SpanKind RPCClient) span in
  let span := setTag (PeerService serviceName) span in
  let span := setPeerHostPort addr span in
  let span := setTag (TagAs (default [] (cr_Headers req !! ArgScheme))) span in
  (span, match injectZipkin tracer (sp_context span) with
         | inl s => s
         | inr _ => initRandom rnd (cr_Tracing req)
         end).

(** ** The handler *)

Definition extractInboundSpan (addr : peerAddressComponents) (req : callReq) : option (otSpan SC) :=
  match extractZipkin tracer (cr_Tracing req) with
  | inr _ | inl None => None
  | inl (Some spanCtx) =>
      let span := StartSpan [] (Some spanCtx) [SpanKind RPCServer] in
      let span := setTag (TagAs (default [] (cr_Headers req !! ArgScheme))) span in
      let span := setTag (PeerService (default [] (cr_Headers req !! CallerName))) span in
      Some (setPeerHostPort addr span)
  end.

(** [span] is the span of the response, [headers] is nil or the application headers, which
    lose their tracing keys.  The result is the span of the context and of the response. *)
Definition ExtractInboundSpan `{MapRange} (addr : peerAddressComponents) (method caller format : bytes)
    (span : option (otSpan SC)) (headers : option (gmap bytes bytes))
    : GO tracingKeysMapping (otSpan SC * option (gmap bytes bytes)) :=
  read ← match headers with
         | Some h => x ← Tracing.ExtractInboundSpan h; mret (Some x)
         | None => mret None
         end;
  let extracted := match read with
                   | Some (l, _) => match extractTextMap tracer l with inl sc => Some sc | inr _ => None end
                   | None => None
                   end in
  let headers := snd <$> read in
  match span with
  | Some span =>
      mret (foldl (λ s item, SetBaggageItem item s) span (default [] (baggageItems tracer <$> extracted)), headers)
  | None =>
      let span := StartSpan method extracted [SpanKind RPCServer] in
      let span := setTag (PeerService caller) span in
      let span := setTag (TagAs format) span in
      mret (setPeerHostPort addr span, headers)
  end.
End spans.

(** ** The address of a peer *)

Lemma remotePeerAddress_one ParseIP hostPort :
  let a := remotePeerAddress ParseIP hostPort in
  (pa_ipv6 a = [] ∧ pa_hostname a = []) ∨ (pa_ipv4 a = 0 ∧ (pa_ipv6 a = [] ∨ pa_hostname a = [])).
Proof.
  cbn zeta. unfold remotePeerAddress. destruct (SplitHostPort hostPort) as [[h p]|e]; case_decide; cbn; try by left.
  all: destruct (ParseIP _) as [ip|]; [|cbn; by right; auto]; destruct (To4 ip); cbn; auto.
Qed.

Lemma parseDigits_bound s acc n : 0 <= acc → parseDigits acc s = Some n → 0 <= n.
Proof.
  revert acc. induction s as [|b s IH]; intros acc Ha E; cbn in E; [by simplify_eq|].
  case_decide; [|done]. apply IH in E; lia.
Qed.

(** The port is a 16-bit number whatever the peer has sent as its host:port. *)
Lemma remotePeerAddress_port ParseIP hostPort : 0 <= pa_port (remotePeerAddress ParseIP hostPort) < 2^16.
Proof.
  assert (Hp : ∀ s, 0 <= default 0 (ParseUint s 16) < 2^16).
  { intros s. unfold ParseUint. case_decide; [cbn; lia|].
    destruct (parseDigits 0 s) as [n|] eqn:E; cbn [mbind option_bind]; [|cbn; lia].
    apply parseDigits_bound in E; [|lia]. case_decide; cbn; lia. }
  unfold remotePeerAddress. destruct (SplitHostPort hostPort) as [[h p]|e]; cbn zeta.
  all: case_decide; [cbn; try apply Hp; lia|].
  all: destruct (ParseIP _) as [ip|]; [destruct (To4 ip)|]; cbn; try apply Hp; lia.
Qed.

(** ** What is relied on of a tracer *)

Section laws.
Context {SC : Type} (tracer : Tracer SC) (same_trace : SC → SC → Prop).

(** A tracer that knows Zipkin-style identities. *)
Definition zipkin_tracer : Prop :=
  ∀ sc, ∃ s sc', injectZipkin tracer sc = inl s ∧ extractZipkin tracer s = inl (Some sc') ∧ same_trace sc sc'.

(** One that does not, and says so or finds nothing. *)
Definition plain_tracer : Prop :=
  (∀ sc, ∃ e, injectZipkin tracer sc = inr e) ∧ ∀ s, extractZipkin tracer s = inl None ∨ ∃ e, extractZipkin tracer s = inr e.

(** Text maps, in any order: the last value set for a key counts. *)
Definition text_tracer : Prop :=
  ∀ sc l, (∀ k v, (k, v) ∈ l ↔ (list_to_map (reverse (injectTextMap tracer sc)) : gmap bytes bytes) !! k = Some v) →
  ∃ sc', extractTextMap tracer l = inl sc' ∧ same_trace sc sc' ∧ baggageItems tracer sc' = baggageItems tracer sc.
End laws.

(** ** Spans of a call *)

Section call.
Context {SC : Type} (tracer : Tracer SC) (newContext : option SC → SC).

Lemma baggage_set items (s : otSpan SC) :
  foldl (λ s item, SetBaggageItem item s) s items
  = mkOtSpan (operationName s) (sp_parent s) (sp_context s) (sp_tags s) (sp_baggage s ++ items).
Proof.
  revert s. induction items as [|x items IH]; intros s; cbn; [rewrite app_nil_r; by destruct s|].
  rewrite IH. cbn. by rewrite <- app_assoc.
Qed.

(** Only tags have been added. *)
Definition tagged (s s' : otSpan SC) : Prop :=
  sp_parent s' = sp_parent s ∧ sp_context s' = sp_context s ∧ sp_baggage s' = sp_baggage s ∧ sp_tags s ⊆ sp_tags s'.

#[local] Instance tagged_trans : Transitive tagged.
Proof. intros s1 s2 s3 (? & ? & ? & ?) (? & ? & ? & ?). split_and!; try congruence. by etrans. Qed.

Lemma setTagIf_tagged b t s : tagged s (setTagIf b t s).
Proof. destruct b; cbn; split_and!; try done. cbn. set_solver. Qed.

Lemma setPeerHostPort_tagged a s : tagged s (setPeerHostPort a s).
Proof. unfold setPeerHostPort. do 3 (etrans; [|apply setTagIf_tagged]). apply setTagIf_tagged. Qed.

(** The span that the tracing field gives. *)
Lemma extractInboundSpan_parent addr req sc :
  extractZipkin tracer (cr_Tracing req) = inl (Some sc) →
  ∃ s, extractInboundSpan tracer newContext addr req = Some s ∧ sp_parent s = Some sc ∧ sp_baggage s = []
  ∧ SpanKind RPCServer ∈ sp_tags s ∧ PeerService (default [] (cr_Headers req !! CallerName)) ∈ sp_tags s.
Proof.
  intros E. unfold extractInboundSpan. rewrite E. cbn zeta. eexists. split; [reflexivity|].
  match goal with |- context [setPeerHostPort ?a ?s] => destruct (setPeerHostPort_tagged a s) as (-> & _ & -> & Ht) end.
  cbn in Ht |- *. set_solver.
Qed.

(** The handler's end of a call whose headers show the tracer what [injectTextMap] set. *)
Lemma ExtractInboundSpan_child (same_trace : SC → SC → Prop) `{MapRange} addr method caller format span h l h' dec dec' sc :
  Tracing.ExtractInboundSpan h dec = Ret ((l, h'), dec') → text_tracer tracer same_trace →
  (∀ k v, (k, v) ∈ l ↔ (list_to_map (reverse (injectTextMap tracer sc)) : gmap bytes bytes) !! k = Some v) →
  ∃ s sc', extractTextMap tracer l = inl sc' ∧ same_trace sc sc' ∧ baggageItems tracer sc' = baggageItems tracer sc
  ∧ ExtractInboundSpan tracer newContext addr method caller format span (Some h) dec = Ret ((s, Some h'), dec')
  ∧ match span with
    | Some s0 => sp_parent s = sp_parent s0 ∧ sp_tags s = sp_tags s0 ∧ sp_baggage s = sp_baggage s0 ++ baggageItems tracer sc
    | None => sp_parent s = Some sc' ∧ SpanKind RPCServer ∈ sp_tags s ∧ PeerService caller ∈ sp_tags s
    end.
Proof.
  intros R Htext Hl. destruct (Htext sc l Hl) as (sc' & E & Hsame & Hb).
  unfold ExtractInboundSpan. erewrite gost_bind_run by (by run_with R). cbn zeta. rewrite E.
  destruct span as [s0|]; eexists _, sc'; split_and!; try done.
  - by rewrite baggage_set.
  - by rewrite baggage_set.
  - rewrite baggage_set, E, <- Hb. reflexivity.
  - rewrite (proj1 (setPeerHostPort_tagged _ _)). cbn. by rewrite E.
  - apply (proj2 (proj2 (proj2 (setPeerHostPort_tagged _ _)))). cbn. set_solver.
  - apply (proj2 (proj2 (proj2 (setPeerHostPort_tagged _ _)))). cbn. set_solver.
Qed.

(** What the caller's side starts. *)
Lemma startOutboundSpan_parent ctxSpan disabled rnd addr service method req :
  let '(client, tracing) := startOutboundSpan tracer newContext ctxSpan disabled rnd addr service method req in
  sp_parent client = sp_context <$> ctxSpan
  ∧ tracing = match injectZipkin tracer (sp_context client) with inl s => s | inr _ => initRandom rnd (cr_Tracing req) end.
Proof.
  unfold startOutboundSpan. cbn zeta. split; [|done]. cbn [setTag sp_parent].
  rewrite (proj1 (setPeerHostPort_tagged _ _)). cbn [setTag sp_parent]. by rewrite (proj1 (setTagIf_tagged _ _ _)).
Qed.

(** Headers without tracing keys show the tracer exactly what was set, and come back. *)
Lemma injected_headers `{MapRange} calls headers enc dec :
  cache_ok enc → mapper enc = mapper tracingKeyEncoding → cache_ok dec → mapper dec = mapper tracingKeyDecoding →
  (∀ k, Tracing.HasPrefix k tracingKeyPrefix = true → headers !! k = None) →
  ∃ sent seen enc' dec',
    InjectOutboundSpan (Some calls) headers enc = Ret (sent, enc')
    ∧ Tracing.ExtractInboundSpan sent dec = Ret ((seen, headers), dec')
    ∧ ∀ k v, (k, v) ∈ seen ↔ (list_to_map (reverse calls) : gmap bytes bytes) !! k = Some v.
Proof.
  intros He Hem Hd Hdm Hh.
  destruct (headers_travel (Some calls) headers enc dec He Hem Hd Hdm) as (sent & seen & enc' & dec' & h & Rin & Rout & Hseen & -> & _).
  exists sent, seen, enc', dec'. split_and!; [done| |].
  - rewrite Rout. do 3 f_equal. apply map_eq. intros k. rewrite RemoveTracingKeys_lookup.
    destruct (Tracing.HasPrefix k tracingKeyPrefix) eqn:E; [by rewrite Hh|done].
  - intros k v. rewrite Hseen. cbn [default]. split; [|by left]. intros [?|[_ E]]; [done|].
    rewrite Hh in E by apply HasPrefix_app. done.
Qed.

(** C22: The span of the handler is a child of the span of the caller, which is a child of
    the one in the context of the call.  If the tracer knows Zipkin-style identities, the
    span comes from the tracing field of the request and the headers only add the baggage;
    otherwise it comes from the headers, and the tracing field has random identities, which
    are those of a root span.  Either way the handler's span is marked as that of a server
    and names the caller, and the application gets its own headers back. *)
Theorem trace_propagates (same_trace : SC → SC → Prop) `{MapRange} (ctxSpan : option (otSpan SC)) (disabled : bool)
    (rnd : Z) (addr addr' : peerAddressComponents) (service method : bytes)
    (req : callReq) (headers : gmap bytes bytes) (enc dec : tracingKeysMapping) :
  text_tracer tracer same_trace → zipkin_tracer tracer same_trace ∨ plain_tracer tracer →
  cache_ok enc → mapper enc = mapper tracingKeyEncoding → cache_ok dec → mapper dec = mapper tracingKeyDecoding →
  (∀ k, Tracing.HasPrefix k tracingKeyPrefix = true → headers !! k = None) →
  let '(client, tracing) := startOutboundSpan tracer newContext ctxSpan disabled rnd addr service method req in
  let req' := mkCallReq (cr_id req) (TimeToLive req) tracing (cr_Headers req) (Service req) in
  let caller := default [] (cr_Headers req !! CallerName) in
  ∃ sent enc' server dec' p,
    InjectOutboundSpan (Some (injectTextMap tracer (sp_context client))) headers enc = Ret (sent, enc')
  ∧ ExtractInboundSpan tracer newContext addr' method caller (default [] (cr_Headers req !! ArgScheme))
      (extractInboundSpan tracer newContext addr' req') (Some sent) dec = Ret ((server, Some headers), dec')
  ∧ sp_parent client = sp_context <$> ctxSpan
  ∧ sp_parent server = Some p ∧ same_trace (sp_context client) p
  ∧ SpanKind RPCServer ∈ sp_tags server ∧ PeerService caller ∈ sp_tags server
  ∧ (zipkin_tracer tracer same_trace → sp_baggage server = baggageItems tracer (sp_context client))
  ∧ (plain_tracer tracer → baggageItems tracer p = baggageItems tracer (sp_context client) ∧ spanID tracing = traceID tracing).
Proof.
  intros Htext Hkind He Hem Hd Hdm Hh.
  pose proof (startOutboundSpan_parent ctxSpan disabled rnd addr service method req) as Hstart.
  destruct (startOutboundSpan _ _ _ _ _ _ _ _ _) as [client tracing]. destruct Hstart as [Hparent Htracing]. intros req' caller.
  destruct (injected_headers (injectTextMap tracer (sp_context client)) headers enc dec He Hem Hd Hdm Hh)
    as (sent & seen & enc' & dec' & Rin & Rout & Hseen).
  pose proof (ExtractInboundSpan_child same_trace addr' method caller (default [] (cr_Headers req !! ArgScheme))
    (extractInboundSpan tracer newContext addr' req') sent seen headers dec dec' (sp_context client) Rout Htext Hseen)
    as (server & sc & _ & Hsame & Hbag & Rex & Hserver).
  exists sent, enc', server, dec'. destruct Hkind as [Hz|Hp].
  - destruct (Hz (sp_context client)) as (s & sc' & Ei & Ee & Hsame'). rewrite Ei in Htracing. subst tracing.
    destruct (extractInboundSpan_parent addr' req' sc' Ee) as (s0 & E0 & Hp0 & Hb0 & Hk & Hc).
    rewrite E0 in Hserver. destruct Hserver as (Hp & Ht & Hb). exists sc'.
    split_and!; [done|done|done|congruence|done|by rewrite Ht|by rewrite Ht| |].
    + intros _. by rewrite Hb, Hb0.
    + intros [Hno _]. destruct (Hno (sp_context client)) as [e E]. congruence.
  - destruct Hp as [Hi Hx]. destruct (Hi (sp_context client)) as [e Ei]. rewrite Ei in Htracing. subst tracing.
    assert (E0 : extractInboundSpan tracer newContext addr' req' = None)
      by (unfold extractInboundSpan; destruct (Hx (cr_Tracing req')) as [->|[? ->]]; done).
    rewrite E0 in Hserver. destruct Hserver as (Hp & Hk & Hc). exists sc. split_and!; try done.
    intros Hz. destruct (Hz (sp_context client)) as (s & _ & E & _). congruence.
Qed.
End call.

(** ** A tracer for examples: it knows two traces *)

Definition two_traces (zipkin : bool) : Tracer bool :=
  mkTracer (λ sc, if zipkin then inl (mkSpan (Z.b2z sc) 0 5 x00) else inr (otherError (str "unsupported")))
    (λ s, if zipkin then inl (Some (bool_decide (traceID s = 1))) else inr (otherError (str "unsupported")))
    (λ sc, [(str "trace", if sc then str "1" else str "0")])
    (λ l, inl (bool_decide ((str "trace", str "1") ∈ l)))
    (λ sc, [(str "user", if sc then str "a" else str "b")]).

Lemma two_traces_text zipkin : text_tracer (two_traces zipkin) eq.
Proof.
  intros sc l Hl. specialize (Hl (str "trace") (str "1")). exists sc. split_and!; [|done..]. cbn. f_equal.
  cbn in Hl. rewrite lookup_insert_eq in Hl. destruct sc; [by apply bool_decide_eq_true, Hl|].
  apply bool_decide_eq_false. intros Hin. by apply Hl in Hin.
Qed.

Lemma two_traces_kind zipkin : zipkin_tracer (two_traces zipkin) eq ∨ plain_tracer (two_traces zipkin).
Proof.
  destruct zipkin; [left|right].
  - intros []; eexists _, _; by split_and!.
  - split; [by eexists|]. right. by eexists.
Qed.

Definition example_req : callReq :=
  mkCallReq 3 1000 emptySpan (<[CallerName := str "me"]> (<[ArgScheme := str "json"]> ∅)) (str "svc").

(** A call over each kind of tracer. *)
Lemma trace_propagates_witness :
  ∃ sent server dec sent' server' dec',
    ExtractInboundSpan (H := storage_range) (two_traces true) (default true) (mkPeerAddressComponents 80 0 [] (str "h")) (str "m") (str "me") (str "json")
      (extractInboundSpan (two_traces true) (default true) (mkPeerAddressComponents 80 0 [] (str "h"))
        (mkCallReq 3 1000 (mkSpan 1 0 5 x00) (cr_Headers example_req) (str "svc"))) (Some sent) tracingKeyDecoding
      = Ret ((server, Some {[str "k" := str "v"]}), dec)
  ∧ sp_parent server = Some true ∧ sp_baggage server = [(str "user", str "a")]
  ∧ ExtractInboundSpan (H := storage_range) (two_traces false) (default true) (mkPeerAddressComponents 80 0 [] (str "h")) (str "m") (str "me") (str "json")
      (extractInboundSpan (two_traces false) (default true) (mkPeerAddressComponents 80 0 [] (str "h"))
        (mkCallReq 3 1000 (mkSpan 9 0 9 x00) (cr_Headers example_req) (str "svc"))) (Some sent') tracingKeyDecoding
      = Ret ((server', Some {[str "k" := str "v"]}), dec')
  ∧ sp_parent server' = Some true.
Proof.
  assert (Hh : ∀ k, Tracing.HasPrefix k tracingKeyPrefix = true → ({[str "k" := str "v"]} : gmap bytes bytes) !! k = None).
  { intros k [k' ->]%HasPrefix_inv. apply lookup_singleton_ne. discriminate. }
  assert (Hc : cache_ok tracingKeyEncoding ∧ cache_ok tracingKeyDecoding)
    by (split; (split; [apply map_Forall_empty|vm_compute; lia])).
  destruct (trace_propagates (two_traces true) (default true) eq (H := storage_range) None false 9 (mkPeerAddressComponents 0 1 [] [])
    (mkPeerAddressComponents 80 0 [] (str "h")) (str "svc") (str "m") example_req {[str "k" := str "v"]}
    tracingKeyEncoding tracingKeyDecoding (two_traces_text true) (two_traces_kind true) (proj1 Hc) eq_refl (proj2 Hc) eq_refl Hh)
    as (sent & _ & server & dec & p & _ & R & _ & Hp & Hs & _ & _ & Hb & _).
  destruct (trace_propagates (two_traces false) (default true) eq (H := storage_range) None false 9 (mkPeerAddressComponents 0 1 [] [])
    (mkPeerAddressComponents 80 0 [] (str "h")) (str "svc") (str "m") example_req {[str "k" := str "v"]}
    tracingKeyEncoding tracingKeyDecoding (two_traces_text false) (two_traces_kind false) (proj1 Hc) eq_refl (proj2 Hc) eq_refl Hh)
    as (sent' & _ & server' & dec' & p' & _ & R' & _ & Hp' & Hs' & _).
  exists sent, server, dec, sent', server', dec'. cbn in Hs, Hs'. subst p p'. split_and!; [exact R|exact Hp| |exact R'|exact Hp'].
  apply Hb. destruct (two_traces_kind true) as [Hz|[Hno _]]; [exact Hz|]. destruct (Hno true) as [e E]. discriminate E.
Defined.
