(* ===== verification/Introspection.v ===== *)
(** * Introspection (introspection.go)

    What a channel reports about itself: the state of its connections with their exchanges
    and relayed calls, its peers and peer lists, its subchannels with their handlers, and
    the other channels of the process.  The reports are functions of the states that the
    other files model; the addresses of a connection, its relayer and its socket are in
    [connEnv].  The theorems say what a report means in the states the program can reach:
    which calls are listed, that the counts are the numbers of what is listed, and which
    peers and connections appear.

    A map that is nil is [None]. *)

From stdpp Require Import sorting.
From S2P Require Import Prelude Text Conc Errors Retry Buffer Checksum Frame Messages Fragment Mex ReqRes Health Connection LazyMessages RelaySend Relay RelaySafe RelayRun PeerHeap Peer PeerCorrect PeerShared Channel Registry Handlers Preinit.

Record IntrospectionOptions := mkIntrospectionOptions {
  IncludeExchanges : bool;
  IncludeEmptyPeers : bool;
  IncludeTombstones : bool;
  IncludeOtherChannels : bool
}.
Definition noOptions : IntrospectionOptions := mkIntrospectionOptions false false false false.

(** ** Exchanges *)

Record ExchangeRuntimeState := mkExchangeRuntimeState { ex_ID : Z; ex_MessageType : byte }.
Record ExchangeSetRuntimeState := mkExchangeSetRuntimeState {
  es_Name : bytes;
  es_Count : Z;
  es_Exchanges : option (gmap bytes ExchangeRuntimeState)
}.

(** The exchange a pointer of the map points to. *)
Definition exchange_at (s : messageExchangeSet) (ref : nat) : messageExchange :=
  default (mkMex [] 0 newErrNotifier None 0 x00 false false) (heap s !! ref).

Definition mexset_IntrospectState (opts : IntrospectionOptions) (name : bytes) (s : messageExchangeSet)
    : ExchangeSetRuntimeState :=
  mkExchangeSetRuntimeState name (Z.of_nat (size (exchanges s)))
    (if IncludeExchanges opts then
       Some (kmap Itoa (map_imap (λ k v, Some (mkExchangeRuntimeState k (msgType (exchange_at s v)))) (exchanges s)))
     else None).

(** ** Relayed calls *)

Record RelayItemState := mkRelayItemState { is_ID : Z; is_RemapID : Z; DestinationConnectionID : Z; is_Tomb : bool }.
Record RelayItemSetState := mkRelayItemSetState {
  rs_Name : bytes;
  rs_Count : Z;
  rs_Items : option (gmap bytes RelayItemState)
}.
Record RelayerRuntimeState := mkRelayerRuntimeState {
  rr_Count : Z;
  InboundItems : RelayItemSetState;
  OutboundItems : RelayItemSetState;
  MaxTimeout : Z;
  MaxConnectionTimeout : Z
}.

Definition itemState (opts : IntrospectionOptions) (k : Z) (v : relayItem) : option RelayItemState :=
  if negb (IncludeTombstones opts) && tomb v then None
  else Some (mkRelayItemState k (remapID v) (Z.of_nat (destination v)) (tomb v)).
Definition items_IntrospectState (opts : IntrospectionOptions) (name : bytes) (ri : relayItems) : RelayItemSetState :=
  mkRelayItemSetState name (Count ri)
    (if IncludeExchanges opts then Some (kmap Itoa (map_imap (itemState opts) (items ri))) else None).

(** [maxConnTimeout] is an option of the channel. *)
Definition relayer_IntrospectState (opts : IntrospectionOptions) (maxConnTimeout : Z) (r : Relayer) : RelayerRuntimeState :=
  mkRelayerRuntimeState (Count (r_inbound r) + Count (r_outbound r))
    (items_IntrospectState opts (str "inbound") (r_inbound r))
    (items_IntrospectState opts (str "outbound") (r_outbound r))
    (maxTimeout r) maxConnTimeout.
Definition zeroRelayerState : RelayerRuntimeState :=
  mkRelayerRuntimeState 0 (mkRelayItemSetState [] 0 None) (mkRelayItemSetState [] 0 None) 0 0.

(** ** Connections *)

Record ConnectionRuntimeState := mkConnectionRuntimeState {
  cr_ID : Z;
  cr_ConnectionState : bytes;
  LocalHostPort : bytes;
  RemoteHostPort : bytes;
  OutboundHostPort : bytes;
  RemotePeer : PeerInfo;
  InboundExchange : ExchangeSetRuntimeState;
  OutboundExchange : ExchangeSetRuntimeState;
  cr_Relayer : RelayerRuntimeState;
  HealthChecks : list bool;
  LastActivityRead : Z;
  LastActivityWrite : Z;
  SendChQueued : Z;
  SendChCapacity : Z;
  SendBufferUsage : Z;
  SendBufferSize : Z
}.

(** The addresses of the socket, the peer of the handshake, the relayer, if there is one,
    and what the kernel says about the send buffer. *)
Record connEnv := mkConnEnv {
  ce_local : bytes;
  ce_remote : bytes;
  ce_peer : PeerInfo;
  ce_relay : option Relayer;
  ce_sendBuf : Z * Z
}.

Definition ChannelState_String (s : ChannelState) : bytes :=
  match s with
  | ChannelClient => str "ChannelClient"
  | ChannelListening => str "ChannelListening"
  | ChannelStartClose => str "ChannelStartClose"
  | ChannelInboundClosed => str "ChannelInboundClosed"
  | ChannelClosed => str "ChannelClosed"
  end.

Section channel.
Context (env : nat → connEnv) (maxConnTimeout : Z).

Definition conn_IntrospectState (opts : IntrospectionOptions) (ch : Channel) (i : nat) : ConnectionRuntimeState :=
  let c := conn ch i in
  mkConnectionRuntimeState (Z.of_nat i) (connectionState_String (c_state c))
    (ce_local (env i)) (ce_remote (env i)) (outboundHP (ch_info ch i)) (ce_peer (env i))
    (mexset_IntrospectState opts (str "inbound") (c_inbound c))
    (mexset_IntrospectState opts (str "outbound") (c_outbound c))
    (match ce_relay (env i) with
     | Some r => relayer_IntrospectState opts maxConnTimeout r
     | None => zeroRelayerState
     end)
    (asBools (c_history c))
    (lastActivityRead (ch_info ch i)) (lastActivityWrite (ch_info ch i))
    (len (c_sendCh c)) (Z.of_nat (c_sendCap c)) (ce_sendBuf (env i)).1 (ce_sendBuf (env i)).2.

Definition getConnectionRuntimeState (opts : IntrospectionOptions) (ch : Channel) (conns : list nat)
    : list ConnectionRuntimeState := conn_IntrospectState opts ch <$> conns.

(** ** Peers *)

Record PeerRuntimeState := mkPeerRuntimeState {
  pr_HostPort : bytes;
  OutboundConnections : list ConnectionRuntimeState;
  InboundConnections : list ConnectionRuntimeState;
  ChosenCount : Z;
  SCCount : Z
}.
Record SubPeerScore := mkSubPeerScore { sc_HostPort : bytes; sc_Score : Z }.

Definition peer_IntrospectState (opts : IntrospectionOptions) (ch : Channel) (p : nat) : PeerRuntimeState :=
  let x := w_peer (ch_peers ch) p in
  mkPeerRuntimeState (hostPort x)
    (getConnectionRuntimeState opts ch (outboundConnections x))
    (getConnectionRuntimeState opts ch (inboundConnections x))
    (chosenCount x) (scCount x).

(** The peers of a copy of the list, in the order of iteration. *)
Definition fromPeer (opts : IntrospectionOptions) (ch : Channel) (m : gmap bytes PeerRuntimeState) (p : nat)
    : gmap bytes PeerRuntimeState :=
  let st := peer_IntrospectState opts ch p in
  if bool_decide (0 < len (InboundConnections st) + len (OutboundConnections st)) || IncludeEmptyPeers opts
  then <[hostPort (w_peer (ch_peers ch) p) := st]> m else m.
Definition root_IntrospectState (opts : IntrospectionOptions) (ch : Channel) : gmap bytes PeerRuntimeState :=
  foldl (fromPeer opts ch) ∅ (map_to_list (root (ch_peers ch))).*2.

Definition IntrospectList (w : Peers) (l : nat) : list SubPeerScore :=
  (λ r, mkSubPeerScore (hostPort (w_peer w (ps_Peer (score_of w l r)))) (score (score_of w l r)))
    <$> peerScores (peerHeap_ (w_list w l)).

(** ** Subchannels *)

Inductive handlerType := methodHandler | overrideHandler.
Record HandlerRuntimeState := mkHandlerRuntimeState { h_Type : handlerType; h_Methods : option (list bytes) }.
Record SubChannelRuntimeState := mkSubChannelRuntimeState {
  sr_Service : bytes;
  sr_Isolated : bool;
  IsolatedPeers : option (list SubPeerScore);
  sr_Handler : HandlerRuntimeState
}.

(** A subchannel whose handler is not known has the nil one. *)
Definition sub_IntrospectState (ch : Channel) (hs : handlersState) (k : bytes) (l : nat) : SubChannelRuntimeState :=
  let isolated := bool_decide (l ≠ 0%nat) in
  mkSubChannelRuntimeState k isolated
    (if isolated then Some (IntrospectList (ch_peers ch) l) else None)
    (match default (scUser None) (hs_subs hs !! k) with
     | hmapAt loc =>
         mkHandlerRuntimeState methodHandler (Some (sortStrings (map_to_list (default ∅ (hs_maps hs !! loc))).*1))
     | scUser _ => mkHandlerRuntimeState overrideHandler None
     end).
Definition subs_IntrospectState (ch : Channel) (hs : handlersState) : gmap bytes SubChannelRuntimeState :=
  map_imap (λ k l, Some (sub_IntrospectState ch hs k l)) (ch_subChannels ch).

(** ** The channel *)

Record LocalPeerInfo := mkLocalPeerInfo { lp_PeerInfo : PeerInfo; lp_ServiceName : bytes }.
Record ChannelInfo := mkChannelInfo { ci_ID : Z; ci_CreatedStack : bytes; ci_LocalPeer : LocalPeerInfo }.

(** Of a channel: the stack it was created at and its local peer. *)
Context (createdStack : chan → bytes) (PeerInfo_ : chan → LocalPeerInfo).

Definition ReportInfo (c : chan) : ChannelInfo := mkChannelInfo (chID c) (createdStack c) (PeerInfo_ c).

Definition IntrospectOthers (opts : IntrospectionOptions) (self : chan) (existing : channelMap)
    : option (gmap bytes (list ChannelInfo)) :=
  if IncludeOtherChannels opts then
    Some ((λ channels : list chan, ReportInfo <$> filter (λ c, self ≠ c) channels) <$> existing)
  else None.

Record RuntimeState := mkRuntimeState {
  rt_ID : Z;
  rt_ChannelState : bytes;
  rt_CreatedStack : bytes;
  rt_LocalPeer : LocalPeerInfo;
  SubChannels : gmap bytes SubChannelRuntimeState;
  RootPeers : gmap bytes PeerRuntimeState;
  rt_Peers : list SubPeerScore;
  NumConnections : Z;
  Connections : list Z;
  InactiveConnections : list ConnectionRuntimeState;
  OtherChannels : option (gmap bytes (list ChannelInfo));
  RuntimeVersion : bytes * bytes
}.

Definition IntrospectState (goVersion libraryVersion : bytes) (opts : option IntrospectionOptions) (self : chan) (ch : Channel)
    (hs : handlersState) (existing : channelMap) : RuntimeState :=
  let opts := default noOptions opts in
  let conns := elements (ch_conns ch) in
  mkRuntimeState (chID self) (ChannelState_String (ch_state ch)) (createdStack self) (PeerInfo_ self)
    (subs_IntrospectState ch hs) (root_IntrospectState opts ch) (IntrospectList (ch_peers ch) 0)
    (Z.of_nat (size (ch_conns ch))) (Z.of_nat <$> conns)
    (getConnectionRuntimeState opts ch (filter (λ i, c_state (conn ch i) ≠ connectionActive) conns))
    (IntrospectOthers opts self existing) (goVersion, libraryVersion).

Definition IntrospectNumConnections (ch : Channel) : Z := Z.of_nat (size (ch_conns ch)).

(** handleIntrospection: [unmarshal] gives the options and the id it could read, [state]
    the report of a channel; the error is the id that was not found. *)
Definition handleIntrospection (unmarshal : bytes → IntrospectionOptions * option Z)
    (state : chan → IntrospectionOptions → RuntimeState) (self : chan) (existing : channelMap) (arg3 : bytes)
    : RuntimeState + Z :=
  match unmarshal arg3 with
  | (opts, None) => inl (state self opts)
  | (opts, Some id) =>
      match findChannelByID id existing with
      | Some c => inl (state c opts)
      | None => inr id
      end
  end.
End channel.

(** ** Stacks *)

(** runtime.Stack of a trace that may be another one each time: it writes as much as fits
    and returns how much that was. *)
Definition Stack (trace : bytes) (n : Z) : bytes := take (Z.to_nat n) trace.

(** The rounds with the buffers of [n], 2 [n], ... bytes; [buf] is the last one, with what
    it was not filled with. *)
Fixpoint getStacks_from (fuel : nat) (traces : nat → bytes) (i : nat) (n : Z) (buf : bytes) : go bytes :=
  if decide (n < 10 * 1024 * 1024) then
    match fuel with
    | O => OutOfFuel
    | S fuel =>
        let got := Stack (traces i) n in
        let buf := got ++ replicate (Z.to_nat n - length got) x00 in
        if decide (len got < n) then Ret got
        else getStacks_from fuel traces (S i) (n * 2) buf
    end
  else Ret buf.
Definition getStacks (traces : nat → bytes) : go bytes := getStacks_from 12 traces 0 4096 [].

(** ** Exchanges that are listed *)

Lemma map_imap_total {A B} (f : Z → A → B) (m : gmap Z A) k : map_imap (λ k v, Some (f k v)) m !! k = f k <$> m !! k.
Proof. rewrite map_lookup_imap. by destruct (m !! k). Qed.

Lemma size_imap_total {A B} (f : Z → A → B) (m : gmap Z A) : size (map_imap (λ k v, Some (f k v)) m) = size m.
Proof.
  rewrite <- !size_dom. f_equal. apply set_eq. intros k. by rewrite !elem_of_dom, map_imap_total, fmap_is_Some.
Qed.

Lemma size_kmap_Itoa {A} (m : gmap Z A) : size (kmap Itoa m : gmap bytes A) = size m.
Proof.
  induction m as [|k x m Hk IH] using map_ind; [by rewrite kmap_empty, !map_size_empty|].
  rewrite (kmap_insert Itoa), !map_size_insert_None; [by rewrite IH|done|]. by rewrite (lookup_kmap Itoa).
Qed.

(** The exchanges of a set in any state it can reach: the count is the number of
    exchanges that are listed, and these are, of ids that have not been reused while they
    were expired, the ones that have been neither shut down nor expired, each under its id
    and with its type. *)
Theorem exchanges_listed opts name R s :
  mexset_run R s → IncludeExchanges opts = true →
  let st := mexset_IntrospectState opts name s in
  ∃ l, es_Exchanges st = Some l ∧ es_Count st = Z.of_nat (size l)
  ∧ ∀ id x, id ∉ R → l !! Itoa id = Some x ↔
      ∃ ref m, heap s !! ref = Some m ∧ msgID m = id ∧ shutdownAtomic m = false ∧ id ∉ expiredExchanges s
      ∧ x = mkExchangeRuntimeState id (msgType m).
Proof.
  intros [I1 I2 I3 I4 I5]%run_inv Hopt st. eexists. unfold st, mexset_IntrospectState. cbn [es_Exchanges es_Count].
  rewrite Hopt. split; [reflexivity|]. split; [by rewrite size_kmap_Itoa, size_imap_total|].
  intros id x HR. rewrite lookup_kmap by apply _. rewrite map_imap_total, fmap_Some. split.
  - intros (ref & Hex & ->). destruct (I1 _ _ Hex) as (m & Hm & Hid & Hs). exists ref, m. split_and!; [done..| |].
    + intros Hin. destruct (I2 _ Hin HR). congruence.
    + unfold exchange_at. by rewrite Hm.
  - intros (ref & m & Hm & <- & Hs & Hn & ->). exists ref. destruct (I3 _ _ Hm Hs HR) as [Hex|?]; [|done].
    split; [done|]. unfold exchange_at. by rewrite Hm.
Qed.

(** ** Relayed calls that are listed *)

Lemma items_live opts m : IncludeTombstones opts = false → size (map_imap (itemState opts) m) = size (live_items m).
Proof.
  intros Ho. rewrite <- !size_dom. f_equal. apply set_eq. intros k.
  rewrite !elem_of_dom, map_lookup_imap. unfold live_items. rewrite map_lookup_filter. unfold itemState. rewrite Ho.
  destruct (m !! k) as [i|]; cbn; [|done]. rewrite !is_Some_alt.
  destruct (tomb i) eqn:Ht; cbn; repeat case_guard; try done; cbn in *; congruence.
Qed.

(** What a relayer reports in any state the relay can reach: its count is the number of
    pending calls of its connection and the sum of the counts of its two maps, each count
    is the number of items that are listed when tombs are left out, a listed item is the
    item of its id with its mapped id and the connection it is relayed to, and tombs are
    listed exactly when they are asked for. *)
Theorem relay_listed g w opts t r :
  config_ok g → relay_steps (relay_init g) w → IncludeExchanges opts = true →
  let st := relayer_IntrospectState opts t (w_relayer w r) in
  c_pending (conn_of w r) = Some (rr_Count st)
  ∧ rr_Count st = rs_Count (InboundItems st) + rs_Count (OutboundItems st)
  ∧ ∀ side, let x := match side with inboundItems => InboundItems st | outboundItems => OutboundItems st end in
    ∃ l, rs_Items x = Some l
    ∧ (IncludeTombstones opts = false → rs_Count x = Z.of_nat (size l))
    ∧ ∀ id y, l !! Itoa id = Some y ↔
        ∃ i, items (get_items (r, side) w) !! id = Some i ∧ (tomb i = true → IncludeTombstones opts = true)
        ∧ y = mkRelayItemState id (remapID i) (Z.of_nat (destination i)) (tomb i).
Proof.
  intros Hg Hr Hopt st. pose proof (relay_steps_ok g w Hg Hr) as Hw.
  assert (Hcount : ∀ ref, Count (get_items ref w) = nlive (items (get_items ref w))).
  { intros ref. destruct (b_tombs _ _ _ _ Hw ref) as (H1 & _). unfold Count. rewrite H1. apply size_live_tomb. }
  split_and!.
  - rewrite (b_pending _ _ _ _ Hw r). f_equal. unfold no_debt, relayer_live, st, relayer_IntrospectState. cbn [rr_Count].
    pose proof (Hcount (r, inboundItems)) as Hi. pose proof (Hcount (r, outboundItems)) as Ho. cbn [get_items fst snd] in Hi, Ho. lia.
  - done.
  - intros side x. assert (Ex : x = items_IntrospectState opts (rs_Name x) (get_items (r, side) w)) by (by destruct side).
    rewrite Ex. unfold items_IntrospectState. cbn [rs_Items rs_Count]. rewrite Hopt. eexists. split; [reflexivity|]. split.
    + intros Ht. by rewrite size_kmap_Itoa, (items_live opts _ Ht), (Hcount (r, side)).
    + intros id y. rewrite lookup_kmap by apply _. rewrite map_lookup_imap, bind_Some. split.
      * intros (i & Hi & Hy). exists i. unfold itemState in Hy. destruct (IncludeTombstones opts), (tomb i); cbn in Hy; by simplify_eq.
      * intros (i & Hi & Ht & ->). exists i. split; [done|]. unfold itemState. destruct (tomb i); [|by rewrite andb_false_r].
        by rewrite Ht.
Qed.

(** ** Peers that are listed *)

Lemma list_reported N w l : peers_ok N w →
  NoDup (sc_HostPort <$> IntrospectList w l)
  ∧ ∀ hp s, mkSubPeerScore hp s ∈ IntrospectList w l ↔
      ∃ r, pl_byHostPort (w_list w l) !! hp = Some r ∧ score (score_of w l r) = s.
Proof.
  intros Hok. unfold IntrospectList. split.
  - rewrite <- list_fmap_compose. apply NoDup_fmap_2_strong.
    + intros r r' Hr Hr' E. apply (ok_members _ _ Hok) in Hr, Hr'. change (hp_of w l r = hp_of w l r') in E. congruence.
    + apply wf_nodup, (ok_heap _ _ Hok).
  - intros hp s. rewrite list_elem_of_fmap. split.
    + intros (r & [= -> ->] & Hr). exists r. split; [by apply (ok_members _ _ Hok)|done].
    + intros (r & Hr & <-). exists r. destruct (ok_map _ _ Hok _ _ _ Hr) as [Hin _]. split; [|done].
      f_equal. assert (Hl : listed w l hp = Some (ps_Peer (score_of w l r))) by (unfold listed; by rewrite Hr).
      by destruct (ok_root _ _ Hok _ _ (ok_shared _ _ Hok _ _ _ Hl)).
Qed.

(** Which peers of the root list are shown. *)
Definition shown (opts : IntrospectionOptions) (x : Peer) : bool :=
  bool_decide (0 < len (inboundConnections x) + len (outboundConnections x)) || IncludeEmptyPeers opts.

Section channel_specs.
Context (env : nat → connEnv) (t : Z).

Lemma fromPeer_shown opts ch m p :
  fromPeer env t opts ch m p = if shown opts (w_peer (ch_peers ch) p)
    then <[hostPort (w_peer (ch_peers ch) p) := peer_IntrospectState env t opts ch p]> m else m.
Proof.
  unfold fromPeer, shown, peer_IntrospectState, getConnectionRuntimeState. cbn [InboundConnections OutboundConnections].
  by rewrite !length_fmap.
Qed.

Lemma fold_peers opts ch kvs : ∀ m, NoDup kvs.*1 → Forall (λ kv, hostPort (w_peer (ch_peers ch) kv.2) = kv.1) kvs →
  (∀ k, k ∈ kvs.*1 → m !! k = None) → ∀ hp,
  foldl (fromPeer env t opts ch) m kvs.*2 !! hp =
    match (list_to_map kvs : gmap bytes nat) !! hp with
    | Some p => if shown opts (w_peer (ch_peers ch) p) then Some (peer_IntrospectState env t opts ch p) else None
    | None => m !! hp
    end.
Proof.
  induction kvs as [|[k p] kvs IH]; intros m Hnd Hk Hm hp; [done|]. cbn [fmap list_fmap foldl fst snd].
  apply NoDup_cons in Hnd as [Hnk Hnd]. apply Forall_cons in Hk as [Hkp Hk]. cbn in Hkp.
  rewrite IH; [|done|done|].
  - cbn [list_to_map foldr fst snd]. destruct (decide (hp = k)) as [->|Hne].
    + rewrite lookup_insert. rewrite (proj1 (not_elem_of_list_to_map _ _) Hnk). rewrite decide_True by done.
      rewrite fromPeer_shown, Hkp. destruct (shown opts _); [by rewrite lookup_insert, decide_True|].
      apply Hm. cbn. by left.
    + rewrite lookup_insert_ne by done. destruct (list_to_map kvs !! hp); [done|].
      rewrite fromPeer_shown, Hkp. destruct (shown opts _); [by rewrite lookup_insert_ne|done].
  - intros k' Hk'. rewrite fromPeer_shown, Hkp. assert (k' ≠ k) by (by intros ->).
    assert (m !! k' = None) by (apply Hm; cbn; by right). destruct (shown opts _); [by rewrite lookup_insert_ne|done].
Qed.

Lemma root_reported N opts ch hp : peers_ok N (ch_peers ch) →
  root_IntrospectState env t opts ch !! hp =
    match root (ch_peers ch) !! hp with
    | Some p => if shown opts (w_peer (ch_peers ch) p) then Some (peer_IntrospectState env t opts ch p) else None
    | None => None
    end.
Proof.
  intros Hok. unfold root_IntrospectState. rewrite fold_peers; [by rewrite list_to_map_to_list|apply NoDup_fst_map_to_list| |done].
  apply Forall_forall. intros [k p] Hin%elem_of_map_to_list. by destruct (ok_root _ _ Hok _ _ Hin).
Qed.
End channel_specs.

(** ** The report of a channel *)

Lemma methods_listed (m : gmap bytes (option UserHandler)) :
  Sorted bytes_le (sortStrings (map_to_list m).*1) ∧ ∀ k, k ∈ sortStrings (map_to_list m).*1 ↔ is_Some (m !! k).
Proof.
  split; [apply (Sorted_merge_sort _)|]. intros k. unfold sortStrings. rewrite (merge_sort_Permutation bytes_le).
  rewrite list_elem_of_fmap. split.
  - intros ([k' v] & -> & Hin%elem_of_map_to_list). by eexists.
  - intros [v Hv]. exists (k, v). split; [done|]. by apply elem_of_map_to_list.
Qed.

(** What a channel reports about itself, when its peers are as any sequence of methods
    leaves them: the ids of its connections, each once, and as many as it says; the states
    of exactly those that are not active; for a host:port exactly the peer the root list
    has for it, if it has connections or empty peers are asked for; the peers of the shared
    list, each host:port once and with its score; every subchannel, with the peers of its
    own list when it is isolated and the sorted names of its methods when it has not been
    given a handler; and, if asked for, the other channels of the process but not itself. *)
Theorem channel_reported (env : nat → connEnv) (t : Z) (stack : chan → bytes) (info : chan → LocalPeerInfo)
    (goV libV : bytes) (opts : option IntrospectionOptions) (self : chan) (ch : Channel) (hs : handlersState)
    (existing : channelMap) (N : nat) :
  peers_ok N (ch_peers ch) →
  let o := default noOptions opts in
  let st := IntrospectState env t stack info goV libV opts self ch hs existing in
  (NumConnections st = len (Connections st) ∧ NoDup (Connections st)
   ∧ ∀ i, Z.of_nat i ∈ Connections st ↔ i ∈ ch_conns ch)
  ∧ (∀ x, x ∈ InactiveConnections st ↔
       ∃ i, i ∈ ch_conns ch ∧ c_state (conn ch i) ≠ connectionActive ∧ x = conn_IntrospectState env t o ch i)
  ∧ (∀ hp x, RootPeers st !! hp = Some x ↔
       ∃ p, root (ch_peers ch) !! hp = Some p ∧ shown o (w_peer (ch_peers ch) p) = true
       ∧ x = peer_IntrospectState env t o ch p)
  ∧ (NoDup (sc_HostPort <$> rt_Peers st)
     ∧ ∀ hp s, mkSubPeerScore hp s ∈ rt_Peers st ↔
         ∃ r, pl_byHostPort (w_list (ch_peers ch) 0) !! hp = Some r ∧ score (score_of (ch_peers ch) 0 r) = s)
  ∧ (∀ k x, SubChannels st !! k = Some x →
       ∃ l, ch_subChannels ch !! k = Some l ∧ sr_Service x = k
       ∧ (if decide (l = 0%nat) then IsolatedPeers x = None else IsolatedPeers x = Some (IntrospectList (ch_peers ch) l))
       ∧ match h_Methods (sr_Handler x) with
         | None => ∀ loc, hs_subs hs !! k ≠ Some (hmapAt loc)
         | Some ms => ∃ loc, hs_subs hs !! k = Some (hmapAt loc) ∧ Sorted bytes_le ms
             ∧ ∀ m, m ∈ ms ↔ is_Some (default ∅ (hs_maps hs !! loc) !! m)
         end)
  ∧ (IncludeOtherChannels o = true → ∃ others, OtherChannels st = Some others
     ∧ ∀ svc l, existing !! svc = Some l → others !! svc = Some (ReportInfo stack info <$> filter (λ c, self ≠ c) l)).
Proof.
  intros Hok o st. split_and!.
  - unfold st, IntrospectState. cbn. by rewrite length_fmap.
  - unfold st, IntrospectState. cbn. apply NoDup_fmap_2; [apply _|apply NoDup_elements].
  - intros i. unfold st, IntrospectState. cbn. rewrite list_elem_of_fmap. split.
    + intros (j & E%(inj Z.of_nat) & Hj). subst j. by apply elem_of_elements.
    + intros Hi. exists i. split; [done|by apply elem_of_elements].
  - intros x. unfold st, IntrospectState. cbn. unfold getConnectionRuntimeState. rewrite list_elem_of_fmap.
    split; intros (i & H); exists i; rewrite list_elem_of_filter, elem_of_elements in *; naive_solver.
  - intros hp x. unfold st, IntrospectState. cbn. rewrite (root_reported _ _ _ _ _ _ Hok).
    fold o. destruct (root (ch_peers ch) !! hp) as [p|]; [|by split; [|intros (p & ? & _)]]. split.
    + destruct (shown o (w_peer (ch_peers ch) p)) eqn:Es; [|done]. intros [= <-]. by exists p.
    + intros (p' & [= <-] & -> & ->). done.
  - apply (list_reported _ _ 0 Hok).
  - apply (list_reported _ _ 0 Hok).
  - intros k x. unfold st, IntrospectState, subs_IntrospectState. cbn. rewrite map_lookup_imap, bind_Some.
    intros (l & Hl & [= <-]). exists l. split; [done|]. unfold sub_IntrospectState. cbn. split; [done|]. split.
    + destruct (decide (l = 0%nat)) as [->|Hne]; [done|]. by rewrite bool_decide_true.
    + destruct (hs_subs hs !! k) as [[loc|h]|]; cbn; [|naive_solver..].
      exists loc. split; [done|]. apply methods_listed.
  - intros Ho. unfold st, IntrospectState, IntrospectOthers. cbn. fold o. rewrite Ho. eexists. split; [reflexivity|].
    intros svc l Hl. by rewrite lookup_fmap, Hl.
Qed.

(** A channel is found by its id; without one the channel reports on itself. *)
Lemma handleIntrospection_found unmarshal (state : chan → IntrospectionOptions → RuntimeState) self existing arg3 opts id c :
  unmarshal arg3 = (opts, Some id) → findChannelByID id existing = Some c →
  handleIntrospection unmarshal state self existing arg3 = inl (state c opts) ∧ chID c = id.
Proof.
  intros E Hf. unfold handleIntrospection. rewrite E, Hf. split; [done|].
  unfold findChannelByID in Hf. apply find_some in Hf as [_ Hf]. by apply bool_decide_eq_true in Hf.
Qed.

(** ** Stacks *)

Lemma Stack_length trace n : 0 <= n → len (Stack trace n) = n `min` len trace.
Proof. intros Hn. unfold Stack. rewrite length_take. lia. Qed.

(** getStacks ends, and returns the whole trace if it is shorter than 8 MiB, and otherwise
    its first 8 MiB: the buffers double from 4096 bytes on, and the last one below the
    limit of 10 MiB has 8 MiB. *)
Theorem getStacks_limit trace :
  getStacks (λ _, trace) = Ret (if decide (len trace < 8 * 1024 * 1024) then trace else take (Z.to_nat (8 * 1024 * 1024)) trace).
Proof.
  assert (Hstep : ∀ fuel i n buf, 0 < n < 10 * 1024 * 1024 →
    getStacks_from (S fuel) (λ _, trace) i n buf =
      if decide (len trace < n) then Ret trace else getStacks_from fuel (λ _, trace) (S i) (n * 2) (take (Z.to_nat n) trace)).
  { intros fuel i n buf Hn. cbn [getStacks_from]. rewrite decide_True by lia. pose proof (Stack_length trace n ltac:(lia)) as Hl.
    destruct (decide (len trace < n)).
    - rewrite decide_True by lia. f_equal. unfold Stack. apply take_ge. lia.
    - rewrite decide_False by lia. f_equal. replace (Z.to_nat n - length (Stack trace n))%nat with 0%nat by lia.
      apply app_nil_r. }
  unfold getStacks.
  do 12 (rewrite Hstep by lia; match goal with |- context [decide (len trace < ?n)] =>
    destruct (decide (len trace < n)); [rewrite decide_True by lia; reflexivity|] end).
  rewrite decide_False by lia. reflexivity.
Qed.

(** ** Witnesses *)

(** A channel with the peers of [added], one of which has a connection, and a connection
    that is closing. *)
Definition reporting : Channel :=
  mkChannel ChannelListening (Some false) host1 false {[0; 3]}%nat false (startIdleSweep 0 0) {[str "svc" := 0; str "own" := 1]}%nat 2
    (mkPeers (root added) (w_peer added) (w_nextPeer added) (w_list added)
       (λ i, if decide (i = 3%nat) then c_set_state connectionStartClose up_conn else up_conn))
    (λ _, mkConnInfo [] [] 0 0).
Definition reporting_handlers : handlersState :=
  mkHandlersState (str "svc") {[0%nat := {[str "b" := None; str "a" := None]}]} 1 {[str "svc" := hmapAt 0; str "own" := scUser None]}
    0 channelHandler [].
Definition here : chan := mkChan 1 (str "svc").
Definition anyPeer : PeerInfo := mkPeerInfo [] [] false (mkPeerVersion [] [] []).
Definition example_report (opts : option IntrospectionOptions) : RuntimeState :=
  IntrospectState (λ _, mkConnEnv [] [] anyPeer None (-1, -1)) 0 (λ _, []) (λ _, mkLocalPeerInfo anyPeer []) [] [] opts here
    reporting reporting_handlers {[str "svc" := [here; mkChan 2 (str "svc")]]}.

Lemma peers_ok_conns N w conns : peers_ok N w →
  peers_ok N (mkPeers (root w) (w_peer w) (w_nextPeer w) (w_list w) conns).
Proof. intros Hok. apply (peers_ok_same N w); [done|]. by split. Qed.

Lemma reporting_peers : peers_ok 2 (ch_peers reporting).
Proof.
  unfold reporting. cbn [ch_peers]. apply peers_ok_conns. exact (peers_reachable 2 _ added ltac:(lia) added_steps).
Qed.

Lemma channel_reported_witness :
  RootPeers (example_report None) !! host1 ≠ None ∧ RootPeers (example_report None) !! host2 = None
  ∧ (∃ x, InactiveConnections (example_report None) = [x] ∧ cr_ID x = 3 ∧ cr_ConnectionState x = str "connectionStartClose")
  ∧ h_Methods <$> (sr_Handler <$> SubChannels (example_report None) !! str "svc") = Some (Some [str "a"; str "b"]).
Proof.
  destruct (channel_reported (λ _, mkConnEnv [] [] anyPeer None (-1, -1)) 0 (λ _, []) (λ _, mkLocalPeerInfo anyPeer []) [] [] None
    here reporting reporting_handlers {[str "svc" := [here; mkChan 2 (str "svc")]]} 2 reporting_peers) as (_ & _ & Hr & _).
  split_and!.
  - intros E. apply eq_None_not_Some in E. apply E. eexists. apply (proj2 (Hr host1 _)). exists 0%nat.
    split_and!; [vm_compute; reflexivity|vm_compute; reflexivity|reflexivity].
  - apply eq_None_not_Some. intros [x (p & Hp & Hs & _)%Hr]. assert (p = 1%nat) as -> by (vm_compute in Hp; congruence).
    vm_compute in Hs. discriminate Hs.
  - eexists. split_and!; [vm_compute; reflexivity|reflexivity|reflexivity].
  - vm_compute. reflexivity.
Defined.
